(* ===== verification/_CoqProject ===== *)
-Q . S2P
Prelude.v
Interleave.v
Float64.v
FloatBounds.v
Json.v
Types.v
Config.v
Graph.v
Depth.v
Condition.v
Resolve.v
GoTime.v
Cron.v
Schema.v
Validate.v
ValidateSpec.v
ValidateSafety.v
Dynamic.v
Retry.v
Keys.v
Respond.v
Input.v
Kv.v
Slots.v
Snapshot.v
SnapshotSpec.v
RateLimiter.v
Lease.v
Admission.v
Advance.v
Dispatch.v
Fence.v
Recovery.v
Handlers.v
Script.v
Engine.v
Timers.v
Failures.v
Planners.v
Loops.v
TypedSteps.v
Starts.v
MapSpec.v
WakeSpec.v
Events.v
EventSafety.v
Cluster.v
Journal.v
Submissions.v
JournalCheck.v
JournalSpec.v
Placer.v
PlacerSpec.v
Ci.v
CiJobs.v
CiSpec.v
CiCycles.v
CiBuild.v
Builder.v
BuilderSpec.v
Correlator.v
CorrelatorSpec.v
AckMap.v
AckMapSpec.v
AckClaims.v
AckClaimsSpec.v
Trigger.v
Scheduler.v
Debounce.v
DagTheorems.v
EngineTheorems.v
StoreTheorems.v
EventTheorems.v
JournalTheorems.v
InputTheorems.v
CiTheorems.v
BuilderTheorems.v
CorrelatorTheorems.v
BridgeTheorems.v
TriggerTheorems.v
