(* ===== verification/Prelude.v ===== *)
(** * Verification of the dagnats workflow engine

    dagnats runs workflows, directed acyclic graphs of steps, on NATS.  This
    library models, as executable functions, the parts of the Go program that
    decide: which definitions are accepted, which steps run when, with which
    input, what a worker's event does to a run, how a run recovers and ends; and
    the protocols by which several engines and workers share a run: snapshots
    saved with compare-and-set, concurrency slots, rate limits, singleton locks,
    leases, the journals of agent steps and the inputs sent to them, the index
    of steps that wait for events and the claims of HTTP workers; the triggers
    that start runs; and what produces definitions: the builders of the Go
    library and the compiler of CI specifications.  HTTP, the command line and
    process wiring are not modelled; where a pure function depends on I/O, what
    it reads is an argument.

    ** Parts of the program and files of the development

    The [dag] package is a library of pure functions on definitions and runs;
    [internal/engine] is the orchestrator: it consumes events of the history
    stream, loads the run's snapshot, computes the next state with the pure core
    and the [dag] functions, saves it once and publishes tasks.  Workers run the
    tasks; the worker of an agent step keeps a [journal], one subject of a
    stream, of what it did in each iteration, so that another delivery of the
    task can take over; inputs sent to the step wait in a bucket of submissions
    until a delivery places them.  A worker that speaks HTTP polls the [bridge],
    which keeps the NATS message of each polled task as a claim until the worker
    resolves it or disconnects.  The correlator keeps in memory the waiters of a
    bucket and matches published events against them.  Triggers start runs on
    cron schedules, on messages of a subject, with debouncing, and when runs of
    other workflows end.  The [ci] package compiles
    a ci.yml file into a workflow definition.

    - [Prelude] (this file): errors and panics as the [outcome] monad, 64-bit
      integers with wrap-around, durations, Go string functions, boolean sets.
    - [Interleave]: programs that call a shared world as trees of calls ([prog],
      [io]), a pool of them as an interleaving step relation, the rule that
      proves an invariant of the pool from one of each program, and [drive], an
      executable schedule for concrete instances.
    - [Float64], [FloatBounds], [Json]: IEEE binary64 values as Go's float64 and
      the error of a product of them; JSON documents, the decoding rules of
      encoding/json the program uses, human-readable durations
      (internal/durationjson).
    - [Types], [Config]: the records and enums of dag/types.go and the step
      configurations (dag/config.go, approval.go, planner.go, subworkflow.go,
      waitforevent.go, respond_config.go).
    - [Graph], [Depth]: the dependency graph, cycle detection (dag/validate.go
      [detectCycle]) and chain depth (dag/dynamic.go [maxChainDepth]).
    - [Condition], [Resolve]: skip conditions (dag/condition.go) and the
      resolution of ready and skipped steps, inputs, completion and
      compensation (dag/resolve.go).
    - [GoTime], [Cron]: instants and the civil calendar; cron expressions
      (internal/cronexpr).
    - [Schema]: the JSON schema subset (dag/schema.go, output_schema.go).
    - [Validate], [ValidateSpec], [ValidateSafety]: every validator of
      dag/validate.go and the files it calls; the specification [WellFormed];
      absence of panics.
    - [Dynamic]: planner fragments and effective definitions (dag/dynamic.go,
      internal/engine/planner.go).
    - [Retry], [Keys], [Respond]: dag/retry.go; dag/defkey.go and labels.go;
      dag/validate_respond.go.
    - [Input]: dot paths, sleeps, event matches and priorities at run time
      (dag/dotpath.go, sleep.go, waitforevent.go, priority.go).
    - [Kv]: the interface of a NATS key-value bucket as a class with laws, a
      concrete instance, and worlds in which calls fail, replies are lost and
      reads are stale.
    - [Slots]: run and task slots (internal/engine/concurrency.go).
    - [Snapshot], [SnapshotSpec]: the snapshot store, its indexes, scans, repair
      and pruning (internal/engine/snapshot.go); what a scan returns and what
      the indexes guarantee.
    - [RateLimiter]: token buckets (internal/engine/ratelimit.go) and the checks
      of task_publisher.go.
    - [Lease]: leases and forwarding (internal/lease).
    - [Admission]: admission and singleton locks (internal/engine/admission.go).
    - [Advance]: the pure core (internal/engine/advance.go).
    - [Dispatch]: stamps, ready steps, the step limit and the dispatch pass
      (orchestrator.go [resolveReadySteps], [enqueueReady]; dispatch_stamp.go).
    - [Fence]: events on the wire (protocol/protocol.go), the acceptance rule
      (step_event_fence.go), step.queued and step.started (step_handlers.go).
    - [Recovery]: on-failure handlers, compensation, the end of a run
      (recovery_manager.go, run_event.go).
    - [Handlers]: [handleStepCompleted] and permanent failures, composed of the
      parts above.
    - [Script]: what a handler writes, as a list of loads, saves and amendments;
      ending a run (run_event.go, output_schema.go).
    - [Engine]: the transition system of persisted runs and its invariant.
    - [Timers]: grants, task messages, timer messages and what a firing timer
      publishes (sleeptimer.go, task_publisher.go, grant_policy.go).
    - [Failures]: [handleStepFailed], retries and step timeouts
      (retry_handlers.go).
    - [Planners]: the dispatch pass with a planner per step type and the resend
      of unsent dispatches (orchestrator.go [planDispatch], [runDispatchPlan],
      spawn_handlers.go, map_handlers.go, sleep_handlers.go, wait_handlers.go,
      approval.go, respond_step.go, dispatch_resend.go).
    - [Loops], [TypedSteps]: continues, waits and inputs of agent loops
      (step_handlers.go, agent_inputs.go); the events of maps, waits, approvals,
      child runs and cancellations.
    - [Starts]: workflow.started and workflow.spawn, refusals, repairs and the
      promotion of pending runs (orchestrator.go, spawn_handlers.go).
    - [MapSpec], [WakeSpec]: outputs of maps, the end of a wait, resends.
    - [Events], [EventSafety]: every event as a script (orchestrator.go
      [dispatchEvent], [routeEvent]) and the invariant of stored runs.
    - [Cluster]: engines that load, handle and save one run concurrently
      (orchestrator.go [handleEventWithConflictRetry]).
    - [Journal], [JournalCheck]: the agent journal (journal/journal.go, replay.go,
      inputs.go, read.go) and its audit (journal/check.go).  A handler is a tree
      of journal operations ([act]), a delivery of a task a program that opens
      the journal and runs a handler ([holder]).
    - [JournalSpec]: the invariant of a journal with concurrent deliveries.
    - [Submissions], [Placer], [PlacerSpec]: the submissions of inputs
      (inputs/store.go, internal/natsutil/submissions_bucket.go, kvlist.go), the
      placer of a delivery (internal/inputplace/place.go) as programs of the
      bucket and of the journal, the clients of a step's inputs ([client]) and
      the invariant of both stores.
    - [Ci], [CiJobs]: both shapes of ci.yml, parsed and compiled with accumulated
      diagnostics (ci/spec.go, compile.go, diagnostics.go; jobs.go,
      jobs_guard.go, jobs_compile.go, options.go).
    - [CiSpec], [CiCycles], [CiBuild]: a specification of functions that
      accumulate diagnostics ([dspec]), the screen and the parser of a document;
      the search for cycles; what is built from a clean specification.
    - [Builder], [BuilderSpec]: the fluent builders of workflows and the handles
      of their steps (dag/builder.go, stepref.go, config.go [MarshalConfig]), over
      a store of builders and of the arrays their slices share; the invariant of
      that store, the precondition of every call and the round trips of the
      configurations it writes.
    - [Correlator], [CorrelatorSpec]: the index of waiters, its watch of the
      bucket and the matching of events (internal/engine/correlator.go); the
      invariant that relates the index, the bucket and the updates on their way.
    - [AckMap], [AckMapSpec]: the claims of HTTP workers (bridge/ackmap.go): the
      index by connection, sweeps, evictions, renewals, resolved tasks.
    - [AckClaims], [AckClaimsSpec]: polls, resolves, disconnects and the actions
      that withdraw a task without the claim's mutex, as threads that share the
      claims, and the invariant of their interleavings.
    - [Trigger]: trigger definitions, their validators (internal/trigger/types.go,
      http_config.go, validate.go, validate_external.go, run_terminal.go) and the
      rules they enforce; runs started by the end of other runs
      (registrar_run_terminal.go, run_terminal.go).
    - [Scheduler]: the cron scheduler (internal/trigger/scheduler.go, fire.go):
      claims of minutes, ticks, backfill; the minutes it fires and scans.
    - [Debounce]: debounced subjects (internal/trigger/debounce.go, subject.go) as
      programs of the bucket of windows and of the timers, and their frames.
    - [DagTheorems], [EngineTheorems], [StoreTheorems], [EventTheorems],
      [JournalTheorems], [InputTheorems], [CiTheorems], [BuilderTheorems],
      [CorrelatorTheorems], [BridgeTheorems], [TriggerTheorems]: the properties,
      with concrete instances.

    ** Conventions

    A Go function that returns an error or panics becomes a function to
    [outcome]: [Ret], [Err] or [Panic].  A struct is a record whose fields keep
    the source's names behind a prefix ([sd_] for StepDef, [wd_] for WorkflowDef,
    [ss_] for StepState, [wr_] for WorkflowRun); [step_at] reads a map of step
    states with Go's zero value for a missing key.  A set is a [gmap string
    bool] read with [is_set].  Integers are [Z], wrapped at 64 bits where the
    source can overflow.  Go's map iteration order is a parameter, a permutation
    ([perm], [rule_order]); so are the time zone database ([LoadLocation]), the
    conversion of an out-of-range float ([oob]), fresh identifiers ([new_id]) and
    the clock ([clock]).  Definitions that follow the source step by step stand
    beside specifications that do not ([WellFormed], [acyclic], [longest_chain],
    [denotes], [first_minutes], [conforms], [fragment_ok], [answers], [startable],
    [slots_acquire], [lease_trace], [scan_reference], [sleep_delay]).

    A function that talks to a store is a [prog]: a tree of calls whose replies
    the world chooses.  The laws of the stores ([KvLaws], [LeaseStreamLaws]) are
    the documented behaviour of NATS: a conditional write succeeds only at the
    revision it names, revisions grow.  A world may fail a call before or after
    it took effect and, for reads that a replica may serve, answer with any
    earlier value.  The theorems hold for every instance of the laws; an
    instance is given and drives the concrete schedules.  The stream of a journal
    ([jreply]) stores a message only at the sequence it expects, may answer a
    message ID it holds with the stored sequence, refuse or lose any reply, and
    is read from its leader; its subject is not purged while the step runs.

    Where the program shares memory the model has a store: builders and the
    arrays of their steps are addressed by number, an append writes in place
    while the capacity allows (what it grows to is a parameter), and a built
    definition is an array and a length.  The watch of the waiters is a queue of
    updates not yet delivered.  A method that holds the map's mutex is one step
    of a thread; code that runs outside it is several.  The scheduler's world has
    the list of answers the server will give, which the theorems quantify over.

    Loops run on fuel where their recursion is not structural: [kahn_loop] on
    the number of nodes, [depth_loop] and [closure_loop] on the number of edges
    and nodes, the cron scan on the source's own horizon of minutes, a dispatch
    on one pass per step (each further pass completes a detached sub-workflow),
    the screen of a YAML tree on its nodes, the search for cycles of needs on
    the source's own bound of steps.  The theorems show that this fuel suffices:
    the out-of-fuel branch, a [Panic], is never taken.  The compare-and-set
    loops keep the source's own attempt bounds.

    ** What the theorems show

    - Validation: [Validate] accepts exactly the [WellFormed] definitions, which
      satisfy the rules of its code (three documented rules are not among them,
      which is shown), for every map order, and does not panic on definitions
      with at most one rate limit per step; cycle detection is exact and yields
      a topological order.
    - Resolution: no deadlock, exact inputs at joins, the shape and order of
      compensation chains, skip conditions, planner fragments that keep the
      graph acyclic and bounded.
    - Time, schemas, retries, keys: cron fields, matching and next minutes;
      schema validation; capped delays; version keys and labels.
    - The engine: starting from [Validate], for definitions without failure
      handlers, compensations and detached sub-workflows, every run reachable by
      any sequence of the events [event_ok] admits (no failures of map instances,
      no completions of planners, no reports of undispatched steps), with the
      engine stopping anywhere inside one, keeps dependency order and the step
      limit and is marked completed only when every step is resolved, or is over
      with nothing in flight.  Under completions, started reports and final
      failures whose handlers run to their end, and without respond steps, a run
      has a step in flight until it ends, and a completion that answers the
      dispatch of an ordinary step is applied; a repeated one is ignored.  Agent
      loops are bounded and their waits end once; map outputs are in item order;
      a resend covers exactly what was not sent.
    - Starts: a start creates a valid run, an ended one or an error; a
      redelivered start never recreates a run; children keep their lineage and,
      when the reads of the check are answered, the nesting limit.
    - Several engines: concurrent handlers of one run refine their sequential
      execution, so every stored version keeps the invariant of the engine under
      the same restrictions; no more runs than the limit hold a slot, and
      without stale reads only they work; what a token bucket grants in a span
      of time is bounded by the limit and the rate, for limits not above the
      period, periods below 2^53 ns, clocks below 2^62 and a bounded skew; lease
      streams follow the abstract lease; a singleton lock changes hands only
      when its holder is over, unknown past the grace, unreadable or displaced;
      a forwarded request is processed at most once; an indexed run that was not
      created already over has its liveness marker through crashes; the paged
      scan selects from the newest entries within its fetch limit.
    - Journals: whatever the handlers of any number of deliveries do and however
      their calls interleave, fail or lose replies, no record follows the claim
      that fenced its writer; an unsafe tool starts at most once per key when
      handlers stop using tools after an error and an iteration has messages
      delivered once, or one message delivered twice.
    - Inputs: whatever callers, repairs, sweeps and deliveries do at once, an
      input with a record of its placement has a submission that is placed, done
      or unanswered, so a queued or withdrawn one is not in the conversation.
    - CI: any tree of a specification with jobs compiles to bounded diagnostics or
      to a well-formed workflow with one step per job, without a panic; the
      search for cycles is exact; checks compile without a panic but for two
      cases, which are shown.
    - Builders: after any sequence of calls, the next call returns exactly when
      its documented precondition holds, handles stay on their steps, a
      configuration is read back as written, and [Build] returns exactly the
      definition that was described, when it is valid.
    - Correlation: for waiters whose event type and run have no dot, the index
      is the bucket minus the updates on their way; an event is matched with
      exactly the waiters of its type that its data satisfies, in order; a
      waiter whose event type has a dot is never removed.
    - Claims: a delivery is acknowledged or released under its mutex at most once
      however polls, resolves, disconnects and withdrawals interleave; the maps
      are bounded; a claim with a recent sign of life is dropped only from a full
      map.
    - Triggers: a cron minute fires at most once while the trigger is not
      removed; a backfill replays the first hundred matching minutes that its scan
      reaches, which are the documented ones up to 10000 minutes after the last
      run; when handlers follow one another the last message of a debounce window
      starts one run and stale timers none; chains of runs are bounded and their
      runs named once; the validator accepts exactly the usable definitions.
    - Retries: a retried failure answered the current dispatch and closes it;
      its timer sends the next attempt once, under the recorded nonce.
    - Divergences: exponential delays that escape their cap, compensations
      published out of order, cancelled runs that are dispatched or revived, an
      unsafe tool started or an input placed twice by the third delivery of a
      message, a commit swallowed and an input settled unanswered by a lost reply,
      specifications that make the compiler of checks panic, a workflow changed
      after it was built, a match lost with a failed publication, a delivery of a
      cancelled run both acknowledged and released, a weekly run that a backfill
      misses, a minute fired twice around an update, debounced messages that are
      lost, a child created past the nesting limit and the documented rules that
      validation leaves out are stated as theorems.

    ** What is not modelled, and what comes next

    The theorems about events leave out definitions with failure handlers,
    compensations and detached sub-workflows, completions of planner steps and
    failures of map instances: the handlers are modelled, the invariant does not
    hold for all of them.  That a run always has work in flight is shown for
    handlers that run to their end, and is false of an engine that stops between
    the save of a completion and its dispatch pass.  Which timers of a debounce
    window are still to come is not part of its state.  Of the journal, the
    relayed reads of programs, the guard against a second goroutine, fault
    injection and the readers of the audit are left out; of the submissions, the
    long poll [Await] and the expiry of the bucket, which the theorem about
    inputs assumes not to happen while the step runs; of the claims, the HTTP
    handlers around them and the relays of a journal; of the triggers, the
    service that installs them, webhooks and HTTP triggers.  The reconciler of
    stranded runs, the affinity of sticky workers, the schemas derived from Go
    types and the content hash of a definition (reflection and JSON text of Go
    values) are not modelled. Clients, HTTP, console and process wiring are I/O
    and stay outside, as do metrics, tracing and logging everywhere. *)

From stdpp Require Export base tactics option list gmap sets strings.
From Stdlib Require Export ZArith Lia.
From Stdlib Require Import Ascii.

#[global] Open Scope Z_scope.
#[global] Set Default Goal Selector "!".

(** ** Errors, panics and the outcome monad

    A Go function that returns [(T, error)] and that may panic is a
    function into [outcome T].  An error keeps the format string of the
    [fmt.Errorf] call that built it and its arguments ([%w] wraps another
    error), so that every error branch of the source is a distinct value. *)

Inductive error : Type :=
  | Errorf (fmt : string) (args : list earg)
with earg : Type :=
  | AStr (s : string)
  | AInt (z : Z)
  | AErr (e : error).

Inductive outcome (A : Type) : Type :=
  | Ret (a : A)
  | Err (e : error)
  | Panic (msg : string).
Arguments Ret {A} _.
Arguments Err {A} _.
Arguments Panic {A} _.

#[global] Instance outcome_ret : MRet outcome := λ A a, Ret a.
#[global] Instance outcome_bind : MBind outcome := λ A B f m,
  match m with
  | Ret a => f a
  | Err e => Err e
  | Panic msg => Panic msg
  end.

(** [if b { return fmt.Errorf(...) }] *)
Definition fail_if (b : bool) (e : error) : outcome unit :=
  if b then Err e else Ret tt.

(** [if b { panic(...) }] *)
Definition panic_if (b : bool) (msg : string) : outcome unit :=
  if b then Panic msg else Ret tt.

(** [if err := f(); err != nil { return wrap(err) }]: errors are wrapped,
    panics propagate unchanged. *)
Definition wrap_err {A} (w : error → error) (m : outcome A) : outcome A :=
  match m with
  | Ret a => Ret a
  | Err e => Err (w e)
  | Panic msg => Panic msg
  end.

(** [for _, x := range l { if err := f(x); err != nil { return err } }] *)
Fixpoint for_each {A} (f : A → outcome unit) (l : list A) : outcome unit :=
  match l with
  | [] => Ret tt
  | x :: l' => f x ≫= λ _, for_each f l'
  end.

(** The same loop with the index [for i, x := range l]. *)
Fixpoint for_each_i {A} (f : nat → A → outcome unit) (i : nat) (l : list A)
    : outcome unit :=
  match l with
  | [] => Ret tt
  | x :: l' => f i x ≫= λ _, for_each_i f (S i) l'
  end.

Definition is_panic {A} (m : outcome A) : bool :=
  match m with Panic _ => true | _ => false end.

Definition is_ret {A} (m : outcome A) : bool :=
  match m with Ret _ => true | _ => false end.

Lemma bind_ret_iff {A B} (m : outcome A) (f : A → outcome B) b :
  m ≫= f = Ret b ↔ ∃ a, m = Ret a ∧ f a = Ret b.
Proof. destruct m; simpl; naive_solver. Qed.

Lemma bind_unit_ret_iff {B} (m : outcome unit) (f : unit → outcome B) b :
  m ≫= f = Ret b ↔ m = Ret tt ∧ f tt = Ret b.
Proof. rewrite bind_ret_iff. split; [intros ([] & ? & ?); eauto | naive_solver]. Qed.

Lemma bind_panic_inv {A B} (m : outcome A) (f : A → outcome B) msg :
  m ≫= f = Panic msg → m = Panic msg ∨ ∃ a, m = Ret a ∧ f a = Panic msg.
Proof. destruct m; simpl; naive_solver. Qed.

Lemma fail_if_ret_iff b e : fail_if b e = Ret tt ↔ b = false.
Proof. destruct b; naive_solver. Qed.

Lemma panic_if_ret_iff b msg : panic_if b msg = Ret tt ↔ b = false.
Proof. destruct b; naive_solver. Qed.

Lemma wrap_err_ret_iff {A} w (m : outcome A) a : wrap_err w m = Ret a ↔ m = Ret a.
Proof. destruct m; naive_solver. Qed.

Lemma for_each_ret_iff {A} (f : A → outcome unit) l :
  for_each f l = Ret tt ↔ Forall (λ x, f x = Ret tt) l.
Proof.
  induction l as [|x l IH]; simpl; [by split|].
  by rewrite bind_unit_ret_iff, Forall_cons, IH.
Qed.

Lemma for_each_i_ret_iff {A} (f : nat → A → outcome unit) l : ∀ i,
  for_each_i f i l = Ret tt ↔ ∀ k x, l !! k = Some x → f (i + k)%nat x = Ret tt.
Proof.
  induction l as [|x l IH]; intros i; simpl; [by split|].
  rewrite bind_unit_ret_iff, IH. split.
  - intros [Hx Hl] [|k] y Hk; simplify_eq/=; [by rewrite Nat.add_0_r|].
    rewrite Nat.add_succ_r. by apply (Hl k).
  - intros H. split; [rewrite <-(Nat.add_0_r i); by apply H|].
    intros k y Hk. replace (S i + k)%nat with (i + S k)%nat by lia. by apply H.
Qed.

Lemma for_each_panic_inv {A} (f : A → outcome unit) l msg :
  for_each f l = Panic msg → ∃ x, x ∈ l ∧ f x = Panic msg.
Proof.
  induction l as [|x l IH]; simpl; [done|].
  intros [?|([] & ? & ?)]%bind_panic_inv; [by exists x; split; [left|]|].
  destruct IH as (y & ? & ?); [done|]. exists y; split; [by right|done].
Qed.

(** The rewrite database that turns "this check passed" into the Boolean
    facts it established. *)
Create HintDb go discriminated.
Create Rewrite HintDb go.
#[global] Hint Rewrite @bind_unit_ret_iff @fail_if_ret_iff @panic_if_ret_iff
  @wrap_err_ret_iff @for_each_ret_iff : go.

Ltac go_inv H := autorewrite with go in H; destruct_and? H.

(** ** Machine integers: Go's [int], [int64] and [time.Duration] *)

Definition int64_min : Z := - 2 ^ 63.
Definition int64_max : Z := 2 ^ 63 - 1.
Definition wrap64 (z : Z) : Z := (z + 2 ^ 63) mod 2 ^ 64 - 2 ^ 63.
Definition in_int64 (z : Z) : bool := (int64_min <=? z) && (z <=? int64_max).

Lemma wrap64_bounds z : int64_min ≤ wrap64 z ≤ int64_max.
Proof.
  unfold wrap64, int64_min, int64_max.
  pose proof (Z.mod_pos_bound (z + 2 ^ 63) (2 ^ 64)). lia.
Qed.

Lemma wrap64_id z : in_int64 z = true → wrap64 z = z.
Proof.
  unfold in_int64, wrap64, int64_min, int64_max. intros H.
  rewrite Z.mod_small; lia.
Qed.

(** [time.Duration] constants, in nanoseconds. *)
Definition Millisecond : Z := 1000000.
Definition Second : Z := 1000 * Millisecond.
Definition Minute : Z := 60 * Second.
Definition Hour : Z := 60 * Minute.

(** ** Strings (Go strings are byte sequences) *)

Definition empty_str (s : string) : bool := bool_decide (s = "").

Definition HasPrefix (s p : string) : bool := String.prefix p s.

Definition str_contains_char (c : ascii) : string → bool :=
  fix go s :=
    match s with
    | EmptyString => false
    | String d s' => bool_decide (c = d) || go s'
    end.

(** [strings.Split(s, sep)] for a one-byte separator: never empty, and an
    empty string splits into one empty part. *)
Fixpoint split_char (sep : ascii) (s : string) : list string :=
  match s with
  | EmptyString => [EmptyString]
  | String c s' =>
      if bool_decide (c = sep) then EmptyString :: split_char sep s'
      else match split_char sep s' with
           | [] => [String c EmptyString]
           | p :: ps => String c p :: ps
           end
  end.

(** [strings.SplitN(s, sep, n)] for a one-byte separator and [n > 0]: at
    most [n] parts, the last one unsplit. *)
Fixpoint splitn_char (sep : ascii) (n : nat) (s : string) : list string :=
  match n with
  | O => []
  | S O => [s]
  | S n' =>
      (fix go (t acc : string) : list string :=
         match t with
         | EmptyString => [String.rev acc]
         | String c t' =>
             if bool_decide (c = sep)
             then String.rev acc :: splitn_char sep n' t'
             else go t' (String c acc)
         end) s EmptyString
  end.

Lemma str_app_cons c s t : String c s +:+ t = String c (s +:+ t).
Proof. reflexivity. Qed.
Lemma str_app_nil_l s : "" +:+ s = s.
Proof. reflexivity. Qed.
Lemma str_app_nil_r s : s +:+ "" = s.
Proof. induction s as [|c s IH]; [done|]. by rewrite str_app_cons, IH. Qed.
Lemma str_app_assoc s1 s2 s3 : (s1 +:+ s2) +:+ s3 = s1 +:+ (s2 +:+ s3).
Proof. induction s1 as [|c s1 IH]; [done|]. by rewrite !str_app_cons, IH. Qed.
Lemma str_rev_app s1 : ∀ s2, String.rev_app s1 s2 = String.rev s1 +:+ s2.
Proof.
  induction s1 as [|c s1 IH]; intros s2; [done|]. unfold String.rev. simpl.
  by rewrite !IH, str_app_assoc.
Qed.
Lemma str_rev_cons c s : String.rev (String c s) = String.rev s +:+ String c "".
Proof. unfold String.rev at 1. simpl. apply str_rev_app. Qed.

Fixpoint str_list (s : string) : list ascii :=
  match s with EmptyString => [] | String c s' => c :: str_list s' end.

Definition str_forallb (p : ascii → bool) (s : string) : bool :=
  forallb p (str_list s).

Definition byte_of (c : ascii) : Z := Z.of_N (N_of_ascii c).

Definition in_range (lo hi c : ascii) : bool :=
  (byte_of lo <=? byte_of c) && (byte_of c <=? byte_of hi).

Lemma empty_str_false s : empty_str s = false ↔ s ≠ "".
Proof. apply bool_decide_eq_false. Qed.

Lemma empty_str_true s : empty_str s = true ↔ s = "".
Proof. apply bool_decide_eq_true. Qed.

#[global] Hint Rewrite empty_str_false empty_str_true : go.

(** ** Lists *)

(** The first element satisfying a predicate, as the lookup loops of the
    source find it. *)
Fixpoint find_first {A} (p : A → bool) (l : list A) : option A :=
  match l with
  | [] => None
  | x :: l' => if p x then Some x else find_first p l'
  end.

Lemma find_first_Some {A} (p : A → bool) l x :
  find_first p l = Some x → x ∈ l ∧ p x = true.
Proof.
  induction l as [|y l IH]; simpl; [done|].
  destruct (p y) eqn:?; intros; simplify_eq; [by split; [left|]|].
  destruct IH; [done|]. split; [by right|done].
Qed.

Lemma find_first_None {A} (p : A → bool) l :
  find_first p l = None ↔ ∀ x, x ∈ l → p x = false.
Proof.
  induction l as [|y l IH]; simpl.
  { split; [by intros _ x ?%elem_of_nil|done]. }
  destruct (p y) eqn:Hy.
  - split; [done|]. intros H. specialize (H y). rewrite H in Hy; [done|by left].
  - rewrite IH. split.
    + intros H x [->|?]%elem_of_cons; auto.
    + intros H x ?. apply H. by right.
Qed.

(** ** Sets as [map[string]bool] *)

(** [m[k]]: a missing key reads as false. *)
Definition is_set (m : gmap string bool) (k : string) : bool := default false (m !! k).

Definition set_of (l : list string) : gmap string bool :=
  foldl (λ m k, <[k := true]> m) ∅ l.

Lemma is_set_insert m k k' b :
  is_set (<[k := b]> m) k' = if decide (k = k') then b else is_set m k'.
Proof. unfold is_set. rewrite lookup_insert. by case_decide. Qed.

Lemma is_set_empty k : is_set ∅ k = false.
Proof. unfold is_set. by rewrite lookup_empty. Qed.

Lemma set_of_elem l k : is_set (set_of l) k = true ↔ k ∈ l.
Proof.
  unfold set_of. induction l as [|x l IH] using rev_ind; simpl.
  { rewrite is_set_empty. set_solver. }
  rewrite foldl_snoc, is_set_insert. case_decide; set_solver.
Qed.

(** ** Lists and Booleans *)

Lemma forallb_Forall {A} (p : A → bool) l :
  forallb p l = true ↔ Forall (λ x, p x = true) l.
Proof.
  induction l as [|x l IH]; simpl; [by split|].
  rewrite andb_true_iff, Forall_cons. by rewrite IH.
Qed.

Lemma existsb_Exists {A} (p : A → bool) l :
  existsb p l = true ↔ Exists (λ x, p x = true) l.
Proof.
  induction l as [|x l IH]; simpl.
  { split; [done|inversion 1]. }
  rewrite orb_true_iff, Exists_cons. by rewrite IH.
Qed.
