(* ===== verification/Interleave.v ===== *)
(** * Programs that talk to shared services, and their interleavings

    The components of the engine that keep their state in a NATS bucket (slots,
    locks, leases, snapshots) run in several engines at once.  A Go function
    that makes such calls is a [prog]: a finite tree of calls [Call e k], [k]
    the rest of the function after the reply.  A service is a relation [reply w
    e w' r]: in the world [w], the call [e] may answer [r] and leave [w'].  A
    pool of programs runs by interleaving single calls; a program that never
    moves again is a crashed process.

    The second half is a rely-guarantee logic for such pools: [wp] states what
    one program may assume of the others ([rely]), what each of its own calls
    does ([guar]), and what holds when it returns; [pool_sound] composes the
    programs of a pool. *)

From S2P Require Import Prelude.

(** ** Programs *)

Inductive prog (E : Type → Type) (A : Type) : Type :=
  | Done (a : A)
  | Call (R : Type) (e : E R) (k : R → prog E A).
Arguments Done {E A} _.
Arguments Call {E A R} _ _.

Fixpoint prog_bind {E A B} (f : A → prog E B) (p : prog E A) : prog E B :=
  match p with
  | Done a => f a
  | Call e k => Call e (λ r, prog_bind f (k r))
  end.

#[global] Instance prog_mret {E} : MRet (prog E) := λ A a, Done a.
#[global] Instance prog_mbind {E} : MBind (prog E) := λ A B f p, prog_bind f p.

(** [x ⇐ p; q]: run [p], whatever it returns, and continue. *)
Notation "x ⇐ p ; q" := (prog_bind (λ x, q) p)
  (at level 20, p at level 100, q at level 200, only parsing).

(** A single call. *)
Definition call {E R} (e : E R) : prog E R := Call e Done.

(** A Go function with calls that returns an error or panics. *)
Definition io (E : Type → Type) (A : Type) : Type := prog E (outcome A).

#[global] Instance io_mret {E} : MRet (io E) := λ A a, Done (Ret a).
#[global] Instance io_mbind {E} : MBind (io E) := λ A B f p,
  prog_bind (λ o : outcome A,
    match o with Ret a => f a | Err e => Done (Err e) | Panic s => Done (Panic s) end) p.

Definition io_of {E A} (o : outcome A) : io E A := Done o.
Definition io_err {E A} (e : error) : io E A := Done (Err e).

(** Calls of two services. *)
Inductive sumE (E F : Type → Type) (R : Type) : Type :=
  | CallL (e : E R)
  | CallR (f : F R).
Arguments CallL {E F R} _.
Arguments CallR {E F R} _.

(** A program of one service as a program of a larger one. *)
Fixpoint embed {E F : Type → Type} (h : ∀ R, E R → F R) {A} (p : prog E A) : prog F A :=
  match p with
  | Done a => Done a
  | Call e k => Call (h _ e) (λ r, embed h (k r))
  end.

(** The result of a program whose service is a function of the world. *)
Fixpoint run_prog {W : Type} {E : Type → Type} (h : ∀ R, W → E R → W * R)
    {A} (w : W) (p : prog E A) : W * A :=
  match p with
  | Done a => (w, a)
  | Call e k => let '(w', r) := h _ w e in run_prog h w' (k r)
  end.

Lemma run_prog_bind {W E} (h : ∀ R, W → E R → W * R) {A B} (p : prog E A)
    (f : A → prog E B) : ∀ w,
  run_prog h w (prog_bind f p) =
  let '(w', a) := run_prog h w p in run_prog h w' (f a).
Proof.
  induction p as [a|R e k IH]; intros w; simpl; [done|].
  destruct (h R w e) as [w' r]. apply IH.
Qed.

(** ** Interleaving *)

Section Interleaving.
Context {W : Type} {E : Type → Type}.
Variable reply : ∀ R, W → E R → W → R → Prop.

(** One call of one program. *)
Definition pstep {A} (w : W) (p : prog E A) (w' : W) (p' : prog E A) : Prop :=
  match p with
  | Done _ => False
  | Call e k => ∃ r, reply _ w e w' r ∧ p' = k r
  end.

(** ** Rely-guarantee reasoning *)

Variable I : W → Prop.

Fixpoint wp {A} (rely guar : W → W → Prop) (Φ : A → W → Prop)
    (p : prog E A) (w0 : W) : Prop :=
  match p with
  | Done a => Φ a w0
  | Call e k =>
      ∀ w, rely w0 w → I w → ∀ w' r, reply _ w e w' r →
        I w' ∧ guar w w' ∧ wp rely guar Φ (k r) w'
  end.

Definition stable {A} (rely : W → W → Prop) (Φ : A → W → Prop) : Prop :=
  ∀ a w w', rely w w' → I w' → Φ a w → Φ a w'.

Lemma wp_bind {A B} rely guar (Φ : A → W → Prop) (Ψ : B → W → Prop)
    (p : prog E A) (f : A → prog E B) : ∀ w0,
  wp rely guar Φ p w0 → (∀ a w, Φ a w → wp rely guar Ψ (f a) w) →
  wp rely guar Ψ (prog_bind f p) w0.
Proof.
  induction p as [a|R e k IH]; simpl; intros w0 Hp Hf; [by apply Hf|].
  intros w Hr Hi w' r Hrep. destruct (Hp w Hr Hi w' r Hrep) as (? & ? & ?).
  naive_solver.
Qed.

Lemma wp_mono {A} rely guar guar' (Φ Ψ : A → W → Prop) (p : prog E A) : ∀ w0,
  wp rely guar Φ p w0 → (∀ w w', guar w w' → guar' w w') →
  (∀ a w, Φ a w → Ψ a w) → wp rely guar' Ψ p w0.
Proof.
  induction p as [a|R e k IH]; simpl; intros w0 Hp Hg HΦ; [by apply HΦ|].
  intros w Hr Hi w' r Hrep. destruct (Hp w Hr Hi w' r Hrep) as (? & ? & ?).
  naive_solver.
Qed.

(** What is known of a program survives the steps of the others. *)
Lemma wp_stable {A} rely guar (Φ : A → W → Prop) (p : prog E A) w w' :
  (∀ w1 w2 w3, rely w1 w2 → rely w2 w3 → rely w1 w3) → stable rely Φ →
  rely w w' → I w' → wp rely guar Φ p w → wp rely guar Φ p w'.
Proof.
  intros Htr Hst Hr Hi. destruct p as [a|R e k]; simpl; [by apply Hst|].
  intros Hp w1 Hr1. apply Hp. by eapply Htr.
Qed.

(** Where the others change the world as the program itself does, the world
    the program ends in is one of its futures. *)
Lemma wp_since {A} (R : W → W → Prop) (Φ : A → W → Prop) (p : prog E A) :
  PreOrder R → ∀ w0 w1,
  wp R R Φ p w0 → R w1 w0 → wp R R (λ a w, Φ a w ∧ R w1 w) p w0.
Proof.
  intros HR. induction p as [a|T e k IH]; simpl; intros w0 w1 Hp H10; [done|].
  intros w Hr Hi w' r Hrep. destruct (Hp w Hr Hi w' r Hrep) as (? & ? & ?).
  split_and!; [done..|]. apply IH; [done|]. by etrans; [|etrans].
Qed.

Lemma wp_call {A R} rely guar (Φ : A → W → Prop) (e : E R) (k : R → prog E A) w0 :
  (∀ w w' r, rely w0 w → I w → reply _ w e w' r →
    I w' ∧ guar w w' ∧ wp rely guar Φ (k r) w') →
  wp rely guar Φ (prog_bind k (call e)) w0.
Proof. simpl. naive_solver. Qed.

(** The world may also change by itself (time passes, a key expires). *)
Variable env : W → W → Prop.

Inductive pool_step {A} : W * list (prog E A) → W * list (prog E A) → Prop :=
  | pool_call w ps i p w' p' :
      ps !! i = Some p → pstep w p w' p' →
      pool_step (w, ps) (w', <[i := p']> ps)
  | pool_env w w' ps : env w w' → pool_step (w, ps) (w', ps).

(** Composition: program [i] of a pool relies on what the others and the
    environment guarantee. *)
Section Pool.
Context {A : Type}.
Variables (n : nat) (rely guar : nat → W → W → Prop) (Φ : nat → A → W → Prop).

Definition pool_ok (c : W * list (prog E A)) : Prop :=
  length c.2 = n ∧ I c.1 ∧
  ∀ i p, c.2 !! i = Some p → wp (rely i) (guar i) (Φ i) p c.1.

Hypothesis rely_trans : ∀ i w1 w2 w3,
  rely i w1 w2 → rely i w2 w3 → rely i w1 w3.
Hypothesis rely_refl : ∀ i w, rely i w w.
Hypothesis Φ_stable : ∀ i, stable (rely i) (Φ i).
Hypothesis guar_rely : ∀ i j w w',
  (i < n)%nat → (j < n)%nat → i ≠ j → I w → guar i w w' → rely j w w'.
Hypothesis env_I : ∀ w w', I w → env w w' → I w'.
Hypothesis env_rely : ∀ i w w', I w → env w w' → rely i w w'.

Lemma pool_step_ok c c' : pool_ok c → pool_step c c' → pool_ok c'.
Proof using Type*.
  intros (Hn & Hi & Hps) Hs.
  destruct Hs as [w ps i p w' p' Hp Hst|w w' ps He]; simpl in *.
  - pose proof (Hps i p Hp) as Hwp. destruct p as [|R e k]; [done|].
    destruct Hst as (r & Hrep & ->). simpl in Hwp.
    destruct (Hwp w (rely_refl i w) Hi w' r Hrep) as (Hi' & Hg & Hk).
    pose proof (lookup_lt_Some _ _ _ Hp) as Hlt.
    split_and!; [simpl; by rewrite length_insert|done|]. simpl. intros j q Hj.
    destruct (decide (i = j)) as [->|Hne].
    + rewrite list_lookup_insert_eq in Hj by done. by simplify_eq.
    + rewrite list_lookup_insert_ne in Hj by done.
      apply lookup_lt_Some in Hj as Hltj.
      apply (wp_stable _ _ _ _ w w'); [apply rely_trans|apply Φ_stable|
        apply (guar_rely i j); [lia|lia|done..]|done|by apply Hps].
  - split_and!; [done|by eapply env_I|]. simpl. intros j q Hj.
    by apply (wp_stable _ _ _ _ w w'); [apply rely_trans|apply Φ_stable|
      apply env_rely|eapply env_I|apply Hps].
Qed.

Lemma pool_sound c c' : pool_ok c → rtc pool_step c c' → pool_ok c'.
Proof using Type*.
  intros H Hs. revert H. induction Hs as [|c1 c2 c3 H1 _ IH]; [done|].
  intros H. apply IH. by eapply pool_step_ok.
Qed.

Lemma pool_returned c c' i a :
  pool_ok c → rtc pool_step c c' → c'.2 !! i = Some (Done a) → Φ i a c'.1.
Proof using Type*.
  intros H Hs Hi. destruct (pool_sound c c' H Hs) as (_ & _ & Hp). exact (Hp i (Done a) Hi).
Qed.
End Pool.
End Interleaving.

(** ** Schedules

    A service that answers by a function, and a pool run by a schedule: entry
    [i] makes program [i] perform its next call. *)

Section Drive.
Context {W : Type} {E : Type → Type} {A : Type}.
Variable h : ∀ R, W → E R → W * R.

Definition drive_step (c : W * list (prog E A)) (i : nat) : W * list (prog E A) :=
  match c.2 !! i with
  | Some (Call e k) => let '(w', r) := h _ c.1 e in (w', <[i := k r]> c.2)
  | _ => c
  end.

Definition drive (schedule : list nat) (c : W * list (prog E A)) : W * list (prog E A) :=
  foldl drive_step c schedule.

Lemma drive_rtc (reply : ∀ R, W → E R → W → R → Prop) env schedule :
  (∀ R w e, reply R w e (h R w e).1 (h R w e).2) →
  ∀ c, rtc (pool_step reply env) c (drive schedule c).
Proof.
  intros Hh. induction schedule as [|i schedule IH]; intros c; [done|].
  cbn [drive foldl]. etrans; [|apply IH]. unfold drive_step.
  destruct c as [w ps]. cbn. destruct (ps !! i) as [[a|R e k]|] eqn:Hi; [done| |done].
  destruct (h R w e) as [w' r] eqn:He. apply rtc_once. eapply pool_call; [exact Hi|].
  exists r. split; [|done]. specialize (Hh R w e). by rewrite He in Hh.
Qed.
End Drive.

(** ** Larger worlds

    A program of one service keeps its specification inside a program that also
    uses another one: [proj] is the part of the world the program knows, [P] a
    fact about the rest that the program's owner alone can change. *)

Section Embed.
Context {W1 W2 : Type} {E F : Type → Type} (h : ∀ R, E R → F R) (proj : W2 → W1).
Variables (reply1 : ∀ R, W1 → E R → W1 → R → Prop)
          (reply2 : ∀ R, W2 → F R → W2 → R → Prop).
Variables (I1 : W1 → Prop) (I2 P : W2 → Prop).
Variables (rely1 guar1 : W1 → W1 → Prop) (rely2 guar2 : W2 → W2 → Prop).
Hypothesis rely_proj : ∀ w w', rely2 w w' → rely1 (proj w) (proj w').
Hypothesis I_proj : ∀ w, I2 w → I1 (proj w).
Hypothesis P_stable : ∀ w w', rely2 w w' → P w → P w'.
Hypothesis reply_proj : ∀ R w (e : E R) w' r,
  reply2 R w (h R e) w' r → reply1 R (proj w) e (proj w') r.
Hypothesis frame : ∀ R w (e : E R) w' r,
  P w → I2 w → reply2 R w (h R e) w' r → I1 (proj w') → guar1 (proj w) (proj w') →
  I2 w' ∧ guar2 w w' ∧ P w'.

Lemma wp_embed {A} (Φ : A → W1 → Prop) (p : prog E A) : ∀ w0,
  wp reply1 I1 rely1 guar1 Φ p (proj w0) → P w0 →
  wp reply2 I2 rely2 guar2 (λ a w, Φ a (proj w) ∧ P w) (embed h p) w0.
Proof using Type*.
  induction p as [a|R e k IH]; simpl; intros w0 Hp HP; [done|].
  intros w Hr Hi w' r Hrep.
  destruct (Hp (proj w) (rely_proj _ _ Hr) (I_proj _ Hi) (proj w') r) as (Hi1 & Hg & Hk);
    [by apply reply_proj|].
  destruct (frame _ w e w' r) as (? & ? & ?); eauto.
Qed.
End Embed.
