(* ===== verification/Float64.v ===== *)
(** * IEEE-754 double precision as Go's [float64] uses it

    The executable, axiom-free binary floating point of the Standard
    Library ([SpecFloat]) at precision 53 and exponent bound 1024, with the
    operations the source applies to a [float64]: comparison, product, quotient,
    conversion from [int64] and from a JSON number literal, truncation back
    to [int64], and [math.Pow] at a non-negative integer exponent. *)

From S2P Require Import Prelude.
From Stdlib Require Export SpecFloat.

Definition f64_prec : Z := 53.
Definition f64_emax : Z := 1024.
Definition f64 : Type := spec_float.

(** [float64(z)] for an integer [z]: round to nearest, ties to even. *)
Definition f64_of_Z (z : Z) : f64 := binary_normalize f64_prec f64_emax z 0 false.

Definition f64_mul : f64 → f64 → f64 := SFmul f64_prec f64_emax.
Definition f64_add : f64 → f64 → f64 := SFadd f64_prec f64_emax.
Definition f64_div : f64 → f64 → f64 := SFdiv f64_prec f64_emax.
Definition f64_eqb : f64 → f64 → bool := SFeqb.
Definition f64_ltb : f64 → f64 → bool := SFltb.
Definition f64_leb : f64 → f64 → bool := SFleb.

Definition f64_is_inf (f : f64) : bool :=
  match f with S754_infinity _ => true | _ => false end.

Definition f64_is_nan (f : f64) : bool :=
  match f with S754_nan => true | _ => false end.

Definition f64_one : f64 := f64_of_Z 1.
Definition f64_two : f64 := f64_of_Z 2.
Definition f64_half : f64 := SFldexp f64_prec f64_emax f64_one (-1).

(** The value of the decimal literal [m * 10^e], correctly rounded; [None]
    when it overflows, where [strconv.ParseFloat] reports a range error. *)
Definition f64_of_dec (m e : Z) : option f64 :=
  let f :=
    if 0 <=? e then f64_of_Z (m * 10 ^ e)
    else
      let d := 10 ^ (- e) in
      let k := Z.max 0 (66 + Z.log2 d - Z.log2 (Z.abs m)) in
      let n := Z.abs m * 2 ^ k in
      let q := 2 * (n / d) + (if n mod d =? 0 then 0 else 1) in
      binary_normalize f64_prec f64_emax (Z.sgn m * q) (- (k + 1)) false in
  if f64_is_inf f then None else Some f.

(** The integer part of a finite float, rounded toward zero. *)
Definition f64_trunc (f : f64) : option Z :=
  match f with
  | S754_zero _ => Some 0
  | S754_finite s m e =>
      let a := if 0 <=? e then Z.pos m * 2 ^ e else Z.pos m / 2 ^ (- e) in
      Some (if s then - a else a)
  | _ => None
  end.

(** [int64(f)].  Go leaves the result implementation-defined when the
    truncated value does not fit: [oob] is that implementation's choice. *)
Definition f64_to_int64 (oob : f64 → Z) (f : f64) : Z :=
  match f64_trunc f with
  | Some z => if in_int64 z then z else oob f
  | None => oob f
  end.

(** The multiplication loop of Go's [math.Pow] (package math, pow.go):
    [a1 * 2^ae] accumulates the answer, [x1 * 2^xe] is the current square. *)
Fixpoint pow_loop (i : positive) (a1 : f64) (ae : Z) (x1 : f64) (xe : Z)
    : f64 * Z :=
  if (xe <? - 4096) || (4096 <? xe) then (a1, ae + xe)
  else
    let x2 := f64_mul x1 x1 in
    let '(x2, xe2) :=
      if f64_ltb x2 f64_half then (f64_add x2 x2, 2 * xe - 1)
      else (x2, 2 * xe) in
    match i with
    | xH => (f64_mul a1 x1, ae + xe)
    | xI i' => pow_loop i' (f64_mul a1 x1) (ae + xe) x2 xe2
    | xO i' => pow_loop i' a1 ae x2 xe2
    end.

(** [math.Pow(x, float64(y))] for [x > 0] (or NaN) and an integer [y >= 0]. *)
Definition f64_pow (x : f64) (y : Z) : f64 :=
  if (y =? 0) || f64_eqb x f64_one then f64_one
  else if y =? 1 then x
  else if f64_is_nan x || f64_is_inf x then x
  else
    let '(x1, xe) := SFfrexp f64_prec f64_emax x in
    let '(a1, ae) := pow_loop (Z.to_pos y) f64_one 0 x1 xe in
    SFldexp f64_prec f64_emax a1 ae.

(** Every comparison with a NaN is false. *)
Lemma f64_nan_unordered f :
  f64_ltb S754_nan f = false ∧ f64_leb S754_nan f = false ∧
  f64_ltb f S754_nan = false ∧ f64_leb f S754_nan = false.
Proof. by destruct f as [[]|[]| |[]]. Qed.

(** ** Rounding never makes a NaN *)

Lemma shr_1_nonneg mrs : 0 ≤ shr_m mrs → 0 ≤ shr_m (shr_1 mrs).
Proof. destruct mrs as [[|[]|[]] ? ?]; simpl; lia. Qed.

Lemma iter_shr_nonneg p : ∀ mrs, 0 ≤ shr_m mrs → 0 ≤ shr_m (iter_pos shr_1 p mrs).
Proof. induction p; intros; simpl; auto using shr_1_nonneg. Qed.

Lemma shr_fexp_nonneg prec emax m e l mrs e' :
  0 ≤ m → shr_fexp prec emax m e l = (mrs, e') → 0 ≤ shr_m mrs.
Proof.
  unfold shr_fexp, shr. intros Hm H.
  assert (0 ≤ shr_m (shr_record_of_loc m l)) by (by destruct l as [|[]]).
  case_match; simplify_eq; auto using iter_shr_nonneg.
Qed.

(** ** Rounded mantissas fit the precision *)

Lemma digits2_pos_bound m : Z.pos m < 2 ^ Z.pos (digits2_pos m).
Proof.
  induction m as [m IH|m IH|]; simpl digits2_pos; [| |done];
    rewrite Pos2Z.inj_succ, Z.pow_succ_r by lia; lia.
Qed.

Lemma Zdigits2_bound m : 0 ≤ m → m < 2 ^ Zdigits2 m ∧ 0 ≤ Zdigits2 m.
Proof. intros Hm. destruct m as [|m|m]; simpl; [done| |lia]. split; [apply digits2_pos_bound|done]. Qed.

Lemma shr_1_half mrs : 0 ≤ shr_m mrs → shr_m (shr_1 mrs) = shr_m mrs / 2.
Proof.
  destruct mrs as [[|[p|p|]|p] r s]; simpl; intros H; try done; try lia.
  - rewrite Pos2Z.inj_xI, Z.mul_comm, Z.div_add_l; [done|lia].
  - rewrite Pos2Z.inj_xO, Z.mul_comm, Z.div_mul; [done|lia].
Qed.

Lemma iter_shr_div p : ∀ mrs, 0 ≤ shr_m mrs →
  shr_m (iter_pos shr_1 p mrs) = shr_m mrs / 2 ^ Z.pos p.
Proof.
  induction p as [p IH|p IH|]; intros mrs Hm; simpl iter_pos; [| |by apply shr_1_half].
  - pose proof (shr_1_nonneg _ Hm). rewrite IH, IH, shr_1_half by auto using iter_shr_nonneg.
    rewrite !Z.div_div by lia. f_equal.
    replace (Z.pos p~1) with (Z.pos p + Z.pos p + 1) by lia.
    rewrite !Z.pow_add_r by lia. ring.
  - rewrite IH, IH by auto using iter_shr_nonneg. rewrite Z.div_div by lia. f_equal.
    replace (Z.pos p~0) with (Z.pos p + Z.pos p) by lia. by rewrite Z.pow_add_r by lia.
Qed.

Lemma shr_fexp_small prec emax m e l mrs e' :
  0 < prec → 0 ≤ m → shr_fexp prec emax m e l = (mrs, e') → shr_m mrs < 2 ^ prec.
Proof.
  intros Hprec Hm. unfold shr_fexp, shr. destruct (Zdigits2_bound m Hm) as [Hd Hd0].
  assert (shr_m (shr_record_of_loc m l) = m) as Hr by (by destruct l as [|[]]).
  set (n := fexp prec emax (Zdigits2 m + e) - e).
  assert (Zdigits2 m - prec ≤ n) as Hn by (unfold n, fexp; lia).
  assert (n ≤ 0 → m < 2 ^ prec) as Hsmall.
  { intros. eapply Z.lt_le_trans; [exact Hd|]. apply Z.pow_le_mono_r; lia. }
  destruct n as [|p|p] eqn:Hnp; intros H; simplify_eq; rewrite ?Hr; [apply Hsmall; lia| |apply Hsmall; lia].
  rewrite iter_shr_div by lia. rewrite Hr. apply Z.div_lt_upper_bound; [lia|].
  eapply Z.lt_le_trans; [exact Hd|]. rewrite <-Z.pow_add_r by lia. apply Z.pow_le_mono_r; lia.
Qed.

Lemma binary_round_aux_mantissa prec emax s m e l s' m' e' :
  0 < prec → 0 ≤ m → binary_round_aux prec emax s m e l = S754_finite s' m' e' →
  Z.pos m' < 2 ^ prec.
Proof.
  intros Hp Hm. unfold binary_round_aux.
  destruct (shr_fexp prec emax m e l) as [mrs e1] eqn:H1.
  apply shr_fexp_nonneg in H1; [|done].
  destruct (shr_fexp prec emax (round_nearest_even _ _) e1 loc_Exact) as [mrs2 e2] eqn:H2.
  apply shr_fexp_small in H2; [|done|].
  - destruct (shr_m mrs2); [done| |done]. case_match; [|done]. by intros [= _ <- _].
  - unfold round_nearest_even. repeat case_match; lia.
Qed.

Lemma binary_normalize_mantissa prec emax m e z s' m' e' :
  0 < prec → binary_normalize prec emax m e z = S754_finite s' m' e' → Z.pos m' < 2 ^ prec.
Proof.
  unfold binary_normalize, binary_round. intros Hp.
  destruct m; [done| |]; destruct (shl_align _ _ _); by apply binary_round_aux_mantissa.
Qed.

Lemma binary_round_aux_not_nan prec emax s m e l :
  0 ≤ m → f64_is_nan (binary_round_aux prec emax s m e l) = false.
Proof.
  intros Hm. unfold binary_round_aux.
  destruct (shr_fexp prec emax m e l) as [mrs e1] eqn:H1.
  apply shr_fexp_nonneg in H1; [|done].
  destruct (shr_fexp prec emax (round_nearest_even _ _) e1 loc_Exact) as [mrs2 e2] eqn:H2.
  apply shr_fexp_nonneg in H2.
  - destruct (shr_m mrs2); [done|by case_match|lia].
  - unfold round_nearest_even. repeat case_match; lia.
Qed.

Lemma binary_normalize_not_nan prec emax m e z :
  f64_is_nan (binary_normalize prec emax m e z) = false.
Proof.
  unfold binary_normalize, binary_round.
  destruct m; [done| |]; destruct (shl_align _ _ _); by apply binary_round_aux_not_nan.
Qed.

Lemma f64_of_dec_not_nan m e f : f64_of_dec m e = Some f → f64_is_nan f = false.
Proof.
  unfold f64_of_dec. intros. repeat case_match; simplify_eq; apply binary_normalize_not_nan.
Qed.

Lemma f64_compare_total x y :
  f64_is_nan x = false → f64_is_nan y = false → is_Some (SFcompare x y).
Proof. destruct x as [[]|[]| |[]], y as [[]|[]| |[]]; simpl; try done; intros; by eexists. Qed.

Lemma f64_to_int64_in_range oob f z :
  f64_trunc f = Some z → in_int64 z = true → f64_to_int64 oob f = z.
Proof. unfold f64_to_int64. by intros -> ->. Qed.

Example pow_2_10 : f64_pow f64_two 10 = f64_of_Z 1024.
Proof. reflexivity. Qed.

Example dec_half : f64_of_dec 5 (-1) = Some f64_half.
Proof. reflexivity. Qed.

Example dec_tenth :
  f64_of_dec 1 (-1) = Some (S754_finite false 7205759403792794 (-56)).
Proof. reflexivity. Qed.

Example dec_overflow : f64_of_dec 1 309 = None.
Proof. reflexivity. Qed.

Example trunc_neg : f64_trunc (f64_mul (f64_of_Z (-7)) f64_half) = Some (-3).
Proof. reflexivity. Qed.
