(* ===== verification/FloatBounds.v ===== *)
(** * How far a float computation can exceed the exact value

    Rounding to 53 bits raises a positive value by a factor of at most
    1 + 2^-52.  The rate limiter computes the tokens of an interval as
    [int(float64(elapsed) * (float64(limit) / float64(period)))]: four
    roundings, so the result exceeds [elapsed * limit / period] by a factor of
    at most 1 + 2^-49. *)

From S2P Require Import Prelude Float64.

#[local] Open Scope Z_scope.

(** [m * 2^e], scaled by 2^2000 so that every exponent in use is a natural
    number. *)
Definition mag (m e : Z) : Z := m * 2 ^ (e + 2000).

Lemma mag_pos m e : 0 < m → -2000 ≤ e → 0 < mag m e.
Proof. intros. unfold mag. apply Z.mul_pos_pos; [done|]. apply Z.pow_pos_nonneg; lia. Qed.

Lemma mag_shift m e n : 0 ≤ n → -2000 ≤ e → mag m (e + n) = mag (m * 2 ^ n) e.
Proof.
  intros. unfold mag. rewrite <-Z.mul_assoc, <-Z.pow_add_r by lia. do 2 f_equal. lia.
Qed.

Lemma mag_mono m m' e : -2000 ≤ e → m ≤ m' → mag m e ≤ mag m' e.
Proof.
  intros. unfold mag. apply Z.mul_le_mono_nonneg_r; [|done]. apply Z.pow_nonneg. lia.
Qed.

Lemma digits2_pos_lower m : 2 ^ (Z.pos (digits2_pos m) - 1) ≤ Z.pos m.
Proof.
  induction m as [m IH|m IH|]; simpl digits2_pos; [| |done];
    rewrite Pos2Z.inj_succ; replace (Z.succ (Z.pos (digits2_pos m)) - 1)
      with (Z.succ (Z.pos (digits2_pos m) - 1)) by lia;
    rewrite Z.pow_succ_r by lia; lia.
Qed.

Lemma Zdigits2_lower m : 0 < m → 2 ^ (Zdigits2 m - 1) ≤ m.
Proof. intros. destruct m; simpl; [lia|apply digits2_pos_lower|lia]. Qed.

(** ** One rounding *)

Lemma shr_fexp_below m e l mrs e1 :
  0 < m → -1074 ≤ e → shr_fexp 53 1024 m e l = (mrs, e1) →
  e ≤ e1 ∧ 0 ≤ shr_m mrs ∧ mag (shr_m mrs) e1 ≤ mag m e ∧
  (shr_m mrs = m ∧ e1 = e ∧ loc_of_shr_record mrs = l ∨ 2 ^ 52 ≤ shr_m mrs).
Proof.
  intros Hm He. unfold shr_fexp, shr.
  assert (shr_m (shr_record_of_loc m l) = m ∧ loc_of_shr_record (shr_record_of_loc m l) = l)
    as [Hr Hl] by (by destruct l as [|[]]).
  assert (fexp 53 1024 (Zdigits2 m + e) = Z.max (Zdigits2 m + e - 53) (-1074)) as -> by done.
  destruct (Z.max (Zdigits2 m + e - 53) (-1074) - e) as [|p|p] eqn:Hn; intros [= <- <-];
    rewrite ?Hr; [split_and!; [lia..|by left]| |split_and!; [lia..|by left]].
  rewrite iter_shr_div, Hr by lia.
  assert (Zdigits2 m - 53 = Z.pos p) as Hp by lia.
  pose proof (Zdigits2_lower m Hm) as Hd.
  assert (0 < 2 ^ Z.pos p) as H2 by (apply Z.pow_pos_nonneg; lia).
  split_and!; [lia|apply Z.div_pos; lia| |right].
  - rewrite mag_shift by lia. apply mag_mono; [lia|].
    rewrite Z.mul_comm. by apply Z.mul_div_le.
  - apply Z.div_le_lower_bound; [done|]. rewrite <-Z.pow_add_r by lia.
    replace (Z.pos p + 52) with (Zdigits2 m - 1) by lia. done.
Qed.

Lemma round_even_le m l : m ≤ round_nearest_even m l ≤ m + 1.
Proof. unfold round_nearest_even. repeat case_match; lia. Qed.

(** [f] is 0 or positive with an exponent of at least [lo], and at most [V / P]
    raised by [n] roundings. *)
Definition below (lo : Z) (n : nat) (P V : Z) (f : f64) : Prop :=
  match f with
  | S754_zero _ => True
  | S754_finite false m e =>
      lo ≤ e ∧ (2 ^ 52) ^ Z.of_nat n * (P * mag (Z.pos m) e) ≤ (2 ^ 52 + 1) ^ Z.of_nat n * V
  | _ => False
  end.

Lemma round_below lo n P V m e l :
  0 < m → -1000 ≤ lo ≤ e → l = loc_Exact ∨ 2 ^ 52 ≤ m → 0 < P → mag m e < 2 ^ 2900 →
  (2 ^ 52) ^ Z.of_nat n * (P * mag m e) ≤ (2 ^ 52 + 1) ^ Z.of_nat n * V →
  below lo (S n) P V (binary_round_aux f64_prec f64_emax false m e l).
Proof.
  intros Hm He Hl HP Hsmall HV. unfold binary_round_aux, f64_prec, f64_emax.
  destruct (shr_fexp 53 1024 m e l) as [mrs e1] eqn:H1.
  apply shr_fexp_below in H1 as (He1 & Hm1 & Hle1 & Hcase); [|lia..].
  set (r := round_nearest_even (shr_m mrs) (loc_of_shr_record mrs)).
  assert (2 ^ 52 * mag r e1 ≤ (2 ^ 52 + 1) * mag m e ∧ 0 < r) as [Hr Hr0].
  { pose proof (round_even_le (shr_m mrs) (loc_of_shr_record mrs)) as Hinc. fold r in Hinc.
    assert (2 ^ 52 ≤ shr_m mrs → 2 ^ 52 * mag r e1 ≤ (2 ^ 52 + 1) * mag m e ∧ 0 < r) as Hbig.
    { intros Hb. split; [|lia]. unfold mag in *.
      assert (0 ≤ 2 ^ (e1 + 2000)) by (apply Z.pow_nonneg; lia). nia. }
    destruct Hcase as [(Hsm & -> & Hloc)|Hb]; [|by apply Hbig].
    destruct Hl as [->|Hb]; [|apply Hbig; lia].
    assert (r = m) as -> by (unfold r; by rewrite Hloc, Hsm).
    pose proof (mag_pos m e Hm ltac:(lia)). lia. }
  clearbody r. destruct (shr_fexp 53 1024 r e1 loc_Exact) as [mrs2 e2] eqn:H2.
  apply shr_fexp_below in H2 as (He2 & Hm2 & Hle2 & _); [|lia..].
  destruct (shr_m mrs2) as [|m2|m2] eqn:Hm2e; [done| |lia].
  assert (e2 < 971) as He971.
  { destruct (Z.lt_ge_cases e2 971) as [|Hge]; [done|]. exfalso.
    assert (2 ^ 2971 ≤ mag (Z.pos m2) e2) as Hbig.
    { unfold mag. transitivity (1 * 2 ^ (e2 + 2000)); [|apply Z.mul_le_mono_nonneg_r;
        [apply Z.pow_nonneg|]; lia].
      rewrite Z.mul_1_l. apply Z.pow_le_mono_r; lia. }
    assert (2 ^ 2971 = 2 ^ 71 * 2 ^ 2900) as Hs by (by rewrite <-Z.pow_add_r by lia).
    generalize dependent (2 ^ 2900). generalize dependent (2 ^ 2971).
    intros A HA B HB HAB. pose proof (mag_pos m e Hm ltac:(lia)).
    change (2 ^ 71) with 2361183241434822606848 in HAB. lia. }
  destruct (Z.leb_spec e2 (1024 - 53)); [|lia]. split; [lia|].
  rewrite Nat2Z.inj_succ, !Z.pow_succ_r by lia.
  assert (0 ≤ (2 ^ 52) ^ Z.of_nat n) by (apply Z.pow_nonneg; lia).
  generalize dependent ((2 ^ 52) ^ Z.of_nat n). generalize dependent ((2 ^ 52 + 1) ^ Z.of_nat n).
  intros B A HV HA.
  assert (2 ^ 52 * mag (Z.pos m2) e2 ≤ (2 ^ 52 + 1) * mag m e) as Hr' by lia.
  transitivity (A * (P * ((2 ^ 52 + 1) * mag m e))).
  - replace (2 ^ 52 * A * (P * mag (Z.pos m2) e2)) with (A * (P * (2 ^ 52 * mag (Z.pos m2) e2)))
      by ring. apply Z.mul_le_mono_nonneg_l; [done|]. apply Z.mul_le_mono_nonneg_l; [lia|done].
  - replace (A * (P * ((2 ^ 52 + 1) * mag m e))) with ((2 ^ 52 + 1) * (A * (P * mag m e))) by ring.
    rewrite <-Z.mul_assoc. apply Z.mul_le_mono_nonneg_l; [lia|done].
Qed.

(** ** Conversion of an integer *)

Lemma iter_xO p d : Z.pos (Pos.iter xO p d) = Z.pos p * 2 ^ Z.pos d.
Proof.
  induction d as [|d IH] using Pos.peano_ind; [simpl; lia|].
  rewrite Pos.iter_succ, Pos2Z.inj_xO, IH, Pos2Z.inj_succ, Z.pow_succ_r by lia. lia.
Qed.

Lemma shl_align_mag p e e' mz ez :
  -2000 ≤ e' → -2000 ≤ e → shl_align p e e' = (mz, ez) →
  mag (Z.pos mz) ez = mag (Z.pos p) e ∧ ez = Z.min e e'.
Proof.
  intros He' He. unfold shl_align. destruct (e' - e) as [|d|d] eqn:Hd; intros [= <- <-];
    [split; [done|lia]|split; [done|lia]|].
  split; [|lia]. rewrite iter_xO. replace e with (e' + Z.pos d) by lia.
  rewrite mag_shift by lia. done.
Qed.

Lemma of_Z_below z :
  0 < z < 2 ^ 63 → below (-53) 1 1 (mag z 0) (f64_of_Z z).
Proof.
  intros Hz. unfold f64_of_Z, binary_normalize, binary_round.
  destruct z as [|p|p]; [lia| |lia].
  destruct (shl_align p 0 _) as [mz ez] eqn:Hs. pose proof (Zdigits2_lower (Z.pos p)) as Hd.
  apply shl_align_mag in Hs as [Hm He]; [|unfold fexp, emin, f64_prec, f64_emax; lia|lia].
  apply (round_below _ 0); [lia| |by left|lia| |].
  - unfold fexp, emin, f64_prec, f64_emax in He. lia.
  - rewrite Hm. unfold mag. transitivity (2 ^ 63 * 2 ^ (0 + 2000)); [|by rewrite <-Z.pow_add_r by lia;
      apply Z.pow_lt_mono_r; lia].
    apply Z.mul_lt_mono_pos_r; [apply Z.pow_pos_nonneg|]; lia.
  - rewrite Hm. simpl Z.of_nat. rewrite !Z.pow_0_r. lia.
Qed.

Lemma digits2_double p d : digits2_pos (Pos.iter xO p d) = (digits2_pos p + d)%positive.
Proof.
  induction d as [|d IH] using Pos.peano_ind; [simpl; lia|].
  rewrite Pos.iter_succ. cbn [digits2_pos]. rewrite IH. lia.
Qed.

(** An integer below 2^53 is converted exactly. *)
Lemma shr_fexp_canonical m e :
  fexp 53 1024 (Zdigits2 m + e) = e → shr_fexp 53 1024 m e loc_Exact = (Build_shr_record m false false, e).
Proof. unfold shr_fexp. intros ->. by rewrite Z.sub_diag. Qed.

Lemma of_Z_exact z :
  0 < z < 2 ^ 53 → ∃ m e, f64_of_Z z = S754_finite false m e ∧
    mag (Z.pos m) e = mag z 0 ∧ -52 ≤ e ≤ 0 ∧ 2 ^ 52 ≤ Z.pos m < 2 ^ 53.
Proof.
  intros Hz. destruct z as [|p|p]; [lia| |lia].
  unfold f64_of_Z, binary_normalize, binary_round.
  pose proof (digits2_pos_lower p) as Hd. pose proof (digits2_pos_bound p) as Hd'.
  assert (Z.pos (digits2_pos p) ≤ 53) as H53.
  { destruct (Z.le_gt_cases (Z.pos (digits2_pos p)) 53) as [|Hg]; [done|]. exfalso.
    assert (2 ^ 53 ≤ 2 ^ (Z.pos (digits2_pos p) - 1)) by (apply Z.pow_le_mono_r; lia). lia. }
  assert (fexp 53 1024 (Z.pos (digits2_pos p) + 0) = Z.pos (digits2_pos p) - 53) as Hf
    by (unfold fexp, emin; lia).
  destruct (shl_align p 0 (fexp f64_prec f64_emax (Z.pos (digits2_pos p) + 0))) as [mz ez] eqn:Hs.
  unfold f64_prec, f64_emax in *. rewrite Hf in Hs.
  assert (Z.pos (digits2_pos mz) = 53 ∧ ez = Z.pos (digits2_pos p) - 53) as [Hdm Hez].
  { unfold shl_align in Hs. destruct (_ - 0) as [|d|d] eqn:Hdd; injection Hs as <- <-;
      [lia|lia|]. rewrite digits2_double. lia. }
  apply shl_align_mag in Hs as [Hm _]; [|lia..].
  pose proof (digits2_pos_lower mz) as Hl. pose proof (digits2_pos_bound mz) as Hu.
  rewrite Hdm in Hl, Hu.
  assert (fexp 53 1024 (Zdigits2 (Z.pos mz) + ez) = ez) as Hc
    by (simpl Zdigits2; rewrite Hdm; unfold fexp, emin; lia).
  unfold binary_round_aux. rewrite shr_fexp_canonical by done. cbn [shr_m loc_of_shr_record].
  cbn [round_nearest_even]. rewrite shr_fexp_canonical by done. cbn [shr_m].
  destruct (Z.leb_spec ez (1024 - 53)); [|lia].
  exists mz, ez. split_and!; [done|done|lia..].
Qed.

(** ** Quotient and product *)

Lemma mag_mul m1 e1 m2 e2 :
  -1000 ≤ e1 → -1000 ≤ e2 → mag (m1 * m2) (e1 + e2) * 2 ^ 2000 = mag m1 e1 * mag m2 e2.
Proof.
  intros. unfold mag.
  replace (m1 * 2 ^ (e1 + 2000) * (m2 * 2 ^ (e2 + 2000)))
    with (m1 * m2 * (2 ^ (e1 + 2000) * 2 ^ (e2 + 2000))) by ring.
  rewrite <-Z.mul_assoc, <-!Z.pow_add_r by lia. do 2 f_equal. lia.
Qed.

Lemma div_core_below m1 e1 m2 e2 q e l :
  0 < m1 → -53 ≤ e1 ≤ 100 → 2 ^ 52 ≤ m2 < 2 ^ 53 → -52 ≤ e2 ≤ 0 →
  SFdiv_core_binary f64_prec f64_emax m1 e1 m2 e2 = (q, e, l) →
  -200 ≤ e ∧ 2 ^ 52 ≤ q ∧ mag q e * mag m2 e2 ≤ mag m1 e1 * 2 ^ 2000.
Proof.
  intros Hm1 He1 Hm2 He2. unfold SFdiv_core_binary.
  assert (Zdigits2 m2 = 53) as Hd2.
  { destruct m2 as [|p|p]; [lia| |lia]. simpl. pose proof (digits2_pos_lower p).
    pose proof (digits2_pos_bound p).
    assert (52 < Z.pos (digits2_pos p)) by (apply (Z.pow_lt_mono_r_iff 2); lia).
    assert (Z.pos (digits2_pos p) - 1 < 53) by (apply (Z.pow_lt_mono_r_iff 2); lia). lia. }
  pose proof (Zdigits2_lower m1 Hm1) as Hl1. pose proof (Zdigits2_bound m1 ltac:(lia)) as [_ Hd0].
  assert (0 < Zdigits2 m1) as Hd1 by (by destruct m1).
  rewrite Hd2.
  assert (fexp f64_prec f64_emax (Zdigits2 m1 + e1 - (53 + e2)) =
    Z.max (Zdigits2 m1 + e1 - (53 + e2) - 53) (-1074)) as -> by done.
  set (e' := Z.min _ (e1 - e2)). set (s := e1 - e2 - e').
  assert (0 ≤ s ∧ 106 - Zdigits2 m1 ≤ s) as [Hs0 Hs] by (unfold s, e'; lia).
  assert (-200 ≤ e') as He' by (unfold e'; lia).
  assert (match s with Z.pos _ => Z.shiftl m1 s | 0 => m1 | Z.neg _ => 0 end = m1 * 2 ^ s) as ->.
  { destruct s as [|p|p] eqn:Hsp; [lia|by rewrite Z.shiftl_mul_pow2|lia]. }
  destruct (Z.div_eucl (m1 * 2 ^ s) m2) as [q' r] eqn:Hdiv. intros [= <- <- _].
  pose proof (Z_div_mod (m1 * 2 ^ s) m2 ltac:(lia)) as Hqr. rewrite Hdiv in Hqr.
  destruct Hqr as [Hq Hr]. split; [done|]. split.
  - assert (2 ^ 105 ≤ m1 * 2 ^ s) as Hbig.
    { transitivity (2 ^ (Zdigits2 m1 - 1) * 2 ^ s).
      - rewrite <-Z.pow_add_r by lia. apply Z.pow_le_mono_r; lia.
      - apply Z.mul_le_mono_nonneg_r; [apply Z.pow_nonneg; lia|done]. }
    assert (q' + 1 > 2 ^ 52); [|lia].
    apply Z.lt_gt, (Z.mul_lt_mono_pos_l m2); [lia|]. change (2 ^ 105) with (2 ^ 53 * 2 ^ 52) in Hbig.
    nia.
  - rewrite <-mag_mul by lia. apply Z.mul_le_mono_nonneg_r; [apply Z.pow_nonneg; lia|].
    replace (mag m1 e1) with (mag m1 (e' + e2 + s)) by (f_equal; unfold s; lia).
    rewrite (mag_shift _ (e' + e2)) by lia. apply mag_mono; lia.
Qed.

Lemma div_below p l (f : f64) :
  0 < p < 2 ^ 53 → 0 < l < 2 ^ 63 → f = f64_of_Z l →
  below (-200) 2 p (mag l 0) (f64_div f (f64_of_Z p)).
Proof.
  intros Hp Hl ->. pose proof (of_Z_below l Hl) as Hb.
  destruct (of_Z_exact p Hp) as (m2 & e2 & -> & Hmag & He2 & Hm2).
  unfold f64_div, SFdiv. destruct (f64_of_Z l) as [s| | |[] m1 e1]; [done..|].
  destruct Hb as [He1 Hb]. change (Z.of_nat 1) with 1 in Hb. rewrite !Z.pow_1_r in Hb.
  assert (0 < 2 ^ 2000) as H2 by (apply Z.pow_pos_nonneg; lia).
  assert (mag l 0 = l * 2 ^ 2000 ∧ mag p 0 = p * 2 ^ 2000) as [Hl0 Hp0] by done.
  assert (mag (Z.pos m1) e1 < 2 ^ 2064) as Hu.
  { change (2 ^ 2064) with (2 * 2 ^ 63 * 2 ^ 2000). rewrite Hl0 in Hb.
    generalize dependent (2 ^ 2000). intros. nia. }
  assert (e1 ≤ 100) as He1'.
  { destruct (Z.le_gt_cases e1 100) as [|Hg]; [done|]. exfalso.
    assert (2 ^ 2064 ≤ mag (Z.pos m1) e1); [|lia]. unfold mag.
    transitivity (1 * 2 ^ (e1 + 2000)); [rewrite Z.mul_1_l; apply Z.pow_le_mono_r; lia|].
    apply Z.mul_le_mono_nonneg_r; [apply Z.pow_nonneg|]; lia. }
  destruct (SFdiv_core_binary _ _ _ _ _ _) as [[q e] lz] eqn:Hc.
  apply div_core_below in Hc as (He & Hq & Hle); [|lia..].
  rewrite Hmag, Hp0 in Hle.
  assert (p * mag q e ≤ mag (Z.pos m1) e1) as Hle' by (generalize dependent (2 ^ 2000); intros; nia).
  apply round_below; [lia|lia|by right|lia| |].
  - pose proof (mag_pos q e ltac:(lia) ltac:(lia)).
    apply (Z.le_lt_trans _ (2 ^ 2064)); [nia|]. apply Z.pow_lt_mono_r; lia.
  - change (Z.of_nat 1) with 1. rewrite !Z.pow_1_r. lia.
Qed.

Lemma mul_below lo1 n1 P1 V1 lo2 n2 P2 V2 f1 f2 :
  -500 ≤ lo1 → -500 ≤ lo2 → 0 < P1 → 0 < P2 →
  (2 ^ 52 + 1) ^ Z.of_nat (n1 + n2) * (V1 * V2) <
    (2 ^ 52) ^ Z.of_nat (n1 + n2) * (2 ^ 2000 * 2 ^ 2900) →
  below lo1 n1 P1 V1 f1 → below lo2 n2 P2 V2 f2 →
  below (lo1 + lo2) (S (n1 + n2)) (P1 * P2 * 2 ^ 2000) (V1 * V2) (f64_mul f1 f2).
Proof.
  intros Hlo1 Hlo2 HP1 HP2 Hsmall H1 H2. unfold f64_mul, SFmul.
  destruct f1 as [| | |[] m1 e1], f2 as [| | |[] m2 e2]; try done.
  destruct H1 as [He1 H1], H2 as [He2 H2].
  pose proof (mag_mul (Z.pos m1) e1 (Z.pos m2) e2 ltac:(lia) ltac:(lia)) as Hmul.
  pose proof (mag_pos (Z.pos m1) e1 ltac:(lia) ltac:(lia)) as Hp1.
  pose proof (mag_pos (Z.pos m2) e2 ltac:(lia) ltac:(lia)) as Hp2.
  pose proof (mag_pos (Z.pos m1 * Z.pos m2) (e1 + e2) ltac:(lia) ltac:(lia)) as Hp.
  rewrite Nat2Z.inj_add, !Z.pow_add_r in * by lia.
  assert (0 < (2 ^ 52) ^ Z.of_nat n1) by (apply Z.pow_pos_nonneg; lia).
  assert (0 < (2 ^ 52) ^ Z.of_nat n2) by (apply Z.pow_pos_nonneg; lia).
  assert (0 < 2 ^ 2000) by (apply Z.pow_pos_nonneg; lia).
  remember (2 ^ 2000) as T eqn:HT. clear HT.
  set (M := mag (Z.pos m1 * Z.pos m2) (e1 + e2)) in *.
  set (A1 := (2 ^ 52) ^ Z.of_nat n1) in *. set (A2 := (2 ^ 52) ^ Z.of_nat n2) in *.
  set (B1 := (2 ^ 52 + 1) ^ Z.of_nat n1) in *. set (B2 := (2 ^ 52 + 1) ^ Z.of_nat n2) in *.
  assert (A1 * A2 * (P1 * P2 * T * M) ≤ B1 * B2 * (V1 * V2)) as Hle.
  { replace (A1 * A2 * (P1 * P2 * T * M))
      with (A1 * (P1 * mag (Z.pos m1) e1) * (A2 * (P2 * mag (Z.pos m2) e2)))
      by (transitivity (A1 * A2 * P1 * P2 * (M * T)); [rewrite Hmul|]; ring).
    replace (B1 * B2 * (V1 * V2)) with (B1 * V1 * (B2 * V2)) by ring.
    apply Z.mul_le_mono_nonneg; [|done| |done]; repeat apply Z.mul_nonneg_nonneg; lia. }
  apply round_below; [lia|lia|by left|lia| |].
  - change (Z.pos (m1 * m2)) with (Z.pos m1 * Z.pos m2). fold M.
    apply (Z.mul_lt_mono_pos_l (A1 * A2 * T)); [lia|].
    apply (Z.le_lt_trans _ (A1 * A2 * (P1 * P2 * T * M))).
    + replace (A1 * A2 * T * M) with (A1 * A2 * T * M * 1) by ring.
      replace (A1 * A2 * (P1 * P2 * T * M))
        with (A1 * A2 * T * M * (P1 * P2)) by ring.
      apply Z.mul_le_mono_nonneg_l; [repeat apply Z.mul_nonneg_nonneg; lia|nia].
    + eapply Z.le_lt_trans; [exact Hle|]. eapply Z.lt_le_trans; [exact Hsmall|].
      by rewrite Z.mul_assoc.
  - rewrite Nat2Z.inj_add, !Z.pow_add_r by lia. done.
Qed.

(** ** Truncation *)

Lemma trunc_below lo n P V f :
  -1000 ≤ lo → 0 < P → 0 ≤ V → below lo n P V f →
  ∃ t, f64_trunc f = Some t ∧ 0 ≤ t ∧
    (2 ^ 52) ^ Z.of_nat n * (P * (t * 2 ^ 2000)) ≤ (2 ^ 52 + 1) ^ Z.of_nat n * V.
Proof.
  intros Hlo HP HV. unfold f64_trunc. destruct f as [s| | |[] m e]; try done.
  - intros _. exists 0. split_and!; [done|lia|]. rewrite Z.mul_0_l, Z.mul_0_r, Z.mul_0_r.
    apply Z.mul_nonneg_nonneg; [apply Z.pow_nonneg|]; lia.
  - intros [He Hle]. eexists. split; [done|].
    set (t := if 0 <=? e then Z.pos m * 2 ^ e else Z.pos m / 2 ^ (- e)).
    assert (0 ≤ t ∧ t * 2 ^ 2000 ≤ mag (Z.pos m) e) as [Ht0 Ht].
    { unfold t, mag. destruct (Z.leb_spec 0 e).
      - rewrite <-Z.mul_assoc, <-Z.pow_add_r by lia. split; [|lia].
        apply Z.mul_nonneg_nonneg; [|apply Z.pow_nonneg]; lia.
      - assert (0 < 2 ^ (- e)) by (apply Z.pow_pos_nonneg; lia).
        split; [apply Z.div_pos; lia|].
        replace (2 ^ 2000) with (2 ^ (- e) * 2 ^ (e + 2000))
          by (rewrite <-Z.pow_add_r by lia; f_equal; lia).
        rewrite Z.mul_assoc. apply Z.mul_le_mono_nonneg_r; [apply Z.pow_nonneg; lia|].
        rewrite Z.mul_comm. apply Z.mul_div_le. lia. }
    split; [done|]. etrans; [|exact Hle].
    apply Z.mul_le_mono_nonneg_l; [apply Z.pow_nonneg; lia|].
    apply Z.mul_le_mono_nonneg_l; lia.
Qed.

(** ** The tokens of an interval *)

Definition float_share (elapsed limit period : Z) : f64 :=
  f64_mul (f64_of_Z elapsed) (f64_div (f64_of_Z limit) (f64_of_Z period)).

Lemma float_share_bound elapsed limit period :
  0 < elapsed < 2 ^ 63 → 0 < limit < 2 ^ 63 → 0 < period < 2 ^ 53 →
  ∃ t, f64_trunc (float_share elapsed limit period) = Some t ∧ 0 ≤ t ∧
    2 ^ 49 * (period * t) ≤ (2 ^ 49 + 1) * (elapsed * limit).
Proof.
  intros He Hl Hp. unfold float_share.
  assert (0 < 2 ^ 2000) as H2 by (apply Z.pow_pos_nonneg; lia).
  assert (mag elapsed 0 = elapsed * 2 ^ 2000 ∧ mag limit 0 = limit * 2 ^ 2000) as [Hme Hml] by done.
  assert (below (-53 + -200) 4 (1 * period * 2 ^ 2000) (mag elapsed 0 * mag limit 0)
    (f64_mul (f64_of_Z elapsed) (f64_div (f64_of_Z limit) (f64_of_Z period)))) as Hb.
  { apply (mul_below _ 1 _ _ _ 2); [lia..| |by apply of_Z_below|by apply div_below].
    rewrite Hme, Hml. change (2 ^ 2900) with (2 ^ 900 * 2 ^ 2000).
    change (Z.of_nat (1 + 2)) with 3.
    assert ((2 ^ 52 + 1) ^ 3 ≤ 2 * (2 ^ 52) ^ 3) as H3 by (vm_compute; discriminate).
    assert (0 < (2 ^ 52) ^ 3) as H3' by done.
    generalize dependent ((2 ^ 52) ^ 3). generalize dependent ((2 ^ 52 + 1) ^ 3). intros C D HCD HD.
    assert (elapsed * limit < 2 ^ 126) by nia.
    assert (2 ^ 200 < 2 ^ 900) by (apply Z.pow_lt_mono_r; lia).
    generalize dependent (2 ^ 2000). generalize dependent (2 ^ 900). intros A HA B HB _ _.
    replace (elapsed * B * (limit * B)) with (elapsed * limit * (B * B)) by ring.
    replace (B * (A * B)) with (A * (B * B)) by ring.
    assert (0 < elapsed * limit) by nia.
    apply (Z.le_lt_trans _ (2 * D * (elapsed * limit * (B * B))));
      [apply Z.mul_le_mono_nonneg_r; [|done]; repeat apply Z.mul_nonneg_nonneg; lia|].
    replace (2 * D * (elapsed * limit * (B * B))) with (D * ((B * B) * (2 * (elapsed * limit)))) by ring.
    replace (D * (A * (B * B))) with (D * ((B * B) * A)) by ring.
    apply Z.mul_lt_mono_pos_l; [done|]. apply Z.mul_lt_mono_pos_l; [lia|].
    change (2 ^ 200) with (2 ^ 127 * 2 ^ 73) in HA. lia. }
  apply trunc_below in Hb as (t & Ht & Ht0 & Hle); [|lia|lia|nia].
  exists t. split_and!; [done..|]. rewrite Hme, Hml in Hle.
  change (Z.of_nat 4) with 4 in Hle.
  assert ((2 ^ 52) ^ 4 * (period * t) ≤ (2 ^ 52 + 1) ^ 4 * (elapsed * limit)) as Hle'.
  { remember (2 ^ 2000) as T eqn:HT. clear HT Hme Hml.
    apply (Z.mul_le_mono_pos_l _ _ (T * T)); [nia|].
    replace (T * T * ((2 ^ 52) ^ 4 * (period * t)))
      with ((2 ^ 52) ^ 4 * (1 * period * T * (t * T))) by ring.
    etrans; [exact Hle|]. apply Z.eq_le_incl. ring. }
  assert ((2 ^ 52 + 1) ^ 4 * 2 ^ 49 ≤ (2 ^ 52) ^ 4 * (2 ^ 49 + 1)) as Hc by (vm_compute; discriminate).
  assert (0 < (2 ^ 52) ^ 4) as Hpos by done. clear Hle.
  generalize dependent ((2 ^ 52) ^ 4). generalize dependent ((2 ^ 52 + 1) ^ 4).
  intros A B Hle Hc Hpos. assert (0 < elapsed * limit) as Hel by nia.
  apply (Z.mul_le_mono_pos_l _ _ B); [done|].
  transitivity (2 ^ 49 * (A * (elapsed * limit))).
  - replace (B * (2 ^ 49 * (period * t))) with (2 ^ 49 * (B * (period * t))) by ring.
    apply Z.mul_le_mono_nonneg_l; [done|exact Hle].
  - replace (2 ^ 49 * (A * (elapsed * limit))) with (A * 2 ^ 49 * (elapsed * limit)) by ring.
    replace (B * ((2 ^ 49 + 1) * (elapsed * limit)))
      with (B * (2 ^ 49 + 1) * (elapsed * limit)) by ring.
    apply Z.mul_le_mono_nonneg_r; [lia|exact Hc].
Qed.
