(* ===== verification/Json.v ===== *)
(** * JSON values and Go's decoding of them

    [json] is the tree of a JSON document; [raw] is a [json.RawMessage] (or
    any [[]byte] the source hands to [json.Unmarshal]): either bytes that are
    not JSON, kept so that their length is known, or a document.  The
    decoding combinators follow [encoding/json]: object keys match a struct
    field by its tag, ASCII case-insensitively; an unknown key is ignored; a
    [null] leaves the field as it is; a later occurrence of a key wins; a
    value of the wrong type is an error.  The second half models
    internal/durationjson (duration fields given as strings) on top of a
    model of [time.ParseDuration]. *)

From S2P Require Import Prelude Float64.
From Stdlib Require Import Ascii.

(** ** Documents *)

(** A number keeps the shape of its literal: [JInt] for an optional sign and
    digits, [JDec m e] for a literal with a fraction or an exponent, of value
    [m * 10^e]. *)
Inductive json : Type :=
  | JNull
  | JBool (b : bool)
  | JInt (z : Z)
  | JDec (m e : Z)
  | JStr (s : string)
  | JArr (l : list json)
  | JObj (fs : list (string * json)).

Inductive raw : Type :=
  | RawBad (bytes : string)
  | RawJson (v : json).

(** [len(raw) == 0]: no document has an empty text. *)
Definition raw_empty (r : raw) : bool :=
  match r with RawBad bytes => empty_str bytes | RawJson _ => false end.

Definition err_json (what : string) : error := Errorf what [].

(** [json.Unmarshal(data, &v)] with [v] of type [any]: numbers become
    [float64], so a literal out of range is an error. *)
Fixpoint json_numbers_ok (v : json) : bool :=
  match v with
  | JInt z => negb (f64_is_inf (f64_of_Z z))
  | JDec m e => match f64_of_dec m e with Some _ => true | None => false end
  | JArr l => forallb json_numbers_ok l
  | JObj fs => forallb (λ '(_, w), json_numbers_ok w) fs
  | _ => true
  end.

Definition unmarshal_any (r : raw) : outcome json :=
  match r with
  | RawBad _ => Err (err_json "invalid character or unexpected end of JSON input")
  | RawJson v =>
      if json_numbers_ok v then Ret v
      else Err (err_json "cannot unmarshal number into Go value")
  end.

(** [obj[key]] on a decoded object: the last occurrence of the key. *)
Definition obj_get (k : string) (fs : list (string * json)) : option json :=
  snd <$> find_first (λ '(k', _), bool_decide (k' = k)) (reverse fs).

(** The [float64] of a decoded number. *)
Definition json_f64 (v : json) : option f64 :=
  match v with
  | JInt z => Some (f64_of_Z z)
  | JDec m e => f64_of_dec m e
  | _ => None
  end.

(** ** Decoding into Go types *)

Definition lower_ascii (c : ascii) : ascii :=
  if in_range "A" "Z" c then ascii_of_N (N_of_ascii c + 32)%N else c.

Fixpoint ToLower (s : string) : string :=
  match s with
  | EmptyString => EmptyString
  | String c s' => String (lower_ascii c) (ToLower s')
  end.

Definition dec_int (cur : Z) (v : json) : outcome Z :=
  match v with
  | JNull => Ret cur
  | JInt z => if in_int64 z then Ret z
              else Err (err_json "cannot unmarshal number into int")
  | _ => Err (err_json "cannot unmarshal value into int")
  end.

Definition dec_string (cur : string) (v : json) : outcome string :=
  match v with
  | JNull => Ret cur
  | JStr s => Ret s
  | _ => Err (err_json "cannot unmarshal value into string")
  end.

Definition dec_bool (cur : bool) (v : json) : outcome bool :=
  match v with
  | JNull => Ret cur
  | JBool b => Ret b
  | _ => Err (err_json "cannot unmarshal value into bool")
  end.

Fixpoint mapM_outcome {A B} (f : A → outcome B) (l : list A) : outcome (list B) :=
  match l with
  | [] => Ret []
  | x :: l' => y ← f x; ys ← mapM_outcome f l'; Ret (y :: ys)
  end.

Definition dec_strings (cur : list string) (v : json) : outcome (list string) :=
  match v with
  | JNull => Ret []
  | JArr l => mapM_outcome (dec_string "") l
  | _ => Err (err_json "cannot unmarshal value into []string")
  end.

Fixpoint dec_entries {A} (dec : json → outcome A) (m : gmap string A)
    (fs : list (string * json)) : outcome (gmap string A) :=
  match fs with
  | [] => Ret m
  | (k, w) :: fs' => a ← dec w; dec_entries dec (<[k:=a]> m) fs'
  end.

Definition dec_string_map (cur : gmap string string) (v : json)
    : outcome (gmap string string) :=
  match v with
  | JNull => Ret ∅
  | JObj fs => dec_entries (dec_string "") cur fs
  | _ => Err (err_json "cannot unmarshal value into map")
  end.

(** The occurrences of a struct field among the keys of an object, applied
    in order. *)
Fixpoint dec_field {A} (dec : A → json → outcome A) (name : string) (cur : A)
    (fs : list (string * json)) : outcome A :=
  match fs with
  | [] => Ret cur
  | (k, v) :: fs' =>
      if bool_decide (ToLower k = ToLower name)
      then cur' ← dec cur v; dec_field dec name cur' fs'
      else dec_field dec name cur fs'
  end.

(** [json.Unmarshal(data, &structValue)]: [null] is a no-op, an object is
    decoded field by field, anything else is an error. *)
Definition unmarshal_struct {A} (zero : A)
    (decode : list (string * json) → outcome A) (r : raw) : outcome A :=
  match r with
  | RawBad _ => Err (err_json "invalid character or unexpected end of JSON input")
  | RawJson JNull => Ret zero
  | RawJson (JObj fs) => decode fs
  | RawJson _ => Err (err_json "cannot unmarshal value into struct")
  end.

(** ** time.ParseDuration *)

Definition digit_of (c : ascii) : option Z :=
  if in_range "0" "9" c then Some (byte_of c - 48) else None.

(** [leadingInt]: the digits at the front, with the overflow error of
    [x > 1<<63]. *)
Fixpoint leading_int (x : Z) (s : string) : option (Z * string) :=
  match s with
  | EmptyString => Some (x, s)
  | String c s' =>
      match digit_of c with
      | None => Some (x, s)
      | Some d =>
          if 2 ^ 63 / 10 <? x then None
          else let x' := x * 10 + d in
               if 2 ^ 63 <? x' then None else leading_int x' s'
      end
  end.

(** [leadingFraction]: digits after the point; digits that would overflow
    are dropped. *)
Fixpoint leading_fraction (x scale : Z) (overflow : bool) (s : string)
    : Z * Z * string :=
  match s with
  | EmptyString => (x, scale, s)
  | String c s' =>
      match digit_of c with
      | None => (x, scale, s)
      | Some d =>
          if overflow || ((2 ^ 63 - 1) / 10 <? x)
          then leading_fraction x scale true s'
          else let y := x * 10 + d in
               if 2 ^ 63 <? y then leading_fraction x scale true s'
               else leading_fraction y (scale * 10) false s'
      end
  end.

Fixpoint span_unit (s : string) : string * string :=
  match s with
  | EmptyString => (EmptyString, EmptyString)
  | String c s' =>
      if bool_decide (c = "."%char) || in_range "0" "9" c then (EmptyString, s)
      else let '(u, t) := span_unit s' in (String c u, t)
  end.

Definition unit_of (u : string) : option Z :=
  if bool_decide (u = "ns") then Some 1
  else if bool_decide (u ∈ ["us"; "µs"; "μs"]) then Some 1000
  else if bool_decide (u = "ms") then Some Millisecond
  else if bool_decide (u = "s") then Some Second
  else if bool_decide (u = "m") then Some Minute
  else if bool_decide (u = "h") then Some Hour
  else None.

(** One [number unit] component: its nanoseconds and the rest. *)
Definition duration_component (s : string) : option (Z * string) :=
  '(v, s1) ← leading_int 0 s;
  let pre := negb (bool_decide (String.length s1 = String.length s)) in
  let '(f, scale, s2, post) :=
    match s1 with
    | String "." s1' =>
        let '(f, scale, s2) := leading_fraction 0 1 false s1' in
        (f, scale, s2, negb (bool_decide (String.length s2 = String.length s1')))
    | _ => (0, 1, s1, false)
    end in
  if negb pre && negb post then None
  else
    let '(u, s3) := span_unit s2 in
    if empty_str u then None
    else
      unit ← unit_of u;
      if 2 ^ 63 / unit <? v then None
      else
        let v1 := v * unit in
        if 0 <? f then
          t ← f64_trunc (f64_mul (f64_of_Z f)
                (f64_div (f64_of_Z unit) (f64_of_Z scale)));
          if 2 ^ 63 <? v1 + t then None else Some (v1 + t, s3)
        else Some (v1, s3).

Fixpoint duration_components (fuel : nat) (d : Z) (s : string) : option Z :=
  match s, fuel with
  | EmptyString, _ => Some d
  | _, O => None
  | _, S fuel' =>
      '(v, s') ← duration_component s;
      if 2 ^ 63 <? d + v then None else duration_components fuel' (d + v) s'
  end.

(** Each component consumes at least a digit, so the length of the string is
    enough fuel. *)
Definition ParseDuration (s : string) : option Z :=
  let '(neg, body) :=
    match s with
    | String "-" s' => (true, s')
    | String "+" s' => (false, s')
    | _ => (false, s)
    end in
  if bool_decide (body = "0") then Some 0
  else if empty_str body then None
  else
    d ← duration_components (String.length body) 0 body;
    if neg then Some (- d)
    else if 2 ^ 63 - 1 <? d then None else Some d.

(** ** internal/durationjson *)

(** [rewriteDurationStrings]: the top-level string values of duration keys
    become their nanosecond counts; the first unreadable one is an error. *)
Fixpoint rewriteDurationStrings (keys : list string) (fs : list (string * json))
    : outcome (list (string * json)) :=
  match fs with
  | [] => Ret []
  | (name, v) :: fs' =>
      v' ← (if bool_decide (ToLower name ∈ keys) then
              match v with
              | JStr text =>
                  match ParseDuration text with
                  | Some d => Ret (JInt d)
                  | None => Err (Errorf "%s: invalid duration %q: %w"
                                   [AStr name; AStr text])
                  end
              | _ => Ret v
              end
            else Ret v);
      rest ← rewriteDurationStrings keys fs';
      Ret ((name, v') :: rest)
  end.

(** [durationjson.Unmarshal]: rewrite, then decode. *)
Definition durationjson_Unmarshal {A} (keys : list string) (zero : A)
    (decode : list (string * json) → outcome A) (r : raw) : outcome A :=
  match r with
  | RawJson (JObj fs) => fs' ← rewriteDurationStrings keys fs; decode fs'
  | _ => unmarshal_struct zero decode r
  end.

Example dur_90s : ParseDuration "1m30s" = Some (90 * Second).
Proof. vm_compute. reflexivity. Qed.
Example dur_frac : ParseDuration "1.5h" = Some (90 * Minute).
Proof. vm_compute. reflexivity. Qed.
Example dur_neg : ParseDuration "-2ms" = Some (- 2000000).
Proof. vm_compute. reflexivity. Qed.
Example dur_nounit : ParseDuration "30" = None.
Proof. vm_compute. reflexivity. Qed.
Example dur_max : ParseDuration "9223372036854775808ns" = None.
Proof. vm_compute. reflexivity. Qed.
Example dur_min : ParseDuration "-9223372036854775808ns" = Some int64_min.
Proof. vm_compute. reflexivity. Qed.
