(* ===== verification/Types.v ===== *)
(** * The workflow data model (dag/types.go and the types it embeds)

    Enumerations are inductive types with the source's constructors, structs
    are records (field [F] of a struct is the projection [xx_F]), [map]s are
    [gmap]s, a pointer or a nil-able slice that the code compares with nil is
    an [option].  A [time.Time] is an instant in nanoseconds since the Unix
    epoch (its zero value is [None] where the code tests [IsZero]), a
    [time.Duration] or [int] is a [Z] in the range of int64. *)

From S2P Require Import Prelude Float64 Json.
From Stdlib Require Import Ascii.

(** ** Enumerations *)

(** [StepType] *)
Inductive StepType : Type :=
  | StepTypeNormal
  | StepTypeAgentLoop
  | StepTypeSubWorkflow
  | StepTypeAgent
  | StepTypeMap
  | StepTypeSleep
  | StepTypeWaitForEvent
  | StepTypeApproval
  | StepTypePlanner
  | StepTypeRespond.

#[global] Instance StepType_eq_dec : EqDecision StepType.
Proof. solve_decision. Defined.

Definition StepType_String (x : StepType) : string :=
  match x with
  | StepTypeNormal => "normal"
  | StepTypeAgentLoop => "agent_loop"
  | StepTypeSubWorkflow => "sub_workflow"
  | StepTypeAgent => "agent"
  | StepTypeMap => "map"
  | StepTypeSleep => "sleep"
  | StepTypeWaitForEvent => "wait_for_event"
  | StepTypeApproval => "approval"
  | StepTypePlanner => "planner"
  | StepTypeRespond => "respond"
  end.

(** [RunStatus] *)
Inductive RunStatus : Type :=
  | RunStatusPending
  | RunStatusRunning
  | RunStatusCompleted
  | RunStatusFailed
  | RunStatusCancelled
  | RunStatusCompensated
  | RunStatusCompensateFailed.

#[global] Instance RunStatus_eq_dec : EqDecision RunStatus.
Proof. solve_decision. Defined.

Definition RunStatus_String (x : RunStatus) : string :=
  match x with
  | RunStatusPending => "pending"
  | RunStatusRunning => "running"
  | RunStatusCompleted => "completed"
  | RunStatusFailed => "failed"
  | RunStatusCancelled => "cancelled"
  | RunStatusCompensated => "compensated"
  | RunStatusCompensateFailed => "compensate_failed"
  end.

(** [StepStatus] *)
Inductive StepStatus : Type :=
  | StepStatusPending
  | StepStatusQueued
  | StepStatusRunning
  | StepStatusCompleted
  | StepStatusFailed
  | StepStatusSkipped
  | StepStatusCancelled
  | StepStatusRecovered.

#[global] Instance StepStatus_eq_dec : EqDecision StepStatus.
Proof. solve_decision. Defined.

Definition StepStatus_String (x : StepStatus) : string :=
  match x with
  | StepStatusPending => "pending"
  | StepStatusQueued => "queued"
  | StepStatusRunning => "running"
  | StepStatusCompleted => "completed"
  | StepStatusFailed => "failed"
  | StepStatusSkipped => "skipped"
  | StepStatusCancelled => "cancelled"
  | StepStatusRecovered => "recovered"
  end.

(** [RetryStrategy] *)
Inductive RetryStrategy : Type :=
  | RetryFixed
  | RetryLinear
  | RetryExponential.

#[global] Instance RetryStrategy_eq_dec : EqDecision RetryStrategy.
Proof. solve_decision. Defined.

Definition RetryStrategy_String (x : RetryStrategy) : string :=
  match x with
  | RetryFixed => "fixed"
  | RetryLinear => "linear"
  | RetryExponential => "exponential"
  end.

Definition stepTypes : list StepType :=
  [StepTypeNormal; StepTypeAgentLoop; StepTypeSubWorkflow; StepTypeAgent;
   StepTypeMap; StepTypeSleep; StepTypeWaitForEvent; StepTypeApproval;
   StepTypePlanner; StepTypeRespond].
Definition runStatuses : list RunStatus :=
  [RunStatusPending; RunStatusRunning; RunStatusCompleted; RunStatusFailed;
   RunStatusCancelled; RunStatusCompensated; RunStatusCompensateFailed].
Definition stepStatuses : list StepStatus :=
  [StepStatusPending; StepStatusQueued; StepStatusRunning; StepStatusCompleted;
   StepStatusFailed; StepStatusSkipped; StepStatusCancelled; StepStatusRecovered].
Definition retryStrategies : list RetryStrategy :=
  [RetryFixed; RetryLinear; RetryExponential].

(** The lookup loop shared by the four [UnmarshalJSON] methods: the first
    value of the table whose string is the decoded one. *)
Definition enum_unmarshal {A} (table : list A) (str : A → string) (what : string)
    (r : raw) : outcome A :=
  match r with
  | RawJson (JStr s) =>
      match find_first (λ x, bool_decide (str x = s)) table with
      | Some x => Ret x
      | None => Err (Errorf what [AStr s])
      end
  | RawJson JNull =>
      match find_first (λ x, bool_decide (str x = "")) table with
      | Some x => Ret x
      | None => Err (Errorf what [AStr ""])
      end
  | _ => Err (err_json "cannot unmarshal value into string")
  end.

Definition StepType_MarshalJSON (x : StepType) : raw := RawJson (JStr (StepType_String x)).
Definition StepType_UnmarshalJSON : raw → outcome StepType :=
  enum_unmarshal stepTypes StepType_String "unknown step type: %q".
Definition RunStatus_MarshalJSON (x : RunStatus) : raw := RawJson (JStr (RunStatus_String x)).
Definition RunStatus_UnmarshalJSON : raw → outcome RunStatus :=
  enum_unmarshal runStatuses RunStatus_String "unknown RunStatus string: %q".
Definition StepStatus_MarshalJSON (x : StepStatus) : raw := RawJson (JStr (StepStatus_String x)).
Definition StepStatus_UnmarshalJSON : raw → outcome StepStatus :=
  enum_unmarshal stepStatuses StepStatus_String "unknown StepStatus string: %q".
Definition RetryStrategy_MarshalJSON (x : RetryStrategy) : raw :=
  RawJson (JStr (RetryStrategy_String x)).
Definition RetryStrategy_UnmarshalJSON : raw → outcome RetryStrategy :=
  enum_unmarshal retryStrategies RetryStrategy_String "unknown RetryStrategy: %q".

(** [RunStatus.IsTerminal] *)
Definition IsTerminal (r : RunStatus) : bool :=
  match r with
  | RunStatusCompleted | RunStatusFailed | RunStatusCancelled
  | RunStatusCompensated | RunStatusCompensateFailed => true
  | _ => false
  end.

Definition RunStatusNames : list string := RunStatus_String <$> runStatuses.

(** [strings.TrimSpace] on ASCII white space. *)
Definition is_space (c : ascii) : bool :=
  in_range "009" "013" c || bool_decide (c = " "%char).

Fixpoint trim_left (s : string) : string :=
  match s with
  | String c s' => if is_space c then trim_left s' else s
  | EmptyString => EmptyString
  end.

Definition TrimSpace (s : string) : string :=
  String.rev (trim_left (String.rev (trim_left s))).

(** [ParseRunStatus] *)
Definition ParseRunStatus (s : string) : outcome RunStatus :=
  let lc := ToLower (TrimSpace s) in
  match find_first (λ x, bool_decide (RunStatus_String x = lc)) runStatuses with
  | Some x => Ret x
  | None => Err (Errorf "unknown run status %q; valid: %s" [AStr s])
  end.

(** ** Structs *)

(** [ParentCond] (dag/condition.go) *)
Record ParentCond : Type := MkParentCond {
  pc_StepID : string;
  pc_Field : string;
  pc_Op : string;
  pc_Value : json;
}.


(** [RetryPolicy] (dag/retry.go) *)
Record RetryPolicy : Type := MkRetryPolicy {
  rp_MaxAttempts : Z;
  rp_Strategy : RetryStrategy;
  rp_InitialDelay : Z;
  rp_MaxDelay : Z;
  rp_Multiplier : f64;
}.


(** [RateLimit] (dag/ratelimit.go) *)
Record RateLimit : Type := MkRateLimit {
  rl_Limit : Z;
  rl_Period : Z;
}.


(** [KeyedRateLimit] (dag/ratelimit.go) *)
Record KeyedRateLimit : Type := MkKeyedRateLimit {
  krl_Key : string;
  krl_Limit : Z;
  krl_Period : Z;
  krl_Units : Z;
}.


(** [ConcurrencyLimit] *)
Record ConcurrencyLimit : Type := MkConcurrencyLimit {
  cl_MaxRuns : Z;
  cl_MaxSteps : Z;
}.


(** [Match] (dag/waitforevent.go) *)
Record Match_ : Type := MkMatch {
  m_Left : string;
  m_Op : string;
  m_Right : string;
}.


(** [CancelOn] *)
Record CancelOn : Type := MkCancelOn {
  co_Event : string;
  co_Match : Match_;
  co_Timeout : Z;
}.


(** [SingletonConfig]; modes are strings, as in the source *)
Record SingletonConfig : Type := MkSingletonConfig {
  sc_Mode : string;
  sc_Key : string;
}.


(** [PriorityConfig] (dag/priority.go) *)
Record PriorityConfig : Type := MkPriorityConfig {
  prio_Key : string;
  prio_Rules : gmap string Z;
  prio_DefaultOffset : Z;
}.


Definition SingletonModeSkip : string := "skip".
Definition SingletonModeCancel : string := "cancel".
Definition StickyNone : string := "".
Definition StickySoft : string := "soft".
Definition StickyHard : string := "hard".
Definition MatchOpEq : string := "eq".

(** [StepDef] *)
Record StepDef : Type := MkStepDef {
  sd_ID : string;
  sd_Task : string;
  sd_DependsOn : list string;
  sd_Retries : Z;
  sd_Timeout : Z;
  sd_Type : StepType;
  sd_Config : option raw;
  sd_SkipIf : option ParentCond;
  sd_Metadata : gmap string string;
  sd_Retry : option RetryPolicy;
  sd_WorkerGroup : string;
  sd_OnFailure : string;
  sd_Compensate : string;
  sd_RateLimit : option RateLimit;
  sd_KeyedRateLimit : option KeyedRateLimit;
  sd_MaxTaskConcurrency : Z;
  sd_Singleton : bool;
  sd_RequiredCapabilities : list string;
}.

Definition sd_set_ID (v : string) (r : StepDef) : StepDef :=
  let 'MkStepDef _ x1 x2 x3 x4 x5 x6 x7 x8 x9 x10 x11 x12 x13 x14 x15 x16 x17 := r in
  MkStepDef v x1 x2 x3 x4 x5 x6 x7 x8 x9 x10 x11 x12 x13 x14 x15 x16 x17.
Definition sd_set_DependsOn (v : list string) (r : StepDef) : StepDef :=
  let 'MkStepDef x0 x1 _ x3 x4 x5 x6 x7 x8 x9 x10 x11 x12 x13 x14 x15 x16 x17 := r in
  MkStepDef x0 x1 v x3 x4 x5 x6 x7 x8 x9 x10 x11 x12 x13 x14 x15 x16 x17.
Definition sd_set_Type (v : StepType) (r : StepDef) : StepDef :=
  let 'MkStepDef x0 x1 x2 x3 x4 _ x6 x7 x8 x9 x10 x11 x12 x13 x14 x15 x16 x17 := r in
  MkStepDef x0 x1 x2 x3 x4 v x6 x7 x8 x9 x10 x11 x12 x13 x14 x15 x16 x17.
Definition sd_set_Timeout (v : Z) (r : StepDef) : StepDef :=
  let 'MkStepDef x0 x1 x2 x3 _ x5 x6 x7 x8 x9 x10 x11 x12 x13 x14 x15 x16 x17 := r in
  MkStepDef x0 x1 x2 x3 v x5 x6 x7 x8 x9 x10 x11 x12 x13 x14 x15 x16 x17.
Definition sd_set_Retries (v : Z) (r : StepDef) : StepDef :=
  let 'MkStepDef x0 x1 x2 _ x4 x5 x6 x7 x8 x9 x10 x11 x12 x13 x14 x15 x16 x17 := r in
  MkStepDef x0 x1 x2 v x4 x5 x6 x7 x8 x9 x10 x11 x12 x13 x14 x15 x16 x17.
Definition sd_set_SkipIf (v : option ParentCond) (r : StepDef) : StepDef :=
  let 'MkStepDef x0 x1 x2 x3 x4 x5 x6 _ x8 x9 x10 x11 x12 x13 x14 x15 x16 x17 := r in
  MkStepDef x0 x1 x2 x3 x4 x5 x6 v x8 x9 x10 x11 x12 x13 x14 x15 x16 x17.
Definition sd_set_Config (v : option raw) (r : StepDef) : StepDef :=
  let 'MkStepDef x0 x1 x2 x3 x4 x5 _ x7 x8 x9 x10 x11 x12 x13 x14 x15 x16 x17 := r in
  MkStepDef x0 x1 x2 x3 x4 x5 v x7 x8 x9 x10 x11 x12 x13 x14 x15 x16 x17.
Definition sd_set_OnFailure (v : string) (r : StepDef) : StepDef :=
  let 'MkStepDef x0 x1 x2 x3 x4 x5 x6 x7 x8 x9 x10 _ x12 x13 x14 x15 x16 x17 := r in
  MkStepDef x0 x1 x2 x3 x4 x5 x6 x7 x8 x9 x10 v x12 x13 x14 x15 x16 x17.
Definition sd_set_Compensate (v : string) (r : StepDef) : StepDef :=
  let 'MkStepDef x0 x1 x2 x3 x4 x5 x6 x7 x8 x9 x10 x11 _ x13 x14 x15 x16 x17 := r in
  MkStepDef x0 x1 x2 x3 x4 x5 x6 x7 x8 x9 x10 x11 v x13 x14 x15 x16 x17.
Definition sd_set_RateLimit (v : option RateLimit) (r : StepDef) : StepDef :=
  let 'MkStepDef x0 x1 x2 x3 x4 x5 x6 x7 x8 x9 x10 x11 x12 _ x14 x15 x16 x17 := r in
  MkStepDef x0 x1 x2 x3 x4 x5 x6 x7 x8 x9 x10 x11 x12 v x14 x15 x16 x17.
Definition sd_set_KeyedRateLimit (v : option KeyedRateLimit) (r : StepDef) : StepDef :=
  let 'MkStepDef x0 x1 x2 x3 x4 x5 x6 x7 x8 x9 x10 x11 x12 x13 _ x15 x16 x17 := r in
  MkStepDef x0 x1 x2 x3 x4 x5 x6 x7 x8 x9 x10 x11 x12 x13 v x15 x16 x17.
Definition sd_set_MaxTaskConcurrency (v : Z) (r : StepDef) : StepDef :=
  let 'MkStepDef x0 x1 x2 x3 x4 x5 x6 x7 x8 x9 x10 x11 x12 x13 x14 _ x16 x17 := r in
  MkStepDef x0 x1 x2 x3 x4 x5 x6 x7 x8 x9 x10 x11 x12 x13 x14 v x16 x17.

(** The zero [StepDef], with an identifier, a task and a type. *)
Definition step_def (id task : string) (t : StepType) : StepDef := {|
  sd_ID := id; sd_Task := task; sd_DependsOn := []; sd_Retries := 0;
  sd_Timeout := 0; sd_Type := t; sd_Config := None; sd_SkipIf := None;
  sd_Metadata := ∅; sd_Retry := None; sd_WorkerGroup := ""; sd_OnFailure := "";
  sd_Compensate := ""; sd_RateLimit := None; sd_KeyedRateLimit := None;
  sd_MaxTaskConcurrency := 0; sd_Singleton := false;
  sd_RequiredCapabilities := [];
|}.

Definition zero_StepDef : StepDef := step_def "" "" StepTypeNormal.

(** [WorkflowDef] *)
Record WorkflowDef : Type := MkWorkflowDef {
  wd_Name : string;
  wd_Version : string;
  wd_Steps : list StepDef;
  wd_DefaultRetry : option RetryPolicy;
  wd_Concurrency : option ConcurrencyLimit;
  wd_Timeout : Z;
  wd_InputSchema : option raw;
  wd_OutputSchema : option raw;
  wd_AuxSteps : gmap string bool;
  wd_IdempotencyKey : string;
  wd_Sticky : string;
  wd_Priority : option PriorityConfig;
  wd_CancelOn : list CancelOn;
  wd_Singleton : option SingletonConfig;
}.

Definition wd_set_Steps (v : list StepDef) (r : WorkflowDef) : WorkflowDef :=
  let 'MkWorkflowDef x0 x1 _ x3 x4 x5 x6 x7 x8 x9 x10 x11 x12 x13 := r in
  MkWorkflowDef x0 x1 v x3 x4 x5 x6 x7 x8 x9 x10 x11 x12 x13.
Definition wd_set_AuxSteps (v : gmap string bool) (r : WorkflowDef) : WorkflowDef :=
  let 'MkWorkflowDef x0 x1 x2 x3 x4 x5 x6 x7 _ x9 x10 x11 x12 x13 := r in
  MkWorkflowDef x0 x1 x2 x3 x4 x5 x6 x7 v x9 x10 x11 x12 x13.
Definition wd_set_Timeout (v : Z) (r : WorkflowDef) : WorkflowDef :=
  let 'MkWorkflowDef x0 x1 x2 x3 x4 _ x6 x7 x8 x9 x10 x11 x12 x13 := r in
  MkWorkflowDef x0 x1 x2 x3 x4 v x6 x7 x8 x9 x10 x11 x12 x13.

(** The zero [WorkflowDef], with a name and steps. *)
Definition workflow_def (name : string) (steps : list StepDef) : WorkflowDef := {|
  wd_Name := name; wd_Version := "1"; wd_Steps := steps; wd_DefaultRetry := None;
  wd_Concurrency := None; wd_Timeout := 0; wd_InputSchema := None;
  wd_OutputSchema := None; wd_AuxSteps := ∅; wd_IdempotencyKey := "";
  wd_Sticky := StickyNone; wd_Priority := None; wd_CancelOn := [];
  wd_Singleton := None;
|}.

(** [MapInstanceState] *)
Record MapInstanceState : Type := MkMapInstanceState {
  mi_Status : StepStatus;
  mi_Output : option raw;
  mi_Error : string;
}.


(** [StepState] *)
Record StepState : Type := MkStepState {
  ss_Status : StepStatus;
  ss_Attempts : Z;
  ss_Iterations : Z;
  ss_LoopStartedAt : option Z;
  ss_Output : option raw;
  ss_Error : string;
  ss_MapInstances : list MapInstanceState;
  ss_WakeAt : option Z;
  ss_ChildRunID : string;
  ss_DispatchNonce : string;
  ss_StartedAt : option Z;
  ss_CompletedAt : option Z;
  ss_AttemptStartedAt : option Z;
  ss_RetryDispatchAt : option Z;
  ss_DispatchUnsent : bool;
  ss_LoopState : option string;
  ss_WaitUntil : option Z;
  ss_WaitInput : bool;
  ss_HasInputs : bool;
}.

Definition ss_set_Status (v : StepStatus) (r : StepState) : StepState :=
  let 'MkStepState _ x1 x2 x3 x4 x5 x6 x7 x8 x9 x10 x11 x12 x13 x14 x15 x16 x17 x18 := r in
  MkStepState v x1 x2 x3 x4 x5 x6 x7 x8 x9 x10 x11 x12 x13 x14 x15 x16 x17 x18.
Definition ss_set_Attempts (v : Z) (r : StepState) : StepState :=
  let 'MkStepState x0 _ x2 x3 x4 x5 x6 x7 x8 x9 x10 x11 x12 x13 x14 x15 x16 x17 x18 := r in
  MkStepState x0 v x2 x3 x4 x5 x6 x7 x8 x9 x10 x11 x12 x13 x14 x15 x16 x17 x18.
Definition ss_set_Iterations (v : Z) (r : StepState) : StepState :=
  let 'MkStepState x0 x1 _ x3 x4 x5 x6 x7 x8 x9 x10 x11 x12 x13 x14 x15 x16 x17 x18 := r in
  MkStepState x0 x1 v x3 x4 x5 x6 x7 x8 x9 x10 x11 x12 x13 x14 x15 x16 x17 x18.
Definition ss_set_LoopStartedAt (v : option Z) (r : StepState) : StepState :=
  let 'MkStepState x0 x1 x2 _ x4 x5 x6 x7 x8 x9 x10 x11 x12 x13 x14 x15 x16 x17 x18 := r in
  MkStepState x0 x1 x2 v x4 x5 x6 x7 x8 x9 x10 x11 x12 x13 x14 x15 x16 x17 x18.
Definition ss_set_Output (v : option raw) (r : StepState) : StepState :=
  let 'MkStepState x0 x1 x2 x3 _ x5 x6 x7 x8 x9 x10 x11 x12 x13 x14 x15 x16 x17 x18 := r in
  MkStepState x0 x1 x2 x3 v x5 x6 x7 x8 x9 x10 x11 x12 x13 x14 x15 x16 x17 x18.
Definition ss_set_Error (v : string) (r : StepState) : StepState :=
  let 'MkStepState x0 x1 x2 x3 x4 _ x6 x7 x8 x9 x10 x11 x12 x13 x14 x15 x16 x17 x18 := r in
  MkStepState x0 x1 x2 x3 x4 v x6 x7 x8 x9 x10 x11 x12 x13 x14 x15 x16 x17 x18.
Definition ss_set_MapInstances (v : list MapInstanceState) (r : StepState) : StepState :=
  let 'MkStepState x0 x1 x2 x3 x4 x5 _ x7 x8 x9 x10 x11 x12 x13 x14 x15 x16 x17 x18 := r in
  MkStepState x0 x1 x2 x3 x4 x5 v x7 x8 x9 x10 x11 x12 x13 x14 x15 x16 x17 x18.
Definition ss_set_WakeAt (v : option Z) (r : StepState) : StepState :=
  let 'MkStepState x0 x1 x2 x3 x4 x5 x6 _ x8 x9 x10 x11 x12 x13 x14 x15 x16 x17 x18 := r in
  MkStepState x0 x1 x2 x3 x4 x5 x6 v x8 x9 x10 x11 x12 x13 x14 x15 x16 x17 x18.
Definition ss_set_ChildRunID (v : string) (r : StepState) : StepState :=
  let 'MkStepState x0 x1 x2 x3 x4 x5 x6 x7 _ x9 x10 x11 x12 x13 x14 x15 x16 x17 x18 := r in
  MkStepState x0 x1 x2 x3 x4 x5 x6 x7 v x9 x10 x11 x12 x13 x14 x15 x16 x17 x18.
Definition ss_set_DispatchNonce (v : string) (r : StepState) : StepState :=
  let 'MkStepState x0 x1 x2 x3 x4 x5 x6 x7 x8 _ x10 x11 x12 x13 x14 x15 x16 x17 x18 := r in
  MkStepState x0 x1 x2 x3 x4 x5 x6 x7 x8 v x10 x11 x12 x13 x14 x15 x16 x17 x18.
Definition ss_set_StartedAt (v : option Z) (r : StepState) : StepState :=
  let 'MkStepState x0 x1 x2 x3 x4 x5 x6 x7 x8 x9 _ x11 x12 x13 x14 x15 x16 x17 x18 := r in
  MkStepState x0 x1 x2 x3 x4 x5 x6 x7 x8 x9 v x11 x12 x13 x14 x15 x16 x17 x18.
Definition ss_set_CompletedAt (v : option Z) (r : StepState) : StepState :=
  let 'MkStepState x0 x1 x2 x3 x4 x5 x6 x7 x8 x9 x10 _ x12 x13 x14 x15 x16 x17 x18 := r in
  MkStepState x0 x1 x2 x3 x4 x5 x6 x7 x8 x9 x10 v x12 x13 x14 x15 x16 x17 x18.
Definition ss_set_AttemptStartedAt (v : option Z) (r : StepState) : StepState :=
  let 'MkStepState x0 x1 x2 x3 x4 x5 x6 x7 x8 x9 x10 x11 _ x13 x14 x15 x16 x17 x18 := r in
  MkStepState x0 x1 x2 x3 x4 x5 x6 x7 x8 x9 x10 x11 v x13 x14 x15 x16 x17 x18.
Definition ss_set_RetryDispatchAt (v : option Z) (r : StepState) : StepState :=
  let 'MkStepState x0 x1 x2 x3 x4 x5 x6 x7 x8 x9 x10 x11 x12 _ x14 x15 x16 x17 x18 := r in
  MkStepState x0 x1 x2 x3 x4 x5 x6 x7 x8 x9 x10 x11 x12 v x14 x15 x16 x17 x18.
Definition ss_set_DispatchUnsent (v : bool) (r : StepState) : StepState :=
  let 'MkStepState x0 x1 x2 x3 x4 x5 x6 x7 x8 x9 x10 x11 x12 x13 _ x15 x16 x17 x18 := r in
  MkStepState x0 x1 x2 x3 x4 x5 x6 x7 x8 x9 x10 x11 x12 x13 v x15 x16 x17 x18.
Definition ss_set_LoopState (v : option string) (r : StepState) : StepState :=
  let 'MkStepState x0 x1 x2 x3 x4 x5 x6 x7 x8 x9 x10 x11 x12 x13 x14 _ x16 x17 x18 := r in
  MkStepState x0 x1 x2 x3 x4 x5 x6 x7 x8 x9 x10 x11 x12 x13 x14 v x16 x17 x18.
Definition ss_set_WaitUntil (v : option Z) (r : StepState) : StepState :=
  let 'MkStepState x0 x1 x2 x3 x4 x5 x6 x7 x8 x9 x10 x11 x12 x13 x14 x15 _ x17 x18 := r in
  MkStepState x0 x1 x2 x3 x4 x5 x6 x7 x8 x9 x10 x11 x12 x13 x14 x15 v x17 x18.
Definition ss_set_WaitInput (v : bool) (r : StepState) : StepState :=
  let 'MkStepState x0 x1 x2 x3 x4 x5 x6 x7 x8 x9 x10 x11 x12 x13 x14 x15 x16 _ x18 := r in
  MkStepState x0 x1 x2 x3 x4 x5 x6 x7 x8 x9 x10 x11 x12 x13 x14 x15 x16 v x18.
Definition ss_set_HasInputs (v : bool) (r : StepState) : StepState :=
  let 'MkStepState x0 x1 x2 x3 x4 x5 x6 x7 x8 x9 x10 x11 x12 x13 x14 x15 x16 x17 _ := r in
  MkStepState x0 x1 x2 x3 x4 x5 x6 x7 x8 x9 x10 x11 x12 x13 x14 x15 x16 x17 v.

(** [StepState{Status: s}] *)
Definition step_state (s : StepStatus) : StepState := {|
  ss_Status := s; ss_Attempts := 0; ss_Iterations := 0; ss_LoopStartedAt := None;
  ss_Output := None; ss_Error := ""; ss_MapInstances := []; ss_WakeAt := None;
  ss_ChildRunID := ""; ss_DispatchNonce := ""; ss_StartedAt := None;
  ss_CompletedAt := None; ss_AttemptStartedAt := None; ss_RetryDispatchAt := None;
  ss_DispatchUnsent := false; ss_LoopState := None; ss_WaitUntil := None;
  ss_WaitInput := false; ss_HasInputs := false;
|}.

(** A lookup in a [map[string]StepState]: a missing key reads as the zero
    value, whose status is [Pending]. *)
Definition step_at (steps : gmap string StepState) (id : string) : StepState :=
  default (step_state StepStatusPending) (steps !! id).

(** [WorkflowRun]; the optimistic-concurrency handle [Revision] is not part of
    the stored value and is modelled with the snapshot store *)
Record WorkflowRun : Type := MkWorkflowRun {
  wr_RunID : string;
  wr_WorkflowID : string;
  wr_Status : RunStatus;
  wr_Steps : gmap string StepState;
  wr_Input : option raw;
  wr_CreatedAt : Z;
  wr_DynamicSteps : list StepDef;
  wr_ParentRunID : string;
  wr_RootRunID : string;
  wr_ParentStepID : string;
  wr_Deadline : option Z;
  wr_PriorityOffset : Z;
  wr_SingletonKey : string;
  wr_TraceParent : string;
  wr_CompletedAt : option Z;
  wr_Labels : gmap string string;
  wr_TriggerDepth : Z;
  wr_ReleasePending : bool;
  wr_ReleaseAttempts : Z;
  wr_DefHash : string;
}.

Definition wr_set_Status (v : RunStatus) (r : WorkflowRun) : WorkflowRun :=
  let 'MkWorkflowRun x0 x1 _ x3 x4 x5 x6 x7 x8 x9 x10 x11 x12 x13 x14 x15 x16 x17 x18 x19 := r in
  MkWorkflowRun x0 x1 v x3 x4 x5 x6 x7 x8 x9 x10 x11 x12 x13 x14 x15 x16 x17 x18 x19.
Definition wr_set_Steps (v : gmap string StepState) (r : WorkflowRun) : WorkflowRun :=
  let 'MkWorkflowRun x0 x1 x2 _ x4 x5 x6 x7 x8 x9 x10 x11 x12 x13 x14 x15 x16 x17 x18 x19 := r in
  MkWorkflowRun x0 x1 x2 v x4 x5 x6 x7 x8 x9 x10 x11 x12 x13 x14 x15 x16 x17 x18 x19.
Definition wr_set_Input (v : option raw) (r : WorkflowRun) : WorkflowRun :=
  let 'MkWorkflowRun x0 x1 x2 x3 _ x5 x6 x7 x8 x9 x10 x11 x12 x13 x14 x15 x16 x17 x18 x19 := r in
  MkWorkflowRun x0 x1 x2 x3 v x5 x6 x7 x8 x9 x10 x11 x12 x13 x14 x15 x16 x17 x18 x19.
Definition wr_set_CompletedAt (v : option Z) (r : WorkflowRun) : WorkflowRun :=
  let 'MkWorkflowRun x0 x1 x2 x3 x4 x5 x6 x7 x8 x9 x10 x11 x12 x13 _ x15 x16 x17 x18 x19 := r in
  MkWorkflowRun x0 x1 x2 x3 x4 x5 x6 x7 x8 x9 x10 x11 x12 x13 v x15 x16 x17 x18 x19.
Definition wr_set_DynamicSteps (v : list StepDef) (r : WorkflowRun) : WorkflowRun :=
  let 'MkWorkflowRun x0 x1 x2 x3 x4 x5 _ x7 x8 x9 x10 x11 x12 x13 x14 x15 x16 x17 x18 x19 := r in
  MkWorkflowRun x0 x1 x2 x3 x4 x5 v x7 x8 x9 x10 x11 x12 x13 x14 x15 x16 x17 x18 x19.
Definition wr_set_Deadline (v : option Z) (r : WorkflowRun) : WorkflowRun :=
  let 'MkWorkflowRun x0 x1 x2 x3 x4 x5 x6 x7 x8 x9 _ x11 x12 x13 x14 x15 x16 x17 x18 x19 := r in
  MkWorkflowRun x0 x1 x2 x3 x4 x5 x6 x7 x8 x9 v x11 x12 x13 x14 x15 x16 x17 x18 x19.
Definition wr_set_ReleasePending (v : bool) (r : WorkflowRun) : WorkflowRun :=
  let 'MkWorkflowRun x0 x1 x2 x3 x4 x5 x6 x7 x8 x9 x10 x11 x12 x13 x14 x15 x16 _ x18 x19 := r in
  MkWorkflowRun x0 x1 x2 x3 x4 x5 x6 x7 x8 x9 x10 x11 x12 x13 x14 x15 x16 v x18 x19.
Definition wr_set_ReleaseAttempts (v : Z) (r : WorkflowRun) : WorkflowRun :=
  let 'MkWorkflowRun x0 x1 x2 x3 x4 x5 x6 x7 x8 x9 x10 x11 x12 x13 x14 x15 x16 x17 _ x19 := r in
  MkWorkflowRun x0 x1 x2 x3 x4 x5 x6 x7 x8 x9 x10 x11 x12 x13 x14 x15 x16 x17 v x19.
Definition wr_set_ParentRunID (v : string) (r : WorkflowRun) : WorkflowRun :=
  let 'MkWorkflowRun x0 x1 x2 x3 x4 x5 x6 _ x8 x9 x10 x11 x12 x13 x14 x15 x16 x17 x18 x19 := r in
  MkWorkflowRun x0 x1 x2 x3 x4 x5 x6 v x8 x9 x10 x11 x12 x13 x14 x15 x16 x17 x18 x19.
Definition wr_set_RootRunID (v : string) (r : WorkflowRun) : WorkflowRun :=
  let 'MkWorkflowRun x0 x1 x2 x3 x4 x5 x6 x7 _ x9 x10 x11 x12 x13 x14 x15 x16 x17 x18 x19 := r in
  MkWorkflowRun x0 x1 x2 x3 x4 x5 x6 x7 v x9 x10 x11 x12 x13 x14 x15 x16 x17 x18 x19.
Definition wr_set_ParentStepID (v : string) (r : WorkflowRun) : WorkflowRun :=
  let 'MkWorkflowRun x0 x1 x2 x3 x4 x5 x6 x7 x8 _ x10 x11 x12 x13 x14 x15 x16 x17 x18 x19 := r in
  MkWorkflowRun x0 x1 x2 x3 x4 x5 x6 x7 x8 v x10 x11 x12 x13 x14 x15 x16 x17 x18 x19.
Definition wr_set_PriorityOffset (v : Z) (r : WorkflowRun) : WorkflowRun :=
  let 'MkWorkflowRun x0 x1 x2 x3 x4 x5 x6 x7 x8 x9 x10 _ x12 x13 x14 x15 x16 x17 x18 x19 := r in
  MkWorkflowRun x0 x1 x2 x3 x4 x5 x6 x7 x8 x9 x10 v x12 x13 x14 x15 x16 x17 x18 x19.
Definition wr_set_SingletonKey (v : string) (r : WorkflowRun) : WorkflowRun :=
  let 'MkWorkflowRun x0 x1 x2 x3 x4 x5 x6 x7 x8 x9 x10 x11 _ x13 x14 x15 x16 x17 x18 x19 := r in
  MkWorkflowRun x0 x1 x2 x3 x4 x5 x6 x7 x8 x9 x10 x11 v x13 x14 x15 x16 x17 x18 x19.
Definition wr_set_TraceParent (v : string) (r : WorkflowRun) : WorkflowRun :=
  let 'MkWorkflowRun x0 x1 x2 x3 x4 x5 x6 x7 x8 x9 x10 x11 x12 _ x14 x15 x16 x17 x18 x19 := r in
  MkWorkflowRun x0 x1 x2 x3 x4 x5 x6 x7 x8 x9 x10 x11 x12 v x14 x15 x16 x17 x18 x19.
Definition wr_set_Labels (v : gmap string string) (r : WorkflowRun) : WorkflowRun :=
  let 'MkWorkflowRun x0 x1 x2 x3 x4 x5 x6 x7 x8 x9 x10 x11 x12 x13 x14 _ x16 x17 x18 x19 := r in
  MkWorkflowRun x0 x1 x2 x3 x4 x5 x6 x7 x8 x9 x10 x11 x12 x13 x14 v x16 x17 x18 x19.
Definition wr_set_TriggerDepth (v : Z) (r : WorkflowRun) : WorkflowRun :=
  let 'MkWorkflowRun x0 x1 x2 x3 x4 x5 x6 x7 x8 x9 x10 x11 x12 x13 x14 x15 _ x17 x18 x19 := r in
  MkWorkflowRun x0 x1 x2 x3 x4 x5 x6 x7 x8 x9 x10 x11 x12 x13 x14 x15 v x17 x18 x19.

(** [NewWorkflowRun]: every step pending; [now] is the clock and [defHash]
    the content digest [DefHash]. *)
Definition NewWorkflowRun (defHash : WorkflowDef → string) (now : Z)
    (def : WorkflowDef) (runID : string) : outcome WorkflowRun :=
  panic_if (empty_str runID) "NewWorkflowRun: runID must not be empty";;
  panic_if (bool_decide (wd_Steps def = []))
    "NewWorkflowRun: WorkflowDef must have at least one step";;
  let steps := foldl
    (λ m step, <[sd_ID step := step_state StepStatusPending]> m) ∅ (wd_Steps def) in
  Ret {| wr_RunID := runID; wr_WorkflowID := wd_Name def;
         wr_Status := RunStatusPending; wr_Steps := steps; wr_Input := None;
         wr_CreatedAt := now; wr_DynamicSteps := []; wr_ParentRunID := "";
         wr_RootRunID := ""; wr_ParentStepID := ""; wr_Deadline := None;
         wr_PriorityOffset := 0; wr_SingletonKey := ""; wr_TraceParent := "";
         wr_CompletedAt := None; wr_Labels := ∅; wr_TriggerDepth := 0;
         wr_ReleasePending := false; wr_ReleaseAttempts := 0;
         wr_DefHash := defHash def |}.

(** [EffectiveTime]: an instant, so the offset is scaled in int64
    nanoseconds before it is subtracted. *)
Definition EffectiveTime (r : WorkflowRun) : Z :=
  wr_CreatedAt r + wrap64 (wrap64 (- wr_PriorityOffset r) * Second).

(** ** Facts about the data model *)

Lemma find_first_table {A} (table : list A) (f : A → string) x :
  x ∈ table → Forall (λ y, f y = f x → y = x) table →
  find_first (λ y, bool_decide (f y = f x)) table = Some x.
Proof.
  intros Hin. induction table as [|y l IH]; [by apply elem_of_nil in Hin|].
  rewrite Forall_cons. intros [Hy Hl]. simpl. case_bool_decide as Hxy.
  { f_equal. auto. }
  apply elem_of_cons in Hin as [->|Hin]; [done|]. auto.
Qed.

Ltac enum_roundtrip := intros []; by vm_compute.

Lemma StepType_roundtrip x : StepType_UnmarshalJSON (StepType_MarshalJSON x) = Ret x.
Proof. revert x. enum_roundtrip. Qed.
Lemma RunStatus_roundtrip x : RunStatus_UnmarshalJSON (RunStatus_MarshalJSON x) = Ret x.
Proof. revert x. enum_roundtrip. Qed.
Lemma StepStatus_roundtrip x : StepStatus_UnmarshalJSON (StepStatus_MarshalJSON x) = Ret x.
Proof. revert x. enum_roundtrip. Qed.
Lemma RetryStrategy_roundtrip x :
  RetryStrategy_UnmarshalJSON (RetryStrategy_MarshalJSON x) = Ret x.
Proof. revert x. enum_roundtrip. Qed.

(** The steps map of a fresh run: one pending state per step of the
    definition, nothing else. *)
Lemma new_steps_lookup (l : list StepDef) : ∀ (m : gmap string StepState) id,
  foldl (λ m step, <[sd_ID step := step_state StepStatusPending]> m) m l !! id =
  if bool_decide (id ∈ sd_ID <$> l) then Some (step_state StepStatusPending)
  else m !! id.
Proof.
  induction l as [|s l IH]; intros m id; [done|]. rewrite fmap_cons. cbn [foldl].
  rewrite IH. rewrite (bool_decide_ext (id ∈ sd_ID s :: (sd_ID <$> l))
    (id = sd_ID s ∨ id ∈ sd_ID <$> l)) by apply elem_of_cons.
  destruct (decide (id ∈ sd_ID <$> l)) as [H1|H1].
  { rewrite !bool_decide_eq_true_2; auto. }
  rewrite (bool_decide_eq_false_2 (id ∈ _)) by done.
  destruct (decide (id = sd_ID s)) as [->|H2].
  - rewrite bool_decide_eq_true_2 by auto. apply lookup_insert_eq.
  - rewrite bool_decide_eq_false_2 by (intros [?|?]; done).
    by apply lookup_insert_ne.
Qed.

Lemma step_at_insert steps id st : step_at (<[id:=st]> steps) id = st.
Proof. unfold step_at. by rewrite lookup_insert_eq. Qed.

Lemma step_at_insert_ne steps id id' st :
  id ≠ id' → step_at (<[id:=st]> steps) id' = step_at steps id'.
Proof. intros. unfold step_at. by rewrite lookup_insert_ne. Qed.

#[global] Hint Rewrite step_at_insert : go.
