(* ===== verification/Config.v ===== *)
(** * Type-specific step configuration (dag/config.go and its siblings)

    [StepDef.Config] is raw JSON; each [Parse...Config] checks the step type,
    rejects a nil config and decodes the JSON.  The configuration structs are
    those of dag/config.go, types.go, planner.go, approval.go,
    subworkflow.go, waitforevent.go and respond_config.go. *)

From S2P Require Import Prelude Json Types.

(** ** Configuration structs *)

Record AgentLoopConfig : Type := MkAgentLoopConfig {
  al_MaxIterations : Z;
  al_MaxDuration : Z;
  al_LoopDelay : Z;
  al_BudgetWarnAt : Z;
  al_BudgetForceAt : Z;
}.

Record MapConfig : Type := MkMapConfig { mc_MaxItems : Z }.

Record SleepConfig : Type := MkSleepConfig {
  sl_Duration : Z;
  sl_Cron : string;
  sl_UntilInputPath : string;
  sl_CronTimezone : string;
  sl_CronTimezoneInputPath : string;
}.

Record SubWorkflowConfig : Type := MkSubWorkflowConfig {
  sw_Workflow : string;
  sw_Detach : bool;
}.

Record WaitForEventOpts : Type := MkWaitForEventOpts {
  we_Event : string;
  we_Match : Match_;
  we_Timeout : Z;
}.

Record PlannerConfig : Type := MkPlannerConfig {
  pl_MaxSteps : Z;
  pl_MaxDepth : Z;
  pl_AllowedTasks : list string;
}.

Record ApprovalConfig : Type := MkApprovalConfig {
  ap_Timeout : Z;
  ap_Subject : string;
  ap_Description : string;
  ap_Metadata : gmap string string;
}.

Record RespondConfig : Type := MkRespondConfig {
  rc_Status : Z;
  rc_Headers : gmap string string;
  rc_BodyFrom : string;
  rc_ContentType : string;
}.

(** ** Decoders: the struct tags of each type *)

Definition decode_AgentLoopConfig (fs : list (string * json))
    : outcome AgentLoopConfig :=
  a ← dec_field dec_int "max_iterations" 0 fs;
  b ← dec_field dec_int "max_duration" 0 fs;
  c ← dec_field dec_int "loop_delay" 0 fs;
  d ← dec_field dec_int "budget_warn_at" 0 fs;
  e ← dec_field dec_int "budget_force_at" 0 fs;
  Ret (MkAgentLoopConfig a b c d e).

Definition decode_MapConfig (fs : list (string * json)) : outcome MapConfig :=
  a ← dec_field dec_int "max_items" 0 fs; Ret (MkMapConfig a).

Definition decode_SleepConfig (fs : list (string * json)) : outcome SleepConfig :=
  a ← dec_field dec_int "duration" 0 fs;
  b ← dec_field dec_string "cron" "" fs;
  c ← dec_field dec_string "until_input_path" "" fs;
  d ← dec_field dec_string "cron_timezone" "" fs;
  e ← dec_field dec_string "cron_timezone_input_path" "" fs;
  Ret (MkSleepConfig a b c d e).

Definition decode_SubWorkflowConfig (fs : list (string * json))
    : outcome SubWorkflowConfig :=
  a ← dec_field dec_string "workflow" "" fs;
  b ← dec_field dec_bool "detach" false fs;
  Ret (MkSubWorkflowConfig a b).

Definition dec_Match (cur : Match_) (v : json) : outcome Match_ :=
  match v with
  | JNull => Ret cur
  | JObj fs =>
      a ← dec_field dec_string "left" (m_Left cur) fs;
      b ← dec_field dec_string "op" (m_Op cur) fs;
      c ← dec_field dec_string "right" (m_Right cur) fs;
      Ret (MkMatch a b c)
  | _ => Err (err_json "cannot unmarshal value into Match")
  end.

Definition decode_WaitForEventOpts (fs : list (string * json))
    : outcome WaitForEventOpts :=
  a ← dec_field dec_string "event" "" fs;
  b ← dec_field dec_Match "match" (MkMatch "" "" "") fs;
  c ← dec_field dec_int "timeout" 0 fs;
  Ret (MkWaitForEventOpts a b c).

Definition decode_PlannerConfig (fs : list (string * json)) : outcome PlannerConfig :=
  a ← dec_field dec_int "max_steps" 0 fs;
  b ← dec_field dec_int "max_depth" 0 fs;
  c ← dec_field dec_strings "allowed_tasks" [] fs;
  Ret (MkPlannerConfig a b c).

Definition decode_ApprovalConfig (fs : list (string * json))
    : outcome ApprovalConfig :=
  a ← dec_field dec_int "timeout" 0 fs;
  b ← dec_field dec_string "subject" "" fs;
  c ← dec_field dec_string "description" "" fs;
  d ← dec_field dec_string_map "metadata" ∅ fs;
  Ret (MkApprovalConfig a b c d).

Definition decode_RespondConfig (fs : list (string * json)) : outcome RespondConfig :=
  a ← dec_field dec_int "status" 0 fs;
  b ← dec_field dec_string_map "headers" ∅ fs;
  c ← dec_field dec_string "body_from" "" fs;
  d ← dec_field dec_string "content_type" "" fs;
  Ret (MkRespondConfig a b c d).

(** ** The Parse functions

    All follow one shape: type check, nil check, decode. *)
Definition parse_config {A} (t : StepType) (what : string)
    (decode : raw → outcome A) (step : StepDef) : outcome A :=
  if negb (bool_decide (sd_Type step = t)) then
    Err (Errorf "step %q: expected %s, got %s"
           [AStr (sd_ID step); AStr what; AStr (StepType_String (sd_Type step))])
  else
    match sd_Config step with
    | None => Err (Errorf "step %q: Config is nil for %s"
                     [AStr (sd_ID step); AStr what])
    | Some r =>
        wrap_err (λ e, Errorf "step %q: unmarshal %sConfig: %w"
                         [AStr (sd_ID step); AStr what; AErr e]) (decode r)
    end.

Definition ParseAgentLoopConfig : StepDef → outcome AgentLoopConfig :=
  parse_config StepTypeAgentLoop "AgentLoop"
    (durationjson_Unmarshal ["max_duration"; "loop_delay"]
       (MkAgentLoopConfig 0 0 0 0 0) decode_AgentLoopConfig).

Definition ParseMapConfig : StepDef → outcome MapConfig :=
  parse_config StepTypeMap "Map"
    (unmarshal_struct (MkMapConfig 0) decode_MapConfig).

Definition ParseSubWorkflowConfig : StepDef → outcome SubWorkflowConfig :=
  parse_config StepTypeSubWorkflow "SubWorkflow"
    (unmarshal_struct (MkSubWorkflowConfig "" false) decode_SubWorkflowConfig).

Definition ParseWaitForEventConfig : StepDef → outcome WaitForEventOpts :=
  parse_config StepTypeWaitForEvent "WaitForEvent"
    (durationjson_Unmarshal ["timeout"]
       (MkWaitForEventOpts "" (MkMatch "" "" "") 0) decode_WaitForEventOpts).

Definition ParsePlannerConfig : StepDef → outcome PlannerConfig :=
  parse_config StepTypePlanner "Planner"
    (unmarshal_struct (MkPlannerConfig 0 0 []) decode_PlannerConfig).

Definition ParseApprovalConfig : StepDef → outcome ApprovalConfig :=
  parse_config StepTypeApproval "Approval"
    (durationjson_Unmarshal ["timeout"]
       (MkApprovalConfig 0 "" "" ∅) decode_ApprovalConfig).

(** [SleepConfig.formCount] *)
Definition formCount (c : SleepConfig) : Z :=
  (if sl_Duration c =? 0 then 0 else 1) +
  (if empty_str (sl_Cron c) then 0 else 1) +
  (if empty_str (sl_UntilInputPath c) then 0 else 1).

(** [SleepConfig.checkCronZoneFields] *)
Definition checkCronZoneFields (c : SleepConfig) : outcome unit :=
  let hasStatic := negb (empty_str (sl_CronTimezone c)) in
  let hasPath := negb (empty_str (sl_CronTimezoneInputPath c)) in
  if negb hasStatic && negb hasPath then Ret tt
  else
    fail_if (empty_str (sl_Cron c))
      (Errorf "sleep cron_timezone and cron_timezone_input_path require cron" []);;
    fail_if (hasStatic && hasPath)
      (Errorf "sleep config must set at most one of cron_timezone, cron_timezone_input_path" []).

Definition ParseSleepConfig (step : StepDef) : outcome SleepConfig :=
  cfg ← parse_config StepTypeSleep "Sleep"
    (durationjson_Unmarshal ["duration"]
       (MkSleepConfig 0 "" "" "" "") decode_SleepConfig) step;
  fail_if (negb (formCount cfg =? 1))
    (Errorf "step %q: sleep config must set exactly one of duration, cron, until_input_path; got %d"
       [AStr (sd_ID step); AInt (formCount cfg)]);;
  wrap_err (λ e, Errorf "step %q: %w" [AStr (sd_ID step); AErr e])
    (checkCronZoneFields cfg);;
  Ret cfg.

(** [ParseRespondConfig]: like its siblings, but an empty non-nil config and
    an empty step ID panic. *)
Definition ParseRespondConfig (step : StepDef) : outcome RespondConfig :=
  panic_if (empty_str (sd_ID step)) "ParseRespondConfig: step.ID must not be empty";;
  if bool_decide (sd_Type step = StepTypeRespond) then
    match sd_Config step with
    | Some r =>
        panic_if (raw_empty r)
          "ParseRespondConfig: step.Config has zero length but is non-nil";;
        parse_config StepTypeRespond "Respond"
          (unmarshal_struct (MkRespondConfig 0 ∅ "" "") decode_RespondConfig) step
    | None => parse_config StepTypeRespond "Respond"
          (unmarshal_struct (MkRespondConfig 0 ∅ "" "") decode_RespondConfig) step
    end
  else parse_config StepTypeRespond "Respond"
         (unmarshal_struct (MkRespondConfig 0 ∅ "" "") decode_RespondConfig) step.

(** [RespondConfig.Defaulted], both pre- and post-conditions included. *)
Definition Defaulted (c : RespondConfig) : outcome RespondConfig :=
  panic_if (rc_Status c <? 0) "RespondConfig.Defaulted: Status must not be negative";;
  let status := if rc_Status c =? 0 then 200 else rc_Status c in
  let ct := if empty_str (rc_ContentType c) then "application/json"
            else rc_ContentType c in
  panic_if (status <=? 0) "RespondConfig.Defaulted: post-default Status must be positive";;
  panic_if (empty_str ct)
    "RespondConfig.Defaulted: post-default ContentType must not be empty";;
  Ret (MkRespondConfig status (rc_Headers c) (rc_BodyFrom c) ct).

(** ** Facts *)

Lemma parse_config_type {A} t what (decode : raw → outcome A) step c :
  parse_config t what decode step = Ret c → sd_Type step = t.
Proof. unfold parse_config. case_bool_decide; naive_solver. Qed.

Lemma parse_config_no_panic {A} t what (decode : raw → outcome A) step :
  (∀ r, is_panic (decode r) = false) → is_panic (parse_config t what decode step) = false.
Proof.
  intros H. unfold parse_config. case_bool_decide; simpl; [|done].
  destruct (sd_Config step) as [r|]; [|done]. specialize (H r). by destruct (decode r).
Qed.

(** [is_panic] of a bind: the continuation only matters after success. *)
Lemma bind_no_panic {A B} (m : outcome A) (f : A → outcome B) :
  is_panic m = false → (∀ a, m = Ret a → is_panic (f a) = false) →
  is_panic (m ≫= f) = false.
Proof. destruct m; simpl; naive_solver. Qed.

Lemma dec_field_no_panic {A} (dec : A → json → outcome A) name fs :
  (∀ c v, is_panic (dec c v) = false) → ∀ cur,
  is_panic (dec_field dec name cur fs) = false.
Proof.
  intros H. induction fs as [|[k v] fs IH]; intros cur; simpl; [done|].
  case_bool_decide; [|apply IH]. apply bind_no_panic; auto.
Qed.

Lemma dec_int_no_panic c v : is_panic (dec_int c v) = false.
Proof. by destruct v; simpl; try case_match. Qed.
Lemma dec_string_no_panic c v : is_panic (dec_string c v) = false.
Proof. by destruct v. Qed.
Lemma dec_bool_no_panic c v : is_panic (dec_bool c v) = false.
Proof. by destruct v. Qed.
Lemma mapM_no_panic {A B} (f : A → outcome B) l :
  (∀ x, is_panic (f x) = false) → is_panic (mapM_outcome f l) = false.
Proof.
  intros H. induction l as [|x l IH]; simpl; [done|].
  apply bind_no_panic; [done|]. intros. by apply bind_no_panic.
Qed.
Lemma dec_strings_no_panic c v : is_panic (dec_strings c v) = false.
Proof. destruct v; simpl; auto using mapM_no_panic, dec_string_no_panic. Qed.
Lemma dec_entries_no_panic {A} (dec : json → outcome A) fs :
  (∀ v, is_panic (dec v) = false) → ∀ m, is_panic (dec_entries dec m fs) = false.
Proof.
  intros H. induction fs as [|[k v] fs IH]; intros m; simpl; [done|].
  apply bind_no_panic; auto.
Qed.
Lemma dec_string_map_no_panic c v : is_panic (dec_string_map c v) = false.
Proof. destruct v; simpl; auto using dec_entries_no_panic, dec_string_no_panic. Qed.

#[export] Hint Resolve dec_int_no_panic dec_string_no_panic dec_bool_no_panic
  dec_strings_no_panic dec_string_map_no_panic dec_field_no_panic : go.

Ltac no_panic_bind :=
  repeat (apply bind_no_panic; [auto with go|intros; simplify_eq]); auto with go.

Lemma dec_Match_no_panic c v : is_panic (dec_Match c v) = false.
Proof. destruct v; simpl; auto. no_panic_bind. Qed.
#[export] Hint Resolve dec_Match_no_panic : go.

Lemma rewriteDurationStrings_no_panic keys fs :
  is_panic (rewriteDurationStrings keys fs) = false.
Proof.
  induction fs as [|[k v] fs IH]; simpl; [done|]. apply bind_no_panic.
  - repeat case_match; done.
  - intros. apply bind_no_panic; [done|]. done.
Qed.

Lemma unmarshal_struct_no_panic {A} (z : A) decode r :
  (∀ fs, is_panic (decode fs) = false) → is_panic (unmarshal_struct z decode r) = false.
Proof. intros H. destruct r as [|[]]; simpl; auto. Qed.

Lemma durationjson_no_panic {A} keys (z : A) decode r :
  (∀ fs, is_panic (decode fs) = false) →
  is_panic (durationjson_Unmarshal keys z decode r) = false.
Proof.
  intros H. destruct r as [|[]]; simpl; auto.
  apply bind_no_panic; auto using rewriteDurationStrings_no_panic.
Qed.

(** No parse function but [ParseRespondConfig] can panic. *)
Lemma parse_configs_no_panic step :
  is_panic (ParseAgentLoopConfig step) = false ∧
  is_panic (ParseMapConfig step) = false ∧
  is_panic (ParseSubWorkflowConfig step) = false ∧
  is_panic (ParseWaitForEventConfig step) = false ∧
  is_panic (ParsePlannerConfig step) = false ∧
  is_panic (ParseApprovalConfig step) = false ∧
  is_panic (ParseSleepConfig step) = false.
Proof.
  split_and!;
    try (apply parse_config_no_panic; intros;
         (apply durationjson_no_panic || apply unmarshal_struct_no_panic);
         intros; unfold decode_AgentLoopConfig, decode_MapConfig,
           decode_SubWorkflowConfig, decode_WaitForEventOpts,
           decode_PlannerConfig, decode_ApprovalConfig; no_panic_bind).
  unfold ParseSleepConfig. apply bind_no_panic.
  - apply parse_config_no_panic. intros. apply durationjson_no_panic.
    intros. unfold decode_SleepConfig. no_panic_bind.
  - intros c _. unfold checkCronZoneFields, fail_if. by repeat case_match.
Qed.

(** What [ParseSleepConfig] guarantees: exactly one form, and a zone only
    next to a cron expression. *)
Lemma ParseSleepConfig_form step c :
  ParseSleepConfig step = Ret c →
  formCount c = 1 ∧ sd_Type step = StepTypeSleep ∧ checkCronZoneFields c = Ret tt.
Proof.
  unfold ParseSleepConfig. intros H.
  apply bind_ret_iff in H as (c' & Hp & H).
  autorewrite with go in H. destruct H as (H1 & H2 & [= ->]).
  apply parse_config_type in Hp. split_and!; [lia|done|done].
Qed.

(** The code, body and type a defaulted response ends up with. *)
Lemma Defaulted_ok c :
  0 ≤ rc_Status c →
  ∃ c', Defaulted c = Ret c' ∧ 0 < rc_Status c' ∧ rc_ContentType c' ≠ "" ∧
        rc_BodyFrom c' = rc_BodyFrom c ∧ rc_Headers c' = rc_Headers c ∧
        (rc_Status c ≠ 0 → rc_Status c' = rc_Status c) ∧
        (rc_ContentType c ≠ "" → rc_ContentType c' = rc_ContentType c).
Proof.
  intros H. unfold Defaulted, panic_if, empty_str.
  assert ((rc_Status c <? 0) = false) as -> by lia. simpl.
  destruct (Z.eqb_spec (rc_Status c) 0) as [E|E], (decide (rc_ContentType c = "")) as [F|F].
  all: repeat (rewrite bool_decide_eq_true_2 by done).
  all: repeat (rewrite bool_decide_eq_false_2 by done); simpl.
  all: try (assert ((rc_Status c <=? 0) = false) as -> by lia).
  all: eexists; split_and!; simpl; naive_solver lia.
Qed.
