(* ===== verification/Graph.v ===== *)
(** * Dependency graphs: Kahn's algorithm (dag/validate.go, dag/dynamic.go)

    [detectCycle] is the breadth-first topological sort of the source: it
    counts in-degrees, pops nodes of in-degree zero and compares the number
    of popped nodes with the number of steps.  Go's map iteration fixes no
    order for the initial queue, so the order is a parameter [perm] of the
    model, any permutation.  The theorems show that the loop always ends,
    that [detectCycle] accepts exactly the acyclic graphs, whatever the
    order, and that an accepted graph has a topological order. *)

From S2P Require Import Prelude Types.
From stdpp Require Import relations.

#[local] Open Scope Z_scope.

(** ** The graph of a list of steps *)

Abbreviation edge := (string * string)%type.

(** The pair [(dep, id)] for every [dep] in the [DependsOn] of step [id]. *)
Definition step_edges (s : StepDef) : list edge :=
  (λ dep, (dep, sd_ID s)) <$> sd_DependsOn s.
Definition edges (steps : list StepDef) : list edge := flat_map step_edges steps.

Definition ids_of (steps : list StepDef) : list string := sd_ID <$> steps.

(** [depends E a b]: step [b] depends directly on step [a]. *)
Definition depends (E : list edge) (a b : string) : Prop := (a, b) ∈ E.

(** No step depends on itself, directly or not. *)
Definition acyclic (E : list edge) : Prop := ∀ a, ¬ tc (depends E) a a.

(** Every dependency names a step. *)
Definition deps_exist (steps : list StepDef) : Prop :=
  ∀ d id, (d, id) ∈ edges steps → d ∈ ids_of steps.

(** The [byID] maps of the source. *)

(** [byID[s.ID] = s] for every step: a later step of the same ID wins. *)
Definition byID (steps : list StepDef) : gmap string StepDef :=
  foldl (λ m s, <[sd_ID s := s]> m) ∅ steps.

Lemma byID_lookup steps s :
  NoDup (ids_of steps) → s ∈ steps → byID steps !! sd_ID s = Some s.
Proof.
  unfold byID. induction steps as [|x steps IH] using rev_ind; intros Hnd Hs.
  { by apply elem_of_nil in Hs. }
  unfold ids_of in *. rewrite fmap_app in Hnd. csimpl in Hnd.
  rewrite foldl_snoc. rewrite lookup_insert.
  apply elem_of_app in Hs as [Hs|Hs%list_elem_of_singleton]; [|subst; by rewrite decide_True].
  apply NoDup_app in Hnd as (Hnd & Hdis & _). rewrite decide_False; [by apply IH|].
  intros Heq. apply (Hdis (sd_ID s)); [by apply list_elem_of_fmap_2|]. rewrite Heq. left.
Qed.

(** ** The code *)

Abbreviation degrees := (gmap string Z).
Abbreviation adjacency := (gmap string (list string)).

Definition add_edge (id : string) (acc : degrees * adjacency) (dep : string)
    : degrees * adjacency :=
  let '(inDegree, dependents) := acc in
  (<[id := default 0 (inDegree !! id) + 1]> inDegree,
   <[dep := default [] (dependents !! dep) ++ [id]]> dependents).

Definition add_step (acc : degrees * adjacency) (s : StepDef) : degrees * adjacency :=
  let '(inDegree, dependents) := acc in
  let inDegree :=
    match inDegree !! sd_ID s with
    | None => <[sd_ID s := 0]> inDegree
    | Some _ => inDegree
    end in
  foldl (add_edge (sd_ID s)) (inDegree, dependents) (sd_DependsOn s).

(** The in-degree and dependents maps. *)
Definition kahn_graph (steps : list StepDef) : degrees * adjacency :=
  foldl add_step (∅, ∅) steps.

(** The ids of in-degree zero, in the iteration order of the map. *)
Definition zero_degree (perm : list string → list string) (inDegree : degrees)
    : list string :=
  perm (fst <$> filter (λ p, p.2 = 0) (map_to_list inDegree)).

(** [for _, dep := range dependents[node] { inDegree[dep]--; ... }] *)
Definition relax_one (acc : degrees * list string) (dep : string)
    : degrees * list string :=
  let '(inDegree, queue) := acc in
  let d := default 0 (inDegree !! dep) - 1 in
  (<[dep := d]> inDegree, if d =? 0 then queue ++ [dep] else queue).
Definition relax (acc : degrees * list string) (children : list string)
    : degrees * list string := foldl relax_one acc children.

(** The main loop; [None] only when the fuel runs out. *)
Fixpoint kahn_loop (fuel : nat) (inDegree : degrees) (dependents : adjacency)
    (queue : list string) (visited : Z) : option Z :=
  match queue with
  | [] => Some visited
  | node :: queue' =>
      match fuel with
      | O => None
      | S fuel' =>
          let '(inDegree', queue'') :=
            relax (inDegree, queue') (default [] (dependents !! node)) in
          kahn_loop fuel' inDegree' dependents queue'' (visited + 1)
      end
  end.

(** [detectCycle]: one fuel unit per node is enough ([kahn_loop_ends]). *)
Definition detectCycle (perm : list string → list string) (steps : list StepDef)
    : outcome unit :=
  let '(inDegree, dependents) := kahn_graph steps in
  match kahn_loop (size inDegree) inDegree dependents
          (zero_degree perm inDegree) 0 with
  | Some visited =>
      fail_if (negb (visited =? Z.of_nat (length steps)))
        (Errorf "workflow contains a cycle (%d of %d steps reachable)"
           [AInt visited; AInt (Z.of_nat (length steps))])
  | None => Panic "detectCycle: loop did not end"
  end.

(** ** What the maps hold *)

Definition count (c : string) (l : list string) : nat :=
  length (filter (λ x, x = c) l).
Definition indeg (E : list edge) (id : string) : nat :=
  length (filter (λ e, e.2 = id) E).
Definition children (E : list edge) (d : string) : list string :=
  snd <$> filter (λ e, e.1 = d) E.

Lemma count_app c l k : count c (l ++ k) = (count c l + count c k)%nat.
Proof. unfold count. by rewrite filter_app, length_app. Qed.
Lemma count_cons c x l :
  count c (x :: l) = ((if decide (x = c) then 1 else 0) + count c l)%nat.
Proof. unfold count. rewrite filter_cons. by case_decide. Qed.
Lemma count_pos c l : c ∈ l ↔ (0 < count c l)%nat.
Proof.
  unfold count. split.
  - intros H. assert (c ∈ filter (λ x, x = c) l) as Hc by (by apply list_elem_of_filter).
    destruct (filter _ l); [by apply elem_of_nil in Hc|simpl; lia].
  - intros H. destruct (filter _ l) as [|x k] eqn:E; [simpl in H; lia|].
    assert (x ∈ filter (λ x, x = c) l) as Hx by (rewrite E; left).
    apply list_elem_of_filter in Hx as [-> ?]. done.
Qed.

Lemma children_count E d id :
  count id (children E d) = length (filter (λ e, e.2 = id ∧ e.1 = d) E).
Proof.
  induction E as [|[a b] E IH]; [done|]. unfold children in *.
  rewrite !filter_cons. csimpl. destruct (decide (a = d)) as [->|Ha]; csimpl.
  - rewrite count_cons, IH. destruct (decide (b = id)) as [->|Hb].
    + by rewrite decide_True by done.
    + rewrite (decide_False (P := _ ∧ _)) by naive_solver. done.
  - rewrite IH. by rewrite (decide_False (P := _ ∧ _)) by naive_solver.
Qed.

Lemma children_elem E d id : id ∈ children E d ↔ (d, id) ∈ E.
Proof.
  unfold children. rewrite list_elem_of_fmap. split.
  - intros ([a b] & -> & [Ha ?]%list_elem_of_filter). simpl in *. by subst.
  - intros. exists (d, id). by rewrite list_elem_of_filter.
Qed.

(** The pair of maps built so far, over edges [E] and nodes [ids]. *)
Record graph_ok (E : list edge) (ids : list string) (acc : degrees * adjacency)
    : Prop := {
  go_deg : ∀ id, acc.1 !! id =
    if decide (id ∈ ids) then Some (Z.of_nat (indeg E id)) else None;
  go_adj : ∀ d, default [] (acc.2 !! d) = children E d;
}.

Lemma indeg_snoc E a b id :
  indeg (E ++ [(a, b)]) id = (indeg E id + if decide (b = id) then 1 else 0)%nat.
Proof.
  unfold indeg. rewrite filter_app, length_app. f_equal.
  rewrite filter_cons, filter_nil. simpl. by case_decide.
Qed.
Lemma children_snoc E a b d :
  children (E ++ [(a, b)]) d = children E d ++ if decide (a = d) then [b] else [].
Proof.
  unfold children. rewrite filter_app, fmap_app. f_equal.
  rewrite filter_cons, filter_nil. simpl. by case_decide.
Qed.

Lemma add_edge_ok E ids acc id dep :
  id ∈ ids → graph_ok E ids acc → graph_ok (E ++ [(dep, id)]) ids (add_edge id acc dep).
Proof.
  intros Hid [Hdeg Hadj]. destruct acc as [deg adj]; simpl in *.
  split; simpl; intros x.
  - rewrite indeg_snoc, lookup_insert. destruct (decide (id = x)) as [->|Hne].
    + rewrite Hdeg, !decide_True by done. simpl. f_equal. lia.
    + rewrite Hdeg. case_decide; [|done]. do 2 f_equal. lia.
  - rewrite children_snoc, lookup_insert. destruct (decide (dep = x)) as [->|Hne].
    + simpl. by rewrite Hadj.
    + by rewrite app_nil_r.
Qed.

Lemma add_edges_ok deps ids id : ∀ E acc,
  id ∈ ids → graph_ok E ids acc →
  graph_ok (E ++ ((λ dep, (dep, id)) <$> deps)) ids (foldl (add_edge id) acc deps).
Proof.
  induction deps as [|dep deps IH]; intros E acc Hid Hok; csimpl.
  - by rewrite app_nil_r.
  - rewrite cons_middle, (assoc_L (++)). by apply IH, add_edge_ok.
Qed.

Lemma indeg_no_edge E id : (∀ d, (d, id) ∉ E) → indeg E id = 0%nat.
Proof.
  intros H. unfold indeg. destruct (filter _ E) as [|[a b] k] eqn:Hf; [done|].
  exfalso. apply (H a). assert ((a, b) ∈ filter (λ e, e.2 = id) E) as Hin.
  { rewrite Hf. left. }
  apply list_elem_of_filter in Hin as [? ?]. simpl in *. by subst.
Qed.

Lemma add_step_ok E ids acc s :
  (∀ d id, (d, id) ∈ E → id ∈ ids) →
  graph_ok E ids acc → graph_ok (E ++ step_edges s) (ids ++ [sd_ID s]) (add_step acc s).
Proof.
  intros Hcl [Hdeg Hadj]. destruct acc as [deg adj]. unfold add_step, step_edges.
  simpl in *. apply add_edges_ok; [set_solver|]. split; simpl; [|done].
  intros x. rewrite Hdeg. destruct (decide (sd_ID s ∈ ids)) as [Hs|Hs].
  - rewrite Hdeg. destruct (decide (x ∈ ids)).
    + rewrite decide_True; [done|set_solver].
    + rewrite decide_False; [done|set_solver].
  - rewrite lookup_insert, Hdeg. destruct (decide (sd_ID s = x)) as [<-|Hne].
    + rewrite decide_True by set_solver. rewrite indeg_no_edge; [done|].
      intros d Hd. by apply Hcl in Hd.
    + destruct (decide (x ∈ ids)).
      * rewrite decide_True; [done|set_solver].
      * rewrite decide_False; [done|set_solver].
Qed.

Lemma edges_elem steps d id :
  (d, id) ∈ edges steps ↔ ∃ s, s ∈ steps ∧ sd_ID s = id ∧ d ∈ sd_DependsOn s.
Proof.
  unfold edges. rewrite list_elem_of_In, in_flat_map. split.
  - intros (s & Hs%list_elem_of_In & He%list_elem_of_In). unfold step_edges in He.
    apply list_elem_of_fmap in He as (? & ? & ?). simplify_eq. eauto.
  - intros (s & Hs & <- & Hd). exists s. rewrite <-!list_elem_of_In. split; [done|].
    unfold step_edges. apply list_elem_of_fmap. eauto.
Qed.

Lemma edges_target steps d id : (d, id) ∈ edges steps → id ∈ ids_of steps.
Proof.
  rewrite edges_elem. intros (s & ? & <- & ?). by apply list_elem_of_fmap_2.
Qed.

Lemma kahn_graph_ok steps : graph_ok (edges steps) (ids_of steps) (kahn_graph steps).
Proof.
  unfold kahn_graph. induction steps as [|s steps IH] using rev_ind.
  { split; intros; simpl; by rewrite lookup_empty. }
  rewrite foldl_snoc. unfold edges, ids_of in *.
  rewrite flat_map_app, fmap_app. simpl. rewrite app_nil_r.
  apply add_step_ok; [apply edges_target|done].
Qed.

(** ** One relaxation pass *)

Lemma relax_cons deg q x L : relax (deg, q) (x :: L) = relax (relax_one (deg, q) x) L.
Proof. done. Qed.

(** Relaxing the children [L] of a popped node lowers each in-degree by the
    multiplicity of the child and appends, once, the children that reach
    zero. *)
Lemma relax_spec L : ∀ deg q,
  (∀ c, c ∈ L → ∃ n, deg !! c = Some n ∧ Z.of_nat (count c L) ≤ n) →
  ∃ deg' p, relax (deg, q) L = (deg', q ++ p) ∧
    (∀ c, deg' !! c = (λ n, n - Z.of_nat (count c L)) <$> deg !! c) ∧
    NoDup p ∧ (∀ c, c ∈ p ↔ c ∈ L ∧ deg' !! c = Some 0).
Proof.
  induction L as [|x L IH]; intros deg q HL.
  { exists deg, []. split_and!; [by rewrite app_nil_r| |constructor|set_solver].
    intros c. unfold count. rewrite filter_nil. simpl.
    destruct (deg !! c); simpl; [f_equal; lia|done]. }
  destruct (HL x) as (n & Hn & Hle); [left|]. rewrite count_cons, decide_True in Hle by done.
  rewrite relax_cons. unfold relax_one. rewrite Hn. simpl.
  destruct (IH (<[x:=n-1]> deg) (if n - 1 =? 0 then q ++ [x] else q))
    as (deg' & p & Hr & Hdeg & Hnd & Hp).
  { intros c Hc. rewrite lookup_insert. case_decide as Hxc.
    - subst c. exists (n - 1). split; [done|]. lia.
    - destruct (HL c) as (m & Hm & Hmle); [by right|]. rewrite count_cons, decide_False in Hmle by done.
      exists m. split; [done|lia]. }
  assert (∀ c, deg' !! c = (λ m, m - Z.of_nat (count c (x :: L))) <$> deg !! c) as Hdeg2.
  { intros c. rewrite Hdeg, lookup_insert, count_cons. case_decide as Hxc.
    - subst c. rewrite Hn. simpl. f_equal. lia.
    - destruct (deg !! c); simpl; [f_equal; lia|done]. }
  destruct (Z.eqb_spec (n - 1) 0) as [Hz|Hz]; rewrite Hr.
  - assert (x ∉ L) as HxL. { rewrite count_pos. lia. }
    exists deg', (x :: p). split_and!; [by rewrite <-(assoc_L (++))|done| |].
    + constructor; [|done]. rewrite Hp. naive_solver.
    + intros c. rewrite !elem_of_cons, Hp. split.
      * intros [->|[? ?]]; [|auto]. split; [by left|].
        rewrite Hdeg2, Hn, count_cons, decide_True by done. simpl. f_equal.
        assert (count x L = 0%nat) as ->; [|lia].
        rewrite count_pos in HxL. lia.
      * intros [[->|?] ?]; auto.
  - exists deg', p. split_and!; [done..|]. intros c. rewrite elem_of_cons, Hp. split; [naive_solver|].
    intros [[->|?] Hc]; [|done]. split; [|done].
    rewrite Hdeg2, Hn, count_cons, decide_True in Hc by done. simpl in Hc.
    injection Hc as Hc. apply count_pos. lia.
Qed.

(** ** The loop invariant *)

(** The incoming edges of [id] from nodes not popped yet. *)
Definition pending_deg (E : list edge) (popped : list string) (id : string) : nat :=
  length (filter (λ e, e.2 = id ∧ e.1 ∉ popped) E).

Lemma pending_deg_pop E popped x id :
  x ∉ popped →
  pending_deg E popped id = (pending_deg E (x :: popped) id + count id (children E x))%nat.
Proof.
  intros Hx. rewrite children_count. unfold pending_deg.
  induction E as [|[a b] E IH]; [done|]. rewrite !filter_cons. simpl.
  destruct (decide (b = id)) as [->|Hb]; [destruct (decide (a = x)) as [->|Ha];
    [|destruct (decide (a ∈ popped))]|].
  all: repeat (case_decide; [|]); simpl; try lia; exfalso; set_solver.
Qed.

Lemma pending_deg_zero E popped id :
  pending_deg E popped id = 0%nat ↔ ∀ d, (d, id) ∈ E → d ∈ popped.
Proof.
  unfold pending_deg. rewrite length_zero_iff_nil. split.
  - intros H d Hd. destruct (decide (d ∈ popped)) as [|Hn]; [done|].
    assert ((d, id) ∈ filter (λ e, e.2 = id ∧ e.1 ∉ popped) E) as Hin.
    { by apply list_elem_of_filter. }
    rewrite H in Hin. by apply elem_of_nil in Hin.
  - intros H. destruct (filter _ E) as [|[a b] k] eqn:Hf; [done|]. exfalso.
    assert ((a, b) ∈ filter (λ e, e.2 = id ∧ e.1 ∉ popped) E) as Hin.
    { rewrite Hf. left. }
    apply list_elem_of_filter in Hin as [[? Hn] ?]. simpl in *. subst. by apply Hn, H.
Qed.

(** A list (latest first) in which every node comes after its dependencies. *)
Fixpoint topo (E : list edge) (l : list string) : Prop :=
  match l with
  | [] => True
  | x :: l' => (∀ d, (d, x) ∈ E → d ∈ l') ∧ topo E l'
  end.

Record kahn_inv (E : list edge) (ids : list string) (deg : degrees)
    (queue popped : list string) : Prop := {
  ki_nodup : NoDup (popped ++ queue);
  ki_deg : ∀ id, deg !! id =
    if decide (id ∈ ids) then Some (Z.of_nat (pending_deg E popped id)) else None;
  ki_ready : ∀ id, id ∈ popped ++ queue ↔ deg !! id = Some 0;
  ki_topo : topo E popped;
}.

Lemma kahn_inv_pop E ids (deg : degrees) (adj : adjacency) x queue popped :
  (∀ d id, (d, id) ∈ E → id ∈ ids) →
  (∀ d, default [] (adj !! d) = children E d) →
  kahn_inv E ids deg (x :: queue) popped →
  ∃ deg' queue',
    relax (deg, queue) (default [] (adj !! x)) = (deg', queue') ∧
    kahn_inv E ids deg' queue' (x :: popped).
Proof.
  intros Hcl Hadj [Hnd Hdeg Hready Htopo]. rewrite Hadj.
  assert ((x ∉ popped) ∧ (x ∉ queue)) as [Hxp Hxq].
  { rewrite NoDup_app, NoDup_cons in Hnd. set_solver. }
  assert (∀ id, id ∈ children E x → id ∈ ids) as Hch.
  { intros id. rewrite children_elem. apply Hcl. }
  destruct (relax_spec (children E x) deg queue) as (deg' & p & Hr & Hdeg' & Hndp & Hp).
  { intros c Hc. rewrite Hdeg, decide_True by auto. eexists; split; [done|].
    rewrite (pending_deg_pop _ _ x) by done. lia. }
  exists deg', (queue ++ p). split; [done|].
  assert (∀ id, deg' !! id = if decide (id ∈ ids)
            then Some (Z.of_nat (pending_deg E (x :: popped) id)) else None) as Hdeg2.
  { intros id. rewrite Hdeg', Hdeg. case_decide; [|done]. simpl. f_equal.
    rewrite (pending_deg_pop _ popped x) by done. lia. }
  assert (∀ id, id ∈ children E x → deg !! id ≠ Some 0) as Hfresh.
  { intros id Hid. rewrite Hdeg, decide_True by auto.
    rewrite (pending_deg_pop _ popped x) by done. apply count_pos in Hid. intros [=]. lia. }
  split; [| |intros id|].
  - rewrite (assoc_L (++)), NoDup_app. split_and!.
    + by rewrite <-Permutation_middle in Hnd.
    + intros y Hy Hyp. apply Hp in Hyp as [Hyc _]. apply (Hfresh y Hyc), Hready. set_solver.
    + done.
  - done.
  - rewrite Hdeg2. specialize (Hready id). rewrite Hdeg in Hready. rewrite !elem_of_app, Hp, Hdeg2.
    pose proof (pending_deg_pop E popped x id Hxp) as Hpop.
    destruct (decide (id ∈ ids)) as [Hi|Hi]; [|set_solver].

    split.
    + intros [Hd|[Hq|[_ ?]]]; [| |done];
        (assert (Some (Z.of_nat (pending_deg E popped id)) = Some 0) as [= H0]
           by (apply Hready; set_solver)); f_equal; lia.
    + intros [= H0]. destruct (decide (id ∈ children E x)) as [Hc|Hc].
      { right. right. split; [done|]. f_equal; lia. }
      rewrite count_pos in Hc. assert (Some (Z.of_nat (pending_deg E popped id)) = Some 0) as H1.
      { f_equal. lia. }
      apply Hready in H1. set_solver.
  - simpl. split; [|done]. intros d Hd.
    assert (deg !! x = Some 0) as Hx by (apply Hready; set_solver).
    rewrite Hdeg in Hx. case_decide; [|done]. injection Hx as Hx.
    eapply pending_deg_zero; [|exact Hd]. lia.
Qed.

Lemma kahn_inv_in E ids deg queue popped x :
  kahn_inv E ids deg queue popped → x ∈ popped ++ queue → x ∈ ids.
Proof.
  intros Hinv. rewrite (ki_ready _ _ _ _ _ Hinv), (ki_deg _ _ _ _ _ Hinv). by case_decide.
Qed.

Lemma kahn_inv_bound E ids deg queue popped :
  kahn_inv E ids deg queue popped →
  (length (popped ++ queue) ≤ size (list_to_set ids : gset string))%nat.
Proof.
  intros Hinv. rewrite <-(size_list_to_set (C := gset string)) by apply Hinv.
  apply subseteq_size. intros y. rewrite !elem_of_list_to_set. by eapply kahn_inv_in.
Qed.

(** The loop ends with one fuel unit per node, having popped a maximal set. *)
Lemma kahn_loop_ends E ids (adj : adjacency) fuel : ∀ (deg : degrees) queue popped,
  (∀ d id, (d, id) ∈ E → id ∈ ids) →
  (∀ d, default [] (adj !! d) = children E d) →
  kahn_inv E ids deg queue popped →
  (size (list_to_set ids : gset string) ≤ fuel + length popped)%nat →
  ∃ deg' popped',
    kahn_loop fuel deg adj queue (Z.of_nat (length popped)) =
      Some (Z.of_nat (length popped')) ∧
    kahn_inv E ids deg' [] popped'.
Proof.
  induction fuel as [|fuel IH]; intros deg [|x queue] popped Hcl Hadj Hinv Hfuel;
    simpl; eauto.
  - exfalso. pose proof (kahn_inv_bound _ _ _ _ _ Hinv).
    rewrite length_app in *. simpl in *. lia.
  - destruct (kahn_inv_pop E ids deg adj x queue popped) as (deg' & q' & -> & Hinv');
      [done..|].
    replace (Z.of_nat (length popped) + 1) with (Z.of_nat (length (x :: popped)))
      by (simpl; lia).
    apply IH; simpl; [done..|lia].
Qed.

Lemma zero_degree_elem perm (deg : degrees) id :
  (∀ l, perm l ≡ₚ l) → id ∈ zero_degree perm deg ↔ deg !! id = Some 0.
Proof.
  intros Hperm. unfold zero_degree. rewrite Hperm, list_elem_of_fmap. split.
  - intros ([k v] & -> & [Hv Hm]%list_elem_of_filter). simpl in *. subst.
    by apply elem_of_map_to_list in Hm.
  - intros H. exists (id, 0). split; [done|]. rewrite list_elem_of_filter.
    split; [done|]. by apply elem_of_map_to_list.
Qed.

Lemma zero_degree_nodup perm (deg : degrees) :
  (∀ l, perm l ≡ₚ l) → NoDup (zero_degree perm deg).
Proof.
  intros Hperm. unfold zero_degree. rewrite Hperm.
  apply (NoDup_fmap_2_strong fst).
  - intros [k v] [k' v'] [Hv _]%list_elem_of_filter [Hv' _]%list_elem_of_filter.
    simpl in *. naive_solver.
  - apply NoDup_filter, NoDup_map_to_list.
Qed.

Lemma kahn_inv_init perm steps :
  (∀ l, perm l ≡ₚ l) →
  kahn_inv (edges steps) (ids_of steps) (kahn_graph steps).1
    (zero_degree perm (kahn_graph steps).1) [].
Proof.
  intros Hperm. destruct (kahn_graph_ok steps) as [Hdeg Hadj]. split.
  - by apply zero_degree_nodup.
  - intros id. rewrite Hdeg. case_decide; [|done]. do 2 f_equal.
    unfold indeg, pending_deg. f_equal. apply list_filter_iff.
    intros [a b]. set_solver.
  - intros id. by apply zero_degree_elem.
  - done.
Qed.

Lemma kahn_graph_size steps :
  size (kahn_graph steps).1 = size (list_to_set (ids_of steps) : gset string).
Proof.
  rewrite <-size_dom. f_equal. apply set_eq. intros id.
  rewrite elem_of_dom, (go_deg _ _ _ (kahn_graph_ok steps)), elem_of_list_to_set.
  case_decide; split; [done|by eexists|by intros [? ?]|done].
Qed.

(** The result of running the loop on [steps]: some maximal, topologically
    ordered, duplicate-free list of popped nodes. *)
Lemma kahn_result perm steps :
  (∀ l, perm l ≡ₚ l) →
  ∃ deg popped,
    kahn_loop (size (kahn_graph steps).1) (kahn_graph steps).1 (kahn_graph steps).2
      (zero_degree perm (kahn_graph steps).1) 0 = Some (Z.of_nat (length popped)) ∧
    kahn_inv (edges steps) (ids_of steps) deg [] popped.
Proof.
  intros Hperm. apply (kahn_loop_ends _ _ _ _ _ _ []).
  - apply edges_target.
  - apply (go_adj _ _ _ (kahn_graph_ok steps)).
  - by apply kahn_inv_init.
  - rewrite kahn_graph_size. lia.
Qed.

(** ** Topological orders and acyclicity *)

Lemma topo_app E l1 l2 : topo E (l1 ++ l2) → topo E l2.
Proof. induction l1; naive_solver. Qed.

Lemma topo_before E l a b : ∀ l1 l2,
  l = l1 ++ b :: l2 → topo E l → tc (depends E) a b → a ∈ l2.
Proof.
  intros l1 l2 -> Ht%topo_app Htc. revert l1 l2 Ht.
  induction Htc as [a b Hab|a c b Hac _ IH]; intros l1 l2 [Hb Ht].
  - by apply Hb.
  - destruct (list_elem_of_split _ _ (IH l1 l2 (conj Hb Ht))) as (l3 & l4 & ->).
    apply topo_app in Ht as [Hc _]. apply elem_of_app. right. right. by apply Hc.
Qed.

Lemma tc_target_in E (P : string → Prop) :
  (∀ d id, (d, id) ∈ E → P id) → ∀ a b, tc (depends E) a b → P b.
Proof. intros HP a b H. induction H; eauto. Qed.
Lemma tc_source_in E (P : string → Prop) :
  (∀ d id, (d, id) ∈ E → P d) → ∀ a b, tc (depends E) a b → P a.
Proof. intros HP a b H. induction H; eapply HP; eassumption. Qed.

Lemma topo_acyclic E l :
  NoDup l → topo E l → (∀ d id, (d, id) ∈ E → id ∈ l) → acyclic E.
Proof.
  intros Hnd Ht Hcl a Ha.
  assert (a ∈ l) as Hin.
  { by apply (tc_target_in E (λ x, x ∈ l) Hcl a). }
  destruct (list_elem_of_split _ _ Hin) as (l1 & l2 & ->).
  pose proof (topo_before _ _ _ _ _ _ eq_refl Ht Ha) as Hl2.
  apply NoDup_app in Hnd as (_ & _ & [Hn _]%NoDup_cons). done.
Qed.

Lemma tc_flip_inv {A} (R : relation A) x y : tc (flip R) x y → tc R y x.
Proof.
  induction 1 as [x y H|x z y H _ IH]; [by apply tc_once|].
  eapply tc_r; [exact IH|exact H].
Qed.

(** Acyclicity of a finite graph is well-foundedness: a set that contains
    every node whose dependencies it contains contains every node. *)
Lemma acyclic_ind steps (P : string → Prop) :
  acyclic (edges steps) → deps_exist steps →
  (∀ id, id ∈ ids_of steps →
     (∀ d, (d, id) ∈ edges steps → P d) → P id) →
  ∀ id, id ∈ ids_of steps → P id.
Proof.
  intros Hac Hex HP id Hid.
  assert (sn (flip (depends (edges steps))) id) as Hsn.
  { apply tc_finite_sn.
    - intros a Ha. by apply (Hac a), tc_flip_inv.
    - exists (ids_of steps). intros y Hy%tc_flip_inv.
      by eapply (tc_source_in _ _ Hex). }
  induction Hsn as [id _ IH]. apply HP; [done|].
  intros d Hd. apply IH; [done|]. by eapply Hex.
Qed.

(** ** The theorems about [detectCycle] *)

Lemma detectCycle_eq perm steps :
  (∀ l, perm l ≡ₚ l) →
  ∃ popped deg, kahn_inv (edges steps) (ids_of steps) deg [] popped ∧
    detectCycle perm steps =
      fail_if (negb (Z.of_nat (length popped) =? Z.of_nat (length steps)))
        (Errorf "workflow contains a cycle (%d of %d steps reachable)"
           [AInt (Z.of_nat (length popped)); AInt (Z.of_nat (length steps))]).
Proof.
  intros Hperm. destruct (kahn_result perm steps Hperm) as (deg & popped & Hl & Hinv).
  exists popped, deg. split; [done|]. unfold detectCycle.
  destruct (kahn_graph steps) as [d a]. simpl in *. by rewrite Hl.
Qed.

Lemma popped_ids E ids deg popped :
  kahn_inv E ids deg [] popped → NoDup popped ∧ popped ⊆ ids.
Proof.
  intros [Hnd Hdeg Hr _]. rewrite app_nil_r in *. split; [done|].
  intros id Hid%Hr. rewrite Hdeg in Hid. by case_decide.
Qed.

Lemma popped_all steps deg popped :
  NoDup (ids_of steps) → acyclic (edges steps) → deps_exist steps →
  kahn_inv (edges steps) (ids_of steps) deg [] popped → ids_of steps ⊆ popped.
Proof.
  intros Hnd Hac Hex [_ Hdeg Hr _] id Hid. rewrite app_nil_r in *.
  apply (acyclic_ind steps (λ x, x ∈ popped)); [done..| |done].
  intros x Hx Hd. apply Hr. rewrite Hdeg, decide_True by done.
  rewrite (proj2 (pending_deg_zero _ _ _)); [done|]. apply Hd.
Qed.

(** Every step id occurs in the list after all of its dependencies. *)
Definition topological_order (steps : list StepDef) (l : list string) : Prop :=
  l ≡ₚ ids_of steps ∧
  ∀ i s, s ∈ steps → l !! i = Some (sd_ID s) →
    ∀ d, d ∈ sd_DependsOn s → ∃ j, (j < i)%nat ∧ l !! j = Some d.

Lemma topo_rev_order E l x i : topo E l → reverse l !! i = Some x →
  ∀ d, (d, x) ∈ E → ∃ j, (j < i)%nat ∧ reverse l !! j = Some d.
Proof.
  revert i. induction l as [|y l IH]; intros i Htopo Hi d Hd.
  { by rewrite reverse_nil, lookup_nil in Hi. }
  destruct Htopo as [Hy Ht].
  rewrite reverse_cons in Hi |- *.
  apply lookup_snoc_Some in Hi as [[Hlt Hi]|[-> <-]].
  - destruct (IH i Ht Hi d Hd) as (j & ? & Hj). exists j. split; [done|].
    by apply lookup_app_l_Some.
  - apply Hy in Hd. apply elem_of_reverse, list_elem_of_lookup in Hd as [j Hj].
    exists j. split; [by eapply lookup_lt_Some|by apply lookup_app_l_Some].
Qed.

Lemma topological_order_acyclic steps :
  (∃ l, topological_order steps l) → NoDup (ids_of steps) → acyclic (edges steps).
Proof.
  intros (l & Hp & Ho) Hnd a Ha.
  assert (∀ b c, tc (depends (edges steps)) b c → ∀ i, l !! i = Some c →
      ∃ j, (j < i)%nat ∧ l !! j = Some b) as Hlt.
  { intros b c H. induction H as [b c Hbc|b w c Hbw _ IH]; intros i Hi.
    - apply edges_elem in Hbc as (s & Hs & <- & Hd). by eapply Ho.
    - destruct (IH i Hi) as (j & Hj & Hw). apply edges_elem in Hbw as (s & Hs & <- & Hd).
      destruct (Ho j s Hs Hw b Hd) as (k & ? & ?). exists k. split; [lia|done]. }
  assert (a ∈ l) as [i Hi]%list_elem_of_lookup.
  { rewrite Hp. by apply (tc_target_in _ _ (edges_target steps) a). }
  destruct (Hlt a a Ha i Hi) as (j & Hj & Hja).
  rewrite <-Hp in Hnd. pose proof (NoDup_lookup _ _ _ _ Hnd Hi Hja). lia.
Qed.

Lemma detectCycle_order perm steps :
  (∀ l, perm l ≡ₚ l) → NoDup (ids_of steps) → detectCycle perm steps = Ret tt →
  ∃ l, topological_order steps l.
Proof.
  intros Hperm Hnd Hd. destruct (detectCycle_eq perm steps Hperm) as (popped & deg & Hinv & Heq).
  rewrite Heq in Hd. apply fail_if_ret_iff, negb_false_iff, Z.eqb_eq in Hd.
  destruct (popped_ids _ _ _ _ Hinv) as [Hndp Hsub].
  exists (reverse popped). split.
  - rewrite reverse_Permutation. apply submseteq_length_Permutation.
    + by apply NoDup_submseteq.
    + unfold ids_of. rewrite length_fmap. lia.
  - intros i s Hs Hi d Hdep. eapply topo_rev_order; [apply Hinv|done|].
    apply edges_elem. eauto.
Qed.

Lemma detectCycle_iff perm steps :
  (∀ l, perm l ≡ₚ l) → NoDup (ids_of steps) → deps_exist steps →
  detectCycle perm steps = Ret tt ↔ acyclic (edges steps).
Proof.
  intros Hperm Hnd Hex. split.
  - intros H. apply topological_order_acyclic; [|done]. by eapply detectCycle_order.
  - intros Hac. destruct (detectCycle_eq perm steps Hperm) as (popped & deg & Hinv & ->).
    apply fail_if_ret_iff, negb_false_iff, Z.eqb_eq. f_equal.
    destruct (popped_ids _ _ _ _ Hinv) as [Hndp Hsub].
    assert (popped ≡ₚ ids_of steps) as Hp.
    { apply NoDup_Permutation; [done..|]. intros x. split; [apply Hsub|].
      by eapply popped_all. }
    rewrite Hp. unfold ids_of. apply length_fmap.
Qed.

Lemma detectCycle_no_panic perm steps msg :
  (∀ l, perm l ≡ₚ l) → detectCycle perm steps ≠ Panic msg.
Proof.
  intros Hperm. destruct (detectCycle_eq perm steps Hperm) as (popped & deg & _ & ->).
  unfold fail_if. by case_match.
Qed.
