(* ===== verification/Depth.v ===== *)
(** * The longest dependency chain (dag/dynamic.go, [maxChainDepth])

    A second run of Kahn's algorithm that carries a depth per node.  The
    loop over the in-degrees and the queue is the one of [Graph.detectCycle];
    the theorems show that on an acyclic fragment the number it returns is
    the length of the longest dependency chain. *)

From S2P Require Import Prelude Types Graph.
From stdpp Require Import relations.

#[local] Open Scope Z_scope.

Abbreviation depths := (gmap string Z).

(** ** The code *)

Definition get_depth (depth : depths) (id : string) : Z := default 0 (depth !! id).

(** The body of the loop over [dependents[node]]. *)
Definition depth_relax_one (node : string) (acc : degrees * list string * depths)
    (child : string) : degrees * list string * depths :=
  let '(inDegree, queue, depth) := acc in
  let deg := default 0 (inDegree !! child) - 1 in
  let childDepth := get_depth depth node + 1 in
  (<[child := deg]> inDegree,
   if deg =? 0 then queue ++ [child] else queue,
   if get_depth depth child <? childDepth
   then <[child := childDepth]> depth else depth).

Definition depth_relax (node : string) (acc : degrees * list string * depths)
    (l : list string) : degrees * list string * depths :=
  foldl (depth_relax_one node) acc l.

Fixpoint depth_loop (fuel : nat) (inDegree : degrees) (dependents : adjacency)
    (queue : list string) (depth : depths) (maxDepth : Z) : option Z :=
  match queue with
  | [] => Some maxDepth
  | node :: queue' =>
      match fuel with
      | O => None
      | S fuel' =>
          let maxDepth' :=
            if maxDepth <? get_depth depth node
            then get_depth depth node else maxDepth in
          let '(inDegree', queue'', depth') :=
            depth_relax node (inDegree, queue', depth)
              (default [] (dependents !! node)) in
          depth_loop fuel' inDegree' dependents queue'' depth' maxDepth'
      end
  end.

(** [maxChainDepth]: one fuel unit per node is enough ([depth_loop_ends]). *)
Definition maxChainDepth (perm : list string → list string) (steps : list StepDef)
    : outcome Z :=
  _ ← panic_if (Nat.eqb (length steps) 0) "maxChainDepth: steps must not be empty";
  _ ← panic_if (10000 <? Z.of_nat (length steps))
        "maxChainDepth: steps exceeds upper bound";
  let '(inDegree, dependents) := kahn_graph steps in
  let queue := zero_degree perm inDegree in
  let depth := foldr (λ id, <[id := 1]>) (∅ : depths) queue in
  match depth_loop (size inDegree) inDegree dependents queue depth 0 with
  | Some maxDepth => Ret maxDepth
  | None => Panic "maxChainDepth: loop did not end"
  end.

(** ** Chains *)

(** [chain E x n]: some chain of [n] nodes, each depending on the one before
    it, ends at [x]. *)
Inductive chain (E : list edge) : string → Z → Prop :=
  | chain_one x : chain E x 1
  | chain_step d x n : chain E d n → (d, x) ∈ E → chain E x (n + 1).

Lemma chain_pos E x n : chain E x n → 1 ≤ n.
Proof. induction 1; lia. Qed.

(** ** One relaxation pass *)

Lemma depth_relax_spec node L : ∀ deg q depth,
  node ∉ L →
  ∃ deg' q' depth',
    depth_relax node (deg, q, depth) L = (deg', q', depth') ∧
    relax (deg, q) L = (deg', q') ∧
    ∀ c, get_depth depth' c =
      if decide (c ∈ L) then Z.max (get_depth depth c) (get_depth depth node + 1)
      else get_depth depth c.
Proof.
  induction L as [|x L IH]; intros deg q depth Hn.
  { exists deg, q, depth. split_and!; [done..|]. intros c.
    by rewrite decide_False by (apply not_elem_of_nil). }
  apply not_elem_of_cons in Hn as [Hnx Hn].
  set (dx := default 0 (deg !! x) - 1).
  set (depth1 := if get_depth depth x <? get_depth depth node + 1
                 then <[x := get_depth depth node + 1]> depth else depth).
  destruct (IH (<[x:=dx]> deg) (if dx =? 0 then q ++ [x] else q) depth1 Hn)
    as (deg' & q' & depth' & Hd & Hr & Hdep).
  exists deg', q', depth'. split_and!; [done|done|]. intros c. rewrite Hdep.
  assert (∀ z, get_depth depth1 z = if decide (z = x)
    then Z.max (get_depth depth z) (get_depth depth node + 1) else get_depth depth z) as H1.
  { intros z. unfold depth1. case_decide as Hzx; [subst z|];
      destruct (Z.ltb_spec (get_depth depth x) (get_depth depth node + 1)) as [Hlt|Hlt].
    - unfold get_depth at 1. rewrite lookup_insert_eq. simpl. lia.
    - lia.
    - unfold get_depth at 1. by rewrite lookup_insert_ne.
    - done. }
  rewrite !H1. rewrite (decide_False (P := node = x)) by done.
  destruct (decide (c = x)) as [->|Hcx].
  - rewrite (decide_True (P := x ∈ x :: L)) by left. case_decide; lia.
  - destruct (decide (c ∈ L)).
    + by rewrite decide_True by (by right).
    + by rewrite decide_False by (by apply not_elem_of_cons).
Qed.

(** ** The loop invariant *)

Record depth_inv (E : list edge) (ids popped : list string) (depth : depths)
    (m : Z) : Prop := {
  di_sound : ∀ id, get_depth depth id = 0 ∨ chain E id (get_depth depth id);
  di_root : ∀ id, id ∈ ids → (∀ d, (d, id) ∉ E) → 1 ≤ get_depth depth id;
  di_step : ∀ d id, d ∈ popped → (d, id) ∈ E → get_depth depth d + 1 ≤ get_depth depth id;
  di_pos : ∀ d, d ∈ popped → 1 ≤ get_depth depth d;
  di_max : ∀ d, d ∈ popped → get_depth depth d ≤ m;
  di_witness : m = 0 ∨ ∃ id, id ∈ popped ∧ chain E id m;
}.

Lemma topo_closed E l x d : topo E l → x ∈ l → (d, x) ∈ E → d ∈ l.
Proof.
  induction l as [|y l IH]; intros Ht Hx Hd; [by apply elem_of_nil in Hx|].
  destruct Ht as [Hy Ht]. apply elem_of_cons in Hx as [->|Hx]; right; eauto.
Qed.

Lemma edge_into (E : list edge) x : (∃ d, (d, x) ∈ E) ∨ (∀ d, (d, x) ∉ E).
Proof.
  induction E as [|[a b] E IH]; [right; set_solver|].
  destruct (decide (b = x)) as [->|?]; [left; exists a; left|].
  destruct IH as [[d ?]|?]; [left; exists d; by right|right; set_solver].
Qed.

Lemma depth_inv_pop E ids popped x depth depth' m :
  x ∉ popped → topo E (x :: popped) → x ∈ ids →
  (∀ c, get_depth depth' c =
      if decide (c ∈ children E x)
      then Z.max (get_depth depth c) (get_depth depth x + 1)
      else get_depth depth c) →
  depth_inv E ids popped depth m →
  depth_inv E ids (x :: popped) depth' (Z.max m (get_depth depth x)).
Proof.
  intros Hx [Hdeps Htopo] Hids Hd' [Hs Hr Hst Hp Hm Hw].
  assert (1 ≤ get_depth depth x) as Hx1.
  { destruct (edge_into E x) as [[d He]|Hno]; [|by apply Hr].
    specialize (Hst d x (Hdeps d He) He). specialize (Hp d (Hdeps d He)). lia. }
  assert (∀ c, get_depth depth c ≤ get_depth depth' c) as Hmono.
  { intros c. rewrite Hd'. case_decide; lia. }
  assert (∀ d, d ∈ x :: popped → get_depth depth' d = get_depth depth d) as Hstable.
  { intros d Hd. rewrite Hd'. case_decide as Hc; [|done]. exfalso.
    apply children_elem in Hc. apply Hx.
    apply elem_of_cons in Hd as [->|Hd]; [by apply Hdeps|by eapply topo_closed]. }
  split.
  - intros id. rewrite Hd'. case_decide as Hc; [|done]. apply children_elem in Hc.
    destruct (Hs x) as [?|Hch]; [lia|].
    destruct (Z.max_spec (get_depth depth id) (get_depth depth x + 1)) as [[? ->]|[? ->]]; [|done].
    right. by econstructor.
  - intros id Hid Hno. etrans; [by apply Hr|done].
  - intros d id Hd He. rewrite Hstable by done. apply elem_of_cons in Hd as [->|Hd].
    + rewrite Hd', decide_True by (by apply children_elem). lia.
    + etrans; [by apply Hst|done].
  - intros d Hd. rewrite Hstable by done. apply elem_of_cons in Hd as [->|Hd]; [lia|auto].
  - intros d Hd. rewrite Hstable by done. apply elem_of_cons in Hd as [->|Hd]; [lia|].
    specialize (Hm d Hd). lia.
  - right. destruct (Z.max_spec m (get_depth depth x)) as [[? ->]|[? ->]].
    + exists x. split; [left|]. destruct (Hs x); [lia|done].
    + destruct Hw as [->|(id & Hid & Hch)]; [lia|]. exists id. split; [by right|done].
Qed.

Lemma depth_loop_ends E ids (adj : adjacency) fuel :
  ∀ (deg : degrees) queue popped depth m,
  (∀ d id, (d, id) ∈ E → id ∈ ids) →
  (∀ d, default [] (adj !! d) = children E d) →
  kahn_inv E ids deg queue popped → depth_inv E ids popped depth m →
  (size (list_to_set ids : gset string) ≤ fuel + length popped)%nat →
  ∃ deg' popped' depth' m',
    depth_loop fuel deg adj queue depth m = Some m' ∧
    kahn_inv E ids deg' [] popped' ∧ depth_inv E ids popped' depth' m'.
Proof.
  induction fuel as [|fuel IH]; intros deg [|x queue] popped depth m Hcl Hadj Hk Hd Hfuel;
    simpl; eauto 10.
  - exfalso. pose proof (kahn_inv_bound _ _ _ _ _ Hk) as Hb.
    rewrite length_app in Hb. simpl in *. lia.
  - destruct (kahn_inv_pop E ids deg adj x queue popped) as (deg' & q' & Hr & Hk'); [done..|].
    pose proof (ki_nodup _ _ _ _ _ Hk') as Hnd. pose proof (ki_topo _ _ _ _ _ Hk') as Ht.
    assert (x ∉ popped) as Hx by (by apply NoDup_cons in Hnd as [[??]%not_elem_of_app _]).
    assert (x ∉ children E x) as Hself.
    { rewrite children_elem. intros Hxx. apply Hx. by apply Ht. }
    destruct (depth_relax_spec x (children E x) deg queue depth Hself)
      as (deg1 & q1 & depth' & Hdr & Hr1 & Hdep).
    rewrite Hadj in Hr |- *. rewrite Hdr. rewrite Hr in Hr1. simplify_eq.
    replace (if m <? get_depth depth x then get_depth depth x else m)
      with (Z.max m (get_depth depth x))
      by (destruct (Z.ltb_spec m (get_depth depth x)); lia).
    apply (IH deg1 q1 (x :: popped)); [done..| |simpl; lia].
    eapply depth_inv_pop; [done..| |done|done].
    apply (kahn_inv_in _ _ _ _ _ _ Hk). set_solver.
Qed.

(** ** The theorem *)

Lemma depth_init_get queue id :
  get_depth (foldr (λ id, <[id := 1]>) (∅ : depths) queue) id =
  if decide (id ∈ queue) then 1 else 0.
Proof.
  induction queue as [|x queue IH]; simpl.
  { unfold get_depth. by rewrite lookup_empty. }
  unfold get_depth in *. rewrite lookup_insert. destruct (decide (x = id)) as [->|Hne].
  - by rewrite decide_True by left.
  - rewrite IH. destruct (decide (id ∈ queue)).
    + by rewrite decide_True by (by right).
    + by rewrite decide_False by (by apply not_elem_of_cons).
Qed.

Lemma depth_inv_init perm steps :
  (∀ l, perm l ≡ₚ l) →
  depth_inv (edges steps) (ids_of steps) []
    (foldr (λ id, <[id := 1]>) (∅ : depths) (zero_degree perm (kahn_graph steps).1)) 0.
Proof.
  intros Hperm. split; try (intros ? ?%elem_of_nil; done); try (intros ? ? ?%elem_of_nil; done).
  - intros id. rewrite depth_init_get. case_decide; [right; constructor|by left].
  - intros id Hid Hno. rewrite depth_init_get, decide_True; [done|].
    rewrite zero_degree_elem, (go_deg _ _ _ (kahn_graph_ok steps)), decide_True by done.
    by rewrite indeg_no_edge.
  - by left.
Qed.

(** [n] is the length of the longest dependency chain of [steps]. *)
Definition longest_chain (steps : list StepDef) (n : Z) : Prop :=
  (∃ id, id ∈ ids_of steps ∧ chain (edges steps) id n) ∧
  ∀ id m, id ∈ ids_of steps → chain (edges steps) id m → m ≤ n.

Lemma maxChainDepth_longest perm steps :
  (∀ l, perm l ≡ₚ l) → steps ≠ [] → Z.of_nat (length steps) ≤ 10000 →
  NoDup (ids_of steps) → deps_exist steps → acyclic (edges steps) →
  ∃ n, maxChainDepth perm steps = Ret n ∧ longest_chain steps n.
Proof.
  intros Hperm Hne Hlen Hnd Hex Hac. unfold maxChainDepth.
  destruct (depth_loop_ends (edges steps) (ids_of steps) (kahn_graph steps).2
    (size (kahn_graph steps).1) (kahn_graph steps).1 (zero_degree perm (kahn_graph steps).1) []
    (foldr (λ id, <[id := 1]>) ∅ (zero_degree perm (kahn_graph steps).1)) 0)
    as (deg & popped & depth & m & Hloop & Hk & Hd).
  { apply edges_target. }
  { apply (go_adj _ _ _ (kahn_graph_ok steps)). }
  { by apply kahn_inv_init. }
  { by apply depth_inv_init. }
  { rewrite kahn_graph_size. lia. }
  destruct (popped_ids _ _ _ _ Hk) as [_ Hsub].
  pose proof (popped_all steps deg popped Hnd Hac Hex Hk) as Hall.
  exists m. split.
  - destruct (kahn_graph steps) as [dg adj]. simpl in *.
    rewrite (proj2 (Nat.eqb_neq _ _)) by (by destruct steps). simpl.
    rewrite (proj2 (Z.ltb_ge _ _)) by lia. simpl. by rewrite Hloop.
  - destruct Hd as [Hs Hr Hst Hp Hm Hw]. split.
    + destruct Hw as [->|(id & Hid & Hch)]; [|by exists id; auto].
      destruct steps as [|s steps]; [done|]. specialize (Hm (sd_ID s)).
      specialize (Hp (sd_ID s)). assert (sd_ID s ∈ popped) as Hin by (apply Hall; left).
      specialize (Hm Hin). specialize (Hp Hin). lia.
    + intros id n Hid Hch. transitivity (get_depth depth id); [|by apply Hm, Hall].
      assert (∀ y k, chain (edges steps) y k → y ∈ ids_of steps → k ≤ get_depth depth y) as Hle;
        [|by apply Hle].
      intros y k Hyk. induction Hyk as [y|d y k _ IH He]; intros Hy; [by apply Hp, Hall|].
      specialize (IH (Hex _ _ He)). specialize (Hst d y (Hall _ (Hex _ _ He)) He). lia.
Qed.
