(* ===== verification/Condition.v ===== *)
(** * SkipIf conditions (dag/condition.go)

    [ParentCond.Evaluate] compares a field of a parent step's JSON output
    with a literal.  The theorem [Evaluate_spec] shows that the three
    comparison routines implement one three-way comparison of JSON scalars
    read by the six operators, and [Evaluate_complement] that opposite
    operators give opposite verdicts on comparable operands, which is what
    the "happy branch / error branch" idiom of the workflows relies on. *)

From S2P Require Import Prelude Float64 Json Types.
From Stdlib Require Import Floats.SpecFloat.

(** ** The code *)

Definition validOps : list string := ["=="; "!="; "<"; ">"; "<="; ">="].
Definition valid_op (op : string) : bool := bool_decide (op ∈ validOps).

(** [toFloat64]: only numbers convert. *)
Definition toFloat64 (v : json) : option f64 := json_f64 v.

Definition compareFloat64 (a : f64) (op : string) (b : f64) : bool :=
  if bool_decide (op = "==") then f64_eqb a b
  else if bool_decide (op = "!=") then negb (f64_eqb a b)
  else if bool_decide (op = "<") then f64_ltb a b
  else if bool_decide (op = ">") then f64_ltb b a
  else if bool_decide (op = "<=") then f64_leb a b
  else if bool_decide (op = ">=") then f64_leb b a
  else false.

(** Go compares strings bytewise, lexicographically. *)
Definition compareString (a op b : string) : bool :=
  if bool_decide (op = "==") then String.eqb a b
  else if bool_decide (op = "!=") then negb (String.eqb a b)
  else if bool_decide (op = "<") then String.ltb a b
  else if bool_decide (op = ">") then String.ltb b a
  else if bool_decide (op = "<=") then String.leb a b
  else if bool_decide (op = ">=") then String.leb b a
  else false.

Definition compareValues (a : json) (op : string) (b : json) : bool :=
  match toFloat64 a, toFloat64 b with
  | Some aNum, Some bNum => compareFloat64 aNum op bNum
  | _, _ =>
      match a, b with
      | JStr aStr, JStr bStr => compareString aStr op bStr
      | JBool aBool, JBool bBool =>
          if bool_decide (op = "==") then eqb aBool bBool
          else if bool_decide (op = "!=") then negb (eqb aBool bBool)
          else false
      | _, _ => false
      end
  end.

(** [ParentCond.Evaluate]; the receiver is a pointer, [None] when nil. *)
Definition Evaluate (c : option ParentCond) (steps : gmap string StepState) : bool :=
  match c with
  | None => false
  | Some c =>
      match steps !! pc_StepID c with
      | None => false
      | Some state =>
          match ss_Output state with
          | None => false
          | Some out =>
              match unmarshal_any out with
              | Ret (JObj data) =>
                  match obj_get (pc_Field c) data with
                  | None => false
                  | Some fieldVal => compareValues fieldVal (pc_Op c) (pc_Value c)
                  end
              | _ => false
              end
          end
      end
  end.

(** ** The specification: one comparison, six operators *)

(** The comparison of two JSON scalars of the same kind; booleans are only
    equal or different. *)
Inductive verdict : Type := Ordered (c : comparison) | Different.

Definition json_compare (a b : json) : option verdict :=
  match json_f64 a, json_f64 b with
  | Some x, Some y => Ordered <$> SFcompare x y
  | _, _ =>
      match a, b with
      | JStr x, JStr y => Some (Ordered (String.compare x y))
      | JBool x, JBool y => Some (if eqb x y then Ordered Eq else Different)
      | _, _ => None
      end
  end.

Definition scalar_kind (a : json) : option nat :=
  match a with
  | JInt _ | JDec _ _ => Some 0%nat
  | JStr _ => Some 1%nat
  | JBool _ => Some 2%nat
  | _ => None
  end.

(** How an operator reads a verdict. *)
Definition op_holds (op : string) (v : verdict) : bool :=
  match v with
  | Different => bool_decide (op = "!=")
  | Ordered c =>
      bool_decide (op ∈ match c with
                        | Eq => ["=="; "<="; ">="]
                        | Lt => ["!="; "<"; "<="]
                        | Gt => ["!="; ">"; ">="]
                        end)
  end.

(** Booleans are not ordered. *)
Definition op_applies (op : string) (a : json) : bool :=
  match a with
  | JBool _ => bool_decide (op ∈ ["=="; "!="])
  | _ => valid_op op
  end.

Definition negated_op (op : string) : string :=
  if bool_decide (op = "==") then "!="
  else if bool_decide (op = "!=") then "=="
  else if bool_decide (op = "<") then ">="
  else if bool_decide (op = ">=") then "<"
  else if bool_decide (op = ">") then "<="
  else if bool_decide (op = "<=") then ">"
  else op.

(** The value a condition looks at. *)
Definition cond_field (c : ParentCond) (steps : gmap string StepState) : option json :=
  st ← steps !! pc_StepID c;
  out ← ss_Output st;
  match unmarshal_any out with
  | Ret (JObj data) => obj_get (pc_Field c) data
  | _ => None
  end.

(** ** Lemmas *)

Lemma SFcompare_sym x y :
  SFcompare y x = CompOpp <$> SFcompare x y.
Proof.
  destruct x as [[]|[]| |[] mx ex], y as [[]|[]| |[] my ey]; simpl; try done.
  all: rewrite (Z.compare_antisym ex ey); destruct (ex ?= ey)%Z; simpl; try done;
    rewrite Pos.compare_cont_antisym; simpl;
    by destruct (Pos.compare_cont Eq mx my).
Qed.

Lemma string_compare_refl a : String.compare a a = Eq.
Proof.
  induction a as [|c a IH]; simpl; [done|]. unfold Ascii.compare.
  by rewrite N.compare_refl.
Qed.

Lemma string_compare_eqb a b :
  String.eqb a b = match String.compare a b with Eq => true | _ => false end.
Proof.
  destruct (String.eqb_spec a b) as [->|Hne].
  - by rewrite string_compare_refl.
  - destruct (String.compare a b) eqn:H; [|done..]. by apply String.compare_eq_iff in H.
Qed.

Lemma valid_op_cases op : valid_op op = true →
  op = "==" ∨ op = "!=" ∨ op = "<" ∨ op = ">" ∨ op = "<=" ∨ op = ">=".
Proof.
  unfold valid_op, validOps. rewrite bool_decide_eq_true, !elem_of_cons, elem_of_nil.
  naive_solver.
Qed.

Lemma invalid_op_compare a op b : valid_op op = false → compareValues a op b = false.
Proof.
  unfold valid_op. rewrite bool_decide_eq_false. intros H.
  assert (∀ x, x ∈ validOps → bool_decide (op = x) = false) as Hn.
  { intros x Hx. apply bool_decide_eq_false. intros ->. done. }
  unfold compareValues, compareFloat64, compareString.
  rewrite !Hn by (unfold validOps; set_solver). by repeat case_match.
Qed.

Lemma compareFloat64_spec a op b : valid_op op = true →
  compareFloat64 a op b = match SFcompare a b with
                          | Some c => op_holds op (Ordered c)
                          | None => bool_decide (op = "!=")
                          end.
Proof.
  intros H. unfold compareFloat64, f64_eqb, f64_ltb, f64_leb, SFeqb, SFltb, SFleb.
  rewrite (SFcompare_sym a b).
  destruct (valid_op_cases op H) as [->|[->|[->|[->|[->| ->]]]]]; simpl;
    by destruct (SFcompare a b) as [[]|].
Qed.

Lemma compareString_spec a op b : valid_op op = true →
  compareString a op b = op_holds op (Ordered (String.compare a b)).
Proof.
  intros H. unfold compareString, String.ltb, String.leb.
  rewrite !string_compare_eqb, (String.compare_antisym b a).
  destruct (valid_op_cases op H) as [->|[->|[->|[->|[->| ->]]]]]; simpl;
    by destruct (String.compare a b).
Qed.

Lemma json_f64_not_nan v f : json_f64 v = Some f → f64_is_nan f = false.
Proof.
  destruct v; simpl; intros; simplify_eq; [apply binary_normalize_not_nan|].
  by eapply f64_of_dec_not_nan.
Qed.

(** [compareValues] reads [json_compare] with the operator. *)
Lemma compareValues_spec a op b :
  compareValues a op b = true ↔
  op_applies op a = true ∧ ∃ v, json_compare a b = Some v ∧ op_holds op v = true.
Proof.
  destruct (valid_op op) eqn:Hop; last first.
  { rewrite invalid_op_compare by done. split; [done|]. intros [H _]. exfalso.
    revert H Hop. unfold op_applies, valid_op. destruct a; try congruence.
    rewrite bool_decide_eq_true, bool_decide_eq_false. unfold validOps. set_solver. }
  unfold compareValues, json_compare, toFloat64.
  assert (∀ x y, json_f64 a = Some x → json_f64 b = Some y →
            op_applies op a = true ∧ is_Some (SFcompare x y)) as Hnum.
  { intros x y Hx Hy. split; [by destruct a|].
    apply f64_compare_total; by eapply json_f64_not_nan. }
  destruct (json_f64 a) as [x|] eqn:Hx, (json_f64 b) as [y|] eqn:Hy.
  { rewrite compareFloat64_spec by done.
    destruct (Hnum x y) as [-> [c ->]]; [done..|]. simpl. naive_solver. }
  all: clear Hnum; destruct a, b; cbn in Hx, Hy |- *;
    try (split; [done|intros (_ & ? & ? & _); done]); try congruence.
  all: try (rewrite compareString_spec by done; naive_solver).
  all: destruct (valid_op_cases op Hop) as [->|[->|[->|[->|[->| ->]]]]]; simpl;
    repeat match goal with H : bool |- _ => destruct H end; simpl; naive_solver.
Qed.

Lemma Evaluate_field c steps :
  Evaluate (Some c) steps =
  match cond_field c steps with
  | Some v => compareValues v (pc_Op c) (pc_Value c)
  | None => false
  end.
Proof.
  unfold Evaluate, cond_field. destruct (steps !! pc_StepID c); simpl; [|done].
  destruct (ss_Output s); simpl; [|done]. by repeat case_match.
Qed.

Lemma Evaluate_iff c steps :
  Evaluate (Some c) steps = true ↔
  ∃ fieldVal v, cond_field c steps = Some fieldVal ∧
    op_applies (pc_Op c) fieldVal = true ∧
    json_compare fieldVal (pc_Value c) = Some v ∧ op_holds (pc_Op c) v = true.
Proof.
  rewrite Evaluate_field. destruct (cond_field c steps) as [w|]; [|naive_solver].
  rewrite compareValues_spec. naive_solver.
Qed.

Lemma compareValues_complement a op b :
  is_Some (json_compare a b) → op_applies op a = true →
  compareValues a (negated_op op) b = negb (compareValues a op b).
Proof.
  intros [v Hv] Happ.
  assert (op_applies (negated_op op) a = true ∧
    op_holds (negated_op op) v = negb (op_holds op v)) as [Happ' Hneg].
  { assert (v = Different → ∃ x, a = JBool x) as Hd.
    { intros ->. revert Hv. unfold json_compare.
      destruct a, b; simpl; repeat case_match; intros; simplify_eq; eauto;
        by destruct (SFcompare _ _). }
    assert (valid_op op = true) as Hop.
    { revert Happ. unfold op_applies, valid_op, validOps. destruct a; try done.
      rewrite !bool_decide_eq_true. set_solver. }
    destruct (valid_op_cases op Hop) as [->|[->|[->|[->|[->| ->]]]]];
      (split; [by destruct a|]); (destruct v as [[]|]; [done..|]);
      destruct Hd as [x ->]; done. }
  apply eq_true_iff_eq. rewrite negb_true_iff, <-not_true_iff_false, !compareValues_spec.
  rewrite Happ, Happ', Hv. split.
  - intros (_ & ? & [= <-] & Hh). intros (_ & ? & [= <-] & Hh'). by rewrite Hneg, Hh' in Hh.
  - intros H. split; [done|]. exists v. split; [done|]. rewrite Hneg.
    destruct (op_holds op v) eqn:?; [|done]. exfalso. eauto.
Qed.
