(* ===== verification/Resolve.v ===== *)
(** * Dependency resolution (dag/resolve.go)

    Which steps can run next, which are skipped, what input a step receives,
    when a run is complete and in which order completed steps are
    compensated.  [completed] and [queued] are the [map[string]bool] sets of
    the source. *)

From S2P Require Import Prelude Json Types Condition Graph.
From stdpp Require Import sorting relations.

#[local] Open Scope Z_scope.

(** ** The code *)

Definition allDepsCompleted (deps : list string) (completed : gmap string bool) : bool :=
  forallb (is_set completed) deps.

Definition ResolveReady (def : WorkflowDef) (completed queued : gmap string bool)
    : list StepDef :=
  List.filter (λ step,
    if is_set completed (sd_ID step) || is_set queued (sd_ID step) then false
    else if is_set (wd_AuxSteps def) (sd_ID step) then false
    else allDepsCompleted (sd_DependsOn step) completed) (wd_Steps def).

Definition ResolveSkipped (def : WorkflowDef) (completed queued : gmap string bool)
    (steps : gmap string StepState) : list StepDef :=
  List.filter (λ step,
    if is_set completed (sd_ID step) || is_set queued (sd_ID step) then false
    else match sd_SkipIf step with
         | None => false
         | Some c => allDepsCompleted (sd_DependsOn step) completed &&
                     Evaluate (Some c) steps
         end) (wd_Steps def).

(** [json.Marshal] of a [map[string]json.RawMessage]: keys are sorted, a nil
    message is [null], bytes that are not JSON are an error. *)
Definition marshal_entry (kv : string * option raw) : outcome (string * json) :=
  match kv.2 with
  | None => Ret (kv.1, JNull)
  | Some (RawJson v) => Ret (kv.1, v)
  | Some (RawBad _) =>
      Err (Errorf "json: error calling MarshalJSON for type json.RawMessage" [])
  end.

Definition key_le (a b : string * option raw) : Prop := String.leb a.1 b.1 = true.
#[global] Instance key_le_dec : RelDecision key_le :=
  λ a b, decide (String.leb a.1 b.1 = true).

Definition marshal_raw_map (m : gmap string (option raw)) : outcome raw :=
  fs ← mapM_outcome marshal_entry (merge_sort key_le (map_to_list m));
  Ret (RawJson (JObj fs)).

(** [ResolveInput]; the variadic [runInput] is a list, a nil slice is [None]. *)
Definition ResolveInput (step : StepDef) (steps : gmap string StepState)
    (runInput : list (option raw)) : outcome (option raw) :=
  match sd_DependsOn step with
  | [] =>
      match runInput with
      | Some r :: _ => if raw_empty r then Ret None else Ret (Some r)
      | _ => Ret None
      end
  | [dep] => Ret (ss_Output (step_at steps dep))
  | deps =>
      let collected : gmap string (option raw) :=
        foldl (λ m dep, <[dep := ss_Output (step_at steps dep)]> m) ∅ deps in
      data ← marshal_raw_map collected; Ret (Some data)
  end.

Definition IsComplete (def : WorkflowDef) (completed : gmap string bool) : bool :=
  forallb (λ step,
    if is_set (wd_AuxSteps def) (sd_ID step) && negb (is_set completed (sd_ID step))
    then true
    else is_set completed (sd_ID step)) (wd_Steps def).

(** The third loop of [ResolveCompensateChain]: each step but the first
    depends on the one before it. *)
Fixpoint wire_chain (prev : option StepDef) (l : list StepDef) : list StepDef :=
  match l with
  | [] => []
  | s :: l' =>
      sd_set_DependsOn (match prev with Some p => [sd_ID p] | None => [] end) s
        :: wire_chain (Some s) l'
  end.

(** The compensate steps of the completed steps, in definition order. *)
Definition compensate_ordered (def : WorkflowDef) (completed : gmap string bool)
    : list StepDef :=
  (λ step, default zero_StepDef (byID (wd_Steps def) !! sd_Compensate step)) <$>
    List.filter (λ step, negb (empty_str (sd_Compensate step)) &&
                         is_set completed (sd_ID step)) (wd_Steps def).

(** [ResolveCompensateChain]; the failed step's ID is not used. *)
Definition ResolveCompensateChain (def : WorkflowDef) (completed : gmap string bool)
    (failedStepID : string) : list StepDef :=
  wire_chain None (reverse (compensate_ordered def completed)).

(** ** Membership *)

Lemma elem_of_List_filter {A} (p : A → bool) l x :
  x ∈ List.filter p l ↔ x ∈ l ∧ p x = true.
Proof. by rewrite !list_elem_of_In, List.filter_In. Qed.

Lemma allDepsCompleted_iff deps completed :
  allDepsCompleted deps completed = true ↔ ∀ d, d ∈ deps → is_set completed d = true.
Proof. unfold allDepsCompleted. rewrite forallb_Forall. apply Forall_forall. Qed.

Lemma ResolveReady_elem def completed queued s :
  s ∈ ResolveReady def completed queued ↔
  s ∈ wd_Steps def ∧ is_set completed (sd_ID s) = false ∧
  is_set queued (sd_ID s) = false ∧ is_set (wd_AuxSteps def) (sd_ID s) = false ∧
  ∀ d, d ∈ sd_DependsOn s → is_set completed d = true.
Proof.
  unfold ResolveReady. rewrite elem_of_List_filter, <-allDepsCompleted_iff.
  destruct (is_set completed (sd_ID s)), (is_set queued (sd_ID s)),
    (is_set (wd_AuxSteps def) (sd_ID s)); simpl; naive_solver.
Qed.

Lemma ResolveSkipped_elem def completed queued steps s :
  s ∈ ResolveSkipped def completed queued steps ↔
  s ∈ wd_Steps def ∧ is_set completed (sd_ID s) = false ∧
  is_set queued (sd_ID s) = false ∧ Evaluate (sd_SkipIf s) steps = true ∧
  ∀ d, d ∈ sd_DependsOn s → is_set completed d = true.
Proof.
  unfold ResolveSkipped. rewrite elem_of_List_filter, <-allDepsCompleted_iff.
  destruct (is_set completed (sd_ID s)), (is_set queued (sd_ID s)),
    (sd_SkipIf s); simpl; rewrite ?andb_true_iff; naive_solver.
Qed.

Lemma IsComplete_iff def completed :
  IsComplete def completed = true ↔
  ∀ s, s ∈ wd_Steps def → is_set (wd_AuxSteps def) (sd_ID s) = false →
    is_set completed (sd_ID s) = true.
Proof.
  unfold IsComplete. rewrite forallb_Forall, Forall_forall.
  split; intros H s Hs; specialize (H s Hs); revert H;
    destruct (is_set (wd_AuxSteps def) (sd_ID s)), (is_set completed (sd_ID s));
    simpl; naive_solver.
Qed.

(** ** Progress *)

(** The graph conditions [Validate] establishes, and the one it does not: no
    ordinary step waits for an auxiliary one. *)
Record resolvable (def : WorkflowDef) : Prop := {
  rv_nodup : NoDup (ids_of (wd_Steps def));
  rv_deps : deps_exist (wd_Steps def);
  rv_acyclic : acyclic (edges (wd_Steps def));
  rv_aux : ∀ s d, s ∈ wd_Steps def → d ∈ sd_DependsOn s →
    is_set (wd_AuxSteps def) d = false;
}.

(** While a run is not complete, some ordinary step is neither completed nor
    waiting for another one. *)
Lemma unfinished_step def completed :
  resolvable def → IsComplete def completed = false →
  ∃ s, s ∈ wd_Steps def ∧ is_set completed (sd_ID s) = false ∧
    is_set (wd_AuxSteps def) (sd_ID s) = false ∧
    ∀ d, d ∈ sd_DependsOn s → is_set completed d = true.
Proof.
  intros [Hnd Hex Hac Haux] Hinc.
  destruct (decide (Exists (λ s, is_set completed (sd_ID s) = false ∧
      is_set (wd_AuxSteps def) (sd_ID s) = false ∧
      Forall (λ d, is_set completed d = true) (sd_DependsOn s)) (wd_Steps def)))
    as [(s & Hs & ? & ? & Hf)%Exists_exists|Hno].
  { exists s. rewrite Forall_forall in Hf. naive_solver. }
  exfalso. apply not_true_iff_false in Hinc. apply Hinc, IsComplete_iff.
  rewrite Exists_exists in Hno.
  assert (∀ id, id ∈ ids_of (wd_Steps def) →
    is_set (wd_AuxSteps def) id = false → is_set completed id = true) as Hall.
  { apply (acyclic_ind (wd_Steps def)
      (λ id, is_set (wd_AuxSteps def) id = false → is_set completed id = true)); [done..|].
    intros id Hid IH Hia. apply not_false_iff_true. intros Hn. apply Hno.
    apply list_elem_of_fmap in Hid as (s & -> & Hs). exists s. split_and!; [done..|].
    apply Forall_forall. intros d Hd. apply IH; [apply edges_elem; eauto|by eapply Haux]. }
  intros s Hs Ha. apply Hall; [by apply list_elem_of_fmap_2|done].
Qed.

(** No deadlock: an incomplete run has a step to start or one in flight. *)
Lemma resolve_no_deadlock def completed queued :
  resolvable def → IsComplete def completed = false →
  (∃ s, s ∈ ResolveReady def completed queued) ∨
  (∃ s, s ∈ wd_Steps def ∧ is_set completed (sd_ID s) = false ∧
        is_set queued (sd_ID s) = true).
Proof.
  intros Hr Hinc. destruct (unfinished_step def completed Hr Hinc) as (s & Hs & Hc & Ha & Hd).
  destruct (is_set queued (sd_ID s)) eqn:Hq; [right|left]; exists s; [done|].
  by apply ResolveReady_elem.
Qed.

(** ** Inputs *)

Lemma mapM_outcome_ret {A B} (f : A → outcome B) l k :
  mapM_outcome f l = Ret k ↔ Forall2 (λ x y, f x = Ret y) l k.
Proof.
  revert k. induction l as [|x l IH]; intros k; simpl.
  { split; [intros; simplify_eq; constructor|inversion 1; done]. }
  rewrite bind_ret_iff. setoid_rewrite bind_ret_iff. split.
  - intros (y & Hy & ys & Hys & [= <-]). constructor; [done|by apply IH].
  - intros H. inversion H; subst. eexists; split; [done|].
    eexists; split; [by apply IH|done].
Qed.

Lemma key_le_total : Total key_le.
Proof.
  intros a b. unfold key_le. destruct (String.leb_total a.1 b.1) as [->| ->]; auto.
Qed.

Lemma marshal_keys l fs :
  mapM_outcome marshal_entry l = Ret fs → fs.*1 = l.*1.
Proof.
  rewrite mapM_outcome_ret. induction 1 as [|[k o] [k' v] l fs H _ IH]; [done|].
  csimpl. rewrite IH. f_equal. unfold marshal_entry in H. simpl in H.
  by repeat case_match; simplify_eq.
Qed.

Lemma obj_get_unique k v fs : NoDup (fs.*1) → (k, v) ∈ fs → obj_get k fs = Some v.
Proof.
  intros Hnd Hin. unfold obj_get.
  destruct (find_first _ (reverse fs)) as [[k' v']|] eqn:Hf.
  - apply find_first_Some in Hf as [Hin' Heq]. apply bool_decide_eq_true in Heq as ->.
    rewrite elem_of_reverse in Hin'. simpl. f_equal.
    apply list_elem_of_lookup in Hin as [i Hi]. apply list_elem_of_lookup in Hin' as [j Hj].
    assert (i = j) as ->; [|congruence].
    eapply NoDup_lookup; [done|..]; rewrite list_lookup_fmap; [by rewrite Hi|by rewrite Hj].
  - rewrite find_first_None in Hf. specialize (Hf (k, v)).
    rewrite elem_of_reverse in Hf. specialize (Hf Hin). simpl in Hf.
    by rewrite bool_decide_eq_false in Hf.
Qed.

(** What a fan-in step reads under the name of a dependency. *)
Definition output_json (st : StepState) : option json :=
  match ss_Output st with
  | None => Some JNull
  | Some (RawJson v) => Some v
  | Some (RawBad _) => None
  end.

Lemma collected_lookup steps deps (d : string) (m : gmap string (option raw)) :
  foldl (λ m dep, <[dep := ss_Output (step_at steps dep)]> m) m deps !! d =
  if decide (d ∈ deps) then Some (ss_Output (step_at steps d)) else m !! d.
Proof.
  revert m. induction deps as [|x deps IH]; intros m; simpl; [done|].
  rewrite IH, lookup_insert. destruct (decide (d ∈ deps)).
  - by rewrite decide_True by (by right).
  - destruct (decide (x = d)) as [->|].
    + by rewrite decide_True by left.
    + rewrite decide_False; [done|]. set_solver.
Qed.

Lemma sorted_keys l : Sorted key_le l → Sorted (λ a b, String.leb a b = true) (l.*1).
Proof.
  induction 1 as [|x l Hs IH Hh]; csimpl; constructor; [done|].
  destruct Hh; csimpl; by constructor.
Qed.

Lemma marshal_raw_map_spec (m : gmap string (option raw)) r :
  marshal_raw_map m = Ret r →
  ∃ fs, r = RawJson (JObj fs) ∧ NoDup (fs.*1) ∧ Sorted (λ a b, String.leb a b = true) (fs.*1) ∧
    ∀ k v, (k, v) ∈ fs → ∃ o, m !! k = Some o ∧ marshal_entry (k, o) = Ret (k, v).
Proof.
  unfold marshal_raw_map. rewrite bind_ret_iff. intros (fs & Hfs & [= <-]).
  exists fs. pose proof (marshal_keys _ _ Hfs) as Hkeys. split_and!; [done|..].
  - rewrite Hkeys, merge_sort_Permutation. apply NoDup_fst_map_to_list.
  - rewrite Hkeys. apply sorted_keys, Sorted_merge_sort, key_le_total.
  - intros k v Hin. rewrite mapM_outcome_ret in Hfs.
    apply list_elem_of_lookup in Hin as [i Hi].
    destruct (Forall2_lookup_r _ _ _ _ _ Hfs Hi) as ([k' o] & Hl & Hm).
    apply list_elem_of_lookup_2 in Hl. rewrite merge_sort_Permutation in Hl.
    apply elem_of_map_to_list in Hl.
    assert (k' = k) as -> by (revert Hm; unfold marshal_entry; simpl; by repeat case_match; intros; simplify_eq).
    eauto.
Qed.

Lemma marshal_raw_map_ok (m : gmap string (option raw)) :
  (∀ k o, m !! k = Some o → ∃ v, marshal_entry (k, o) = Ret (k, v)) →
  ∃ r, marshal_raw_map m = Ret r ∧
    ∀ k o, m !! k = Some o → ∃ fs v, r = RawJson (JObj fs) ∧
      marshal_entry (k, o) = Ret (k, v) ∧ obj_get k fs = Some v.
Proof.
  intros Hok.
  assert (∃ fs, mapM_outcome marshal_entry (merge_sort key_le (map_to_list m)) = Ret fs)
    as [fs Hfs].
  { assert (∀ kv, kv ∈ merge_sort key_le (map_to_list m) → ∃ y, marshal_entry kv = Ret y) as Hl.
    { intros [k o] Hin. rewrite merge_sort_Permutation in Hin.
      apply elem_of_map_to_list, Hok in Hin as [v Hv]. eauto. }
    induction (merge_sort key_le (map_to_list m)) as [|x l IH]; simpl; [eauto|].
    destruct (Hl x) as [y Hy]; [left|]. destruct IH as [ys Hys]; [intros; apply Hl; by right|].
    exists (y :: ys). by rewrite Hy, Hys. }
  exists (RawJson (JObj fs)). unfold marshal_raw_map. rewrite Hfs. split; [done|].
  pose proof (marshal_keys _ _ Hfs) as Hkeys.
  intros k o Hk. destruct (Hok k o Hk) as [v Hv]. exists fs, v. split_and!; [done..|].
  apply obj_get_unique.
  - rewrite Hkeys, merge_sort_Permutation. apply NoDup_fst_map_to_list.
  - rewrite mapM_outcome_ret in Hfs.
    assert ((k, o) ∈ merge_sort key_le (map_to_list m)) as [i Hi]%list_elem_of_lookup.
    { rewrite merge_sort_Permutation. by apply elem_of_map_to_list. }
    destruct (Forall2_lookup_l _ _ _ _ _ Hfs Hi) as (y & Hy & Hm).
    rewrite Hv in Hm. injection Hm as <-. by apply list_elem_of_lookup_2 in Hy.
Qed.

(** A fan-in step receives an object with, under each dependency's name, that
    step's output ([null] when it has none). *)
Lemma ResolveInput_fan_in step steps runInput d1 d2 deps :
  sd_DependsOn step = d1 :: d2 :: deps →
  (∀ d, d ∈ sd_DependsOn step → is_Some (output_json (step_at steps d))) →
  ∃ fs, ResolveInput step steps runInput = Ret (Some (RawJson (JObj fs))) ∧
    ∀ d, d ∈ sd_DependsOn step → obj_get d fs = output_json (step_at steps d).
Proof.
  intros Hd Hok. unfold ResolveInput. rewrite Hd.
  set (m := foldl _ ∅ _).
  assert (∀ k o, m !! k = Some o → k ∈ sd_DependsOn step ∧ o = ss_Output (step_at steps k)) as Hm.
  { intros k o. subst m. rewrite collected_lookup, Hd, lookup_empty.
    case_decide; naive_solver. }
  destruct (marshal_raw_map_ok m) as (r & -> & Hr).
  { intros k o [Hk ->]%Hm. destruct (Hok k Hk) as [v Hv]. unfold output_json in Hv.
    unfold marshal_entry. simpl. repeat case_match; simplify_eq; eauto. }
  assert (∀ d, d ∈ sd_DependsOn step → ∃ fs, r = RawJson (JObj fs) ∧
            obj_get d fs = output_json (step_at steps d)) as Hall.
  { intros d Hin. destruct (Hr d (ss_Output (step_at steps d))) as (fs & v & -> & Hv & Hg).
    - subst m. rewrite collected_lookup, decide_True; [done|]. by rewrite <-Hd.
    - exists fs. split; [done|]. rewrite Hg. unfold output_json.
      unfold marshal_entry in Hv. simpl in Hv. by repeat case_match; simplify_eq. }
  destruct (Hall d1) as (fs & -> & _); [rewrite Hd; left|].
  exists fs. split; [done|]. intros d Hin. rewrite <-Hd in Hin. by destruct (Hall d Hin) as (? & [= <-] & ?).
Qed.

(** ** Compensation *)

Lemma wire_chain_lookup l : ∀ prev i s,
  wire_chain prev l !! i = Some s ↔
  ∃ s0, l !! i = Some s0 ∧
    s = sd_set_DependsOn (match i with
                          | O => match prev with Some p => [sd_ID p] | None => [] end
                          | S j => match l !! j with Some p => [sd_ID p] | None => [] end
                          end) s0.
Proof.
  induction l as [|x l IH]; intros prev i s; simpl.
  { rewrite lookup_nil. naive_solver. }
  destruct i as [|i]; simpl; [naive_solver|]. rewrite IH.
  destruct i; simpl; naive_solver.
Qed.

Lemma wire_chain_length prev l : length (wire_chain prev l) = length l.
Proof. revert prev. induction l; intros; simpl; auto. Qed.

Lemma sd_ID_set_DependsOn v s : sd_ID (sd_set_DependsOn v s) = sd_ID s.
Proof. by destruct s. Qed.
Lemma sd_DependsOn_set v s : sd_DependsOn (sd_set_DependsOn v s) = v.
Proof. by destruct s. Qed.

(** The steps that will be compensated, in definition order. *)
Definition compensated (def : WorkflowDef) (completed : gmap string bool) : list StepDef :=
  List.filter (λ step, negb (empty_str (sd_Compensate step)) &&
                       is_set completed (sd_ID step)) (wd_Steps def).

(** The chain holds the compensate target of every completed step that has
    one, last step first, each waiting for the one before it. *)
Lemma ResolveCompensateChain_spec def completed failed :
  (∀ s, s ∈ wd_Steps def → sd_Compensate s ≠ "" →
     sd_Compensate s ∈ ids_of (wd_Steps def)) →
  NoDup (ids_of (wd_Steps def)) →
  let chain := ResolveCompensateChain def completed failed in
  sd_ID <$> chain = reverse (sd_Compensate <$> compensated def completed) ∧
  (∀ i c, chain !! i = Some c →
     sd_DependsOn c = match i with
                      | O => []
                      | S j => match chain !! j with Some p => [sd_ID p] | None => [] end
                      end).
Proof.
  intros Hex Hnd. unfold ResolveCompensateChain. simpl.
  set (l := reverse (compensate_ordered def completed)).
  assert (sd_ID <$> wire_chain None l = sd_ID <$> l) as Hids.
  { apply list_eq. intros i. rewrite !list_lookup_fmap.
    destruct (wire_chain None l !! i) as [s|] eqn:Hi.
    - apply wire_chain_lookup in Hi as (s0 & -> & ->). simpl. by rewrite sd_ID_set_DependsOn.
    - apply lookup_ge_None in Hi. rewrite wire_chain_length in Hi.
      by rewrite (proj2 (lookup_ge_None l i)). }
  split.
  - rewrite Hids. subst l. rewrite fmap_reverse. f_equal.
    unfold compensate_ordered, compensated. rewrite <-list_fmap_compose.
    apply list_fmap_ext. intros i s Hi%list_elem_of_lookup_2.
    apply elem_of_List_filter in Hi as [Hs [Hc _]%andb_true_iff].
    apply negb_true_iff, empty_str_false in Hc. simpl.
    specialize (Hex s Hs Hc). apply list_elem_of_fmap in Hex as (t & Ht & Hin).
    rewrite Ht, (byID_lookup _ t) by done. done.
  - intros i c Hi. apply wire_chain_lookup in Hi as (s0 & Hl & ->).
    rewrite sd_DependsOn_set. destruct i as [|j]; [done|].
    pose proof (f_equal (λ k, k !! j) Hids) as Hj. cbn in Hj. rewrite !list_lookup_fmap in Hj.
    destruct (l !! j), (wire_chain None l !! j); simpl in *; congruence.
Qed.

(** Resolved as a workflow of its own, a chain of distinct compensate steps
    runs one step at a time, in order. *)
Lemma chain_sequential name chain k c :
  NoDup (ids_of chain) →
  (∀ i c, chain !! i = Some c →
     sd_DependsOn c = match i with
                      | O => []
                      | S j => match chain !! j with Some p => [sd_ID p] | None => [] end
                      end) →
  chain !! k = Some c →
  ∀ s, s ∈ ResolveReady (workflow_def name chain)
             (set_of (ids_of (take k chain))) ∅ ↔ s = c.
Proof.
  intros Hnd Hdeps Hk s. rewrite ResolveReady_elem. simpl. rewrite !is_set_empty.
  assert (∀ i x, chain !! i = Some x →
    (is_set (set_of (ids_of (take k chain))) (sd_ID x) = true ↔ (i < k)%nat)) as Hset.
  { intros i x Hi. rewrite set_of_elem. split.
    - intros (j & Hj)%list_elem_of_lookup. unfold ids_of in Hj.
      rewrite fmap_take, lookup_take_Some in Hj. destruct Hj as [Hj Hlt].
      assert (i = j) as ->; [|done]. eapply (NoDup_lookup (ids_of chain)); [done| |done].
      unfold ids_of. by rewrite list_lookup_fmap, Hi.
    - intros Hlt. apply list_elem_of_fmap_2, (list_elem_of_lookup_2 _ i).
      by rewrite lookup_take_lt. }
  split.
  - intros ((i & Hi)%list_elem_of_lookup & Hc & _ & _ & Hd).
    pose proof (Hset i s Hi) as Hsi. rewrite Hc in Hsi.
    assert (k ≤ i)%nat as Hki by (destruct (decide (i < k)%nat); [|lia]; naive_solver).
    destruct (decide (i = k)) as [->|Hne]; [congruence|]. exfalso.
    destruct i as [|j]; [lia|]. rewrite (Hdeps _ _ Hi) in Hd.
    destruct (lookup_lt_is_Some_2 chain j) as [p Hp].
    { apply lookup_lt_Some in Hi. lia. }
    rewrite Hp in Hd. specialize (Hd (sd_ID p)). rewrite (Hset j p Hp) in Hd.
    assert (j < k)%nat; [apply Hd; left|lia].
  - intros ->. split_and!; [by eapply list_elem_of_lookup_2| |done|done|].
    + apply not_true_iff_false. rewrite (Hset k c Hk). lia.
    + rewrite (Hdeps _ _ Hk). destruct k as [|j]; [intros d ?%elem_of_nil; done|].
      destruct (chain !! j) as [p|] eqn:Hp; [|intros d ?%elem_of_nil; done].
      intros d ->%list_elem_of_singleton. apply (Hset j p Hp). lia.
Qed.

(** Steps listed after their dependencies, as the builder lists them. *)
Definition listed_in_order (steps : list StepDef) : Prop :=
  ∀ i s, steps !! i = Some s → ∀ d, d ∈ sd_DependsOn s →
    ∃ j t, (j < i)%nat ∧ steps !! j = Some t ∧ sd_ID t = d.

Lemma listed_before steps a b :
  NoDup (ids_of steps) → listed_in_order steps →
  tc (depends (edges steps)) a b →
  ∀ i t, steps !! i = Some t → sd_ID t = b →
  ∃ j s, (j < i)%nat ∧ steps !! j = Some s ∧ sd_ID s = a.
Proof.
  intros Hnd Hl H. induction H as [a b Hab|a c b Hac _ IH]; intros i t Ht Hb.
  - apply edges_elem in Hab as (t' & [i' Ht']%list_elem_of_lookup & Hb' & Hd).
    assert (i' = i) as ->.
    { eapply (NoDup_lookup (ids_of steps)); [done|..]; unfold ids_of;
        rewrite list_lookup_fmap; [by rewrite Ht'|rewrite Ht; simpl; congruence]. }
    by apply (Hl i t').
  - destruct (IH i t Ht Hb) as (j & s & Hj & Hs & Hc).
    apply edges_elem in Hac as (s' & [j' Hs']%list_elem_of_lookup & Hc' & Hd).
    assert (j' = j) as ->.
    { eapply (NoDup_lookup (ids_of steps)); [done|..]; unfold ids_of;
        rewrite list_lookup_fmap; [by rewrite Hs'|rewrite Hs; simpl; congruence]. }
    destruct (Hl j s' Hs' a Hd) as (k & u & ? & ? & ?). exists k, u. split; [lia|done].
Qed.

Lemma filter_order {A} (p : A → bool) l i j x y :
  l !! i = Some x → l !! j = Some y → (i < j)%nat → p x = true → p y = true →
  ∃ i' j', (i' < j')%nat ∧ List.filter p l !! i' = Some x ∧ List.filter p l !! j' = Some y.
Proof.
  intros Hi Hj Hij Hx Hy.
  rewrite <-(take_drop_middle l j y Hj).
  assert (take j l !! i = Some x) as Hi' by (by rewrite lookup_take_lt).
  rewrite List.filter_app. simpl. rewrite Hy.
  assert (x ∈ List.filter p (take j l)) as [i' Hi'']%list_elem_of_lookup.
  { apply elem_of_List_filter. split; [by eapply list_elem_of_lookup_2|done]. }
  exists i', (length (List.filter p (take j l))). split_and!.
  - by eapply lookup_lt_Some.
  - by apply lookup_app_l_Some.
  - by rewrite list_lookup_middle.
Qed.

(** When step [b] depends on step [a], directly or not, [b] is compensated
    before [a]. *)
Lemma compensation_order def completed failed a b :
  NoDup (ids_of (wd_Steps def)) → listed_in_order (wd_Steps def) →
  (∀ s, s ∈ wd_Steps def → sd_Compensate s ≠ "" →
     sd_Compensate s ∈ ids_of (wd_Steps def)) →
  a ∈ compensated def completed → b ∈ compensated def completed →
  tc (depends (edges (wd_Steps def))) (sd_ID a) (sd_ID b) →
  ∃ i j, (i < j)%nat ∧
    (sd_ID <$> ResolveCompensateChain def completed failed) !! i = Some (sd_Compensate b) ∧
    (sd_ID <$> ResolveCompensateChain def completed failed) !! j = Some (sd_Compensate a).
Proof.
  intros Hnd Hl Hex Ha Hb Htc.
  destruct (ResolveCompensateChain_spec def completed failed Hex Hnd) as [-> _].
  apply elem_of_List_filter in Ha as [Ha Hpa]. apply elem_of_List_filter in Hb as [Hb Hpb].
  apply list_elem_of_lookup in Hb as [ib Hib].
  destruct (listed_before _ _ _ Hnd Hl Htc ib b Hib eq_refl) as (ia & a' & Hlt & Hia & Heq).
  assert (a' = a) as ->.
  { apply list_elem_of_lookup_2 in Hia. pose proof (byID_lookup _ _ Hnd Hia).
    pose proof (byID_lookup _ _ Hnd Ha). congruence. }
  destruct (filter_order (λ step, negb (empty_str (sd_Compensate step)) &&
    is_set completed (sd_ID step)) _ _ _ _ _ Hia Hib Hlt Hpa Hpb) as (i & j & Hij & Hi & Hj).
  fold (compensated def completed) in Hi, Hj. set (l := compensated def completed) in *.
  pose proof (lookup_lt_Some _ _ _ Hj).
  exists (length l - S j)%nat, (length l - S i)%nat. split; [lia|].
  split; rewrite reverse_lookup, length_fmap by (rewrite length_fmap; lia).
  - replace (length l - S (length l - S j))%nat with j by lia.
    by rewrite list_lookup_fmap, Hj.
  - replace (length l - S (length l - S i))%nat with i by lia.
    by rewrite list_lookup_fmap, Hi.
Qed.
