(* ===== verification/GoTime.v ===== *)
(** * Instants, zones and the civil calendar (Go's package time)

    A [time.Time] is the number of nanoseconds since the Unix epoch; its
    zone is a function from the instant (in seconds) to the offset east of
    UTC, which stands for the tz database.  The wall clock fields are those
    of the proleptic Gregorian calendar. *)

From S2P Require Import Prelude.

(** ** Instants *)

Definition Time : Type := Z.
Definition Location : Type := Z → Z.
Definition UTC : Location := λ _, 0.

(** The zero [time.Time]: January 1 of year 1, 00:00 UTC. *)
Definition zero_time : Time := - 62135596800 * Second.
Definition IsZero (t : Time) : bool := t =? zero_time.

Definition Time_Add (t : Time) (d : Z) : Time := t + d.

(** [t.Sub(u)] saturates at the bounds of a duration. *)
Definition Time_Sub (t u : Time) : Z := Z.max int64_min (Z.min int64_max (t - u)).

(** [t.Truncate(d)] rounds down to a multiple of [d] since the zero time. *)
Definition Truncate (t : Time) (d : Z) : Time :=
  if d <=? 0 then t else t - (t - zero_time) mod d.

(** ** Wall clock *)

(** Days from 1970-01-01 to the civil date, counted in 400-year eras that
    start on March 1. *)
Record civil : Type := MkCivil { year : Z; month : Z; day : Z }.

Definition civil_of_doe (doe : Z) : civil :=
  let yoe := (doe - doe / 1460 + doe / 36524 - doe / 146096) / 365 in
  let doy := doe - (365 * yoe + yoe / 4 - yoe / 100) in
  let mp := (5 * doy + 2) / 153 in
  let d := doy - (153 * mp + 2) / 5 + 1 in
  let m := if mp <? 10 then mp + 3 else mp - 9 in
  MkCivil (yoe + if m <=? 2 then 1 else 0) m d.

Definition civil_of_days (days : Z) : civil :=
  let z := days + 719468 in
  let c := civil_of_doe (z mod 146097) in
  MkCivil (year c + 400 * (z / 146097)) (month c) (day c).

(** Seconds on the wall clock of the zone. *)
Definition wall (loc : Location) (t : Time) : Z :=
  let sec := t / Second in sec + loc sec.

Definition Minute_of (loc : Location) (t : Time) : Z := wall loc t / 60 mod 60.
Definition Hour_of (loc : Location) (t : Time) : Z := wall loc t / 3600 mod 24.
Definition Date_of (loc : Location) (t : Time) : civil := civil_of_days (wall loc t / 86400).
(** 1970-01-01 was a Thursday; Sunday is 0. *)
Definition Weekday_of (loc : Location) (t : Time) : Z := (wall loc t / 86400 + 4) mod 7.

(** ** The calendar is a calendar *)

Definition is_leap (y : Z) : bool :=
  (y mod 4 =? 0) && (negb (y mod 100 =? 0) || (y mod 400 =? 0)).

Definition days_in_month (y m : Z) : Z :=
  if bool_decide (m ∈ [4; 6; 9; 11]) then 30
  else if m =? 2 then (if is_leap y then 29 else 28) else 31.

Definition civil_ok (c : civil) : bool :=
  (1 <=? month c) && (month c <=? 12) && (1 <=? day c) &&
  (day c <=? days_in_month (year c) (month c)).

Lemma civil_of_doe_ok doe : 0 ≤ doe < 146097 → civil_ok (civil_of_doe doe) = true.
Proof.
  intros H. unfold civil_of_doe.
  set (yoe := (doe - doe / 1460 + doe / 36524 - doe / 146096) / 365).
  set (doy := doe - (365 * yoe + yoe / 4 - yoe / 100)).
  assert (0 ≤ doy ≤ 365) as Hdoy
    by (subst yoe doy; Z.to_euclidean_division_equations; lia).
  assert (doy = 365 → is_leap (yoe + 1) = true) as Hleap.
  { subst yoe doy. clear Hdoy. unfold is_leap. intros E.
    Z.to_euclidean_division_equations; lia. }
  clearbody yoe doy. set (mp := (5 * doy + 2) / 153).
  assert (0 ≤ mp ≤ 11) as Hmp by (subst mp; Z.to_euclidean_division_equations; lia).
  assert (1 ≤ doy - (153 * mp + 2) / 5 + 1 ≤ 31 ∧
    (mp ∈ [1; 3; 6; 8] → doy - (153 * mp + 2) / 5 + 1 ≤ 30) ∧
    (mp = 11 → doy - (153 * mp + 2) / 5 + 1 = doy - 336)) as (Hd & Hd30 & Hfeb).
  { rewrite !elem_of_cons, elem_of_nil. subst mp.
    split_and!; [| |intros [E|[E|[E|[E|[]]]]]|intros E];
      Z.to_euclidean_division_equations; lia. }
  unfold civil_ok, days_in_month. cbn [year month day].
  rewrite !elem_of_cons, elem_of_nil in Hd30.
  assert (mp = 0 ∨ mp = 1 ∨ mp = 2 ∨ mp = 3 ∨ mp = 4 ∨ mp = 5 ∨ mp = 6 ∨ mp = 7 ∨
    mp = 8 ∨ mp = 9 ∨ mp = 10 ∨ mp = 11) as Hcase by lia.
  remember (doy - (153 * mp + 2) / 5 + 1) as D eqn:HD. clear HD.
  repeat destruct Hcase as [Hcase|Hcase]; rewrite Hcase in Hd30, Hfeb |- *; simpl in *;
    try lia.
  destruct (decide (doy = 365)) as [E|E].
  - rewrite (Hleap E). lia.
  - case_match; lia.
Qed.

Lemma is_leap_period y k : is_leap (y + 400 * k) = is_leap y.
Proof.
  unfold is_leap.
  replace (y + 400 * k) with (y + (100 * k) * 4) at 1 by lia.
  replace (y + 400 * k) with (y + (4 * k) * 100) at 1 by lia.
  replace (y + 400 * k) with (y + k * 400) by lia.
  by rewrite !Z.mod_add by lia.
Qed.

(** Every date is a valid date of its month. *)
Lemma civil_of_days_ok days : civil_ok (civil_of_days days) = true.
Proof.
  unfold civil_of_days. pose proof (Z.mod_pos_bound (days + 719468) 146097).
  pose proof (civil_of_doe_ok ((days + 719468) mod 146097)) as Hok.
  destruct (civil_of_doe _) as [y m d]. revert Hok. unfold civil_ok, days_in_month. simpl.
  rewrite is_leap_period. auto with lia.
Qed.

(** Anchors of the calendar. *)
Example epoch_date : civil_of_days 0 = MkCivil 1970 1 1.
Proof. reflexivity. Qed.
Example leap_date : civil_of_days 11016 = MkCivil 2000 2 29.
Proof. reflexivity. Qed.
Example zero_time_date : Date_of UTC zero_time = MkCivil 1 1 1.
Proof. reflexivity. Qed.

Lemma wall_clock_ranges loc t :
  0 ≤ Minute_of loc t ≤ 59 ∧ 0 ≤ Hour_of loc t ≤ 23 ∧ 0 ≤ Weekday_of loc t ≤ 6 ∧
  1 ≤ month (Date_of loc t) ≤ 12 ∧ 1 ≤ day (Date_of loc t) ≤ 31.
Proof.
  pose proof (civil_of_days_ok (wall loc t / 86400)) as Hc.
  unfold Minute_of, Hour_of, Weekday_of, Date_of.
  pose proof (Z.mod_pos_bound (wall loc t / 60) 60).
  pose proof (Z.mod_pos_bound (wall loc t / 3600) 24).
  pose proof (Z.mod_pos_bound (wall loc t / 86400 + 4) 7).
  unfold civil_ok in Hc. rewrite !andb_true_iff, !Z.leb_le in Hc.
  assert (∀ y m, days_in_month y m ≤ 31) as Hd
    by (intros y m; unfold days_in_month; repeat case_match; lia).
  specialize (Hd (year (civil_of_days (wall loc t / 86400)))
                 (month (civil_of_days (wall loc t / 86400)))). lia.
Qed.

Lemma Truncate_minute t :
  Truncate t Minute ≤ t < Truncate t Minute + Minute ∧ Truncate t Minute mod Minute = 0.
Proof.
  unfold Truncate. change (Minute <=? 0) with false. cbn [Z.leb].
  pose proof (Z.mod_pos_bound (t - zero_time) Minute) as Hb.
  assert (0 < Minute) as Hm by done. split; [lia|].
  pose proof (Z.div_mod (t - zero_time) Minute) as Hd.
  replace (t - (t - zero_time) mod Minute)
    with (zero_time + (t - zero_time) / Minute * Minute) by lia.
  rewrite Z.mod_add by lia. reflexivity.
Qed.
