(* ===== verification/Cron.v ===== *)
(** * Cron expressions (internal/cronexpr/cronexpr.go)

    [ParseCron] expands each of the five fields into the list of values it
    allows; [Matches] tests an instant's wall clock against them with the
    POSIX day rule; [NextN] scans minute by minute, at most 366 days.  The
    theorems relate the expanded fields to the grammar ([parseField_spec])
    and show that [NextN] returns exactly the first matching minutes after
    the reference instant ([NextN_spec]). *)

From S2P Require Import Prelude GoTime.
From Stdlib Require Import Ascii.
From stdpp Require Import sorting.

#[local] Open Scope Z_scope.

(** ** Strings *)

(** The encodings of the runes of [unicode.IsSpace], in UTF-8. *)
Definition bytes (l : list nat) : string :=
  foldr (λ n s, String (ascii_of_nat n) s) EmptyString l.
Definition space_runes : list string :=
  bytes <$> [[9]; [10]; [11]; [12]; [13]; [32]; [194; 133]; [194; 160];
    [225; 154; 128]; [226; 128; 128]; [226; 128; 129]; [226; 128; 130];
    [226; 128; 131]; [226; 128; 132]; [226; 128; 133]; [226; 128; 134];
    [226; 128; 135]; [226; 128; 136]; [226; 128; 137]; [226; 128; 138];
    [226; 128; 168]; [226; 128; 169]; [226; 128; 175]; [226; 129; 159];
    [227; 128; 128]]%nat.

(** The length of the space rune a string starts with, if it does. *)
Definition leading_space (s : string) : option nat :=
  String.length <$> find_first (λ p, HasPrefix s p) space_runes.

Definition str_drop (n : nat) (s : string) : string :=
  String.substring n (String.length s - n) s.

(** [strings.Fields]: the maximal runs without space runes. *)
Fixpoint fields_go (skip : nat) (cur : string) (s : string) : list string :=
  match s with
  | EmptyString => if empty_str cur then [] else [String.rev cur]
  | String c s' =>
      match skip with
      | S k => fields_go k cur s'
      | O =>
          match leading_space s with
          | Some w =>
              if empty_str cur then fields_go (w - 1) EmptyString s'
              else String.rev cur :: fields_go (w - 1) EmptyString s'
          | None => fields_go 0 (String c cur) s'
          end
      end
  end.
Definition Fields (s : string) : list string := fields_go 0 EmptyString s.

(** [strconv.Atoi]: an optional sign and decimal digits, within [int64]. *)
Definition is_digit (c : ascii) : bool := in_range "0" "9" c.
Definition digits_val (s : string) : Z :=
  foldl (λ acc c, acc * 10 + (byte_of c - 48)) 0 (str_list s).
Definition Atoi (s : string) : option Z :=
  let '(neg, ds) :=
    match s with
    | String "-" s' => (true, s')
    | String "+" s' => (false, s')
    | _ => (false, s)
    end in
  if empty_str ds || negb (str_forallb is_digit ds) then None
  else
    let v := if (neg : bool) then - digits_val ds else digits_val ds in
    if in_int64 v then Some v else None.

(** ** Parsing *)

Record CronExpr : Type := MkCronExpr {
  Minutes : list Z;
  Hours : list Z;
  DaysOfMonth : list Z;
  Months : list Z;
  DaysOfWeek : list Z;
  dayOfMonthRestricted : bool;
  dayOfWeekRestricted : bool;
}.

Definition rangeInts (lo hi : Z) : outcome (list Z) :=
  panic_if (hi <? lo) "rangeInts: min must not exceed max";;
  panic_if (999 <? hi) "rangeInts: max exceeds upper bound of 999";;
  Ret (seqZ lo (hi - lo + 1)).

(** [for i := min; i <= max; i += step], the addition on 64 bits. *)
Fixpoint step_loop (fuel : nat) (i max step : Z) : option (list Z) :=
  if max <? i then Some []
  else match fuel with
       | O => None
       | S fuel' => cons i <$> step_loop fuel' (wrap64 (i + step)) max step
       end.

Definition parseFieldValue (value : string) (min max : Z) : outcome (list Z) :=
  panic_if (empty_str value) "parseFieldValue: value must not be empty";;
  panic_if (max <? min) "parseFieldValue: min must not exceed max";;
  if bool_decide (value = "*") then rangeInts min max
  else if HasPrefix value "*/" then
    match Atoi (str_drop 2 value) with
    | None => Err (Errorf "invalid step: %q" [AStr value])
    | Some step =>
        if step <=? 0 then Err (Errorf "invalid step: %q" [AStr value])
        else match step_loop (Z.to_nat (max + 4)) min max step with
             | Some l => Ret l
             | None => Panic "parseFieldValue: loop did not end"
             end
    end
  else if str_contains_char "-" value then
    match splitn_char "-" 2 value with
    | a :: b :: _ =>
        match Atoi a with
        | None => Err (Errorf "invalid range start: %q" [AStr value])
        | Some lo =>
            match Atoi b with
            | None => Err (Errorf "invalid range end: %q" [AStr value])
            | Some hi =>
                if (lo <? min) || (max <? hi) || (hi <? lo)
                then Err (Errorf "range out of bounds: %q" [AStr value])
                else rangeInts lo hi
            end
        end
    | _ => Panic "index out of range"
    end
  else
    match Atoi value with
    | None => Err (Errorf "invalid value: %q" [AStr value])
    | Some val =>
        if (val <? min) || (max <? val)
        then Err (Errorf "value %d out of range [%d, %d]" [AInt val; AInt min; AInt max])
        else Ret [val]
    end.

Fixpoint parse_parts (field : string) (parts : list string) (min max : Z)
    : outcome (list Z) :=
  match parts with
  | [] => Ret []
  | part :: parts' =>
      if empty_str part then Err (Errorf "empty item in %q" [AStr field])
      else
        values ← parseFieldValue part min max;
        rest ← parse_parts field parts' min max;
        Ret (values ++ rest)
  end.

Definition parseField (field : string) (min max : Z) : outcome (list Z) :=
  if empty_str field then Err (Errorf "empty field" [])
  else
    panic_if (max <? min) "parseField: min must not exceed max";;
    parse_parts field (split_char "," field) min max.

Definition field_err (what : string) (e : error) : error := Errorf what [AErr e].

(** [ParseCron] *)
Definition ParseCron (expr : string) : outcome CronExpr :=
  if 256 <? Z.of_nat (String.length expr)
  then Err (Errorf "cron expression is %d bytes; max %d"
              [AInt (Z.of_nat (String.length expr)); AInt 256])
  else
    match Fields expr with
    | [f0; f1; f2; f3; f4] =>
        minutes ← wrap_err (field_err "minute field: %w") (parseField f0 0 59);
        hours ← wrap_err (field_err "hour field: %w") (parseField f1 0 23);
        dom ← wrap_err (field_err "day-of-month field: %w") (parseField f2 1 31);
        months ← wrap_err (field_err "month field: %w") (parseField f3 1 12);
        dow ← wrap_err (field_err "day-of-week field: %w") (parseField f4 0 6);
        panic_if (bool_decide (minutes = []) || bool_decide (hours = []))
          "ParseCron: parsed expression has empty time slices";;
        Ret (MkCronExpr minutes hours dom months dow
               (bool_decide (f2 ≠ "*")) (bool_decide (f4 ≠ "*")))
    | fs => Err (Errorf "dagnats cron expressions use 5 fields (minute hour day-of-month month day-of-week); got %d. Drop any leading seconds field if present"
                   [AInt (Z.of_nat (length fs))])
    end.

(** ** Matching *)

Definition contains (vals : list Z) (target : Z) : bool := existsb (Z.eqb target) vals.

Definition dayMatches (c : CronExpr) (loc : Location) (t : Time) : bool :=
  let dayOfMonthMatches := contains (DaysOfMonth c) (day (Date_of loc t)) in
  let dayOfWeekMatches := contains (DaysOfWeek c) (Weekday_of loc t) in
  if dayOfMonthRestricted c && dayOfWeekRestricted c
  then dayOfMonthMatches || dayOfWeekMatches
  else dayOfMonthMatches && dayOfWeekMatches.

(** [Matches]; a nil slice is the empty list (no parsed field is empty). *)
Definition Matches (c : CronExpr) (loc : Location) (t : Time) : outcome bool :=
  panic_if (IsZero t) "Matches: time must not be zero";;
  panic_if (bool_decide (Minutes c = [])) "Matches: Minutes slice must not be nil";;
  Ret (contains (Minutes c) (Minute_of loc t) && contains (Hours c) (Hour_of loc t) &&
       contains (Months c) (month (Date_of loc t)) && dayMatches c loc t).

Definition maxScanMinutes : Z := 366 * 24 * 60.

(** The scan: [fuel] is the number of iterations left. *)
Fixpoint scan (c : CronExpr) (loc : Location) (fuel : nat) (t : Time) (need : nat)
    : outcome (list Time) :=
  match fuel, need with
  | O, _ | _, O => Ret []
  | S fuel', S need' =>
      m ← Matches c loc t;
      if (m : bool)
      then rest ← scan c loc fuel' (Time_Add t Minute) need'; Ret (t :: rest)
      else scan c loc fuel' (Time_Add t Minute) need
  end.

Definition NextN (c : CronExpr) (loc : Location) (ref : Time) (n : Z) : outcome (list Time) :=
  panic_if (IsZero ref) "NextN: ref must not be zero";;
  panic_if (n <? 0) "NextN: n must not be negative";;
  panic_if (bool_decide (Minutes c = [])) "NextN: expression not initialized";;
  scan c loc (Z.to_nat maxScanMinutes) (Time_Add (Truncate ref Minute) Minute) (Z.to_nat n).

Example parse_basic : ParseCron "*/15 9-17 1,15 * 1" =
  Ret (MkCronExpr [0; 15; 30; 45] [9; 10; 11; 12; 13; 14; 15; 16; 17] [1; 15]
         [1; 2; 3; 4; 5; 6; 7; 8; 9; 10; 11; 12] [1] true true).
Proof. reflexivity. Qed.

Example parse_six : is_ret (ParseCron "0 */15 9-17 1 * 1") = false.
Proof. reflexivity. Qed.

(** The step of a field that starts at 1 can overflow the counter: the list
    then holds values outside the field's range. *)
Example step_overflow :
  parseField "*/9223372036854775807" 1 31 = Ret [1; int64_min; -1].
Proof. vm_compute. reflexivity. Qed.

(** ** The grammar of a field *)

(** [denotes min item t]: the comma-free [item] of a field whose values start
    at [min] allows the value [t]. *)
Inductive denotes (min : Z) : string → Z → Prop :=
  | den_star t : denotes min "*" t
  | den_step s n t :
      Atoi s = Some n → 0 < n → (n | t - min) → denotes min ("*/" +:+ s) t
  | den_range a b lo hi t :
      str_contains_char "-" a = false → Atoi a = Some lo → Atoi b = Some hi →
      lo ≤ t ≤ hi → denotes min (a +:+ String "-" b) t
  | den_value s t :
      str_contains_char "-" s = false → Atoi s = Some t → denotes min s t.

Lemma rangeInts_ok lo hi : lo ≤ hi ≤ 999 → rangeInts lo hi = Ret (seqZ lo (hi - lo + 1)).
Proof.
  intros H. unfold rangeInts. rewrite (proj2 (Z.ltb_ge hi lo)) by lia.
  by rewrite (proj2 (Z.ltb_ge 999 hi)) by lia.
Qed.

Lemma seqZ_range lo hi t : lo ≤ hi → t ∈ seqZ lo (hi - lo + 1) ↔ lo ≤ t ≤ hi.
Proof. intros. rewrite elem_of_seqZ. lia. Qed.

Lemma step_loop_spec max step fuel : ∀ i,
  0 < step → max + step ≤ int64_max → int64_min ≤ i → max - i < Z.of_nat fuel →
  ∃ l, step_loop fuel i max step = Some l ∧
    ∀ t, t ∈ l ↔ i ≤ t ≤ max ∧ (step | t - i).
Proof.
  induction fuel as [|fuel IH]; intros i Hs Hm Hi Hf; cbn [step_loop].
  { rewrite (proj2 (Z.ltb_lt max i)) by lia. exists []. split; [done|].
    intros t. rewrite elem_of_nil. lia. }
  destruct (Z.ltb_spec max i) as [Hlt|Hge].
  { exists []. split; [done|]. intros t. rewrite elem_of_nil. lia. }
  rewrite wrap64_id by (unfold in_int64, int64_min, int64_max in *; lia).
  destruct (IH (i + step)) as (l & -> & Hl); [lia..|].
  exists (i :: l). split; [done|]. intros t. rewrite elem_of_cons, Hl. split.
  - intros [->|[Ht [k Hk]]]; [split; [lia|exists 0; lia]|split; [lia|]].
    exists (k + 1). lia.
  - intros [Ht [k Hk]]. destruct (decide (t = i)) as [|Hne]; [by left|]. right.
    assert (0 < k) by nia. split; [nia|]. exists (k - 1). lia.
Qed.

Lemma step_loop_field min max step :
  0 ≤ min ≤ 1 → min ≤ max ≤ 59 → 0 < step ≤ int64_max →
  ∃ l, step_loop (Z.to_nat (max + 4)) min max step = Some l ∧ l ≠ [] ∧
    ∀ t, min ≤ t ≤ max → t ∈ l ↔ (step | t - min).
Proof.
  intros Hmin Hmax Hstep.
  destruct (decide (max + step ≤ int64_max)) as [Hno|Hbig].
  { destruct (step_loop_spec max step (Z.to_nat (max + 4)) min) as (l & Hl & Hin).
    { lia. } { done. } { unfold int64_min; lia. } { lia. }
    exists l. split_and!; [done| |].
    - intros ->. assert (min ∈ []) as Hn by (apply Hin; split; [lia|exists 0; lia]).
      by apply elem_of_nil in Hn.
    - intros t Ht. rewrite Hin. naive_solver lia. }
  assert (∀ t, min ≤ t ≤ max → (step | t - min) → t = min) as Hdiv.
  { intros t Ht [k Hk]. unfold int64_max in *. assert (k = 0); nia. }
  replace (Z.to_nat (max + 4)) with (S (S (S (Z.to_nat (max + 1))))) by lia.
  cbn [step_loop]. rewrite (proj2 (Z.ltb_ge max min)) by lia.
  destruct (decide (min + step ≤ int64_max)) as [Hfit|Hwrap].
  - rewrite (wrap64_id (min + step)) by (unfold in_int64, int64_min, int64_max in *; lia).
    rewrite (proj2 (Z.ltb_lt max (min + step))) by (unfold int64_max in *; lia).
    exists [min]. split_and!; [done..|]. intros t Ht. rewrite list_elem_of_singleton.
    split; [intros ->; exists 0; lia|by apply Hdiv].
  - assert (min = 1) as -> by lia. assert (step = int64_max) as -> by lia.
    change (wrap64 (1 + int64_max)) with int64_min.
    change (wrap64 (int64_min + int64_max)) with (-1).
    change (wrap64 (-1 + int64_max)) with (int64_max - 1).
    rewrite (proj2 (Z.ltb_ge max int64_min)) by (unfold int64_min; lia).
    rewrite (proj2 (Z.ltb_ge max (-1))) by lia.
    assert (step_loop (Z.to_nat (max + 1)) (int64_max - 1) max int64_max = Some []) as ->.
    { replace (Z.to_nat (max + 1)) with (S (Z.to_nat max)) by lia. cbn [step_loop].
      by rewrite (proj2 (Z.ltb_lt max (int64_max - 1))) by (unfold int64_max; lia). }
    exists [1; int64_min; -1]. split_and!; [done..|]. intros t Ht.
    rewrite !elem_of_cons, elem_of_nil. split.
    + intros [->|[->|[->|[]]]]; [exists 0; lia|unfold int64_min in *; lia..].
    + intros Hd. left. by apply Hdiv.
Qed.

Lemma splitn_dash s : str_contains_char "-" s = true →
  ∃ a b, s = a +:+ String "-" b ∧ str_contains_char "-" a = false ∧
    splitn_char "-" 2 s = [a; b].
Proof.
  assert (∀ s acc, str_contains_char "-" s = true →
    ∃ a b, s = a +:+ String "-" b ∧ str_contains_char "-" a = false ∧
      (fix go (t acc : string) : list string :=
         match t with
         | EmptyString => [String.rev acc]
         | String c t' =>
             if bool_decide (c = "-"%char)
             then String.rev acc :: splitn_char "-" 1 t'
             else go t' (String c acc)
         end) s acc = [String.rev acc +:+ a; b]) as Hgo.
  { clear s. induction s as [|c s IH]; intros acc Hc; [done|]. cbn in Hc.
    destruct (decide (c = "-"%char)) as [->|Hne].
    - exists "", s. split_and!; [done|done|]. rewrite bool_decide_eq_true_2 by done.
      by rewrite str_app_nil_r.
    - rewrite (bool_decide_eq_false_2 (c = "-"%char)) by done.
      rewrite (bool_decide_eq_false_2 ("-"%char = c)) in Hc by done.
      destruct (IH (String c acc) Hc) as (a & b & -> & Ha & ->).
      exists (String c a), b. split_and!; [done| |].
      + cbn. by rewrite bool_decide_eq_false_2 by done.
      + by rewrite str_rev_cons, str_app_assoc. }
  intros Hc. destruct (Hgo s EmptyString Hc) as (a & b & ? & ? & H). exists a, b.
  split_and!; [done..|exact H].
Qed.

Lemma Atoi_star s : Atoi (String "*" s) = None.
Proof. done. Qed.

Lemma Atoi_bounds s v : Atoi s = Some v → int64_min ≤ v ≤ int64_max.
Proof.
  unfold Atoi, in_int64. intros H. repeat case_match; simplify_eq; lia.
Qed.

Lemma substring_all s : String.substring 0 (String.length s) s = s.
Proof. induction s as [|c s IH]; [done|]. simpl. by rewrite IH. Qed.

Lemma str_drop_step s : str_drop 2 ("*/" +:+ s) = s.
Proof.
  unfold str_drop.
  change (String.substring 0 (String.length s - 0) s = s).
  rewrite Nat.sub_0_r. apply substring_all.
Qed.

Lemma HasPrefix_inv p : ∀ s, HasPrefix s p = true → ∃ s', s = p +:+ s'.
Proof.
  unfold HasPrefix. induction p as [|c p IH]; intros s H; [by exists s|].
  destruct s as [|d s]; [done|]. cbn in H. destruct (ascii_dec c d) as [->|]; [|done].
  destruct (IH s H) as [s' ->]. by exists s'.
Qed.

Lemma HasPrefix_app p s : HasPrefix (p +:+ s) p = true.
Proof.
  unfold HasPrefix. induction p as [|c p IH]; [by destruct s|].
  rewrite str_app_cons. cbn. by destruct (ascii_dec c c).
Qed.

Lemma str_contains_cons c d s :
  str_contains_char c (String d s) = bool_decide (c = d) || str_contains_char c s.
Proof. reflexivity. Qed.

Lemma str_contains_app c a b :
  str_contains_char c (a +:+ b) = str_contains_char c a || str_contains_char c b.
Proof.
  induction a as [|d a IH]; [done|].
  by rewrite str_app_cons, !str_contains_cons, IH, orb_assoc.
Qed.

Lemma splitn_dash_app a b :
  str_contains_char "-" a = false → splitn_char "-" 2 (a +:+ String "-" b) = [a; b].
Proof.
  intros Ha. destruct (splitn_dash (a +:+ String "-" b)) as (a' & b' & Heq & Ha' & ->).
  { by rewrite str_contains_app, orb_true_r. }
  assert (a = a' ∧ b = b') as [-> ->]; [|done].
  revert a' Heq Ha'. induction a as [|c a IH]; intros [|c' a'] Heq Ha';
    rewrite ?str_app_cons, ?str_app_nil_l in Heq;
    rewrite ?str_contains_cons in Ha, Ha'; injection Heq; clear Heq.
  { done. } { intros _ <-. done. } { intros _ ->. done. }
  intros Heq <-.
  apply orb_false_iff in Ha as [_ Ha]. apply orb_false_iff in Ha' as [_ Ha'].
  by destruct (IH Ha a' Heq Ha') as [-> ->].
Qed.

(** ** What a parsed field allows *)

Lemma parseFieldValue_spec value min max vs :
  0 ≤ min ≤ 1 → min ≤ max ≤ 59 → parseFieldValue value min max = Ret vs →
  vs ≠ [] ∧ ∀ t, min ≤ t ≤ max → t ∈ vs ↔ denotes min value t.
Proof.
  intros Hmin Hmax H. unfold parseFieldValue in H.
  apply bind_unit_ret_iff in H as [_ H]. apply bind_unit_ret_iff in H as [_ H].
  destruct (bool_decide_reflect (value = "*")) as [->|Hstar].
  { rewrite rangeInts_ok in H by lia. injection H as <-. split.
    - intros He%(f_equal length). rewrite length_seqZ in He. simpl in He. lia.
    - intros t Ht. rewrite seqZ_range by lia. split; [constructor|done]. }
  destruct (HasPrefix value "*/") eqn:Hpre.
  { apply HasPrefix_inv in Hpre as [s ->]. rewrite str_drop_step in H.
    destruct (Atoi s) as [n|] eqn:Hn; [|done]. destruct (Z.leb_spec n 0); [done|].
    pose proof (Atoi_bounds _ _ Hn).
    destruct (step_loop_field min max n) as (l & Hl & Hne & Hin); [lia..|].
    rewrite Hl in H. injection H as <-. split; [done|]. intros t Ht. rewrite Hin by done.
    split; [intros; by apply (den_step min s n)|]. intros Hd.
    remember ("*/" +:+ s) as v eqn:Hv.
    destruct Hd as [t|s' n' t Hn' _ Hdiv|a b lo hi t Ha Hlo|s' t _ Hs'].
    - done.
    - assert (s' = s) as -> by (by injection Hv). by rewrite Hn in Hn'; simplify_eq.
    - destruct a as [|c a]; [done|]. rewrite str_app_cons in Hv.
      injection Hv as -> _. done.
    - subst. done. }
  destruct (str_contains_char "-" value) eqn:Hdash.
  { destruct (splitn_dash value Hdash) as (a & b & -> & Ha & Hsp). rewrite Hsp in H.
    destruct (Atoi a) as [lo|] eqn:Hlo; [|done]. destruct (Atoi b) as [hi|] eqn:Hhi; [|done].
    destruct ((lo <? min) || (max <? hi) || (hi <? lo)) eqn:Hb; [done|].
    rewrite rangeInts_ok in H by lia. injection H as <-. split.
    - intros He%(f_equal length). rewrite length_seqZ in He. simpl in He. lia.
    - intros t Ht. rewrite seqZ_range by lia. split; [by apply den_range|].
      intros Hd. remember (a +:+ String "-" b) as v eqn:Hv. destruct Hd as [t|s n t|a' b' lo' hi' t Ha'|s t Hs].
      + done.
      + by rewrite HasPrefix_app in Hpre.
      + pose proof (splitn_dash_app a' b' Ha') as Hs2. rewrite Hs2 in Hsp. congruence.
      + congruence. }
  destruct (Atoi value) as [n|] eqn:Hn; [|done].
  destruct ((n <? min) || (max <? n)) eqn:Hb; [done|]. injection H as <-.
  split; [done|]. intros t Ht. rewrite list_elem_of_singleton. split.
  - intros ->. by apply den_value.
  - intros Hd. destruct Hd as [t|s m t|a b lo hi t Ha|s t Hs];
      [done|by rewrite HasPrefix_app in Hpre| |congruence].
    rewrite str_contains_app in Hdash. cbn in Hdash. by rewrite orb_true_r in Hdash.
Qed.

Lemma parse_parts_spec field parts min max : ∀ vs,
  0 ≤ min ≤ 1 → min ≤ max ≤ 59 → parse_parts field parts min max = Ret vs →
  (parts ≠ [] → vs ≠ []) ∧
  ∀ t, min ≤ t ≤ max → t ∈ vs ↔ ∃ item, item ∈ parts ∧ denotes min item t.
Proof.
  induction parts as [|p parts IH]; intros vs Hmin Hmax H; cbn in H.
  { injection H as <-. split; [done|]. intros t Ht. rewrite elem_of_nil.
    split; [done|]. by intros (? & ?%elem_of_nil & ?). }
  destruct (empty_str p); [done|]. apply bind_ret_iff in H as (v & Hv & H).
  apply bind_ret_iff in H as (rest & Hrest & [= <-]).
  destruct (parseFieldValue_spec _ _ _ _ Hmin Hmax Hv) as [Hne Hin].
  destruct (IH rest Hmin Hmax Hrest) as [_ Hr]. split.
  { intros _ [? ?]%app_eq_nil. done. }
  intros t Ht. rewrite elem_of_app, Hin, Hr by done. setoid_rewrite elem_of_cons. naive_solver.
Qed.

(** The values a field allows, over the range of its wall clock reading, are
    those one of its comma-separated items denotes. *)
Lemma parseField_values field min max vs :
  0 ≤ min ≤ 1 → min ≤ max ≤ 59 → parseField field min max = Ret vs →
  vs ≠ [] ∧ ∀ t, min ≤ t ≤ max →
    contains vs t = true ↔ ∃ item, item ∈ split_char "," field ∧ denotes min item t.
Proof.
  intros Hmin Hmax H. unfold parseField in H. destruct (empty_str field); [done|].
  apply bind_unit_ret_iff in H as [_ H].
  destruct (parse_parts_spec _ _ _ _ _ Hmin Hmax H) as [Hne Hin]. split.
  { apply Hne. destruct field; cbn; [done|]. repeat case_match; done. }
  intros t Ht. unfold contains. rewrite existsb_Exists, Exists_exists, <-Hin by done.
  setoid_rewrite Z.eqb_eq. naive_solver.
Qed.

(** ** Matching *)

(** [field_allows min field t]: the field of the expression allows [t]. *)
Definition field_allows (min : Z) (field : string) (t : Z) : Prop :=
  ∃ item, item ∈ split_char "," field ∧ denotes min item t.

(** The POSIX day rule, case by case. *)
Definition day_rule (dom dow : string) (d w : Z) : Prop :=
  match decide (dom = "*"), decide (dow = "*") with
  | left _, left _ => True
  | right _, left _ => field_allows 1 dom d
  | left _, right _ => field_allows 0 dow w
  | right _, right _ => field_allows 1 dom d ∨ field_allows 0 dow w
  end.

(** An instant matches when every field allows its wall clock reading. *)
Definition expr_allows (fs : list string) (loc : Location) (t : Time) : Prop :=
  match fs with
  | [f0; f1; f2; f3; f4] =>
      field_allows 0 f0 (Minute_of loc t) ∧ field_allows 0 f1 (Hour_of loc t) ∧
      field_allows 1 f3 (month (Date_of loc t)) ∧
      day_rule f2 f4 (day (Date_of loc t)) (Weekday_of loc t)
  | _ => False
  end.

Lemma star_allows min t : field_allows min "*" t.
Proof. exists "*". split; [left|constructor]. Qed.

Lemma ParseCron_inv expr c : ParseCron expr = Ret c →
  ∃ f0 f1 f2 f3 f4, Fields expr = [f0; f1; f2; f3; f4] ∧
    parseField f0 0 59 = Ret (Minutes c) ∧ parseField f1 0 23 = Ret (Hours c) ∧
    parseField f2 1 31 = Ret (DaysOfMonth c) ∧ parseField f3 1 12 = Ret (Months c) ∧
    parseField f4 0 6 = Ret (DaysOfWeek c) ∧
    dayOfMonthRestricted c = bool_decide (f2 ≠ "*") ∧
    dayOfWeekRestricted c = bool_decide (f4 ≠ "*").
Proof.
  unfold ParseCron. destruct (256 <? _); [done|].
  destruct (Fields expr) as [|f0 [|f1 [|f2 [|f3 [|f4 [|]]]]]]; try done.
  intros H. exists f0, f1, f2, f3, f4. split; [done|].
  apply bind_ret_iff in H as (v0 & H0 & H); apply wrap_err_ret_iff in H0.
  apply bind_ret_iff in H as (v1 & H1 & H); apply wrap_err_ret_iff in H1.
  apply bind_ret_iff in H as (v2 & H2 & H); apply wrap_err_ret_iff in H2.
  apply bind_ret_iff in H as (v3 & H3 & H); apply wrap_err_ret_iff in H3.
  apply bind_ret_iff in H as (v4 & H4 & H); apply wrap_err_ret_iff in H4.
  apply bind_unit_ret_iff in H as [_ [= <-]]. by split_and!.
Qed.

Lemma Matches_allows expr c loc t :
  ParseCron expr = Ret c → t ≠ zero_time →
  ∃ b, Matches c loc t = Ret b ∧ (b = true ↔ expr_allows (Fields expr) loc t).
Proof.
  intros Hp Ht. apply ParseCron_inv in Hp
    as (f0 & f1 & f2 & f3 & f4 & -> & H0 & H1 & H2 & H3 & H4 & Hdom & Hdow).
  apply parseField_values in H0 as [Hne H0]; [|lia..].
  apply parseField_values in H1 as [_ H1]; [|lia..].
  apply parseField_values in H2 as [_ H2]; [|lia..].
  apply parseField_values in H3 as [_ H3]; [|lia..].
  apply parseField_values in H4 as [_ H4]; [|lia..].
  unfold Matches, IsZero. rewrite (proj2 (Z.eqb_neq t zero_time)) by done.
  rewrite bool_decide_eq_false_2 by done. simpl. eexists. split; [done|].
  pose proof (wall_clock_ranges loc t) as (? & ? & ? & ? & ?).
  rewrite !andb_true_iff, H0, H1, H3 by done. fold (field_allows 0 f0 (Minute_of loc t)).
  fold (field_allows 0 f1 (Hour_of loc t)) (field_allows 1 f3 (month (Date_of loc t))).
  assert (dayMatches c loc t = true ↔
    day_rule f2 f4 (day (Date_of loc t)) (Weekday_of loc t)) as ->.
  2: { cbn [expr_allows]. clear. generalize (field_allows 0 f0 (Minute_of loc t)). tauto. }
  unfold dayMatches, day_rule. rewrite Hdom, Hdow.
  specialize (H2 (day (Date_of loc t))). specialize (H4 (Weekday_of loc t)).
  fold (field_allows 1 f2 (day (Date_of loc t))) in H2.
  fold (field_allows 0 f4 (Weekday_of loc t)) in H4.
  destruct (decide (f2 = "*")) as [->|Hf2], (decide (f4 = "*")) as [->|Hf4];
    repeat (rewrite bool_decide_eq_true_2 by done || rewrite bool_decide_eq_false_2 by naive_solver);
    simpl; rewrite ?andb_true_iff, ?orb_true_iff, H2, H4 by done; [| | |done];
    split; auto using star_allows; intros [? ?]; done.
Qed.

(** ** The scan *)

Definition minute_after (t : Time) (k : nat) : Time := t + Z.of_nat k * Minute.

(** The reference: the matching minutes of the horizon, the first [need]. *)
Lemma scan_filter c loc (p : Time → bool) fuel : ∀ t need,
  (∀ k, (k < fuel)%nat → Matches c loc (minute_after t k) = Ret (p (minute_after t k))) →
  scan c loc fuel t need =
    Ret (take need (List.filter p (minute_after t <$> seq 0 fuel))).
Proof.
  induction fuel as [|fuel IH]; intros t need Hm; [by destruct need|].
  assert (minute_after t <$> seq 0 (S fuel) =
    t :: (minute_after (Time_Add t Minute) <$> seq 0 fuel)) as ->.
  { cbn [seq]. csimpl. f_equal; [unfold minute_after; lia|].
    rewrite <-fmap_S_seq, <-list_fmap_compose. apply list_fmap_ext.
    intros i x _. unfold minute_after, Time_Add. cbn -[Z.of_nat Minute]. lia. }
  destruct need as [|need]; [done|]. cbn [scan].
  pose proof (Hm 0%nat ltac:(lia)) as H0. unfold minute_after in H0.
  rewrite Z.mul_0_l, Z.add_0_r in H0. rewrite H0. simpl.
  assert (∀ n, scan c loc fuel (Time_Add t Minute) n = Ret (take n
    (List.filter p (minute_after (Time_Add t Minute) <$> seq 0 fuel)))) as IH'.
  { intros n. apply IH. intros k Hk. specialize (Hm (S k) ltac:(lia)).
    unfold minute_after, Time_Add in *.
    replace (t + Minute + Z.of_nat k * Minute) with (t + Z.of_nat (S k) * Minute) by lia.
    done. }
  destruct (p t); rewrite IH'; done.
Qed.

(** [l] holds the first [n] instants satisfying [P] among the whole minutes in
    [(ref, ref + horizon]]. *)
Record first_minutes (P : Time → Prop) (ref : Time) (n : nat) (l : list Time) : Prop := {
  fm_sorted : StronglySorted Z.lt l;
  fm_length : (length l ≤ n)%nat;
  fm_sound : ∀ t, t ∈ l → P t ∧ t mod Minute = 0 ∧
    ref < t ≤ ref + maxScanMinutes * Minute;
  fm_complete : ∀ t, P t → t mod Minute = 0 → ref < t ≤ ref + maxScanMinutes * Minute →
    t ∈ l ∨ (length l = n ∧ ∀ u, u ∈ l → u < t);
}.

Lemma minutes_sorted t n : StronglySorted Z.lt (minute_after t <$> seq 0 n).
Proof.
  assert (∀ k, StronglySorted Z.lt (minute_after t <$> seq k n)) as H; [|apply H].
  induction n as [|n IH]; intros k; cbn [seq]; csimpl; constructor; [apply IH|].
  apply Forall_forall. intros u (j & -> & [? ?]%elem_of_seq)%list_elem_of_fmap.
  unfold minute_after. assert (0 < Minute) by done. nia.
Qed.

Lemma filter_sorted {A} (R : A → A → Prop) p (l : list A) :
  StronglySorted R l → StronglySorted R (List.filter p l).
Proof.
  induction 1 as [|x l Hs IH Hf]; simpl; [constructor|].
  case_match; [|done]. constructor; [done|]. rewrite Forall_forall in *.
  intros y Hy%list_elem_of_In%List.filter_In. apply Hf, list_elem_of_In. naive_solver.
Qed.

Lemma take_sorted {A} (R : A → A → Prop) n (l : list A) :
  StronglySorted R l → StronglySorted R (take n l).
Proof.
  intros H. revert n. induction H as [|x l Hs IH Hf]; intros [|n]; simpl; constructor; [done|].
  by apply Forall_take.
Qed.

Lemma take_complete n (l : list Z) t :
  StronglySorted Z.lt l → t ∈ l →
  t ∈ take n l ∨ (length (take n l) = n ∧ ∀ u, u ∈ take n l → u < t).
Proof.
  intros H. revert n. induction H as [|x l Hs IH Hf]; intros n Ht; [by apply elem_of_nil in Ht|].
  destruct n as [|n]; simpl; [right; split; [done|by intros u ?%elem_of_nil]|].
  apply elem_of_cons in Ht as [->|Ht]; [left; left|].
  destruct (IH n Ht) as [?|[Hlen Hlt]]; [left; by right|right]. split; [lia|].
  intros u [->|Hu]%elem_of_cons; [|auto]. rewrite Forall_forall in Hf. auto.
Qed.

Lemma minute_grid ref t :
  let start := Time_Add (Truncate ref Minute) Minute in
  (∃ k, (k < Z.to_nat maxScanMinutes)%nat ∧ t = minute_after start k) ↔
  t mod Minute = 0 ∧ ref < t ≤ Truncate ref Minute + maxScanMinutes * Minute.
Proof.
  intros start. destruct (Truncate_minute ref) as [Hb Hz].
  assert (0 < Minute) as Hm by done. subst start. unfold Time_Add, minute_after.
  assert (0 < maxScanMinutes) by done. apply Z.mod_divide in Hz as [q Hq]; [|lia]. split.
  - intros (k & Hk & ->). split; [|nia].
    apply Z.mod_divide; [lia|]. exists (q + 1 + Z.of_nat k). lia.
  - intros [[r Hr]%Z.mod_divide Ht]; [|lia].
    exists (Z.to_nat (r - q - 1)). assert (q + 1 ≤ r) by nia.
    assert (r ≤ q + maxScanMinutes) by nia. split; [lia|]. rewrite Z2Nat.id by lia. lia.
Qed.

(** [NextN] of a parsed expression: the first [n] matching minutes after the
    reference instant, within the scan's horizon. *)
Lemma NextN_first expr c loc ref n :
  ParseCron expr = Ret c → zero_time < ref → 0 ≤ n →
  ∃ l, NextN c loc ref n = Ret l ∧
    first_minutes (expr_allows (Fields expr) loc) ref (Z.to_nat n) l.
Proof.
  intros Hp Href Hn. destruct (Truncate_minute ref) as [Htr Htz].
  assert (Minutes c ≠ []) as Hne.
  { apply ParseCron_inv in Hp as (f0 & ? & ? & ? & ? & _ & H0 & _).
    by apply parseField_values in H0 as [? _]; [|lia..]. }
  set (start := Time_Add (Truncate ref Minute) Minute).
  set (p := λ t, match Matches c loc t with Ret b => b | _ => false end).
  assert (∀ t, zero_time < t →
    Matches c loc t = Ret (p t) ∧ (p t = true ↔ expr_allows (Fields expr) loc t)) as Hmatch.
  { intros t Ht. destruct (Matches_allows expr c loc t Hp) as (b & Hb & Hiff); [lia|].
    subst p. simpl. by rewrite Hb. }
  assert (∀ k, zero_time < minute_after start k) as Hafter.
  { intros k. unfold minute_after, start, Time_Add. assert (0 < Minute) by done. nia. }
  eexists. split.
  - unfold NextN, IsZero. rewrite (proj2 (Z.eqb_neq ref zero_time)) by lia.
    rewrite (proj2 (Z.ltb_ge n 0)) by lia. rewrite bool_decide_eq_false_2 by done.
    cbn [mbind outcome_bind panic_if].
    apply (scan_filter c loc p). intros k _. apply Hmatch, Hafter.
  - set (all := minute_after start <$> seq 0 (Z.to_nat maxScanMinutes)).
    assert (∀ t, t ∈ all ↔ t mod Minute = 0 ∧
      ref < t ≤ Truncate ref Minute + maxScanMinutes * Minute) as Hall.
    { intros t. rewrite <-minute_grid. subst all. rewrite list_elem_of_fmap.
      setoid_rewrite elem_of_seq. fold start. naive_solver lia. }
    split.
    + apply take_sorted, filter_sorted, minutes_sorted.
    + rewrite length_take. lia.
    + intros t Ht%elem_of_take. destruct Ht as (i & Hi & _).
      apply list_elem_of_lookup_2, list_elem_of_In, List.filter_In in Hi as [Hi Hpt].
      apply list_elem_of_In, Hall in Hi as [? ?]. split; [|lia].
      apply Hmatch in Hpt; [done|lia].
    + intros t HP Hz Ht. apply take_complete; [apply filter_sorted, minutes_sorted|].
      apply list_elem_of_In, List.filter_In. rewrite <-list_elem_of_In. split.
      * apply Hall. split; [done|]. apply Z.mod_divide in Hz as [r Hr]; [|done].
        apply Z.mod_divide in Htz as [q Hq]; [|done]. assert (0 < Minute) by done.
        assert (r ≤ q + maxScanMinutes); nia.
      * apply Hmatch; [lia|done].
Qed.

(** ** No input makes the parser panic *)

Lemma parseFieldValue_no_panic value min max :
  value ≠ "" → 0 ≤ min ≤ 1 → min ≤ max ≤ 59 →
  is_panic (parseFieldValue value min max) = false.
Proof.
  intros Hv Hmin Hmax. unfold parseFieldValue.
  rewrite (proj2 (empty_str_false value)) by done.
  rewrite (proj2 (Z.ltb_ge max min)) by lia. cbn [mbind outcome_bind panic_if].
  case_bool_decide; [by rewrite rangeInts_ok by lia|].
  destruct (HasPrefix value "*/").
  { destruct (Atoi (str_drop 2 value)) as [n|] eqn:Hn; [|done].
    destruct (Z.leb_spec n 0); [done|]. pose proof (Atoi_bounds _ _ Hn).
    destruct (step_loop_field min max n) as (l & -> & _); [lia..|done]. }
  destruct (str_contains_char "-" value) eqn:Hd.
  { destruct (splitn_dash value Hd) as (a & b & _ & _ & ->).
    destruct (Atoi a) as [lo|]; [|done]. destruct (Atoi b) as [hi|]; [|done].
    destruct (_ || _) eqn:Hb; [done|]. by rewrite rangeInts_ok by lia. }
  destruct (Atoi value); [by case_match|done].
Qed.

Lemma parseField_no_panic field min max :
  0 ≤ min ≤ 1 → min ≤ max ≤ 59 → is_panic (parseField field min max) = false.
Proof.
  intros Hmin Hmax. unfold parseField. destruct (empty_str field); [done|].
  rewrite (proj2 (Z.ltb_ge max min)) by lia. cbn [mbind outcome_bind panic_if].
  induction (split_char "," field) as [|p ps IH]; [done|]. cbn [parse_parts].
  destruct (empty_str p) eqn:Hp; [done|]. apply empty_str_false in Hp.
  pose proof (parseFieldValue_no_panic p min max Hp Hmin Hmax) as Hv.
  destruct (parseFieldValue p min max); [|done..]. cbn [mbind outcome_bind].
  by destruct (parse_parts field ps min max).
Qed.

Lemma ParseCron_no_panic expr : is_panic (ParseCron expr) = false.
Proof.
  unfold ParseCron. destruct (256 <? _); [done|].
  destruct (Fields expr) as [|f0 [|f1 [|f2 [|f3 [|f4 [|]]]]]]; try done.
  pose proof (parseField_no_panic f0 0 59). pose proof (parseField_no_panic f1 0 23).
  pose proof (parseField_no_panic f2 1 31). pose proof (parseField_no_panic f3 1 12).
  pose proof (parseField_no_panic f4 0 6).
  destruct (parseField f0 0 59) as [v0| |] eqn:E0; [|done|naive_solver lia].
  destruct (parseField f1 0 23) as [v1| |] eqn:E1; [|done|naive_solver lia].
  destruct (parseField f2 1 31); [|done|naive_solver lia].
  destruct (parseField f3 1 12); [|done|naive_solver lia].
  destruct (parseField f4 0 6); [|done|naive_solver lia].
  apply parseField_values in E0 as [? _]; [|lia..].
  apply parseField_values in E1 as [? _]; [|lia..].
  cbn [mbind outcome_bind wrap_err].
  rewrite (bool_decide_eq_false_2 (v0 = [])), (bool_decide_eq_false_2 (v1 = [])) by done.
  done.
Qed.
