(* ===== verification/Schema.v ===== *)
(** * JSON schemas of workflow inputs and outputs (dag/schema.go,
    dag/output_schema.go)

    A schema node has a type, required keys and property schemas.  The
    properties are a Go map; the association list [sn_Properties] is the map
    in the order it is iterated, which only decides which of several errors
    is reported.  [validateNode_iff] shows that validation accepts exactly
    the values that conform to the schema. *)

From S2P Require Import Prelude Json Types.

(** ** Schemas and their decoding *)

Inductive schemaNode : Type := MkSchemaNode {
  sn_Type : string;
  sn_Required : list string;
  sn_Properties : list (string * schemaNode);
}.

Definition zero_schemaNode : schemaNode := MkSchemaNode "" [] [].

(** [m[k] = v] on the association list. *)
Fixpoint assoc_set {A} (k : string) (v : A) (l : list (string * A)) : list (string * A) :=
  match l with
  | [] => [(k, v)]
  | (k', v') :: l' =>
      if bool_decide (k = k') then (k, v) :: l' else (k', v') :: assoc_set k v l'
  end.

(** [json.Unmarshal] into a [schemaNode]. *)
Fixpoint dec_schema (v : json) : outcome schemaNode :=
  match v with
  | JNull => Ret zero_schemaNode
  | JObj fs =>
      (fix fields (fs : list (string * json)) (s : schemaNode) : outcome schemaNode :=
         match fs with
         | [] => Ret s
         | (k, w) :: fs' =>
             if bool_decide (ToLower k = "type") then
               t ← dec_string (sn_Type s) w;
               fields fs' (MkSchemaNode t (sn_Required s) (sn_Properties s))
             else if bool_decide (ToLower k = "required") then
               r ← dec_strings (sn_Required s) w;
               fields fs' (MkSchemaNode (sn_Type s) r (sn_Properties s))
             else if bool_decide (ToLower k = "properties") then
               p ← match w with
                   | JNull => Ret []
                   | JObj ps =>
                       (fix props (ps : list (string * json))
                            (acc : list (string * schemaNode))
                          : outcome (list (string * schemaNode)) :=
                          match ps with
                          | [] => Ret acc
                          | (pk, pv) :: ps' =>
                              n ← dec_schema pv; props ps' (assoc_set pk n acc)
                          end) ps (sn_Properties s)
                   | _ => Err (err_json "cannot unmarshal value into map")
                   end;
               fields fs' (MkSchemaNode (sn_Type s) (sn_Required s) p)
             else fields fs' s
         end) fs zero_schemaNode
  | _ => Err (err_json "cannot unmarshal value into schemaNode")
  end.

Definition unmarshal_schema (r : raw) : outcome schemaNode :=
  match r with
  | RawBad _ => Err (err_json "invalid character or unexpected end of JSON input")
  | RawJson v => dec_schema v
  end.

(** ** Validation *)

Definition jsonType (v : json) : string :=
  match v with
  | JStr _ => "string"
  | JInt _ | JDec _ _ => "number"
  | JBool _ => "boolean"
  | JObj _ => "object"
  | JArr _ => "array"
  | JNull => "null"
  end.

Definition checkType (expected : string) (value : json) (path : string) : outcome unit :=
  let actual := jsonType value in
  fail_if (negb (bool_decide (actual = expected)))
    (Errorf "%s: expected type %q, got %q"
       [AStr (if empty_str path then "(root)" else path); AStr expected; AStr actual]).

Definition child_path (path key : string) : string :=
  if empty_str path then key else path +:+ "." +:+ key.

(** [validateNode] *)
Fixpoint validateNode (s : schemaNode) (value : json) (path : string) : outcome unit :=
  match s with
  | MkSchemaNode ty required properties =>
      (if empty_str ty then Ret tt else checkType ty value path);;
      match value with
      | JObj obj =>
          for_each (λ key,
            fail_if (bool_decide (obj_get key obj = None))
              (Errorf "%s: missing required field %q" [AStr path; AStr key])) required;;
          (fix props (l : list (string * schemaNode)) : outcome unit :=
             match l with
             | [] => Ret tt
             | (key, propSchema) :: l' =>
                 (match obj_get key obj with
                  | None => Ret tt
                  | Some val => validateNode propSchema val (child_path path key)
                  end);;
                 props l'
             end) properties
      | _ => Ret tt
      end
  end.

(** [ValidateSchema]; a nil schema accepts everything. *)
Definition ValidateSchema (schema : option raw) (data : raw) : outcome unit :=
  match schema with
  | None => Ret tt
  | Some sch =>
      s ← wrap_err (λ e, Errorf "invalid schema: %w" [AErr e]) (unmarshal_schema sch);
      value ← wrap_err (λ e, Errorf "invalid data: %w" [AErr e]) (unmarshal_any data);
      validateNode s value ""
  end.

Definition opt_empty (r : option raw) : bool :=
  match r with None => true | Some r => raw_empty r end.

(** [validateOutputSchema] *)
Definition validateOutputSchema (def : WorkflowDef) : outcome unit :=
  panic_if (empty_str (wd_Name def)) "validateOutputSchema: workflow name is empty";;
  panic_if (bool_decide (wd_Steps def = [])) "validateOutputSchema: workflow has no steps";;
  match wd_OutputSchema def with
  | None => Ret tt
  | Some r =>
      if raw_empty r then Ret tt
      else
        wrap_err (λ e, Errorf "workflow %q output_schema is invalid: %w"
                         [AStr (wd_Name def); AErr e])
          (s ← unmarshal_schema r; Ret tt)
  end.

(** [ValidateRunOutput]: the offending step with the violation. *)
Fixpoint check_outputs (schema : option raw) (hasDependents : gmap string bool)
    (steps : gmap string StepState) (l : list StepDef) : string * outcome unit :=
  match l with
  | [] => ("", Ret tt)
  | step :: l' =>
      let state := step_at steps (sd_ID step) in
      if is_set hasDependents (sd_ID step) ||
         negb (bool_decide (ss_Status state = StepStatusCompleted)) ||
         opt_empty (ss_Output state)
      then check_outputs schema hasDependents steps l'
      else match ss_Output state with
           | None => check_outputs schema hasDependents steps l'
           | Some out =>
               match ValidateSchema schema out with
               | Ret _ => check_outputs schema hasDependents steps l'
               | e => (sd_ID step, e)
               end
           end
  end.

Definition has_dependents (steps : list StepDef) : gmap string bool :=
  foldl (λ m step, foldl (λ m dep, <[dep := true]> m) m (sd_DependsOn step)) ∅ steps.

Definition ValidateRunOutput (def : WorkflowDef) (steps : gmap string StepState)
    : string * outcome unit :=
  if opt_empty (wd_OutputSchema def) then ("", Ret tt)
  else check_outputs (wd_OutputSchema def) (has_dependents (wd_Steps def)) steps
         (wd_Steps def).

(** ** What it means to conform *)

(** The specification, by cases on what a schema demands of a value. *)
Inductive conforms : schemaNode → json → Prop :=
  | conforms_intro ty required properties v :
      (ty = "" ∨ ty = jsonType v) →
      (∀ obj key, v = JObj obj → key ∈ required → is_Some (obj_get key obj)) →
      (∀ obj key s w, v = JObj obj → (key, s) ∈ properties →
         obj_get key obj = Some w → conforms s w) →
      conforms (MkSchemaNode ty required properties) v.

(** Induction over schemas, through the properties. *)
Lemma schema_ind (P : schemaNode → Prop) :
  (∀ ty req props, Forall (λ p, P p.2) props → P (MkSchemaNode ty req props)) →
  ∀ s, P s.
Proof.
  intros HP. fix IH 1. intros [ty req props]. apply HP.
  induction props as [|[k s] props IHp]; constructor; [apply IH|exact IHp].
Qed.

Lemma validate_props_iff obj path props :
  (fix go (l : list (string * schemaNode)) : outcome unit :=
     match l with
     | [] => Ret tt
     | (key, propSchema) :: l' =>
         (match obj_get key obj with
          | None => Ret tt
          | Some val => validateNode propSchema val (child_path path key)
          end);;
         go l'
     end) props = Ret tt ↔
  ∀ key s w, (key, s) ∈ props → obj_get key obj = Some w →
    validateNode s w (child_path path key) = Ret tt.
Proof.
  induction props as [|[k s] props IH].
  { split; [by intros _ ? ? ? ?%elem_of_nil|done]. }
  rewrite bind_unit_ret_iff, IH. setoid_rewrite elem_of_cons. split.
  - intros [Hk Hr] key s' w [[= -> ->]|Hin] Hw; [by rewrite Hw in Hk|eauto].
  - intros H. split; [|eauto]. destruct (obj_get k obj) eqn:?; eauto.
Qed.

Lemma validateNode_unfold s value path :
  validateNode s value path = Ret tt ↔
  (sn_Type s = "" ∨ sn_Type s = jsonType value) ∧
  (∀ obj key, value = JObj obj → key ∈ sn_Required s → is_Some (obj_get key obj)) ∧
  (∀ obj key p w, value = JObj obj → (key, p) ∈ sn_Properties s →
     obj_get key obj = Some w → validateNode p w (child_path path key) = Ret tt).
Proof.
  destruct s as [ty req props]. cbn [validateNode sn_Type sn_Required sn_Properties].
  rewrite bind_unit_ret_iff.
  assert ((if empty_str ty then Ret tt else checkType ty value path) = Ret tt ↔
          ty = "" ∨ ty = jsonType value) as ->.
  { unfold empty_str, checkType. case_bool_decide; [naive_solver|].
    rewrite fail_if_ret_iff, negb_false_iff, bool_decide_eq_true. naive_solver. }
  apply and_iff_compat_l. destruct value; try (split; [by split|done]).
  rewrite bind_unit_ret_iff, for_each_ret_iff, Forall_forall, validate_props_iff.
  setoid_rewrite fail_if_ret_iff. setoid_rewrite bool_decide_eq_false.
  setoid_rewrite <-not_eq_None_Some. naive_solver.
Qed.

(** Validation accepts exactly the values that conform, at every path. *)
Lemma validateNode_conforms s : ∀ value path,
  validateNode s value path = Ret tt ↔ conforms s value.
Proof.
  induction s as [ty req props IH] using schema_ind. intros value path.
  rewrite Forall_forall in IH. rewrite validateNode_unfold. cbn. split.
  - intros (? & ? & Hp). constructor; [done..|]. intros obj key s w -> Hin Hw.
    apply (IH (key, s) Hin _ (child_path path key)). eauto.
  - inversion 1 as [? ? ? ? Ht Hr Hp]; subst. split_and!; [done..|].
    intros obj key s w -> Hin Hw. apply (IH (key, s) Hin). eauto.
Qed.
