(* ===== verification/Validate.v ===== *)
(** * Workflow validation (dag/validate.go and the validators it calls)

    [Validate] runs the checks of dag/validate.go, ratelimit.go, planner.go,
    approval.go, subworkflow.go, sleep.go, waitforevent.go, task_type.go and
    output_schema.go in the order of the source; the [panic] assertions of the
    validators are kept.  Two choices are left to the runtime and are
    parameters: the iteration order of Go maps and the tz database behind
    [time.LoadLocation].

    What acceptance means is the subject of ValidateSpec. *)

From S2P Require Import Prelude Float64 Json Types Config Condition Graph GoTime Cron Schema.
From Stdlib Require Import Ascii.
From stdpp Require Import relations.

#[local] Open Scope Z_scope.

(** ** Constants *)

Definition RetryAttemptCountMax : Z := 100000.
Definition RetryMultiplierMax : Z := 100.
Definition taskTypeLenMax : Z := 128.
Definition maxApprovalTimeout : Z := 168 * Hour.
Definition maxSleepDuration : Z := 365 * 24 * Hour.

Abbreviation idset := (gmap string bool).

(** [step %q: ...] *)
Definition step_err (msg : string) (step : StepDef) : error := Errorf msg [AStr (sd_ID step)].

Definition nil_steps (def : WorkflowDef) : bool := bool_decide (wd_Steps def = []).

(** ** Task types (dag/task_type.go) *)

Definition task_char (c : ascii) : bool :=
  in_range "A" "Z" c || in_range "a" "z" c || in_range "0" "9" c ||
  bool_decide (c = "_"%char) || bool_decide (c = "-"%char).

(** The byte loop of [ValidTaskType]: [prev] is [s[i-1]], absent at 0. *)
Fixpoint task_type_loop (s : string) (prev : option ascii) (i : nat) (l : list ascii)
    : outcome unit :=
  match l with
  | [] => Ret tt
  | c :: l' =>
      if task_char c then task_type_loop s (Some c) (S i) l'
      else if bool_decide (c = "."%char) then
        match prev with
        | None => Panic "index out of range"
        | Some p =>
            if bool_decide (p = "."%char)
            then Err (Errorf "task type %q has an empty token" [AStr s])
            else task_type_loop s (Some c) (S i) l'
        end
      else Err (Errorf "task type %q contains disallowed byte %q at position %d"
                  [AStr s; AStr (String c ""); AInt (Z.of_nat i)])
  end.

Definition starts_with_dot (l : list ascii) : bool :=
  match l with c :: _ => bool_decide (c = "."%char) | [] => false end.
Definition ends_with_dot (l : list ascii) : bool := starts_with_dot (reverse l).

Definition ValidTaskType (s : string) : outcome unit :=
  let l := str_list s in
  fail_if (empty_str s) (Errorf "task type must not be empty" []);;
  fail_if (taskTypeLenMax <? Z.of_nat (length l))
    (Errorf "task type %q is %d bytes (max %d)"
       [AStr s; AInt (Z.of_nat (length l)); AInt taskTypeLenMax]);;
  fail_if (starts_with_dot l || ends_with_dot l)
    (Errorf "task type %q must not start or end with '.'" [AStr s]);;
  task_type_loop s None 0 l.

Definition ValidWorkerGroup (s : string) : outcome unit :=
  ValidTaskType s;;
  fail_if (str_contains_char "." s)
    (Errorf "worker group %q must not contain '.'" [AStr s]).

(** ** Single-step validators *)

Definition stepRequiresTask (t : StepType) : bool :=
  match t with
  | StepTypeNormal | StepTypeAgentLoop | StepTypeAgent | StepTypeMap | StepTypePlanner => true
  | StepTypeSleep | StepTypeWaitForEvent | StepTypeApproval | StepTypeSubWorkflow => false
  | _ => false
  end.

Definition task_missing (step : StepDef) : bool :=
  empty_str (sd_Task step) && stepRequiresTask (sd_Type step).

(** The two assertions shared by the per-step validators. *)
Definition assert_step (who : string) (step : StepDef) : outcome unit :=
  panic_if (empty_str (sd_ID step)) (who +:+ ": step ID is empty");;
  panic_if (task_missing step) (who +:+ ": step task is empty").

Definition validateStepDispatch (step : StepDef) : outcome unit :=
  assert_step "validateStepDispatch" step;;
  if empty_str (sd_Task step) then Ret tt
  else
    wrap_err (λ e, Errorf "step %q has invalid task: %w" [AStr (sd_ID step); AErr e])
      (ValidTaskType (sd_Task step));;
    if empty_str (sd_WorkerGroup step) then Ret tt
    else
      wrap_err (λ e, Errorf "step %q has invalid worker_group: %w"
                       [AStr (sd_ID step); AErr e])
        (ValidWorkerGroup (sd_WorkerGroup step)).

Definition validateLoopConfig (step : StepDef) : outcome unit :=
  assert_step "validateLoopConfig" step;;
  if empty_str (sd_Task step) then Ret tt
  else if bool_decide (sd_Type step = StepTypeAgentLoop) then
    cfg ← wrap_err (λ e, Errorf "step %q is AgentLoop but Config is invalid: %w"
                           [AStr (sd_ID step); AErr e])
            (ParseAgentLoopConfig step);
    fail_if (al_MaxIterations cfg <=? 0)
      (Errorf "step %q is AgentLoop but MaxIterations is %d (must be > 0)"
         [AStr (sd_ID step); AInt (al_MaxIterations cfg)])
  else Ret tt.

Definition validateMapConfig (step : StepDef) : outcome unit :=
  assert_step "validateMapConfig" step;;
  if empty_str (sd_Task step) then Ret tt
  else if negb (bool_decide (sd_Type step = StepTypeMap)) then Ret tt
  else
    cfg ← ParseMapConfig step;
    fail_if (negb (Nat.eqb (length (sd_DependsOn step)) 1))
      (Errorf "step %q is Map but has %d dependencies (must have exactly one)"
         [AStr (sd_ID step); AInt (Z.of_nat (length (sd_DependsOn step)))]);;
    fail_if (mc_MaxItems cfg <=? 0)
      (Errorf "step %q is Map but MaxItems is %d (must be > 0)"
         [AStr (sd_ID step); AInt (mc_MaxItems cfg)]);;
    fail_if (10000 <? mc_MaxItems cfg)
      (Errorf "step %q is Map but MaxItems is %d (must be <= 10000)"
         [AStr (sd_ID step); AInt (mc_MaxItems cfg)]).

Definition validateMapNesting (step : StepDef) (stepTypes : gmap string StepType)
    : outcome unit :=
  panic_if (empty_str (sd_ID step)) "validateMapNesting: step ID is empty";;
  panic_if (negb (bool_decide (sd_Type step = StepTypeMap)))
    "validateMapNesting: called on non-Map step";;
  for_each (λ dep,
    fail_if (bool_decide (default StepTypeNormal (stepTypes !! dep) = StepTypeMap))
      (Errorf "step %q is Map and depends on %q which is also Map (nesting not supported)"
         [AStr (sd_ID step); AStr dep])) (sd_DependsOn step).

Definition validateSkipIf (step : StepDef) : outcome unit :=
  assert_step "validateSkipIf" step;;
  if empty_str (sd_Task step) then Ret tt
  else match sd_SkipIf step with
  | None => Ret tt
  | Some c =>
      fail_if (negb (valid_op (pc_Op c)))
        (Errorf "step %q SkipIf has invalid operator %q" [AStr (sd_ID step); AStr (pc_Op c)]);;
      fail_if (empty_str (pc_StepID c)) (step_err "step %q SkipIf has empty StepID" step);;
      fail_if (negb (bool_decide (pc_StepID c ∈ sd_DependsOn step)))
        (Errorf "step %q SkipIf references %q which is not in DependsOn"
           [AStr (sd_ID step); AStr (pc_StepID c)])
  end.

Definition validateSubWorkflowConfig (step : StepDef) : outcome unit :=
  panic_if (empty_str (sd_ID step)) "validateSubWorkflowConfig: step.ID must not be empty";;
  if negb (bool_decide (sd_Type step = StepTypeSubWorkflow)) then Ret tt
  else
    cfg ← wrap_err (λ e, Errorf "step %q: invalid sub-workflow config: %w"
                           [AStr (sd_ID step); AErr e]) (ParseSubWorkflowConfig step);
    fail_if (empty_str (sw_Workflow cfg))
      (step_err "step %q: sub-workflow config must have non-empty Workflow" step).

Definition checkSleepBound (d : Z) : outcome unit :=
  panic_if (maxSleepDuration <=? 0) "checkSleepBound: maxSleepDuration must be positive";;
  panic_if (d <? 0) "checkSleepBound: duration must not be negative";;
  fail_if (maxSleepDuration <? d)
    (Errorf "sleep duration %v exceeds max %v" [AInt d; AInt maxSleepDuration]).

Section Zones.
Context (LoadLocation : string → outcome Location).

Definition validateSleepStep (step : StepDef) : outcome unit :=
  panic_if (empty_str (sd_ID step)) "validateSleepStep: step.ID must not be empty";;
  panic_if (maxSleepDuration <=? 0) "validateSleepStep: maxSleepDuration must be positive";;
  if negb (bool_decide (sd_Type step = StepTypeSleep)) then Ret tt
  else
    cfg ← wrap_err (λ e, Errorf "step %q: invalid sleep config: %w"
                           [AStr (sd_ID step); AErr e]) (ParseSleepConfig step);
    if negb (empty_str (sl_Cron cfg)) then
      _ ← wrap_err (λ e, Errorf "step %q: invalid sleep cron: %w"
                           [AStr (sd_ID step); AErr e]) (ParseCron (sl_Cron cfg));
      if negb (empty_str (sl_CronTimezone cfg)) then
        _ ← wrap_err (λ e, Errorf "step %q: invalid sleep cron_timezone: %w"
                             [AStr (sd_ID step); AErr e])
              (LoadLocation (sl_CronTimezone cfg));
        Ret tt
      else Ret tt
    else if negb (empty_str (sl_UntilInputPath cfg)) then Ret tt
    else
      fail_if (sl_Duration cfg <=? 0)
        (Errorf "step %q: sleep duration must be positive, got %v"
           [AStr (sd_ID step); AInt (sl_Duration cfg)]);;
      wrap_err (λ e, Errorf "step %q: %w" [AStr (sd_ID step); AErr e])
        (checkSleepBound (sl_Duration cfg)).

Definition validateApprovalStep (step : StepDef) : outcome unit :=
  panic_if (empty_str (sd_ID step)) "validateApprovalStep: step.ID must not be empty";;
  if negb (bool_decide (sd_Type step = StepTypeApproval)) then Ret tt
  else
    cfg ← wrap_err (λ e, Errorf "step %q: invalid approval config: %w"
                           [AStr (sd_ID step); AErr e]) (ParseApprovalConfig step);
    fail_if (empty_str (ap_Subject cfg))
      (step_err "step %q: Approval.Subject must not be empty" step);;
    fail_if (ap_Timeout cfg <=? 0)
      (step_err "step %q: Approval.Timeout must be positive" step);;
    fail_if (maxApprovalTimeout <? ap_Timeout cfg)
      (Errorf "step %q: Approval.Timeout %v exceeds max %v"
         [AStr (sd_ID step); AInt (ap_Timeout cfg); AInt maxApprovalTimeout]).

Definition validatePlannerConfig (step : StepDef) : outcome unit :=
  panic_if (empty_str (sd_ID step)) "validatePlannerConfig: step.ID must not be empty";;
  if negb (bool_decide (sd_Type step = StepTypePlanner)) then Ret tt
  else
    cfg ← wrap_err (λ e, Errorf "step %q: invalid planner config: %w"
                           [AStr (sd_ID step); AErr e]) (ParsePlannerConfig step);
    fail_if ((pl_MaxSteps cfg <? 1) || (100 <? pl_MaxSteps cfg))
      (Errorf "step %q: PlannerConfig.MaxSteps is %d (must be 1..100)"
         [AStr (sd_ID step); AInt (pl_MaxSteps cfg)]);;
    fail_if ((pl_MaxDepth cfg <? 0) || (10 <? pl_MaxDepth cfg))
      (Errorf "step %q: PlannerConfig.MaxDepth is %d (must be 0..10)"
         [AStr (sd_ID step); AInt (pl_MaxDepth cfg)]).

Definition validateRateLimit (step : StepDef) : outcome unit :=
  panic_if (empty_str (sd_ID step)) "validateRateLimit: step.ID must not be empty";;
  match sd_RateLimit step, sd_KeyedRateLimit step with
  | None, None => Ret tt
  | Some _, Some _ => Panic "validateRateLimit: cannot set both RateLimit and KeyedRateLimit"
  | Some rl, None =>
      fail_if (rl_Limit rl <=? 0) (step_err "step %q: rate limit must be positive" step);;
      fail_if (rl_Period rl <=? 0)
        (step_err "step %q: rate limit period must be positive" step)
  | None, Some krl =>
      fail_if (empty_str (krl_Key krl))
        (step_err "step %q: keyed rate limit key must not be empty" step);;
      fail_if (krl_Limit krl <=? 0)
        (step_err "step %q: keyed rate limit must be positive" step);;
      fail_if (krl_Period krl <=? 0)
        (step_err "step %q: keyed rate limit period must be positive" step);;
      fail_if (krl_Units krl <=? 0)
        (step_err "step %q: keyed rate limit units must be positive" step)
  end.

Definition validateMatchDotPaths (stepID : string) (m : Match_) (ids : idset) : outcome unit :=
  panic_if (empty_str stepID) "validateMatchDotPaths: stepID must not be empty";;
  if HasPrefix (m_Right m) "step." then
    match splitn_char "." 4 (m_Right m) with
    | [_; refID; _; _] =>
        fail_if (negb (is_set ids refID))
          (Errorf "step %q: Match.Right references step %q which does not exist"
             [AStr stepID; AStr refID])
    | _ => Err (Errorf "step %q: invalid step path %q (expected step.{id}.output.{field})"
                  [AStr stepID; AStr (m_Right m)])
    end
  else
    fail_if (negb (HasPrefix (m_Right m) "input."))
      (Errorf "step %q: Match.Right must start with step. or input., got %q"
         [AStr stepID; AStr (m_Right m)]).

Definition validateWaitForEventStep (step : StepDef) (ids : idset) : outcome unit :=
  if negb (bool_decide (sd_Type step = StepTypeWaitForEvent)) then Ret tt
  else
    panic_if (empty_str (sd_ID step)) "validateWaitForEventStep: step ID must not be empty";;
    opts ← wrap_err (λ _, step_err "step %q: WaitForEvent config is nil" step)
             (ParseWaitForEventConfig step);
    fail_if (empty_str (we_Event opts))
      (step_err "step %q: WaitForEvent.Event must not be empty" step);;
    fail_if (empty_str (m_Left (we_Match opts)))
      (step_err "step %q: WaitForEvent.Match.Left must not be empty" step);;
    fail_if (empty_str (m_Op (we_Match opts)))
      (step_err "step %q: WaitForEvent.Match.Op must not be empty" step);;
    fail_if (empty_str (m_Right (we_Match opts)))
      (step_err "step %q: WaitForEvent.Match.Right must not be empty" step);;
    fail_if (we_Timeout opts <=? 0)
      (step_err "step %q: WaitForEvent.Timeout must be positive" step);;
    validateMatchDotPaths (sd_ID step) (we_Match opts) ids.

Definition validateSingleStep (step : StepDef) (ids : idset) : outcome unit :=
  panic_if (empty_str (sd_ID step)) "validateSingleStep: step ID is empty";;
  fail_if (sd_Retries step <? 0)
    (Errorf "step %q has negative Retries (%d)" [AStr (sd_ID step); AInt (sd_Retries step)]);;
  for_each (λ dep,
    fail_if (negb (is_set ids dep))
      (Errorf "step %q depends on %q which does not exist" [AStr (sd_ID step); AStr dep]))
    (sd_DependsOn step);;
  validateLoopConfig step;;
  validateMapConfig step;;
  validateSkipIf step;;
  validateSubWorkflowConfig step;;
  validateSleepStep step;;
  validateApprovalStep step;;
  validatePlannerConfig step;;
  validateRateLimit step;;
  fail_if (negb (empty_str (sd_OnFailure step)) && negb (is_set ids (sd_OnFailure step)))
    (Errorf "step %q OnFailure references %q which does not exist"
       [AStr (sd_ID step); AStr (sd_OnFailure step)]);;
  fail_if (negb (empty_str (sd_Compensate step)) && negb (is_set ids (sd_Compensate step)))
    (Errorf "step %q Compensate references %q which does not exist"
       [AStr (sd_ID step); AStr (sd_Compensate step)]);;
  fail_if ((sd_MaxTaskConcurrency step <? 0) || (1000 <? sd_MaxTaskConcurrency step))
    (Errorf "step %q MaxTaskConcurrency is %d (must be 0..1000)"
       [AStr (sd_ID step); AInt (sd_MaxTaskConcurrency step)]).
End Zones.

(** ** Workflow validators *)

Definition validateRequiredFields (def : WorkflowDef) : outcome unit :=
  panic_if (nil_steps def) "validateRequiredFields: called with empty steps";;
  fail_if (empty_str (wd_Name def)) (Errorf "workflow name must not be empty" []);;
  for_each_i (λ i step,
    fail_if (empty_str (sd_ID step))
      (Errorf "step %d: id must not be empty" [AInt (Z.of_nat i)]);;
    fail_if (task_missing step)
      (Errorf "step %q: a %s step needs a task"
         [AStr (sd_ID step); AStr (StepType_String (sd_Type step))])) 0 (wd_Steps def).

Fixpoint collect_ids (ids : idset) (steps : list StepDef) : outcome idset :=
  match steps with
  | [] => Ret ids
  | step :: steps' =>
      if is_set ids (sd_ID step)
      then Err (Errorf "duplicate step ID %q" [AStr (sd_ID step)])
      else collect_ids (<[sd_ID step := true]> ids) steps'
  end.

Definition validateStepIDs (def : WorkflowDef) : outcome idset :=
  panic_if (nil_steps def) "validateStepIDs: called with empty steps";;
  panic_if (empty_str (wd_Name def)) "validateStepIDs: workflow name is empty";;
  collect_ids ∅ (wd_Steps def).

(** [stepTypes[step.ID] = step.Type] *)
Definition step_types (steps : list StepDef) : gmap string StepType :=
  foldl (λ m s, <[sd_ID s := sd_Type s]> m) ∅ steps.

(** One target of [validateAuxTargets]: [what] is OnFailure or Compensate. *)
Definition check_aux_target (what : string) (byID : gmap string StepDef)
    (step : StepDef) (target : string) : outcome unit :=
  if empty_str target then Ret tt
  else
    fail_if (bool_decide (target = sd_ID step))
      (Errorf ("step %q " +:+ what +:+ " references itself") [AStr (sd_ID step)]);;
    fail_if (negb (bool_decide
               (sd_DependsOn (default zero_StepDef (byID !! target)) = [])))
      (Errorf ("step %q " +:+ what +:+ " target %q must not have DependsOn")
         [AStr (sd_ID step); AStr target]).

Definition validateAuxTargets (def : WorkflowDef) (ids : idset) : outcome unit :=
  let byID := byID (wd_Steps def) in
  for_each (λ step,
    check_aux_target "OnFailure" byID step (sd_OnFailure step);;
    check_aux_target "Compensate" byID step (sd_Compensate step)) (wd_Steps def).

Definition validateConcurrency (def : WorkflowDef) : outcome unit :=
  panic_if (empty_str (wd_Name def)) "validateConcurrency: workflow name is empty";;
  panic_if (nil_steps def) "validateConcurrency: called with empty steps";;
  match wd_Concurrency def with
  | None => Ret tt
  | Some c =>
      fail_if ((cl_MaxSteps c <? 0) || (1000 <? cl_MaxSteps c))
        (Errorf "workflow %q Concurrency.MaxSteps is %d (must be 0..1000)"
           [AStr (wd_Name def); AInt (cl_MaxSteps c)])
  end.

(** [Multiplier != 0 && (Multiplier < 1 || Multiplier > RetryMultiplierMax)] *)
Definition bad_multiplier (m : f64) : bool :=
  negb (f64_eqb m (f64_of_Z 0)) &&
  (f64_ltb m f64_one || f64_ltb (f64_of_Z RetryMultiplierMax) m).

Definition validateRetryPolicies (def : WorkflowDef) : outcome unit :=
  panic_if (nil_steps def) "validateRetryPolicies: called with empty steps";;
  panic_if (empty_str (wd_Name def)) "validateRetryPolicies: workflow name is empty";;
  (match wd_DefaultRetry def with
   | None => Ret tt
   | Some p =>
       fail_if (RetryAttemptCountMax <? rp_MaxAttempts p)
         (Errorf "workflow %q DefaultRetry.MaxAttempts is %d (max %d)"
            [AStr (wd_Name def); AInt (rp_MaxAttempts p); AInt RetryAttemptCountMax]);;
       fail_if (bad_multiplier (rp_Multiplier p))
         (Errorf "workflow %q DefaultRetry.Multiplier is %v: exponential retry multiplier must be in [1, %v] when set"
            [AStr (wd_Name def)])
   end);;
  for_each (λ step,
    (match sd_Retry step with
     | None => Ret tt
     | Some p =>
         fail_if (RetryAttemptCountMax <? rp_MaxAttempts p)
           (Errorf "step %q Retry.MaxAttempts is %d (max %d)"
              [AStr (sd_ID step); AInt (rp_MaxAttempts p); AInt RetryAttemptCountMax])
     end);;
    fail_if (RetryAttemptCountMax <? sd_Retries step)
      (Errorf "step %q Retries is %d (max %d)"
         [AStr (sd_ID step); AInt (sd_Retries step); AInt RetryAttemptCountMax]);;
    match sd_Retry step with
    | None => Ret tt
    | Some p =>
        fail_if (bad_multiplier (rp_Multiplier p))
          (Errorf "step %q Retry.Multiplier is %v: exponential retry multiplier must be in [1, %v] when set"
             [AStr (sd_ID step)])
    end) (wd_Steps def).

Definition validateSticky (def : WorkflowDef) : outcome unit :=
  if bool_decide (wd_Sticky def = StickyNone) then Ret tt
  else
    fail_if (negb (bool_decide (wd_Sticky def = StickySoft)) &&
             negb (bool_decide (wd_Sticky def = StickyHard)))
      (Errorf "workflow %q: invalid sticky strategy %q"
         [AStr (wd_Name def); AStr (wd_Sticky def)]);;
    fail_if (bool_decide (wd_Sticky def = StickyHard) && (wd_Timeout def =? 0))
      (Errorf "workflow %q: hard sticky requires a timeout to prevent permanent blocking"
         [AStr (wd_Name def)]);;
    for_each (λ step,
      fail_if (negb (empty_str (sd_WorkerGroup step)))
        (Errorf "workflow %q: sticky is incompatible with per-step WorkerGroup (step %q)"
           [AStr (wd_Name def); AStr (sd_ID step)])) (wd_Steps def).

(** [key[i] == '.' && key[i+1] == '.'] for some [i]. *)
Fixpoint has_double_dot (l : list ascii) : bool :=
  match l with
  | c :: ((d :: _) as l') =>
      (bool_decide (c = "."%char) && bool_decide (d = "."%char)) || has_double_dot l'
  | _ => false
  end.

Definition validateIdempotencyKey (key : string) : outcome unit :=
  let l := str_list key in
  if empty_str key then Ret tt
  else
    fail_if (starts_with_dot l || ends_with_dot l)
      (Errorf "idempotency_key %q: must not start or end with dot" [AStr key]);;
    fail_if (has_double_dot l) (Errorf "idempotency_key %q: empty segment" [AStr key]).

Definition validateCancelOnEntry (co : CancelOn) : outcome unit :=
  fail_if (empty_str (co_Event co)) (Errorf "event must not be empty" []);;
  fail_if (empty_str (m_Left (co_Match co))) (Errorf "match.left must not be empty" []);;
  fail_if (negb (bool_decide (m_Op (co_Match co) = MatchOpEq)))
    (Errorf "match.op must be %q, got %q" [AStr MatchOpEq; AStr (m_Op (co_Match co))]);;
  fail_if (empty_str (m_Right (co_Match co))) (Errorf "match.right must not be empty" []);;
  fail_if (negb (HasPrefix (m_Right (co_Match co)) "input."))
    (Errorf "match.right must start with input., got %q" [AStr (m_Right (co_Match co))]).

Definition validateCancelOn (def : WorkflowDef) : outcome unit :=
  fail_if (5 <? Z.of_nat (length (wd_CancelOn def)))
    (Errorf "cancel_on: max 5 entries" []);;
  for_each_i (λ i co,
    wrap_err (λ e, Errorf "cancel_on[%d]: %w" [AInt (Z.of_nat i); AErr e])
      (validateCancelOnEntry co)) 0 (wd_CancelOn def).

Definition validateSingleton (def : WorkflowDef) : outcome unit :=
  match wd_Singleton def with
  | None => Ret tt
  | Some s =>
      fail_if (negb (bool_decide (sc_Mode s = SingletonModeSkip)) &&
               negb (bool_decide (sc_Mode s = SingletonModeCancel)))
        (Errorf "singleton: mode must be skip or cancel" [])
  end.

(** ** Validate *)

Section Validate.
Context (LoadLocation : string → outcome Location).
(** The iteration orders of the in-degree map and of the priority rules. *)
Context (perm : list string → list string) (rule_order : list Z → list Z).

Definition validatePriority (def : WorkflowDef) : outcome unit :=
  match wd_Priority def with
  | None => Ret tt
  | Some p =>
      fail_if (empty_str (prio_Key p)) (Errorf "priority: key must not be empty" []);;
      fail_if (bool_decide (prio_Rules p = ∅))
        (Errorf "priority: rules must not be empty" []);;
      fail_if (20 <? Z.of_nat (size (prio_Rules p))) (Errorf "priority: max 20 rules" []);;
      for_each (λ offset,
        fail_if ((offset <? -600) || (600 <? offset))
          (Errorf "priority: offset %d out of [-600, 600]" [AInt offset]))
        (rule_order ((map_to_list (prio_Rules p)).*2));;
      fail_if ((prio_DefaultOffset p <? -600) || (600 <? prio_DefaultOffset p))
        (Errorf "priority: default_offset out of [-600, 600]" [])
  end.

Definition validateStepReferences (def : WorkflowDef) (ids : idset) : outcome unit :=
  panic_if (nil_steps def) "validateStepReferences: called with empty steps";;
  let stepTypes := step_types (wd_Steps def) in
  for_each (λ step,
    validateSingleStep LoadLocation step ids;;
    validateStepDispatch step;;
    validateWaitForEventStep step ids;;
    if bool_decide (sd_Type step = StepTypeMap)
    then validateMapNesting step stepTypes else Ret tt) (wd_Steps def);;
  validateAuxTargets def ids.

Definition Validate (def : WorkflowDef) : outcome unit :=
  fail_if (nil_steps def) (Errorf "workflow %q has no steps" [AStr (wd_Name def)]);;
  validateRequiredFields def;;
  ids ← validateStepIDs def;
  validateStepReferences def ids;;
  validateConcurrency def;;
  validateRetryPolicies def;;
  validateIdempotencyKey (wd_IdempotencyKey def);;
  validateSticky def;;
  validatePriority def;;
  validateCancelOn def;;
  validateSingleton def;;
  validateOutputSchema def;;
  detectCycle perm (wd_Steps def).
End Validate.
