(* ===== verification/ValidateSpec.v ===== *)
(** * What [Validate] accepts

    [WellFormed] states, without reference to the order of the checks, the
    rules that dag/validate.go implements.  Three rules of the documented
    table (every step has a task, a respond configuration parses, a skip
    condition names a dependency on every step) are not among them.  [Validate_iff] shows that
    [Validate] accepts exactly the well-formed definitions, whatever the
    iteration order of Go's maps ([Validate_wf], [wf_Validate]). *)

From S2P Require Import Prelude Float64 Json Types Config Condition Graph GoTime Cron Schema Validate.
From Stdlib Require Import Ascii.
From stdpp Require Import relations.

#[local] Open Scope Z_scope.

(** ** Well-formed definitions *)

(** A task type: at most 128 bytes, non-empty dot-separated tokens of letters,
    digits, [_] and [-]. *)
Definition task_type_ok (s : string) : Prop :=
  Z.of_nat (String.length s) ≤ taskTypeLenMax ∧
  Forall (λ t, t ≠ "" ∧ str_forallb task_char t = true) (split_char "." s).

Definition policy_ok (p : RetryPolicy) : Prop :=
  rp_MaxAttempts p ≤ RetryAttemptCountMax ∧ bad_multiplier (rp_Multiplier p) = false.

Section Spec.
Context (LoadLocation : string → outcome Location).
Context (steps : list StepDef).

(** The type-specific configuration of a step. *)
Definition config_ok (s : StepDef) : Prop :=
  match sd_Type s with
  | StepTypeAgentLoop =>
      ∃ cfg, ParseAgentLoopConfig s = Ret cfg ∧ 0 < al_MaxIterations cfg
  | StepTypeMap =>
      (∃ cfg, ParseMapConfig s = Ret cfg ∧ 0 < mc_MaxItems cfg ≤ 10000) ∧
      length (sd_DependsOn s) = 1%nat ∧
      (∀ t, t ∈ steps → sd_ID t ∈ sd_DependsOn s → sd_Type t ≠ StepTypeMap)
  | StepTypeSubWorkflow =>
      ∃ cfg, ParseSubWorkflowConfig s = Ret cfg ∧ sw_Workflow cfg ≠ ""
  | StepTypeSleep =>
      ∃ cfg, ParseSleepConfig s = Ret cfg ∧
        (sl_Cron cfg ≠ "" → is_ret (ParseCron (sl_Cron cfg)) = true ∧
           (sl_CronTimezone cfg ≠ "" → is_ret (LoadLocation (sl_CronTimezone cfg)) = true)) ∧
        (sl_Cron cfg = "" → sl_UntilInputPath cfg = "" →
           0 < sl_Duration cfg ≤ maxSleepDuration)
  | StepTypeApproval =>
      ∃ cfg, ParseApprovalConfig s = Ret cfg ∧ ap_Subject cfg ≠ "" ∧
        0 < ap_Timeout cfg ≤ maxApprovalTimeout
  | StepTypePlanner =>
      ∃ cfg, ParsePlannerConfig s = Ret cfg ∧
        1 ≤ pl_MaxSteps cfg ≤ 100 ∧ 0 ≤ pl_MaxDepth cfg ≤ 10
  | StepTypeWaitForEvent =>
      ∃ cfg, ParseWaitForEventConfig s = Ret cfg ∧ we_Event cfg ≠ "" ∧
        m_Left (we_Match cfg) ≠ "" ∧ m_Op (we_Match cfg) ≠ "" ∧
        0 < we_Timeout cfg ∧
        ((HasPrefix (m_Right (we_Match cfg)) "step." = true ∧
          ∃ a id b c, splitn_char "." 4 (m_Right (we_Match cfg)) = [a; id; b; c] ∧
            id ∈ ids_of steps) ∨
         (HasPrefix (m_Right (we_Match cfg)) "step." = false ∧
          HasPrefix (m_Right (we_Match cfg)) "input." = true))
  | _ => True
  end.

Definition rates_ok (s : StepDef) : Prop :=
  match sd_RateLimit s, sd_KeyedRateLimit s with
  | None, None => True
  | Some rl, None => 0 < rl_Limit rl ∧ 0 < rl_Period rl
  | None, Some krl =>
      krl_Key krl ≠ "" ∧ 0 < krl_Limit krl ∧ 0 < krl_Period krl ∧ 0 < krl_Units krl
  | Some _, Some _ => False
  end.

(** A failure handler or compensation target: another step, an entry point. *)
Definition aux_target_ok (s : StepDef) (target : string) : Prop :=
  target ≠ "" → target ≠ sd_ID s ∧ target ∈ ids_of steps ∧
    ∀ t, t ∈ steps → sd_ID t = target → sd_DependsOn t = [].

Record step_ok (s : StepDef) : Prop := {
  so_id : sd_ID s ≠ "";
  so_task : stepRequiresTask (sd_Type s) = true → sd_Task s ≠ "";
  so_retries : 0 ≤ sd_Retries s ≤ RetryAttemptCountMax;
  so_retry : ∀ p, sd_Retry s = Some p → policy_ok p;
  so_deps : ∀ d, d ∈ sd_DependsOn s → d ∈ ids_of steps;
  so_dispatch : sd_Task s ≠ "" → task_type_ok (sd_Task s) ∧
    (sd_WorkerGroup s ≠ "" → task_type_ok (sd_WorkerGroup s) ∧
       str_contains_char "." (sd_WorkerGroup s) = false);
  so_config : config_ok s;
  so_skip : sd_Task s ≠ "" → ∀ c, sd_SkipIf s = Some c →
    pc_Op c ∈ validOps ∧ pc_StepID c ∈ sd_DependsOn s;
  so_rates : rates_ok s;
  so_failure : aux_target_ok s (sd_OnFailure s);
  so_compensate : aux_target_ok s (sd_Compensate s);
  so_concurrency : 0 ≤ sd_MaxTaskConcurrency s ≤ 1000;
}.
End Spec.

Definition sticky_ok (def : WorkflowDef) : Prop :=
  wd_Sticky def = StickyNone ∨
  (wd_Sticky def = StickySoft ∨ (wd_Sticky def = StickyHard ∧ wd_Timeout def ≠ 0)) ∧
  ∀ s, s ∈ wd_Steps def → sd_WorkerGroup s = "".

Definition priority_ok (p : PriorityConfig) : Prop :=
  prio_Key p ≠ "" ∧ prio_Rules p ≠ ∅ ∧ (size (prio_Rules p) ≤ 20)%nat ∧
  (∀ k o, prio_Rules p !! k = Some o → -600 ≤ o ≤ 600) ∧
  -600 ≤ prio_DefaultOffset p ≤ 600.

Definition cancel_on_ok (co : CancelOn) : Prop :=
  co_Event co ≠ "" ∧ m_Left (co_Match co) ≠ "" ∧ m_Op (co_Match co) = MatchOpEq ∧
  HasPrefix (m_Right (co_Match co)) "input." = true.

Record WellFormed (LoadLocation : string → outcome Location) (def : WorkflowDef) : Prop := {
  wf_name : wd_Name def ≠ "";
  wf_steps : wd_Steps def ≠ [];
  wf_unique : NoDup (ids_of (wd_Steps def));
  wf_step : ∀ s, s ∈ wd_Steps def → step_ok LoadLocation (wd_Steps def) s;
  wf_acyclic : acyclic (edges (wd_Steps def));
  wf_concurrency : ∀ c, wd_Concurrency def = Some c → 0 ≤ cl_MaxSteps c ≤ 1000;
  wf_retry : ∀ p, wd_DefaultRetry def = Some p → policy_ok p;
  wf_key : wd_IdempotencyKey def = "" ∨
    Forall (λ t, t ≠ "") (split_char "." (wd_IdempotencyKey def));
  wf_sticky : sticky_ok def;
  wf_priority : ∀ p, wd_Priority def = Some p → priority_ok p;
  wf_cancel : (length (wd_CancelOn def) ≤ 5)%nat ∧ Forall cancel_on_ok (wd_CancelOn def);
  wf_singleton : ∀ s, wd_Singleton def = Some s →
    sc_Mode s = SingletonModeSkip ∨ sc_Mode s = SingletonModeCancel;
  wf_output : ∀ r, wd_OutputSchema def = Some r → raw_empty r = false →
    ∃ n, unmarshal_schema r = Ret n;
}.

(** ** Boolean facts *)

Create Rewrite HintDb gob.
#[global] Hint Rewrite negb_false_iff orb_false_iff Z.ltb_ge Z.leb_gt andb_false_iff
  bool_decide_eq_true bool_decide_eq_false empty_str_false empty_str_true : gob.

(** ** Dots *)

(** The list view of the characters: no dot first, none last, none doubled is
    the same as no empty dot-separated token. *)
Lemma split_char_cons sep c s :
  split_char sep (String c s) =
    if decide (c = sep) then "" :: split_char sep s
    else match split_char sep s with
         | [] => [String c ""]
         | p :: ps => String c p :: ps
         end.
Proof. cbn. by repeat case_decide || case_bool_decide. Qed.

Lemma split_char_ne sep s : split_char sep s ≠ [].
Proof. destruct s; [done|]. rewrite split_char_cons. by repeat case_match. Qed.

Fixpoint tail_ok (l : list ascii) : bool :=
  match l with
  | [] => true
  | [c] => negb (bool_decide (c = "."%char))
  | c :: ((d :: _) as l') =>
      negb (bool_decide (c = "."%char) && bool_decide (d = "."%char)) && tail_ok l'
  end.

Lemma tail_ok_cons c d l :
  tail_ok (c :: d :: l) =
    negb (bool_decide (c = "."%char) && bool_decide (d = "."%char)) && tail_ok (d :: l).
Proof. done. Qed.

Lemma tail_ok_spec l :
  tail_ok l = negb (ends_with_dot l) && negb (has_double_dot l).
Proof.
  induction l as [|c [|d l] IH]; [done|..].
  - unfold ends_with_dot. cbn. by destruct (bool_decide _).
  - rewrite tail_ok_cons, IH. change (has_double_dot (c :: d :: l)) with
      ((bool_decide (c = "."%char) && bool_decide (d = "."%char)) || has_double_dot (d :: l)).
    assert (ends_with_dot (c :: d :: l) = ends_with_dot (d :: l)) as ->.
    { unfold ends_with_dot. rewrite !reverse_cons. by destruct (reverse l). }
    destruct (ends_with_dot (d :: l)), (has_double_dot (d :: l)),
      (bool_decide (c = "."%char) && bool_decide (d = "."%char)); done.
Qed.

Lemma split_dot_tail s :
  (∀ p ps, split_char "." s = p :: ps →
     (tail_ok (str_list s) = true ↔ (s = "" ∨ Forall (λ t, t ≠ "") ps)) ∧
     (starts_with_dot (str_list s) = true → p = "") ∧
     (s ≠ "" → starts_with_dot (str_list s) = false → p ≠ "")).
Proof.
  induction s as [|c s IH]; intros p ps Hs; cbn in Hs.
  { injection Hs as <- <-. naive_solver. }
  destruct (split_char "." s) as [|q qs] eqn:Hq; [by apply split_char_ne in Hq|].
  destruct (IH q qs eq_refl) as (IH1 & IH2 & IH3). cbn [str_list starts_with_dot].
  destruct (decide (c = "."%char)) as [->|Hc].
  - rewrite bool_decide_eq_true_2 in Hs |- * by done. injection Hs as <- <-.
    split_and!; [|done|done]. destruct s as [|d s].
    { cbn in Hq. injection Hq as <- <-. cbn. split; [done|].
      intros [|Hf]; [done|]. by apply Forall_cons in Hf as [? _]. }
    cbn [str_list] in *. rewrite tail_ok_cons, andb_true_iff, IH1, Forall_cons.
    rewrite (bool_decide_eq_true_2 ("."%char = "."%char)) by done.
    cbn [andb starts_with_dot] in *.
    destruct (bool_decide (d = "."%char)) eqn:Hd; naive_solver.
  - rewrite bool_decide_eq_false_2 in Hs |- * by done. injection Hs as <- <-.
    split_and!; [|done|done]. destruct s as [|d s].
    { cbn in Hq. injection Hq as <- <-. cbn. rewrite bool_decide_eq_false_2 by done.
      cbn. split; [by right; constructor|done]. }
    cbn [str_list] in *. rewrite tail_ok_cons, (bool_decide_eq_false_2 (c = "."%char)) by done.
    cbn [andb negb]. rewrite IH1. naive_solver.
Qed.

Lemma split_dot_ne s : s ≠ "" →
  Forall (λ t, t ≠ "") (split_char "." s) ↔
  starts_with_dot (str_list s) = false ∧ ends_with_dot (str_list s) = false ∧
  has_double_dot (str_list s) = false.
Proof.
  intros Hs. destruct (split_char "." s) as [|p ps] eqn:Hp; [by apply split_char_ne in Hp|].
  destruct (split_dot_tail s p ps Hp) as (H1 & H2 & H3).
  rewrite tail_ok_spec, andb_true_iff, !negb_true_iff in H1. rewrite Forall_cons.
  destruct (starts_with_dot (str_list s)) eqn:Hd; naive_solver.
Qed.

Lemma validateIdempotencyKey_iff key :
  validateIdempotencyKey key = Ret tt ↔
  key = "" ∨ Forall (λ t, t ≠ "") (split_char "." key).
Proof.
  unfold validateIdempotencyKey. destruct (empty_str key) eqn:He.
  { apply empty_str_true in He. naive_solver. }
  apply empty_str_false in He. rewrite split_dot_ne by done.
  rewrite bind_unit_ret_iff, !fail_if_ret_iff, orb_false_iff. naive_solver.
Qed.

Lemma split_dot_chars s :
  Forall (λ t, str_forallb task_char t = true) (split_char "." s) ↔
  Forall (λ c, task_char c = true ∨ c = "."%char) (str_list s).
Proof.
  induction s as [|c s IH].
  { cbn. split; [constructor|by repeat constructor]. }
  rewrite split_char_cons. cbn [str_list]. rewrite Forall_cons, <-IH.
  destruct (decide (c = "."%char)) as [->|Hc].
  - rewrite Forall_cons. naive_solver.
  - destruct (split_char "." s) as [|q qs] eqn:Hq; [by apply split_char_ne in Hq|].
    rewrite !Forall_cons. change (str_forallb task_char (String c q))
      with (task_char c && str_forallb task_char q). rewrite andb_true_iff. naive_solver.
Qed.

Lemma task_char_not_dot c : task_char c = true → c ≠ "."%char.
Proof. by intros H ->. Qed.

Lemma task_type_loop_iff s l : ∀ p i,
  task_type_loop s (Some p) i l = Ret tt ↔
  Forall (λ c, task_char c = true ∨ c = "."%char) l ∧ has_double_dot (p :: l) = false.
Proof.
  induction l as [|c l IH]; intros p i; cbn [task_type_loop].
  { split; [by split|done]. }
  change (has_double_dot (p :: c :: l)) with
    ((bool_decide (p = "."%char) && bool_decide (c = "."%char)) || has_double_dot (c :: l)).
  rewrite Forall_cons, orb_false_iff.
  destruct (task_char c) eqn:Hc.
  - pose proof (task_char_not_dot c Hc). rewrite IH, (bool_decide_eq_false_2 (c = "."%char)) by done.
    rewrite andb_false_r. naive_solver.
  - destruct (decide (c = "."%char)) as [->|Hd].
    + rewrite bool_decide_eq_true_2, andb_true_r by done.
      destruct (bool_decide (p = "."%char)); [naive_solver|]. rewrite IH. naive_solver.
    + rewrite (bool_decide_eq_false_2 (c = "."%char)) by done. naive_solver.
Qed.

Lemma str_list_length s : length (str_list s) = String.length s.
Proof. induction s; cbn; auto. Qed.

Lemma ValidTaskType_iff s : ValidTaskType s = Ret tt ↔ task_type_ok s.
Proof.
  unfold ValidTaskType, task_type_ok. rewrite !bind_unit_ret_iff, !fail_if_ret_iff.
  rewrite Z.ltb_ge, orb_false_iff, str_list_length, empty_str_false, Forall_and.
  destruct s as [|c s].
  { split; [naive_solver|]. intros (_ & Hf & _). by apply Forall_cons in Hf as [? _]. }
  rewrite split_dot_ne, split_dot_chars by done. cbn [str_list task_type_loop].
  rewrite Forall_cons. destruct (task_char c) eqn:Hc.
  - rewrite task_type_loop_iff. naive_solver.
  - destruct (decide (c = "."%char)) as [->|Hd].
    + cbn. naive_solver.
    + rewrite (bool_decide_eq_false_2 (c = "."%char)) by done. naive_solver.
Qed.

Lemma ValidTaskType_no_panic s : is_panic (ValidTaskType s) = false.
Proof.
  destruct s as [|c s]; [done|].
  assert (∀ l p i, is_panic (task_type_loop (String c s) (Some p) i l) = false) as Hl.
  { induction l as [|d l IH]; intros p i; cbn; [done|]. repeat case_match; done. }
  unfold ValidTaskType. change (empty_str (String c s)) with false.
  cbn [str_list task_type_loop starts_with_dot]. unfold fail_if at 1. cbn [mbind outcome_bind].
  unfold fail_if at 1. destruct (taskTypeLenMax <? _); [done|]. cbn [mbind outcome_bind].
  destruct (bool_decide (c = "."%char)); [done|]. cbn [orb]. unfold fail_if.
  destruct (ends_with_dot _); [done|]. cbn [mbind outcome_bind].
  destruct (task_char c); [apply Hl|done].
Qed.

(** ** One lemma per validator *)

Section Steps.
Context (step : StepDef) (Hid : sd_ID step ≠ "").
Context (Htask : stepRequiresTask (sd_Type step) = true → sd_Task step ≠ "").

Lemma task_missing_false : task_missing step = false.
Proof.
  unfold task_missing. apply andb_false_iff. rewrite empty_str_false.
  destruct (stepRequiresTask (sd_Type step)); naive_solver.
Qed.

Lemma assert_step_ok who : assert_step who step = Ret tt.
Proof.
  unfold assert_step. rewrite task_missing_false, (proj2 (empty_str_false _)) by done. done.
Qed.

Lemma validateStepDispatch_iff :
  validateStepDispatch step = Ret tt ↔
  (sd_Task step ≠ "" → task_type_ok (sd_Task step) ∧
    (sd_WorkerGroup step ≠ "" → task_type_ok (sd_WorkerGroup step) ∧
       str_contains_char "." (sd_WorkerGroup step) = false)).
Proof.
  unfold validateStepDispatch, ValidWorkerGroup. rewrite assert_step_ok. cbn.
  unfold empty_str. case_bool_decide; [naive_solver|].
  rewrite bind_unit_ret_iff, wrap_err_ret_iff, ValidTaskType_iff.
  case_bool_decide; [naive_solver|].
  rewrite wrap_err_ret_iff, bind_unit_ret_iff, ValidTaskType_iff, fail_if_ret_iff. naive_solver.
Qed.

(** The shape of the type-specific validators: [cfg <- parse; checks]. *)
Lemma parse_then_iff {A} (m : outcome A) w (f : A → outcome unit) (P : A → Prop) :
  (∀ cfg, f cfg = Ret tt ↔ P cfg) →
  (wrap_err w m ≫= f) = Ret tt ↔ ∃ cfg, m = Ret cfg ∧ P cfg.
Proof.
  intros H. rewrite bind_ret_iff. setoid_rewrite wrap_err_ret_iff.
  by setoid_rewrite H.
Qed.

Lemma validateLoopConfig_iff :
  validateLoopConfig step = Ret tt ↔
  (sd_Type step = StepTypeAgentLoop →
   ∃ cfg, ParseAgentLoopConfig step = Ret cfg ∧ 0 < al_MaxIterations cfg).
Proof.
  unfold validateLoopConfig. rewrite assert_step_ok. cbn [mbind outcome_bind].
  unfold empty_str. case_bool_decide as Ht.
  { split; [|done]. intros _ Hty. rewrite Hty in Htask. by destruct Htask. }
  case_bool_decide as Hty; [|naive_solver].
  rewrite (parse_then_iff _ _ _ (λ cfg, 0 < al_MaxIterations cfg)); [naive_solver|].
  intros cfg. by rewrite fail_if_ret_iff, Z.leb_gt.
Qed.

Lemma validateMapConfig_iff :
  validateMapConfig step = Ret tt ↔
  (sd_Type step = StepTypeMap →
   (∃ cfg, ParseMapConfig step = Ret cfg ∧ 0 < mc_MaxItems cfg ≤ 10000) ∧
   length (sd_DependsOn step) = 1%nat).
Proof.
  unfold validateMapConfig. rewrite assert_step_ok. cbn [mbind outcome_bind].
  unfold empty_str. case_bool_decide as Ht.
  { split; [|done]. intros _ Hty. rewrite Hty in Htask. by destruct Htask. }
  case_bool_decide as Hty; [|naive_solver]. cbn [negb].
  rewrite bind_ret_iff. setoid_rewrite bind_unit_ret_iff. setoid_rewrite bind_unit_ret_iff.
  setoid_rewrite fail_if_ret_iff. setoid_rewrite negb_false_iff.
  setoid_rewrite Nat.eqb_eq. setoid_rewrite Z.leb_gt. setoid_rewrite Z.ltb_ge. naive_solver.
Qed.

Lemma validateSkipIf_iff :
  validateSkipIf step = Ret tt ↔
  (sd_Task step ≠ "" → ∀ c, sd_SkipIf step = Some c →
     pc_Op c ∈ validOps ∧ pc_StepID c ≠ "" ∧ pc_StepID c ∈ sd_DependsOn step).
Proof.
  unfold validateSkipIf. rewrite assert_step_ok. cbn [mbind outcome_bind].
  unfold empty_str. case_bool_decide; [naive_solver|].
  destruct (sd_SkipIf step) as [c|]; [|naive_solver].
  rewrite !bind_unit_ret_iff, !fail_if_ret_iff, !negb_false_iff. unfold valid_op.
  rewrite !bool_decide_eq_true, bool_decide_eq_false. naive_solver.
Qed.

Lemma validateSubWorkflowConfig_iff :
  validateSubWorkflowConfig step = Ret tt ↔
  (sd_Type step = StepTypeSubWorkflow →
   ∃ cfg, ParseSubWorkflowConfig step = Ret cfg ∧ sw_Workflow cfg ≠ "").
Proof.
  unfold validateSubWorkflowConfig. rewrite (proj2 (empty_str_false _)) by done.
  cbn [panic_if mbind outcome_bind]. case_bool_decide; [|naive_solver]. cbn [negb].
  rewrite (parse_then_iff _ _ _ (λ cfg, sw_Workflow cfg ≠ "")); [naive_solver|].
  intros cfg. by rewrite fail_if_ret_iff, empty_str_false.
Qed.

Lemma checkSleepBound_iff d : 0 ≤ d → checkSleepBound d = Ret tt ↔ d ≤ maxSleepDuration.
Proof.
  intros Hd. unfold checkSleepBound. rewrite (proj2 (Z.ltb_ge d 0)) by done.
  change (maxSleepDuration <=? 0) with false. cbn [panic_if mbind outcome_bind].
  by rewrite fail_if_ret_iff, Z.ltb_ge.
Qed.

Lemma bind_ret_unit {A} (m : outcome A) :
  (m ≫= λ _, Ret tt) = Ret tt ↔ is_ret m = true.
Proof. destruct m; naive_solver. Qed.

Lemma validateSleepStep_iff (LoadLocation : string → outcome Location) :
  validateSleepStep LoadLocation step = Ret tt ↔
  (sd_Type step = StepTypeSleep →
   ∃ cfg, ParseSleepConfig step = Ret cfg ∧
     (sl_Cron cfg ≠ "" → is_ret (ParseCron (sl_Cron cfg)) = true ∧
        (sl_CronTimezone cfg ≠ "" → is_ret (LoadLocation (sl_CronTimezone cfg)) = true)) ∧
     (sl_Cron cfg = "" → sl_UntilInputPath cfg = "" →
        0 < sl_Duration cfg ≤ maxSleepDuration)).
Proof.
  unfold validateSleepStep. rewrite (proj2 (empty_str_false _)) by done.
  change (maxSleepDuration <=? 0) with false. cbn [panic_if mbind outcome_bind].
  case_bool_decide; [|naive_solver]. cbn [negb].
  rewrite (parse_then_iff _ _ _ (λ cfg,
     (sl_Cron cfg ≠ "" → is_ret (ParseCron (sl_Cron cfg)) = true ∧
        (sl_CronTimezone cfg ≠ "" → is_ret (LoadLocation (sl_CronTimezone cfg)) = true)) ∧
     (sl_Cron cfg = "" → sl_UntilInputPath cfg = "" →
        0 < sl_Duration cfg ≤ maxSleepDuration))); [naive_solver|].
  intros cfg. unfold empty_str.
  destruct (decide (sl_Cron cfg = "")) as [Hc|Hc].
  - rewrite bool_decide_eq_true_2 by done. cbn [negb].
    destruct (decide (sl_UntilInputPath cfg = "")) as [Hu|Hu].
    + rewrite bool_decide_eq_true_2 by done. cbn [negb].
      rewrite bind_unit_ret_iff, fail_if_ret_iff, Z.leb_gt, wrap_err_ret_iff. split.
      * intros [Hd Hb]. apply checkSleepBound_iff in Hb; [|lia]. naive_solver.
      * intros [_ Hd]. destruct (Hd Hc Hu). split; [done|]. apply checkSleepBound_iff; lia.
    + rewrite bool_decide_eq_false_2 by done. naive_solver.
  - rewrite bool_decide_eq_false_2 by done. cbn [negb].
    rewrite bind_ret_iff. setoid_rewrite wrap_err_ret_iff.
    destruct (ParseCron (sl_Cron cfg)) as [x| |]; [|naive_solver..].
    case_bool_decide as Hz; cbn [negb]; [naive_solver|].
    destruct (LoadLocation (sl_CronTimezone cfg)); cbn; naive_solver.
Qed.

Lemma validateApprovalStep_iff :
  validateApprovalStep step = Ret tt ↔
  (sd_Type step = StepTypeApproval →
   ∃ cfg, ParseApprovalConfig step = Ret cfg ∧ ap_Subject cfg ≠ "" ∧
     0 < ap_Timeout cfg ≤ maxApprovalTimeout).
Proof.
  unfold validateApprovalStep. rewrite (proj2 (empty_str_false _)) by done.
  cbn [panic_if mbind outcome_bind]. case_bool_decide; [|naive_solver]. cbn [negb].
  rewrite (parse_then_iff _ _ _ (λ cfg, ap_Subject cfg ≠ "" ∧
     0 < ap_Timeout cfg ≤ maxApprovalTimeout)); [naive_solver|].
  intros cfg. rewrite !bind_unit_ret_iff, !fail_if_ret_iff, empty_str_false, Z.leb_gt, Z.ltb_ge.
  done.
Qed.

Lemma validatePlannerConfig_iff :
  validatePlannerConfig step = Ret tt ↔
  (sd_Type step = StepTypePlanner →
   ∃ cfg, ParsePlannerConfig step = Ret cfg ∧
     1 ≤ pl_MaxSteps cfg ≤ 100 ∧ 0 ≤ pl_MaxDepth cfg ≤ 10).
Proof.
  unfold validatePlannerConfig. rewrite (proj2 (empty_str_false _)) by done.
  cbn [panic_if mbind outcome_bind]. case_bool_decide; [|naive_solver]. cbn [negb].
  rewrite (parse_then_iff _ _ _ (λ cfg, 1 ≤ pl_MaxSteps cfg ≤ 100 ∧
     0 ≤ pl_MaxDepth cfg ≤ 10)); [naive_solver|].
  intros cfg. by rewrite !bind_unit_ret_iff, !fail_if_ret_iff, !orb_false_iff, !Z.ltb_ge.
Qed.

Lemma validateRateLimit_iff : validateRateLimit step = Ret tt ↔ rates_ok step.
Proof.
  unfold validateRateLimit, rates_ok. rewrite (proj2 (empty_str_false _)) by done.
  cbn [panic_if mbind outcome_bind].
  destruct (sd_RateLimit step), (sd_KeyedRateLimit step); try done.
  all: by rewrite ?bind_unit_ret_iff, !fail_if_ret_iff, !Z.leb_gt, ?empty_str_false.
Qed.
End Steps.

(** ** Steps against the whole definition *)

Lemma collect_ids_iff steps : ∀ ids0 ids,
  collect_ids ids0 steps = Ret ids ↔
  NoDup (ids_of steps) ∧ (∀ s, s ∈ steps → is_set ids0 (sd_ID s) = false) ∧
  ids = foldl (λ m k, <[k := true]> m) ids0 (ids_of steps).
Proof.
  unfold ids_of. induction steps as [|s steps IH]; intros ids0 ids; cbn [collect_ids]; csimpl.
  { split; [intros [= ->]|intros (_ & _ & ->); done]. split; [constructor|].
    split; [by intros ? ?%elem_of_nil|done]. }
  destruct (is_set ids0 (sd_ID s)) eqn:Hs.
  { split; [done|]. intros (_ & H & _). rewrite H in Hs; [done|left]. }
  rewrite IH, NoDup_cons. setoid_rewrite is_set_insert. split.
  - intros (Hnd & Hf & ->). split_and!; [|done| |done].
    + intros (t & Ht & Hin)%list_elem_of_fmap. specialize (Hf t Hin).
      by rewrite decide_True in Hf.
    + intros t [->|Hin]%elem_of_cons; [done|]. specialize (Hf t Hin). by case_decide.
  - intros ([Hn Hnd] & Hf & ->). split_and!; [done| |done].
    intros t Hin. rewrite decide_False; [apply Hf; by right|].
    intros Heq. apply Hn. rewrite Heq. by apply list_elem_of_fmap_2.
Qed.

Lemma step_types_lookup steps t :
  NoDup (ids_of steps) → t ∈ steps → step_types steps !! sd_ID t = Some (sd_Type t).
Proof.
  unfold step_types, ids_of. induction steps as [|x steps IH] using rev_ind; intros Hnd Ht.
  { by apply elem_of_nil in Ht. }
  rewrite fmap_app in Hnd. csimpl in Hnd. rewrite foldl_snoc, lookup_insert.
  apply elem_of_app in Ht as [Ht|Ht%list_elem_of_singleton]; [|subst; by rewrite decide_True].
  apply NoDup_app in Hnd as (Hnd & Hdis & _). rewrite decide_False; [by apply IH|].
  intros Heq. apply (Hdis (sd_ID t)); [by apply list_elem_of_fmap_2|]. rewrite Heq. left.
Qed.

Section Whole.
Context (steps : list StepDef) (Hnd : NoDup (ids_of steps)).
Let ids := set_of (ids_of steps).

Lemma ids_set id : negb (is_set ids id) = false ↔ id ∈ ids_of steps.
Proof. rewrite negb_false_iff. apply set_of_elem. Qed.

Lemma deps_check_iff step :
  for_each (λ dep,
    fail_if (negb (is_set ids dep))
      (Errorf "step %q depends on %q which does not exist" [AStr (sd_ID step); AStr dep]))
    (sd_DependsOn step) = Ret tt ↔ ∀ d, d ∈ sd_DependsOn step → d ∈ ids_of steps.
Proof.
  rewrite for_each_ret_iff, Forall_forall. setoid_rewrite fail_if_ret_iff.
  by setoid_rewrite ids_set.
Qed.

Lemma ref_check_iff target e :
  fail_if (negb (empty_str target) && negb (is_set ids target)) e = Ret tt ↔
  (target ≠ "" → target ∈ ids_of steps).
Proof.
  rewrite fail_if_ret_iff, andb_false_iff, ids_set, negb_false_iff, empty_str_true.
  destruct (decide (target = "")); naive_solver.
Qed.

Lemma check_aux_target_iff what step target :
  (target ≠ "" → target ∈ ids_of steps) ∧
  check_aux_target what (byID steps) step target = Ret tt ↔
  aux_target_ok steps step target.
Proof.
  unfold check_aux_target, aux_target_ok, empty_str. case_bool_decide as He; [naive_solver|].
  rewrite bind_unit_ret_iff, !fail_if_ret_iff, negb_false_iff, bool_decide_eq_true,
    bool_decide_eq_false. split.
  - intros (Hin & Hne & Hd) _. specialize (Hin He). split_and!; [done..|].
    intros t Ht Heq. rewrite <-Heq, (byID_lookup _ t) in Hd by done. done.
  - intros H. destruct (H He) as (Hne & Hin & Hd). split_and!; [done..|].
    apply list_elem_of_fmap in Hin as (t & -> & Ht). rewrite (byID_lookup _ t) by done.
    by apply Hd.
Qed.

Lemma validateMapNesting_iff step :
  sd_ID step ≠ "" → sd_Type step = StepTypeMap →
  (∀ d, d ∈ sd_DependsOn step → d ∈ ids_of steps) →
  validateMapNesting step (step_types steps) = Ret tt ↔
  (∀ t, t ∈ steps → sd_ID t ∈ sd_DependsOn step → sd_Type t ≠ StepTypeMap).
Proof.
  intros Hid Hty Hdeps. unfold validateMapNesting.
  rewrite (proj2 (empty_str_false _)) by done. rewrite bool_decide_eq_true_2 by done.
  cbn [negb panic_if mbind outcome_bind]. rewrite for_each_ret_iff, Forall_forall.
  setoid_rewrite fail_if_ret_iff. setoid_rewrite bool_decide_eq_false. split.
  - intros H t Ht Hin. specialize (H _ Hin). by rewrite step_types_lookup in H.
  - intros H d Hd. destruct (list_elem_of_fmap_1 _ _ _ (Hdeps d Hd)) as (t & -> & Ht).
    rewrite step_types_lookup by done. simpl. by apply H.
Qed.

Lemma validateMatchDotPaths_iff stepID m :
  stepID ≠ "" →
  validateMatchDotPaths stepID m ids = Ret tt ↔
  ((HasPrefix (m_Right m) "step." = true ∧
    ∃ a id b c, splitn_char "." 4 (m_Right m) = [a; id; b; c] ∧ id ∈ ids_of steps) ∨
   (HasPrefix (m_Right m) "step." = false ∧ HasPrefix (m_Right m) "input." = true)).
Proof.
  intros Hid. unfold validateMatchDotPaths. rewrite (proj2 (empty_str_false _)) by done.
  cbn [panic_if mbind outcome_bind]. destruct (HasPrefix (m_Right m) "step.").
  - destruct (splitn_char "." 4 (m_Right m)) as [|a [|id [|b [|c [|]]]]];
      try (split; [done|intros [(_ & ? & ? & ? & ? & ? & _)|[? _]]; done]).
    rewrite fail_if_ret_iff, ids_set. split.
    + intros Hin. left. split; [done|]. by exists a, id, b, c.
    + intros [(_ & ? & ? & ? & ? & [= <- <- <- <-] & ?)|[? _]]; done.
  - rewrite fail_if_ret_iff, negb_false_iff. naive_solver.
Qed.

Lemma validateWaitForEventStep_iff LoadLocation step :
  sd_ID step ≠ "" →
  validateWaitForEventStep step ids = Ret tt ↔
  (sd_Type step = StepTypeWaitForEvent → config_ok LoadLocation steps step).
Proof.
  intros Hid. unfold validateWaitForEventStep, config_ok. case_bool_decide as Hty; [|naive_solver].
  cbn [negb]. rewrite (proj2 (empty_str_false (sd_ID step))) by done.
  cbn [panic_if mbind outcome_bind]. rewrite Hty.
  rewrite (parse_then_iff _ _ _ (λ cfg, we_Event cfg ≠ "" ∧
        m_Left (we_Match cfg) ≠ "" ∧ m_Op (we_Match cfg) ≠ "" ∧
        0 < we_Timeout cfg ∧
        ((HasPrefix (m_Right (we_Match cfg)) "step." = true ∧
          ∃ a id b c, splitn_char "." 4 (m_Right (we_Match cfg)) = [a; id; b; c] ∧
            id ∈ ids_of steps) ∨
         (HasPrefix (m_Right (we_Match cfg)) "step." = false ∧
          HasPrefix (m_Right (we_Match cfg)) "input." = true)))); [naive_solver|].
  intros cfg. rewrite !bind_unit_ret_iff, !fail_if_ret_iff, !empty_str_false, Z.leb_gt,
    validateMatchDotPaths_iff by done.
  assert ((HasPrefix (m_Right (we_Match cfg)) "step." = true ∨
           HasPrefix (m_Right (we_Match cfg)) "input." = true) →
          m_Right (we_Match cfg) ≠ "") as Hr.
  { by intros [?|?] Heq; rewrite Heq in *. }
  split.
  - intros (? & ? & ? & _ & ? & ?). by split_and!.
  - intros (? & ? & ? & ? & Hm). split_and!; try done. apply Hr.
    destruct Hm as [[? _]|[_ ?]]; auto.
Qed.
End Whole.

(** The loop body of [validateStepReferences]. *)
Definition step_checks (LoadLocation : string → outcome Location) (steps : list StepDef)
    (step : StepDef) : outcome unit :=
  validateSingleStep LoadLocation step (set_of (ids_of steps));;
  validateStepDispatch step;;
  validateWaitForEventStep step (set_of (ids_of steps));;
  if bool_decide (sd_Type step = StepTypeMap)
  then validateMapNesting step (step_types steps) else Ret tt.

(** The loop bodies of [validateAuxTargets] and [validateRetryPolicies]. *)
Definition aux_checks (steps : list StepDef) (step : StepDef) : outcome unit :=
  check_aux_target "OnFailure" (byID steps) step (sd_OnFailure step);;
  check_aux_target "Compensate" (byID steps) step (sd_Compensate step).

Lemma step_checks_iff LoadLocation steps step :
  NoDup (ids_of steps) → sd_ID step ≠ "" →
  (stepRequiresTask (sd_Type step) = true → sd_Task step ≠ "") →
  (∀ s, s ∈ steps → sd_ID s ≠ "") →
  step_checks LoadLocation steps step = Ret tt ∧ aux_checks steps step = Ret tt ∧
  sd_Retries step ≤ RetryAttemptCountMax ∧
  (∀ p, sd_Retry step = Some p → policy_ok p) ↔
  step_ok LoadLocation steps step.
Proof.
  intros Hnd Hid Htask Hids. unfold step_checks, validateSingleStep, aux_checks.
  rewrite (proj2 (empty_str_false (sd_ID step))) by done.
  cbn [panic_if mbind outcome_bind].
  rewrite !bind_unit_ret_iff, deps_check_iff, !ref_check_iff.
  rewrite validateLoopConfig_iff, validateMapConfig_iff, validateSkipIf_iff,
    validateSubWorkflowConfig_iff, validateSleepStep_iff, validateApprovalStep_iff,
    validatePlannerConfig_iff, validateRateLimit_iff, validateStepDispatch_iff,
    (validateWaitForEventStep_iff steps LoadLocation) by done.
  rewrite !fail_if_ret_iff, orb_false_iff, !Z.ltb_ge. split.
  - intros ((Hsingle & Hdisp & Hwait & Hnest) & [Haf Hac] & Hr2 & Hretry).
    destruct Hsingle as (Hr & Hdeps & Hloop & Hmap & Hskip & Hsub & Hsleep & Happr &
      Hplan & Hrate & Hof & Hco & Hconc).
    split; try done.
    + unfold config_ok in *. destruct (sd_Type step) eqn:Hty; auto.
      destruct (Hmap eq_refl). rewrite bool_decide_eq_true_2 in Hnest by done.
      rewrite validateMapNesting_iff in Hnest by done. naive_solver.
    + intros Ht c Hc. destruct (Hskip Ht c Hc) as (? & _ & ?). done.
    + by apply (check_aux_target_iff steps Hnd "OnFailure").
    + by apply (check_aux_target_iff steps Hnd "Compensate").
  - intros [_ _ Hr Hretry Hdeps Hdisp Hcfg Hskip Hrate Hf Hc Hconc].
    apply (check_aux_target_iff steps Hnd "OnFailure") in Hf as [Hf1 Hf2].
    apply (check_aux_target_iff steps Hnd "Compensate") in Hc as [Hc1 Hc2].
    unfold config_ok in *. split; [|split; [done|split; [lia|done]]].
    split; [|split; [done|split]].
    + destruct Hr as [Hr0 _], Hconc as [Hk0 Hk1]. split; [done|]. split; [done|].
      split; [by intros Hty; rewrite Hty in Hcfg|].
      split; [intros Hty; rewrite Hty in Hcfg; by destruct Hcfg as (? & ? & _)|].
      split; [|split_and!; try done; by intros Hty; rewrite Hty in Hcfg].
      intros Ht c Hcc. destruct (Hskip Ht c Hcc) as [? Hin]. split_and!; [done| |done].
      apply Hdeps, list_elem_of_fmap in Hin as (t & -> & Ht'). by apply Hids.
    + intros Hty. by rewrite Hty in Hcfg |- *.
    + case_bool_decide as Hty; [|done]. rewrite Hty in Hcfg.
      apply validateMapNesting_iff; naive_solver.
Qed.

(** ** Workflow-level checks *)

Lemma validateConcurrency_iff def :
  wd_Name def ≠ "" → wd_Steps def ≠ [] →
  validateConcurrency def = Ret tt ↔
  ∀ c, wd_Concurrency def = Some c → 0 ≤ cl_MaxSteps c ≤ 1000.
Proof.
  intros Hn Hs. unfold validateConcurrency, nil_steps.
  rewrite (proj2 (empty_str_false _)), bool_decide_eq_false_2 by done.
  cbn [panic_if mbind outcome_bind]. destruct (wd_Concurrency def) as [c|]; [|naive_solver].
  rewrite fail_if_ret_iff, orb_false_iff, !Z.ltb_ge. naive_solver.
Qed.

Lemma validateRetryPolicies_iff def :
  wd_Name def ≠ "" → wd_Steps def ≠ [] →
  validateRetryPolicies def = Ret tt ↔
  (∀ p, wd_DefaultRetry def = Some p → policy_ok p) ∧
  ∀ s, s ∈ wd_Steps def → sd_Retries s ≤ RetryAttemptCountMax ∧
    (∀ p, sd_Retry s = Some p → policy_ok p).
Proof.
  intros Hn Hs. unfold validateRetryPolicies, nil_steps, policy_ok.
  rewrite (proj2 (empty_str_false _)), bool_decide_eq_false_2 by done.
  cbn [panic_if mbind outcome_bind].
  rewrite bind_unit_ret_iff, for_each_ret_iff, Forall_forall.
  apply Morphisms_Prop.and_iff_morphism.
  - destruct (wd_DefaultRetry def) as [p|]; [|naive_solver].
    rewrite bind_unit_ret_iff, !fail_if_ret_iff, Z.ltb_ge. naive_solver.
  - apply forall_proper. intros s. apply imp_iff_compat_l.
    rewrite !bind_unit_ret_iff, fail_if_ret_iff, Z.ltb_ge.
    destruct (sd_Retry s) as [p|]; [|naive_solver].
    rewrite !fail_if_ret_iff, Z.ltb_ge. naive_solver.
Qed.

Lemma validateSticky_iff def : validateSticky def = Ret tt ↔ sticky_ok def.
Proof.
  unfold validateSticky, sticky_ok. case_bool_decide; [naive_solver|].
  rewrite !bind_unit_ret_iff, !fail_if_ret_iff, for_each_ret_iff, Forall_forall.
  setoid_rewrite fail_if_ret_iff. setoid_rewrite negb_false_iff.
  setoid_rewrite empty_str_true.
  rewrite !andb_false_iff, !negb_false_iff, bool_decide_eq_false, !bool_decide_eq_true, Z.eqb_neq.
  split.
  - intros (Hm & Ht & Hg). right. split; [|done].
    destruct Hm as [Hm|Hm]; [by left|right]. split; [done|]. by destruct Ht.
  - intros [?|[Hm Hg]]; [done|]. destruct Hm as [Hm|[Hm Ht]]; rewrite Hm; split_and!; auto.
Qed.

Lemma validatePriority_iff rule_order def :
  (∀ l, rule_order l ≡ₚ l) →
  validatePriority rule_order def = Ret tt ↔
  ∀ p, wd_Priority def = Some p → priority_ok p.
Proof.
  intros Hperm. unfold validatePriority, priority_ok.
  destruct (wd_Priority def) as [p|]; [|naive_solver].
  rewrite !bind_unit_ret_iff, !fail_if_ret_iff, for_each_ret_iff, Hperm, Forall_forall.
  setoid_rewrite fail_if_ret_iff. setoid_rewrite orb_false_iff. setoid_rewrite Z.ltb_ge.
  rewrite empty_str_false, bool_decide_eq_false.
  assert ((∀ x, x ∈ (map_to_list (prio_Rules p)).*2 → -600 ≤ x ∧ x ≤ 600) ↔
          (∀ k o, prio_Rules p !! k = Some o → -600 ≤ o ≤ 600)) as ->.
  { split.
    - intros H k o Hk. apply H. apply list_elem_of_fmap. exists (k, o).
      by rewrite elem_of_map_to_list.
    - intros H x ([k o] & -> & Hk%elem_of_map_to_list)%list_elem_of_fmap. by eapply H. }
  split; [intros H p' [= <-]|intros H; specialize (H p eq_refl)]; naive_solver lia.
Qed.

Lemma validateCancelOn_iff def :
  validateCancelOn def = Ret tt ↔
  (length (wd_CancelOn def) ≤ 5)%nat ∧ Forall cancel_on_ok (wd_CancelOn def).
Proof.
  unfold validateCancelOn. rewrite bind_unit_ret_iff, fail_if_ret_iff, Z.ltb_ge.
  rewrite for_each_i_ret_iff, Forall_lookup. setoid_rewrite wrap_err_ret_iff.
  assert (∀ co, validateCancelOnEntry co = Ret tt ↔ cancel_on_ok co) as Hco.
  { intros co. unfold validateCancelOnEntry, cancel_on_ok.
    rewrite !bind_unit_ret_iff, !fail_if_ret_iff, !negb_false_iff, bool_decide_eq_true,
      !empty_str_false.
    assert (HasPrefix (m_Right (co_Match co)) "input." = true → m_Right (co_Match co) ≠ "").
    { by intros ? Heq; rewrite Heq in *. }
    naive_solver. }
  setoid_rewrite Hco. naive_solver lia.
Qed.

Lemma validateSingleton_iff def :
  validateSingleton def = Ret tt ↔
  ∀ s, wd_Singleton def = Some s →
    sc_Mode s = SingletonModeSkip ∨ sc_Mode s = SingletonModeCancel.
Proof.
  unfold validateSingleton. destruct (wd_Singleton def) as [s|]; [|naive_solver].
  rewrite fail_if_ret_iff, andb_false_iff, !negb_false_iff, !bool_decide_eq_true. naive_solver.
Qed.

Lemma validateOutputSchema_iff def :
  wd_Name def ≠ "" → wd_Steps def ≠ [] →
  validateOutputSchema def = Ret tt ↔
  ∀ r, wd_OutputSchema def = Some r → raw_empty r = false →
    ∃ n, unmarshal_schema r = Ret n.
Proof.
  intros Hn Hs. unfold validateOutputSchema.
  rewrite (proj2 (empty_str_false _)), bool_decide_eq_false_2 by done.
  cbn [panic_if mbind outcome_bind]. destruct (wd_OutputSchema def) as [r|]; [|naive_solver].
  destruct (raw_empty r) eqn:Hr.
  { split; [intros _ r' [= <-]; congruence|done]. }
  rewrite wrap_err_ret_iff, bind_ret_iff. split.
  - intros (n & Hn' & _) r' [= <-] _. eauto.
  - intros H. destruct (H r eq_refl Hr) as [n ->]. eauto.
Qed.

Lemma validateRequiredFields_iff def :
  wd_Steps def ≠ [] →
  validateRequiredFields def = Ret tt ↔
  wd_Name def ≠ "" ∧ ∀ s, s ∈ wd_Steps def →
    sd_ID s ≠ "" ∧ (stepRequiresTask (sd_Type s) = true → sd_Task s ≠ "").
Proof.
  intros Hs. unfold validateRequiredFields, nil_steps. rewrite bool_decide_eq_false_2 by done.
  cbn [panic_if mbind outcome_bind].
  rewrite bind_unit_ret_iff, fail_if_ret_iff, empty_str_false, for_each_i_ret_iff.
  setoid_rewrite bind_unit_ret_iff. setoid_rewrite fail_if_ret_iff.
  setoid_rewrite empty_str_false. apply and_iff_compat_l.
  assert (∀ s, task_missing s = false ↔
    (stepRequiresTask (sd_Type s) = true → sd_Task s ≠ "")) as Ht.
  { intros s. unfold task_missing. rewrite andb_false_iff, empty_str_false.
    destruct (stepRequiresTask (sd_Type s)); naive_solver. }
  setoid_rewrite Ht. setoid_rewrite list_elem_of_lookup. naive_solver.
Qed.

(** ** The whole of [Validate] *)

Lemma validateStepIDs_iff def ids :
  wd_Name def ≠ "" → wd_Steps def ≠ [] →
  validateStepIDs def = Ret ids ↔
  NoDup (ids_of (wd_Steps def)) ∧ ids = set_of (ids_of (wd_Steps def)).
Proof.
  intros Hn Hs. unfold validateStepIDs, nil_steps.
  rewrite bool_decide_eq_false_2, (proj2 (empty_str_false _)) by done.
  cbn [panic_if mbind outcome_bind]. rewrite collect_ids_iff. unfold set_of. split.
  - by intros (? & _ & ->).
  - intros [? ->]. split_and!; [done| |done]. intros s _. apply is_set_empty.
Qed.

Lemma validateStepReferences_iff LoadLocation def :
  wd_Steps def ≠ [] →
  validateStepReferences LoadLocation def (set_of (ids_of (wd_Steps def))) = Ret tt ↔
  ∀ s, s ∈ wd_Steps def →
    step_checks LoadLocation (wd_Steps def) s = Ret tt ∧ aux_checks (wd_Steps def) s = Ret tt.
Proof.
  intros Hs. unfold validateStepReferences, nil_steps, validateAuxTargets.
  rewrite bool_decide_eq_false_2 by done. cbn [panic_if mbind outcome_bind].
  rewrite bind_unit_ret_iff, !for_each_ret_iff, !Forall_forall.
  split; [intros [H1 H2] s Hin; split; [exact (H1 s Hin)|exact (H2 s Hin)]|].
  intros H. split; intros s Hin; apply (H s Hin).
Qed.

Lemma step_ok_deps_exist LoadLocation steps :
  (∀ s, s ∈ steps → step_ok LoadLocation steps s) → deps_exist steps.
Proof.
  intros H d id He. apply edges_elem in He as (s & Hs & _ & Hd).
  by apply (so_deps _ _ _ (H s Hs)).
Qed.

Section Main.
Context (LoadLocation : string → outcome Location).
Context (perm : list string → list string) (rule_order : list Z → list Z).
Hypothesis perm_ok : ∀ l, perm l ≡ₚ l.
Hypothesis rule_order_ok : ∀ l, rule_order l ≡ₚ l.

Lemma Validate_wf def :
  Validate LoadLocation perm rule_order def = Ret tt → WellFormed LoadLocation def.
Proof using perm_ok rule_order_ok.
  unfold Validate, nil_steps. rewrite bind_unit_ret_iff, fail_if_ret_iff, bool_decide_eq_false.
  intros [Hs H]. rewrite bind_unit_ret_iff in H. destruct H as [Hreq H].
  apply validateRequiredFields_iff in Hreq as [Hn Hreq]; [|done].
  rewrite bind_ret_iff in H. destruct H as (ids & Hids & H).
  apply validateStepIDs_iff in Hids as [Hnd ->]; [|done..].
  rewrite !bind_unit_ret_iff in H.
  destruct H as (Href & Hconc & Hretry & Hkey & Hsticky & Hprio & Hcancel & Hsing & Hout & Hcyc).
  rewrite validateStepReferences_iff in Href by done.
  rewrite validateRetryPolicies_iff in Hretry by done. destruct Hretry as [Hdef Hretry].
  assert (∀ s, s ∈ wd_Steps def → step_ok LoadLocation (wd_Steps def) s) as Hok.
  { intros s Hin. destruct (Hreq s Hin) as [Hid Ht]. destruct (Href s Hin) as [Hc Ha].
    destruct (Hretry s Hin) as [Hr Hp].
    apply step_checks_iff; [done..|by intros t ?; apply Hreq|done]. }
  split; try done.
  - eapply (detectCycle_iff perm); [done|done|by eapply step_ok_deps_exist|done].
  - by apply validateConcurrency_iff.
  - by apply validateIdempotencyKey_iff.
  - by apply validateSticky_iff.
  - by eapply validatePriority_iff.
  - by apply validateCancelOn_iff.
  - by apply validateSingleton_iff.
  - by apply validateOutputSchema_iff.
Qed.

Lemma wf_Validate def :
  WellFormed LoadLocation def → Validate LoadLocation perm rule_order def = Ret tt.
Proof using perm_ok rule_order_ok.
  intros [Hn Hs Hnd Hok Hac Hconc Hret Hkey Hsticky Hprio Hcancel Hsing Hout].
  assert (∀ s, s ∈ wd_Steps def → sd_ID s ≠ "") as Hids by (intros s ?; by apply (Hok s)).
  assert (∀ s, s ∈ wd_Steps def →
    step_checks LoadLocation (wd_Steps def) s = Ret tt ∧
    aux_checks (wd_Steps def) s = Ret tt ∧ sd_Retries s ≤ RetryAttemptCountMax ∧
    (∀ p, sd_Retry s = Some p → policy_ok p)) as Hstep.
  { intros s Hin. apply step_checks_iff; [done|by apply Hids|apply (Hok s Hin)|done|auto]. }
  unfold Validate, nil_steps. rewrite bind_unit_ret_iff, fail_if_ret_iff, bool_decide_eq_false.
  split; [done|]. rewrite bind_unit_ret_iff, validateRequiredFields_iff by done.
  split; [split; [done|]; intros s ?; split; apply (Hok s); done|].
  rewrite bind_ret_iff. exists (set_of (ids_of (wd_Steps def))).
  split; [by apply validateStepIDs_iff|].
  rewrite !bind_unit_ret_iff, validateStepReferences_iff, validateConcurrency_iff,
    validateRetryPolicies_iff, validateIdempotencyKey_iff, validateSticky_iff,
    (validatePriority_iff rule_order), validateCancelOn_iff, validateSingleton_iff,
    validateOutputSchema_iff, detectCycle_iff by (done || by eapply step_ok_deps_exist).
  split_and!; try done; try apply Hcancel; intros s Hin;
    by destruct (Hstep s Hin) as (? & ? & ? & ?).
Qed.
End Main.
