(* ===== verification/ValidateSafety.v ===== *)
(** * The only panic of [Validate]

    The validators assert their preconditions with panics.  [Validate]
    discharges all of them before the calls, except the one of
    [validateRateLimit]: a definition makes [Validate] panic only when one
    of its steps sets both kinds of rate limit. *)

From S2P Require Import Prelude Float64 Json Types Config Condition Graph GoTime Cron Schema Validate ValidateSpec.

#[local] Open Scope Z_scope.

Create HintDb np discriminated.

(** ** Panic-freedom of the combinators *)

Lemma fail_if_no_panic b e : is_panic (fail_if b e) = false.
Proof. by destruct b. Qed.
Lemma panic_if_no_panic b msg : b = false → is_panic (panic_if b msg) = false.
Proof. by intros ->. Qed.
Lemma wrap_err_no_panic {A} w (m : outcome A) :
  is_panic m = false → is_panic (wrap_err w m) = false.
Proof. by destruct m. Qed.
Lemma for_each_no_panic {A} (f : A → outcome unit) l :
  (∀ x, x ∈ l → is_panic (f x) = false) → is_panic (for_each f l) = false.
Proof.
  induction l as [|x l IH]; intros H; cbn [for_each]; [done|].
  apply bind_no_panic; [apply H; left|]. intros _ _. apply IH. intros. apply H. by right.
Qed.
Lemma for_each_i_no_panic {A} (f : nat → A → outcome unit) l : ∀ i,
  (∀ j x, x ∈ l → is_panic (f j x) = false) → is_panic (for_each_i f i l) = false.
Proof.
  induction l as [|x l IH]; intros i H; cbn [for_each_i]; [done|].
  apply bind_no_panic; [apply H; left|]. intros _ _. apply IH. intros. apply H. by right.
Qed.

#[export] Hint Resolve fail_if_no_panic panic_if_no_panic wrap_err_no_panic
  ValidTaskType_no_panic ParseCron_no_panic : np.
#[export] Hint Extern 1 (_ = false) => reflexivity : np.

(** Splits binds and conditionals; leaves the calls. *)
Ltac np :=
  repeat first
    [ progress (auto with np)
    | apply bind_no_panic; [|intros ? ?]
    | apply wrap_err_no_panic
    | apply for_each_no_panic; intros ? ?
    | match goal with
      | |- is_panic (if ?b then _ else _) = false => destruct b eqn:?
      | |- is_panic (match ?m with None => _ | Some _ => _ end) = false => destruct m eqn:?
      end ].

Lemma parse_no_panic step :
  is_panic (ParseAgentLoopConfig step) = false ∧ is_panic (ParseMapConfig step) = false ∧
  is_panic (ParseSubWorkflowConfig step) = false ∧
  is_panic (ParseWaitForEventConfig step) = false ∧
  is_panic (ParsePlannerConfig step) = false ∧ is_panic (ParseApprovalConfig step) = false ∧
  is_panic (ParseSleepConfig step) = false.
Proof. apply parse_configs_no_panic. Qed.

Section Safety.
Context (LoadLocation : string → outcome Location).
Hypothesis LoadLocation_ok : ∀ z, is_panic (LoadLocation z) = false.
Context (step : StepDef) (Hid : sd_ID step ≠ "").
Context (Htask : stepRequiresTask (sd_Type step) = true → sd_Task step ≠ "").

Lemma id_not_empty : empty_str (sd_ID step) = false.
Proof. by apply empty_str_false. Qed.
Lemma assert_step_no_panic who : is_panic (assert_step who step) = false.
Proof. by rewrite assert_step_ok. Qed.

Ltac step_np :=
  destruct (parse_no_panic step) as (? & ? & ? & ? & ? & ? & ?);
  pose proof id_not_empty; pose proof assert_step_no_panic; np.

Lemma validateStepDispatch_no_panic : is_panic (validateStepDispatch step) = false.
Proof. unfold validateStepDispatch, ValidWorkerGroup. step_np. Qed.
Lemma validateLoopConfig_no_panic : is_panic (validateLoopConfig step) = false.
Proof. unfold validateLoopConfig. step_np. Qed.
Lemma validateMapConfig_no_panic : is_panic (validateMapConfig step) = false.
Proof. unfold validateMapConfig. step_np. Qed.
Lemma validateSkipIf_no_panic : is_panic (validateSkipIf step) = false.
Proof. unfold validateSkipIf. step_np. Qed.
Lemma validateSubWorkflowConfig_no_panic : is_panic (validateSubWorkflowConfig step) = false.
Proof. unfold validateSubWorkflowConfig. step_np. Qed.
Lemma validateApprovalStep_no_panic : is_panic (validateApprovalStep step) = false.
Proof. unfold validateApprovalStep. step_np. Qed.
Lemma validatePlannerConfig_no_panic : is_panic (validatePlannerConfig step) = false.
Proof. unfold validatePlannerConfig. step_np. Qed.
Lemma validateSleepStep_no_panic : is_panic (validateSleepStep LoadLocation step) = false.
Proof.
  unfold validateSleepStep. step_np.
  match goal with H : fail_if _ _ = Ret ?u |- _ =>
    destruct u; apply fail_if_ret_iff, Z.leb_gt in H end.
  apply panic_if_no_panic, Z.ltb_ge. lia.
Qed.
Lemma validateWaitForEventStep_no_panic ids :
  is_panic (validateWaitForEventStep step ids) = false.
Proof.
  unfold validateWaitForEventStep, validateMatchDotPaths. step_np.
  destruct (splitn_char _ _ _) as [|? [|? [|? [|? [|]]]]]; np.
Qed.
End Safety.

(** ** The whole of [Validate] *)

Definition one_rate_limit (s : StepDef) : bool :=
  match sd_RateLimit s, sd_KeyedRateLimit s with Some _, Some _ => false | _, _ => true end.

Lemma validateRateLimit_no_panic step :
  sd_ID step ≠ "" → one_rate_limit step = true → is_panic (validateRateLimit step) = false.
Proof.
  intros Hid%empty_str_false H. unfold validateRateLimit, one_rate_limit in *.
  destruct (sd_RateLimit step), (sd_KeyedRateLimit step); [done|..]; np.
Qed.

#[export] Hint Resolve validateLoopConfig_no_panic validateMapConfig_no_panic
  validateSkipIf_no_panic validateSubWorkflowConfig_no_panic validateSleepStep_no_panic
  validateApprovalStep_no_panic validatePlannerConfig_no_panic
  validateRateLimit_no_panic : np.

Lemma validateSingleStep_no_panic LoadLocation step ids :
  (∀ z, is_panic (LoadLocation z) = false) → sd_ID step ≠ "" →
  (stepRequiresTask (sd_Type step) = true → sd_Task step ≠ "") →
  one_rate_limit step = true → is_panic (validateSingleStep LoadLocation step ids) = false.
Proof.
  intros Hl Hid Ht Hr. unfold validateSingleStep.
  pose proof (proj2 (empty_str_false _) Hid).
  np.
Qed.

Lemma validateStepReferences_no_panic LoadLocation def ids :
  (∀ z, is_panic (LoadLocation z) = false) → wd_Steps def ≠ [] →
  (∀ s, s ∈ wd_Steps def → sd_ID s ≠ "" ∧
     (stepRequiresTask (sd_Type s) = true → sd_Task s ≠ "")) →
  (∀ s, s ∈ wd_Steps def → one_rate_limit s = true) →
  is_panic (validateStepReferences LoadLocation def ids) = false.
Proof.
  intros Hl Hs Hreq Hone. unfold validateStepReferences, validateAuxTargets, nil_steps.
  rewrite bool_decide_eq_false_2 by done. apply bind_no_panic; [done|intros _ _].
  cbv zeta. apply bind_no_panic; [|intros _ _].
  - apply for_each_no_panic. intros s Hin. destruct (Hreq s Hin) as [Hid Ht].
    pose proof (proj2 (empty_str_false _) Hid).
    apply bind_no_panic; [by apply validateSingleStep_no_panic; auto|intros _ _].
    apply bind_no_panic; [by apply validateStepDispatch_no_panic|intros _ _].
    apply bind_no_panic; [by apply validateWaitForEventStep_no_panic|intros _ _].
    destruct (bool_decide _) eqn:Hm; [|done]. unfold validateMapNesting. rewrite Hm. np.
  - apply for_each_no_panic. intros s Hin. unfold check_aux_target. np.
Qed.

Lemma unmarshal_schema_no_panic r : is_panic (unmarshal_schema r) = false.
Proof.
  destruct r as [|v]; [done|]. unfold unmarshal_schema. revert v. fix IH 1. intros v.
  destruct v as [| | | | | |fs]; try reflexivity. cbn [dec_schema].
  generalize zero_schemaNode as s. induction fs as [|[k w] fs IHfs]; intros s; [reflexivity|].
  repeat case_bool_decide.
  - apply bind_no_panic; [by destruct w|]. intros t _. apply IHfs.
  - apply bind_no_panic; [apply dec_strings_no_panic|]. intros t _. apply IHfs.
  - apply bind_no_panic; [|intros t _; apply IHfs].
    destruct w as [| | | | | |ps]; try reflexivity.
    generalize (sn_Properties s). induction ps as [|[pk pv] ps IHps]; intros acc; [reflexivity|].
    apply bind_no_panic; [apply IH|]. intros n _. apply IHps.
  - apply IHfs.
Qed.

Lemma collect_ids_no_panic l : ∀ ids, is_panic (collect_ids ids l) = false.
Proof.
  induction l as [|s l IH]; intros ids; [done|]. cbn [collect_ids]. by case_match.
Qed.

Lemma Validate_no_panic LoadLocation perm rule_order def :
  (∀ z, is_panic (LoadLocation z) = false) →
  (∀ l, perm l ≡ₚ l) →
  (∀ s, s ∈ wd_Steps def → one_rate_limit s = true) →
  is_panic (Validate LoadLocation perm rule_order def) = false.
Proof.
  intros Hl Hperm Hone. unfold Validate.
  apply bind_no_panic; [by apply fail_if_no_panic|intros [] Hs].
  apply fail_if_ret_iff in Hs. unfold nil_steps in Hs. apply bool_decide_eq_false in Hs.
  apply bind_no_panic.
  { unfold validateRequiredFields, nil_steps. rewrite bool_decide_eq_false_2 by done.
    apply bind_no_panic; [done|intros _ _]. apply bind_no_panic; [np|intros _ _].
    apply for_each_i_no_panic. intros. np. }
  intros [] Hreq. apply validateRequiredFields_iff in Hreq as [Hn Hreq]; [|done].
  pose proof (proj2 (empty_str_false _) Hn) as Hn'.
  assert (nil_steps def = false) as Hs' by (by apply bool_decide_eq_false).
  apply bind_no_panic.
  { unfold validateStepIDs. rewrite Hs', Hn'. cbn [panic_if mbind outcome_bind].
    apply collect_ids_no_panic. }
  intros ids _. apply bind_no_panic; [by apply validateStepReferences_no_panic|intros _ _].
  unfold validateConcurrency, validateRetryPolicies, validateIdempotencyKey, validateSticky,
    validatePriority, validateCancelOn, validateSingleton, validateOutputSchema.
  fold (nil_steps def). np.
  all: try (apply for_each_i_no_panic; intros; unfold validateCancelOnEntry; np).
  all: try apply unmarshal_schema_no_panic.
  pose proof (detectCycle_no_panic perm (wd_Steps def)) as Hd.
  destruct (detectCycle perm (wd_Steps def)); try done. by edestruct Hd.
Qed.
