(* ===== verification/Dynamic.v ===== *)
(** * Planner fragments and dynamic steps (dag/dynamic.go, dag/builder.go
    [buildAuxSteps], internal/engine/planner.go)

    A planner step returns a fragment of new steps.  The engine checks the
    cap on dynamic steps, prefixes the fragment with the planner's ID,
    validates it, hangs its entry points below the planner and appends it to
    the run.  The theorems say what [ValidateFragment] accepts and that the
    graph of a run stays well formed when a fragment is added. *)

From S2P Require Import Prelude Json Types Config Graph Depth GoTime Validate ValidateSpec ValidateSafety.
From Stdlib Require Import Ascii.
From stdpp Require Import relations.

#[local] Open Scope Z_scope.

(** ** Effective definitions *)

Definition EffectiveSteps (def : WorkflowDef) (run : WorkflowRun) : list StepDef :=
  match wr_DynamicSteps run with
  | [] => wd_Steps def
  | dyn => wd_Steps def ++ dyn
  end.

(** [buildAuxSteps] (dag/builder.go); a nil map is the empty one. *)
Definition buildAuxSteps (steps : list StepDef) : gmap string bool :=
  foldl (λ aux step,
    let aux := if empty_str (sd_OnFailure step) then aux
               else <[sd_OnFailure step := true]> aux in
    if empty_str (sd_Compensate step) then aux
    else <[sd_Compensate step := true]> aux) ∅ steps.

Definition EffectiveDef (def : WorkflowDef) (run : WorkflowRun) : outcome WorkflowDef :=
  panic_if (nil_steps def) "EffectiveDef: def must have at least one step";;
  panic_if (empty_str (wr_RunID run)) "EffectiveDef: run.RunID must not be empty";;
  match wr_DynamicSteps run with
  | [] => Ret def
  | _ =>
      let steps := EffectiveSteps def run in
      Ret (wd_set_AuxSteps (buildAuxSteps steps) (wd_set_Steps steps def))
  end.

(** ** Fragment validation *)

Fixpoint check_fragment_ids (seen existingIDs : idset) (l : list StepDef) : outcome unit :=
  match l with
  | [] => Ret tt
  | step :: l' =>
      fail_if (empty_str (sd_ID step)) (Errorf "planner fragment step has empty ID" []);;
      fail_if (is_set seen (sd_ID step))
        (Errorf "planner fragment has duplicate ID %q" [AStr (sd_ID step)]);;
      fail_if (is_set existingIDs (sd_ID step))
        (Errorf "planner fragment ID %q collides with existing step" [AStr (sd_ID step)]);;
      check_fragment_ids (<[sd_ID step := true]> seen) existingIDs l'
  end.

Definition validateFragmentIDs (fragment : list StepDef) (existingIDs : idset) : outcome unit :=
  panic_if (bool_decide (fragment = [])) "validateFragmentIDs: fragment must not be empty";;
  check_fragment_ids ∅ existingIDs fragment.

Definition validateFragmentTasks (fragment : list StepDef) (allowedTasks : list string)
    : outcome unit :=
  panic_if (bool_decide (fragment = [])) "validateFragmentTasks: fragment must not be empty";;
  let allowed := set_of allowedTasks in
  for_each (λ step,
    fail_if (empty_str (sd_Task step))
      (Errorf "planner fragment step %q has empty task" [AStr (sd_ID step)]);;
    wrap_err (λ e, Errorf "planner fragment: %w" [AErr e]) (validateStepDispatch step);;
    fail_if (negb (bool_decide (allowedTasks = [])) && negb (is_set allowed (sd_Task step)))
      (Errorf "planner fragment step %q uses disallowed task %q"
         [AStr (sd_ID step); AStr (sd_Task step)])) fragment.

Definition validateFragmentDeps (fragment : list StepDef) : outcome unit :=
  panic_if (bool_decide (fragment = [])) "validateFragmentDeps: fragment must not be empty";;
  let ids := set_of (ids_of fragment) in
  for_each (λ step,
    for_each (λ dep,
      fail_if (negb (is_set ids dep))
        (Errorf "planner fragment step %q depends on %q which is not in the fragment"
           [AStr (sd_ID step); AStr dep])) (sd_DependsOn step)) fragment.

(** [ValidateFragment]; [perm] is the iteration order of the in-degree map. *)
Definition ValidateFragment (perm : list string → list string) (fragment : list StepDef)
    (cfg : PlannerConfig) (existingIDs : idset) : outcome unit :=
  panic_if (pl_MaxSteps cfg <=? 0) "ValidateFragment: MaxSteps must be positive";;
  fail_if (bool_decide (fragment = [])) (Errorf "planner fragment is empty" []);;
  fail_if (pl_MaxSteps cfg <? Z.of_nat (length fragment))
    (Errorf "planner fragment has %d steps (max %d)"
       [AInt (Z.of_nat (length fragment)); AInt (pl_MaxSteps cfg)]);;
  validateFragmentIDs fragment existingIDs;;
  validateFragmentTasks fragment (pl_AllowedTasks cfg);;
  validateFragmentDeps fragment;;
  wrap_err (λ e, Errorf "planner fragment: %w" [AErr e]) (detectCycle perm fragment);;
  if 0 <? pl_MaxDepth cfg then
    depth ← maxChainDepth perm fragment;
    fail_if (pl_MaxDepth cfg <? depth)
      (Errorf "planner fragment depth is %d (max %d)" [AInt depth; AInt (pl_MaxDepth cfg)])
  else Ret tt.

(** ** Namespacing *)

Definition prefixed (plannerID id : string) : string := plannerID +:+ "." +:+ id.

Definition namespace_step (plannerID : string) (step : StepDef) : StepDef :=
  let step' := sd_set_Type StepTypeNormal (sd_set_ID (prefixed plannerID (sd_ID step)) step) in
  match sd_DependsOn step with
  | [] => step'
  | deps => sd_set_DependsOn (prefixed plannerID <$> deps) step'
  end.

Definition NamespaceFragment (plannerID : string) (fragment : list StepDef)
    : outcome (list StepDef) :=
  panic_if (empty_str plannerID) "NamespaceFragment: plannerID must not be empty";;
  panic_if (bool_decide (fragment = [])) "NamespaceFragment: fragment must not be empty";;
  Ret (namespace_step plannerID <$> fragment).

(** ** Materialization (internal/engine/planner.go) *)

Definition maxTotalDynamicSteps : Z := 500.

Definition checkDynamicBound (run : WorkflowRun) (fragment : list StepDef) : outcome unit :=
  panic_if (bool_decide (fragment = [])) "checkDynamicBound: fragment must not be empty";;
  let total := Z.of_nat (length (wr_DynamicSteps run)) + Z.of_nat (length fragment) in
  fail_if (maxTotalDynamicSteps <? total)
    (Errorf "total dynamic steps would be %d (max %d)" [AInt total; AInt maxTotalDynamicSteps]).

Definition buildExistingIDSet (wfDef : WorkflowDef) : outcome idset :=
  panic_if (nil_steps wfDef) "buildExistingIDSet: wfDef has no steps";;
  Ret (set_of (ids_of (wd_Steps wfDef))).

Definition wireEntrySteps (fragment : list StepDef) (plannerID : string)
    : outcome (list StepDef) :=
  panic_if (empty_str plannerID) "wireEntrySteps: plannerID must not be empty";;
  panic_if (bool_decide (fragment = [])) "wireEntrySteps: fragment must not be empty";;
  Ret ((λ step, match sd_DependsOn step with
                | [] => sd_set_DependsOn [plannerID] step
                | _ => step
                end) <$> fragment).

(** The part of [materializePlannerOutput] between parsing the payload and
    saving the run: the steps to append, or the reason the planner fails. *)
Definition plan_fragment (perm : list string → list string) (wfDef : WorkflowDef)
    (run : WorkflowRun) (planner : StepDef) (cfg : PlannerConfig) (fragment : list StepDef)
    : outcome (list StepDef) :=
  checkDynamicBound run fragment;;
  existingIDs ← buildExistingIDSet wfDef;
  namespaced ← NamespaceFragment (sd_ID planner) fragment;
  ValidateFragment perm namespaced cfg existingIDs;;
  wireEntrySteps namespaced (sd_ID planner).

(** The state change of [applyFragment]. *)
Definition apply_fragment (run : WorkflowRun) (fragment : list StepDef) : WorkflowRun :=
  wr_set_Steps
    (foldl (λ m step, <[sd_ID step := step_state StepStatusPending]> m) (wr_Steps run) fragment)
    (wr_set_DynamicSteps (wr_DynamicSteps run ++ fragment) run).

(** ** What a valid fragment is *)

Record fragment_ok (fragment : list StepDef) (cfg : PlannerConfig) (existing : idset) : Prop := {
  fo_ne : fragment ≠ [];
  fo_size : Z.of_nat (length fragment) ≤ pl_MaxSteps cfg;
  fo_unique : NoDup (ids_of fragment);
  fo_id : ∀ s, s ∈ fragment → sd_ID s ≠ "" ∧ is_set existing (sd_ID s) = false;
  fo_task : ∀ s, s ∈ fragment → task_type_ok (sd_Task s) ∧
    (sd_WorkerGroup s ≠ "" → task_type_ok (sd_WorkerGroup s) ∧
       str_contains_char "." (sd_WorkerGroup s) = false) ∧
    (pl_AllowedTasks cfg = [] ∨ sd_Task s ∈ pl_AllowedTasks cfg);
  fo_deps : deps_exist fragment;
  fo_acyclic : acyclic (edges fragment);
  fo_depth : 0 < pl_MaxDepth cfg → ∀ id n, id ∈ ids_of fragment →
    chain (edges fragment) id n → n ≤ pl_MaxDepth cfg;
}.

Lemma check_fragment_ids_iff existing l : ∀ seen,
  check_fragment_ids seen existing l = Ret tt ↔
  NoDup (ids_of l) ∧ ∀ s, s ∈ l →
    sd_ID s ≠ "" ∧ is_set seen (sd_ID s) = false ∧ is_set existing (sd_ID s) = false.
Proof.
  unfold ids_of. induction l as [|x l IH]; intros seen; cbn [check_fragment_ids]; csimpl.
  { split; [|done]. intros _. split; [constructor|by intros ? ?%elem_of_nil]. }
  rewrite !bind_unit_ret_iff, !fail_if_ret_iff, empty_str_false, IH, NoDup_cons.
  setoid_rewrite is_set_insert. split.
  - intros (Hx & Hseen & Hex & Hnd & Hl). split; [split; [|done]|].
    + intros (t & Ht & Hin)%list_elem_of_fmap. destruct (Hl t Hin) as (_ & Hs & _).
      by rewrite decide_True in Hs.
    + intros s [->|Hin]%elem_of_cons; [done|]. destruct (Hl s Hin) as (? & Hs & ?).
      by case_decide.
  - intros [[Hn Hnd] Hl]. destruct (Hl x) as (? & ? & ?); [left|].
    split_and!; [done..|]. intros s Hin. destruct (Hl s) as (? & ? & ?); [by right|].
    split_and!; [done| |done]. rewrite decide_False; [done|].
    intros Heq. apply Hn. rewrite Heq. by apply list_elem_of_fmap_2.
Qed.

Lemma deps_exist_iff steps :
  deps_exist steps ↔ ∀ s, s ∈ steps → ∀ d, d ∈ sd_DependsOn s → d ∈ ids_of steps.
Proof.
  unfold deps_exist. setoid_rewrite edges_elem. naive_solver.
Qed.

Lemma validateFragmentDeps_iff fragment :
  fragment ≠ [] → validateFragmentDeps fragment = Ret tt ↔ deps_exist fragment.
Proof.
  intros Hne. unfold validateFragmentDeps. rewrite bool_decide_eq_false_2 by done.
  cbn [panic_if mbind outcome_bind].
  rewrite for_each_ret_iff, Forall_forall, deps_exist_iff. setoid_rewrite for_each_ret_iff.
  setoid_rewrite Forall_forall. setoid_rewrite fail_if_ret_iff.
  setoid_rewrite negb_false_iff. by setoid_rewrite set_of_elem.
Qed.

Lemma validateFragmentTasks_iff fragment allowed :
  fragment ≠ [] → (∀ s, s ∈ fragment → sd_ID s ≠ "") →
  validateFragmentTasks fragment allowed = Ret tt ↔
  ∀ s, s ∈ fragment → task_type_ok (sd_Task s) ∧
    (sd_WorkerGroup s ≠ "" → task_type_ok (sd_WorkerGroup s) ∧
       str_contains_char "." (sd_WorkerGroup s) = false) ∧
    (allowed = [] ∨ sd_Task s ∈ allowed).
Proof.
  intros Hne Hids. unfold validateFragmentTasks.
  rewrite (bool_decide_eq_false_2 (fragment = [])) by done.
  cbn [panic_if mbind outcome_bind]. rewrite for_each_ret_iff, Forall_forall.
  apply forall_proper. intros s. apply forall_proper. intros Hin.
  rewrite !bind_unit_ret_iff, !fail_if_ret_iff, wrap_err_ret_iff, empty_str_false,
    andb_false_iff, !negb_false_iff, bool_decide_eq_true, set_of_elem.
  assert (task_type_ok (sd_Task s) → sd_Task s ≠ "") as Hne'.
  { intros [_ Hf] He. rewrite He in Hf. by apply Forall_cons in Hf as [[? _] _]. }
  split.
  - intros (Ht & Hd & Ha).
    destruct (proj1 (validateStepDispatch_iff s (Hids s Hin) (λ _, Ht)) Hd Ht). by split_and!.
  - intros (Ht & Hg & Ha). specialize (Hne' Ht). split_and!; [done| |done].
    by apply (validateStepDispatch_iff s (Hids s Hin) (λ _, Hne')).
Qed.

(** [ValidateFragment] accepts exactly the valid fragments. *)
Lemma ValidateFragment_ok perm fragment cfg existing :
  (∀ l, perm l ≡ₚ l) → 0 < pl_MaxSteps cfg ≤ 10000 →
  ValidateFragment perm fragment cfg existing = Ret tt ↔ fragment_ok fragment cfg existing.
Proof.
  intros Hperm Hmax. unfold ValidateFragment, validateFragmentIDs.
  rewrite (proj2 (Z.leb_gt _ _)) by lia. cbn [panic_if mbind outcome_bind].
  rewrite bind_unit_ret_iff, fail_if_ret_iff, bool_decide_eq_false.
  destruct (decide (fragment = [])) as [->|Hne];
    [split; [by intros [? _]|intros H; by destruct (fo_ne _ _ _ H)]|].
  rewrite !bind_unit_ret_iff, fail_if_ret_iff, Z.ltb_ge, (bool_decide_eq_false_2 (fragment = []))
    by done. rewrite panic_if_ret_iff, check_fragment_ids_iff, wrap_err_ret_iff.
  setoid_rewrite is_set_empty.
  split.
  - intros (_ & Hsize & (_ & Hnd & Hids) & Htasks & Hdeps & Hcyc & Hdepth).
    apply validateFragmentDeps_iff in Hdeps; [|done].
    rewrite validateFragmentTasks_iff in Htasks by (done || by intros s ?; apply Hids).
    apply detectCycle_iff in Hcyc; [|done..]. split; try done.
    + intros s Hs. by destruct (Hids s Hs) as (? & _ & ?).
    + intros Hd id n Hin Hch. rewrite (proj2 (Z.ltb_lt _ _)) in Hdepth by done.
      destruct (maxChainDepth_longest perm fragment) as (m & Hm & _ & Hle); [done|done|lia|done|done|done|].
      rewrite Hm in Hdepth. cbn in Hdepth. apply fail_if_ret_iff, Z.ltb_ge in Hdepth.
      specialize (Hle id n Hin Hch). lia.
  - intros [_ Hsize Hnd Hids Htasks Hdeps Hcyc Hdepth].
    rewrite validateFragmentDeps_iff, validateFragmentTasks_iff, detectCycle_iff
      by (done || by intros s ?; apply Hids).
    split_and!; try done; [intros s Hs; by destruct (Hids s Hs)|].
    destruct (Z.ltb_spec 0 (pl_MaxDepth cfg)) as [Hd|]; [|done].
    destruct (maxChainDepth_longest perm fragment) as (m & -> & (id & Hin & Hch) & _);
      [done|done|lia|done|done|done|]. cbn. apply fail_if_ret_iff, Z.ltb_ge. eauto.
Qed.

(** ** Adding a fragment to a graph *)

Record dag_ok (steps : list StepDef) : Prop := {
  dk_nodup : NoDup (ids_of steps);
  dk_deps : deps_exist steps;
  dk_acyclic : acyclic (edges steps);
}.

Lemma dag_ok_order steps : dag_ok steps → ∃ l, topological_order steps l.
Proof.
  intros [Hnd Hex Hac]. apply (detectCycle_order (λ l, l)); [done..|].
  by apply detectCycle_iff.
Qed.

(** The steps of a wired fragment keep their IDs; their dependencies are those
    of the fragment, or the planner for an entry point. *)
Lemma wireEntrySteps_inv fragment plannerID new :
  wireEntrySteps fragment plannerID = Ret new →
  ids_of new = ids_of fragment ∧
  ∀ s, s ∈ new → ∃ s0, s0 ∈ fragment ∧ sd_ID s = sd_ID s0 ∧
    (sd_DependsOn s = [plannerID] ∨ sd_DependsOn s = sd_DependsOn s0).
Proof.
  unfold wireEntrySteps. rewrite !bind_unit_ret_iff. intros (_ & _ & [= <-]). split.
  - unfold ids_of. rewrite <-list_fmap_compose. apply list_fmap_ext. intros i s _. cbn.
    case_match; [by destruct s|done].
  - intros s (s0 & -> & Hs0)%list_elem_of_fmap. exists s0. split; [done|].
    destruct (sd_DependsOn s0) eqn:Hd; [|by rewrite Hd; auto]. destruct s0; cbn. auto.
Qed.

Lemma append_topological old new planner lo ln frag :
  topological_order old lo → topological_order frag ln →
  ids_of new = ids_of frag → planner ∈ ids_of old →
  (∀ s, s ∈ old → (sd_ID s) ∉ ids_of frag) →
  (∀ s, s ∈ new → ∃ s0, s0 ∈ frag ∧ sd_ID s = sd_ID s0 ∧
     (sd_DependsOn s = [planner] ∨ sd_DependsOn s = sd_DependsOn s0)) →
  topological_order (old ++ new) (lo ++ ln).
Proof.
  intros [Hpo Hoo] [Hpn Hon] Hids Hpl Hdis Hnew. split.
  { unfold ids_of in *. rewrite fmap_app, Hids. by rewrite Hpo, Hpn. }
  intros i s Hs Hi d Hd. apply elem_of_app in Hs as [Hs|Hs].
  - apply lookup_app_Some in Hi as [Hi|[_ Hi]].
    + destruct (Hoo i s Hs Hi d Hd) as (j & ? & ?). exists j. split; [done|].
      by apply lookup_app_l_Some.
    + exfalso. apply (Hdis s Hs). rewrite <-Hpn. by eapply list_elem_of_lookup_2.
  - destruct (Hnew s Hs) as (s0 & Hs0 & Hid & Hdeps).
    apply lookup_app_Some in Hi as [Hi|[Hle Hi]].
    + exfalso. apply list_elem_of_lookup_2 in Hi. rewrite Hpo in Hi.
      apply list_elem_of_fmap in Hi as (t & Ht & Hin). apply (Hdis t Hin).
      rewrite <-Ht, Hid. by apply list_elem_of_fmap_2.
    + rewrite Hid in Hi. destruct Hdeps as [Hdeps|Hdeps]; rewrite Hdeps in Hd.
      * apply list_elem_of_singleton in Hd as ->. rewrite <-Hpo in Hpl.
        apply list_elem_of_lookup in Hpl as [j Hj]. exists j.
        pose proof (lookup_lt_Some _ _ _ Hj). split; [lia|]. by apply lookup_app_l_Some.
      * destruct (Hon _ s0 Hs0 Hi d Hd) as (j & Hj & Hjd). exists (length lo + j)%nat.
        split; [lia|]. rewrite lookup_app_r by lia.
        by replace (length lo + j - length lo)%nat with j by lia.
Qed.

Lemma plan_fragment_inv perm wfDef run planner cfg fragment new :
  plan_fragment perm wfDef run planner cfg fragment = Ret new →
  (∀ l, perm l ≡ₚ l) → 0 < pl_MaxSteps cfg ≤ 10000 →
  ∃ ns, NamespaceFragment (sd_ID planner) fragment = Ret ns ∧
    fragment_ok ns cfg (set_of (ids_of (wd_Steps wfDef))) ∧
    wireEntrySteps ns (sd_ID planner) = Ret new ∧
    Z.of_nat (length (wr_DynamicSteps run)) + Z.of_nat (length fragment) ≤ maxTotalDynamicSteps.
Proof.
  intros H Hperm Hmax. unfold plan_fragment, buildExistingIDSet in H.
  apply bind_unit_ret_iff in H as [Hb H]. apply bind_ret_iff in H as (ids & Hids & H).
  apply bind_unit_ret_iff in Hids as [_ [= <-]]. apply bind_ret_iff in H as (ns & Hns & H).
  apply bind_unit_ret_iff in H as [Hv Hw]. exists ns. split_and!; [done| |done|].
  - by apply (ValidateFragment_ok perm).
  - unfold checkDynamicBound in Hb. apply bind_unit_ret_iff in Hb as [_ Hb].
    apply fail_if_ret_iff, Z.ltb_ge in Hb. done.
Qed.

(** Materializing a fragment keeps the graph of the run a DAG with unique,
    existing names. *)
Lemma plan_fragment_dag perm wfDef run planner cfg fragment new :
  (∀ l, perm l ≡ₚ l) → 0 < pl_MaxSteps cfg ≤ 10000 →
  dag_ok (wd_Steps wfDef) → sd_ID planner ∈ ids_of (wd_Steps wfDef) →
  plan_fragment perm wfDef run planner cfg fragment = Ret new →
  dag_ok (wd_Steps wfDef ++ new).
Proof.
  intros Hperm Hmax Hdag Hpl H.
  destruct (plan_fragment_inv _ _ _ _ _ _ _ H Hperm Hmax) as (ns & _ & Hok & Hw & _).
  destruct (wireEntrySteps_inv _ _ _ Hw) as [Hids Hnew].
  assert (∀ s, s ∈ wd_Steps wfDef → (sd_ID s) ∉ ids_of ns) as Hdis.
  { intros s Hs (t & Heq & Ht)%list_elem_of_fmap. destruct (fo_id _ _ _ Hok t Ht) as [_ Hn].
    apply not_true_iff_false in Hn. apply Hn, set_of_elem. rewrite <-Heq.
    by apply list_elem_of_fmap_2. }
  assert (NoDup (ids_of (wd_Steps wfDef ++ new))) as Hnd.
  { unfold ids_of in *. rewrite fmap_app, Hids. apply NoDup_app. split_and!.
    - apply Hdag.
    - intros x (s & -> & Hs)%list_elem_of_fmap. by apply Hdis.
    - apply Hok. }
  destruct (dag_ok_order _ Hdag) as [lo Hlo].
  destruct (dag_ok_order ns) as [ln Hln]; [split; apply Hok|].
  split; [done| |].
  - apply deps_exist_iff. intros s [Hs|Hs]%elem_of_app d Hd; unfold ids_of; rewrite fmap_app, elem_of_app.
    + left. by apply (proj1 (deps_exist_iff _) (dk_deps _ Hdag) s Hs).
    + destruct (Hnew s Hs) as (s0 & Hs0 & _ & [Hdeps|Hdeps]); rewrite Hdeps in Hd.
      * apply list_elem_of_singleton in Hd as ->. by left.
      * right. unfold ids_of in Hids. rewrite Hids.
        by apply (proj1 (deps_exist_iff _) (fo_deps _ _ _ Hok) s0 Hs0).
  - apply topological_order_acyclic; [|done]. exists (lo ++ ln).
    by eapply append_topological.
Qed.

Lemma plan_fragment_bound perm wfDef run planner cfg fragment new :
  (∀ l, perm l ≡ₚ l) → 0 < pl_MaxSteps cfg ≤ 10000 →
  plan_fragment perm wfDef run planner cfg fragment = Ret new →
  Z.of_nat (length (wr_DynamicSteps (apply_fragment run new))) ≤ maxTotalDynamicSteps.
Proof.
  intros Hperm Hmax H.
  destruct (plan_fragment_inv _ _ _ _ _ _ _ H Hperm Hmax) as (ns & Hns & _ & Hw & Hb).
  destruct (wireEntrySteps_inv _ _ _ Hw) as [Hids _].
  unfold NamespaceFragment in Hns. rewrite !bind_unit_ret_iff in Hns.
  destruct Hns as (_ & _ & [= <-]). apply (f_equal length) in Hids. unfold ids_of in Hids.
  rewrite !length_fmap in Hids.
  assert (wr_DynamicSteps (apply_fragment run new) = wr_DynamicSteps run ++ new) as ->
    by (by destruct run). rewrite length_app. lia.
Qed.

(** ** Auxiliary steps *)

Lemma buildAuxSteps_elem steps id :
  is_set (buildAuxSteps steps) id = true ↔
  id ≠ "" ∧ ∃ s, s ∈ steps ∧ (sd_OnFailure s = id ∨ sd_Compensate s = id).
Proof.
  unfold buildAuxSteps. induction steps as [|x steps IH] using rev_ind.
  { rewrite is_set_empty. split; [done|]. intros (_ & s & Hs & _). by apply elem_of_nil in Hs. }
  rewrite foldl_snoc. setoid_rewrite elem_of_app. setoid_rewrite list_elem_of_singleton.
  set (aux := foldl _ _ _) in *.
  assert (∀ m t, is_set (if empty_str t then m else <[t := true]> m) id = true ↔
    is_set m id = true ∨ (id ≠ "" ∧ t = id)) as Hadd.
  { intros m t. unfold empty_str. case_bool_decide; [naive_solver|].
    rewrite is_set_insert. case_decide; naive_solver. }
  rewrite !Hadd, IH. split.
  - intros [[(? & s & ? & ?)|(? & Heq)]|(? & Heq)]; (split; [done|]); [by eauto|exists x; auto..].
  - intros (Hne & s & [Hs| ->] & Hor); [left; left; eauto|]. destruct Hor; auto.
Qed.

(** Applied to a definition that already holds the dynamic steps, as
    [applyFragment] does for a run that already has some, [EffectiveDef] lists
    them twice. *)
Lemma EffectiveDef_twice def run def' def'' :
  wr_DynamicSteps run ≠ [] → EffectiveDef def run = Ret def' →
  EffectiveDef def' run = Ret def'' →
  wd_Steps def'' = wd_Steps def ++ wr_DynamicSteps run ++ wr_DynamicSteps run ∧
  ¬ NoDup (ids_of (wd_Steps def'')).
Proof.
  intros Hne H1 H2. unfold EffectiveDef, EffectiveSteps in *.
  rewrite !bind_unit_ret_iff in H1, H2. destruct H1 as (_ & _ & H1), H2 as (_ & _ & H2).
  destruct (wr_DynamicSteps run) as [|s dyn]; [done|]. injection H1 as <-. injection H2 as <-.
  assert (wd_Steps (wd_set_AuxSteps (buildAuxSteps ((wd_Steps def ++ s :: dyn) ++ s :: dyn))
    (wd_set_Steps ((wd_Steps def ++ s :: dyn) ++ s :: dyn)
      (wd_set_AuxSteps (buildAuxSteps (wd_Steps def ++ s :: dyn))
        (wd_set_Steps (wd_Steps def ++ s :: dyn) def)))) =
    wd_Steps def ++ (s :: dyn) ++ s :: dyn) as Heq.
  { destruct def; cbn. by rewrite <-app_assoc. }
  assert (∀ d, wd_Steps (wd_set_AuxSteps (buildAuxSteps (wd_Steps def ++ s :: dyn))
        (wd_set_Steps (wd_Steps def ++ s :: dyn) d)) = wd_Steps def ++ s :: dyn) as Hs
    by (by intros []).
  rewrite Hs, Heq. split; [done|]. unfold ids_of. rewrite !fmap_app.
  intros (_ & _ & Hnd)%NoDup_app. apply NoDup_app in Hnd as (_ & Hdis & _).
  apply (Hdis (sd_ID s)); csimpl; left.
Qed.
