(* ===== verification/Retry.v ===== *)
(** * Retry policies (dag/retry.go)

    [ResolveRetryPolicy] picks the policy of a step, [CalculateDelay]
    computes the backoff on 64-bit durations and float64.  Where the float
    result does not fit an [int64], Go leaves the conversion to the
    implementation: the parameter [oob] stands for it. *)

From S2P Require Import Prelude Float64 Types Graph GoTime Validate ValidateSpec.

#[local] Open Scope Z_scope.

Definition ResolveRetryPolicy (wfDef : WorkflowDef) (stepDef : StepDef) : option RetryPolicy :=
  match sd_Retry stepDef with
  | Some p => Some p
  | None =>
      match wd_DefaultRetry wfDef with
      | Some p => Some p
      | None =>
          if 0 <? sd_Retries stepDef
          then Some (MkRetryPolicy (sd_Retries stepDef) RetryFixed (5 * Second) (5 * Second)
                       (f64_of_Z 0))
          else None
      end
  end.

(** The delay before the cap. *)
Definition raw_delay (oob : f64 → Z) (policy : RetryPolicy) (attempt : Z) : Z :=
  match rp_Strategy policy with
  | RetryFixed => rp_InitialDelay policy
  | RetryLinear => wrap64 (rp_InitialDelay policy * attempt)
  | RetryExponential =>
      let multiplier := if f64_leb (rp_Multiplier policy) (f64_of_Z 0)
                        then f64_two else rp_Multiplier policy in
      let d := f64_mul (f64_of_Z (rp_InitialDelay policy)) (f64_pow multiplier (attempt - 1)) in
      f64_to_int64 oob d
  end.

Definition CalculateDelay (oob : f64 → Z) (policy : RetryPolicy) (attempt : Z) : outcome Z :=
  panic_if (attempt <? 1) "CalculateDelay: attempt must be >= 1";;
  let delay := raw_delay oob policy attempt in
  if (0 <? rp_MaxDelay policy) && (rp_MaxDelay policy <? delay)
  then Ret (rp_MaxDelay policy) else Ret delay.

(** ** Facts *)

Lemma CalculateDelay_eq oob policy attempt :
  1 ≤ attempt →
  CalculateDelay oob policy attempt =
    Ret (if 0 <? rp_MaxDelay policy
         then Z.min (raw_delay oob policy attempt) (rp_MaxDelay policy)
         else raw_delay oob policy attempt).
Proof.
  intros H. unfold CalculateDelay. rewrite (proj2 (Z.ltb_ge attempt 1)) by done.
  cbn [panic_if mbind outcome_bind]. destruct (0 <? rp_MaxDelay policy); [|done]. cbn [andb].
  destruct (Z.ltb_spec (rp_MaxDelay policy) (raw_delay oob policy attempt)); f_equal; lia.
Qed.

(** Fixed and linear backoff are the documented formulas as long as the
    product fits, and then never decrease with the attempt. *)
Lemma linear_delay_exact oob policy attempt :
  rp_Strategy policy = RetryLinear → 0 ≤ rp_InitialDelay policy → 1 ≤ attempt →
  rp_InitialDelay policy * attempt ≤ int64_max →
  raw_delay oob policy attempt = rp_InitialDelay policy * attempt.
Proof.
  intros Hs Hd Ha Hm. unfold raw_delay. rewrite Hs. apply wrap64_id.
  unfold in_int64, int64_min in *. nia.
Qed.

(** The policy a step runs under in a validated definition is bounded, which
    is what the retry scheduler of the engine asserts. *)
Lemma resolved_policy_ok LoadLocation def s p :
  WellFormed LoadLocation def → s ∈ wd_Steps def →
  ResolveRetryPolicy def s = Some p →
  rp_MaxAttempts p ≤ RetryAttemptCountMax ∧ bad_multiplier (rp_Multiplier p) = false.
Proof.
  intros Hwf Hs Hp. pose proof (wf_step _ _ Hwf s Hs) as Hok. unfold ResolveRetryPolicy in Hp.
  destruct (sd_Retry s) eqn:Hr; [simplify_eq; by apply (so_retry _ _ _ Hok)|].
  destruct (wd_DefaultRetry def) eqn:Hd; [simplify_eq; by apply (wf_retry _ _ Hwf)|].
  destruct (0 <? sd_Retries s); [|done]. injection Hp as <-. cbn.
  split; [apply (so_retries _ _ _ Hok)|done].
Qed.

Example exponential_delays :
  (λ a, CalculateDelay (λ _, 0)
     (MkRetryPolicy 5 RetryExponential (100 * Millisecond) (2 * Second) (f64_of_Z 0)) a)
    <$> [1; 2; 3; 6; 30] =
  Ret <$> [100 * Millisecond; 200 * Millisecond; 400 * Millisecond; 2 * Second; 2 * Second].
Proof. vm_compute. reflexivity. Qed.

(** An exponential policy that [Validate] accepts, with the default factor 2
    and a cap of one minute: at the 36th attempt the float no longer fits a
    duration and the cap does not apply to what the conversion makes of it. *)
Definition overflowing_policy : RetryPolicy :=
  MkRetryPolicy 50 RetryExponential Second Minute (f64_of_Z 0).

Lemma exponential_overflow oob :
  oob (f64_of_Z (Second * 2 ^ 35)) < 0 →
  policy_ok overflowing_policy ∧
  ∃ d, CalculateDelay oob overflowing_policy 36 = Ret d ∧ d < 0.
Proof.
  intros Hneg. split; [split; [by vm_compute|by vm_compute]|].
  assert (raw_delay oob overflowing_policy 36 = oob (f64_of_Z (Second * 2 ^ 35))) as Hd
    by (vm_compute; reflexivity).
  rewrite CalculateDelay_eq by done. rewrite Hd. eexists. split; [done|].
  change (0 <? rp_MaxDelay overflowing_policy) with true. cbv iota. lia.
Qed.
