(* ===== verification/Keys.v ===== *)
(** * Version keys and labels (dag/defkey.go, dag/labels.go)

    The KV keys under which definition versions are stored, and the labels
    runs carry.  The version-key theorems show that the key determines the
    workflow name and the hash, that [DefHashFromVersionKey] inverts
    [DefVersionKey] and recognises no key of another workflow, and that a
    registrable name is never a version key. *)

From S2P Require Import Prelude.
From Stdlib Require Import Ascii.
From stdpp Require Import sorting.

#[local] Open Scope Z_scope.

(** ** dag/defkey.go *)

Definition defVersionKeyInfix : string := ".v.".

Definition hex_char (c : ascii) : bool := in_range "0" "9" c || in_range "a" "f" c.

(** The pattern [^[0-9a-f]{64}$] *)
Definition hex64 (s : string) : bool :=
  Nat.eqb (String.length s) 64 && str_forallb hex_char s.

Definition DefVersionKey (name hash : string) : outcome string :=
  panic_if (empty_str name) "DefVersionKey: name must not be empty";;
  panic_if (empty_str hash) "DefVersionKey: hash must not be empty";;
  Ret (name +:+ defVersionKeyInfix +:+ hash).

(** [s[n:]] for [n <= len(s)] *)
Definition str_from (n : nat) (s : string) : string :=
  String.substring n (String.length s - n) s.
Definition str_to (n : nat) (s : string) : string := String.substring 0 n s.

(** The pattern [\.v\.[0-9a-f]{64}$] matches: the last 67 bytes are the infix
    and 64 hexadecimal digits. *)
Definition IsDefVersionKey (key : string) : bool :=
  let n := String.length key in
  Nat.leb 67 n &&
  bool_decide (str_to 3 (str_from (n - 67) key) = defVersionKeyInfix) &&
  hex64 (str_from (n - 64) key).

Definition DefVersionKeyPrefix (name : string) : outcome string :=
  panic_if (empty_str name) "DefVersionKeyPrefix: name must not be empty";;
  Ret (name +:+ defVersionKeyInfix).

(** [None] is [("", false)]. *)
Definition DefHashFromVersionKey (key name : string) : outcome (option string) :=
  panic_if (empty_str name) "DefHashFromVersionKey: name must not be empty";;
  prefix ← DefVersionKeyPrefix name;
  if negb (Nat.eqb (String.length key) (String.length prefix + 64)) then Ret None
  else if negb (bool_decide (str_to (String.length prefix) key = prefix)) then Ret None
  else
    let candidate := str_from (String.length prefix) key in
    if negb (hex64 candidate) then Ret None else Ret (Some candidate).

(** *** Strings *)

Lemma str_length_app s t : String.length (s +:+ t) = (String.length s + String.length t)%nat.
Proof. induction s as [|c s IH]; [done|]. rewrite str_app_cons. cbn. by rewrite IH. Qed.

Lemma substring_0_app s t : String.substring 0 (String.length s) (s +:+ t) = s.
Proof. induction s as [|c s IH]; [by destruct t|]. rewrite str_app_cons. cbn. by rewrite IH. Qed.

Lemma substring_full s : String.substring 0 (String.length s) s = s.
Proof. rewrite <-(str_app_nil_r s) at 2. apply substring_0_app. Qed.

Lemma substring_shift s t n m :
  String.substring (String.length s + n) m (s +:+ t) = String.substring n m t.
Proof. induction s as [|c s IH]; [done|]. rewrite str_app_cons. cbn. apply IH. Qed.

Lemma str_from_app s t : str_from (String.length s) (s +:+ t) = t.
Proof.
  unfold str_from. rewrite str_length_app.
  replace (String.length s + String.length t - String.length s)%nat
    with (String.length t) by lia.
  rewrite <-(Nat.add_0_r (String.length s)), substring_shift. apply substring_full.
Qed.

Lemma str_to_app s t : str_to (String.length s) (s +:+ t) = s.
Proof. apply substring_0_app. Qed.

Lemma str_app_inj s1 s2 t1 t2 :
  String.length t1 = String.length t2 → s1 +:+ t1 = s2 +:+ t2 → s1 = s2 ∧ t1 = t2.
Proof.
  intros Ht Heq. assert (String.length s1 = String.length s2) as Hs.
  { apply (f_equal String.length) in Heq. rewrite !str_length_app in Heq. lia. }
  split.
  - rewrite <-(str_to_app s1 t1), <-(str_to_app s2 t2), Heq, Hs. done.
  - rewrite <-(str_from_app s1 t1), <-(str_from_app s2 t2), Heq, Hs. done.
Qed.

Lemma str_split_at n s : (n ≤ String.length s)%nat → s = str_to n s +:+ str_from n s.
Proof.
  unfold str_to, str_from. revert n. induction s as [|c s IH]; intros [|n] Hn; cbn in *; try done; try lia.
  - by rewrite substring_full.
  - rewrite str_app_cons. f_equal. apply IH. lia.
Qed.

(** *** The theorems *)

Lemma hex64_length s : hex64 s = true → String.length s = 64%nat.
Proof. unfold hex64. by intros [->%Nat.eqb_eq _]%andb_true_iff. Qed.

Lemma hex64_ne s : hex64 s = true → s ≠ "".
Proof. by intros H%hex64_length ->. Qed.

Lemma DefVersionKey_ok name hash :
  name ≠ "" → hash ≠ "" → DefVersionKey name hash = Ret (name +:+ ".v." +:+ hash).
Proof.
  intros Hn%empty_str_false Hh%empty_str_false. unfold DefVersionKey. by rewrite Hn, Hh.
Qed.

Lemma DefHashFromVersionKey_iff key name hash :
  name ≠ "" →
  DefHashFromVersionKey key name = Ret (Some hash) ↔
  hex64 hash = true ∧ DefVersionKey name hash = Ret key.
Proof.
  intros Hn. unfold DefHashFromVersionKey, DefVersionKeyPrefix.
  rewrite (proj2 (empty_str_false name)) by done. cbn [panic_if mbind outcome_bind].
  set (prefix := name +:+ defVersionKeyInfix). split.
  - intros H. destruct (Nat.eqb_spec (String.length key) (String.length prefix + 64)) as [Hl|]; [|done].
    cbn [negb] in H. case_bool_decide as Hp; [|done]. cbn [negb] in H.
    destruct (hex64 (str_from (String.length prefix) key)) eqn:Hh; [|done].
    injection H as <-. split; [done|]. rewrite DefVersionKey_ok by (done || by apply hex64_ne).
    f_equal. pose proof (str_split_at (String.length prefix) key ltac:(lia)) as Hsp.
    rewrite Hp in Hsp. unfold prefix in Hsp at 1. rewrite str_app_assoc in Hsp.
    exact (eq_sym Hsp).
  - intros [Hh Hk]. rewrite DefVersionKey_ok in Hk by (done || by apply hex64_ne).
    injection Hk as <-. pose proof (hex64_length _ Hh) as Hl.
    assert (name +:+ ".v." +:+ hash = prefix +:+ hash) as ->
      by (subst prefix; by rewrite str_app_assoc).
    rewrite str_length_app, Hl, Nat.eqb_refl, str_to_app, bool_decide_eq_true_2 by done.
    by rewrite str_from_app, Hh.
Qed.

Lemma DefVersionKey_inj n1 n2 h1 h2 key :
  hex64 h1 = true → hex64 h2 = true →
  DefVersionKey n1 h1 = Ret key → DefVersionKey n2 h2 = Ret key → n1 = n2 ∧ h1 = h2.
Proof.
  unfold DefVersionKey. intros H1%hex64_length H2%hex64_length.
  rewrite !bind_unit_ret_iff. intros (_ & _ & [= <-]) (_ & _ & [= Heq]).
  rewrite <-!str_app_assoc in Heq. apply str_app_inj in Heq as [Heq ->]; [|congruence].
  apply str_app_inj in Heq as [-> _]; [|done]. done.
Qed.

Lemma version_key_shape name hash key :
  hex64 hash = true → DefVersionKey name hash = Ret key → IsDefVersionKey key = true.
Proof.
  unfold DefVersionKey. intros Hh. rewrite !bind_unit_ret_iff. intros (_ & _ & [= <-]).
  pose proof (hex64_length _ Hh) as Hl. unfold IsDefVersionKey, defVersionKeyInfix.
  rewrite !str_length_app, Hl. change (String.length ".v.") with 3%nat.
  rewrite !andb_true_iff. split_and!.
  - apply Nat.leb_le. lia.
  - replace (String.length name + (3 + 64) - 67)%nat with (String.length name) by lia.
    rewrite str_from_app. apply bool_decide_eq_true. apply (str_to_app ".v.").
  - rewrite <-str_app_assoc.
    replace (String.length name + (3 + 64) - 64)%nat with (String.length (name +:+ ".v."))
      by (rewrite str_length_app; change (String.length ".v.") with 3%nat; lia).
    by rewrite str_from_app.
Qed.

(** ** dag/labels.go *)

Definition LabelsCountMax : Z := 16.
Definition LabelKeyLengthMax : Z := 64.
Definition LabelValueLengthMax : Z := 256.

(** The pattern [^[a-z0-9_.-]+$] *)
Definition label_char (c : ascii) : bool :=
  in_range "a" "z" c || in_range "0" "9" c || bool_decide (c = "_"%char) ||
  bool_decide (c = "."%char) || bool_decide (c = "-"%char).
Definition label_key_ok (key : string) : bool :=
  negb (empty_str key) && str_forallb label_char key.

Definition validateLabel (key value : string) : outcome unit :=
  fail_if (negb (label_key_ok key))
    (Errorf "labels: key %q must match %s" [AStr key; AStr "^[a-z0-9_.-]+$"]);;
  fail_if (LabelKeyLengthMax <? Z.of_nat (String.length key))
    (Errorf "labels: key %q exceeds max length %d" [AStr key; AInt LabelKeyLengthMax]);;
  fail_if (LabelValueLengthMax <? Z.of_nat (String.length value))
    (Errorf "labels: value for key %q exceeds max length %d"
       [AStr key; AInt LabelValueLengthMax]).

Definition str_le (a b : string) : Prop := String.leb a b = true.
#[global] Instance str_le_dec : RelDecision str_le := λ a b, decide (String.leb a b = true).

(** Keys are checked in sorted order. *)
Definition ValidateLabels (labels : gmap string string) : outcome unit :=
  if bool_decide (labels = ∅) then Ret tt
  else
    fail_if (LabelsCountMax <? Z.of_nat (size labels))
      (Errorf "labels: at most %d labels allowed, got %d"
         [AInt LabelsCountMax; AInt (Z.of_nat (size labels))]);;
    for_each (λ key, validateLabel key (default "" (labels !! key)))
      (merge_sort str_le ((map_to_list labels).*1)).

Definition LabelsMatch (want have : gmap string string) : outcome bool :=
  panic_if (LabelsCountMax <? Z.of_nat (size want))
    "LabelsMatch: want exceeds LabelsCountMax; caller must validate first";;
  panic_if (LabelsCountMax <? Z.of_nat (size have))
    "LabelsMatch: have exceeds LabelsCountMax; run was stored unvalidated";;
  Ret (forallb (λ '(key, value), bool_decide (default "" (have !! key) = value))
         (map_to_list want)).

Definition label_ok (key value : string) : Prop :=
  label_key_ok key = true ∧ Z.of_nat (String.length key) ≤ LabelKeyLengthMax ∧
  Z.of_nat (String.length value) ≤ LabelValueLengthMax.

Lemma ValidateLabels_ok labels :
  ValidateLabels labels = Ret tt ↔
  Z.of_nat (size labels) ≤ LabelsCountMax ∧
  ∀ k v, labels !! k = Some v → label_ok k v.
Proof.
  unfold ValidateLabels. case_bool_decide as He.
  { subst. split; [|done]. intros _. split; [done|]. intros k v. by rewrite lookup_empty. }
  rewrite bind_unit_ret_iff, fail_if_ret_iff, Z.ltb_ge, for_each_ret_iff,
    merge_sort_Permutation, Forall_forall. apply and_iff_compat_l.
  assert (∀ k v, validateLabel k v = Ret tt ↔ label_ok k v) as Hl.
  { intros k v. unfold validateLabel, label_ok.
    by rewrite !bind_unit_ret_iff, !fail_if_ret_iff, negb_false_iff, !Z.ltb_ge. }
  setoid_rewrite Hl. split.
  - intros H k v Hk. specialize (H k). rewrite Hk in H. apply H.
    apply list_elem_of_fmap. exists (k, v). by rewrite elem_of_map_to_list.
  - intros H k ([k' v] & -> & Hk%elem_of_map_to_list)%list_elem_of_fmap. cbn.
    rewrite Hk. by apply H.
Qed.

Lemma LabelsMatch_spec want have :
  Z.of_nat (size want) ≤ LabelsCountMax → Z.of_nat (size have) ≤ LabelsCountMax →
  ∃ b, LabelsMatch want have = Ret b ∧
    (b = true ↔ ∀ k v, want !! k = Some v → default "" (have !! k) = v).
Proof.
  intros Hw Hh. unfold LabelsMatch. rewrite !(proj2 (Z.ltb_ge _ _)) by done.
  eexists. split; [done|]. rewrite forallb_Forall, Forall_forall. split.
  - intros H k v Hk. apply elem_of_map_to_list in Hk. specialize (H _ Hk). cbn in H.
    by apply bool_decide_eq_true in H.
  - intros H [k v] Hk%elem_of_map_to_list. by apply bool_decide_eq_true, H.
Qed.
