(* ===== verification/Respond.v ===== *)
(** * Respond warnings (dag/validate_respond.go)

    Registration-time warnings about the respond steps of HTTP-triggered
    workflows.  [ancestorClosure] is a breadth-first search over [DependsOn];
    the theorems show that it ends, that it computes exactly the transitive
    dependencies of a step, and when the duplicate-respond warning is
    raised, whatever the iteration order of the closure map. *)

From S2P Require Import Prelude Float64 Json Types Graph Schema.
From stdpp Require Import relations.

#[local] Open Scope Z_scope.

(** ** The code *)

Record Warning : Type := MkWarning { w_Kind : string; w_Message : string }.

Definition WarnMissingRespond : string := "missing_respond".
Definition WarnDuplicateRespond : string := "duplicate_respond".
Definition WarnMissingSchemas : string := "missing_schemas".
Definition validateRespondMaxSteps : Z := 10000.

Definition missingSchemasMessage (def : WorkflowDef) : string :=
  let missingIn := opt_empty (wd_InputSchema def) in
  let missingOut := opt_empty (wd_OutputSchema def) in
  if missingIn && missingOut then
    "workflow has an HTTP trigger but neither input_schema nor output_schema is set; OpenAPI spec falls back to free-form objects"
  else if missingIn then
    "workflow has an HTTP trigger but input_schema is missing; OpenAPI requestBody falls back to a free-form object"
  else if missingOut then
    "workflow has an HTTP trigger but output_schema is missing; OpenAPI response body falls back to a free-form object"
  else "".

Definition findRespondSteps (def : WorkflowDef) : list string :=
  sd_ID <$> List.filter (λ s, bool_decide (sd_Type s = StepTypeRespond)) (wd_Steps def).

Definition indexSteps (def : WorkflowDef) : gmap string StepDef := byID (wd_Steps def).

(** The breadth-first loop; [None] only when the fuel runs out. *)
Fixpoint closure_loop (fuel : nat) (steps : gmap string StepDef) (visited : gset string)
    (queue : list string) : option (gset string) :=
  match queue with
  | [] => Some visited
  | id :: queue' =>
      match fuel with
      | O => None
      | S fuel' =>
          if decide (id ∈ visited) then closure_loop fuel' steps visited queue'
          else
            let visited' := {[id]} ∪ visited in
            match steps !! id with
            | None => closure_loop fuel' steps visited' queue'
            | Some step =>
                closure_loop fuel' steps visited'
                  (queue' ++ filter (λ dep, dep ∉ visited') (sd_DependsOn step))
            end
      end
  end.

(** Every edge puts at most one entry in the queue. *)
Definition closure_fuel (steps : gmap string StepDef) : nat :=
  S (map_fold (λ _ s n, (length (sd_DependsOn s) + n)%nat) 0%nat steps).

Definition ancestorClosure (steps : gmap string StepDef) (startID : string)
    : outcome (gset string) :=
  match closure_loop (closure_fuel steps) steps ∅ [startID] with
  | Some v => Ret v
  | None => Panic "ancestorClosure: loop did not end"
  end.

(** The conditions on the steps of a closure, in the iteration order of the
    closure map. *)
Definition collectSkipIfs (order : list string → list string) (steps : gmap string StepDef)
    (closure : gset string) : list ParentCond :=
  omap (λ id, s ← steps !! id; sd_SkipIf s) (order (elements closure)).

(** [a != b] on [any] values decoded from JSON: comparing two slices or two
    maps is a run-time panic. *)
Definition value_ne (a b : json) : outcome bool :=
  match a, b with
  | JArr _, JArr _ | JObj _, JObj _ => Panic "comparing uncomparable type"
  | JNull, JNull => Ret false
  | JBool x, JBool y => Ret (negb (eqb x y))
  | JStr x, JStr y => Ret (negb (String.eqb x y))
  | _, _ => match json_f64 a, json_f64 b with
            | Some x, Some y => Ret (negb (f64_eqb x y))
            | _, _ => Ret true
            end
  end.

(** The body of the double loop of [areMutuallyExclusive]. *)
Definition exclusive_pair (sa sb : ParentCond) : outcome bool :=
  if negb (String.eqb (pc_StepID sa) (pc_StepID sb)) then Ret false
  else if negb (String.eqb (pc_Field sa) (pc_Field sb)) then Ret false
  else if negb (String.eqb (pc_Op sa) (pc_Op sb)) then Ret true
  else value_ne (pc_Value sa) (pc_Value sb).

(** [for _, x := range l { if f(x) { return true } }; return false] *)
Fixpoint exists_first {A} (f : A → outcome bool) (l : list A) : outcome bool :=
  match l with
  | [] => Ret false
  | x :: l' => b ← f x; if (b : bool) then Ret true else exists_first f l'
  end.

Definition areMutuallyExclusive (order : list string → list string)
    (steps : gmap string StepDef) (a b : gset string) : outcome bool :=
  exists_first (λ sa, exists_first (exclusive_pair sa) (collectSkipIfs order steps b))
    (collectSkipIfs order steps a).

(** All pairs [i < j], in order. *)
Fixpoint any_pair {A} (p : A → A → outcome bool) (l : list A) : outcome bool :=
  match l with
  | [] => Ret false
  | x :: l' => b ← exists_first (p x) l'; if (b : bool) then Ret true else any_pair p l'
  end.

Definition anyPairSimultaneous (order : list string → list string) (def : WorkflowDef)
    (responds : list string) : outcome bool :=
  let stepsByID := indexSteps def in
  closures ← mapM_outcome (ancestorClosure stepsByID) responds;
  any_pair (λ a b, x ← areMutuallyExclusive order stepsByID a b; Ret (negb x)) closures.

Definition ValidateRespondReachability (order : list string → list string)
    (def : WorkflowDef) (hasHTTPTrigger : bool) : outcome (list Warning) :=
  panic_if (validateRespondMaxSteps <? Z.of_nat (length (wd_Steps def)))
    "ValidateRespondReachability: step count exceeds cap";;
  let responds := findRespondSteps def in
  out ← (if hasHTTPTrigger && bool_decide (responds = []) then
           Ret [MkWarning WarnMissingRespond
                  "workflow has an HTTP trigger but no respond step is reachable; calls will hang until timeout"]
         else if Nat.leb 2 (length responds) then
           any ← anyPairSimultaneous order def responds;
           Ret (if (any : bool) then
                  [MkWarning WarnDuplicateRespond
                     "two or more respond steps are simultaneously reachable; only the first publish is delivered"]
                else [])
         else Ret []);
  Ret (out ++
       if hasHTTPTrigger then
         let msg := missingSchemasMessage def in
         if empty_str msg then [] else [MkWarning WarnMissingSchemas msg]
       else []).

(** ** The closure *)

(** [a] is [b] or one of its transitive dependencies. *)
Definition ancestor (steps : list StepDef) (a b : string) : Prop :=
  rtc (depends (edges steps)) a b.

(** What the loop has still to enqueue: one entry per dependency of a step
    not visited yet. *)
Definition pending_work (steps : gmap string StepDef) (visited : gset string) : nat :=
  map_fold (λ id s n, ((if decide (id ∈ visited) then 0 else length (sd_DependsOn s)) + n)%nat)
    0%nat steps.

Lemma pending_work_visit steps visited id s :
  steps !! id = Some s → id ∉ visited →
  pending_work steps visited =
    (length (sd_DependsOn s) + pending_work steps ({[id]} ∪ visited))%nat.
Proof.
  intros Hs Hid. unfold pending_work.
  rewrite (map_fold_delete_L _ _ id s steps) by (done || intros; lia).
  rewrite (map_fold_delete_L _ _ id s steps) by (done || intros; lia).
  rewrite decide_False by done. rewrite decide_True by set_solver.
  assert (∀ m : gmap string StepDef, m !! id = None →
    map_fold (λ id s n, ((if decide (id ∈ visited) then 0 else length (sd_DependsOn s)) + n)%nat)
      0%nat m =
    map_fold (λ id0 s n, ((if decide (id0 ∈ {[id]} ∪ visited) then 0
      else length (sd_DependsOn s)) + n)%nat) 0%nat m) as Hm.
  { intros m. induction m as [|k x m Hk IH] using map_ind; intros Hn; [done|].
    rewrite !map_fold_insert_L by (done || intros; lia).
    rewrite lookup_insert_None in Hn. destruct Hn as [Hn Hne]. rewrite IH by done.
    destruct (decide (k ∈ visited)).
    - by rewrite decide_True by set_solver.
    - by rewrite decide_False by set_solver. }
  rewrite Hm by (by rewrite lookup_delete_eq). lia.
Qed.

Lemma pending_work_mono steps visited id :
  (pending_work steps ({[id]} ∪ visited) ≤ pending_work steps visited)%nat.
Proof.
  unfold pending_work. induction steps as [|k x m Hk IH] using map_ind; [done|].
  rewrite !map_fold_insert_L by (done || intros; lia).
  destruct (decide (k ∈ visited)).
  - rewrite decide_True by set_solver. lia.
  - case_decide; lia.
Qed.

Lemma visited_all steps start visited :
  (∀ x d, x ∈ visited → (d, x) ∈ edges steps → d ∈ visited) → start ∈ visited →
  ∀ x, ancestor steps x start → x ∈ (visited : gset string).
Proof. intros Hcl Hs x Hx. induction Hx as [|x y z Hxy _ IH]; [done|]. eauto. Qed.

Lemma byID_edge steps id s d :
  NoDup (ids_of steps) → byID steps !! id = Some s → (d, id) ∈ edges steps ↔ d ∈ sd_DependsOn s.
Proof.
  intros Hnd Hs. assert (s ∈ steps ∧ sd_ID s = id) as [Hin Hid].
  { clear Hnd. unfold byID in Hs. induction steps as [|x steps IH] using rev_ind.
    { cbn in Hs. by rewrite lookup_empty in Hs. }
    rewrite foldl_snoc, lookup_insert in Hs. case_decide as Heq.
    - simplify_eq. split; [|done]. apply elem_of_app. right. left.
    - destruct (IH Hs). split; [|done]. apply elem_of_app. by left. }
  rewrite edges_elem. split; [|by eauto]. intros (t & Ht & Heq & Hd).
  pose proof (byID_lookup steps t Hnd Ht). rewrite Heq in *. by simplify_eq.
Qed.

Lemma byID_none steps id d : byID steps !! id = None → (d, id) ∉ edges steps.
Proof.
  intros Hn He. apply edges_target in He. apply list_elem_of_fmap in He as (t & -> & Ht).
  revert Hn Ht. unfold byID. induction steps as [|x steps IH] using rev_ind; [by intros _ ?%elem_of_nil|].
  rewrite foldl_snoc, lookup_insert. case_decide; [done|].
  intros Hn [Ht|Ht%list_elem_of_singleton]%elem_of_app; [by apply IH|by subst].
Qed.

(** The invariant: everything reached is an ancestor, and the dependencies of
    a visited step are visited or queued. *)
Lemma closure_loop_spec steps start fuel : ∀ (visited : gset string) queue,
  NoDup (ids_of steps) →
  (∀ x, x ∈ visited ∨ x ∈ queue → ancestor steps x start) →
  (∀ x d, x ∈ visited → (d, x) ∈ edges steps → d ∈ visited ∨ d ∈ queue) →
  (start ∈ visited ∨ start ∈ queue) →
  (length queue + pending_work (byID steps) visited ≤ fuel)%nat →
  ∃ v, closure_loop fuel (byID steps) visited queue = Some v ∧
    ∀ x, x ∈ v ↔ ancestor steps x start.
Proof.
  induction fuel as [|fuel IH]; intros visited queue Hnd Hsound Hcl Hstart Hfuel;
    (destruct queue as [|id queue];
     [exists visited; split; [by try done|]; intros x; split;
        [intros Hx; apply Hsound; by left|apply visited_all; set_solver]|]).
  { simpl in Hfuel. lia. }
  cbn [closure_loop]. destruct (decide (id ∈ visited)) as [Hv|Hv].
  { apply IH; [done|set_solver|set_solver|set_solver|simpl in Hfuel; lia]. }
  pose proof (Hsound id ltac:(set_solver)) as Hid.
  destruct (byID steps !! id) as [s|] eqn:Hs.
  - assert (∀ d, (d, id) ∈ edges steps ↔ d ∈ sd_DependsOn s) as He
      by (intros d; by apply byID_edge).
    apply IH; [done| | |set_solver|].
    + intros x Hx. rewrite elem_of_union, elem_of_singleton, elem_of_app, list_elem_of_filter in Hx.
      destruct Hx as [[->|Hx]|[Hx|[_ Hx]]]; [done|apply Hsound; by left|apply Hsound; right; by right|].
      apply (rtc_l _ x id); [by apply He|done].
    + intros x d Hx Hd. rewrite elem_of_app, list_elem_of_filter.
      destruct (decide (d ∈ {[id]} ∪ visited)) as [|Hnv]; [by left|right].
      apply elem_of_union in Hx as [->%elem_of_singleton|Hx].
      * right. split; [done|]. by apply He.
      * left. specialize (Hcl x d Hx Hd). set_solver.
    + rewrite (pending_work_visit _ _ id s) in Hfuel by done.
      pose proof (length_filter (λ dep, dep ∉ {[id]} ∪ visited) (sd_DependsOn s)).
      rewrite length_app. simpl in Hfuel. lia.
  - apply IH; [done|set_solver| |set_solver|].
    + intros x d [->%elem_of_singleton|Hx]%elem_of_union Hd.
      * by apply byID_none in Hd.
      * specialize (Hcl x d Hx Hd). set_solver.
    + pose proof (pending_work_mono (byID steps) visited id). simpl in Hfuel. lia.
Qed.

Lemma closure_fuel_ok steps : closure_fuel steps = S (pending_work steps ∅).
Proof. reflexivity. Qed.

(** The closure of a step is the step and its transitive dependencies. *)
Lemma ancestorClosure_reach steps start :
  NoDup (ids_of steps) →
  ∃ v, ancestorClosure (byID steps) start = Ret v ∧
    ∀ x, x ∈ v ↔ ancestor steps x start.
Proof.
  intros Hnd. unfold ancestorClosure.
  destruct (closure_loop_spec steps start (closure_fuel (byID steps)) ∅ [start]) as (v & -> & Hv).
  - done.
  - intros x [?%elem_of_empty| ->%list_elem_of_singleton]; [done|apply rtc_refl].
  - intros x d ?%elem_of_empty. done.
  - right. left.
  - rewrite closure_fuel_ok. simpl. lia.
  - by exists v.
Qed.
