(* ===== verification/Input.v ===== *)
(** * Values drawn from run inputs (dag/dotpath.go, priority.go, sleep.go,
      waitforevent.go)

    Dot paths into JSON, the text [fmt.Sprintf("%v", x)] of a decoded value,
    priority offsets, sleep durations and the matches of wait-for-event steps.
    The text of a [float64] is a parameter ([fmt_float]), and so are
    [time.Parse] at RFC 3339 ([parse_rfc3339]), the zone database
    ([LoadLocation]) and the result of an out-of-range conversion to [int64]
    ([oob], which Go leaves open); the claims hold for all of them. *)

From S2P Require Import Prelude Float64 Json Types Config GoTime Cron Validate.
From Stdlib Require Import Ascii.

#[local] Open Scope Z_scope.

(** ** Dot paths *)

(** [current.(map[string]any)] and the lookup of one part after the other. *)
Fixpoint walk_path (path : string) (parts : list string) (current : json) : outcome json :=
  match parts with
  | [] => Ret current
  | part :: parts' =>
      match current with
      | JObj fs =>
          match obj_get part fs with
          | Some v => walk_path path parts' v
          | None => Err (Errorf "path %q: key %q not found" [AStr path; AStr part])
          end
      | _ => Err (Errorf "path %q: expected object at %q, got %T" [AStr path; AStr part])
      end
  end.

(** A nil slice panics, an empty one is an error. *)
Definition ExtractDotPath (path : string) (data : option raw) : outcome json :=
  panic_if (empty_str path) "ExtractDotPath: path must not be empty";;
  match data with
  | None => Panic "ExtractDotPath: data must not be nil"
  | Some r =>
      fail_if (raw_empty r) (Errorf "empty data" []);;
      current ← wrap_err (λ e, Errorf "unmarshal: %w" [AErr e]) (unmarshal_any r);
      walk_path path (split_char "." path) current
  end.

(** ** [fmt.Sprintf("%v", x)] of a decoded value *)

Fixpoint join (sep : string) (l : list string) : string :=
  match l with
  | [] => ""
  | [s] => s
  | s :: l' => s +:+ sep +:+ join sep l'
  end.

Fixpoint insert_sorted (x : string * string) (l : list (string * string)) :=
  match l with
  | [] => [x]
  | y :: l' => if String.leb x.1 y.1 then x :: l else y :: insert_sorted x l'
  end.

Definition sort_keys (l : list (string * string)) : list (string * string) :=
  foldr insert_sorted [] l.

Section Texts.
Context (fmt_float : f64 → string).

(** Maps print with sorted keys; of a repeated key the last value is kept. *)
Fixpoint Sprint (v : json) : string :=
  match v with
  | JNull => "<nil>"
  | JBool true => "true"
  | JBool false => "false"
  | JInt z => fmt_float (f64_of_Z z)
  | JDec m e => fmt_float (default (f64_of_Z 0) (f64_of_dec m e))
  | JStr s => s
  | JArr l => "[" +:+ join " " (map Sprint l) +:+ "]"
  | JObj fs =>
      let texts := map (λ '(k, w), (k, Sprint w)) fs in
      let last := map_to_list (foldl (λ (m : gmap string string) '(k, t), <[k := t]> m) ∅ texts) in
      "map[" +:+ join " " ((λ '(k, t), k +:+ ":" +:+ t) <$> sort_keys last) +:+ "]"
  end.

(** ** Priorities *)

Definition clampOffset (offset : Z) : Z :=
  if 600 <? offset then 600 else if offset <? -600 then -600 else offset.

Definition ResolvePriority (cfg : option PriorityConfig) (input : option raw) : outcome Z :=
  match cfg with
  | None => Ret 0
  | Some cfg =>
      if empty_str (prio_Key cfg) then Ret (clampOffset (prio_DefaultOffset cfg))
      else
        match ExtractDotPath (prio_Key cfg) input with
        | Panic m => Panic m
        | Err _ => Ret 0
        | Ret v =>
            Ret (match prio_Rules cfg !! Sprint v with
                 | Some offset => clampOffset offset
                 | None => clampOffset (prio_DefaultOffset cfg)
                 end)
        end
  end.

(** ** Matches of wait-for-event steps *)

Record ResolvedMatch : Type := MkResolvedMatch {
  rm_Left : string;
  rm_Op : string;
  rm_Right : json;
}.

Definition Evaluate (m : ResolvedMatch) (eventData : option raw) : outcome bool :=
  panic_if (empty_str (rm_Left m)) "ResolvedMatch.Evaluate: Left must not be empty";;
  panic_if (empty_str (rm_Op m)) "ResolvedMatch.Evaluate: Op must not be empty";;
  match ExtractDotPath (rm_Left m) eventData with
  | Panic s => Panic s
  | Err _ => Ret false
  | Ret leftVal =>
      if bool_decide (rm_Op m = MatchOpEq)
      then Ret (bool_decide (Sprint leftVal = Sprint (rm_Right m)))
      else Err (Errorf "unknown match op: %s" [AStr (rm_Op m)])
  end.
End Texts.

(** [stepOutputs] is a map that may be nil; a value in it may be nil too. *)
Definition resolveStepPath (path : string) (stepOutputs : option (gmap string (option raw)))
    : outcome json :=
  panic_if (negb (HasPrefix path "step.")) "resolveStepPath: path must start with step.";;
  match stepOutputs with
  | None => Panic "resolveStepPath: stepOutputs must not be nil"
  | Some outputs =>
      match splitn_char "." 4 path with
      | [_; id; _; field] =>
          match outputs !! id with
          | None => Err (Errorf "step %s has no output" [AStr id])
          | Some data =>
              wrap_err (λ e, Errorf "resolve %s: %w" [AStr path; AErr e])
                (ExtractDotPath field data)
          end
      | _ => Err (Errorf "invalid step path: %s" [AStr path])
      end
  end.

(** [strings.TrimPrefix(path, "input.")] *)
Definition trim_input (path : string) : string :=
  if HasPrefix path "input." then String.substring 6 (String.length path - 6) path else path.

Definition resolveInputPath (path : string) (workflowInput : option raw) : outcome json :=
  panic_if (negb (HasPrefix path "input.")) "resolveInputPath: path must start with input.";;
  match workflowInput with
  | None => Panic "resolveInputPath: workflowInput must not be nil"
  | Some _ =>
      wrap_err (λ e, Errorf "resolve %s: %w" [AStr path; AErr e])
        (ExtractDotPath (trim_input path) workflowInput)
  end.

Definition Resolve (m : Match_) (stepOutputs : option (gmap string (option raw)))
    (workflowInput : option raw) : outcome ResolvedMatch :=
  panic_if (empty_str (m_Right m)) "Match.Resolve: Right must not be empty";;
  panic_if (empty_str (m_Left m)) "Match.Resolve: Left must not be empty";;
  val ← (if HasPrefix (m_Right m) "step." then resolveStepPath (m_Right m) stepOutputs
         else if HasPrefix (m_Right m) "input." then resolveInputPath (m_Right m) workflowInput
         else Err (Errorf "unknown path prefix in %s" [AStr (m_Right m)]));
  Ret (MkResolvedMatch (m_Left m) (m_Op m) val).

(** ** Sleep durations *)

Section Sleep.
Context (LoadLocation : string → outcome Location).
Context (parse_rfc3339 : string → option Time).
Context (oob : f64 → Z).

Definition raw_len0 (r : option raw) : bool :=
  match r with None => true | Some r => raw_empty r end.

Definition cronZoneFromInput (path : string) (runInput : option raw) : outcome string :=
  panic_if (empty_str path) "cronZoneFromInput: path must not be empty";;
  fail_if (raw_len0 runInput)
    (Errorf "sleep cron_timezone_input_path %q: run input is empty" [AStr path]);;
  value ← wrap_err (λ e, Errorf "sleep cron_timezone_input_path %q: %w" [AStr path; AErr e])
            (ExtractDotPath path runInput);
  let bad := Err (Errorf "sleep cron_timezone_input_path %q: want a zone name, got %v" [AStr path]) in
  match value with
  | JStr name => if empty_str name then bad else Ret name
  | _ => bad
  end.

(** The zone; an error comes with UTC in the source, which every caller uses. *)
Definition CronSleepLocation (cfg : SleepConfig) (runInput : option raw) : outcome Location :=
  panic_if (empty_str (sl_Cron cfg)) "CronSleepLocation: cfg must be a cron sleep";;
  checkCronZoneFields cfg;;
  name ← (if empty_str (sl_CronTimezoneInputPath cfg) then Ret (sl_CronTimezone cfg)
          else cronZoneFromInput (sl_CronTimezoneInputPath cfg) runInput);
  if empty_str name then Ret UTC
  else wrap_err (λ e, Errorf "sleep cron zone %q: %w" [AStr name; AErr e]) (LoadLocation name).

Definition resolveCronSleep (expr : string) (now : Time) (loc : Location) : outcome Z :=
  panic_if (empty_str expr) "resolveCronSleep: expr must not be empty";;
  panic_if (IsZero now) "resolveCronSleep: now must not be zero";;
  parsed ← wrap_err (λ e, Errorf "sleep cron %q: %w" [AStr expr; AErr e]) (ParseCron expr);
  next ← NextN parsed loc now 1;
  match next with
  | [] => Err (Errorf "sleep cron %q: no next occurrence after %s" [AStr expr; AInt now])
  | t :: _ =>
      let delay := Time_Sub t now in
      panic_if (delay <=? 0) "resolveCronSleep: next occurrence must follow now";;
      Ret delay
  end.

Definition maxSleepMillis : f64 := f64_of_Z (maxSleepDuration / Millisecond).

Definition untilValueToDuration (path : string) (value : json) (now : Time) : outcome Z :=
  panic_if (empty_str path) "untilValueToDuration: path must not be empty";;
  panic_if (IsZero now) "untilValueToDuration: now must not be zero";;
  match value with
  | JStr v =>
      match parse_rfc3339 v with
      | None => Err (Errorf "sleep until_input_path %q: %q is not an RFC3339 instant"
                       [AStr path; AStr v])
      | Some deadline => Ret (if deadline <? now then 0 else Time_Sub deadline now)
      end
  | JInt _ | JDec _ _ =>
      let v := default (f64_of_Z 0) (json_f64 value) in
      fail_if (negb (f64_leb (f64_of_Z 0) v))
        (Errorf "sleep until_input_path %q: milliseconds must not be negative, got %v"
           [AStr path]);;
      fail_if (negb (f64_leb v maxSleepMillis))
        (Errorf "sleep until_input_path %q: %.0f ms exceeds max %v"
           [AStr path; AInt maxSleepDuration]);;
      Ret (wrap64 (f64_to_int64 oob v * Millisecond))
  | _ => Err (Errorf "sleep until_input_path %q: expected RFC3339 string or milliseconds number, got %T"
                [AStr path])
  end.

Definition resolveUntilSleep (path : string) (runInput : option raw) (now : Time) : outcome Z :=
  panic_if (empty_str path) "resolveUntilSleep: path must not be empty";;
  panic_if (IsZero now) "resolveUntilSleep: now must not be zero";;
  fail_if (raw_len0 runInput)
    (Errorf "sleep until_input_path %q: run input is empty" [AStr path]);;
  value ← wrap_err (λ e, Errorf "sleep until_input_path %q: %w" [AStr path; AErr e])
            (ExtractDotPath path runInput);
  untilValueToDuration path value now.

Definition ResolveSleepDuration (cfg : SleepConfig) (runInput : option raw) (now : Time)
    : outcome Z :=
  panic_if (IsZero now) "ResolveSleepDuration: now must not be zero";;
  fail_if (negb (formCount cfg =? 1))
    (Errorf "sleep config must set exactly one of duration, cron, until_input_path; got %d"
       [AInt (formCount cfg)]);;
  checkCronZoneFields cfg;;
  resolved ←
    (if negb (empty_str (sl_Cron cfg)) then
       match CronSleepLocation cfg runInput with
       | Panic m => Panic m
       | Ret loc => resolveCronSleep (sl_Cron cfg) now loc
       | Err _ => resolveCronSleep (sl_Cron cfg) now UTC
       end
     else if negb (empty_str (sl_UntilInputPath cfg)) then
       resolveUntilSleep (sl_UntilInputPath cfg) runInput now
     else
       fail_if (sl_Duration cfg <? 0)
         (Errorf "sleep duration must be positive, got %v" [AInt (sl_Duration cfg)]);;
       Ret (sl_Duration cfg));
  checkSleepBound resolved;;
  Ret resolved.
End Sleep.

(** ** Sleep durations are in range, and no input breaks their resolution *)

Lemma f64_between v mc ec :
  f64_leb (S754_zero false) v = true → f64_leb v (S754_finite false mc ec) = true →
  (∃ s, v = S754_zero s) ∨
  ∃ m e, v = S754_finite false m e ∧ (e < ec ∨ e = ec ∧ Z.pos m ≤ Z.pos mc).
Proof.
  destruct v as [s|[]| |[] m e]; try done; intros _ Hm; [left; by exists s|].
  cbv beta iota delta [f64_leb SFleb SFcompare] in Hm. right. exists m, e. split; [done|].
  destruct (Z.compare_spec e ec) as [->|Hlt|Hgt]; [|by left|done]. right. split; [done|].
  change (m ≤ mc)%positive. intros Hc. unfold Pos.compare in Hc. by rewrite Hc in Hm.
Qed.

Lemma maxSleepMillis_value :
  maxSleepMillis = S754_finite false 8266973184000000 (-18).
Proof. vm_compute. reflexivity. Qed.

Lemma max_millis : maxSleepDuration / Millisecond = 31536000000.
Proof. vm_compute. reflexivity. Qed.

(** A float between 0 and the bound truncates to an integer between them. *)
Lemma millis_trunc v :
  f64_leb (S754_zero false) v = true → f64_leb v maxSleepMillis = true →
  (∀ s m e, v = S754_finite s m e → Z.pos m < 2 ^ 53) →
  ∃ z, f64_trunc v = Some z ∧ 0 ≤ z ≤ maxSleepDuration / Millisecond.
Proof.
  rewrite maxSleepMillis_value, max_millis. intros H0 Hm Hb.
  destruct (f64_between _ _ _ H0 Hm) as [[s ->]|(m & e & -> & Hc)].
  { exists 0. split; [done|lia]. }
  specialize (Hb false m e eq_refl). clear H0 Hm. unfold f64_trunc.
  rewrite (proj2 (Z.leb_gt 0 e)) by lia. eexists. split; [done|].
  split; [apply Z.div_pos; [lia|]; apply Z.pow_pos_nonneg; lia|].
  apply Z.div_le_upper_bound; [apply Z.pow_pos_nonneg; lia|].
  destruct Hc as [Hlt|[-> Hle]].
  - assert (2 ^ 19 ≤ 2 ^ (- e)) as Hp by (apply Z.pow_le_mono_r; lia). lia.
  - change (2 ^ (- -18)) with 262144. lia.
Qed.

Lemma f64_of_Z_mantissa z s m e : f64_of_Z z = S754_finite s m e → Z.pos m < 2 ^ 53.
Proof. by apply binary_normalize_mantissa. Qed.

Lemma json_f64_mantissa v f s m e :
  json_f64 v = Some f → f = S754_finite s m e → Z.pos m < 2 ^ 53.
Proof.
  destruct v; simpl; try done.
  - intros [= <-]. apply f64_of_Z_mantissa.
  - unfold f64_of_dec. intros Hf ->. repeat case_match; simplify_eq;
      by eapply binary_normalize_mantissa.
Qed.

Section SleepSpec.
Context (LoadLocation : string → outcome Location).
Context (parse_rfc3339 : string → option Time).
Context (oob : f64 → Z).
Hypothesis zones_safe : ∀ z, is_panic (LoadLocation z) = false.

Lemma walk_path_safe path parts : ∀ v, is_panic (walk_path path parts v) = false.
Proof.
  induction parts as [|p parts IH]; intros v; simpl; [done|]. destruct v; try done.
  by destruct (obj_get p fs).
Qed.

Lemma ExtractDotPath_safe path r : path ≠ "" → is_panic (ExtractDotPath path (Some r)) = false.
Proof.
  intros Hp%empty_str_false. unfold ExtractDotPath. rewrite Hp. cbn.
  destruct (raw_empty r); [done|]. cbn. unfold unmarshal_any. repeat case_match; try done.
  all: simplify_eq/=; try done. all: apply walk_path_safe.
Qed.

Lemma obj_get_numbers k fs v :
  obj_get k fs = Some v → json_numbers_ok (JObj fs) = true → json_numbers_ok v = true.
Proof.
  unfold obj_get. intros Hf Hok. simpl in Hok. apply fmap_Some in Hf as ([k' w] & Hf & ->).
  apply find_first_Some in Hf as [Hin _]. rewrite elem_of_reverse in Hin.
  rewrite forallb_Forall, Forall_forall in Hok. by specialize (Hok _ Hin).
Qed.

Lemma ExtractDotPath_numbers path r v :
  ExtractDotPath path r = Ret v → json_numbers_ok v = true.
Proof.
  unfold ExtractDotPath. rewrite bind_unit_ret_iff. intros [_ H]. destruct r as [r|]; [|done].
  rewrite bind_unit_ret_iff in H. destruct H as [_ H].
  apply bind_ret_iff in H as (c & Hc%wrap_err_ret_iff & H).
  assert (json_numbers_ok c = true) as Hok.
  { unfold unmarshal_any in Hc. repeat case_match; by simplify_eq. }
  clear Hc. revert c Hok H. generalize (split_char "." path) as parts.
  induction parts as [|p parts IH]; simpl; intros c Hok H; [by simplify_eq|].
  destruct c as [| | | | | |fs]; try done. destruct (obj_get p fs) as [w|] eqn:Hw; [|done].
  eapply (IH w); [|exact H]. by eapply obj_get_numbers.
Qed.

(** The delay a value of the run's input asks for, from [now]. *)
Inductive until_delay (now : Time) : json → Z → Prop :=
  | until_instant s t : parse_rfc3339 s = Some t → until_delay now (JStr s) (Z.max 0 (t - now))
  | until_millis v f z :
      json_f64 v = Some f → f64_trunc f = Some z → 0 ≤ z ≤ maxSleepDuration / Millisecond →
      until_delay now v (z * Millisecond).

Lemma untilValueToDuration_spec path v now :
  path ≠ "" → IsZero now = false → json_numbers_ok v = true →
  match untilValueToDuration parse_rfc3339 oob path v now with
  | Ret d => 0 ≤ d ∧ (d ≤ maxSleepDuration → until_delay now v d)
  | Err _ => True
  | Panic _ => False
  end.
Proof.
  intros Hp%empty_str_false Hnow Hnum. unfold untilValueToDuration. rewrite Hp, Hnow.
  cbn [mbind outcome_bind panic_if].
  assert (∀ f, json_f64 v = Some f →
    match fail_if (negb (f64_leb (f64_of_Z 0) f))
        (Errorf "sleep until_input_path %q: milliseconds must not be negative, got %v" [AStr path]) ≫=
      (λ _, fail_if (negb (f64_leb f maxSleepMillis))
        (Errorf "sleep until_input_path %q: %.0f ms exceeds max %v" [AStr path; AInt maxSleepDuration]) ≫=
      λ _, Ret (wrap64 (f64_to_int64 oob f * Millisecond))) with
    | Ret d => 0 ≤ d ∧ (d ≤ maxSleepDuration → until_delay now v d)
    | Err _ => True
    | Panic _ => False
    end) as Hmillis.
  { intros f Hf. change (f64_of_Z 0) with (S754_zero false).
    destruct (f64_leb (S754_zero false) f) eqn:H0; [|done].
    destruct (f64_leb f maxSleepMillis) eqn:Hm; [|done]. cbn [negb fail_if mbind outcome_bind].
    destruct (millis_trunc f H0 Hm) as (z & Hz & Hb).
    { intros s m e. by eapply json_f64_mantissa. }
    rewrite max_millis in Hb.
    rewrite (f64_to_int64_in_range oob f z Hz) by (unfold in_int64, int64_min, int64_max; lia).
    rewrite wrap64_id by (unfold in_int64, int64_min, int64_max, Millisecond; lia).
    split; [unfold Millisecond; lia|]. intros _.
    apply (until_millis _ _ f); [done..|]. by rewrite max_millis. }
  destruct v as [| |z|m e|s| |]; try done.
  - by apply Hmillis.
  - simpl in Hnum. destruct (f64_of_dec m e) as [f|] eqn:Hf; [|done].
    cbn [json_f64 default from_option]. rewrite Hf. by apply Hmillis.
  - destruct (parse_rfc3339 s) as [t|] eqn:Ht; [|done].
    unfold Time_Sub. destruct (t <? now) eqn:Hlt.
    + split; [lia|]. intros _. replace 0 with (Z.max 0 (t - now)) by lia. by constructor.
    + split; [unfold int64_min, int64_max; lia|]. intros Hd.
      replace (Z.max int64_min (Z.min int64_max (t - now))) with (Z.max 0 (t - now)); [by constructor|].
      assert (maxSleepDuration < int64_max) by done. unfold int64_min, int64_max in *. lia.
Qed.

(** What a valid configuration asks for. *)
Inductive sleep_delay (cfg : SleepConfig) (input : option raw) (now : Time) : Z → Prop :=
  | delay_fixed : 0 < sl_Duration cfg → sleep_delay cfg input now (sl_Duration cfg)
  | delay_until v d :
      ExtractDotPath (sl_UntilInputPath cfg) input = Ret v → until_delay now v d →
      sleep_delay cfg input now d
  | delay_cron loc d :
      CronSleepLocation LoadLocation cfg input = Ret loc ∨
        (is_ret (CronSleepLocation LoadLocation cfg input) = false ∧ loc = UTC) →
      first_minutes (expr_allows (Fields (sl_Cron cfg)) loc) now 1 [now + d] →
      sleep_delay cfg input now d.

Lemma cronZoneFromInput_safe path input :
  path ≠ "" → is_panic (cronZoneFromInput path input) = false.
Proof.
  intros Hp. unfold cronZoneFromInput. rewrite (proj2 (empty_str_false path) Hp). cbn.
  destruct input as [r|]; [|done]. cbn. destruct (raw_empty r); [done|]. cbn.
  pose proof (ExtractDotPath_safe path r Hp) as Hsafe.
  destruct (ExtractDotPath path (Some r)) as [v| |]; [|done..]. cbn.
  destruct v as [| | | |name| |]; try done. by destruct (empty_str name).
Qed.

Lemma checkCronZoneFields_safe cfg : is_panic (checkCronZoneFields cfg) = false.
Proof. unfold checkCronZoneFields, fail_if. by repeat case_match. Qed.

Lemma bind_safe {A B} (m : outcome A) (f : A → outcome B) :
  is_panic m = false → (∀ a, m = Ret a → is_panic (f a) = false) → is_panic (m ≫= f) = false.
Proof. destruct m; simpl; auto. Qed.

Lemma CronSleepLocation_safe cfg input :
  sl_Cron cfg ≠ "" → is_panic (CronSleepLocation LoadLocation cfg input) = false.
Proof using zones_safe.
  intros Hc%empty_str_false. unfold CronSleepLocation. rewrite Hc. cbn [panic_if mbind outcome_bind].
  apply bind_safe; [apply checkCronZoneFields_safe|]. intros [] _. apply bind_safe.
  - destruct (empty_str (sl_CronTimezoneInputPath cfg)) eqn:Hp; [done|].
    by apply cronZoneFromInput_safe, empty_str_false.
  - intros name _. destruct (empty_str name); [done|]. specialize (zones_safe name).
    by destruct (LoadLocation name).
Qed.

Lemma resolveCronSleep_spec expr now loc :
  expr ≠ "" → zero_time < now →
  match resolveCronSleep expr now loc with
  | Ret d => 0 ≤ d ∧ first_minutes (expr_allows (Fields expr) loc) now 1 [now + d]
  | Err _ => True
  | Panic _ => False
  end.
Proof.
  intros He%empty_str_false Hnow. unfold resolveCronSleep, IsZero.
  rewrite He, (proj2 (Z.eqb_neq now zero_time)) by lia. cbn [panic_if mbind outcome_bind].
  pose proof (ParseCron_no_panic expr) as Hsafe.
  destruct (ParseCron expr) as [c|e|m] eqn:Hp; [|done..]. cbn [wrap_err mbind outcome_bind].
  destruct (NextN_first expr c loc now 1 Hp Hnow) as (l & Hl & Hfm); [lia|]. rewrite Hl.
  cbn [mbind outcome_bind]. change (Z.to_nat 1) with 1%nat in Hfm.
  pose proof (fm_length _ _ _ _ Hfm) as Hlen. destruct l as [|t [|t' l]]; [done| |simpl in Hlen; lia].
  destruct (fm_sound _ _ _ _ Hfm t) as (_ & _ & Ht); [by left|].
  assert (maxScanMinutes * Minute ≤ int64_max) as Hmax by done.
  assert (Time_Sub t now = t - now) as -> by (unfold Time_Sub, int64_min in *; lia).
  rewrite (proj2 (Z.leb_gt (t - now) 0)) by lia. cbn [panic_if mbind outcome_bind].
  split; [lia|]. by replace (now + (t - now)) with t by lia.
Qed.

Lemma resolveUntilSleep_spec path input now :
  path ≠ "" → zero_time < now →
  match resolveUntilSleep parse_rfc3339 oob path input now with
  | Ret d => 0 ≤ d ∧ (d ≤ maxSleepDuration →
      ∃ v, ExtractDotPath path input = Ret v ∧ until_delay now v d)
  | Err _ => True
  | Panic _ => False
  end.
Proof.
  intros Hp Hnow. assert (IsZero now = false) as Hz by (unfold IsZero; lia).
  unfold resolveUntilSleep. rewrite (proj2 (empty_str_false path) Hp), Hz.
  cbn [panic_if mbind outcome_bind].
  destruct input as [r|]; [|done]. cbn [raw_len0]. destruct (raw_empty r) eqn:Hr; [done|].
  cbn [fail_if mbind outcome_bind]. pose proof (ExtractDotPath_safe path r Hp) as Hsafe.
  destruct (ExtractDotPath path (Some r)) as [v| |] eqn:Hv; [|done..].
  cbn [wrap_err mbind outcome_bind].
  pose proof (untilValueToDuration_spec path v now Hp Hz (ExtractDotPath_numbers _ _ _ Hv)) as Hu.
  destruct (untilValueToDuration _ _ _ _ _) as [d| |]; [|done..]. naive_solver.
Qed.

Lemma ResolveSleepDuration_spec cfg input now :
  zero_time < now →
  match ResolveSleepDuration LoadLocation parse_rfc3339 oob cfg input now with
  | Ret d => 0 ≤ d ≤ maxSleepDuration ∧ sleep_delay cfg input now d
  | Err _ => True
  | Panic _ => False
  end.
Proof using zones_safe.
  intros Hnow. assert (IsZero now = false) as Hz by (unfold IsZero; lia).
  unfold ResolveSleepDuration. rewrite Hz. cbn [panic_if mbind outcome_bind].
  destruct (formCount cfg =? 1) eqn:Hform; [|done]. cbn [negb fail_if mbind outcome_bind].
  pose proof (checkCronZoneFields_safe cfg) as Hzf.
  destruct (checkCronZoneFields cfg) as [[]| |] eqn:Hzone; [|done..]. cbn [mbind outcome_bind].
  assert (∀ o, match o with
    | Ret d => 0 ≤ d ∧ (d ≤ maxSleepDuration → sleep_delay cfg input now d)
    | Err _ => True | Panic _ => False end →
    match o ≫= (λ d, checkSleepBound d ≫= λ _, Ret d) with
    | Ret d => 0 ≤ d ≤ maxSleepDuration ∧ sleep_delay cfg input now d
    | Err _ => True
    | Panic _ => False
    end) as Hend.
  { intros [d| |]; [|done..]. intros [Hd Hs]. cbn [mbind outcome_bind]. unfold checkSleepBound.
    change (maxSleepDuration <=? 0) with false. rewrite (proj2 (Z.ltb_ge d 0)) by lia.
    cbn [panic_if mbind outcome_bind]. destruct (maxSleepDuration <? d) eqn:Hb; [done|].
    cbn [fail_if mbind outcome_bind]. split; [lia|]. apply Hs. lia. }
  apply Hend. clear Hend.
  destruct (empty_str (sl_Cron cfg)) eqn:Hc; cbn [negb];
    [destruct (empty_str (sl_UntilInputPath cfg)) eqn:Hu; cbn [negb]|].
  - unfold formCount in Hform. rewrite Hc, Hu in Hform.
    destruct (sl_Duration cfg <? 0) eqn:Hd; [done|]. cbn [fail_if mbind outcome_bind].
    destruct (sl_Duration cfg =? 0) eqn:H0; [done|]. split; [lia|]. intros _. constructor. lia.
  - apply empty_str_false in Hu. pose proof (resolveUntilSleep_spec _ input now Hu Hnow) as Hs.
    destruct (resolveUntilSleep _ _ _ _ _) as [d| |]; [|done..].
    destruct Hs as [Hd Hs]. split; [done|]. intros (v & Hv & Hdel)%Hs. by econstructor.
  - apply empty_str_false in Hc. pose proof (CronSleepLocation_safe cfg input Hc) as Hsafe.
    assert (∀ loc, (CronSleepLocation LoadLocation cfg input = Ret loc ∨
        is_ret (CronSleepLocation LoadLocation cfg input) = false ∧ loc = UTC) →
      match resolveCronSleep (sl_Cron cfg) now loc with
      | Ret d => 0 ≤ d ∧ (d ≤ maxSleepDuration → sleep_delay cfg input now d)
      | Err _ => True | Panic _ => False end) as Hcron.
    { intros loc Hloc. pose proof (resolveCronSleep_spec _ now loc Hc Hnow) as Hs.
      destruct (resolveCronSleep _ _ _) as [d| |]; [|done..]. destruct Hs as [Hd Hs].
      split; [done|]. intros _. by econstructor. }
    destruct (CronSleepLocation _ _ _) as [loc| |]; [..|done]; apply Hcron; auto.
Qed.
End SleepSpec.
