(* ===== verification/Kv.v ===== *)
(** * Key-value buckets

    The interface of a NATS JetStream key-value bucket, the store the engine
    keeps slots, locks, leases, snapshots and indexes in.  The server is not
    part of the program: a bucket is a type with operations ([Kv]) and the
    documented behaviour the program relies on ([KvLaws]): every write of a key
    gets a revision larger than every earlier revision of the bucket, [Create]
    succeeds only on a key without a live value, [Update] and a guarded
    [Delete] only at the key's last revision; [kv_list] names the live keys,
    [kv_subjects] also the deleted ones, and [kv_replay] replays the live keys
    in the order of their last writes (a key may be repeated).
    [bucket] is a concrete
    instance.

    [kv_reply] is what a client may see of a call: the exact reply; a reply
    lost after the call took effect; a call refused without effect; and, for a
    read that is not routed to the stream leader, a value the key had earlier
    (a lagging replica). *)

From S2P Require Import Prelude Interleave.
From stdpp Require Import sorting.

#[local] Open Scope Z_scope.

Inductive kv_error : Type :=
  | ErrKeyNotFound
  | ErrKeyExists
  | ErrKeyRevisionMismatch
  | KvFailed.

#[global] Instance kv_error_eq_dec : EqDecision kv_error.
Proof. solve_decision. Defined.

(** A stored entry; [ent_created] is the server's timestamp. *)
Record entry (V : Type) : Type := MkEntry {
  ent_value : V;
  ent_revision : N;
  ent_created : Z;
}.
Arguments MkEntry {V} _ _ _.
Arguments ent_value {V} _.
Arguments ent_revision {V} _.
Arguments ent_created {V} _.

Class Kv (V B : Type) : Type := {
  kv_get : B → string → option (entry V);
  kv_rev : B → string → N;
  kv_create : B → string → V → option (B * N);
  kv_update : B → string → V → N → option (B * N);
  kv_put : B → string → V → B * N;
  kv_delete : B → string → option N → option B;
  kv_list : B → list string;
  kv_subjects : B → list string;
  kv_replay : B → list string;
}.

(** [b'] is [b] after a message for [k] at revision [r]: a value, or the
    marker of a deletion. *)
Definition wrote {V B} `{Kv V B} (b : B) (k : string) (v : option V) (r : N) (b' : B)
    : Prop :=
  (∀ k', (kv_rev b k' < r)%N) ∧ kv_rev b' k = r ∧
  match v with
  | Some x => ∃ t, kv_get b' k = Some (MkEntry x r t)
  | None => kv_get b' k = None
  end ∧
  ∀ k', k' ≠ k → kv_get b' k' = kv_get b k' ∧ kv_rev b' k' = kv_rev b k'.

Class KvLaws (V B : Type) `{Kv V B} : Prop := {
  kv_get_rev b k e : kv_get b k = Some e → kv_rev b k = ent_revision e ∧ (0 < kv_rev b k)%N;
  kv_create_spec b k v :
    match kv_create b k v with
    | Some (b', r) => kv_get b k = None ∧ wrote b k (Some v) r b'
    | None => is_Some (kv_get b k)
    end;
  kv_update_spec b k v r :
    match kv_update b k v r with
    | Some (b', r') => kv_rev b k = r ∧ wrote b k (Some v) r' b'
    | None => kv_rev b k ≠ r
    end;
  kv_put_spec b k v : wrote b k (Some v) (kv_put b k v).2 (kv_put b k v).1;
  kv_delete_spec b k g :
    match kv_delete b k g with
    | Some b' => (∀ r, g = Some r → kv_rev b k = r) ∧ ∃ r', wrote b k None r' b'
    | None => ∃ r, g = Some r ∧ kv_rev b k ≠ r
    end;
  kv_list_spec b k : k ∈ kv_list b ↔ is_Some (kv_get b k);
  kv_subjects_spec b k : k ∈ kv_subjects b ↔ kv_rev b k ≠ 0%N;
  kv_replay_spec b k : k ∈ kv_replay b ↔ is_Some (kv_get b k);
  kv_replay_order b : StronglySorted (λ k k', (kv_rev b k ≤ kv_rev b k')%N) (kv_replay b);
}.

(** ** A concrete bucket: a log of messages, newest first *)

Record bucket (V : Type) : Type := MkBucket {
  bk_clock : Z;
  bk_log : list (string * Z * option V);
}.
Arguments MkBucket {V} _ _.
Arguments bk_clock {V} _.
Arguments bk_log {V} _.

Section Bucket.
Context {V : Type}.

(** The last message of a key; its revision is its position in the log. *)
Fixpoint bk_find (k : string) (log : list (string * Z * option V))
    : option (N * Z * option V) :=
  match log with
  | [] => None
  | (k', t, v) :: log' =>
      if decide (k' = k) then Some (N.of_nat (S (length log')), t, v) else bk_find k log'
  end.

Definition bk_rev (b : bucket V) (k : string) : N :=
  match bk_find k (bk_log b) with Some (r, _, _) => r | None => 0%N end.

Definition bk_get (b : bucket V) (k : string) : option (entry V) :=
  match bk_find k (bk_log b) with
  | Some (r, t, Some v) => Some (MkEntry v r t)
  | _ => None
  end.

(** The live keys below a log, in the order of their last messages; [seen]
    are the keys with a later message. *)
Fixpoint bk_replay (seen : list string) (log : list (string * Z * option V))
    : list string :=
  match log with
  | [] => []
  | (k, _, v) :: log' =>
      if decide (k ∈ seen) then bk_replay seen log'
      else bk_replay (k :: seen) log' ++ (if v is Some _ then [k] else [])
  end.

Definition bk_write (b : bucket V) (k : string) (v : option V) : bucket V * N :=
  (MkBucket (bk_clock b) ((k, bk_clock b, v) :: bk_log b),
   N.of_nat (S (length (bk_log b)))).

#[global] Instance bucket_kv : Kv V (bucket V) := {
  kv_get := bk_get;
  kv_rev := bk_rev;
  kv_create b k v :=
    match bk_get b k with Some _ => None | None => Some (bk_write b k (Some v)) end;
  kv_update b k v r :=
    if decide (bk_rev b k = r) then Some (bk_write b k (Some v)) else None;
  kv_put b k v := bk_write b k (Some v);
  kv_delete b k g :=
    if decide (g = None ∨ g = Some (bk_rev b k))
    then Some (bk_write b k None).1 else None;
  kv_list b := filter (λ k, is_Some (bk_get b k)) (remove_dups (bk_log b).*1.*1);
  kv_subjects b := remove_dups (bk_log b).*1.*1;
  kv_replay b := bk_replay [] (bk_log b);
}.

Lemma bk_find_bounds k log r t v :
  bk_find k log = Some (r, t, v) → (0 < r ∧ r < N.of_nat (S (length log)))%N.
Proof.
  induction log as [|[[k' t'] v'] log IH]; simpl; [done|].
  case_decide; [intros; simplify_eq; lia|]. intros ?%IH. lia.
Qed.

Lemma bk_find_elem k log m : bk_find k log = Some m → k ∈ log.*1.*1.
Proof.
  induction log as [|[[k' t'] v'] log IH]; simpl; [done|].
  case_decide; [subst; left|]. intros ?%IH. by right.
Qed.

Lemma bk_elem_find k log : k ∈ log.*1.*1 → is_Some (bk_find k log).
Proof.
  induction log as [|[[k' t'] v'] log IH]; simpl; [by intros ?%elem_of_nil|].
  intros [->|?]%elem_of_cons; case_decide; [by eexists|done|by eexists|auto].
Qed.

Lemma bk_replay_elem k log : ∀ seen,
  k ∈ bk_replay seen log ↔
  (k ∉ seen) ∧ ∃ r t v, bk_find k log = Some (r, t, Some v).
Proof.
  induction log as [|[[k' t'] v'] log IH]; intros seen; simpl.
  { split; [by intros ?%elem_of_nil|naive_solver]. }
  destruct (decide (k' ∈ seen)) as [Hin|Hnin].
  - rewrite IH. destruct (decide (k' = k)) as [->|Hne]; [naive_solver|done].
  - rewrite elem_of_app, IH, not_elem_of_cons.
    destruct (decide (k' = k)) as [->|Hne].
    + destruct v' as [v|].
      * split; [intros _; split; [done|eauto]|]. intros _. right. by left.
      * split; [|naive_solver]. intros [[[? _] _]|?%elem_of_nil]; done.
    + split; [|naive_solver]. intros [?|Hk]; [naive_solver|]. exfalso.
      destruct v'; [apply list_elem_of_singleton in Hk|apply elem_of_nil in Hk]; congruence.
Qed.

Definition rev_in (log : list (string * Z * option V)) (k : string) : N :=
  match bk_find k log with Some (r, _, _) => r | None => 0%N end.

Lemma bk_replay_sorted log : ∀ seen,
  StronglySorted (λ k k', (rev_in log k ≤ rev_in log k')%N) (bk_replay seen log).
Proof.
  induction log as [|[[k' t'] v'] log IH]; intros seen; simpl; [constructor|].
  assert (∀ l, Forall (λ k, k ≠ k') l →
    StronglySorted (λ a b, (rev_in log a ≤ rev_in log b)%N) l →
    StronglySorted (λ a b, (rev_in ((k', t', v') :: log) a ≤
                            rev_in ((k', t', v') :: log) b)%N) l) as Hsame.
  { intros l Hl Hs. induction Hs as [|x l Hs IHl Hx]; constructor.
    - apply IHl. by inversion Hl.
    - rewrite Forall_forall in *. intros y Hy. unfold rev_in; simpl.
      rewrite !decide_False by (intros <-; eapply Hl; [|done]; set_solver).
      by apply Hx. }
  destruct (decide (k' ∈ seen)) as [Hin|Hnin].
  { apply Hsame; [|apply IH]. rewrite Forall_forall. intros x [Hx _]%bk_replay_elem ->. done. }
  assert (Forall (λ k, k ≠ k') (bk_replay (k' :: seen) log)) as Hne.
  { rewrite Forall_forall. intros x [Hx _]%bk_replay_elem ->. set_solver. }
  specialize (Hsame _ Hne (IH (k' :: seen))). destruct v' as [v|]; [|by rewrite app_nil_r].
  apply StronglySorted_app_2; [|done|by repeat constructor].
  intros x y Hx ->%list_elem_of_singleton. unfold rev_in. simpl.
  rewrite (decide_True (P:=k' = k')) by done.
  destruct (decide (k' = x)); [done|].
  destruct (bk_find x log) as [[[r ?] ?]|] eqn:Hf; [|lia].
  apply bk_find_bounds in Hf. lia.
Qed.

Lemma bk_write_wrote b k v : wrote b k v (bk_write b k v).2 (bk_write b k v).1.
Proof.
  unfold wrote; simpl. unfold bk_rev, bk_get; simpl. split_and!.
  - intros k'. destruct (bk_find k' (bk_log b)) as [[[r ?] ?]|] eqn:Hf; [|lia].
    apply bk_find_bounds in Hf. lia.
  - by rewrite decide_True.
  - rewrite decide_True by done. destruct v; eauto.
  - intros k' Hne. by rewrite decide_False by done.
Qed.

#[global] Instance bucket_laws : KvLaws V (bucket V).
Proof.
  split; [intros b k..|]; simpl.
  - intros e. unfold bk_get, bk_rev.
    destruct (bk_find k (bk_log b)) as [[[r t] [v|]]|] eqn:Hf; intros; simplify_eq/=.
    apply bk_find_bounds in Hf. split; [done|lia].
  - intros v. destruct (bk_get b k); [by eexists|]. split; [done|apply bk_write_wrote].
  - intros v r. case_decide; [|done]. split; [done|apply bk_write_wrote].
  - intros v. apply bk_write_wrote.
  - intros g. case_decide as Hg.
    + split; [intros r ->; naive_solver|]. eexists. apply bk_write_wrote.
    + destruct g as [r|]; [|naive_solver]. exists r. split; [done|]. naive_solver.
  - rewrite list_elem_of_filter, elem_of_remove_dups. split; [by intros []|].
    intros Hg. split; [done|]. destruct Hg as [x Hg]. unfold bk_get in Hg.
    destruct (bk_find k (bk_log b)) as [m|] eqn:Hf; [|done]. by eapply bk_find_elem.
  - unfold bk_rev. rewrite elem_of_remove_dups. split.
    + intros [[[r ?] ?] Hf]%bk_elem_find. rewrite Hf. apply bk_find_bounds in Hf. lia.
    + destruct (bk_find k (bk_log b)) as [[[r ?] ?]|] eqn:Hf; [|done].
      intros _. by eapply bk_find_elem.
  - rewrite bk_replay_elem. unfold bk_get. split.
    + intros (_ & r & t & v & ->). eauto.
    + destruct (bk_find k (bk_log b)) as [[[r t] [v|]]|]; intros [? ?]; try done.
      split; [apply not_elem_of_nil|eauto].
  - intros b. apply bk_replay_sorted.
Qed.
End Bucket.

(** ** Calls and replies *)

Inductive kvE (V : Type) : Type → Type :=
  | KvGet (leader : bool) (k : string) : kvE V (kv_error + entry V)
  | KvCreate (k : string) (v : V) : kvE V (kv_error + N)
  | KvUpdate (k : string) (v : V) (r : N) : kvE V (kv_error + N)
  | KvPut (k : string) (v : V) : kvE V (kv_error + N)
  | KvDelete (k : string) (last : option N) : kvE V (kv_error + unit)
  | KvList : kvE V (kv_error + list string)
  | KvSubjects : kvE V (kv_error + list string)
  | KvReplay (prefix : string) : kvE V (kv_error + list string).
Arguments KvGet {V} _ _.
Arguments KvCreate {V} _ _.
Arguments KvUpdate {V} _ _ _.
Arguments KvPut {V} _ _.
Arguments KvDelete {V} _ _.
Arguments KvList {V}.
Arguments KvSubjects {V}.
Arguments KvReplay {V} _.

Definition kv_key {V R} (e : kvE V R) : option string :=
  match e with
  | KvGet _ k | KvCreate k _ | KvUpdate k _ _ | KvPut k _ | KvDelete k _ => Some k
  | KvList | KvSubjects | KvReplay _ => None
  end.

(** The reply of a call that failed in transport. *)
Definition kv_failure {V R} (e : kvE V R) : R :=
  match e in kvE _ R return R with
  | KvGet _ _ => inl KvFailed
  | KvCreate _ _ => inl KvFailed
  | KvUpdate _ _ _ => inl KvFailed
  | KvPut _ _ => inl KvFailed
  | KvDelete _ _ => inl KvFailed
  | KvList => inl KvFailed
  | KvSubjects => inl KvFailed
  | KvReplay _ => inl KvFailed
  end.

Section Calls.
Context {V B : Type} `{!Kv V B}.

(** The call as the server executes it. *)
Definition kv_exec {R} (b : B) (e : kvE V R) : B * R :=
  match e in kvE _ R return B * R with
  | KvGet _ k => (b, match kv_get b k with Some e => inr e | None => inl ErrKeyNotFound end)
  | KvCreate k v =>
      match kv_create b k v with
      | Some (b', r) => (b', inr r)
      | None => (b, inl ErrKeyExists)
      end
  | KvUpdate k v r =>
      match kv_update b k v r with
      | Some (b', r') => (b', inr r')
      | None => (b, inl ErrKeyRevisionMismatch)
      end
  | KvPut k v => let '(b', r) := kv_put b k v in (b', inr r)
  | KvDelete k g =>
      match kv_delete b k g with
      | Some b' => (b', inr tt)
      | None => (b, inl ErrKeyExists)
      end
  | KvList => (b, inr (kv_list b))
  | KvSubjects => (b, inr (kv_subjects b))
  | KvReplay p => (b, inr (filter (λ k, HasPrefix k p = true) (kv_replay b)))
  end.

(** The bucket and the entries its keys have had. *)
Record kvw : Type := MkKvw {
  kw_b : B;
  kw_past : list (string * entry V);
}.

(** [w'] is [w] after the call [e], with the key's new entry remembered. *)
Definition kv_after {R} (w : kvw) (e : kvE V R) : kvw :=
  let b' := (kv_exec (kw_b w) e).1 in
  MkKvw b' (match kv_key e ≫= λ k, pair k <$> kv_get b' k with
            | Some x => x :: kw_past w
            | None => kw_past w
            end).

(** A read answered by a replica that lags behind. *)
Definition stale_reply {R} (w : kvw) (e : kvE V R) : R → Prop :=
  match e in kvE _ R return R → Prop with
  | KvGet false k => λ r,
      r = inl ErrKeyNotFound ∨ ∃ x, (k, x) ∈ kw_past w ∧ r = inr x
  | _ => λ _, False
  end.

Definition kv_reply (replicas : bool) R (w : kvw) (e : kvE V R) (w' : kvw) (r : R) : Prop :=
  (w' = kv_after w e ∧ (r = (kv_exec (kw_b w) e).2 ∨ r = kv_failure e)) ∨
  (w' = w ∧ (r = kv_failure e ∨ (replicas = true ∧ stale_reply w e r))).
End Calls.
Arguments kvw V B : clear implicits.
Arguments MkKvw {V B} _ _.

(** ** What a reply tells *)

Section Replies.
Context {V B : Type} `{!Kv V B, !KvLaws V B}.
Implicit Types (w : kvw V B) (k : string).

(** The remembered entries are versions of their keys, and the one at the
    key's last revision is the stored entry. *)
Definition kv_ok w : Prop := ∀ k x, (k, x) ∈ kw_past w →
  (0 < ent_revision x ≤ kv_rev (kw_b w) k)%N ∧
  (kv_rev (kw_b w) k = ent_revision x → kv_get (kw_b w) k = Some x).

(** A call either leaves the bucket alone or writes its key. *)
Lemma kv_exec_wrote {R} (b : B) (e : kvE V R) :
  (kv_exec b e).1 = b ∨ ∃ k v r, kv_key e = Some k ∧ wrote b k v r (kv_exec b e).1.
Proof using Type*.
  destruct e as [l k|k v|k v r|k v|k g| | |p]; simpl; [by left| | | | |by left..].
  - pose proof (kv_create_spec b k v) as Hc. destruct (kv_create b k v) as [[b' r]|]; [|by left].
    right. exists k, (Some v), r. split; [done|apply Hc].
  - pose proof (kv_update_spec b k v r) as Hc.
    destruct (kv_update b k v r) as [[b' r']|]; [|by left].
    right. exists k, (Some v), r'. split; [done|apply Hc].
  - pose proof (kv_put_spec b k v) as Hc. destruct (kv_put b k v) as [b' r].
    right. by exists k, (Some v), r.
  - pose proof (kv_delete_spec b k g) as Hc. destruct (kv_delete b k g) as [b'|]; [|by left].
    destruct Hc as [_ [r Hw]]. right. by exists k, None, r.
Qed.

Lemma wrote_get (b : B) k v r b' x :
  wrote b k v r b' → kv_get b' k = Some x → v = Some (ent_value x) ∧ r = ent_revision x.
Proof.
  intros (_ & _ & Hv & _) Hx. destruct v; [|congruence].
  destruct Hv as [t Ht]. rewrite Ht in Hx. by simplify_eq/=.
Qed.

Lemma kv_after_ok {R} w (e : kvE V R) : kv_ok w → kv_ok (kv_after w e).
Proof using Type*.
  intros Hok k x Hx. unfold kv_after in *; simpl in *.
  assert (kv_get (kv_exec (kw_b w) e).1 k = Some x ∨ (k, x) ∈ kw_past w) as [Hg|Hp].
  { destruct (kv_key e) as [k'|]; simpl in Hx; [|by right].
    destruct (kv_get _ k') as [y|] eqn:Hy; [|by right].
    apply elem_of_cons in Hx as [?|?]; simplify_eq; auto. }
  - destruct (kv_get_rev _ _ _ Hg) as [Hr ?]. rewrite Hr in *. split; [lia|done].
  - destruct (Hok _ _ Hp) as [Hle Heq].
    destruct (kv_exec_wrote (kw_b w) e) as [->|(k' & v & r & _ & Hlt & Hr & Hv & Hoth)];
      [done|].
    destruct (decide (k = k')) as [->|Hne].
    + specialize (Hlt k'). rewrite Hr. split; lia.
    + destruct (Hoth k Hne) as [-> ->]. done.
Qed.

Lemma kv_reply_ok rep {R} w (e : kvE V R) w' r :
  kv_reply rep R w e w' r → kv_ok w → kv_ok w'.
Proof using Type*. intros [[-> _]|[-> _]]; [apply kv_after_ok|done]. Qed.

Lemma kv_reply_past rep {R} w (e : kvE V R) w' r x :
  kv_reply rep R w e w' r → x ∈ kw_past w → x ∈ kw_past w'.
Proof.
  intros [[-> _]|[-> _]] Hx; [|done]. unfold kv_after; simpl.
  destruct (kv_key e ≫= _); [by right|done].
Qed.

(** A key no call names keeps its entry. *)
Lemma kv_reply_other rep {R} w (e : kvE V R) w' r k :
  kv_reply rep R w e w' r → kv_key e ≠ Some k →
  kv_get (kw_b w') k = kv_get (kw_b w) k ∧ kv_rev (kw_b w') k = kv_rev (kw_b w) k.
Proof using Type*.
  intros [[-> _]|[-> _]] Hk; [|done]. unfold kv_after; simpl.
  destruct (kv_exec_wrote (kw_b w) e) as [->|(k' & v & n & Hk' & Hw)]; [done|].
  apply Hw. congruence.
Qed.

Lemma get_reply rep w leader k w' r :
  kv_reply rep _ w (KvGet leader k) w' r →
  kw_b w' = kw_b w ∧
  match r with
  | inr x => ((rep = false ∨ leader = true) → kv_get (kw_b w) k = Some x) ∧
             (k, x) ∈ kw_past w'
  | inl ErrKeyNotFound => (rep = false ∨ leader = true) → kv_get (kw_b w) k = None
  | inl err => err = KvFailed
  end.
Proof.
  intros [[-> Hr]|[-> [Hr|[Hrep Hst]]]].
  - unfold kv_after; simpl. split; [done|]. destruct Hr as [-> | ->]; simpl; [|done].
    destruct (kv_get (kw_b w) k) as [x|]; [|done]. split; [done|]. by left.
  - subst r. by split.
  - split; [done|]. destruct leader; [done|].
    destruct Hst as [->|(x & Hx & ->)]; [naive_solver|]. split; [naive_solver|done].
Qed.

Lemma create_reply rep w k v w' r :
  kv_reply rep _ w (KvCreate k v) w' r →
  match r with
  | inr n => kv_get (kw_b w) k = None ∧ wrote (kw_b w) k (Some v) n (kw_b w')
  | inl ErrKeyExists => kw_b w' = kw_b w ∧ is_Some (kv_get (kw_b w) k)
  | inl err => err = KvFailed ∧
      (kw_b w' = kw_b w ∨
       kv_get (kw_b w) k = None ∧ ∃ n, wrote (kw_b w) k (Some v) n (kw_b w'))
  end.
Proof using Type*.
  pose proof (kv_create_spec (kw_b w) k v) as Hc.
  intros [[-> Hr]|[-> [->|[_ []]]]]; [|by split; [|left]].
  unfold kv_after in *; simpl in *.
  destruct (kv_create (kw_b w) k v) as [[b' n]|]; destruct Hr as [-> | ->]; simpl; eauto.
  destruct Hc. eauto 10.
Qed.

Lemma update_reply rep w k v n w' r :
  kv_reply rep _ w (KvUpdate k v n) w' r →
  match r with
  | inr n' => kv_rev (kw_b w) k = n ∧ wrote (kw_b w) k (Some v) n' (kw_b w')
  | inl ErrKeyRevisionMismatch => kw_b w' = kw_b w ∧ kv_rev (kw_b w) k ≠ n
  | inl err => err = KvFailed ∧
      (kw_b w' = kw_b w ∨
       kv_rev (kw_b w) k = n ∧ ∃ n', wrote (kw_b w) k (Some v) n' (kw_b w'))
  end.
Proof using Type*.
  pose proof (kv_update_spec (kw_b w) k v n) as Hc.
  intros [[-> Hr]|[-> [->|[_ []]]]]; [|by split; [|left]].
  unfold kv_after in *; simpl in *.
  destruct (kv_update (kw_b w) k v n) as [[b' n']|]; destruct Hr as [-> | ->]; simpl; eauto.
  destruct Hc. eauto 10.
Qed.

Lemma put_reply rep w k v w' r :
  kv_reply rep _ w (KvPut k v) w' r →
  match r with
  | inr n => wrote (kw_b w) k (Some v) n (kw_b w')
  | inl err => err = KvFailed ∧
      (kw_b w' = kw_b w ∨ ∃ n, wrote (kw_b w) k (Some v) n (kw_b w'))
  end.
Proof using Type*.
  pose proof (kv_put_spec (kw_b w) k v) as Hc.
  intros [[-> Hr]|[-> [->|[_ []]]]]; [|by split; [|left]].
  unfold kv_after in *; simpl in *.
  destruct (kv_put (kw_b w) k v) as [b' n]; destruct Hr as [-> | ->]; simpl; eauto.
Qed.

Lemma delete_reply rep w k g w' r :
  kv_reply rep _ w (KvDelete k g) w' r →
  match r with
  | inr _ => (∀ n, g = Some n → kv_rev (kw_b w) k = n) ∧ ∃ n, wrote (kw_b w) k None n (kw_b w')
  | inl ErrKeyExists => kw_b w' = kw_b w ∧ ∃ n, g = Some n ∧ kv_rev (kw_b w) k ≠ n
  | inl err => err = KvFailed ∧
      (kw_b w' = kw_b w ∨ (∀ n, g = Some n → kv_rev (kw_b w) k = n) ∧
       ∃ n, wrote (kw_b w) k None n (kw_b w'))
  end.
Proof using Type*.
  pose proof (kv_delete_spec (kw_b w) k g) as Hc.
  intros [[-> Hr]|[-> [->|[_ []]]]]; [|by split; [|left]].
  unfold kv_after in *; simpl in *.
  destruct (kv_delete (kw_b w) k g) as [b'|]; destruct Hr as [-> | ->]; simpl; eauto.
Qed.

(** A successful update remembers what it stored. *)
Lemma update_remembered rep w k v n w' n' :
  kv_reply rep _ w (KvUpdate k v n) w' (inr n') →
  ∃ t, (k, MkEntry v n' t) ∈ kw_past w'.
Proof using Type*.
  intros [[-> [Hr|Hr]]|[-> [Hr|[_ []]]]]; [|done..].
  unfold kv_after; simpl in *. pose proof (kv_update_spec (kw_b w) k v n) as Hc.
  destruct (kv_update (kw_b w) k v n) as [[b' m]|]; simplify_eq/=.
  destruct Hc as (_ & _ & _ & [t Ht] & _). rewrite Ht. simpl. exists t. by left.
Qed.

(** An [Update] that succeeds at the revision of a remembered entry finds
    that entry still stored, whether or not the read was stale. *)
Lemma cas_current w k x :
  kv_ok w → (k, x) ∈ kw_past w → kv_rev (kw_b w) k = ent_revision x →
  kv_get (kw_b w) k = Some x.
Proof. intros Hok Hx. by apply Hok. Qed.
End Replies.
