(* ===== verification/Slots.v ===== *)
(** * Run and task concurrency slots

    internal/engine/concurrency.go and the slot half of
    admission_controller.go: the member sets that bound how many runs of a
    workflow, and how many tasks of a type, execute at once.  Every operation is
    a [prog] over one bucket; its read-modify-write is a compare-and-set with at
    most [concurrencyCASRetriesMax] attempts.

    Logging and the counter of reset values are left out.  [taskKV] of the
    source may be nil: the task operations take a Boolean that says whether the
    bucket exists. *)

From S2P Require Import Prelude Float64 Json Interleave Kv.

#[local] Open Scope Z_scope.

Definition concurrencyCASRetriesMax : nat := 10.
Definition taskSlotKeysMax : Z := 10000.

Definition kv_err (e : kv_error) : error :=
  Errorf match e with
         | ErrKeyNotFound => "nats: key not found"
         | ErrKeyExists => "nats: key exists"
         | ErrKeyRevisionMismatch => "nats: wrong last revision"
         | KvFailed => "nats: request failed"
         end [].

(** [runMembership] and its JSON form. *)
Record runMembership : Type := MkRunMembership { rm_Members : list string }.

Definition unmarshal_runMembership : raw → outcome runMembership :=
  unmarshal_struct (MkRunMembership [])
    (λ fs, ms ← dec_field dec_strings "members" [] fs; Ret (MkRunMembership ms)).

Definition marshal_runMembership (m : runMembership) : raw :=
  RawJson (JObj [("members", JArr (JStr <$> rm_Members m))]).

Definition containsMember (members : list string) (runID : string) : bool :=
  existsb (λ m, bool_decide (m = runID)) members.

Definition removeMember (members : list string) (runID : string) : list string :=
  filter (λ m, m ≠ runID) members.

(** A missing key is an empty set at revision 0; a value that is not a member
    set is an empty set at its own revision. *)
Definition readMembers (key : string) : io (kvE raw) (list string * N) :=
  r ⇐ call (KvGet false key);
    match r with
    | inl ErrKeyNotFound => Done (Ret ([], 0%N))
    | inl e => Done (Err (kv_err e))
    | inr ent =>
        match unmarshal_runMembership (ent_value ent) with
        | Ret m => Done (Ret (rm_Members m, ent_revision ent))
        | _ => Done (Ret ([], ent_revision ent))
        end
    end.

Definition casWriteMembers (key : string) (members : list string) (rev : N)
    : prog (kvE raw) bool :=
  let data := marshal_runMembership (MkRunMembership members) in
  r ⇐ (if (rev =? 0)%N then call (KvCreate key data) else call (KvUpdate key data rev));
  Done (match r with inr _ => true | inl _ => false end).

Definition taskSlotHolder (runID stepID : string) : outcome string :=
  panic_if (empty_str runID) "taskSlotHolder: runID must not be empty" ;;
  panic_if (empty_str stepID) "taskSlotHolder: stepID must not be empty" ;;
  Ret (runID +:+ "/" +:+ stepID).

(** The loop of [acquireMember], with the attempts left. *)
Fixpoint acquire_loop (attempts : nat) (key member : string) (limit : Z)
    : io (kvE raw) bool :=
  match attempts with
  | O => io_err (Errorf "acquire %s: too many CAS retries" [AStr key])
  | S attempts' =>
      '(members, rev) ← readMembers key;
      if containsMember members member then Done (Ret true)
      else if limit <=? Z.of_nat (length members) then Done (Ret false)
      else
        let newMembers := members ++ [member] in
        if limit <? Z.of_nat (length newMembers)
        then Done (Panic "acquireMember: member set grew beyond limit")
        else
          ok ⇐ casWriteMembers key newMembers rev;
          if ok : bool then Done (Ret true) else acquire_loop attempts' key member limit
  end.

Definition acquireMember (key member : string) (limit : Z) : io (kvE raw) bool :=
  io_of (panic_if (empty_str member) "acquireMember: member must not be empty") ≫= λ _,
  io_of (panic_if (limit <=? 0) "acquireMember: limit must be positive") ≫= λ _,
  acquire_loop concurrencyCASRetriesMax key member limit.

Fixpoint release_loop (attempts : nat) (key member : string) : io (kvE raw) unit :=
  match attempts with
  | O => io_err (Errorf "release %s: too many CAS retries" [AStr key])
  | S attempts' =>
      '(members, rev) ← readMembers key;
      if negb (containsMember members member) then Done (Ret tt)
      else
        ok ⇐ casWriteMembers key (removeMember members member) rev;
        if ok : bool then Done (Ret tt) else release_loop attempts' key member
  end.

Definition releaseMember (key member : string) : io (kvE raw) unit :=
  io_of (panic_if (empty_str member) "releaseMember: member must not be empty") ≫= λ _,
  io_of (panic_if (empty_str key) "releaseMember: key must not be empty") ≫= λ _,
  release_loop concurrencyCASRetriesMax key member.

Definition AcquireRun (workflowID runID : string) (limit : Z) : io (kvE raw) bool :=
  io_of (panic_if (empty_str workflowID) "AcquireRun: workflowID must not be empty") ≫= λ _,
  io_of (panic_if (empty_str runID) "AcquireRun: runID must not be empty") ≫= λ _,
  if limit <=? 0 then Done (Ret true)
  else acquireMember ("workflow." +:+ workflowID) runID limit.

Definition ReleaseRun (workflowID runID : string) : io (kvE raw) unit :=
  io_of (panic_if (empty_str workflowID) "ReleaseRun: workflowID must not be empty") ≫= λ _,
  io_of (panic_if (empty_str runID) "ReleaseRun: runID must not be empty") ≫= λ _,
  releaseMember ("workflow." +:+ workflowID) runID.

Definition AcquireTask (hasKV : bool) (taskType : string) (limit : Z) (holder : string)
    : io (kvE raw) bool :=
  io_of (panic_if (empty_str taskType) "AcquireTask: taskType must not be empty") ≫= λ _,
  io_of (panic_if (empty_str holder) "AcquireTask: holder must not be empty") ≫= λ _,
  if (limit <=? 0) || negb hasKV then Done (Ret true)
  else acquireMember ("task." +:+ taskType) holder limit.

Definition ReleaseTask (hasKV : bool) (taskType holder : string) : io (kvE raw) unit :=
  io_of (panic_if (empty_str taskType) "ReleaseTask: taskType must not be empty") ≫= λ _,
  io_of (panic_if (empty_str holder) "ReleaseTask: holder must not be empty") ≫= λ _,
  if negb hasKV then Done (Ret tt) else releaseMember ("task." +:+ taskType) holder.

(** One [releaseMember] per key and holder; every pair is tried and the first
    error is kept.  A panic ends the loop. *)
Fixpoint release_pairs (pairs : list (string * string)) (first : option error)
    : io (kvE raw) unit :=
  match pairs with
  | [] => Done (match first with None => Ret tt | Some e => Err e end)
  | (key, holder) :: pairs' =>
      o ⇐ releaseMember key holder;
      match o with
      | Ret _ => release_pairs pairs' first
      | Err e => release_pairs pairs' (match first with None => Some e | _ => first end)
      | Panic s => Done (Panic s)
      end
  end.

Definition ReleaseTaskHolders (hasKV : bool) (holders : list string) : io (kvE raw) unit :=
  if negb hasKV || bool_decide (holders = []) then Done (Ret tt)
  else
    r ⇐ call KvSubjects;
      match r with
      | inl e => Done (Err (kv_err e))
      | inr keys =>
          if taskSlotKeysMax <? Z.of_nat (length keys)
          then io_err (Errorf "release task holders: %d task keys exceed bound %d"
                 [AInt (Z.of_nat (length keys)); AInt taskSlotKeysMax])
          else release_pairs (keys ≫= λ key, pair key <$> holders) None
      end.

(** The delegating methods of [AdmissionController]; [concurrency] may be nil. *)
Definition ac_AcquireRun (concurrency : bool) (workflowID runID : string) (limit : Z)
    : io (kvE raw) bool :=
  if concurrency then AcquireRun workflowID runID limit else Done (Ret true).

Definition ac_ReleaseRunIfConcurrency (concurrency : bool) (workflowID runID : string)
    : io (kvE raw) unit :=
  if concurrency then
    o ⇐ ReleaseRun workflowID runID;
    Done (wrap_err (λ e, Errorf "release run: %w" [AErr e]) o)
  else Done (Ret tt).

(** ** Member sets *)

(** The members a bucket holds at a key, as [readMembers] decodes them. *)
Definition members_at {B} `{Kv raw B} (b : B) (key : string) : list string :=
  match kv_get b key with
  | Some ent =>
      match unmarshal_runMembership (ent_value ent) with
      | Ret m => rm_Members m
      | _ => []
      end
  | None => []
  end.

Lemma dec_strings_marshal l cur :
  dec_strings cur (JArr (JStr <$> l)) = Ret l.
Proof. simpl. induction l as [|x l IH]; [done|]. csimpl. by rewrite IH. Qed.

Lemma membership_roundtrip m :
  unmarshal_runMembership (marshal_runMembership m) = Ret m.
Proof.
  destruct m as [l]. unfold unmarshal_runMembership, marshal_runMembership.
  cbn -[dec_strings]. by rewrite dec_strings_marshal.
Qed.

Lemma containsMember_iff l m : containsMember l m = true ↔ m ∈ l.
Proof.
  unfold containsMember. rewrite existsb_Exists, Exists_exists.
  setoid_rewrite bool_decide_eq_true. naive_solver.
Qed.

Lemma removeMember_elem l m x : x ∈ removeMember l m ↔ x ∈ l ∧ x ≠ m.
Proof. unfold removeMember. rewrite list_elem_of_filter. naive_solver. Qed.

(** ** The slot set as an abstract object, and one operation alone *)

Definition slots_acquire (limit : Z) (members : list string) (m : string) : list string * bool :=
  if decide (m ∈ members) then (members, true)
  else if limit <=? Z.of_nat (length members) then (members, false)
  else (members ++ [m], true).

Section Alone.
Context {B : Type} `{!Kv raw B, !KvLaws raw B}.
Implicit Types b : B.

Abbreviation run_kv := (run_prog (λ R (b : B) (e : kvE raw R), kv_exec b e)).

Lemma readMembers_run b key : ∃ rev,
  run_kv b (readMembers key) = (b, Ret (members_at b key, rev)) ∧
  (if (rev =? 0)%N then kv_get b key = None else kv_rev b key = rev).
Proof using Type*.
  unfold readMembers, members_at; simpl.
  destruct (kv_get b key) as [x|] eqn:Hg; simpl; [|by exists 0%N].
  destruct (kv_get_rev _ _ _ Hg) as [Hr Hpos]. exists (ent_revision x).
  replace (ent_revision x =? 0)%N with false by (symmetry; apply N.eqb_neq; lia).
  split; [|done]. by destruct (unmarshal_runMembership (ent_value x)).
Qed.

Lemma casWrite_run b key members rev :
  (if (rev =? 0)%N then kv_get b key = None else kv_rev b key = rev) →
  ∃ b' n, run_kv b (casWriteMembers key members rev) = (b', true) ∧
    wrote b key (Some (marshal_runMembership (MkRunMembership members))) n b'.
Proof using Type*.
  intros Hrev. unfold casWriteMembers. set (data := marshal_runMembership _).
  destruct (rev =? 0)%N; simpl.
  - pose proof (kv_create_spec b key data) as Hc.
    destruct (kv_create b key data) as [[b' n]|]; simpl; [destruct Hc; eauto|].
    destruct Hc. congruence.
  - pose proof (kv_update_spec b key data rev) as Hc.
    destruct (kv_update b key data rev) as [[b' n]|]; simpl; [destruct Hc; eauto|done].
Qed.

Lemma wrote_members_at b key members n b' :
  wrote b key (Some (marshal_runMembership (MkRunMembership members))) n b' →
  members_at b' key = members.
Proof.
  intros (_ & _ & [t Ht] & _). unfold members_at. rewrite Ht. cbn [ent_value].
  by rewrite membership_roundtrip.
Qed.

Lemma acquire_loop_run b n key m limit :
  ∃ b', run_kv b (acquire_loop (S n) key m limit) =
        (b', Ret (slots_acquire limit (members_at b key) m).2) ∧
    members_at b' key = (slots_acquire limit (members_at b key) m).1 ∧
    ∀ k, k ≠ key → kv_get b' k = kv_get b k.
Proof using Type*.
  destruct (readMembers_run b key) as (rev & Hrun & Hrev).
  cbn [acquire_loop]. unfold mbind, io_mbind. rewrite run_prog_bind, Hrun.
  unfold slots_acquire.
  destruct (containsMember (members_at b key) m) eqn:Hc.
  { apply containsMember_iff in Hc. rewrite decide_True by done. by exists b. }
  rewrite decide_False by (rewrite <-containsMember_iff; congruence).
  destruct (limit <=? Z.of_nat (length (members_at b key))) eqn:Hl; [by exists b|].
  replace (limit <? Z.of_nat (length (members_at b key ++ [m]))) with false.
  2:{ symmetry. apply Z.ltb_ge. apply Z.leb_gt in Hl. rewrite length_app; simpl. lia. }
  destruct (casWrite_run b key (members_at b key ++ [m]) rev Hrev) as (b' & n' & Hw & Hwr).
  rewrite run_prog_bind, Hw. exists b'. split_and!; [done|by eapply wrote_members_at|].
  intros k Hk. by apply Hwr.
Qed.

Lemma release_loop_run b n key m :
  ∃ b', run_kv b (release_loop (S n) key m) = (b', Ret tt) ∧
    (∀ x, x ∈ members_at b' key ↔ x ∈ members_at b key ∧ x ≠ m) ∧
    ∀ k, k ≠ key → kv_get b' k = kv_get b k.
Proof using Type*.
  destruct (readMembers_run b key) as (rev & Hrun & Hrev).
  cbn [release_loop]. unfold mbind, io_mbind. rewrite run_prog_bind, Hrun.
  destruct (containsMember (members_at b key) m) eqn:Hc; simpl.
  - destruct (casWrite_run b key (removeMember (members_at b key) m) rev Hrev)
      as (b' & n' & Hw & Hwr).
    rewrite run_prog_bind, Hw. exists b'. split_and!; [done| |intros k Hk; by apply Hwr].
    intros x. rewrite (wrote_members_at _ _ _ _ _ Hwr). apply removeMember_elem.
  - exists b. split_and!; [done| |done]. intros x.
    split; [|naive_solver]. intros Hx. split; [done|]. intros ->.
    apply containsMember_iff in Hx. congruence.
Qed.
End Alone.

(** ** One slot operation among others *)

Section Slot.
Context {B : Type} `{!Kv raw B, !KvLaws raw B}.
Variables (replicas : bool) (key member : string) (limit : Z).
Hypothesis limit_pos : 0 < limit.
Implicit Types w : kvw raw B.

Definition members_of w : list string := members_at (kw_b w) key.

(** The bucket is consistent and its member set within the limit. *)
Definition slots_ok w : Prop :=
  kv_ok w ∧ NoDup (members_of w) ∧ Z.of_nat (length (members_of w)) ≤ limit.

(** The others leave this member alone; this program leaves the others alone. *)
Definition slot_rely w w' : Prop :=
  (∀ x, x ∈ kw_past w → x ∈ kw_past w') ∧ (member ∈ members_of w ↔ member ∈ members_of w').
Definition slot_guar (keep : bool) w w' : Prop :=
  (∀ x, x ∈ kw_past w → x ∈ kw_past w') ∧
  (∀ x, x ≠ member → x ∈ members_of w ↔ x ∈ members_of w') ∧
  (keep = true → ∀ x, x ∈ members_of w → x ∈ members_of w').

Definition decode_members (e : entry raw) : list string :=
  match unmarshal_runMembership (ent_value e) with
  | Ret m => rm_Members m
  | _ => []
  end.

Definition read_post (o : outcome (list string * N)) w : Prop :=
  match o with
  | Ret (ms, rev) =>
      (rev = 0%N ∧ ms = [] ∨
       ∃ x, (key, x) ∈ kw_past w ∧ rev = ent_revision x ∧ ms = decode_members x) ∧
      (replicas = false → members_of w = ms)
  | Err _ => True
  | Panic _ => False
  end.

Lemma members_same w w' : kw_b w' = kw_b w → members_of w' = members_of w.
Proof. unfold members_of. by intros ->. Qed.

Lemma slots_ok_same w w' : kv_ok w' → kw_b w' = kw_b w → slots_ok w → slots_ok w'.
Proof. intros ? Hb (? & ? & ?). unfold slots_ok. by rewrite (members_same w w' Hb). Qed.

Lemma slot_guar_same keep w w' :
  (∀ x, x ∈ kw_past w → x ∈ kw_past w') → kw_b w' = kw_b w → slot_guar keep w w'.
Proof. intros ? Hb. unfold slot_guar. by rewrite (members_same w w' Hb). Qed.

Abbreviation swp keep := (wp (kv_reply replicas) slots_ok slot_rely (slot_guar keep)).

Lemma readMembers_wp keep w0 : swp keep read_post (readMembers key) w0.
Proof using Type*.
  unfold readMembers; simpl. intros w _ Hok w' r Hrep.
  pose proof (kv_reply_ok _ _ _ _ _ Hrep (proj1 Hok)) as Hkv.
  destruct (get_reply _ _ _ _ _ _ Hrep) as [Hb Hr].
  split; [by eapply slots_ok_same|].
  split; [by apply slot_guar_same; [intros x; eapply kv_reply_past|]|].
  destruct r as [err|x]; simpl.
  - destruct err; simpl; [|done..]. split; [by left|].
    intros Hf. unfold members_of, members_at. rewrite Hb, Hr; auto.
  - destruct Hr as [Hg Hx].
    assert (read_post (Ret (decode_members x, ent_revision x)) w') as Hpost.
    { split; [by right; eauto|]. intros Hf. unfold members_of, members_at.
      rewrite Hb, Hg; auto. }
    revert Hpost. unfold decode_members.
    by destruct (unmarshal_runMembership (ent_value x)).
Qed.

(** The compare-and-set writes over exactly the members that were read. *)
Lemma wrote_members w ms n w' :
  wrote (kw_b w) key (Some (marshal_runMembership (MkRunMembership ms))) n (kw_b w') →
  members_of w' = ms.
Proof.
  intros (_ & _ & [t Ht] & _). unfold members_of, members_at. rewrite Ht. cbn [ent_value].
  by rewrite membership_roundtrip.
Qed.

Definition cas_ok (ms new : list string) (keep : bool) : Prop :=
  NoDup ms → Z.of_nat (length ms) ≤ limit →
  NoDup new ∧ Z.of_nat (length new) ≤ limit ∧
  (∀ x, x ≠ member → x ∈ ms ↔ x ∈ new) ∧ (keep = true → ∀ x, x ∈ ms → x ∈ new).

Lemma cas_wp keep ms rev new w0 :
  read_post (Ret (ms, rev)) w0 → cas_ok ms new keep →
  swp keep (λ ok w, (ok : bool) = true → members_of w = new) (casWriteMembers key new rev) w0.
Proof using Type*.
  intros [Hread _] Hcas. unfold casWriteMembers.
  (* the effect of the call, whatever its reply *)
  assert (∀ w w', slot_rely w0 w → slots_ok w → kv_ok w' →
    (∀ x, x ∈ kw_past w → x ∈ kw_past w') →
    kw_b w' = kw_b w ∨ members_of w = ms ∧ members_of w' = new →
    slots_ok w' ∧ slot_guar keep w w') as Heff.
  { intros w w' _ (Hkv & Hnd & Hlen) Hkv' Hpast [Hb|[Hms Hnew]].
    - by split; [eapply slots_ok_same|apply slot_guar_same].
    - rewrite Hms in *. destruct (Hcas Hnd Hlen) as (? & ? & ? & ?).
      unfold slots_ok, slot_guar. rewrite Hms, Hnew. naive_solver. }
  destruct Hread as [[-> ->]|(x & Hx & -> & ->)]; simpl.
  - intros w Hrel Hok w' r Hrep.
    pose proof (kv_reply_ok _ _ _ _ _ Hrep (proj1 Hok)) as Hkv.
    pose proof (create_reply _ _ _ _ _ _ Hrep) as Hr.
    assert (kv_get (kw_b w) key = None → members_of w = []) as Hnil
      by (unfold members_of, members_at; by intros ->).
    assert (kw_b w' = kw_b w ∨ members_of w = [] ∧ members_of w' = new) as He.
    { destruct r as [[]|n]; destruct Hr as [Hr1 Hr2]; try done; try by left.
      - destruct Hr2 as [?|[? [n ?]]]; [by left|]. right. eauto using wrote_members.
      - right. eauto using wrote_members. }
    destruct (Heff w w' Hrel Hok Hkv) as [? ?]; [|done|].
    { intros y. eapply kv_reply_past, Hrep. }
    split_and!; [done|done|]. intros Hr'. destruct r as [|n]; [done|].
    eapply wrote_members, Hr.
  - destruct (ent_revision x =? 0)%N eqn:Hz; simpl.
    { (* a stored revision is never 0 *)
      intros w [Hpast _] Hok. exfalso.
      apply N.eqb_eq in Hz. destruct (proj1 Hok key x (Hpast _ Hx)) as [[? _] _]. lia. }
    intros w Hrel Hok w' r Hrep.
    pose proof (kv_reply_ok _ _ _ _ _ Hrep (proj1 Hok)) as Hkv.
    pose proof (update_reply _ _ _ _ _ _ _ Hrep) as Hr.
    assert (kv_rev (kw_b w) key = ent_revision x → members_of w = decode_members x) as Hcur.
    { intros Hrev. unfold members_of, members_at.
      rewrite (cas_current w key x (proj1 Hok) (proj1 Hrel _ Hx) Hrev). done. }
    assert (kw_b w' = kw_b w ∨ members_of w = decode_members x ∧ members_of w' = new) as He.
    { destruct r as [[]|n]; destruct Hr as [Hr1 Hr2]; try done; try by left.
      - destruct Hr2 as [?|[? [n ?]]]; [by left|]. right. eauto using wrote_members.
      - right. eauto using wrote_members. }
    destruct (Heff w w' Hrel Hok Hkv) as [? ?]; [|done|].
    { intros y. eapply kv_reply_past, Hrep. }
    split_and!; [done|done|]. intros Hr'. destruct r as [|n]; [done|].
    eapply wrote_members, Hr.
Qed.

Definition acquire_post (o : outcome bool) w : Prop :=
  match o with
  | Ret true => (replicas = false → member ∈ members_of w)
  | Ret false => (replicas = false →
      (member ∉ members_of w) ∧ limit ≤ Z.of_nat (length (members_of w)))
  | Err _ => True
  | Panic _ => False
  end.

Lemma add_member_cas ms :
  member ∉ ms → Z.of_nat (length ms) < limit → cas_ok ms (ms ++ [member]) true.
Proof.
  intros Hnin Hlt Hnd _. rewrite length_app; simpl. split_and!.
  - apply NoDup_app. split_and!; [done| |apply NoDup_singleton].
    intros x Hx ->%list_elem_of_singleton. done.
  - lia.
  - set_solver.
  - set_solver.
Qed.

Lemma remove_member_cas ms : cas_ok ms (removeMember ms member) false.
Proof.
  intros Hnd Hlen. split_and!; [by apply NoDup_filter| | |done].
  - unfold removeMember. pose proof (length_filter (λ m, m ≠ member) ms). lia.
  - intros x Hx. rewrite removeMember_elem. naive_solver.
Qed.

Lemma acquire_loop_wp n : ∀ w0, swp true acquire_post (acquire_loop n key member limit) w0.
Proof using Type*.
  induction n as [|n IH]; intros w0; [done|]. simpl acquire_loop.
  apply (wp_bind _ _ _ _ read_post); [apply readMembers_wp|].
  intros [[ms rev]|e|s] w Hw; [|done..]. simpl.
  destruct (containsMember ms member) eqn:Hc.
  { intros Hf. rewrite (proj2 Hw Hf). by apply containsMember_iff. }
  assert (member ∉ ms) as Hnin by (rewrite <-containsMember_iff; congruence).
  destruct (limit <=? Z.of_nat (length ms)) eqn:Hl.
  { intros Hf. rewrite (proj2 Hw Hf). split; [done|lia]. }
  destruct (limit <? Z.of_nat (length (ms ++ [member]))) eqn:Hg.
  { rewrite length_app in Hg. cbn [length] in Hg. apply Z.leb_gt in Hl. apply Z.ltb_lt in Hg. lia. }
  eapply (wp_bind _ _ _ _ _);
    [apply (cas_wp _ ms); [done|apply add_member_cas; [done|lia]]|].
  intros [|] w' Hw'; [|apply IH]. intros _. rewrite (Hw' eq_refl). set_solver.
Qed.

Definition release_post (o : outcome unit) w : Prop :=
  match o with
  | Ret _ => (replicas = false → member ∉ members_of w)
  | Err _ => True
  | Panic _ => False
  end.

Lemma release_loop_wp n : ∀ w0, swp false release_post (release_loop n key member) w0.
Proof using Type*.
  induction n as [|n IH]; intros w0; [done|]. simpl release_loop.
  apply (wp_bind _ _ _ _ read_post); [apply readMembers_wp|].
  intros [[ms rev]|e|s] w Hw; [|done..]. simpl.
  destruct (containsMember ms member) eqn:Hc; simpl.
  - eapply (wp_bind _ _ _ _ _);
      [apply (cas_wp _ ms); [done|apply remove_member_cas]|].
    intros [|] w' Hw'; [|apply IH]. intros _. rewrite (Hw' eq_refl), removeMember_elem. tauto.
  - intros Hf. rewrite (proj2 Hw Hf), <-containsMember_iff. congruence.
Qed.
End Slot.

Lemma AcquireRun_loop workflowID runID limit :
  workflowID ≠ "" → runID ≠ "" → 0 < limit →
  AcquireRun workflowID runID limit =
  acquire_loop concurrencyCASRetriesMax ("workflow." +:+ workflowID) runID limit.
Proof.
  intros Hw Hr Hl. unfold AcquireRun, acquireMember, empty_str.
  rewrite (bool_decide_eq_false_2 (workflowID = "")), (bool_decide_eq_false_2 (runID = ""))
    by done.
  by replace (limit <=? 0) with false by (symmetry; by apply Z.leb_gt).
Qed.

Lemma ReleaseRun_loop workflowID runID :
  workflowID ≠ "" → runID ≠ "" →
  ReleaseRun workflowID runID =
  release_loop concurrencyCASRetriesMax ("workflow." +:+ workflowID) runID.
Proof.
  intros Hw Hr. unfold ReleaseRun, releaseMember, empty_str.
  rewrite (bool_decide_eq_false_2 (workflowID = "")), (bool_decide_eq_false_2 (runID = ""))
    by done. reflexivity.
Qed.

(** ** Sessions

    What the runs of a workflow do with their slots: a run that acquired one
    begins, it ends before its slot is released, and either call may be
    repeated.  [Begin] and [End] mark the run as executing in the world; they
    make no call. *)

Inductive useE : Type → Type :=
  | Begin (run : string) : useE unit
  | End (run : string) : useE unit.

Definition slotE : Type → Type := sumE (kvE raw) useE.

Inductive slot_op : Type := OpAcquire | OpRelease.

Definition embed_kv {A} : prog (kvE raw) A → prog slotE A := embed (λ R e, CallL e).

Fixpoint session (workflowID runID : string) (limit : Z) (script : list slot_op)
    : prog slotE unit :=
  match script with
  | [] => Done tt
  | OpAcquire :: script' =>
      o ⇐ embed_kv (AcquireRun workflowID runID limit);
      match o with
      | Ret true => _ ⇐ call (CallR (Begin runID)); session workflowID runID limit script'
      | _ => session workflowID runID limit script'
      end
  | OpRelease :: script' =>
      _ ⇐ call (CallR (End runID));
      _ ⇐ embed_kv (ReleaseRun workflowID runID);
      session workflowID runID limit script'
  end.

Lemma active_add (run x : string) (A : gset string) :
  x ≠ run → x ∈ A ↔ x ∈ {[run]} ∪ A.
Proof. set_solver. Qed.
Lemma active_del (run x : string) (A : gset string) :
  x ≠ run → x ∈ A ↔ x ∈ A ∖ {[run]}.
Proof. set_solver. Qed.
Lemma active_del_in (run x : string) (A : gset string) : x ∈ A ∖ {[run]} → x ∈ A.
Proof. set_solver. Qed.
Lemma active_del_self (run : string) (A : gset string) : run ∉ A ∖ {[run]}.
Proof. set_solver. Qed.

Section Sessions.
Context {B : Type} `{!Kv raw B, !KvLaws raw B}.
Variables (replicas : bool) (workflowID : string) (limit : Z).

Record slot_world : Type := MkSlotWorld {
  sw_kv : kvw raw B;
  sw_active : gset string;
}.

Definition slot_reply R (w : slot_world) (e : slotE R) (w' : slot_world) (r : R) : Prop :=
  match e with
  | CallL e => kv_reply replicas R (sw_kv w) e (sw_kv w') r ∧ sw_active w' = sw_active w
  | CallR (Begin run) => sw_kv w' = sw_kv w ∧ sw_active w' = {[run]} ∪ sw_active w
  | CallR (End run) => sw_kv w' = sw_kv w ∧ sw_active w' = sw_active w ∖ {[run]}
  end.

Definition run_key : string := "workflow." +:+ workflowID.
Definition holders (w : slot_world) : list string := members_of run_key (sw_kv w).

Definition session_ok (w : slot_world) : Prop :=
  slots_ok run_key limit (sw_kv w) ∧
  (replicas = false → ∀ run, run ∈ sw_active w → run ∈ holders w).

Definition session_rely (run : string) (w w' : slot_world) : Prop :=
  slot_rely run_key run (sw_kv w) (sw_kv w') ∧ (run ∈ sw_active w ↔ run ∈ sw_active w').
Definition session_guar (run : string) (w w' : slot_world) : Prop :=
  slot_guar run_key run false (sw_kv w) (sw_kv w') ∧
  (∀ x, x ≠ run → x ∈ sw_active w ↔ x ∈ sw_active w').

Abbreviation ewp run := (wp slot_reply session_ok (session_rely run) (session_guar run)).

Lemma guar_rely_other run run' w w' :
  run ≠ run' → session_guar run w w' → session_rely run' w w'.
Proof. intros Hne [(? & Hm & _) Ha]. unfold session_rely, slot_rely. naive_solver. Qed.

Hypothesis limit_pos : 0 < limit.
Hypothesis workflow_named : workflowID ≠ "".

(** An operation on the run's slot inside a session: it keeps everybody's
    membership, or the run is not executing. *)
Lemma slot_op_wp {A} keep run (Φ : A → kvw raw B → Prop) (p : prog (kvE raw) A) w0 :
  (∀ w, wp (kv_reply replicas) (slots_ok run_key limit) (slot_rely run_key run)
          (slot_guar run_key run keep) Φ p w) →
  (keep = true ∨ run ∉ sw_active w0) →
  ewp run (λ a w, Φ a (sw_kv w) ∧ (keep = true ∨ run ∉ sw_active w)) (embed_kv p) w0.
Proof using Type*.
  intros Hp HP.
  apply (wp_embed _ sw_kv (kv_reply replicas) slot_reply (slots_ok run_key limit)
    session_ok (λ w, keep = true ∨ run ∉ sw_active w)
    (slot_rely run_key run) (slot_guar run_key run keep)); try done.
  - by intros w w' [? _].
  - by intros w [? _].
  - intros w w' [_ Ha]. rewrite Ha. tauto.
  - by intros R w e w' r [? _].
  - intros R w e w' r HP' [Hok Hact] [_ Ha] Hok' (Hpast & Hm & Hk).
    split_and!; [split; [done|]|split; [split_and!; [done|done|done]|]|];
      [|by rewrite Ha|by rewrite Ha].
    intros Hf x. rewrite Ha. intros Hx. specialize (Hact Hf x Hx). unfold holders in *.
    destruct HP' as [Hkeep|Hn]; [by apply Hk|].
    apply Hm; [by intros ->|done].
Qed.

Lemma session_wp run script : run ≠ "" → ∀ w0,
  ewp run (λ _ _, True) (session workflowID run limit script) w0.
Proof using Type*.
  intros Hrun. induction script as [|[|] script IH]; intros w0; [done| |]; simpl session.
  - eapply (wp_bind _ _ _ _ _).
    { apply (slot_op_wp true run (acquire_post replicas run_key run limit)); [|by left].
      intros w. rewrite AcquireRun_loop by done. by apply acquire_loop_wp. }
    intros [[|]|e|s] w [Hpost _]; [|apply IH..].
    simpl. intros w1 [Hr1 Ha1] [Hok Hact] w' [] [Hkv Hact'].
    unfold session_ok, session_guar, holders in *. rewrite Hkv, Hact'.
    split_and!; [done| | |intros x; apply active_add|apply IH].
    + intros Hf x [->%elem_of_singleton|Hx]%elem_of_union; [|by apply Hact].
      apply Hr1. by apply Hpost.
    + by apply slot_guar_same.
  - simpl. intros w [_ _] [Hok Hact] w' [] [Hkv Hact'].
    unfold session_ok, session_guar, holders in *. rewrite Hkv, Hact'.
    split_and!; [done| |by apply slot_guar_same|intros x; apply active_del|].
    { intros Hf x Hx%active_del_in. by apply Hact. }
    eapply (wp_bind _ _ _ _ _).
    { apply (slot_op_wp false run (release_post replicas run_key run)); [|right].
      2:{ rewrite Hact'. apply active_del_self. }
      intros w1. rewrite ReleaseRun_loop by done. by apply (release_loop_wp _ _ _ limit). }
    intros o w2 _. apply IH.
Qed.

(** Any interleaving of sessions of distinct runs, from a member set within
    the limit. *)
Lemma sessions_ok (runs : list (string * list slot_op)) w w' ps :
  NoDup runs.*1 → Forall (λ r, r.1 ≠ "") runs → session_ok w →
  rtc (pool_step slot_reply (λ _ _, False))
    (w, (λ r, session workflowID r.1 limit r.2) <$> runs) (w', ps) → session_ok w'.
Proof using Type*.
  intros Hnd Hne Hok Hsteps.
  set (who i := default "" (runs.*1 !! i)).
  assert (∀ i r, runs !! i = Some r → who i = r.1) as Hwho.
  { intros i r Hi. unfold who. by rewrite list_lookup_fmap, Hi. }
  assert (pool_ok slot_reply session_ok (length runs) (λ i, session_rely (who i))
    (λ i, session_guar (who i)) (λ _ _ _, True) (w', ps)) as (_ & Hfin & _); [|done].
  eapply (pool_sound slot_reply session_ok (λ _ _, False)); [..|exact Hsteps]; try done.
  - intros i w1 w2 w3 [[H1 H2] H3] [[H4 H5] H6].
    split; [split; [by auto|by rewrite H2]|by rewrite H3].
  - intros i j w1 w2 [ri Hi]%lookup_lt_is_Some [rj Hj]%lookup_lt_is_Some Hij _.
    apply guar_rely_other. rewrite (Hwho _ _ Hi), (Hwho _ _ Hj). intros Heq. apply Hij.
    by eapply NoDup_lookup; [exact Hnd|..]; rewrite list_lookup_fmap, ?Hi, ?Hj; simpl;
      rewrite ?Heq.
  - split_and!; [simpl; by rewrite length_fmap|done|]. intros i p Hp. simpl in Hp.
    rewrite list_lookup_fmap in Hp. destruct (runs !! i) as [r|] eqn:Hi; simplify_eq/=.
    rewrite (Hwho _ _ Hi). apply session_wp. rewrite Forall_forall in Hne.
    apply Hne. by eapply list_elem_of_lookup_2.
Qed.
End Sessions.
