(* ===== verification/Snapshot.v ===== *)
(** * The snapshot store

    internal/engine/snapshot.go and dag/revision.go: runs persisted in the
    workflow_runs bucket with optimistic concurrency, the two derived indexes
    (creation order and liveness), the scans built on them, retention and index
    repair.  Every operation is a [prog] over the bucket.

    A stored value is [SRun run], the JSON text that decodes to [run]; [SEmpty],
    the empty value of an index marker; [SMeta], the index metadata; or [SBad],
    a text that does not decode as a run.  The revision handle of a loaded run
    is its content: [Save] takes the revision the handle holds and returns the
    one it holds afterwards, so the copies of one load that share the handle
    thread it.  [Load] reads from the stream leader, the scans from any replica.
    Contexts are never cancelled here; logs are left out, Go's map
    order and the clock are parameters. *)

From S2P Require Import Prelude Json Types GoTime Interleave Kv Slots.
From stdpp Require Import sorting.

#[local] Open Scope Z_scope.

Inductive stored : Type :=
  | SRun (run : WorkflowRun)
  | SEmpty
  | SMeta (activeBuilt : bool)
  | SBad (bytes : string).

(** [json.Unmarshal(value, &run)] *)
Definition unmarshal_run (v : stored) : outcome WorkflowRun :=
  match v with
  | SRun run => Ret run
  | _ => Err (err_json "cannot unmarshal value into WorkflowRun")
  end.

Definition storeE : Type → Type := kvE stored.

Definition ErrRunNotFound : error := Errorf "workflow run not found" [].
Definition ErrSnapshotConflict : error :=
  Errorf "workflow run snapshot changed since it was loaded" [].

(** [errors.Is(err, target)] for a sentinel: the error itself or one it wraps. *)
Fixpoint errors_Is (e target : error) {struct e} : bool :=
  match e, target with
  | Errorf f args, Errorf f' _ =>
      bool_decide (f = f') ||
      existsb (λ a, match a with AErr e' => errors_Is e' target | _ => false end) args
  end.

Definition snapshotConflictAttemptsMax : nat := 6.
Definition runKeyScanMax : Z := 1000000.
Definition runIndexPrefix : string := "runidx.".
Definition runActivePrefix : string := "runactive.".
Definition scanBatchSize : Z := 256.
Definition ScanFetchMax : Z := 10000.
Definition ActiveFetchMax : Z := 10000.
Definition repairPageMax : Z := 1000.
Definition reconcileInterval : Z := 60 * Second.
Definition activeOrphanGrace : Z := reconcileInterval.
Definition indexMetaKey : string := "index.meta".

Definition run_key (runID : string) : string := "run." +:+ runID.
Definition index_key (runID : string) : string := runIndexPrefix +:+ runID.
Definition active_key (runID : string) : string := runActivePrefix +:+ runID.

(** ** Revisions (dag/revision.go) *)

Definition SnapshotRevision_Advance (cur seq : N) : outcome N :=
  if (seq <=? cur)%N then Panic "SnapshotRevision.Advance: revision must increase" else Ret seq.

Definition advanceRevision (run : WorkflowRun) (rev : option N) (revision : N)
    : outcome (option N) :=
  panic_if (revision =? 0)%N "advanceRevision: a written revision is never 0";;
  panic_if (empty_str (wr_RunID run)) "advanceRevision: RunID must not be empty";;
  match rev with
  | None => Ret None
  | Some cur => r ← SnapshotRevision_Advance cur revision; Ret (Some r)
  end.

(** ** Writing a run *)

Definition isReconcilerOwned (run : WorkflowRun) : bool :=
  negb (IsTerminal (wr_Status run)) || wr_ReleasePending run.

Definition Save (run : WorkflowRun) (rev : option N) : io storeE (option N) :=
  io_of (panic_if (empty_str (wr_RunID run)) "SnapshotStore.Save: RunID must not be empty") ≫= λ _,
  match rev with
  | None =>
      r ⇐ call (KvPut (run_key (wr_RunID run)) (SRun run));
      Done (match r with inr _ => Ret None | inl e => Err (kv_err e) end)
  | Some expected =>
      r ⇐ call (KvUpdate (run_key (wr_RunID run)) (SRun run) expected);
      Done (match r with
            | inl ErrKeyRevisionMismatch =>
                Err (Errorf "%w: run %q (loaded at revision %d)"
                       [AErr ErrSnapshotConflict; AStr (wr_RunID run);
                        AInt (Z.of_N expected)])
            | inl e => Err (kv_err e)
            | inr revision => r ← SnapshotRevision_Advance expected revision; Ret (Some r)
            end)
  end.

Definition createActiveEntry (runID : string) : io storeE unit :=
  io_of (panic_if (empty_str runID) "createActiveEntry: runID must not be empty") ≫= λ _,
  r ⇐ call (KvCreate (active_key runID) SEmpty);
  Done (match r with
        | inr _ | inl ErrKeyExists => Ret tt
        | inl e => Err (kv_err e)
        end).

Definition deleteActiveEntry (runID : string) : io storeE unit :=
  io_of (panic_if (empty_str runID) "deleteActiveEntry: runID must not be empty") ≫= λ _,
  _ ⇐ call (KvDelete (active_key runID) None);
  Done (Ret tt).

Definition writeRunIndexEntry (runID : string) : io storeE unit :=
  io_of (panic_if (empty_str runID) "writeRunIndexEntry: runID must not be empty") ≫= λ _,
  _ ⇐ call (KvCreate (index_key runID) SEmpty);
  Done (Ret tt).

(** The liveness marker first, its error propagated, then the index marker. *)
Definition createEntryIndexes (run : WorkflowRun) : io storeE unit :=
  io_of (panic_if (empty_str (wr_RunID run)) "createEntryIndexes: RunID must not be empty") ≫= λ _,
  (if isReconcilerOwned run
   then o ⇐ createActiveEntry (wr_RunID run);
        Done (wrap_err (λ e, Errorf "create active-run index entry: %w" [AErr e]) o)
   else Done (Ret tt)) ≫= λ _ : unit,
  writeRunIndexEntry (wr_RunID run).

Definition SaveInitial (run : WorkflowRun) (rev : option N) : io storeE (option N) :=
  io_of (panic_if (empty_str (wr_RunID run))
    "SnapshotStore.SaveInitial: RunID must not be empty") ≫= λ _,
  r ⇐ call (KvPut (run_key (wr_RunID run)) (SRun run));
  match r with
  | inl e => io_err (kv_err e)
  | inr revision =>
      rev' ← io_of (advanceRevision run rev revision);
      createEntryIndexes run ≫= λ _, Done (Ret rev')
  end.

Definition CreateSnapshot (run : WorkflowRun) (rev : option N)
    : io storeE (bool * option N) :=
  io_of (panic_if (empty_str (wr_RunID run))
    "SnapshotStore.CreateSnapshot: RunID must not be empty") ≫= λ _,
  r ⇐ call (KvCreate (run_key (wr_RunID run)) (SRun run));
  match r with
  | inr revision =>
      rev' ← io_of (advanceRevision run rev revision);
      createEntryIndexes run ≫= λ _, Done (Ret (true, rev'))
  | inl ErrKeyExists => Done (Ret (false, rev))
  | inl e => io_err (kv_err e)
  end.

Definition Delete (runID : string) : io storeE unit :=
  io_of (panic_if (empty_str runID) "SnapshotStore.Delete: runID must not be empty") ≫= λ _,
  r ⇐ call (KvDelete (run_key runID) None);
  Done (match r with inr _ => Ret tt | inl e => Err (kv_err e) end).

(** ** Reading a run *)

Definition Load (runID : string) : io storeE (WorkflowRun * N) :=
  io_of (panic_if (empty_str runID) "SnapshotStore.Load: runID must not be empty") ≫= λ _,
  r ⇐ call (KvGet true (run_key runID));
  match r with
  | inl ErrKeyNotFound => io_err ErrRunNotFound
  | inl e => io_err (kv_err e)
  | inr ent => run ← io_of (unmarshal_run (ent_value ent)); Done (Ret (run, ent_revision ent))
  end.

(** [handle] again as long as it ends in a conflict; [done k] says whether the
    context ended during the wait after attempt [k]. *)
Fixpoint retry_loop {E A} (done : nat → bool) (handle : io E A) (attempt left : nat)
    : io E A :=
  match left with
  | O => handle
  | S left' =>
      o ⇐ handle;
      match o with
      | Err e =>
          if errors_Is e ErrSnapshotConflict
          then if done attempt then io_err e else retry_loop done handle (S attempt) left'
          else io_err e
      | _ => Done o
      end
  end.

Definition retrySnapshotConflict {E A} (done : nat → bool) (handle : io E A) : io E A :=
  retry_loop done handle 0 (snapshotConflictAttemptsMax - 1).

(** ** Retention *)

Definition isRunKey (key : string) : bool :=
  (4 <=? String.length key)%nat && HasPrefix key "run.".

Definition isRunIndexKey (key : string) : bool :=
  (String.length runIndexPrefix <? String.length key)%nat && HasPrefix key runIndexPrefix.

Definition runKeyCountOf (keys : list string) : Z :=
  Z.of_nat (length (filter (λ k, isRunKey k = true) keys)).

Definition TrimPrefix (s p : string) : string :=
  if HasPrefix s p then String.substring (String.length p) (String.length s - String.length p) s
  else s.

(** Terminal, with a completion time strictly before [cutoff], and owing no
    admission release. *)
Definition prunable (cutoff : Time) (run : WorkflowRun) : bool :=
  match wr_CompletedAt run with
  | Some t => IsTerminal (wr_Status run) && negb (wr_ReleasePending run) && (t <? cutoff)
  | None => false
  end.

Definition isPrunable (key : string) (cutoff : Time) : io storeE bool :=
  io_of (panic_if (empty_str key) "SnapshotStore.isPrunable: key must not be empty") ≫= λ _,
  io_of (panic_if (IsZero cutoff) "SnapshotStore.isPrunable: cutoff must not be zero") ≫= λ _,
  r ⇐ call (KvGet false key);
  match r with
  | inl ErrKeyNotFound => Done (Ret false)
  | inl e => io_err (kv_err e)
  | inr ent => run ← io_of (unmarshal_run (ent_value ent)); Done (Ret (prunable cutoff run))
  end.

(** The scan of [collectPrunable]; [room] deletions are left. *)
Fixpoint collect_loop (cutoff : Time) (keys : list string) (room : nat)
    : io storeE (list string) :=
  match keys, room with
  | [], _ | _, O => Done (Ret [])
  | key :: keys', S room' =>
      if negb (isRunKey key) then collect_loop cutoff keys' room
      else
        drop ← isPrunable key cutoff;
        if drop : bool
        then rest ← collect_loop cutoff keys' room'; Done (Ret (key :: rest))
        else collect_loop cutoff keys' room
  end.

Definition collectPrunable (cutoff : Time) (maxPrune : Z) : io storeE (list string) :=
  io_of (panic_if (IsZero cutoff) "SnapshotStore.collectPrunable: cutoff must not be zero") ≫= λ _,
  io_of (panic_if (maxPrune <=? 0)
    "SnapshotStore.collectPrunable: maxPrune must be positive") ≫= λ _,
  r ⇐ call KvList;
  match r with
  | inl e => io_err (kv_err e)
  | inr keys =>
      io_of (panic_if (runKeyScanMax <? runKeyCountOf keys)
        "SnapshotStore.collectPrunable: key set exceeds bound") ≫= λ _,
      collect_loop cutoff keys (Z.to_nat maxPrune)
  end.

(** The deletions: the snapshot, then its markers. *)
Fixpoint prune_loop (doomed : list string) (deleted : Z) : prog storeE (outcome Z) :=
  match doomed with
  | [] => Done (Ret deleted)
  | key :: doomed' =>
      r ⇐ call (KvDelete key None);
      match r with
      | inl e => io_err (kv_err e)
      | inr _ =>
          let runID := TrimPrefix key "run." in
          r ⇐ call (KvDelete (index_key runID) None);
          match r with
          | inl e => io_err (kv_err e)
          | inr _ => deleteActiveEntry runID ≫= λ _, prune_loop doomed' (deleted + 1)
          end
      end
  end.

Definition PruneTerminal (now : Time) (olderThan maxPrune : Z) : io storeE Z :=
  io_of (panic_if (olderThan <=? 0)
    "SnapshotStore.PruneTerminal: olderThan must be positive") ≫= λ _,
  io_of (panic_if (maxPrune <=? 0)
    "SnapshotStore.PruneTerminal: maxPrune must be positive") ≫= λ _,
  doomed ← collectPrunable (Time_Add now (- olderThan)) maxPrune;
  prune_loop doomed 0.

(** ** Scans *)

(** [natsutil.ParallelGetJSBestEffort]: the values that could be read, and how
    many could not. *)
Fixpoint parallelGet (keys : list string) : prog storeE (gmap string stored * Z) :=
  match keys with
  | [] => Done (∅, 0)
  | key :: keys' =>
      r ⇐ call (KvGet false key);
      rest ⇐ parallelGet keys';
      Done (match r with
            | inr ent => (<[key := ent_value ent]> rest.1, rest.2)
            | inl _ => (rest.1, rest.2 + 1)
            end)
  end.

Fixpoint dedupe_from (seen : list string) (keys : list string) : list string :=
  match keys with
  | [] => []
  | key :: keys' =>
      if decide (key ∈ seen) then dedupe_from seen keys'
      else key :: dedupe_from (key :: seen) keys'
  end.

Definition dedupeOrderedKeys : list string → list string := dedupe_from [].

Fixpoint decode_runs (values : gmap string stored) (keys : list string)
    : outcome (list WorkflowRun) :=
  match keys with
  | [] => Ret []
  | key :: keys' =>
      match values !! key with
      | None => decode_runs values keys'
      | Some v => run ← unmarshal_run v; rest ← decode_runs values keys'; Ret (run :: rest)
      end
  end.

Definition fetchRunsByID (runIDs : list string) : io storeE (list WorkflowRun * Z) :=
  io_of (panic_if (bool_decide (runIDs = [])) "fetchRunsByID: runIDs must not be empty") ≫= λ _,
  let keys := run_key <$> runIDs in
  got ⇐ parallelGet keys;
  Done (runs ← decode_runs got.1 keys; Ret (runs, got.2)).

Definition listRunIndexKeys : io storeE (list string) :=
  r ⇐ call (KvReplay runIndexPrefix);
  Done (match r with
        | inl e => Err (kv_err e)
        | inr raw =>
            panic_if (runKeyScanMax <? Z.of_nat (length raw))
              "listRunIndexKeys: key set exceeds bound";;
            Ret (dedupeOrderedKeys raw)
        end).

Definition listActiveRunIDs : io storeE (list string) :=
  r ⇐ call (KvReplay runActivePrefix);
  Done (match r with
        | inl e => Err (kv_err e)
        | inr raw =>
            fail_if (runKeyScanMax <? Z.of_nat (length raw))
              (Errorf "listActiveRunIDs: active-marker key set exceeds bound (%d)"
                 [AInt runKeyScanMax]);;
            Ret (dedupeOrderedKeys (map (λ k, TrimPrefix k runActivePrefix) raw))
        end).

Record ScanStats : Type := MkScanStats {
  st_Scanned : Z;
  st_Attempted : Z;
  st_Matched : Z;
  st_Skipped : Z;
  st_Truncated : bool;
}.

(** The matches of a batch, newest first, up to [room]. *)
Fixpoint take_matches (pred : WorkflowRun → bool) (room : nat) (runs : list WorkflowRun)
    : list WorkflowRun :=
  match runs, room with
  | [], _ | _, O => []
  | run :: runs', S room' =>
      if pred run then run :: take_matches pred room' runs' else take_matches pred room runs'
  end.

(** The loop of [ScanNewestFirst]: [older] are the index keys not visited yet,
    [matches] what was collected, newest first.  Every pass visits at least one
    key, so the number of keys is enough fuel. *)
Fixpoint scan_loop (fuel : nat) (pred : WorkflowRun → bool) (limit fetchMax : Z)
    (older : list string) (matches : list WorkflowRun) (stats : ScanStats)
    : io storeE (list WorkflowRun * ScanStats) :=
  let pos := Z.of_nat (length older) in
  let finish := (matches, MkScanStats (st_Scanned stats) (st_Attempted stats)
    (st_Matched stats) (st_Skipped stats)
    ((0 <? pos) && (Z.of_nat (length matches) <? limit))) in
  if (0 <? pos) && (Z.of_nat (length matches) <? limit) && (st_Attempted stats <? fetchMax)
  then
    match fuel with
    | O => Done (Panic "out of fuel")
    | S fuel' =>
        let batchSize := Z.min scanBatchSize pos in
        let batchSize := if fetchMax <? st_Attempted stats + batchSize
                         then fetchMax - st_Attempted stats else batchSize in
        let start := Z.to_nat (pos - batchSize) in
        let batchIDs := (λ k, TrimPrefix k runIndexPrefix) <$> drop start older in
        let n := Z.of_nat (length batchIDs) in
        '(fetched, skipped) ← fetchRunsByID batchIDs;
        let found := take_matches pred (Z.to_nat (limit - Z.of_nat (length matches)))
                       (reverse fetched) in
        scan_loop fuel' pred limit fetchMax (take start older) (matches ++ found)
          (MkScanStats (st_Scanned stats + n) (st_Attempted stats + n)
             (st_Matched stats + Z.of_nat (length found)) (st_Skipped stats + skipped) false)
    end
  else Done (Ret finish).

Definition ScanNewestFirst (pred : WorkflowRun → bool) (limit fetchMax : Z)
    : io storeE (list WorkflowRun * ScanStats) :=
  io_of (panic_if (limit <=? 0) "ScanNewestFirst: limit must be positive") ≫= λ _,
  io_of (panic_if (fetchMax <? limit) "ScanNewestFirst: fetchMax must be >= limit") ≫= λ _,
  let fetchMax := Z.min fetchMax ScanFetchMax in
  indexKeys ← listRunIndexKeys;
  scan_loop (length indexKeys) pred limit fetchMax indexKeys [] (MkScanStats 0 0 0 0 false).

Definition alwaysMatch (_ : WorkflowRun) : bool := true.

Definition ListRecent (limit : Z) : io storeE (list WorkflowRun) :=
  io_of (panic_if (limit <=? 0) "SnapshotStore.ListRecent: limit must be positive") ≫= λ _,
  '(runs, _) ← ScanNewestFirst alwaysMatch limit ScanFetchMax;
  Done (Ret runs).

Definition ListActive (fetchMax : Z) : io storeE (list WorkflowRun * ScanStats) :=
  io_of (panic_if (fetchMax <=? 0) "ListActive: fetchMax must be positive") ≫= λ _,
  let fetchMax := Z.min fetchMax ActiveFetchMax in
  activeIDs ← listActiveRunIDs;
  let truncated := fetchMax <? Z.of_nat (length activeIDs) in
  let activeIDs := take (Z.to_nat fetchMax) activeIDs in
  if decide (activeIDs = []) then Done (Ret ([], MkScanStats 0 0 0 0 truncated))
  else
    let n := Z.of_nat (length activeIDs) in
    '(fetched, skipped) ← fetchRunsByID activeIDs;
    let runs := filter (λ r, isReconcilerOwned r = true) fetched in
    Done (Ret (runs, MkScanStats n n (Z.of_nat (length runs))
                       (skipped + Z.of_nat (length fetched - length runs)) truncated)).

Definition CountAll : io storeE Z :=
  r ⇐ call KvList;
  Done (match r with
        | inl e => Err (kv_err e)
        | inr keys =>
            panic_if (runKeyScanMax <? runKeyCountOf keys)
              "SnapshotStore.CountAll: key set exceeds bound";;
            Ret (runKeyCountOf keys)
        end).

(** ** Index repair *)

Record RepairStats : Type := MkRepairStats {
  rs_Repaired : Z;
  rs_OrphansRemoved : Z;
  rs_ActiveRepaired : Z;
  rs_ActiveOrphansRemoved : Z;
  rs_ActiveValidationTruncated : bool;
}.

Definition RepairStats_Add (s other : RepairStats) : RepairStats := {|
  rs_Repaired := rs_Repaired s + rs_Repaired other;
  rs_OrphansRemoved := rs_OrphansRemoved s + rs_OrphansRemoved other;
  rs_ActiveRepaired := rs_ActiveRepaired s + rs_ActiveRepaired other;
  rs_ActiveOrphansRemoved := rs_ActiveOrphansRemoved s + rs_ActiveOrphansRemoved other;
  rs_ActiveValidationTruncated :=
    rs_ActiveValidationTruncated s || rs_ActiveValidationTruncated other |}.

(** The IDs with a snapshot and the IDs with an index marker. *)
Definition split_ids (keys : list string) : list string * list string :=
  ((λ k, TrimPrefix k "run.") <$> filter (λ k, isRunKey k = true) keys,
   (λ k, TrimPrefix k runIndexPrefix) <$>
     filter (λ k, isRunKey k = false ∧ isRunIndexKey k = true) keys).

Definition loadRunAndIndexIDSets : io storeE (list string * list string) :=
  r ⇐ call KvList;
  Done (match r with
        | inl e => Err (kv_err e)
        | inr keys =>
            fail_if (runKeyScanMax <? runKeyCountOf keys)
              (Errorf "loadRunAndIndexIDSets: run key set exceeds bound (%d)"
                 [AInt runKeyScanMax]);;
            Ret (split_ids keys)
        end).

(** A [Create] whose [ErrKeyExists] counts as done: whether it wrote. *)
Definition createMarker (key : string) : io storeE bool :=
  r ⇐ call (KvCreate key SEmpty);
  Done (match r with
        | inr _ => Ret true
        | inl ErrKeyExists => Ret false
        | inl e => Err (kv_err e)
        end).

Fixpoint backfill_loop (values : gmap string stored) (missing : list string)
    (repaired activeRepaired : Z) : io storeE (Z * Z) :=
  match missing with
  | [] => Done (Ret (repaired, activeRepaired))
  | id :: missing' =>
      match values !! run_key id with
      | None => backfill_loop values missing' repaired activeRepaired
      | Some v =>
          run ← io_of (unmarshal_run v);
          wrote ← createMarker (index_key id);
          let repaired := repaired + Z.b2z wrote in
          if negb (isReconcilerOwned run) then backfill_loop values missing' repaired activeRepaired
          else
            wrote ← createMarker (active_key id);
            backfill_loop values missing' repaired (activeRepaired + Z.b2z wrote)
      end
  end.

Fixpoint orphans_loop (orphans : list string) (removed : Z) : io storeE Z :=
  match orphans with
  | [] => Done (Ret removed)
  | id :: orphans' =>
      r ⇐ call (KvDelete (index_key id) None);
      match r with
      | inl e => io_err (kv_err e)
      | inr _ => orphans_loop orphans' (removed + 1)
      end
  end.

Definition withinActiveOrphanGrace (now : Time) (run : WorkflowRun) : bool :=
  match wr_CompletedAt run with
  | None => false
  | Some t => Time_Sub now t <? activeOrphanGrace
  end.

Definition staleMarker (now : Time) (v : option stored) : outcome bool :=
  match v with
  | None => Ret true
  | Some v =>
      run ← unmarshal_run v;
      Ret (negb (isReconcilerOwned run) && negb (withinActiveOrphanGrace now run))
  end.

Fixpoint active_orphans_loop (now : Time) (values : gmap string stored) (ids : list string)
    (removed : Z) : io storeE Z :=
  match ids with
  | [] => Done (Ret removed)
  | id :: ids' =>
      stale ← io_of (staleMarker now (values !! run_key id));
      if negb stale then active_orphans_loop now values ids' removed
      else
        r ⇐ call (KvDelete (active_key id) None);
        match r with
        | inl e => io_err (kv_err e)
        | inr _ => active_orphans_loop now values ids' (removed + 1)
        end
  end.

Section Repair.
(** Go's iteration order of a map. *)
Variable perm : list string → list string.

Definition backfillMissingIndex (runIDs indexIDs : list string) (pageMax : Z)
    : io storeE (Z * Z) :=
  io_of (panic_if (pageMax <=? 0) "backfillMissingIndex: pageMax must be positive") ≫= λ _,
  let missing := take (Z.to_nat pageMax)
    (filter (λ id, id ∉ indexIDs) (perm runIDs)) in
  if decide (missing = []) then Done (Ret (0, 0))
  else
    got ⇐ parallelGet (run_key <$> missing);
    backfill_loop got.1 missing 0 0.

Definition removeOrphanIndexEntries (runIDs indexIDs : list string) (pageMax : Z)
    : io storeE Z :=
  io_of (panic_if (pageMax <=? 0) "removeOrphanIndexEntries: pageMax must be positive") ≫= λ _,
  orphans_loop (take (Z.to_nat pageMax) (filter (λ id, id ∉ runIDs) (perm indexIDs))) 0.

Definition repairActiveOrphans (now : Time) (pageMax : Z) : io storeE (Z * bool) :=
  io_of (panic_if (pageMax <=? 0) "repairActiveOrphans: pageMax must be positive") ≫= λ _,
  activeIDs ← listActiveRunIDs;
  let truncated := pageMax <? Z.of_nat (length activeIDs) in
  let activeIDs := take (Z.to_nat pageMax) activeIDs in
  if decide (activeIDs = []) then Done (Ret (0, truncated))
  else
    got ⇐ parallelGet (run_key <$> activeIDs);
    removed ← active_orphans_loop now got.1 activeIDs 0;
    Done (Ret (removed, truncated)).

Definition RepairRunIndex (now : Time) (pageMax : Z) : io storeE RepairStats :=
  io_of (panic_if (pageMax <=? 0) "RepairRunIndex: pageMax must be positive") ≫= λ _,
  '(runIDs, indexIDs) ← loadRunAndIndexIDSets;
  '(repaired, activeRepaired) ← backfillMissingIndex runIDs indexIDs pageMax;
  orphans ← removeOrphanIndexEntries runIDs indexIDs pageMax;
  '(removed, truncated) ← repairActiveOrphans now pageMax;
  Done (Ret (MkRepairStats repaired orphans activeRepaired removed truncated)).
End Repair.

(** *** The one-time build *)

Record runBuildMeta : Type := MkRunBuildMeta {
  bm_runID : string;
  bm_createdAt : Time;
  bm_active : bool;
}.

Fixpoint build_metas (values : gmap string stored) (ids : list string)
    : outcome (list runBuildMeta) :=
  match ids with
  | [] => Ret []
  | id :: ids' =>
      match values !! run_key id with
      | None => build_metas values ids'
      | Some v =>
          run ← unmarshal_run v;
          rest ← build_metas values ids';
          Ret (MkRunBuildMeta id (wr_CreatedAt run) (isReconcilerOwned run) :: rest)
      end
  end.

(** Pages of [repairPageMax]; every page is non-empty, so the number of IDs is
    enough fuel. *)
Fixpoint build_pages (fuel : nat) (ids : list string) : io storeE (list runBuildMeta) :=
  match ids, fuel with
  | [], _ => Done (Ret [])
  | _, O => Done (Panic "out of fuel")
  | _, S fuel' =>
      let batch := take (Z.to_nat repairPageMax) ids in
      got ⇐ parallelGet (run_key <$> batch);
      metas ← io_of (build_metas got.1 batch);
      rest ← build_pages fuel' (drop (Z.to_nat repairPageMax) ids);
      Done (Ret (metas ++ rest))
  end.

Definition loadAllRunMetasForBuild : io storeE (list runBuildMeta) :=
  r ⇐ call KvList;
  match r with
  | inl e => io_err (kv_err e)
  | inr keys =>
      let runIDs := (split_ids keys).1 in
      if runKeyScanMax <? Z.of_nat (length runIDs)
      then io_err (Errorf "loadAllRunMetasForBuild: run key set exceeds bound (%d)"
             [AInt runKeyScanMax])
      else build_pages (length runIDs) runIDs
  end.

Fixpoint build_loop (metas : list runBuildMeta) : io storeE unit :=
  match metas with
  | [] => Done (Ret tt)
  | m :: metas' =>
      createMarker (index_key (bm_runID m)) ≫= λ _,
      (if bm_active m then createMarker (active_key (bm_runID m)) else Done (Ret false)) ≫= λ _,
      build_loop metas'
  end.

Definition meta_le (m m' : runBuildMeta) : Prop := bm_createdAt m ≤ bm_createdAt m'.
#[global] Instance meta_le_dec : RelDecision meta_le.
Proof. intros m m'. unfold meta_le. apply _. Defined.

Definition buildActiveIndexOnce : io storeE bool :=
  r ⇐ call (KvGet false indexMetaKey);
  match r with
  | inr _ => Done (Ret false)
  | inl ErrKeyNotFound =>
      metas ← loadAllRunMetasForBuild;
      build_loop (merge_sort meta_le metas) ≫= λ _,
      r ⇐ call (KvPut indexMetaKey (SMeta true));
      Done (match r with inl e => Err (kv_err e) | inr _ => Ret true end)
  | inl e => io_err (kv_err e)
  end.
