(* ===== verification/SnapshotSpec.v ===== *)
(** * Scans and indexes of the snapshot store

    On a bucket that answers exactly, the paged scan of [ScanNewestFirst] is a
    filter of the newest index entries ([scan_reference]).  On a bucket whose
    calls may fail, be lost or be cut off by a crash, and under any number of
    engines, a run that is indexed is also marked live, unless it was created
    already over. *)

From S2P Require Import Prelude Json Types GoTime Interleave Kv Slots Snapshot.
From stdpp Require Import sorting.
From Stdlib Require Import ZifyBool.

#[local] Open Scope Z_scope.

(** ** Scans *)

Lemma length_filter_fmap {A B} (f : A → B) (P : B → Prop) `{!∀ x, Decision (P x)} (l : list A) :
  length (filter P (f <$> l)) = length (filter (λ x, P (f x)) l).
Proof.
  induction l as [|x l IH]; [done|]. cbn [fmap list_fmap]. rewrite !filter_cons.
  destruct (decide (P (f x))); cbn; by rewrite IH.
Qed.

Lemma omap_reverse {A B} (f : A → option B) (l : list A) :
  omap f (reverse l) = reverse (omap f l).
Proof.
  induction l as [|x l IH]; [done|]. rewrite reverse_cons, omap_app, IH.
  cbn [omap list_omap]. destruct (f x); [by rewrite reverse_cons|by rewrite app_nil_r].
Qed.

Section Scan.
Context {B : Type} `{!Kv stored B, !KvLaws stored B}.
Implicit Types (b : B) (ids keys : list string).

Definition exact R b (e : storeE R) : B * R := kv_exec b e.

(** The run stored under an ID. *)
Definition run_at b (id : string) : option WorkflowRun :=
  match ent_value <$> kv_get b (run_key id) with Some (SRun run) => Some run | _ => None end.

(** Every stored snapshot of [ids] decodes. *)
Definition decodes b ids : Prop :=
  Forall (λ id, ∀ x, kv_get b (run_key id) = Some x → ∃ run, ent_value x = SRun run) ids.

Definition missing b ids : Z :=
  Z.of_nat (length (filter (λ id, kv_get b (run_key id) = None) ids)).

Lemma parallelGet_run b keys :
  ∃ m n, run_prog exact b (parallelGet keys) = (b, (m, n)) ∧
    (∀ k, m !! k = if decide (k ∈ keys) then ent_value <$> kv_get b k else None) ∧
    n = Z.of_nat (length (filter (λ k, kv_get b k = None) keys)).
Proof.
  induction keys as [|key keys (m & n & Hrun & Hm & Hn)].
  { by exists ∅, 0. }
  assert (∀ k (m' : gmap string stored),
    m' !! key = ent_value <$> kv_get b key → (k ≠ key → m' !! k = m !! k) →
    m' !! k = if decide (k ∈ key :: keys) then ent_value <$> kv_get b k else None) as Hgo.
  { intros k m' Hkey Hk. destruct (decide (k = key)) as [->|Hne].
    - rewrite decide_True by by left. done.
    - rewrite Hk, Hm by done. apply decide_ext. rewrite elem_of_cons. naive_solver. }
  cbn [parallelGet]. rewrite run_prog_bind. cbn [call run_prog exact kv_exec].
  rewrite run_prog_bind, Hrun. cbn [run_prog fst snd]. rewrite filter_cons.
  destruct (kv_get b key) as [x|] eqn:Hx.
  - eexists _, _. split_and!; [done| |by rewrite decide_False by done].
    intros k. apply Hgo; [by rewrite lookup_insert_eq|]. intros. by rewrite lookup_insert_ne.
  - eexists _, _. split_and!; [done| |rewrite decide_True by done; simpl; lia].
    intros k. apply Hgo; [|done]. rewrite Hm, Hx. by case_decide.
Qed.

Lemma decode_runs_spec b ids m :
  decodes b ids → (∀ id, id ∈ ids → m !! run_key id = ent_value <$> kv_get b (run_key id)) →
  decode_runs m (run_key <$> ids) = Ret (omap (run_at b) ids).
Proof.
  unfold run_at. induction ids as [|id ids IH]; intros Hd Hm; [done|].
  apply Forall_cons in Hd as [Hd Hds]. cbn.
  rewrite (Hm id) by by left. rewrite IH by (done || (intros; apply Hm; by right)).
  destruct (kv_get b (run_key id)) as [x|]; cbn; [|done].
  destruct (Hd x eq_refl) as [run ->]. done.
Qed.

Lemma fetch_run b ids :
  ids ≠ [] → decodes b ids →
  run_prog exact b (fetchRunsByID ids) = (b, Ret (omap (run_at b) ids, missing b ids)).
Proof.
  intros Hne Hd. unfold fetchRunsByID. rewrite bool_decide_eq_false_2 by done.
  cbn [panic_if io_of mbind io_mbind prog_bind]. unfold mbind, io_mbind. cbn [prog_bind].
  rewrite run_prog_bind. destruct (parallelGet_run b (run_key <$> ids)) as (m & n & -> & Hm & ->).
  cbn [run_prog fst snd]. rewrite (decode_runs_spec b).
  - cbn. do 3 f_equal. unfold missing. by rewrite length_filter_fmap.
  - done.
  - intros id Hid. rewrite Hm, decide_True; [done|]. by apply list_elem_of_fmap_2.
Qed.

Lemma take_matches_spec pred : ∀ runs room,
  take_matches pred room runs = take room (filter (λ r, pred r = true) runs).
Proof.
  induction runs as [|run runs IH]; intros [|room]; cbn [take_matches]; try done.
  rewrite filter_cons. destruct (pred run); [rewrite decide_True by done|rewrite decide_False by done];
    cbn; by rewrite IH.
Qed.

(** What a scan returns: of the [fetchMax] newest of the indexed IDs [ids],
    which are oldest first, those that still have a run, filtered by [pred] and
    cut to [limit].  Older entries are not looked at, as the code stops reading
    the index there. *)
Definition scan_reference b (pred : WorkflowRun → bool) (limit fetchMax : Z) ids
    : list WorkflowRun :=
  take (Z.to_nat limit) (filter (λ r, pred r = true)
    (omap (run_at b) (take (Z.to_nat fetchMax) (reverse ids)))).

Definition key_ids (keys : list string) : list string :=
  (λ k, TrimPrefix k runIndexPrefix) <$> keys.

(** One batch: [k] of the newest entries, [room] matches still wanted. *)
Lemma scan_split {A} (P : A → Prop) `{!∀ x, Decision (P x)} (f : string → option A)
    (room budget k : nat) (l : list string) :
  (k ≤ budget)%nat →
  take room (filter P (omap f (take budget l))) =
  take room (filter P (omap f (take k l))) ++
  take (room - length (take room (filter P (omap f (take k l)))))
    (filter P (omap f (take (budget - k) (drop k l)))).
Proof.
  intros Hk. replace budget with (k + (budget - k))%nat at 1 by lia.
  rewrite <-take_take_drop, omap_app, filter_app, take_app. do 2 f_equal.
  rewrite length_take. lia.
Qed.

(** The loop from any point: [older] unvisited, [matches] collected. *)
Lemma scan_loop_run b pred limit fetchMax : ∀ fuel older matches stats,
  (length older ≤ fuel)%nat → st_Attempted stats ≤ fetchMax → decodes b (key_ids older) →
  ∃ stats',
  let found := take (Z.to_nat limit - length matches) (filter (λ r, pred r = true)
    (omap (run_at b) (take (Z.to_nat (fetchMax - st_Attempted stats))
       (reverse (key_ids older))))) in
  run_prog exact b (scan_loop fuel pred limit fetchMax older matches stats) =
    (b, Ret (matches ++ found, stats')) ∧
  st_Matched stats' = st_Matched stats + Z.of_nat (length found) ∧
  st_Truncated stats' = (fetchMax - st_Attempted stats <? Z.of_nat (length older)) &&
    (Z.of_nat (length (matches ++ found)) <? limit).
Proof.
  assert (∀ older (matches : list WorkflowRun) (stats : ScanStats),
    (0 <? Z.of_nat (length older)) && (Z.of_nat (length matches) <? limit) &&
      (st_Attempted stats <? fetchMax) = false → st_Attempted stats ≤ fetchMax →
    take (Z.to_nat limit - length matches) (filter (λ r, pred r = true)
      (omap (run_at b) (take (Z.to_nat (fetchMax - st_Attempted stats))
         (reverse (key_ids older))))) = [] ∧
    (0 <? Z.of_nat (length older)) && (Z.of_nat (length matches) <? limit) =
    (fetchMax - st_Attempted stats <? Z.of_nat (length older)) &&
      (Z.of_nat (length matches) <? limit)) as Hstop.
  { intros older matches stats. destruct older as [|k older]; [|cbn [length]].
    - intros _ Hle. change (reverse (key_ids [])) with (@nil string). rewrite take_nil.
      split; [apply take_nil|]. symmetry. apply andb_false_iff. left. apply Z.ltb_ge. change (Z.of_nat (length [])) with 0. lia.
    - destruct (Z.of_nat (length matches) <? limit) eqn:Hm.
      + rewrite andb_true_r. intros [?|?]%andb_false_iff ?; [lia|].
        replace (Z.to_nat (fetchMax - st_Attempted stats)) with 0%nat by lia.
        rewrite take_0. split; [apply take_nil|]. lia.
      + intros _ _. replace (Z.to_nat limit - length matches)%nat with 0%nat by lia.
        by rewrite !andb_false_r. }
  induction fuel as [|fuel IH]; intros older matches stats Hlen Hatt Hdec;
    cbn [scan_loop]; destruct (_ && _ && _) eqn:Hgo.
  1: { destruct older; [done|simpl in Hlen; lia]. }
  1, 3: destruct (Hstop _ _ _ Hgo Hatt) as [-> Htr]; eexists; cbn zeta;
    rewrite app_nil_r; split_and!; [done|cbn; lia|exact Htr].
  clear Hstop. rewrite !andb_true_iff in Hgo. destruct Hgo as [[Hpos Hroom] Hbud].
  set (batch := if fetchMax <? _ then _ else _).
  assert (0 < batch ≤ Z.min (Z.of_nat (length older)) (fetchMax - st_Attempted stats)) as Hb.
  { unfold batch, scanBatchSize. case_match; lia. }
  cbn zeta. set (start := Z.to_nat (Z.of_nat (length older) - batch)).
  unfold mbind, io_mbind. rewrite run_prog_bind.
  assert ((λ k, TrimPrefix k runIndexPrefix) <$> drop start older =
    drop start (key_ids older)) as -> by apply fmap_drop.
  assert (length (drop start (key_ids older)) = Z.to_nat batch) as Hlb.
  { unfold key_ids. rewrite length_drop, length_fmap. lia. }
  rewrite fetch_run; [|intros Hnil; rewrite Hnil in Hlb; cbn in Hlb; lia|by apply Forall_drop].
  cbn beta iota. rewrite Hlb, take_matches_spec, <-omap_reverse, reverse_drop.
  assert (length (key_ids older) - start = Z.to_nat batch)%nat as ->
    by (unfold key_ids; rewrite length_fmap; lia).
  rewrite Z2Nat.id by lia.
  replace (Z.to_nat (limit - Z.of_nat (length matches)))
    with (Z.to_nat limit - length matches)%nat by lia.
  set (room := (Z.to_nat limit - length matches)%nat).
  set (found := take room (filter _ (omap (run_at b) (take (Z.to_nat batch) _)))).
  destruct (IH (take start older) (matches ++ found)
    (MkScanStats (st_Scanned stats + batch) (st_Attempted stats + batch)
       (st_Matched stats + Z.of_nat (length found))
       (st_Skipped stats + missing b (drop start (key_ids older))) false))
    as (stats' & -> & Hma & Htr).
  { rewrite length_take. lia. }
  { cbn. lia. }
  { unfold key_ids. rewrite fmap_take. by apply Forall_take. }
  cbn [st_Attempted st_Matched] in *.
  assert (key_ids (take start older) = take start (key_ids older)) as Hk
    by apply fmap_take.
  exists stats'. cbn zeta.
  rewrite (scan_split _ _ room (Z.to_nat (fetchMax - st_Attempted stats)) (Z.to_nat batch)) by lia.
  fold found.
  assert (Z.to_nat limit - length (matches ++ found) = room - length found)%nat as Hr
    by (rewrite length_app; lia).
  assert (Z.to_nat (fetchMax - (st_Attempted stats + batch)) =
    Z.to_nat (fetchMax - st_Attempted stats) - Z.to_nat batch)%nat as Hbd by lia.
  assert (reverse (key_ids (take start older)) =
    drop (Z.to_nat batch) (reverse (key_ids older))) as Hrev.
  { rewrite Hk, reverse_take. unfold key_ids. rewrite length_fmap. f_equal. lia. }
  rewrite Hr, Hbd, Hrev in *. split_and!; [by rewrite app_assoc| |].
  - rewrite Hma, length_app. lia.
  - rewrite Htr, app_assoc. f_equal. rewrite length_take. lia.
Qed.

(** The scan as a whole. *)
Lemma scan_run b pred limit fetchMax ids :
  0 < limit ≤ fetchMax →
  ids = key_ids (dedupeOrderedKeys
    (filter (λ k, HasPrefix k runIndexPrefix = true) (kv_replay b))) →
  Z.of_nat (length (kv_replay b)) ≤ runKeyScanMax → decodes b ids →
  ∃ stats, run_prog exact b (ScanNewestFirst pred limit fetchMax) =
    (b, Ret (scan_reference b pred limit (Z.min fetchMax ScanFetchMax) ids, stats)) ∧
    st_Matched stats =
      Z.of_nat (length (scan_reference b pred limit (Z.min fetchMax ScanFetchMax) ids)) ∧
    (st_Truncated stats = true ↔
      Z.min fetchMax ScanFetchMax < Z.of_nat (length ids) ∧
      Z.of_nat (length (scan_reference b pred limit (Z.min fetchMax ScanFetchMax) ids)) < limit).
Proof.
  intros Hl -> Hmax Hdec. unfold ScanNewestFirst.
  rewrite (proj2 (Z.leb_gt limit 0)), (proj2 (Z.ltb_ge fetchMax limit)) by lia.
  unfold mbind, io_mbind. cbn [panic_if io_of prog_bind]. rewrite run_prog_bind.
  unfold listRunIndexKeys. rewrite run_prog_bind. cbn [call run_prog exact kv_exec].
  set (raw := filter _ (kv_replay b)) in *.
  assert (length raw ≤ length (kv_replay b))%nat by apply length_filter.
  rewrite (proj2 (Z.ltb_ge runKeyScanMax (Z.of_nat (length raw)))) by lia.
  cbn [panic_if mbind outcome_bind].
  destruct (scan_loop_run b pred limit (Z.min fetchMax ScanFetchMax)
    (length (dedupeOrderedKeys raw)) (dedupeOrderedKeys raw) [] (MkScanStats 0 0 0 0 false))
    as (stats & Hrun & Hm & Ht); [done|cbn; unfold ScanFetchMax; lia|done|].
  cbn [st_Attempted st_Matched length app] in *. rewrite Z.sub_0_r, Nat.sub_0_r in *.
  unfold key_ids in Ht. exists stats. rewrite Hrun. split_and!; [done|by rewrite Hm|].
  unfold key_ids. rewrite length_fmap, Ht, andb_true_iff, !Z.ltb_lt. done.
Qed.
End Scan.

(** ** Index markers under crashes *)

Lemma app_prefix_inj (p s s' : string) : p +:+ s = p +:+ s' → s = s'.
Proof. apply String.app_inj. Qed.

Lemma active_not_index id id' : active_key id ≠ index_key id'.
Proof. done. Qed.

Lemma run_not_index id id' : run_key id ≠ index_key id'.
Proof. done. Qed.

Lemma run_not_active id id' : run_key id ≠ active_key id'.
Proof. done. Qed.

#[export] Hint Resolve active_not_index run_not_index run_not_active : core.

(** The operations that create a run, and the saves of stored ones. *)
Inductive index_op : Type :=
  | OpSaveInitial (run : WorkflowRun) (rev : option N)
  | OpCreateSnapshot (run : WorkflowRun) (rev : option N)
  | OpSave (run : WorkflowRun) (rev : option N).

Definition op_run (op : index_op) : WorkflowRun :=
  match op with OpSaveInitial run _ | OpCreateSnapshot run _ | OpSave run _ => run end.

(** Whether the operation reported that it created the run. *)
Definition index_prog (op : index_op) : prog storeE bool :=
  match op with
  | OpSaveInitial run rev =>
      o ⇐ SaveInitial run rev; Done (match o with Ret _ => true | _ => false end)
  | OpCreateSnapshot run rev =>
      o ⇐ CreateSnapshot run rev; Done (match o with Ret (true, _) => true | _ => false end)
  | OpSave run rev => _ ⇐ Save run rev; Done false
  end.

Section Indexes.
Context {B : Type} `{!Kv stored B, !KvLaws stored B}.
Variable replicas : bool.
(** The runs that are created already over. *)
Variable ended : string → Prop.
Implicit Types (w : kvw stored B).

Definition present w (k : string) : Prop := is_Some (kv_get (kw_b w) k).

(** A run in the creation index is also in the liveness index, unless it was
    over from the start. *)
Definition index_ok w : Prop := ∀ id, present w (index_key id) → present w (active_key id) ∨ ended id.

Definition only_adds w w' : Prop := ∀ k, present w k → present w' k.

#[local] Instance only_adds_preorder : PreOrder only_adds.
Proof. split; [by intros w k|]. intros w1 w2 w3 H1 H2 k Hk. auto. Qed.

Abbreviation iwp := (wp (kv_reply replicas) index_ok only_adds only_adds).

Lemma wrote_only_adds w w' k v n :
  wrote (kw_b w) k (Some v) n (kw_b w') → only_adds w w' ∧ present w' k ∧
  ∀ k', k' ≠ k → present w' k' → present w k'.
Proof.
  intros (_ & _ & [t Ht] & Ho). split_and!.
  - intros k' Hk'. unfold present. destruct (decide (k' = k)) as [->|Hne]; [by rewrite Ht|].
    by rewrite (proj1 (Ho k' Hne)).
  - unfold present. by rewrite Ht.
  - intros k' Hne. unfold present. by rewrite (proj1 (Ho k' Hne)).
Qed.

Lemma wrote_present w w' k v n :
  wrote (kw_b w) k (Some v) n (kw_b w') → present w' k.
Proof. intros (_ & H & _)%wrote_only_adds. done. Qed.

Lemma same_only_adds w w' : kw_b w' = kw_b w →
  only_adds w w' ∧ ∀ k, present w' k → present w k.
Proof. unfold only_adds, present. intros ->. done. Qed.

(** A call that stores a value under [k]: fine for any key but an index key,
    and for an index key whose liveness marker is there or whose run is over. *)
Lemma store_ok w w' k (v : stored) :
  index_ok w → (∀ id, k = index_key id → present w (active_key id) ∨ ended id) →
  kw_b w' = kw_b w ∨ (∃ n, wrote (kw_b w) k (Some v) n (kw_b w')) →
  index_ok w' ∧ only_adds w w'.
Proof.
  intros Hok Hk [Hb|[n Hw]].
  - destruct (same_only_adds _ _ Hb) as [Ha Hs]. split; [|done].
    intros id Hid. destruct (Hok id (Hs _ Hid)) as [?|?]; [by left; apply Ha|by right].
  - destruct (wrote_only_adds _ _ _ _ _ Hw) as (Ha & _ & Hs). split; [|done].
    intros id Hid. assert (present w (active_key id) ∨ ended id) as [?|?]; [|by left; apply Ha|by right].
    destruct (decide (index_key id = k)) as [Heq|Hne]; [by apply Hk|]. by apply Hok, Hs.
Qed.

(** What is left of the bucket after a call that writes. *)
Definition stores {R} (e : storeE (kv_error + R)) (k : string) (v : stored) : Prop :=
  ∀ w w' r, kv_reply replicas _ w e w' r →
    (kw_b w' = kw_b w ∨ ∃ n, wrote (kw_b w) k (Some v) n (kw_b w')) ∧
    match r with
    | inr _ => present w' k
    | inl ErrKeyExists => present w' k
    | inl _ => True
    end.

Lemma create_stores k v : stores (KvCreate k v) k v.
Proof using Type*.
  intros w w' r Hr%create_reply. destruct r as [[]|n]; simpl in Hr.
  1, 3, 4: destruct Hr as [? [?|[_ ?]]]; done || (split; [eauto|done]).
  - destruct Hr as [Hb ?]. split; [by left|]. unfold present. by rewrite Hb.
  - destruct Hr as [_ Hw]. split; [eauto|]. by eapply wrote_present.
Qed.

Lemma put_stores k v : stores (KvPut k v) k v.
Proof using Type*.
  intros w w' r Hr%put_reply. destruct r as [[]|n]; simpl in Hr.
  1, 2, 3, 4: destruct Hr as [? [?|?]]; done || (split; [eauto|done]).
  split; [eauto|]. by eapply wrote_present.
Qed.

Lemma update_stores k v n : stores (KvUpdate k v n) k v.
Proof using Type*.
  intros w w' r Hr%update_reply. destruct r as [[]|m]; simpl in Hr.
  1, 2, 4: destruct Hr as [? [?|[_ ?]]]; done || (split; [eauto|done]).
  - destruct Hr. split; [by left|done].
  - destruct Hr as [_ Hw]. split; [eauto|]. by eapply wrote_present.
Qed.

Lemma store_wp {R A} (e : storeE (kv_error + R)) key v (cont : kv_error + R → prog storeE A)
    Φ w0 :
  stores e key v → (∀ id, key = index_key id → present w0 (active_key id) ∨ ended id) →
  (∀ w r, only_adds w0 w →
     match r with inr _ | inl ErrKeyExists => present w key | _ => True end →
     iwp Φ (cont r) w) →
  iwp Φ (prog_bind cont (call e)) w0.
Proof using Type*.
  intros Hst Hkey Hk. apply wp_call. intros w w' r Hr Hok Hrep.
  destruct (Hst _ _ _ Hrep) as [Hw Hpost].
  destruct (store_ok w w' key v) as [Hok' Ha]; [done| |done|].
  { intros id Heq. destruct (Hkey id Heq) as [?|?]; [by left; apply Hr|by right]. }
  split_and!; [done..|]. apply Hk; [by etrans|]. by destruct r as [[]|].
Qed.

(** The marker of a run that the reconciler owns. *)
Definition marked run w : Prop := isReconcilerOwned run = true → present w (active_key (wr_RunID run)).

Lemma marker_wp run w0 :
  empty_str (wr_RunID run) = false →
  iwp (λ o w, only_adds w0 w ∧ ∀ u, o = Ret u → marked run w)
    (if isReconcilerOwned run
     then o ⇐ createActiveEntry (wr_RunID run);
          Done (wrap_err (λ e, Errorf "create active-run index entry: %w" [AErr e]) o)
     else Done (Ret tt)) w0.
Proof using Type*.
  intros He. unfold marked. destruct (isReconcilerOwned run); [|by split].
  unfold createActiveEntry. rewrite He. unfold mbind, io_mbind. cbn [panic_if io_of prog_bind].
  apply (wp_bind _ _ _ _ (λ o w, only_adds w0 w ∧ ∀ u, o = Ret u → present w (active_key (wr_RunID run)))).
  - eapply store_wp; [apply create_stores|done|]. intros w r Ha Hp. cbn.
    split; [done|]. intros u Hu. destruct r as [[]|]; by simplify_eq/=.
  - intros [u|e|m] w [Ha Hp]; cbn; (split; [done|]); [intros _ _ _; by eapply Hp|done..].
Qed.

Lemma indexes_wp run w0 :
  isReconcilerOwned run = true ∨ ended (wr_RunID run) →
  iwp (λ o w, only_adds w0 w ∧ ∀ u, o = Ret u → marked run w) (createEntryIndexes run) w0.
Proof using Type*.
  intros Hown. unfold createEntryIndexes, writeRunIndexEntry. destruct (empty_str (wr_RunID run)) eqn:He; [done|].
  unfold mbind, io_mbind. cbn [panic_if io_of prog_bind].
  eapply wp_bind; [by apply marker_wp|]. intros [u|e|m] w [Ha Hp]; [|by split..].
  eapply store_wp; [apply create_stores| |].
  - intros id [= Heq]. apply app_prefix_inj in Heq as <-. destruct Hown as [Ho|?]; [left; by eapply Hp|by right].
  - intros w' r Ha' _. cbn. split; [by etrans|]. intros _ _ Ho. by eapply Ha', Hp.
Qed.

(** What the report of a creation says. *)
Definition created_post (op : index_op) (created : bool) w : Prop :=
  created = true → present w (run_key (wr_RunID (op_run op))) ∧ marked (op_run op) w.

Lemma created_wp {C} run rev n (f : option N → C) w0 :
  isReconcilerOwned run = true ∨ ended (wr_RunID run) → present w0 (run_key (wr_RunID run)) →
  iwp (λ o w, ∀ c, o = Ret c → present w (run_key (wr_RunID run)) ∧ marked run w)
    (rev' ← io_of (advanceRevision run rev n);
     createEntryIndexes run ≫= λ _, Done (Ret (f rev'))) w0.
Proof using Type*.
  intros Hown Hrun. destruct (advanceRevision _ _ _) as [rev'|e|m]; [|done..].
  unfold mbind, io_mbind. cbn [io_of prog_bind].
  eapply wp_bind; [by apply indexes_wp|]. intros [u|e|m] w [Ha Hp]; [|done..].
  intros c _. split; [by apply Ha|by eapply Hp].
Qed.

Lemma index_prog_wp op w0 :
  isReconcilerOwned (op_run op) = true ∨ ended (wr_RunID (op_run op)) → iwp (created_post op) (index_prog op) w0.
Proof using Type*.
  intros Hown. destruct op as [run rev|run rev|run rev]; cbn [op_run index_prog] in *.
  - eapply (wp_bind _ _ _ _ (λ o w', ∀ c, o = Ret c →
      present w' (run_key (wr_RunID run)) ∧ marked run w')).
    2: { intros [c|e|m] w Hw Hc; [by eapply Hw|done..]. }
    unfold SaveInitial. destruct (empty_str (wr_RunID run)); [done|].
    eapply store_wp; [apply put_stores|done|]. intros w [e|n] Ha Hp; [done|].
    by apply created_wp.
  - eapply (wp_bind _ _ _ _ (λ o w', ∀ rev', o = Ret (true, rev') →
      present w' (run_key (wr_RunID run)) ∧ marked run w')).
    2: { intros [[[] c]|e|m] w Hw Hc; [by eapply Hw|done..]. }
    unfold CreateSnapshot. destruct (empty_str (wr_RunID run)); [done|].
    eapply store_wp; [apply create_stores|done|]. intros w [[]|n] Ha Hp; [done..|].
    eapply wp_mono; [by apply created_wp|done|]. intros o w1 Ho rev' ->. by eapply Ho.
  - eapply (wp_bind _ _ _ _ (λ _ _, True)); [|done].
    unfold Save. destruct (empty_str (wr_RunID run)); [done|]. destruct rev as [n|].
    + eapply store_wp; [apply update_stores|done|]. done.
    + eapply store_wp; [apply put_stores|done|]. done.
Qed.

(** Any interleaving of these operations, each cut off anywhere. *)
Lemma indexes_sound (ops : list index_op) w w' ps :
  Forall (λ op, isReconcilerOwned (op_run op) = true ∨ ended (wr_RunID (op_run op))) ops → index_ok w →
  rtc (pool_step (kv_reply replicas) (λ _ _, False)) (w, index_prog <$> ops) (w', ps) →
  index_ok w' ∧
  ∀ i op created, ops !! i = Some op → ps !! i = Some (Done created) →
    created_post op created w'.
Proof using Type*.
  intros Hown Hok Hsteps.
  set (Φ := λ i (created : bool) w, ∀ op, ops !! i = Some op → created_post op created w).
  assert (pool_ok (kv_reply replicas) index_ok (length ops) (λ _, only_adds) (λ _, only_adds) Φ
    (w', ps)) as (_ & Hfin & Hps).
  { eapply (pool_sound (kv_reply replicas) index_ok (λ _ _, False)); [..|exact Hsteps]; try done.
    - intros i w1 w2 w3 H1 H2. by etrans.
    - intros i c w1 w2 Hr _ Hp op Hop Hc. destruct (Hp op Hop Hc) as [? Hm]. split; [by apply Hr|]. intros Ho. by apply Hr, Hm.
    - split_and!; [simpl; by rewrite length_fmap|done|]. intros i p Hp. simpl in Hp.
      rewrite list_lookup_fmap in Hp. destruct (ops !! i) as [op|] eqn:Hi; simplify_eq/=.
      rewrite Forall_lookup in Hown.
      eapply wp_mono; [by eapply index_prog_wp, Hown|done|].
      intros c w1 Hc op' Hop'. by simplify_eq. }
  split; [done|]. intros i op c Hi Hp. exact (Hps i (Done c) Hp op Hi).
Qed.
End Indexes.
