(* ===== verification/RateLimiter.v ===== *)
(** * The rate limiter

    internal/engine/ratelimit.go: a token bucket per task type and key in one
    key-value bucket, refilled in proportion to the time since its last refill
    and taken from with compare-and-set; and the checks of task_publisher.go
    that ask it before a task is published.

    The clock is a call of its own: different engines read different clocks.
    [ledger] is what the versions of one token bucket add up to: every stored
    version was paid for by the caller that wrote it, and what all callers were
    granted is covered by the initial tokens and the tokens minted over time. *)

From S2P Require Import Prelude Float64 FloatBounds Json Types GoTime Input Interleave Kv Slots.

#[local] Open Scope Z_scope.

Definition maxCASRetries : nat := 10.

Record tokenBucket : Type := MkTokenBucket {
  tb_Tokens : Z;
  tb_LastRefill : Z;
  tb_Limit : Z;
  tb_PeriodNs : Z;
}.

Definition unmarshal_tokenBucket : raw → outcome tokenBucket :=
  unmarshal_struct (MkTokenBucket 0 0 0 0) (λ fs,
    tokens ← dec_field dec_int "tokens" 0 fs;
    last ← dec_field dec_int "last_refill_ns" 0 fs;
    limit ← dec_field dec_int "limit" 0 fs;
    period ← dec_field dec_int "period_ns" 0 fs;
    Ret (MkTokenBucket tokens last limit period)).

Definition marshal_tokenBucket (b : tokenBucket) : raw :=
  RawJson (JObj [("tokens", JInt (tb_Tokens b)); ("last_refill_ns", JInt (tb_LastRefill b));
                 ("limit", JInt (tb_Limit b)); ("period_ns", JInt (tb_PeriodNs b))]).

(** ** Operations *)

Inductive clockE : Type → Type := ClockNow : clockE Time.

Definition rateE : Type → Type := sumE (kvE raw) clockE.

Definition kv_call {R} (e : kvE raw R) : prog rateE R := call (CallL e).
Definition clock_now : prog rateE Time := call (CallR ClockNow).

Definition UnixNano (t : Time) : Z := wrap64 t.

Section RateLimiter.
(** The conversion of an out-of-range float to an integer. *)
Context (oob : f64 → Z).

Definition loadBucket (kvKey : string) (limit period : Z) : io rateE (tokenBucket * N) :=
  r ⇐ kv_call (KvGet false kvKey);
  match r with
  | inl ErrKeyNotFound =>
      t ⇐ clock_now; Done (Ret (MkTokenBucket limit (UnixNano t) limit period, 0%N))
  | inl e => io_err (Errorf "get %q: %w" [AStr kvKey; AErr (kv_err e)])
  | inr ent =>
      match unmarshal_tokenBucket (ent_value ent) with
      | Ret b => Done (Ret (b, ent_revision ent))
      | Err e => io_err (Errorf "unmarshal %q: %w" [AStr kvKey; AErr e])
      | Panic m => Done (Panic m)
      end
  end.

(** [refill] once the clock has been read. *)
Definition refill_at (now : Z) (bucket : tokenBucket) : tokenBucket :=
  let elapsed := wrap64 (now - tb_LastRefill bucket) in
  if elapsed <=? 0 then bucket
  else
    let tokensPerNs := f64_div (f64_of_Z (tb_Limit bucket)) (f64_of_Z (tb_PeriodNs bucket)) in
    let refilled := f64_to_int64 oob (f64_mul (f64_of_Z elapsed) tokensPerNs) in
    if 0 <? refilled then
      let tokens := wrap64 (tb_Tokens bucket + refilled) in
      MkTokenBucket (if tb_Limit bucket <? tokens then tb_Limit bucket else tokens) now
        (tb_Limit bucket) (tb_PeriodNs bucket)
    else bucket.

Definition refill (bucket : tokenBucket) : io rateE tokenBucket :=
  io_of (panic_if (tb_PeriodNs bucket <=? 0) "refill: bucket.PeriodNs must be positive") ≫= λ _,
  t ⇐ clock_now; Done (Ret (refill_at (UnixNano t) bucket)).

Definition timeUntilTokens (bucket : tokenBucket) (units : Z) : Z :=
  if (tb_Limit bucket <=? 0) || (tb_PeriodNs bucket <=? 0) then Second
  else
    let needed := wrap64 (units - tb_Tokens bucket) in
    if needed <=? 0 then 0
    else wrap64 (needed * Z.quot (tb_PeriodNs bucket) (tb_Limit bucket)).

Definition saveBucket (kvKey : string) (bucket : tokenBucket) (rev : N) : io rateE unit :=
  let data := marshal_tokenBucket bucket in
  r ⇐ (if (rev =? 0)%N then kv_call (KvCreate kvKey data) else kv_call (KvUpdate kvKey data rev));
  Done (match r with inr _ => Ret tt | inl e => Err (kv_err e) end).

Definition spend (units : Z) (bucket : tokenBucket) : tokenBucket :=
  MkTokenBucket (wrap64 (tb_Tokens bucket - units)) (tb_LastRefill bucket) (tb_Limit bucket)
    (tb_PeriodNs bucket).

(** Whether the units were granted, and otherwise how long to wait. *)
Definition tryAllow (kvKey : string) (limit period units : Z) : io rateE (bool * Z) :=
  io_of (panic_if (empty_str kvKey) "tryAllow: kvKey must not be empty") ≫= λ _,
  io_of (panic_if (limit <=? 0) "tryAllow: limit must be positive") ≫= λ _,
  '(bucket, rev) ← loadBucket kvKey limit period;
  bucket ← refill bucket;
  if units <=? tb_Tokens bucket
  then saveBucket kvKey (spend units bucket) rev ≫= λ _, Done (Ret (true, 0))
  else Done (Ret (false, timeUntilTokens bucket units)).

(** The loop of [Allow]: any error is tried again. *)
Fixpoint allow_loop (attempts : nat) (kvKey : string) (limit period units : Z)
    : io rateE (bool * Z) :=
  match attempts with
  | O => io_err (Errorf "rate limit: CAS retries exhausted" [])
  | S attempts' =>
      o ⇐ tryAllow kvKey limit period units;
      match o with
      | Ret r => Done (Ret r)
      | Err _ => allow_loop attempts' kvKey limit period units
      | Panic m => Done (Panic m)
      end
  end.

(** [limiter] is false when the bucket does not exist. *)
Definition Allow (limiter : bool) (taskType key : string) (limit period units : Z)
    : io rateE (bool * Z) :=
  if negb limiter then Done (Ret (true, 0))
  else
    io_of (panic_if (empty_str taskType) "RateLimiter.Allow: taskType must not be empty") ≫= λ _,
    io_of (panic_if (empty_str key) "RateLimiter.Allow: key must not be empty") ≫= λ _,
    allow_loop maxCASRetries (taskType +:+ "." +:+ key) limit period units.

(** ** The checks before a task is published

    The result is the delay of a task that has to wait.  [format] is the text
    of a decoded value. *)
Context (format : json → string).

Definition delay_of (r : bool * Z) : option Z := if r.1 then None else Some r.2.

Definition applyGlobalRateLimit (limiter : bool) (step : StepDef) (rl : RateLimit)
    (runID : string) : io rateE (option Z) :=
  io_of (panic_if (empty_str runID) "applyGlobalRateLimit: runID must not be empty") ≫= λ _,
  o ⇐ Allow limiter (sd_Task step) "_global" (rl_Limit rl) (rl_Period rl) 1;
  Done (r ← wrap_err (λ e, Errorf "rate limit check: %w" [AErr e]) o; Ret (delay_of r)).

Definition applyKeyedRateLimit (limiter : bool) (step : StepDef) (krl : KeyedRateLimit)
    (runID : string) (input : option raw) : io rateE (option Z) :=
  io_of (panic_if (empty_str runID) "applyKeyedRateLimit: runID must not be empty") ≫= λ _,
  keyVal ← io_of (wrap_err (λ e, Errorf "extract rate limit key %q: %w" [AStr (krl_Key krl); AErr e])
                    (ExtractDotPath (krl_Key krl) input));
  o ⇐ Allow limiter (sd_Task step) (format keyVal) (krl_Limit krl) (krl_Period krl) (krl_Units krl);
  Done (r ← wrap_err (λ e, Errorf "keyed rate limit: %w" [AErr e]) o; Ret (delay_of r)).

Definition checkRateLimit (limiter : bool) (step : StepDef) (runID : string) (input : option raw)
    : io rateE (option Z) :=
  if negb limiter then Done (Ret None)
  else
    io_of (panic_if (empty_str (sd_Task step))
      "TaskPublisher.checkRateLimit: step.Task must not be empty") ≫= λ _,
    match sd_RateLimit step, sd_KeyedRateLimit step with
    | Some rl, _ => applyGlobalRateLimit limiter step rl runID
    | None, Some krl => applyKeyedRateLimit limiter step krl runID input
    | None, None => Done (Ret None)
    end.
End RateLimiter.

Lemma Allow_loop oob taskType key limit period units :
  taskType ≠ "" → key ≠ "" →
  Allow oob true taskType key limit period units =
  allow_loop oob maxCASRetries (taskType +:+ "." +:+ key) limit period units.
Proof.
  intros Ht Hk. unfold Allow, empty_str, negb.
  by rewrite (bool_decide_eq_false_2 _ Ht), (bool_decide_eq_false_2 _ Hk).
Qed.

(** ** Token buckets over time *)

Lemma bucket_roundtrip b :
  in_int64 (tb_Tokens b) = true → in_int64 (tb_LastRefill b) = true →
  in_int64 (tb_Limit b) = true → in_int64 (tb_PeriodNs b) = true →
  unmarshal_tokenBucket (marshal_tokenBucket b) = Ret b.
Proof.
  destruct b as [t l m p]; cbn [tb_Tokens tb_LastRefill tb_Limit tb_PeriodNs]. intros Ht Hl Hm Hp.
  unfold unmarshal_tokenBucket, marshal_tokenBucket, unmarshal_struct.
  cbn -[in_int64]. rewrite Ht. cbn -[in_int64]. rewrite Hl. cbn -[in_int64]. rewrite Hm.
  cbn -[in_int64]. rewrite Hp. done.
Qed.

Lemma small_int64 z : - 2 ^ 63 ≤ z < 2 ^ 63 → in_int64 z = true.
Proof. intros. apply andb_true_iff. unfold int64_min, int64_max. lia. Qed.

Section Bucket.
Context (oob : f64 → Z) (limit period : Z).
Hypothesis limit_pos : 0 < limit ≤ period.
Hypothesis period_small : period < 2 ^ 53.

Record bucket_ok (b : tokenBucket) : Prop := {
  bo_limit : tb_Limit b = limit;
  bo_period : tb_PeriodNs b = period;
  bo_tokens : 0 ≤ tb_Tokens b ≤ limit;
  bo_last : 0 ≤ tb_LastRefill b < 2 ^ 62;
}.

Lemma bucket_ok_roundtrip b :
  bucket_ok b → unmarshal_tokenBucket (marshal_tokenBucket b) = Ret b.
Proof using limit_pos period_small.
  intros [? ? ? ?]. apply bucket_roundtrip; apply small_int64; lia.
Qed.

(** What a refill mints is at most the share of the time since the last one,
    up to the rounding of floats; a refill without a whole token changes
    nothing. *)
Lemma refill_at_spec now b b1 :
  bucket_ok b → 0 ≤ now < 2 ^ 62 → refill_at oob now b = b1 →
  bucket_ok b1 ∧ tb_Tokens b ≤ tb_Tokens b1 ∧
  (b1 = b ∨
   tb_LastRefill b < now ∧ tb_LastRefill b1 = now ∧
   2 ^ 49 * (period * (tb_Tokens b1 - tb_Tokens b)) ≤
     (2 ^ 49 + 1) * ((now - tb_LastRefill b) * limit)).
Proof using limit_pos period_small.
  intros Hb Hnow <-. destruct Hb as [Hl Hp Ht Hr] eqn:Hbe. unfold refill_at.
  rewrite wrap64_id by (apply small_int64; lia).
  destruct (Z.leb_spec (now - tb_LastRefill b) 0) as [|He]; [split_and!; [done|lia|by left]|].
  rewrite Hl, Hp.
  destruct (float_share_bound (now - tb_LastRefill b) limit period) as (t & Htr & Ht0 & Hle);
    [lia..|].
  unfold float_share in Htr.
  assert (t < 2 ^ 62 + 2 ^ 14) as Htb.
  { assert ((now - tb_LastRefill b) * limit ≤ 2 ^ 62 * period) by nia. nia. }
  assert (in_int64 t = true) as Hin by (apply small_int64; lia).
  rewrite (f64_to_int64_in_range oob _ t Htr Hin).
  destruct (Z.ltb_spec 0 t) as [Hpos|]; [|split_and!; [done|lia|by left]].
  rewrite wrap64_id by (apply small_int64; lia). cbn [tb_Tokens tb_LastRefill].
  destruct (Z.ltb_spec limit (tb_Tokens b + t)) as [Hcap|Hcap].
  - split_and!; [split; cbn; lia|lia|right; split_and!; [lia|done|]]. nia.
  - split_and!; [split; cbn; lia|lia|right; split_and!; [lia|done|]]. nia.
Qed.

(** The refill a version records is the refill at its own time stamp. *)
Lemma refill_at_idem now b :
  bucket_ok b → 0 ≤ now < 2 ^ 62 →
  refill_at oob (tb_LastRefill (refill_at oob now b)) b = refill_at oob now b.
Proof using limit_pos period_small.
  intros Hb Hnow. destruct (refill_at_spec now b _ Hb Hnow eq_refl) as (_ & _ & [->|(_ & -> & _)]);
    [|done].
  unfold refill_at. by rewrite Z.sub_diag.
Qed.
End Bucket.

(** ** The ledger

    The versions of one token bucket, newest first, each with the caller that
    wrote it.  What a version cost its caller is the difference between the
    tokens at its refill and the tokens it left. *)

Section Ledger.
Context (oob : f64 → Z) (limit period start : Z).
Hypothesis limit_pos : 0 < limit ≤ period.
Hypothesis period_small : period < 2 ^ 53.

Abbreviation versions := (list (nat * tokenBucket)).

Definition funds (log : versions) (b : tokenBucket) : Z :=
  match log with
  | [] => limit
  | (_, b0) :: _ => tb_Tokens (refill_at oob (tb_LastRefill b) b0)
  end.

Definition last_refill (log : versions) : Z :=
  match log with [] => start | (_, b) :: _ => tb_LastRefill b end.

Fixpoint ledger (log : versions) : Prop :=
  match log with
  | [] => True
  | (_, b) :: log' =>
      ledger log' ∧ bucket_ok limit period b ∧ last_refill log' ≤ tb_LastRefill b ∧
      tb_Tokens b ≤ funds log' b
  end.

Fixpoint paid (who : nat) (log : versions) : Z :=
  match log with
  | [] => 0
  | (i, b) :: log' =>
      (if decide (i = who) then funds log' b - tb_Tokens b else 0) + paid who log'
  end.

Fixpoint total (log : versions) : Z :=
  match log with
  | [] => 0
  | (_, b) :: log' => funds log' b - tb_Tokens b + total log'
  end.

Lemma paid_nonneg who log : ledger log → 0 ≤ paid who log.
Proof.
  induction log as [|[i b] log IH]; simpl; [done|]. intros (Hl & _ & _ & Hf).
  specialize (IH Hl). case_decide; lia.
Qed.

(** What the callers paid, one by one, is within the total. *)
Lemma paid_total n log :
  ledger log → foldr Z.add 0 ((λ i, paid i log) <$> seq 0 n) ≤ total log.
Proof using Type.
  clear limit_pos period_small.
  assert (∀ l : list nat, foldr Z.add 0 ((λ _, 0) <$> l) = 0) as Hzero
    by (induction l; csimpl; lia).
  assert (∀ (f g : nat → Z) (l : list nat), foldr Z.add 0 ((λ i, f i + g i) <$> l) =
    foldr Z.add 0 (f <$> l) + foldr Z.add 0 (g <$> l)) as Hadd
    by (induction l; csimpl; lia).
  induction log as [|[j b] log IH]; simpl; [by rewrite Hzero|]. intros (Hl & _ & _ & Hf).
  specialize (IH Hl). rewrite Hadd.
  assert (∀ l : list nat, NoDup l →
    foldr Z.add 0 ((λ i, if decide (j = i) then funds log b - tb_Tokens b else 0) <$> l) ≤
    funds log b - tb_Tokens b) as Hone; [|specialize (Hone (seq 0 n) (NoDup_seq _ _)); lia].
  induction l as [|i l IHl]; [simpl; lia|]. intros [Hni Hnd]%NoDup_cons. csimpl.
  specialize (IHl Hnd). case_decide as Hji; [|lia]. subst i.
  assert (foldr Z.add 0 ((λ i, if decide (j = i) then funds log b - tb_Tokens b else 0) <$> l) = 0)
    as ->; [|lia].
  clear IHl Hnd. induction l as [|i l IHl]; csimpl; [done|].
  rewrite decide_False by set_solver. rewrite IHl; [done|set_solver].
Qed.

(** What all versions cost together is covered by the first filling and by
    what the time minted. *)
Lemma total_bound log :
  ledger log →
  2 ^ 49 * (period * (total log + match log with [] => 0 | (_, b) :: _ => tb_Tokens b end)) ≤
  2 ^ 49 * (period * limit) + (2 ^ 49 + 1) * ((last_refill log - start) * limit) ∧
  start ≤ last_refill log.
Proof using limit_pos period_small.
  induction log as [|[i b] log IH]; [simpl; nia|].
  intros (Hl & Hb & Hlast & Hf). specialize (IH Hl) as [IH Hs]. split; [|simpl; lia].
  cbn [total last_refill]. destruct log as [|[j b0] log]; [simpl in *; nia|].
  cbn [funds last_refill] in *. destruct Hl as (_ & Hb0 & _ & _).
  destruct (refill_at_spec oob limit period limit_pos period_small (tb_LastRefill b) b0 _ Hb0
    (bo_last _ _ _ Hb) eq_refl) as (_ & _ & [Heq|(Hlt & _ & Hmint)]).
  - rewrite Heq. nia.
  - set (F := tb_Tokens (refill_at oob (tb_LastRefill b) b0)) in *. nia.
Qed.
End Ledger.

(** ** Concurrent callers

    Every call carries the connection it came over; the world records which
    connection wrote which version of the token bucket.  Clocks differ: a
    reading is at most [skew] behind the world's time and never ahead of it. *)

Inductive byE (E : Type → Type) (R : Type) : Type := By (who : nat) (e : E R).
Arguments By {E R} _ _.

Section Callers.
Context {B : Type} `{!Kv raw B, !KvLaws raw B}.
Context (oob : f64 → Z) (replicas : bool) (kvKey : string) (limit period skew start : Z).
Hypothesis limit_pos : 0 < limit ≤ period.
Hypothesis period_small : period < 2 ^ 53.
Hypothesis start_pos : 0 ≤ skew ≤ start.
Hypothesis key_named : kvKey ≠ "".

Record rate_world : Type := MkRateWorld {
  rt_kv : kvw raw B;
  rt_log : list (nat * tokenBucket);
  rt_now : Time;
}.

Definition stored_bucket (b : B) : option tokenBucket :=
  match kv_get b kvKey with
  | Some ent => match unmarshal_tokenBucket (ent_value ent) with Ret tb => Some tb | _ => None end
  | None => None
  end.

Definition record_version (who : nat) (w w' : rate_world) : list (nat * tokenBucket) :=
  if decide (kv_rev (kw_b (rt_kv w')) kvKey = kv_rev (kw_b (rt_kv w)) kvKey) then rt_log w
  else match stored_bucket (kw_b (rt_kv w')) with
       | Some tb => (who, tb) :: rt_log w
       | None => rt_log w
       end.

Definition rate_reply (who : nat) R (w : rate_world) (e : rateE R) (w' : rate_world) (r : R)
    : Prop :=
  match e in sumE _ _ _ return Prop with
  | CallL e => kv_reply replicas R (rt_kv w) e (rt_kv w') r ∧ rt_now w' = rt_now w ∧
      rt_log w' = record_version who w w'
  | CallR c => w' = w ∧
      match c in clockE R return R → Prop with
      | ClockNow => λ t, rt_now w - skew ≤ t ≤ rt_now w
      end r
  end.

Definition tagged_reply R (w : rate_world) (e : byE rateE R) (w' : rate_world) (r : R) : Prop :=
  match e with By who e => rate_reply who R w e w' r end.

Definition time_passes (w w' : rate_world) : Prop :=
  rt_kv w' = rt_kv w ∧ rt_log w' = rt_log w ∧ rt_now w ≤ rt_now w' < 2 ^ 62.

(** The bucket holds the newest version of the ledger. *)
Definition rate_ok (w : rate_world) : Prop :=
  kv_ok (rt_kv w) ∧ start ≤ rt_now w < 2 ^ 62 ∧
  ledger oob limit period (start - skew) (rt_log w) ∧ last_refill start (rt_log w) ≤ rt_now w ∧
  match rt_log w with
  | [] => kv_get (kw_b (rt_kv w)) kvKey = None
  | (_, b) :: _ => ∃ ent, kv_get (kw_b (rt_kv w)) kvKey = Some ent ∧
      ent_value ent = marshal_tokenBucket b
  end.

Definition rate_rely (who : nat) (w w' : rate_world) : Prop :=
  (∀ x, x ∈ kw_past (rt_kv w) → x ∈ kw_past (rt_kv w')) ∧ rt_now w ≤ rt_now w' ∧
  paid oob limit who (rt_log w') = paid oob limit who (rt_log w).
Definition rate_guar (who : nat) (w w' : rate_world) : Prop :=
  (∀ x, x ∈ kw_past (rt_kv w) → x ∈ kw_past (rt_kv w')) ∧ rt_now w ≤ rt_now w' ∧
  ∀ j, j ≠ who → paid oob limit j (rt_log w') = paid oob limit j (rt_log w).

Abbreviation rwp who := (wp (rate_reply who) rate_ok (rate_rely who) (rate_guar who)).

(** A call that leaves the bucket as it is. *)
Lemma quiet_reply who R (e : kvE raw R) w w' r :
  rate_ok w → rate_reply who R w (CallL e) w' r → kw_b (rt_kv w') = kw_b (rt_kv w) →
  rate_ok w' ∧ rate_guar who w w' ∧ rt_log w' = rt_log w ∧ rt_now w' = rt_now w.
Proof.
  intros (Hkv & Hnow & Hl & Hlast & Hst) (Hrep & Hn & Hlog) Hb.
  unfold record_version in Hlog. rewrite Hb, decide_True in Hlog by done.
  pose proof (kv_reply_ok _ _ _ _ _ Hrep Hkv) as Hkv'.
  unfold rate_ok, rate_guar. rewrite Hlog, Hn, Hb. split_and!; try done; try lia.
  intros x. by eapply kv_reply_past, Hrep.
Qed.

(** What is known of a loaded bucket: it is new, or it was stored. *)
Definition origin (b : tokenBucket) (rev : N) (w : rate_world) : Prop :=
  (rev = 0%N ∧ ∃ t, start - skew ≤ t ≤ rt_now w ∧ b = MkTokenBucket limit t limit period) ∨
  ∃ x, (kvKey, x) ∈ kw_past (rt_kv w) ∧ rev = ent_revision x ∧
    unmarshal_tokenBucket (ent_value x) = Ret b.

Definition load_post (o : outcome (tokenBucket * N)) (w : rate_world) : Prop :=
  match o with Ret (b, rev) => origin b rev w | _ => True end.

Lemma clock_reading w t :
  rate_ok w → rt_now w - skew ≤ t ≤ rt_now w → start - skew ≤ UnixNano t ≤ rt_now w ∧
  0 ≤ UnixNano t < 2 ^ 62.
Proof using start_pos.
  intros (_ & Hnow & _) Ht. unfold UnixNano. rewrite wrap64_id by (apply small_int64; lia). lia.
Qed.

Lemma loadBucket_wp who w0 : rwp who load_post (loadBucket kvKey limit period) w0.
Proof using Type*.
  unfold loadBucket, kv_call. apply wp_call. intros w w' r _ Hok Hrep.
  destruct (get_reply _ _ _ _ _ _ (proj1 Hrep)) as [Hb Hr].
  destruct (quiet_reply who _ _ w w' r Hok Hrep Hb) as (Hok' & Hg & _).
  split_and!; [done..|]. destruct r as [[]|x]; [|done..|].
  - apply wp_call. intros w1 w2 t _ Hok1 [-> Ht]. split_and!; [done|by split_and!; [..|lia]|].
    destruct (clock_reading w1 t Hok1 Ht) as [? _]. left. split; [done|]. eauto.
  - destruct (unmarshal_tokenBucket (ent_value x)) as [b|e|m] eqn:Hu; simpl; [|done..].
    right. exists x. split_and!; [apply Hr|done..].
Qed.

(** A new version: the ledger grows by what its writer paid. *)
Lemma version_written who R (e : kvE raw R) w w' r b2 n :
  rate_ok w → rate_reply who R w (CallL e) w' r →
  wrote (kw_b (rt_kv w)) kvKey (Some (marshal_tokenBucket b2)) n (kw_b (rt_kv w')) →
  bucket_ok limit period b2 →
  last_refill (start - skew) (rt_log w) ≤ tb_LastRefill b2 ≤ rt_now w →
  tb_Tokens b2 ≤ funds oob limit (rt_log w) b2 →
  rate_ok w' ∧ rate_guar who w w' ∧
  funds oob limit (rt_log w) b2 - tb_Tokens b2 ≤ paid oob limit who (rt_log w').
Proof using Type*.
  intros (Hkv & Hnow & Hl & Hlast & Hst) (Hrep & Hn & Hlog) (Hrev & Hr' & [t Hget] & _) Hb2 Hle Hf.
  pose proof (kv_reply_ok _ _ _ _ _ Hrep Hkv) as Hkv'.
  assert (rt_log w' = (who, b2) :: rt_log w) as Hlog'.
  { rewrite Hlog. unfold record_version. rewrite decide_False by (specialize (Hrev kvKey); lia).
    unfold stored_bucket. rewrite Hget. cbn [ent_value].
    by rewrite (bucket_ok_roundtrip limit period limit_pos period_small). }
  pose proof (paid_nonneg oob limit period (start - skew) who _ Hl).
  split_and!.
  - unfold rate_ok. rewrite Hlog', Hn. cbn [ledger last_refill].
    split_and!; try done; try lia. eauto.
  - split_and!; [intros x; by eapply kv_reply_past, Hrep|lia|].
    intros j Hj. rewrite Hlog'. simpl. by rewrite decide_False by done.
  - rewrite Hlog'. simpl. rewrite decide_True by done. lia.
Qed.

(** The bucket a write replaces is the one that was loaded. *)
Definition loaded_current (b : tokenBucket) (rev : N) (w0 w : rate_world) : Prop :=
  (rt_log w = [] ∧ ∃ t, start - skew ≤ t ≤ rt_now w0 ∧ b = MkTokenBucket limit t limit period) ∨
  ∃ i log, rt_log w = (i, b) :: log.

(** The version a grant writes over the loaded one. *)
Lemma grant_version who R (e : kvE raw R) w0 w w' r b rev t units n :
  rate_ok w → rt_now w0 ≤ rt_now w → loaded_current b rev w0 w →
  start - skew ≤ t ≤ rt_now w → 0 ≤ units ≤ tb_Tokens (refill_at oob t b) →
  rate_reply who R w (CallL e) w' r →
  wrote (kw_b (rt_kv w)) kvKey (Some (marshal_tokenBucket (spend units (refill_at oob t b)))) n
    (kw_b (rt_kv w')) →
  rate_ok w' ∧ rate_guar who w w' ∧ units ≤ paid oob limit who (rt_log w').
Proof using Type*.
  intros Hok Hnow0 Hcur Ht Hu Hrep Hw. pose proof Hok as (_ & Hnow & Hl & Hlast & _).
  assert (0 ≤ t < 2 ^ 62) as Ht62 by lia.
  assert (bucket_ok limit period b ∧ last_refill (start - skew) (rt_log w) ≤ tb_LastRefill b ≤ rt_now w)
    as [Hb Hlb].
  { destruct Hcur as [(Hlog & t0 & Ht0 & ->)|(i & log & Hlog)]; rewrite Hlog in *; simpl in *.
    - split; [split; cbn; lia|lia].
    - destruct Hl as (_ & Hb & _). split; [done|lia]. }
  pose proof (refill_at_spec oob limit period limit_pos period_small t b _ Hb Ht62 eq_refl)
    as (Hb1 & Hge & Hcase).
  set (b1 := refill_at oob t b) in *.
  assert (tb_LastRefill b ≤ tb_LastRefill b1 ≤ rt_now w) as Hlb1
    by (destruct Hcase as [->|(? & -> & _)]; lia).
  assert (spend units b1 = MkTokenBucket (tb_Tokens b1 - units) (tb_LastRefill b1) limit period) as Hsp.
  { destruct Hb1 as [? ? ? ?]. unfold spend. rewrite wrap64_id by (apply small_int64; lia). congruence. }
  assert (funds oob limit (rt_log w) (spend units b1) = tb_Tokens b1) as Hf.
  { rewrite Hsp. destruct Hcur as [(Hlog & t0 & Ht0 & Hbe)|(i & log & Hlog)]; rewrite Hlog; simpl.
    - destruct Hb1 as [? ? ? ?]. subst b. cbn in Hge. lia.
    - unfold b1. by rewrite (refill_at_idem oob limit period limit_pos period_small). }
  destruct (version_written who _ _ _ _ _ _ n Hok Hrep Hw) as (? & ? & Hp).
  - rewrite Hsp. destruct Hb1 as [? ? ? ?]. split; cbn; lia.
  - rewrite Hsp. cbn. lia.
  - rewrite Hf, Hsp. cbn. lia.
  - split_and!; [done..|]. rewrite Hf, Hsp in Hp. cbn in Hp. lia.
Qed.

Lemma save_wp who b rev t units w0 :
  origin b rev w0 → start - skew ≤ t ≤ rt_now w0 → 0 ≤ units ≤ tb_Tokens (refill_at oob t b) →
  rwp who (λ o w, o = Ret tt → units ≤ paid oob limit who (rt_log w))
    (saveBucket kvKey (spend units (refill_at oob t b)) rev) w0.
Proof using Type*.
  intros Hor Ht Hu. unfold saveBucket, kv_call.
  assert (∀ R (e : kvE raw R) w w' r n, rate_rely who w0 w → rate_ok w →
    loaded_current b rev w0 w → rate_reply who R w (CallL e) w' r →
    wrote (kw_b (rt_kv w)) kvKey (Some (marshal_tokenBucket (spend units (refill_at oob t b)))) n
      (kw_b (rt_kv w')) →
    rate_ok w' ∧ rate_guar who w w' ∧ units ≤ paid oob limit who (rt_log w')) as Hgrant.
  { intros R e w w' r n (_ & Hn & _) Hok Hcur. apply (grant_version who R e w0 w w' r b rev);
      [done|lia|done|lia|done]. }
  destruct Hor as [[-> Hnew]|(x & Hx & -> & Hdec)].
  - apply wp_call. intros w w' r Hrel Hok Hrep.
    assert (kv_get (kw_b (rt_kv w)) kvKey = None → loaded_current b 0 w0 w) as Hcur.
    { intros Hnone. left. destruct Hok as (_ & _ & _ & _ & Hst).
      destruct (rt_log w) as [|[i b']]; [done|]. destruct Hst as (ent & Hs & _). congruence. }
    pose proof (create_reply _ _ _ _ _ _ (proj1 Hrep)) as Hr.
    destruct r as [[]|n]; destruct Hr as [Hr1 Hr2]; try done.
    + destruct (quiet_reply _ _ _ _ _ _ Hok Hrep Hr1) as (? & ? & _). by split_and!; [..|simpl].
    + destruct Hr2 as [Hb|[Hnone [n Hw]]].
      * destruct (quiet_reply _ _ _ _ _ _ Hok Hrep Hb) as (? & ? & _). by split_and!; [..|simpl].
      * destruct (Hgrant _ _ w w' _ n Hrel Hok (Hcur Hnone) Hrep Hw) as (? & ? & _). by split_and!; [..|simpl].
    + destruct (Hgrant _ _ w w' _ n Hrel Hok (Hcur Hr1) Hrep Hr2) as (? & ? & ?). by split_and!; [..|simpl].
  - destruct (N.eqb_spec (ent_revision x) 0) as [Hz|_].
    { apply wp_call. intros w w' r [Hpast _] Hok _. exfalso.
      destruct (proj1 Hok kvKey x (Hpast _ Hx)) as [[? _] _]. lia. }
    apply wp_call. intros w w' r Hrel Hok Hrep.
    assert (kv_rev (kw_b (rt_kv w)) kvKey = ent_revision x →
      loaded_current b (ent_revision x) w0 w) as Hcur.
    { intros Hrev. right. pose proof Hok as (Hkv & _ & Hl & _ & Hst).
      pose proof (cas_current _ _ _ Hkv (proj1 Hrel _ Hx) Hrev) as Hget.
      destruct (rt_log w) as [|[i b'] log]; [congruence|]. destruct Hst as (ent & Hs & Hv).
      destruct Hl as (_ & Hb' & _). exists i, log. rewrite Hget in Hs. simplify_eq.
      rewrite Hv, (bucket_ok_roundtrip limit period limit_pos period_small) in Hdec by done.
      by injection Hdec as ->. }
    pose proof (update_reply _ _ _ _ _ _ _ (proj1 Hrep)) as Hr.
    destruct r as [[]|n]; destruct Hr as [Hr1 Hr2]; try done.
    + destruct (quiet_reply _ _ _ _ _ _ Hok Hrep Hr1) as (? & ? & _). by split_and!; [..|simpl].
    + destruct Hr2 as [Hb|[Hrev [n Hw]]].
      * destruct (quiet_reply _ _ _ _ _ _ Hok Hrep Hb) as (? & ? & _). by split_and!; [..|simpl].
      * destruct (Hgrant _ _ w w' _ n Hrel Hok (Hcur Hrev) Hrep Hw) as (? & ? & _). by split_and!; [..|simpl].
    + destruct (Hgrant _ _ w w' _ n Hrel Hok (Hcur Hr1) Hrep Hr2) as (? & ? & ?). by split_and!; [..|simpl].
Qed.

(** A grant was paid for. *)
Definition granted_post (who : nat) (units : Z) (o : outcome (bool * Z)) (w : rate_world) : Prop :=
  match o with Ret (true, _) => units ≤ paid oob limit who (rt_log w) | _ => True end.

Lemma tryAllow_wp who units w0 :
  0 ≤ units → rwp who (granted_post who units) (tryAllow oob kvKey limit period units) w0.
Proof using Type*.
  intros Hu. unfold tryAllow, io_of, empty_str.
  rewrite (bool_decide_eq_false_2 _ key_named), (proj2 (Z.leb_gt limit 0)) by lia.
  cbn [panic_if mbind prog_bind].
  eapply (wp_bind _ _ _ _ load_post); [apply loadBucket_wp|].
  intros [[b rev]|e|m] w Hor; [|done..]. cbn [load_post] in Hor.
  unfold refill, io_of. destruct (tb_PeriodNs b <=? 0); [done|]. cbn [panic_if mbind prog_bind].
  unfold clock_now. simpl. intros w1 (Hpast & Hle & Hpaid) Hok w2 t [-> Ht].
  split_and!; [done|by split_and!|].
  destruct (clock_reading w1 t Hok Ht) as [Hnano _].
  destruct (Z.leb_spec units (tb_Tokens (refill_at oob (UnixNano t) b))) as [Hen|]; [|done].
  eapply (wp_bind _ _ _ _ _).
  { apply (save_wp who b rev (UnixNano t) units w1); [|lia|done].
    destruct Hor as [[-> (t0 & Ht0 & ->)]|(x & Hx & -> & Hd)]; [left; split; [done|];
      exists t0; split; [lia|done]|right; eauto 10]. }
  intros [[]|e|m] w3 Hpost; simpl; [by apply Hpost|done..].
Qed.

Lemma allow_loop_wp who units n : ∀ w0,
  0 ≤ units → rwp who (granted_post who units) (allow_loop oob n kvKey limit period units) w0.
Proof using Type*.
  induction n as [|n IH]; intros w0 Hu; [done|]. simpl allow_loop.
  eapply (wp_bind _ _ _ _ _); [by apply tryAllow_wp|].
  intros [[[] d]|e|m] w Hw; [done|done|by apply IH|done].
Qed.

(** ** The pool of callers *)

Definition caller (who : nat) (units : Z) : prog (byE rateE) (outcome (bool * Z)) :=
  embed (λ R e, By who e) (allow_loop oob maxCASRetries kvKey limit period units).

Definition grant_of (units : Z) (p : prog (byE rateE) (outcome (bool * Z))) : Z :=
  match p with Done (Ret (true, _)) => units | _ => 0 end.

(** The units of the callers that were granted theirs. *)
Definition granted (requests : list Z) (ps : list (prog (byE rateE) (outcome (bool * Z)))) : Z :=
  foldr Z.add 0 (zip_with grant_of requests ps).

Lemma caller_wp who units w0 :
  0 ≤ units →
  wp tagged_reply rate_ok (rate_rely who) (rate_guar who) (granted_post who units)
    (caller who units) w0.
Proof using Type*.
  intros Hu. eapply wp_mono.
  - apply (wp_embed (λ R e, By who e) id (rate_reply who) tagged_reply rate_ok rate_ok (λ _, True)
      (rate_rely who) (rate_guar who) (rate_rely who) (rate_guar who));
      [done..|by apply allow_loop_wp|done].
  - done.
  - by intros a w [? _].
Qed.

Lemma callers_ok requests w w' ps :
  Forall (λ u, 0 ≤ u) requests → rate_ok w →
  rtc (pool_step tagged_reply time_passes) (w, imap caller requests) (w', ps) →
  rate_ok w' ∧ granted requests ps ≤ total oob limit (rt_log w').
Proof using Type*.
  intros Hpos Hok Hsteps.
  assert (pool_ok tagged_reply rate_ok (length requests) rate_rely rate_guar
    (λ i, granted_post i (default 0 (requests !! i))) (w', ps)) as (Hlen & Hfin & Hps).
  { eapply (pool_sound tagged_reply rate_ok time_passes); [..|exact Hsteps].
    - intros i w1 w2 w3 (? & ? & ?) (? & ? & ?). split_and!; [by auto|lia|congruence].
    - intros i w1. by split_and!.
    - intros i [[[] d]|e|m] w1 w2 (_ & _ & Hp) _ Hw; simpl in *; [by rewrite Hp|done..].
    - intros i j w1 w2 _ _ Hij _ (? & ? & Hp). split_and!; [done..|]. by apply Hp.
    - intros w1 w2 (? & ? & ? & Hlast & ?) (Hk & Hlg & Hn). unfold rate_ok.
      rewrite Hk, Hlg. split_and!; try done; try lia.
    - intros i w1 w2 _ (Hk & Hlg & Hn). unfold rate_rely. rewrite Hk, Hlg. split_and!; [done|lia|done].
    - split_and!; [simpl; by rewrite length_imap|done|]. simpl. intros i p Hp.
      rewrite list_lookup_imap in Hp. destruct (requests !! i) as [u|] eqn:Hi; simplify_eq/=.
      apply caller_wp. rewrite Forall_forall in Hpos. apply Hpos. by eapply list_elem_of_lookup_2. }
  split; [done|]. simpl in *. destruct Hfin as (_ & _ & Hl & _).
  etrans; [|by eapply (paid_total oob limit period (start - skew) (length requests))].
  assert (∀ k reqs qs, (∀ i, reqs !! i = requests !! (k + i)%nat) → (∀ i, qs !! i = ps !! (k + i)%nat) →
    length qs = length reqs →
    foldr Z.add 0 (zip_with grant_of reqs qs) ≤
    foldr Z.add 0 ((λ i, paid oob limit i (rt_log w')) <$> seq k (length reqs))) as Hind.
  { intros k reqs. revert k. induction reqs as [|u reqs IH]; intros k qs Hr Hq Hlq; [done|].
    destruct qs as [|q qs]; [done|]. csimpl.
    assert (foldr Z.add 0 (zip_with grant_of reqs qs) ≤
      foldr Z.add 0 ((λ i, paid oob limit i (rt_log w')) <$> seq (S k) (length reqs))) as IH'.
    { apply IH; [..|by injection Hlq]; intros i;
        [specialize (Hr (S i))|specialize (Hq (S i))]; by rewrite Nat.add_succ_r in *. }
    clear IH.
    specialize (Hr 0%nat). specialize (Hq 0%nat). rewrite Nat.add_0_r in Hr, Hq. simpl in Hr, Hq.
    pose proof (Hps k q (eq_sym Hq)) as Hwp. rewrite <-Hr in Hwp. cbn [default] in Hwp.
    pose proof (paid_nonneg oob limit period (start - skew) k _ Hl).
    assert (grant_of u q ≤ paid oob limit k (rt_log w')); [|lia].
    destruct q as [[[[] d]|e|m]|R e kq]; simpl in *; lia. }
  by apply (Hind 0%nat).
Qed.

(** Whatever the interleaving, the failures and the clocks within the skew:
    what is granted is at most one filling of the bucket and the tokens of the
    elapsed time, up to the rounding of floats. *)
Lemma callers_bound requests w w' ps :
  Forall (λ u, 0 ≤ u) requests → rate_ok w →
  rtc (pool_step tagged_reply time_passes) (w, imap caller requests) (w', ps) →
  2 ^ 49 * (period * granted requests ps) ≤
  limit * (2 ^ 49 * period + (2 ^ 49 + 1) * (rt_now w' - start + skew)).
Proof using Type*.
  intros Hpos Hok Hsteps. destruct (callers_ok requests w w' ps Hpos Hok Hsteps) as [Hok' Hg].
  destruct Hok' as (_ & Hnow & Hl & Hlast & _).
  destruct (total_bound oob limit period (start - skew) limit_pos period_small _ Hl) as [Ht _].
  assert (0 ≤ match rt_log w' with [] => 0 | (_, b) :: _ => tb_Tokens b end) as Hhd.
  { destruct (rt_log w') as [|[i b] log]; [done|]. destruct Hl as (_ & [] & _). lia. }
  assert (last_refill (start - skew) (rt_log w') ≤ rt_now w') as Hll.
  { destruct (rt_log w') as [|[i b] log]; simpl in *; lia. }
  set (L := last_refill (start - skew) (rt_log w')) in *. nia.
Qed.
End Callers.
