(* ===== verification/Lease.v ===== *)
(** * Leases with revision fencing (internal/lease)

    [Acquire], [Renew], [Release], [Owner] and [Forward] of the lease store, as
    programs over the stream behind the leases bucket.  The stream is not part
    of the program: [LeaseStream] lists its operations (the last message of a
    subject, a publish that expects the subject's last sequence, the expiry
    marker the server writes, the removal of an aged marker) and
    [LeaseStreamLaws] the documented behaviour the store relies on; [lstream] is
    an instance.

    A stored message is a lease record with its event, a marker, or bytes that
    do not decode ([LBad]).  Reads are answered by the stream leader.  The
    abstract lease [lease_trace] is a small automaton over the messages of a
    key: free, or held at a revision; the clients' operations, in any
    interleaving with each other and with expiry, only produce its traces. *)

From S2P Require Import Prelude GoTime Interleave Kv.
From stdpp Require Import relations.
From Stdlib Require Import Ascii.

#[local] Open Scope Z_scope.

Definition KeyLengthMax : Z := 128.
Definition HolderLengthMax : Z := 128.
Definition TTLMin : Z := Second.
Definition TTLMax : Z := 10 * Minute.
Definition acquireAttemptsMax : nat := 3.
Definition ForwardTimeoutMin : Z := 100 * Millisecond.
Definition ForwardTimeoutMax : Z := 30 * Second.
Definition forwardAttemptsMax : nat := 3.

Definition ErrInvalid : error := Errorf "lease: invalid request" [].
Definition ErrLost : error := Errorf "lease: lost" [].
Definition ErrUnsupported : error :=
  Errorf "leases unsupported: requires nats-server >= 2.11 (the leases bucket is not provisioned)" [].
Definition ErrNoOwner : error := Errorf "lease: no owner" [].
Definition ErrOwnerUnavailable : error := Errorf "lease: owner unavailable" [].
Definition ErrOwnerTimeout : error := Errorf "lease: owner timeout" [].

Record Lease : Type := MkLease {
  le_Key : string;
  le_Holder : string;
  le_Revision : N;
  le_AcquiredAt : Time;
  le_ExpiresAt : Time;
  le_TTL : Z;
}.

Definition zero_Lease : Lease := MkLease "" "" 0 zero_time zero_time 0.

Record record : Type := MkRecord {
  rec_Holder : string;
  rec_AcquiredAt : Time;
  rec_TTLMs : Z;
}.

Inductive lease_event : Type := EventAcquired | EventRenewed.

(** The last message of a key: a record, the marker of a release, the marker
    the server writes when a record expires, or bytes that are not a record. *)
Inductive lease_msg : Type :=
  | LRecord (ev : lease_event) (rec : record)
  | LPurge
  | LMaxAge
  | LBad (bytes : string).

Record stored_msg : Type := MkStored {
  sm_Sequence : N;
  sm_Time : Time;
  sm_body : lease_msg;
}.

(** ** Calls *)

Inductive last_error : Type := StreamNotFound | ReadFailed (desc : string).
Inductive pub_error : Type := WrongLastSequence | PublishFailed (desc : string).

Inductive request_reply : Type :=
  | NoResponders
  | RequestTimeout
  | RequestFailed (desc : string)
  | Replied (reject : bool) (data : string).

Inductive leaseE : Type → Type :=
  | LastMsg (key : string) : leaseE (last_error + option stored_msg)
  | Publish (key : string) (m : lease_msg) (expect : N) : leaseE (pub_error + N)
  | Now : leaseE Time
  | Request (subject : string) (fence : N) (payload : string) : leaseE request_reply.

(** ** Validation *)

Definition token_char (c : ascii) : bool :=
  in_range "a" "z" c || in_range "A" "Z" c || in_range "0" "9" c ||
  bool_decide (c = "_"%char) || bool_decide (c = "-"%char).

Definition validateToken (field s : string) (lengthMax : Z) : outcome unit :=
  panic_if (empty_str field) "validateToken: field must not be empty";;
  panic_if (lengthMax <=? 0) "validateToken: lengthMax must be positive";;
  fail_if (empty_str s) (Errorf "%w: %s must not be empty" [AErr ErrInvalid; AStr field]);;
  fail_if (lengthMax <? Z.of_nat (String.length s))
    (Errorf "%w: %s longer than %d bytes" [AErr ErrInvalid; AStr field; AInt lengthMax]);;
  fail_if (negb (str_forallb token_char s))
    (Errorf "%w: %s may contain only [A-Za-z0-9_-], got %q" [AErr ErrInvalid; AStr field; AStr s]).

Definition Milliseconds (d : Z) : Z := Z.quot d Millisecond.

Definition validateTTL (ttl : Z) : outcome unit :=
  fail_if ((ttl <? TTLMin) || (TTLMax <? ttl))
    (Errorf "%w: ttl_ms must be within [%d, %d], got %d"
       [AErr ErrInvalid; AInt (Milliseconds TTLMin); AInt (Milliseconds TTLMax);
        AInt (Milliseconds ttl)]);;
  fail_if (negb (Z.rem ttl Second =? 0))
    (Errorf "%w: ttl_ms must be a whole number of seconds, got %d"
       [AErr ErrInvalid; AInt (Milliseconds ttl)]).

Definition validateFence (key holder : string) (revision : N) : outcome unit :=
  validateToken "key" key KeyLengthMax;;
  validateToken "holder" holder HolderLengthMax;;
  fail_if (revision =? 0)%N
    (Errorf "%w: revision must be the fence from acquire/renew" [AErr ErrInvalid]).

Definition validateForwardTimeout (timeout : Z) : outcome unit :=
  fail_if (negb ((ForwardTimeoutMin <=? timeout) && (timeout <=? ForwardTimeoutMax)))
    (Errorf "%w: timeout_ms must be within [%d, %d], got %d"
       [AErr ErrInvalid; AInt (Milliseconds ForwardTimeoutMin);
        AInt (Milliseconds ForwardTimeoutMax); AInt (Milliseconds timeout)]).

(** ** Storage *)

Record current : Type := MkCurrent {
  cur_lease : Lease;
  cur_live : bool;
  cur_revision : N;
}.

Definition getLast (key : string) : io leaseE (option stored_msg) :=
  io_of (panic_if (empty_str key) "getLast: key must not be empty") ≫= λ _,
  r ⇐ call (LastMsg key);
  Done (match r with
        | inl StreamNotFound => Err ErrUnsupported
        | inl (ReadFailed d) => Err (Errorf "lease %q: read: %s" [AStr key; AStr d])
        | inr m => Ret m
        end).

(** [time.Duration(rec.TTLMs) * time.Millisecond] *)
Definition ttl_of (rec : record) : Z := wrap64 (rec_TTLMs rec * Millisecond).

Definition current_of (key : string) (m : option stored_msg) : outcome current :=
  match m with
  | None => Ret (MkCurrent zero_Lease false 0)
  | Some msg =>
      match sm_body msg with
      | LPurge | LMaxAge => Ret (MkCurrent zero_Lease false (sm_Sequence msg))
      | LBad b => Err (Errorf "lease %q: corrupt record at revision %d: %w"
                         [AStr key; AInt (Z.of_N (sm_Sequence msg)); AErr (Errorf b [])])
      | LRecord _ rec =>
          Ret (MkCurrent
                 (MkLease key (rec_Holder rec) (sm_Sequence msg) (rec_AcquiredAt rec)
                    (Time_Add (sm_Time msg) (ttl_of rec)) (ttl_of rec))
                 true (sm_Sequence msg))
      end
  end.

Definition read (key : string) : io leaseE current :=
  io_of (panic_if (empty_str key) "read: key must not be empty") ≫= λ _,
  m ← getLast key;
  io_of (current_of key m).

(** [write] and [purge] answer a publish error as it is. *)
Definition write (key : string) (rec : record) (ev : lease_event) (expect : N)
    : io leaseE (pub_error + N) :=
  io_of (panic_if (rec_TTLMs rec <? Milliseconds TTLMin)
    "write: record TTL must be validated before write") ≫= λ _,
  r ⇐ call (Publish key (LRecord ev rec) expect);
  Done (Ret r).

Definition purge (key : string) (expect : N) : io leaseE (pub_error + N) :=
  io_of (panic_if (empty_str key) "purge: key must not be empty") ≫= λ _,
  io_of (panic_if (expect =? 0)%N "purge: expect must be a real revision") ≫= λ _,
  r ⇐ call (Publish key LPurge expect);
  Done (Ret r).

Definition create (key holder : string) (ttl : Z) (expect : N) : io leaseE (pub_error + Lease) :=
  io_of (panic_if (empty_str holder) "create: holder must not be empty") ≫= λ _,
  io_of (panic_if (ttl <? TTLMin) "create: ttl must be validated before create") ≫= λ _,
  now ⇐ call Now;
  r ← write key (MkRecord holder now (Milliseconds ttl)) EventAcquired expect;
  Done (Ret (match r with
             | inl e => inl e
             | inr revision => inr (MkLease key holder revision now (Time_Add now ttl) ttl)
             end)).

Definition checkHolder (key : string) (cur : current) (holder : string) : outcome unit :=
  panic_if (empty_str key || empty_str holder) "checkHolder: key and holder must not be empty";;
  panic_if (cur_live cur && (le_Revision (cur_lease cur) =? 0)%N)
    "checkHolder: a live lease must carry a revision";;
  fail_if (negb (cur_live cur)) (Errorf "%w: %q is not held" [AErr ErrLost; AStr key]);;
  fail_if (negb (bool_decide (le_Holder (cur_lease cur) = holder)))
    (Errorf "%w: %q is held by %q" [AErr ErrLost; AStr key; AStr (le_Holder (cur_lease cur))]).

Definition lostRevision (key : string) (revision : N) : outcome error :=
  panic_if (empty_str key) "lostRevision: key must not be empty";;
  panic_if (revision =? 0)%N "lostRevision: revision must be a real fence";;
  Ret (Errorf "%w: %q is no longer at revision %d"
         [AErr ErrLost; AStr key; AInt (Z.of_N revision)]).

Definition isWrongLastSequence (e : pub_error) : bool :=
  match e with WrongLastSequence => true | PublishFailed _ => false end.

Definition pub_err (e : pub_error) : error :=
  match e with
  | WrongLastSequence => Errorf "nats: API error: wrong last sequence" []
  | PublishFailed d => Errorf d []
  end.

(** ** The store's calls *)

Fixpoint acquire_attempts (left : nat) (key holder : string) (ttl : Z)
    : io leaseE (Lease * bool) :=
  match left with
  | O => io_err (Errorf "lease %q: contention did not settle after %d attempts"
                   [AStr key; AInt (Z.of_nat acquireAttemptsMax)])
  | S left' =>
      cur ← read key;
      if cur_live cur
      then Done (Ret (cur_lease cur, bool_decide (le_Holder (cur_lease cur) = holder)))
      else
        granted ← create key holder ttl (cur_revision cur);
        match granted with
        | inr l => Done (Ret (l, true))
        | inl e =>
            if isWrongLastSequence e then acquire_attempts left' key holder ttl
            else io_err (pub_err e)
        end
  end.

Definition Acquire (key holder : string) (ttl : Z) : io leaseE (Lease * bool) :=
  io_of (validateToken "key" key KeyLengthMax) ≫= λ _,
  io_of (validateToken "holder" holder HolderLengthMax) ≫= λ _,
  io_of (validateTTL ttl) ≫= λ _,
  acquire_attempts acquireAttemptsMax key holder ttl.

(** The error of a fenced write. *)
Definition fenced_err {A} (key : string) (revision : N) (e : pub_error) : io leaseE A :=
  if isWrongLastSequence e
  then l ← io_of (lostRevision key revision); io_err l
  else io_err (pub_err e).

Definition Renew (key holder : string) (revision : N) (ttl : Z) : io leaseE Lease :=
  io_of (validateFence key holder revision) ≫= λ _,
  io_of (validateTTL ttl) ≫= λ _,
  cur ← read key;
  io_of (checkHolder key cur holder) ≫= λ _,
  now ⇐ call Now;
  let rec := MkRecord holder (le_AcquiredAt (cur_lease cur)) (Milliseconds ttl) in
  r ← write key rec EventRenewed revision;
  match r with
  | inl e => fenced_err key revision e
  | inr next =>
      Done (Ret (MkLease key holder next (rec_AcquiredAt rec) (Time_Add now ttl) ttl))
  end.

Definition Release (key holder : string) (revision : N) : io leaseE unit :=
  io_of (validateFence key holder revision) ≫= λ _,
  cur ← read key;
  io_of (checkHolder key cur holder) ≫= λ _,
  r ← purge key revision;
  match r with
  | inl e => fenced_err key revision e
  | inr _ => Done (Ret tt)
  end.

Definition Owner (key : string) : io leaseE (Lease * bool) :=
  io_of (validateToken "key" key KeyLengthMax) ≫= λ _,
  cur ← read key;
  Done (Ret (cur_lease cur, cur_live cur)).

Definition ChangedSubject (key : string) : outcome string :=
  panic_if (empty_str key) "ChangedSubject: key must not be empty";;
  Ret ("dagnats.lease.changed." +:+ key).

(** ** Forwarding to the owner *)

Record Forwarded : Type := MkForwarded {
  fw_Key : string;
  fw_Holder : string;
  fw_Revision : N;
  fw_Payload : string;
}.

Definition contains_any (chars : list ascii) (s : string) : bool :=
  existsb (λ c, str_contains_char c s) chars.

Definition InboxSubject (holder key : string) : outcome string :=
  panic_if (empty_str holder || empty_str key) "InboxSubject: holder and key must not be empty";;
  panic_if (contains_any ["."; "*"; ">"; " "]%char holder || contains_any ["."; "*"; ">"; " "]%char key)
    "InboxSubject: holder and key must each be one subject token";;
  Ret ("dagnats.lease.inbox." +:+ holder +:+ "." +:+ key).

(** The outcome of one delivery: the owner's data, a refusal (the owner did not
    process the request), or an error. *)
Inductive delivery : Type :=
  | Delivered (data : string)
  | OwnerRefused
  | DeliveryFailed (e : error).

Definition delivery_of (l : Lease) (r : request_reply) : delivery :=
  match r with
  | NoResponders => OwnerRefused
  | RequestTimeout => DeliveryFailed (Errorf "%w: %q did not reply for key %q"
                        [AErr ErrOwnerTimeout; AStr (le_Holder l); AStr (le_Key l)])
  | RequestFailed d => DeliveryFailed (Errorf "lease %q: forward to %q: %w"
                         [AStr (le_Key l); AStr (le_Holder l); AErr (Errorf d [])])
  | Replied true _ => OwnerRefused
  | Replied false data => Delivered data
  end.

Definition deliver (l : Lease) (payload : string) : io leaseE delivery :=
  io_of (panic_if (empty_str (le_Holder l) || (le_Revision l =? 0)%N)
    "deliver: lease must name a holder and revision") ≫= λ _,
  subject ← io_of (InboxSubject (le_Holder l) (le_Key l));
  r ⇐ call (Request subject (le_Revision l) payload);
  Done (Ret (delivery_of l r)).

(** [Forward] returns what it tried together with the error. *)
Definition unavailable (key : string) (tried : Forwarded) : option error :=
  Some (Errorf "%w: %q did not take the request for key %q at revision %d"
          [AErr ErrOwnerUnavailable; AStr (fw_Holder tried); AStr key;
           AInt (Z.of_N (fw_Revision tried))]).

Fixpoint forward_rounds (attempt left : nat) (key payload : string) (tried : Forwarded)
    : io leaseE (Forwarded * option error) :=
  match left with
  | O => Done (Ret (tried, unavailable key tried))
  | S left' =>
      o ⇐ read key;
      match o with
      | Panic m => Done (Panic m)
      | Err e => Done (Ret (tried, Some e))
      | Ret cur =>
          if negb (cur_live cur)
          then Done (Ret (MkForwarded key "" 0 "",
                 Some (Errorf "%w: key %q is not held" [AErr ErrNoOwner; AStr key])))
          else
            let l := cur_lease cur in
            match validateToken "stored holder" (le_Holder l) HolderLengthMax with
            | Panic m => Done (Panic m)
            | Err e => Done (Ret (tried,
                Some (Errorf "lease %q: corrupt record at revision %d: %v"
                        [AStr key; AInt (Z.of_N (le_Revision l)); AErr e])))
            | Ret _ =>
                let moved := negb (bool_decide (le_Holder l = fw_Holder tried)) ||
                             negb (le_Revision l =? fw_Revision tried)%N in
                if negb (Nat.eqb attempt 0) && negb moved
                then Done (Ret (tried, unavailable key tried))
                else
                  let tried := MkForwarded key (le_Holder l) (le_Revision l) "" in
                  d ← deliver l payload;
                  match d with
                  | Delivered data =>
                      Done (Ret (MkForwarded key (le_Holder l) (le_Revision l) data, None))
                  | OwnerRefused => forward_rounds (S attempt) left' key payload tried
                  | DeliveryFailed e => Done (Ret (tried, Some e))
                  end
            end
      end
  end.

Definition Forward (key payload : string) (timeout : Z) : io leaseE (Forwarded * option error) :=
  io_of (validateToken "key" key KeyLengthMax) ≫= λ _,
  io_of (validateForwardTimeout timeout) ≫= λ _,
  forward_rounds 0 forwardAttemptsMax key payload (MkForwarded key "" 0 "").

(** ** The stream behind the bucket *)

Class LeaseStream (B : Type) : Type := {
  ls_last : B → string → option stored_msg;
  ls_seq : B → N;
  ls_publish : B → string → lease_msg → N → option (B * N);
  ls_expire : B → string → option B;
  ls_age : B → string → option B;
}.

Definition last_seq {B} `{LeaseStream B} (b : B) (key : string) : N :=
  match ls_last b key with Some m => sm_Sequence m | None => 0%N end.

(** [b'] is [b] after [m] was stored for [key] at the next sequence. *)
Definition appended {B} `{LeaseStream B} (b : B) (key : string) (m : lease_msg) (b' : B) : Prop :=
  (ls_seq b < ls_seq b')%N ∧
  (∃ t, ls_last b' key = Some (MkStored (ls_seq b') t m)) ∧
  ∀ k, k ≠ key → ls_last b' k = ls_last b k.

Class LeaseStreamLaws (B : Type) `{LeaseStream B} : Prop := {
  ls_last_seq b key m : ls_last b key = Some m → (0 < sm_Sequence m ≤ ls_seq b)%N;
  ls_publish_spec b key m expect :
    match ls_publish b key m expect with
    | Some (b', n) => last_seq b key = expect ∧ appended b key m b' ∧ n = ls_seq b'
    | None => last_seq b key ≠ expect
    end;
  ls_expire_spec b key b' : ls_expire b key = Some b' →
    (∃ m ev rec, ls_last b key = Some m ∧ sm_body m = LRecord ev rec) ∧ appended b key LMaxAge b';
  ls_age_spec b key b' : ls_age b key = Some b' →
    (∃ m, ls_last b key = Some m ∧ (sm_body m = LPurge ∨ sm_body m = LMaxAge)) ∧
    ls_seq b' = ls_seq b ∧ ls_last b' key = None ∧
    ∀ k, k ≠ key → ls_last b' k = ls_last b k;
}.

(** An instance: a log, newest first, and the sequences of the aged markers. *)
Record lstream : Type := MkLstream {
  lst_time : Time;
  lst_log : list (string * Z * option lease_msg);
  lst_aged : list N;
}.

Definition lst_append (b : lstream) (key : string) (m : lease_msg) : lstream :=
  MkLstream (lst_time b) ((key, lst_time b, Some m) :: lst_log b)
    (filter (λ n, (n ≤ N.of_nat (length (lst_log b)))%N) (lst_aged b)).

Definition lst_get (b : lstream) (key : string) : option stored_msg :=
  match bk_find key (lst_log b) with
  | Some (n, t, Some m) => if decide (n ∈ lst_aged b) then None else Some (MkStored n t m)
  | _ => None
  end.

Definition is_record (m : lease_msg) : bool :=
  match m with LRecord _ _ => true | _ => false end.
Definition is_marker (m : lease_msg) : bool :=
  match m with LPurge | LMaxAge => true | _ => false end.

Definition lst_seq (b : lstream) : N := N.of_nat (length (lst_log b)).

#[global] Instance lstream_stream : LeaseStream lstream := {
  ls_last := lst_get;
  ls_seq := lst_seq;
  ls_publish b key m expect :=
    if decide (match lst_get b key with Some m => sm_Sequence m | None => 0%N end = expect)
    then Some (lst_append b key m, lst_seq (lst_append b key m)) else None;
  ls_expire b key :=
    m ← lst_get b key; if is_record (sm_body m) then Some (lst_append b key LMaxAge) else None;
  ls_age b key :=
    m ← lst_get b key;
    if is_marker (sm_body m)
    then Some (MkLstream (lst_time b) (lst_log b) (sm_Sequence m :: lst_aged b)) else None;
}.

Lemma bk_find_same {V} k k' (log : list (string * Z * option V)) n t v t' v' :
  bk_find k log = Some (n, t, v) → bk_find k' log = Some (n, t', v') → k = k'.
Proof.
  induction log as [|[[k0 t0] v0] log IH]; simpl; [done|].
  destruct (decide (k0 = k)) as [<-|Hk], (decide (k0 = k')) as [<-|Hk']; [done| | |apply IH].
  - intros [= <- _ _] Hf%bk_find_bounds. lia.
  - intros Hf%bk_find_bounds [= <- _ _]. lia.
Qed.

Lemma lst_append_appended b key m : appended b key m (lst_append b key m).
Proof.
  unfold appended, lst_append, ls_last, ls_seq; simpl. unfold lst_get, lst_seq; simpl.
  split_and!; [lia| |].
  - exists (lst_time b). rewrite decide_True by done. rewrite decide_False; [done|].
    rewrite list_elem_of_filter. intros [Hle _]. cbn beta in Hle. lia.
  - intros k Hk. rewrite decide_False by done.
    destruct (bk_find k (lst_log b)) as [[[n t] [m'|]]|] eqn:Hf; [|done..].
    apply bk_find_bounds in Hf. apply decide_ext. rewrite list_elem_of_filter.
    split; [by intros []|]. intros ?. split; [cbn beta; lia|done].
Qed.

#[global] Instance lstream_laws : LeaseStreamLaws lstream.
Proof.
  split; simpl.
  - intros b key m. unfold lst_get, lst_seq.
    destruct (bk_find key (lst_log b)) as [[[n t] [m'|]]|] eqn:Hf; [|done..].
    case_decide; [done|]. intros [= <-]. apply bk_find_bounds in Hf. simpl. lia.
  - intros b key m expect. unfold last_seq; simpl. case_decide; [|done].
    split_and!; [done|apply lst_append_appended|done].
  - intros b key b'. destruct (lst_get b key) as [m|] eqn:Hm; simpl; [|done].
    destruct (sm_body m) as [ev rec| | |] eqn:Hb; simpl; [|done..]. intros [= <-].
    split; [by exists m, ev, rec|apply lst_append_appended].
  - intros b key b'. destruct (lst_get b key) as [m|] eqn:Hm; simpl; [|done].
    destruct (is_marker (sm_body m)) eqn:Hb; [|done]. intros [= <-]. split_and!.
    + exists m. split; [done|]. destruct (sm_body m); naive_solver.
    + done.
    + unfold lst_get in *. simpl. destruct (bk_find key (lst_log b)) as [[[n t] [m'|]]|]; [|done..].
      case_decide; [done|]. simplify_eq/=. rewrite decide_True; [done|]. by left.
    + intros k Hk. unfold lst_get in *. simpl.
      destruct (bk_find key (lst_log b)) as [[[n t] [m'|]]|] eqn:Hf; [|done..].
      case_decide; [done|]. simplify_eq/=.
      destruct (bk_find k (lst_log b)) as [[[n' t'] [m''|]]|] eqn:Hf'; [|done..].
      apply decide_ext. rewrite elem_of_cons. split; [|by right].
      intros [->|?]; [|done]. by destruct (bk_find_same _ _ _ _ _ _ _ _ Hf' Hf).
Qed.

(** ** The abstract lease

    A key is free, or held by a holder at a revision.  A grant takes a free key,
    a renewal moves the holder's own revision, a release or an expiry frees the
    key. *)

Inductive lease_step : option (string * N) → N * lease_msg → option (string * N) → Prop :=
  | step_grant n rec :
      lease_step None (n, LRecord EventAcquired rec) (Some (rec_Holder rec, n))
  | step_renew h n0 n rec :
      rec_Holder rec = h →
      lease_step (Some (h, n0)) (n, LRecord EventRenewed rec) (Some (h, n))
  | step_release h n0 n : lease_step (Some (h, n0)) (n, LPurge) None
  | step_expire h n0 n : lease_step (Some (h, n0)) (n, LMaxAge) None.

(** The messages of a key, newest first, as a run of the abstract lease with
    strictly increasing revisions. *)
Inductive lease_trace : list (N * lease_msg) → option (string * N) → Prop :=
  | trace_nil : lease_trace [] None
  | trace_cons l st x st' :
      lease_trace l st → Forall (λ y, (y.1 < x.1)%N) l → lease_step st x st' →
      lease_trace (x :: l) st'.

Lemma trace_unique l st n m m' :
  lease_trace l st → (n, m) ∈ l → (n, m') ∈ l → m = m'.
Proof.
  intros Ht. induction Ht as [|l st x st' Ht IH Hlt _]; [by intros ?%elem_of_nil|].
  rewrite Forall_forall in Hlt.
  intros [<-|H1]%elem_of_cons [H2|H2]%elem_of_cons.
  - congruence.
  - specialize (Hlt _ H2). simpl in Hlt. lia.
  - subst x. specialize (Hlt _ H1). simpl in Hlt. lia.
  - by apply IH.
Qed.

(** The state is what the newest message says. *)
Lemma trace_state l st : lease_trace l st →
  st = match l with (n, LRecord _ rec) :: _ => Some (rec_Holder rec, n) | _ => None end.
Proof.
  intros [|l' st0 x st' Ht _ Hs]; [done|]. by inversion Hs; simplify_eq/=.
Qed.

Section Clients.
Context {B : Type} `{!LeaseStream B, !LeaseStreamLaws B}.
Variable key : string.

(** The stream, and every message the key has had, newest first. *)
Record lworld : Type := MkLworld {
  lw_b : B;
  lw_log : list (N * lease_msg);
}.

Definition logged (k : string) (x : N * lease_msg) (log : list (N * lease_msg)) :=
  if decide (k = key) then x :: log else log.

(** What a client sees of a call: reads may fail; a publish may fail without
    effect, or take effect and lose its acknowledgement. *)
Definition lease_reply R (w : lworld) (e : leaseE R) (w' : lworld) : R → Prop :=
  match e in leaseE R return R → Prop with
  | LastMsg k => λ r, w' = w ∧ (r = inr (ls_last (lw_b w) k) ∨ ∃ e, r = inl e)
  | Publish k m expect => λ r,
      (w' = w ∧ ∃ d, r = inl (PublishFailed d)) ∨
      match ls_publish (lw_b w) k m expect with
      | Some (b', n) =>
          w' = MkLworld b' (logged k (n, m) (lw_log w)) ∧
          (r = inr n ∨ ∃ d, r = inl (PublishFailed d))
      | None => w' = w ∧ r = inl WrongLastSequence
      end
  | Now => λ _, w' = w
  | Request _ _ _ => λ _, w' = w
  end.

(** The server expires a record, or forgets an aged marker. *)
Inductive lease_env (w : lworld) : lworld → Prop :=
  | env_expire k b' :
      ls_expire (lw_b w) k = Some b' →
      lease_env w (MkLworld b' (logged k (ls_seq b', LMaxAge) (lw_log w)))
  | env_age k b' :
      ls_age (lw_b w) k = Some b' → lease_env w (MkLworld b' (lw_log w)).

(** A client of the key: a script of calls, its renewals and releases with
    the fence it was last granted. *)
Inductive lease_cmd : Type :=
  | CmdAcquire (ttl : Z)
  | CmdRenew (ttl : Z)
  | CmdRelease.

Fixpoint client (holder : string) (fence : option N) (cmds : list lease_cmd)
    : prog leaseE (option N) :=
  match cmds with
  | [] => Done fence
  | CmdAcquire ttl :: cmds' =>
      o ⇐ Acquire key holder ttl;
      client holder (match o with
                     | Ret (l, true) => Some (le_Revision l)
                     | Ret (_, false) => None
                     | _ => fence
                     end) cmds'
  | CmdRenew ttl :: cmds' =>
      match fence with
      | None => client holder None cmds'
      | Some rev =>
          o ⇐ Renew key holder rev ttl;
          client holder (match o with Ret l => Some (le_Revision l) | _ => fence end) cmds'
      end
  | CmdRelease :: cmds' =>
      match fence with
      | None => client holder None cmds'
      | Some rev =>
          o ⇐ Release key holder rev;
          client holder (match o with Ret _ => None | _ => fence end) cmds'
      end
  end.

(** The log is a trace of the abstract lease and ends in the stream's last
    message; a forgotten marker leaves the key free. *)
Definition lease_ok (w : lworld) : Prop :=
  ∃ st, lease_trace (lw_log w) st ∧
    Forall (λ x, (0 < x.1 ≤ ls_seq (lw_b w))%N) (lw_log w) ∧
    match ls_last (lw_b w) key with
    | Some m => ∃ l, lw_log w = (sm_Sequence m, sm_body m) :: l
    | None => st = None
    end.

Definition log_grows (w w' : lworld) : Prop := ∃ l, lw_log w' = l ++ lw_log w.

Abbreviation lwp := (wp lease_reply lease_ok log_grows log_grows).

#[local] Instance log_grows_preorder : PreOrder log_grows.
Proof.
  split; [by exists []|]. intros w1 w2 w3 [l1 H1] [l2 H2]. exists (l2 ++ l1).
  by rewrite H2, H1, app_assoc.
Qed.

Lemma log_grows_elem w w' x : log_grows w w' → x ∈ lw_log w → x ∈ lw_log w'.
Proof. intros [l ->] Hx. apply elem_of_app. by right. Qed.

(** The record a fence points to belongs to the client. *)
Definition owns (holder : string) (rev : N) (w : lworld) : Prop :=
  ∃ ev rec, (rev, LRecord ev rec) ∈ lw_log w ∧ rec_Holder rec = holder.

Lemma owns_grows holder rev w w' : log_grows w w' → owns holder rev w → owns holder rev w'.
Proof. intros Hg (ev & rec & Hin & Hh). exists ev, rec. eauto using log_grows_elem. Qed.

(** A publish that expects the sequence of a logged message succeeds only
    while that message is the last one. *)
Lemma cas_last w n m :
  lease_ok w → (n, m) ∈ lw_log w → last_seq (lw_b w) key = n →
  ∃ l st, lw_log w = (n, m) :: l ∧ lease_trace (lw_log w) st.
Proof using Type*.
  intros (st & Ht & Hpos & Hlast) Hin Heq. rewrite Forall_forall in Hpos.
  pose proof (Hpos _ Hin) as Hn. unfold last_seq in Heq. simpl in Hn.
  destruct (ls_last (lw_b w) key) as [x|]; [|lia]. destruct Hlast as [l Hl].
  rewrite Heq in Hl. exists l, st. split; [|done]. rewrite Hl. f_equal. f_equal.
  eapply (trace_unique _ _ n); [exact Ht| |done]. rewrite Hl. by left.
Qed.

(** Storing a message that is a step of the abstract lease. *)
Lemma append_ok w m b' st st' :
  lease_ok w → lease_trace (lw_log w) st → appended (lw_b w) key m b' →
  lease_step st (ls_seq b', m) st' →
  lease_ok (MkLworld b' ((ls_seq b', m) :: lw_log w)).
Proof using Type*.
  intros (st0 & _ & Hpos & _) Ht (Hlt & [t Hl] & _) Hs. exists st'. simpl. rewrite Hl. simpl.
  split_and!; [| |eauto].
  - apply trace_cons with st; [done| |done]. eapply Forall_impl; [exact Hpos|]. simpl. lia.
  - constructor; [simpl; lia|]. eapply Forall_impl; [exact Hpos|]. simpl. lia.
Qed.

(** A publish of a step the abstract lease allows whenever the expected
    sequence is current. *)
Lemma Publish_wp {A} m expect (k : pub_error + N → prog leaseE A) Φ w0 :
  (∀ w n, log_grows w0 w → lease_ok w → last_seq (lw_b w) key = expect →
     ∃ st st', lease_trace (lw_log w) st ∧ lease_step st (n, m) st') →
  (∀ w r, log_grows w0 w → (∀ n, r = inr n → (n, m) ∈ lw_log w) → lwp Φ (k r) w) →
  lwp Φ (prog_bind k (call (Publish key m expect))) w0.
Proof using Type*.
  intros Hstep Hk. apply wp_call. intros w w' r Hg Hok Hrep. simpl in Hrep.
  pose proof (ls_publish_spec (lw_b w) key m expect) as Hp.
  destruct Hrep as [[-> [d ->]]|Hrep].
  { split_and!; [done|by exists []|]. by apply Hk. }
  destruct (ls_publish (lw_b w) key m expect) as [[b' n]|].
  - destruct Hp as (He & Happ & ->). destruct Hrep as [-> Hr]. unfold logged in *.
    rewrite decide_True in * by done.
    destruct (Hstep w (ls_seq b') Hg Hok He) as (st & st' & Ht & Hs).
    assert (log_grows w (MkLworld b' ((ls_seq b', m) :: lw_log w))) as Hgr
      by (by exists [(ls_seq b', m)]).
    split_and!; [by eapply append_ok|done|]. apply Hk; [by etrans|].
    intros n0 ->. destruct Hr as [Hr|[d Hr]]; simplify_eq. by left.
  - destruct Hrep as [-> ->]. split_and!; [done|by exists []|]. by apply Hk.
Qed.

Lemma pure_wp {A B'} (o : outcome A) (f : A → io leaseE B') Φ w0 :
  (∀ e, o = Err e → Φ (Err e) w0) → (∀ s, o = Panic s → Φ (Panic s) w0) →
  (∀ a, o = Ret a → lwp Φ (f a) w0) → lwp Φ (io_of o ≫= f) w0.
Proof. intros He Hp Hr. destruct o; [by apply Hr|by apply He|by apply Hp]. Qed.

Definition read_post (o : outcome current) (w : lworld) : Prop :=
  match o with
  | Ret cur =>
      if cur_live cur then owns (le_Holder (cur_lease cur)) (le_Revision (cur_lease cur)) w
      else cur_revision cur = 0%N ∨
           ∃ m, is_marker m = true ∧ (cur_revision cur, m) ∈ lw_log w
  | _ => True
  end.

Lemma read_wp w0 : lwp (λ o w, read_post o w ∧ log_grows w0 w) (read key) w0.
Proof using Type*.
  unfold read, getLast.
  assert (log_grows w0 w0) as H0 by (by exists []).
  destruct (empty_str key); simpl; [done|].
  intros w Hg Hok w' r [-> Hr]. split_and!; [done|by exists []|].
  destruct Hr as [-> |[[|d] ->]]; simpl; [|done..]. split; [|done].
  destruct Hok as (st & _ & _ & Hl). destruct (ls_last (lw_b w) key) as [x|]; simpl; [|by left].
  destruct Hl as [l Hl].
  assert ((sm_Sequence x, sm_body x) ∈ lw_log w) as Hin by (rewrite Hl; by left).
  destruct (sm_body x) as [ev rec| | |]; simpl;
    [by exists ev, rec|right; by exists LPurge|right; by exists LMaxAge|done].
Qed.

Lemma Now_wp {A} (k : Time → prog leaseE A) Φ w0 :
  (∀ w t, log_grows w0 w → lwp Φ (k t) w) → lwp Φ (prog_bind k (call Now)) w0.
Proof.
  intros Hk. apply wp_call. intros w w' t Hg Hok Hrep. simpl in Hrep. subst w'.
  split_and!; [done|by exists []|]. by apply Hk.
Qed.

(** A grant replaces a free key only. *)
Lemma grant_step w rev rec n :
  lease_ok w → last_seq (lw_b w) key = rev →
  (rev = 0%N ∨ ∃ m, is_marker m = true ∧ (rev, m) ∈ lw_log w) →
  ∃ st st', lease_trace (lw_log w) st ∧ lease_step st (n, LRecord EventAcquired rec) st'.
Proof using Type*.
  intros Hok Hl [->|(m & Hm & Hin)].
  - destruct Hok as (st & Ht & _ & Hlast). unfold last_seq in Hl.
    destruct (ls_last (lw_b w) key) as [x|] eqn:Hx.
    { apply ls_last_seq in Hx. lia. }
    subst st. eauto using lease_step.
  - destruct (cas_last _ _ _ Hok Hin Hl) as (l & st & Hlog & Ht).
    exists st. pose proof (trace_state _ _ Ht) as Hst. rewrite Hlog in Hst.
    destruct m; try done; subst st; eauto using lease_step.
Qed.

Definition fence_post (holder : string) (fence : option N) (w : lworld) : Prop :=
  ∀ rev, fence = Some rev → owns holder rev w.

Lemma io_bind_wp {A B'} (Φ : outcome A → lworld → Prop) (Ψ : outcome B' → lworld → Prop)
    (p : io leaseE A) (f : A → io leaseE B') w0 :
  lwp Φ p w0 → (∀ a w, Φ (Ret a) w → lwp Ψ (f a) w) →
  (∀ e w, Φ (Err e) w → Ψ (Err e) w) → (∀ s w, Φ (Panic s) w → Ψ (Panic s) w) →
  lwp Ψ (p ≫= f) w0.
Proof.
  intros Hp Hr He Hs. apply (wp_bind _ _ _ _ Φ); [done|]. intros [a|e|s] w Hw; simpl; auto.
Qed.

(** [write] of a message the abstract lease allows at [expect]. *)
Lemma write_wp rec ev expect w0 :
  (∀ w n, log_grows w0 w → lease_ok w → last_seq (lw_b w) key = expect →
     ∃ st st', lease_trace (lw_log w) st ∧ lease_step st (n, LRecord ev rec) st') →
  lwp (λ o w, log_grows w0 w ∧
         match o with Ret (inr n) => (n, LRecord ev rec) ∈ lw_log w | _ => True end)
    (write key rec ev expect) w0.
Proof using Type*.
  intros Hs. unfold write. destruct (rec_TTLMs rec <? _); [by split; [exists []|]|].
  apply Publish_wp; [done|]. intros w r Hg Hr. simpl. split; [done|].
  destruct r as [e|n]; [done|]. by apply Hr.
Qed.

Definition acquire_post (holder : string) (o : outcome (Lease * bool)) (w : lworld) : Prop :=
  match o with Ret (l, true) => owns holder (le_Revision l) w | _ => True end.

Lemma create_wp holder ttl rev w0 :
  (rev = 0%N ∨ ∃ m, is_marker m = true ∧ (rev, m) ∈ lw_log w0) →
  lwp (λ o w, log_grows w0 w ∧
         match o with Ret (inr l) => owns holder (le_Revision l) w | _ => True end)
    (create key holder ttl rev) w0.
Proof using Type*.
  intros Hrev. unfold create.
  destruct (empty_str holder); [by split; [exists []|]|].
  destruct (ttl <? TTLMin); [by split; [exists []|]|].
  apply Now_wp. intros w t Hg.
  eapply io_bind_wp; [apply write_wp|..].
  - intros w1 n Hg1 Hok Hl. apply (grant_step w1 rev); [done..|].
    destruct Hrev as [?|(m & ? & ?)]; [by left|right].
    exists m. split; [done|]. eapply log_grows_elem; [|done]. by etrans.
  - intros [e|n] w1 [Hg1 Hr]; simpl; split; try (by etrans); [done|].
    by eexists _, _.
  - intros e w1 [Hg1 _]. split; [by etrans|done].
  - intros e w1 [Hg1 _]. split; [by etrans|done].
Qed.

Lemma acquire_attempts_wp holder ttl left : ∀ w0,
  lwp (acquire_post holder) (acquire_attempts left key holder ttl) w0.
Proof using Type*.
  induction left as [|left IH]; intros w0; [done|]. cbn [acquire_attempts].
  eapply io_bind_wp; [apply read_wp| |done..]. intros cur w [Hcur Hg]. simpl in Hcur.
  destruct (cur_live cur).
  { simpl. case_bool_decide as Heq; [|done]. by rewrite <-Heq. }
  eapply io_bind_wp; [by apply create_wp| |done..]. intros [e|l] w1 [_ Hl]; [|done].
  destruct (isWrongLastSequence e); [apply IH|done].
Qed.

Lemma Acquire_wp holder ttl w0 : lwp (acquire_post holder) (Acquire key holder ttl) w0.
Proof using Type*.
  unfold Acquire. do 3 (apply pure_wp; [done..|intros [] _]). apply acquire_attempts_wp.
Qed.

Lemma checkHolder_ret cur holder :
  checkHolder key cur holder = Ret tt → cur_live cur = true ∧ le_Holder (cur_lease cur) = holder.
Proof.
  unfold checkHolder. intros H. go_inv H.
  rewrite negb_false_iff in *. rewrite bool_decide_eq_true in *. done.
Qed.

(** The revision a client presents is one it was granted: a renewal or release
    that succeeds replaces the client's own record. *)
Lemma own_step holder rev w :
  lease_ok w → owns holder rev w → last_seq (lw_b w) key = rev →
  lease_trace (lw_log w) (Some (holder, rev)).
Proof using Type*.
  intros Hok (ev & rec & Hin & <-) Hl. destruct (cas_last _ _ _ Hok Hin Hl) as (l & st & Hlog & Ht).
  pose proof (trace_state _ _ Ht) as Hst. rewrite Hlog in Hst. by subst st.
Qed.

Lemma fenced_err_wp {A} rev e (Φ : outcome A → lworld → Prop) w0 :
  (∀ e, Φ (Err e) w0) → (∀ s, Φ (Panic s) w0) → lwp Φ (fenced_err key rev e) w0.
Proof.
  intros He Hp. unfold fenced_err. destruct (isWrongLastSequence e); [|apply He].
  apply pure_wp; [naive_solver..|]. intros l _. apply He.
Qed.

Lemma Renew_wp holder rev ttl w0 :
  owns holder rev w0 →
  lwp (λ o w, log_grows w0 w ∧
         match o with Ret l => owns holder (le_Revision l) w | _ => True end)
    (Renew key holder rev ttl) w0.
Proof using Type*.
  intros Hown. assert (log_grows w0 w0) as H0 by (by exists []). unfold Renew.
  do 2 (apply pure_wp; [done..|intros [] _]).
  eapply io_bind_wp; [apply read_wp|..]; [|by intros ? ? []..].
  intros cur w1 [_ Hg1]. apply pure_wp; [done..|]. intros [] [Hlive Hh]%checkHolder_ret.
  apply Now_wp. intros w2 now Hg2.
  assert (log_grows w0 w2) as Hg02 by (by etrans).
  eapply io_bind_wp; [apply write_wp|..].
  - intros w n Hg Hok Hl. eexists _, _. split; [apply (own_step holder rev); [done| |done]|].
    + eapply owns_grows; [|done]. by etrans.
    + by constructor.
  - intros [e|n] w [Hg Hr].
    + assert (log_grows w0 w) by (by etrans). by apply fenced_err_wp.
    + split; [by etrans|]. by eexists _, _.
  - intros e w [Hg _]. split; [by etrans|done].
  - intros e w [Hg _]. split; [by etrans|done].
Qed.

Lemma Release_wp holder rev w0 :
  owns holder rev w0 → lwp (λ _ w, log_grows w0 w) (Release key holder rev) w0.
Proof using Type*.
  intros Hown. assert (log_grows w0 w0) as H0 by (by exists []). unfold Release.
  apply pure_wp; [done..|intros [] _].
  eapply io_bind_wp; [apply read_wp|..]; [|by intros ? ? []..].
  intros cur w1 [_ Hg1]. apply pure_wp; [done..|]. intros [] [Hlive Hh]%checkHolder_ret.
  unfold purge. destruct (empty_str key); [done|]. destruct (rev =? 0)%N; [done|].
  apply (wp_bind _ _ _ _ (λ _ w, log_grows w0 w)).
  - apply Publish_wp.
    + intros w n Hg Hok Hl. eexists _, _. split; [apply (own_step holder rev); [done| |done]|].
      * eapply owns_grows; [|done]. by etrans.
      * by constructor.
    + intros w r Hg _. simpl. by etrans.
  - intros [[e|n]|e|s] w Hg; [by apply fenced_err_wp|done..].
Qed.

Lemma client_wp holder cmds : ∀ fence w0,
  fence_post holder fence w0 → lwp (fence_post holder) (client holder fence cmds) w0.
Proof using Type*.
  induction cmds as [|[ttl|ttl|] cmds IH]; intros fence w0 Hf; [done|..]; cbn [client].
  - apply (wp_bind _ _ _ _ (λ o w, acquire_post holder o w ∧ log_grows w0 w)).
    + apply wp_since; [apply _|apply Acquire_wp|done].
    + intros [[l []]|e|s] w [Ho Hg]; apply IH; intros rev Hrev; simplify_eq; [done|..];
        by eapply owns_grows, Hf.
  - destruct fence as [rev|]; [|by apply IH].
    apply (wp_bind _ _ _ _ (λ o w, log_grows w0 w ∧
      match o with Ret l => owns holder (le_Revision l) w | _ => True end)).
    + by apply Renew_wp, Hf.
    + intros [l|e|s] w [Hg Ho]; apply IH; intros r Hr; simplify_eq; [done|..];
        by eapply owns_grows, Hf.
  - destruct fence as [rev|]; [|by apply IH].
    apply (wp_bind _ _ _ _ (λ _ w, log_grows w0 w)); [by apply Release_wp, Hf|].
    intros [l|e|s] w Hg; apply IH; intros r Hr; simplify_eq; by eapply owns_grows, Hf.
Qed.

Lemma env_ok w w' : lease_ok w → lease_env w w' → lease_ok w' ∧ log_grows w w'.
Proof using Type*.
  intros Hok [k b' He|k b' He].
  - apply ls_expire_spec in He as ((x & ev & rec & Hx & Hb) & Happ). unfold logged.
    case_decide as Hk; [subst k|].
    + split; [|by exists [(ls_seq b', LMaxAge)]].
      pose proof Hok as (st & Ht & Hpos & Hl). rewrite Hx in Hl. destruct Hl as [l Hl].
      pose proof (trace_state _ _ Ht) as Hst. rewrite Hl, Hb in Hst.
      eapply (append_ok w LMaxAge b' st None); [done..|]. subst st. constructor.
    + split; [|by exists []]. destruct Hok as (st & Ht & Hpos & Hl), Happ as (Hlt & _ & Ho).
      exists st. simpl. rewrite Ho by done. split_and!; [done| |done].
      eapply Forall_impl; [exact Hpos|]. simpl. lia.
  - apply ls_age_spec in He as ((x & Hx & Hb) & Hseq & Hn & Ho).
    split; [|by exists []]. destruct Hok as (st & Ht & Hpos & Hl). exists st. simpl.
    rewrite Hseq. split_and!; [done..|]. destruct (decide (k = key)) as [->|Hk].
    + rewrite Hn. rewrite Hx in Hl. destruct Hl as [l Hl].
      rewrite (trace_state _ _ Ht), Hl. by destruct Hb as [-> | ->].
    + by rewrite Ho.
Qed.

(** Any number of clients, in any interleaving with each other and with the
    server's expiry. *)
Lemma clients_ok (clients : list (string * list lease_cmd)) w w' ps :
  lease_ok w →
  rtc (pool_step lease_reply lease_env)
    (w, (λ c, client c.1 None c.2) <$> clients) (w', ps) →
  lease_ok w' ∧
  ∀ i c fence, clients !! i = Some c → ps !! i = Some (Done fence) →
    fence_post c.1 fence w'.
Proof using Type*.
  intros Hok Hsteps.
  set (Φ := λ i (fence : option N) w, ∀ c, clients !! i = Some c → fence_post c.1 fence w).
  assert (pool_ok lease_reply lease_ok (length clients) (λ _, log_grows) (λ _, log_grows) Φ
    (w', ps)) as (_ & Hfin & Hps).
  { eapply (pool_sound lease_reply lease_ok lease_env); [..|exact Hsteps].
    - intros i w1 w2 w3 H1 H2. by etrans.
    - intros i w1. done.
    - intros i a w1 w2 Hr _ Hp c Hc rev Hrev. eapply owns_grows; [done|]. by eapply Hp.
    - done.
    - intros w1 w2 H1 H2. by eapply env_ok.
    - intros i w1 w2 H1 H2. by eapply env_ok.
    - split_and!; [simpl; by rewrite length_fmap|done|]. intros i p Hp. simpl in Hp.
      rewrite list_lookup_fmap in Hp. destruct (clients !! i) as [c|] eqn:Hi; simplify_eq/=.
      eapply wp_mono; [by apply (client_wp c.1 c.2 None)|done|].
      intros fence w1 Hf c' Hc'. by simplify_eq. }
  split; [done|]. intros i c fence Hi Hp. exact (Hps i (Done fence) Hp c Hi).
Qed.

(** A fence is one holder's alone, and it is current only while that holder
    has the lease. *)
Lemma fence_holder w h rev : lease_ok w → owns h rev w →
  (∀ h', owns h' rev w → h' = h) ∧
  (last_seq (lw_b w) key = rev → lease_trace (lw_log w) (Some (h, rev))).
Proof using Type*.
  intros Hok Hown. split; [|intros Hl; by apply own_step].
  destruct Hok as (st & Ht & _), Hown as (ev & rec & Hin & <-).
  intros h' (ev' & rec' & Hin' & <-).
  pose proof (trace_unique _ _ _ _ _ Ht Hin Hin'). by simplify_eq.
Qed.
End Clients.

(** ** Forwarded requests

    The requests of one [Forward], newest first, against any answers the stream
    and the owners give. *)

Section Forwarding.
Variable last_answer : list (string * N * request_reply) → string →
  last_error + option stored_msg.
Variable owner_answer : list (string * N * request_reply) → string → N → string →
  request_reply.

Definition forward_handle R (tr : list (string * N * request_reply)) (e : leaseE R)
    : list (string * N * request_reply) * R :=
  match e in leaseE R return list (string * N * request_reply) * R with
  | LastMsg k => (tr, last_answer tr k)
  | Publish _ _ _ => (tr, inl WrongLastSequence)
  | Now => (tr, 0)
  | Request s n p => let r := owner_answer tr s n p in ((s, n, r) :: tr, r)
  end.

(** An answer that shows the owner did not process the request. *)
Definition refused (x : string * N * request_reply) : Prop :=
  match x.2 with NoResponders | Replied true _ => True | _ => False end.

Definition forward_ok (left : nat) (tr tr' : list (string * N * request_reply))
    (res : outcome (Forwarded * option error)) : Prop :=
  (∃ l, tr' = l ++ tr ∧ (length l ≤ left)%nat) ∧ Forall refused (tail tr') ∧
  (∀ f, res = Ret (f, None) →
     ∃ s, head tr' = Some (s, fw_Revision f, Replied false (fw_Payload f)) ∧
          InboxSubject (fw_Holder f) (fw_Key f) = Ret s).

Lemma forward_stop left tr res :
  Forall refused tr → (∀ f, res ≠ Ret (f, None)) → forward_ok left tr tr res.
Proof.
  intros Htr Hres. split_and!; [exists []; split; [done|simpl; lia]| |naive_solver].
  destruct tr; [done|by inversion Htr].
Qed.

Lemma read_trace key tr :
  (run_prog forward_handle tr (read key)).1 = tr.
Proof.
  unfold read, getLast. destruct (empty_str key); [done|]. simpl.
  by destruct (last_answer tr key) as [[]|].
Qed.

Lemma current_key key m cur : current_of key m = Ret cur → cur_live cur = true →
  le_Key (cur_lease cur) = key.
Proof. unfold current_of. intros H Hl. repeat case_match; by simplify_eq/=. Qed.

Lemma read_key key tr cur :
  (run_prog forward_handle tr (read key)).2 = Ret cur → cur_live cur = true →
  le_Key (cur_lease cur) = key.
Proof.
  unfold read, getLast. destruct (empty_str key); [done|]. simpl.
  destruct (last_answer tr key) as [[]|m]; simpl; [done..|]. apply current_key.
Qed.

Lemma forward_rounds_ok key payload left : ∀ attempt tried tr,
  Forall refused tr →
  let res := run_prog forward_handle tr (forward_rounds attempt left key payload tried) in
  forward_ok left tr res.1 res.2.
Proof.
  induction left as [|left IH]; intros attempt tried tr Htr; [by apply forward_stop|].
  cbn [forward_rounds]. rewrite run_prog_bind.
  pose proof (read_trace key tr) as Hr. pose proof (read_key key tr) as Hk.
  destruct (run_prog forward_handle tr (read key)) as [tr0 o]. simpl in Hr, Hk. subst tr0.
  destruct o as [cur|e|s]; [|by apply forward_stop..].
  specialize (Hk cur eq_refl). destruct (cur_live cur); [|by apply forward_stop].
  specialize (Hk eq_refl). cbn beta iota zeta. cbn [negb].
  destruct (validateToken _ _ _); [|by apply forward_stop..].
  destruct (_ && _); [by apply forward_stop|].
  unfold mbind, io_mbind, deliver. rewrite run_prog_bind.
  destruct (_ || _); [by apply forward_stop|]. cbn [panic_if io_of]. rewrite Hk.
  unfold mbind, io_mbind. cbn [prog_bind].
  destruct (InboxSubject _ key) as [subj|e|s] eqn:Hsub; [|by apply forward_stop..].
  cbn. set (r := owner_answer tr subj _ _). set (x := (subj, _, r)).
  assert (∀ tried', refused x → forward_ok (S left) tr
    (run_prog forward_handle (x :: tr) (forward_rounds (S attempt) left key payload tried')).1
    (run_prog forward_handle (x :: tr) (forward_rounds (S attempt) left key payload tried')).2)
    as Hnext.
  { intros tried' Hx. destruct (IH (S attempt) tried' (x :: tr)) as ((l & Hl & Hlen) & Hrest);
      [by constructor|]. split; [|done]. exists (l ++ [x]).
    rewrite length_app, <-app_assoc. simpl. split; [done|lia]. }
  assert (∀ res, (∀ f, res = Ret (f, None) → ∃ s,
      head (x :: tr) = Some (s, fw_Revision f, Replied false (fw_Payload f)) ∧
      InboxSubject (fw_Holder f) (fw_Key f) = Ret s) →
    forward_ok (S left) tr (x :: tr) res) as Hend.
  { intros res Hres. split_and!; [|done|done]. exists [x]. split; [done|simpl; lia]. }
  destruct r as [| |d|[] data]; cbn [delivery_of];
    [by apply Hnext|by apply Hend|by apply Hend|by apply Hnext|apply Hend].
  intros f [= <-]. by exists subj.
Qed.
End Forwarding.
