(* ===== verification/Admission.v ===== *)
(** * Run admission (internal/engine/admission.go)

    The gates a new run passes: the singleton lock, the priority offset, the
    concurrency slot.  [Admit] and the lock operations are programs over three
    services, the lock bucket (read through its stream leader,
    natsutil/kvleader.go), the run store and the slot bucket, and a clock.
    SHA-256 is a parameter ([sha256hex], the hexadecimal digest), and so is the
    text of a float. *)

From S2P Require Import Prelude Float64 Json Types GoTime Interleave Kv Slots Snapshot Input.
From stdpp Require Import relations.
From Stdlib Require Import Ascii.

#[local] Open Scope Z_scope.

Definition singletonClaimAttemptsMax : nat := 4.
Definition singletonUnsavedGrace : Z := 2 * Minute.
Definition singletonDigestPrefix : string := "h.".
Definition errAdmissionPermanent : error := Errorf "admission cannot succeed" [].

Inductive admissionAction : Type := admissionProceed | admissionSkip | admissionQueue.

Record admissionResult : Type := MkAdmission {
  adm_action : admissionAction;
  adm_cancelID : string;
  adm_skippedBy : string;
  adm_offset : Z;
  adm_singletonKey : string;
}.

Definition zero_admission : admissionResult := MkAdmission admissionProceed "" "" 0 "".

(** ** Lock keys (with natsutil.ValidKVKey) *)

Definition kv_key_char (c : ascii) : bool :=
  in_range "a" "z" c || in_range "A" "Z" c || in_range "0" "9" c ||
  bool_decide (c ∈ ["-"; "/"; "_"; "="; "."]%char).

Definition last_char (s : string) : option ascii := last (str_list s).

Fixpoint contains_dotdot (s : string) : bool :=
  match s with
  | String "." (String "." _) => true
  | String _ s' => contains_dotdot s'
  | EmptyString => false
  end.

Definition ValidKVKey (key : string) : bool :=
  negb (empty_str key) && negb (bool_decide (head (str_list key) = Some "."%char)) &&
  negb (bool_decide (last_char key = Some "."%char)) && negb (contains_dotdot key) &&
  str_forallb kv_key_char key.

Section Keys.
Context (fmt_float : f64 → string) (sha256hex : string → string).

(** The key before encoding. *)
Definition singletonRawKey (workflowName : string) (cfg : SingletonConfig) (input : option raw)
    : outcome string :=
  if empty_str (sc_Key cfg) then Ret workflowName
  else match ExtractDotPath (sc_Key cfg) input with
       | Panic m => Panic m
       | Err _ => Ret workflowName
       | Ret v => Ret (workflowName +:+ "." +:+ Sprint fmt_float v)
       end.

Definition encodeKey (kvKey : string) : string :=
  if ValidKVKey kvKey && negb (HasPrefix kvKey singletonDigestPrefix) then kvKey
  else singletonDigestPrefix +:+ sha256hex kvKey.

Definition singletonLockKey (workflowName : string) (cfg : SingletonConfig) (input : option raw)
    : outcome string :=
  panic_if (empty_str workflowName) "singletonLockKey: workflowName must not be empty";;
  kvKey ← singletonRawKey workflowName cfg input;
  Ret (encodeKey kvKey).
End Keys.

(** ** Lock records *)

Record singletonLock : Type := MkSingletonLock {
  sl_RunID : string;
  sl_Displaced : string;
}.

Definition marshalSingletonLock (runID displaced : string) : outcome raw :=
  panic_if (empty_str runID) "marshalSingletonLock: runID must not be empty";;
  panic_if (bool_decide (runID = displaced)) "marshalSingletonLock: a run cannot displace itself";;
  Ret (RawJson (JObj (("run_id", JStr runID) ::
    (if empty_str displaced then [] else [("displaced", JStr displaced)])))).

Definition unmarshal_singletonLock : raw → outcome singletonLock :=
  unmarshal_struct (MkSingletonLock "" "")
    (λ fs, r ← dec_field dec_string "run_id" "" fs;
           d ← dec_field dec_string "displaced" "" fs;
           Ret (MkSingletonLock r d)).

(** ** Services *)

Inductive admitE : Type → Type :=
  | ALock R (e : kvE raw R) : admitE R
  | ARun R (e : storeE R) : admitE R
  | ASlot R (e : kvE raw R) : admitE R
  | ANow : admitE Time.
Arguments ALock {R} _.
Arguments ARun {R} _.
Arguments ASlot {R} _.

(** The lock bucket's client refuses an invalid key before it asks the server. *)
Definition lock_call {R} (key : string) (e : kvE raw (kv_error + R))
    : prog admitE (option kv_error + R) :=
  if ValidKVKey key
  then r ⇐ call (ALock e); Done (match r with inl e => inl (Some e) | inr x => inr x end)
  else Done (inl None).

(** ** The claim *)

Definition singletonHolder (ent : entry raw) : io admitE (singletonLock * bool) :=
  match unmarshal_singletonLock (ent_value ent) with
  | Ret lock =>
      if empty_str (sl_RunID lock) then Done (Ret (MkSingletonLock "" "", false))
      else
        o ⇐ embed (@ARun) (Load (sl_RunID lock));
        match o with
        | Ret (holderRun, _) => Done (Ret (lock, negb (IsTerminal (wr_Status holderRun))))
        | Panic m => Done (Panic m)
        | Err e =>
            if errors_Is e ErrRunNotFound then
              now ⇐ call ANow;
              Done (Ret (lock, Time_Sub now (ent_created ent) <? singletonUnsavedGrace))
            else io_err (Errorf "load singleton holder %s: %w" [AStr (sl_RunID lock); AErr e])
        end
  | _ => Done (Ret (MkSingletonLock "" "", false))
  end.

(** [None] means that a rival moved the lock and the caller looks again. *)
Definition updateSingletonLock (kvKey : string) (lockData : raw) (revision : N)
    (result : admissionResult) : io admitE (option admissionResult) :=
  io_of (panic_if (empty_str kvKey) "updateSingletonLock: kvKey must not be empty") ≫= λ _,
  io_of (panic_if (revision =? 0)%N "updateSingletonLock: revision must be positive") ≫= λ _,
  r ⇐ lock_call kvKey (KvUpdate kvKey lockData revision);
  Done (match r with
        | inr _ => Ret (Some result)
        | inl (Some ErrKeyRevisionMismatch) | inl (Some ErrKeyExists) => Ret None
        | inl e => Err (Errorf "move singleton lock %s: %w"
                          [AStr kvKey; AErr (from_option kv_err (Errorf "nats: invalid key" []) e)])
        end).

Definition applySingletonMode (mode kvKey newRunID existingRunID : string) (revision : N)
    : io admitE (option admissionResult) :=
  io_of (panic_if (empty_str kvKey) "applySingletonMode: kvKey must not be empty") ≫= λ _,
  io_of (panic_if (empty_str existingRunID) "applySingletonMode: existingRunID not empty") ≫= λ _,
  if bool_decide (mode = SingletonModeSkip) then
    Done (Ret (Some (MkAdmission admissionSkip "" existingRunID 0 "")))
  else if bool_decide (mode = SingletonModeCancel) then
    data ← io_of (marshalSingletonLock newRunID existingRunID);
    updateSingletonLock kvKey data revision (MkAdmission admissionProceed existingRunID "" 0 "")
  else Done (Panic "applySingletonMode: unknown mode").

Definition trySingletonClaim (mode kvKey newRunID : string) : io admitE (option admissionResult) :=
  io_of (panic_if (empty_str kvKey || empty_str newRunID)
    "trySingletonClaim: kvKey and newRunID must not be empty") ≫= λ _,
  data ← io_of (marshalSingletonLock newRunID "");
  r ⇐ lock_call kvKey (KvCreate kvKey data);
  match r with
  | inr _ => Done (Ret (Some zero_admission))
  | inl None => io_err (Errorf "%w: singleton lock key %q: %w"
                  [AErr errAdmissionPermanent; AStr kvKey; AErr (Errorf "nats: invalid key" [])])
  | inl (Some ErrKeyExists) =>
      g ⇐ lock_call kvKey (KvGet true kvKey);
      match g with
      | inl (Some ErrKeyNotFound) => Done (Ret None)
      | inl e => io_err (Errorf "read singleton lock %s: %w"
                   [AStr kvKey; AErr (from_option kv_err (Errorf "nats: invalid key" []) e)])
      | inr ent =>
          '(lock, held) ← singletonHolder ent;
          if bool_decide (sl_RunID lock = newRunID) then
            Done (Ret (Some (MkAdmission admissionProceed (sl_Displaced lock) "" 0 "")))
          else if negb held then
            updateSingletonLock kvKey data (ent_revision ent) zero_admission
          else applySingletonMode mode kvKey newRunID (sl_RunID lock) (ent_revision ent)
      end
  | inl (Some e) => io_err (Errorf "claim singleton lock %s: %w" [AStr kvKey; AErr (kv_err e)])
  end.

Fixpoint claim_loop (attempts : nat) (mode kvKey newRunID : string) : io admitE admissionResult :=
  match attempts with
  | O => io_err (Errorf "singleton lock %s changed %d times during admission"
                   [AStr kvKey; AInt (Z.of_nat singletonClaimAttemptsMax)])
  | S attempts' =>
      r ← trySingletonClaim mode kvKey newRunID;
      match r with
      | Some result => Done (Ret result)
      | None => claim_loop attempts' mode kvKey newRunID
      end
  end.

Section Admit.
Context (fmt_float : f64 → string) (sha256hex : string → string).

Definition singletonCheck (workflowName : string) (cfg : SingletonConfig) (newRunID : string)
    (input : option raw) : io admitE (admissionResult * string) :=
  io_of (panic_if (empty_str newRunID) "singletonCheck: newRunID must not be empty") ≫= λ _,
  kvKey ← io_of (singletonLockKey fmt_float sha256hex workflowName cfg input);
  result ← claim_loop singletonClaimAttemptsMax (sc_Mode cfg) kvKey newRunID;
  Done (Ret (result, kvKey)).

(** [singletonKV] and [concurrency] may be nil: the Booleans say whether they
    exist. *)
Definition Admit (hasSingletonKV hasConcurrency : bool) (wfDef : WorkflowDef) (run : WorkflowRun)
    (input : option raw) : io admitE admissionResult :=
  io_of (panic_if (empty_str (wr_RunID run)) "Admit: RunID must not be empty") ≫= λ _,
  gate ← match wd_Singleton wfDef with
         | Some cfg =>
             if hasSingletonKV then
               '(s, kvKey) ← singletonCheck (wd_Name wfDef) cfg (wr_RunID run) input;
               Done (Ret (MkAdmission (adm_action s) (adm_cancelID s) (adm_skippedBy s) 0 kvKey))
             else Done (Ret zero_admission)
         | None => Done (Ret zero_admission)
         end;
  match adm_action gate with
  | admissionSkip =>
      Done (Ret (MkAdmission admissionSkip "" (adm_skippedBy gate) 0 (adm_singletonKey gate)))
  | _ =>
      offset ← io_of (ResolvePriority fmt_float (wd_Priority wfDef) input);
      action ← match wd_Concurrency wfDef with
               | Some limits =>
                   if hasConcurrency : bool then
                     o ⇐ embed (@ASlot) (AcquireRun (wd_Name wfDef) (wr_RunID run) (cl_MaxRuns limits));
                     Done (match o with
                           | Ret true => Ret admissionProceed
                           | Ret false => Ret admissionQueue
                           | Err e => Err (Errorf "acquire run: %w" [AErr e])
                           | Panic m => Panic m
                           end)
                   else Done (Ret admissionProceed)
               | None => Done (Ret admissionProceed)
               end;
      Done (Ret (MkAdmission action (adm_cancelID gate) "" offset (adm_singletonKey gate)))
  end.
End Admit.

(** The record [ReleaseSingletonLock] decodes: only the run. *)
Definition unmarshal_lockRun : raw → outcome string :=
  unmarshal_struct "" (dec_field dec_string "run_id" "").

Definition ReleaseSingletonLock (hasSingletonKV : bool) (run : WorkflowRun) : io admitE unit :=
  if negb hasSingletonKV then Done (Ret tt)
  else if empty_str (wr_SingletonKey run) then Done (Ret tt)
  else
    g ⇐ lock_call (wr_SingletonKey run) (KvGet true (wr_SingletonKey run));
    match g with
    | inl _ => Done (Ret tt)
    | inr ent =>
        match unmarshal_lockRun (ent_value ent) with
        | Ret holder =>
            if negb (bool_decide (holder = wr_RunID run)) then Done (Ret tt)
            else
              d ⇐ lock_call (wr_SingletonKey run)
                    (KvDelete (wr_SingletonKey run) (Some (ent_revision ent)));
              Done (match d with
                    | inr _ | inl (Some ErrKeyExists) => Ret tt
                    | inl e => Err (Errorf "release singleton lock: %w"
                        [AErr (from_option kv_err (Errorf "nats: invalid key" []) e)])
                    end)
        | _ => Done (Ret tt)
        end
    end.

(** ** Lock keys are valid, and one per raw key *)

Section KeySpec.
Context (sha256hex : string → string).
(** A digest is 64 hexadecimal digits. *)
Hypothesis sha_hex : ∀ s, str_forallb (λ c, in_range "0" "9" c || in_range "a" "f" c) (sha256hex s) = true.
Hypothesis sha_len : ∀ s, String.length (sha256hex s) = 64%nat.

Lemma str_list_app s t : str_list (s +:+ t) = str_list s ++ str_list t.
Proof. induction s as [|c s IH]; [done|]. rewrite str_app_cons. simpl. by rewrite IH. Qed.

Lemma hex_no_dot c : in_range "0" "9" c || in_range "a" "f" c = true → c ≠ "."%char.
Proof. by intros H ->. Qed.

Lemma hex_no_dotdot s :
  str_forallb (λ c, in_range "0" "9" c || in_range "a" "f" c) s = true → contains_dotdot s = false.
Proof.
  induction s as [|c s IH]; [done|]. intros H. unfold str_forallb in H. simpl in H.
  apply andb_true_iff in H as [Hc Hs]. specialize (IH Hs). apply hex_no_dot in Hc.
  cbn [contains_dotdot]. repeat case_match; subst; done.
Qed.

Lemma hex_key_char c :
  in_range "0" "9" c || in_range "a" "f" c = true → kv_key_char c = true.
Proof.
  unfold kv_key_char, in_range. change (byte_of "0") with 48. change (byte_of "9") with 57.
  change (byte_of "a") with 97. change (byte_of "f") with 102. change (byte_of "z") with 122.
  rewrite !orb_true_iff, !andb_true_iff, !Z.leb_le. intros [H|H]; [left; right; lia|].
  left. left. left. lia.
Qed.

Lemma encodeKey_valid kvKey : ValidKVKey (encodeKey sha256hex kvKey) = true.
Proof using Type*.
  unfold encodeKey. destruct (ValidKVKey kvKey && _) eqn:Hv; [by apply andb_true_iff in Hv as [? _]|].
  set (d := sha256hex kvKey). pose proof (sha_hex kvKey) as Hh. pose proof (sha_len kvKey) as Hl.
  fold d in Hh, Hl. clearbody d. unfold ValidKVKey, singletonDigestPrefix.
  change ("h." +:+ d) with (String "h" (String "." d)).
  destruct d as [|c d]; [done|]. unfold str_forallb in Hh. rewrite forallb_Forall in Hh.
  rewrite !andb_true_iff, !negb_true_iff, !bool_decide_eq_false. split_and!; [done..| | |].
  - change (last (str_list (String c d)) ≠ Some "."%char). intros Hlast%last_Some_elem_of. rewrite Forall_forall in Hh. by specialize (Hh _ Hlast).
  - pose proof (hex_no_dotdot (String c d)) as Hdd. unfold str_forallb in Hdd.
    rewrite forallb_Forall in Hdd. specialize (Hdd Hh). apply Forall_cons in Hh as [Hc%hex_no_dot _].
    change (contains_dotdot (String "h" (String "." (String c d))))
      with (contains_dotdot (String "." (String c d))).
    cbn [contains_dotdot]. repeat case_match; subst; done.
  - unfold str_forallb. rewrite forallb_Forall. constructor; [done|]. constructor; [done|].
    eapply Forall_impl; [exact Hh|]. intros x. apply hex_key_char.
Qed.

(** Two raw keys whose digests do not collide never share a lock. *)
Lemma encodeKey_inj s t :
  (sha256hex s = sha256hex t → s = t) →
  encodeKey sha256hex s = encodeKey sha256hex t → s = t.
Proof.
  intros sha_inj. unfold encodeKey. intros H.
  assert (∀ x y, ValidKVKey x && negb (HasPrefix x singletonDigestPrefix) = true →
    x ≠ singletonDigestPrefix +:+ y) as Hns.
  { intros x y [_ Hp]%andb_true_iff ->. by destruct y. }
  destruct (ValidKVKey s && _) eqn:Hs, (ValidKVKey t && _) eqn:Ht; [done| | |].
  - by apply Hns in H.
  - symmetry in H. by apply Hns in H.
  - apply sha_inj. by injection H.
Qed.
End KeySpec.

(** ** The lock under concurrent admissions and releases

    A lock changes hands only for a reason: the key was free; the holder's run
    had ended, was unreadable or had no snapshot past the grace; or the mode is
    cancel and the new record names the run it displaces.  Only the holder's own
    release frees the key. *)

Section Locks.
Context {LB RB : Type} `{!Kv raw LB, !KvLaws raw LB, !Kv stored RB, !KvLaws stored RB}.
Variables (key mode : string) (releasing : list string).

(** The buckets, the clock, every entry the lock has had ([None] for a
    deletion, newest first), and the runs that were once without a snapshot. *)
Record lockworld : Type := MkLockworld {
  kw_lock : kvw raw LB;
  kw_runs : kvw stored RB;
  kw_now : Time;
  kw_log : list (option (entry raw));
  kw_missing : string → Prop;
}.

Definition holder_of (ent : entry raw) : singletonLock :=
  match unmarshal_singletonLock (ent_value ent) with
  | Ret lock => lock
  | _ => MkSingletonLock "" ""
  end.

Definition ended (w : lockworld) (id : string) : Prop :=
  ∃ x run, (run_key id, x) ∈ kw_past (kw_runs w) ∧ ent_value x = SRun run ∧
    IsTerminal (wr_Status run) = true.

Definition stale (w : lockworld) (ent : entry raw) : Prop :=
  sl_RunID (holder_of ent) = "" ∨ ended w (sl_RunID (holder_of ent)) ∨
  kw_missing w (sl_RunID (holder_of ent)) ∧
    singletonUnsavedGrace ≤ Time_Sub (kw_now w) (ent_created ent).

Definition lock_step (w : lockworld) (prev next : option (entry raw)) : Prop :=
  match next, prev with
  | None, Some ent => ∃ id, id ∈ releasing ∧ unmarshal_lockRun (ent_value ent) = Ret id
  | None, None => False
  | Some e, None => sl_RunID (holder_of e) ≠ "" ∧ sl_Displaced (holder_of e) = ""
  | Some e, Some ent =>
      sl_RunID (holder_of e) ≠ sl_RunID (holder_of ent) ∧
      (sl_Displaced (holder_of e) = "" ∧ stale w ent ∨
       mode = SingletonModeCancel ∧
       sl_Displaced (holder_of e) = sl_RunID (holder_of ent))
  end.

Fixpoint lock_trace (w : lockworld) (log : list (option (entry raw))) : Prop :=
  match log with
  | [] => True
  | x :: log' => lock_step w (default None (head log')) x ∧ lock_trace w log'
  end.

Definition same_runs (w w' : lockworld) : Prop :=
  kw_runs w' = kw_runs w ∧ kw_missing w' = kw_missing w.

Definition admit_reply R (w : lockworld) (e : admitE R) (w' : lockworld) : R → Prop :=
  match e in admitE R return R → Prop with
  | @ALock R e => λ r,
      kv_reply true R (kw_lock w) e (kw_lock w') r ∧ kw_now w' = kw_now w ∧ same_runs w w' ∧
      kw_log w' =
        (if decide (kv_rev (kw_b (kw_lock w')) key = kv_rev (kw_b (kw_lock w)) key)
         then kw_log w else kv_get (kw_b (kw_lock w')) key :: kw_log w)
  | @ARun R e => λ r,
      kv_reply true R (kw_runs w) e (kw_runs w') r ∧ kw_lock w' = kw_lock w ∧
      kw_now w' = kw_now w ∧ kw_log w' = kw_log w ∧
      (∀ id, kw_missing w' id ↔
         kw_missing w id ∨ kv_get (kw_b (kw_runs w)) (run_key id) = None)
  | @ASlot R e => λ r, w' = w
  | ANow => λ r, w' = w ∧ r = kw_now w
  end.

(** Time passes, and runs are saved and deleted. *)
Inductive admit_env (w : lockworld) : lockworld → Prop :=
  | env_time t : kw_now w ≤ t →
      admit_env w (MkLockworld (kw_lock w) (kw_runs w) t (kw_log w) (kw_missing w))
  | env_runs R (e : storeE R) runs' r :
      kv_reply true R (kw_runs w) e runs' r →
      admit_env w (MkLockworld (kw_lock w) runs' (kw_now w) (kw_log w) (kw_missing w)).

Definition lock_ok (w : lockworld) : Prop :=
  kv_ok (kw_lock w) ∧ kv_ok (kw_runs w) ∧ lock_trace w (kw_log w) ∧
  default None (head (kw_log w)) = kv_get (kw_b (kw_lock w)) key.

Record moves (w w' : lockworld) : Prop := {
  mv_lock : ∀ x, x ∈ kw_past (kw_lock w) → x ∈ kw_past (kw_lock w');
  mv_runs : ∀ x, x ∈ kw_past (kw_runs w) → x ∈ kw_past (kw_runs w');
  mv_now : kw_now w ≤ kw_now w';
  mv_missing : ∀ id, kw_missing w id → kw_missing w' id;
}.

#[local] Instance moves_preorder : PreOrder moves.
Proof. split; [by split|]. intros ? ? ? [] []. split; eauto. lia. Qed.

Lemma stale_moves w w' ent : moves w w' → stale w ent → stale w' ent.
Proof.
  intros [_ Hr Hn Hm] [?|[(x & run & Hx & ?)|[? Hg]]]; [by left|right; left|right; right].
  - exists x, run. auto.
  - split; [auto|]. unfold Time_Sub in *. lia.
Qed.

Lemma trace_moves w w' log : moves w w' → lock_trace w log → lock_trace w' log.
Proof.
  intros Hm. induction log as [|x log IH]; [done|]. simpl. intros [Hs Ht]. split; [|auto].
  destruct x as [e|], (default None (head log)) as [ent|]; simpl in *; try done.
  destruct Hs as [Hne [[Hd Hst]|Hc]]; split; auto. left. split; [done|]. by eapply stale_moves.
Qed.

Abbreviation awp := (wp admit_reply lock_ok moves moves).

(** Calls that leave the lock's entry alone. *)
Lemma quiet_ok w w' : lock_ok w → moves w w' → kv_ok (kw_lock w') → kv_ok (kw_runs w') →
  kw_log w' = kw_log w → kv_get (kw_b (kw_lock w')) key = kv_get (kw_b (kw_lock w)) key →
  lock_ok w'.
Proof.
  intros (_ & _ & Ht & Hh) Hm Hl Hr Hlog Hget. split_and!; [done..| |].
  - rewrite Hlog. by eapply trace_moves.
  - by rewrite Hlog, Hget.
Qed.

(** A call on the lock bucket that writes nothing, or a legal step. *)
Lemma ALock_ok R (e : kvE raw R) w w' r :
  lock_ok w → admit_reply R w (ALock e) w' r →
  (kw_b (kw_lock w') = kw_b (kw_lock w) ∨
   ∃ v n, wrote (kw_b (kw_lock w)) key v n (kw_b (kw_lock w')) ∧
     lock_step w (kv_get (kw_b (kw_lock w)) key) (kv_get (kw_b (kw_lock w')) key)) →
  lock_ok w' ∧ moves w w'.
Proof using Type*.
  intros Hok (Hrep & Hnow & [Hruns Hmiss] & Hlog) He.
  assert (moves w w') as Hm.
  { split; [intros x; by eapply kv_reply_past|by rewrite Hruns|lia|by rewrite Hmiss]. }
  pose proof Hok as (Hl & Hr & Ht & Hh). pose proof (kv_reply_ok _ _ _ _ _ Hrep Hl) as Hl'.
  split; [|done]. destruct He as [Hb|(v & n & Hw & Hs)].
  - rewrite Hb, decide_True in Hlog by done.
    eapply quiet_ok; [done..|by rewrite Hruns|done|by rewrite Hb].
  - destruct Hw as (Hlt & Hn & _). rewrite Hn, decide_False in Hlog.
    2:{ specialize (Hlt key). lia. }
    split_and!; [done|by rewrite Hruns| |by rewrite Hlog].
    rewrite Hlog. simpl. rewrite Hh. split; [|by eapply trace_moves].
    destruct (kv_get (kw_b (kw_lock w')) key) as [e'|], (kv_get (kw_b (kw_lock w)) key) as [ent|];
      simpl in *; try done.
    destruct Hs as [Hne [[Hd Hst]|Hc]]; split; auto. left. split; [done|]. by eapply stale_moves.
Qed.

Hypothesis key_valid : ValidKVKey key = true.

Lemma lock_call_wp {R A} (e : kvE raw (kv_error + R)) (k : option kv_error + R → prog admitE A)
    Φ w0 :
  (∀ w w' r, moves w0 w → lock_ok w → admit_reply _ w (ALock e) w' r →
     lock_ok w' ∧ moves w w' ∧
     awp Φ (k (match r with inl e => inl (Some e) | inr x => inr x end)) w') →
  awp Φ (prog_bind k (lock_call key e)) w0.
Proof using key_valid.
  intros H. unfold lock_call. rewrite key_valid. intros w Hm Hok w' r Hrep. by apply H.
Qed.

Lemma marshal_lock runID displaced data :
  marshalSingletonLock runID displaced = Ret data →
  unmarshal_singletonLock data = Ret (MkSingletonLock runID displaced) ∧ runID ≠ "".
Proof.
  unfold marshalSingletonLock. rewrite !bind_unit_ret_iff, !panic_if_ret_iff.
  intros (H1%empty_str_false & H2 & [= <-]).
  split; [|done]. destruct (empty_str displaced) eqn:Hd; [|done].
  apply empty_str_true in Hd. by subst.
Qed.

Lemma update_lock_wp data B d ent result w0 :
  unmarshal_singletonLock data = Ret (MkSingletonLock B d) →
  (key, ent) ∈ kw_past (kw_lock w0) → B ≠ sl_RunID (holder_of ent) →
  (d = "" ∧ stale w0 ent ∨ mode = SingletonModeCancel ∧ d = sl_RunID (holder_of ent)) →
  awp (λ _ _, True) (updateSingletonLock key data (ent_revision ent) result) w0.
Proof using Type*.
  intros Hdata Hpast Hne Hwhy. unfold updateSingletonLock.
  destruct (empty_str key); [done|]. destruct (_ =? _)%N; [done|].
  apply lock_call_wp. intros w w' r Hm Hok Hrep.
  assert (lock_ok w' ∧ moves w w') as [Hok' Hm']; [|by split_and!; [..|destruct r as [[]|]]].
  eapply ALock_ok; [done..|]. pose proof Hrep as (Hr & _). apply update_reply in Hr.
  assert (kw_b (kw_lock w') = kw_b (kw_lock w) ∨
    kv_rev (kw_b (kw_lock w)) key = ent_revision ent ∧
    ∃ n, wrote (kw_b (kw_lock w)) key (Some data) n (kw_b (kw_lock w'))) as [?|(Hrev & n & Hw)].
  { destruct r as [[]|n]; destruct Hr as [Hr1 Hr2]; eauto; by left. }
  { by left. }
  right. exists (Some data), n. split; [done|].
  destruct Hok as (Hkv & _). rewrite (cas_current _ _ ent Hkv); [|by apply Hm|done].
  destruct Hw as (_ & _ & [t Ht] & _). rewrite Ht. simpl.
  assert (holder_of (MkEntry data n t) = MkSingletonLock B d) as Hh
    by (unfold holder_of; simpl; by rewrite Hdata).
  rewrite Hh. simpl. split; [done|]. destruct Hwhy as [[-> Hst]|?]; [left|by right].
  split; [done|]. by eapply stale_moves.
Qed.

Definition holder_post (ent : entry raw) (o : outcome (singletonLock * bool)) (w : lockworld)
    : Prop :=
  match o with
  | Ret (lock, held) =>
      sl_RunID lock = sl_RunID (holder_of ent) ∧ (held = false → stale w ent)
  | _ => True
  end.

Lemma holder_wp ent w0 :
  awp (λ o w, holder_post ent o w ∧ moves w0 w) (singletonHolder ent) w0.
Proof using Type*.
  unfold singletonHolder. assert (moves w0 w0) as H0 by done.
  destruct (unmarshal_singletonLock (ent_value ent)) as [lock|e|s] eqn:Hu;
    [|split; [|done]; split; [|left]; unfold holder_of; by rewrite Hu..].
  assert (holder_of ent = lock) as Hh by (unfold holder_of; by rewrite Hu).
  destruct (empty_str (sl_RunID lock)) eqn:He.
  { apply empty_str_true in He. split; [|done]. simpl. rewrite Hh, He. split; [done|].
    intros _. left. by rewrite Hh. }
  unfold Load. rewrite He. simpl. intros w Hm Hok w' r Hrep.
  pose proof Hrep as (Hr & Hlk & Hnow & Hlog & Hmiss).
  pose proof Hok as (Hkv & Hrn & _).
  assert (moves w w') as Hm'.
  { split; [by rewrite Hlk|intros x; by eapply kv_reply_past|lia|].
    intros id Hid. apply Hmiss. by left. }
  assert (lock_ok w') as Hok'.
  { eapply quiet_ok; [done..|by rewrite Hlk|by eapply kv_reply_ok|done|by rewrite Hlk]. }
  assert (moves w0 w') as Hmw by (by etrans).
  split_and!; [done..|]. apply get_reply in Hr as [_ Hr].
  destruct r as [[]|x]; simpl; try done.
  - intros w1 Hm1 Hok1 w2 t [-> ->]. split; [done|]. split; [reflexivity|]. simpl.
    split; [|by etrans].
    rewrite Hh. split; [done|]. intros Ht%Z.ltb_ge. right. right. rewrite Hh. split; [|done].
    apply (mv_missing _ _ Hm1), Hmiss. right. by apply Hr; right.
  - destruct (ent_value x) as [run| | |] eqn:Hx; simpl; try done. split; [|done].
    rewrite Hh. split; [done|]. intros Ht%negb_false_iff. right. left. rewrite Hh.
    exists x, run. by destruct Hr.
Qed.

Lemma claim_wp newRunID w0 :
  awp (λ _ _, True) (trySingletonClaim mode key newRunID) w0.
Proof using Type*.
  unfold trySingletonClaim. destruct (empty_str key || empty_str newRunID); [done|].
  unfold mbind at 1, io_mbind at 1. cbn [io_of panic_if prog_bind].
  destruct (marshalSingletonLock newRunID "") as [data|e|s] eqn:Hdata; [|done..].
  apply marshal_lock in Hdata as Hd. destruct Hd as [Hd Hnew].
  apply lock_call_wp. intros w w' r Hm Hok Hrep.
  assert (lock_ok w' ∧ moves w w') as [Hok' Hm'].
  { eapply ALock_ok; [done..|]. pose proof Hrep as (Hr & _). apply create_reply in Hr.
    assert (kw_b (kw_lock w') = kw_b (kw_lock w) ∨ kv_get (kw_b (kw_lock w)) key = None ∧
      ∃ n, wrote (kw_b (kw_lock w)) key (Some data) n (kw_b (kw_lock w')))
      as [?|(Hn & n & Hw)].
    { destruct r as [[]|n]; destruct Hr as [Hr1 Hr2]; eauto; by left. }
    { by left. }
    right. exists (Some data), n. split; [done|]. rewrite Hn.
    destruct Hw as (_ & _ & [t Ht] & _). rewrite Ht. simpl. unfold holder_of. simpl.
    by rewrite Hd. }
  split_and!; [done..|]. destruct r as [[]|n]; simpl; try done.
  apply lock_call_wp. intros w1 w2 r Hm1 Hok1 Hrep1.
  assert (lock_ok w2 ∧ moves w1 w2) as [Hok2 Hm2].
  { eapply ALock_ok; [done..|]. left. destruct Hrep1 as (Hr & _). by apply get_reply in Hr as [? _]. }
  split_and!; [done..|]. destruct Hrep1 as (Hr & _). apply get_reply in Hr as [_ Hr].
  destruct r as [[]|ent]; simpl; try done. destruct Hr as [_ Hpast].
  apply (wp_bind _ _ _ _ (λ o w, holder_post ent o w ∧ moves w2 w)); [apply holder_wp|].
  intros [[lock held]|e|s] w3 [Hpost Hm3]; [|done..]. destruct Hpost as [Hrun Hst]. cbn beta iota.
  case_bool_decide as Hown; [done|]. assert ((key, ent) ∈ kw_past (kw_lock w3)) as Hp3 by (by apply Hm3).
  destruct held; cbn [negb].
  - unfold applySingletonMode. destruct (empty_str key); [done|].
    destruct (empty_str (sl_RunID lock)); [done|]. cbn [io_of panic_if].
    unfold mbind, io_mbind. cbn [prog_bind].
    case_bool_decide; [done|]. case_bool_decide as Hc; [|done]. cbn [prog_bind io_of].
    destruct (marshalSingletonLock newRunID (sl_RunID lock)) as [data'|e|s] eqn:Hdata'; [|done..].
    apply marshal_lock in Hdata' as [Hd' _].
    eapply update_lock_wp; [exact Hd'|done|congruence|right; by split].
  - eapply update_lock_wp; [exact Hd|done|congruence|left; split; [done|by apply Hst]].
Qed.

Lemma claim_loop_wp newRunID attempts : ∀ w0,
  awp (λ _ _, True) (claim_loop attempts mode key newRunID) w0.
Proof using Type*.
  induction attempts as [|n IH]; intros w0; [done|]. cbn [claim_loop].
  apply (wp_bind _ _ _ _ (λ _ _, True)); [apply claim_wp|].
  intros [[r|]|e|s] w _; [done|apply IH|done..].
Qed.

Lemma release_lock_wp hasKV run w0 :
  wr_SingletonKey run = key → wr_RunID run ∈ releasing →
  awp (λ _ _, True) (ReleaseSingletonLock hasKV run) w0.
Proof using Type*.
  intros Hk Hin. unfold ReleaseSingletonLock. rewrite Hk. destruct hasKV; [|done]. cbn [negb].
  destruct (empty_str key); [done|]. apply lock_call_wp. intros w1 w2 r Hm1 Hok1 Hrep1.
  assert (lock_ok w2 ∧ moves w1 w2) as [Hok2 Hm2].
  { eapply ALock_ok; [done..|]. left. destruct Hrep1 as (Hr & _). by apply get_reply in Hr as [? _]. }
  split_and!; [done..|]. destruct Hrep1 as (Hr & _). apply get_reply in Hr as [_ Hr].
  destruct r as [e|ent]; simpl; [done|]. destruct Hr as [_ Hpast].
  destruct (unmarshal_lockRun (ent_value ent)) as [holder|e|s] eqn:Hu; [|done..].
  case_bool_decide as Hh; [|done]. subst holder. cbn [negb].
  apply lock_call_wp. intros w w' r Hm Hok Hrep.
  assert (lock_ok w' ∧ moves w w') as [Hok' Hm']; [|by split_and!; [..|destruct r as [[]|]]].
  eapply ALock_ok; [done..|]. pose proof Hrep as (Hr & _). apply delete_reply in Hr.
  assert (kw_b (kw_lock w') = kw_b (kw_lock w) ∨
    kv_rev (kw_b (kw_lock w)) key = ent_revision ent ∧
    ∃ n, wrote (kw_b (kw_lock w)) key None n (kw_b (kw_lock w'))) as [?|(Hrev & n & Hw)].
  { destruct r as [[]|n]; destruct Hr as [Hr1 Hr2]; eauto; try by left.
    destruct Hr2 as [?|[? ?]]; eauto. }
  { by left. }
  right. exists None, n. split; [done|].
  destruct Hok as (Hkv & _). rewrite (cas_current _ _ ent Hkv); [|by apply Hm|done].
  destruct Hw as (_ & _ & -> & _). simpl. eauto.
Qed.

Lemma admit_env_ok w w' : lock_ok w → admit_env w w' → lock_ok w' ∧ moves w w'.
Proof using Type*.
  intros Hok [t Ht|R e runs' r Hrep].
  - assert (moves w (MkLockworld (kw_lock w) (kw_runs w) t (kw_log w) (kw_missing w))) as Hm
      by (by split).
    split; [|done]. destruct Hok as (? & ? & Htr & ?). split_and!; [done..| |done].
    by eapply trace_moves.
  - assert (moves w (MkLockworld (kw_lock w) runs' (kw_now w) (kw_log w) (kw_missing w))) as Hm.
    { split; [done|intros x; by eapply kv_reply_past|done|done]. }
    split; [|done]. destruct Hok as (? & ? & Htr & ?).
    split_and!; [done|by eapply kv_reply_ok| |done]. by eapply trace_moves.
Qed.

(** A program of the pool: an admission's claim, or a release. *)
Inductive lock_user : Type :=
  | Claims (newRunID : string)
  | Releases (run : WorkflowRun).

Definition lock_prog (u : lock_user) : prog admitE unit :=
  match u with
  | Claims newRunID =>
      _ ⇐ claim_loop singletonClaimAttemptsMax mode key newRunID; Done tt
  | Releases run => _ ⇐ ReleaseSingletonLock true run; Done tt
  end.

Definition user_ok (u : lock_user) : Prop :=
  match u with
  | Claims _ => True
  | Releases run => wr_SingletonKey run = key ∧ wr_RunID run ∈ releasing
  end.

Lemma locks_ok (users : list lock_user) w w' ps :
  Forall user_ok users → lock_ok w →
  rtc (pool_step admit_reply admit_env) (w, lock_prog <$> users) (w', ps) → lock_ok w'.
Proof using Type*.
  intros Husers Hok Hsteps.
  assert (pool_ok admit_reply lock_ok (length users) (λ _, moves) (λ _, moves) (λ _ _ _, True)
    (w', ps)) as (_ & Hfin & _); [|done].
  eapply (pool_sound admit_reply lock_ok admit_env); [..|exact Hsteps].
  - intros i w1 w2 w3 H1 H2. by etrans.
  - intros i w1. reflexivity.
  - done.
  - done.
  - intros w1 w2 H1 H2. by eapply admit_env_ok.
  - intros i w1 w2 H1 H2. by eapply admit_env_ok.
  - split_and!; [simpl; by rewrite length_fmap|done|]. intros i p Hp. simpl in Hp.
    rewrite list_lookup_fmap in Hp. destruct (users !! i) as [u|] eqn:Hi; simplify_eq/=.
    rewrite Forall_lookup in Husers. specialize (Husers _ _ Hi).
    destruct u as [id|run]; (apply (wp_bind _ _ _ _ (λ _ _, True)); [|done]).
    + apply claim_loop_wp.
    + by apply release_lock_wp; destruct Husers.
Qed.
End Locks.
