(* ===== verification/Advance.v ===== *)
(** * The pure core of the engine (internal/engine/advance.go)

    [Advance] computes the next run and the side effects of one event.  The
    source copies the step map before it works on it, so the caller's run is
    never mutated; the model passes the new run along.  A nil step map and an
    empty one are the same value here, so the nil check of [Advance] has no
    counterpart.  A panic of the source
    (an unknown event, a step missing from the definition, an input that
    cannot be marshalled) is the [Panic] outcome. *)

From S2P Require Import Prelude Json Types Config Condition Graph Resolve.
From stdpp Require Import relations pretty.

#[local] Open Scope Z_scope.

(** ** Events and effects *)

Inductive EventType : Type := EventStepCompleted | EventStepFailed | EventStepContinue
  | EventOther (name : string).

Inductive FailureType : Type := FailureTypeRetriable | FailureTypeNonRetriable
  | FailureTypeOther (name : string).

Record FailPayload : Type := MkFailPayload { fp_Error : string; fp_FailureType : FailureType }.

Record Event : Type := MkEvent {
  ev_Type : EventType;
  ev_StepID : string;
  ev_Payload : option raw;
  ev_FailPayload : FailPayload;
}.

Inductive SideEffect : Type :=
  | EnqueueTask (step : StepDef) (input : option raw) (iteration : Z)
  | CompleteWorkflow (output : option raw)
  | FailWorkflow (stepID err : string)
  | SkipStep (stepID : string).

(** ** Sets of steps *)

(** Completed, skipped or recovered. *)
Definition resolved_status (s : StepStatus) : bool :=
  match s with
  | StepStatusCompleted | StepStatusSkipped | StepStatusRecovered => true
  | _ => false
  end.

Definition queued_status (s : StepStatus) : bool :=
  match s with
  | StepStatusQueued | StepStatusRunning | StepStatusCompleted | StepStatusFailed
  | StepStatusSkipped => true
  | _ => false
  end.

(** The set of step IDs whose status satisfies [p]. *)
Definition status_set (p : StepStatus → bool) (steps : gmap string StepState)
    : gmap string bool :=
  omap (λ st, if p (ss_Status st) then Some true else None) steps.

Definition buildCompletedSet (steps : gmap string StepState) : gmap string bool :=
  status_set resolved_status steps.
Definition buildQueuedSet (steps : gmap string StepState) : gmap string bool :=
  status_set queued_status steps.

Definition findStepInDef (def : WorkflowDef) (stepID : string) : option StepDef :=
  find_first (λ s, bool_decide (sd_ID s = stepID)) (wd_Steps def).

(** ** Transitions *)

(** [state := run.Steps[id]; state.Status = Skipped; run.Steps[id] = state] *)
Definition mark_status (v : StepStatus) (steps : gmap string StepState) (id : string)
    : gmap string StepState :=
  <[id := ss_set_Status v (step_at steps id)]> steps.

Definition resolveSkips (def : WorkflowDef) (run : WorkflowRun)
    : WorkflowRun * list SideEffect :=
  let completed := buildCompletedSet (wr_Steps run) in
  let queued := buildQueuedSet (wr_Steps run) in
  let skipped := ResolveSkipped def completed queued (wr_Steps run) in
  (wr_set_Steps (foldl (mark_status StepStatusSkipped) (wr_Steps run) (sd_ID <$> skipped)) run,
   SkipStep <$> (sd_ID <$> skipped)).

(** The loop over the ready steps of [resolveNextSteps]. *)
Fixpoint enqueue_effects (run : WorkflowRun) (ready : list StepDef)
    : outcome (list SideEffect) :=
  match ready with
  | [] => Ret []
  | step :: ready' =>
      if bool_decide (ss_Status (step_at (wr_Steps run) (sd_ID step)) = StepStatusSkipped)
      then enqueue_effects run ready'
      else
        match ResolveInput step (wr_Steps run) [wr_Input run] with
        | Ret input =>
            rest ← enqueue_effects run ready'; Ret (EnqueueTask step input 0 :: rest)
        | _ => Panic "resolveNextSteps: ResolveInput"
        end
  end.

Definition resolveNextSteps (def : WorkflowDef) (run : WorkflowRun)
    : outcome (WorkflowRun * list SideEffect) :=
  let '(run, effects) := resolveSkips def run in
  let completed := buildCompletedSet (wr_Steps run) in
  if IsComplete def completed
  then Ret (wr_set_Status RunStatusCompleted run, effects ++ [CompleteWorkflow None])
  else
    let queued := buildQueuedSet (wr_Steps run) in
    let ready := ResolveReady def completed queued in
    tasks ← enqueue_effects run ready;
    Ret (run, effects ++ tasks).

(** [run.Steps[id] = st] *)
Definition set_step (id : string) (st : StepState) (run : WorkflowRun) : WorkflowRun :=
  wr_set_Steps (<[id := st]> (wr_Steps run)) run.

Definition advanceCompleted (def : WorkflowDef) (run : WorkflowRun) (evt : Event)
    : outcome (WorkflowRun * list SideEffect) :=
  let state := ss_set_Output (ev_Payload evt)
                 (ss_set_Status StepStatusCompleted (step_at (wr_Steps run) (ev_StepID evt))) in
  resolveNextSteps def (set_step (ev_StepID evt) state run).

Definition advanceFailed (def : WorkflowDef) (run : WorkflowRun) (evt : Event)
    : outcome (WorkflowRun * list SideEffect) :=
  let state := ss_set_Error (fp_Error (ev_FailPayload evt))
                 (step_at (wr_Steps run) (ev_StepID evt)) in
  match fp_FailureType (ev_FailPayload evt) with
  | FailureTypeNonRetriable =>
      let run := set_step (ev_StepID evt) (ss_set_Status StepStatusFailed state) run in
      let '(run, effects) := resolveSkips def run in
      Ret (wr_set_Status RunStatusFailed run,
           effects ++ [FailWorkflow (ev_StepID evt) (fp_Error (ev_FailPayload evt))])
  | _ => Ret (set_step (ev_StepID evt) state run, [])
  end.

(** [fmt.Sprintf("agent loop exceeded max iterations (%d)", n)] *)
Definition max_iterations_error (n : Z) : string :=
  "agent loop exceeded max iterations (" +:+ pretty n +:+ ")".

Definition advanceContinue (def : WorkflowDef) (run : WorkflowRun) (evt : Event)
    : outcome (WorkflowRun * list SideEffect) :=
  match findStepInDef def (ev_StepID evt) with
  | None => Panic "advanceContinue: step not in def"
  | Some stepDef =>
      let state := step_at (wr_Steps run) (ev_StepID evt) in
      let state := ss_set_Iterations (wrap64 (ss_Iterations state + 1)) state in
      match ParseAgentLoopConfig stepDef with
      | Ret cfg =>
          if (0 <? al_MaxIterations cfg) && (al_MaxIterations cfg <=? ss_Iterations state)
          then
            let state := ss_set_Error (max_iterations_error (al_MaxIterations cfg))
                           (ss_set_Status StepStatusFailed state) in
            Ret (wr_set_Status RunStatusFailed (set_step (ev_StepID evt) state run),
                 [FailWorkflow (ev_StepID evt) (ss_Error state)])
          else
            let run := set_step (ev_StepID evt) state run in
            match ResolveInput stepDef (wr_Steps run) [wr_Input run] with
            | Ret input => Ret (run, [EnqueueTask stepDef input (ss_Iterations state)])
            | _ => Panic "advanceContinue: ResolveInput"
            end
      | _ => Panic "advanceContinue: config"
      end
  end.

Definition Advance (def : WorkflowDef) (run : WorkflowRun) (evt : Event)
    : outcome (WorkflowRun * list SideEffect) :=
  panic_if (empty_str (ev_StepID evt)) "Advance: event StepID must not be empty";;
  match ev_Type evt with
  | EventStepCompleted => advanceCompleted def run evt
  | EventStepFailed => advanceFailed def run evt
  | EventStepContinue => advanceContinue def run evt
  | EventOther _ => Panic "Advance: unknown event type"
  end.

(** ** Record projections after updates *)

Lemma wr_Steps_set_Steps v r : wr_Steps (wr_set_Steps v r) = v.
Proof. by destruct r. Qed.
Lemma wr_Steps_set_Status v r : wr_Steps (wr_set_Status v r) = wr_Steps r.
Proof. by destruct r. Qed.
Lemma wr_Status_set_Status v r : wr_Status (wr_set_Status v r) = v.
Proof. by destruct r. Qed.
Lemma wr_Status_set_Steps v r : wr_Status (wr_set_Steps v r) = wr_Status r.
Proof. by destruct r. Qed.
Lemma wr_Input_set_Steps v r : wr_Input (wr_set_Steps v r) = wr_Input r.
Proof. by destruct r. Qed.
Lemma ss_Status_set v st : ss_Status (ss_set_Status v st) = v.
Proof. by destruct st. Qed.
Lemma ss_Status_set_Output v st : ss_Status (ss_set_Output v st) = ss_Status st.
Proof. by destruct st. Qed.
Lemma ss_Status_set_Error v st : ss_Status (ss_set_Error v st) = ss_Status st.
Proof. by destruct st. Qed.
Lemma ss_Status_set_Iterations v st : ss_Status (ss_set_Iterations v st) = ss_Status st.
Proof. by destruct st. Qed.
Lemma ss_Iterations_set v st : ss_Iterations (ss_set_Iterations v st) = v.
Proof. by destruct st. Qed.

Create Rewrite HintDb proj.
#[global] Hint Rewrite wr_Steps_set_Steps wr_Steps_set_Status wr_Status_set_Status
  wr_Status_set_Steps wr_Input_set_Steps ss_Status_set ss_Status_set_Output
  ss_Status_set_Error ss_Status_set_Iterations ss_Iterations_set : proj.

(** ** The sets *)

Abbreviation status_of steps id := (ss_Status (step_at steps id)).

Lemma status_set_spec p steps id :
  p StepStatusPending = false →
  is_set (status_set p steps) id = p (status_of steps id).
Proof.
  intros Hp. unfold is_set, status_set, step_at. rewrite lookup_omap.
  destruct (steps !! id) as [st|]; simpl; [by destruct (p (ss_Status st))|done].
Qed.

Lemma completed_spec steps id :
  is_set (buildCompletedSet steps) id = resolved_status (status_of steps id).
Proof. by apply status_set_spec. Qed.
Lemma queued_spec steps id :
  is_set (buildQueuedSet steps) id = queued_status (status_of steps id).
Proof. by apply status_set_spec. Qed.

Lemma mark_status_at v steps l id :
  step_at (foldl (mark_status v) steps l) id =
  if decide (id ∈ l) then ss_set_Status v (step_at steps id) else step_at steps id.
Proof.
  revert steps. induction l as [|x l IH]; intros steps; [done|].
  cbn [foldl]. rewrite IH. unfold mark_status. destruct (decide (x = id)) as [Heq|Hne].
  - subst x. rewrite step_at_insert. destruct (decide (id ∈ id :: l)) as [_|Hn]; [|set_solver].
    case_decide; [by destruct (step_at steps id)|done].
  - rewrite step_at_insert_ne by done.
    destruct (decide (id ∈ l)), (decide (id ∈ x :: l)); set_solver.
Qed.

(** ** Skips *)

(** A step that is skipped in this state: pending, its dependencies resolved,
    its condition true. *)
Definition skips (def : WorkflowDef) (steps : gmap string StepState) (s : StepDef) : Prop :=
  s ∈ wd_Steps def ∧ resolved_status (status_of steps (sd_ID s)) = false ∧
  queued_status (status_of steps (sd_ID s)) = false ∧
  Evaluate (sd_SkipIf s) steps = true ∧
  ∀ d, d ∈ sd_DependsOn s → resolved_status (status_of steps d) = true.

Definition skip_ids (def : WorkflowDef) (steps : gmap string StepState) : list string :=
  sd_ID <$> ResolveSkipped def (buildCompletedSet steps) (buildQueuedSet steps) steps.

Lemma skip_ids_elem def steps id :
  id ∈ skip_ids def steps ↔ ∃ s, sd_ID s = id ∧ skips def steps s.
Proof.
  unfold skip_ids, skips. rewrite list_elem_of_fmap. setoid_rewrite ResolveSkipped_elem.
  setoid_rewrite completed_spec. setoid_rewrite queued_spec. naive_solver.
Qed.

Lemma resolveSkips_at def run id :
  step_at (wr_Steps (resolveSkips def run).1) id =
  if decide (id ∈ skip_ids def (wr_Steps run))
  then ss_set_Status StepStatusSkipped (step_at (wr_Steps run) id)
  else step_at (wr_Steps run) id.
Proof. unfold resolveSkips. simpl. rewrite wr_Steps_set_Steps. apply mark_status_at. Qed.

(** A status a step can have before it is dispatched. *)
Lemma skip_ids_pending def steps id :
  id ∈ skip_ids def steps →
  resolved_status (status_of steps id) = false ∧ queued_status (status_of steps id) = false.
Proof. rewrite skip_ids_elem. intros (s & <- & _ & ? & ? & _). done. Qed.

(** Skipping never unresolves a step. *)
Lemma resolveSkips_mono def run id :
  resolved_status (status_of (wr_Steps run) id) = true →
  resolved_status (status_of (wr_Steps (resolveSkips def run).1) id) = true.
Proof.
  intros H. rewrite resolveSkips_at. case_decide; [|done]. by rewrite ss_Status_set.
Qed.

(** ** Inputs *)

(** Every stored output is a JSON document, as the JSON snapshot that holds
    the run makes it. *)
Definition outputs_ok (steps : gmap string StepState) : Prop :=
  ∀ id r, ss_Output (step_at steps id) = Some r → ∃ v, r = RawJson v.

Lemma outputs_ok_json steps id :
  outputs_ok steps → is_Some (output_json (step_at steps id)).
Proof.
  intros H. unfold output_json. destruct (ss_Output (step_at steps id)) as [r|] eqn:Hr; [|eauto].
  destruct (H id r Hr) as [v ->]. eauto.
Qed.

Lemma ResolveInput_total step steps runInput :
  outputs_ok steps → ∃ input, ResolveInput step steps runInput = Ret input.
Proof.
  intros H. destruct (sd_DependsOn step) as [|d1 [|d2 deps]] eqn:Hd.
  - unfold ResolveInput. rewrite Hd. repeat case_match; eauto.
  - unfold ResolveInput. rewrite Hd. eauto.
  - destruct (ResolveInput_fan_in step steps runInput d1 d2 deps Hd) as (fs & -> & _); [|eauto].
    intros d _. by apply outputs_ok_json.
Qed.

Lemma outputs_ok_insert steps id st :
  outputs_ok steps → (∀ r, ss_Output st = Some r → ∃ v, r = RawJson v) →
  outputs_ok (<[id := st]> steps).
Proof.
  intros H Hst id' r. destruct (decide (id = id')) as [->|Hne].
  - rewrite step_at_insert. apply Hst.
  - rewrite step_at_insert_ne by done. apply H.
Qed.

Lemma outputs_ok_skips def run :
  outputs_ok (wr_Steps run) → outputs_ok (wr_Steps (resolveSkips def run).1).
Proof.
  intros H id r. rewrite resolveSkips_at. case_decide; [|apply H].
  intros Hr. apply (H id). by destruct (step_at (wr_Steps run) id).
Qed.

(** ** Effects *)

Definition task_steps (effects : list SideEffect) : list StepDef :=
  omap (λ e, match e with EnqueueTask s _ _ => Some s | _ => None end) effects.

Lemma task_steps_app l k : task_steps (l ++ k) = task_steps l ++ task_steps k.
Proof. apply omap_app. Qed.
Lemma task_steps_skips ids : task_steps (SkipStep <$> ids) = [].
Proof. induction ids; [done|]. csimpl. done. Qed.

(** The ready steps that were not skipped are enqueued with their inputs. *)
Lemma enqueue_effects_total run ready :
  outputs_ok (wr_Steps run) →
  ∃ tasks, enqueue_effects run ready = Ret tasks ∧
    task_steps tasks =
      List.filter (λ s, negb (bool_decide (status_of (wr_Steps run) (sd_ID s) = StepStatusSkipped)))
        ready ∧
    ∀ e, e ∈ tasks → ∃ s input, e = EnqueueTask s input 0 ∧
      ResolveInput s (wr_Steps run) [wr_Input run] = Ret input.
Proof.
  intros H. induction ready as [|s ready IH]; cbn [enqueue_effects List.filter].
  { exists []. split_and!; [done..|]. by intros e ?%elem_of_nil. }
  destruct IH as (tasks & Ht & Hs & He). case_bool_decide; cbn [negb]; [by exists tasks|].
  destruct (ResolveInput_total s (wr_Steps run) [wr_Input run] H) as [input Hi].
  rewrite Hi, Ht. cbn [mbind outcome_bind]. eexists. split; [done|]. split.
  - change (task_steps (EnqueueTask s input 0 :: tasks)) with (s :: task_steps tasks).
    by rewrite Hs.
  - intros e [->|Hin]%elem_of_cons; eauto.
Qed.

(** ** The state after a completion *)

Section Next.
Context (def : WorkflowDef) (run : WorkflowRun).
Let run1 := (resolveSkips def run).1.

(** Every ordinary step is resolved. *)
Definition all_resolved (steps : gmap string StepState) : Prop :=
  ∀ s, s ∈ wd_Steps def → is_set (wd_AuxSteps def) (sd_ID s) = false →
    resolved_status (status_of steps (sd_ID s)) = true.

(** A step to start: ordinary, not started, its dependencies resolved. *)
Definition startable (steps : gmap string StepState) (s : StepDef) : Prop :=
  s ∈ wd_Steps def ∧ resolved_status (status_of steps (sd_ID s)) = false ∧
  queued_status (status_of steps (sd_ID s)) = false ∧
  is_set (wd_AuxSteps def) (sd_ID s) = false ∧
  ∀ d, d ∈ sd_DependsOn s → resolved_status (status_of steps d) = true.

Lemma IsComplete_resolved steps :
  IsComplete def (buildCompletedSet steps) = true ↔ all_resolved steps.
Proof. rewrite IsComplete_iff. by setoid_rewrite completed_spec. Qed.

Lemma ResolveReady_startable steps s :
  s ∈ ResolveReady def (buildCompletedSet steps) (buildQueuedSet steps) ↔ startable steps s.
Proof.
  rewrite ResolveReady_elem. unfold startable. setoid_rewrite completed_spec.
  by rewrite queued_spec.
Qed.

Lemma resolveNextSteps_spec :
  outputs_ok (wr_Steps run) →
  ∃ run' effects, resolveNextSteps def run = Ret (run', effects) ∧
    wr_Steps run' = wr_Steps run1 ∧
    ((all_resolved (wr_Steps run1) ∧ wr_Status run' = RunStatusCompleted ∧
      CompleteWorkflow None ∈ effects ∧ task_steps effects = []) ∨
     (¬ all_resolved (wr_Steps run1) ∧ wr_Status run' = wr_Status run ∧
      (∀ o, CompleteWorkflow o ∉ effects) ∧
      ∀ s, s ∈ task_steps effects ↔ startable (wr_Steps run1) s)).
Proof.
  intros Hok. unfold resolveNextSteps. pose proof (eq_refl : run1 = (resolveSkips def run).1)
    as Hrun1. clearbody run1.
  destruct (resolveSkips def run) as [r effects] eqn:Hr. cbn [fst] in Hrun1.
  assert (effects = SkipStep <$> skip_ids def (wr_Steps run)) as ->.
  { unfold resolveSkips in Hr. simplify_eq. done. }
  assert (wr_Status r = wr_Status run) as Hst.
  { unfold resolveSkips in Hr. simplify_eq. by rewrite wr_Status_set_Steps. }
  rewrite Hrun1. destruct (IsComplete def (buildCompletedSet (wr_Steps r))) eqn:Hc.
  - eexists _, _. split; [done|]. rewrite wr_Steps_set_Status, wr_Status_set_Status.
    split; [done|]. left. rewrite <-IsComplete_resolved. split_and!; [done..| |].
    + apply elem_of_app. right. left.
    + by rewrite task_steps_app, task_steps_skips.
  - assert (outputs_ok (wr_Steps r)) as Hokr.
    { replace r with (resolveSkips def run).1 by (by rewrite Hr). by apply outputs_ok_skips. }
    destruct (enqueue_effects_total r (ResolveReady def (buildCompletedSet (wr_Steps r))
      (buildQueuedSet (wr_Steps r))) Hokr) as (tasks & -> & Hts & Hin).
    cbn [mbind outcome_bind]. eexists _, _. split; [done|]. split; [done|]. right.
    rewrite <-IsComplete_resolved, Hc. split_and!; [done..| |].
    + intros o. rewrite elem_of_app. intros [(? & ? & _)%list_elem_of_fmap|Hx]; [done|].
      destruct (Hin _ Hx) as (? & ? & ? & _). done.
    + intros s. rewrite task_steps_app, task_steps_skips, Hts, app_nil_l,
        elem_of_List_filter, ResolveReady_startable. split; [by intros [? _]|].
      intros Hs. split; [done|]. rewrite negb_true_iff, bool_decide_eq_false.
      intros Heq. destruct Hs as (_ & Hres & _). by rewrite Heq in Hres.
Qed.
End Next.

(** ** The transitions *)

Definition payload_ok (p : option raw) : Prop := ∀ r, p = Some r → ∃ v, r = RawJson v.

(** The step map right after the event is recorded, before skips. *)
Definition record_completed (steps : gmap string StepState) (id : string) (out : option raw)
    : gmap string StepState :=
  <[id := ss_set_Output out (ss_set_Status StepStatusCompleted (step_at steps id))]> steps.

Lemma outputs_ok_record steps id out :
  outputs_ok steps → payload_ok out → outputs_ok (record_completed steps id out).
Proof.
  intros H Ho. apply outputs_ok_insert; [done|]. intros r.
  destruct (step_at steps id); simpl. apply Ho.
Qed.

(** [steps] after the skips that follow from it. *)
Definition with_skips (def : WorkflowDef) (steps : gmap string StepState)
    : gmap string StepState :=
  foldl (mark_status StepStatusSkipped) steps (skip_ids def steps).

Lemma with_skips_at def steps id :
  step_at (with_skips def steps) id =
  if decide (id ∈ skip_ids def steps)
  then ss_set_Status StepStatusSkipped (step_at steps id) else step_at steps id.
Proof. apply mark_status_at. Qed.

Lemma resolveSkips_steps def run :
  wr_Steps (resolveSkips def run).1 = with_skips def (wr_Steps run).
Proof. unfold resolveSkips. simpl. by rewrite wr_Steps_set_Steps. Qed.

Lemma resolveSkips_status def run : wr_Status (resolveSkips def run).1 = wr_Status run.
Proof. unfold resolveSkips. simpl. by rewrite wr_Status_set_Steps. Qed.

Lemma Advance_completed def run id out :
  id ≠ "" → outputs_ok (wr_Steps run) → payload_ok out →
  let after := with_skips def (record_completed (wr_Steps run) id out) in
  ∃ run' effects,
    Advance def run (MkEvent EventStepCompleted id out (MkFailPayload "" (FailureTypeOther "")))
      = Ret (run', effects) ∧
    wr_Steps run' = after ∧
    ((all_resolved def after ∧ wr_Status run' = RunStatusCompleted ∧
      CompleteWorkflow None ∈ effects ∧ task_steps effects = []) ∨
     (¬ all_resolved def after ∧ wr_Status run' = wr_Status run ∧
      (∀ o, CompleteWorkflow o ∉ effects) ∧
      ∀ s, s ∈ task_steps effects ↔ startable def after s)).
Proof.
  intros Hid Hok Hout after. unfold Advance. cbn [ev_StepID ev_Type].
  apply empty_str_false in Hid. rewrite Hid. cbn [panic_if mbind outcome_bind].
  unfold advanceCompleted. cbn [ev_StepID ev_Payload]. unfold set_step.
  match goal with |- context [resolveNextSteps def ?r] =>
    destruct (resolveNextSteps_spec def r) as (run' & effects & -> & Hs & Hcase) end.
  { rewrite wr_Steps_set_Steps. by apply outputs_ok_record. }
  rewrite resolveSkips_steps, wr_Steps_set_Steps in *. rewrite wr_Status_set_Steps in Hcase.
  exists run', effects. done.
Qed.

(** A run that is not complete always has a step to start, a step in flight,
    or a failed step. *)
Lemma advance_progress def steps :
  resolvable def → ¬ all_resolved def steps →
  (∃ s, startable def steps s) ∨
  (∃ s, s ∈ wd_Steps def ∧
    (status_of steps (sd_ID s) = StepStatusQueued ∨
     status_of steps (sd_ID s) = StepStatusRunning ∨
     status_of steps (sd_ID s) = StepStatusFailed)).
Proof.
  intros Hr Hn. rewrite <-IsComplete_resolved in Hn. apply not_true_iff_false in Hn.
  destruct (resolve_no_deadlock def _ (buildQueuedSet steps) Hr Hn)
    as [[s Hs]|(s & Hs & Hc & Hq)].
  - left. exists s. by apply ResolveReady_startable.
  - right. exists s. split; [done|]. rewrite completed_spec in Hc. rewrite queued_spec in Hq.
    destruct (ss_Status (step_at steps (sd_ID s))); naive_solver.
Qed.

(** ** Agent loops *)

(** One continue below the bound stays in the loop. *)
Lemma Advance_continue def run s cfg :
  sd_ID s ≠ "" → findStepInDef def (sd_ID s) = Some s → ParseAgentLoopConfig s = Ret cfg →
  outputs_ok (wr_Steps run) →
  let st := step_at (wr_Steps run) (sd_ID s) in
  let n := wrap64 (ss_Iterations st + 1) in
  let evt := MkEvent EventStepContinue (sd_ID s) None (MkFailPayload "" (FailureTypeOther "")) in
  (0 < al_MaxIterations cfg ≤ n →
    Advance def run evt = Ret
      (wr_set_Status RunStatusFailed (set_step (sd_ID s)
         (ss_set_Error (max_iterations_error (al_MaxIterations cfg))
           (ss_set_Status StepStatusFailed (ss_set_Iterations n st))) run),
       [FailWorkflow (sd_ID s) (max_iterations_error (al_MaxIterations cfg))])) ∧
  (¬ (0 < al_MaxIterations cfg ≤ n) →
    ∃ input, Advance def run evt = Ret
      (set_step (sd_ID s) (ss_set_Iterations n st) run, [EnqueueTask s input n])).
Proof.
  intros Hid Hf Hc Hok st n evt. apply empty_str_false in Hid.
  unfold Advance, evt. cbn [ev_StepID ev_Type]. rewrite Hid. cbn [panic_if mbind outcome_bind].
  unfold advanceContinue. cbn [ev_StepID]. rewrite Hf, Hc. cbv zeta.
  rewrite ss_Iterations_set. fold st n. split; intros Hn.
  - rewrite (proj2 (Z.ltb_lt _ _)), (proj2 (Z.leb_le _ _)) by lia. cbn [andb].
    repeat f_equal; by destruct st.
  - destruct (_ && _) eqn:Hb.
    { apply andb_true_iff in Hb as [?%Z.ltb_lt ?%Z.leb_le]. lia. }
    edestruct ResolveInput_total as [input ->]; [|by exists input].
    unfold set_step. rewrite wr_Steps_set_Steps. apply outputs_ok_insert; [done|].
    intros r Hr. apply (Hok (sd_ID s)). unfold st in Hr.
    by destruct (step_at (wr_Steps run) (sd_ID s)).
Qed.

(** A loop of continues: the run after each one, or the failed run. *)
Fixpoint continue_n (def : WorkflowDef) (id : string) (n : nat) (run : WorkflowRun)
    : outcome WorkflowRun :=
  match n with
  | O => Ret run
  | S n' =>
      '(run', _) ← Advance def run
        (MkEvent EventStepContinue id None (MkFailPayload "" (FailureTypeOther "")));
      continue_n def id n' run'
  end.

Lemma set_step_outputs_ok id st run :
  outputs_ok (wr_Steps run) → ss_Output st = ss_Output (step_at (wr_Steps run) id) →
  outputs_ok (wr_Steps (set_step id st run)).
Proof.
  intros Hok Ho. unfold set_step. rewrite wr_Steps_set_Steps. apply outputs_ok_insert; [done|].
  intros r. rewrite Ho. apply Hok.
Qed.

(** From a fresh step, a loop bounded by [m] runs exactly [m - 1] more times;
    the [m]-th continue fails the run. *)
Lemma continue_n_bound def s cfg (m : nat) : ∀ k run,
  sd_ID s ≠ "" → findStepInDef def (sd_ID s) = Some s → ParseAgentLoopConfig s = Ret cfg →
  al_MaxIterations cfg = Z.of_nat m → Z.of_nat m ≤ int64_max →
  outputs_ok (wr_Steps run) → wr_Status run = RunStatusRunning →
  0 ≤ ss_Iterations (step_at (wr_Steps run) (sd_ID s)) →
  ss_Iterations (step_at (wr_Steps run) (sd_ID s)) + Z.of_nat (S k) = Z.of_nat m →
  ∃ run1 run2, continue_n def (sd_ID s) k run = Ret run1 ∧
    wr_Status run1 = RunStatusRunning ∧
    continue_n def (sd_ID s) (S k) run = Ret run2 ∧
    wr_Status run2 = RunStatusFailed ∧
    status_of (wr_Steps run2) (sd_ID s) = StepStatusFailed.
Proof.
  intros k. induction k as [|k IH]; intros run Hid Hf Hc Hm Hmax Hok Hrun Hpos Hk.
  - destruct (Advance_continue def run s cfg Hid Hf Hc Hok) as [Hlast _].
    rewrite wrap64_id in Hlast by (unfold in_int64, int64_min, int64_max in *; lia).
    eexists run, _. split; [done|]. split; [done|]. cbn [continue_n].
    rewrite Hlast by lia. cbn. split; [done|].
    unfold set_step. rewrite wr_Status_set_Status, wr_Steps_set_Status, wr_Steps_set_Steps.
    split; [done|]. rewrite step_at_insert. by autorewrite with proj.
  - destruct (Advance_continue def run s cfg Hid Hf Hc Hok) as [_ Hnext].
    rewrite wrap64_id in Hnext by (unfold in_int64, int64_min, int64_max in *; lia).
    destruct Hnext as [input Hnext]; [lia|].
    destruct (IH (set_step (sd_ID s) (ss_set_Iterations
      (ss_Iterations (step_at (wr_Steps run) (sd_ID s)) + 1)
      (step_at (wr_Steps run) (sd_ID s))) run)) as (r1 & r2 & H1 & Hs1 & H2 & Hs2 & Hs3);
      try done.
    + apply set_step_outputs_ok; [done|]. by destruct (step_at (wr_Steps run) (sd_ID s)).
    + unfold set_step. by rewrite wr_Status_set_Steps.
    + unfold set_step. rewrite wr_Steps_set_Steps, step_at_insert, ss_Iterations_set. lia.
    + unfold set_step. rewrite wr_Steps_set_Steps, step_at_insert, ss_Iterations_set. lia.
    + exists r1, r2. cbn [continue_n] in H2 |- *. rewrite Hnext. by cbn.
Qed.

(** ** What [Advance] leaves alone *)

Lemma resolveSkips_run_id def run : wr_RunID (resolveSkips def run).1 = wr_RunID run.
Proof. by destruct run. Qed.

Lemma Advance_run_id def run evt run' effects :
  Advance def run evt = Ret (run', effects) → wr_RunID run' = wr_RunID run.
Proof.
  unfold Advance. rewrite bind_unit_ret_iff. intros [_ H]. destruct (ev_Type evt); [| | |done].
  - unfold advanceCompleted, resolveNextSteps in H.
    destruct (resolveSkips def _) as [r eff] eqn:Hr.
    assert (wr_RunID r = wr_RunID run) as <-.
    { change r with (r, eff).1. rewrite <-Hr, resolveSkips_run_id. by destruct run. }
    destruct (IsComplete _ _); [injection H as <- _; by destruct r|].
    apply bind_ret_iff in H as (tasks & _ & [= <- _]). done.
  - unfold advanceFailed in H. destruct (fp_FailureType _).
    1,3: injection H as <- _; by destruct run.
    destruct (resolveSkips def _) as [r eff] eqn:Hr. injection H as <- _.
    assert (wr_RunID r = wr_RunID run) as <-; [|by destruct r].
    change r with (r, eff).1. rewrite <-Hr, resolveSkips_run_id. by destruct run.
  - unfold advanceContinue in H. destruct (findStepInDef def _); [|done].
    destruct (ParseAgentLoopConfig _); [|done..]. destruct (_ && _).
    { injection H as <- _. by destruct run. }
    destruct (ResolveInput _ _ _); [|done..]. injection H as <- _. by destruct run.
Qed.

Lemma Advance_failed_steps def run id err run' effects :
  Advance def run (MkEvent EventStepFailed id None (MkFailPayload err FailureTypeNonRetriable))
    = Ret (run', effects) →
  wr_Steps run' = with_skips def
    (<[id := ss_set_Status StepStatusFailed
               (ss_set_Error err (step_at (wr_Steps run) id))]> (wr_Steps run)).
Proof.
  unfold Advance. rewrite bind_unit_ret_iff. intros [_ H]. cbn [ev_Type] in H.
  unfold advanceFailed in H. cbn [ev_FailPayload fp_FailureType fp_Error ev_StepID] in H.
  destruct (resolveSkips def _) as [r eff] eqn:Hr. injection H as <- _.
  rewrite wr_Steps_set_Status. change r with (r, eff).1.
  rewrite <-Hr, resolveSkips_steps. unfold set_step. by rewrite wr_Steps_set_Steps.
Qed.
