(* ===== verification/Dispatch.v ===== *)
(** * Dispatching ready steps (internal/engine/orchestrator.go, dispatch_stamp.go,
      task_publish.go, dispatch_resend.go)

    [enqueueReady] computes the steps to dispatch after a state change, caps
    them by the per-run step limit, and marks each one queued with a fresh
    dispatch stamp in the step map that the one following save persists.  The
    sends that follow the save are not modelled; fresh nonces ([runid.New]) and
    clock readings are functions of the position of the call in the pass. *)

From S2P Require Import Prelude Json Types Config Condition Graph Resolve GoTime Advance.
From stdpp Require Import relations.

#[local] Open Scope Z_scope.

(** ** Stamps (dispatch_stamp.go) *)

Definition stampDispatch (nonce : string) (now : Time) (state : StepState) : outcome StepState :=
  panic_if (IsZero now) "stampDispatch: now must not be zero";;
  let state := ss_set_DispatchNonce nonce state in
  let state := ss_set_StartedAt (Some now) state in
  let state := ss_set_CompletedAt None state in
  let state := ss_set_AttemptStartedAt None state in
  let state := ss_set_RetryDispatchAt None state in
  let state := ss_set_DispatchUnsent false state in
  panic_if (empty_str (ss_DispatchNonce state))
    "stampDispatch: nonce must be non-empty after stamping";;
  Ret state.

Definition terminal_step (s : StepStatus) : bool :=
  bool_decide (s = StepStatusCompleted) || bool_decide (s = StepStatusFailed).

Definition stampCompleted (now : Time) (state : StepState) : outcome StepState :=
  panic_if (negb (terminal_step (ss_Status state)))
    "stampCompleted: state.Status must be Completed or Failed";;
  Ret (ss_set_CompletedAt (Some now) state).

(** The body of the loop of [stampTerminalSteps] for one step. *)
Definition stamp_terminal (now : Time) (state : StepState) : StepState :=
  match ss_CompletedAt state with
  | Some _ => state
  | None =>
      if negb (terminal_step (ss_Status state)) then state
      else match stampCompleted now state with Ret st => st | _ => state end
  end.

Definition stampTerminalSteps (steps : gmap string StepState) (now : Time)
    : outcome (gmap string StepState) :=
  panic_if (IsZero now) "stampTerminalSteps: now must not be zero";;
  Ret (stamp_terminal now <$> steps).

(** ** Dispatch identity (task_publish.go) *)

Inductive dispatchIdentityMode : Type := dispatchNewAttempt | dispatchSameAttempt.

Definition dispatchIdentity (run : WorkflowRun) (stepID : string) (mode : dispatchIdentityMode)
    : outcome (Z * Z) :=
  panic_if (empty_str stepID) "dispatchIdentity: stepID must not be empty";;
  let state := step_at (wr_Steps run) stepID in
  let attempt := match mode with
                 | dispatchNewAttempt => wrap64 (ss_Attempts state + 1)
                 | dispatchSameAttempt => ss_Attempts state
                 end in
  Ret (attempt, ss_Iterations state).

(** ** Ready steps (orchestrator.go) *)

Definition completedSet (run : WorkflowRun) : gmap string bool :=
  status_set (λ s, bool_decide (s = StepStatusCompleted) ||
                   bool_decide (s = StepStatusSkipped) ||
                   bool_decide (s = StepStatusRecovered)) (wr_Steps run).

Definition queuedSet (run : WorkflowRun) : gmap string bool :=
  status_set queued_status (wr_Steps run).

Definition active_status (s : StepStatus) : bool :=
  bool_decide (s = StepStatusQueued) || bool_decide (s = StepStatusRunning).

Definition countActiveSteps (run : WorkflowRun) : Z :=
  Z.of_nat (size (filter (λ kv, active_status (ss_Status kv.2) = true) (wr_Steps run))).

Definition noStepDispatched (run : WorkflowRun) : outcome bool :=
  panic_if (empty_str (wr_RunID run)) "noStepDispatched: run.RunID must not be empty";;
  panic_if (negb (bool_decide (wr_Status run = RunStatusRunning)))
    "noStepDispatched: only a Running run is healed";;
  Ret (bool_decide (map_Forall (λ _ st, ss_Status st = StepStatusPending) (wr_Steps run))).

Definition resendable (t : StepType) : bool :=
  match t with
  | StepTypeNormal | StepTypeAgentLoop | StepTypeSleep | StepTypeWaitForEvent => true
  | _ => false
  end.

(** What [resolveReadySteps] returns: the run with its skips marked, the
    steps to dispatch, and whether the pass is over; [rr_complete] says that
    the run was handed to [completeWorkflow]. *)
Record ready_result : Type := MkReady {
  rr_run : WorkflowRun;
  rr_ready : list StepDef;
  rr_skipped : list StepDef;
  rr_finished : bool;
  rr_complete : bool;
}.

Definition resolveReadySteps (wfDef : WorkflowDef) (run : WorkflowRun) : outcome ready_result :=
  panic_if (empty_str (wr_RunID run)) "resolveReadySteps: RunID must not be empty";;
  let completed := completedSet run in
  let queued := queuedSet run in
  let skipped := ResolveSkipped wfDef completed queued (wr_Steps run) in
  let run := wr_set_Steps
    (foldl (mark_status StepStatusSkipped) (wr_Steps run) (sd_ID <$> skipped)) run in
  let completed := if (0 <? length skipped)%nat then completedSet run else completed in
  if (0 <? length skipped)%nat && IsComplete wfDef completed
  then Ret (MkReady run [] skipped true true)
  else
    let ready := ResolveReady wfDef completed queued in
    let ready := List.filter (λ step,
      negb (bool_decide (ss_Status (step_at (wr_Steps run) (sd_ID step)) = StepStatusSkipped)))
      ready in
    match wd_Concurrency wfDef with
    | Some cfg =>
        if 0 <? cl_MaxSteps cfg then
          let available := wrap64 (cl_MaxSteps cfg - countActiveSteps run) in
          if available <=? 0 then Ret (MkReady run [] skipped true false)
          else Ret (MkReady run (take (Z.to_nat available) ready) skipped false false)
        else Ret (MkReady run ready skipped false false)
    | None => Ret (MkReady run ready skipped false false)
    end.

Section Pass.
Context (new_id : nat → string) (clock : nat → Time).

(** The loop of [enqueueReady] that marks and stamps the ready steps. *)
Fixpoint mark_dispatched (i : nat) (ready : list StepDef) (steps : gmap string StepState)
    : outcome (gmap string StepState) :=
  match ready with
  | [] => Ret steps
  | step :: ready' =>
      let state := ss_set_Status StepStatusQueued (step_at steps (sd_ID step)) in
      state ← stampDispatch (new_id i) (clock i) state;
      let state := ss_set_DispatchUnsent (resendable (sd_Type step)) state in
      mark_dispatched (S i) ready' (<[sd_ID step := state]> steps)
  end.

Inductive pass_end : Type := PassComplete | PassNothing | PassDispatch (ready : list StepDef).

(** [enqueueReady] up to the save: the run it saves and what follows.  The
    step-type planners ([planDispatch]) are outside the model. *)
Definition enqueueReady (wfDef : WorkflowDef) (run : WorkflowRun)
    : outcome (WorkflowRun * pass_end) :=
  panic_if (empty_str (wr_RunID run)) "enqueueReady: RunID must not be empty";;
  r ← resolveReadySteps wfDef run;
  if rr_finished r
  then Ret (rr_run r, if rr_complete r then PassComplete else PassNothing)
  else match rr_ready r with
       | [] => Ret (rr_run r, PassNothing)
       | ready =>
           steps ← mark_dispatched 0 ready (wr_Steps (rr_run r));
           Ret (wr_set_Steps steps (rr_run r), PassDispatch ready)
       end.
End Pass.

(** ** Stamps *)

(** Every step that reached a terminal status has a completion time after the
    stamping pass, the first one it was given; nothing else changes. *)
Lemma stampTerminalSteps_spec steps now steps' :
  stampTerminalSteps steps now = Ret steps' →
  ∀ id, let st := step_at steps id in let st' := step_at steps' id in
    ss_Status st' = ss_Status st ∧
    (terminal_step (ss_Status st) = true →
      ss_CompletedAt st' = Some (default now (ss_CompletedAt st))) ∧
    (terminal_step (ss_Status st) = false → st' = st).
Proof.
  unfold stampTerminalSteps. destruct (IsZero now); [done|]. cbn. intros [= <-] id.
  unfold step_at. rewrite lookup_fmap. destruct (steps !! id) as [st|]; cbn; [|done].
  unfold stamp_terminal, stampCompleted. destruct st; cbn.
  destruct ss_CompletedAt as [t|]; cbn; [done|].
  destruct (terminal_step ss_Status) eqn:Ht; cbn; rewrite ?Ht; cbn; done.
Qed.

Lemma stampTerminalSteps_idem steps now steps' :
  stampTerminalSteps steps now = Ret steps' →
  ∀ now', IsZero now' = false → stampTerminalSteps steps' now' = Ret steps'.
Proof.
  unfold stampTerminalSteps. destruct (IsZero now); [done|]. cbn. intros [= <-] now' ->. cbn.
  f_equal. rewrite <-map_fmap_compose. apply map_fmap_ext. intros id st _. cbn.
  unfold stamp_terminal, stampCompleted. destruct st; cbn.
  destruct ss_CompletedAt as [t|]; cbn; [done|].
  destruct (terminal_step ss_Status) eqn:Ht; cbn; rewrite ?Ht; cbn; rewrite ?Ht; done.
Qed.

(** A freshly dispatched step state. *)
Definition dispatched (nonce : string) (now : Time) (st st' : StepState) : Prop :=
  ss_Status st' = ss_Status st ∧ ss_DispatchNonce st' = nonce ∧ ss_StartedAt st' = Some now ∧
  ss_CompletedAt st' = None ∧ ss_AttemptStartedAt st' = None ∧ ss_RetryDispatchAt st' = None ∧
  ss_Attempts st' = ss_Attempts st ∧ ss_Iterations st' = ss_Iterations st ∧
  ss_Output st' = ss_Output st.

Lemma stampDispatch_ret nonce now st st' :
  stampDispatch nonce now st = Ret st' →
  nonce ≠ "" ∧ IsZero now = false ∧ dispatched nonce now st st' ∧ ss_DispatchUnsent st' = false.
Proof.
  unfold stampDispatch. destruct (IsZero now); [done|]. cbn.
  destruct st; cbn. destruct (empty_str nonce) eqn:Hn; cbn; [done|].
  apply empty_str_false in Hn. intros [= <-]. unfold dispatched. cbn. done.
Qed.

Lemma stampDispatch_total nonce now st :
  nonce ≠ "" → IsZero now = false → ∃ st', stampDispatch nonce now st = Ret st'.
Proof.
  intros Hn Hz. unfold stampDispatch. rewrite Hz. destruct st; cbn.
  apply empty_str_false in Hn. rewrite Hn. cbn. eauto.
Qed.

(** ** Sets and counts *)

Lemma completedSet_build run : completedSet run = buildCompletedSet (wr_Steps run).
Proof.
  apply map_eq. intros id. unfold completedSet, buildCompletedSet, status_set.
  rewrite !lookup_omap. destruct (wr_Steps run !! id) as [st|]; [|done]. cbn.
  by destruct (ss_Status st).
Qed.

Lemma queuedSet_build run : queuedSet run = buildQueuedSet (wr_Steps run).
Proof. done. Qed.

Definition active_ids (steps : gmap string StepState) : gset string :=
  dom (filter (λ kv, active_status (ss_Status kv.2) = true) steps).

Lemma active_ids_elem steps id :
  id ∈ active_ids steps ↔ active_status (ss_Status (step_at steps id)) = true.
Proof.
  unfold active_ids, step_at. rewrite elem_of_dom. split.
  - intros [st [Hl Hs]%map_lookup_filter_Some]. by rewrite Hl.
  - destruct (steps !! id) as [st|] eqn:Hl; cbn; [|done]. intros Hs. exists st.
    by apply map_lookup_filter_Some.
Qed.

Lemma countActiveSteps_size run : countActiveSteps run = Z.of_nat (size (active_ids (wr_Steps run))).
Proof. unfold countActiveSteps, active_ids. by rewrite size_dom. Qed.

Lemma active_ids_insert steps id st : active_ids (<[id := st]> steps) ⊆ {[id]} ∪ active_ids steps.
Proof.
  intros x. rewrite elem_of_union, elem_of_singleton, !active_ids_elem.
  destruct (decide (id = x)) as [->|Hne]; [by left|].
  rewrite step_at_insert_ne by done. by right.
Qed.

Lemma active_ids_skips steps ids :
  active_ids (foldl (mark_status StepStatusSkipped) steps ids) ⊆ active_ids steps.
Proof.
  intros x. rewrite !active_ids_elem, mark_status_at. case_decide; [|done].
  by rewrite ss_Status_set.
Qed.

(** ** The ready steps *)

(** The ready steps before the cap. *)
Definition uncapped (wfDef : WorkflowDef) (run : WorkflowRun) : list StepDef :=
  let steps := with_skips wfDef (wr_Steps run) in
  List.filter (λ step, negb (bool_decide (status_of steps (sd_ID step) = StepStatusSkipped)))
    (ResolveReady wfDef (buildCompletedSet steps) (buildQueuedSet (wr_Steps run))).

Lemma uncapped_startable wfDef run s :
  s ∈ uncapped wfDef run ↔ startable wfDef (with_skips wfDef (wr_Steps run)) s.
Proof.
  unfold uncapped. rewrite elem_of_List_filter, ResolveReady_elem. unfold startable.
  setoid_rewrite completed_spec. rewrite queued_spec.
  rewrite negb_true_iff, bool_decide_eq_false.
  assert (resolved_status (status_of (with_skips wfDef (wr_Steps run)) (sd_ID s)) = false →
    queued_status (status_of (with_skips wfDef (wr_Steps run)) (sd_ID s)) =
    queued_status (status_of (wr_Steps run) (sd_ID s))) as Hq.
  { rewrite with_skips_at. case_decide; [|done]. by rewrite ss_Status_set. }
  split.
  - intros ((Hs & Hr & Hqu & Ha & Hd) & _). rewrite Hq by done. done.
  - intros (Hs & Hr & Hqu & Ha & Hd). rewrite Hq in Hqu by done. split_and!; [done..|].
    intros Heq. by rewrite Heq in Hr.
Qed.

Lemma NoDup_ids_filter (p : StepDef → bool) l :
  NoDup (sd_ID <$> l) → NoDup (sd_ID <$> List.filter p l).
Proof.
  induction l as [|x l IH]; [done|]. rewrite fmap_cons, NoDup_cons. intros [Hx Hl].
  cbn [List.filter]. destruct (p x); [|by apply IH]. rewrite fmap_cons, NoDup_cons.
  split; [|by apply IH]. intros (y & Hy & Hin)%list_elem_of_fmap. apply Hx.
  rewrite Hy. apply list_elem_of_fmap_2. by apply elem_of_List_filter in Hin as [? _].
Qed.

Lemma uncapped_nodup wfDef run :
  NoDup (ids_of (wd_Steps wfDef)) → NoDup (sd_ID <$> uncapped wfDef run).
Proof. intros H. apply NoDup_ids_filter. by apply NoDup_ids_filter. Qed.

(** The number of steps that may still be dispatched. *)
Definition step_limit (wfDef : WorkflowDef) : option Z :=
  match wd_Concurrency wfDef with
  | Some cfg => if 0 <? cl_MaxSteps cfg then Some (cl_MaxSteps cfg) else None
  | None => None
  end.

Lemma IsComplete_no_skips wfDef run :
  skip_ids wfDef (wr_Steps run) = [] → with_skips wfDef (wr_Steps run) = wr_Steps run.
Proof. unfold with_skips. by intros ->. Qed.

(** [resolveReadySteps], case by case. *)
Lemma resolveReadySteps_spec wfDef run :
  wr_RunID run ≠ "" →
  ∃ r, resolveReadySteps wfDef run = Ret r ∧
    rr_run r = wr_set_Steps (with_skips wfDef (wr_Steps run)) run ∧
    ((rr_finished r = true ∧ rr_complete r = true ∧
      all_resolved wfDef (with_skips wfDef (wr_Steps run))) ∨
     (∃ m, rr_finished r = true ∧ rr_complete r = false ∧ step_limit wfDef = Some m ∧
      wrap64 (m - countActiveSteps (rr_run r)) ≤ 0) ∨
     (∃ m, rr_finished r = false ∧ step_limit wfDef = Some m ∧
      0 < wrap64 (m - countActiveSteps (rr_run r)) ∧
      rr_ready r = take (Z.to_nat (wrap64 (m - countActiveSteps (rr_run r))))
        (uncapped wfDef run)) ∨
     (rr_finished r = false ∧ step_limit wfDef = None ∧ rr_ready r = uncapped wfDef run)).
Proof.
  intros Hid%empty_str_false. unfold resolveReadySteps. rewrite Hid. cbn [panic_if mbind outcome_bind].
  rewrite completedSet_build, queuedSet_build. cbv zeta.
  fold (skip_ids wfDef (wr_Steps run)). fold (with_skips wfDef (wr_Steps run)).
  set (sk := ResolveSkipped _ _ _ _).
  set (run1 := wr_set_Steps (with_skips wfDef (wr_Steps run)) run).
  assert (wr_Steps run1 = with_skips wfDef (wr_Steps run)) as Hst by apply wr_Steps_set_Steps.
  assert ((if (0 <? length sk)%nat then completedSet run1 else buildCompletedSet (wr_Steps run))
          = buildCompletedSet (with_skips wfDef (wr_Steps run))) as ->.
  { destruct (0 <? length sk)%nat eqn:Hsk; [by rewrite completedSet_build, Hst|].
    apply Nat.ltb_ge in Hsk. f_equal. symmetry. apply IsComplete_no_skips.
    unfold skip_ids. fold sk. destruct sk; [done|]. cbn in Hsk. lia. }
  destruct (_ && _) eqn:Hc.
  { apply andb_true_iff in Hc as [_ Hc]. eexists. split; [done|]. split; [done|]. left. cbn.
    by rewrite <-IsComplete_resolved. }
  rewrite Hst. fold (uncapped wfDef run). unfold step_limit.
  destruct (wd_Concurrency wfDef) as [cfg|]; [|eexists; split; [done|]; naive_solver].
  destruct (0 <? cl_MaxSteps cfg); [|eexists; split; [done|]; naive_solver].
  destruct (_ <=? 0) eqn:Hav; eexists; (split; [done|]); (split; [done|]); cbn.
  - right. left. apply Z.leb_le in Hav. eauto.
  - right. right. left. apply Z.leb_gt in Hav. eexists. by split_and!.
Qed.

(** ** Marking *)

Section Marking.
Context (new_id : nat → string) (clock : nat → Time).

(** What the marking loop does to one step. *)
Definition queued_by (i : nat) (s : StepDef) (st st' : StepState) : Prop :=
  dispatched (new_id i) (clock i) (ss_set_Status StepStatusQueued st) st' ∧
  ss_DispatchUnsent st' = resendable (sd_Type s).

Lemma mark_dispatched_spec ready : ∀ i steps steps',
  NoDup (sd_ID <$> ready) → mark_dispatched new_id clock i ready steps = Ret steps' →
  (∀ k s, ready !! k = Some s →
     new_id (i + k) ≠ "" ∧
     queued_by (i + k) s (step_at steps (sd_ID s)) (step_at steps' (sd_ID s))) ∧
  (∀ id, id ∉ sd_ID <$> ready → step_at steps' id = step_at steps id) ∧
  active_ids steps' ⊆ list_to_set (sd_ID <$> ready) ∪ active_ids steps.
Proof.
  induction ready as [|s ready IH]; intros i steps steps'.
  { cbn. intros _ [= <-]. split_and!; [done..|set_solver]. }
  rewrite fmap_cons, NoDup_cons. intros [Hs Hnd]. cbn [mark_dispatched].
  rewrite bind_ret_iff. intros (st1 & (Hn & _ & Hd & _)%stampDispatch_ret & Hrest).
  apply IH in Hrest as (Hin & Hout & Hact); [|done]. split_and!.
  - intros [|k] s' Hk; [cbn in Hk|].
    + assert (s' = s) as -> by congruence. rewrite Nat.add_0_r. split; [done|].
      rewrite Hout by done. rewrite step_at_insert. unfold queued_by, dispatched in *.
      destruct st1; cbn in *. by split.
    + cbn in Hk. apply Hin in Hk as Hk'. rewrite <-Nat.add_succ_comm.
      rewrite step_at_insert_ne in Hk'; [done|].
      intros Heq. apply Hs. rewrite Heq. apply list_elem_of_fmap_2.
      by eapply list_elem_of_lookup_2.
  - intros id [Hne Hid]%not_elem_of_cons. rewrite Hout by done. by rewrite step_at_insert_ne.
  - intros x Hx%Hact. rewrite list_to_set_cons, !elem_of_union in *.
    destruct Hx as [?|Hx%active_ids_insert]; [by left; right|].
    rewrite elem_of_union in Hx. destruct Hx; [by left; left|by right].
Qed.

Lemma mark_dispatched_total ready : ∀ i steps,
  (∀ k, new_id k ≠ "") → (∀ k, IsZero (clock k) = false) →
  ∃ steps', mark_dispatched new_id clock i ready steps = Ret steps'.
Proof.
  induction ready as [|s ready IH]; intros i steps Hid Hck; [by exists steps|].
  cbn [mark_dispatched].
  destruct (stampDispatch_total (new_id i) (clock i)
    (ss_set_Status StepStatusQueued (step_at steps (sd_ID s)))) as [st1 ->]; [done..|].
  cbn. by apply IH.
Qed.

Lemma list_to_set_size (l : list string) : (size (list_to_set l : gset string) ≤ length l)%nat.
Proof.
  induction l as [|x l IH]; [done|]. rewrite list_to_set_cons.
  rewrite size_union_alt, size_singleton. cbn. apply le_n_S.
  etrans; [|exact IH]. apply subseteq_size. set_solver.
Qed.

Lemma mark_dispatched_count ready i run steps' :
  NoDup (sd_ID <$> ready) → mark_dispatched new_id clock i ready (wr_Steps run) = Ret steps' →
  countActiveSteps (wr_set_Steps steps' run) ≤ countActiveSteps run + Z.of_nat (length ready).
Proof.
  intros Hnd (_ & _ & Hact)%mark_dispatched_spec; [|done].
  rewrite !countActiveSteps_size, wr_Steps_set_Steps.
  apply subseteq_size in Hact. rewrite size_union_alt in Hact.
  pose proof (list_to_set_size (sd_ID <$> ready)) as Hl. rewrite length_fmap in Hl.
  assert (size (active_ids (wr_Steps run) ∖ list_to_set (sd_ID <$> ready))
    ≤ size (active_ids (wr_Steps run)))%nat by (apply subseteq_size; set_solver).
  lia.
Qed.

(** ** The pass *)

(** A pass never takes a run over its step limit. *)
Lemma enqueueReady_cap wfDef run run' pend m :
  NoDup (ids_of (wd_Steps wfDef)) → step_limit wfDef = Some m → m ≤ int64_max →
  countActiveSteps run ≤ int64_max →
  enqueueReady new_id clock wfDef run = Ret (run', pend) →
  countActiveSteps run' ≤ Z.max m (countActiveSteps run).
Proof.
  intros Hnd Hm Hmax Hcnt. unfold enqueueReady.
  destruct (empty_str (wr_RunID run)) eqn:Hid; [done|]. cbn [panic_if mbind outcome_bind].
  apply empty_str_false in Hid.
  destruct (resolveReadySteps_spec wfDef run Hid) as (r & -> & Hrun & Hcase).
  cbn [mbind outcome_bind].
  assert (countActiveSteps (rr_run r) ≤ countActiveSteps run) as Hskip.
  { rewrite !countActiveSteps_size, Hrun, wr_Steps_set_Steps.
    apply inj_le, subseteq_size, active_ids_skips. }
  assert (0 ≤ countActiveSteps (rr_run r)) by (rewrite countActiveSteps_size; lia).
  assert (0 < m) as Hmpos.
  { unfold step_limit in Hm. repeat case_match; simplify_eq. by apply Z.ltb_lt. }
  assert (wrap64 (m - countActiveSteps (rr_run r)) = m - countActiveSteps (rr_run r)) as Hw.
  { apply wrap64_id. unfold in_int64, int64_min, int64_max in *. lia. }
  destruct (rr_finished r) eqn:Hfin.
  { intros [= <- _]. lia. }
  destruct (rr_ready r) as [|s ready] eqn:Hready; [intros [= <- _]; lia|].
  rewrite bind_ret_iff. intros (steps & Hsteps & [= <- _]).
  assert (rr_ready r = take (Z.to_nat (m - countActiveSteps (rr_run r))) (uncapped wfDef run)) as Hr.
  { naive_solver (congruence). }
  apply mark_dispatched_count in Hsteps.
  - assert (Z.of_nat (length (s :: ready)) ≤ m - countActiveSteps (rr_run r)) as Hlen.
    { assert (0 ≤ m - countActiveSteps (rr_run r)).
      { apply Z.nlt_ge. intros Hneg. rewrite Hready, Z2Nat.nonpos in Hr by lia. done. }
      rewrite <-Hready, Hr, length_take. lia. }
    lia.
  - rewrite <-Hready, Hr. rewrite fmap_take. eapply sublist_NoDup; [by apply (uncapped_nodup wfDef run)|apply sublist_take].
Qed.

Definition pass_ready (pend : pass_end) : list StepDef :=
  match pend with PassDispatch ready => ready | _ => [] end.

(** What a pass does: it dispatches only startable steps, all of them when
    there is no limit, and leaves every other step as the skips left it. *)
Definition pass_ok (wfDef : WorkflowDef) (run run' : WorkflowRun) (pend : pass_end) : Prop :=
  let after := with_skips wfDef (wr_Steps run) in
  (pend = PassComplete → all_resolved wfDef after) ∧
  (∀ k s, pass_ready pend !! k = Some s →
     startable wfDef after s ∧ new_id k ≠ "" ∧
     queued_by k s (step_at after (sd_ID s)) (step_at (wr_Steps run') (sd_ID s))) ∧
  (∀ id, id ∉ sd_ID <$> pass_ready pend → step_at (wr_Steps run') id = step_at after id) ∧
  (step_limit wfDef = None → pend ≠ PassComplete →
     ∀ s, startable wfDef after s → s ∈ pass_ready pend) ∧
  wr_Status run' = wr_Status run ∧ wr_RunID run' = wr_RunID run.

Lemma rr_ready_sublist wfDef run r :
  resolveReadySteps wfDef run = Ret r → rr_finished r = false →
  rr_ready r `sublist_of` uncapped wfDef run ∧
  (step_limit wfDef = None → rr_ready r = uncapped wfDef run).
Proof.
  intros Hr Hfin. destruct (empty_str (wr_RunID run)) eqn:Hid.
  { unfold resolveReadySteps in Hr. by rewrite Hid in Hr. }
  apply empty_str_false in Hid.
  destruct (resolveReadySteps_spec wfDef run Hid) as (r' & Hr' & _ & Hcase).
  rewrite Hr in Hr'. injection Hr' as <-.
  destruct Hcase as [(Hf & _)|[(m & Hf & _)|[(m & _ & Hl & _ & ->)|(_ & _ & ->)]]];
    [congruence|congruence| |done].
  split; [apply sublist_take|congruence].
Qed.

Lemma enqueueReady_ok wfDef run run' pend :
  NoDup (ids_of (wd_Steps wfDef)) →
  enqueueReady new_id clock wfDef run = Ret (run', pend) → pass_ok wfDef run run' pend.
Proof.
  intros Hnd. unfold enqueueReady.
  destruct (empty_str (wr_RunID run)) eqn:Hid; [done|]. cbn [panic_if mbind outcome_bind].
  apply empty_str_false in Hid.
  destruct (resolveReadySteps_spec wfDef run Hid) as (r & Hr & Hrun & Hcase).
  rewrite Hr. cbn [mbind outcome_bind].
  assert (wr_Steps (rr_run r) = with_skips wfDef (wr_Steps run)) as Hst.
  { rewrite Hrun. apply wr_Steps_set_Steps. }
  assert (wr_Status (rr_run r) = wr_Status run ∧ wr_RunID (rr_run r) = wr_RunID run) as [Hs1 Hs2].
  { rewrite Hrun. by destruct run. }
  destruct (rr_finished r) eqn:Hfin.
  { intros [= <- <-]. unfold pass_ok.
    destruct Hcase as [(_ & Hc & Hall)|[(m & _ & Hc & Hm & _)|[(m & [=] & _)|([=] & _)]]];
      rewrite Hc, Hst; cbn; split_and!; try done; congruence. }
  destruct (rr_ready_sublist _ _ _ Hr Hfin) as [Hsub Hall].
  assert (∀ s, s ∈ rr_ready r → startable wfDef (with_skips wfDef (wr_Steps run)) s) as Hstart.
  { intros s Hs. apply uncapped_startable. by eapply sublist_subseteq. }
  assert (∀ s, step_limit wfDef = None → startable wfDef (with_skips wfDef (wr_Steps run)) s →
    s ∈ rr_ready r) as Hcov.
  { intros s Hl Hs. rewrite Hall by done. by apply uncapped_startable. }
  destruct (rr_ready r) as [|s ready] eqn:Hready.
  { intros [= <- <-]. unfold pass_ok. rewrite Hst. cbn. split_and!; try done.
    intros Hl _ s Hs. by apply Hcov. }
  rewrite bind_ret_iff. intros (steps & Hm & [= <- <-]).
  apply mark_dispatched_spec in Hm as (Hin & Hout & _).
  2: { eapply sublist_NoDup; [by apply (uncapped_nodup wfDef run)|].
       by apply (fmap_sublist sd_ID). }
  rewrite Hst in *. unfold pass_ok. rewrite wr_Steps_set_Steps, wr_Status_set_Steps.
  cbn [pass_ready]. split_and!; [done| |done| |done|].
  - intros k s' Hk. destruct (Hin k s' Hk) as [? ?]. split_and!; [|done..].
    apply Hstart. by eapply list_elem_of_lookup_2.
  - intros Hl _ s' Hs'. by apply Hcov.
  - rewrite <-Hs2. by destruct (rr_run r).
Qed.

Lemma enqueueReady_nonempty wfDef run run' :
  enqueueReady new_id clock wfDef run ≠ Ret (run', PassDispatch []).
Proof.
  unfold enqueueReady. rewrite bind_unit_ret_iff, bind_ret_iff. intros (_ & r & _ & H).
  destruct (rr_finished r); [by destruct (rr_complete r)|].
  destruct (rr_ready r); [done|]. by apply bind_ret_iff in H as (? & _ & [=]).
Qed.

Lemma enqueueReady_total wfDef run :
  wr_RunID run ≠ "" → (∀ k, new_id k ≠ "") → (∀ k, IsZero (clock k) = false) →
  ∃ run' pend, enqueueReady new_id clock wfDef run = Ret (run', pend).
Proof.
  intros Hid Hnew Hck. unfold enqueueReady.
  rewrite (proj2 (empty_str_false _) Hid). cbn [panic_if mbind outcome_bind].
  destruct (resolveReadySteps_spec wfDef run Hid) as (r & -> & _). cbn [mbind outcome_bind].
  destruct (rr_finished r); [eauto|]. destruct (rr_ready r) as [|s ready]; [eauto|].
  destruct (mark_dispatched_total (s :: ready) 0 (wr_Steps (rr_run r)) Hnew Hck) as [steps ->].
  cbn. eauto.
Qed.

(** A pass that does not complete the run leaves it incomplete, and ends with
    a step in flight unless no step could be started. *)
Lemma resolveReadySteps_incomplete wfDef run r :
  resolveReadySteps wfDef run = Ret r → rr_complete r = false →
  ¬ all_resolved wfDef (wr_Steps run) →
  ¬ all_resolved wfDef (with_skips wfDef (wr_Steps run)).
Proof.
  unfold resolveReadySteps. rewrite bind_unit_ret_iff, completedSet_build, queuedSet_build.
  intros [_ H]. revert H. cbv zeta.
  fold (skip_ids wfDef (wr_Steps run)). fold (with_skips wfDef (wr_Steps run)).
  set (sk := ResolveSkipped _ _ _ _). intros H Hc Hn Hall.
  destruct (0 <? length sk)%nat eqn:Hsk.
  - rewrite completedSet_build, wr_Steps_set_Steps in H. apply IsComplete_resolved in Hall.
    rewrite Hall in H. cbn in H. injection H as <-. done.
  - apply Hn. apply Nat.ltb_ge in Hsk. rewrite <-(IsComplete_no_skips wfDef run); [done|].
    unfold skip_ids. fold sk. destruct sk; [done|]. cbn in Hsk. lia.
Qed.

Lemma resolveReadySteps_complete wfDef run r :
  resolveReadySteps wfDef run = Ret r → rr_complete r = true → rr_finished r = true.
Proof.
  unfold resolveReadySteps. rewrite bind_unit_ret_iff. intros [_ H]. revert H. cbv zeta.
  repeat case_match; intros [= <-]; done.
Qed.

Lemma enqueueReady_starts wfDef run run' pend :
  enqueueReady new_id clock wfDef run = Ret (run', pend) →
  pend ≠ PassComplete → (∀ m, step_limit wfDef = Some m → m ≤ int64_max) →
  (∃ s, startable wfDef (with_skips wfDef (wr_Steps run)) s) →
  (pend = PassNothing ∧ ∃ id, id ∈ active_ids (wr_Steps run)) ∨
  (∃ s ready, pend = PassDispatch (s :: ready)).
Proof.
  unfold enqueueReady. destruct (empty_str (wr_RunID run)) eqn:Hid; [done|].
  cbn [panic_if mbind outcome_bind]. apply empty_str_false in Hid.
  destruct (resolveReadySteps_spec wfDef run Hid) as (r & -> & Hrun & Hcase).
  cbn [mbind outcome_bind]. intros Hret Hpend Hmax [s Hs%uncapped_startable].
  assert (∀ m, step_limit wfDef = Some m → 0 < m) as Hpos.
  { intros m. unfold step_limit. repeat case_match; intros; simplify_eq; by apply Z.ltb_lt. }
  destruct Hcase as [(Hf & Hc & _)|[(m & Hf & Hc & Hm & Hav)|[(m & Hf & Hm & Hav & Hready)|
    (Hf & Hm & Hready)]]]; rewrite Hf in Hret.
  - rewrite Hc in Hret. congruence.
  - rewrite Hc in Hret. injection Hret as <- <-. left. split; [done|].
    destruct (set_choose_or_empty (active_ids (wr_Steps (rr_run r)))) as [[id Hin]|Hempty].
    + exists id. rewrite Hrun, wr_Steps_set_Steps in Hin.
      by apply (active_ids_skips _ (skip_ids wfDef (wr_Steps run))).
    + exfalso. rewrite countActiveSteps_size, (leibniz_equiv _ _ Hempty), size_empty in Hav.
      specialize (Hmax m Hm). specialize (Hpos m Hm).
      change (Z.of_nat 0) with 0 in Hav. rewrite Z.sub_0_r, wrap64_id in Hav; [lia|].
      unfold in_int64. apply andb_true_iff. rewrite !Z.leb_le.
      unfold int64_min, int64_max in *. lia.
  - right. rewrite Hready in Hret. destruct (uncapped wfDef run) as [|x l].
    { by apply elem_of_nil in Hs. }
    destruct (Z.to_nat _) eqn:Hn in Hret; [lia|]. cbn [take] in Hret.
    apply bind_ret_iff in Hret as (steps & _ & [= _ <-]). eauto.
  - right. rewrite Hready in Hret. destruct (uncapped wfDef run) as [|x l].
    { by apply elem_of_nil in Hs. }
    apply bind_ret_iff in Hret as (steps & _ & [= _ <-]). eauto.
Qed.
End Marking.
