(* ===== verification/Fence.v ===== *)
(** * Step lifecycle events and their fencing (protocol/protocol.go,
      internal/engine/step_event_fence.go, internal/engine/step_handlers.go)

    A worker's event names the dispatch it answers by iteration, attempt and
    nonce; the engine acts on it only while the step is still on that
    dispatch.  The handlers here are the parts of the source's handlers
    between the load of the run and its save: they return the run to save, or
    nothing when the event is ignored.  Logging and metrics are left out. *)

From S2P Require Import Prelude Json Types Config Condition Graph Resolve GoTime Advance Dispatch.
From stdpp Require Import relations pretty.
From Stdlib Require Import Ascii.

#[local] Open Scope Z_scope.

(** ** Events on the wire (protocol.go) *)

Module protocol.

Definition EventType : Type := string.
Definition EventStepQueued : EventType := "step.queued".
Definition EventStepStarted : EventType := "step.started".
Definition EventStepCompleted : EventType := "step.completed".
Definition EventStepFailed : EventType := "step.failed".
Definition EventStepContinue : EventType := "step.continue".
Definition EventStepInputQueued : EventType := "step.input.queued".

Record Event : Type := MkEvent {
  Type_ : EventType;
  RunID : string;
  StepID : string;
  Timestamp : Time;
  Payload : option raw;
  TraceParent : string;
  TraceState : string;
  WorkerID : string;
  AttemptNumber : Z;
  Iteration : option Z;
  DispatchNonce : string;
  JournalSeq : Z;
  InputRequestID : string;
}.

Definition HasIdentity (e : Event) : bool :=
  match Iteration e with Some _ => 0 <? AttemptNumber e | None => false end.

Definition SetIdentity (iteration attempt : Z) (nonce : string) (e : Event) : outcome Event :=
  panic_if ((iteration <? 0) || (attempt <? 1))
    "Event.SetIdentity: iteration must be >= 0 and attempt >= 1";;
  Ret {| Type_ := Type_ e; RunID := RunID e; StepID := StepID e; Timestamp := Timestamp e;
         Payload := Payload e; TraceParent := TraceParent e; TraceState := TraceState e;
         WorkerID := WorkerID e; AttemptNumber := attempt; Iteration := Some iteration;
         DispatchNonce := nonce; JournalSeq := JournalSeq e;
         InputRequestID := InputRequestID e |}.

Definition NewStepEvent (eventType : EventType) (runID stepID : string) (payload : option raw)
    (now : Time) : outcome Event :=
  panic_if (empty_str runID) "NewStepEvent: runID must not be empty";;
  panic_if (empty_str stepID) "NewStepEvent: stepID must not be empty";;
  Ret {| Type_ := eventType; RunID := runID; StepID := stepID; Timestamp := now;
         Payload := payload; TraceParent := ""; TraceState := ""; WorkerID := "";
         AttemptNumber := 0; Iteration := None; DispatchNonce := ""; JournalSeq := 0;
         InputRequestID := "" |}.

Definition NewWorkflowEvent (eventType : EventType) (runID : string) (payload : option raw)
    (now : Time) : outcome Event :=
  panic_if (empty_str runID) "NewWorkflowEvent: runID must not be empty";;
  panic_if (empty_str eventType) "NewWorkflowEvent: eventType must not be empty";;
  Ret {| Type_ := eventType; RunID := runID; StepID := ""; Timestamp := now;
         Payload := payload; TraceParent := ""; TraceState := ""; WorkerID := "";
         AttemptNumber := 0; Iteration := None; DispatchNonce := ""; JournalSeq := 0;
         InputRequestID := "" |}.

Definition NATSSubject (e : Event) : outcome string :=
  panic_if (empty_str (RunID e)) "Event.NATSSubject: RunID must not be empty";;
  panic_if (empty_str (Type_ e)) "Event.NATSSubject: Type must not be empty";;
  Ret ("history." +:+ RunID e).

Definition NATSMsgID (e : Event) : string :=
  if empty_str (StepID e) then RunID e +:+ "." +:+ Type_ e
  else
    let base := RunID e +:+ "." +:+ StepID e +:+ "." +:+ Type_ e in
    if bool_decide (Type_ e = EventStepInputQueued) && negb (empty_str (InputRequestID e))
    then base +:+ "." +:+ InputRequestID e
    else
      let base := if 0 <? AttemptNumber e then base +:+ "." +:+ pretty (AttemptNumber e)
                  else base in
      if HasIdentity e then base +:+ "." +:+ pretty (default 0 (Iteration e)) else base.

Definition NewInputQueuedEvent (runID stepID requestID : string) (now : Time) : outcome Event :=
  panic_if (empty_str requestID) "NewInputQueuedEvent: requestID must not be empty";;
  evt ← NewStepEvent EventStepInputQueued runID stepID None now;
  let evt := {| Type_ := Type_ evt; RunID := RunID evt; StepID := StepID evt;
    Timestamp := Timestamp evt; Payload := Payload evt; TraceParent := TraceParent evt;
    TraceState := TraceState evt; WorkerID := WorkerID evt;
    AttemptNumber := AttemptNumber evt; Iteration := Iteration evt;
    DispatchNonce := DispatchNonce evt; JournalSeq := JournalSeq evt;
    InputRequestID := requestID |} in
  panic_if (bool_decide (NATSMsgID evt =
      runID +:+ "." +:+ stepID +:+ "." +:+ EventStepInputQueued))
    "NewInputQueuedEvent: msg-id must carry the request id";;
  Ret evt.

End protocol.

(** ** The fence (step_event_fence.go) *)

Definition rejectNoIdentity : string := "no_identity".
Definition rejectNotRunning : string := "not_running".
Definition rejectIteration : string := "iteration".
Definition rejectAttempt : string := "attempt".
Definition rejectNonce : string := "nonce".

Definition fencedEventType (t : protocol.EventType) : bool :=
  bool_decide (t = protocol.EventStepContinue) ||
  bool_decide (t = protocol.EventStepCompleted) ||
  bool_decide (t = protocol.EventStepFailed).

Definition acceptStepEvent (state : StepState) (evt : protocol.Event) (legacyAccepted : bool)
    : outcome (bool * string) :=
  panic_if (empty_str (protocol.StepID evt)) "acceptStepEvent: StepID must not be empty";;
  panic_if (negb (fencedEventType (protocol.Type_ evt)))
    "acceptStepEvent: only continue, completed and failed are fenced";;
  Ret (
    if negb (protocol.HasIdentity evt) then
      if legacyAccepted then (true, "") else (false, rejectNoIdentity)
    else if negb (active_status (ss_Status state)) then (false, rejectNotRunning)
    else if negb (default 0 (protocol.Iteration evt) =? ss_Iterations state)
    then (false, rejectIteration)
    else if bool_decide (ss_Status state = StepStatusQueued) then
      if empty_str (protocol.DispatchNonce evt) ||
         negb (bool_decide (protocol.DispatchNonce evt = ss_DispatchNonce state))
      then (false, rejectNonce) else (true, "")
    else if negb (protocol.AttemptNumber evt =? ss_Attempts state) then (false, rejectAttempt)
    else if negb (empty_str (protocol.DispatchNonce evt)) &&
            negb (bool_decide (protocol.DispatchNonce evt = ss_DispatchNonce state))
    then (false, rejectNonce)
    else (true, "")).

Definition adoptDispatchAttempt (run : WorkflowRun) (evt : protocol.Event) : outcome WorkflowRun :=
  match wr_Steps run !! protocol.StepID evt with
  | None => Panic "adoptDispatchAttempt: step must exist in the run"
  | Some state =>
      panic_if (negb (bool_decide (ss_Status state = StepStatusQueued)))
        "adoptDispatchAttempt: step must be Queued";;
      Ret (if ss_Attempts state <? protocol.AttemptNumber evt
           then set_step (protocol.StepID evt)
                  (ss_set_Attempts (protocol.AttemptNumber evt) state) run
           else run)
  end.

(** The run with the worker's attempt adopted when the event may proceed. *)
Definition fenceStepEvent (legacyStepEvents : bool) (run : WorkflowRun) (evt : protocol.Event)
    : outcome (option WorkflowRun) :=
  panic_if (negb (bool_decide (wr_RunID run = protocol.RunID evt)))
    "fenceStepEvent: event and run must name the same run";;
  panic_if (empty_str (protocol.StepID evt)) "fenceStepEvent: StepID must not be empty";;
  if negb (fencedEventType (protocol.Type_ evt)) then Ret (Some run)
  else
    let state := step_at (wr_Steps run) (protocol.StepID evt) in
    '(accepted, _) ← acceptStepEvent state evt legacyStepEvents;
    if accepted : bool then
      if bool_decide (ss_Status state = StepStatusQueued) && (0 <? protocol.AttemptNumber evt)
      then run' ← adoptDispatchAttempt run evt; Ret (Some run')
      else Ret (Some run)
    else Ret None.

(** ** step.queued and step.started (step_handlers.go) *)

Definition lateEventForTerminalRun (run : WorkflowRun) (evt : protocol.Event) : outcome bool :=
  panic_if (negb (bool_decide (wr_RunID run = protocol.RunID evt)))
    "lateEventForTerminalRun: event and run must name the same run";;
  panic_if (empty_str (protocol.StepID evt))
    "lateEventForTerminalRun: only step events are guarded here";;
  Ret (IsTerminal (wr_Status run)).

Definition startedForOtherDispatch (state : StepState) (evt : protocol.Event) : outcome bool :=
  panic_if (negb (bool_decide (protocol.Type_ evt = protocol.EventStepStarted)))
    "startedForOtherDispatch: event must be a step.started";;
  panic_if (empty_str (protocol.StepID evt))
    "startedForOtherDispatch: StepID must not be empty";;
  Ret (negb (empty_str (protocol.DispatchNonce evt) || empty_str (ss_DispatchNonce state) ||
             bool_decide (protocol.DispatchNonce evt = ss_DispatchNonce state))).

Definition startAttemptClock (now : Time) (state : StepState) : outcome (StepState * Z) :=
  panic_if (IsZero now) "startAttemptClock: now must not be zero";;
  match ss_AttemptStartedAt state with
  | Some started => Ret (state, Z.max (Time_Sub now started) 0)
  | None =>
      match ss_RetryDispatchAt state with
      | Some at_ =>
          if now <? at_ then Ret (state, 0)
          else Ret (ss_set_RetryDispatchAt None (ss_set_AttemptStartedAt (Some now) state),
                    Z.max (Time_Sub now now) 0)
      | None => Ret (ss_set_RetryDispatchAt None (ss_set_AttemptStartedAt (Some now) state),
                     Z.max (Time_Sub now now) 0)
      end
  end.

(** The run to save and the time its attempt has been running. *)
Definition handleStepStarted (now : Time) (run : WorkflowRun) (evt : protocol.Event)
    : outcome (option (WorkflowRun * Z)) :=
  panic_if (empty_str (protocol.RunID evt)) "handleStepStarted: evt.RunID must not be empty";;
  panic_if (empty_str (protocol.StepID evt)) "handleStepStarted: evt.StepID must not be empty";;
  match wr_Steps run !! protocol.StepID evt with
  | None => Ret None
  | Some state =>
      if bool_decide (ss_Status state = StepStatusCompleted) ||
         bool_decide (ss_Status state = StepStatusFailed)
      then Ret None
      else
        late ← lateEventForTerminalRun run evt;
        if late : bool then Ret None else
        other ← startedForOtherDispatch state evt;
        if other : bool then Ret None else
        let attemptCountBefore := ss_Attempts state in
        let state := ss_set_DispatchUnsent false (ss_set_Status StepStatusRunning state) in
        let state := if ss_Attempts state <? protocol.AttemptNumber evt
                     then ss_set_Attempts (protocol.AttemptNumber evt) state else state in
        '(state, elapsed) ← startAttemptClock now state;
        panic_if (ss_Attempts state <? attemptCountBefore)
          "handleStepStarted: Attempts must be non-decreasing";;
        Ret (Some (set_step (protocol.StepID evt) state run, elapsed))
  end.

Definition handleStepQueued (run : WorkflowRun) (evt : protocol.Event)
    : outcome (option WorkflowRun) :=
  panic_if (empty_str (protocol.RunID evt)) "handleStepQueued: evt.RunID must not be empty";;
  panic_if (empty_str (protocol.StepID evt)) "handleStepQueued: evt.StepID must not be empty";;
  match wr_Steps run !! protocol.StepID evt with
  | None => Ret None
  | Some state =>
      if bool_decide (ss_Status state = StepStatusCompleted) ||
         bool_decide (ss_Status state = StepStatusFailed) ||
         bool_decide (ss_Status state = StepStatusRunning)
      then Ret None
      else
        late ← lateEventForTerminalRun run evt;
        if late : bool then Ret None else
        let attemptCountBefore := ss_Attempts state in
        let state := ss_set_Status StepStatusQueued state in
        let state := if ss_Attempts state <? protocol.AttemptNumber evt
                     then ss_set_Attempts (protocol.AttemptNumber evt) state else state in
        panic_if (ss_Attempts state <? attemptCountBefore)
          "handleStepQueued: Attempts must be non-decreasing";;
        Ret (Some (set_step (protocol.StepID evt) state run))
  end.

(** ** The acceptance rule *)

(** The event answers the dispatch the step is on. *)
Definition answers (state : StepState) (evt : protocol.Event) : Prop :=
  protocol.Iteration evt = Some (ss_Iterations state) ∧ 0 < protocol.AttemptNumber evt ∧
  ((ss_Status state = StepStatusQueued ∧ protocol.DispatchNonce evt ≠ "" ∧
    protocol.DispatchNonce evt = ss_DispatchNonce state) ∨
   (ss_Status state = StepStatusRunning ∧ protocol.AttemptNumber evt = ss_Attempts state ∧
    (protocol.DispatchNonce evt = "" ∨ protocol.DispatchNonce evt = ss_DispatchNonce state))).

Definition step_event (evt : protocol.Event) : Prop :=
  protocol.StepID evt ≠ "" ∧ fencedEventType (protocol.Type_ evt) = true.

Definition accepted (state : StepState) (evt : protocol.Event) (legacy : bool) : Prop :=
  ∃ reason, acceptStepEvent state evt legacy = Ret (true, reason).

Lemma HasIdentity_iff evt :
  protocol.HasIdentity evt = true ↔
  (∃ i, protocol.Iteration evt = Some i) ∧ 0 < protocol.AttemptNumber evt.
Proof.
  unfold protocol.HasIdentity. destruct (protocol.Iteration evt) as [i|].
  - rewrite Z.ltb_lt. naive_solver.
  - split; [done|]. by intros [[? ?] _].
Qed.

Lemma active_status_iff s :
  active_status s = true ↔ s = StepStatusQueued ∨ s = StepStatusRunning.
Proof. unfold active_status. by rewrite orb_true_iff, !bool_decide_eq_true. Qed.

(** The decision after the two assertions. *)
Definition accept_rule (state : StepState) (evt : protocol.Event) : bool :=
  active_status (ss_Status state) &&
  (default 0 (protocol.Iteration evt) =? ss_Iterations state) &&
  (if bool_decide (ss_Status state = StepStatusQueued)
   then negb (empty_str (protocol.DispatchNonce evt)) &&
        bool_decide (protocol.DispatchNonce evt = ss_DispatchNonce state)
   else (protocol.AttemptNumber evt =? ss_Attempts state) &&
        (empty_str (protocol.DispatchNonce evt) ||
         bool_decide (protocol.DispatchNonce evt = ss_DispatchNonce state))).

Lemma acceptStepEvent_rule state evt legacy :
  step_event evt →
  ∃ reason, acceptStepEvent state evt legacy =
    Ret (if protocol.HasIdentity evt then accept_rule state evt else legacy, reason).
Proof.
  intros [Hid Hty]. apply empty_str_false in Hid. unfold acceptStepEvent, accept_rule.
  rewrite Hid, Hty. cbn [panic_if mbind outcome_bind negb].
  destruct (protocol.HasIdentity evt); cbn [negb]; [|destruct legacy; eauto].
  destruct (active_status _); cbn [negb andb]; [|eauto].
  destruct (_ =? ss_Iterations state); cbn [negb andb]; [|eauto].
  destruct (bool_decide (ss_Status state = _)).
  - destruct (empty_str (protocol.DispatchNonce evt)),
      (bool_decide (protocol.DispatchNonce evt = _)); cbn; eauto.
  - destruct (_ =? ss_Attempts state); cbn [negb andb]; [|eauto].
    destruct (empty_str (protocol.DispatchNonce evt)),
      (bool_decide (protocol.DispatchNonce evt = _)); cbn; eauto.
Qed.

Lemma accept_rule_iff state evt :
  protocol.HasIdentity evt = true → accept_rule state evt = true ↔ answers state evt.
Proof.
  intros [[i Hi] Hpos]%HasIdentity_iff. unfold accept_rule, answers. rewrite Hi. cbn [default].
  rewrite !andb_true_iff, active_status_iff, Z.eqb_eq.
  destruct (bool_decide (ss_Status state = StepStatusQueued)) eqn:Hq.
  - apply bool_decide_eq_true in Hq. rewrite Hq, andb_true_iff, negb_true_iff, empty_str_false,
      bool_decide_eq_true. naive_solver.
  - apply bool_decide_eq_false in Hq.
    rewrite andb_true_iff, orb_true_iff, Z.eqb_eq, empty_str_true, bool_decide_eq_true.
    naive_solver.
Qed.

Lemma accepted_iff state evt legacy :
  step_event evt →
  accepted state evt legacy ↔
  (protocol.HasIdentity evt = false ∧ legacy = true) ∨ answers state evt.
Proof.
  intros Hev. unfold accepted. destruct (acceptStepEvent_rule state evt legacy Hev) as [reason Hr].
  assert (answers state evt → protocol.HasIdentity evt = true) as Hans.
  { intros (Hi & Hp & _). apply HasIdentity_iff. eauto. }
  destruct (protocol.HasIdentity evt) eqn:Hid.
  - rewrite <-accept_rule_iff in * by done. split.
    + intros [r' H]. rewrite Hr in H. right. congruence.
    + intros [[? _]|H]; [done|]. exists reason. by rewrite Hr, H.
  - split.
    + intros [r' H]. rewrite Hr in H. left. split; congruence.
    + intros [[_ ->]|H]; [by exists reason|]. by apply Hans in H.
Qed.

(** ** Exactly once *)

(** An event with identity is never accepted by a step that is neither queued
    nor running; in particular not by one that is already completed. *)
Lemma answers_active state evt : answers state evt → active_status (ss_Status state) = true.
Proof. rewrite active_status_iff. unfold answers. naive_solver. Qed.

Lemma answers_iteration state state' evt :
  answers state evt → ss_Iterations state' ≠ ss_Iterations state → ¬ answers state' evt.
Proof. unfold answers. intros (Hi & _) Hne (Hi' & _). congruence. Qed.

Lemma answers_nonce state state' evt :
  answers state evt → protocol.DispatchNonce evt ≠ "" →
  ss_DispatchNonce state' ≠ ss_DispatchNonce state → ¬ answers state' evt.
Proof.
  intros (_ & _ & [(_ & _ & H)|(_ & _ & [H|H])]) Hn Hne
    (_ & _ & [(_ & _ & H')|(_ & _ & [H'|H'])]); congruence.
Qed.

(** ** Attempts *)

Lemma fenceStepEvent_spec legacy run evt :
  wr_RunID run = protocol.RunID evt → step_event evt →
  let st := step_at (wr_Steps run) (protocol.StepID evt) in
  (¬ accepted st evt legacy ∧ fenceStepEvent legacy run evt = Ret None) ∨
  (accepted st evt legacy ∧ ∃ run', fenceStepEvent legacy run evt = Ret (Some run') ∧
    (run' = run ∨
     (ss_Status st = StepStatusQueued ∧ ss_Attempts st < protocol.AttemptNumber evt ∧
      run' = set_step (protocol.StepID evt) (ss_set_Attempts (protocol.AttemptNumber evt) st) run))).
Proof.
  intros Hrun Hev st. destruct (acceptStepEvent_rule st evt legacy Hev) as [reason Hr].
  destruct Hev as [Hid Hty]. apply empty_str_false in Hid.
  unfold fenceStepEvent. rewrite (bool_decide_eq_true_2 _ Hrun), Hid, Hty.
  cbn [negb panic_if mbind outcome_bind]. fold st. rewrite Hr. cbn [mbind outcome_bind].
  unfold accepted. rewrite Hr.
  destruct (if protocol.HasIdentity evt then accept_rule st evt else legacy); [right|left].
  2: { split; [|done]. by intros [? [=]]. }
  split; [by exists reason|]. destruct (bool_decide _) eqn:Hq; cbn [andb]; [|eauto].
  apply bool_decide_eq_true in Hq. destruct (0 <? _) eqn:Hpos; [|eauto].
  destruct (wr_Steps run !! protocol.StepID evt) as [state|] eqn:Hl.
  2: { exfalso. unfold st, step_at in Hq. by rewrite Hl in Hq. }
  assert (st = state) as Hst by (unfold st, step_at; by rewrite Hl).
  unfold adoptDispatchAttempt. rewrite Hl, <-Hst, (bool_decide_eq_true_2 _ Hq).
  cbn [negb panic_if mbind outcome_bind].
  destruct (ss_Attempts st <? protocol.AttemptNumber evt) eqn:Hlt; [|by exists run; split; [|left]].
  apply Z.ltb_lt in Hlt. eexists. split; [done|]. right. done.
Qed.

(** A run that is over is never changed by a late step event. *)
Lemma terminal_run_ignored now run evt :
  IsTerminal (wr_Status run) = true → wr_RunID run = protocol.RunID evt →
  protocol.RunID evt ≠ "" → protocol.StepID evt ≠ "" →
  handleStepQueued run evt = Ret None ∧ handleStepStarted now run evt = Ret None.
Proof.
  intros Hterm Hrun Hr%empty_str_false Hs%empty_str_false.
  assert (lateEventForTerminalRun run evt = Ret true) as Hlate.
  { unfold lateEventForTerminalRun. by rewrite (bool_decide_eq_true_2 _ Hrun), Hs, Hterm. }
  unfold handleStepQueued, handleStepStarted. rewrite Hr, Hs, Hlate.
  cbn [panic_if mbind outcome_bind].
  destruct (wr_Steps run !! protocol.StepID evt) as [st|]; [|done].
  by destruct (ss_Status st).
Qed.

Lemma startAttemptClock_attempts now st st' e :
  startAttemptClock now st = Ret (st', e) →
  ss_Attempts st' = ss_Attempts st ∧ ss_Status st' = ss_Status st ∧
  ss_DispatchNonce st' = ss_DispatchNonce st ∧ 0 ≤ e.
Proof.
  unfold startAttemptClock. destruct (IsZero now); [done|]. cbn [panic_if mbind outcome_bind].
  destruct st; cbn. repeat case_match; intros [= <- <-]; cbn; split_and!; try done; lia.
Qed.

(** What a started event does to its step when it is not ignored. *)
Lemma handleStepStarted_spec now run evt run' e :
  handleStepStarted now run evt = Ret (Some (run', e)) →
  let id := protocol.StepID evt in
  let st := step_at (wr_Steps run) id in let st' := step_at (wr_Steps run') id in
  ss_Status st' = StepStatusRunning ∧
  ss_Attempts st' = Z.max (ss_Attempts st) (protocol.AttemptNumber evt) ∧
  ss_DispatchNonce st' = ss_DispatchNonce st ∧
  ss_Status st ≠ StepStatusCompleted ∧ ss_Status st ≠ StepStatusFailed ∧
  IsTerminal (wr_Status run) = false ∧
  (protocol.DispatchNonce evt ≠ "" → ss_DispatchNonce st ≠ "" →
     protocol.DispatchNonce evt = ss_DispatchNonce st) ∧
  is_Some (wr_Steps run !! id) ∧
  wr_Steps run' = <[id := st']> (wr_Steps run) ∧ wr_Status run' = wr_Status run.
Proof.
  unfold handleStepStarted. rewrite !bind_unit_ret_iff. intros (_ & _ & H).
  destruct (wr_Steps run !! protocol.StepID evt) as [st|] eqn:Hl; [|done].
  unfold step_at. rewrite Hl. cbn [default from_option id].
  destruct (_ || _) eqn:Hterm; [done|].
  apply orb_false_iff in Hterm as [Hc%bool_decide_eq_false Hf%bool_decide_eq_false].
  apply bind_ret_iff in H as (late & Hlate & H).
  unfold lateEventForTerminalRun in Hlate. rewrite !bind_unit_ret_iff in Hlate.
  destruct Hlate as (_ & _ & [= Hlate]). destruct late; [done|].
  apply bind_ret_iff in H as (other & Hother & H).
  unfold startedForOtherDispatch in Hother. rewrite !bind_unit_ret_iff in Hother.
  destruct Hother as (_ & _ & [= Hother]). destruct other; [done|].
  apply negb_false_iff in Hother.
  apply bind_ret_iff in H as ([st1 el] & Hclock & H).
  rewrite bind_unit_ret_iff in H. destruct H as [_ [= <- <-]].
  apply startAttemptClock_attempts in Hclock as (Ha & Hs & Hn & _).
  unfold set_step. rewrite wr_Steps_set_Steps, lookup_insert_eq, wr_Status_set_Steps.
  cbn [default from_option id]. rewrite Ha, Hs, Hn.
  assert (protocol.DispatchNonce evt ≠ "" → ss_DispatchNonce st ≠ "" →
     protocol.DispatchNonce evt = ss_DispatchNonce st).
  { intros Hne1%empty_str_false Hne2%empty_str_false. rewrite Hne1, Hne2 in Hother. cbn in Hother.
    by apply bool_decide_eq_true in Hother. }
  destruct st; cbn in *.
  destruct (_ <? _) eqn:Hlt; cbn; [apply Z.ltb_lt in Hlt|apply Z.ltb_ge in Hlt];
    split_and!; try done; lia.
Qed.

Lemma handleStepStarted_output now run evt run' e :
  handleStepStarted now run evt = Ret (Some (run', e)) →
  ss_Output (step_at (wr_Steps run') (protocol.StepID evt)) =
    ss_Output (step_at (wr_Steps run) (protocol.StepID evt)) ∧
  wr_RunID run' = wr_RunID run.
Proof.
  unfold handleStepStarted. rewrite !bind_unit_ret_iff. intros (_ & _ & H).
  destruct (wr_Steps run !! protocol.StepID evt) as [st|] eqn:Hl; [|done].
  destruct (_ || _); [done|]. apply bind_ret_iff in H as ([] & _ & H); [done|].
  apply bind_ret_iff in H as ([] & _ & H); [done|].
  apply bind_ret_iff in H as ([st1 el] & Hclock & H).
  rewrite bind_unit_ret_iff in H. destruct H as [_ [= <- <-]].
  unfold set_step. rewrite wr_Steps_set_Steps, step_at_insert.
  split; [|by destruct run]. unfold step_at. rewrite Hl. cbn [default from_option id].
  revert Hclock. unfold startAttemptClock. rewrite bind_unit_ret_iff. intros [_ Hclock].
  destruct st; cbn in Hclock. repeat case_match; by injection Hclock as <- _.
Qed.

(** ** Message identifiers *)

Lemma split_at_char c s1 : ∀ s2 t1 t2,
  str_contains_char c s1 = false → str_contains_char c t1 = false →
  s1 +:+ String c s2 = t1 +:+ String c t2 → s1 = t1 ∧ s2 = t2.
Proof.
  induction s1 as [|d s1 IH]; intros s2 [|e t1] t2; cbn [str_contains_char];
    rewrite ?str_app_cons, ?str_app_nil_l.
  - by intros _ _ [= ->].
  - intros _ [Hc _]%orb_false_iff [= -> _]. by apply bool_decide_eq_false in Hc.
  - intros [Hc _]%orb_false_iff _ [= -> _]. by apply bool_decide_eq_false in Hc.
  - intros [_ H1]%orb_false_iff [_ H2]%orb_false_iff [= -> H].
    by destruct (IH _ _ _ H1 H2 H) as [-> ->].
Qed.

Lemma pretty_N_go_no_dot x : ∀ s,
  str_contains_char "."%char s = false →
  str_contains_char "."%char (pretty_N_go x s) = false.
Proof.
  induction (N.lt_wf_0 x) as [x _ IH]; intros s Hs.
  destruct (decide (0 < x)%N) as [Hx|Hx].
  2: { assert (x = 0%N) as -> by lia. by rewrite pretty_N_go_0. }
  rewrite pretty_N_go_step by done. apply IH; [by apply N.div_lt|].
  cbn [str_contains_char]. rewrite Hs. unfold pretty_N_char. by repeat case_match.
Qed.

Lemma pretty_Z_no_dot (z : Z) : str_contains_char "."%char (pretty z) = false.
Proof.
  assert (∀ p, str_contains_char "."%char (pretty (Npos p)) = false) as Hp.
  { intros p. unfold pretty, pretty_N. case_decide; [done|]. by apply pretty_N_go_no_dot. }
  destruct z as [|p|p]; [done|apply Hp|].
  unfold pretty, pretty_Z. rewrite str_app_cons, str_app_nil_l. cbn. apply Hp.
Qed.

Lemma str_app_cancel s : ∀ t1 t2, s +:+ t1 = s +:+ t2 → t1 = t2.
Proof.
  induction s as [|c s IH]; intros t1 t2; rewrite ?str_app_cons, ?str_app_nil_l; [done|].
  intros [= H]. by apply IH.
Qed.

Lemma NATSMsgID_identity e :
  protocol.HasIdentity e = true → protocol.StepID e ≠ "" →
  protocol.Type_ e ≠ protocol.EventStepInputQueued →
  protocol.NATSMsgID e =
    (protocol.RunID e +:+ "." +:+ protocol.StepID e +:+ "." +:+ protocol.Type_ e) +:+
    String "."%char (pretty (protocol.AttemptNumber e) +:+
      String "."%char (pretty (default 0 (protocol.Iteration e)))).
Proof.
  intros Hid Hs%empty_str_false Ht. unfold protocol.NATSMsgID.
  rewrite Hs, Hid, (bool_decide_eq_false_2 _ Ht). cbn [andb].
  apply HasIdentity_iff in Hid as [_ Hpos%Z.ltb_lt]. rewrite Hpos.
  cbv zeta. rewrite !str_app_assoc. by rewrite ?str_app_cons, ?str_app_nil_l.
Qed.

(** Two identified events of one run, step and type share a message ID only
    when they answer the same attempt and iteration. *)
Lemma NATSMsgID_inj e e' :
  protocol.HasIdentity e = true → protocol.HasIdentity e' = true →
  protocol.StepID e ≠ "" → protocol.Type_ e ≠ protocol.EventStepInputQueued →
  protocol.RunID e = protocol.RunID e' → protocol.StepID e = protocol.StepID e' →
  protocol.Type_ e = protocol.Type_ e' →
  protocol.NATSMsgID e = protocol.NATSMsgID e' ↔
  protocol.AttemptNumber e = protocol.AttemptNumber e' ∧
  protocol.Iteration e = protocol.Iteration e'.
Proof.
  intros H H' Hs Ht Hr Hst Hty. rewrite !NATSMsgID_identity by congruence.
  rewrite <-Hr, <-Hst, <-Hty. split.
  - intros [= Heq]%str_app_cancel.
    apply split_at_char in Heq as [Ha%(inj pretty) Hi%(inj pretty)]; [|apply pretty_Z_no_dot..].
    apply HasIdentity_iff in H as [[i H] _]. apply HasIdentity_iff in H' as [[i' H'] _].
    rewrite H, H' in *. cbn in Hi. by subst.
  - by intros [-> ->].
Qed.
