(* ===== verification/Recovery.v ===== *)
(** * Failure recovery and run termination (internal/engine/recovery_manager.go,
      orchestrator.go, run_event.go)

    On-failure handlers, saga compensation and the one function that ends a
    run.  The callbacks that save and publish are represented by what they are
    given: the run to save and the task to publish.  The text of the JSON input
    of a compensation ([buildCompensateInput]) is represented by the four
    values it is built from. *)

From S2P Require Import Prelude Json Types Config Condition Graph Resolve GoTime Advance Dispatch.
From stdpp Require Import relations.

#[local] Open Scope Z_scope.

(** ** Ending a run *)

Definition markTerminal (now : Time) (run : WorkflowRun) (status : RunStatus)
    : outcome WorkflowRun :=
  panic_if (empty_str (wr_RunID run)) "markTerminal: RunID must not be empty";;
  panic_if (negb (IsTerminal status)) "markTerminal: status must be terminal";;
  Ret (wr_set_CompletedAt (Some now) (wr_set_Status status run)).

(** [finalizeRun] up to its save: the run it saves, or nothing when the run
    is already over. *)
Definition finalizeRun (now : Time) (run : WorkflowRun) (status : RunStatus)
    : outcome (option WorkflowRun) :=
  if IsTerminal (wr_Status run) && bool_decide (is_Some (wr_CompletedAt run))
  then Ret None
  else run' ← markTerminal now run status; Ret (Some run').

Definition RootRunIDOf (run : WorkflowRun) : outcome string :=
  panic_if (empty_str (wr_RunID run)) "RootRunIDOf: RunID must not be empty";;
  Ret (if empty_str (wr_RootRunID run) then wr_RunID run else wr_RootRunID run).

Definition cancel_step (state : StepState) : StepState :=
  match ss_Status state with
  | StepStatusQueued | StepStatusRunning | StepStatusPending =>
      ss_set_Status StepStatusCancelled state
  | _ => state
  end.

Definition cancelUnfinishedSteps (run : WorkflowRun) : outcome WorkflowRun :=
  panic_if (empty_str (wr_RunID run)) "cancelUnfinishedSteps: RunID must not be empty";;
  Ret (wr_set_Steps (cancel_step <$> wr_Steps run) run).

(** ** Lookups *)

Definition findStepDef (wfDef : WorkflowDef) (stepID : string) : option StepDef :=
  find_first (λ s, bool_decide (sd_ID s = stepID)) (wd_Steps wfDef).

Definition findCompensateSource (wfDef : WorkflowDef) (compStepID : string) : string :=
  match find_first (λ s, bool_decide (sd_Compensate s = compStepID)) (wd_Steps wfDef) with
  | Some s => sd_ID s
  | None => ""
  end.

(** ** On-failure handlers *)

(** The dependents of a recovered step that are still pending are skipped. *)
Definition skip_dependent (failed : string) (steps : gmap string StepState) (s : StepDef)
    : gmap string StepState :=
  foldl (λ m dep,
    if bool_decide (dep = failed) &&
       bool_decide (ss_Status (step_at m (sd_ID s)) = StepStatusPending)
    then mark_status StepStatusSkipped m (sd_ID s) else m) steps (sd_DependsOn s).

Definition RecoverIfOnFailure (wfDef : WorkflowDef) (run : WorkflowRun) (completedStepID : string)
    : WorkflowRun :=
  match find_first (λ s, bool_decide (sd_OnFailure s = completedStepID) &&
          bool_decide (ss_Status (step_at (wr_Steps run) (sd_ID s)) = StepStatusFailed))
        (wd_Steps wfDef) with
  | None => run
  | Some stepDef =>
      let steps := mark_status StepStatusRecovered (wr_Steps run) (sd_ID stepDef) in
      wr_set_Steps (foldl (skip_dependent (sd_ID stepDef)) steps (wd_Steps wfDef)) run
  end.

(** ** Publications *)

Inductive task_input : Type :=
  | FailureInput (failed_step error : string)
  | CompensateInput (originalID : string) (originalOutput : option raw)
      (failedStepID failedError : string).

Record publication : Type := MkPub {
  pub_step : StepDef;
  pub_input : task_input;
  pub_nonce : string;
}.

Section Passes.
Context (new_id : nat → string) (clock : nat → Time).

Definition TryOnFailure (wfDef : WorkflowDef) (run : WorkflowRun) (stepDef : StepDef)
    (state : StepState) (stepID : string) : outcome (option (WorkflowRun * publication)) :=
  panic_if (empty_str (sd_OnFailure stepDef)) "TryOnFailure: OnFailure must not be empty";;
  panic_if (empty_str stepID) "TryOnFailure: stepID must not be empty";;
  match findStepDef wfDef (sd_OnFailure stepDef) with
  | None => Ret None
  | Some onFailStep =>
      let ofState := ss_set_Status StepStatusQueued
                       (step_at (wr_Steps run) (sd_ID onFailStep)) in
      ofState ← stampDispatch (new_id 0) (clock 0) ofState;
      Ret (Some (set_step (sd_ID onFailStep) ofState run,
                 MkPub onFailStep (FailureInput stepID (ss_Error state))
                   (ss_DispatchNonce ofState)))
  end.

(** ** Compensation *)

(** The loop of [StartCompensation] that queues the chain. *)
Fixpoint queue_chain (i : nat) (chain : list StepDef) (steps : gmap string StepState)
    : outcome (gmap string StepState) :=
  match chain with
  | [] => Ret steps
  | step :: chain' =>
      let state := ss_set_Status StepStatusQueued (step_at steps (sd_ID step)) in
      state ← stampDispatch (new_id i) (clock i) state;
      queue_chain (S i) chain' (<[sd_ID step := state]> steps)
  end.

Definition StartCompensation (wfDef : WorkflowDef) (run : WorkflowRun)
    (failedStepID failedError : string) : outcome (option (WorkflowRun * publication)) :=
  match ResolveCompensateChain wfDef (completedSet run) failedStepID with
  | [] => Ret None
  | first :: rest =>
      steps ← queue_chain 0 (first :: rest) (wr_Steps run);
      let originalID := findCompensateSource wfDef (sd_ID first) in
      Ret (Some (wr_set_Steps steps run,
                 MkPub first (CompensateInput originalID (ss_Output (step_at steps originalID))
                                failedStepID failedError)
                   (ss_DispatchNonce (step_at steps (sd_ID first)))))
  end.

(** The next step whose compensation is queued, in the order of the
    definition. *)
Definition next_compensation (wfDef : WorkflowDef) (steps : gmap string StepState)
    : option StepDef :=
  find_first (λ s, negb (empty_str (sd_Compensate s)) &&
      bool_decide (ss_Status (step_at steps (sd_Compensate s)) = StepStatusQueued))
    (wd_Steps wfDef).

Inductive comp_result : Type :=
  | NotCompensate
  | CompNext (run : WorkflowRun) (pub : publication)
  | CompDone (run : WorkflowRun).

Definition HandleCompensateCompleted (wfDef : WorkflowDef) (run : WorkflowRun) (stepID : string)
    : outcome comp_result :=
  if negb (is_set (wd_AuxSteps wfDef) stepID) then Ret NotCompensate
  else if empty_str (findCompensateSource wfDef stepID) then Ret NotCompensate
  else
    match next_compensation wfDef (wr_Steps run) with
    | Some step =>
        let compDef := default zero_StepDef (findStepDef wfDef (sd_Compensate step)) in
        let '(failedStepID, failedError) :=
          match find_first (λ s, bool_decide
                  (ss_Status (step_at (wr_Steps run) (sd_ID s)) = StepStatusFailed))
                (wd_Steps wfDef) with
          | Some s => (sd_ID s, ss_Error (step_at (wr_Steps run) (sd_ID s)))
          | None => ("", "")
          end in
        let input := CompensateInput (sd_ID step)
          (ss_Output (step_at (wr_Steps run) (sd_ID step))) failedStepID failedError in
        nextState ← stampDispatch (new_id 0) (clock 0)
                      (step_at (wr_Steps run) (sd_Compensate step));
        Ret (CompNext (set_step (sd_Compensate step) nextState run)
               (MkPub compDef input (ss_DispatchNonce nextState)))
    | None =>
        finalized ← finalizeRun (clock 0) run RunStatusCompensated;
        Ret (CompDone (default run finalized))
    end.

(** ** Permanent failures *)

Inductive recovery : Type :=
  | AuxFailed (run : WorkflowRun)
  | HandlerStarted (run : WorkflowRun) (pub : publication)
  | CompensationStarted (run : WorkflowRun) (pub : publication)
  | RunFailed (run : WorkflowRun).

(** [failAuxStep] and [failWorkflow] end the run; their dead letters and
    notifications are left out. *)
Definition HandlePermanentFailure (wfDef : WorkflowDef) (run : WorkflowRun) (stepDef : StepDef)
    (state : StepState) (stepID : string) : outcome recovery :=
  panic_if (empty_str stepID) "HandlePermanentFailure: stepID must not be empty";;
  panic_if (empty_str (wr_RunID run)) "HandlePermanentFailure: RunID must not be empty";;
  if is_set (wd_AuxSteps wfDef) stepID then
    panic_if (empty_str (sd_ID stepDef)) "failAuxStep: stepDef.ID must not be empty";;
    f ← finalizeRun (clock 0) run RunStatusCompensateFailed; Ret (AuxFailed (default run f))
  else
    handled ← (if negb (empty_str (sd_OnFailure stepDef))
               then TryOnFailure wfDef run stepDef state stepID else Ret None);
    match handled with
    | Some (run', pub) => Ret (HandlerStarted run' pub)
    | None =>
        started ← StartCompensation wfDef run stepID (ss_Error state);
        match started with
        | Some (run', pub) => Ret (CompensationStarted run' pub)
        | None =>
            f ← finalizeRun (clock 0) run RunStatusFailed; Ret (RunFailed (default run f))
        end
    end.
End Passes.

(** ** Ending a run, once *)

Lemma markTerminal_ret now run status run' :
  markTerminal now run status = Ret run' →
  IsTerminal status = true ∧ run' = wr_set_CompletedAt (Some now) (wr_set_Status status run).
Proof.
  unfold markTerminal. rewrite !bind_unit_ret_iff, !panic_if_ret_iff, negb_false_iff.
  intros (_ & ? & [= <-]). done.
Qed.

Definition finalized (run : WorkflowRun) : Prop :=
  IsTerminal (wr_Status run) = true ∧ is_Some (wr_CompletedAt run).

Lemma finalizeRun_finalized now run status : finalized run → finalizeRun now run status = Ret None.
Proof.
  intros [Ht Hc]. unfold finalizeRun. by rewrite Ht, (bool_decide_eq_true_2 _ Hc).
Qed.

(** A run that is finalized is over, and stays as it is. *)
Lemma finalizeRun_spec now run status run' :
  finalizeRun now run status = Ret (Some run') →
  ¬ finalized run ∧ finalized run' ∧ wr_Status run' = status ∧
  wr_CompletedAt run' = Some now ∧ wr_Steps run' = wr_Steps run ∧ wr_RunID run' = wr_RunID run.
Proof.
  unfold finalizeRun. destruct (_ && _) eqn:Hf; [done|].
  rewrite bind_ret_iff. intros (r & [Ht ->]%markTerminal_ret & [= <-]).
  split_and!.
  - intros [H1 H2]. by rewrite H1, (bool_decide_eq_true_2 _ H2) in Hf.
  - destruct run; cbn in *. split; cbn; eauto.
  - by destruct run.
  - by destruct run.
  - by destruct run.
  - by destruct run.
Qed.

Lemma finalizeRun_total now run status :
  wr_RunID run ≠ "" → IsTerminal status = true → ¬ finalized run →
  ∃ run', finalizeRun now run status = Ret (Some run').
Proof.
  intros Hid%empty_str_false Ht Hf. unfold finalizeRun, markTerminal. rewrite Hid, Ht.
  destruct (_ && _) eqn:Hb; [|cbn; eauto].
  apply andb_true_iff in Hb as [H1 H2%bool_decide_eq_true]. by destruct Hf.
Qed.

Lemma cancelUnfinishedSteps_spec run run' :
  cancelUnfinishedSteps run = Ret run' →
  ∀ id, wr_Steps run' !! id = cancel_step <$> (wr_Steps run !! id).
Proof.
  unfold cancelUnfinishedSteps. rewrite bind_unit_ret_iff. intros [_ [= <-]] id.
  by rewrite wr_Steps_set_Steps, lookup_fmap.
Qed.

(** ** Recovery *)

(** The pending steps that depend on [failed]. *)
Definition abandoned (wfDef : WorkflowDef) (failed : string) (steps : gmap string StepState)
    (id : string) : Prop :=
  ss_Status (step_at steps id) = StepStatusPending ∧
  ∃ s, s ∈ wd_Steps wfDef ∧ sd_ID s = id ∧ failed ∈ sd_DependsOn s.

Lemma skip_dependent_at failed steps s id :
  step_at (skip_dependent failed steps s) id =
  if decide (sd_ID s = id ∧ failed ∈ sd_DependsOn s ∧
             ss_Status (step_at steps id) = StepStatusPending)
  then ss_set_Status StepStatusSkipped (step_at steps id) else step_at steps id.
Proof.
  unfold skip_dependent. generalize (sd_DependsOn s) as deps. intros deps. revert steps.
  induction deps as [|d deps IH]; intros steps; cbn [foldl].
  { case_decide as Hd; [|done]. by destruct Hd as (_ & ?%elem_of_nil & _). }
  rewrite IH. destruct (bool_decide (d = failed)) eqn:Hb; cbn [andb].
  - apply bool_decide_eq_true in Hb as ->. destruct (bool_decide _) eqn:Hp.
    + apply bool_decide_eq_true in Hp. unfold mark_status.
      destruct (decide (sd_ID s = id)) as [Heq|Hne].
      * rewrite Heq in *. rewrite step_at_insert, ss_Status_set.
        rewrite decide_False by naive_solver. rewrite decide_True; [done|].
        split_and!; [done|left|done].
      * rewrite step_at_insert_ne by done. by rewrite !decide_False by naive_solver.
    + apply bool_decide_eq_false in Hp.
      destruct (decide (sd_ID s = id)) as [Heq|Hne]; [|by rewrite !decide_False by naive_solver].
      rewrite Heq in *. by rewrite !decide_False by naive_solver.
  - apply bool_decide_eq_false in Hb.
    destruct (decide (_ ∧ failed ∈ deps ∧ _)) as [Hd|Hd].
    + rewrite decide_True; [done|]. rewrite elem_of_cons. naive_solver.
    + rewrite decide_False; [done|]. rewrite elem_of_cons. naive_solver.
Qed.

Lemma skip_dependents_at failed l : ∀ steps id,
  step_at (foldl (skip_dependent failed) steps l) id =
  if decide (ss_Status (step_at steps id) = StepStatusPending ∧
             Exists (λ s, sd_ID s = id ∧ failed ∈ sd_DependsOn s) l)
  then ss_set_Status StepStatusSkipped (step_at steps id) else step_at steps id.
Proof.
  induction l as [|s l IH]; intros steps id; cbn [foldl].
  { rewrite decide_False; [done|]. intros [_ H]. by apply Exists_nil in H. }
  rewrite IH, skip_dependent_at.
  destruct (decide (sd_ID s = id ∧ _)) as [(H1 & H2 & H3)|Hn].
  - rewrite ss_Status_set. rewrite decide_False by naive_solver. rewrite decide_True; [done|].
    split; [done|]. by apply Exists_cons_hd.
  - destruct (decide (_ ∧ Exists _ l)) as [[H1 H2]|Hn2].
    + rewrite decide_True; [done|]. split; [done|]. by apply Exists_cons_tl.
    + rewrite decide_False; [done|]. rewrite Exists_cons. naive_solver.
Qed.

Lemma abandoned_Exists wfDef failed steps id :
  (ss_Status (step_at steps id) = StepStatusPending ∧
   Exists (λ s, sd_ID s = id ∧ failed ∈ sd_DependsOn s) (wd_Steps wfDef)) ↔
  abandoned wfDef failed steps id.
Proof. unfold abandoned. rewrite Exists_exists. naive_solver. Qed.

(** The handler of a failed step completed: the step counts as recovered, its
    waiting dependents are skipped, and nothing else changes. *)
Lemma RecoverIfOnFailure_spec wfDef run handler :
  (RecoverIfOnFailure wfDef run handler = run ∧
   ∀ s, s ∈ wd_Steps wfDef → sd_OnFailure s = handler →
     ss_Status (step_at (wr_Steps run) (sd_ID s)) ≠ StepStatusFailed) ∨
  (∃ f, f ∈ wd_Steps wfDef ∧ sd_OnFailure f = handler ∧
   ss_Status (step_at (wr_Steps run) (sd_ID f)) = StepStatusFailed ∧
   ∀ id, let st := step_at (wr_Steps run) id in
     let st' := step_at (wr_Steps (RecoverIfOnFailure wfDef run handler)) id in
     (id = sd_ID f → st' = ss_set_Status StepStatusRecovered st) ∧
     (abandoned wfDef (sd_ID f) (wr_Steps run) id → st' = ss_set_Status StepStatusSkipped st) ∧
     (id ≠ sd_ID f → ¬ abandoned wfDef (sd_ID f) (wr_Steps run) id → st' = st)).
Proof.
  unfold RecoverIfOnFailure. destruct (find_first _ _) as [f|] eqn:Hf; [right|left].
  - apply find_first_Some in Hf as (Hl & [Hp1 Hp2]%andb_true_iff).
    apply bool_decide_eq_true in Hp1, Hp2.
    exists f. split_and!; [done..|].
    intros id. cbv zeta. rewrite wr_Steps_set_Steps, skip_dependents_at. unfold mark_status.
    destruct (decide (sd_ID f = id)) as [Heq|Hne].
    + rewrite Heq in *. rewrite step_at_insert, ss_Status_set, decide_False by naive_solver.
      split_and!; [done| |done]. intros [H _]. congruence.
    + rewrite !step_at_insert_ne by done. split_and!; [congruence| |].
      * intros H%abandoned_Exists. by rewrite decide_True.
      * intros _ H. rewrite decide_False; [done|]. by rewrite abandoned_Exists.
  - split; [done|]. intros s Hs Ho Hst.
    pose proof (proj1 (find_first_None _ _) Hf s Hs) as Hnone. cbn in Hnone.
    by rewrite (bool_decide_eq_true_2 _ Ho), (bool_decide_eq_true_2 _ Hst) in Hnone.
Qed.

(** ** Starting a compensation *)

Section Chain.
Context (new_id : nat → string) (clock : nat → Time).

Lemma queue_chain_spec chain : ∀ i steps steps',
  queue_chain new_id clock i chain steps = Ret steps' →
  ∀ id, (id ∈ sd_ID <$> chain → ss_Status (step_at steps' id) = StepStatusQueued) ∧
        (id ∉ sd_ID <$> chain → step_at steps' id = step_at steps id) ∧
        ss_Output (step_at steps' id) = ss_Output (step_at steps id).
Proof.
  induction chain as [|s chain IH]; intros i steps steps'; cbn [queue_chain].
  { intros [= <-] id. split_and!; [by intros ?%elem_of_nil|done..]. }
  rewrite bind_ret_iff. intros (st1 & (_ & _ & Hd & _)%stampDispatch_ret & Hrest) id.
  destruct (IH _ _ _ Hrest id) as (Hin & Hout & Ho). clear IH Hrest.
  rewrite fmap_cons, elem_of_cons. unfold dispatched in Hd. rewrite ss_Status_set in Hd.
  destruct Hd as (Hs & _ & _ & _ & _ & _ & _ & _ & Hop).
  destruct (decide (sd_ID s = id)) as [Heq|Hne].
  - rewrite Heq in *. rewrite step_at_insert in *.
    assert (ss_Output (step_at steps' id) = ss_Output (step_at steps id)) as Ho'.
    { rewrite Ho, Hop. by destruct (step_at steps id). }
    split_and!; [|naive_solver|done]. intros _.
    destruct (decide (id ∈ sd_ID <$> chain)); [by apply Hin|]. by rewrite Hout.
  - rewrite step_at_insert_ne in * by done. split_and!; [|naive_solver|done].
    intros [|]; [congruence|auto].
Qed.

Lemma queue_chain_total chain : ∀ i steps,
  (∀ k, new_id k ≠ "") → (∀ k, IsZero (clock k) = false) →
  ∃ steps', queue_chain new_id clock i chain steps = Ret steps'.
Proof.
  induction chain as [|s chain IH]; intros i steps Hid Hck; [by exists steps|].
  cbn [queue_chain].
  destruct (stampDispatch_total (new_id i) (clock i)
    (ss_set_Status StepStatusQueued (step_at steps (sd_ID s)))) as [st1 ->]; [done..|].
  cbn. by apply IH.
Qed.
End Chain.
