(* ===== verification/Handlers.v ===== *)
(** * Handlers of step results (internal/engine/step_handlers.go,
      retry_handlers.go, orchestrator.go)

    [handleStepCompleted] and the permanent branch of [handleStepFailed] as
    functions of the loaded run, composed of the fence, the pure core, the
    recovery manager and the dispatch pass in the order the source calls them.
    A result says what the handler hands on: a run to complete, the run it saves
    before the dispatch pass, a compensation, a planner's or a map instance's
    completion.  Slot releases, sticky bindings and metrics are outside the
    model. *)

From S2P Require Import Prelude Json Types Config Condition Graph Resolve GoTime Advance Dispatch Fence Recovery.
From stdpp Require Import relations.

#[local] Open Scope Z_scope.

Definition isMapInstanceID (stepID : string) : bool :=
  match String.index 0 ".map." stepID with Some _ => true | None => false end.

(** [saveSnapshot] before the store: the terminal steps are stamped. *)
Definition saveSnapshot (now : Time) (run : WorkflowRun) : outcome WorkflowRun :=
  panic_if (empty_str (wr_RunID run)) "saveSnapshot: RunID must not be empty";;
  steps ← stampTerminalSteps (wr_Steps run) now;
  Ret (wr_set_Steps steps run).

Inductive completed_result : Type :=
  | CompletedIgnored
  | CompletedMapInstance
  | CompletedPlanner (step : StepDef) (run : WorkflowRun)
  | CompletedCompensation (res : comp_result)
  | CompletedRun (run : WorkflowRun)
  | CompletedSave (saved : WorkflowRun).

Definition no_failure : FailPayload := MkFailPayload "" (FailureTypeOther "").

Section Handlers.
Context (new_id : nat → string) (clock : nat → Time) (legacyStepEvents : bool).

(** From the accepted event to the end of the handler. *)
Definition apply_completed (wfDef : WorkflowDef) (run : WorkflowRun) (evt : protocol.Event)
    : outcome completed_result :=
  '(run, _) ← Advance wfDef run
    (MkEvent EventStepCompleted (protocol.StepID evt) (protocol.Payload evt) no_failure);
  let run := RecoverIfOnFailure wfDef run (protocol.StepID evt) in
  res ← HandleCompensateCompleted new_id clock wfDef run (protocol.StepID evt);
  match res with
  | NotCompensate =>
      if IsComplete wfDef (completedSet run) then Ret (CompletedRun run)
      else
        saved ← saveSnapshot (clock 0) run; Ret (CompletedSave saved)
  | res => Ret (CompletedCompensation res)
  end.

Definition handleStepCompleted (wfDef : WorkflowDef) (run : WorkflowRun) (evt : protocol.Event)
    : outcome completed_result :=
  panic_if (empty_str (protocol.RunID evt)) "handleStepCompleted: RunID must not be empty";;
  panic_if (empty_str (protocol.StepID evt)) "handleStepCompleted: StepID must not be empty";;
  late ← lateEventForTerminalRun run evt;
  if late : bool then Ret CompletedIgnored
  else if isMapInstanceID (protocol.StepID evt) then Ret CompletedMapInstance
  else
    let found := findStepDef wfDef (protocol.StepID evt) in
    let of_type t := match found with
                     | Some stepDef => bool_decide (sd_Type stepDef = t)
                     | None => false
                     end in
    fenced ← (if of_type StepTypeRespond then Ret (Some run)
              else fenceStepEvent legacyStepEvents run evt);
    match fenced with
    | None => Ret CompletedIgnored
    | Some run =>
        if of_type StepTypePlanner
        then Ret (CompletedPlanner (default zero_StepDef found) run)
        else apply_completed wfDef run evt
    end.

(** The non-retriable branch of [handleStepFailed]: the run's own status is
    kept for the recovery manager to decide. *)
Definition dispatchNonRetriableFailure (wfDef : WorkflowDef) (run : WorkflowRun)
    (stepDef : StepDef) (evt : protocol.Event) (err : string) : outcome recovery :=
  panic_if (empty_str (protocol.RunID evt))
    "dispatchNonRetriableFailure: RunID must not be empty";;
  panic_if (empty_str (protocol.StepID evt))
    "dispatchNonRetriableFailure: StepID must not be empty";;
  let prevStatus := wr_Status run in
  '(run, _) ← Advance wfDef run
    (MkEvent EventStepFailed (protocol.StepID evt) None
       (MkFailPayload err FailureTypeNonRetriable));
  let run := wr_set_Status prevStatus run in
  let state := step_at (wr_Steps run) (protocol.StepID evt) in
  HandlePermanentFailure new_id clock wfDef run stepDef state (protocol.StepID evt).
End Handlers.
