(* ===== verification/Script.v ===== *)
(** * What a handler writes

    A handler works on the run it loaded and writes snapshots: each save ends
    the handler when it loses to a rival engine, and an amendment (marking steps
    sent, recording a release debt) is saved again on the reloaded run instead.
    A [script] lists the loads and writes in order; what follows a load or an
    amendment depends on the run found or saved.  The store that carries a script out is in
    [Cluster]; here are the scripts every handler shares: ending a run
    (run_event.go [finalizeRun], [finalizeWithReleaseDebt], [saveReleaseDebt])
    and completing it (orchestrator.go [completeWorkflow], output_schema.go). *)

From S2P Require Import Prelude Float64 Json Types Graph Resolve GoTime Schema Advance Dispatch Recovery Handlers.
From stdpp Require Import relations.

#[local] Open Scope Z_scope.

Inductive script : Type :=
  | Finish (o : outcome unit)
  | SaveThen (run : WorkflowRun) (k : script)
  | AmendThen (attempts : nat) (amend : WorkflowRun → outcome (option WorkflowRun))
      (k : WorkflowRun → script)
  | LoadThen (k : outcome WorkflowRun → script).

(** A computation before the writes: its error is the handler's. *)
Definition attempt {A} (o : outcome A) (k : A → script) : script :=
  match o with
  | Ret a => k a
  | Err e => Finish (Err e)
  | Panic m => Finish (Panic m)
  end.

(** [saveSnapshot]: the stamped run is what is written. *)
Definition persist (now : Time) (run : WorkflowRun) (k : WorkflowRun → script) : script :=
  attempt (saveSnapshot now run) (λ saved, SaveThen saved (k saved)).

(** ** Consecutive writes

    [follows s prev a b]: carrying out [s] from the version [prev], if one is
    held, some version [b] is written over the version [a]. *)
Inductive follows : script → option WorkflowRun → WorkflowRun → WorkflowRun → Prop :=
  | follows_save prev run k : follows (SaveThen run k) (Some prev) prev run
  | follows_saved prev run k a b :
      follows k (Some run) a b → follows (SaveThen run k) prev a b
  | follows_amend prev n amend k cur cur' :
      amend cur = Ret (Some cur') → follows (AmendThen (S n) amend k) prev cur cur'
  | follows_amended prev n amend k cur a b :
      follows (k cur) (Some cur) a b → follows (AmendThen n amend k) prev a b
  | follows_load prev k cur a b :
      follows (k (Ret cur)) (Some cur) a b → follows (LoadThen k) prev a b
  | follows_unloaded prev k o a b : follows (k o) None a b → follows (LoadThen k) prev a b.

(** Every write of the script satisfies [Inv], the amendments whenever the run
    they find does. *)
Fixpoint writes (Inv : WorkflowRun → Prop) (s : script) : Prop :=
  match s with
  | Finish _ => True
  | SaveThen run k => Inv run ∧ writes Inv k
  | AmendThen _ amend k =>
      (∀ run run', Inv run → amend run = Ret (Some run') → Inv run') ∧
      ∀ run, Inv run → writes Inv (k run)
  | LoadThen k => ∀ o, (∀ run, o = Ret run → Inv run) → writes Inv (k o)
  end.

(** ** The script alone: no rival, no failed call *)

(** The last version written, from [run], and how the handler ended. *)
Fixpoint alone (s : script) (run : WorkflowRun) : WorkflowRun * outcome unit :=
  match s with
  | Finish o => (run, o)
  | SaveThen run' k => alone k run'
  | AmendThen O _ _ => (run, Panic "no attempt")
  | AmendThen (S _) amend k =>
      match amend run with
      | Ret (Some run') => alone (k run') run'
      | Ret None => alone (k run) run
      | Err e => (run, Err e)
      | Panic m => (run, Panic m)
      end
  | LoadThen k => alone (k (Ret run)) run
  end.

(** Some version the script leaves stored when it stops early or ends. *)
Inductive reaches : script → WorkflowRun → WorkflowRun → Prop :=
  | reaches_here s run : reaches s run run
  | reaches_save run run' k r : reaches k run' r → reaches (SaveThen run' k) run r
  | reaches_amend n amend k run run' r :
      amend run = Ret (Some run') → reaches (k run') run' r →
      reaches (AmendThen (S n) amend k) run r
  | reaches_unamended n amend k run r :
      amend run = Ret None → reaches (k run) run r → reaches (AmendThen (S n) amend k) run r
  | reaches_load k run r : reaches (k (Ret run)) run r → reaches (LoadThen k) run r.

(** The second script once the first has ended well. *)
Fixpoint and_then (s : script) (next : script) : script :=
  match s with
  | Finish (Ret _) => next
  | Finish o => Finish o
  | SaveThen run k => SaveThen run (and_then k next)
  | AmendThen n amend k => AmendThen n amend (λ run, and_then (k run) next)
  | LoadThen k => LoadThen (λ o, and_then (k o) next)
  end.

(** ** Ending a run *)

Definition releaseDebtSaveAttemptsMax : nat := 3.

(** The amendment of [saveReleaseDebt]. *)
Definition owe_release (now : Time) (run : WorkflowRun) : outcome (option WorkflowRun) :=
  if negb (IsTerminal (wr_Status run))
  then Err (Errorf "run %q lost its terminal status" [AStr (wr_RunID run)])
  else saved ← saveSnapshot now (wr_set_ReleasePending true run); Ret (Some saved).

(** What the engine cannot compute about an end: the clock, whether the
    admission was released, and the result of the news to the history stream
    and the parent run. *)
Record ending : Type := MkEnding {
  en_now : Time;
  en_released : bool;
  en_announced : outcome unit;
}.

(** The save of an ended run, the release of its admission and the news. *)
Definition ended (en : ending) (run : WorkflowRun) : script :=
  persist (en_now en) run (λ run,
    if en_released en then Finish (en_announced en)
    else AmendThen releaseDebtSaveAttemptsMax (owe_release (en_now en))
           (λ _, Finish (en_announced en))).

Definition finalize (en : ending) (run : WorkflowRun) (status : RunStatus) : script :=
  attempt (finalizeRun (en_now en) run status) (λ fin,
    match fin with
    | None => Finish (en_announced en)
    | Some run => ended en run
    end).

(** [failWorkflow], up to dead letters and notifications. *)
Definition failWorkflow (en : ending) (run : WorkflowRun) : script :=
  finalize en run RunStatusFailed.

(** ** Completing a run *)

Section Complete.
(** The text of an error, and the definition the latest pointer names, if it
    can be read. *)
Context (err_text : error → string) (latest : option WorkflowDef).

Definition outputSchemaViolation (run : WorkflowRun) : outcome (option (string * error)) :=
  panic_if (empty_str (wr_RunID run)) "outputSchemaViolation: RunID must not be empty";;
  panic_if (empty_str (wr_WorkflowID run)) "outputSchemaViolation: WorkflowID must not be empty";;
  match latest with
  | None => Ret None
  | Some def =>
      match ValidateRunOutput def (wr_Steps run) with
      | (_, Ret _) => Ret None
      | (stepID, Err e) => Ret (Some (stepID, e))
      | (_, Panic m) => Panic m
      end
  end.

Definition failOnOutputSchema (en : ending) (run : WorkflowRun) (stepID : string)
    (violation : error) : script :=
  attempt (panic_if (empty_str stepID) "failOnOutputSchema: stepID must not be empty") (λ _,
    let state := ss_set_Status StepStatusFailed (step_at (wr_Steps run) stepID) in
    let state := ss_set_Error (err_text
      (Errorf "output schema violation in step %q: %v" [AStr stepID; AErr violation])) state in
    failWorkflow en (set_step stepID state run)).

Definition completeWorkflow (en : ending) (run : WorkflowRun) : script :=
  attempt (panic_if (empty_str (wr_RunID run)) "completeWorkflow: RunID must not be empty") (λ _,
    attempt (outputSchemaViolation run) (λ v,
      match v with
      | Some (stepID, e) => failOnOutputSchema en run stepID e
      | None => finalize en run RunStatusCompleted
      end)).
End Complete.

(** ** Rules for [writes] *)

Lemma writes_attempt {A} Inv (o : outcome A) k :
  (∀ a, o = Ret a → writes Inv (k a)) → writes Inv (attempt o k).
Proof. destruct o; simpl; auto. Qed.

Lemma writes_persist Inv now run k :
  (∀ saved, saveSnapshot now run = Ret saved → Inv saved ∧ writes Inv (k saved)) →
  writes Inv (persist now run k).
Proof. intros H. apply writes_attempt. intros saved Hs. by apply H. Qed.

Lemma writes_load Inv k :
  (∀ run, Inv run → writes Inv (k run)) → writes Inv (LoadThen (λ o, attempt o k)).
Proof. intros H o Ho. apply writes_attempt. intros run ->. by apply H, Ho. Qed.

Lemma writes_ended Inv en run :
  (∀ saved, saveSnapshot (en_now en) run = Ret saved → Inv saved) →
  (∀ r r', Inv r → owe_release (en_now en) r = Ret (Some r') → Inv r') →
  writes Inv (ended en run).
Proof.
  intros Hs Howe. apply writes_persist. intros saved Hsv. split; [by apply Hs|].
  destruct (en_released en); simpl; auto.
Qed.

Lemma writes_finalize Inv en run status :
  (∀ fin saved, finalizeRun (en_now en) run status = Ret (Some fin) →
     saveSnapshot (en_now en) fin = Ret saved → Inv saved) →
  (∀ r r', Inv r → owe_release (en_now en) r = Ret (Some r') → Inv r') →
  writes Inv (finalize en run status).
Proof.
  intros Hfin Howe. apply writes_attempt. intros [fin|] Hf; [|done].
  apply writes_ended; [|done]. intros saved. by apply Hfin.
Qed.

Lemma writes_and_then Inv s next :
  writes Inv s → writes Inv next → writes Inv (and_then s next).
Proof.
  intros Hs Hn. induction s as [o|run k IH|n f k IH|k IH]; simpl in *.
  - by destruct o.
  - naive_solver.
  - destruct Hs as [H1 H2]. split; auto.
  - auto.
Qed.

Lemma reaches_writes Inv s run r : writes Inv s → Inv run → reaches s run r → Inv r.
Proof.
  intros Hw Hr Hreach. induction Hreach as [| | | |]; simpl in Hw; [done| | | |].
  - destruct Hw. auto.
  - destruct Hw as [H1 H2]. eauto.
  - destruct Hw as [H1 H2]. eauto.
  - apply IHHreach; [|done]. apply Hw. by intros ? [= <-].
Qed.

Lemma alone_reaches s : ∀ run, reaches s run (alone s run).1.
Proof.
  induction s as [o|run' k IH|n amend k IH|k IH]; intros run; simpl.
  - constructor.
  - by apply reaches_save.
  - destruct n as [|n]; [constructor|].
    destruct (amend run) as [[r|]|e|m] eqn:Ha; simpl; [by eapply reaches_amend
      |by eapply reaches_unamended|constructor|constructor].
  - by apply reaches_load.
Qed.
