(* ===== verification/Engine.v ===== *)
(** * Runs under the engine: a transition system

    The states are the persisted runs of one workflow definition; the steps
    are three handlers (a step's completion, its started report, its final
    failure) applied to any such event, in any order, each run to its end: the
    save of a completion and the dispatch pass after it are one step.  The
    invariant shows that these handlers start a step only after its
    dependencies, keep the step limit, and never leave an unfinished run without
    work in flight.  Every other event, and an engine that stops inside a
    handler, are in [EventSafety].

    The definitions considered have no on-failure handlers or compensations
    ([plain]) and no respond steps; events carry their dispatch identity (legacy
    events are refused) and lifecycle reports come from dispatched steps. *)

From S2P Require Import Prelude Json Types Config Condition Graph Resolve GoTime Advance Dispatch Fence Recovery Handlers Validate ValidateSpec.
From stdpp Require Import relations.

#[local] Open Scope Z_scope.

(** Definitions of the shape described above. *)
Record plain (def : WorkflowDef) : Prop := {
  pl_resolvable : resolvable def;
  pl_aux : ∀ id, is_set (wd_AuxSteps def) id = false;
  pl_handlers : ∀ s, s ∈ wd_Steps def → sd_OnFailure s = "" ∧ sd_Compensate s = "";
}.

(** Without respond steps, every completion passes the fence. *)
Definition no_respond (def : WorkflowDef) : Prop :=
  ∀ s, s ∈ wd_Steps def → sd_Type s ≠ StepTypeRespond.

Lemma ids_unique def s s' :
  NoDup (ids_of (wd_Steps def)) → s ∈ wd_Steps def → s' ∈ wd_Steps def →
  sd_ID s = sd_ID s' → s = s'.
Proof.
  intros Hnd Hs Hs' Heq. pose proof (byID_lookup _ s Hnd Hs) as H.
  rewrite Heq, (byID_lookup _ s' Hnd Hs') in H. congruence.
Qed.

(** ** The transitions *)

Section System.
Context (def : WorkflowDef).

(** What a dispatch pass on the saved run persists last. *)
Inductive pass_saved (now : Time) (saved run : WorkflowRun) : pass_end → WorkflowRun → Prop :=
  | saved_nothing : pass_saved now saved run PassNothing saved
  | saved_dispatch ready : pass_saved now saved run (PassDispatch ready) run
  | saved_pass_complete run' :
      finalizeRun now run RunStatusCompleted = Ret (Some run') →
      pass_saved now saved run PassComplete run'.

(** What is persisted once [handleStepCompleted] is done. *)
Inductive completed_saved (new_id : nat → string) (clock : nat → Time)
    : completed_result → WorkflowRun → Prop :=
  | saved_pass saved run pend run' :
      enqueueReady new_id clock def saved = Ret (run, pend) →
      pass_saved (clock 0%nat) saved run pend run' →
      completed_saved new_id clock (CompletedSave saved) run'
  | saved_complete run run' :
      finalizeRun (clock 0%nat) run RunStatusCompleted = Ret (Some run') →
      completed_saved new_id clock (CompletedRun run) run'.

(** The handlers, each from the stored run to the last run it saves. *)
Inductive engine_step (run : WorkflowRun) : WorkflowRun → Prop :=
  | engine_completed new_id clock evt res run' :
      payload_ok (protocol.Payload evt) →
      protocol.Type_ evt = protocol.EventStepCompleted →
      handleStepCompleted new_id clock false def run evt = Ret res →
      completed_saved new_id clock res run' →
      engine_step run run'
  | engine_started now evt run' elapsed :
      ss_DispatchNonce (step_at (wr_Steps run) (protocol.StepID evt)) ≠ "" →
      handleStepStarted now run evt = Ret (Some (run', elapsed)) →
      engine_step run run'
  | engine_failed new_id clock evt stepDef err run1 run' :
      IsTerminal (wr_Status run) = false →
      protocol.Type_ evt = protocol.EventStepFailed →
      fenceStepEvent false run evt = Ret (Some run1) →
      findStepDef def (protocol.StepID evt) = Some stepDef →
      dispatchNonRetriableFailure new_id clock def run1 stepDef evt err = Ret (RunFailed run') →
      engine_step run run'.

(** A started run: every step pending, then one dispatch pass. *)
Inductive engine_start : WorkflowRun → Prop :=
  | engine_start_dispatch new_id clock run run' ready :
      wr_RunID run ≠ "" → wr_Status run = RunStatusRunning → wr_CompletedAt run = None →
      (∀ id, step_at (wr_Steps run) id = step_state StepStatusPending) →
      (∀ k, new_id k ≠ "") → (∀ k, IsZero (clock k) = false) →
      enqueueReady new_id clock def run = Ret (run', PassDispatch ready) →
      engine_start run'.

(** The states the start and these three handlers lead to when no engine
    stops inside a handler: the code saves a completion before its dispatch pass
    (step_handlers.go), and an engine that stops in between leaves a state that
    is not here. *)
Definition reachable (run : WorkflowRun) : Prop :=
  ∃ run0, engine_start run0 ∧ rtc engine_step run0 run.

(** ** The invariant on steps *)

Context (Hdef : plain def).
#[local] Abbreviation Hnodup := (rv_nodup def (pl_resolvable def Hdef)).

(** Every step that left the pending state had its dependencies resolved. *)
Definition causal (steps : gmap string StepState) : Prop :=
  ∀ s d, s ∈ wd_Steps def → status_of steps (sd_ID s) ≠ StepStatusPending →
    d ∈ sd_DependsOn s → resolved_status (status_of steps d) = true.

Definition live_status (s : StepStatus) : Prop :=
  s ≠ StepStatusCancelled ∧ s ≠ StepStatusRecovered.

Definition undispatched (s : StepStatus) : Prop :=
  s = StepStatusPending ∨ s = StepStatusSkipped.

Record steps_inv (steps : gmap string StepState) : Prop := {
  si_causal : causal steps;
  si_live : ∀ id, live_status (status_of steps id);
  si_nonce : ∀ id, undispatched (status_of steps id) →
    ss_DispatchNonce (step_at steps id) = "";
  si_outputs : outputs_ok steps;
}.

(** How steps may change: resolved steps stay resolved, and a step leaves the
    pending state only once its dependencies are resolved. *)
Definition evolves (steps steps' : gmap string StepState) : Prop :=
  (∀ id, resolved_status (status_of steps id) = true →
     resolved_status (status_of steps' id) = true) ∧
  (∀ s d, s ∈ wd_Steps def → status_of steps' (sd_ID s) ≠ StepStatusPending →
     status_of steps (sd_ID s) = StepStatusPending → d ∈ sd_DependsOn s →
     resolved_status (status_of steps' d) = true).

Lemma causal_evolves steps steps' : evolves steps steps' → causal steps → causal steps'.
Proof.
  intros [Hmono Hnew] Hc s d Hs Hst Hd.
  destruct (decide (status_of steps (sd_ID s) = StepStatusPending)) as [Hp|Hp]; [by eauto|].
  apply Hmono. by eapply Hc.
Qed.

(** A step map that differs only in a step that was in flight, or whose
    completion is recorded again. *)
Definition may_become (s s' : StepStatus) : Prop :=
  (active_status s = true ∨ s = StepStatusCompleted ∧ s' = StepStatusCompleted) ∧
  (active_status s' = true ∨ terminal_step s' = true).

Lemma steps_inv_insert steps id st :
  steps_inv steps → may_become (status_of steps id) (ss_Status st) →
  payload_ok (ss_Output st) →
  steps_inv (<[id := st]> steps).
Proof.
  intros [Hc Hl Hn Ho] [Hact Hst] Hout.
  assert (ss_Status st ≠ StepStatusPending ∧ live_status (ss_Status st) ∧
          ¬ undispatched (ss_Status st)) as (Hp & Hlv & Hu).
  { unfold live_status, undispatched. revert Hst.
    destruct (ss_Status st); (intros [Hst|Hst]; [try done|try done]); naive_solver. }
  split.
  - apply (causal_evolves steps); [|done]. split.
    + intros id'. destruct (decide (id = id')) as [->|Hne]; [|by rewrite step_at_insert_ne].
      rewrite step_at_insert. intros Hr. revert Hact Hr.
      destruct (status_of steps id'); cbn; intros [?|[? ->]]; done.
    + intros s d Hs Hnp Hpend Hd. destruct (decide (id = sd_ID s)) as [->|Hne].
      * rewrite Hpend in Hact. by destruct Hact as [?|[? _]].
      * by rewrite step_at_insert_ne in Hnp.
  - intros id'. destruct (decide (id = id')) as [->|Hne];
      [by rewrite step_at_insert|by rewrite step_at_insert_ne].
  - intros id'. destruct (decide (id = id')) as [->|Hne];
      [by rewrite step_at_insert|rewrite step_at_insert_ne by done; apply Hn].
  - apply outputs_ok_insert; done.
Qed.

Lemma steps_inv_skips steps : steps_inv steps → steps_inv (with_skips def steps).
Proof.
  intros [Hc Hl Hn Ho].
  assert (∀ id, id ∈ skip_ids def steps → status_of steps id = StepStatusPending) as Hsk.
  { intros id [Hr Hq]%skip_ids_pending. destruct (Hl id) as [? ?].
    revert Hr Hq. by destruct (status_of steps id). }
  split.
  - apply (causal_evolves steps); [|done]. split.
    + intros id Hr. rewrite with_skips_at. case_decide; [by rewrite ss_Status_set|done].
    + intros s d Hs Hnp Hpend Hd. rewrite with_skips_at in Hnp.
      case_decide as Hin; [|done]. apply skip_ids_elem in Hin as (s' & Heq & Hskip).
      rewrite with_skips_at. case_decide; [by rewrite ss_Status_set|].
      destruct Hskip as (Hs' & _ & _ & _ & Hdeps). apply Hdeps.
      by rewrite (ids_unique def s' s Hnodup).
  - intros id. rewrite with_skips_at. case_decide; [by rewrite ss_Status_set|apply Hl].
  - intros id. rewrite with_skips_at. case_decide as Hin; [|apply Hn]. intros _.
    assert (ss_DispatchNonce (step_at steps id) = "") as Hnn
      by (apply Hn; left; by apply Hsk).
    by destruct (step_at steps id).
  - intros id r. rewrite with_skips_at. case_decide; [|apply Ho].
    intros Hr. apply (Ho id). by destruct (step_at steps id).
Qed.

(** Two step maps that agree on what the invariant reads. *)
Definition same_steps (steps steps' : gmap string StepState) : Prop :=
  ∀ id, status_of steps' id = status_of steps id ∧
    ss_DispatchNonce (step_at steps' id) = ss_DispatchNonce (step_at steps id) ∧
    ss_Output (step_at steps' id) = ss_Output (step_at steps id).

Lemma steps_inv_same steps steps' : same_steps steps steps' → steps_inv steps → steps_inv steps'.
Proof.
  intros Hsame [Hc Hl Hn Ho]. split.
  - intros s d. destruct (Hsame (sd_ID s)) as (-> & _), (Hsame d) as (-> & _). apply Hc.
  - intros id. destruct (Hsame id) as (-> & _). apply Hl.
  - intros id. destruct (Hsame id) as (-> & -> & _). apply Hn.
  - intros id r. destruct (Hsame id) as (_ & _ & ->). apply Ho.
Qed.

Lemma stamp_same steps now steps' :
  stampTerminalSteps steps now = Ret steps' → same_steps steps steps'.
Proof.
  unfold stampTerminalSteps. destruct (IsZero now); [done|]. cbn. intros [= <-] id.
  unfold step_at. rewrite lookup_fmap. destruct (steps !! id) as [st|]; [cbn|done].
  unfold stamp_terminal, stampCompleted. destruct st; cbn.
  destruct ss_CompletedAt as [t|]; cbn; [done|].
  destruct (terminal_step ss_Status) eqn:Ht; cbn; rewrite ?Ht; cbn; done.
Qed.

Lemma startable_pending steps s :
  (∀ id, live_status (status_of steps id)) → startable def steps s →
  status_of steps (sd_ID s) = StepStatusPending.
Proof.
  intros Hl (_ & Hr & Hq & _). destruct (Hl (sd_ID s)) as [H1 H2]. revert Hr Hq H1 H2.
  by destruct (status_of steps (sd_ID s)).
Qed.

(** A dispatched step after the pass. *)
Lemma pass_dispatched new_id clock run run' pend id :
  pass_ok new_id clock def run run' pend → id ∈ sd_ID <$> pass_ready pend →
  ∃ s st, sd_ID s = id ∧ s ∈ pass_ready pend ∧
    startable def (with_skips def (wr_Steps run)) s ∧
    step_at (wr_Steps run') id = st ∧ ss_Status st = StepStatusQueued ∧
    ss_DispatchNonce st ≠ "" ∧
    ss_Output st = ss_Output (step_at (with_skips def (wr_Steps run)) id).
Proof.
  intros (_ & Hin & _) (s & -> & Hs)%list_elem_of_fmap.
  apply list_elem_of_lookup in Hs as [k Hk].
  destruct (Hin k s Hk) as (Hst & Hid & (Hd1 & Hd2 & _ & _ & _ & _ & _ & _ & Hd9) & _).
  exists s, (step_at (wr_Steps run') (sd_ID s)). split_and!; try done.
  - by eapply list_elem_of_lookup_2.
  - rewrite Hd1. apply ss_Status_set.
  - by rewrite Hd2.
  - rewrite Hd9. by destruct (step_at (with_skips def (wr_Steps run)) (sd_ID s)).
Qed.

Lemma steps_inv_pass new_id clock run run' pend :
  pass_ok new_id clock def run run' pend → steps_inv (wr_Steps run) → steps_inv (wr_Steps run').
Proof.
  intros Hok Hinv%steps_inv_skips. pose proof Hinv as [Hc Hl Hn Ho].
  assert (∀ id, id ∉ sd_ID <$> pass_ready pend →
    step_at (wr_Steps run') id = step_at (with_skips def (wr_Steps run)) id) as Hout
    by (by destruct Hok as (_ & _ & ? & _)).
  split.
  - apply (causal_evolves (with_skips def (wr_Steps run))); [|done]. split.
    + intros id Hr. destruct (decide (id ∈ sd_ID <$> pass_ready pend)) as [Hin|Hin];
        [|by rewrite Hout].
      destruct (pass_dispatched _ _ _ _ _ _ Hok Hin) as (s & st & <- & _ & Hs & _).
      destruct Hs as (_ & Hs & _). congruence.
    + intros s d Hs Hnp Hp Hd.
      destruct (decide (sd_ID s ∈ sd_ID <$> pass_ready pend)) as [Hin|Hin];
        [|by rewrite Hout in Hnp].
      destruct (pass_dispatched _ _ _ _ _ _ Hok Hin) as (s' & st & Heq & _ & Hs' & _).
      destruct Hs' as (Hin' & _ & _ & _ & Hdeps).
      rewrite (ids_unique def s' s Hnodup) in Hdeps by done.
      destruct (decide (d ∈ sd_ID <$> pass_ready pend)) as [Hdin|Hdin];
        [|rewrite Hout by done; by apply Hdeps].
      destruct (pass_dispatched _ _ _ _ _ _ Hok Hdin) as (t & st' & <- & _ & Ht & _).
      specialize (Hdeps _ Hd). destruct Ht as (_ & Ht & _). congruence.
  - intros id. destruct (decide (id ∈ sd_ID <$> pass_ready pend)) as [Hin|Hin];
      [|by rewrite Hout].
    destruct (pass_dispatched _ _ _ _ _ _ Hok Hin) as (s & st & _ & _ & _ & -> & -> & _).
    done.
  - intros id. destruct (decide (id ∈ sd_ID <$> pass_ready pend)) as [Hin|Hin];
      [|rewrite Hout by done; apply Hn].
    destruct (pass_dispatched _ _ _ _ _ _ Hok Hin) as (s & st & _ & _ & _ & -> & -> & _).
    by intros [|].
  - intros id r. destruct (decide (id ∈ sd_ID <$> pass_ready pend)) as [Hin|Hin];
      [|rewrite Hout by done; apply Ho].
    destruct (pass_dispatched _ _ _ _ _ _ Hok Hin) as (s & st & _ & _ & _ & -> & _ & _ & ->).
    apply Ho.
Qed.

(** ** The invariant on runs *)

Record run_inv (run : WorkflowRun) : Prop := {
  ri_id : wr_RunID run ≠ "";
  ri_steps : steps_inv (wr_Steps run);
  ri_busy : IsTerminal (wr_Status run) = false → ∃ id, id ∈ active_ids (wr_Steps run);
  ri_sound : IsTerminal (wr_Status run) = false →
    ∀ id, status_of (wr_Steps run) id ≠ StepStatusFailed;
  ri_done : wr_Status run = RunStatusCompleted → all_resolved def (wr_Steps run);
  ri_cap : ∀ m, step_limit def = Some m → countActiveSteps run ≤ m;
}.

(** The part that also holds between the two saves of one handler, when the
    completion is recorded and its dispatch pass is not. *)
Record run_safe (run : WorkflowRun) : Prop := {
  rs_id : wr_RunID run ≠ "";
  rs_steps : steps_inv (wr_Steps run);
  rs_sound : IsTerminal (wr_Status run) = false →
    ∀ id, status_of (wr_Steps run) id ≠ StepStatusFailed;
  rs_done : wr_Status run = RunStatusCompleted → all_resolved def (wr_Steps run);
  rs_cap : ∀ m, step_limit def = Some m → countActiveSteps run ≤ m;
}.

Lemma run_inv_safe run : run_inv run → run_safe run.
Proof. by intros [? ? ? ? ? ?]. Qed.

(** A run under the same id, in which dispatched steps keep a dispatch identity. *)
Definition keeps (run run' : WorkflowRun) : Prop :=
  wr_RunID run' = wr_RunID run ∧
  ∀ id, ss_DispatchNonce (step_at (wr_Steps run) id) ≠ "" →
    ss_DispatchNonce (step_at (wr_Steps run') id) ≠ "".

#[global] Instance keeps_preorder : PreOrder keeps.
Proof.
  split; [done|]. intros r1 r2 r3 [E12 H12] [E23 H23]. split; [congruence|]. auto.
Qed.

Lemma keeps_steps run run' :
  wr_RunID run' = wr_RunID run → wr_Steps run' = wr_Steps run → keeps run run'.
Proof. intros ? Heq. split; [done|]. by rewrite Heq. Qed.

Lemma skips_nonce steps id :
  ss_DispatchNonce (step_at (with_skips def steps) id) = ss_DispatchNonce (step_at steps id).
Proof. rewrite with_skips_at. case_decide; [|done]. by destruct (step_at steps id). Qed.

Lemma insert_nonce steps id st id' :
  ss_DispatchNonce st = ss_DispatchNonce (step_at steps id) →
  ss_DispatchNonce (step_at (<[id := st]> steps) id') = ss_DispatchNonce (step_at steps id').
Proof.
  intros H. destruct (decide (id = id')) as [<-|Hne];
    [by rewrite step_at_insert|by rewrite step_at_insert_ne].
Qed.

Lemma pass_keeps new_id clock run run' pend :
  pass_ok new_id clock def run run' pend → keeps run run'.
Proof.
  intros Hok. split; [by destruct Hok as (_ & _ & _ & _ & _ & ?)|]. intros id Hid.
  destruct (decide (id ∈ sd_ID <$> pass_ready pend)) as [Hin|Hin].
  - by destruct (pass_dispatched _ _ _ _ _ _ Hok Hin) as (? & ? & ? & ? & ? & -> & ? & ? & _).
  - destruct Hok as (_ & _ & Hout & _). by rewrite Hout, skips_nonce.
Qed.

Context (Hlimit : ∀ m, step_limit def = Some m → m ≤ int64_max).

Lemma active_skips steps id :
  id ∈ active_ids (with_skips def steps) ↔ id ∈ active_ids steps.
Proof.
  rewrite !active_ids_elem, with_skips_at. case_decide as Hin; [|done].
  rewrite ss_Status_set. apply skip_ids_pending in Hin as [_ Hq].
  split; [done|]. revert Hq. by destruct (status_of steps id).
Qed.

(** The state the dispatch pass works on: an unfinished run without failures. *)
Lemma pass_busy new_id clock run run' pend :
  enqueueReady new_id clock def run = Ret (run', pend) → pend ≠ PassComplete →
  steps_inv (wr_Steps run) → ¬ all_resolved def (wr_Steps run) →
  (∀ id, status_of (wr_Steps run) id ≠ StepStatusFailed) →
  (pend = PassNothing ∧ ∃ id, id ∈ active_ids (wr_Steps run)) ∨
  (∃ ready, pend = PassDispatch ready ∧ ∃ id, id ∈ active_ids (wr_Steps run')).
Proof.
  intros Hret Hpend Hinv Hn Hsound.
  pose proof (enqueueReady_ok _ _ _ _ _ _ Hnodup Hret) as Hok.
  assert (¬ all_resolved def (with_skips def (wr_Steps run))) as Hn'.
  { revert Hret. unfold enqueueReady. rewrite bind_unit_ret_iff, bind_ret_iff.
    intros (_ & r & Hr & Hret). eapply resolveReadySteps_incomplete; [done| |done].
    destruct (rr_complete r) eqn:Hc; [|done].
    apply resolveReadySteps_complete in Hr; [|done]. rewrite Hr in Hret. congruence. }
  destruct (advance_progress def _ (pl_resolvable def Hdef) Hn') as [Hs|(s & Hs & Hst)].
  - destruct (enqueueReady_starts _ _ _ _ _ _ Hret Hpend Hlimit Hs) as [?|(s & ready & ->)];
      [by left|right]. exists (s :: ready). split; [done|]. exists (sd_ID s).
    destruct (pass_dispatched _ _ _ _ _ (sd_ID s) Hok) as (? & ? & ? & ? & ? & Heq & Hq & _).
    { apply (list_elem_of_fmap_2 sd_ID). left. }
    apply active_ids_elem. by rewrite Heq, Hq.
  - assert (sd_ID s ∈ active_ids (with_skips def (wr_Steps run))) as Hact.
    { apply active_ids_elem. destruct Hst as [->|[->|Hf]]; [done..|]. exfalso.
      apply (Hsound (sd_ID s)). rewrite with_skips_at in Hf. case_decide; [|done].
      by rewrite ss_Status_set in Hf. }
    destruct pend as [| |ready]; [done|left|right].
    + split; [done|]. exists (sd_ID s). by apply active_skips.
    + exists ready. split; [done|]. exists (sd_ID s).
      destruct (decide (sd_ID s ∈ sd_ID <$> ready)) as [Hin|Hin].
      * destruct (pass_dispatched _ _ _ _ _ (sd_ID s) Hok Hin)
          as (? & ? & ? & ? & ? & Heq & Hq & _).
        apply active_ids_elem. by rewrite Heq, Hq.
      * destruct Hok as (_ & _ & Hout & _). apply active_ids_elem.
        rewrite Hout by done. by apply active_ids_elem.
Qed.

(** A pass on a sound run keeps it sound. *)
Lemma pass_sound new_id clock run run' pend :
  pass_ok new_id clock def run run' pend →
  (∀ id, status_of (wr_Steps run) id ≠ StepStatusFailed) →
  ∀ id, status_of (wr_Steps run') id ≠ StepStatusFailed.
Proof.
  intros Hok Hs id. destruct (decide (id ∈ sd_ID <$> pass_ready pend)) as [Hin|Hin].
  - destruct (pass_dispatched _ _ _ _ _ _ Hok Hin) as (? & ? & ? & ? & ? & -> & -> & _). done.
  - destruct Hok as (_ & _ & Hout & _). rewrite Hout, with_skips_at by done.
    case_decide; [by rewrite ss_Status_set|apply Hs].
Qed.

(** ** Accepted events *)

Definition same_but_attempts (run run1 : WorkflowRun) : Prop :=
  wr_RunID run1 = wr_RunID run ∧ wr_Status run1 = wr_Status run ∧
  same_steps (wr_Steps run) (wr_Steps run1).

Lemma same_keeps run run1 : same_but_attempts run run1 → keeps run run1.
Proof. intros (? & _ & H). split; [done|]. intros id. by destruct (H id) as (_ & -> & _). Qed.

Lemma same_steps_refl steps : same_steps steps steps.
Proof. intros id. done. Qed.

Lemma same_steps_insert steps id st :
  ss_Status st = status_of steps id →
  ss_DispatchNonce st = ss_DispatchNonce (step_at steps id) →
  ss_Output st = ss_Output (step_at steps id) → same_steps steps (<[id := st]> steps).
Proof.
  intros H1 H2 H3 id'. destruct (decide (id = id')) as [<-|Hne];
    [by rewrite step_at_insert|by rewrite step_at_insert_ne].
Qed.

Lemma same_steps_active steps steps' :
  same_steps steps steps' → active_ids steps' = active_ids steps.
Proof.
  intros H. apply leibniz_equiv. intros id. rewrite !active_ids_elem.
  by destruct (H id) as (-> & _).
Qed.

Lemma fence_accepts run evt run1 :
  fencedEventType (protocol.Type_ evt) = true →
  fenceStepEvent false run evt = Ret (Some run1) →
  answers (step_at (wr_Steps run) (protocol.StepID evt)) evt ∧ same_but_attempts run run1.
Proof.
  intros Hty Hf. pose proof Hf as Hf0. unfold fenceStepEvent in Hf0.
  rewrite !bind_unit_ret_iff, !panic_if_ret_iff, negb_false_iff, bool_decide_eq_true,
    empty_str_false in Hf0.
  destruct Hf0 as (Hrun & Hid & _).
  destruct (fenceStepEvent_spec false run evt Hrun (conj Hid Hty)) as [[_ H]|(Hacc & run' & H & Hc)];
    [congruence|]. rewrite H in Hf. injection Hf as <-.
  apply accepted_iff in Hacc as [[_ ?]|Hans]; [done| |done]. split; [done|].
  destruct Hc as [->|(_ & _ & ->)].
  - split_and!; [done..|apply same_steps_refl].
  - unfold set_step, same_but_attempts. rewrite wr_Status_set_Steps, wr_Steps_set_Steps.
    split_and!; [by destruct run|done|].
    apply same_steps_insert; by destruct (step_at (wr_Steps run) (protocol.StepID evt)).
Qed.

(** ** Completions *)

(** A plain definition has no recovery to run. *)
Lemma plain_no_recovery run id : id ≠ "" → RecoverIfOnFailure def run id = run.
Proof.
  intros Hid. destruct (RecoverIfOnFailure_spec def run id) as [[-> _]|(f & Hf & Ho & _)]; [done|].
  destruct (pl_handlers def Hdef f Hf) as [Hn _]. congruence.
Qed.

Lemma plain_no_compensation new_id clock run id :
  HandleCompensateCompleted new_id clock def run id = Ret NotCompensate.
Proof. unfold HandleCompensateCompleted. by rewrite (pl_aux def Hdef). Qed.

(** The step map after an accepted completion. *)
Lemma completed_steps_inv steps id out :
  steps_inv steps →
  active_status (status_of steps id) = true ∨ status_of steps id = StepStatusCompleted →
  payload_ok out →
  steps_inv (with_skips def (record_completed steps id out)).
Proof.
  intros Hinv Hact Hout. apply steps_inv_skips, steps_inv_insert; try done.
  - rewrite ss_Status_set_Output, ss_Status_set. split; [|by right]. destruct Hact; auto.
  - by destruct (step_at steps id).
Qed.

Lemma completed_active steps id out :
  active_ids (with_skips def (record_completed steps id out)) ⊆ active_ids steps.
Proof.
  intros x. rewrite active_skips, !active_ids_elem. intros Hx. unfold record_completed in Hx.
  destruct (decide (id = x)) as [->|Hne]; [|by rewrite step_at_insert_ne in Hx].
  by rewrite step_at_insert, ss_Status_set_Output, ss_Status_set in Hx.
Qed.

Lemma completed_sound steps id out :
  (∀ id', status_of steps id' ≠ StepStatusFailed) →
  ∀ id', status_of (with_skips def (record_completed steps id out)) id' ≠ StepStatusFailed.
Proof.
  intros H id'. rewrite with_skips_at. case_decide; [by rewrite ss_Status_set|].
  unfold record_completed. destruct (decide (id = id')) as [->|Hne].
  - by rewrite step_at_insert, ss_Status_set_Output, ss_Status_set.
  - by rewrite step_at_insert_ne.
Qed.

(** [apply_completed] on an accepted event, case by case. *)
Lemma apply_completed_spec new_id clock run evt res :
  protocol.StepID evt ≠ "" → payload_ok (protocol.Payload evt) → outputs_ok (wr_Steps run) →
  apply_completed new_id clock def run evt = Ret res →
  let after := with_skips def
    (record_completed (wr_Steps run) (protocol.StepID evt) (protocol.Payload evt)) in
  ∃ run1, wr_Steps run1 = after ∧ wr_RunID run1 = wr_RunID run ∧
    ((all_resolved def after ∧ res = CompletedRun run1) ∨
     (¬ all_resolved def after ∧ wr_Status run1 = wr_Status run ∧
      ∃ saved, saveSnapshot (clock 0%nat) run1 = Ret saved ∧ res = CompletedSave saved)).
Proof.
  intros Hid Hpay Hok Hres after. revert Hres. unfold apply_completed, no_failure.
  destruct (Advance_completed def run (protocol.StepID evt) (protocol.Payload evt) Hid Hok Hpay)
    as (run1 & eff & Hadv & Hsteps & Hcase). rewrite Hadv. cbn [mbind outcome_bind].
  rewrite plain_no_recovery, plain_no_compensation by done. cbn [mbind outcome_bind].
  intros Hres. exists run1. split; [done|].
  split; [by eapply Advance_run_id|].
  rewrite completedSet_build, Hsteps in Hres. fold after in Hcase, Hres.
  destruct (IsComplete def (buildCompletedSet after)) eqn:Hc.
  - left. apply IsComplete_resolved in Hc. split; [done|congruence].
  - right. rewrite <-IsComplete_resolved, Hc in *.
    destruct Hcase as [(? & _)|(_ & Hst & _)]; [done|]. split_and!; [done..|].
    rewrite bind_ret_iff in Hres. destruct Hres as (saved & Hsave & [= <-]). eauto 10.
Qed.

Lemma saveSnapshot_same now run saved :
  saveSnapshot now run = Ret saved → same_but_attempts run saved.
Proof.
  unfold saveSnapshot. rewrite bind_unit_ret_iff, bind_ret_iff.
  intros (_ & steps & Hst & [= <-]). unfold same_but_attempts.
  rewrite wr_Status_set_Steps, wr_Steps_set_Steps. split_and!; [by destruct run|done|].
  by eapply stamp_same.
Qed.

Lemma count_subset run run' :
  active_ids (wr_Steps run') ⊆ active_ids (wr_Steps run) →
  countActiveSteps run' ≤ countActiveSteps run.
Proof. intros H. rewrite !countActiveSteps_size. by apply inj_le, subseteq_size. Qed.

Lemma terminal_inv run :
  wr_RunID run ≠ "" → steps_inv (wr_Steps run) → IsTerminal (wr_Status run) = true →
  (wr_Status run = RunStatusCompleted → all_resolved def (wr_Steps run)) →
  (∀ m, step_limit def = Some m → countActiveSteps run ≤ m) → run_inv run.
Proof. intros. split; try done; congruence. Qed.

(** What a pass persists keeps the invariant. *)
Lemma pass_inv new_id clock saved run' pend now r :
  wr_RunID saved ≠ "" → IsTerminal (wr_Status saved) = false → steps_inv (wr_Steps saved) →
  ¬ all_resolved def (wr_Steps saved) →
  (∀ id, status_of (wr_Steps saved) id ≠ StepStatusFailed) →
  (∀ m, step_limit def = Some m → countActiveSteps saved ≤ m) →
  enqueueReady new_id clock def saved = Ret (run', pend) →
  pass_saved now saved run' pend r → run_inv r.
Proof.
  intros Hid Hst Hinv Hn Hsound Hcap Hpass Hsaved.
  pose proof (enqueueReady_ok _ _ _ _ _ _ Hnodup Hpass) as Hok.
  assert (∀ m, step_limit def = Some m → countActiveSteps run' ≤ m) as Hcap'.
  { intros m Hm. pose proof (Hlimit m Hm) as Hmax. pose proof (Hcap m Hm) as Hc.
    assert (countActiveSteps saved ≤ int64_max) as Hcs by lia.
    pose proof (enqueueReady_cap _ _ _ _ _ _ m Hnodup Hm Hmax Hcs Hpass). lia. }
  pose proof Hok as (Hall & _ & Hout & _ & Hst' & Hid').
  pose proof (pass_busy _ _ _ _ _ Hpass) as Hbusy.
  inversion Hsaved as [H1|ready H1|rn' Hfin H1]; simplify_eq.
  - destruct Hbusy as [[_ Hb]|(? & ? & _)]; try done. split; try done.
    intros Heq. by rewrite Heq in Hst.
  - destruct Hbusy as [[? _]|(? & _ & Hb)]; try done.
    split; rewrite ?Hst', ?Hid'; try done.
    + by eapply steps_inv_pass.
    + intros _. by eapply pass_sound.
    + intros Heq. by rewrite Heq in Hst.
  - apply finalizeRun_spec in Hfin as (_ & [Ht _] & Hs & _ & Hsteps & Hrid).
    apply terminal_inv; rewrite ?Hsteps, ?Hrid, ?Hid'; try done.
    + by eapply steps_inv_pass.
    + intros _ s Hs0 Ha. rewrite Hout by (by cbn; intros ?%elem_of_nil). by apply Hall.
    + intros m Hm. rewrite countActiveSteps_size, Hsteps, <-countActiveSteps_size. by apply Hcap'.
Qed.

Context (Hresp : no_respond def).

(** The handler of an accepted completion: the run is complete, or saved for
    the dispatch pass. *)
Lemma completed_cases new_id clock run evt res :
  run_safe run → payload_ok (protocol.Payload evt) →
  protocol.Type_ evt = protocol.EventStepCompleted →
  handleStepCompleted new_id clock false def run evt = Ret res →
  match res with
  | CompletedRun run2 =>
      keeps run run2 ∧ steps_inv (wr_Steps run2) ∧ all_resolved def (wr_Steps run2) ∧
      ∀ m, step_limit def = Some m → countActiveSteps run2 ≤ m
  | CompletedSave saved =>
      run_safe saved ∧ keeps run saved ∧ IsTerminal (wr_Status saved) = false ∧
      ¬ all_resolved def (wr_Steps saved)
  | CompletedCompensation _ => False
  | _ => True
  end.
Proof.
  intros [Hid Hinv Hsound Hdone Hcap] Hpay Hty Hh.
  unfold handleStepCompleted in Hh. rewrite !bind_unit_ret_iff, !panic_if_ret_iff in Hh.
  destruct Hh as (_ & Hsid%empty_str_false & Hh).
  apply bind_ret_iff in Hh as (late & Hlate & Hh).
  unfold lateEventForTerminalRun in Hlate. rewrite !bind_unit_ret_iff in Hlate.
  destruct Hlate as (_ & _ & [= Hlate]). destruct late; [by injection Hh as <-|].
  destruct (isMapInstanceID _); [by injection Hh as <-|].
  apply bind_ret_iff in Hh as (fenced & Hf & Hh).
  assert (fenceStepEvent false run evt = Ret fenced) as Hfence.
  { destruct (findStepDef def (protocol.StepID evt)) as [sd|] eqn:Hfind; [|done].
    unfold findStepDef in Hfind. apply find_first_Some in Hfind as [Hsd _].
    by rewrite (bool_decide_eq_false_2 _ (Hresp sd Hsd)) in Hf. }
  destruct fenced as [run1|]; [|by injection Hh as <-].
  match type of Hh with (if ?b then _ else _) = _ => destruct b end;
    [by injection Hh as <-|].
  apply fence_accepts in Hfence as (Hact%answers_active & Hid1 & Hst1 & Hsame);
    [|by rewrite Hty].
  assert (steps_inv (wr_Steps run1)) as Hinv1 by (by eapply steps_inv_same).
  destruct (apply_completed_spec _ _ _ _ _ Hsid Hpay (si_outputs _ Hinv1) Hh)
    as (run2 & Hsteps2 & Hid2 & Hcase).
  assert (active_status (status_of (wr_Steps run1) (protocol.StepID evt)) = true) as Hact1
    by (by destruct (Hsame (protocol.StepID evt)) as (-> & _)).
  pose proof (completed_steps_inv _ _ _ Hinv1 (or_introl Hact1) Hpay) as Hinv2. rewrite <-Hsteps2 in *.
  assert (∀ m, step_limit def = Some m → countActiveSteps run2 ≤ m) as Hcap2.
  { intros m Hm. etrans; [|by apply Hcap]. apply count_subset. rewrite Hsteps2.
    etrans; [apply completed_active|]. by rewrite (same_steps_active _ _ Hsame). }
  assert (keeps run run2) as Hk2.
  { split; [by rewrite Hid2|]. intros id. rewrite Hsteps2, skips_nonce. unfold record_completed.
    rewrite insert_nonce by (by destruct (step_at (wr_Steps run1) (protocol.StepID evt))).
    by destruct (Hsame id) as (_ & -> & _). }
  destruct Hcase as [[Hall ->]|(Hn & Hst2 & saved & Hsave & ->)].
  - done.
  - apply saveSnapshot_same in Hsave as Hsave'.
    assert (keeps run saved) as Hk3 by (etrans; [exact Hk2|by apply same_keeps]).
    destruct Hsave' as (Hid3 & Hst3 & Hsame3).
    assert (IsTerminal (wr_Status saved) = false) as Hterm by (by rewrite Hst3, Hst2, Hst1).
    split_and!; [split|done|done|].
    + by rewrite Hid3, Hid2, Hid1.
    + by eapply steps_inv_same.
    + intros _ id. destruct (Hsame3 id) as (-> & _). rewrite Hsteps2. apply completed_sound.
      intros id'. destruct (Hsame id') as (-> & _). by apply Hsound.
    + intros Heq. by rewrite Heq in Hterm.
    + intros m Hm. etrans; [|by apply Hcap2]. apply count_subset.
      by rewrite (same_steps_active _ _ Hsame3).
    + intros Hall. apply Hn. intros s Hs Ha. specialize (Hall s Hs Ha).
      by destruct (Hsame3 (sd_ID s)) as (<- & _).
Qed.

Lemma completed_inv new_id clock run evt res run' :
  run_safe run → payload_ok (protocol.Payload evt) →
  protocol.Type_ evt = protocol.EventStepCompleted →
  handleStepCompleted new_id clock false def run evt = Ret res →
  completed_saved new_id clock res run' → run_inv run'.
Proof.
  intros Hsafe Hpay Hty Hh Hsaved.
  pose proof (completed_cases _ _ _ _ _ Hsafe Hpay Hty Hh) as Hc.
  destruct res as [| | |c|run2|saved]; [by inversion Hsaved..| |].
  - destruct Hc as ([Hid _] & Hinv & Hall & Hcap). pose proof (rs_id _ Hsafe).
    inversion Hsaved as [|rn rn' Hfin]; simplify_eq.
    apply finalizeRun_spec in Hfin as (_ & [Ht _] & Hs & _ & Hsteps & Hrid).
    apply terminal_inv; rewrite ?Hsteps, ?Hrid, ?Hid; try done.
    intros m Hm. rewrite countActiveSteps_size, Hsteps, <-countActiveSteps_size. by apply Hcap.
  - destruct Hc as ([Hid Hinv Hsound Hdone Hcap] & _ & Ht & Hn).
    inversion Hsaved as [sv run3 pend rn Hpass Hps|]; simplify_eq.
    eapply (pass_inv _ _ saved); [done..| | |exact Hpass|exact Hps]; [|done].
    by apply Hsound.
Qed.

(** ** The other transitions *)

Lemma started_safe now run evt run' elapsed :
  run_safe run → ss_DispatchNonce (step_at (wr_Steps run) (protocol.StepID evt)) ≠ "" →
  handleStepStarted now run evt = Ret (Some (run', elapsed)) →
  run_safe run' ∧ keeps run run' ∧ active_ids (wr_Steps run') = active_ids (wr_Steps run) ∧
  wr_Status run' = wr_Status run.
Proof.
  intros [Hid Hinv Hsound Hdone Hcap] Hnonce Hh.
  pose proof (handleStepStarted_output _ _ _ _ _ Hh) as [Hout Hrid].
  apply handleStepStarted_spec in Hh
    as (Hst & _ & Hn & Hnc & Hnf & Hterm & _ & _ & Hsteps & Hrst).
  assert (active_status (status_of (wr_Steps run) (protocol.StepID evt)) = true) as Hact.
  { destruct (si_live _ Hinv (protocol.StepID evt)) as [H1 H2].
    pose proof (si_nonce _ Hinv (protocol.StepID evt)) as Hu. unfold undispatched in Hu.
    destruct (status_of (wr_Steps run) (protocol.StepID evt)); try reflexivity; exfalso;
      first [congruence|apply Hnonce, Hu; by left|apply Hnonce, Hu; by right]. }
  assert (steps_inv (wr_Steps run')) as Hinv'.
  { rewrite Hsteps. apply steps_inv_insert; try done.
    - rewrite Hst. split; by left.
    - intros r. rewrite Hout. apply (si_outputs _ Hinv). }
  assert (active_ids (wr_Steps run') = active_ids (wr_Steps run)) as Hids.
  { apply leibniz_equiv. intros x. rewrite !active_ids_elem, Hsteps.
    destruct (decide (protocol.StepID evt = x)) as [<-|Hne]; [|by rewrite step_at_insert_ne].
    by rewrite step_at_insert, Hst, Hact. }
  split_and!; [split; rewrite ?Hrid, ?Hrst, ?Hids; try done| |done|done].
  - intros _ x. rewrite Hsteps. destruct (decide (protocol.StepID evt = x)) as [<-|Hne].
    + by rewrite step_at_insert, Hst.
    + rewrite step_at_insert_ne by done. by apply Hsound.
  - intros Heq. by rewrite Heq in Hterm.
  - intros m Hm. etrans; [|by apply Hcap]. apply count_subset. by rewrite Hids.
  - split; [done|]. intros id. by rewrite Hsteps, insert_nonce.
Qed.

Lemma started_inv now run evt run' elapsed :
  run_inv run → ss_DispatchNonce (step_at (wr_Steps run) (protocol.StepID evt)) ≠ "" →
  handleStepStarted now run evt = Ret (Some (run', elapsed)) → run_inv run'.
Proof.
  intros Hinv Hnonce Hh. pose proof (ri_busy _ Hinv) as Hbusy.
  destruct (started_safe _ _ _ _ _ (run_inv_safe _ Hinv) Hnonce Hh) as ([? ? ? ? ?] & _ & Ha & Hst).
  split; try done. by rewrite Ha, Hst.
Qed.

Lemma failed_steps_inv steps id err :
  steps_inv steps → active_status (status_of steps id) = true →
  steps_inv (with_skips def
    (<[id := ss_set_Status StepStatusFailed (ss_set_Error err (step_at steps id))]> steps)).
Proof.
  intros Hinv Hact. apply steps_inv_skips, steps_inv_insert; try done.
  - rewrite ss_Status_set. split; [by left|by right].
  - pose proof (si_outputs _ Hinv id) as Ho. by destruct (step_at steps id).
Qed.

(** A permanent failure of a plain definition's step fails the run. *)
Lemma plain_no_chain completed failed : ResolveCompensateChain def completed failed = [].
Proof.
  unfold ResolveCompensateChain, compensate_ordered.
  assert (List.filter (λ s, negb (empty_str (sd_Compensate s)) && is_set completed (sd_ID s))
    (wd_Steps def) = []) as ->; [|done].
  apply elem_of_nil_inv. intros s [Hs [Hc _]%andb_true_iff]%elem_of_List_filter.
  apply negb_true_iff, empty_str_false in Hc. by destruct (pl_handlers def Hdef s Hs).
Qed.

Lemma plain_fails new_id clock run1 stepDef evt err res :
  findStepDef def (protocol.StepID evt) = Some stepDef →
  dispatchNonRetriableFailure new_id clock def run1 stepDef evt err = Ret res →
  ∃ run', res = RunFailed run'.
Proof.
  intros [Hsd _]%find_first_Some. destruct (pl_handlers def Hdef _ Hsd) as [Hof _].
  intros Hh. unfold dispatchNonRetriableFailure in Hh. rewrite !bind_unit_ret_iff in Hh.
  destruct Hh as (_ & _ & Hh). apply bind_ret_iff in Hh as ([run2 eff] & _ & Hh).
  unfold HandlePermanentFailure in Hh. rewrite !bind_unit_ret_iff in Hh.
  destruct Hh as (_ & _ & Hh). rewrite (pl_aux def Hdef), Hof in Hh.
  unfold StartCompensation in Hh. rewrite plain_no_chain in Hh.
  change (negb (empty_str "")) with false in Hh. cbn [mbind outcome_bind] in Hh.
  destruct (finalizeRun _ _ _); simplify_eq/=. eauto.
Qed.

Lemma failed_inv new_id clock run evt stepDef err run1 run' :
  run_safe run → IsTerminal (wr_Status run) = false →
  protocol.Type_ evt = protocol.EventStepFailed →
  fenceStepEvent false run evt = Ret (Some run1) →
  dispatchNonRetriableFailure new_id clock def run1 stepDef evt err = Ret (RunFailed run') →
  run_inv run' ∧ keeps run run'.
Proof.
  intros [Hid Hinv Hsound Hdone Hcap] Hterm Hty Hf Hh.
  apply fence_accepts in Hf as (Hact%answers_active & Hid1 & Hst1 & Hsame); [|by rewrite Hty].
  assert (steps_inv (wr_Steps run1)) as Hinv1 by (by eapply steps_inv_same).
  assert (active_status (status_of (wr_Steps run1) (protocol.StepID evt)) = true) as Hact1
    by (by destruct (Hsame (protocol.StepID evt)) as (-> & _)).
  unfold dispatchNonRetriableFailure in Hh. rewrite !bind_unit_ret_iff in Hh.
  destruct Hh as (_ & _ & Hh). apply bind_ret_iff in Hh as ([run2 eff] & Hadv & Hh).
  pose proof (Advance_run_id _ _ _ _ _ Hadv) as Hid2.
  apply Advance_failed_steps in Hadv.
  set (run3 := wr_set_Status (wr_Status run1) run2) in Hh.
  assert (wr_Steps run3 = wr_Steps run2) as Hs3 by apply wr_Steps_set_Status.
  assert (wr_RunID run3 = wr_RunID run2) as Hid3 by (by destruct run2).
  assert (∃ st, run' = default run3 st ∧
    finalizeRun (clock 0%nat) run3 RunStatusFailed = Ret st) as (st & -> & Hfin).
  { unfold HandlePermanentFailure in Hh. rewrite !bind_unit_ret_iff in Hh.
    destruct Hh as (_ & _ & Hh). rewrite (pl_aux def Hdef) in Hh.
    apply bind_ret_iff in Hh as (handled & _ & Hh). destruct handled as [[? ?]|]; [done|].
    apply bind_ret_iff in Hh as (started & _ & Hh). destruct started as [[? ?]|]; [done|].
    apply bind_ret_iff in Hh as (f & Hfin & [= <-]). eauto. }
  assert (¬ finalized run3) as Hnf.
  { intros [Ht _]. unfold run3 in Ht. rewrite wr_Status_set_Status in Ht. congruence. }
  destruct (finalizeRun_total (clock 0%nat) run3 RunStatusFailed) as [r Hr]; [|done..|].
  { by rewrite Hid3, Hid2, Hid1. }
  rewrite Hr in Hfin. injection Hfin as <-. cbn [default from_option id].
  apply finalizeRun_spec in Hr as (_ & [Ht _] & Hst & _ & Hsteps & Hrid).
  split; [apply terminal_inv; [| |done|by rewrite Hst|]|].
  - by rewrite Hrid, Hid3, Hid2, Hid1.
  - rewrite Hsteps, Hs3, Hadv. by apply failed_steps_inv.
  - intros m Hm. etrans; [|by apply Hcap]. apply count_subset. rewrite Hsteps, Hs3, Hadv.
    intros x. rewrite active_skips, !active_ids_elem. intros Hx.
    destruct (decide (protocol.StepID evt = x)) as [<-|Hne]; [done|].
    rewrite step_at_insert_ne in Hx by done. by destruct (Hsame x) as (<- & _).
  - split; [by rewrite Hrid, Hid3, Hid2|]. intros id.
    rewrite Hsteps, Hs3, Hadv, skips_nonce, insert_nonce
      by (by destruct (step_at (wr_Steps run1) (protocol.StepID evt))).
    by destruct (Hsame id) as (_ & -> & _).
Qed.

Lemma start_inv run : engine_start run → run_inv run.
Proof.
  intros [new_id clock run0 run' ready Hid Hst Hca Hpend Hnew Hck Hpass].
  assert (steps_inv (wr_Steps run0)) as Hinv.
  { split.
    - intros s d _ Hs. by rewrite Hpend in Hs.
    - intros id. by rewrite Hpend.
    - intros id _. by rewrite Hpend.
    - intros id r. by rewrite Hpend. }
  destruct (decide (wd_Steps def = [])) as [Hnil|Hcons].
  { destruct ready as [|s ready]; [by apply enqueueReady_nonempty in Hpass|].
    apply enqueueReady_ok in Hpass as (_ & Hin & _); [|apply Hnodup].
    destruct (Hin 0%nat s eq_refl) as ((Hs & _) & _). rewrite Hnil in Hs.
    by apply elem_of_nil in Hs. }
  eapply (pass_inv new_id clock run0 run' (PassDispatch ready)); try done.
  - by rewrite Hst.
  - intros Hall. destruct (wd_Steps def) as [|s l] eqn:Hl; [done|].
    specialize (Hall s). rewrite Hl, Hpend in Hall. specialize (Hall ltac:(left)
      (pl_aux def Hdef _)). done.
  - intros id. by rewrite Hpend.
  - intros m Hm. rewrite countActiveSteps_size.
    destruct (set_choose_or_empty (active_ids (wr_Steps run0))) as [[id Hin]|He].
    + apply active_ids_elem in Hin. by rewrite Hpend in Hin.
    + rewrite (leibniz_equiv _ _ He), size_empty. unfold step_limit in Hm.
      repeat case_match; simplify_eq. cbn. lia.
  - apply (saved_dispatch (clock 0%nat)).
Qed.

(** Every persisted state of a run keeps the invariant. *)
Lemma reachable_inv run : reachable run → run_inv run.
Proof.
  intros (run0 & Hstart & Hsteps). apply start_inv in Hstart.
  induction Hsteps as [run0|run0 run1 run2 Hstep _ IH]; [done|]. apply IH.
  destruct Hstep as [new_id clock evt res run' ? ? ? ?|now evt run' e ? ?
    |new_id clock evt sd err r1 run' ? ? ? ? ?].
  - by eapply completed_inv; [apply run_inv_safe|..].
  - by eapply started_inv.
  - eapply failed_inv; [by apply run_inv_safe|done..].
Qed.

(** ** Events that count, once *)

Lemma fence_passes run evt :
  wr_RunID run = protocol.RunID evt → step_event evt →
  answers (step_at (wr_Steps run) (protocol.StepID evt)) evt →
  ∃ run1, fenceStepEvent false run evt = Ret (Some run1).
Proof.
  intros Hrun Hev Hans.
  destruct (fenceStepEvent_spec false run evt Hrun Hev) as [[Hn _]|(_ & run1 & -> & _)]; [|eauto].
  exfalso. apply Hn, accepted_iff; [done|by right].
Qed.

(** A step that is neither a map instance nor a planner or respond step. *)
Definition ordinary (id : string) : Prop :=
  isMapInstanceID id = false ∧
  ∀ s, s ∈ wd_Steps def → sd_ID s = id → sd_Type s ≠ StepTypePlanner ∧ sd_Type s ≠ StepTypeRespond.

Lemma completed_unfold new_id clock legacy run evt :
  wr_RunID run = protocol.RunID evt → protocol.RunID evt ≠ "" → protocol.StepID evt ≠ "" →
  IsTerminal (wr_Status run) = false → ordinary (protocol.StepID evt) →
  handleStepCompleted new_id clock legacy def run evt =
    (fenced ← fenceStepEvent legacy run evt;
     match fenced with
     | None => Ret CompletedIgnored
     | Some run1 => apply_completed new_id clock def run1 evt
     end).
Proof.
  intros Hrun Hr%empty_str_false Hs%empty_str_false Ht [Hmap Hty].
  unfold handleStepCompleted, lateEventForTerminalRun.
  rewrite (bool_decide_eq_true_2 _ Hrun), Hr, Hs, Ht, Hmap. cbn [panic_if mbind outcome_bind negb].
  destruct (findStepDef def (protocol.StepID evt)) as [s|] eqn:Hf; [|done].
  apply find_first_Some in Hf as [Hin Heq%bool_decide_eq_true].
  destruct (Hty s Hin Heq) as [H1 H2].
  by rewrite (bool_decide_eq_false_2 _ H1), (bool_decide_eq_false_2 _ H2).
Qed.

(** A completion that answers the step's dispatch is applied. *)
Lemma completion_applied new_id clock run evt :
  run_inv run → IsTerminal (wr_Status run) = false →
  wr_RunID run = protocol.RunID evt → step_event evt →
  payload_ok (protocol.Payload evt) → ordinary (protocol.StepID evt) →
  answers (step_at (wr_Steps run) (protocol.StepID evt)) evt →
  (∀ k, new_id k ≠ "") → (∀ k, IsZero (clock k) = false) →
  ∃ res, handleStepCompleted new_id clock false def run evt = Ret res ∧
    ((∃ r, res = CompletedRun r ∧ all_resolved def (wr_Steps r) ∧
       status_of (wr_Steps r) (protocol.StepID evt) = StepStatusCompleted) ∨
     (∃ saved, res = CompletedSave saved ∧
       status_of (wr_Steps saved) (protocol.StepID evt) = StepStatusCompleted ∧
       ∃ r pend, enqueueReady new_id clock def saved = Ret (r, pend))).
Proof.
  intros [Hid Hinv _ _ _ _] Hterm Hrun [Hsid Hty] Hpay Hord Hans Hnew Hck.
  rewrite completed_unfold by (done || congruence).
  destruct (fence_passes run evt Hrun (conj Hsid Hty) Hans) as [run1 Hf].
  rewrite Hf. cbn [mbind outcome_bind].
  apply fence_accepts in Hf as (_ & Hid1 & Hst1 & Hsame); [|done].
  assert (steps_inv (wr_Steps run1)) as Hinv1 by (by eapply steps_inv_same).
  destruct (Advance_completed def run1 (protocol.StepID evt) (protocol.Payload evt) Hsid
    (si_outputs _ Hinv1) Hpay) as (run2 & eff & Hadv & Hsteps & Hcase).
  unfold apply_completed, no_failure. rewrite Hadv. cbn [mbind outcome_bind].
  rewrite plain_no_recovery, plain_no_compensation by done. cbn [mbind outcome_bind].
  assert (status_of (wr_Steps run2) (protocol.StepID evt) = StepStatusCompleted) as Hdone.
  { rewrite Hsteps, with_skips_at. case_decide as Hin.
    - apply skip_ids_pending in Hin as [Hr _]. unfold record_completed in Hr.
      by rewrite step_at_insert, ss_Status_set_Output, ss_Status_set in Hr.
    - unfold record_completed. by rewrite step_at_insert, ss_Status_set_Output, ss_Status_set. }
  rewrite completedSet_build. destruct (IsComplete def _) eqn:Hc.
  { apply IsComplete_resolved in Hc. eexists. split; [done|]. left. eauto. }
  assert (∃ saved, saveSnapshot (clock 0%nat) run2 = Ret saved) as [saved Hsave].
  { unfold saveSnapshot, stampTerminalSteps. pose proof (Advance_run_id _ _ _ _ _ Hadv) as Hid2.
    rewrite Hck, Hid2, Hid1, (proj2 (empty_str_false _) Hid). cbn. eauto. }
  rewrite Hsave. cbn [mbind outcome_bind].
  apply saveSnapshot_same in Hsave as (Hid3 & _ & Hsame3).
  destruct (enqueueReady_total new_id clock def saved) as (r & pend & Hpass); [|done..|].
  { rewrite Hid3, (Advance_run_id _ _ _ _ _ Hadv). congruence. }
  cbn. eexists. split; [done|]. right. exists saved. split_and!; [done| |eauto].
  by destruct (Hsame3 (protocol.StepID evt)) as (-> & _).
Qed.

(** A redelivered completion of a step that is no longer in flight is ignored. *)
Lemma completion_ignored new_id clock run evt :
  wr_RunID run = protocol.RunID evt → protocol.RunID evt ≠ "" → step_event evt →
  IsTerminal (wr_Status run) = false → ordinary (protocol.StepID evt) →
  active_status (status_of (wr_Steps run) (protocol.StepID evt)) = false →
  handleStepCompleted new_id clock false def run evt = Ret CompletedIgnored.
Proof.
  intros Hrun Hr [Hs Hty] Ht Hord Hact. rewrite completed_unfold by done.
  destruct (fenceStepEvent_spec false run evt Hrun (conj Hs Hty)) as [[_ ->]|(Hacc & _)]; [done|].
  apply accepted_iff in Hacc as [[_ ?]|Hans%answers_active]; [done|congruence|done].
Qed.
End System.

(** ** From validation to the engine *)

(** Definitions without failure handlers and compensations, and also without
    respond steps. *)
Definition no_handlers (def : WorkflowDef) : Prop :=
  (∀ id, is_set (wd_AuxSteps def) id = false) ∧
  (∀ s, s ∈ wd_Steps def → sd_OnFailure s = "" ∧ sd_Compensate s = "").

Definition no_recovery (def : WorkflowDef) : Prop := no_handlers def ∧ no_respond def.

(** A validated definition without recovery is one the engine runs to its end. *)
Lemma validated_plain LoadLocation def :
  WellFormed LoadLocation def → no_handlers def →
  plain def ∧ ∀ m, step_limit def = Some m → m ≤ int64_max.
Proof.
  intros Hwf [Haux Hrec]. split.
  - split; [split|..]; [| | | |done|done].
    + apply (wf_unique _ _ Hwf).
    + intros d id (s & Hs & _ & Hd)%edges_elem.
      by apply (so_deps _ _ _ (wf_step _ _ Hwf s Hs)).
    + apply (wf_acyclic _ _ Hwf).
    + intros s d _ _. apply Haux.
  - intros m. unfold step_limit. destruct (wd_Concurrency def) as [c|] eqn:Hc; [|done].
    destruct (0 <? cl_MaxSteps c); [|done]. intros [= <-].
    destruct (wf_concurrency _ _ Hwf c Hc) as [_ H]. unfold int64_max. lia.
Qed.
