(* ===== verification/Timers.v ===== *)
(** * Task messages and durable timers (internal/engine/sleeptimer.go,
      task_publisher.go, grant_policy.go)

    What the engine puts on the task stream: the payload of a first dispatch
    ([doPublish]), of an agent-loop iteration ([PublishIteration]) and of the
    dispatches a durable timer sends again; the subjects they go to, their
    deduplication ids, and the capability strip of the grant policy.  A timer
    reads the run's snapshot when it fires: the loaded run is an argument, [None]
    when the load failed.  [new_id] is the identifier minted where a dispatch has
    none.  Tracing, metrics and the consumer's set-up are left out. *)

From S2P Require Import Prelude Json Types Graph Resolve GoTime Dispatch Fence.
From stdpp Require Import relations pretty.

#[local] Open Scope Z_scope.

(** ** Capability grants (grant_policy.go) *)

Definition controlPlaneCapability : string := "control-plane".

Record GrantPolicy : Type := MkGrantPolicy {
  gp_grant : gset string;
  gp_promote : gset string;
}.

Definition NewGrantPolicy (grant promote : list string) : GrantPolicy :=
  MkGrantPolicy (list_to_set grant) (list_to_set promote).

(** A nil policy denies, and so does an empty workflow name. *)
Definition GrantsControlPlane (p : option GrantPolicy) (workflowName : string) : bool :=
  match p with
  | None => false
  | Some p => negb (empty_str workflowName) && bool_decide (workflowName ∈ gp_grant p)
  end.

Definition AllowsPromote (p : option GrantPolicy) (workflowName : string) : bool :=
  match p with
  | None => false
  | Some p => negb (empty_str workflowName) && bool_decide (workflowName ∈ gp_promote p)
  end.

Definition stripControlPlaneCapability (caps : list string) : list string :=
  if bool_decide (controlPlaneCapability ∈ caps)
  then filter (λ c, c ≠ controlPlaneCapability) caps else caps.

Definition effectiveCapabilities (caps : list string) (workflowName : string)
    (p : option GrantPolicy) : list string :=
  if negb (bool_decide (controlPlaneCapability ∈ caps)) then caps
  else if GrantsControlPlane p workflowName then caps
  else filter (λ c, c ≠ controlPlaneCapability) caps.

(** ** Subjects and payloads *)

Record TaskPayload : Type := MkTaskPayload {
  tp_TaskID : string;
  tp_RunID : string;
  tp_StepID : string;
  tp_Iteration : Z;
  tp_Attempt : Z;
  tp_Input : option raw;
  tp_Metadata : gmap string string;
  tp_RequiredCapabilities : list string;
  tp_DispatchNonce : string;
  tp_WorkflowName : string;
  tp_State : option string;
  tp_StateMaxBytes : Z;
  tp_AgentLoop : bool;
}.

(** A message for the task stream, with its [Nats-Msg-Id]. *)
Record TaskMsg : Type := MkTaskMsg {
  msg_Subject : string;
  msg_ID : string;
  msg_Payload : TaskPayload;
}.

Definition GroupSentinel : string := "=".

Definition nonceOrMint (new_id nonce : string) : string :=
  if empty_str nonce then new_id else nonce.

Section Publisher.
Context (stepRoutes : StepType → option string) (policy : option GrantPolicy)
        (loopStateMaxBytes : Z) (new_id : string).

Definition StepSubject (step : StepDef) (runID : string) : outcome string :=
  panic_if (empty_str runID) "StepSubject: runID must not be empty";;
  panic_if (empty_str (sd_Task step)) "StepSubject: step.Task must not be empty";;
  let prefix := default "task" (stepRoutes (sd_Type step)) in
  let subject := prefix +:+ "." +:+ sd_Task step in
  let subject := if empty_str (sd_WorkerGroup step) then subject
                 else subject +:+ "." +:+ GroupSentinel +:+ sd_WorkerGroup step in
  Ret (subject +:+ "." +:+ runID).

Definition doPublish (runID : string) (step : StepDef) (input : option raw) (run : WorkflowRun)
    (workflowName dispatchNonce : string) : outcome TaskMsg :=
  panic_if (empty_str runID) "doPublish: runID must not be empty";;
  panic_if (empty_str (sd_ID step)) "doPublish: step.ID must not be empty";;
  '(attempt, iteration) ← dispatchIdentity run (sd_ID step) dispatchNewAttempt;
  subject ← StepSubject step runID;
  Ret (MkTaskMsg subject (runID +:+ "." +:+ sd_ID step +:+ ".queued")
    {| tp_TaskID := runID +:+ "." +:+ sd_ID step; tp_RunID := runID; tp_StepID := sd_ID step;
       tp_Iteration := iteration; tp_Attempt := attempt; tp_Input := input;
       tp_Metadata := sd_Metadata step;
       tp_RequiredCapabilities :=
         effectiveCapabilities (sd_RequiredCapabilities step) workflowName policy;
       tp_DispatchNonce := nonceOrMint new_id dispatchNonce; tp_WorkflowName := workflowName;
       tp_State := ss_LoopState (step_at (wr_Steps run) (sd_ID step));
       tp_StateMaxBytes := loopStateMaxBytes;
       tp_AgentLoop := bool_decide (sd_Type step = StepTypeAgentLoop) |}).

Definition PublishIteration (runID : string) (step : StepDef) (input : option raw)
    (attempt iteration : Z) (workflowName dispatchNonce : string) (loopState : option string)
    : outcome TaskMsg :=
  panic_if (empty_str runID) "PublishIteration: runID must not be empty";;
  panic_if (empty_str (sd_ID step)) "PublishIteration: step.ID must not be empty";;
  subject ← StepSubject step runID;
  Ret (MkTaskMsg subject (runID +:+ "." +:+ sd_ID step +:+ ".continue." +:+ pretty iteration)
    {| tp_TaskID := runID +:+ "." +:+ sd_ID step; tp_RunID := runID; tp_StepID := sd_ID step;
       tp_Iteration := iteration; tp_Attempt := attempt; tp_Input := input;
       tp_Metadata := sd_Metadata step;
       tp_RequiredCapabilities :=
         effectiveCapabilities (sd_RequiredCapabilities step) workflowName policy;
       tp_DispatchNonce := nonceOrMint new_id dispatchNonce; tp_WorkflowName := workflowName;
       tp_State := loopState; tp_StateMaxBytes := loopStateMaxBytes;
       tp_AgentLoop := bool_decide (sd_Type step = StepTypeAgentLoop) |}).

(** ** Timers *)

Definition TimerAction : Type := string.
Definition TimerActionSleepComplete : TimerAction := "sleep_complete".
Definition TimerActionRateRetry : TimerAction := "rate_retry".
Definition TimerActionWaitTimeout : TimerAction := "wait_timeout".
Definition TimerActionRetryAfter : TimerAction := "retry_after".
Definition TimerActionRetryBackoff : TimerAction := "retry_backoff".
Definition TimerActionTaskConcurRetry : TimerAction := "task_concurrency_retry".
Definition TimerActionDebounce : TimerAction := "debounce_fire".
Definition TimerActionStepTimeout : TimerAction := "step_timeout".
Definition TimerActionLoopDelay : TimerAction := "loop_delay".
Definition TimerActionLoopWait : TimerAction := "loop_wait".
Definition TimerActionApprovalTimeout : TimerAction := "approval_timeout".

Record TimerMessage : Type := MkTimer {
  tm_Action : TimerAction;
  tm_RunID : string;
  tm_StepID : string;
  tm_DurationMs : Z;
  tm_TaskType : string;
  tm_Input : option raw;
  tm_Attempt : Z;
  tm_DispatchNonce : string;
  tm_RequiredCapabilities : list string;
  tm_WorkflowName : string;
  tm_Subject : string;
  tm_Metadata : gmap string string;
  tm_Iteration : Z;
}.

Definition dispatchSubject (tm : TimerMessage) : outcome string :=
  panic_if (empty_str (tm_RunID tm)) "TimerMessage.dispatchSubject: RunID must not be empty";;
  if negb (empty_str (tm_Subject tm)) then Ret (tm_Subject tm)
  else
    panic_if (empty_str (tm_TaskType tm))
      "TimerMessage.dispatchSubject: legacy timer has no TaskType";;
    Ret ("task." +:+ tm_TaskType tm +:+ "." +:+ tm_RunID tm).

(** [Schedule]: the subject and the message id of a timer. *)
Definition Schedule (msg : TimerMessage) : outcome (string * string) :=
  panic_if (empty_str (tm_RunID msg)) "SleepTimer.Schedule: RunID must not be empty";;
  panic_if (empty_str (tm_StepID msg)) "SleepTimer.Schedule: StepID must not be empty";;
  let action := if empty_str (tm_Action msg) then "sleep" else tm_Action msg in
  let msgID := tm_RunID msg +:+ "." +:+ tm_StepID msg +:+ "." +:+ action in
  let msgID := if 0 <? tm_Attempt msg then msgID +:+ "." +:+ pretty (tm_Attempt msg) else msgID in
  let msgID := if 0 <? tm_Iteration msg then msgID +:+ "." +:+ pretty (tm_Iteration msg) else msgID in
  Ret ("sleep." +:+ tm_RunID msg +:+ "." +:+ tm_StepID msg, msgID).

(** Why a dispatch timer no longer belongs to the step's state; empty when it
    may fire. *)
Definition redispatchStale (tm : TimerMessage) (state : StepState) : outcome string :=
  panic_if (empty_str (tm_RunID tm)) "redispatchStale: RunID must not be empty";;
  panic_if (empty_str (tm_StepID tm)) "redispatchStale: StepID must not be empty";;
  let inFlight := bool_decide (ss_Status state = StepStatusQueued) ||
                  bool_decide (ss_Status state = StepStatusRunning) in
  Ret (if bool_decide (tm_Action tm = TimerActionRetryAfter) ||
          bool_decide (tm_Action tm = TimerActionRetryBackoff) then
         if negb inFlight then "step not in flight"
         else if bool_decide (ss_RetryDispatchAt state = None) then "no retry pending"
         else if (0 <? tm_Attempt tm) && negb (tm_Attempt tm =? ss_Attempts state)
         then "attempt moved on" else ""
       else if bool_decide (tm_Action tm = TimerActionRateRetry) ||
               bool_decide (tm_Action tm = TimerActionTaskConcurRetry) then
         if negb (bool_decide (ss_Status state = StepStatusPending)) &&
            negb (bool_decide (ss_Status state = StepStatusQueued))
         then "step already started"
         else if negb (empty_str (tm_DispatchNonce tm)) &&
                 negb (bool_decide (tm_DispatchNonce tm = ss_DispatchNonce state))
         then "dispatch moved on" else ""
       else "").

Record redispatch : Type := MkRedispatch {
  rd_attempt : Z;
  rd_iteration : Z;
  rd_loopState : option string;
  rd_nonce : string;
  rd_stale : string;
}.

(** The identity of a re-dispatch, from the live snapshot; the timer's own nonce
    where there is no snapshot. *)
Definition identityForRedispatch (loaded : option WorkflowRun) (tm : TimerMessage)
    : outcome redispatch :=
  panic_if (empty_str (tm_RunID tm)) "identityForRedispatch: runID must not be empty";;
  panic_if (empty_str (tm_StepID tm)) "identityForRedispatch: stepID must not be empty";;
  let fallback := nonceOrMint new_id (tm_DispatchNonce tm) in
  match loaded with
  | None => Ret (MkRedispatch 0 0 None fallback "")
  | Some run =>
      let state := step_at (wr_Steps run) (tm_StepID tm) in
      '(attempt, iteration) ← dispatchIdentity run (tm_StepID tm) dispatchNewAttempt;
      stale ← redispatchStale tm state;
      Ret (MkRedispatch attempt iteration (ss_LoopState state)
             (if empty_str (ss_DispatchNonce state) then fallback else ss_DispatchNonce state)
             stale)
  end.

(** The payload a timer re-publishes. *)
Definition redispatchPayload (tm : TimerMessage) (rd : redispatch) : TaskPayload :=
  {| tp_TaskID := tm_RunID tm +:+ "." +:+ tm_StepID tm; tp_RunID := tm_RunID tm;
     tp_StepID := tm_StepID tm; tp_Iteration := rd_iteration rd; tp_Attempt := rd_attempt rd;
     tp_Input := tm_Input tm; tp_Metadata := tm_Metadata tm;
     tp_RequiredCapabilities := tm_RequiredCapabilities tm; tp_DispatchNonce := rd_nonce rd;
     tp_WorkflowName := tm_WorkflowName tm; tp_State := rd_loopState rd;
     tp_StateMaxBytes := loopStateMaxBytes; tp_AgentLoop := false |}.

Definition fireRateRetry (loaded : option WorkflowRun) (tm : TimerMessage)
    : outcome (option TaskMsg) :=
  panic_if (empty_str (tm_RunID tm)) "fireRateRetry: RunID must not be empty";;
  panic_if (empty_str (tm_TaskType tm)) "fireRateRetry: TaskType must not be empty";;
  subject ← dispatchSubject tm;
  rd ← identityForRedispatch loaded tm;
  if negb (empty_str (rd_stale rd)) then Ret None
  else Ret (Some (MkTaskMsg subject (tm_RunID tm +:+ "." +:+ tm_StepID tm +:+ ".rate_retry")
                    (redispatchPayload tm rd))).

Definition republishTask (loaded : option WorkflowRun) (tm : TimerMessage) (kind : string)
    : outcome (option TaskMsg) :=
  panic_if (empty_str kind) "republishTask: kind must not be empty";;
  panic_if (empty_str (tm_RunID tm)) "republishTask: RunID must not be empty";;
  subject ← dispatchSubject tm;
  rd ← identityForRedispatch loaded tm;
  if negb (empty_str (rd_stale rd)) then Ret None
  else Ret (Some (MkTaskMsg subject
         (tm_RunID tm +:+ "." +:+ tm_StepID tm +:+ "." +:+ kind +:+ "." +:+ pretty (rd_attempt rd))
         (redispatchPayload tm rd))).

Definition fireRetryAfter (loaded : option WorkflowRun) (tm : TimerMessage)
    : outcome (option TaskMsg) :=
  panic_if (empty_str (tm_RunID tm)) "fireRetryAfter: RunID must not be empty";;
  panic_if (empty_str (tm_TaskType tm)) "fireRetryAfter: TaskType must not be empty";;
  republishTask loaded tm "retry_after".

Definition fireRetryBackoff (loaded : option WorkflowRun) (tm : TimerMessage)
    : outcome (option TaskMsg) :=
  panic_if (empty_str (tm_RunID tm)) "fireRetryBackoff: RunID must not be empty";;
  panic_if (empty_str (tm_TaskType tm)) "fireRetryBackoff: TaskType must not be empty";;
  republishTask loaded tm "retry_backoff".

Definition fireLoopDelay (loaded : option WorkflowRun) (tm : TimerMessage)
    : outcome (option TaskMsg) :=
  panic_if (empty_str (tm_RunID tm)) "fireLoopDelay: RunID must not be empty";;
  panic_if (empty_str (tm_StepID tm)) "fireLoopDelay: StepID must not be empty";;
  match loaded with
  | None => Ret None
  | Some run =>
      let state := step_at (wr_Steps run) (tm_StepID tm) in
      let inFlight := bool_decide (ss_Status state = StepStatusRunning) ||
                      bool_decide (ss_Status state = StepStatusQueued) in
      if negb inFlight || negb (ss_Iterations state =? tm_Iteration tm) ||
         negb (bool_decide (ss_DispatchNonce state = tm_DispatchNonce tm))
      then Ret None
      else
        subject ← dispatchSubject tm;
        Ret (Some (MkTaskMsg subject
               (tm_RunID tm +:+ "." +:+ tm_StepID tm +:+ ".continue." +:+ pretty (ss_Iterations state))
               (redispatchPayload tm (MkRedispatch (ss_Attempts state) (ss_Iterations state)
                  (ss_LoopState state) (tm_DispatchNonce tm) ""))))
  end.

(** ** Deliveries of a timer (handleTimerJS)

    The first delivery is sent back with the timer's delay; a later one fires
    and is acknowledged.  [TimerFire] names what the source then calls. *)

Inductive timer_delivery : Type :=
  | TimerNak (delay : Z)
  | TimerTask (msg : outcome (option TaskMsg))
  | TimerEvent (eventType : protocol.EventType)
  | TimerStepTimeout
  | TimerLoopWait
  | TimerDebounce
  | TimerUnknown.

Definition EventStepSleepCompleted : protocol.EventType := "step.sleep.completed".
Definition EventStepWaitTimeout : protocol.EventType := "step.wait.timeout".
Definition EventApprovalExpired : protocol.EventType := "approval.expired".

Definition handleTimer (loaded : option WorkflowRun) (numDelivered : N) (tm : TimerMessage)
    : timer_delivery :=
  if (numDelivered =? 1)%N then
    let delay := wrap64 (tm_DurationMs tm * Millisecond) in
    TimerNak (if delay <=? 0 then Millisecond else delay)
  else if bool_decide (tm_Action tm = TimerActionSleepComplete) then TimerEvent EventStepSleepCompleted
  else if bool_decide (tm_Action tm = TimerActionRateRetry) then TimerTask (fireRateRetry loaded tm)
  else if bool_decide (tm_Action tm = TimerActionWaitTimeout) then TimerEvent EventStepWaitTimeout
  else if bool_decide (tm_Action tm = TimerActionRetryAfter) then TimerTask (fireRetryAfter loaded tm)
  else if bool_decide (tm_Action tm = TimerActionRetryBackoff) then TimerTask (fireRetryBackoff loaded tm)
  else if bool_decide (tm_Action tm = TimerActionApprovalTimeout) then TimerEvent EventApprovalExpired
  else if bool_decide (tm_Action tm = TimerActionTaskConcurRetry) then TimerTask (fireRateRetry loaded tm)
  else if bool_decide (tm_Action tm = TimerActionDebounce) then TimerDebounce
  else if bool_decide (tm_Action tm = TimerActionStepTimeout) then TimerStepTimeout
  else if bool_decide (tm_Action tm = TimerActionLoopDelay) then TimerTask (fireLoopDelay loaded tm)
  else if bool_decide (tm_Action tm = TimerActionLoopWait) then TimerLoopWait
  else TimerUnknown.

(** ** Rate and concurrency gates (TaskPublisher.Publish)

    What the publisher does once the rate limiter and the slot manager answered;
    [rate] is the limiter's delay when it refused, [slot] the answer of
    [AcquireTask] for a step with a concurrency limit. *)

Inductive publish_step : Type :=
  | PublishNow (msg : TaskMsg)
  | PublishLater (timer : TimerMessage).

Definition scheduleRateRetry (step : StepDef) (runID : string) (input : option raw)
    (retryAfter : Z) (workflowName nonce : string) : outcome TimerMessage :=
  panic_if (empty_str runID) "scheduleRateRetry: runID must not be empty";;
  panic_if (empty_str (sd_ID step)) "scheduleRateRetry: step.ID must not be empty";;
  subject ← StepSubject step runID;
  let durationMs := Z.quot retryAfter Millisecond in
  Ret {| tm_Action := TimerActionRateRetry; tm_RunID := runID; tm_StepID := sd_ID step;
         tm_DurationMs := if durationMs <=? 0 then 100 else durationMs;
         tm_TaskType := sd_Task step; tm_Input := input; tm_Attempt := 0;
         tm_DispatchNonce := nonce;
         tm_RequiredCapabilities :=
           effectiveCapabilities (sd_RequiredCapabilities step) workflowName policy;
         tm_WorkflowName := workflowName; tm_Subject := subject;
         tm_Metadata := sd_Metadata step; tm_Iteration := 0 |}.

Definition scheduleConcurrencyRetry (step : StepDef) (runID : string) (input : option raw)
    (workflowName nonce : string) : outcome TimerMessage :=
  panic_if (empty_str runID) "scheduleConcurrencyRetry: runID must not be empty";;
  panic_if (empty_str (sd_ID step)) "scheduleConcurrencyRetry: step.ID must not be empty";;
  subject ← StepSubject step runID;
  Ret {| tm_Action := TimerActionTaskConcurRetry; tm_RunID := runID; tm_StepID := sd_ID step;
         tm_DurationMs := 1000; tm_TaskType := sd_Task step; tm_Input := input; tm_Attempt := 0;
         tm_DispatchNonce := nonce;
         tm_RequiredCapabilities :=
           effectiveCapabilities (sd_RequiredCapabilities step) workflowName policy;
         tm_WorkflowName := workflowName; tm_Subject := subject;
         tm_Metadata := sd_Metadata step; tm_Iteration := 0 |}.

(** [Publish] for a run without a sticky worker. *)
Definition Publish (rate : option Z) (slot : bool) (runID : string) (step : StepDef)
    (input : option raw) (run : WorkflowRun) (workflowName dispatchNonce : string)
    : outcome publish_step :=
  panic_if (empty_str runID) "TaskPublisher.Publish: runID must not be empty";;
  panic_if (empty_str (sd_ID step)) "TaskPublisher.Publish: step.ID must not be empty";;
  panic_if (negb (empty_str (wr_RunID run)) && negb (bool_decide (wr_RunID run = runID)))
    "TaskPublisher.Publish: run.RunID must match runID";;
  match rate with
  | Some retryAfter =>
      t ← scheduleRateRetry step runID input retryAfter workflowName dispatchNonce;
      Ret (PublishLater t)
  | None =>
      if (0 <? sd_MaxTaskConcurrency step) && negb slot then
        t ← scheduleConcurrencyRetry step runID input workflowName dispatchNonce;
        Ret (PublishLater t)
      else
        m ← doPublish runID step input run workflowName dispatchNonce;
        Ret (PublishNow m)
  end.
End Publisher.
