(* ===== verification/Failures.v ===== *)
(** * Step failures and retries (internal/engine/retry_handlers.go)

    [handleStepFailed]: the fence, the kinds of failure, and for a retriable one
    the retry it saves and schedules, or the permanent failure handed to the
    recovery manager; the step-timeout watchdog.  A retry is the run that is
    saved and the durable timer scheduled after the save.  Metrics, logs and the
    branch of map instances are outside the model. *)

From S2P Require Import Prelude Float64 Json Types Config Condition Graph Resolve GoTime Validate ValidateSpec Retry Advance Dispatch Fence Recovery Handlers Engine Timers Lease Snapshot.
From stdpp Require Import relations pretty.

#[local] Open Scope Z_scope.

(** ** Failure payloads *)

Definition FailureTypeRetriable_ : string := "retriable".
Definition FailureTypeNonRetriable_ : string := "non_retriable".
Definition FailureTypeRetryAfter_ : string := "retry_after".

Record StepFailedPayload : Type := MkStepFailed {
  sf_Error : string;
  sf_FailureType : string;
  sf_RetryAfterMs : Z;
}.

Definition unmarshal_StepFailed : raw → outcome StepFailedPayload :=
  unmarshal_struct (MkStepFailed "" "" 0)
    (λ fs, e ← dec_field dec_string "error" "" fs;
           t ← dec_field dec_string "failure_type" "" fs;
           r ← dec_field dec_int "retry_after_ms" 0 fs;
           Ret (MkStepFailed e t r)).

(** [json.Unmarshal(data, &s)] with [s] a string. *)
Definition unmarshal_string (r : raw) : outcome string :=
  match r with
  | RawBad _ => Err (err_json "invalid character or unexpected end of JSON input")
  | RawJson v => dec_string "" v
  end.

Section Failures.
(** The bytes of a payload, and the engine's parameters. *)
Context (bytes_of : raw → string) (oob : f64 → Z).
Context (stepRoutes : StepType → option string).
Context (new_id : nat → string) (clock : nat → Time) (legacyStepEvents : bool).

Definition parseFailPayload (data : option raw) : StepFailedPayload :=
  match data with
  | None => MkStepFailed "" FailureTypeRetriable_ 0
  | Some r =>
      if raw_empty r then MkStepFailed "" FailureTypeRetriable_ 0
      else
        let old :=
          match unmarshal_string r with
          | Ret s => MkStepFailed s FailureTypeRetriable_ 0
          | _ => MkStepFailed (bytes_of r) FailureTypeRetriable_ 0
          end in
        match unmarshal_StepFailed r with
        | Ret p =>
            if empty_str (sf_Error p) then old
            else if empty_str (sf_FailureType p)
            then MkStepFailed (sf_Error p) FailureTypeRetriable_ (sf_RetryAfterMs p)
            else p
        | _ => old
        end
  end.

(** ** Delays *)

Definition retryAfterDelayMs (retryAfterMs : Z) : Z :=
  if retryAfterMs <=? 0 then 100
  else if 3600000 <? retryAfterMs then 3600000 else retryAfterMs.

Definition retryBackoffDelayMs (policy : RetryPolicy) (attempts : Z) : outcome Z :=
  panic_if (attempts <? 1) "retryBackoffDelayMs: attempts must be >= 1";;
  delay ← CalculateDelay oob policy attempts;
  Ret (Z.min (Z.max (Milliseconds delay) 1) 3600000).

Definition markRetryPending (now : Time) (delayMs : Z) (state : StepState) : outcome StepState :=
  panic_if (delayMs <? 1) "markRetryPending: delayMs must be positive";;
  Ret (ss_set_RetryDispatchAt (Some (Time_Add now (wrap64 (delayMs * Millisecond))))
         (ss_set_AttemptStartedAt None state)).

(** ** Timers of retries *)

Definition retry_timer (action : TimerAction) (runID stepID : string) (stepDef : StepDef)
    (delayMs : Z) (run : WorkflowRun) (workflowName : string) : outcome TimerMessage :=
  input ← ResolveInput stepDef (wr_Steps run) [wr_Input run];
  subject ← StepSubject stepRoutes stepDef runID;
  Ret {| tm_Action := action; tm_RunID := runID; tm_StepID := stepID; tm_DurationMs := delayMs;
         tm_TaskType := sd_Task stepDef; tm_Input := input;
         tm_Attempt := ss_Attempts (step_at (wr_Steps run) stepID);
         tm_DispatchNonce := ss_DispatchNonce (step_at (wr_Steps run) stepID);
         tm_RequiredCapabilities := []; tm_WorkflowName := workflowName;
         tm_Subject := subject; tm_Metadata := sd_Metadata stepDef; tm_Iteration := 0 |}.

Definition scheduleRetryAfter (runID stepID : string) (stepDef : StepDef) (retryAfterMs : Z)
    (run : WorkflowRun) (workflowName : string) : outcome TimerMessage :=
  panic_if (empty_str runID) "scheduleRetryAfter: runID must not be empty";;
  panic_if (empty_str stepID) "scheduleRetryAfter: stepID must not be empty";;
  wrap_err (λ e, Errorf "resolve input for retry-after step %q: %w" [AStr stepID; AErr e])
    (retry_timer TimerActionRetryAfter runID stepID stepDef (retryAfterDelayMs retryAfterMs)
       run workflowName).

Definition scheduleRetryBackoff (runID stepID : string) (stepDef : StepDef) (policy : RetryPolicy)
    (run : WorkflowRun) (workflowName : string) : outcome TimerMessage :=
  panic_if (empty_str runID) "scheduleRetryBackoff: runID must not be empty";;
  panic_if (empty_str stepID) "scheduleRetryBackoff: stepID must not be empty";;
  let attempts := ss_Attempts (step_at (wr_Steps run) stepID) in
  panic_if (attempts <? 1) "scheduleRetryBackoff: attempts must be >= 1";;
  panic_if (RetryAttemptCountMax <? attempts)
    "scheduleRetryBackoff: attempts exceeds RetryAttemptCountMax";;
  delayMs ← retryBackoffDelayMs policy attempts;
  wrap_err (λ e, Errorf "resolve input for retry-backoff step %q: %w" [AStr stepID; AErr e])
    (retry_timer TimerActionRetryBackoff runID stepID stepDef delayMs run workflowName).

(** ** The handler *)

Inductive failed_result : Type :=
  | FailedIgnored
  | FailedMapInstance
  | FailedRetry (saved : WorkflowRun) (timer : outcome TimerMessage)
  | FailedPermanent (rec : recovery).

(** The retry of either kind: a fresh dispatch stamped and saved, then its timer. *)
Definition retry_step (run : WorkflowRun) (stepID : string) (state : StepState) (delayMs : Z)
    : outcome WorkflowRun :=
  state ← stampDispatch (new_id 0) (clock 0) state;
  state ← markRetryPending (clock 1) delayMs state;
  saveSnapshot (clock 2) (set_step stepID state run).

Definition dispatchRetriableFailure (wfDef : WorkflowDef) (run : WorkflowRun) (state : StepState)
    (stepDef : StepDef) (evt : protocol.Event) (policy : option RetryPolicy)
    : outcome failed_result :=
  panic_if (empty_str (protocol.RunID evt)) "dispatchRetriableFailure: RunID must not be empty";;
  panic_if (empty_str (protocol.StepID evt)) "dispatchRetriableFailure: StepID must not be empty";;
  let permanent :=
    let state := ss_set_Status StepStatusFailed state in
    rec ← HandlePermanentFailure new_id clock wfDef (set_step (protocol.StepID evt) state run)
            stepDef state (protocol.StepID evt);
    Ret (FailedPermanent rec) in
  match policy with
  | Some p =>
      if ss_Attempts state <=? rp_MaxAttempts p then
        delayMs ← retryBackoffDelayMs p (ss_Attempts state);
        saved ← retry_step run (protocol.StepID evt) state delayMs;
        Ret (FailedRetry saved
          (scheduleRetryBackoff (protocol.RunID evt) (protocol.StepID evt) stepDef p saved
             (wd_Name wfDef)))
      else permanent
  | None => permanent
  end.

Definition handleRetryAfter (wfDef : WorkflowDef) (run : WorkflowRun) (stepDef : StepDef)
    (state : StepState) (stepID : string) (retryAfterMs : Z) (policy : option RetryPolicy)
    : outcome failed_result :=
  panic_if (empty_str stepID) "handleRetryAfter: stepID must not be empty";;
  panic_if (empty_str (wr_RunID run)) "handleRetryAfter: RunID must not be empty";;
  let permanent :=
    let state := ss_set_Status StepStatusFailed state in
    rec ← HandlePermanentFailure new_id clock wfDef (set_step stepID state run) stepDef state stepID;
    Ret (FailedPermanent rec) in
  match policy with
  | Some p =>
      if ss_Attempts state <=? rp_MaxAttempts p then
        saved ← retry_step run stepID state (retryAfterDelayMs retryAfterMs);
        Ret (FailedRetry saved
          (scheduleRetryAfter (wr_RunID run) stepID stepDef retryAfterMs saved (wd_Name wfDef)))
      else permanent
  | None => permanent
  end.

Definition handleStepFailed (wfDef : WorkflowDef) (run : WorkflowRun) (evt : protocol.Event)
    : outcome failed_result :=
  panic_if (empty_str (protocol.RunID evt)) "handleStepFailed: RunID must not be empty";;
  panic_if (empty_str (protocol.StepID evt)) "handleStepFailed: StepID must not be empty";;
  late ← lateEventForTerminalRun run evt;
  if late : bool then Ret FailedIgnored
  else if isMapInstanceID (protocol.StepID evt) then Ret FailedMapInstance
  else
    fenced ← fenceStepEvent legacyStepEvents run evt;
    match fenced with
    | None => Ret FailedIgnored
    | Some run =>
        let state := step_at (wr_Steps run) (protocol.StepID evt) in
        let low := ss_Attempts state <? 1 in
        let state := if low then ss_set_Attempts 1 state else state in
        let run := if low then set_step (protocol.StepID evt) state run else run in
        let failPayload := parseFailPayload (protocol.Payload evt) in
        let state := ss_set_Error (sf_Error failPayload) state in
        let stepDef := default zero_StepDef (findStepDef wfDef (protocol.StepID evt)) in
        let policy := ResolveRetryPolicy wfDef stepDef in
        if bool_decide (sf_FailureType failPayload = FailureTypeNonRetriable_) then
          rec ← dispatchNonRetriableFailure new_id clock wfDef run stepDef evt (sf_Error failPayload);
          Ret (FailedPermanent rec)
        else if bool_decide (sf_FailureType failPayload = FailureTypeRetryAfter_) then
          handleRetryAfter wfDef run stepDef state (protocol.StepID evt)
            (sf_RetryAfterMs failPayload) policy
        else dispatchRetriableFailure wfDef run state stepDef evt policy
    end.

(** ** The step-timeout watchdog *)

Definition scheduleStepTimeout (runID stepID : string) (stepDef : StepDef) (attempt elapsed : Z)
    : outcome TimerMessage :=
  panic_if (empty_str runID) "scheduleStepTimeout: runID must not be empty";;
  panic_if (elapsed <? 0) "scheduleStepTimeout: elapsed must not be negative";;
  panic_if (empty_str stepID) "scheduleStepTimeout: stepID must not be empty";;
  panic_if (sd_Timeout stepDef <=? 0) "scheduleStepTimeout: Timeout must be > 0";;
  panic_if (attempt <? 1) "scheduleStepTimeout: attempt must be >= 1";;
  let delayMs := Milliseconds (wrap64 (sd_Timeout stepDef - elapsed)) in
  let delayMs := if delayMs <? 1 then 1 else delayMs in
  let delayMs := if 86400000 <? delayMs then 86400000 else delayMs in
  Ret {| tm_Action := TimerActionStepTimeout; tm_RunID := runID; tm_StepID := stepID;
         tm_DurationMs := delayMs; tm_TaskType := sd_Task stepDef; tm_Input := None;
         tm_Attempt := attempt; tm_DispatchNonce := ""; tm_RequiredCapabilities := [];
         tm_WorkflowName := ""; tm_Subject := ""; tm_Metadata := ∅; tm_Iteration := 0 |}.

(** The synthetic failure of a step still running on the timer's attempt;
    [timeout_text] is the message with the elapsed time. *)
Definition fireStepTimeout (timeout_text : string) (now : Time) (loaded : option WorkflowRun)
    (tm : TimerMessage) : outcome (option protocol.Event) :=
  panic_if (empty_str (tm_RunID tm)) "fireStepTimeout: RunID must not be empty";;
  panic_if (empty_str (tm_StepID tm)) "fireStepTimeout: StepID must not be empty";;
  match loaded ≫= λ run, wr_Steps run !! tm_StepID tm with
  | None => Ret None
  | Some state =>
      if negb (bool_decide (ss_Status state = StepStatusRunning)) ||
         negb (ss_Attempts state =? tm_Attempt tm)
      then Ret None
      else
        evt ← protocol.NewStepEvent protocol.EventStepFailed (tm_RunID tm) (tm_StepID tm)
          (Some (RawJson (JObj [("error", JStr timeout_text);
                                ("failure_type", JStr FailureTypeRetriable_)]))) now;
        evt ← protocol.SetIdentity (ss_Iterations state) (tm_Attempt tm) (ss_DispatchNonce state) evt;
        Ret (Some evt)
  end.
End Failures.

(** ** Retries *)

Lemma stamp_live steps now steps' id :
  stampTerminalSteps steps now = Ret steps' → terminal_step (status_of steps id) = false →
  step_at steps' id = step_at steps id.
Proof.
  unfold stampTerminalSteps. destruct (IsZero now); [done|]. cbn. intros [= <-].
  unfold step_at. rewrite lookup_fmap. destruct (steps !! id) as [st|]; [|done]. cbn.
  unfold stamp_terminal. destruct (ss_CompletedAt st); [by rewrite ?andb_false_r|]. intros ->.
  done.
Qed.

Lemma retryAfterDelayMs_bounds ms : 1 ≤ retryAfterDelayMs ms ≤ 3600000.
Proof. unfold retryAfterDelayMs. repeat case_match; lia. Qed.

Lemma retryBackoffDelayMs_bounds oob p n d :
  retryBackoffDelayMs oob p n = Ret d → 1 ≤ d ≤ 3600000.
Proof.
  unfold retryBackoffDelayMs. rewrite bind_unit_ret_iff, bind_ret_iff.
  intros (_ & x & _ & [= <-]). lia.
Qed.

(** What a retry saves for the step it retries. *)
Record retried (nonce : string) (now : Time) (delayMs : Z) (st st' : StepState) : Prop := {
  rt_status : ss_Status st' = ss_Status st;
  rt_attempts : ss_Attempts st' = ss_Attempts st;
  rt_iterations : ss_Iterations st' = ss_Iterations st;
  rt_nonce : ss_DispatchNonce st' = nonce;
  rt_nonempty : nonce ≠ "";
  rt_clock : ss_AttemptStartedAt st' = None;
  rt_at : ss_RetryDispatchAt st' = Some (now + delayMs * Millisecond);
  rt_error : ss_Error st' = ss_Error st;
  rt_loop : ss_LoopState st' = ss_LoopState st;
}.

Lemma retry_step_spec new_id clock run id st d saved :
  retry_step new_id clock run id st d = Ret saved →
  active_status (ss_Status st) = true → 1 ≤ d ≤ 3600000 →
  retried (new_id 0%nat) (clock 1%nat) d st (step_at (wr_Steps saved) id) ∧
  wr_RunID saved = wr_RunID run ∧ wr_Status saved = wr_Status run ∧ wr_Input saved = wr_Input run.
Proof.
  unfold retry_step. intros H Hact Hd.
  apply bind_ret_iff in H as (st1 & Hst1 & H). apply bind_ret_iff in H as (st2 & Hst2 & H).
  unfold stampDispatch in Hst1. rewrite bind_unit_ret_iff, bind_unit_ret_iff in Hst1.
  destruct Hst1 as (_ & Hn%panic_if_ret_iff & [= <-]).
  unfold markRetryPending in Hst2. rewrite bind_unit_ret_iff in Hst2.
  destruct Hst2 as [_ [= <-]].
  unfold saveSnapshot in H. rewrite bind_unit_ret_iff, bind_ret_iff in H.
  destruct H as (_ & steps' & Hs & [= <-]).
  rewrite wr_Steps_set_Steps. unfold set_step in Hs. rewrite wr_Steps_set_Steps in Hs.
  rewrite (stamp_live _ _ _ id Hs).
  - rewrite step_at_insert. split; [|by destruct run].
    rewrite wrap64_id by (unfold in_int64, int64_min, int64_max, Millisecond; lia).
    destruct st; cbn in *. split; try done. by apply empty_str_false.
  - rewrite step_at_insert. destruct st; cbn in *. revert Hact. by destruct ss_Status.
Qed.

Lemma retry_timer_spec routes action runID id stepDef d run name tm :
  retry_timer routes action runID id stepDef d run name = Ret tm →
  tm_Action tm = action ∧ tm_RunID tm = runID ∧ tm_StepID tm = id ∧ tm_DurationMs tm = d ∧
  tm_TaskType tm = sd_Task stepDef ∧ tm_TaskType tm ≠ "" ∧
  tm_Attempt tm = ss_Attempts (step_at (wr_Steps run) id) ∧
  tm_DispatchNonce tm = ss_DispatchNonce (step_at (wr_Steps run) id) ∧
  StepSubject routes stepDef runID = Ret (tm_Subject tm) ∧ tm_RequiredCapabilities tm = [].
Proof.
  unfold retry_timer. intros H. apply bind_ret_iff in H as (input & _ & H).
  apply bind_ret_iff in H as (subject & Hs & [= <-]). cbn. split_and!; try done.
  unfold StepSubject in Hs. rewrite !bind_unit_ret_iff, !panic_if_ret_iff in Hs.
  destruct Hs as (_ & Hs%empty_str_false & _). done.
Qed.

Section RetrySpec.
Context (bytes_of : raw → string) (oob : f64 → Z) (routes : StepType → option string).
Context (new_id : nat → string) (clock : nat → Time).

(** The outcome of a retry, whoever chose the delay. *)
Definition retry_outcome (def : WorkflowDef) (run1 : WorkflowRun) (evt : protocol.Event)
    (saved : WorkflowRun) (timer : outcome TimerMessage) : Prop :=
  let id := protocol.StepID evt in
  let stepDef := default zero_StepDef (findStepDef def id) in
  ∃ p d, ResolveRetryPolicy def stepDef = Some p ∧ 1 ≤ d ≤ 3600000 ∧
    ss_Attempts (step_at (wr_Steps saved) id) =
      Z.max 1 (ss_Attempts (step_at (wr_Steps run1) id)) ∧
    ss_Attempts (step_at (wr_Steps saved) id) ≤ rp_MaxAttempts p ∧
    ss_Status (step_at (wr_Steps saved) id) = ss_Status (step_at (wr_Steps run1) id) ∧
    ss_Iterations (step_at (wr_Steps saved) id) = ss_Iterations (step_at (wr_Steps run1) id) ∧
    ss_DispatchNonce (step_at (wr_Steps saved) id) = new_id 0%nat ∧ new_id 0%nat ≠ "" ∧
    ss_RetryDispatchAt (step_at (wr_Steps saved) id) =
      Some (clock 1%nat + d * Millisecond) ∧
    wr_RunID saved = wr_RunID run1 ∧
    ∀ tm, timer = Ret tm →
      (tm_Action tm = TimerActionRetryAfter ∨ tm_Action tm = TimerActionRetryBackoff) ∧
      tm_RunID tm = wr_RunID run1 ∧ tm_StepID tm = id ∧ tm_DurationMs tm = d ∧
      tm_TaskType tm ≠ "" ∧
      tm_Attempt tm = ss_Attempts (step_at (wr_Steps saved) id) ∧
      tm_DispatchNonce tm = new_id 0%nat ∧
      StepSubject routes stepDef (wr_RunID run1) = Ret (tm_Subject tm).

(** The state the handler works on after the floor on attempts. *)
Definition floored (st : StepState) : StepState :=
  if ss_Attempts st <? 1 then ss_set_Attempts 1 st else st.

Lemma floored_spec st :
  ss_Attempts (floored st) = Z.max 1 (ss_Attempts st) ∧ ss_Status (floored st) = ss_Status st ∧
  ss_Iterations (floored st) = ss_Iterations st.
Proof. unfold floored. destruct (ss_Attempts st <? 1) eqn:H; destruct st; cbn in *; split_and!; lia || done. Qed.

Lemma set_step_RunID id st run : wr_RunID (set_step id st run) = wr_RunID run.
Proof. by destruct run. Qed.

Lemma backoff_outcome def run1 run2 st evt p d saved :
  wr_RunID run2 = wr_RunID run1 → protocol.RunID evt = wr_RunID run1 →
  active_status (ss_Status (step_at (wr_Steps run1) (protocol.StepID evt))) = true →
  ss_Attempts st = ss_Attempts (floored (step_at (wr_Steps run1) (protocol.StepID evt))) →
  ss_Status st = ss_Status (floored (step_at (wr_Steps run1) (protocol.StepID evt))) →
  ss_Iterations st = ss_Iterations (floored (step_at (wr_Steps run1) (protocol.StepID evt))) →
  ss_Attempts st ≤ rp_MaxAttempts p →
  ResolveRetryPolicy def (default zero_StepDef (findStepDef def (protocol.StepID evt))) = Some p →
  1 ≤ d ≤ 3600000 →
  retry_step new_id clock run2 (protocol.StepID evt) st d = Ret saved →
  ∀ action timer,
  (action = TimerActionRetryAfter ∨ action = TimerActionRetryBackoff) →
  (∀ tm, timer = Ret tm → retry_timer routes action (wr_RunID run1) (protocol.StepID evt)
     (default zero_StepDef (findStepDef def (protocol.StepID evt))) d saved (wd_Name def) = Ret tm) →
  retry_outcome def run1 evt saved timer.
Proof.
  intros Hid2 Hid Hact Ha Hs Hi Hmax Hp Hd Hretry action timer Haction Htimer.
  destruct (floored_spec (step_at (wr_Steps run1) (protocol.StepID evt))) as (Fa & Fs & Fi).
  rewrite Fa in Ha. rewrite Fs in Hs. rewrite Fi in Hi.
  destruct (retry_step_spec _ _ _ _ _ _ _ Hretry) as ([R1 R2 R3 R4 R5 R6 R7 R8 R9] & Hrid & _);
    [by rewrite Hs|done|].
  exists p, d. split_and!; try done; try congruence; try lia.
  intros tm Htm. apply Htimer, retry_timer_spec in Htm as (? & ? & ? & ? & ? & ? & ? & Hn & ? & _).
  split_and!; try done; [by subst action|congruence].
Qed.

Lemma handleStepFailed_retry def run evt saved timer :
  protocol.Type_ evt = protocol.EventStepFailed →
  handleStepFailed bytes_of oob routes new_id clock false def run evt =
    Ret (FailedRetry saved timer) →
  answers (step_at (wr_Steps run) (protocol.StepID evt)) evt ∧
  ∃ run1, fenceStepEvent false run evt = Ret (Some run1) ∧ retry_outcome def run1 evt saved timer.
Proof.
  intros Hty H. unfold handleStepFailed in H. rewrite !bind_unit_ret_iff in H.
  destruct H as (_ & _ & H). apply bind_ret_iff in H as (late & _ & H).
  destruct late; [done|]. destruct (isMapInstanceID _); [done|].
  apply bind_ret_iff in H as (fenced & Hf & H). destruct fenced as [run1|]; [|done].
  destruct (fence_accepts run evt run1) as (Hans & Hrid & _ & Hsame); [by rewrite Hty|done|].
  split; [done|]. exists run1. split; [done|].
  assert (wr_RunID run = protocol.RunID evt) as Hev.
  { unfold fenceStepEvent in Hf. rewrite !bind_unit_ret_iff, panic_if_ret_iff in Hf.
    destruct Hf as (Hb & _). by apply negb_false_iff, bool_decide_eq_true in Hb. }
  assert (active_status (ss_Status (step_at (wr_Steps run1) (protocol.StepID evt))) = true) as Hact.
  { destruct (Hsame (protocol.StepID evt)) as (-> & _). by eapply answers_active. }
  set (id := protocol.StepID evt) in *. set (st1 := step_at (wr_Steps run1) id) in *.
  change (if ss_Attempts st1 <? 1 then ss_set_Attempts 1 st1 else st1) with (floored st1) in H.
  set (run2 := if ss_Attempts st1 <? 1 then set_step id (floored st1) run1 else run1) in H.
  assert (wr_RunID run2 = wr_RunID run1) as Hid2
    by (unfold run2; destruct (_ <? 1); [apply set_step_RunID|done]).
  set (fp := parseFailPayload bytes_of (protocol.Payload evt)) in H.
  set (st := ss_set_Error (sf_Error fp) (floored st1)) in H.
  assert (ss_Attempts st = ss_Attempts (floored st1) ∧ ss_Status st = ss_Status (floored st1) ∧
    ss_Iterations st = ss_Iterations (floored st1)) as (Ea & Es & Ei) by (by destruct (floored st1)).
  case_bool_decide.
  { apply bind_ret_iff in H as (rec & _ & ?). done. }
  case_bool_decide.
  - unfold handleRetryAfter in H. rewrite !bind_unit_ret_iff in H. destruct H as (_ & _ & H).
    destruct (ResolveRetryPolicy def _) as [p|] eqn:Hp;
      [|by apply bind_ret_iff in H as (? & _ & ?)].
    destruct (ss_Attempts st <=? rp_MaxAttempts p) eqn:Hle;
      [|by apply bind_ret_iff in H as (? & _ & ?)].
    apply bind_ret_iff in H as (sv & Hretry & [= <- <-]).
    eapply backoff_outcome with (run2 := run2) (st := st) (p := p) (action := TimerActionRetryAfter);
      [done|congruence|done..|lia|done|apply retryAfterDelayMs_bounds|done|by left|].
    intros tm Htm. unfold scheduleRetryAfter in Htm. rewrite !bind_unit_ret_iff in Htm.
    destruct Htm as (_ & _ & Htm%wrap_err_ret_iff). rewrite Hid2 in Htm. exact Htm.
  - unfold dispatchRetriableFailure in H. rewrite !bind_unit_ret_iff in H. destruct H as (_ & _ & H).
    destruct (ResolveRetryPolicy def _) as [p|] eqn:Hp;
      [|by apply bind_ret_iff in H as (? & _ & ?)].
    destruct (ss_Attempts st <=? rp_MaxAttempts p) eqn:Hle;
      [|by apply bind_ret_iff in H as (? & _ & ?)].
    apply bind_ret_iff in H as (d & Hd & H). apply bind_ret_iff in H as (sv & Hretry & [= <- <-]).
    pose proof (retryBackoffDelayMs_bounds _ _ _ _ Hd) as Hb.
    assert (ss_Attempts (step_at (wr_Steps sv) id) = ss_Attempts st) as Hat.
    { destruct (retry_step_spec _ _ _ _ _ _ _ Hretry) as ([? ? ? ? ? ? ? ? ?] & _); try done.
      rewrite Es. destruct (floored_spec st1) as (_ & -> & _). done. }
    eapply backoff_outcome with (run2 := run2) (st := st) (p := p) (action := TimerActionRetryBackoff);
      [done|congruence|done..|lia|done|exact Hb|done|by right|].
    intros tm Htm. unfold scheduleRetryBackoff in Htm. rewrite !bind_unit_ret_iff in Htm.
    destruct Htm as (_ & _ & _ & _ & Htm). cbv zeta in Htm. fold id in Htm. rewrite Hat, Hd in Htm. cbn [mbind outcome_bind] in Htm.
    apply wrap_err_ret_iff in Htm. rewrite <-Hev, <-Hrid in Htm. exact Htm.
Qed.

(** After a retry, an event under any other dispatch of the step is refused:
    the failure itself again, or a late answer of the failed attempt. *)
Lemma retry_fences def run1 evt saved timer evt' :
  retry_outcome def run1 evt saved timer →
  protocol.RunID evt' = wr_RunID run1 → protocol.StepID evt' = protocol.StepID evt →
  step_event evt' → protocol.DispatchNonce evt' ≠ "" → protocol.DispatchNonce evt' ≠ new_id 0%nat →
  fenceStepEvent false saved evt' = Ret None.
Proof.
  intros (p & d & _ & _ & _ & _ & _ & _ & Hn & _ & _ & Hrid & _) Hrun Hid Hev Hne Hnew.
  destruct (fenceStepEvent_spec false saved evt') as [[_ H]|(Hacc & _)]; [congruence|done|done|].
  exfalso. apply accepted_iff in Hacc as [[_ ?]|Hans]; [done| |done].
  destruct Hans as (_ & _ & [(_ & _ & Heq)|(_ & _ & [?|Heq])]); [|done|];
    rewrite Hid, Hn in Heq; congruence.
Qed.

(** What a retry timer sends when it fires on a stored run. *)
Definition retry_due (tm : TimerMessage) (st : StepState) : Prop :=
  active_status (ss_Status st) = true ∧ ss_RetryDispatchAt st ≠ None ∧
  (0 < tm_Attempt tm → tm_Attempt tm = ss_Attempts st).

#[global] Instance retry_due_dec tm st : Decision (retry_due tm st).
Proof. unfold retry_due. apply _. Defined.

Lemma redispatchStale_retry tm st :
  tm_Action tm = TimerActionRetryAfter ∨ tm_Action tm = TimerActionRetryBackoff →
  tm_RunID tm ≠ "" → tm_StepID tm ≠ "" →
  ∃ why, redispatchStale tm st = Ret why ∧ (why = "" ↔ retry_due tm st).
Proof.
  intros Hact Hr Hs. unfold redispatchStale. rewrite (proj2 (empty_str_false _) Hr), (proj2 (empty_str_false _) Hs). cbn [panic_if mbind outcome_bind].
  eexists. split; [done|]. unfold retry_due, active_status.
  replace (_ || _) with true; [|by destruct Hact as [-> | ->]].
  destruct (_ || bool_decide (ss_Status st = _)); cbn [negb]; [|naive_solver].
  case_bool_decide as Hat; [naive_solver|].
  destruct (0 <? tm_Attempt tm) eqn:H0, (tm_Attempt tm =? ss_Attempts st) eqn:H1; cbn;
    split; intros; repeat split; try done; try lia; destruct_and?; lia.
Qed.

(** A retry timer on a stored run: the task of the step's next attempt under
    the dispatch of the run, as long as the retry is due. *)
Lemma retry_fire max mint run n tm :
  tm_Action tm = TimerActionRetryAfter ∨ tm_Action tm = TimerActionRetryBackoff →
  (n ≠ 1)%N → tm_RunID tm ≠ "" → tm_StepID tm ≠ "" → tm_TaskType tm ≠ "" →
  let st := step_at (wr_Steps run) (tm_StepID tm) in
  ∃ subject msgID why,
    handleTimer max mint (Some run) n tm = TimerTask (Ret
      (if decide (retry_due tm st) then
         Some (MkTaskMsg subject msgID (redispatchPayload max tm
           (MkRedispatch (wrap64 (ss_Attempts st + 1)) (ss_Iterations st) (ss_LoopState st)
              (if empty_str (ss_DispatchNonce st) then nonceOrMint mint (tm_DispatchNonce tm)
               else ss_DispatchNonce st) why)))
       else None)).
Proof.
  intros Hact Hn Hr Hs Ht st.
  destruct (redispatchStale_retry tm st) as (why & Hwhy & Hdue); [done..|].
  apply empty_str_false in Hr, Hs, Ht.
  assert (∃ subject, dispatchSubject tm = Ret subject) as [subject Hsub].
  { unfold dispatchSubject. rewrite Hr, Ht. cbn. case_match; by eexists. }
  assert (∀ kind, empty_str kind = false → ∃ msgID, republishTask max mint (Some run) tm kind =
    Ret (if empty_str why then Some (MkTaskMsg subject msgID (redispatchPayload max tm
           (MkRedispatch (wrap64 (ss_Attempts st + 1)) (ss_Iterations st) (ss_LoopState st)
              (if empty_str (ss_DispatchNonce st) then nonceOrMint mint (tm_DispatchNonce tm)
               else ss_DispatchNonce st) why))) else None)) as Hpub.
  { intros kind Hk. eexists. unfold republishTask, identityForRedispatch, dispatchIdentity.
    rewrite Hk, Hr, Hs. cbn [panic_if mbind outcome_bind]. rewrite Hsub.
    cbn [mbind outcome_bind]. fold st. rewrite Hwhy. cbn. by destruct (empty_str why). }
  assert (∃ kind, empty_str kind = false ∧
    handleTimer max mint (Some run) n tm = TimerTask (republishTask max mint (Some run) tm kind))
    as (kind & Hk & ->).
  { unfold handleTimer. rewrite (proj2 (N.eqb_neq n 1) Hn).
    destruct Hact as [Ha|Ha]; rewrite Ha; [exists "retry_after"|exists "retry_backoff"];
      (split; [done|]); cbn; unfold fireRetryAfter, fireRetryBackoff; by rewrite Hr, Ht. }
  destruct (Hpub kind Hk) as [msgID ->]. exists subject, msgID, why.
  destruct (decide _) as [Hd|Hd], (empty_str why) eqn:He; try done.
  - apply empty_str_false in He. by apply Hdue in Hd.
  - apply empty_str_true in He. by apply Hdue in He.
Qed.

(** The timer of a retry, fired on the saved run, sends the task of the next
    attempt under the retry's nonce; once the step has left that retry, it
    sends nothing. *)
Lemma retry_timer_fires def run1 evt saved tm max mint n :
  retry_outcome def run1 evt saved (Ret tm) → (n ≠ 1)%N →
  wr_RunID run1 ≠ "" → protocol.StepID evt ≠ "" →
  active_status (ss_Status (step_at (wr_Steps run1) (protocol.StepID evt))) = true →
  (∃ msg, handleTimer max mint (Some saved) n tm = TimerTask (Ret (Some msg)) ∧
     tp_DispatchNonce (msg_Payload msg) = new_id 0%nat ∧
     tp_Attempt (msg_Payload msg) =
       wrap64 (ss_Attempts (step_at (wr_Steps saved) (protocol.StepID evt)) + 1) ∧
     tp_Iteration (msg_Payload msg) =
       ss_Iterations (step_at (wr_Steps saved) (protocol.StepID evt)) ∧
     tp_RunID (msg_Payload msg) = wr_RunID run1 ∧
     tp_StepID (msg_Payload msg) = protocol.StepID evt) ∧
  ∀ later, ¬ retry_due tm (step_at (wr_Steps later) (protocol.StepID evt)) →
    handleTimer max mint (Some later) n tm = TimerTask (Ret None).
Proof.
  intros (p & d & _ & _ & Ha & _ & Hs & Hi & Hn & Hne & Hat & Hrid & Htm) Hnd Hrun Hid Hact.
  destruct (Htm tm eq_refl) as (Hact' & Htr & Hts & _ & Hty & Hta & Htn & Hsub).
  split.
  - destruct (retry_fire max mint saved n tm) as (subject & msgID & why & ->); try congruence.
    rewrite Hts. destruct (decide _) as [_|[]].
    + eexists. split; [done|]. cbn. rewrite Hn, (proj2 (empty_str_false _) Hne). done.
    + split_and!; [by rewrite Hs|by rewrite Hat|done].
  - intros later Hdue.
    destruct (retry_fire max mint later n tm) as (subject & msgID & why & ->); try congruence.
    rewrite Hts. by destruct (decide _).
Qed.
End RetrySpec.
