(* ===== verification/Planners.v ===== *)
(** * Planning a dispatch (internal/engine/orchestrator.go [planDispatch],
      [runDispatchPlan]; spawn_handlers.go, map_handlers.go, sleep_handlers.go,
      wait_handlers.go, approval.go, respond_step.go, dispatch_resend.go)

    [enqueueReady] marks the ready steps and then plans each by its type: what
    the step's saved state becomes and which messages follow the save.  A
    planner error ends the pass before anything of it is saved; a sleep that can
    never be resolved ends the run.  After the one save the messages are sent,
    the steps whose messages landed are marked sent, and a detached
    sub-workflow lets the run continue at once. *)

From S2P Require Import Prelude Float64 Json Types Config Condition Graph Resolve GoTime Cron Validate Input Advance Dispatch Fence Recovery Handlers Timers Lease Script.
From stdpp Require Import relations.

#[local] Open Scope Z_scope.

(** ** What the planners draw on

    Outside functions: the zone database, RFC 3339 parsing, out-of-range float
    conversion, the text of errors and the bytes a decoded value marshals to. *)
Record host : Type := MkHost {
  h_LoadLocation : string → outcome Location;
  h_rfc3339 : string → option Time;
  h_oob : f64 → Z;
  h_err_text : error → string;
  h_marshal : json → json;
  h_bytes : raw → string;
  h_base64 : string → option string;
  h_approval : bool;
  h_latest : option WorkflowDef;
}.

(** What one pass draws: nonces and clock readings of the stamps, child run IDs
    and tokens of the planners, the clock of each planner and of the save, and
    which messages land. *)
Record draws : Type := MkDraws {
  dr_nonce : nat → string;
  dr_clock : nat → Time;
  dr_child : nat → string;
  dr_token : nat → outcome string;
  dr_now : nat → Time;
  dr_save : Time;
  dr_mark : Time;
  dr_landed : string → bool;
  dr_batch : bool;
  dr_end : ending;
}.

(** ** Effects *)

Record EventWaiter : Type := MkEventWaiter {
  ew_RunID : string;
  ew_StepID : string;
  ew_EventType : string;
  ew_Match : ResolvedMatch;
  ew_Action : string;
}.

Inductive dispatchEffect : Type :=
  | SpawnChild (cfg : SubWorkflowConfig) (input : option raw) (childRunID : string)
  | PublishMapTasks (items : list json)
  | StartSleep (durationMs : Z)
  | StartWait (waiter : EventWaiter) (timeout : Z)
  | RequestApproval (cfg : ApprovalConfig) (token : string) (createdAt expiresAt : Time)
  | SendResponse (cfg : RespondConfig) (body : option raw)
  | ContinueTask (state : StepState).

Record dispatchPlan : Type := MkPlan {
  dp_effects : list (string * dispatchEffect);
  dp_normalSteps : list StepDef;
  dp_alreadySent : list string;
  dp_continueRun : bool;
}.

(** A planned step: the run with the step's new state and its effect ([None]
    for a task of the batch), or the run a planner failed, to be saved. *)
Inductive planned : Type :=
  | Planned (run : WorkflowRun) (effect : option dispatchEffect)
  | RunFinalized (s : script).

Section Planners.
Context (h : host).

(** ** Sub-workflows *)

Definition markSpawnedStep (run : WorkflowRun) (step : StepDef) (cfg : SubWorkflowConfig)
    (childRunID : string) : outcome WorkflowRun :=
  panic_if (empty_str childRunID) "markSpawnedStep: childRunID must not be empty";;
  panic_if (empty_str (sd_ID step)) "markSpawnedStep: step.ID must not be empty";;
  let state := ss_set_ChildRunID childRunID (step_at (wr_Steps run) (sd_ID step)) in
  let state :=
    if sw_Detach cfg
    then ss_set_Output (Some (RawJson (JObj [("child_run_id", JStr childRunID)])))
           (ss_set_Status StepStatusCompleted state)
    else ss_set_Status StepStatusRunning state in
  Ret (set_step (sd_ID step) state run).

Definition planSubWorkflow (childRunID : string) (run : WorkflowRun) (step : StepDef)
    : outcome (WorkflowRun * dispatchEffect) :=
  panic_if (negb (bool_decide (sd_Type step = StepTypeSubWorkflow)))
    "planSubWorkflow: wrong step type";;
  panic_if (empty_str (wr_RunID run)) "planSubWorkflow: RunID must not be empty";;
  cfg ← wrap_err (λ e, Errorf "parse sub-workflow config: %w" [AErr e])
          (ParseSubWorkflowConfig step);
  input ← wrap_err (λ e, Errorf "resolve input for step %q: %w" [AStr (sd_ID step); AErr e])
            (ResolveInput step (wr_Steps run) [wr_Input run]);
  run ← markSpawnedStep run step cfg childRunID;
  Ret (run, SpawnChild cfg input childRunID).

(** ** Maps *)

(** [json.Unmarshal] into a slice of raw messages. *)
Definition unmarshal_items (data : option raw) : outcome (list json) :=
  match data with
  | Some (RawJson JNull) => Ret []
  | Some (RawJson (JArr items)) => Ret items
  | Some (RawJson _) => Err (err_json "cannot unmarshal value into []json.RawMessage")
  | _ => Err (err_json "unexpected end of JSON input")
  end.

Definition queued_instance : MapInstanceState := MkMapInstanceState StepStatusQueued None "".

Definition validateAndInitMapInstances (run : WorkflowRun) (step : StepDef) (items : list json)
    : outcome WorkflowRun :=
  match ParseMapConfig step with
  | Err e => Panic ("validateAndInitMapInstances: " +:+ h_err_text h e)
  | Panic m => Panic m
  | Ret mapCfg =>
      fail_if (mc_MaxItems mapCfg <? Z.of_nat (length items))
        (Errorf "map step %q: %d items exceeds MaxItems %d"
           [AStr (sd_ID step); AInt (Z.of_nat (length items)); AInt (mc_MaxItems mapCfg)]);;
      let state := ss_set_Status StepStatusRunning (step_at (wr_Steps run) (sd_ID step)) in
      let state := ss_set_MapInstances (replicate (length items) queued_instance) state in
      Ret (set_step (sd_ID step) state run)
  end.

Definition planMapStep (run : WorkflowRun) (step : StepDef)
    : outcome (WorkflowRun * dispatchEffect) :=
  panic_if (negb (bool_decide (sd_Type step = StepTypeMap))) "planMapStep: step is not a Map step";;
  match sd_DependsOn step with
  | [dep] =>
      items ← wrap_err (λ e, Errorf "map step %q: upstream output is not a JSON array: %w"
                                [AStr (sd_ID step); AErr e])
                (unmarshal_items (ss_Output (step_at (wr_Steps run) dep)));
      run ← validateAndInitMapInstances run step items;
      Ret (run, PublishMapTasks items)
  | _ => Panic "planMapStep: Map step must have exactly one dep"
  end.

(** ** Sleeps *)

(** [fail] marks the step and fails the run. *)
Definition fail_sleep (en : ending) (run : WorkflowRun) (step : StepDef) (reason : string)
    : outcome script :=
  panic_if (empty_str reason) "sleepHandler.failFinal: reason must not be empty";;
  panic_if (empty_str (wr_RunID run)) "sleepHandler.fail: RunID must not be empty";;
  panic_if (empty_str (sd_ID step)) "sleepHandler.fail: step.ID must not be empty";;
  let state := ss_set_Error reason
    (ss_set_Status StepStatusFailed (step_at (wr_Steps run) (sd_ID step))) in
  Ret (failWorkflow en (set_step (sd_ID step) state run)).

Definition sendTimer (runID stepID : string) (sleepFor : Z) : outcome dispatchEffect :=
  panic_if (empty_str runID) "sleepHandler.sendTimer: runID must not be empty";;
  panic_if (empty_str stepID) "sleepHandler.sendTimer: stepID must not be empty";;
  Ret (StartSleep (Z.max (Milliseconds sleepFor) 1)).

Definition plan_sleep (now : Time) (en : ending) (run : WorkflowRun) (step : StepDef)
    : outcome planned :=
  panic_if (negb (bool_decide (sd_Type step = StepTypeSleep)))
    "sleepHandler.plan: step is not a Sleep step";;
  panic_if (empty_str (wr_RunID run)) "sleepHandler.plan: RunID must not be empty";;
  let resolved :=
    sleepCfg ← ParseSleepConfig step;
    ResolveSleepDuration (h_LoadLocation h) (h_rfc3339 h) (h_oob h) sleepCfg (wr_Input run) now in
  match resolved with
  | Panic m => Panic m
  | Err e => s ← fail_sleep en run step (h_err_text h e); Ret (RunFinalized s)
  | Ret sleepFor =>
      let state := ss_set_Status StepStatusRunning (step_at (wr_Steps run) (sd_ID step)) in
      let state := ss_set_WakeAt (Some (Time_Add now sleepFor)) state in
      effect ← sendTimer (wr_RunID run) (sd_ID step) sleepFor;
      Ret (Planned (set_step (sd_ID step) state run) (Some effect))
  end.

(** The effect of a planned sleep, rebuilt from its wake time. *)
Definition resume (now : Time) (run : WorkflowRun) (step : StepDef) : outcome dispatchEffect :=
  panic_if (negb (bool_decide (sd_Type step = StepTypeSleep)))
    "sleepHandler.resume: step is not a Sleep step";;
  match ss_WakeAt (step_at (wr_Steps run) (sd_ID step)) with
  | None => Panic "sleepHandler.resume: a planned sleep has a wake time"
  | Some wakeAt => sendTimer (wr_RunID run) (sd_ID step) (Time_Sub wakeAt now)
  end.

(** ** Waits for events *)

Definition resolveWaitMatch (match_ : Match_) (run : WorkflowRun) : outcome ResolvedMatch :=
  let stepOutputs : gmap string (option raw) :=
    omap (λ st, match ss_Output st with Some r => Some (Some r) | None => None end)
      (wr_Steps run) in
  Resolve match_ (Some stepOutputs) (wr_Input run).

Definition waitForEventSend (now : Time) (run : WorkflowRun) (step : StepDef)
    : outcome dispatchEffect :=
  panic_if (negb (bool_decide (sd_Type step = StepTypeWaitForEvent)))
    "waitForEventSend: wrong step type";;
  panic_if (empty_str (wr_RunID run)) "waitForEventSend: RunID must not be empty";;
  opts ← wrap_err (λ _, Errorf "step %q: WaitForEvent config is nil" [AStr (sd_ID step)])
           (ParseWaitForEventConfig step);
  resolvedMatch ← wrap_err (λ e, Errorf "resolve match for step %q: %w"
                                    [AStr (sd_ID step); AErr e])
                    (resolveWaitMatch (we_Match opts) run);
  let timeout :=
    match ss_StartedAt (step_at (wr_Steps run) (sd_ID step)) with
    | Some dispatchedAt => wrap64 (we_Timeout opts - Time_Sub now dispatchedAt)
    | None => we_Timeout opts
    end in
  Ret (StartWait (MkEventWaiter (wr_RunID run) (sd_ID step) (we_Event opts) resolvedMatch "")
         timeout).

Definition planWaitForEventStep (now : Time) (run : WorkflowRun) (step : StepDef)
    : outcome (WorkflowRun * dispatchEffect) :=
  panic_if (negb (bool_decide (sd_Type step = StepTypeWaitForEvent)))
    "planWaitForEventStep: wrong step type";;
  panic_if (empty_str (wr_RunID run)) "planWaitForEventStep: RunID must not be empty";;
  effect ← waitForEventSend now run step;
  let state := ss_set_Status StepStatusRunning (step_at (wr_Steps run) (sd_ID step)) in
  Ret (set_step (sd_ID step) state run, effect).

(** ** Approvals *)

Definition activate (now : Time) (run : WorkflowRun) (step : StepDef) (cfg : ApprovalConfig)
    (token : string) : outcome (WorkflowRun * dispatchEffect) :=
  panic_if (empty_str token) "activate: token must not be empty";;
  panic_if (empty_str (ap_Subject cfg)) "activate: Subject must not be empty";;
  let state := ss_set_Status StepStatusRunning (step_at (wr_Steps run) (sd_ID step)) in
  Ret (set_step (sd_ID step) state run,
       RequestApproval cfg token now (Time_Add now (ap_Timeout cfg))).

Definition approval_Plan (now : Time) (token : outcome string) (run : WorkflowRun) (step : StepDef)
    : outcome (WorkflowRun * dispatchEffect) :=
  fail_if (negb (h_approval h)) (Errorf "approval gate not configured" []);;
  panic_if (negb (bool_decide (sd_Type step = StepTypeApproval))) "Plan: wrong step type";;
  panic_if (empty_str (wr_RunID run)) "Plan: RunID must not be empty";;
  cfg ← wrap_err (λ e, Errorf "enqueueApprovalStep: %w" [AErr e]) (ParseApprovalConfig step);
  fail_if (Milliseconds (ap_Timeout cfg) <=? 0)
    (Errorf "approval timeout must be positive, got %v" [AInt (ap_Timeout cfg)]);;
  token ← token;
  activate now run step cfg token.

(** ** Respond steps *)

Definition pickUpstreamOutput (step : StepDef) (run : WorkflowRun) : outcome (option raw) :=
  match sd_DependsOn step with
  | [depID] =>
      panic_if (empty_str depID) "pickUpstreamOutput: step.DependsOn[0] must not be empty";;
      Ret (ss_Output (step_at (wr_Steps run) depID))
  | _ => Ret None
  end.

Definition resolveRespondBody (cfg : RespondConfig) (step : StepDef) (run : WorkflowRun)
    : outcome (option raw) :=
  upstream ← pickUpstreamOutput step run;
  let source := if raw_len0 upstream then wr_Input run else upstream in
  if empty_str (rc_BodyFrom cfg) then Ret source
  else
    fail_if (raw_len0 source)
      (Errorf "BodyFrom %q requires source data (upstream output or run input)"
         [AStr (rc_BodyFrom cfg)]);;
    value ← wrap_err (λ e, Errorf "dotpath %q: %w" [AStr (rc_BodyFrom cfg); AErr e])
              (ExtractDotPath (rc_BodyFrom cfg) source);
    Ret (Some (RawJson (h_marshal h value))).

Definition planRespondStep (run : WorkflowRun) (step : StepDef)
    : outcome (WorkflowRun * dispatchEffect) :=
  panic_if (negb (bool_decide (sd_Type step = StepTypeRespond)))
    "planRespondStep: step is not a Respond step";;
  panic_if (empty_str (wr_RunID run)) "planRespondStep: RunID must not be empty";;
  cfg ← wrap_err (λ e, Errorf "enqueueRespondStep: %w" [AErr e]) (ParseRespondConfig step);
  cfg ← Defaulted cfg;
  body ← wrap_err (λ e, Errorf "resolveRespondBody: %w" [AErr e]) (resolveRespondBody cfg step run);
  let state := ss_set_Output body
    (ss_set_Status StepStatusCompleted (step_at (wr_Steps run) (sd_ID step))) in
  Ret (set_step (sd_ID step) state run, SendResponse cfg body).

(** ** One step, all steps *)

Definition planStep (d : draws) (i : nat) (run : WorkflowRun) (step : StepDef)
    : outcome planned :=
  panic_if (empty_str (sd_ID step)) "planStep: step.ID must not be empty";;
  let effect (o : outcome (WorkflowRun * dispatchEffect)) :=
    '(run, e) ← o; Ret (Planned run (Some e)) in
  match sd_Type step with
  | StepTypeSubWorkflow => effect (planSubWorkflow (dr_child d i) run step)
  | StepTypeMap => effect (planMapStep run step)
  | StepTypeSleep => plan_sleep (dr_now d i) (dr_end d) run step
  | StepTypeWaitForEvent => effect (planWaitForEventStep (dr_now d i) run step)
  | StepTypeApproval => effect (approval_Plan (dr_now d i) (dr_token d i) run step)
  | StepTypeRespond => effect (planRespondStep run step)
  | _ => Ret (Planned run None)
  end.

Inductive plan_end : Type :=
  | PlanReady (run : WorkflowRun) (plan : dispatchPlan)
  | PlanFinalized (s : script).

(** The loop of [planDispatch], from the [i]-th ready step. *)
Fixpoint plan_steps (d : draws) (i : nat) (ready : list StepDef) (run : WorkflowRun)
    (plan : dispatchPlan) : outcome plan_end :=
  match ready with
  | [] => Ret (PlanReady run plan)
  | step :: ready' =>
      p ← planStep d i run step;
      match p with
      | RunFinalized s => Ret (PlanFinalized s)
      | Planned run None =>
          plan_steps d (S i) ready' run
            (MkPlan (dp_effects plan) (dp_normalSteps plan ++ [step]) (dp_alreadySent plan)
               (dp_continueRun plan))
      | Planned run (Some e) =>
          let detached := bool_decide (sd_Type step = StepTypeSubWorkflow) &&
            bool_decide (ss_Status (step_at (wr_Steps run) (sd_ID step)) = StepStatusCompleted) in
          plan_steps d (S i) ready' run
            (MkPlan (dp_effects plan ++ [(sd_ID step, e)]) (dp_normalSteps plan)
               (dp_alreadySent plan) (dp_continueRun plan || detached))
      end
  end.

Definition planDispatch (d : draws) (run : WorkflowRun) (ready : list StepDef)
    : outcome plan_end :=
  panic_if (empty_str (wr_RunID run)) "planDispatch: run must have a RunID";;
  panic_if (bool_decide (ready = [])) "planDispatch: ready must not be empty";;
  plan_steps d 0 ready run (MkPlan [] [] [] false).

(** ** Sending and marking *)

(** The steps whose sends landed, and whether every send did. *)
Definition sendPlan (d : draws) (plan : dispatchPlan) : list string * bool :=
  let landed := filter (λ id, dr_landed d id = true) (dp_effects plan).*1 in
  let batch := if dr_batch d then sd_ID <$> dp_normalSteps plan else [] in
  (dp_alreadySent plan ++ landed ++ batch,
   forallb (dr_landed d) (dp_effects plan).*1 &&
   (dr_batch d || bool_decide (dp_normalSteps plan = []))).

Definition hasUnsentStep (run : WorkflowRun) : bool :=
  bool_decide (wr_Status run = RunStatusRunning) &&
  bool_decide (map_Exists (λ _ st, ss_DispatchUnsent st = true) (wr_Steps run)).

(** [clearUnsent] as one pass over the step map. *)
Definition clear_mark (nonces : gmap string string) (id : string) (state : StepState)
    : StepState :=
  if ss_DispatchUnsent state && bool_decide (nonces !! id = Some (ss_DispatchNonce state))
  then ss_set_DispatchUnsent false state else state.

Definition marked (nonces : gmap string string) (id : string) (state : StepState) : Prop :=
  ss_DispatchUnsent state = true ∧ nonces !! id = Some (ss_DispatchNonce state).
#[global] Instance marked_dec nonces id state : Decision (marked nonces id state).
Proof. unfold marked. apply _. Defined.

Definition clearUnsent (nonces : gmap string string) (run : WorkflowRun)
    : outcome (option WorkflowRun) :=
  panic_if (bool_decide (size (wr_Steps run) < size nonces)%nat)
    "clearUnsent: more sent steps than the run has";;
  if bool_decide (map_Exists (marked nonces) (wr_Steps run))
  then Ret (Some (wr_set_Steps (map_imap (λ id st, Some (clear_mark nonces id st)) (wr_Steps run))
                    run))
  else Ret None.

Definition markSentAttemptsMax : nat := 6.

Definition sent_nonces (run : WorkflowRun) (sent : list string) : gmap string string :=
  foldl (λ m id, <[id := ss_DispatchNonce (step_at (wr_Steps run) id)]> m) ∅ sent.

Definition markSent (now : Time) (run : WorkflowRun) (sent : list string)
    (k : WorkflowRun → script) : script :=
  attempt (panic_if (empty_str (wr_RunID run)) "markSent: RunID must not be empty") (λ _,
    AmendThen markSentAttemptsMax (λ cur,
      cleared ← clearUnsent (sent_nonces run sent) cur;
      match cleared with
      | None => Ret None
      | Some cur => saved ← saveSnapshot now cur; Ret (Some saved)
      end) k).

Definition errUnsent : error := Errorf "some sends failed" [].

(** ** The pass

    [enqueueReady] with its plan, save, sends and marks; [fuel] bounds the
    passes a detached sub-workflow adds, one per step at most. *)
Fixpoint dispatchPass (fuel : nat) (ds : nat → draws) (wfDef : WorkflowDef) (run : WorkflowRun)
    : script :=
  let d := ds fuel in
  attempt (enqueueReady (dr_nonce d) (dr_clock d) wfDef run) (λ '(run, pend),
    match pend with
    | PassComplete => completeWorkflow (h_err_text h) (h_latest h) (dr_end d) run
    | PassNothing => Finish (Ret tt)
    | PassDispatch ready =>
        attempt (planDispatch d run ready) (λ p,
          match p with
          | PlanFinalized s => s
          | PlanReady run plan =>
              persist (dr_save d) run (λ run,
                let '(sent, allSent) := sendPlan d plan in
                markSent (dr_mark d) run sent (λ run,
                  if negb allSent then Finish (Err errUnsent)
                  else if negb (dp_continueRun plan) then Finish (Ret tt)
                  else if IsComplete wfDef (completedSet run)
                  then completeWorkflow (h_err_text h) (h_latest h) (dr_end d) run
                  else match fuel with
                       | O => Finish (Panic "out of fuel")
                       | S fuel' => dispatchPass fuel' ds wfDef run
                       end))
          end)
    end).

Definition passes (wfDef : WorkflowDef) : nat := length (wd_Steps wfDef).

(** ** Sending again

    [queued] is what a scan of the task queue finds: the task of the step's
    current dispatch still waits there. *)
Context (queued : StepDef → outcome bool).

Definition add_effect (id : string) (e : dispatchEffect) (plan : dispatchPlan) : dispatchPlan :=
  MkPlan (dp_effects plan ++ [(id, e)]) (dp_normalSteps plan) (dp_alreadySent plan)
    (dp_continueRun plan).

Definition add_sent (id : string) (plan : dispatchPlan) : dispatchPlan :=
  MkPlan (dp_effects plan) (dp_normalSteps plan) (dp_alreadySent plan ++ [id])
    (dp_continueRun plan).

Definition planTaskResend (run : WorkflowRun) (step : StepDef) (plan : dispatchPlan)
    : outcome dispatchPlan :=
  panic_if (negb (resendable (sd_Type step))) "planTaskResend: step type is never marked unsent";;
  let state := step_at (wr_Steps run) (sd_ID step) in
  let loopIteration :=
    bool_decide (sd_Type step = StepTypeAgentLoop) && (0 <? ss_Iterations state) in
  if negb (bool_decide (ss_Status state = StepStatusQueued)) && negb loopIteration
  then Ret (add_sent (sd_ID step) plan)
  else
    waits ← queued step;
    if waits : bool then Ret (add_sent (sd_ID step) plan)
    else if loopIteration then Ret (add_effect (sd_ID step) (ContinueTask state) plan)
    else Ret (MkPlan (dp_effects plan) (dp_normalSteps plan ++ [step]) (dp_alreadySent plan)
                (dp_continueRun plan)).

(** The loop of [planResend], from the [i]-th step. *)
Fixpoint resend_steps (d : draws) (i : nat) (steps : list StepDef) (run : WorkflowRun)
    (plan : dispatchPlan) : outcome dispatchPlan :=
  match steps with
  | [] => Ret plan
  | step :: steps' =>
      plan ←
        (if negb (ss_DispatchUnsent (step_at (wr_Steps run) (sd_ID step))) then Ret plan
         else match sd_Type step with
              | StepTypeSleep =>
                  e ← resume (dr_now d i) run step; Ret (add_effect (sd_ID step) e plan)
              | StepTypeWaitForEvent =>
                  e ← waitForEventSend (dr_now d i) run step;
                  Ret (add_effect (sd_ID step) e plan)
              | _ => planTaskResend run step plan
              end);
      resend_steps d (S i) steps' run plan
  end.

Definition planResend (d : draws) (wfDef : WorkflowDef) (run : WorkflowRun)
    : outcome dispatchPlan :=
  panic_if (empty_str (wr_RunID run)) "planResend: RunID must not be empty";;
  panic_if (bool_decide (wd_Steps wfDef = [])) "planResend: def must have steps";;
  resend_steps d 0 (wd_Steps wfDef) run (MkPlan [] [] [] false).

(** [def_loaded] is the result of loading the definition. *)
Definition resendUnsent (d : draws) (def_loaded : outcome unit) (wfDef : WorkflowDef)
    (run : WorkflowRun) : script :=
  attempt (panic_if (empty_str (wr_RunID run)) "resendUnsent: RunID must not be empty") (λ _,
    if negb (hasUnsentStep run) then Finish (Ret tt)
    else
      attempt def_loaded (λ _,
        attempt (planResend d wfDef run) (λ plan,
          let '(sent, allSent) := sendPlan d plan in
          markSent (dr_mark d) run sent (λ _, Finish (if allSent then Ret tt else Err errUnsent))))).
End Planners.
