(* ===== verification/Loops.v ===== *)
(** * Agent loops (internal/engine/step_handlers.go [handleStepContinue],
      agent_inputs.go, step_event_fence.go [continueState])

    A continue commits the state of an iteration and starts the next one: at
    once, after the loop's delay, or after a durable wait for a time or an
    input.  One save carries the iteration, its state and its wait; the task or
    timer is sent after it and the step is then marked sent.  A wait ends with
    the timer's or the input's event, whichever comes first. *)

From S2P Require Import Prelude Float64 Json Types Config Condition Graph Resolve GoTime Input Advance Dispatch Fence Recovery Handlers Timers Lease Script Planners.
From stdpp Require Import relations pretty.

#[local] Open Scope Z_scope.

Definition EventStepWaitElapsed : protocol.EventType := "step.wait.elapsed".

(** ** The payload of a continue *)

Record ContinueWait : Type := MkContinueWait {
  cw_DelayMs : Z;
  cw_Until : option Time;
  cw_Input : bool;
}.

Definition wait_IsZero (w : option ContinueWait) : bool :=
  match w with
  | None => true
  | Some w => (cw_DelayMs w <=? 0) && bool_decide (cw_Until w = None) && negb (cw_Input w)
  end.

Definition WakeAt (now : Time) (w : option ContinueWait) : outcome (option Time) :=
  panic_if (IsZero now) "ContinueWait.WakeAt: now must not be zero";;
  Ret (match w with
       | None => None
       | Some w =>
           match cw_Until w with
           | Some t => Some t
           | None =>
               if 0 <? cw_DelayMs w
               then Some (Time_Add now (wrap64 (cw_DelayMs w * Millisecond))) else None
           end
       end).

Record StepContinuePayload : Type := MkContinuePayload {
  cp_State : option string;
  cp_StateSet : bool;
  cp_Wait : option ContinueWait;
}.

Section Loops.
Context (h : host).

(** A [[]byte] field is base64 text; [null] is nil. *)
Definition dec_bytes (cur : option string) (v : json) : outcome (option string) :=
  match v with
  | JNull => Ret None
  | JStr s => match h_base64 h s with
              | Some bytes => Ret (Some bytes)
              | None => Err (err_json "illegal base64 data")
              end
  | _ => Err (err_json "cannot unmarshal value into []byte")
  end.

Definition dec_time (cur : option Time) (v : json) : outcome (option Time) :=
  match v with
  | JNull => Ret None
  | JStr s => match h_rfc3339 h s with
              | Some t => Ret (Some t)
              | None => Err (err_json "parsing time")
              end
  | _ => Err (err_json "Time.UnmarshalJSON: input is not a JSON string")
  end.

Definition dec_wait (cur : option ContinueWait) (v : json) : outcome (option ContinueWait) :=
  match v with
  | JNull => Ret None
  | JObj fs =>
      let cur := default (MkContinueWait 0 None false) cur in
      a ← dec_field dec_int "delay_ms" (cw_DelayMs cur) fs;
      b ← dec_field dec_time "until" (cw_Until cur) fs;
      c ← dec_field dec_bool "input" (cw_Input cur) fs;
      Ret (Some (MkContinueWait a b c))
  | _ => Err (err_json "cannot unmarshal value into ContinueWait")
  end.

Definition decode_continue (fs : list (string * json)) : outcome StepContinuePayload :=
  a ← dec_field dec_bytes "state" None fs;
  b ← dec_field dec_bool "state_set" false fs;
  c ← dec_field dec_wait "wait" None fs;
  Ret (MkContinuePayload a b c).

(** The decoded payload; [None] when the event carries none. *)
Definition continue_payload (evt : protocol.Event) : outcome (option StepContinuePayload) :=
  if negb (protocol.HasIdentity evt) || raw_len0 (protocol.Payload evt) then Ret None
  else match protocol.Payload evt with
       | None => Ret None
       | Some r =>
           p ← wrap_err (λ e, Errorf "decode step.continue payload: %w" [AErr e])
                 (unmarshal_struct (MkContinuePayload None false None) decode_continue r);
           Ret (Some p)
       end.

Definition len_bytes (s : option string) : Z := Z.of_nat (String.length (default "" s)).

Definition continueState (evt : protocol.Event) : outcome (option string * bool) :=
  panic_if (negb (bool_decide (protocol.Type_ evt = protocol.EventStepContinue)))
    "continueState: event must be a step.continue";;
  panic_if (empty_str (protocol.StepID evt)) "continueState: StepID must not be empty";;
  p ← continue_payload evt;
  Ret (match p with
       | None => (None, false)
       | Some p => (cp_State p, cp_StateSet p || (0 <? len_bytes (cp_State p)))
       end).

Definition continueWait (evt : protocol.Event) : outcome (option ContinueWait) :=
  panic_if (negb (bool_decide (protocol.Type_ evt = protocol.EventStepContinue)))
    "continueWait: event must be a step.continue";;
  panic_if (empty_str (protocol.StepID evt)) "continueWait: StepID must not be empty";;
  p ← continue_payload evt;
  Ret (match p with
       | None => None
       | Some p => if wait_IsZero (cp_Wait p) then None else cp_Wait p
       end).

Definition loopStateOverCap (size capBytes : Z) : outcome (option error) :=
  panic_if (size <? 0) "loopStateOverCap: size must not be negative";;
  panic_if (capBytes <=? 0) "loopStateOverCap: cap must be positive";;
  Ret (if size <=? capBytes then None
       else Some (Errorf "agent loop state is %d bytes, over the %d byte cap (loop_state_max_bytes)"
                    [AInt size; AInt capBytes])).

(** ** Bounds *)

Definition checkLoopBounds (now : Time) (stepDef : StepDef) (state : StepState)
    : option string :=
  match ParseAgentLoopConfig stepDef with
  | Ret cfg =>
      if (0 <? al_MaxIterations cfg) && (al_MaxIterations cfg <=? ss_Iterations state)
      then Some ("agent loop exceeded max iterations (" +:+ pretty (al_MaxIterations cfg) +:+ ")")
      else match ss_LoopStartedAt state with
           | Some t =>
               if (0 <? al_MaxDuration cfg) && (al_MaxDuration cfg <=? Time_Sub now t)
               then Some (h_err_text h (Errorf "agent loop exceeded max duration (%s)"
                            [AInt (al_MaxDuration cfg)]))
               else None
           | None => None
           end
  | _ => None
  end.

(** ** Waits *)

Definition waiting (state : StepState) : bool :=
  bool_decide (is_Some (ss_WaitUntil state)) || ss_WaitInput state.

(** [inputs] is what the engine's own check finds: nothing when the store is
    not available, an error, or whether inputs are queued. *)
Definition applyWait (now : Time) (inputs : option (outcome bool)) (wait : option ContinueWait)
    (state : StepState) : outcome StepState :=
  let state := ss_set_WaitInput false (ss_set_WaitUntil None state) in
  if wait_IsZero wait then Ret state
  else
    at_ ← WakeAt now wait;
    let state := match at_ with Some t => ss_set_WaitUntil (Some t) state | None => state end in
    match wait with
    | None => Ret state
    | Some w =>
        if negb (cw_Input w) then Ret state
        else
          let state := ss_set_WaitInput true state in
          match inputs with
          | Some (Ret true) =>
              Ret (ss_set_HasInputs true (ss_set_WaitInput false (ss_set_WaitUntil None state)))
          | _ => Ret state
          end
    end.

(** ** Sends *)

Inductive loop_send : Type :=
  | SendTask (msg : TaskMsg)
  | SendTimer (timer : TimerMessage)
  | SendNothing.

Context (stepRoutes : StepType → option string) (policy : option GrantPolicy)
        (loopStateMaxBytes : Z).

Definition sendWait (now : Time) (run : WorkflowRun) (stepDef : StepDef) (state : StepState)
    : outcome loop_send :=
  panic_if (negb (waiting state)) "sendWait: step is not waiting";;
  panic_if (empty_str (wr_RunID run)) "sendWait: RunID must not be empty";;
  Ret (match ss_WaitUntil state with
       | None => SendNothing
       | Some t => SendTimer {|
           tm_Action := TimerActionLoopWait; tm_RunID := wr_RunID run; tm_StepID := sd_ID stepDef;
           tm_DurationMs := Z.max (Milliseconds (Time_Sub t now)) 1;
           tm_TaskType := ""; tm_Input := None; tm_Attempt := ss_Attempts state;
           tm_DispatchNonce := ss_DispatchNonce state; tm_RequiredCapabilities := [];
           tm_WorkflowName := ""; tm_Subject := ""; tm_Metadata := ∅;
           tm_Iteration := ss_Iterations state |}
       end).

Definition publishIterationNow (new_id : string) (run : WorkflowRun) (stepDef : StepDef)
    (state : StepState) : outcome loop_send :=
  panic_if (empty_str (sd_ID stepDef) || empty_str (wr_RunID run))
    "publishIterationNow: run and step must not be empty";;
  panic_if (waiting state) "publishIterationNow: step is still waiting";;
  input ← wrap_err (λ e, Errorf "resolve input for step %q: %w" [AStr (sd_ID stepDef); AErr e])
            (ResolveInput stepDef (wr_Steps run) [wr_Input run]);
  '(attempt, iteration) ← dispatchIdentity run (sd_ID stepDef) dispatchSameAttempt;
  msg ← PublishIteration stepRoutes policy loopStateMaxBytes new_id (wr_RunID run) stepDef input
          attempt iteration (wr_WorkflowID run) (ss_DispatchNonce state) (ss_LoopState state);
  Ret (SendTask msg).

Definition scheduleDelayedIteration (run : WorkflowRun) (stepDef : StepDef) (input : option raw)
    (attempt iteration delay : Z) : outcome loop_send :=
  panic_if (empty_str (wr_RunID run)) "scheduleDelayedIteration: runID must not be empty";;
  panic_if (delay <=? 0) "scheduleDelayedIteration: delay must be positive";;
  subject ← StepSubject stepRoutes stepDef (wr_RunID run);
  Ret (SendTimer {|
    tm_Action := TimerActionLoopDelay; tm_RunID := wr_RunID run; tm_StepID := sd_ID stepDef;
    tm_DurationMs := Milliseconds delay; tm_TaskType := sd_Task stepDef; tm_Input := input;
    tm_Attempt := attempt;
    tm_DispatchNonce := ss_DispatchNonce (step_at (wr_Steps run) (sd_ID stepDef));
    tm_RequiredCapabilities :=
      effectiveCapabilities (sd_RequiredCapabilities stepDef) (wr_WorkflowID run) policy;
    tm_WorkflowName := wr_WorkflowID run; tm_Subject := subject;
    tm_Metadata := sd_Metadata stepDef; tm_Iteration := iteration |}).

Definition publishContinueTask (new_id : string) (now : Time) (run : WorkflowRun)
    (stepDef : StepDef) (state : StepState) : outcome loop_send :=
  panic_if (empty_str (sd_ID stepDef)) "publishContinueTask: stepDef.ID must not be empty";;
  panic_if (empty_str (wr_RunID run)) "publishContinueTask: RunID must not be empty";;
  if waiting state then sendWait now run stepDef state
  else
    input ← wrap_err (λ e, Errorf "resolve input for step %q: %w" [AStr (sd_ID stepDef); AErr e])
              (ResolveInput stepDef (wr_Steps run) [wr_Input run]);
    let loopDelay := match ParseAgentLoopConfig stepDef with
                     | Ret cfg => al_LoopDelay cfg
                     | _ => 0
                     end in
    '(attempt, iteration) ← dispatchIdentity run (sd_ID stepDef) dispatchSameAttempt;
    if 0 <? loopDelay then scheduleDelayedIteration run stepDef input attempt iteration loopDelay
    else publishIterationNow new_id run stepDef state.

(** ** The handlers *)

(** What a loop handler draws: the nonce and clock of the stamp, the clock of
    the loop's start, of its bound check, of the wait, of the send and of the
    saves, what the check for queued inputs finds, and the result of the send. *)
Record loop_draws : Type := MkLoopDraws {
  ld_nonce : string;
  ld_stamp : Time;
  ld_start : Time;
  ld_check : Time;
  ld_wait : Time;
  ld_send : Time;
  ld_save : Time;
  ld_mark : Time;
  ld_inputs : option (outcome bool);
  ld_sent : outcome unit;
  ld_end : ending;
}.

(** The save, the send and the mark that every next iteration goes through. *)
Definition send_iteration (d : loop_draws) (run : WorkflowRun) (stepDef : StepDef)
    (state : StepState)
    (publish : WorkflowRun → StepState → outcome loop_send) : script :=
  persist (ld_save d) (set_step (sd_ID stepDef) state run) (λ run,
    attempt (publish run state) (λ _,
      attempt (ld_sent d) (λ _,
        markSent (ld_mark d) run [sd_ID stepDef] (λ _, Finish (Ret tt))))).

Definition dispatchNextIteration (d : loop_draws) (run : WorkflowRun) (stepDef : StepDef)
    (state : StepState) (loopState : option string) (wait : option ContinueWait) : script :=
  let planned :=
    panic_if (empty_str (wr_RunID run)) "dispatchNextIteration: RunID must not be empty";;
    panic_if (ss_Iterations state <? 1)
      "dispatchNextIteration: Advance must have bumped Iterations";;
    state ← stampDispatch (ld_nonce d) (ld_stamp d) state;
    let state := ss_set_LoopState loopState (ss_set_DispatchUnsent true state) in
    applyWait (ld_wait d) (ld_inputs d) wait state in
  attempt planned (λ state,
    send_iteration d run stepDef state
      (λ run state, publishContinueTask (ld_nonce d) (ld_send d) run stepDef state)).

Definition failLoopStep (d : loop_draws) (run : WorkflowRun) (stepID : string)
    (state : StepState) (reason : string) : script :=
  attempt (panic_if (empty_str stepID) "failLoopStep: stepID must not be empty";;
           panic_if (empty_str reason) "failLoopStep: reason must not be empty") (λ _,
    let state := ss_set_Error reason (ss_set_Status StepStatusFailed state) in
    finalize (ld_end d) (set_step stepID state run) RunStatusFailed).

Definition fails_workflow (effects : list SideEffect) : bool :=
  existsb (λ e, match e with FailWorkflow _ _ => true | _ => false end) effects.

Definition handleStepContinue (legacy : bool) (d : loop_draws) (wfDef : WorkflowDef)
    (run : WorkflowRun) (evt : protocol.Event) : script :=
  let stepID := protocol.StepID evt in
  attempt (panic_if (empty_str (protocol.RunID evt)) "handleStepContinue: RunID must not be empty";;
           panic_if (empty_str stepID) "handleStepContinue: StepID must not be empty") (λ _,
  match findStepDef wfDef stepID with
  | None => Finish (Err (Errorf "step %q not found in workflow def" [AStr stepID]))
  | Some stepDef =>
      attempt (fenceStepEvent legacy run evt) (λ fenced,
      match fenced with
      | None => Finish (Ret tt)
      | Some run =>
          attempt (continueState evt) (λ '(loopState, stateSet),
          attempt (continueWait evt) (λ wait,
          attempt (loopStateOverCap (len_bytes loopState) loopStateMaxBytes) (λ over,
          match over with
          | Some e => failLoopStep d run stepID (step_at (wr_Steps run) stepID) (h_err_text h e)
          | None =>
              attempt (Advance wfDef run
                (MkEvent EventStepContinue stepID None no_failure)) (λ '(run, effects),
              let state := step_at (wr_Steps run) stepID in
              if fails_workflow effects
              then failLoopStep d run stepID state (ss_Error state)
              else
                let state := if ss_Iterations state =? 1
                             then ss_set_LoopStartedAt (Some (ld_start d)) state else state in
                match checkLoopBounds (ld_check d) stepDef state with
                | Some reason => failLoopStep d run stepID state reason
                | None =>
                    let loopState := if stateSet then loopState else ss_LoopState state in
                    dispatchNextIteration d run stepDef state loopState wait
                end)
          end)))
      end)
  end).

(** *** Wakeups *)

Definition stepFinished (state : StepState) : bool :=
  match ss_Status state with
  | StepStatusCompleted | StepStatusFailed | StepStatusCancelled | StepStatusSkipped => true
  | _ => false
  end.

Definition wakeStep (d : loop_draws) (run : WorkflowRun) (stepDef : StepDef) (state : StepState)
    (reason : string) : script :=
  attempt (panic_if (negb (waiting state)) "wakeStep: step is not waiting";;
           panic_if (empty_str reason) "wakeStep: reason must not be empty") (λ _,
    let hasInputs := ss_HasInputs state || bool_decide (reason = "input") in
    let state := ss_set_WaitInput false (ss_set_WaitUntil None state) in
    let state := ss_set_DispatchUnsent true (ss_set_HasInputs hasInputs state) in
    send_iteration d run stepDef state
      (λ run state, publishIterationNow (ld_nonce d) run stepDef state)).

(** Settling the submissions of a finished step is outside the model: it
    writes no snapshot. *)
Definition handleInputQueued (d : loop_draws) (wfDef : WorkflowDef) (run : WorkflowRun)
    (evt : protocol.Event) : script :=
  let stepID := protocol.StepID evt in
  attempt (panic_if (empty_str (protocol.RunID evt) || empty_str stepID)
             "handleInputQueued: run and step must not be empty";;
           panic_if (negb (bool_decide (protocol.Type_ evt = protocol.EventStepInputQueued)))
             "handleInputQueued: event must be a step.input.queued") (λ _,
  match wr_Steps run !! stepID, findStepDef wfDef stepID with
  | Some state, Some stepDef =>
      if IsTerminal (wr_Status run) || stepFinished state then Finish (Ret tt)
      else if ss_WaitInput state then wakeStep d run stepDef state "input"
      else if ss_HasInputs state then Finish (Ret tt)
      else persist (ld_save d) (set_step stepID (ss_set_HasInputs true state) run)
             (λ _, Finish (Ret tt))
  | _, _ => Finish (Ret tt)
  end).

Definition handleWaitElapsed (d : loop_draws) (wfDef : WorkflowDef) (run : WorkflowRun)
    (evt : protocol.Event) : script :=
  let stepID := protocol.StepID evt in
  attempt (panic_if (empty_str (protocol.RunID evt) || empty_str stepID)
             "handleWaitElapsed: run and step must not be empty";;
           panic_if (negb (bool_decide (protocol.Type_ evt = EventStepWaitElapsed)))
             "handleWaitElapsed: event must be a step.wait.elapsed") (λ _,
  let state := step_at (wr_Steps run) stepID in
  match findStepDef wfDef stepID with
  | None => Finish (Ret tt)
  | Some stepDef =>
      if IsTerminal (wr_Status run) || stepFinished state ||
         bool_decide (ss_WaitUntil state = None) || negb (protocol.HasIdentity evt) ||
         negb (default 0 (protocol.Iteration evt) =? ss_Iterations state) ||
         negb (bool_decide (protocol.DispatchNonce evt = ss_DispatchNonce state))
      then Finish (Ret tt)
      else wakeStep d run stepDef state "timer"
  end).
End Loops.
