(* ===== verification/TypedSteps.v ===== *)
(** * Events of maps, waits, approvals, sub-workflows and cancellation
      (internal/engine/map_handlers.go, wait_handlers.go, approval.go,
      spawn_handlers.go, orchestrator.go)

    Each handler records what happened to its step and hands the run on: to its
    end, or to a save and the next dispatch pass.  Released slots, tokens and
    waiters, cancelled children and notifications write no snapshot of the run
    and are left out. *)

From S2P Require Import Prelude Float64 Json Types Config Condition Graph Resolve GoTime Cron Advance Dispatch Fence Recovery Handlers Timers Script Planners.
From stdpp Require Import relations pretty.

#[local] Open Scope Z_scope.

(** ** Map instance IDs *)

(** [strings.Split] at a non-empty separator; the length of the text bounds the
    number of parts. *)
Fixpoint split_on (fuel : nat) (sep s : string) : list string :=
  match fuel with
  | O => [s]
  | S fuel' =>
      match String.index 0 sep s with
      | None => [s]
      | Some i =>
          let j := (i + String.length sep)%nat in
          String.substring 0 i s ::
            split_on fuel' sep (String.substring j (String.length s - j) s)
      end
  end.

Definition parseMapInstanceID (stepID : string) : outcome (string * Z) :=
  match split_on (String.length stepID) ".map." stepID with
  | [base; index] =>
      match Atoi index with
      | Some idx => Ret (base, idx)
      | None => Panic ("parseMapInstanceID: invalid index: " +:+ index)
      end
  | _ => Panic ("parseMapInstanceID: invalid format: " +:+ stepID)
  end.

Definition mapInstanceID (stepID : string) (index : Z) : string :=
  stepID +:+ ".map." +:+ pretty index.

Section Typed.
Context (h : host) (ds : nat → draws) (now : Time) (en : ending).

(** The end of every handler that completed a step. *)
Definition continue_run (wfDef : WorkflowDef) (run : WorkflowRun) : script :=
  if IsComplete wfDef (completedSet run)
  then completeWorkflow (h_err_text h) (h_latest h) en run
  else persist now run (λ run, dispatchPass h (passes wfDef) ds wfDef run).

(** ** Maps *)

Definition allMapInstancesDone (instances : list MapInstanceState) : bool :=
  forallb (λ i, bool_decide (mi_Status i = StepStatusCompleted)) instances.

(** [json.Marshal] of one output: nil is [null]. *)
Definition marshal_output (o : option raw) : outcome json :=
  match o with
  | None => Ret JNull
  | Some (RawJson v) => Ret v
  | Some (RawBad _) => Err (err_json "invalid character in raw message")
  end.

Definition collectMapOutputs (wfDef : WorkflowDef) (run : WorkflowRun) (baseID : string)
    (state : StepState) : script :=
  attempt (wrap_err (λ e, Errorf "marshal map outputs: %w" [AErr e])
             (mapM_outcome (λ i, marshal_output (mi_Output i)) (ss_MapInstances state)))
    (λ outputs,
       let state := ss_set_Output (Some (RawJson (JArr outputs)))
         (ss_set_Status StepStatusCompleted state) in
       continue_run wfDef (set_step baseID state run)).

(** [state.MapInstances[idx]] updated; an index out of range is an error. *)
Definition with_instance (baseID : string) (idx : Z) (state : StepState)
    (f : MapInstanceState → MapInstanceState) : outcome StepState :=
  match (if idx <? 0 then None else ss_MapInstances state !! Z.to_nat idx) with
  | None => Err (Errorf "map instance index %d out of range for %q" [AInt idx; AStr baseID])
  | Some inst =>
      Ret (ss_set_MapInstances (<[Z.to_nat idx := f inst]> (ss_MapInstances state)) state)
  end.

Definition handleMapInstanceCompleted (wfDef : WorkflowDef) (run : WorkflowRun)
    (evt : protocol.Event) : script :=
  attempt (parseMapInstanceID (protocol.StepID evt)) (λ '(baseID, idx),
  attempt (with_instance baseID idx (step_at (wr_Steps run) baseID)
    (λ i, MkMapInstanceState StepStatusCompleted (protocol.Payload evt) (mi_Error i))) (λ state,
  let run := set_step baseID state run in
  if negb (allMapInstancesDone (ss_MapInstances state))
  then persist now run (λ _, Finish (Ret tt))
  else collectMapOutputs wfDef run baseID state)).

Definition runMapOnFailure (wfDef : WorkflowDef) (run : WorkflowRun) (stepDef : StepDef)
    : script :=
  match findStepDef wfDef (sd_OnFailure stepDef) with
  | None => Finish (Ret tt)
  | Some onFailStep =>
      let d := ds 0%nat in
      let ofState := ss_set_Status StepStatusQueued
        (step_at (wr_Steps run) (sd_ID onFailStep)) in
      attempt (stampDispatch (dr_nonce d 0%nat) (dr_clock d 0%nat) ofState) (λ ofState,
        persist now (set_step (sd_ID onFailStep) ofState run) (λ _,
          Finish (if dr_batch d then Ret tt else Err errUnsent)))
  end.

Definition failMapStep (wfDef : WorkflowDef) (run : WorkflowRun) (baseID : string) : script :=
  let stepDef := default zero_StepDef (findStepDef wfDef baseID) in
  if negb (empty_str (sd_OnFailure stepDef)) then runMapOnFailure wfDef run stepDef
  else finalize en run RunStatusFailed.

Definition handleMapInstanceFailed (wfDef : WorkflowDef) (run : WorkflowRun)
    (evt : protocol.Event) : script :=
  attempt (parseMapInstanceID (protocol.StepID evt)) (λ '(baseID, idx),
  let error i := match protocol.Payload evt with Some p => h_bytes h p | None => mi_Error i end in
  let state0 := step_at (wr_Steps run) baseID in
  attempt (with_instance baseID idx state0
    (λ i, MkMapInstanceState StepStatusFailed (mi_Output i) (error i))) (λ state,
  let text := match ss_MapInstances state !! Z.to_nat idx with
              | Some i => mi_Error i
              | None => ""
              end in
  let state := ss_set_Error ("map instance " +:+ pretty idx +:+ " failed: " +:+ text)
    (ss_set_Status StepStatusFailed state) in
  failMapStep wfDef (set_step baseID state run) baseID)).

(** ** Waits *)

Definition handleWaitTimeout (wfDef : WorkflowDef) (run : WorkflowRun) (evt : protocol.Event)
    : script :=
  attempt (panic_if (empty_str (protocol.RunID evt)) "handleWaitTimeout: RunID must not be empty";;
           panic_if (empty_str (protocol.StepID evt)) "handleWaitTimeout: StepID must not be empty")
  (λ _,
    let state := step_at (wr_Steps run) (protocol.StepID evt) in
    if negb (bool_decide (ss_Status state = StepStatusRunning)) then Finish (Ret tt)
    else
      let state := ss_set_Output (Some (RawJson (JObj [("timeout", JBool true)])))
        (ss_set_Status StepStatusCompleted state) in
      continue_run wfDef (set_step (protocol.StepID evt) state run)).

(** ** Approvals *)

Definition HandleGranted (wfDef : WorkflowDef) (run : WorkflowRun) (evt : protocol.Event)
    : script :=
  if negb (h_approval h) then Finish (Ret tt)
  else
  attempt (panic_if (empty_str (protocol.RunID evt)) "HandleGranted: RunID must not be empty";;
           panic_if (empty_str (protocol.StepID evt)) "HandleGranted: StepID must not be empty")
  (λ _,
    let state := step_at (wr_Steps run) (protocol.StepID evt) in
    if negb (bool_decide (ss_Status state = StepStatusRunning)) then Finish (Ret tt)
    else
      let state := ss_set_Output (protocol.Payload evt)
        (ss_set_Status StepStatusCompleted state) in
      continue_run wfDef (set_step (protocol.StepID evt) state run)).

(** [failWorkflow] of a running step with an error text. *)
Definition fail_running (run : WorkflowRun) (stepID error : string) : script :=
  let state := step_at (wr_Steps run) stepID in
  if negb (bool_decide (ss_Status state = StepStatusRunning)) then Finish (Ret tt)
  else failWorkflow en
         (set_step stepID (ss_set_Error error (ss_set_Status StepStatusFailed state)) run).

Definition HandleRejected (run : WorkflowRun) (evt : protocol.Event) : script :=
  if negb (h_approval h) then Finish (Ret tt)
  else
  attempt (panic_if (empty_str (protocol.RunID evt)) "HandleRejected: RunID must not be empty";;
           panic_if (empty_str (protocol.StepID evt)) "HandleRejected: StepID must not be empty")
  (λ _, fail_running run (protocol.StepID evt)
          (match protocol.Payload evt with
           | Some p => h_bytes h p
           | None => "approval rejected"
           end)).

Definition HandleExpired (run : WorkflowRun) (evt : protocol.Event) : script :=
  if negb (h_approval h) then Finish (Ret tt)
  else
  attempt (panic_if (empty_str (protocol.RunID evt)) "HandleExpired: RunID must not be empty";;
           panic_if (empty_str (protocol.StepID evt)) "HandleExpired: StepID must not be empty")
  (λ _, fail_running run (protocol.StepID evt) "approval timed out").

(** ** Sub-workflows *)

Definition maxTerminals : nat := 1000.

Definition collectTerminalOutputs (def : WorkflowDef) (run : WorkflowRun)
    : outcome (option raw) :=
  panic_if (bool_decide (wd_Steps def = [])) "collectTerminalOutputs: def has no steps";;
  let depTargets : gmap string bool :=
    foldl (λ m step, foldl (λ m dep, <[dep := true]> m) m (sd_DependsOn step)) ∅ (wd_Steps def) in
  let terminals := take (S maxTerminals)
    (List.filter (λ step, negb (is_set depTargets (sd_ID step))) (wd_Steps def)) in
  match terminals with
  | [step] => Ret (ss_Output (step_at (wr_Steps run) (sd_ID step)))
  | _ =>
      let collected : gmap string (option raw) :=
        foldl (λ m step, <[sd_ID step := ss_Output (step_at (wr_Steps run) (sd_ID step))]> m) ∅
          terminals in
      data ← marshal_raw_map collected; Ret (Some data)
  end.

(** [load_child] loads a child run with its definition. *)
Definition handleChildCompleted (load_child : string → outcome (WorkflowDef * WorkflowRun))
    (wfDef : WorkflowDef) (run : WorkflowRun) (evt : protocol.Event) : script :=
  attempt (panic_if (empty_str (protocol.RunID evt)) "handleChildCompleted: RunID must not be empty";;
           panic_if (empty_str (protocol.StepID evt)) "handleChildCompleted: StepID must not be empty")
  (λ _,
    let state := step_at (wr_Steps run) (protocol.StepID evt) in
    if negb (bool_decide (ss_Status state = StepStatusRunning)) then Finish (Ret tt)
    else
      attempt (wrap_err (λ e, Errorf "load child outputs: %w" [AErr e])
        (panic_if (empty_str (ss_ChildRunID state)) "loadChildTerminalOutputs: childRunID empty";;
         '(childDef, childRun) ← load_child (ss_ChildRunID state);
         collectTerminalOutputs childDef childRun)) (λ output,
      let state := ss_set_Output output (ss_set_Status StepStatusCompleted state) in
      continue_run wfDef (set_step (protocol.StepID evt) state run))).

Definition handleChildFailed (run : WorkflowRun) (evt : protocol.Event) : script :=
  attempt (panic_if (empty_str (protocol.RunID evt)) "handleChildFailed: RunID must not be empty";;
           panic_if (empty_str (protocol.StepID evt)) "handleChildFailed: StepID must not be empty")
  (λ _,
    if negb (bool_decide (ss_Status (step_at (wr_Steps run) (protocol.StepID evt))
                          = StepStatusRunning)) then Finish (Ret tt)
    else
      attempt (match protocol.Payload evt with
               | None => Ret ""
               | Some p =>
                   wrap_err (λ e, Errorf "unmarshal child failed payload: %w" [AErr e])
                     (unmarshal_struct "" (dec_field dec_string "error" "") p)
               end) (λ error,
      fail_running run (protocol.StepID evt) ("child workflow failed: " +:+ error))).

(** ** Cancellation *)

(** [defErr] is the error of loading the definition when it is not that the
    definition is gone. *)
Definition handleWorkflowCancelled (defErr : option error) (run : WorkflowRun)
    (evt : protocol.Event) : script :=
  attempt (panic_if (empty_str (protocol.RunID evt))
             "handleWorkflowCancelled: RunID must not be empty") (λ _,
    if negb (bool_decide (wr_Status run = RunStatusRunning)) then Finish (Ret tt)
    else match defErr with
         | Some e => Finish (Err e)
         | None => attempt (cancelUnfinishedSteps run) (λ run, finalize en run RunStatusCancelled)
         end).
End Typed.
