(* ===== verification/Starts.v ===== *)
(** * Starting runs (internal/engine/orchestrator.go [handleWorkflowStarted],
      [transitionPendingToRunning]; spawn_handlers.go [handleWorkflowSpawn])

    A run begins with a workflow.started event of the API or a trigger, or with
    a workflow.spawn event of its parent.  When the run is already stored the
    event changes nothing, or repairs a run whose first dispatch never landed.
    Otherwise the payload is resolved to a definition, checked, admitted and the
    run created: running with a dispatch pass, pending until a slot is free, or
    already over when it is refused. *)

From S2P Require Import Prelude Float64 Json Types Config Condition Graph Resolve GoTime Cron Schema Validate Keys Input Kv Slots Snapshot Admission Advance Dispatch Fence Recovery Handlers Script Engine Planners.

#[local] Open Scope Z_scope.

(** ** Runs that are already stored *)

Section Existing.
Context (h : host) (ds : nat → draws).

Definition hasReadyPendingSteps (def_loaded : outcome unit) (wfDef : WorkflowDef)
    (run : WorkflowRun) : outcome bool :=
  panic_if (empty_str (wr_RunID run)) "hasReadyPendingSteps: RunID must not be empty";;
  if negb (bool_decide (wr_Status run = RunStatusRunning)) then Ret false
  else
    def_loaded;;
    Ret (negb (bool_decide (ResolveReady wfDef (completedSet run) (queuedSet run) = []))).

Definition healRun (def_loaded : outcome unit) (wfDef : WorkflowDef) (run : WorkflowRun) : script :=
  attempt (panic_if (empty_str (wr_RunID run)) "healRun: run.RunID must not be empty") (λ _,
    if negb (bool_decide (wr_Status run = RunStatusRunning)) then Finish (Ret tt)
    else
      attempt (wrap_err (λ e, Errorf "load workflow def %q for heal: %w"
                                [AStr (wr_WorkflowID run); AErr e]) def_loaded) (λ _,
        dispatchPass h (passes wfDef) ds wfDef run)).

(** [create] is what follows when no run is stored. *)
Definition startExistingRun (def_loaded : outcome unit) (wfDef : WorkflowDef)
    (isRunTerminal : bool) (create : script) (evt : protocol.Event) : script :=
  attempt (panic_if (empty_str (protocol.RunID evt)) "startExistingRun: RunID must not be empty")
  (λ _, LoadThen (λ o,
    match o with
    | Ret existing =>
        attempt (hasReadyPendingSteps def_loaded wfDef existing) (λ stranded,
          if isRunTerminal || stranded then healRun def_loaded wfDef existing
          else Finish (Ret tt))
    | Err e =>
        if errors_Is e ErrRunNotFound then create
        else Finish (Err (Errorf "load existing run %q: %w" [AStr (protocol.RunID evt); AErr e]))
    | Panic m => Finish (Panic m)
    end)).

Definition healExistingChild (childDef : WorkflowDef) (existing : WorkflowRun) : script :=
  attempt (panic_if (empty_str (wr_RunID existing))
             "healExistingChild: existing run must have a RunID";;
           panic_if (empty_str (wd_Name childDef)) "healExistingChild: childDef must have a name") (λ _,
    if negb (bool_decide (wr_Status existing = RunStatusRunning)) then Finish (Ret tt)
    else dispatchPass h (passes childDef) ds childDef existing).

(** The spawn event of a child, on the child's own snapshot. *)
Definition spawnExistingChild (childDef : WorkflowDef) (create : script) (childRunID : string)
    : script :=
  LoadThen (λ o,
    match o with
    | Ret existing => healExistingChild childDef existing
    | Err e =>
        if errors_Is e ErrRunNotFound then create
        else Finish (Err (Errorf "check existing child %q: %w" [AStr childRunID; AErr e]))
    | Panic m => Finish (Panic m)
    end).

(** A run that is no longer pending: running, with its deadline. *)
Definition promote (now : Time) (wfDef : WorkflowDef) (run : WorkflowRun) : WorkflowRun :=
  let run := wr_set_Status RunStatusRunning run in
  if 0 <? wd_Timeout wfDef
  then wr_set_Deadline (Some (Time_Add now (wd_Timeout wfDef))) run else run.

(** [acquired] is the result of asking for the workflow's slot. *)
Definition transitionPendingToRunning (def_loaded : outcome unit) (acquired : outcome bool)
    (now saved_at : Time) (wfDef : WorkflowDef) (runID : string) : script :=
  attempt (panic_if (empty_str runID) "transitionPendingToRunning: runID must not be empty") (λ _,
  LoadThen (λ o,
    attempt (wrap_err (λ e, Errorf "load pending run %q: %w" [AStr runID; AErr e])
               (run ← o; def_loaded;; Ret run)) (λ run,
    attempt (match wd_Concurrency wfDef with
             | Some _ => wrap_err (λ e, Errorf "acquire for pending run: %w" [AErr e]) acquired
             | None => Ret true
             end) (λ ok,
      if negb ok then Finish (Ret tt)
      else
        persist saved_at (promote now wfDef run) (λ run, dispatchPass h (passes wfDef) ds wfDef run))))).
End Existing.

(** ** The payload of a start *)

(** [json.RawMessage] fields keep the value as it is. *)
Definition dec_raw (cur : option raw) (v : json) : outcome (option raw) := Ret (Some (RawJson v)).

Definition decodeRunTerminalChainPayload (payload : raw) : option (string * option raw * Z) :=
  match unmarshal_struct ("", "", None, 0) (λ fs,
          trigger ← dec_field dec_string "trigger" "" fs;
          workflowID ← dec_field dec_string "workflow_id" "" fs;
          input ← dec_field dec_raw "input" None fs;
          depth ← dec_field dec_int "trigger_depth" 0 fs;
          Ret (trigger, workflowID, input, depth)) payload with
  | Ret (trigger, workflowID, input, depth) =>
      if negb (bool_decide (trigger = "run_terminal")) || empty_str workflowID || raw_len0 input
      then None else Some (workflowID, input, depth)
  | _ => None
  end.

Definition isRunTerminalChainPayload (payload : raw) : bool :=
  bool_decide (is_Some (decodeRunTerminalChainPayload payload)).

Definition decodeTriggerEnvelope (payload : raw) : option string :=
  match unmarshal_struct ("", "") (λ fs,
          trigger ← dec_field dec_string "trigger" "" fs;
          workflowID ← dec_field dec_string "workflow_id" "" fs;
          Ret (trigger, workflowID)) payload with
  | Ret (trigger, workflowID) =>
      if empty_str trigger || empty_str workflowID then None else Some workflowID
  | _ => None
  end.

Definition unmarshal_start : raw → outcome (option raw * option raw * gmap string string) :=
  unmarshal_struct (None, None, ∅) (λ fs,
    def ← dec_field dec_raw "workflow_def" None fs;
    input ← dec_field dec_raw "input" None fs;
    labels ← dec_field dec_string_map "labels" ∅ fs;
    Ret (def, input, labels)).

(** ** Creating a run *)

Inductive start_result : Type :=
  | StartDone (o : outcome unit)
  | StartEnded (run : WorkflowRun) (o : outcome unit)
  | StartCreate (chain : bool) (wfDef : WorkflowDef) (run : WorkflowRun) (dispatch : bool).

(** What creation reads: the content hash, the clock, the JSON decoding of a
    definition and the bucket of definitions, the admission of a run
    ([Admission.Admit]), the publication of a displacing cancellation, and the
    text of an error. *)
Record start_env : Type := MkStartEnv {
  se_hash : WorkflowDef → string;
  se_now : Time;
  se_saved : Time;
  se_decode : raw → outcome WorkflowDef;
  se_defs : string → outcome raw;
  se_admit : WorkflowDef → WorkflowRun → option raw → outcome admissionResult;
  se_cancelled : string → outcome unit;
  se_err_text : error → string;
}.

Section Creating.
Context (LoadLocation : string → outcome Location).
Context (perm : list string → list string) (rule_order : list Z → list Z).
Context (env : start_env).

(** [finalizeRun] of a run that has no snapshot: the run it saves. *)
Definition end_unsaved (run : WorkflowRun) (status : RunStatus) : outcome WorkflowRun :=
  fin ← finalizeRun (se_now env) run status;
  match fin with
  | None => Ret run
  | Some run => saveSnapshot (se_saved env) run
  end.

(** A save error is logged and the event counts as handled. *)
Definition persistFailedStartRun (evt : protocol.Event) (workflowID : string)
    : outcome start_result :=
  panic_if (empty_str (protocol.RunID evt)) "persistFailedStartRun: RunID must not be empty";;
  let failed := {|
    wr_RunID := protocol.RunID evt; wr_WorkflowID := workflowID; wr_Status := RunStatusPending;
    wr_Steps := ∅; wr_Input := None; wr_CreatedAt := se_now env; wr_DynamicSteps := [];
    wr_ParentRunID := ""; wr_RootRunID := ""; wr_ParentStepID := ""; wr_Deadline := None;
    wr_PriorityOffset := 0; wr_SingletonKey := ""; wr_TraceParent := protocol.TraceParent evt;
    wr_CompletedAt := None; wr_Labels := ∅; wr_TriggerDepth := 0; wr_ReleasePending := false;
    wr_ReleaseAttempts := 0; wr_DefHash := "" |} in
  run ← end_unsaved failed RunStatusFailed;
  Ret (StartEnded run (Ret tt)).

(** The definition a trigger names; any error of the read fails the run. *)
Definition loadDefOrFail (evt : protocol.Event) (workflowID : string)
    : outcome (WorkflowDef + start_result) :=
  panic_if (empty_str workflowID) "loadDefOrFail: workflowID must not be empty";;
  match se_defs env workflowID with
  | Panic m => Panic m
  | Err _ => r ← persistFailedStartRun evt workflowID; Ret (inr r)
  | Ret entry =>
      def ← wrap_err (λ e, Errorf "unmarshal trigger workflow def: %w" [AErr e]) (se_decode env entry);
      Ret (inl def)
  end.

Definition resolveStartPayload (evt : protocol.Event) (payload : raw)
    : outcome (WorkflowDef * option raw * gmap string string * Z + start_result) :=
  let from_trigger workflowID input depth :=
    r ← loadDefOrFail evt workflowID;
    match r with
    | inl def => Ret (inl (def, input, ∅, depth))
    | inr res => Ret (inr res)
    end in
  let decode data :=
    wrap_err (λ e, Errorf "unmarshal WorkflowDef: %w" [AErr e]) (se_decode env data) in
  let other :=
    match decodeRunTerminalChainPayload payload with
    | Some (workflowID, input, depth) => from_trigger workflowID input depth
    | None =>
        match decodeTriggerEnvelope payload with
        | Some workflowID => from_trigger workflowID (Some payload) 0
        | None => def ← decode payload; Ret (inl (def, None, ∅, 0))
        end
    end in
  match unmarshal_start payload with
  | Ret (Some data, input, labels) => def ← decode data; Ret (inl (def, input, labels, 0))
  | Panic m => Panic m
  | _ => other
  end.

(** The run of a checked start, before admission. *)
Definition new_run (evt : protocol.Event) (wfDef : WorkflowDef) : outcome WorkflowRun :=
  run ← NewWorkflowRun (se_hash env) (se_now env) wfDef (protocol.RunID evt);
  let run := wr_set_TraceParent (protocol.TraceParent evt) run in
  Ret (wr_set_RootRunID (wr_RunID run) run).

Definition rejectInvalidStart (evt : protocol.Event) (wfDef : WorkflowDef) (input : option raw)
    (labels : gmap string string) : outcome (option start_result) :=
  panic_if (empty_str (protocol.RunID evt)) "rejectInvalidStart: RunID must not be empty";;
  match Validate LoadLocation perm rule_order wfDef with
  | Panic m => Panic m
  | Err _ => r ← persistFailedStartRun evt (wd_Name wfDef); Ret (Some r)
  | Ret _ =>
      match ValidateLabels labels with
      | Panic m => Panic m
      | Err _ => r ← persistFailedStartRun evt (wd_Name wfDef); Ret (Some r)
      | Ret _ =>
          match wd_InputSchema wfDef with
          | None => Ret None
          | Some _ =>
              match ValidateSchema (wd_InputSchema wfDef) (default (RawBad "") input) with
              | Panic m => Panic m
              | Ret _ => Ret None
              | Err e =>
                  run ← new_run evt wfDef;
                  run ← end_unsaved run RunStatusFailed;
                  Ret (Some (StartEnded run (Err (Errorf "input validation: %w" [AErr e]))))
              end
          end
      end
  end.

Definition admissionSkipStepID : string := "<admission-skip>".
Definition admissionFailedStepID : string := "<admission-failed>".

(** A run refused by admission: one synthetic step carries the reason. *)
Definition refused_run (run : WorkflowRun) (stepID reason : string) (status : RunStatus)
    : outcome WorkflowRun :=
  let state := ss_set_Error reason (step_state StepStatusFailed) in
  end_unsaved (wr_set_SingletonKey "" (wr_set_Steps {[stepID := state]} run)) status.

Definition persistSkippedRun (run : WorkflowRun) (skippedBy : string) : outcome start_result :=
  panic_if (empty_str (wr_RunID run)) "persistSkippedRun: RunID must not be empty";;
  panic_if (empty_str skippedBy) "persistSkippedRun: skippedBy must not be empty";;
  run ← refused_run run admissionSkipStepID ("singleton skip: run already active: " +:+ skippedBy)
          RunStatusCancelled;
  Ret (StartEnded run (Ret tt)).

Definition persistAdmissionFailedRun (run : WorkflowRun) (reason : error) : outcome start_result :=
  panic_if (empty_str (wr_RunID run)) "persistAdmissionFailedRun: RunID must not be empty";;
  run ← refused_run run admissionFailedStepID (se_err_text env reason) RunStatusFailed;
  Ret (StartEnded run (Ret tt)).

(** [handleWorkflowStarted] once no run is stored. *)
Definition handleWorkflowStarted (evt : protocol.Event) (payload : raw) : outcome start_result :=
  panic_if (empty_str (protocol.RunID evt)) "handleWorkflowStarted: RunID must not be empty";;
  let isRunTerminal := isRunTerminalChainPayload payload in
  resolved ← resolveStartPayload evt payload;
  match resolved with
  | inr r => Ret r
  | inl (wfDef, input, labels, triggerDepth) =>
      rejected ← rejectInvalidStart evt wfDef input labels;
      match rejected with
      | Some r => Ret r
      | None =>
          run ← new_run evt wfDef;
          let run := wr_set_TriggerDepth triggerDepth (wr_set_Labels labels (wr_set_Input input run)) in
          match se_admit env wfDef run input with
          | Panic m => Panic m
          | Err e =>
              if errors_Is e errAdmissionPermanent then persistAdmissionFailedRun run e
              else Ret (StartDone (Err e))
          | Ret admission =>
              match (if empty_str (adm_cancelID admission) then Ret tt
                     else se_cancelled env (adm_cancelID admission)) with
              | Panic m => Panic m
              | Err e => Ret (StartDone (Err e))
              | Ret _ =>
                  let run := wr_set_SingletonKey (adm_singletonKey admission)
                    (wr_set_PriorityOffset (adm_offset admission) run) in
                  match adm_action admission with
                  | admissionSkip => persistSkippedRun run (adm_skippedBy admission)
                  | admissionQueue =>
                      Ret (StartCreate isRunTerminal wfDef (wr_set_Status RunStatusPending run) false)
                  | admissionProceed =>
                      Ret (StartCreate isRunTerminal wfDef (promote (se_now env) wfDef run) true)
                  end
              end
          end
      end
  end.

(** ** Creating a child *)

Definition maxNestingDepth : nat := 3.

(** [load i] is the walk's read number [i]: each read is a call of its own, and
    a read that fails for whatever reason ends the chain, as a missing run and a
    run without a parent do. *)
Fixpoint nesting_loop (load : nat → string → option WorkflowRun) (fuel i : nat) (runID : string) : nat :=
  match fuel with
  | O => O
  | S fuel' =>
      match load i runID with
      | None => O
      | Some run =>
          if empty_str (wr_ParentRunID run) then O
          else S (nesting_loop load fuel' (S i) (wr_ParentRunID run))
      end
  end.

Definition nestingDepth (load : nat → string → option WorkflowRun) (runID : string) : nat :=
  nesting_loop load (S maxNestingDepth) 0 runID.

Definition inheritParentLineage (parent : outcome WorkflowRun) (childRun : WorkflowRun)
    (parentRunID parentStepID : string) (detach : bool) : outcome WorkflowRun :=
  panic_if (empty_str (wr_RunID childRun)) "inheritParentLineage: childRun must have a RunID";;
  let missing :=
    match parent with Err e => errors_Is e ErrRunNotFound | _ => false end in
  match parent with
  | Panic m => Panic m
  | Err e =>
      fail_if (negb missing)
        (Errorf "load parent run %q for spawn derivation: %w" [AStr parentRunID; AErr e]);;
      Ret (if detach then wr_set_RootRunID (wr_RunID childRun) childRun
           else wr_set_RootRunID (wr_RunID childRun)
                  (wr_set_ParentStepID parentStepID (wr_set_ParentRunID parentRunID childRun)))
  | Ret p =>
      let childRun := wr_set_TriggerDepth (wr_TriggerDepth p) childRun in
      if detach then Ret (wr_set_RootRunID (wr_RunID childRun) childRun)
      else
        root ← RootRunIDOf p;
        Ret (wr_set_RootRunID root
               (wr_set_ParentStepID parentStepID (wr_set_ParentRunID parentRunID childRun)))
  end.

Record spawn_payload : Type := MkSpawnPayload {
  sp_ChildRunID : string;
  sp_ChildWorkflow : string;
  sp_ParentStepID : string;
  sp_Input : option raw;
  sp_Detach : bool;
}.

Definition unmarshal_spawn : raw → outcome spawn_payload :=
  unmarshal_struct (MkSpawnPayload "" "" "" None false) (λ fs,
    child ← dec_field dec_string "child_run_id" "" fs;
    wf ← dec_field dec_string "child_workflow" "" fs;
    step ← dec_field dec_string "parent_step_id" "" fs;
    input ← dec_field dec_raw "input" None fs;
    detach ← dec_field dec_bool "detach" false fs;
    Ret (MkSpawnPayload child wf step input detach)).

Definition loadChildDef (childWorkflow : string) : outcome WorkflowDef :=
  panic_if (empty_str childWorkflow) "loadChildDef: childWorkflow must not be empty";;
  entry ← wrap_err (λ e, Errorf "load child workflow def %q: %w" [AStr childWorkflow; AErr e])
            (se_defs env childWorkflow);
  wrap_err (λ e, Errorf "unmarshal child def: %w" [AErr e]) (se_decode env entry).

(** The child [createChildRun] saves when none is stored, with its
    definition. *)
Definition createChildRun (parent : outcome WorkflowRun) (parentRunID : string) (p : spawn_payload)
    : outcome (WorkflowDef * WorkflowRun) :=
  panic_if (empty_str (sp_ChildRunID p)) "createChildRun: childRunID must not be empty";;
  panic_if (empty_str (sp_ChildWorkflow p)) "createChildRun: childWorkflow must not be empty";;
  childDef ← loadChildDef (sp_ChildWorkflow p);
  childRun ← NewWorkflowRun (se_hash env) (se_now env) childDef (sp_ChildRunID p);
  let childRun := wr_set_Status RunStatusRunning (wr_set_Input (sp_Input p) childRun) in
  childRun ← inheritParentLineage parent childRun parentRunID (sp_ParentStepID p) (sp_Detach p);
  Ret (childDef, childRun).

(** [handleWorkflowSpawn] once no child is stored. *)
Definition handleWorkflowSpawn (load : nat → string → option WorkflowRun) (parent : outcome WorkflowRun)
    (evt : protocol.Event) (payload : raw) : outcome (WorkflowDef * WorkflowRun) :=
  panic_if (empty_str (protocol.RunID evt)) "handleWorkflowSpawn: RunID must not be empty";;
  p ← wrap_err (λ e, Errorf "unmarshal spawn payload: %w" [AErr e]) (unmarshal_spawn payload);
  panic_if (empty_str (sp_ChildRunID p)) "handleWorkflowSpawn: child_run_id must not be empty";;
  let depth := nestingDepth load (protocol.RunID evt) in
  fail_if (bool_decide (maxNestingDepth ≤ depth + 1)%nat)
    (Errorf "max nesting depth %d exceeded" [AInt (Z.of_nat maxNestingDepth)]);;
  createChildRun parent (protocol.RunID evt) p.
End Creating.

(** ** What is created *)

(** A run before its first dispatch. *)
Record unstarted (run : WorkflowRun) : Prop := {
  fr_id : wr_RunID run ≠ "";
  fr_status : wr_Status run = RunStatusRunning;
  fr_input : payload_ok (wr_Input run);
  fr_pending : ∀ id, step_at (wr_Steps run) id = step_state StepStatusPending;
}.

Lemma new_steps_pending steps : ∀ m : gmap string StepState,
  (∀ id, step_at m id = step_state StepStatusPending) →
  ∀ id, step_at (foldl (λ m step, <[sd_ID step := step_state StepStatusPending]> m) m steps) id =
    step_state StepStatusPending.
Proof.
  induction steps as [|s steps IH]; intros m Hm id; simpl; [apply Hm|]. apply IH. intros id'.
  destruct (decide (id' = sd_ID s)) as [->|Hne];
    [by rewrite step_at_insert|by rewrite step_at_insert_ne].
Qed.

(** Promotion and the save around it keep a run unstarted. *)
Lemma promoted_unstarted now saved_at wfDef run run' :
  unstarted (wr_set_Status RunStatusRunning run) →
  saveSnapshot saved_at (promote now wfDef run) = Ret run' → unstarted run'.
Proof.
  intros Hu H. assert (unstarted (promote now wfDef run)) as Hp.
  { unfold promote. destruct (0 <? wd_Timeout wfDef); [|done]. destruct Hu. by destruct run. }
  clear Hu. unfold saveSnapshot in H. rewrite bind_unit_ret_iff, bind_ret_iff in H.
  destruct H as (_ & st & Hst & [= <-]). destruct Hp as [? ? ? Hpend].
  destruct (promote now wfDef run) as [] eqn:Hr. simpl in *. split; [done..|]. simpl. intros id.
  unfold stampTerminalSteps in Hst. rewrite bind_unit_ret_iff in Hst. destruct Hst as [_ [= <-]].
  specialize (Hpend id). unfold step_at in *. rewrite lookup_fmap.
  destruct (wr_Steps !! id) as [s|]; [|done]. simpl in *. by subst s.
Qed.

Lemma dec_field_raw name fs cur o :
  payload_ok cur → dec_field dec_raw name cur fs = Ret o → payload_ok o.
Proof.
  revert cur. induction fs as [|[k v] fs IH]; intros cur Hc; simpl; [by intros [= <-]|].
  case_bool_decide; [|by apply IH]. simpl. apply IH. intros r [= <-]. eauto.
Qed.

Lemma payload_ok_None : payload_ok None.
Proof. by intros r. Qed.

Lemma NewWorkflowRun_inv hash now def runID run :
  NewWorkflowRun hash now def runID = Ret run →
  runID ≠ "" ∧ wr_RunID run = runID ∧ wr_WorkflowID run = wd_Name def ∧ wr_DefHash run = hash def ∧
  wr_Input run = None ∧ wr_CompletedAt run = None ∧
  ∀ id, step_at (wr_Steps run) id = step_state StepStatusPending.
Proof.
  unfold NewWorkflowRun. rewrite !bind_unit_ret_iff, !panic_if_ret_iff.
  intros (Hid & _ & [= <-]). simpl. split_and!; [|done..|].
  - by apply empty_str_false.
  - by apply new_steps_pending.
Qed.

Section Created.
Context (LoadLocation : string → outcome Location).
Context (perm : list string → list string) (rule_order : list Z → list Z).
Context (env : start_env).

Lemma chain_payload_input payload workflowID input depth :
  decodeRunTerminalChainPayload payload = Some (workflowID, input, depth) → payload_ok input.
Proof.
  unfold decodeRunTerminalChainPayload.
  destruct (unmarshal_struct _ _ payload) as [[[[t w] i] d]| |] eqn:Hu; [|done..].
  destruct (_ || _); [done|]. intros [= <- <- <-]. unfold unmarshal_struct in Hu.
  destruct payload as [|[]]; simplify_eq; try apply payload_ok_None.
  apply bind_ret_iff in Hu as (? & _ & Hu). apply bind_ret_iff in Hu as (? & _ & Hu).
  apply bind_ret_iff in Hu as (? & Hi & Hu). apply bind_ret_iff in Hu as (? & _ & [= <- <- <- <-]).
  eapply dec_field_raw; [|exact Hi]. apply payload_ok_None.
Qed.

Lemma envelope_payload payload workflowID :
  decodeTriggerEnvelope payload = Some workflowID → payload_ok (Some payload).
Proof. unfold decodeTriggerEnvelope. destruct payload; [done|]. intros _ r [= <-]. eauto. Qed.

Lemma resolved_input evt payload wfDef input labels depth :
  resolveStartPayload env evt payload = Ret (inl (wfDef, input, labels, depth)) → payload_ok input.
Proof.
  unfold resolveStartPayload. cbv zeta.
  assert (∀ workflowID i d,
    (r ← loadDefOrFail env evt workflowID;
     match r with inl def => Ret (inl (def, i, ∅, d)) | inr res => Ret (inr res) end) =
      Ret (inl (wfDef, input, labels, depth)) → payload_ok i → payload_ok input) as Htrigger.
  { intros w i d H. apply bind_ret_iff in H as ([def|res] & _ & H); [|done].
    by simplify_eq. }
  destruct (unmarshal_start payload) as [[[def i] l]| |] eqn:Hu.
  - destruct def as [data|].
    + intros H. apply bind_ret_iff in H as (? & _ & [= <- <- <- <-]).
      unfold unmarshal_start, unmarshal_struct in Hu. destruct payload as [|[]]; simplify_eq.
      apply bind_ret_iff in Hu as (? & _ & Hu). apply bind_ret_iff in Hu as (? & Hi & Hu).
      apply bind_ret_iff in Hu as (? & _ & [= -> -> ->]).
      eapply dec_field_raw; [|exact Hi]. apply payload_ok_None.
    + destruct (decodeRunTerminalChainPayload payload) as [[[w i'] d]|] eqn:Hc.
      { intros H. apply Htrigger in H; [done|by eapply chain_payload_input]. }
      destruct (decodeTriggerEnvelope payload) as [w|] eqn:He.
      { intros H. apply Htrigger in H; [done|by eapply envelope_payload]. }
      intros H. apply bind_ret_iff in H as (? & _ & [= _ <- _ _]). apply payload_ok_None.
  - destruct (decodeRunTerminalChainPayload payload) as [[[w i'] d]|] eqn:Hc.
    { intros H. apply Htrigger in H; [done|by eapply chain_payload_input]. }
    destruct (decodeTriggerEnvelope payload) as [w|] eqn:He.
    { intros H. apply Htrigger in H; [done|by eapply envelope_payload]. }
    intros H. apply bind_ret_iff in H as (? & _ & [= _ <- _ _]). apply payload_ok_None.
  - done.
Qed.

Lemma new_run_inv evt wfDef run :
  new_run env evt wfDef = Ret run →
  protocol.RunID evt ≠ "" ∧ wr_RunID run = protocol.RunID evt ∧ wr_WorkflowID run = wd_Name wfDef ∧
  wr_DefHash run = se_hash env wfDef ∧ wr_RootRunID run = protocol.RunID evt ∧
  wr_CompletedAt run = None ∧ ∀ id, step_at (wr_Steps run) id = step_state StepStatusPending.
Proof.
  unfold new_run. rewrite bind_ret_iff. intros (r & H & [= <-]).
  apply NewWorkflowRun_inv in H as (? & ? & ? & ? & ? & ? & ?). by destruct r.
Qed.

Lemma rejected_none evt wfDef input labels :
  rejectInvalidStart LoadLocation perm rule_order env evt wfDef input labels = Ret None →
  Validate LoadLocation perm rule_order wfDef = Ret tt ∧ ValidateLabels labels = Ret tt ∧
  ValidateSchema (wd_InputSchema wfDef) (default (RawBad "") input) = Ret tt.
Proof.
  unfold rejectInvalidStart. rewrite bind_unit_ret_iff. intros (_ & H).
  destruct (Validate _ _ _ wfDef) as [[]| |]; [|by apply bind_ret_iff in H as (? & _ & ?)|done].
  destruct (ValidateLabels labels) as [[]| |]; [|by apply bind_ret_iff in H as (? & _ & ?)|done].
  split_and!; [done..|]. destruct (wd_InputSchema wfDef) as [sch|]; [|done].
  destruct (ValidateSchema _ _) as [[]| |]; [done| |done].
  apply bind_ret_iff in H as (? & _ & H). by apply bind_ret_iff in H as (? & _ & ?).
Qed.

(** Follows a computation that returned through its binds and branches. *)
Ltac unwind H :=
  repeat (first [progress simplify_eq | case_match | apply bind_ret_iff in H as (? & ? & H)
    | match goal with Hb : _ ≫= _ = Ret _ |- _ => apply bind_ret_iff in Hb as (? & ? & Hb) end]).

(** What a start creates: a validated workflow's run with every step pending. *)
Lemma started_create evt payload chain wfDef run dispatch :
  handleWorkflowStarted LoadLocation perm rule_order env evt payload =
    Ret (StartCreate chain wfDef run dispatch) →
  Validate LoadLocation perm rule_order wfDef = Ret tt ∧
  ValidateLabels (wr_Labels run) = Ret tt ∧
  ValidateSchema (wd_InputSchema wfDef) (default (RawBad "") (wr_Input run)) = Ret tt ∧
  wr_RunID run = protocol.RunID evt ∧ wr_RootRunID run = protocol.RunID evt ∧
  wr_WorkflowID run = wd_Name wfDef ∧ wr_DefHash run = se_hash env wfDef ∧
  wr_Status run = (if dispatch then RunStatusRunning else RunStatusPending) ∧
  unstarted (wr_set_Status RunStatusRunning run).
Proof.
  unfold handleWorkflowStarted. rewrite bind_unit_ret_iff. intros (_ & H).
  apply bind_ret_iff in H as ([[[[def input] labels] depth]|r] & Hres & H).
  2:{ injection H as ->. exfalso. revert Hres. unfold resolveStartPayload, loadDefOrFail,
        persistFailedStartRun. cbv zeta. intros Hres.
      unwind Hres. }
  apply bind_ret_iff in H as ([r|] & Hrej & H).
  { injection H as ->. exfalso. revert Hrej. unfold rejectInvalidStart, persistFailedStartRun.
    intros Hrej.
    unwind Hrej. }
  apply rejected_none in Hrej as (Hv & Hl & Hs). apply resolved_input in Hres as Hin.
  apply bind_ret_iff in H as (r0 & Hr0 & H).
  apply new_run_inv in Hr0 as (Hne & Hid & Hwf & Hhash & Hroot & Hca & Hp).
  destruct (se_admit env _ _ _) as [adm|e|m]; [| |done].
  2:{ destruct (errors_Is e _); [|done]. unfold persistAdmissionFailedRun in H.
      rewrite bind_unit_ret_iff, bind_ret_iff in H. by destruct H as (_ & ? & _ & ?). }
  destruct (if empty_str _ then _ else _) as [[]|e|m]; [|done..].
  destruct (adm_action adm).
  - unfold promote in H.
    destruct (0 <? wd_Timeout def); injection H as <- <- <- <-; destruct r0; simpl in *;
      split_and!; try done; split; simpl; congruence || done.
  - unfold persistSkippedRun in H. rewrite !bind_unit_ret_iff, bind_ret_iff in H.
    by destruct H as (_ & _ & ? & _ & ?).
  - injection H as <- <- <- <-; destruct r0; simpl in *;
      split_and!; try done; split; simpl; congruence || done.
Qed.

(** A run that is over before it began: nothing of it is in flight. *)
Definition stillborn (runID : string) (run : WorkflowRun) : Prop :=
  wr_RunID run = runID ∧ finalized run ∧
  ∀ id, active_status (status_of (wr_Steps run) id) = false.

Lemma end_unsaved_inv run status run' :
  end_unsaved env run status = Ret run' → wr_CompletedAt run = None →
  (∀ id, active_status (status_of (wr_Steps run) id) = false) → stillborn (wr_RunID run) run'.
Proof.
  unfold end_unsaved. rewrite bind_ret_iff. intros ([fin|] & Hf & H) Hca Hidle.
  - apply finalizeRun_spec in Hf as (_ & Hfin & _ & _ & Hs & Hid).
    unfold saveSnapshot in H. rewrite bind_unit_ret_iff, bind_ret_iff in H.
    destruct H as (_ & st & Hst & [= <-]). split_and!; [by destruct fin|by destruct fin|].
    intros id. rewrite wr_Steps_set_Steps. destruct (stamp_same _ _ _ Hst id) as (-> & _).
    rewrite Hs. apply Hidle.
  - unfold finalizeRun in Hf. rewrite Hca, andb_false_r in Hf.
    by apply bind_ret_iff in Hf as (? & _ & ?).
Qed.

Lemma failed_start_inv evt workflowID run o :
  persistFailedStartRun env evt workflowID = Ret (StartEnded run o) →
  stillborn (protocol.RunID evt) run.
Proof.
  unfold persistFailedStartRun. rewrite bind_unit_ret_iff, bind_ret_iff.
  intros (_ & r & Hr & [= <- <-]). by apply end_unsaved_inv in Hr.
Qed.

Lemma refused_inv run stepID reason status run' :
  refused_run env run stepID reason status = Ret run' → wr_CompletedAt run = None →
  stillborn (wr_RunID run) run'.
Proof.
  unfold refused_run. intros H Hca. apply end_unsaved_inv in H; [by destruct run|by destruct run|].
  intros id. replace (wr_Steps _) with ({[stepID := ss_set_Error reason (step_state StepStatusFailed)]}
    : gmap string StepState) by (by destruct run).
  unfold step_at. destruct (decide (id = stepID)) as [->|Hne];
    [by rewrite lookup_singleton_eq|by rewrite lookup_singleton_ne].
Qed.

Lemma new_run_idle evt wfDef run :
  new_run env evt wfDef = Ret run → wr_RunID run = protocol.RunID evt ∧ wr_CompletedAt run = None ∧
  ∀ id, active_status (status_of (wr_Steps run) id) = false.
Proof.
  intros (_ & Hid & _ & _ & _ & Hca & Hp)%new_run_inv. split_and!; [done..|].
  intros id. by rewrite Hp.
Qed.

(** A start that is refused leaves an ended run under the event's id. *)
Lemma started_ended evt payload run o :
  handleWorkflowStarted LoadLocation perm rule_order env evt payload = Ret (StartEnded run o) →
  stillborn (protocol.RunID evt) run.
Proof.
  unfold handleWorkflowStarted. rewrite bind_unit_ret_iff. intros (_ & H).
  assert (∀ w r, loadDefOrFail env evt w = Ret (inr (StartEnded r o)) →
    stillborn (protocol.RunID evt) r) as Hload.
  { intros w r. unfold loadDefOrFail. rewrite bind_unit_ret_iff. intros (_ & Hl).
    destruct (se_defs env w); [by apply bind_ret_iff in Hl as (? & _ & ?)| |done].
    apply bind_ret_iff in Hl as (? & Hf & [= ->]). by eapply failed_start_inv. }
  apply bind_ret_iff in H as ([[[[def input] labels] depth]|r] & Hres & H).
  2:{ injection H as ->. revert Hres. unfold resolveStartPayload. cbv zeta.
      assert (∀ w i d, (r ← loadDefOrFail env evt w;
         match r with inl def => Ret (inl (def, i, ∅, d)) | inr res => Ret (inr res) end) =
         (Ret (inr (StartEnded run o)) :
            outcome (WorkflowDef * option raw * gmap string string * Z + start_result)) →
         stillborn (protocol.RunID evt) run) as Ht.
      { intros w i d Hb. apply bind_ret_iff in Hb as ([x|x] & Hl & [= ->]). by eapply Hload. }
      intros Hres. repeat (case_match; simplify_eq; try by eapply Ht);
        by apply bind_ret_iff in Hres as (? & _ & ?). }
  apply bind_ret_iff in H as ([r|] & Hrej & H).
  { injection H as ->. unfold rejectInvalidStart in Hrej. rewrite bind_unit_ret_iff in Hrej.
    destruct Hrej as (_ & Hrej).
    destruct (Validate _ _ _ def); [| |done].
    2:{ apply bind_ret_iff in Hrej as (? & Hf & [= ->]). by eapply failed_start_inv. }
    destruct (ValidateLabels labels); [| |done].
    2:{ apply bind_ret_iff in Hrej as (? & Hf & [= ->]). by eapply failed_start_inv. }
    repeat (case_match; simplify_eq).
    apply bind_ret_iff in Hrej as (r0 & Hr0 & Hrej). apply new_run_idle in Hr0 as (<- & Hca & Hi).
    apply bind_ret_iff in Hrej as (r1 & Hr1 & [= <- <-]). by apply end_unsaved_inv in Hr1. }
  apply bind_ret_iff in H as (r0 & Hr0 & H). apply new_run_idle in Hr0 as (Hid & Hca & _).
  destruct (se_admit env _ _ _) as [adm|e|m]; [| |done].
  2:{ destruct (errors_Is e _); [|done]. unfold persistAdmissionFailedRun in H.
      rewrite bind_unit_ret_iff, bind_ret_iff in H. destruct H as (_ & r1 & Hr1 & [= <- <-]).
      apply refused_inv in Hr1; [|by destruct r0]. rewrite <-Hid. by destruct r0. }
  destruct (if empty_str _ then _ else _) as [[]|e|m]; [|done..].
  destruct (adm_action adm); [done| |done].
  unfold persistSkippedRun in H. rewrite !bind_unit_ret_iff, bind_ret_iff in H.
  destruct H as (_ & _ & r1 & Hr1 & [= <- <-]). apply refused_inv in Hr1; [|by destruct r0].
  rewrite <-Hid. by destruct r0.
Qed.

(** A start that leaves no run reports an error. *)
Lemma started_done evt payload o :
  handleWorkflowStarted LoadLocation perm rule_order env evt payload = Ret (StartDone o) →
  ∃ e, o = Err e.
Proof.
  unfold handleWorkflowStarted. rewrite bind_unit_ret_iff. intros (_ & H).
  apply bind_ret_iff in H as ([[[[def input] labels] depth]|r] & Hres & H).
  2:{ injection H as ->. exfalso. revert Hres. unfold resolveStartPayload, loadDefOrFail,
        persistFailedStartRun. cbv zeta. intros Hres. unwind Hres. }
  apply bind_ret_iff in H as ([r|] & Hrej & H).
  { injection H as ->. exfalso. unfold rejectInvalidStart, persistFailedStartRun in Hrej.
    unwind Hrej. }
  apply bind_ret_iff in H as (r0 & _ & H). destruct (se_admit env _ _ _) as [adm|e|m]; [| |done].
  2:{ destruct (errors_Is e _); [|injection H as <-; eauto].
      unfold persistAdmissionFailedRun in H. unwind H. }
  destruct (if empty_str _ then _ else _) as [[]|e|m]; [|injection H as <-; eauto|done].
  destruct (adm_action adm); [done| |done]. unfold persistSkippedRun in H. unwind H.
Qed.

(** A spawned child begins like any run and inherits its lineage. *)
Lemma spawned_child load parent evt payload def run :
  handleWorkflowSpawn env load parent evt payload = Ret (def, run) →
  unstarted run ∧ wr_WorkflowID run = wd_Name def ∧ wr_DefHash run = se_hash env def ∧
  (S (nestingDepth load (protocol.RunID evt)) < maxNestingDepth)%nat ∧
  (∀ p, parent = Ret p → wr_TriggerDepth run = wr_TriggerDepth p) ∧
  (wr_ParentRunID run = "" ∧ wr_RootRunID run = wr_RunID run ∨
   wr_ParentRunID run = protocol.RunID evt ∧
   (wr_RootRunID run = wr_RunID run ∨ ∃ p, parent = Ret p ∧ RootRunIDOf p = Ret (wr_RootRunID run))).
Proof.
  unfold handleWorkflowSpawn. rewrite bind_unit_ret_iff. intros (_ & H).
  apply bind_ret_iff in H as (p & Hp & H). rewrite wrap_err_ret_iff in Hp.
  rewrite !bind_unit_ret_iff, fail_if_ret_iff in H.
  destruct H as (_ & Hd%bool_decide_eq_false & H).
  assert (payload_ok (sp_Input p)) as Hin.
  { unfold unmarshal_spawn, unmarshal_struct in Hp. destruct payload as [|[]]; simplify_eq;
      try apply payload_ok_None.
    apply bind_ret_iff in Hp as (? & _ & Hp). apply bind_ret_iff in Hp as (? & _ & Hp).
    apply bind_ret_iff in Hp as (? & _ & Hp). apply bind_ret_iff in Hp as (? & Hi & Hp).
    apply bind_ret_iff in Hp as (? & _ & [= <-]). eapply dec_field_raw; [|exact Hi].
    apply payload_ok_None. }
  unfold createChildRun in H. rewrite !bind_unit_ret_iff in H. destruct H as (_ & _ & H).
  apply bind_ret_iff in H as (cdef & _ & H). apply bind_ret_iff in H as (c & Hc & H).
  apply bind_ret_iff in H as (r & Hr & [= -> ->]).
  assert (wr_TriggerDepth c = 0 ∧ wr_ParentRunID c = "" ∧ wr_RootRunID c = "") as (Ht0 & Hp0 & _).
  { unfold NewWorkflowRun in Hc. rewrite !bind_unit_ret_iff in Hc. by destruct Hc as (_ & _ & [= <-]). }
  apply NewWorkflowRun_inv in Hc as (Hne & Hid & Hwf & Hh & _ & _ & Hpend).
  unfold inheritParentLineage in Hr. rewrite bind_unit_ret_iff in Hr. destruct Hr as (_ & Hr).
  cbv zeta in Hr. destruct parent as [q|e|m]; [| |done].
  - destruct (sp_Detach p).
    + injection Hr as <-. destruct c; simpl in *. subst.
      split_and!; [by split|done|done|lia|by intros ? [= <-]|by left].
    + apply bind_ret_iff in Hr as (root & Hroot & [= <-]). destruct c; simpl in *. subst.
      split_and!; [by split|done|done|lia|by intros ? [= <-]|]. right. split; [done|]. right. eauto.
  - apply bind_unit_ret_iff in Hr as [_ Hr]. destruct (sp_Detach p); injection Hr as <-;
      destruct c; simpl in *; subst;
      (split_and!; [by split|done|done|lia|done|]); [by left|right; split; [done|by left]].
Qed.

(** The parent chain of a child stays within the nesting limit, when the reads
    of the check saw the stored runs. *)
Lemma nesting_agree load runs runs' child :
  (∀ k i, load k i = runs i) → (∀ i, i ≠ child → runs' i = runs i) → (∀ i r, runs i = Some r → wr_ParentRunID r ≠ child) →
  ∀ n k k' id, id ≠ child → nesting_loop (λ _, runs') n k' id = nesting_loop load n k id.
Proof.
  intros Hld Hag Hpar. induction n as [|n IH]; intros k k' id Hne; [done|]. simpl. rewrite Hag, Hld by done.
  destruct (runs id) as [r|] eqn:Hr; [|done]. destruct (empty_str _); [done|]. f_equal. apply IH. by eapply Hpar.
Qed.

Lemma nesting_mono load : ∀ n k id, (nesting_loop load n k id ≤ nesting_loop load (S n) k id)%nat.
Proof.
  induction n as [|n IH]; intros k id; [simpl; lia|]. remember (S n) as m eqn:Hm. simpl.
  subst m. simpl nesting_loop at 1. destruct (load k id); [|lia]. destruct (empty_str _); [lia|].
  specialize (IH (S k) (wr_ParentRunID w)). lia.
Qed.

Lemma spawned_depth load runs runs' parent evt payload def run :
  handleWorkflowSpawn env load parent evt payload = Ret (def, run) → (∀ k i, load k i = runs i) →
  runs' (wr_RunID run) = Some run → (∀ i, i ≠ wr_RunID run → runs' i = runs i) →
  (∀ i r, runs i = Some r → wr_ParentRunID r ≠ wr_RunID run) → protocol.RunID evt ≠ wr_RunID run →
  (nestingDepth (λ _, runs') (wr_RunID run) < maxNestingDepth)%nat.
Proof.
  intros Hs Hld Hl Hag Hpar Hne. apply spawned_child in Hs as (_ & _ & _ & Hd & _ & Hp).
  unfold nestingDepth in *. remember (S maxNestingDepth) as k eqn:Hk. subst k.
  cbn [nesting_loop]. rewrite Hl. destruct (empty_str (wr_ParentRunID run)) eqn:He; [unfold maxNestingDepth; lia|].
  destruct Hp as [[Hp _]|[Hp _]]; [by rewrite Hp in He|]. rewrite Hp.
  rewrite (nesting_agree load runs runs' (wr_RunID run) Hld Hag Hpar _ 0) by done.
  pose proof (nesting_mono load maxNestingDepth 0 (protocol.RunID evt)). lia.
Qed.
End Created.
