(* ===== verification/MapSpec.v ===== *)
(** * Maps: instance IDs and the order of outputs

    The ID of a map instance names its step and its index, and the outputs of
    the instances are collected in the order of the items, whatever order the
    instances complete in. *)

From S2P Require Import Prelude Float64 Json Types Config Condition Graph Resolve GoTime Cron Validate ValidateSpec Keys Advance Dispatch Fence Recovery Handlers Timers Failures Script Planners TypedSteps.
From stdpp Require Import relations pretty.
From Stdlib Require Import Ascii.

#[local] Open Scope Z_scope.

(** ** Decimal integers *)

Lemma pretty_char_digit d :
  (d < 10)%N → is_digit (pretty_N_char d) = true ∧ byte_of (pretty_N_char d) = 48 + Z.of_N d.
Proof.
  intros Hd. assert (d ∈ [0; 1; 2; 3; 4; 5; 6; 7; 8; 9]%N) as Hin.
  { rewrite !elem_of_cons, elem_of_nil. lia. }
  rewrite !elem_of_cons, elem_of_nil in Hin. by destruct_or! Hin; subst.
Qed.

(** The digits of [x] in front of [s]. *)
Lemma pretty_go_digits x : ∀ s,
  str_forallb is_digit s = true →
  str_forallb is_digit (pretty_N_go x s) = true ∧
  digits_val (pretty_N_go x s) = Z.of_N x * 10 ^ Z.of_nat (String.length s) + digits_val s.
Proof.
  induction (N.lt_wf_0 x) as [x _ IH]; intros s Hs.
  destruct (decide (0 < x)%N) as [Hx|Hx].
  2: { assert (x = 0%N) as -> by lia. rewrite pretty_N_go_0. split; [done|lia]. }
  rewrite pretty_N_go_step by done.
  assert (x `mod` 10 < 10)%N as Hmod by (by apply N.mod_lt).
  destruct (pretty_char_digit _ Hmod) as [Hd Hv].
  destruct (IH (x `div` 10)%N) with (s := String (pretty_N_char (x `mod` 10)) s) as [H1 H2].
  - by apply N.div_lt.
  - unfold str_forallb in *. simpl. by rewrite Hd.
  - split; [done|]. rewrite H2. clear H1 H2 IH.
    assert (digits_val (String (pretty_N_char (x `mod` 10)) s) =
      Z.of_N (x `mod` 10) * 10 ^ Z.of_nat (String.length s) + digits_val s) as ->.
    { unfold digits_val at 1. simpl. rewrite Hv.
      assert (∀ l acc, foldl (λ acc c, acc * 10 + (byte_of c - 48)) acc l =
        acc * 10 ^ Z.of_nat (length l) + foldl (λ acc c, acc * 10 + (byte_of c - 48)) 0 l) as Hf.
      { induction l as [|c l IHl]; intros acc; simpl; [lia|]. rewrite IHl, (IHl (0 * 10 + _)).
        rewrite Nat2Z.inj_succ, Z.pow_succ_r by lia. lia. }
      rewrite Hf, str_list_length. unfold digits_val. f_equal. lia. }
    simpl. rewrite Nat2Z.inj_succ, Z.pow_succ_r by lia.
    replace (Z.of_N x) with (10 * Z.of_N (x `div` 10) + Z.of_N (x `mod` 10)) by (pose proof (N.div_mod x 10); lia).
    ring.
Qed.

Lemma Atoi_pretty (z : Z) : 0 ≤ z ≤ int64_max → Atoi (pretty z) = Some z.
Proof.
  intros Hz.
  assert (str_forallb is_digit (pretty z) = true ∧ digits_val (pretty z) = z) as [Hd Hv].
  { destruct z as [|p|p]; [done| |lia]. change (pretty (Z.pos p)) with (pretty (N.pos p)).
    unfold pretty, pretty_N. case_decide; [done|].
    destruct (pretty_go_digits (N.pos p) "" eq_refl) as [H1 H2]. split; [done|].
    rewrite H2. change (digits_val "") with 0. simpl. lia. }
  unfold Atoi. destruct (pretty z) as [|c s] eqn:Hp.
  { destruct z as [|p|p]; [done| |lia]. change (pretty (Z.pos p)) with (pretty (N.pos p)) in Hp.
    cbv in Hv. lia. }
  assert (is_digit c = true) as Hc by (unfold str_forallb in Hd; simpl in Hd; by apply andb_true_iff in Hd as [? _]).
  replace (match String c s with String "-" s' => (true, s') | String "+" s' => (false, s')
           | _ => (false, String c s) end) with (false, String c s)
    by (destruct c as [[] [] [] [] [] [] [] []]; done).
  rewrite Hd, Hv. simpl. unfold in_int64.
  replace ((int64_min <=? z) && (z <=? int64_max)) with true; [done|].
  symmetry. apply andb_true_iff. unfold int64_min, int64_max in *. lia.
Qed.

(** ** Instance IDs *)

Lemma prefix_dot c s sep : c ≠ "."%char → String.prefix (String "." sep) (String c s) = false.
Proof. intros Hc. cbn [String.prefix]. destruct (ascii_dec "." c); congruence. Qed.

Lemma index_no_dot sep s :
  str_contains_char "."%char s = false → String.index 0 (String "." sep) s = None.
Proof.
  induction s as [|c s IH]; [done|]. cbn [str_contains_char].
  rewrite orb_false_iff, bool_decide_eq_false. intros [Hc Hs].
  change (String.index 0 (String "." sep) (String c s)) with
    (if String.prefix (String "." sep) (String c s) then Some 0%nat
     else match String.index 0 (String "." sep) s with Some n => Some (S n) | None => None end).
  rewrite prefix_dot by congruence. by rewrite IH.
Qed.

Lemma prefix_app p t : String.prefix p (p +:+ t) = true.
Proof.
  induction p as [|c p IH]; [by destruct t|]. rewrite str_app_cons. cbn [String.prefix].
  by destruct (ascii_dec c c).
Qed.

Lemma index_app base sep t :
  str_contains_char "."%char base = false →
  String.index 0 (String "." sep) (base +:+ String "." sep +:+ t) = Some (String.length base).
Proof.
  induction base as [|c base IH]; cbn [str_contains_char].
  - intros _. rewrite str_app_nil_l.
    pose proof (prefix_app (String "." sep) t) as Hp. rewrite !str_app_cons in *.
    change (String.index 0 (String "." sep) (String "." (sep +:+ t))) with
      (if String.prefix (String "." sep) (String "." (sep +:+ t)) then Some 0%nat
       else match String.index 0 (String "." sep) (sep +:+ t) with
            | Some n => Some (S n) | None => None end).
    by rewrite Hp.
  - rewrite orb_false_iff, bool_decide_eq_false. intros [Hc Hs]. rewrite str_app_cons.
    change (String.index 0 (String "." sep) (String c (base +:+ String "." sep +:+ t))) with
      (if String.prefix (String "." sep) (String c (base +:+ String "." sep +:+ t)) then Some 0%nat
       else match String.index 0 (String "." sep) (base +:+ String "." sep +:+ t) with
            | Some n => Some (S n) | None => None end).
    rewrite prefix_dot by congruence. by rewrite IH.
Qed.

Lemma parse_instance base i :
  str_contains_char "."%char base = false → 0 ≤ i ≤ int64_max →
  parseMapInstanceID (mapInstanceID base i) = Ret (base, i).
Proof.
  intros Hb Hi. unfold parseMapInstanceID, mapInstanceID.
  set (s := base +:+ ".map." +:+ pretty i).
  assert (String.length s = String.length base + (5 + String.length (pretty i)))%nat as Hl.
  { unfold s. by rewrite !str_length_app. }
  assert (split_on (String.length s) ".map." s = [base; pretty i]) as ->; [|by rewrite Atoi_pretty].
  rewrite Hl. replace (String.length base + (5 + String.length (pretty i)))%nat with
    (S (String.length base + (4 + String.length (pretty i))))%nat by lia.
  cbn [split_on]. unfold s at 1. rewrite index_app by done. f_equal.
  - apply substring_0_app.
  - rewrite Hl.
    replace (String.length base + (5 + String.length (pretty i)) -
      (String.length base + String.length ".map."))%nat with (String.length (pretty i)) by (simpl; lia).
    unfold s. rewrite substring_shift.
    change (String.length ".map.") with (String.length ".map." + 0)%nat.
    rewrite substring_shift, substring_full.
    destruct (String.length base + (4 + String.length (pretty i)))%nat eqn:Hn; [lia|].
    cbn [split_on]. by rewrite index_no_dot by apply pretty_Z_no_dot.
Qed.

Lemma instance_is_instance base i :
  str_contains_char "."%char base = false → isMapInstanceID (mapInstanceID base i) = true.
Proof. intros Hb. unfold isMapInstanceID, mapInstanceID. by rewrite index_app. Qed.

(** ** Completions in any order *)

Section Collect.
Context (h : host) (ds : nat → draws) (now : Time) (en : ending) (def : WorkflowDef).
Context (base : string) (n : nat) (out : nat → option raw) (v : nat → json).
Context (evt : nat → protocol.Event).
Context (Hbase : str_contains_char "."%char base = false) (Hn : Z.of_nat n ≤ int64_max).
Context (Hid : ∀ i, protocol.StepID (evt i) = mapInstanceID base (Z.of_nat i)).
Context (Hout : ∀ i, protocol.Payload (evt i) = out i) (Hv : ∀ i, marshal_output (out i) = Ret (v i)).
Context (Hnow : IsZero now = false).

(** The run after the engine alone handled one completion. *)
Definition deliver_instance (run : WorkflowRun) (i : nat) : WorkflowRun :=
  (alone (handleMapInstanceCompleted h ds now en def run (evt i)) run).1.

(** The instances once those of [l] completed. *)
Definition instances (l : list nat) : list MapInstanceState :=
  (λ i, if decide (i ∈ l) then MkMapInstanceState StepStatusCompleted (out i) ""
        else queued_instance) <$> seq 0 n.

Record mapping (l : list nat) (run : WorkflowRun) : Prop := {
  mp_id : wr_RunID run ≠ "";
  mp_status : status_of (wr_Steps run) base = StepStatusRunning;
  mp_instances : ss_MapInstances (step_at (wr_Steps run) base) = instances l;
}.

Lemma instances_lookup l i :
  (i < n)%nat → instances l !! i =
    Some (if decide (i ∈ l) then MkMapInstanceState StepStatusCompleted (out i) ""
          else queued_instance).
Proof. intros Hi. unfold instances. by rewrite list_lookup_fmap, lookup_seq_lt. Qed.

Lemma instances_nil : instances [] = replicate n queued_instance.
Proof.
  unfold instances. generalize 0%nat. clear. induction n as [|m IH]; intros k; [done|].
  cbn [seq fmap list_fmap replicate]. rewrite decide_False by apply not_elem_of_nil.
  f_equal. apply IH.
Qed.

Lemma instances_insert l i :
  (i < n)%nat →
  <[i := MkMapInstanceState StepStatusCompleted (out i) ""]> (instances l) = instances (i :: l).
Proof.
  intros Hi. apply list_eq. intros j. destruct (decide (j < n)%nat) as [Hj|Hj].
  - rewrite (instances_lookup (i :: l)) by done. destruct (decide (i = j)) as [->|Hne].
    + rewrite list_lookup_insert_eq; [by rewrite decide_True by left|].
      unfold instances. by rewrite length_fmap, length_seq.
    + rewrite list_lookup_insert_ne, instances_lookup by done. f_equal.
      apply decide_ext. rewrite elem_of_cons. naive_solver.
  - rewrite !lookup_ge_None_2; [done|..]; unfold instances;
      rewrite ?length_insert, length_fmap, length_seq; lia.
Qed.

Lemma all_done l : allMapInstancesDone (instances l) = true ↔ ∀ i, (i < n)%nat → i ∈ l.
Proof.
  unfold allMapInstancesDone. rewrite forallb_forall. split.
  - intros H i Hi. specialize (H _ (proj1 (list_elem_of_In _ _)
      (list_elem_of_lookup_2 _ _ _ (instances_lookup l i Hi)))). simpl in H. by case_decide.
  - intros H x Hx%list_elem_of_In. unfold instances in Hx.
    apply list_elem_of_fmap in Hx as (i & -> & Hi%elem_of_seq).
    by rewrite decide_True by (apply H; lia).
Qed.

(** What the handler makes of one more completion. *)
Lemma handle_unfold l run i :
  (i < n)%nat → mapping l run →
  ∃ st, ss_Status st = StepStatusRunning ∧ ss_MapInstances st = instances (i :: l) ∧
    handleMapInstanceCompleted h ds now en def run (evt i) =
      if negb (allMapInstancesDone (instances (i :: l)))
      then persist now (set_step base st run) (λ _, Finish (Ret tt))
      else collectMapOutputs h ds now en def (set_step base st run) base st.
Proof using Hbase Hn Hid Hout.
  intros Hi [_ Hst Hinst]. unfold handleMapInstanceCompleted.
  rewrite Hid, parse_instance by (done || lia). cbn [attempt]. unfold with_instance.
  rewrite (proj2 (Z.ltb_ge (Z.of_nat i) 0)) by lia.
  rewrite Nat2Z.id, Hinst, instances_lookup by done. cbn [attempt].
  exists (ss_set_MapInstances (instances (i :: l)) (step_at (wr_Steps run) base)).
  split_and!; [by destruct (step_at (wr_Steps run) base)..|].
  rewrite Hout. replace (MkMapInstanceState _ _ _) with
    (MkMapInstanceState StepStatusCompleted (out i) "") by (by destruct (decide _)).
  rewrite instances_insert by done.
  assert (∀ x st, ss_MapInstances (ss_set_MapInstances x st) = x) as Hset by (by intros ? []).
  by rewrite Hset.
Qed.

Lemma set_step_at run id st : step_at (wr_Steps (set_step id st run)) id = st.
Proof. unfold set_step. rewrite wr_Steps_set_Steps. apply step_at_insert. Qed.

Lemma deliver_partial l run i :
  (i < n)%nat → mapping l run → ¬ (∀ j, (j < n)%nat → j ∈ i :: l) →
  mapping (i :: l) (deliver_instance run i).
Proof using Hbase Hn Hid Hout Hnow.
  intros Hi Hm Hmore. destruct (handle_unfold l run i Hi Hm) as (st & Hst & Hin & Heq).
  rewrite <-all_done in Hmore. apply not_true_iff_false in Hmore.
  unfold deliver_instance. rewrite Heq, Hmore.
  cbn [negb]. unfold persist, saveSnapshot.
  pose proof (mp_id _ _ Hm) as Hrid.
  assert (wr_RunID (set_step base st run) = wr_RunID run) as Hr by (by destruct run).
  rewrite Hr, (proj2 (empty_str_false _) Hrid). cbn [panic_if mbind outcome_bind].
  unfold stampTerminalSteps at 1. rewrite Hnow. cbn [panic_if mbind outcome_bind attempt alone].
  set (steps := stamp_terminal now <$> _).
  assert (step_at steps base = st) as Hat.
  { rewrite <-(set_step_at run base st). eapply stamp_live;
      [|by rewrite set_step_at, Hst]. unfold stampTerminalSteps. by rewrite Hnow. }
  split; cbn [fst]; [by destruct run|by rewrite wr_Steps_set_Steps, Hat..].
Qed.

Lemma deliver_all order : ∀ l run,
  mapping l run → NoDup (order ++ l) → (∀ i, i ∈ order ++ l → (i < n)%nat) →
  (length (order ++ l) < n)%nat →
  mapping (reverse order ++ l) (foldl deliver_instance run order).
Proof using Hbase Hn Hid Hout Hnow.
  induction order as [|i order IH]; intros l run Hm Hnd Hlt Hlen; [done|].
  cbn [foldl]. rewrite reverse_cons, <-app_assoc. cbn [app] in *. apply IH.
  - apply deliver_partial; [apply Hlt; by left|done|]. intros Hall.
    assert (n ≤ length (i :: order ++ l))%nat; [|simpl in *; lia].
    rewrite <-(length_seq n 0). apply submseteq_length, NoDup_submseteq; [apply NoDup_seq|].
    intros j Hj%elem_of_seq. specialize (Hall j ltac:(lia)). revert Hall.
    rewrite !elem_of_cons, elem_of_app. tauto.
  - by rewrite <-Permutation_middle.
  - intros j. rewrite <-Permutation_middle. apply Hlt.
  - by rewrite <-Permutation_middle.
Qed.

(** The last completion completes the step with the outputs in the order of the
    items, and the run goes on. *)
Lemma deliver_last l run i :
  (i < n)%nat → mapping l run → (∀ j, (j < n)%nat → j ∈ i :: l) →
  ∃ st, ss_Status st = StepStatusCompleted ∧
    ss_Output st = Some (RawJson (JArr (v <$> seq 0 n))) ∧
    ∃ run1, handleMapInstanceCompleted h ds now en def run (evt i) =
      continue_run h ds now en def (set_step base st run1) ∧
      ∀ id, id ≠ base → step_at (wr_Steps run1) id = step_at (wr_Steps run) id.
Proof using Hbase Hn Hid Hout Hv.
  intros Hi Hm Hall. destruct (handle_unfold l run i Hi Hm) as (st & Hst & Hin & Heq).
  rewrite Heq, (proj2 (all_done (i :: l)) Hall). cbn [negb]. unfold collectMapOutputs.
  assert (mapM_outcome (λ i, marshal_output (mi_Output i)) (ss_MapInstances st) =
    Ret (v <$> seq 0 n)) as ->.
  { rewrite Hin. apply mapM_outcome_ret. unfold instances.
    apply Forall2_fmap, Forall_Forall2_diag, Forall_forall. intros j Hj%elem_of_seq.
    rewrite decide_True by (apply Hall; lia). apply Hv. }
  cbn [wrap_err attempt].
  eexists. split; [|split]; cycle 2.
  - exists (set_step base st run). split; [reflexivity|].
    intros id Hne. unfold set_step. rewrite wr_Steps_set_Steps. by apply step_at_insert_ne.
  - by destruct st.
  - by destruct st.
Qed.
End Collect.
