(* ===== verification/WakeSpec.v ===== *)
(** * Wakeups and resends

    A wait of an agent loop ends once: what the first wakeup saves makes every
    later timer a no-op and every later input a flag.  A resend covers exactly
    the steps that are marked unsent, and when its sends land it leaves no mark
    behind. *)

From S2P Require Import Prelude Float64 Json Types Config Condition Graph Resolve GoTime Advance Dispatch Fence Recovery Handlers Timers Script Engine Planners Loops.
From stdpp Require Import relations.

#[local] Open Scope Z_scope.

(** ** Waits *)

Section Waits.
Context (routes : StepType → option string) (policy : option GrantPolicy) (mx : Z).
Context (def : WorkflowDef).

Definition awake (run : WorkflowRun) (id : string) : Prop :=
  waiting (step_at (wr_Steps run) id) = false.

Lemma stamp_WaitUntil steps now steps' id :
  stampTerminalSteps steps now = Ret steps' →
  waiting (step_at steps' id) = waiting (step_at steps id).
Proof.
  unfold stampTerminalSteps. destruct (IsZero now); [done|]. cbn. intros [= <-].
  unfold step_at. rewrite lookup_fmap. destruct (steps !! id) as [st|]; [|done]. cbn.
  unfold stamp_terminal. destruct (ss_CompletedAt st); [done|].
  destruct (negb _) eqn:Ht; [done|]. unfold stampCompleted. rewrite Ht. by destruct st.
Qed.

Lemma saved_waiting now run saved id :
  saveSnapshot now run = Ret saved →
  waiting (step_at (wr_Steps saved) id) = waiting (step_at (wr_Steps run) id).
Proof.
  unfold saveSnapshot. rewrite bind_unit_ret_iff, bind_ret_iff.
  intros (_ & st & Hst & [= <-]). rewrite wr_Steps_set_Steps. by eapply stamp_WaitUntil.
Qed.

(** The first write of a script over the run it holds. *)
Definition first_write (s : script) (saved : WorkflowRun) : Prop :=
  ∃ k, s = SaveThen saved k.

Lemma wakeStep_awake d run stepDef state reason saved :
  first_write (wakeStep routes policy mx d run stepDef state reason) saved →
  awake saved (sd_ID stepDef).
Proof.
  unfold wakeStep, first_write. intros [k H].
  destruct (negb (waiting state)); [done|]. destruct (empty_str reason); [done|].
  cbn [panic_if mbind outcome_bind attempt] in H. unfold send_iteration, persist in H.
  destruct (saveSnapshot _ _) as [r|e|m] eqn:Hs; [|done..]. cbn in H. injection H as -> _.
  unfold awake. rewrite (saved_waiting _ _ _ _ Hs). unfold set_step.
  rewrite wr_Steps_set_Steps, step_at_insert. by destruct state.
Qed.

Lemma wait_elapsed_awake d run evt saved :
  first_write (handleWaitElapsed routes policy mx d def run evt) saved →
  awake saved (protocol.StepID evt).
Proof.
  unfold handleWaitElapsed, first_write. intros [k H].
  destruct (_ || empty_str _); [done|]. destruct (negb _); [done|].
  cbn [panic_if mbind outcome_bind attempt] in H.
  destruct (findStepDef def (protocol.StepID evt)) as [sd|] eqn:Hsd; [|done].
  apply find_first_Some in Hsd as [_ <-%bool_decide_eq_true].
  match type of H with (if ?b then _ else _) = _ => destruct b end; [done|].
  eapply wakeStep_awake. by exists k.
Qed.

Lemma input_queued_awake d run evt saved :
  ss_WaitInput (step_at (wr_Steps run) (protocol.StepID evt)) = true →
  first_write (handleInputQueued routes policy mx d def run evt) saved →
  awake saved (protocol.StepID evt).
Proof.
  unfold handleInputQueued, first_write. intros Hw [k H].
  destruct (_ || empty_str _); [done|]. destruct (negb _); [done|].
  cbn [panic_if mbind outcome_bind attempt] in H. unfold step_at in Hw.
  destruct (wr_Steps run !! protocol.StepID evt) as [st|]; [|done].
  destruct (findStepDef def (protocol.StepID evt)) as [sd|] eqn:Hsd; [|done].
  apply find_first_Some in Hsd as [_ <-%bool_decide_eq_true].
  destruct (_ || _); [done|]. cbn in Hw. rewrite Hw in H.
  eapply wakeStep_awake. by exists k.
Qed.

(** On an awake step a timer does nothing and an input only raises its flag. *)
Lemma awake_timer d run evt :
  awake run (protocol.StepID evt) → protocol.RunID evt ≠ "" → protocol.StepID evt ≠ "" →
  protocol.Type_ evt = EventStepWaitElapsed →
  handleWaitElapsed routes policy mx d def run evt = Finish (Ret tt).
Proof.
  intros Ha Hr%empty_str_false Hs%empty_str_false Ht. unfold handleWaitElapsed.
  rewrite Hr, Hs, (bool_decide_eq_true_2 _ Ht). cbn [panic_if mbind outcome_bind attempt orb negb].
  destruct (findStepDef def _); [|done].
  unfold awake, waiting in Ha. apply orb_false_iff in Ha as [Hw _].
  destruct (ss_WaitUntil (step_at (wr_Steps run) (protocol.StepID evt))) eqn:Hu; [done|].
  rewrite (bool_decide_eq_true_2 (None = None)) by done. by rewrite orb_true_r.
Qed.

Lemma awake_input d run evt :
  awake run (protocol.StepID evt) →
  (∃ o, handleInputQueued routes policy mx d def run evt = Finish o) ∨
  (∃ st, st = step_at (wr_Steps run) (protocol.StepID evt) ∧
     handleInputQueued routes policy mx d def run evt =
     persist (ld_save d) (set_step (protocol.StepID evt) (ss_set_HasInputs true st) run)
       (λ _, Finish (Ret tt))).
Proof.
  intros Ha. unfold handleInputQueued. destruct (_ || empty_str _); [left; eauto|].
  destruct (negb _); [left; eauto|]. cbn [panic_if mbind outcome_bind attempt].
  unfold awake, step_at in *.
  destruct (wr_Steps run !! protocol.StepID evt) as [st|]; [|left; eauto].
  destruct (findStepDef def _); [|left; eauto]. destruct (_ || _); [left; eauto|].
  cbn in Ha. unfold waiting in Ha. apply orb_false_iff in Ha as [_ Hw]. rewrite Hw.
  destruct (ss_HasInputs st); [left; eauto|]. right. eauto.
Qed.
End Waits.

(** ** Resends *)

Definition plan_ids (plan : dispatchPlan) : list string :=
  dp_alreadySent plan ++ (dp_effects plan).*1 ++ (sd_ID <$> dp_normalSteps plan).

Definition unsent (run : WorkflowRun) (s : StepDef) : Prop :=
  ss_DispatchUnsent (step_at (wr_Steps run) (sd_ID s)) = true.
#[global] Instance unsent_dec run s : Decision (unsent run s).
Proof. unfold unsent. apply _. Defined.

Lemma plan_ids_effect id e plan : plan_ids (add_effect id e plan) ≡ₚ id :: plan_ids plan.
Proof.
  unfold plan_ids, add_effect. cbn. rewrite fmap_app. cbn.
  rewrite (app_assoc _ (_ ++ _) _), (app_assoc _ _ [id]), <-Permutation_cons_append.
  cbn. by rewrite <-app_assoc.
Qed.

Lemma plan_ids_sent id plan : plan_ids (add_sent id plan) ≡ₚ id :: plan_ids plan.
Proof. unfold plan_ids, add_sent. cbn. by rewrite <-Permutation_cons_append. Qed.

Lemma plan_ids_task s plan :
  plan_ids (MkPlan (dp_effects plan) (dp_normalSteps plan ++ [s]) (dp_alreadySent plan)
              (dp_continueRun plan)) ≡ₚ sd_ID s :: plan_ids plan.
Proof.
  unfold plan_ids. cbn. rewrite fmap_app. cbn. rewrite !app_assoc, <-Permutation_cons_append.
  done.
Qed.

Lemma resend_step_ids queued run s plan plan' d i :
  unsent run s →
  match sd_Type s with
  | StepTypeSleep => e ← resume (dr_now d i) run s; Ret (add_effect (sd_ID s) e plan)
  | StepTypeWaitForEvent =>
      e ← waitForEventSend (dr_now d i) run s; Ret (add_effect (sd_ID s) e plan)
  | _ => planTaskResend queued run s plan
  end = Ret plan' → plan_ids plan' ≡ₚ sd_ID s :: plan_ids plan.
Proof.
  intros Hu H.
  assert (planTaskResend queued run s plan = Ret plan' →
    plan_ids plan' ≡ₚ sd_ID s :: plan_ids plan) as Htask.
  { unfold planTaskResend. rewrite bind_unit_ret_iff. intros [_ Ht].
    destruct (_ && _) in Ht; [injection Ht as <-; apply plan_ids_sent|].
    apply bind_ret_iff in Ht as ([] & _ & Ht); [injection Ht as <-; apply plan_ids_sent|].
    destruct (_ && _) in Ht; injection Ht as <-; [apply plan_ids_effect|apply plan_ids_task]. }
  destruct (sd_Type s); auto;
    apply bind_ret_iff in H as (e & _ & [= <-]); apply plan_ids_effect.
Qed.

Lemma resend_steps_ids queued d steps run : ∀ i plan plan',
  resend_steps queued d i steps run plan = Ret plan' →
  plan_ids plan' ≡ₚ (sd_ID <$> filter (unsent run) steps) ++ plan_ids plan.
Proof.
  induction steps as [|s steps IH]; intros i plan plan' H; [by injection H as <-|].
  cbn [resend_steps] in H. apply bind_ret_iff in H as (plan1 & H1 & H).
  apply IH in H. rewrite filter_cons. case_decide as Hu; unfold unsent in Hu.
  - rewrite Hu in H1. cbn [negb] in H1. cbn. rewrite H.
    apply resend_step_ids in H1; [|done]. by rewrite H1, <-Permutation_middle.
  - apply not_true_is_false in Hu. rewrite Hu in H1. by injection H1 as <-.
Qed.

Lemma planResend_ids queued d def run plan :
  planResend queued d def run = Ret plan →
  plan_ids plan ≡ₚ sd_ID <$> filter (unsent run) (wd_Steps def).
Proof.
  unfold planResend. rewrite !bind_unit_ret_iff. intros (_ & _ & H%resend_steps_ids).
  by rewrite app_nil_r in H.
Qed.

Lemma filter_all {A} (P : A → Prop) `{!∀ x, Decision (P x)} (l : list A) :
  (∀ x, x ∈ l → P x) → filter P l = l.
Proof.
  induction l as [|x l IH]; intros Hl; [done|]. rewrite filter_cons_True by (apply Hl; by left).
  f_equal. apply IH. intros y Hy. apply Hl. by right.
Qed.

Lemma sendPlan_all d plan sent : sendPlan d plan = (sent, true) → sent ≡ₚ plan_ids plan.
Proof.
  unfold sendPlan, plan_ids. intros [= <- Hall].
  apply andb_true_iff in Hall as [He Hb]. apply Permutation_app_head, Permutation_app.
  - rewrite filter_all; [done|]. rewrite forallb_forall in He. intros id Hid.
    by apply He, list_elem_of_In.
  - destruct (dr_batch d); [done|]. apply bool_decide_eq_true in Hb. by rewrite Hb.
Qed.

Lemma sent_nonces_lookup run sent id :
  sent_nonces run sent !! id =
    if decide (id ∈ sent) then Some (ss_DispatchNonce (step_at (wr_Steps run) id)) else None.
Proof.
  unfold sent_nonces. induction sent as [|x sent IH] using rev_ind; [done|].
  rewrite foldl_app. cbn. destruct (decide (x = id)) as [->|Hne].
  - rewrite lookup_insert_eq, decide_True; [done|]. apply elem_of_app. right. by left.
  - rewrite lookup_insert_ne, IH by done. f_equal. apply decide_ext.
    rewrite elem_of_app, list_elem_of_singleton. naive_solver.
Qed.

(** What the amendment of [markSent] leaves of the marks. *)
Lemma clearUnsent_marks run sent id :
  ss_DispatchUnsent (clear_mark (sent_nonces run sent) id (step_at (wr_Steps run) id)) =
    ss_DispatchUnsent (step_at (wr_Steps run) id) && negb (bool_decide (id ∈ sent)).
Proof.
  unfold clear_mark. rewrite sent_nonces_lookup.
  destruct (ss_DispatchUnsent (step_at (wr_Steps run) id)) eqn:Hu; cbn; [|done].
  case_decide as Hin; rewrite ?(bool_decide_eq_true_2 _ Hin), ?(bool_decide_eq_false_2 _ Hin).
  - rewrite bool_decide_eq_true_2 by done. cbn. by destruct (step_at (wr_Steps run) id).
  - rewrite bool_decide_eq_false_2 by done. by cbn.
Qed.

Lemma clearUnsent_ret run sent :
  (∀ id, id ∈ sent → is_Some (wr_Steps run !! id)) →
  ∃ o, clearUnsent (sent_nonces run sent) run = Ret o ∧
    ∀ id, ss_DispatchUnsent (step_at (wr_Steps (default run o)) id) =
      ss_DispatchUnsent (step_at (wr_Steps run) id) && negb (bool_decide (id ∈ sent)).
Proof.
  intros Hin. unfold clearUnsent.
  assert (size (sent_nonces run sent) ≤ size (wr_Steps run))%nat as Hsz.
  { rewrite <-!size_dom. apply subseteq_size. intros id [x Hx]%elem_of_dom. apply elem_of_dom.
    rewrite sent_nonces_lookup in Hx. case_decide; [by apply Hin|done]. }
  rewrite (bool_decide_eq_false_2 (_ < _)%nat) by (apply Nat.le_ngt; exact Hsz).
  cbn [panic_if mbind outcome_bind].
  case_bool_decide as Hex; (eexists; split; [done|]); intros id.
  - match goal with |- context [default run (Some ?r)] => change (default run (Some r)) with r end.
    rewrite wr_Steps_set_Steps. unfold step_at at 1. rewrite map_lookup_imap.
    destruct (wr_Steps run !! id) as [st|] eqn:Hl; cbn.
    + rewrite <-clearUnsent_marks. unfold step_at. by rewrite Hl.
    + unfold step_at. by rewrite Hl.
  - change (default run None) with run.
    destruct (ss_DispatchUnsent (step_at (wr_Steps run) id)) eqn:Hu; [|done]. cbn.
    case_bool_decide as Hs; [|done]. exfalso. apply Hex.
    destruct (Hin id Hs) as [st Hst]. exists id, st. split; [done|].
    unfold step_at in Hu. rewrite Hst in Hu. split; [done|].
    rewrite sent_nonces_lookup, decide_True by done. unfold step_at. by rewrite Hst.
Qed.
