(* ===== verification/Events.v ===== *)
(** * Every event of a run (internal/engine/orchestrator.go [dispatchEvent],
      [routeEvent])

    An event is checked against the run's deadline, routed to its handler, and
    followed by a resend of what a dead engine left unsent.  The handlers of the
    other files become scripts here: each loads the run, computes what it saves
    and hands it on.

    The invariant covers every event: a run the engine stores has the
    dependencies of each started step resolved, keeps its step limit, has no
    failed step while it is live and every step resolved when it is completed;
    or it is over for good, with no step in flight. *)

From S2P Require Import Prelude Float64 Json Types Config Condition Graph Resolve GoTime Cron Schema Validate ValidateSpec Input Advance Dispatch Fence Recovery Handlers Script Engine Timers Failures Planners Loops TypedSteps Starts.
From stdpp Require Import relations.

#[local] Open Scope Z_scope.

Definition EventWorkflowStarted : protocol.EventType := "workflow.started".
Definition EventWorkflowSpawn : protocol.EventType := "workflow.spawn".
Definition EventWorkflowChildCompleted : protocol.EventType := "workflow.child.completed".
Definition EventWorkflowChildFailed : protocol.EventType := "workflow.child.failed".
Definition EventWorkflowCancelled : protocol.EventType := "workflow.cancelled".
Definition EventStepWaitMatched : protocol.EventType := "step.wait.matched".
Definition EventApprovalGranted : protocol.EventType := "approval.granted".
Definition EventApprovalRejected : protocol.EventType := "approval.rejected".

(** What the engine does not compute while it handles one event: its host, the
    ids it draws, the clocks it reads, what its calls to other services return,
    its configuration, how the creation of a run or of a child ends, which
    writes no run that is already stored, and the handler that adds planned
    steps. *)
Record external : Type := MkExternal {
  x_host : host;
  x_pass : nat → draws;
  x_resend : draws;
  x_loop : loop_draws;
  x_id : nat → string;
  x_clock : nat → Time;
  x_now : Time;
  x_end : ending;
  x_child : string → outcome (WorkflowDef * WorkflowRun);
  x_def : outcome unit;
  x_defErr : option error;
  x_queued : StepDef → outcome bool;
  x_sent : outcome unit;
  x_routes : StepType → option string;
  x_policy : option GrantPolicy;
  x_maxState : Z;
  x_legacy : bool;
  x_create : protocol.Event → outcome unit;
  x_spawned : protocol.Event → outcome unit;
  x_planner : StepDef → WorkflowRun → protocol.Event → script;
}.

Section Events.
Context (x : external) (wfDef : WorkflowDef).

(** The loads a handler starts with: the run, or the run and its definition. *)
Definition with_run (k : WorkflowRun → script) : script := LoadThen (λ o, attempt o k).

Definition loadRunAndDef (k : WorkflowRun → script) : script :=
  with_run (λ run, attempt (x_def x) (λ _, k run)).

(** A wakeup of a run that cannot be loaded is dropped. *)
Definition load_or_drop (k : WorkflowRun → script) : script :=
  LoadThen (λ o,
    match o, x_def x with
    | Panic m, _ | Ret _, Panic m => Finish (Panic m)
    | Ret run, Ret _ => k run
    | _, _ => Finish (Ret tt)
    end).

(** ** What the handlers save *)

(** After [handleStepCompleted] computed its result on the loaded [run]. *)
Definition after_completed (run : WorkflowRun) (evt : protocol.Event) (res : completed_result)
    : script :=
  match res with
  | CompletedIgnored => Finish (Ret tt)
  | CompletedMapInstance =>
      handleMapInstanceCompleted (x_host x) (x_pass x) (x_now x) (x_end x) wfDef run evt
  | CompletedPlanner step run => x_planner x step run evt
  | CompletedCompensation NotCompensate => Finish (Ret tt)
  | CompletedCompensation (CompNext run pub) => persist (x_now x) run (λ _, Finish (Ret tt))
  | CompletedCompensation (CompDone run) => ended (x_end x) run
  | CompletedRun run =>
      completeWorkflow (h_err_text (x_host x)) (h_latest (x_host x)) (x_end x) run
  | CompletedSave saved =>
      SaveThen saved (dispatchPass (x_host x) (passes wfDef) (x_pass x) wfDef saved)
  end.

Definition completed_script (evt : protocol.Event) : script :=
  loadRunAndDef (λ run,
    attempt (handleStepCompleted (x_id x) (x_clock x) (x_legacy x) wfDef run evt)
      (after_completed run evt)).

(** After [handleStepFailed] computed its result on the loaded [run]. *)
Definition after_failed (run : WorkflowRun) (evt : protocol.Event) (res : failed_result)
    : script :=
  match res with
  | FailedIgnored => Finish (Ret tt)
  | FailedMapInstance =>
      handleMapInstanceFailed (x_host x) (x_pass x) (x_now x) (x_end x) wfDef run evt
  | FailedRetry saved timer =>
      SaveThen saved (attempt timer (λ _, Finish (x_sent x)))
  | FailedPermanent (AuxFailed run) | FailedPermanent (RunFailed run) => ended (x_end x) run
  | FailedPermanent (HandlerStarted run _) | FailedPermanent (CompensationStarted run _) =>
      persist (x_now x) run (λ _, Finish (x_sent x))
  end.

Definition failed_script (evt : protocol.Event) : script :=
  loadRunAndDef (λ run,
    attempt (handleStepFailed (h_bytes (x_host x)) (h_oob (x_host x)) (x_routes x) (x_id x)
               (x_clock x) (x_legacy x) wfDef run evt)
      (after_failed run evt)).

Definition started_script (evt : protocol.Event) : script :=
  with_run (λ run,
  attempt (handleStepStarted (x_clock x 0%nat) run evt) (λ res,
  match res with
  | None => Finish (Ret tt)
  | Some (run, _) => persist (x_now x) run (λ _, Finish (x_sent x))
  end)).

Definition queued_script (evt : protocol.Event) : script :=
  with_run (λ run,
  attempt (handleStepQueued run evt) (λ res,
  match res with
  | None => Finish (Ret tt)
  | Some run => persist (x_now x) run (λ _, Finish (Ret tt))
  end)).

Definition cancelled_script (evt : protocol.Event) : script :=
  with_run (λ run, handleWorkflowCancelled (x_end x) (x_defErr x) run evt).

(** A start of a run that may be stored already. *)
Definition start_script (evt : protocol.Event) : script :=
  match protocol.Payload evt with
  | None => Finish (Panic "handleWorkflowStarted: Payload must not be nil")
  | Some payload =>
      startExistingRun (x_host x) (x_pass x) (x_def x) wfDef (isRunTerminalChainPayload payload)
        (Finish (x_create x evt)) evt
  end.

(** ** Routing *)

Definition routeEvent (evt : protocol.Event) : script :=
  let h := x_host x in
  let on t := bool_decide (protocol.Type_ evt = t) in
  attempt (panic_if (empty_str (protocol.RunID evt)) "routeEvent: RunID must not be empty") (λ _,
  if on EventWorkflowStarted then start_script evt
  else if on protocol.EventStepCompleted then completed_script evt
  else if on EventStepSleepCompleted then completed_script evt
  else if on EventStepWaitMatched then completed_script evt
  else if on EventStepWaitTimeout then
    loadRunAndDef (λ run, handleWaitTimeout h (x_pass x) (x_now x) (x_end x) wfDef run evt)
  else if on protocol.EventStepContinue then
    loadRunAndDef (λ run, handleStepContinue h (x_routes x) (x_policy x) (x_maxState x)
                            (x_legacy x) (x_loop x) wfDef run evt)
  else if on protocol.EventStepFailed then failed_script evt
  else if on protocol.EventStepStarted then started_script evt
  else if on protocol.EventStepQueued then queued_script evt
  else if on EventWorkflowSpawn then Finish (x_spawned x evt)
  else if on EventWorkflowChildCompleted then
    loadRunAndDef (λ run, handleChildCompleted h (x_pass x) (x_now x) (x_end x) (x_child x)
                            wfDef run evt)
  else if on EventWorkflowChildFailed then
    loadRunAndDef (λ run, handleChildFailed (x_end x) run evt)
  else if on EventWorkflowCancelled then cancelled_script evt
  else if on EventApprovalGranted then
    loadRunAndDef (λ run, HandleGranted h (x_pass x) (x_now x) (x_end x) wfDef run evt)
  else if on EventApprovalRejected then
    loadRunAndDef (λ run, HandleRejected h (x_end x) run evt)
  else if on EventApprovalExpired then
    loadRunAndDef (λ run, HandleExpired h (x_end x) run evt)
  else if on protocol.EventStepInputQueued then
    load_or_drop (λ run, handleInputQueued (x_routes x) (x_policy x) (x_maxState x) (x_loop x)
                            wfDef run evt)
  else if on EventStepWaitElapsed then
    load_or_drop (λ run, handleWaitElapsed (x_routes x) (x_policy x) (x_maxState x) (x_loop x)
                            wfDef run evt)
  else Finish (Ret tt)).

(** The run is past its deadline. *)
Definition overdue (run : WorkflowRun) : bool :=
  match wr_Deadline run with
  | Some t => (t <? x_now x) && bool_decide (wr_Status run = RunStatusRunning)
  | None => false
  end.

Definition dispatchEvent (evt : protocol.Event) : script :=
  attempt (panic_if (empty_str (protocol.RunID evt)) "dispatchEvent: RunID must not be empty") (λ _,
  LoadThen (λ o,
    let holds (p : WorkflowRun → bool) := match o with Ret run => p run | _ => false end in
    if holds overdue then cancelled_script evt
    else if negb (holds hasUnsentStep) then routeEvent evt
    else and_then (routeEvent evt)
           (with_run (resendUnsent (x_queued x) (x_resend x) (x_def x) wfDef)))).
End Events.
