(* ===== verification/EventSafety.v ===== *)
(** * The invariant of stored runs, for every event

    [fit] is what every run the engine computes satisfies, [sound] that a live
    run has no failed step, [closed] a run that is over with no step in flight:
    a cancelled run, or one whose output broke its schema.  Every write of
    every handler is [run_ok].

    Left out: definitions with failure handlers, compensations or detached
    sub-workflows, events that create runs or complete a planner, and failures
    of map instances (an unfenced failure turns even a completed map step into
    a failed one). *)

From S2P Require Import Prelude Float64 Json Types Config Condition Graph Resolve GoTime Cron Schema Validate ValidateSpec Retry Input Advance Dispatch Fence Recovery Handlers Script Engine Timers Failures Planners Loops TypedSteps Starts Events.
From stdpp Require Import relations.

#[local] Open Scope Z_scope.

(** ** What handlers leave alone *)

Definition same_id (run run' : WorkflowRun) : Prop :=
  wr_RunID run' = wr_RunID run ∧ wr_Input run' = wr_Input run.

#[global] Instance same_id_preorder : PreOrder same_id.
Proof. split; [done|]. intros r1 r2 r3 [H1 H2] [H3 H4]. split; congruence. Qed.

Lemma same_id_set_Steps v run : same_id run (wr_set_Steps v run).
Proof. by destruct run. Qed.
Lemma same_id_set_Status v run : same_id run (wr_set_Status v run).
Proof. by destruct run. Qed.
Lemma same_id_set_step id st run : same_id run (set_step id st run).
Proof. apply same_id_set_Steps. Qed.
#[export] Hint Resolve same_id_set_Steps same_id_set_Status same_id_set_step : core.

Lemma same_id_skips def run : same_id run (resolveSkips def run).1.
Proof. by destruct run. Qed.

Lemma Advance_same_id def run evt run' effects :
  Advance def run evt = Ret (run', effects) → same_id run run'.
Proof.
  unfold Advance. rewrite bind_unit_ret_iff. intros [_ H]. destruct (ev_Type evt); [| | |done].
  - unfold advanceCompleted, resolveNextSteps in H.
    destruct (resolveSkips def _) as [r eff] eqn:Hr.
    assert (same_id run r) as Hs.
    { change r with (r, eff).1. rewrite <-Hr. by etrans; [|apply same_id_skips]. }
    destruct (IsComplete _ _); [injection H as <- _; by etrans|].
    by apply bind_ret_iff in H as (tasks & _ & [= <- _]).
  - unfold advanceFailed in H. destruct (fp_FailureType _); [by injection H as <- _| |by injection H as <- _].
    destruct (resolveSkips def _) as [r eff] eqn:Hr. injection H as <- _.
    transitivity r; [|done]. change r with (r, eff).1. rewrite <-Hr.
    by etrans; [|apply same_id_skips].
  - unfold advanceContinue in H. destruct (findStepInDef def _); [|done].
    destruct (ParseAgentLoopConfig _); [|done..]. destruct (_ && _).
    { injection H as <- _. by etrans; [|apply same_id_set_Status]. }
    destruct (ResolveInput _ _ _); [|done..]. by injection H as <- _.
Qed.

Lemma saveSnapshot_id now run saved : saveSnapshot now run = Ret saved → same_id run saved.
Proof.
  unfold saveSnapshot. rewrite bind_unit_ret_iff, bind_ret_iff. by intros (_ & st & _ & [= <-]).
Qed.

Lemma finalizeRun_id now run status run' :
  finalizeRun now run status = Ret (Some run') → same_id run run'.
Proof.
  unfold finalizeRun. destruct (_ && _); [done|]. rewrite bind_ret_iff.
  intros (r & [_ ->]%markTerminal_ret & [= <-]). by destruct run.
Qed.

Lemma enqueueReady_id new_id clock def run run' pend :
  enqueueReady new_id clock def run = Ret (run', pend) → same_id run run'.
Proof.
  unfold enqueueReady. rewrite bind_unit_ret_iff, bind_ret_iff. intros (Hid & r & Hr & H).
  apply panic_if_ret_iff, empty_str_false in Hid.
  destruct (resolveReadySteps_spec def run Hid) as (r' & Hr' & Hrun & _).
  rewrite Hr in Hr'. injection Hr' as <-.
  assert (same_id run (rr_run r)) as Hs by (by rewrite Hrun).
  destruct (rr_finished r); [by injection H as <- _|].
  destruct (rr_ready r); [by injection H as <- _|].
  apply bind_ret_iff in H as (st & _ & [= <- _]). by etrans.
Qed.

Lemma enqueueReady_nodup new_id clock def run run' ready :
  NoDup (ids_of (wd_Steps def)) →
  enqueueReady new_id clock def run = Ret (run', PassDispatch ready) →
  NoDup (sd_ID <$> ready).
Proof.
  intros Hnd. unfold enqueueReady. rewrite bind_unit_ret_iff, bind_ret_iff.
  intros (_ & r & Hr & H). destruct (rr_finished r) eqn:Hf; [by destruct (rr_complete r)|].
  destruct (rr_ready_sublist _ _ _ Hr Hf) as [Hsub _].
  destruct (rr_ready r) eqn:Hrd; [done|]. apply bind_ret_iff in H as (st & _ & [= _ <-]).
  eapply sublist_NoDup; [by apply (uncapped_nodup def run)|by apply (fmap_sublist sd_ID)].
Qed.

Section Safety.
Context (def : WorkflowDef) (runID : string) (dispatched_ids : list string).
Context (Hdef : plain def) (Hlimit : ∀ m, step_limit def = Some m → m ≤ int64_max).
Context (Hrun : runID ≠ "").
#[local] Abbreviation Hnodup := (rv_nodup def (pl_resolvable def Hdef)).

(** ** The invariant *)

Definition nonces_ok (steps : gmap string StepState) : Prop :=
  ∀ id, id ∈ dispatched_ids → ss_DispatchNonce (step_at steps id) ≠ "".

Record fit (run : WorkflowRun) : Prop := {
  ft_id : wr_RunID run = runID;
  ft_input : payload_ok (wr_Input run);
  ft_steps : steps_inv def (wr_Steps run);
  ft_nonces : nonces_ok (wr_Steps run);
  ft_local : ∀ id, active_status (status_of (wr_Steps run) id) = true →
    id ∈ ids_of (wd_Steps def);
  ft_done : wr_Status run = RunStatusCompleted → all_resolved def (wr_Steps run);
  ft_cap : ∀ m, step_limit def = Some m → countActiveSteps run ≤ m;
}.

Definition sound (run : WorkflowRun) : Prop :=
  IsTerminal (wr_Status run) = false →
  ∀ id, status_of (wr_Steps run) id ≠ StepStatusFailed.

Record closed (run : WorkflowRun) : Prop := {
  cl_id : wr_RunID run = runID;
  cl_final : finalized run;
  cl_nonces : nonces_ok (wr_Steps run);
  cl_idle : ∀ id, active_status (status_of (wr_Steps run) id) = false;
}.

Definition run_ok (run : WorkflowRun) : Prop := (fit run ∧ sound run) ∨ closed run.

Lemma fit_safe run : fit run → sound run → run_safe def run.
Proof. intros [] Hs. split; try done. congruence. Qed.

(** *** Under changes that the invariant does not read *)

Definition same_run (run run' : WorkflowRun) : Prop :=
  same_id run run' ∧ wr_Status run' = wr_Status run ∧ same_steps (wr_Steps run) (wr_Steps run').

Lemma nonces_same steps steps' : same_steps steps steps' → nonces_ok steps → nonces_ok steps'.
Proof. intros Hs Hn id Hid. destruct (Hs id) as (_ & -> & _). by apply Hn. Qed.

Lemma fit_same run run' : same_run run run' → fit run → fit run'.
Proof.
  intros ([Hid Hin] & Hst & Hs) [? ? ? ? ? ? ?]. split; rewrite ?Hid, ?Hin, ?Hst; try done.
  - by eapply steps_inv_same.
  - by eapply nonces_same.
  - intros id. destruct (Hs id) as (-> & _). auto.
  - intros Hc s Hs' Ha. destruct (Hs (sd_ID s)) as (-> & _). by apply ft_done0.
  - intros m Hm. etrans; [|by apply ft_cap0]. apply count_subset.
    by rewrite (same_steps_active _ _ Hs).
Qed.

Lemma sound_same run run' : same_run run run' → sound run → sound run'.
Proof.
  intros (_ & Hst & Hs) H. unfold sound. rewrite Hst. intros Ht id.
  destruct (Hs id) as (-> & _). by apply H.
Qed.

Lemma closed_same run run' :
  same_run run run' → wr_CompletedAt run' = wr_CompletedAt run → closed run → closed run'.
Proof.
  intros ([Hid _] & Hst & Hs) Hc [? [? ?] ? ?]. split; rewrite ?Hid; try done.
  - split; by rewrite ?Hst, ?Hc.
  - by eapply nonces_same.
  - intros id. by destruct (Hs id) as (-> & _).
Qed.

Lemma run_ok_same run run' :
  same_run run run' → wr_CompletedAt run' = wr_CompletedAt run → run_ok run → run_ok run'.
Proof.
  intros Hs Hc [[? ?]|?]; [left; split; [by eapply fit_same|by eapply sound_same]|].
  right. by eapply closed_same.
Qed.

Lemma saved_same now run saved :
  saveSnapshot now run = Ret saved →
  same_run run saved ∧ wr_CompletedAt saved = wr_CompletedAt run.
Proof.
  intros Hs. pose proof (saveSnapshot_id _ _ _ Hs) as Hid.
  pose proof (saveSnapshot_same _ _ _ Hs) as (_ & ? & ?). split; [done|].
  unfold saveSnapshot in Hs. rewrite bind_unit_ret_iff, bind_ret_iff in Hs.
  destruct Hs as (_ & st & _ & [= <-]). by destruct run.
Qed.

Lemma run_ok_saved now run saved : saveSnapshot now run = Ret saved → run_ok run → run_ok saved.
Proof. intros [? ?]%saved_same. by apply run_ok_same. Qed.

Lemma fit_saved now run saved :
  saveSnapshot now run = Ret saved → fit run → sound run → fit saved ∧ sound saved.
Proof. intros [Hs _]%saved_same. split; [by eapply fit_same|by eapply sound_same]. Qed.

(** *** Under the change of one step *)

Lemma may_become_active steps id st :
  may_become (status_of steps id) (ss_Status st) →
  active_ids (<[id := st]> steps) ⊆ active_ids steps.
Proof.
  intros [Ha Hb] x. rewrite !active_ids_elem. destruct (decide (id = x)) as [<-|Hne].
  - rewrite step_at_insert. destruct Ha as [?|[_ ->]]; done.
  - by rewrite step_at_insert_ne.
Qed.

Lemma fit_set run id st :
  fit run → may_become (status_of (wr_Steps run) id) (ss_Status st) →
  payload_ok (ss_Output st) →
  (ss_DispatchNonce st = "" → ss_DispatchNonce (step_at (wr_Steps run) id) = "") →
  fit (set_step id st run).
Proof.
  intros [? ? ? ? ? ? ?] Hb Ho Hn. pose proof (may_become_active _ _ _ Hb) as Hsub.
  unfold set_step. pose proof (same_id_set_Steps (<[id:=st]> (wr_Steps run)) run) as [Hid Hin].
  split; rewrite ?Hid, ?Hin, ?wr_Steps_set_Steps, ?wr_Status_set_Steps; try done.
  - by apply steps_inv_insert.
  - intros x Hx. destruct (decide (id = x)) as [<-|Hne];
      [|rewrite step_at_insert_ne by done; by apply ft_nonces0].
    rewrite step_at_insert. intros Heq. by apply (ft_nonces0 id Hx), Hn.
  - intros x Hx. apply ft_local0, active_ids_elem, Hsub, active_ids_elem, Hx.
  - intros Hc s Hs Ha. specialize (ft_done0 Hc s Hs Ha).
    destruct (decide (id = sd_ID s)) as [->|Hne]; [|by rewrite step_at_insert_ne].
    rewrite step_at_insert. destruct Hb as [Hb _]. revert Hb ft_done0.
    destruct (status_of (wr_Steps run) (sd_ID s)); intros [?|[? ->]]; done.
  - intros m Hm. etrans; [|by apply ft_cap0]. apply count_subset.
    by rewrite wr_Steps_set_Steps.
Qed.

Lemma sound_set run id st :
  sound run → ss_Status st ≠ StepStatusFailed → sound (set_step id st run).
Proof.
  intros Hs Hf. unfold sound, set_step. rewrite wr_Status_set_Steps, wr_Steps_set_Steps.
  intros Ht x. destruct (decide (id = x)) as [<-|Hne];
    [by rewrite step_at_insert|rewrite step_at_insert_ne by done; by apply Hs].
Qed.

(** A dispatched step of a live run is in flight or completed. *)
Lemma dispatched_status run id :
  fit run → sound run → IsTerminal (wr_Status run) = false →
  ss_DispatchNonce (step_at (wr_Steps run) id) ≠ "" →
  active_status (status_of (wr_Steps run) id) = true ∨
  status_of (wr_Steps run) id = StepStatusCompleted.
Proof.
  intros Hf Hs Ht Hn. destruct (si_live _ _ (ft_steps _ Hf) id) as [H1 H2].
  pose proof (si_nonce _ _ (ft_steps _ Hf) id) as Hu. unfold undispatched in Hu.
  specialize (Hs Ht id). revert H1 H2 Hu Hs.
  destruct (status_of (wr_Steps run) id); intros H1 H2 Hu Hs; auto; exfalso; auto.
Qed.

Lemma fit_output run id : fit run → payload_ok (ss_Output (step_at (wr_Steps run) id)).
Proof. intros Hf r. apply (si_outputs _ _ (ft_steps _ Hf)). Qed.

(** No step of a fully resolved run is in flight. *)
Lemma resolved_idle run :
  fit run → all_resolved def (wr_Steps run) →
  ∀ id, active_status (status_of (wr_Steps run) id) = false.
Proof.
  intros Hf Hall id. destruct (active_status _) eqn:Ha; [|done].
  apply (ft_local _ Hf) in Ha as Hin. apply list_elem_of_fmap in Hin as (s & -> & Hs).
  specialize (Hall s Hs (pl_aux def Hdef _)). revert Ha Hall.
  by destruct (status_of (wr_Steps run) (sd_ID s)).
Qed.

(** ** Amendments *)

Lemma owe_release_ok now run run' :
  run_ok run → owe_release now run = Ret (Some run') → run_ok run'.
Proof.
  intros Hok. unfold owe_release. destruct (negb _); [done|].
  rewrite bind_ret_iff. intros (saved & Hs & [= <-]). eapply run_ok_saved; [done|].
  eapply run_ok_same; [|..|exact Hok]; by destruct run.
Qed.

Lemma clearUnsent_same nonces run run' :
  clearUnsent nonces run = Ret (Some run') →
  same_run run run' ∧ wr_CompletedAt run' = wr_CompletedAt run.
Proof.
  unfold clearUnsent. rewrite bind_unit_ret_iff. intros [_ H].
  destruct (bool_decide _); [|done]. injection H as <-. split; [|by destruct run].
  split; [done|]. rewrite wr_Status_set_Steps, wr_Steps_set_Steps. split; [done|].
  intros id. unfold step_at. rewrite map_lookup_imap.
  destruct (wr_Steps run !! id) as [st|]; [|done]. cbn. unfold clear_mark.
  destruct (_ && _); [by destruct st|done].
Qed.

Lemma markSent_writes now run sent k :
  (∀ run, run_ok run → writes run_ok (k run)) → writes run_ok (markSent now run sent k).
Proof.
  intros Hk. apply writes_attempt. intros _ _. split; [|done].
  intros r r' Hr H. apply bind_ret_iff in H as ([c|] & Hc & H); [|done].
  apply bind_ret_iff in H as (saved & Hs & [= <-]). eapply run_ok_saved; [done|].
  apply clearUnsent_same in Hc as [? ?]. by eapply run_ok_same.
Qed.

(** ** The end of a run *)

Lemma ended_writes en run : run_ok run → writes run_ok (ended en run).
Proof.
  intros Hok. apply writes_ended; [|apply owe_release_ok].
  intros saved Hs. by eapply run_ok_saved.
Qed.

Lemma finalized_ok now run status run' :
  fit run → (status = RunStatusCompleted → all_resolved def (wr_Steps run)) →
  finalizeRun now run status = Ret (Some run') → fit run' ∧ sound run'.
Proof.
  intros [? ? ? ? ? ? ?] Hall Hf. pose proof (finalizeRun_id _ _ _ _ Hf) as [Hid Hin].
  apply finalizeRun_spec in Hf as (_ & [Ht _] & Hst & _ & Hs & _).
  split; [|intros ?; congruence].
  split; rewrite ?Hid, ?Hin, ?Hst, ?Hs; try done.
  intros m Hm. etrans; [|by apply ft_cap0]. apply count_subset. by rewrite Hs.
Qed.

Lemma finalize_fit en run status :
  fit run → (status = RunStatusCompleted → all_resolved def (wr_Steps run)) →
  writes run_ok (finalize en run status).
Proof.
  intros Hfit Hall. apply writes_finalize; [|apply owe_release_ok].
  intros fin saved Hf Hs. eapply run_ok_saved; [done|]. left. by eapply finalized_ok.
Qed.

Lemma finalize_idle en run status :
  wr_RunID run = runID → nonces_ok (wr_Steps run) →
  (∀ id, active_status (status_of (wr_Steps run) id) = false) →
  writes run_ok (finalize en run status).
Proof.
  intros Hid Hn Hi. apply writes_finalize; [|apply owe_release_ok].
  intros fin saved Hf Hs. eapply run_ok_saved; [done|]. right.
  apply finalizeRun_spec in Hf as (_ & Hfin & _ & _ & Hst & Hrid).
  split; rewrite ?Hrid, ?Hst; done.
Qed.

Lemma finalize_closed en run status : closed run → writes run_ok (finalize en run status).
Proof. intros [? Hf ? ?]. unfold finalize. by rewrite finalizeRun_finalized. Qed.

(** A failed step that was in flight, and the run with it. *)
Lemma failed_step_fit run id st :
  fit run → active_status (status_of (wr_Steps run) id) = true →
  ss_Status st = StepStatusFailed → ss_Output st = ss_Output (step_at (wr_Steps run) id) →
  ss_DispatchNonce st = ss_DispatchNonce (step_at (wr_Steps run) id) →
  fit (set_step id st run).
Proof.
  intros Hf Ha Hs Ho Hn. apply fit_set; [done| |rewrite Ho; by apply fit_output|by rewrite Hn].
  rewrite Hs. split; [by left|by right].
Qed.

Lemma completeWorkflow_writes text latest en run :
  fit run → all_resolved def (wr_Steps run) →
  writes run_ok (completeWorkflow text latest en run).
Proof.
  intros Hf Hall. apply writes_attempt. intros _ _. apply writes_attempt.
  intros [[id e]|] _; [|by apply finalize_fit].
  apply writes_attempt. intros _ _. unfold failWorkflow, set_step.
  apply finalize_idle; rewrite ?wr_Steps_set_Steps.
  - rewrite <-(ft_id _ Hf). by destruct run.
  - intros x Hx. rewrite insert_nonce; [by apply (ft_nonces _ Hf)|].
    by destruct (step_at (wr_Steps run) id).
  - intros x. destruct (decide (id = x)) as [<-|Hne].
    + rewrite step_at_insert, ss_Status_set_Error. by destruct (step_at (wr_Steps run) id).
    + rewrite step_at_insert_ne by done. by apply resolved_idle.
Qed.

(** ** Planning

    A planner touches only its own step: it becomes running, or completed with
    an output that is JSON. *)
Definition planned_state (st st' : StepState) : Prop :=
  (ss_Status st' = StepStatusRunning ∨ ss_Status st' = StepStatusCompleted) ∧
  ss_DispatchNonce st' = ss_DispatchNonce st ∧
  (ss_Output st' = ss_Output st ∨ payload_ok (ss_Output st')).

Definition stepped (step : StepDef) (run run' : WorkflowRun) : Prop :=
  ∃ st, run' = set_step (sd_ID step) st run ∧
    planned_state (step_at (wr_Steps run) (sd_ID step)) st.

Lemma running_state st st' :
  ss_Status st' = StepStatusRunning → ss_DispatchNonce st' = ss_DispatchNonce st →
  ss_Output st' = ss_Output st → planned_state st st'.
Proof. intros ? ? ?. split_and!; auto. Qed.

Lemma stepped_running step run st :
  ss_Status st = StepStatusRunning →
  ss_DispatchNonce st = ss_DispatchNonce (step_at (wr_Steps run) (sd_ID step)) →
  ss_Output st = ss_Output (step_at (wr_Steps run) (sd_ID step)) →
  stepped step run (set_step (sd_ID step) st run).
Proof. intros. exists st. split; [done|]. by apply running_state. Qed.

(** The simple state of [stepped_running], by computation on the old state. *)
Ltac step_running :=
  apply stepped_running;
  match goal with |- context [step_at ?m ?i] => by destruct (step_at m i) end.

Lemma stepped_ok step run run' :
  fit run → sound run → active_status (status_of (wr_Steps run) (sd_ID step)) = true →
  stepped step run run' → fit run' ∧ sound run'.
Proof.
  intros Hf Hs Ha (st & -> & Hst & Hn & Ho). split.
  - apply fit_set; [done| | |by rewrite Hn].
    + split; [by left|]. destruct Hst as [->| ->]; [by left|by right].
    + destruct Ho as [->|?]; [by apply fit_output|done].
  - apply sound_set; [done|]. by destruct Hst as [->| ->].
Qed.

Lemma planSubWorkflow_stepped child run step run' e :
  planSubWorkflow child run step = Ret (run', e) → stepped step run run'.
Proof.
  unfold planSubWorkflow. rewrite !bind_unit_ret_iff. intros (_ & _ & H).
  apply bind_ret_iff in H as (cfg & _ & H). apply bind_ret_iff in H as (input & _ & H).
  apply bind_ret_iff in H as (r & Hm & [= <- _]).
  unfold markSpawnedStep in Hm. rewrite !bind_unit_ret_iff in Hm.
  destruct Hm as (_ & _ & [= <-]). eexists. split; [done|].
  destruct (step_at (wr_Steps run) (sd_ID step)), (sw_Detach cfg).
  - split_and!; [by right|done|]. right. intros r [= <-]. eauto.
  - split_and!; [by left|done|by left].
Qed.

(** Without detachment a sub-workflow step runs. *)
Lemma planSubWorkflow_attached child run step run' e :
  (∀ cfg, ParseSubWorkflowConfig step = Ret cfg → sw_Detach cfg = false) →
  planSubWorkflow child run step = Ret (run', e) →
  status_of (wr_Steps run') (sd_ID step) = StepStatusRunning.
Proof.
  intros Hd. unfold planSubWorkflow. rewrite !bind_unit_ret_iff. intros (_ & _ & H).
  apply bind_ret_iff in H as (cfg & Hc & H). apply bind_ret_iff in H as (input & _ & H).
  apply bind_ret_iff in H as (r & Hm & [= <- _]).
  unfold markSpawnedStep in Hm. rewrite !bind_unit_ret_iff in Hm.
  destruct Hm as (_ & _ & [= <-]).
  rewrite (Hd cfg) by (destruct (ParseSubWorkflowConfig step); by simplify_eq/=).
  unfold set_step. rewrite wr_Steps_set_Steps, step_at_insert.
  by destruct (step_at (wr_Steps run) (sd_ID step)).
Qed.

Lemma planMapStep_stepped h run step run' e :
  planMapStep h run step = Ret (run', e) → stepped step run run'.
Proof.
  unfold planMapStep. rewrite bind_unit_ret_iff. intros (_ & H).
  destruct (sd_DependsOn step) as [|dep [|]]; [done| |done].
  apply bind_ret_iff in H as (items & _ & H). apply bind_ret_iff in H as (r & Hv & [= <- _]).
  unfold validateAndInitMapInstances in Hv. destruct (ParseMapConfig step); [|done..].
  rewrite bind_unit_ret_iff in Hv. destruct Hv as [_ [= <-]]. step_running.
Qed.

Lemma planWaitForEventStep_stepped now run step run' e :
  planWaitForEventStep now run step = Ret (run', e) → stepped step run run'.
Proof.
  unfold planWaitForEventStep. rewrite !bind_unit_ret_iff. intros (_ & _ & H).
  apply bind_ret_iff in H as (eff & _ & [= <- _]). step_running.
Qed.

Lemma approval_Plan_stepped h now token run step run' e :
  approval_Plan h now token run step = Ret (run', e) → stepped step run run'.
Proof.
  unfold approval_Plan. rewrite !bind_unit_ret_iff. intros (_ & _ & _ & H).
  apply bind_ret_iff in H as (cfg & _ & H). rewrite bind_unit_ret_iff in H. destruct H as [_ H].
  apply bind_ret_iff in H as (tk & _ & H). unfold activate in H.
  rewrite !bind_unit_ret_iff in H. destruct H as (_ & _ & [= <- _]). step_running.
Qed.

Lemma resolveRespondBody_ok h cfg step run body :
  fit run → resolveRespondBody h cfg step run = Ret body → payload_ok body.
Proof.
  intros Hf. unfold resolveRespondBody. rewrite bind_ret_iff. intros (up & Hup & H).
  assert (payload_ok (if raw_len0 up then wr_Input run else up)) as Hsrc.
  { destruct (raw_len0 up); [apply (ft_input _ Hf)|]. unfold pickUpstreamOutput in Hup.
    destruct (sd_DependsOn step) as [|dep [|]]; [by injection Hup as <-| |by injection Hup as <-].
    rewrite bind_unit_ret_iff in Hup. destruct Hup as [_ [= <-]]. by apply fit_output. }
  destruct (empty_str _); [by injection H as <-|].
  rewrite bind_unit_ret_iff in H. destruct H as [_ H].
  apply bind_ret_iff in H as (v & _ & [= <-]). intros r [= <-]. eauto.
Qed.

Lemma planRespondStep_stepped h run step run' e :
  fit run → planRespondStep h run step = Ret (run', e) → stepped step run run'.
Proof.
  intros Hf. unfold planRespondStep. rewrite !bind_unit_ret_iff. intros (_ & _ & H).
  apply bind_ret_iff in H as (cfg & _ & H). apply bind_ret_iff in H as (cfg' & _ & H).
  apply bind_ret_iff in H as (body & Hb & [= <- _]).
  assert (payload_ok body) as Hok.
  { destruct (resolveRespondBody h cfg' step run) eqn:Hr; simplify_eq/=.
    by eapply resolveRespondBody_ok. }
  eexists. split; [done|]. destruct (step_at (wr_Steps run) (sd_ID step)).
  split_and!; [by right|done|by right].
Qed.

Lemma plan_sleep_cases h now en run step p :
  fit run → active_status (status_of (wr_Steps run) (sd_ID step)) = true →
  plan_sleep h now en run step = Ret p →
  match p with
  | Planned run' _ => stepped step run run'
  | RunFinalized s => writes run_ok s
  end.
Proof.
  intros Hf Ha. unfold plan_sleep. rewrite !bind_unit_ret_iff. intros (_ & _ & H).
  destruct (ParseSleepConfig step ≫= _) as [d|e|m]; [| |done].
  - apply bind_ret_iff in H as (eff & _ & [= <-]). step_running.
  - apply bind_ret_iff in H as (s & Hs & [= <-]). unfold fail_sleep in Hs.
    rewrite !bind_unit_ret_iff in Hs. destruct Hs as (_ & _ & _ & [= <-]).
    apply finalize_fit; [|done].
    apply failed_step_fit; [done|done|by destruct (step_at (wr_Steps run) (sd_ID step))..].
Qed.

(** Every sub-workflow step waits for its child. *)
Definition no_detach : Prop :=
  ∀ s cfg, s ∈ wd_Steps def → ParseSubWorkflowConfig s = Ret cfg → sw_Detach cfg = false.

Definition detached (step : StepDef) (run : WorkflowRun) : bool :=
  bool_decide (sd_Type step = StepTypeSubWorkflow) &&
  bool_decide (ss_Status (step_at (wr_Steps run) (sd_ID step)) = StepStatusCompleted).

Context (Hattach : no_detach).

Lemma planStep_cases h d i run step p :
  fit run → step ∈ wd_Steps def →
  active_status (status_of (wr_Steps run) (sd_ID step)) = true →
  planStep h d i run step = Ret p →
  match p with
  | Planned run' None => run' = run
  | Planned run' (Some _) => stepped step run run' ∧ detached step run' = false
  | RunFinalized s => writes run_ok s
  end.
Proof using Hdef Hlimit Hrun Hattach.
  intros Hf Hin Ha. unfold planStep. rewrite bind_unit_ret_iff. intros (_ & H).
  unfold detached.
  destruct (sd_Type step) eqn:Ht; simplify_eq/=; try reflexivity;
    try (apply bind_ret_iff in H as ([r e] & H & [= <-])); rewrite ?andb_false_l.
  - split; [by eapply planSubWorkflow_stepped|].
    rewrite (planSubWorkflow_attached (dr_child d i) run step r e); [done| |done].
    intros cfg. by apply Hattach.
  - split; [by eapply planMapStep_stepped|done].
  - pose proof (plan_sleep_cases _ _ _ _ _ _ Hf Ha H) as Hc.
    destruct p as [r [e|]|]; [by split| |done].
    unfold plan_sleep in H. rewrite !bind_unit_ret_iff in H. destruct H as (_ & _ & H).
    destruct (ParseSleepConfig step ≫= _); [|by apply bind_ret_iff in H as (? & _ & [=])|done].
    by apply bind_ret_iff in H as (? & _ & [=]).
  - split; [by eapply planWaitForEventStep_stepped|done].
  - split; [by eapply approval_Plan_stepped|done].
  - split; [by eapply planRespondStep_stepped|done].
Qed.

Lemma plan_steps_ok h d ready : ∀ i run plan p,
  fit run → sound run → dp_continueRun plan = false →
  NoDup (sd_ID <$> ready) → (∀ s, s ∈ ready → s ∈ wd_Steps def ∧
    active_status (status_of (wr_Steps run) (sd_ID s)) = true) →
  plan_steps h d i ready run plan = Ret p →
  match p with
  | PlanReady run' plan' => fit run' ∧ sound run' ∧ dp_continueRun plan' = false
  | PlanFinalized s => writes run_ok s
  end.
Proof using Hdef Hlimit Hrun Hattach.
  induction ready as [|step ready IH]; intros i run plan p Hf Hs Hc Hnd Hin H; simpl in H;
    [by simplify_eq/=|].
  apply NoDup_cons in Hnd as [Hni Hnd]. destruct (Hin step) as [Hd Ha]; [left|].
  apply bind_ret_iff in H as (q & Hq & H). apply planStep_cases in Hq; [|done..].
  destruct q as [r [e|]|]; simplify_eq/=; [|eapply IH; [..|exact H]; try done; intros s ?; apply Hin; by right|done].
  destruct Hq as [Hq Hdet]. destruct (stepped_ok _ _ _ Hf Hs Ha Hq) as [Hf' Hs'].
  change (bool_decide _ && bool_decide _) with (detached step r) in H. rewrite Hdet in H.
  eapply (IH _ r); [done|done| |done| |exact H]; [simpl; by rewrite Hc|].
  intros s Hsin. destruct (Hin s) as [? ?]; [by right|]. split; [done|].
  destruct Hq as (st & -> & _). unfold set_step. rewrite wr_Steps_set_Steps, step_at_insert_ne; [done|].
  intros Heq. apply Hni. rewrite Heq. by apply (list_elem_of_fmap_2 sd_ID).
Qed.

(** A pass keeps the invariant in memory. *)
Lemma pass_fit new_id clock run run' pend :
  fit run → sound run → enqueueReady new_id clock def run = Ret (run', pend) →
  fit run' ∧ sound run' ∧ (pend = PassComplete → all_resolved def (wr_Steps run')) ∧
  ∀ s, s ∈ pass_ready pend → s ∈ wd_Steps def ∧
    active_status (status_of (wr_Steps run') (sd_ID s)) = true.
Proof using Hdef Hlimit Hrun.
  intros Hf Hs Hp. pose proof (enqueueReady_ok _ _ _ _ _ _ Hnodup Hp) as Hok.
  pose proof (enqueueReady_id _ _ _ _ _ _ Hp) as [Hid Hin].
  pose proof Hok as (Hall & _ & Hout & _ & Hst & _).
  pose proof (pass_keeps def _ _ _ _ _ Hok) as [_ Hk].
  assert (∀ id, id ∈ sd_ID <$> pass_ready pend → id ∈ ids_of (wd_Steps def) ∧
    active_status (status_of (wr_Steps run') id) = true) as Hd.
  { intros id Hid'.
    destruct (pass_dispatched def _ _ _ _ _ _ Hok Hid') as (s & st & <- & _ & Hst' & -> & -> & _).
    split; [|done]. destruct Hst' as [? _]. by apply (list_elem_of_fmap_2 sd_ID). }
  assert (∀ id, resolved_status (status_of (wr_Steps run) id) = true →
    resolved_status (status_of (wr_Steps run') id) = true) as Hmono.
  { intros id Hr. destruct (decide (id ∈ sd_ID <$> pass_ready pend)) as [Hi|Hi].
    - destruct (pass_dispatched def _ _ _ _ _ _ Hok Hi) as (s & st & <- & _ & (_ & Hn & _) & _).
      rewrite with_skips_at in Hn. case_decide; [by rewrite ss_Status_set in Hn|congruence].
    - rewrite Hout, with_skips_at by done. case_decide; [by rewrite ss_Status_set|done]. }
  split_and!.
  - split; rewrite ?Hid, ?Hin, ?Hst; try apply Hf.
    + eapply steps_inv_pass; [done|done|apply Hf].
    + intros id Hi. apply Hk. by apply (ft_nonces _ Hf).
    + intros id Hi. destruct (decide (id ∈ sd_ID <$> pass_ready pend)) as [Hr|Hr]; [by apply Hd|].
      rewrite Hout in Hi by done. apply active_ids_elem, active_skips, active_ids_elem in Hi.
      by apply (ft_local _ Hf).
    + intros Hc s Hs' Ha. by apply Hmono, (ft_done _ Hf).
    + intros m Hm. pose proof (Hlimit m Hm) as Hmax. pose proof (ft_cap _ Hf m Hm) as Hcap.
      assert (countActiveSteps run ≤ int64_max) as Hcs by lia.
      pose proof (enqueueReady_cap _ _ _ _ _ _ m Hnodup Hm Hmax Hcs Hp). lia.
  - unfold sound. rewrite Hst. intros Ht. eapply pass_sound; [done|]. by apply Hs.
  - intros -> s Hs' Ha. rewrite Hout by apply not_elem_of_nil. by apply Hall.
  - intros s Hin'. assert (sd_ID s ∈ sd_ID <$> pass_ready pend) as Hi
      by (by apply (list_elem_of_fmap_2 sd_ID)).
    split; [|by apply Hd]. destruct Hok as (_ & Hst' & _).
    apply list_elem_of_lookup in Hin' as [k Hk']. by destruct (Hst' _ _ Hk') as ((? & _) & _).
Qed.

Lemma planDispatch_ok h d new_id clock run r ready p :
  fit run → sound run → enqueueReady new_id clock def run = Ret (r, PassDispatch ready) →
  planDispatch h d r ready = Ret p →
  match p with
  | PlanReady run' plan => fit run' ∧ sound run' ∧ dp_continueRun plan = false
  | PlanFinalized s => writes run_ok s
  end.
Proof using Hdef Hlimit Hrun Hattach.
  intros Hf Hs Hp Hplan. pose proof (pass_fit _ _ _ _ _ Hf Hs Hp) as (Hf' & Hs' & _ & Hready).
  unfold planDispatch in Hplan. rewrite !bind_unit_ret_iff in Hplan.
  destruct Hplan as (_ & _ & Hplan).
  eapply plan_steps_ok; [exact Hf'|exact Hs'| | |exact Hready|exact Hplan]; [done|].
  by eapply enqueueReady_nodup; [apply Hnodup|].
Qed.

Lemma dispatchPass_writes h fuel ds run :
  fit run → sound run → writes run_ok (dispatchPass h fuel ds def run).
Proof using Hdef Hlimit Hrun Hattach.
  intros Hf Hs. destruct fuel; cbn [dispatchPass]; apply writes_attempt; intros [r pend] Hp;
    pose proof (pass_fit _ _ _ _ _ Hf Hs Hp) as (Hf' & Hs' & Hall & _);
    (destruct pend as [| |ready]; [by apply completeWorkflow_writes, Hall|done|]);
    apply writes_attempt; intros p Hplan; apply (planDispatch_ok _ _ _ _ _ _ _ _ Hf Hs Hp) in Hplan;
    (destruct p as [r2 plan|s]; [|done]); destruct Hplan as (Hf2 & Hs2 & Hc2);
    apply writes_persist; intros saved Hsv;
    (split; [eapply run_ok_saved; [done|by left]|]);
    destruct (sendPlan _ _) as [sent all]; apply markSent_writes; intros r3 _;
    rewrite Hc2; by destruct all.
Qed.

Lemma continue_run_writes h ds now en run :
  fit run → sound run → writes run_ok (continue_run h ds now en def run).
Proof using Hdef Hlimit Hrun Hattach.
  intros Hf Hs. unfold continue_run. rewrite completedSet_build.
  destruct (IsComplete def _) eqn:Hc.
  - apply IsComplete_resolved in Hc. by apply completeWorkflow_writes.
  - apply writes_persist. intros saved Hsv. destruct (fit_saved _ _ _ Hsv Hf Hs).
    split; [by left|]. by apply dispatchPass_writes.
Qed.

(** ** Typed events *)

Lemma fit_complete run id out :
  fit run → sound run →
  active_status (status_of (wr_Steps run) id) = true ∨
    status_of (wr_Steps run) id = StepStatusCompleted →
  payload_ok out →
  let st := ss_set_Output out (ss_set_Status StepStatusCompleted (step_at (wr_Steps run) id)) in
  fit (set_step id st run) ∧ sound (set_step id st run).
Proof.
  intros Hf Hs Ha Ho st.
  assert (ss_Status st = StepStatusCompleted) as Hst
    by (unfold st; by rewrite ss_Status_set_Output, ss_Status_set).
  split; [|by apply sound_set; [|rewrite Hst]].
  apply fit_set; [done| |by unfold st; destruct (step_at (wr_Steps run) id)..].
  rewrite Hst. split; [|by right]. destruct Ha; auto.
Qed.

(** Handlers that act only on a running step. *)
Lemma running_writes (run : WorkflowRun) (id : string) (s : script) :
  run_ok run →
  (fit run → sound run → status_of (wr_Steps run) id = StepStatusRunning → writes run_ok s) →
  writes run_ok
    (if negb (bool_decide (status_of (wr_Steps run) id = StepStatusRunning))
     then Finish (Ret tt) else s).
Proof.
  intros Hok H. case_bool_decide as Hr; [|done]. simpl.
  destruct Hok as [[? ?]|Hc]; [auto|]. pose proof (cl_idle _ Hc id) as Hi. by rewrite Hr in Hi.
Qed.

Lemma complete_running_writes h ds now en run id out :
  fit run → sound run → status_of (wr_Steps run) id = StepStatusRunning → payload_ok out →
  writes run_ok (continue_run h ds now en def (set_step id
    (ss_set_Output out (ss_set_Status StepStatusCompleted (step_at (wr_Steps run) id))) run)).
Proof using Hdef Hlimit Hrun Hattach.
  intros Hf Hs Hr Ho.
  destruct (fit_complete run id out Hf Hs) as [Hf' Hs']; [left; by rewrite Hr|done|].
  by apply continue_run_writes.
Qed.

Lemma fail_running_writes en run id err :
  run_ok run → writes run_ok (fail_running en run id err).
Proof using Hdef Hlimit Hrun.
  intros Hok. apply running_writes; [done|]. intros Hf Hs Hr. apply finalize_fit; [|done].
  apply failed_step_fit; [done|by rewrite Hr|by destruct (step_at (wr_Steps run) id)..].
Qed.

Lemma handleWaitTimeout_writes h ds now en run evt :
  run_ok run → writes run_ok (handleWaitTimeout h ds now en def run evt).
Proof using Hdef Hlimit Hrun Hattach.
  intros Hok. apply writes_attempt. intros _ _. apply running_writes; [done|].
  intros Hf Hs Hr. apply complete_running_writes; [done..|]. intros r [= <-]. eauto.
Qed.

Lemma HandleGranted_writes h ds now en run evt :
  run_ok run → payload_ok (protocol.Payload evt) →
  writes run_ok (HandleGranted h ds now en def run evt).
Proof using Hdef Hlimit Hrun Hattach.
  intros Hok Hp. unfold HandleGranted. destruct (negb _); [done|].
  apply writes_attempt. intros _ _. apply running_writes; [done|].
  intros Hf Hs Hr. by apply complete_running_writes.
Qed.

Lemma HandleRejected_writes h en run evt :
  run_ok run → writes run_ok (HandleRejected h en run evt).
Proof using Hdef Hlimit Hrun.
  intros Hok. unfold HandleRejected. destruct (negb _); [done|].
  apply writes_attempt. intros _ _. by apply fail_running_writes.
Qed.

Lemma HandleExpired_writes h en run evt :
  run_ok run → writes run_ok (HandleExpired h en run evt).
Proof using Hdef Hlimit Hrun.
  intros Hok. unfold HandleExpired. destruct (negb _); [done|].
  apply writes_attempt. intros _ _. by apply fail_running_writes.
Qed.

Lemma marshal_outputs_ok m r : marshal_raw_map m = Ret r → ∃ v, r = RawJson v.
Proof.
  unfold marshal_raw_map. rewrite bind_ret_iff. intros (? & _ & [= <-]). eauto.
Qed.

Lemma collectTerminalOutputs_ok cdef crun out :
  outputs_ok (wr_Steps crun) → collectTerminalOutputs cdef crun = Ret out → payload_ok out.
Proof.
  intros Ho. unfold collectTerminalOutputs. rewrite bind_unit_ret_iff. intros [_ H].
  match type of H with match ?l with _ => _ end = _ => destruct l as [|s [|]] end.
  - apply bind_ret_iff in H as (d & Hd%marshal_outputs_ok & [= <-]). by intros r [= <-].
  - injection H as <-. intros r. apply Ho.
  - apply bind_ret_iff in H as (d & Hd%marshal_outputs_ok & [= <-]). by intros r [= <-].
Qed.

Lemma handleChildCompleted_writes h ds now en load run evt :
  run_ok run →
  (∀ id cdef crun, load id = Ret (cdef, crun) → outputs_ok (wr_Steps crun)) →
  writes run_ok (handleChildCompleted h ds now en load def run evt).
Proof using Hdef Hlimit Hrun Hattach.
  intros Hok Hl. apply writes_attempt. intros _ _. apply running_writes; [done|].
  intros Hf Hs Hr. apply writes_attempt. intros out Hout.
  apply complete_running_writes; [done..|].
  match type of Hout with wrap_err _ ?o = _ => destruct o as [b|e|m] eqn:Ho end; simplify_eq/=.
  rewrite bind_unit_ret_iff in Ho. destruct Ho as [_ Ho].
  apply bind_ret_iff in Ho as ([cd cr] & Hload & Hc).
  eapply collectTerminalOutputs_ok; [by eapply Hl|done].
Qed.

Lemma handleChildFailed_writes en run evt :
  run_ok run → writes run_ok (handleChildFailed en run evt).
Proof using Hdef Hlimit Hrun.
  intros Hok. apply writes_attempt. intros _ _. apply running_writes; [done|]. intros _ _ _.
  apply writes_attempt. intros text _. by apply fail_running_writes.
Qed.

Lemma handleWorkflowCancelled_writes en derr run evt :
  run_ok run → writes run_ok (handleWorkflowCancelled en derr run evt).
Proof using Hdef Hlimit Hrun.
  intros Hok. apply writes_attempt. intros _ _. case_bool_decide as Hst; [|done]. simpl.
  destruct derr; [done|]. apply writes_attempt. intros run' Hc.
  destruct Hok as [[Hf _]|[_ [Ht _] _ _]]; [|by rewrite Hst in Ht].
  pose proof (cancelUnfinishedSteps_spec _ _ Hc) as Hl.
  unfold cancelUnfinishedSteps in Hc. rewrite bind_unit_ret_iff in Hc. destruct Hc as [_ [= <-]].
  apply finalize_idle.
  - rewrite <-(ft_id _ Hf). by destruct run.
  - intros id Hid. pose proof (ft_nonces _ Hf id Hid) as Hn. unfold step_at in *. rewrite Hl.
    destruct (wr_Steps run !! id) as [st|]; [|done]. cbn in *.
    unfold cancel_step. destruct st as [[]]; done.
  - intros id. unfold step_at. rewrite Hl. destruct (wr_Steps run !! id) as [st|]; [|done].
    unfold cancel_step. by destruct st as [[]].
Qed.

(** ** Map instances *)

Lemma set_same_run run id st :
  ss_Status st = status_of (wr_Steps run) id →
  ss_DispatchNonce st = ss_DispatchNonce (step_at (wr_Steps run) id) →
  ss_Output st = ss_Output (step_at (wr_Steps run) id) → same_run run (set_step id st run).
Proof.
  intros. split_and!; [done|by apply wr_Status_set_Steps|].
  unfold set_step. rewrite wr_Steps_set_Steps. by apply same_steps_insert.
Qed.

Lemma set_CompletedAt run id st : wr_CompletedAt (set_step id st run) = wr_CompletedAt run.
Proof. by destruct run. Qed.

Lemma with_instance_same base idx st f st' :
  with_instance base idx st f = Ret st' →
  ss_Status st' = ss_Status st ∧ ss_DispatchNonce st' = ss_DispatchNonce st ∧
  ss_Output st' = ss_Output st.
Proof.
  unfold with_instance. destruct (if idx <? 0 then _ else _); [|done]. intros [= <-].
  by destruct st.
Qed.

Lemma handleMapInstanceCompleted_writes h ds now en run evt :
  fit run → sound run → IsTerminal (wr_Status run) = false →
  (∀ base idx, parseMapInstanceID (protocol.StepID evt) = Ret (base, idx) →
     base ∈ dispatched_ids) →
  writes run_ok (handleMapInstanceCompleted h ds now en def run evt).
Proof using Hdef Hlimit Hrun Hattach.
  intros Hf Hs Ht Hb. apply writes_attempt. intros [base idx] Hp. apply writes_attempt.
  intros st (Hst & Hn & Ho)%with_instance_same.
  pose proof (set_same_run run base st Hst Hn Ho) as Hsame.
  pose proof (fit_same _ _ Hsame Hf) as Hf'. pose proof (sound_same _ _ Hsame Hs) as Hs'.
  destruct (negb _).
  { apply writes_persist. intros saved Hsv. split; [|done]. eapply run_ok_saved; [done|by left]. }
  apply writes_attempt. intros outs _.
  assert (step_at (wr_Steps (set_step base st run)) base = st) as Hat
    by (unfold set_step; rewrite wr_Steps_set_Steps; apply step_at_insert).
  destruct (fit_complete (set_step base st run) base (Some (RawJson (JArr outs))) Hf' Hs')
    as [Hf2 Hs2].
  - apply dispatched_status; [done|done|by unfold set_step; rewrite wr_Status_set_Steps|].
    rewrite Hat, Hn. by eapply (ft_nonces _ Hf), Hb.
  - intros r [= <-]. eauto.
  - rewrite Hat in Hf2, Hs2. by apply continue_run_writes.
Qed.

(** ** Worker events *)

Lemma late_false run evt :
  lateEventForTerminalRun run evt = Ret false → IsTerminal (wr_Status run) = false.
Proof.
  unfold lateEventForTerminalRun. rewrite !bind_unit_ret_iff. by intros (_ & _ & [= ?]).
Qed.

Lemma late_closed run evt :
  closed run → lateEventForTerminalRun run evt ≠ Ret false.
Proof. intros [_ [Ht _] _ _] H%late_false. congruence. Qed.

Lemma fence_same run evt run1 :
  fenceStepEvent false run evt = Ret (Some run1) → same_run run run1.
Proof.
  unfold fenceStepEvent. rewrite !bind_unit_ret_iff. intros (_ & _ & H).
  destruct (negb _); [by injection H as <-|].
  apply bind_ret_iff in H as ([[] r] & _ & H); [|done].
  destruct (_ && _); [|by injection H as <-].
  apply bind_ret_iff in H as (run' & Ha & [= <-]). unfold adoptDispatchAttempt in Ha.
  destruct (wr_Steps run !! protocol.StepID evt) as [st|] eqn:Hl; [|done].
  rewrite bind_unit_ret_iff in Ha. destruct Ha as [_ [= <-]]. destruct (_ <? _); [|done].
  apply set_same_run; unfold step_at; rewrite Hl; by destruct st.
Qed.

(** The run after an accepted completion, before its save. *)
Lemma advance_fit run evt run2 effects :
  fit run → sound run →
  active_status (status_of (wr_Steps run) (protocol.StepID evt)) = true ∨
    status_of (wr_Steps run) (protocol.StepID evt) = StepStatusCompleted →
  protocol.StepID evt ≠ "" → payload_ok (protocol.Payload evt) →
  Advance def run (MkEvent EventStepCompleted (protocol.StepID evt) (protocol.Payload evt)
    no_failure) = Ret (run2, effects) →
  fit run2 ∧ (IsComplete def (completedSet run2) = false → sound run2).
Proof using Hdef.
  intros Hf Hs Ha Hid Hp Hadv. pose proof (Advance_same_id _ _ _ _ _ Hadv) as [Hrid Hin].
  destruct (Advance_completed def run (protocol.StepID evt) (protocol.Payload evt) Hid
    (si_outputs _ _ (ft_steps _ Hf)) Hp) as (r & eff & Hadv' & Hsteps & Hcase).
  unfold no_failure in Hadv. rewrite Hadv in Hadv'. injection Hadv' as <- <-.
  pose proof (fit_complete run (protocol.StepID evt) (protocol.Payload evt) Hf Hs Ha Hp)
    as [Hf1 Hs1]. unfold set_step in Hf1, Hs1.
  assert (∀ id, active_status (status_of (wr_Steps run2) id) = true →
    active_status (status_of (wr_Steps run) id) = true) as Hsub.
  { intros id. rewrite Hsteps, <-!active_ids_elem. apply completed_active. }
  split.
  - split; rewrite ?Hrid, ?Hin, ?Hsteps; try apply Hf.
    + apply completed_steps_inv; [done|apply Hf|done|done].
    + intros id Hd. rewrite skips_nonce. unfold record_completed.
      rewrite insert_nonce; [by apply (ft_nonces _ Hf)|].
      by destruct (step_at (wr_Steps run) (protocol.StepID evt)).
    + intros id. rewrite <-Hsteps. intros Hi. by apply (ft_local _ Hf), Hsub.
    + intros Hc. destruct Hcase as [[? _]|(Hn & Hst & _)]; [done|].
      rewrite Hst in Hc. exfalso. apply Hn. intros s Hs' Hax.
      pose proof (ft_done _ Hf1) as Hd. rewrite wr_Steps_set_Steps, wr_Status_set_Steps in Hd.
      specialize (Hd Hc s Hs' Hax). rewrite with_skips_at.
      case_decide; [by rewrite ss_Status_set|exact Hd].
    + intros m Hm. etrans; [|by apply (ft_cap _ Hf)]. apply count_subset.
      intros id. rewrite !active_ids_elem. apply Hsub.
  - rewrite completedSet_build. intros Hc.
    assert (¬ all_resolved def (wr_Steps run2)) as Hn
      by (rewrite <-IsComplete_resolved, Hc; done).
    rewrite Hsteps in Hn. destruct Hcase as [[? _]|(_ & Hst & _)]; [done|].
    unfold sound. rewrite Hst, Hsteps. intros Ht. by apply completed_sound, Hs.
Qed.

Lemma applied_writes x run0 run evt res :
  fit run → sound run →
  active_status (status_of (wr_Steps run) (protocol.StepID evt)) = true ∨
    status_of (wr_Steps run) (protocol.StepID evt) = StepStatusCompleted →
  protocol.StepID evt ≠ "" → payload_ok (protocol.Payload evt) →
  apply_completed (x_id x) (x_clock x) def run evt = Ret res →
  writes run_ok (after_completed x def run0 evt res).
Proof using Hdef Hlimit Hrun Hattach.
  intros Hf Hs Ha Hid Hp Hres. unfold apply_completed in Hres.
  apply bind_ret_iff in Hres as ([run2 eff] & Hadv & Hres).
  destruct (advance_fit _ _ _ _ Hf Hs Ha Hid Hp Hadv) as [Hf2 Hs2].
  rewrite plain_no_recovery, plain_no_compensation in Hres by done. cbn in Hres.
  destruct (IsComplete def (completedSet run2)) eqn:Hc.
  - injection Hres as <-. rewrite completedSet_build in Hc. apply IsComplete_resolved in Hc.
    by apply completeWorkflow_writes.
  - apply bind_ret_iff in Hres as (saved & Hsv & [= <-]).
    destruct (fit_saved _ _ _ Hsv Hf2 (Hs2 eq_refl)) as [? ?].
    split; [by left|]. by apply dispatchPass_writes.
Qed.

(** [handleStepCompleted] on a run of the invariant.  A completion that is not
    fenced (a sleep's, an event match, a respond step's own) is of a dispatched
    step. *)
Lemma completed_writes x evt :
  x_legacy x = false → payload_ok (protocol.Payload evt) →
  (protocol.Type_ evt = protocol.EventStepCompleted ∧
     (∀ s, findStepDef def (protocol.StepID evt) = Some s → sd_Type s ≠ StepTypeRespond) ∨
   protocol.StepID evt ∈ dispatched_ids) →
  (∀ s, findStepDef def (protocol.StepID evt) = Some s → sd_Type s ≠ StepTypePlanner) →
  (∀ base idx, parseMapInstanceID (protocol.StepID evt) = Ret (base, idx) →
     base ∈ dispatched_ids) →
  writes run_ok (completed_script x def evt).
Proof using Hdef Hlimit Hrun Hattach.
  intros Hleg Hpay Hwho Hnp Hmap. apply writes_load. intros run Hok.
  apply writes_attempt. intros _ _. apply writes_attempt. intros res Hres. rewrite Hleg in Hres.
  unfold handleStepCompleted in Hres. rewrite !bind_unit_ret_iff, !panic_if_ret_iff in Hres.
  destruct Hres as (_ & Hsid%empty_str_false & Hres).
  apply bind_ret_iff in Hres as (late & Hlate & Hres).
  destruct late; [by injection Hres as <-|].
  destruct Hok as [[Hf Hs]|Hc]; [|by apply late_closed in Hlate].
  apply late_false in Hlate as Ht.
  destruct (isMapInstanceID _).
  { injection Hres as <-. by apply handleMapInstanceCompleted_writes. }
  apply bind_ret_iff in Hres as (fenced & Hfence & Hres).
  assert (∀ run1, fenced = Some run1 → same_run run run1 ∧
    (active_status (status_of (wr_Steps run) (protocol.StepID evt)) = true ∨
     status_of (wr_Steps run) (protocol.StepID evt) = StepStatusCompleted)) as Hacc.
  { intros run1 ->.
    assert (same_run run run1) as Hsm.
    { match type of Hfence with (if ?b then _ else _) = _ => destruct b end;
        [by injection Hfence as <-|by eapply fence_same]. }
    split; [done|]. destruct Hwho as [[Hty Hnr]|Hd].
    - left. assert (fenceStepEvent false run evt = Ret (Some run1)) as Hf1.
      { destruct (findStepDef def (protocol.StepID evt)) as [sd|] eqn:Hfind; [|done].
        by rewrite (bool_decide_eq_false_2 _ (Hnr sd eq_refl)) in Hfence. }
      apply fence_accepts in Hf1 as [Hans _]; [by eapply answers_active|by rewrite Hty].
    - apply dispatched_status; [done..|]. by apply (ft_nonces _ Hf). }
  destruct fenced as [run1|]; [|by injection Hres as <-].
  destruct (Hacc run1 eq_refl) as [Hsm Hact].
  match type of Hres with (if ?b then _ else _) = _ => destruct b eqn:Hpl end.
  { destruct (findStepDef def (protocol.StepID evt)) as [sd|] eqn:Hfind; [|done].
    apply bool_decide_eq_true in Hpl. by destruct (Hnp sd eq_refl). }
  pose proof (fit_same _ _ Hsm Hf) as Hf1. pose proof (sound_same _ _ Hsm Hs) as Hs1.
  assert (active_status (status_of (wr_Steps run1) (protocol.StepID evt)) = true ∨
     status_of (wr_Steps run1) (protocol.StepID evt) = StepStatusCompleted) as Hact1
    by (by destruct Hsm as (_ & _ & Hst), (Hst (protocol.StepID evt)) as (-> & _)).
  by eapply applied_writes.
Qed.

(** ** Failures *)

Lemma fit_skips run : fit run → fit (wr_set_Steps (with_skips def (wr_Steps run)) run).
Proof using Hdef.
  intros Hf. pose proof (same_id_set_Steps (with_skips def (wr_Steps run)) run) as [Hid Hin].
  split; rewrite ?Hid, ?Hin, ?wr_Steps_set_Steps, ?wr_Status_set_Steps; try apply Hf.
  - by apply steps_inv_skips, Hf.
  - intros id Hd. rewrite skips_nonce. by apply (ft_nonces _ Hf).
  - intros id Hi. apply active_ids_elem, active_skips, active_ids_elem in Hi.
    by apply (ft_local _ Hf).
  - intros Hc s Hs Ha. rewrite with_skips_at. case_decide; [by rewrite ss_Status_set|].
    by apply (ft_done _ Hf).
  - intros m Hm. etrans; [|by apply (ft_cap _ Hf)]. apply count_subset.
    rewrite wr_Steps_set_Steps. intros id. by rewrite active_skips.
Qed.

Lemma plain_permanent new_id clock run stepDef state id rec :
  sd_OnFailure stepDef = "" →
  HandlePermanentFailure new_id clock def run stepDef state id = Ret rec →
  ∃ f, finalizeRun (clock 0%nat) run RunStatusFailed = Ret f ∧ rec = RunFailed (default run f).
Proof using Hdef.
  intros Ho H. unfold HandlePermanentFailure in H. rewrite !bind_unit_ret_iff in H.
  destruct H as (_ & _ & H). rewrite (pl_aux def Hdef), Ho in H.
  change (negb (empty_str "")) with false in H.
  unfold StartCompensation in H. rewrite (plain_no_chain def Hdef) in H. cbn [mbind outcome_bind] in H.
  apply bind_ret_iff in H as (f & Hf & [= <-]). eauto.
Qed.

Lemma plain_handlers id : sd_OnFailure (default zero_StepDef (findStepDef def id)) = "".
Proof using Hdef.
  destruct (findStepDef def id) as [s|] eqn:Hs; [|done]. apply find_first_Some in Hs as [Hin _].
  by apply (pl_handlers def Hdef s Hin).
Qed.

(** A permanent failure of a plain definition ends the run. *)
Lemma permanent_writes x run0 evt new_id clock run stepDef state id rec :
  fit run → IsTerminal (wr_Status run) = false → sd_OnFailure stepDef = "" →
  HandlePermanentFailure new_id clock def run stepDef state id = Ret rec →
  writes run_ok (after_failed x def run0 evt (FailedPermanent rec)).
Proof using Hdef Hlimit Hrun.
  intros Hf Ht Ho H. apply plain_permanent in H as (f & Hfin & ->); [|done]. simpl.
  apply ended_writes. left. destruct f as [r|]; [by eapply finalized_ok; [exact Hf| |exact Hfin]|].
  unfold finalizeRun in Hfin. rewrite Ht in Hfin. simpl in Hfin.
  by apply bind_ret_iff in Hfin as (? & _ & [=]).
Qed.

(** The state a failure is judged on: the step's, with an error and at least
    one attempt. *)
Definition judged (st st' : StepState) : Prop :=
  ss_Status st' = ss_Status st ∧ ss_DispatchNonce st' = ss_DispatchNonce st ∧
  ss_Output st' = ss_Output st.

Lemma retry_fit new_id clock run id st d saved :
  fit run → sound run → active_status (status_of (wr_Steps run) id) = true →
  judged (step_at (wr_Steps run) id) st →
  retry_step new_id clock run id st d = Ret saved → fit saved ∧ sound saved.
Proof using Hdef.
  intros Hf Hs Ha (Hst & Hn & Ho) H. unfold retry_step in H.
  apply bind_ret_iff in H as (st1 & H1 & H). apply bind_ret_iff in H as (st2 & H2 & H).
  apply stampDispatch_ret in H1 as (Hne & _ & (D1 & D2 & _ & _ & _ & _ & _ & _ & D9) & _).
  assert (judged st1 st2) as (J1 & J2 & J3).
  { unfold markRetryPending in H2. rewrite bind_unit_ret_iff in H2. destruct H2 as [_ [= <-]].
    by destruct st1. }
  assert (ss_Status st2 = status_of (wr_Steps run) id) as Hst2 by congruence.
  eapply fit_saved; [exact H| |].
  - apply fit_set; [done| | |congruence].
    + rewrite Hst2. split; by left.
    + rewrite J3, D9, Ho. by apply fit_output.
  - apply sound_set; [done|]. rewrite Hst2. intros Heq. by rewrite Heq in Ha.
Qed.

Lemma dispatchNonRetriable_writes x run0 new_id clock run stepDef evt err rec :
  fit run → sound run → IsTerminal (wr_Status run) = false →
  active_status (status_of (wr_Steps run) (protocol.StepID evt)) = true →
  sd_OnFailure stepDef = "" →
  dispatchNonRetriableFailure new_id clock def run stepDef evt err = Ret rec →
  writes run_ok (after_failed x def run0 evt (FailedPermanent rec)).
Proof using Hdef Hlimit Hrun.
  intros Hf Hs Ht Ha Ho H. unfold dispatchNonRetriableFailure in H.
  rewrite !bind_unit_ret_iff in H. destruct H as (_ & _ & H).
  apply bind_ret_iff in H as ([run2 eff] & Hadv & H).
  eapply permanent_writes; [| |exact Ho|exact H]; [|by rewrite wr_Status_set_Status].
  set (st := ss_set_Status StepStatusFailed
    (ss_set_Error err (step_at (wr_Steps run) (protocol.StepID evt)))).
  assert (fit (set_step (protocol.StepID evt) st run)) as Hf1
    by (apply failed_step_fit; [done|done|unfold st; by destruct (step_at _ _)..]).
  apply fit_skips in Hf1. eapply fit_same; [|exact Hf1].
  split_and!.
  - pose proof (Advance_same_id _ _ _ _ _ Hadv) as [E1 E2].
    destruct run, run2; simpl in *. by subst.
  - rewrite wr_Status_set_Status. by destruct run.
  - apply Advance_failed_steps in Hadv.
    rewrite wr_Steps_set_Status, wr_Steps_set_Steps, Hadv. unfold set_step.
    rewrite wr_Steps_set_Steps. apply same_steps_refl.
Qed.

(** The failure of a step in flight, by its kind. *)
Lemma judged_failure x run0 evt run state fp res :
  fit run → sound run → IsTerminal (wr_Status run) = false →
  active_status (status_of (wr_Steps run) (protocol.StepID evt)) = true →
  judged (step_at (wr_Steps run) (protocol.StepID evt)) state →
  let stepDef := default zero_StepDef (findStepDef def (protocol.StepID evt)) in
  let policy := ResolveRetryPolicy def stepDef in
  (if bool_decide (sf_FailureType fp = FailureTypeNonRetriable_) then
     rec ← dispatchNonRetriableFailure (x_id x) (x_clock x) def run stepDef evt (sf_Error fp);
     Ret (FailedPermanent rec)
   else if bool_decide (sf_FailureType fp = FailureTypeRetryAfter_) then
     handleRetryAfter (x_routes x) (x_id x) (x_clock x) def run stepDef state
       (protocol.StepID evt) (sf_RetryAfterMs fp) policy
   else dispatchRetriableFailure (h_oob (x_host x)) (x_routes x) (x_id x) (x_clock x) def run
          state stepDef evt policy) = Ret res →
  writes run_ok (after_failed x def run0 evt res).
Proof using Hdef Hlimit Hrun.
  intros Hf Hs Ht Ha Hj stepDef policy H.
  assert (∀ d saved, retry_step (x_id x) (x_clock x) run (protocol.StepID evt) state d = Ret saved →
    run_ok saved) as Hretry by (intros d saved Hr; left; by eapply retry_fit).
  assert (∀ rec, HandlePermanentFailure (x_id x) (x_clock x) def
      (set_step (protocol.StepID evt) (ss_set_Status StepStatusFailed state) run) stepDef
      (ss_set_Status StepStatusFailed state) (protocol.StepID evt) = Ret rec →
    writes run_ok (after_failed x def run0 evt (FailedPermanent rec))) as Hperm.
  { intros rec. apply permanent_writes; [|by unfold set_step; rewrite wr_Status_set_Steps|
      by apply plain_handlers].
    destruct Hj as (_ & Hn & Ho).
    apply failed_step_fit; [done|done|by rewrite ss_Status_set|by destruct state..]. }
  destruct (bool_decide _).
  { apply bind_ret_iff in H as (rec & Hr & [= <-]).
    eapply dispatchNonRetriable_writes; [done..|by apply plain_handlers|exact Hr]. }
  destruct (bool_decide _).
  - unfold handleRetryAfter in H. rewrite !bind_unit_ret_iff in H. destruct H as (_ & _ & H).
    destruct policy as [p|]; [destruct (_ <=? _)|].
    + apply bind_ret_iff in H as (saved & Hr & [= <-]). simpl. split; [by eapply Hretry|].
      apply writes_attempt. done.
    + apply bind_ret_iff in H as (rec & Hr & [= <-]). by apply Hperm.
    + apply bind_ret_iff in H as (rec & Hr & [= <-]). by apply Hperm.
  - unfold dispatchRetriableFailure in H. rewrite !bind_unit_ret_iff in H.
    destruct H as (_ & _ & H). destruct policy as [p|]; [destruct (_ <=? _)|].
    + apply bind_ret_iff in H as (d & _ & H).
      apply bind_ret_iff in H as (saved & Hr & [= <-]). simpl. split; [by eapply Hretry|].
      apply writes_attempt. done.
    + apply bind_ret_iff in H as (rec & Hr & [= <-]). by apply Hperm.
    + apply bind_ret_iff in H as (rec & Hr & [= <-]). by apply Hperm.
Qed.

Lemma failed_writes x evt :
  x_legacy x = false → protocol.Type_ evt = protocol.EventStepFailed →
  isMapInstanceID (protocol.StepID evt) = false →
  writes run_ok (failed_script x def evt).
Proof using Hdef Hlimit Hrun.
  intros Hleg Hty Hmap. apply writes_load. intros run Hok. apply writes_attempt. intros _ _.
  apply writes_attempt. intros res Hres. unfold handleStepFailed in Hres.
  rewrite !bind_unit_ret_iff, Hleg, Hmap in Hres. destruct Hres as (_ & _ & Hres).
  apply bind_ret_iff in Hres as (late & Hlate & Hres).
  destruct late; [by injection Hres as <-|].
  destruct Hok as [[Hf Hs]|Hc]; [|by apply late_closed in Hlate].
  apply late_false in Hlate. apply bind_ret_iff in Hres as (fenced & Hfence & Hres).
  destruct fenced as [run1|]; [|by injection Hres as <-].
  apply fence_same in Hfence as Hsm. apply fence_accepts in Hfence as [Hans _]; [|by rewrite Hty].
  apply answers_active in Hans.
  pose proof (fit_same _ _ Hsm Hf) as Hf1. pose proof (sound_same _ _ Hsm Hs) as Hs1.
  destruct Hsm as (_ & Hst1 & Hsm). destruct (Hsm (protocol.StepID evt)) as (Hact & _).
  rewrite <-Hact in Hans. rewrite <-Hst1 in Hlate. clear Hsm Hact Hst1 Hf Hs.
  eapply judged_failure; [..|exact Hres].
  - destruct (_ <? 1); [|done]. eapply fit_same; [|exact Hf1].
    apply set_same_run; by destruct (step_at (wr_Steps run1) _).
  - destruct (_ <? 1); [|done]. eapply sound_same; [|exact Hs1].
    apply set_same_run; by destruct (step_at (wr_Steps run1) _).
  - destruct (_ <? 1); [|done]. unfold set_step. by rewrite wr_Status_set_Steps.
  - destruct (_ <? 1); [|done]. unfold set_step. rewrite wr_Steps_set_Steps, step_at_insert.
    by destruct (step_at (wr_Steps run1) _).
  - destruct (_ <? 1); unfold set_step; rewrite ?wr_Steps_set_Steps, ?step_at_insert;
      by destruct (step_at (wr_Steps run1) _).
Qed.

(** ** Lifecycle reports *)

Lemma live_dispatched run id :
  run_ok run → id ∈ dispatched_ids → IsTerminal (wr_Status run) = false →
  status_of (wr_Steps run) id ≠ StepStatusCompleted →
  fit run ∧ sound run ∧ active_status (status_of (wr_Steps run) id) = true.
Proof.
  intros [[Hf Hs]|[_ [Ht' _] _ _]] Hid Ht Hne; [|congruence]. split_and!; [done..|].
  destruct (dispatched_status run id Hf Hs Ht); [by apply (ft_nonces _ Hf)|done|done].
Qed.

Lemma started_set now run evt run' e :
  handleStepStarted now run evt = Ret (Some (run', e)) →
  ∃ st, run' = set_step (protocol.StepID evt) st run.
Proof.
  unfold handleStepStarted. rewrite !bind_unit_ret_iff. intros (_ & _ & H).
  destruct (wr_Steps run !! protocol.StepID evt) as [st|]; [|done].
  destruct (_ || _); [done|]. apply bind_ret_iff in H as ([] & _ & H); [done|].
  apply bind_ret_iff in H as ([] & _ & H); [done|].
  apply bind_ret_iff in H as ([st1 el] & _ & H).
  rewrite bind_unit_ret_iff in H. destruct H as [_ [= <- _]]. eauto.
Qed.

Lemma started_writes x evt :
  protocol.StepID evt ∈ dispatched_ids → writes run_ok (started_script x evt).
Proof using Hdef Hlimit Hrun.
  intros Hd. apply writes_load. intros run Hok. apply writes_attempt.
  intros [[run' el]|] Hh; [|done]. apply writes_persist. intros saved Hsv. split; [|done].
  eapply run_ok_saved; [exact Hsv|]. left. apply started_set in Hh as Hset.
  pose proof (handleStepStarted_output _ _ _ _ _ Hh) as [Hout _].
  apply handleStepStarted_spec in Hh as (Hst & _ & Hn & Hnc & _ & Ht & _).
  destruct (live_dispatched run _ Hok Hd Ht Hnc) as (Hf & Hs & Ha).
  destruct Hset as [st ->]. unfold set_step in Hst, Hn, Hout.
  rewrite wr_Steps_set_Steps, step_at_insert in Hst, Hn, Hout.
  split; [apply fit_set|apply sound_set]; [done| | |congruence|done|by rewrite Hst].
  - rewrite Hst. split; by left.
  - rewrite Hout. by apply fit_output.
Qed.

Lemma queued_writes x evt :
  protocol.StepID evt ∈ dispatched_ids → writes run_ok (queued_script x evt).
Proof using Hdef Hlimit Hrun.
  intros Hd. apply writes_load. intros run Hok. apply writes_attempt.
  intros [run'|] Hh; [|done]. apply writes_persist. intros saved Hsv. split; [|done].
  eapply run_ok_saved; [exact Hsv|]. unfold handleStepQueued in Hh.
  rewrite !bind_unit_ret_iff in Hh. destruct Hh as (_ & _ & Hh).
  destruct (wr_Steps run !! protocol.StepID evt) as [st|] eqn:Hl; [|done].
  assert (step_at (wr_Steps run) (protocol.StepID evt) = st) as Hat by (unfold step_at; by rewrite Hl).
  destruct (_ || _) eqn:Hg; [done|]. rewrite !orb_false_iff, !bool_decide_eq_false in Hg.
  destruct Hg as [[Hnc Hnf] Hnr]. rewrite <-Hat in Hnc, Hnr.
  apply bind_ret_iff in Hh as ([] & Hlate & Hh); [done|]. apply late_false in Hlate.
  rewrite bind_unit_ret_iff in Hh. destruct Hh as [_ [= <-]].
  destruct (live_dispatched run _ Hok Hd Hlate Hnc) as (Hf & Hs & Ha). left.
  assert (∀ b : bool, same_run run (set_step (protocol.StepID evt)
    (if b then ss_set_Attempts (protocol.AttemptNumber evt) (ss_set_Status StepStatusQueued st)
     else ss_set_Status StepStatusQueued st) run)) as Hsm.
  { intros b. assert (ss_Status st = StepStatusQueued) as Hq.
    { rewrite Hat in Ha, Hnr. revert Ha Hnr. by destruct (ss_Status st). }
    apply set_same_run; rewrite Hat; destruct b, st; simpl in *; congruence. }
  split; [by eapply fit_same|by eapply sound_same].
Qed.

(** ** Agent loops *)

Lemma send_iteration_writes d run stepDef state publish :
  run_ok (set_step (sd_ID stepDef) state run) →
  writes run_ok (send_iteration d run stepDef state publish).
Proof.
  intros Hok. apply writes_persist. intros saved Hsv. split; [by eapply run_ok_saved|].
  apply writes_attempt. intros _ _. apply writes_attempt. intros _ _. by apply markSent_writes.
Qed.

Lemma applyWait_judged now inputs wait st st' :
  applyWait now inputs wait st = Ret st' → judged st st'.
Proof.
  unfold applyWait. destruct (wait_IsZero wait); [intros [= <-]; by destruct st|].
  rewrite bind_ret_iff. intros (t & _ & H).
  destruct wait as [w|]; [|injection H as <-; by destruct t, st].
  destruct (negb _); [injection H as <-; by destruct t, st|].
  destruct inputs as [[[]| |]|]; injection H as <-; by destruct t, st.
Qed.

Lemma dispatchNextIteration_writes routes policy mx d run stepDef state ls wait :
  fit run → sound run → active_status (status_of (wr_Steps run) (sd_ID stepDef)) = true →
  judged (step_at (wr_Steps run) (sd_ID stepDef)) state →
  writes run_ok (dispatchNextIteration routes policy mx d run stepDef state ls wait).
Proof using Hdef.
  intros Hf Hs Ha (J1 & J2 & J3). apply writes_attempt. intros st' H.
  rewrite !bind_unit_ret_iff in H. destruct H as (_ & _ & H).
  apply bind_ret_iff in H as (st1 & Hd & (W1 & W2 & W3)%applyWait_judged).
  apply stampDispatch_ret in Hd as (Hne & _ & (D1 & D2 & _ & _ & _ & _ & _ & _ & D9) & _).
  assert (judged st1 st') as (U1 & U2 & U3) by (split_and!; destruct st1; simpl in *; congruence).
  apply send_iteration_writes. left.
  assert (ss_Status st' = status_of (wr_Steps run) (sd_ID stepDef)) as Hst by congruence.
  split; [apply fit_set|apply sound_set]; [done| | |congruence|done|].
  - rewrite Hst. split; by left.
  - rewrite U3, D9, J3. by apply fit_output.
  - rewrite Hst. intros Heq. by rewrite Heq in Ha.
Qed.

Lemma failLoopStep_writes d run id state reason :
  fit run → judged (step_at (wr_Steps run) id) state →
  active_status (status_of (wr_Steps run) id) = true ∨
    status_of (wr_Steps run) id = StepStatusFailed →
  writes run_ok (failLoopStep d run id state reason).
Proof using Hdef Hlimit Hrun.
  intros Hf (J1 & J2 & J3) Ha. apply writes_attempt. intros _ _. apply finalize_fit; [|done].
  set (st := ss_set_Error reason (ss_set_Status StepStatusFailed state)).
  assert (ss_Status st = StepStatusFailed) as H1 by (unfold st; by destruct state).
  assert (ss_DispatchNonce st = ss_DispatchNonce state) as H2 by (unfold st; by destruct state).
  assert (ss_Output st = ss_Output state) as H3 by (unfold st; by destruct state).
  destruct Ha as [Ha|Ha]; [apply failed_step_fit; congruence|].
  eapply fit_same; [|exact Hf]. apply set_same_run; congruence.
Qed.

Lemma fit_failed_status run : fit run → fit (wr_set_Status RunStatusFailed run).
Proof.
  intros Hf. pose proof (same_id_set_Status RunStatusFailed run) as [E1 E2].
  split; rewrite ?E1, ?E2, ?wr_Steps_set_Status, ?wr_Status_set_Status; try apply Hf; [done|].
  intros m Hm. etrans; [|by apply (ft_cap _ Hf)]. apply count_subset. by rewrite wr_Steps_set_Status.
Qed.

(** What the pure core makes of a continue. *)
Lemma continue_cases run id run2 effects :
  fit run → sound run → active_status (status_of (wr_Steps run) id) = true →
  Advance def run (MkEvent EventStepContinue id None no_failure) = Ret (run2, effects) →
  fit run2 ∧
  if fails_workflow effects then status_of (wr_Steps run2) id = StepStatusFailed
  else sound run2 ∧ active_status (status_of (wr_Steps run2) id) = true.
Proof using Hdef.
  intros Hf Hs Ha. unfold Advance. rewrite bind_unit_ret_iff. intros [_ H]. cbn [ev_Type] in H.
  unfold advanceContinue in H. cbn [ev_StepID] in H.
  destruct (findStepInDef def id) as [sd|]; [|done].
  destruct (ParseAgentLoopConfig sd) as [cfg| |]; [|done..].
  destruct (_ && _).
  - injection H as <- <-. simpl. split.
    + apply fit_failed_status, failed_step_fit; [done|done|by destruct (step_at _ _)..].
    + unfold set_step. rewrite wr_Steps_set_Status, wr_Steps_set_Steps, step_at_insert.
      by destruct (step_at _ _).
  - destruct (ResolveInput _ _ _); [|done..]. injection H as <- <-. simpl.
    match goal with |- fit (set_step _ ?st _) ∧ _ =>
      assert (same_run run (set_step id st run)) as Hsm
        by (apply set_same_run; by destruct (step_at _ _)) end.
    split_and!; [by eapply fit_same|by eapply sound_same|].
    destruct Hsm as (_ & _ & Hsm). by destruct (Hsm id) as (-> & _).
Qed.

Lemma handleStepContinue_writes h routes policy mx d run evt :
  run_ok run → protocol.Type_ evt = protocol.EventStepContinue →
  writes run_ok (handleStepContinue h routes policy mx false d def run evt).
Proof using Hdef Hlimit Hrun.
  intros Hok Hty. apply writes_attempt. intros _ _.
  destruct (findStepDef def (protocol.StepID evt)) as [sd|] eqn:Hsd; [|done].
  assert (sd_ID sd = protocol.StepID evt) as Hsid
    by (by apply find_first_Some in Hsd as [_ ?%bool_decide_eq_true]).
  apply writes_attempt. intros [run1|] Hfence; [|done].
  apply fence_same in Hfence as Hsm. apply fence_accepts in Hfence as [Hans _]; [|by rewrite Hty].
  apply answers_active in Hans.
  destruct Hok as [[Hf Hs]|Hc]; [|by rewrite (cl_idle _ Hc) in Hans].
  pose proof (fit_same _ _ Hsm Hf) as Hf1. pose proof (sound_same _ _ Hsm Hs) as Hs1.
  destruct Hsm as (_ & _ & Hsm), (Hsm (protocol.StepID evt)) as (Hact & _). rewrite <-Hact in Hans.
  apply writes_attempt. intros [ls stateSet] _. apply writes_attempt. intros wait _.
  apply writes_attempt. intros [e|] _; [by apply failLoopStep_writes; [..|by left]|].
  apply writes_attempt. intros [run2 effects] Hadv.
  apply continue_cases in Hadv as [Hf2 Hcase]; [|done..].
  destruct (fails_workflow effects); [by apply failLoopStep_writes; [..|by right]|].
  destruct Hcase as [Hs2 Ha2]. cbv zeta.
  match goal with |- context [checkLoopBounds h _ _ ?st] =>
    assert (judged (step_at (wr_Steps run2) (protocol.StepID evt)) st) as Hj
      by (destruct (_ =? _); by destruct (step_at (wr_Steps run2) (protocol.StepID evt))) end.
  destruct (checkLoopBounds _ _ _ _); [by apply failLoopStep_writes; [..|by left]|].
  rewrite <-Hsid in Ha2, Hj |- *. by apply dispatchNextIteration_writes.
Qed.

(** *** Wakeups *)

Lemma same_step_ok run id st :
  run_ok run → judged (step_at (wr_Steps run) id) st → run_ok (set_step id st run).
Proof.
  intros Hok (J1 & J2 & J3). eapply run_ok_same; [|apply set_CompletedAt|exact Hok].
  by apply set_same_run.
Qed.

Lemma wakeStep_writes routes policy mx d run stepDef state reason :
  run_ok run → judged (step_at (wr_Steps run) (sd_ID stepDef)) state →
  writes run_ok (wakeStep routes policy mx d run stepDef state reason).
Proof.
  intros Hok (J1 & J2 & J3). apply writes_attempt. intros _ _. apply send_iteration_writes.
  apply same_step_ok; [done|]. split_and!; by destruct state.
Qed.

Lemma handleInputQueued_writes routes policy mx d run evt :
  run_ok run → writes run_ok (handleInputQueued routes policy mx d def run evt).
Proof.
  intros Hok. apply writes_attempt. intros _ _.
  destruct (wr_Steps run !! protocol.StepID evt) as [st|] eqn:Hl; [|done].
  destruct (findStepDef def (protocol.StepID evt)) as [sd|] eqn:Hsd; [|done].
  assert (step_at (wr_Steps run) (protocol.StepID evt) = st) as Hat by (unfold step_at; by rewrite Hl).
  assert (sd_ID sd = protocol.StepID evt) as Hsid
    by (by apply find_first_Some in Hsd as [_ ?%bool_decide_eq_true]).
  destruct (_ || _); [done|]. destruct (ss_WaitInput st).
  { apply wakeStep_writes; [done|]. by rewrite Hsid, Hat. }
  destruct (ss_HasInputs st); [done|]. apply writes_persist. intros saved Hsv. split; [|done].
  eapply run_ok_saved; [exact Hsv|]. apply same_step_ok; [done|]. rewrite Hat. by destruct st.
Qed.

Lemma handleWaitElapsed_writes routes policy mx d run evt :
  run_ok run → writes run_ok (handleWaitElapsed routes policy mx d def run evt).
Proof.
  intros Hok. apply writes_attempt. intros _ _.
  destruct (findStepDef def (protocol.StepID evt)) as [sd|] eqn:Hsd; [|done].
  assert (sd_ID sd = protocol.StepID evt) as Hsid
    by (by apply find_first_Some in Hsd as [_ ?%bool_decide_eq_true]).
  cbv zeta. destruct (_ || _); [done|]. apply wakeStep_writes; [done|]. by rewrite Hsid.
Qed.

(** ** Resends *)

Lemma resendUnsent_writes queued d loaded run :
  writes run_ok (resendUnsent queued d loaded def run).
Proof.
  apply writes_attempt. intros _ _. destruct (negb _); [done|].
  apply writes_attempt. intros _ _. apply writes_attempt. intros plan _.
  destruct (sendPlan d plan) as [sent all]. by apply markSent_writes.
Qed.

(** ** Every event *)

Definition completion_type (t : protocol.EventType) : Prop :=
  t = protocol.EventStepCompleted ∨ t = EventStepSleepCompleted ∨ t = EventStepWaitMatched.

(** The events the invariant is proved for, a part of those [dispatchEvent]
    handles: payloads are JSON; a completion is a [step.completed] of a step
    other than respond (which the handler fences) or of a dispatched step,
    completes no planner, and if of a map instance is of a dispatched map step;
    a failure is not of a map instance (these are not fenced, and a late one
    breaks the invariant); the started and queued reports are of dispatched
    steps. *)
Record event_ok (evt : protocol.Event) : Prop := {
  eo_payload : payload_ok (protocol.Payload evt);
  eo_who : completion_type (protocol.Type_ evt) →
    protocol.Type_ evt = protocol.EventStepCompleted ∧
      (∀ s, findStepDef def (protocol.StepID evt) = Some s → sd_Type s ≠ StepTypeRespond) ∨
    protocol.StepID evt ∈ dispatched_ids;
  eo_planner : completion_type (protocol.Type_ evt) →
    ∀ s, findStepDef def (protocol.StepID evt) = Some s → sd_Type s ≠ StepTypePlanner;
  eo_map : completion_type (protocol.Type_ evt) →
    ∀ base idx, parseMapInstanceID (protocol.StepID evt) = Ret (base, idx) →
      base ∈ dispatched_ids;
  eo_failed : protocol.Type_ evt = protocol.EventStepFailed →
    isMapInstanceID (protocol.StepID evt) = false;
  eo_report : protocol.Type_ evt = protocol.EventStepStarted ∨
      protocol.Type_ evt = protocol.EventStepQueued →
    protocol.StepID evt ∈ dispatched_ids;
}.

(** Events without an identity are refused; children's outputs are JSON. *)
Record external_ok (x : external) : Prop := {
  xo_legacy : x_legacy x = false;
  xo_child : ∀ id cdef crun, x_child x id = Ret (cdef, crun) → outputs_ok (wr_Steps crun);
}.

Lemma loadRunAndDef_writes x k :
  (∀ run, run_ok run → writes run_ok (k run)) → writes run_ok (loadRunAndDef x k).
Proof. intros Hk. apply writes_load. intros run Hr. apply writes_attempt. auto. Qed.

Lemma load_or_drop_writes x k :
  (∀ run, run_ok run → writes run_ok (k run)) → writes run_ok (load_or_drop x k).
Proof.
  intros Hk [run|e|m] Hr; [|done..]. destruct (x_def x); [|done..]. by apply Hk, Hr.
Qed.

Lemma cancelled_writes x evt : writes run_ok (cancelled_script x evt).
Proof using Hdef Hlimit Hrun.
  apply writes_load. intros run Hr. by apply handleWorkflowCancelled_writes.
Qed.

(** A redelivered start heals a running run by a dispatch pass, or does
    nothing. *)
Lemma running_pass_writes h ds run :
  run_ok run → wr_Status run = RunStatusRunning →
  writes run_ok (dispatchPass h (passes def) ds def run).
Proof using Hdef Hlimit Hrun Hattach.
  intros [[Hf Hs]|[_ [Ht _] _ _]] Hr; [by apply dispatchPass_writes|by rewrite Hr in Ht].
Qed.

Lemma start_writes x evt : writes run_ok (start_script x def evt).
Proof using Hdef Hlimit Hrun Hattach.
  unfold start_script. destruct (protocol.Payload evt) as [payload|]; [|done].
  apply writes_attempt. intros _ _ [run|e|m] Hok; [|by case_match|done].
  specialize (Hok run eq_refl). apply writes_attempt. intros stranded _.
  destruct (_ || _); [|done]. apply writes_attempt. intros _ _.
  case_bool_decide as Hst; simpl; [|done]. apply writes_attempt. intros _ _.
  by apply running_pass_writes.
Qed.

Lemma spawned_writes h ds o childRunID :
  writes run_ok (spawnExistingChild h ds def (Finish o) childRunID).
Proof using Hdef Hlimit Hrun Hattach.
  intros [run|e|m] Hok; [|by case_match|done]. specialize (Hok run eq_refl).
  apply writes_attempt. intros _ _. case_bool_decide as Hst; simpl; [|done].
  by apply running_pass_writes.
Qed.

Lemma routeEvent_writes x evt :
  external_ok x → event_ok evt → writes run_ok (routeEvent x def evt).
Proof using Hdef Hlimit Hrun Hattach.
  intros [Hleg Hchild] [Hpay Hwho Hpl Hmap Hfail Hrep].
  unfold routeEvent. apply writes_attempt. intros _ _. cbv zeta.
  assert (completion_type (protocol.Type_ evt) → writes run_ok (completed_script x def evt))
    as Hcompleted by (intros Hc; exact (completed_writes x evt Hleg Hpay (Hwho Hc) (Hpl Hc) (Hmap Hc))).
  repeat (case_bool_decide as Ht; [|clear Ht]).
  - apply start_writes.
  - apply Hcompleted. by left.
  - apply Hcompleted. by right; left.
  - apply Hcompleted. by right; right.
  - apply loadRunAndDef_writes. intros run Hok. by apply handleWaitTimeout_writes.
  - apply loadRunAndDef_writes. intros run Hok. rewrite Hleg. by apply handleStepContinue_writes.
  - apply failed_writes; auto.
  - apply started_writes; auto.
  - apply queued_writes; auto.
  - done.
  - apply loadRunAndDef_writes. intros run Hok. by apply handleChildCompleted_writes.
  - apply loadRunAndDef_writes. intros run Hok. by apply handleChildFailed_writes.
  - apply cancelled_writes.
  - apply loadRunAndDef_writes. intros run Hok. by apply HandleGranted_writes.
  - apply loadRunAndDef_writes. intros run Hok. by apply HandleRejected_writes.
  - apply loadRunAndDef_writes. intros run Hok. by apply HandleExpired_writes.
  - apply load_or_drop_writes. intros run Hok. by apply handleInputQueued_writes.
  - apply load_or_drop_writes. intros run Hok. by apply handleWaitElapsed_writes.
  - done.
Qed.

Lemma dispatchEvent_writes x evt :
  external_ok x → event_ok evt → writes run_ok (dispatchEvent x def evt).
Proof using Hdef Hlimit Hrun Hattach.
  intros Hx Hev. apply writes_attempt. intros _ _. intros o Ho. cbv zeta.
  destruct (match o with Ret run => overdue x run | _ => false end); [apply cancelled_writes|].
  destruct (negb _); [by apply routeEvent_writes|].
  apply writes_and_then; [by apply routeEvent_writes|].
  apply writes_load. intros run Hok. apply resendUnsent_writes.
Qed.
End Safety.

(** ** Runs under every event

    A run begins with a start, at once or after it waited for a slot, or as the
    child of another run, with every step pending; one dispatch pass follows,
    and each later state is one some handler's script reaches.  Events about
    dispatched steps are of steps that carry a dispatch. *)

Definition dispatched_of (run : WorkflowRun) : list string :=
  (filter (λ p, ss_DispatchNonce p.2 ≠ "") (map_to_list (wr_Steps run))).*1.

(** The scripts that write a stored run: those of its events, and the spawn
    event of its parent. *)
Inductive handler (def : WorkflowDef) (dispatched_ids : list string) : script → Prop :=
  | handler_event x evt :
      external_ok x → event_ok def dispatched_ids evt →
      handler def dispatched_ids (dispatchEvent x def evt)
  | handler_spawned h ds o childRunID :
      handler def dispatched_ids (spawnExistingChild h ds def (Finish o) childRunID).

Definition event_step (def : WorkflowDef) (run run' : WorkflowRun) : Prop :=
  ∃ s, handler def (dispatched_of run) s ∧ reaches s run run'.

Section Begun.
Context (LoadLocation : string → outcome Location).
Context (perm : list string → list string) (rule_order : list Z → list Z).

Inductive begun (def : WorkflowDef) : WorkflowRun → Prop :=
  | begun_start env evt payload chain run :
      handleWorkflowStarted LoadLocation perm rule_order env evt payload =
        Ret (StartCreate chain def run true) → begun def run
  | begun_pending env evt payload chain run now saved_at run' :
      handleWorkflowStarted LoadLocation perm rule_order env evt payload =
        Ret (StartCreate chain def run false) →
      saveSnapshot saved_at (promote now def run) = Ret run' → begun def run'
  | begun_child env load parent evt payload run :
      handleWorkflowSpawn env load parent evt payload = Ret (def, run) → begun def run.

Definition event_reachable (def : WorkflowDef) (run : WorkflowRun) : Prop :=
  ∃ run0 h ds run1, begun def run0 ∧ reaches (dispatchPass h (passes def) ds def run0) run0 run1 ∧
    rtc (event_step def) run1 run.

Lemma begun_unstarted def run : begun def run → unstarted run.
Proof.
  intros [env evt payload chain r Hs|env evt payload chain r now sat r' Hs Hsv
    |env load parent evt payload r Hs].
  - apply started_create in Hs as (_ & _ & _ & _ & _ & _ & _ & Hst & Hu).
    destruct Hu. destruct r; simpl in *. by split.
  - apply started_create in Hs as (_ & _ & _ & _ & _ & _ & _ & _ & Hu).
    by eapply promoted_unstarted.
  - by apply spawned_child in Hs as [? _].
Qed.
End Begun.

Lemma dispatched_of_nonce run id :
  id ∈ dispatched_of run → ss_DispatchNonce (step_at (wr_Steps run) id) ≠ "".
Proof.
  intros ([x st] & -> & [Hn Hin%elem_of_map_to_list]%list_elem_of_filter)%list_elem_of_fmap.
  unfold step_at. simpl. by rewrite Hin.
Qed.

Section Reachable.
Context (def : WorkflowDef) (Hdef : plain def).
Context (Hlimit : ∀ m, step_limit def = Some m → m ≤ int64_max) (Hattach : no_detach def).

Lemma fit_dispatched runID D D' run :
  nonces_ok D' (wr_Steps run) → fit def runID D run → fit def runID D' run.
Proof. by intros Hn [? ? ? ? ? ? ?]. Qed.

Lemma run_ok_dispatched runID D D' run :
  nonces_ok D' (wr_Steps run) → run_ok def runID D run → run_ok def runID D' run.
Proof.
  intros Hn [[Hf Hs]|[? ? ? ?]]; [left; split; [by eapply fit_dispatched|done]|by right].
Qed.

Lemma fresh_fit run : unstarted run → fit def (wr_RunID run) [] run ∧ sound run.
Proof using Hlimit.
  intros [Hid Hst Hin Hp]. split; [|intros _ id; by rewrite Hp].
  split; [done|done| |by intros ? ?%elem_of_nil| | |].
  - split.
    + intros s d _ Hs. by rewrite Hp in Hs.
    + intros id. by rewrite Hp.
    + intros id _. by rewrite Hp.
    + intros id r. by rewrite Hp.
  - intros id. by rewrite Hp.
  - by rewrite Hst.
  - intros m Hm. rewrite countActiveSteps_size.
    destruct (set_choose_or_empty (active_ids (wr_Steps run))) as [[id Hi]|He].
    + apply active_ids_elem in Hi. by rewrite Hp in Hi.
    + rewrite (leibniz_equiv _ _ He), size_empty. unfold step_limit in Hm.
      repeat case_match; simplify_eq. cbn. lia.
Qed.

Lemma handler_writes runID ids s :
  runID ≠ "" → handler def ids s → writes (run_ok def runID ids) s.
Proof using Hdef Hlimit Hattach.
  intros Hid [x evt Hx Hev|h ds o child]; [by apply dispatchEvent_writes|by apply spawned_writes].
Qed.

Lemma event_step_ok runID run run' :
  runID ≠ "" → event_step def run run' → run_ok def runID [] run → run_ok def runID [] run'.
Proof using Hdef Hlimit Hattach.
  intros Hid (s & Hh & Hr) Hok.
  apply (run_ok_dispatched runID (dispatched_of run)); [by intros ? ?%elem_of_nil|].
  eapply reaches_writes; [by apply (handler_writes runID)| |exact Hr].
  eapply run_ok_dispatched; [|exact Hok]. intros id. apply dispatched_of_nonce.
Qed.

Lemma event_reachable_ok LoadLocation perm rule_order run :
  event_reachable LoadLocation perm rule_order def run → ∃ runID, runID ≠ "" ∧ run_ok def runID [] run.
Proof using Hdef Hlimit Hattach.
  intros (run0 & h & ds & run1 & Hfr%begun_unstarted & Hr & Hsteps).
  pose proof (fr_id _ Hfr) as Hid.
  exists (wr_RunID run0). split; [done|]. apply fresh_fit in Hfr as [Hf Hs].
  assert (run_ok def (wr_RunID run0) [] run1) as Hok.
  { eapply reaches_writes; [|by left|exact Hr].
    by apply (dispatchPass_writes def (wr_RunID run0) [] Hdef Hlimit Hid Hattach). }
  clear Hr. induction Hsteps as [|r1 r2 r3 Hstep _ IH]; [done|]. apply IH.
  by eapply event_step_ok.
Qed.
End Reachable.
