(* ===== verification/Cluster.v ===== *)
(** * Several engines on one run

    A cluster runs one engine per node; they all consume the history stream and
    advance the same runs.  An engine handles an event by loading the run's
    snapshot and saving what the handler's script says, each save with a
    compare-and-set at the revision it holds.  A conflict makes it start over
    ([retrySnapshotConflict]), except in an amendment, which reloads the run and
    amends it again.  This file composes the snapshot store with the scripts:
    whatever the engines' calls interleave, fail or lose their replies, and
    wherever an engine dies, each stored version of the run is one some handler
    writes over the version stored just before it.  The invariant of every
    event carries over to the cluster. *)

From S2P Require Import Prelude Json Types Resolve GoTime Advance Dispatch Fence Recovery Handlers Script Engine Interleave Kv Slots Snapshot.
From stdpp Require Import relations.

#[local] Open Scope Z_scope.

(** ** Carrying out a script *)

(** [saveReleaseDebt], [markSent]: a conflict reloads the run and amends it
    again; [k] goes on from the run saved or left as it is. *)
Fixpoint amend_loop (runID : string) (attempts : nat)
    (amend : WorkflowRun → outcome (option WorkflowRun))
    (k : WorkflowRun → N → io storeE unit) (run : WorkflowRun) (rev : N) : io storeE unit :=
  match attempts with
  | O => io_err ErrSnapshotConflict
  | S attempts' =>
      amended ← io_of (amend run);
      match amended with
      | None => k run rev
      | Some run' =>
          o ⇐ Save run' (Some rev);
          match o with
          | Ret (Some rev') => k run' rev'
          | Ret None => Done (Ret tt)
          | Panic m => Done (Panic m)
          | Err e =>
              if errors_Is e ErrSnapshotConflict
              then '(run, rev) ← Load runID; amend_loop runID attempts' amend k run rev
              else io_err e
          end
      end
  end.

(** The script from the run the handler holds, with its revision; a handler
    saves only what it has loaded. *)
Fixpoint run_script (runID : string) (cur : option (WorkflowRun * N)) (s : script)
    : io storeE unit :=
  match s with
  | Finish o => io_of o
  | SaveThen run k =>
      match cur with
      | None => io_err (Errorf "no revision" [])
      | Some (_, rev) =>
          rev' ← Save run (Some rev);
          match rev' with
          | Some rev' => run_script runID (Some (run, rev')) k
          | None => Done (Ret tt)
          end
      end
  | AmendThen attempts amend k =>
      match cur with
      | None => io_err (Errorf "no revision" [])
      | Some (run, rev) =>
          amend_loop runID attempts amend (λ run rev, run_script runID (Some (run, rev)) (k run))
            run rev
      end
  | LoadThen k =>
      o ⇐ Load runID;
      match o with
      | Ret (run, rev) => run_script runID (Some (run, rev)) (k (Ret run))
      | Err e => run_script runID None (k (Err e))
      | Panic m => run_script runID None (k (Panic m))
      end
  end.

(** [handleEventWithConflictRetry] around an event's script. *)
Definition handle_event (stop : nat → bool) (runID : string) (s : script) : io storeE unit :=
  retrySnapshotConflict stop (run_script runID None s).

(** ** Versions of a run *)

Section Versions.
Context {B : Type} `{!Kv stored B, !KvLaws stored B}.
Variables (runID : string).

Definition version (b : B) : option WorkflowRun :=
  match kv_get b (run_key runID) with
  | Some ent => match ent_value ent with SRun run => Some run | _ => None end
  | None => None
  end.

(** The bucket with the versions the run's key has had, newest first. *)
Record cluster : Type := MkCluster {
  cl_kv : kvw stored B;
  cl_versions : list WorkflowRun;
}.

Definition cluster_reply R (w : cluster) (e : storeE R) (w' : cluster) (r : R) : Prop :=
  kv_reply true R (cl_kv w) e (cl_kv w') r ∧
  cl_versions w' =
    if decide (kv_rev (kw_b (cl_kv w')) (run_key runID) =
               kv_rev (kw_b (cl_kv w)) (run_key runID))
    then cl_versions w
    else match version (kw_b (cl_kv w')) with
         | Some run => run :: cl_versions w
         | None => cl_versions w
         end.

(** The handlers at work, and an invariant of runs they maintain. *)
Variable handlers : list script.
Variable Inv : WorkflowRun → Prop.

(** [run'] is what some handler writes over [run]. *)
Definition saves (run run' : WorkflowRun) : Prop :=
  ∃ s, s ∈ handlers ∧ follows s None run run'.

Fixpoint chain (l : list WorkflowRun) : Prop :=
  match l with
  | run' :: (run :: _) as l' => saves run run' ∧ chain l'
  | _ => True
  end.

Definition cluster_ok (w : cluster) : Prop :=
  kv_ok (cl_kv w) ∧ chain (cl_versions w) ∧ Forall Inv (cl_versions w) ∧
  ∃ run, head (cl_versions w) = Some run ∧ version (kw_b (cl_kv w)) = Some run.

Definition grows (w w' : cluster) : Prop :=
  ∀ x, x ∈ kw_past (cl_kv w) → x ∈ kw_past (cl_kv w').

Abbreviation cwp := (wp cluster_reply cluster_ok grows grows).

Hypothesis run_named : runID ≠ "".
Hypothesis Inv_named : ∀ run, Inv run → wr_RunID run = runID.
Hypothesis handlers_keep : Forall (writes Inv) handlers.

(** What a load leaves known: the entry it read was stored under the run's key. *)
Definition loaded (run : WorkflowRun) (rev : N) (w : cluster) : Prop :=
  Inv run ∧ ∃ x, (run_key runID, x) ∈ kw_past (cl_kv w) ∧
    ent_value x = SRun run ∧ ent_revision x = rev.

Definition load_post (o : outcome (WorkflowRun * N)) (w : cluster) : Prop :=
  match o with Ret (run, rev) => loaded run rev w | _ => True end.

Lemma Load_wp w0 : cwp load_post (Load runID) w0.
Proof using Type*.
  unfold Load, io_of, empty_str. rewrite (bool_decide_eq_false_2 _ run_named). simpl.
  intros w _ (Hok & Hch & Hnm & run & Hhd & Hver) w' r [Hrep Hv].
  pose proof (kv_reply_ok _ _ _ _ _ Hrep Hok) as Hok'.
  destruct (get_reply _ _ _ _ _ _ Hrep) as [Hb Hr].
  rewrite Hb, decide_True in Hv by done.
  split_and!; [unfold cluster_ok; rewrite Hv, Hb; eauto 10|intros x; eapply kv_reply_past, Hrep|].
  destruct r as [[]|x]; simpl; [done..|]. destruct Hr as [Hg Hx]. specialize (Hg (or_intror eq_refl)).
  unfold version in Hver. rewrite Hg in Hver.
  destruct (ent_value x) as [run'| | |] eqn:Hval; simpl; [|done..]. simplify_eq.
  split; [|by exists x]. destruct (cl_versions w) as [|v l]; simplify_eq/=.
  by apply Forall_cons in Hnm as [? _].
Qed.

(** A save at the revision of a loaded version extends the chain with it. *)
Definition save_post (run' : WorkflowRun) (o : outcome (option N)) (w : cluster) : Prop :=
  match o with Ret (Some rev') => loaded run' rev' w | _ => True end.

Lemma Save_wp run rev run' w0 :
  loaded run rev w0 → Inv run' → saves run run' →
  cwp (save_post run') (Save run' (Some rev)) w0.
Proof using Type*.
  intros [Hn (x & Hx & Hval & Hrev)] Hn' Hsv.
  assert (wr_RunID run' ≠ "") as Hne by (by rewrite (Inv_named _ Hn')).
  unfold Save, io_of, empty_str. rewrite (bool_decide_eq_false_2 _ Hne), (Inv_named _ Hn'). simpl.
  intros w Hg (Hok & Hch & Hnm & cur & Hhd & Hver) w' r [Hrep Hv].
  pose proof (kv_reply_ok _ _ _ _ _ Hrep Hok) as Hok'.
  pose proof (update_reply _ _ _ _ _ _ _ Hrep) as Hr.
  assert (kv_rev (kw_b (cl_kv w)) (run_key runID) = rev → cur = run) as Hcur.
  { intros Heq. rewrite <-Hrev in Heq.
    pose proof (cas_current _ _ _ Hok (Hg _ Hx) Heq) as Hget.
    unfold version in Hver. rewrite Hget, Hval in Hver. congruence. }
  assert (kw_b (cl_kv w') = kw_b (cl_kv w) ∨
    kv_rev (kw_b (cl_kv w)) (run_key runID) = rev ∧
    ∃ n, wrote (kw_b (cl_kv w)) (run_key runID) (Some (SRun run')) n (kw_b (cl_kv w'))) as He.
  { destruct r as [[]|n]; destruct Hr as [Hr1 Hr2]; eauto; try by left. }
  assert (cluster_ok w') as Hfin.
  { destruct He as [Hb|(Heq & n & Hlt & Hn1 & [t Ht] & _)].
    - rewrite Hb, decide_True in Hv by done. unfold cluster_ok. rewrite Hv, Hb. eauto 10.
    - specialize (Hcur Heq) as ->. rewrite Hn1, decide_False in Hv.
      2:{ specialize (Hlt (run_key runID)). lia. }
      assert (version (kw_b (cl_kv w')) = Some run') as Hver'
        by (unfold version; by rewrite Ht).
      rewrite Hver' in Hv. unfold cluster_ok. rewrite Hv.
      destruct (cl_versions w) as [|v l]; simplify_eq/=.
      split_and!; [done|done|done|by constructor|eauto]. }
  split_and!; [done|intros y; eapply kv_reply_past, Hrep|].
  destruct r as [[]|n]; simpl; try done.
  unfold SnapshotRevision_Advance. destruct (n <=? rev)%N; simpl; [done|].
  split; [done|]. destruct (update_remembered _ _ _ _ _ _ _ Hrep) as [t Ht].
  by exists (MkEntry (SRun run') n t).
Qed.

(** What the script's handler holds is a stored version. *)
Definition held (cur : option (WorkflowRun * N)) (w : cluster) : Prop :=
  match cur with Some (run, rev) => loaded run rev w | None => True end.

Lemma amend_loop_wp n amend k : ∀ run rev w0,
  loaded run rev w0 →
  (∀ r r', Inv r → amend r = Ret (Some r') → Inv r' ∧ saves r r') →
  (∀ run rev w, loaded run rev w → cwp (λ _ _, True) (k run rev) w) →
  cwp (λ _ _, True) (amend_loop runID n amend k run rev) w0.
Proof using Type*.
  induction n as [|n IH]; intros run rev w0 Hl Ha Hk; [done|]. cbn [amend_loop].
  destruct (amend run) as [[run'|]|e|m] eqn:Hr; [| |done..]; simpl; [|by apply Hk].
  destruct (Ha run run') as [Hi Hs]; [apply Hl|done|].
  apply (wp_bind _ _ _ _ (save_post run')); [by apply (Save_wp run)|].
  intros [[rev'|]|e|m] w Hw; [by apply Hk|done| |done].
  destruct (errors_Is e ErrSnapshotConflict); [|done]. unfold mbind, io_mbind.
  apply (wp_bind _ _ _ _ load_post); [apply Load_wp|].
  intros [[run2 rev2]|e2|m2] w2 Hw2; [|done..]. by apply IH.
Qed.

Lemma run_script_wp s : ∀ cur w0,
  held cur w0 → writes Inv s → (∀ a b, follows s (fst <$> cur) a b → saves a b) →
  cwp (λ _ _, True) (run_script runID cur s) w0.
Proof using Type*.
  induction s as [o|run k IH|n amend k IH|k IH]; intros cur w0 Hl Hw Hs; cbn [run_script].
  - by destruct o.
  - destruct cur as [[prev rev]|]; [|done]. destruct Hw as [Hi Hw]. unfold mbind, io_mbind.
    apply (wp_bind _ _ _ _ (save_post run)); [apply (Save_wp prev); [done|done|]; apply Hs; constructor|].
    intros [[rev'|]|e|m] w Hw'; [|done..]. apply IH; [done|done|].
    intros a b Hf. by apply Hs, follows_saved.
  - destruct cur as [[prev rev]|]; [|done]. destruct Hw as [Ha Hk]. destruct n as [|n]; [done|].
    apply amend_loop_wp; [done| |].
    + intros r r' Hr Hrr. split; [by eapply Ha|]. by apply Hs, follows_amend.
    + intros r rev' w Hlw. apply IH; [done|apply Hk, Hlw|].
      intros a b Hf. by eapply Hs, follows_amended.
  - apply (wp_bind _ _ _ _ load_post); [apply Load_wp|]. intros [[run rev]|e|m] w Hw'.
    + apply IH; [done| |intros a b Hf; by eapply Hs, follows_load].
      apply Hw. intros ? [= <-]. apply Hw'.
    + apply IH; [done|by apply Hw|intros a b Hf; by eapply Hs, follows_unloaded].
    + apply IH; [done|by apply Hw|intros a b Hf; by eapply Hs, follows_unloaded].
Qed.

Lemma retry_wp {A} (stop : nat → bool) (p : io storeE A) left : (∀ w, cwp (λ _ _, True) p w) →
  ∀ attempt w0, cwp (λ _ _, True) (retry_loop stop p attempt left) w0.
Proof using Type*.
  intros Hp. induction left as [|left IH]; intros attempt w0; [by apply Hp|]. cbn [retry_loop].
  apply (wp_bind _ _ _ _ (λ _ _, True)); [by apply Hp|].
  intros [a|e|m] w _; [done| |done]. cbn beta iota.
  destruct (errors_Is e ErrSnapshotConflict); [|done].
  destruct (stop attempt); [done|apply IH].
Qed.

Lemma handle_event_wp stop s w0 :
  s ∈ handlers → cwp (λ _ _, True) (handle_event stop runID s) w0.
Proof using Type*.
  intros Hin. apply retry_wp. intros w. apply run_script_wp; [done| |].
  - rewrite Forall_forall in handlers_keep. by apply handlers_keep.
  - intros a b Hf. by exists s.
Qed.

(** Any interleaving, from a state in which the run is stored. *)
Lemma cluster_sound (pool : list ((nat → bool) * script)) w w' ps :
  Forall (λ h, h.2 ∈ handlers) pool → cluster_ok w →
  rtc (pool_step cluster_reply (λ _ _, False))
    (w, (λ h, handle_event h.1 runID h.2) <$> pool) (w', ps) → cluster_ok w'.
Proof using Type*.
  intros Hin Hok Hsteps.
  assert (pool_ok cluster_reply cluster_ok (length pool) (λ _, grows)
    (λ _, grows) (λ _ _ _, True) (w', ps)) as (_ & Hfin & _); [|done].
  eapply (pool_sound cluster_reply cluster_ok (λ _ _, False)); [..|exact Hsteps]; try done.
  - intros i w1 w2 w3 H1 H2 x Hx. auto.
  - intros i w1 x Hx. done.
  - split_and!; [simpl; by rewrite length_fmap|done|]. intros i p Hp. simpl in Hp.
    rewrite list_lookup_fmap in Hp. destruct (pool !! i) as [h|] eqn:Hi; simplify_eq/=.
    apply handle_event_wp. rewrite Forall_forall in Hin. apply Hin.
    by eapply list_elem_of_lookup_2.
Qed.
End Versions.
