(* ===== verification/Journal.v ===== *)
(** * The agent journal (journal/journal.go, replay.go, inputs.go, read.go)

    One append-only subject per step on which the holder of a step records what
    it did: claims, entries, tool intents and results, model responses, placed
    inputs, pauses and commits.  Every append names the last sequence its writer
    saw and a stable message ID; a rejected append re-reads the tail and either
    goes on or finds itself fenced by another claim.

    A [Journal] is the Go struct; an operation of it is a [jprog]: a program
    over the calls of the stream ([journalE]) that threads the struct, also
    through errors.  Running a tool and asking the model are calls too.  The
    relayed path of programs, the crash points of the tests and the guard
    against use from two goroutines are left out.  [act] is what a handler may
    do with its journal, any sequence of operations that reacts to their
    results, and [holder] a delivery that opens the journal and runs one. *)

From S2P Require Import Prelude Float64 Json GoTime Cron Types Input Interleave Lease Snapshot Fence Planners Loops Starts.
From stdpp Require Import relations pretty.
From Stdlib Require Import Ascii.

#[local] Open Scope Z_scope.

(** ** Subjects *)

Definition subjectTokenMaxLen : nat := 128.

(** The number of bytes of the rune a string starts with, as a range loop
    decodes it: an invalid sequence is a rune of one byte. *)
Definition in_bytes (lo hi : Z) (s : string) (i : nat) : bool :=
  match String.get i s with
  | Some c => (lo <=? byte_of c) && (byte_of c <=? hi)
  | None => false
  end.

Definition rune_width (s : string) : nat :=
  let b := in_bytes in
  if b 194 223 s 0%nat && b 128 191 s 1%nat then 2
  else if ((b 224 224 s 0%nat && b 160 191 s 1%nat) || (b 225 236 s 0%nat && b 128 191 s 1%nat) ||
           (b 237 237 s 0%nat && b 128 159 s 1%nat) || (b 238 239 s 0%nat && b 128 191 s 1%nat)) &&
          b 128 191 s 2%nat then 3
  else if ((b 240 240 s 0%nat && b 144 191 s 1%nat) || (b 241 243 s 0%nat && b 128 191 s 1%nat) ||
           (b 244 244 s 0%nat && b 128 143 s 1%nat)) &&
          b 128 191 s 2%nat && b 128 191 s 3%nat then 4
  else 1.

Fixpoint token_go (skip : nat) (s : string) : string :=
  match s with
  | EmptyString => EmptyString
  | String c s' =>
      match skip with
      | S k => token_go k s'
      | O => String (if token_char c then c else "_"%char) (token_go (rune_width s - 1) s')
      end
  end.

Definition SubjectToken (s : string) : string :=
  String.substring 0 subjectTokenMaxLen (token_go 0 s).

Definition JournalSubject (runID stepID : string) : outcome string :=
  panic_if (empty_str runID) "JournalSubject: runID must not be empty";;
  panic_if (contains_any ["."; " "; "009"; "*"; ">"]%char runID)
    "JournalSubject: runID must not contain NATS subject metacharacters";;
  Ret ("journal." +:+ runID +:+ "." +:+ SubjectToken stepID).

(** ** Records *)

Definition TypeClaim : string := "claim".
Definition TypePause : string := "pause".
Definition TypeCommit : string := "commit".
Definition TypeEntry : string := "entry".
Definition TypeModelResponse : string := "model.response".
Definition TypeToolIntent : string := "tool.intent".
Definition TypeToolResult : string := "tool.result".
Definition TypeInputPlaced : string := "input.placed".

Definition ActionContinue : string := "continue".
Definition ActionComplete : string := "complete".
Definition ActionFail : string := "fail".

Definition HeaderType : string := "Dagnats-Journal-Type".
Definition HeaderIteration : string := "Dagnats-Journal-Iteration".
Definition HeaderAttempt : string := "Dagnats-Journal-Attempt".
Definition HeaderIndex : string := "Dagnats-Journal-Index".
Definition HeaderDelivered : string := "Dagnats-Journal-Delivered".
Definition HeaderStreamSeq : string := "Dagnats-Journal-Stream-Seq".
Definition HeaderNonce : string := "Dagnats-Dispatch-Nonce".
Definition headerExpectedLastSeq : string := "Nats-Expected-Last-Subject-Sequence".
Definition headerMsgID : string := "Nats-Msg-Id".

Definition appendRetryMax : nat := 8.
Definition recordsMax : Z := 10000.
Definition resyncBackoff : Z := 10 * Millisecond.
Definition callsMax : Z := recordsMax.

Definition ErrStale : error :=
  Errorf "journal: task is stale, a later iteration holds the step" [].
Definition ErrFenced : error := Errorf "journal: fenced by another claim" [].
Definition ErrCommitted : error :=
  Errorf "journal: iteration already committed by this attempt" [].
Definition ErrNotProvisioned : error :=
  Errorf "journal: AGENT_JOURNAL stream not provisioned — ensure natsutil.SetupAll() has been called or start the server with 'dagnats serve'" [].
Definition ErrReplayMismatch : error :=
  Errorf "journal: tool call does not match the recorded call" [].

Record Task : Type := MkTask {
  tk_RunID : string;
  tk_StepID : string;
  tk_Iteration : Z;
  tk_Attempt : Z;
  tk_DispatchNonce : string;
  tk_Delivered : Z;
  tk_StreamSeq : N;
}.

Record Record_ : Type := MkRecord_ {
  rc_Seq : N;
  rc_Type : string;
  rc_Iteration : Z;
  rc_Attempt : Z;
  rc_DispatchNonce : string;
  rc_Delivered : Z;
  rc_StreamSeq : N;
  rc_Index : Z;
  rc_Time : Time;
  rc_Data : raw;
}.

Definition sameClaim (r : Record_) (task : Task) : bool :=
  bool_decide (rc_Iteration r = tk_Iteration task ∧ rc_Attempt r = tk_Attempt task ∧
    rc_DispatchNonce r = tk_DispatchNonce task ∧ rc_Delivered r = tk_Delivered task ∧
    rc_StreamSeq r = tk_StreamSeq task).

Definition olderDeliveryClaim (r : Record_) (task : Task) : outcome bool :=
  panic_if (tk_Delivered task <? 1) "olderDeliveryClaim: delivered must be >= 1";;
  panic_if (rc_Seq r =? 0)%N "olderDeliveryClaim: record must have a sequence";;
  Ret (bool_decide (rc_Type r = TypeClaim) && negb (tk_StreamSeq task =? 0)%N &&
       (rc_StreamSeq r =? tk_StreamSeq task)%N && (rc_Delivered r <? tk_Delivered task)).

(** The stable deduplication key of a record. *)
Definition MsgID (task : Task) (index : Z) : outcome string :=
  panic_if (empty_str (tk_RunID task) || empty_str (tk_StepID task))
    "MsgID: run and step must not be empty";;
  panic_if ((index <? 0) || (tk_Delivered task <? 1))
    "MsgID: index must not be negative and delivered must be >= 1";;
  Ret (tk_RunID task +:+ "." +:+ tk_StepID task +:+ "." +:+ pretty (tk_Attempt task) +:+
       "." +:+ pretty (tk_Iteration task) +:+ "." +:+ pretty (Z.of_N (tk_StreamSeq task)) +:+
       "." +:+ pretty (tk_Delivered task) +:+ "." +:+ pretty index).

(** ** Messages *)

Record jmsg : Type := MkJmsg {
  jm_Subject : string;
  jm_Header : list (string * string);
  jm_Data : raw;
}.

(** A stored message, with its sequence and the server's timestamp. *)
Record jentry : Type := MkJentry {
  je_Seq : N;
  je_Time : Time;
  je_Msg : jmsg;
}.

Definition hdr_get (hdr : list (string * string)) (key : string) : string :=
  default "" (snd <$> find_first (λ '(k, _), bool_decide (k = key)) hdr).

Definition headerInt (hdr : list (string * string)) (key : string) : Z :=
  match Atoi (hdr_get hdr key) with
  | Some n => if n <? 0 then -1 else n
  | None => -1
  end.

(** [strconv.ParseUint(s, 10, 64)] *)
Definition uint64_max : Z := 18446744073709551615.
Definition ParseUint (s : string) : option N :=
  if empty_str s || negb (str_forallb is_digit s) then None
  else if digits_val s <=? uint64_max then Some (Z.to_N (digits_val s)) else None.

Definition headerUint (hdr : list (string * string)) (key : string) : N :=
  default 0%N (ParseUint (hdr_get hdr key)).

Definition recordMessage (task : Task) (recordType : string) (index : Z) (expected : N)
    (data : raw) : outcome jmsg :=
  panic_if (empty_str recordType) "recordMessage: recordType must not be empty";;
  panic_if (index <? 0) "recordMessage: index must not be negative";;
  subject ← JournalSubject (tk_RunID task) (tk_StepID task);
  msgID ← MsgID task index;
  Ret (MkJmsg subject
    [(headerMsgID, msgID);
     (headerExpectedLastSeq, pretty (Z.of_N expected));
     (HeaderType, recordType);
     (HeaderIteration, pretty (tk_Iteration task));
     (HeaderAttempt, pretty (tk_Attempt task));
     (HeaderIndex, pretty index);
     (HeaderDelivered, pretty (tk_Delivered task));
     (HeaderStreamSeq, pretty (Z.of_N (tk_StreamSeq task)));
     (HeaderNonce, tk_DispatchNonce task)] data).

Definition decodeRecord (seq : N) (hdr : list (string * string)) (data : raw) (at_ : Time)
    : outcome Record_ :=
  panic_if (seq =? 0)%N "decodeRecord: seq must be positive";;
  Ret (MkRecord_ seq (hdr_get hdr HeaderType) (headerInt hdr HeaderIteration)
         (headerInt hdr HeaderAttempt) (hdr_get hdr HeaderNonce) (headerInt hdr HeaderDelivered)
         (headerUint hdr HeaderStreamSeq) (headerInt hdr HeaderIndex) at_ data).

Definition decode_entry (e : jentry) : outcome Record_ :=
  decodeRecord (je_Seq e) (jm_Header (je_Msg e)) (jm_Data (je_Msg e)) (je_Time e).

(** ** Bodies *)

Record Commit : Type := MkCommit {
  cm_Action : string;
  cm_Output : option raw;
  cm_State : option string;
  cm_Error : string;
  cm_FailureType : string;
  cm_RetryAfterMs : Z;
  cm_Wait : option ContinueWait;
}.

Record ToolCall : Type := MkToolCall {
  tc_Name : string;
  tc_Input : option raw;
  tc_Call : Z;
  tc_Key : string;
}.

Definition Safe : string := "safe".
Definition Unsafe : string := "unsafe".
Definition ErrInterrupted : string := "interrupted".

Record ToolIntent : Type := MkToolIntent {
  ti_call : ToolCall;
  ti_Replay : string;
}.

Record ToolResult : Type := MkToolResult {
  tr_Call : Z;
  tr_Key : string;
  tr_Output : option raw;
  tr_Error : string;
  tr_Interrupted : bool;
  tr_Partial : option raw;
}.

Record ModelResponse : Type := MkModelResponse {
  mr_Call : Z;
  mr_Output : option raw;
}.

Record InputPlaced : Type := MkInputPlaced {
  ip_RequestID : string;
  ip_Mode : string;
  ip_Content : option raw;
  ip_Iteration : Z;
}.

(** Fields with [omitempty]; a raw message that is not JSON fails to marshal. *)
Definition enc_raw (name : string) (r : option raw) : outcome (list (string * json)) :=
  if raw_len0 r then Ret []
  else match r with
       | Some (RawJson v) => Ret [(name, v)]
       | _ => Err (Errorf "json: error calling MarshalJSON for type json.RawMessage" [])
       end.
Definition enc_str (name s : string) : list (string * json) :=
  if empty_str s then [] else [(name, JStr s)].
Definition enc_int (name : string) (z : Z) : list (string * json) :=
  if z =? 0 then [] else [(name, JInt z)].
Definition enc_bool (name : string) (b : bool) : list (string * json) :=
  if b then [(name, JBool true)] else [].

Definition marshal_ToolIntent (i : ToolIntent) : outcome raw :=
  input ← enc_raw "input" (tc_Input (ti_call i));
  Ret (RawJson (JObj ([("name", JStr (tc_Name (ti_call i)))] ++ input ++
    [("call", JInt (tc_Call (ti_call i))); ("key", JStr (tc_Key (ti_call i)));
     ("replay", JStr (ti_Replay i))]))).

Definition unmarshal_ToolIntent : raw → outcome ToolIntent :=
  unmarshal_struct (MkToolIntent (MkToolCall "" None 0 "") "") (λ fs,
    name ← dec_field dec_string "name" "" fs;
    input ← dec_field dec_raw "input" None fs;
    call ← dec_field dec_int "call" 0 fs;
    key ← dec_field dec_string "key" "" fs;
    replay ← dec_field dec_string "replay" "" fs;
    Ret (MkToolIntent (MkToolCall name input call key) replay)).

Definition marshal_ToolResult (r : ToolResult) : outcome raw :=
  output ← enc_raw "output" (tr_Output r);
  partial ← enc_raw "partial" (tr_Partial r);
  Ret (RawJson (JObj ([("call", JInt (tr_Call r)); ("key", JStr (tr_Key r))] ++ output ++
    enc_str "error" (tr_Error r) ++ enc_bool "interrupted" (tr_Interrupted r) ++ partial))).

Definition unmarshal_ToolResult : raw → outcome ToolResult :=
  unmarshal_struct (MkToolResult 0 "" None "" false None) (λ fs,
    call ← dec_field dec_int "call" 0 fs;
    key ← dec_field dec_string "key" "" fs;
    output ← dec_field dec_raw "output" None fs;
    err ← dec_field dec_string "error" "" fs;
    interrupted ← dec_field dec_bool "interrupted" false fs;
    partial ← dec_field dec_raw "partial" None fs;
    Ret (MkToolResult call key output err interrupted partial)).

Definition marshal_ModelResponse (m : ModelResponse) : outcome raw :=
  output ← enc_raw "output" (mr_Output m);
  Ret (RawJson (JObj ([("call", JInt (mr_Call m))] ++ output))).

Definition unmarshal_ModelResponse : raw → outcome ModelResponse :=
  unmarshal_struct (MkModelResponse 0 None) (λ fs,
    call ← dec_field dec_int "call" 0 fs;
    output ← dec_field dec_raw "output" None fs;
    Ret (MkModelResponse call output)).

Definition marshal_InputPlaced (p : InputPlaced) : outcome raw :=
  content ← enc_raw "content" (ip_Content p);
  Ret (RawJson (JObj ([("request_id", JStr (ip_RequestID p)); ("mode", JStr (ip_Mode p))] ++ content))).

Definition unmarshal_InputPlaced : raw → outcome InputPlaced :=
  unmarshal_struct (MkInputPlaced "" "" None 0) (λ fs,
    id ← dec_field dec_string "request_id" "" fs;
    mode ← dec_field dec_string "mode" "" fs;
    content ← dec_field dec_raw "content" None fs;
    Ret (MkInputPlaced id mode content 0)).

Definition marshal_Claim (task : Task) : raw :=
  RawJson (JObj ([("iteration", JInt (tk_Iteration task)); ("attempt", JInt (tk_Attempt task))] ++
    enc_str "dispatch_nonce" (tk_DispatchNonce task) ++
    [("delivered", JInt (tk_Delivered task))] ++
    enc_int "stream_seq" (Z.of_N (tk_StreamSeq task)))).

Definition marshal_Pause (name : string) (durationMs : Z) : raw :=
  RawJson (JObj [("name", JStr name); ("duration_ms", JInt durationMs)]).

Definition unmarshal_Pause : raw → outcome string :=
  unmarshal_struct "" (λ fs,
    name ← dec_field dec_string "name" "" fs;
    _ ← dec_field dec_int "duration_ms" 0 fs;
    Ret name).

(** ** The struct *)

Record Journal : Type := MkJournal {
  jn_task : Task;
  jn_seq : N;
  jn_next : Z;
  jn_fenced : bool;
  jn_done : bool;
  jn_state : option string;
  jn_records : list Record_;
  jn_committed : option Commit;
  jn_committedSeq : N;
  jn_resume : string;
  jn_lastCommitSeq : N;
  jn_restarts : Z;
  jn_toolCalls : Z;
  jn_modelCalls : Z;
  jn_heldPositions : gset Z;
  jn_honoured : gset N;
  jn_placed : list InputPlaced;
}.

Definition jn_set_seq (x : N) (j : Journal) : Journal :=
  MkJournal
    (jn_task j) x (jn_next j) (jn_fenced j) (jn_done j) (jn_state j) (jn_records j)
    (jn_committed j) (jn_committedSeq j) (jn_resume j) (jn_lastCommitSeq j) (jn_restarts j)
    (jn_toolCalls j) (jn_modelCalls j) (jn_heldPositions j) (jn_honoured j) (jn_placed j).
Definition jn_set_next (x : Z) (j : Journal) : Journal :=
  MkJournal
    (jn_task j) (jn_seq j) x (jn_fenced j) (jn_done j) (jn_state j) (jn_records j)
    (jn_committed j) (jn_committedSeq j) (jn_resume j) (jn_lastCommitSeq j) (jn_restarts j)
    (jn_toolCalls j) (jn_modelCalls j) (jn_heldPositions j) (jn_honoured j) (jn_placed j).
Definition jn_set_fenced (x : bool) (j : Journal) : Journal :=
  MkJournal
    (jn_task j) (jn_seq j) (jn_next j) x (jn_done j) (jn_state j) (jn_records j)
    (jn_committed j) (jn_committedSeq j) (jn_resume j) (jn_lastCommitSeq j) (jn_restarts j)
    (jn_toolCalls j) (jn_modelCalls j) (jn_heldPositions j) (jn_honoured j) (jn_placed j).
Definition jn_set_done (x : bool) (j : Journal) : Journal :=
  MkJournal
    (jn_task j) (jn_seq j) (jn_next j) (jn_fenced j) x (jn_state j) (jn_records j)
    (jn_committed j) (jn_committedSeq j) (jn_resume j) (jn_lastCommitSeq j) (jn_restarts j)
    (jn_toolCalls j) (jn_modelCalls j) (jn_heldPositions j) (jn_honoured j) (jn_placed j).
Definition jn_set_toolCalls (x : Z) (j : Journal) : Journal :=
  MkJournal
    (jn_task j) (jn_seq j) (jn_next j) (jn_fenced j) (jn_done j) (jn_state j) (jn_records j)
    (jn_committed j) (jn_committedSeq j) (jn_resume j) (jn_lastCommitSeq j) (jn_restarts j)
    x (jn_modelCalls j) (jn_heldPositions j) (jn_honoured j) (jn_placed j).
Definition jn_set_modelCalls (x : Z) (j : Journal) : Journal :=
  MkJournal
    (jn_task j) (jn_seq j) (jn_next j) (jn_fenced j) (jn_done j) (jn_state j) (jn_records j)
    (jn_committed j) (jn_committedSeq j) (jn_resume j) (jn_lastCommitSeq j) (jn_restarts j)
    (jn_toolCalls j) x (jn_heldPositions j) (jn_honoured j) (jn_placed j).
Definition jn_set_honoured (x : gset N) (j : Journal) : Journal :=
  MkJournal
    (jn_task j) (jn_seq j) (jn_next j) (jn_fenced j) (jn_done j) (jn_state j) (jn_records j)
    (jn_committed j) (jn_committedSeq j) (jn_resume j) (jn_lastCommitSeq j) (jn_restarts j)
    (jn_toolCalls j) (jn_modelCalls j) (jn_heldPositions j) x (jn_placed j).
Definition jn_set_placed (x : list InputPlaced) (j : Journal) : Journal :=
  MkJournal
    (jn_task j) (jn_seq j) (jn_next j) (jn_fenced j) (jn_done j) (jn_state j) (jn_records j)
    (jn_committed j) (jn_committedSeq j) (jn_resume j) (jn_lastCommitSeq j) (jn_restarts j)
    (jn_toolCalls j) (jn_modelCalls j) (jn_heldPositions j) (jn_honoured j) x.
Definition jn_set_heldPositions (x : gset Z) (j : Journal) : Journal :=
  MkJournal
    (jn_task j) (jn_seq j) (jn_next j) (jn_fenced j) (jn_done j) (jn_state j) (jn_records j)
    (jn_committed j) (jn_committedSeq j) (jn_resume j) (jn_lastCommitSeq j) (jn_restarts j)
    (jn_toolCalls j) (jn_modelCalls j) x (jn_honoured j) (jn_placed j).
Definition jn_set_committed (c : Commit) (seq : N) (j : Journal) : Journal :=
  MkJournal
    (jn_task j) (jn_seq j) (jn_next j) (jn_fenced j) true (jn_state j) (jn_records j) (Some
    c) seq (jn_resume j) (jn_lastCommitSeq j) (jn_restarts j) (jn_toolCalls j)
    (jn_modelCalls j) (jn_heldPositions j) (jn_honoured j) (jn_placed j).

(** ** Calls *)

Inductive js_error : Type :=
  | JsNoResponders
  | JsTimeout
  | JsMsgNotFound
  | JsStreamNotFound
  | JsApi (code : Z)
  | JsFailed (desc : string).

Definition js_err (e : js_error) : error :=
  match e with
  | JsNoResponders => Errorf "nats: no responders available for request" []
  | JsTimeout => Errorf "nats: timeout" []
  | JsMsgNotFound => Errorf "nats: message not found" []
  | JsStreamNotFound => Errorf "nats: stream not found" []
  | JsApi code => Errorf "nats: API error: code=%d" [AInt code]
  | JsFailed desc => Errorf desc []
  end.

(** [JRun] is the start of a tool function, [JAsk] one request to the model and
    [JWait] a wait that reports whether the context is still alive. *)
Inductive journalE : Type → Type :=
  | JStream : journalE (option js_error)
  | JPublish (m : jmsg) : journalE (js_error + N)
  | JLast (subject : string) : journalE (js_error + jentry)
  | JFetch (subject : string) (tailSeq : N) : journalE (js_error + list jentry)
  | JSleep (d : Z) : journalE unit
  | JWait (d : Z) : journalE bool
  | JRun (key replay : string) : journalE unit
  | JAsk (call : Z) : journalE (error + option raw).

Definition JSErrCodeStreamWrongLastSequence : Z := 10071.
Definition errCodeWrongLastSequenceInProcess : Z := 10164.
Definition errCodeJetStreamUnavailable : Z := 10008.

Definition wrongLastSequence (e : js_error) : bool :=
  match e with
  | JsApi code => (code =? JSErrCodeStreamWrongLastSequence) ||
                  (code =? errCodeWrongLastSequenceInProcess)
  | _ => false
  end.

Definition isTransientRead (e : js_error) : bool :=
  match e with
  | JsNoResponders | JsTimeout => true
  | JsApi code => code =? errCodeJetStreamUnavailable
  | _ => false
  end.

Definition transientReadMax : nat := 6.
Definition transientReadBackoff : Z := 250 * Millisecond.

(** [left] attempts remain, the next one is number [attempt]. *)
Fixpoint retryTransient {A} (left : nat) (attempt : Z) (op : prog journalE (js_error + A))
    : prog journalE (js_error + A) :=
  match left with
  | O => Done (inl JsTimeout)
  | S left' =>
      r ⇐ op;
      match r with
      | inr a => Done (inr a)
      | inl e =>
          if negb (isTransientRead e) then Done (inl e)
          else
            alive ⇐ call (JWait (attempt * transientReadBackoff));
            match left' with
            | O => Done (inl e)
            | S _ => if (alive : bool) then retryTransient left' (attempt + 1) op else Done (inl e)
            end
      end
  end.

(** ** Operations thread the struct *)

Definition jprog (A : Type) : Type := Journal → prog journalE (Journal * outcome A).

#[global] Instance jprog_mret : MRet jprog := λ A a j, Done (j, Ret a).
#[global] Instance jprog_mbind : MBind jprog := λ A B f m j,
  r ⇐ m j;
  match r.2 with
  | Ret a => f a r.1
  | Err e => Done (r.1, Err e)
  | Panic s => Done (r.1, Panic s)
  end.

Definition j_get : jprog Journal := λ j, Done (j, Ret j).
Definition j_modify (f : Journal → Journal) : jprog unit := λ j, Done (f j, Ret tt).
Definition j_of {A} (o : outcome A) : jprog A := λ j, Done (j, o).
Definition j_call {R} (e : journalE R) : jprog R := λ j, r ⇐ call e; Done (j, Ret r).
Definition j_prog {A} (p : prog journalE A) : jprog A := λ j, r ⇐ p; Done (j, Ret r).

(** ** Reading *)

(** The zero record of an empty subject. *)
Definition zero_Record : Record_ := MkRecord_ 0 "" 0 0 "" 0 0 0 zero_time (RawBad "").

(** The newest record with its message ID. *)
Definition readTail (task : Task) : io journalE (Record_ * string) :=
  subject ← io_of (JournalSubject (tk_RunID task) (tk_StepID task));
  r ⇐ retryTransient transientReadMax 1 (call (JLast subject));
  Done (match r with
        | inl JsMsgNotFound => Ret (zero_Record, "")
        | inl e => Err (Errorf "journal: read tail: %w" [AErr (js_err e)])
        | inr e =>
            rec ← decode_entry e;
            Ret (rec, hdr_get (jm_Header (je_Msg e)) headerMsgID)
        end).

Definition readSubject (runID stepID : string) (tailSeq : N) : io journalE (list Record_) :=
  io_of (panic_if (tailSeq =? 0)%N "readSubject: tailSeq must be positive") ≫= λ _,
  subject ← io_of (JournalSubject runID stepID);
  r ⇐ retryTransient transientReadMax 1 (call (JFetch subject tailSeq));
  Done (match r with
        | inl e => Err (js_err e)
        | inr es => mapM_outcome decode_entry es
        end).

Definition readUpTo (task : Task) (tailSeq : N) : io journalE (list Record_) :=
  if (tailSeq =? 0)%N then Done (Ret []) else readSubject (tk_RunID task) (tk_StepID task) tailSeq.

(** ** Appending *)

Definition advance (seq : N) : jprog N :=
  j_of (panic_if (seq =? 0)%N "journal.advance: seq must be positive") ≫= λ _,
  j ← j_get;
  j_of (panic_if (jn_next j <? 0) "journal.advance: next must not be negative") ≫= λ _,
  if (seq <? jn_seq j)%N then
    j_modify (jn_set_fenced true) ≫= λ _, j_of (Err ErrFenced)
  else
    j_modify (λ j, jn_set_next (jn_next j + 1) (jn_set_seq seq j)) ≫= λ _, mret seq.

Definition j_tail : jprog (Record_ * string) := λ j,
  r ⇐ readTail (jn_task j); Done (j, r).

Fixpoint append_loop (left : nat) (try : Z) (recordType : string) (data : raw) (msgID : string)
    (expected : N) : jprog N :=
  match left with
  | O => j_of (Err (Errorf "journal: append %s: %d resyncs without landing"
                      [AStr recordType; AInt (Z.of_nat appendRetryMax)]))
  | S left' =>
      j ← j_get;
      msg ← j_of (recordMessage (jn_task j) recordType (jn_next j) expected data);
      r ← j_call (JPublish msg);
      match r with
      | inr seq => advance seq
      | inl e =>
          if negb (wrongLastSequence e)
          then j_of (Err (Errorf "journal: append %s: %w" [AStr recordType; AErr (js_err e)]))
          else
            '(tail, tailID) ← j_tail;
            if ((rc_Seq tail =? expected)%N || (rc_Seq tail =? 0)%N) then
              j_call (JSleep (resyncBackoff * (try + 1))) ≫= λ _,
              append_loop left' (try + 1) recordType data msgID (rc_Seq tail)
            else if bool_decide (tailID = msgID) then advance (rc_Seq tail)
            else if sameClaim tail (jn_task j) || (rc_Iteration tail <? tk_Iteration (jn_task j)) then
              append_loop left' (try + 1) recordType data msgID (rc_Seq tail)
            else
              older ← j_of (olderDeliveryClaim tail (jn_task j));
              if (older : bool)
              then append_loop left' (try + 1) recordType data msgID (rc_Seq tail)
              else j_modify (jn_set_fenced true) ≫= λ _, j_of (Err ErrFenced)
      end
  end.

Definition append (recordType : string) (data : raw) : jprog N :=
  j ← j_get;
  j_of (panic_if (jn_next j <? 0) "journal.append: next must not be negative") ≫= λ _,
  if jn_fenced j then j_of (Err ErrFenced)
  else if jn_done j then j_of (Err ErrCommitted)
  else
    msgID ← j_of (MsgID (jn_task j) (jn_next j));
    append_loop appendRetryMax 0 recordType data msgID (jn_seq j).

Definition resync : jprog unit :=
  j ← j_get;
  if jn_fenced j then j_of (Err ErrFenced)
  else
    '(tail, _) ← j_tail;
    if ((rc_Seq tail =? jn_seq j)%N || (rc_Iteration tail <? tk_Iteration (jn_task j))) then mret tt
    else if sameClaim tail (jn_task j) then j_modify (jn_set_seq (rc_Seq tail))
    else j_modify (jn_set_fenced true) ≫= λ _, j_of (Err ErrFenced).

Definition Resync : jprog unit :=
  j ← j_get;
  j_of (panic_if (tk_Delivered (jn_task j) <? 1) "journal.Resync: journal must hold a claim") ≫= λ _,
  resync.

(** ** Comparing calls *)

(** The value [json.Marshal] renders after decoding into [any]: numbers as
    float64, keys sorted and once. *)
Inductive canon : Type :=
  | CNull
  | CBool (b : bool)
  | CNum (x : option f64)
  | CStr (s : string)
  | CArr (l : list canon)
  | CObj (fs : list (string * canon)).

Fixpoint canonical (v : json) : canon :=
  match v with
  | JNull => CNull
  | JBool b => CBool b
  | JInt z => CNum (Some (f64_of_Z z))
  | JDec m e => CNum (f64_of_dec m e)
  | JStr s => CStr s
  | JArr l => CArr (canonical <$> l)
  | JObj fs =>
      CObj (map_to_list (foldl (λ (m : gmap string canon) '(k, c), <[k := c]> m) ∅
                          ((λ '(k, w), (k, canonical w)) <$> fs)))
  end.

#[global] Instance f64_eq_dec : EqDecision f64.
Proof. unfold f64. solve_decision. Defined.

#[global] Instance canon_eq_dec : EqDecision canon.
Proof.
  unfold EqDecision, RelDecision. fix go 1. intros c d.
  destruct c as [|b|x|s|l|fs], d as [|b'|x'|s'|l'|fs']; try (right; discriminate).
  - by left.
  - destruct (decide (b = b')) as [->|]; [by left|right; congruence].
  - destruct (decide (x = x')) as [->|]; [by left|right; congruence].
  - destruct (decide (s = s')) as [->|]; [by left|right; congruence].
  - assert (Decision (l = l')) as [->|]; [|by left|right; congruence].
    revert l'. induction l as [|c l IH]; intros [|d l']; [by left|by right|by right|].
    destruct (go c d) as [->|]; [|right; congruence].
    destruct (IH l') as [->|]; [by left|right; congruence].
  - assert (Decision (fs = fs')) as [->|]; [|by left|right; congruence].
    revert fs'. induction fs as [|[k c] fs IH]; intros [|[k' d] fs']; [by left|by right|by right|].
    destruct (decide (k = k')) as [->|]; [|right; congruence].
    destruct (go c d) as [->|]; [|right; congruence].
    destruct (IH fs') as [->|]; [by left|right; congruence].
Defined.

(** The encodings of byte strings and times that [encoding/json] writes. *)
Record encoders : Type := MkEncoders {
  en_base64 : string → string;
  en_time : Time → string;
}.

Section Ops.
Context (h : host) (enc : encoders).

(** A rendered document, or text that is not one: the two never coincide. *)
Definition canonicalJSON (input : option raw) : string + canon :=
  match input with
  | None => inl ""
  | Some (RawBad text) => if empty_str (TrimSpace text) then inl "" else inl text
  | Some (RawJson v) =>
      match unmarshal_any (RawJson v) with
      | Ret v => inr (canonical v)
      | _ => inl (h_bytes h (RawJson v))
      end
  end.

Definition sameCall (recorded current : ToolCall) : outcome bool :=
  panic_if (empty_str (tc_Name recorded) || empty_str (tc_Name current))
    "sameCall: calls must be named";;
  Ret (bool_decide (tc_Name recorded = tc_Name current ∧
    canonicalJSON (tc_Input recorded) = canonicalJSON (tc_Input current))).

(** ** Commits *)

Definition enc_wait (w : option ContinueWait) : list (string * json) :=
  match w with
  | None => []
  | Some w =>
      [("wait", JObj (enc_int "delay_ms" (cw_DelayMs w) ++
         match cw_Until w with Some t => [("until", JStr (en_time enc t))] | None => [] end ++
         enc_bool "input" (cw_Input w)))]
  end.

Definition marshal_Commit (c : Commit) : outcome raw :=
  output ← enc_raw "output" (cm_Output c);
  Ret (RawJson (JObj ([("action", JStr (cm_Action c))] ++ output ++
    (if len_bytes (cm_State c) =? 0 then []
     else [("state", JStr (en_base64 enc (default "" (cm_State c))))]) ++
    enc_str "error" (cm_Error c) ++ enc_str "failure_type" (cm_FailureType c) ++
    enc_int "retry_after_ms" (cm_RetryAfterMs c) ++ enc_wait (cm_Wait c)))).

Definition unmarshal_Commit : raw → outcome Commit :=
  unmarshal_struct (MkCommit "" None None "" "" 0 None) (λ fs,
    action ← dec_field dec_string "action" "" fs;
    output ← dec_field dec_raw "output" None fs;
    state ← dec_field (dec_bytes h) "state" None fs;
    err ← dec_field dec_string "error" "" fs;
    failure ← dec_field dec_string "failure_type" "" fs;
    retry ← dec_field dec_int "retry_after_ms" 0 fs;
    wait ← dec_field (dec_wait h) "wait" None fs;
    Ret (MkCommit action output state err failure retry wait)).

Definition commitState (r : Record_) : outcome (option string) :=
  panic_if (negb (bool_decide (rc_Type r = TypeCommit))) "commitState: record must be a commit";;
  Ret (match unmarshal_Commit (rc_Data r) with Ret c => cm_State c | _ => None end).

Definition pauseName (r : Record_) : outcome string :=
  panic_if (negb (bool_decide (rc_Type r = TypePause))) "pauseName: record must be a pause";;
  Ret (match unmarshal_Pause (rc_Data r) with Ret name => name | _ => "" end).

Definition placedInput (r : Record_) : outcome (option InputPlaced) :=
  panic_if (negb (bool_decide (rc_Type r = TypeInputPlaced)))
    "placedInput: record must be an input.placed";;
  panic_if (rc_Seq r =? 0)%N "placedInput: record must have a sequence";;
  Ret (match unmarshal_InputPlaced (rc_Data r) with
       | Ret p =>
           if empty_str (ip_RequestID p) then None
           else Some (MkInputPlaced (ip_RequestID p) (ip_Mode p) (ip_Content p) (rc_Iteration r))
       | _ => None
       end).

(** ** Rebuilding *)

Definition priorAttempt (j : Journal) (r : Record_) : outcome bool :=
  panic_if (rc_Seq r =? 0)%N "priorAttempt: record must have a sequence";;
  panic_if (tk_Attempt (jn_task j) <? 1) "priorAttempt: attempt must be >= 1";;
  Ret ((rc_Seq r <=? jn_lastCommitSeq j)%N || (rc_Attempt r <? tk_Attempt (jn_task j))).

Definition records_bound (j : Journal) (who : string) : outcome unit :=
  panic_if (recordsMax <? Z.of_nat (length (jn_records j)))
    (who +:+ ": records exceed the read bound").

Fixpoint held_loop (j : Journal) (held : gset Z) (records : list Record_) : outcome (gset Z) :=
  match records with
  | [] => Ret held
  | r :: records' =>
      if negb (bool_decide (rc_Type r = TypeToolIntent)) then held_loop j held records'
      else
        prior ← priorAttempt j r;
        if negb prior then held_loop j held records'
        else match unmarshal_ToolIntent (rc_Data r) with
             | Ret intent =>
                 if bool_decide (ti_Replay intent = Unsafe)
                 then held_loop j ({[tc_Call (ti_call intent)]} ∪ held) records'
                 else held_loop j held records'
             | _ => held_loop j held records'
             end
  end.

Definition priorUnsafePositions (j : Journal) : outcome (gset Z) :=
  records_bound j "priorUnsafePositions";;
  held_loop j ∅ (jn_records j).

(** One record of [rebuild]. *)
Definition rebuild_step (j : Journal) (r : Record_) : outcome Journal :=
  let task := jn_task j in
  placed ← (if bool_decide (rc_Type r = TypeInputPlaced)
            then p ← placedInput r; Ret (jn_placed j ++ option_list p) else Ret (jn_placed j));
  if rc_Iteration r <? tk_Iteration task then
    state ← (if bool_decide (rc_Type r = TypeCommit) then commitState r else Ret (jn_state j));
    Ret (MkJournal task (jn_seq j) (jn_next j) (jn_fenced j) (jn_done j) state (jn_records j)
           (jn_committed j) (jn_committedSeq j) (jn_resume j) (jn_lastCommitSeq j) (jn_restarts j)
           (jn_toolCalls j) (jn_modelCalls j) (jn_heldPositions j) (jn_honoured j) placed)
  else
    let restarts := if bool_decide (rc_Type r = TypeClaim) then jn_restarts j + 1 else 0 in
    resume ← (if bool_decide (rc_Type r = TypePause) then pauseName r else Ret "");
    let is_commit := bool_decide (rc_Type r = TypeCommit) in
    let own := if is_commit && (rc_Attempt r =? tk_Attempt task)
               then match unmarshal_Commit (rc_Data r) with Ret c => Some c | _ => None end
               else None in
    Ret (MkJournal task (jn_seq j) (jn_next j) (jn_fenced j) (jn_done j) (jn_state j)
           (jn_records j ++ [r])
           (match own with Some c => Some c | None => jn_committed j end)
           (match own with Some _ => rc_Seq r | None => jn_committedSeq j end)
           resume (if is_commit then rc_Seq r else jn_lastCommitSeq j) restarts
           (jn_toolCalls j) (jn_modelCalls j) (jn_heldPositions j) (jn_honoured j) placed).

Fixpoint rebuild_loop (j : Journal) (records : list Record_) : outcome Journal :=
  match records with
  | [] => Ret j
  | r :: records' => j' ← rebuild_step j r; rebuild_loop j' records'
  end.

Definition rebuild (j : Journal) (records : list Record_) : outcome Journal :=
  panic_if (recordsMax <? Z.of_nat (length records)) "journal.rebuild: records exceed the read bound";;
  panic_if (tk_Attempt (jn_task j) <? 1) "journal.rebuild: attempt must be >= 1";;
  let j0 := MkJournal (jn_task j) (jn_seq j) (jn_next j) (jn_fenced j) (jn_done j) None [] None
              (jn_committedSeq j) "" 0 0 (jn_toolCalls j) (jn_modelCalls j) (jn_heldPositions j)
              (jn_honoured j) [] in
  j ← rebuild_loop j0 records;
  held ← priorUnsafePositions j;
  Ret (jn_set_heldPositions held j).

(** ** Opening *)

Definition supersededDelivery (j : Journal) : outcome bool :=
  panic_if (tk_Delivered (jn_task j) <? 1) "supersededDelivery: delivered must be >= 1";;
  records_bound j "supersededDelivery";;
  Ret (negb (tk_StreamSeq (jn_task j) =? 0)%N &&
       existsb (λ r, bool_decide (rc_Type r = TypeClaim) &&
                     (rc_StreamSeq r =? tk_StreamSeq (jn_task j))%N &&
                     (tk_Delivered (jn_task j) <? rc_Delivered r)) (jn_records j)).

Definition zero_Journal (task : Task) : Journal :=
  MkJournal task 0 0 false false None [] None 0 "" 0 0 0 0 ∅ ∅ [].

Definition bind_stream : io journalE unit :=
  r ⇐ call JStream;
  Done (match r with
        | None => Ret tt
        | Some JsStreamNotFound => Err ErrNotProvisioned
        | Some e => Err (Errorf "journal: stream: %w" [AErr (js_err e)])
        end).

Definition Open (task : Task) : io journalE Journal :=
  io_of (panic_if (empty_str (tk_RunID task) || empty_str (tk_StepID task))
    "journal.Open: run and step must not be empty") ≫= λ _,
  io_of (panic_if ((tk_Iteration task <? 0) || (tk_Attempt task <? 1) || (tk_Delivered task <? 1))
    "journal.Open: iteration must be >= 0, attempt and delivered >= 1") ≫= λ _,
  bind_stream ≫= λ _,
  '(tail, _) ← readTail task;
  if (0 <? rc_Seq tail)%N && (tk_Iteration task <? rc_Iteration tail) then Done (Err ErrStale)
  else
    records ← readUpTo task (rc_Seq tail);
    j ← io_of (rebuild (zero_Journal task) records);
    let j := jn_set_seq (rc_Seq tail) j in
    match jn_committed j with
    | Some _ => Done (Ret (jn_set_done true j))
    | None =>
        superseded ← io_of (supersededDelivery j);
        if (superseded : bool) then Done (Err ErrFenced)
        else
          r ⇐ append TypeClaim (marshal_Claim task) j;
          Done (match r.2 with
                | Ret _ => Ret r.1
                | Err e => Err e
                | Panic s => Panic s
                end)
    end.

(** ** Operations of a holder *)

Definition Append (recordType : string) (data : raw) : jprog N :=
  j_of (panic_if (empty_str recordType) "journal.Append: recordType must not be empty") ≫= λ _,
  j_of (panic_if (bool_decide (recordType = TypeClaim ∨ recordType = TypeCommit))
    "journal.Append: claim and commit are written by Open and Commit") ≫= λ _,
  append recordType data.

Definition Pause (name : string) (duration : Z) : jprog N :=
  j_of (panic_if (empty_str name) "journal.Pause: name must not be empty") ≫= λ _,
  j_of (panic_if (duration <=? 0) "journal.Pause: duration must be positive") ≫= λ _,
  append TypePause (marshal_Pause name (Milliseconds duration)).

Definition commit_journal (c : Commit) : jprog N :=
  j_of (panic_if (negb (bool_decide (cm_Action c ∈ [ActionContinue; ActionComplete; ActionFail])))
    "journal.Commit: action must be continue, complete or fail") ≫= λ _,
  data ← j_of (wrap_err (λ e, Errorf "marshal commit: %w" [AErr e]) (marshal_Commit c));
  seq ← append TypeCommit data;
  j_modify (jn_set_committed c seq) ≫= λ _, mret seq.

Definition input_placed (j : Journal) (requestID : string) : outcome bool :=
  panic_if (empty_str requestID) "journal.InputPlaced: request id must not be empty";;
  panic_if (recordsMax <? Z.of_nat (length (jn_placed j)))
    "journal.InputPlaced: placements exceed the read bound";;
  Ret (existsb (λ p, bool_decide (ip_RequestID p = requestID)) (jn_placed j)).

Definition PlaceInput (p : InputPlaced) : jprog N :=
  j_of (panic_if (empty_str (ip_RequestID p)) "journal.PlaceInput: request id must not be empty") ≫= λ _,
  j ← j_get;
  already ← j_of (input_placed j (ip_RequestID p));
  j_of (panic_if already ("journal.PlaceInput: " +:+ ip_RequestID p +:+ " is already placed")) ≫= λ _,
  data ← j_of (wrap_err (λ e, Errorf "marshal input.placed: %w" [AErr e]) (marshal_InputPlaced p));
  seq ← append TypeInputPlaced data;
  j_modify (λ j, jn_set_placed (jn_placed j ++
    [MkInputPlaced (ip_RequestID p) (ip_Mode p) (ip_Content p) (tk_Iteration (jn_task j))]) j) ≫= λ _,
  mret seq.

(** ** Tools *)

(** What a tool function returns: its output and the text of its error. *)
Definition tool_out : Type := option raw * option string.

Fixpoint position_loop (fuel : nat) (held : gset Z) (position : Z) : Z :=
  match fuel with
  | O => position
  | S fuel' => if decide (position ∈ held) then position_loop fuel' held (position + 1) else position
  end.

Definition nextToolPosition (j : Journal) : outcome Z :=
  panic_if (jn_toolCalls j <? 0) "nextToolPosition: toolCalls must not be negative";;
  let held := jn_heldPositions j in
  panic_if (recordsMax <? Z.of_nat (size held))
    "nextToolPosition: more held positions than records";;
  let position := position_loop (size held) held (jn_toolCalls j) in
  panic_if (bool_decide (position ∈ held))
    "nextToolPosition: position is held by a prior unsafe intent";;
  Ret position.

Fixpoint prior_loop (j : Journal) (call : ToolCall) (records : list Record_)
    : outcome (option (ToolIntent * Record_)) :=
  match records with
  | [] => Ret None
  | r :: records' =>
      if negb (bool_decide (rc_Type r = TypeToolIntent)) then prior_loop j call records'
      else
        prior ← priorAttempt j r;
        if negb prior || bool_decide (rc_Seq r ∈ jn_honoured j) then prior_loop j call records'
        else match unmarshal_ToolIntent (rc_Data r) with
             | Ret intent =>
                 if negb (bool_decide (ti_Replay intent = Unsafe)) then prior_loop j call records'
                 else
                   same ← sameCall (ti_call intent) call;
                   if (same : bool) then Ret (Some (intent, r)) else prior_loop j call records'
             | _ => prior_loop j call records'
             end
  end.

Definition priorUnsafeIntent (j : Journal) (call : ToolCall)
    : outcome (option (ToolIntent * Record_)) :=
  panic_if (empty_str (tc_Name call)) "priorUnsafeIntent: call must be named";;
  records_bound j "priorUnsafeIntent";;
  prior_loop j call (jn_records j).

Fixpoint intent_loop (j : Journal) (call : Z) (found : option (ToolIntent * Record_))
    (records : list Record_) : outcome (option (ToolIntent * Record_)) :=
  match records with
  | [] => Ret found
  | r :: records' =>
      if negb (bool_decide (rc_Type r = TypeToolIntent)) then intent_loop j call found records'
      else
        prior ← priorAttempt j r;
        if (prior : bool) then intent_loop j call found records'
        else match unmarshal_ToolIntent (rc_Data r) with
             | Ret intent =>
                 if tc_Call (ti_call intent) =? call
                 then intent_loop j call (Some (intent, r)) records'
                 else intent_loop j call found records'
             | _ => intent_loop j call found records'
             end
  end.

Definition recordedToolIntent (j : Journal) (call : Z) : outcome (option (ToolIntent * Record_)) :=
  panic_if (call <? 0) "recordedToolIntent: call must not be negative";;
  records_bound j "recordedToolIntent";;
  intent_loop j call None (jn_records j).

Definition recordedToolResult (j : Journal) (call : Z) (intentSeq : N) : outcome (option ToolResult) :=
  panic_if ((call <? 0) || (intentSeq =? 0)%N)
    "recordedToolResult: call must not be negative and intentSeq must be positive";;
  records_bound j "recordedToolResult";;
  Ret (foldl (λ found r,
    if negb (bool_decide (rc_Type r = TypeToolResult)) || (rc_Seq r <=? intentSeq)%N then found
    else match unmarshal_ToolResult (rc_Data r) with
         | Ret result => if tr_Call result =? call then Some result else found
         | _ => found
         end) None (jn_records j)).

Definition taskOf (r : Record_) : outcome Task :=
  panic_if (rc_Seq r =? 0)%N "taskOf: record must have a sequence";;
  Ret (MkTask "-" "-" (rc_Iteration r) (rc_Attempt r) (rc_DispatchNonce r) (rc_Delivered r)
         (rc_StreamSeq r)).

Definition json_of (r : raw) : option json := match r with RawJson v => Some v | RawBad _ => None end.

Definition partialOutput (j : Journal) (intent : Record_) : outcome (option raw) :=
  panic_if (negb (bool_decide (rc_Type intent = TypeToolIntent)))
    "partialOutput: record must be a tool intent";;
  records_bound j "partialOutput";;
  holder ← taskOf intent;
  let entries := rc_Data <$> List.filter (λ r, bool_decide (rc_Type r = TypeEntry) &&
    (rc_Seq intent <? rc_Seq r)%N && sameClaim r holder) (jn_records j) in
  Ret (match entries with
       | [] => None
       | _ => (λ l, RawJson (JArr l)) <$> mapM json_of entries
       end).

Definition interruptedResult (call : ToolCall) (partial : option raw) : outcome ToolResult :=
  panic_if (empty_str (tc_Key call)) "interruptedResult: call must carry its key";;
  panic_if (tc_Call call <? 0) "interruptedResult: call must not be negative";;
  Ret (MkToolResult (tc_Call call) (tc_Key call) None ErrInterrupted true partial).

Definition appendToolResult (result : ToolResult) : jprog ToolResult :=
  j_of (panic_if ((tr_Call result <? 0) || empty_str (tr_Key result))
    "appendToolResult: result must carry its call and key") ≫= λ _,
  j_of (panic_if (tr_Interrupted result && empty_str (tr_Error result))
    "appendToolResult: an interrupted result must carry an error") ≫= λ _,
  data ← j_of (wrap_err (λ e, Errorf "marshal tool result: %w" [AErr e]) (marshal_ToolResult result));
  append TypeToolResult data ≫= λ _, mret result.

(** An output that is not JSON is an error and nothing is recorded. *)
Definition runTool (call : ToolCall) (fn : ToolCall → jprog tool_out) : jprog ToolResult :=
  j_of (panic_if (empty_str (tc_Key call)) "runTool: call must carry its key") ≫= λ _,
  '(output, err) ← fn call;
  if negb (raw_len0 output) && bool_decide (output ≫= json_of = None) then
    j_of (Err (Errorf "tool %q returned output that is not JSON; encode text with json.Marshal"
                 [AStr (tc_Name call)]))
  else appendToolResult (MkToolResult (tc_Call call) (tc_Key call) output (default "" err) false None).

Definition freshTool (call : ToolCall) (replay : string) (fn : ToolCall → jprog tool_out)
    : jprog ToolResult :=
  j_of (panic_if (empty_str (tc_Key call)) "freshTool: call must carry its key") ≫= λ _,
  data ← j_of (wrap_err (λ e, Errorf "marshal tool intent: %w" [AErr e])
                 (marshal_ToolIntent (MkToolIntent call replay)));
  append TypeToolIntent data ≫= λ _,
  j_modify (jn_set_toolCalls (tc_Call call + 1)) ≫= λ _,
  runTool call fn.

Definition honourPrior (intent : ToolIntent) (record : Record_) : jprog ToolResult :=
  j_of (panic_if (negb (bool_decide (ti_Replay intent = Unsafe)))
    "honourPrior: only unsafe intents are honoured") ≫= λ _,
  j_of (panic_if (rc_Seq record =? 0)%N "honourPrior: record must have a sequence") ≫= λ _,
  j_modify (λ j, jn_set_honoured ({[rc_Seq record]} ∪ jn_honoured j) j) ≫= λ _,
  j ← j_get;
  done ← j_of (recordedToolResult j (tc_Call (ti_call intent)) (rc_Seq record));
  match done with
  | Some result => mret result
  | None =>
      partial ← j_of (partialOutput j record);
      result ← j_of (interruptedResult (ti_call intent) partial);
      appendToolResult result
  end.

Definition tool_key (task : Task) (position : Z) : string :=
  tk_RunID task +:+ "." +:+ tk_StepID task +:+ "." +:+ pretty (tk_Iteration task) +:+ "." +:+
  pretty position.

Definition Tool (call : ToolCall) (replay : string) (fn : ToolCall → jprog tool_out)
    : jprog ToolResult :=
  j_of (panic_if (negb (bool_decide (replay = Safe ∨ replay = Unsafe)))
    "journal.Tool: replay must be Safe or Unsafe") ≫= λ _,
  j_of (panic_if (empty_str (tc_Name call)) "journal.Tool: fn and call.Name must not be empty") ≫= λ _,
  j ← j_get;
  position ← j_of (nextToolPosition j);
  if callsMax <=? position then
    j_of (Err (Errorf "journal: more than %d tool calls in one iteration" [AInt callsMax]))
  else
    let call := MkToolCall (tc_Name call) (tc_Input call) position (tool_key (jn_task j) position) in
    prior ← j_of (priorUnsafeIntent j call);
    match prior with
    | Some (intent, record) => honourPrior intent record
    | None =>
        found ← j_of (recordedToolIntent j position);
        match found with
        | None => freshTool call replay fn
        | Some (intent, recorded) =>
            same ← j_of (sameCall (ti_call intent) call);
            if negb same then
              let text input := AStr (h_bytes h (default (RawBad "") input)) in
              j_of (Err (Errorf "%w: call %d recorded as %s %s, now %s %s"
                [AErr ErrReplayMismatch; AInt position; AStr (tc_Name (ti_call intent));
                 text (tc_Input (ti_call intent)); AStr (tc_Name call); text (tc_Input call)]))
            else
              j_modify (jn_set_toolCalls (position + 1)) ≫= λ _,
              done ← j_of (recordedToolResult j position (rc_Seq recorded));
              match done with
              | Some result => mret result
              | None =>
                  if bool_decide (ti_Replay intent = Safe ∧ replay = Safe) then runTool call fn
                  else
                    partial ← j_of (partialOutput j recorded);
                    result ← j_of (interruptedResult (ti_call intent) partial);
                    appendToolResult result
              end
        end
    end.

(** ** The model *)

Fixpoint response_loop (j : Journal) (call : Z) (records : list Record_)
    : outcome (option (option raw)) :=
  match records with
  | [] => Ret None
  | r :: records' =>
      if negb (bool_decide (rc_Type r = TypeModelResponse)) then response_loop j call records'
      else
        prior ← priorAttempt j r;
        if (prior : bool) then response_loop j call records'
        else match unmarshal_ModelResponse (rc_Data r) with
             | Ret m => if mr_Call m =? call then Ret (Some (mr_Output m))
                        else response_loop j call records'
             | _ => response_loop j call records'
             end
  end.

Definition recordedModelResponse (j : Journal) (call : Z) : outcome (option (option raw)) :=
  panic_if (call <? 0) "recordedModelResponse: call must not be negative";;
  records_bound j "recordedModelResponse";;
  response_loop j call (jn_records j).

Definition Model : jprog (option raw) :=
  j ← j_get;
  if callsMax <=? jn_modelCalls j then
    j_of (Err (Errorf "journal: more than %d model calls in one iteration" [AInt callsMax]))
  else
    let call := jn_modelCalls j in
    let next := j_modify (λ j, jn_set_modelCalls (jn_modelCalls j + 1) j) in
    found ← j_of (recordedModelResponse j call);
    match found with
    | Some output => next ≫= λ _, mret output
    | None =>
        resync ≫= λ _,
        r ← j_call (JAsk call);
        match r with
        | inl e => j_of (Err e)
        | inr output =>
            data ← j_of (wrap_err (λ e, Errorf "marshal model response: %w" [AErr e])
                           (marshal_ModelResponse (MkModelResponse call output)));
            append TypeModelResponse data ≫= λ _, next ≫= λ _, mret output
        end
    end.

(** ** Handlers *)

(** What a handler does with its journal: operations, each followed by what the
    handler does with the result. *)
Inductive act (A : Type) : Type :=
  | AReturn (a : A)
  | AAppend (recordType : string) (data : raw) (k : outcome N → act A)
  | APause (name : string) (duration : Z) (k : outcome N → act A)
  | ACommit (c : Commit) (k : outcome N → act A)
  | APlace (p : InputPlaced) (k : outcome N → act A)
  | ATool (call : ToolCall) (replay : string) (fn : ToolCall → act tool_out)
      (k : outcome ToolResult → act A)
  | AModel (k : outcome (option raw) → act A)
  | AResync (k : outcome unit → act A).

(** An operation and what follows it; a panic ends the handler. *)
Definition j_then {A B} (m : jprog A) (k : outcome A → jprog B) : jprog B := λ j,
  r ⇐ m j;
  match r.2 with
  | Panic s => Done (r.1, Panic s)
  | o => k o r.1
  end.

Fixpoint run_act {A} (a : act A) : jprog A :=
  match a with
  | AReturn _ a => mret a
  | AAppend _ recordType data k => j_then (Append recordType data) (λ o, run_act (k o))
  | APause _ name duration k => j_then (Pause name duration) (λ o, run_act (k o))
  | ACommit _ c k => j_then (commit_journal c) (λ o, run_act (k o))
  | APlace _ p k => j_then (PlaceInput p) (λ o, run_act (k o))
  | ATool _ call replay fn k =>
      j_then (Tool call replay (λ c, j_call (JRun (tc_Key c) replay) ≫= λ _, run_act (fn c)))
        (λ o, run_act (k o))
  | AModel _ k => j_then Model (λ o, run_act (k o))
  | AResync _ k => j_then Resync (λ o, run_act (k o))
  end.

(** One delivery of a task: it opens the journal and runs its handler. *)
Definition holder {A} (task : Task) (handler : Journal → act A) : io journalE A :=
  j ← Open task;
  r ⇐ run_act (handler j) j;
  Done r.2.
End Ops.

Arguments AReturn {A} _.
Arguments AAppend {A} _ _ _.
Arguments APause {A} _ _ _.
Arguments ACommit {A} _ _.
Arguments APlace {A} _ _.
Arguments ATool {A} _ _ _ _.
Arguments AModel {A} _.
Arguments AResync {A} _.
