(* ===== verification/Submissions.v ===== *)
(** * Submissions of inputs (inputs/store.go, internal/natsutil
      submissions_bucket.go, internal/inputplace/place.go)

    An input sent to a running agent step is a submission in a key-value bucket:
    queued, then placed into the conversation and done, or unanswered when the
    step ends first; a queued one can be withdrawn.  Every change is a
    compare-and-set at the revision that was read.  The worker places inputs:
    it claims a submission, then appends an input.placed record to its journal,
    which is the truth about placement.

    A stored value is [VSub s], the JSON text that decodes to [s], or bytes that
    do not decode.  Reads go to the stream leader.  The expiry of the bucket and
    [Await], a long poll, are not modelled. *)

From S2P Require Import Prelude Float64 Json GoTime Types Keys Input Interleave Kv Slots RateLimiter Snapshot Lease Fence Planners Loops Starts Journal.
From stdpp Require Import sorting.

#[local] Open Scope Z_scope.

Definition ModeSteer : string := "steer".
Definition ModeFollowUp : string := "follow_up".

Definition StatusQueued : string := "queued".
Definition StatusPlaced : string := "placed".
Definition StatusDone : string := "done".
Definition StatusUnanswered : string := "unanswered".

Definition RequestIDMaxLen : nat := 128.
Definition ContentMaxBytes : Z := 256 * 1024.
Definition perStepMax : Z := 10000.

Definition ErrQueued : error := Errorf "inputs are queued; place them before waiting for input" [].
Definition ErrNotFound : error := Errorf "inputs: no such submission" [].
Definition ErrNotQueued : error := Errorf "inputs: submission is no longer queued" [].
Definition ErrConflict : error := Errorf "inputs: submission changed since it was read" [].
Definition ErrInvalidRequestID : error :=
  Errorf "inputs: request_id must be 1-128 characters of [A-Za-z0-9_-]" [].
Definition ErrInvalidMode : error := Errorf "inputs: mode must be steer or follow_up" [].
Definition ErrInvalidContent : error := Errorf "inputs: content must be JSON" [].
Definition ErrContentTooLarge : error :=
  Errorf "inputs: content must be at most %d bytes" [AInt ContentMaxBytes].

Record Submission : Type := MkSubmission {
  sb_RunID : string;
  sb_StepID : string;
  sb_RequestID : string;
  sb_Mode : string;
  sb_Content : option raw;
  sb_Status : string;
  sb_CreatedAt : Time;
  sb_UpdatedAt : Time;
  sb_Iteration : Z;
}.

(** A submission with the revision it was read at. *)
Record Entry : Type := MkSubEntry {
  se_sub : Submission;
  se_Revision : N;
}.

Inductive sval : Type :=
  | VSub (s : Submission)
  | VBad (bytes : string).

(** A content that is not JSON does not marshal. *)
Definition marshal_Submission (s : Submission) : outcome sval :=
  _ ← wrap_err (λ e, Errorf "inputs: marshal: %w" [AErr e]) (enc_raw "content" (sb_Content s));
  Ret (VSub s).

(** ** Keys *)

Definition SubmissionKey (runID stepID requestID : string) : outcome string :=
  panic_if (empty_str runID || empty_str stepID || empty_str requestID)
    "SubmissionKey: run, step and request id must not be empty";;
  panic_if (negb (bool_decide (SubjectToken requestID = requestID)))
    "SubmissionKey: requestID must be a validated subject token";;
  Ret (runID +:+ "." +:+ SubjectToken stepID +:+ "." +:+ requestID).

Definition SubmissionKeyPrefix (runID stepID : string) : outcome string :=
  panic_if (empty_str runID || empty_str stepID) "SubmissionKeyPrefix: run and step must not be empty";;
  panic_if (empty_str (SubjectToken stepID)) "SubmissionKeyPrefix: step must sanitise to a non-empty token";;
  Ret (runID +:+ "." +:+ SubjectToken stepID).

Definition ValidateRequestID (id : string) : outcome unit :=
  fail_if (empty_str id || bool_decide (RequestIDMaxLen < String.length id)%nat ||
           negb (bool_decide (SubjectToken id = id))) ErrInvalidRequestID.

(** ** Calls *)

Definition subE : Type → Type := sumE (kvE sval) clockE.

Definition sub_kv {R} (e : kvE sval R) : prog subE R := call (CallL e).
Definition sub_now : io subE Time := t ⇐ call (CallR ClockNow); Done (Ret t).

(** A compare-and-set that was rejected. *)
Definition rejected (e : kv_error) : bool :=
  match e with ErrKeyExists | ErrKeyRevisionMismatch => true | _ => false end.

Definition sb_set (status : string) (updated : Time) (iteration : Z) (s : Submission) : Submission :=
  MkSubmission (sb_RunID s) (sb_StepID s) (sb_RequestID s) (sb_Mode s) (sb_Content s) status
    (sb_CreatedAt s) updated iteration.

Section Store.
Context (h : host).

Definition Submission_Validate (s : Submission) : outcome unit :=
  panic_if (empty_str (sb_RunID s) || empty_str (sb_StepID s))
    "Submission.Validate: run and step must not be empty";;
  ValidateRequestID (sb_RequestID s);;
  fail_if (negb (bool_decide (sb_Mode s = ModeSteer ∨ sb_Mode s = ModeFollowUp))) ErrInvalidMode;;
  fail_if (match sb_Content s with Some (RawJson _) => false | _ => true end) ErrInvalidContent;;
  fail_if (ContentMaxBytes <? Z.of_nat (String.length (h_bytes h (default (RawBad "") (sb_Content s)))))
    ErrContentTooLarge.

Definition decodeEntry (key : string) (e : entry sval) : outcome Entry :=
  panic_if (ent_revision e =? 0)%N "decodeEntry: revision must be positive";;
  match ent_value e with
  | VSub s => Ret (MkSubEntry s (ent_revision e))
  | VBad _ => Err (Errorf "inputs: decode %s: %w" [AStr key; AErr (err_json "")])
  end.

Definition Get (runID stepID requestID : string) : io subE Entry :=
  io_of (ValidateRequestID requestID) ≫= λ _,
  key ← io_of (SubmissionKey runID stepID requestID);
  r ⇐ sub_kv (KvGet true key);
  Done (match r with
        | inl ErrKeyNotFound => Err ErrNotFound
        | inl e => Err (Errorf "inputs: get %s: %w" [AStr key; AErr (kv_err e)])
        | inr e => decodeEntry key e
        end).

(** The second result: the submission was created by this call. *)
Definition Submit (sub : Submission) : io subE (Submission * bool) :=
  io_of (Submission_Validate sub) ≫= λ _,
  now ← sub_now;
  let sub := MkSubmission (sb_RunID sub) (sb_StepID sub) (sb_RequestID sub) (sb_Mode sub)
               (sb_Content sub) StatusQueued now now 0 in
  data ← io_of (marshal_Submission sub);
  key ← io_of (SubmissionKey (sb_RunID sub) (sb_StepID sub) (sb_RequestID sub));
  r ⇐ sub_kv (KvCreate key data);
  match r with
  | inr _ => Done (Ret (sub, true))
  | inl ErrKeyExists =>
      existing ← Get (sb_RunID sub) (sb_StepID sub) (sb_RequestID sub);
      Done (Ret (se_sub existing, false))
  | inl e => Done (Err (Errorf "inputs: create %s: %w" [AStr key; AErr (kv_err e)]))
  end.

Definition Withdraw (runID stepID requestID : string) : io subE unit :=
  e ← Get runID stepID requestID;
  if negb (bool_decide (sb_Status (se_sub e) = StatusQueued)) then Done (Err ErrNotQueued)
  else
    key ← io_of (SubmissionKey runID stepID requestID);
    r ⇐ sub_kv (KvDelete key (Some (se_Revision e)));
    Done (match r with
          | inr _ => Ret tt
          | inl err => if rejected err then Err ErrConflict
                       else Err (Errorf "inputs: withdraw %s: %w" [AStr key; AErr (kv_err err)])
          end).

Definition read_entry (e : Entry) (who : string) : outcome unit :=
  panic_if ((se_Revision e =? 0)%N || empty_str (sb_RequestID (se_sub e)))
    (who +:+ ": entry must have been read from the store").

Definition Transition (e : Entry) (status : string) (iteration : Z) : io subE Entry :=
  io_of (read_entry e "inputs.Transition") ≫= λ _,
  now ← sub_now;
  let updated := sb_set status now iteration (se_sub e) in
  data ← io_of (marshal_Submission updated);
  key ← io_of (SubmissionKey (sb_RunID (se_sub e)) (sb_StepID (se_sub e)) (sb_RequestID (se_sub e)));
  r ⇐ sub_kv (KvUpdate key data (se_Revision e));
  match r with
  | inr rev => Done (Ret (MkSubEntry updated rev))
  | inl err =>
      if negb (rejected err)
      then Done (Err (Errorf "inputs: update %s: %w" [AStr key; AErr (kv_err err)]))
      else
        current ← Get (sb_RunID (se_sub e)) (sb_StepID (se_sub e)) (sb_RequestID (se_sub e));
        Done (if bool_decide (sb_Status (se_sub current) = status) then Ret current
              else Err ErrConflict)
  end.

Definition Claim (e : Entry) (iteration : Z) : io subE Entry :=
  io_of (read_entry e "inputs.Claim") ≫= λ _,
  now ← sub_now;
  let claimed := sb_set StatusPlaced now iteration (se_sub e) in
  data ← io_of (marshal_Submission claimed);
  key ← io_of (SubmissionKey (sb_RunID (se_sub e)) (sb_StepID (se_sub e)) (sb_RequestID (se_sub e)));
  r ⇐ sub_kv (KvUpdate key data (se_Revision e));
  match r with
  | inr rev => Done (Ret (MkSubEntry claimed rev))
  | inl err =>
      if rejected err then
        Get (sb_RunID (se_sub e)) (sb_StepID (se_sub e)) (sb_RequestID (se_sub e)) ≫= λ _,
        Done (Err ErrConflict)
      else Done (Err (Errorf "inputs: claim %s: %w" [AStr key; AErr (kv_err err)]))
  end.

Definition Project (sub : Submission) (status : string) (iteration : Z) : io subE unit :=
  io_of (panic_if (empty_str (sb_RequestID sub)) "inputs.Project: submission must name its request") ≫= λ _,
  now ← sub_now;
  let sub := sb_set status now iteration sub in
  let sub := if IsZero (sb_CreatedAt sub)
             then MkSubmission (sb_RunID sub) (sb_StepID sub) (sb_RequestID sub) (sb_Mode sub)
                    (sb_Content sub) (sb_Status sub) (sb_UpdatedAt sub) (sb_UpdatedAt sub)
                    (sb_Iteration sub)
             else sub in
  data ← io_of (marshal_Submission sub);
  key ← io_of (SubmissionKey (sb_RunID sub) (sb_StepID sub) (sb_RequestID sub));
  r ⇐ sub_kv (KvPut key data);
  Done (match r with
        | inr _ => Ret tt
        | inl e => Err (Errorf "inputs: project %s: %w" [AStr key; AErr (kv_err e)])
        end).

(** ** Lists *)

(** The keys under a prefix, deleted ones included, sorted. *)
Definition ListKeysUnder (prefix : string) : prog subE (kv_error + list string) :=
  r ⇐ sub_kv KvSubjects;
  Done (match r with
        | inl e => inl e
        | inr keys => inr (merge_sort str_le (List.filter (λ k, HasPrefix k (prefix +:+ ".")) keys))
        end).

(** Creation order; request IDs tell submissions of one instant apart. *)
Definition entry_le (a b : Entry) : Prop :=
  sb_CreatedAt (se_sub a) < sb_CreatedAt (se_sub b) ∨
  (sb_CreatedAt (se_sub a) = sb_CreatedAt (se_sub b) ∧
   str_le (sb_RequestID (se_sub a)) (sb_RequestID (se_sub b))).
#[global] Instance entry_le_dec : RelDecision entry_le.
Proof. intros a b. unfold entry_le. apply _. Defined.

Fixpoint get_entries (keys : list string) : io subE (list Entry) :=
  match keys with
  | [] => Done (Ret [])
  | key :: keys' =>
      r ⇐ sub_kv (KvGet true key);
      match r with
      | inl ErrKeyNotFound => get_entries keys'
      | inl e => Done (Err (Errorf "inputs: get %s: %w" [AStr key; AErr (kv_err e)]))
      | inr e =>
          match ent_value e with
          | VSub s => rest ← get_entries keys'; Done (Ret (MkSubEntry s (ent_revision e) :: rest))
          | VBad _ => Done (Err (Errorf "inputs: decode %s: %w" [AStr key; AErr (err_json "")]))
          end
      end
  end.

Definition List_ (runID stepID : string) : io subE (list Entry) :=
  io_of (panic_if (empty_str runID || empty_str stepID)
    "inputs.List: run and step must not be empty") ≫= λ _,
  prefix ← io_of (SubmissionKeyPrefix runID stepID);
  r ⇐ ListKeysUnder prefix;
  match r with
  | inl e => Done (Err (Errorf "inputs: list %s: %w" [AStr prefix; AErr (kv_err e)]))
  | inr keys =>
      if perStepMax <? Z.of_nat (length keys)
      then Done (Err (Errorf "inputs: step %s has more than %d submissions" [AStr prefix; AInt perStepMax]))
      else
        entries ← get_entries keys;
        Done (Ret (merge_sort entry_le entries))
  end.

Definition has_status (status : string) (e : Entry) : bool :=
  bool_decide (sb_Status (se_sub e) = status).

Definition Queued (runID stepID : string) : io subE (list Entry) :=
  io_of (panic_if (empty_str runID || empty_str stepID)
    "inputs.Queued: run and step must not be empty") ≫= λ _,
  all ← List_ runID stepID;
  Done (Ret (List.filter (has_status StatusQueued) all)).

Definition RefuseIfQueued (runID stepID : string) : io subE unit :=
  queued ← Queued runID stepID;
  Done (match queued with
        | [] => Ret tt
        | e :: _ => Err (Errorf "%w (%d queued, first %s)"
            [AErr ErrQueued; AInt (Z.of_nat (length queued)); AStr (sb_RequestID (se_sub e))])
        end).

Fixpoint settle_loop (settled : Z) (queued : list Entry) : io subE Z :=
  match queued with
  | [] => Done (Ret settled)
  | e :: queued' =>
      o ⇐ Transition e StatusUnanswered 0;
      match o with
      | Ret _ => settle_loop (settled + 1) queued'
      | Err err => if errors_Is err ErrConflict || errors_Is err ErrNotFound
                   then settle_loop settled queued' else Done (Err err)
      | Panic s => Done (Panic s)
      end
  end.

(** [recorded] tells which requests have an input.placed record, when the
    caller knows it. *)
Definition SettleUnanswered (runID stepID : string) (recorded : option (string → bool)) : io subE Z :=
  io_of (panic_if (empty_str runID || empty_str stepID)
    "inputs.SettleUnanswered: run and step must not be empty") ≫= λ _,
  all ← List_ runID stepID;
  settle_loop 0 (List.filter (λ e,
    has_status StatusQueued e ||
    (has_status StatusPlaced e &&
     match recorded with Some f => negb (f (sb_RequestID (se_sub e))) | None => false end)) all).
End Store.
