(* ===== verification/JournalCheck.v ===== *)
(** * The audit of a journal (journal/check.go, inputs.go [checkInputs])

    [Check] reads a run's snapshot, its history and the journals of its steps,
    and reports what violates the invariants of the journal: one accepted commit
    per iteration, no record after the claim that fenced its writer, an answer
    to every tool intent, every input placed once.  The readers are I/O; the
    functions below are the checks on what they read.  A violation is the
    [Sprintf] call that words it. *)

From S2P Require Import Prelude Float64 Json GoTime Types Input Fence Planners Loops Starts Journal Submissions.

#[local] Open Scope Z_scope.

Record StepReport : Type := MkStepReport {
  sr_StepID : string;
  sr_Records : Z;
  sr_Commits : Z;
  sr_Violations : list error;
}.

Definition ANum (n : N) : earg := AInt (Z.of_N n).

(** ** Commits *)

Definition commitsByIteration (records : list Record_) : gmap Z (list Record_) :=
  foldl (λ out r,
    if bool_decide (rc_Type r = TypeCommit)
    then <[rc_Iteration r := default [] (out !! rc_Iteration r) ++ [r]]> out else out) ∅ records.

Definition fencedLifecycle (t : protocol.EventType) : bool :=
  bool_decide (t ∈ [protocol.EventStepContinue; protocol.EventStepCompleted; protocol.EventStepFailed]).

Definition acceptedAttempt (iteration : Z) (records : list Record_) (history : list protocol.Event)
    : outcome Z :=
  panic_if (iteration <? 0) "acceptedAttempt: iteration must not be negative";;
  let claims := List.filter (λ r, bool_decide (rc_Type r = TypeClaim ∧ rc_Iteration r = iteration)) records in
  let nonces := rc_DispatchNonce <$> claims in
  let claimMax := foldl (λ m r, Z.max m (rc_Attempt r)) 0 claims in
  let startedMax := foldl (λ m evt,
    if bool_decide (protocol.Type_ evt = protocol.EventStepStarted ∧
         protocol.DispatchNonce evt ∈ nonces ∧ protocol.DispatchNonce evt ≠ "")
    then Z.max m (protocol.AttemptNumber evt) else m) 0 history in
  Ret (if 0 <? startedMax then startedMax else claimMax).

Definition acceptedCommits (iteration : Z) (records : list Record_)
    (commits : gmap Z (list Record_)) (history : list protocol.Event) : outcome (list Record_) :=
  panic_if (iteration <? 0) "acceptedCommits: iteration must not be negative";;
  let latest := foldl (λ latest evt,
    if (0 <? protocol.JournalSeq evt) && bool_decide (protocol.Iteration evt = Some iteration) &&
       fencedLifecycle (protocol.Type_ evt)
    then protocol.JournalSeq evt else latest) 0 history in
  let mine := default [] (commits !! iteration) in
  if 0 <? latest then Ret (List.filter (λ c, Z.of_N (rc_Seq c) =? latest) mine)
  else
    attempt ← acceptedAttempt iteration records history;
    Ret (List.filter (λ c, rc_Attempt c =? attempt) mine).

Section Check.
Context (h : host).
(** [sort.Strings] on the texts of the violations. *)
Context (sort_texts : list error → list error).

Definition commitAction (r : Record_) : outcome string :=
  panic_if (negb (bool_decide (rc_Type r = TypeCommit))) "commitAction: record must be a commit";;
  Ret (match unmarshal_Commit h (rc_Data r) with Ret c => cm_Action c | _ => "" end).

Definition failed (state : StepState) : bool := bool_decide (ss_Status state = StepStatusFailed).
Definition ended_step (state : StepState) : bool :=
  bool_decide (ss_Status state = StepStatusCompleted) || failed state.

(** The violations of one iteration the engine finished. *)
Definition check_iteration (state : StepState) (records : list Record_)
    (commits : gmap Z (list Record_)) (history : list protocol.Event) (iteration : Z)
    : outcome (list error) :=
  accepted ← acceptedCommits iteration records commits history;
  match accepted with
  | [c] =>
      let want :=
        if (iteration =? ss_Iterations state) && ended_step state
        then (if failed state then ActionFail else ActionComplete) else ActionContinue in
      got ← commitAction c;
      Ret (if bool_decide (got = want) then []
           else [Errorf "iteration %d commit action %q, want %q" [AInt iteration; AStr got; AStr want]])
  | _ =>
      Ret [Errorf "iteration %d has %d commits named by its latest lifecycle event, want 1"
             [AInt iteration; AInt (Z.of_nat (length accepted))]]
  end.

Fixpoint count_continues (l : list Record_) : outcome Z :=
  match l with
  | [] => Ret 0
  | c :: l' =>
      action ← commitAction c;
      n ← count_continues l';
      Ret (if bool_decide (action = ActionContinue) then n + 1 else n)
  end.

Definition checkCommits (state : StepState) (records : list Record_)
    (commits : gmap Z (list Record_)) (history : list protocol.Event) : outcome (list error) :=
  panic_if (ss_Iterations state <? 0) "checkCommits: iterations must not be negative";;
  let last := if ended_step state then ss_Iterations state else ss_Iterations state - 1 in
  vs ← mapM_outcome (check_iteration state records commits history) (seqZ 0 (last + 1));
  ns ← mapM_outcome (λ '(iteration, _),
         accepted ← acceptedCommits iteration records commits history;
         count_continues accepted) (map_to_list commits);
  let continues := foldr Z.add 0 ns in
  Ret (concat vs ++
       (if continues =? ss_Iterations state then []
        else [Errorf "engine iterations %d, accepted continue commits %d"
                [AInt (ss_Iterations state); AInt continues]])).

(** ** Fencing *)

(** The claim of a record among the claims before it, the last that matches. *)
Definition own_claim (claims : list Record_) (r : Record_) : outcome (option Record_) :=
  task ← taskOf r;
  Ret (find_first (λ c, sameClaim c task) (reverse claims)).

Definition fences (own r c : Record_) : bool :=
  (rc_Seq own <? rc_Seq c)%N && (rc_Seq c <? rc_Seq r)%N && (rc_Iteration r <=? rc_Iteration c).

Fixpoint fencing_loop (claims records : list Record_) : outcome (list error) :=
  match records with
  | [] => Ret []
  | r :: records' =>
      if bool_decide (rc_Type r = TypeClaim) then fencing_loop (claims ++ [r]) records'
      else
        own ← own_claim claims r;
        rest ← fencing_loop claims records';
        match own with
        | None => Ret (Errorf "seq %d (%s) has no claim" [ANum (rc_Seq r); AStr (rc_Type r)] :: rest)
        | Some own =>
            match find_first (fences own r) claims with
            | Some c =>
                Ret (Errorf "seq %d (%s, attempt %d) written after being fenced by claim seq %d (attempt %d)"
                       [ANum (rc_Seq r); AStr (rc_Type r); AInt (rc_Attempt r); ANum (rc_Seq c);
                        AInt (rc_Attempt c)] :: rest)
            | None => Ret rest
            end
        end
  end.

Definition checkFencing (records : list Record_) : outcome (list error) :=
  panic_if (recordsMax <? Z.of_nat (length records)) "checkFencing: records exceed the read bound";;
  fencing_loop [] records.

(** ** Tools *)

Definition dec_opt_int (cur : option Z) (v : json) : outcome (option Z) :=
  match v with
  | JNull => Ret None
  | v => z ← dec_int 0 v; Ret (Some z)
  end.

Definition unmarshal_call : raw → outcome (option Z) :=
  unmarshal_struct None (λ fs, dec_field dec_opt_int "call" None fs).

Record pairs : Type := MkPairs {
  pr_open : gmap (Z * Z) Record_;
  pr_lastCommit : gmap Z N;
  pr_violations : list error;
}.

Definition pair_violation (v : error) (p : pairs) : pairs :=
  MkPairs (pr_open p) (pr_lastCommit p) (pr_violations p ++ [v]).

Definition pairs_step (p : pairs) (r : Record_) : outcome pairs :=
  if bool_decide (rc_Type r = TypeCommit) then
    action ← commitAction r;
    Ret (if bool_decide (action = ActionFail)
         then MkPairs (pr_open p) (<[rc_Iteration r := rc_Seq r]> (pr_lastCommit p)) (pr_violations p)
         else p)
  else if negb (bool_decide (rc_Type r = TypeToolIntent ∨ rc_Type r = TypeToolResult)) then Ret p
  else
    Ret match unmarshal_call (rc_Data r) with
        | Ret (Some call) =>
            let key := (rc_Iteration r, call) in
            let intent := bool_decide (rc_Type r = TypeToolIntent) in
            match pr_open p !! key with
            | Some pending =>
                let superseded :=
                  (rc_Seq pending <=? default 0%N (pr_lastCommit p !! rc_Iteration r))%N ||
                  (rc_Attempt pending <? rc_Attempt r) in
                if intent && negb superseded then
                  pair_violation (Errorf "iteration %d call %d: second tool.intent at seq %d while seq %d is unanswered"
                    [AInt (rc_Iteration r); AInt call; ANum (rc_Seq r); ANum (rc_Seq pending)]) p
                else if intent
                then MkPairs (<[key := r]> (pr_open p)) (pr_lastCommit p) (pr_violations p)
                else MkPairs (delete key (pr_open p)) (pr_lastCommit p) (pr_violations p)
            | None =>
                if intent
                then MkPairs (<[key := r]> (pr_open p)) (pr_lastCommit p) (pr_violations p)
                else pair_violation (Errorf "iteration %d call %d: tool.result at seq %d without a tool.intent"
                       [AInt (rc_Iteration r); AInt call; ANum (rc_Seq r)]) p
            end
        | _ => pair_violation (Errorf "seq %d %s has no call" [ANum (rc_Seq r); AStr (rc_Type r)]) p
        end.

Fixpoint pairs_loop (p : pairs) (records : list Record_) : outcome pairs :=
  match records with
  | [] => Ret p
  | r :: records' => p' ← pairs_step p r; pairs_loop p' records'
  end.

Fixpoint left_alone_loop (pending : Record_) (intent : ToolIntent) (ended : bool)
    (records : list Record_) : bool :=
  match records with
  | [] => ended
  | r :: records' =>
      if negb (rc_Iteration r =? rc_Iteration pending) || (rc_Attempt r <=? rc_Attempt pending)
      then left_alone_loop pending intent ended records'
      else
        match (if bool_decide (rc_Type r = TypeToolIntent)
               then unmarshal_ToolIntent (rc_Data r) else Err (err_json "")) with
        | Ret later =>
            if bool_decide (tc_Name (ti_call later) = tc_Name (ti_call intent) ∧
                 canonicalJSON h (tc_Input (ti_call later)) = canonicalJSON h (tc_Input (ti_call intent)))
            then false else left_alone_loop pending intent true records'
        | _ => left_alone_loop pending intent true records'
        end
  end.

Definition unsafeIntentLeftAlone (pending : Record_) (records : list Record_) : outcome bool :=
  panic_if (negb (bool_decide (rc_Type pending = TypeToolIntent)))
    "unsafeIntentLeftAlone: pending must be a tool intent";;
  panic_if (recordsMax <? Z.of_nat (length records))
    "unsafeIntentLeftAlone: records exceed the read bound";;
  Ret (match unmarshal_ToolIntent (rc_Data pending) with
       | Ret intent =>
           bool_decide (ti_Replay intent = Unsafe) && left_alone_loop pending intent false records
       | _ => false
       end).

Definition checkToolPairs (records : list Record_) (stepFailed : bool) : outcome (list error) :=
  p ← pairs_loop (MkPairs ∅ ∅ []) records;
  let unanswered := map_to_list (pr_open p) in
  let last := foldr (λ '(_, pending), N.max (rc_Seq pending)) 0%N unanswered in
  vs ← mapM_outcome (λ '(key, pending),
    let committed := (rc_Seq pending <=? default 0%N (pr_lastCommit p !! key.1))%N in
    alone ← (if committed then Ret false else unsafeIntentLeftAlone pending records);
    Ret (if committed || alone || (stepFailed && (rc_Seq pending =? last)%N) then []
         else [Errorf "iteration %d call %d: tool.intent at seq %d has no tool.result"
                 [AInt key.1; AInt key.2; ANum (rc_Seq pending)]])) unanswered;
  Ret (sort_texts (pr_violations p ++ concat vs)).

(** ** Inputs *)

Definition unmarshal_request : raw → outcome string :=
  unmarshal_struct "" (λ fs, dec_field dec_string "request_id" "" fs).

Fixpoint placed_loop (seen : gmap string N) (records : list Record_) : list error :=
  match records with
  | [] => []
  | r :: records' =>
      if negb (bool_decide (rc_Type r = TypeInputPlaced)) then placed_loop seen records'
      else
        let missing :=
          Errorf "seq %d input.placed has no request_id" [ANum (rc_Seq r)] :: placed_loop seen records' in
        match unmarshal_request (rc_Data r) with
        | Ret id =>
            if empty_str id then missing
            else match seen !! id with
                 | Some first =>
                     Errorf "input %s placed twice (seq %d and %d)" [AStr id; ANum first; ANum (rc_Seq r)] ::
                     placed_loop seen records'
                 | None => placed_loop (<[id := rc_Seq r]> seen) records'
                 end
        | _ => missing
        end
  end.

Definition checkPlacedInputs (records : list Record_) : list error := placed_loop ∅ records.

Definition checkStep (stepID : string) (state : StepState) (records : list Record_)
    (history : list protocol.Event) : outcome StepReport :=
  panic_if (empty_str stepID) "checkStep: stepID must not be empty";;
  panic_if (recordsMax <? Z.of_nat (length records)) "checkStep: records exceed the read bound";;
  let commits := commitsByIteration records in
  let count := foldr (λ '(_, l), Z.add (Z.of_nat (length (l : list Record_)))) 0 (map_to_list commits) in
  v1 ← checkCommits state records commits history;
  v2 ← checkFencing records;
  v3 ← checkToolPairs records (failed state);
  Ret (MkStepReport stepID (Z.of_nat (length records)) count
         (v1 ++ v2 ++ v3 ++ checkPlacedInputs records)).

Fixpoint placed_counts (counts : gmap string Z) (records : list Record_) : outcome (gmap string Z) :=
  match records with
  | [] => Ret counts
  | r :: records' =>
      if negb (bool_decide (rc_Type r = TypeInputPlaced)) then placed_counts counts records'
      else
        p ← placedInput r;
        placed_counts match p with
                      | Some p => <[ip_RequestID p := default 0 (counts !! ip_RequestID p) + 1]> counts
                      | None => counts
                      end records'
  end.

Definition check_submission (finished : bool) (counts : gmap string Z) (e : Entry) : list error :=
  let s := se_sub e in
  let n := default 0 (counts !! sb_RequestID s) in
  let has status := has_status status e in
  if has StatusPlaced || has StatusDone then
    if (n =? 0) && has StatusPlaced && negb finished then []
    else if n =? 1 then []
    else [Errorf "input %s is %s with %d input.placed records, want 1"
            [AStr (sb_RequestID s); AStr (sb_Status s); AInt n]]
  else if has StatusUnanswered then
    if n =? 0 then []
    else [Errorf "input %s is unanswered but has %d input.placed records"
            [AStr (sb_RequestID s); AInt n]]
  else if has StatusQueued then
    if finished then [Errorf "input %s is still queued after the step finished" [AStr (sb_RequestID s)]]
    else []
  else [].

Definition checkInputs (state : StepState) (records : list Record_) (subs : list Entry)
    : outcome (list error) :=
  panic_if (recordsMax <? Z.of_nat (length records)) "checkInputs: records exceed the read bound";;
  counts ← placed_counts ∅ records;
  let finished := ended_step state || bool_decide (ss_Status state = StepStatusCancelled) in
  Ret (concat (check_submission finished counts <$> subs)).
End Check.
