(* ===== verification/JournalSpec.v ===== *)
(** * Journals with several writers

    The world of a step's journal: the stored messages of its subject and the
    tool functions that were started.  The stream stores a message only when
    the sequence it expects is the subject's last one; it may answer a message
    whose ID it already holds with the old sequence, refuse a publish, or lose a
    reply after storing.  Reads are answered by the stream leader.

    Any number of deliveries of the step's tasks open the journal and run
    handlers at once.  [log_ok] is the invariant of the stored records: their
    iterations grow, each delivery claims once, the deliveries of one message
    claim in order, and no record of a delivery follows the claim of another
    one. *)

From S2P Require Import Prelude Float64 Json GoTime Cron Types Input Interleave Lease Snapshot Fence Planners Loops Starts MapSpec Journal JournalCheck.
From stdpp Require Import relations pretty sorting.
From Stdlib Require Import Ascii.

#[local] Open Scope Z_scope.

(** ** Lists *)

Lemma filter_id {A} (f : A → bool) l : (∀ x, x ∈ l → f x = true) → List.filter f l = l.
Proof.
  intros Hf. apply forallb_filter_id, forallb_forall. intros x Hx. apply Hf. by apply list_elem_of_In.
Qed.

Lemma filter_none {A} (f : A → bool) l : (∀ x, x ∈ l → f x = false) → List.filter f l = [].
Proof.
  induction l as [|x l IH]; intros Hf; [done|]. cbn.
  rewrite (Hf x) by set_solver. apply IH. intros y Hy. apply Hf. set_solver.
Qed.

Lemma mapM_outcome_fmap {A B} (f : A → outcome B) (g : A → B) l :
  (∀ x, x ∈ l → f x = Ret (g x)) → mapM_outcome f l = Ret (g <$> l).
Proof.
  induction l as [|x l IH]; intros Hf; [done|]. cbn. rewrite (Hf x) by set_solver.
  cbn. rewrite IH; [done|]. intros y Hy. apply Hf. set_solver.
Qed.

(** ** Headers read back *)

Lemma ParseUint_pretty (n : N) : Z.of_N n ≤ uint64_max → ParseUint (pretty (Z.of_N n)) = Some n.
Proof.
  intros Hn. assert (str_forallb is_digit (pretty (Z.of_N n)) = true ∧
    digits_val (pretty (Z.of_N n)) = Z.of_N n ∧ pretty (Z.of_N n) ≠ "") as (Hd & Hv & Hne).
  { destruct n as [|p]; [done|]. change (pretty (Z.of_N (N.pos p))) with (pretty (N.pos p)).
    unfold pretty, pretty_N. case_decide; [done|].
    destruct (pretty_go_digits (N.pos p) "" eq_refl) as [H1 H2]. split; [done|].
    rewrite H2. change (digits_val "") with 0. split; [simpl; lia|].
    intros Hp. rewrite Hp in H2. cbv in H2. lia. }
  unfold ParseUint. rewrite Hd, Hv. apply empty_str_false in Hne as ->. simpl.
  destruct (Z.leb_spec (Z.of_N n) uint64_max); [|lia]. by rewrite N2Z.id.
Qed.

Lemma headerInt_pretty hdr key (z : Z) :
  hdr_get hdr key = pretty z → 0 ≤ z ≤ int64_max → headerInt hdr key = z.
Proof.
  intros Hg Hz. unfold headerInt. rewrite Hg, Atoi_pretty by done.
  destruct (Z.ltb_spec z 0); [lia|done].
Qed.

Lemma headerUint_pretty hdr key (n : N) :
  hdr_get hdr key = pretty (Z.of_N n) → Z.of_N n ≤ uint64_max → headerUint hdr key = n.
Proof. intros Hg Hn. unfold headerUint. by rewrite Hg, ParseUint_pretty. Qed.

(** A task of the step [stepID] of the run [runID] a delivery can carry. *)
Record task_ok (runID stepID : string) (t : Task) : Prop := {
  to_run : tk_RunID t = runID;
  to_step : tk_StepID t = stepID;
  to_iteration : 0 ≤ tk_Iteration t ≤ int64_max;
  to_attempt : 1 ≤ tk_Attempt t ≤ int64_max;
  to_delivered : 1 ≤ tk_Delivered t ≤ int64_max;
  to_stream : Z.of_N (tk_StreamSeq t) ≤ uint64_max;
}.

(** The record a message of [t] decodes to. *)
Lemma decode_message runID stepID t ty idx e data m seq time :
  task_ok runID stepID t → recordMessage t ty idx e data = Ret m → seq ≠ 0%N →
  ∃ r, decodeRecord seq (jm_Header m) (jm_Data m) time = Ret r ∧
    rc_Seq r = seq ∧ rc_Type r = ty ∧ rc_Iteration r = tk_Iteration t ∧
    rc_Attempt r = tk_Attempt t ∧ rc_DispatchNonce r = tk_DispatchNonce t ∧
    rc_Delivered r = tk_Delivered t ∧ rc_StreamSeq r = tk_StreamSeq t ∧
    (idx ≤ int64_max → rc_Index r = idx) ∧ rc_Data r = data ∧ rc_Time r = time.
Proof.
  intros [_ _ Hi Ha Hd Hs] Hm Hseq. unfold recordMessage in Hm.
  rewrite !bind_unit_ret_iff, !panic_if_ret_iff in Hm. destruct Hm as (_ & Hidx & Hm).
  apply bind_ret_iff in Hm as (subj & _ & Hm). apply bind_ret_iff in Hm as (id & _ & [= <-]).
  unfold decodeRecord. destruct (N.eqb_spec seq 0) as [|_]; [done|]. cbn [panic_if mbind outcome_bind].
  eexists. split; [reflexivity|]. cbn [rc_Seq rc_Type rc_Iteration rc_Attempt rc_DispatchNonce
    rc_Delivered rc_StreamSeq rc_Index rc_Data rc_Time jm_Header jm_Data].
  apply Z.ltb_ge in Hidx.
  split_and!; try reflexivity; try (apply headerInt_pretty; [reflexivity|lia]).
  - apply headerUint_pretty; [reflexivity|done].
  - intros Hle. apply headerInt_pretty; [reflexivity|lia].
Qed.

Lemma message_expected t ty idx e data m :
  recordMessage t ty idx e data = Ret m → Z.of_N e ≤ uint64_max →
  headerUint (jm_Header m) headerExpectedLastSeq = e.
Proof.
  intros Hm He. unfold recordMessage in Hm. rewrite !bind_unit_ret_iff in Hm.
  destruct Hm as (_ & _ & Hm). apply bind_ret_iff in Hm as (? & _ & Hm).
  apply bind_ret_iff in Hm as (? & _ & [= <-]). by apply headerUint_pretty.
Qed.

Lemma message_id t ty idx e data m :
  recordMessage t ty idx e data = Ret m →
  0 ≤ idx ∧ MsgID t idx = Ret (hdr_get (jm_Header m) headerMsgID) ∧
  JournalSubject (tk_RunID t) (tk_StepID t) = Ret (jm_Subject m).
Proof.
  intros Hm. unfold recordMessage in Hm. rewrite !bind_unit_ret_iff, !panic_if_ret_iff in Hm.
  destruct Hm as (_ & Hidx%Z.ltb_ge & Hm). apply bind_ret_iff in Hm as (? & Hs & Hm).
  apply bind_ret_iff in Hm as (? & Hid & [= <-]). done.
Qed.

#[local] Instance Ret_inj {A} : Inj (=) (=) (@Ret A).
Proof. by intros a b [=]. Qed.

(** Message IDs tell deliveries and indexes apart. *)
Lemma pretty_dot_inj (a b : Z) s t :
  pretty a +:+ "." +:+ s = pretty b +:+ "." +:+ t → a = b ∧ s = t.
Proof.
  intros H. apply (split_at_char "."%char) in H as [Hp ->]; [|apply pretty_Z_no_dot..].
  split; [|done]. by apply (inj pretty) in Hp.
Qed.

Lemma MsgID_inj runID stepID t t' idx idx' id :
  task_ok runID stepID t → task_ok runID stepID t' → MsgID t idx = Ret id → MsgID t' idx' = Ret id →
  tk_Attempt t = tk_Attempt t' ∧ tk_Iteration t = tk_Iteration t' ∧
  tk_StreamSeq t = tk_StreamSeq t' ∧ tk_Delivered t = tk_Delivered t' ∧ idx = idx'.
Proof.
  intros [Hr Hs _ _ _ _] [Hr' Hs' _ _ _ _]. unfold MsgID. rewrite !bind_unit_ret_iff.
  intros (_ & _ & <-) (_ & _ & H). apply (inj Ret) in H. rewrite Hr, Hs, Hr', Hs' in H.
  do 4 apply str_app_cancel in H.
  apply pretty_dot_inj in H as [H1 H']. apply pretty_dot_inj in H' as [H2 H''].
  apply pretty_dot_inj in H'' as [H3 H4]. apply pretty_dot_inj in H4 as [H5 H6].
  apply (inj pretty) in H6. split_and!; lia.
Qed.

(** ** The world *)

Record jworld : Type := MkJworld {
  jw_log : list jentry;
  jw_runs : list (string * string);
}.

Definition last_seq (l : list jentry) : N :=
  match last l with Some x => je_Seq x | None => 0%N end.

(** [m] is stored as the newest message: the sequence it expects is the last
    one. *)
Definition lands (subject : string) (w : jworld) (m : jmsg) (x : jentry) : Prop :=
  jm_Subject m = subject ∧ je_Msg x = m ∧
  headerUint (jm_Header m) headerExpectedLastSeq = last_seq (jw_log w) ∧
  (last_seq (jw_log w) < je_Seq x)%N ∧ Z.of_N (je_Seq x) ≤ uint64_max.

Definition store (w : jworld) (x : jentry) : jworld := MkJworld (jw_log w ++ [x]) (jw_runs w).

Definition msg_id (x : jentry) : string := hdr_get (jm_Header (je_Msg x)) headerMsgID.

Definition jreply (subject : string) R (w : jworld) (e : journalE R) (w' : jworld) (r : R) : Prop :=
  match e in journalE R' return R' → Prop with
  | JPublish m => λ r,
      (∃ x, lands subject w m x ∧ w' = store w x ∧ (r = inr (je_Seq x) ∨ ∃ err, r = inl err)) ∨
      (w' = w ∧ ((∃ x, x ∈ jw_log w ∧ msg_id x = hdr_get (jm_Header m) headerMsgID ∧ r = inr (je_Seq x)) ∨
                 ∃ err, r = inl err))
  | JLast s => λ r,
      w' = w ∧ match r with
               | inr x => s = subject → last (jw_log w) = Some x
               | inl err => s = subject → err = JsMsgNotFound → jw_log w = []
               end
  | JFetch s tail => λ r,
      w' = w ∧ match r with
               | inr l => s = subject → l = List.filter (λ x, je_Seq x <=? tail)%N (jw_log w)
               | inl _ => True
               end
  | JRun key replay => λ r, w' = MkJworld (jw_log w) (jw_runs w ++ [(key, replay)])
  | JStream | JSleep _ | JWait _ | JAsk _ => λ _, w' = w
  end r.

(** The record of a stored message. *)
Definition rec (x : jentry) : Record_ :=
  match decode_entry x with Ret r => r | _ => zero_Record end.

Definition claims (x : jentry) : Prop := rc_Type (rec x) = TypeClaim.

(** A handler that calls no tool and writes no tool intent itself. *)
Fixpoint toolless {A} (a : act A) : Prop :=
  match a with
  | AReturn _ => True
  | AAppend ty _ k => ty ≠ TypeToolIntent ∧ ∀ o, toolless (k o)
  | APause _ _ k | ACommit _ k | APlace _ k => ∀ o, toolless (k o)
  | ATool _ _ _ _ => False
  | AModel k => ∀ o, toolless (k o)
  | AResync k => ∀ o, toolless (k o)
  end.

(** A handler that calls no more tools once an operation has failed, and none
    from inside a tool. *)
Fixpoint prudent {A} (a : act A) : Prop :=
  match a with
  | AReturn _ => True
  | AAppend ty _ k => ty ≠ TypeToolIntent ∧ (∀ n, prudent (k (Ret n))) ∧ ∀ e, toolless (k (Err e))
  | APause _ _ k | ACommit _ k | APlace _ k => (∀ n, prudent (k (Ret n))) ∧ ∀ e, toolless (k (Err e))
  | ATool _ _ fn k =>
      (∀ c, toolless (fn c)) ∧ (∀ r, prudent (k (Ret r))) ∧ ∀ e, toolless (k (Err e))
  | AModel k => (∀ r, prudent (k (Ret r))) ∧ ∀ e, toolless (k (Err e))
  | AResync k => (∀ r, prudent (k (Ret r))) ∧ ∀ e, toolless (k (Err e))
  end.

Section Spec.
Context (runID stepID subject : string) (tasks : list Task).

Hypothesis subject_of : JournalSubject runID stepID = Ret subject.
Hypothesis tasks_ok : ∀ i t, tasks !! i = Some t → task_ok runID stepID t.
(** Two deliveries differ in their iteration, attempt, message or count, and the
    deliveries of one message carry one payload. *)
Hypothesis tasks_apart : ∀ i k t t', tasks !! i = Some t → tasks !! k = Some t' → i ≠ k →
  tk_Iteration t = tk_Iteration t' → tk_Attempt t = tk_Attempt t' →
  tk_StreamSeq t = tk_StreamSeq t' → tk_Delivered t ≠ tk_Delivered t'.
Hypothesis tasks_message : ∀ i k t t', tasks !! i = Some t → tasks !! k = Some t' →
  tk_StreamSeq t = tk_StreamSeq t' → tk_StreamSeq t ≠ 0%N →
  tk_Iteration t = tk_Iteration t' ∧ tk_Attempt t = tk_Attempt t'.

(** Delivery [i] published [x] as its record number [idx]. *)
Definition wrote (i : nat) (t : Task) (idx : Z) (ty : string) (data : raw) (x : jentry) : Prop :=
  tasks !! i = Some t ∧ je_Seq x ≠ 0%N ∧ ∃ e, recordMessage t ty idx e data = Ret (je_Msg x).

Definition own (i : nat) (x : jentry) : Prop := ∃ t idx ty data, wrote i t idx ty data x.

Lemma wrote_rec i t idx ty data x :
  wrote i t idx ty data x →
  decode_entry x = Ret (rec x) ∧
  rc_Seq (rec x) = je_Seq x ∧ rc_Type (rec x) = ty ∧ rc_Iteration (rec x) = tk_Iteration t ∧
  rc_Attempt (rec x) = tk_Attempt t ∧ rc_DispatchNonce (rec x) = tk_DispatchNonce t ∧
  rc_Delivered (rec x) = tk_Delivered t ∧ rc_StreamSeq (rec x) = tk_StreamSeq t ∧
  rc_Data (rec x) = data.
Proof using All.
  intros (Ht & Hs & e & Hm). unfold rec, decode_entry.
  destruct (decode_message runID stepID t ty idx e data _ (je_Seq x) (je_Time x) (tasks_ok i t Ht) Hm Hs)
    as (r & -> & ? & ? & ? & ? & ? & ? & ? & _ & ? & _). done.
Qed.

Lemma own_rec i t x :
  own i x → tasks !! i = Some t →
  decode_entry x = Ret (rec x) ∧ rc_Seq (rec x) = je_Seq x ∧ je_Seq x ≠ 0%N ∧
  rc_Iteration (rec x) = tk_Iteration t ∧ rc_Attempt (rec x) = tk_Attempt t ∧
  rc_DispatchNonce (rec x) = tk_DispatchNonce t ∧ rc_Delivered (rec x) = tk_Delivered t ∧
  rc_StreamSeq (rec x) = tk_StreamSeq t.
Proof using All.
  intros (t' & idx & ty & data & Hw) Ht. pose proof Hw as (Ht' & Hs & _). simplify_eq.
  by apply wrote_rec in Hw as (? & ? & _ & ? & ? & ? & ? & ? & _).
Qed.

Lemma own_task i x : own i x → ∃ t, tasks !! i = Some t.
Proof using All. intros (t & ? & ? & ? & ? & _). eauto. Qed.

Lemma own_inj i k x : own i x → own k x → i = k.
Proof using All.
  intros Hi Hk. destruct (own_task i x Hi) as [t Ht], (own_task k x Hk) as [t' Ht'].
  destruct (own_rec i t x Hi Ht) as (_ & _ & _ & ? & ? & _ & ? & ?).
  destruct (own_rec k t' x Hk Ht') as (_ & _ & _ & ? & ? & _ & ? & ?).
  destruct (decide (i = k)) as [|Hne]; [done|].
  by destruct (tasks_apart i k t t' Ht Ht' Hne); congruence.
Qed.

Lemma own_same i k t x :
  own i x → tasks !! k = Some t → sameClaim (rec x) t = true → i = k.
Proof using All.
  intros Hi Hk Hs%bool_decide_eq_true. destruct Hs as (H1 & H2 & _ & H3 & H4).
  destruct (own_task i x Hi) as [t' Ht].
  destruct (own_rec i t' x Hi Ht) as (_ & _ & _ & ? & ? & _ & ? & ?).
  destruct (decide (i = k)) as [|Hne]; [done|].
  by destruct (tasks_apart i k t' t Ht Hk Hne); congruence.
Qed.

Lemma same_own i t x : own i x → tasks !! i = Some t → sameClaim (rec x) t = true.
Proof using All.
  intros Hi Ht. destruct (own_rec i t x Hi Ht) as (_ & _ & _ & ? & ? & ? & ? & ?).
  apply bool_decide_eq_true. by rewrite <-H, <-H0, <-H1, <-H2, <-H3.
Qed.

Lemma own_msg i k t idx ty data t' idx' x :
  wrote i t idx ty data x → tasks !! k = Some t' → MsgID t' idx' = Ret (msg_id x) →
  i = k ∧ idx = idx'.
Proof using All.
  intros (Ht & _ & e & Hm) Hk Hid. apply message_id in Hm as (_ & Hid' & _).
  destruct (MsgID_inj runID stepID t t' idx idx' (msg_id x)) as (H1 & H2 & H3 & H4 & H5); eauto.
  split; [|done]. destruct (decide (i = k)) as [|Hne]; [done|].
  by destruct (tasks_apart i k t t' Ht Hk Hne).
Qed.

(** ** The invariant of the log *)

Definition it (x : jentry) : Z := rc_Iteration (rec x).

Definition follows_log (x y : jentry) : Prop :=
  (je_Seq x < je_Seq y)%N ∧ it x ≤ it y ∧
  (claims x → claims y →
     (∀ i, own i x → ¬ own i y) ∧
     (rc_StreamSeq (rec x) = rc_StreamSeq (rec y) → rc_StreamSeq (rec x) ≠ 0%N →
      rc_Delivered (rec x) < rc_Delivered (rec y))).

(** The claim [x] was written under is the last claim before it. *)
Definition under_claim (pre : list jentry) (x : jentry) : Prop :=
  ∀ i, own i x → ∃ p1 c p2, pre = p1 ++ c :: p2 ∧ claims c ∧ own i c ∧ ∀ d, d ∈ p2 → ¬ claims d.

Record log_ok (l : list jentry) : Prop := {
  lo_own : ∀ x, x ∈ l → (∃ i, own i x) ∧ Z.of_N (je_Seq x) ≤ uint64_max;
  lo_sorted : StronglySorted follows_log l;
  lo_fence : ∀ pre x post, l = pre ++ x :: post → ¬ claims x → under_claim pre x;
}.

Lemma log_ok_nil : log_ok [].
Proof using All.
  split; [by intros x ?%elem_of_nil|constructor|]. by intros [] ? ?.
Qed.

Lemma snoc_split {A} (l : list A) y pre x post :
  l ++ [y] = pre ++ x :: post →
  (post = [] ∧ y = x ∧ pre = l) ∨ ∃ post', post = post' ++ [y] ∧ l = pre ++ x :: post'.
Proof using All.
  intros H. destruct (decide (length post = 0%nat)) as [Hn|Hn].
  - apply nil_length_inv in Hn as ->. apply app_inj_tail in H as [-> ->]. by left.
  - right. destruct (exists_last (l := post)) as (p & z & ->); [by intros ->|]. exists p.
    rewrite app_comm_cons, app_assoc in H. by apply app_inj_tail in H as [-> ->].
Qed.

Lemma log_ok_snoc l y i :
  log_ok l → own i y → Z.of_N (je_Seq y) ≤ uint64_max → (∀ x, x ∈ l → follows_log x y) →
  (¬ claims y → under_claim l y) → log_ok (l ++ [y]).
Proof using All.
  intros [Ho Hs Hf] Hy Hmax Hfol Hu. split.
  - intros x [Hx| ->%list_elem_of_singleton]%elem_of_app; [by apply Ho|eauto].
  - apply StronglySorted_app_2; [|done|repeat constructor].
    intros x z Hx ->%list_elem_of_singleton. by apply Hfol.
  - intros pre x post [(-> & <- & ->)|(post' & -> & ->)]%snoc_split; [done|by eapply Hf].
Qed.

(** The order of two entries. *)
Lemma log_order l x y :
  log_ok l → x ∈ l → y ∈ l → (je_Seq x < je_Seq y)%N → follows_log x y.
Proof using All.
  intros [_ Hs _] (l1 & l2 & ->)%list_elem_of_split Hy Hlt.
  apply StronglySorted_app in Hs as (H12 & _ & [Hall _]%StronglySorted_cons).
  apply elem_of_app in Hy as [Hy|[->|Hy]%elem_of_cons].
  - destruct (H12 y x Hy) as (? & _); [by constructor|lia].
  - lia.
  - rewrite Forall_forall in Hall. by apply Hall.
Qed.

Lemma log_seq_inj l x y : log_ok l → x ∈ l → y ∈ l → je_Seq x = je_Seq y → x = y.
Proof using All.
  intros [_ Hs _] (l1 & l2 & ->)%list_elem_of_split Hy Heq.
  apply StronglySorted_app in Hs as (H12 & _ & [Hall _]%StronglySorted_cons).
  apply elem_of_app in Hy as [Hy|[->|Hy]%elem_of_cons]; [|done|].
  - destruct (H12 y x Hy) as (? & _); [by constructor|lia].
  - rewrite Forall_forall in Hall. destruct (Hall y Hy) as (? & _). lia.
Qed.

Lemma last_seq_ge l x : log_ok l → x ∈ l → (je_Seq x ≤ last_seq l)%N.
Proof using All.
  intros [_ Hs _] Hx. unfold last_seq. destruct (last l) as [y|] eqn:Hl.
  - apply last_Some in Hl as (l' & ->). apply StronglySorted_app in Hs as (H & _ & _).
    apply elem_of_app in Hx as [Hx| ->%list_elem_of_singleton]; [|lia].
    destruct (H x y Hx) as (? & _); [by apply list_elem_of_singleton|lia].
  - apply last_None in Hl as ->. by apply elem_of_nil in Hx.
Qed.

Lemma last_elem (l : list jentry) x : last l = Some x → x ∈ l ∧ last_seq l = je_Seq x.
Proof using All.
  intros Hl. unfold last_seq. rewrite Hl. split; [|done].
  apply last_Some in Hl as (l' & ->). apply elem_of_app. right. by constructor.
Qed.

Lemma last_order l x y :
  log_ok l → last l = Some y → x ∈ l → x = y ∨ follows_log x y.
Proof using All.
  intros Hl Hy Hx. apply last_elem in Hy as [Hin Hs].
  pose proof (last_seq_ge l x Hl Hx) as Hle. rewrite Hs in Hle.
  destruct (decide (je_Seq x = je_Seq y)) as [|Hne]; [left; by eapply log_seq_inj|].
  right. eapply log_order; [done..|lia].
Qed.

(** A delivery with a record has one claim, and nobody claims between it and
    the record. *)
Lemma own_has_claim l i x :
  log_ok l → x ∈ l → own i x →
  ∃ c, c ∈ l ∧ claims c ∧ own i c ∧ (x = c ∨ (je_Seq c < je_Seq x)%N).
Proof using All.
  intros Hl (l1 & l2 & ->)%list_elem_of_split Hx.
  destruct (decide (rc_Type (rec x) = TypeClaim)) as [Hc|Hc]; [exists x; set_solver|].
  destruct (lo_fence _ Hl l1 x l2 eq_refl Hc i Hx) as (p1 & c & p2 & -> & Hcc & Hco & _).
  exists c. split_and!; [set_solver|done|done|]. right.
  destruct Hl as [_ Hs _]. apply StronglySorted_app in Hs as (H12 & _ & _).
  destruct (H12 c x) as (? & _); [set_solver|set_solver|done].
Qed.

Lemma own_claim_once l i c c' :
  log_ok l → c ∈ l → c' ∈ l → claims c → claims c' → own i c → own i c' → c = c'.
Proof using All.
  intros Hl Hc Hc' Hcl Hcl' Ho Ho'. destruct (N.lt_trichotomy (je_Seq c) (je_Seq c')) as [H|[H|H]].
  - destruct (log_order l c c' Hl Hc Hc' H) as (_ & _ & Hf). by destruct (Hf Hcl Hcl') as [Hn _]; destruct (Hn i).
  - by eapply log_seq_inj.
  - destruct (log_order l c' c Hl Hc' Hc H) as (_ & _ & Hf). by destruct (Hf Hcl' Hcl) as [Hn _]; destruct (Hn i).
Qed.

Lemma claim_between l i c x d :
  log_ok l → c ∈ l → x ∈ l → d ∈ l → claims c → own i c → own i x →
  (je_Seq c < je_Seq d)%N → (je_Seq d < je_Seq x)%N → ¬ claims d.
Proof using All.
  intros Hl Hc Hx Hd Hcc Hco Hxo H1 H2.
  pose proof Hx as (l1 & l2 & Heq)%list_elem_of_split.
  assert (¬ claims x) as Hnx.
  { intros Hcx. assert (c = x) by (by eapply own_claim_once). subst. lia. }
  destruct (lo_fence _ Hl l1 x l2 Heq Hnx i Hxo) as (p1 & c' & p2 & Hl1 & Hcc' & Hco' & Hno).
  assert (c = c') as <- by (eapply own_claim_once; [done|done| |done..]; set_solver).
  pose proof (lo_sorted _ Hl) as Hs. rewrite Heq in Hs, Hd. subst l1.
  apply StronglySorted_app in Hs as (H12 & Hs1 & [Hall _]%StronglySorted_cons).
  apply StronglySorted_app in Hs1 as (H12' & _ & _). rewrite Forall_forall in Hall.
  apply elem_of_app in Hd as [[Hd|[->|Hd]%elem_of_cons]%elem_of_app|[->|Hd]%elem_of_cons].
  - destruct (H12' d c Hd) as (? & _); [set_solver|lia].
  - lia.
  - by apply Hno.
  - lia.
  - destruct (Hall d Hd) as (? & _). lia.
Qed.

(** ** Where a delivery may write *)

(** After a record of its own. *)
Definition claimed (i : nat) (e : N) (l : list jentry) : Prop :=
  ∃ x, x ∈ l ∧ own i x ∧ je_Seq x = e.

(** A claim: after records of no later iteration, none of its own, and no claim
    of a later delivery of its message.  [seen] is what it has read of them. *)
Definition claim_point (seen : jentry → Prop) (i : nat) (t : Task) (e : N) (l : list jentry) : Prop :=
  (e ≤ last_seq l)%N ∧ ∀ x, x ∈ l → (je_Seq x ≤ e)%N →
    it x ≤ tk_Iteration t ∧ ¬ own i x ∧ seen x ∧
    (claims x → rc_StreamSeq (rec x) = tk_StreamSeq t → tk_StreamSeq t ≠ 0%N →
     rc_Delivered (rec x) < tk_Delivered t).

Lemma land_claim seen l i t y :
  log_ok l → tasks !! i = Some t → claim_point seen i t (last_seq l) l → own i y → claims y →
  (last_seq l < je_Seq y)%N → Z.of_N (je_Seq y) ≤ uint64_max → log_ok (l ++ [y]).
Proof using All.
  intros Hl Ht [_ Hp] Ho Hc Hlt Hmax. destruct (own_rec i t y Ho Ht) as (_ & _ & _ & Hit & _ & _ & Hde & Hst).
  apply (log_ok_snoc l y i); [done..| |done]. intros x Hx. pose proof (last_seq_ge l x Hl Hx) as Hle.
  destruct (Hp x Hx Hle) as (Hi & Hn & _ & Hd). split_and!; [lia|unfold it in *; lia|].
  intros Hcx _. split.
  - intros k Hk Hk'. assert (k = i) as -> by (by eapply own_inj). done.
  - rewrite Hst, Hde. intros Heq Hne. apply Hd; congruence.
Qed.

Lemma land_own l i t y :
  log_ok l → tasks !! i = Some t → claimed i (last_seq l) l → own i y → ¬ claims y →
  (last_seq l < je_Seq y)%N → Z.of_N (je_Seq y) ≤ uint64_max → log_ok (l ++ [y]).
Proof using All.
  intros Hl Ht (x & Hx & Hxo & Hxs) Ho Hc Hlt Hmax.
  destruct (own_rec i t y Ho Ht) as (_ & _ & _ & Hit & _).
  destruct (own_rec i t x Hxo Ht) as (_ & _ & _ & Hitx & _).
  assert (last l = Some x) as Hlast.
  { destruct (last l) as [z|] eqn:Hz; [|by apply last_None in Hz as ->; apply elem_of_nil in Hx].
    f_equal. apply last_elem in Hz as [Hzin Hzs]. eapply log_seq_inj; [done..|]. by rewrite <-Hzs, <-Hxs. }
  apply (log_ok_snoc l y i); [done..| |].
  - intros z Hz. pose proof (last_seq_ge l z Hl Hz) as Hle. split_and!; [lia| |by intros _ ?].
    destruct (last_order l z x Hl Hlast Hz) as [->|(_ & Hle' & _)]; unfold it in *; lia.
  - intros _ k Hk. assert (k = i) as -> by (by eapply own_inj).
    apply last_Some in Hlast as (l' & ->).
    destruct (decide (rc_Type (rec x) = TypeClaim)) as [Hcx|Hcx].
    + exists l', x, []. split_and!; [done..|]. by intros d ?%elem_of_nil.
    + destruct (lo_fence _ Hl l' x [] eq_refl Hcx i Hxo) as (p1 & c & p2 & -> & ? & ? & Hno).
      exists p1, c, (p2 ++ [x]). split_and!; [by rewrite <-app_assoc|done|done|].
      intros d [Hd| ->%list_elem_of_singleton]%elem_of_app; [by apply Hno|done].
Qed.
(** ** What a rejected writer finds at the tail *)

Lemma tail_lower l i t T x :
  log_ok l → last l = Some T → x ∈ l → own i x → tasks !! i = Some t → ¬ it T < tk_Iteration t.
Proof using All.
  intros Hl HT Hx Ho Ht. destruct (own_rec i t x Ho Ht) as (_ & _ & _ & Hit & _).
  destruct (last_order l x T Hl HT Hx) as [->|(_ & Hle & _)]; unfold it in *; lia.
Qed.

Lemma tail_older l i t T x :
  log_ok l → last l = Some T → x ∈ l → own i x → tasks !! i = Some t → claims T →
  rc_StreamSeq (rec T) = tk_StreamSeq t → tk_StreamSeq t ≠ 0%N →
  ¬ rc_Delivered (rec T) < tk_Delivered t.
Proof using All.
  intros Hl HT Hx Ho Ht HcT Hst Hne Hlt.
  destruct (own_has_claim l i x Hl Hx Ho) as (c & Hc & Hcc & Hco & _).
  destruct (own_rec i t c Hco Ht) as (_ & _ & _ & _ & _ & _ & Hde & Hsc).
  destruct (last_order l c T Hl HT Hc) as [->|(_ & _ & Hf)]; [lia|].
  destruct (Hf Hcc HcT) as [_ Hd]. rewrite Hsc, Hde in Hd. specialize (Hd (eq_sym Hst) Hne). lia.
Qed.

(** The conditions under which a rejected writer goes on, for either kind of
    record. *)
Record point_rules (i : nat) (t : Task) (n : Z) (ty : string) (pnt : N → list jentry → Prop) : Prop := {
  pr_land l y data : log_ok l → pnt (last_seq l) l → wrote i t n ty data y →
    (last_seq l < je_Seq y)%N → Z.of_N (je_Seq y) ≤ uint64_max → log_ok (l ++ [y]);
  pr_ext l l' e : log_ok (l ++ l') → pnt e l → pnt e (l ++ l');
  pr_bound l e : log_ok l → pnt e l → Z.of_N e ≤ uint64_max;
  pr_zero e : pnt e [] → pnt 0%N [];
  pr_same l e T : log_ok l → pnt e l → last l = Some T → own i T →
    (∀ idx ty' d, wrote i t idx ty' d T → 0 ≤ idx < n) → pnt (je_Seq T) l;
  pr_lower l e T : log_ok l → pnt e l → last l = Some T → it T < tk_Iteration t → pnt (je_Seq T) l;
  pr_older l e T : log_ok l → pnt e l → last l = Some T → claims T →
    rc_StreamSeq (rec T) = tk_StreamSeq t → tk_StreamSeq t ≠ 0%N →
    rc_Delivered (rec T) < tk_Delivered t → pnt (je_Seq T) l;
}.

Lemma wrote_own i t idx ty d x : wrote i t idx ty d x → own i x.
Proof using All. intros H. by exists t, idx, ty, d. Qed.

Lemma log_prefix l l' : log_ok (l ++ l') → log_ok l.
Proof using All.
  intros [H1 H2 H3]. split.
  - intros x Hx. apply H1. set_solver.
  - by apply StronglySorted_app in H2 as (_ & ? & _).
  - intros pre x post ->. eapply H3. by rewrite <-app_assoc.
Qed.

Lemma last_seq_bound l : log_ok l → Z.of_N (last_seq l) ≤ uint64_max.
Proof using All.
  intros Hl. unfold last_seq. destruct (last l) as [x|] eqn:Hx; [|done].
  apply last_elem in Hx as [Hin _]. by destruct (lo_own _ Hl x Hin).
Qed.

Lemma last_seq_ext l l' : log_ok (l ++ l') → (last_seq l ≤ last_seq (l ++ l'))%N.
Proof using All.
  intros Hl. unfold last_seq at 1. destruct (last l) as [x|] eqn:Hx; [|lia].
  apply last_elem in Hx as [Hin _]. apply last_seq_ge; [done|set_solver].
Qed.

Lemma own_rules i t n ty :
  tasks !! i = Some t → ty ≠ TypeClaim → point_rules i t n ty (claimed i).
Proof using All.
  intros Ht Hty. split.
  - intros l y data Hl Hp Hw Hlt Hmax. apply (land_own l i t y); try done; [by eapply wrote_own|].
    unfold claims. by apply wrote_rec in Hw as (_ & _ & -> & _).
  - intros l l' e Hl (x & Hx & ? & ?). exists x. set_solver.
  - intros l e Hl (x & Hx & _ & <-). by destruct (lo_own _ Hl x Hx).
  - intros e (x & Hx & _). by apply elem_of_nil in Hx.
  - intros l e T Hl _ HT Ho _. exists T. by apply last_elem in HT as [? _].
  - intros l e T Hl (x & Hx & Ho & _) HT Hlt. by destruct (tail_lower l i t T x).
  - intros l e T Hl (x & Hx & Ho & _) HT Hc Hs Hn Hlt. by destruct (tail_older l i t T x).
Qed.

(** [seen] for the claim of a delivery that skipped the claims of older ones. *)
Definition seen_rule (i : nat) (t : Task) (seen : jentry → Prop) : Prop :=
  (∀ x, it x < tk_Iteration t → seen x) ∧
  (∀ k t', tasks !! k = Some t' → k ≠ i → tk_StreamSeq t' = tk_StreamSeq t → tk_StreamSeq t ≠ 0%N →
   ∀ x, claims x ∨ (∃ m, own m x ∧ m ≠ i ∧ m ≠ k) → seen x).

Lemma claim_rules i t seen :
  tasks !! i = Some t → seen_rule i t seen → point_rules i t 0 TypeClaim (claim_point seen i t).
Proof using All.
  intros Ht [Hlow Hold]. split.
  - intros l y data Hl Hp Hw Hlt Hmax. apply (land_claim seen l i t y); try done; [by eapply wrote_own|].
    unfold claims. by apply wrote_rec in Hw as (_ & _ & -> & _).
  - intros l l' e Hl [He Hp]. split; [pose proof (last_seq_ext l l' Hl); lia|].
    intros x [Hx|Hx]%elem_of_app Hle; [by apply Hp|].
    exfalso. destruct (last l) as [z|] eqn:Hz.
    + apply last_elem in Hz as [Hzin Hzs]. pose proof (lo_sorted _ Hl) as Hs.
      apply StronglySorted_app in Hs as (H12 & _). destruct (H12 z x Hzin Hx) as (? & _). lia.
    + unfold last_seq in He. rewrite Hz in He.
      destruct (lo_own _ Hl x) as [(k & t' & ? & ? & ? & _ & Hne & _) _]; [set_solver|lia].
  - intros l e Hl [He _]. pose proof (last_seq_bound l Hl). lia.
  - intros e _. split; [done|]. by intros x ?%elem_of_nil.
  - intros l e T Hl _ HT (t' & idx & ty & d & Hw) Hidx.
    assert (t' = t) as -> by (destruct Hw as (Ht' & _); congruence).
    specialize (Hidx idx ty d Hw). lia.
  - intros l e T Hl _ HT Hlt. apply last_elem in HT as HT'. destruct HT' as [_ HTs].
    split; [rewrite HTs; lia|]. intros x Hx _.
    assert (it x < tk_Iteration t) as Hx'.
    { destruct (last_order l x T Hl HT Hx) as [->|(_ & ? & _)]; lia. }
    split_and!; [lia| |by apply Hlow|].
    + intros Ho. destruct (own_rec i t x Ho Ht) as (_ & _ & _ & Hit & _). unfold it in Hx'. lia.
    + intros _ Hst Hne. destruct (lo_own _ Hl x Hx) as [(k & Hk) _].
      destruct (own_task k x Hk) as [t' Ht'].
      destruct (own_rec k t' x Hk Ht') as (_ & _ & _ & Hit & _ & _ & _ & Hsx).
      destruct (tasks_message k i t' t Ht' Ht) as [? _]; [congruence..|]. unfold it in Hx'. lia.
  - intros l e T Hl _ HT Hc Hst Hne Hlt. apply last_elem in HT as HT'. destruct HT' as [HTin HTs].
    destruct (lo_own _ Hl T HTin) as [(k & Hk) _]. destruct (own_task k T Hk) as [t' Ht'].
    destruct (own_rec k t' T Hk Ht') as (_ & _ & _ & Hit & _ & _ & Hde & Hsx).
    destruct (tasks_message k i t' t Ht' Ht) as [HitT _]; [congruence..|].
    assert (k ≠ i) as Hki by (intros ->; assert (t' = t) by congruence; subst; lia).
    split; [rewrite HTs; lia|]. intros x Hx _.
    assert (¬ own i x) as Hnx by (intros Ho; by destruct (tail_older l i t T x)).
    split_and!; [|done| |].
    + destruct (last_order l x T Hl HT Hx) as [->|(_ & ? & _)]; unfold it in *; lia.
    + apply (Hold k t'); [done|done|congruence|done|].
      destruct (decide (rc_Type (rec x) = TypeClaim)) as [|Hcx]; [by left|right].
      destruct (lo_own _ Hl x Hx) as [(m & Hm) _]. exists m. split_and!; [done|by intros ->|]. intros ->.
      destruct (own_has_claim l k x Hl Hx Hm) as (c & Hcin & Hcc & Hco & [->|Hlt']); [done|].
      assert (c = T) as -> by (by eapply own_claim_once).
      destruct (last_order l x T Hl HT Hx) as [->|(? & _)]; [done|lia].
    + intros Hcx Hsx' _. destruct (last_order l x T Hl HT Hx) as [->|(_ & _ & Hf)]; [done|].
      destruct (Hf Hcx Hc) as [_ Hd]. enough (rc_Delivered (rec x) < rc_Delivered (rec T)) by lia.
      apply Hd; congruence.
Qed.
(** ** Unsafe tools *)

(** The iteration and position of a recorded unsafe intent. *)
Definition unsafe_pos (x : jentry) : option (Z * Z) :=
  if bool_decide (rc_Type (rec x) = TypeToolIntent) then
    match unmarshal_ToolIntent (rc_Data (rec x)) with
    | Ret i => if bool_decide (ti_Replay i = Unsafe) then Some (it x, tc_Call (ti_call i)) else None
    | _ => None
    end
  else None.

Definition key_of (pos : Z * Z) : string :=
  runID +:+ "." +:+ stepID +:+ "." +:+ pretty pos.1 +:+ "." +:+ pretty pos.2.

Definition unsafe_runs (rs : list (string * string)) : list string :=
  omap (λ '(key, replay), if bool_decide (replay = Unsafe) then Some key else None) rs.

(** Unsafe intents have positions of their own, and a tool declared unsafe was
    started at most once per key, for a recorded unsafe intent. *)
Record runs_ok (w : jworld) : Prop := {
  ro_pos : NoDup (omap unsafe_pos (jw_log w));
  ro_once : NoDup (unsafe_runs (jw_runs w));
  ro_intent : ∀ key, key ∈ unsafe_runs (jw_runs w) →
    ∃ x pos, x ∈ jw_log w ∧ unsafe_pos x = Some pos ∧ key = key_of pos;
}.

Lemma key_of_inj pos pos' : key_of pos = key_of pos' → pos = pos'.
Proof using All.
  unfold key_of. intros H. do 4 apply str_app_cancel in H. apply pretty_dot_inj in H as [H1 H2].
  apply (inj pretty) in H2. destruct pos, pos'; simpl in *; congruence.
Qed.

Context (strict : bool).

Definition jinv (w : jworld) : Prop := log_ok (jw_log w) ∧ (strict = true → runs_ok w).

(** What the deliveries in [who] do to the world. *)
Definition moves (who : nat → Prop) (w w' : jworld) : Prop :=
  ∃ l rs, jw_log w' = jw_log w ++ l ∧ (∀ x, x ∈ l → ∃ k, who k ∧ own k x) ∧
    jw_runs w' = jw_runs w ++ rs ∧
    (strict = true → ∀ key, key ∈ unsafe_runs rs →
       ∃ k x pos, who k ∧ x ∈ jw_log w' ∧ own k x ∧ unsafe_pos x = Some pos ∧ key = key_of pos).

Definition guar (i : nat) : jworld → jworld → Prop := moves (eq i).
Definition rely (i : nat) : jworld → jworld → Prop := moves (λ k, k ≠ i).

Lemma moves_refl who w : moves who w w.
Proof using All.
  exists [], []. rewrite !app_nil_r. split_and!; [done|by intros x ?%elem_of_nil|done|].
  by intros _ k ?%elem_of_nil.
Qed.

Lemma moves_trans who w1 w2 w3 : moves who w1 w2 → moves who w2 w3 → moves who w1 w3.
Proof using All.
  intros (l & rs & Hl & Ho & Hr & Hk) (l' & rs' & Hl' & Ho' & Hr' & Hk').
  exists (l ++ l'), (rs ++ rs'). rewrite Hl', Hr', Hl, Hr, !app_assoc. split_and!; [done| |done|].
  - intros x [?|?]%elem_of_app; eauto.
  - intros Hs key. unfold unsafe_runs. rewrite omap_app, elem_of_app. intros [H|H].
    + destruct (Hk Hs key H) as (k & x & pos & ? & Hx & ?). exists k, x, pos.
      split_and!; try tauto. rewrite <-Hl. apply elem_of_app. by left.
    + destruct (Hk' Hs key H) as (k & x & pos & ? & Hx & ?). exists k, x, pos.
      split_and!; try tauto. by rewrite Hl', Hl in Hx.
Qed.

Lemma moves_mono (who who' : nat → Prop) w w' :
  (∀ k, who k → who' k) → moves who w w' → moves who' w w'.
Proof using All.
  intros Hw (l & rs & ? & Ho & ? & Hk). exists l, rs. split_and!; [done| |done|].
  - intros x Hx. destruct (Ho x Hx) as (k & ? & ?). eauto.
  - intros Hs key Hkey. destruct (Hk Hs key Hkey) as (k & x & pos & ? & ?). exists k, x, pos. naive_solver.
Qed.

#[local] Abbreviation jwp i := (wp (jreply subject) jinv (rely i) (guar i)).

(** ** Reads *)

(** A read answered in some world between the start and the end. *)
Definition read_at (i : nat) (w0 w : jworld) (Ψ : jworld → Prop) : Prop :=
  ∃ w1, rely i w0 w1 ∧ rely i w1 w ∧ jinv w1 ∧ Ψ w1.

Lemma transient_wp i {A} (e : journalE (js_error + A)) (Ψ : js_error + A → jworld → Prop) :
  (∀ w w' r, jreply subject _ w e w' r → w' = w ∧ Ψ r w) → ∀ left attempt w0 wb,
  rely i wb w0 →
  jwp i (λ r w, rely i wb w ∧
    ((∃ e, r = inl e ∧ isTransientRead e = true) ∨ read_at i wb w (Ψ r)))
    (retryTransient left attempt (call e)) w0.
Proof using All.
  intros Hread. induction left as [|left IH]; intros attempt w0 wb Hb; simpl.
  { split; [done|]. left. by exists JsTimeout. }
  intros w Hr Hi w' r Hrep. destruct (Hread _ _ _ Hrep) as [-> HΨ].
  assert (rely i wb w) as Hbw by (by eapply moves_trans).
  split_and!; [done|apply moves_refl|].
  assert (read_at i wb w (Ψ r)) as Hra by (exists w; split_and!; [done|apply moves_refl|done|done]).
  destruct r as [err|a]; [|by split; [|right]].
  destruct (isTransientRead err) eqn:Ht; simpl; [|by split; [|right]].
  intros w2 Hr2 Hi2 w3 alive Hw3. simpl in Hw3. subst w3.
  assert (rely i wb w2) as Hbw2 by (by eapply moves_trans).
  split_and!; [done|apply moves_refl|].
  destruct left; [split; [done|]; left; by exists err|].
  destruct alive; [|split; [done|]; left; by exists err].
  by apply IH.
Qed.

(** The tail a read of it returns. *)
Definition tail_is (l : list jentry) (tail : Record_) (id : string) : Prop :=
  (l = [] ∧ tail = zero_Record ∧ id = "") ∨ ∃ x, last l = Some x ∧ tail = rec x ∧ id = msg_id x.

Lemma log_seq_pos l x : log_ok l → x ∈ l → rc_Seq (rec x) = je_Seq x ∧ je_Seq x ≠ 0%N.
Proof using All.
  intros Hl Hx. destruct (lo_own _ Hl x Hx) as [(k & Hk) _]. destruct (own_task k x Hk) as [tk Htk].
  by destruct (own_rec k tk x Hk Htk) as (_ & ? & ? & _).
Qed.

Lemma last_seq_zero l : log_ok l → last_seq l = 0%N → l = [].
Proof using All.
  intros Hl. unfold last_seq. destruct (last l) as [x|] eqn:Hx; [|by apply last_None in Hx as ->].
  intros H0. apply last_elem in Hx as [Hx _]. by destruct (log_seq_pos l x Hl Hx).
Qed.

Lemma log_upto l l' :
  log_ok (l ++ l') → List.filter (λ x, je_Seq x <=? last_seq l)%N (l ++ l') = l.
Proof using All.
  intros Hl. rewrite List.filter_app, filter_id, filter_none; [apply app_nil_r| |].
  - intros x Hx. apply N.leb_gt. destruct (lo_own _ Hl x) as [(k & Hk) _]; [set_solver|].
    destruct (own_task k x Hk) as [tk Htk]. destruct (own_rec k tk x Hk Htk) as (_ & _ & Hne & _).
    unfold last_seq. destruct (last l) as [z|] eqn:Hz; [|lia]. apply last_elem in Hz as [Hz _].
    pose proof (lo_sorted _ Hl) as Hs. apply StronglySorted_app in Hs as (H12 & _).
    by destruct (H12 z x Hz Hx) as (? & _).
  - intros x Hx. apply N.leb_le, last_seq_ge; [by eapply log_prefix|done].
Qed.

Lemma log_decodes l : log_ok l → mapM_outcome decode_entry l = Ret (rec <$> l).
Proof using All.
  intros Hl. apply mapM_outcome_fmap. intros x Hx. destruct (lo_own _ Hl x Hx) as [(k & Hk) _].
  destruct (own_task k x Hk) as [tk Htk]. by destruct (own_rec k tk x Hk Htk) as (? & _).
Qed.

Lemma tail_is_seq l tail id : log_ok l → tail_is l tail id → rc_Seq tail = last_seq l.
Proof using All.
  intros Hl [(-> & -> & _)|(T & HT & -> & _)]; [done|]. apply last_elem in HT as [HT ->].
  by apply (log_seq_pos l).
Qed.

Lemma readTail_wp i t w0 :
  tasks !! i = Some t →
  jwp i (λ o w, rely i w0 w ∧
    match o with
    | Ret (tail, id) => read_at i w0 w (λ w1, tail_is (jw_log w1) tail id)
    | Err _ => True
    | Panic _ => False
    end) (readTail t) w0.
Proof using All.
  intros Ht. destruct (tasks_ok i t Ht) as [Hrun Hstep _ _ _ _].
  unfold readTail. rewrite Hrun, Hstep, subject_of. unfold io_of, mbind, io_mbind. cbn [prog_bind].
  apply (wp_bind (jreply subject) jinv) with (Φ := λ r w, rely i w0 w ∧
    ((∃ e, r = inl e ∧ isTransientRead e = true) ∨
     read_at i w0 w (λ w1, match r with
               | inr x => last (jw_log w1) = Some x
               | inl err => err = JsMsgNotFound → jw_log w1 = [] end))).
  - apply transient_wp; [|apply moves_refl]. intros w w' r [-> H]. split; [done|].
    destruct r; [by apply H|by apply H].
  - intros r w [Hrel Hr]. cbn [wp]. split; [destruct r as [[]|]; done|].
    destruct r as [err|x].
    + destruct Hr as [(e & [= <-] & Hte)|(w1 & H1 & H2 & H3 & H4)].
      * by destruct err.
      * destruct err; try done. exists w1. split_and!; [done..|]. left. by rewrite H4.
    + destruct Hr as [(e & [=] & _)|(w1 & H1 & H2 & [Hl H3] & H4)].
      apply last_elem in H4 as Hin. destruct Hin as [Hin _].
      destruct (lo_own _ Hl x Hin) as [(k & Hk) _]. destruct (own_task k x Hk) as [t' Ht'].
      destruct (own_rec k t' x Hk Ht') as (Hd & _). rewrite Hd. cbn [mbind outcome_bind].
      exists w1. split_and!; [done..|]. right. by exists x.
Qed.
Lemma wp_inv i {A} (Φ : A → jworld → Prop) (p : prog journalE A) : ∀ w0,
  jinv w0 → jwp i Φ p w0 → jwp i (λ a w, Φ a w ∧ jinv w) p w0.
Proof using All.
  induction p as [a|R e k IH]; simpl; intros w0 Hi Hp; [done|].
  intros w Hr Hw w' r Hrep. destruct (Hp w Hr Hw w' r Hrep) as (? & ? & ?). auto.
Qed.

Lemma bind_wp i {A B} (p : prog journalE A) (f : A → prog journalE B) w0
    (Φ : A → jworld → Prop) (Ψ : B → jworld → Prop) :
  jinv w0 → jwp i Φ p w0 → (∀ a w, jinv w → Φ a w → jwp i Ψ (f a) w) →
  jwp i Ψ (prog_bind f p) w0.
Proof using All.
  intros Hi Hp Hf. eapply (wp_bind (jreply subject) jinv); [by apply wp_inv|].
  intros a w [? ?]. by apply Hf.
Qed.

Lemma jbind_wp i {A B} (m : jprog A) (f : A → jprog B) j w0
    (Φ : Journal * outcome A → jworld → Prop) (Ψ : Journal * outcome B → jworld → Prop) :
  jinv w0 → jwp i Φ (m j) w0 →
  (∀ j' o w, jinv w → Φ (j', o) w →
     match o with
     | Ret a => jwp i Ψ (f a j') w
     | Err e => Ψ (j', Err e) w
     | Panic s => Ψ (j', Panic s) w
     end) →
  jwp i Ψ ((m ≫= f) j) w0.
Proof using All.
  intros Hi Hm Hf. unfold mbind, jprog_mbind. eapply bind_wp; [done..|].
  intros [j' o] w Hi' Ho. specialize (Hf j' o w Hi' Ho). cbn. by destruct o.
Qed.

Lemma j_tail_wp i t j w0 :
  tasks !! i = Some t → jn_task j = t →
  jwp i (λ r w, r.1 = j ∧ rely i w0 w ∧
    match r.2 with
    | Ret (tail, id) => read_at i w0 w (λ w1, tail_is (jw_log w1) tail id)
    | _ => True
    end) (j_tail j) w0.
Proof using All.
  intros Ht Hj. unfold j_tail. rewrite Hj.
  eapply (wp_bind (jreply subject) jinv); [by apply readTail_wp|].
  intros o w [Hr Ho]. cbn. split_and!; [done..|]. by destruct o as [[]| |].
Qed.

(** ** Appends *)

(** The fields an append leaves alone. *)
Record frame (j j' : Journal) : Prop := {
  fm_task : jn_task j' = jn_task j;
  fm_records : jn_records j' = jn_records j;
  fm_commit : jn_lastCommitSeq j' = jn_lastCommitSeq j;
  fm_held : jn_heldPositions j' = jn_heldPositions j;
  fm_calls : jn_toolCalls j' = jn_toolCalls j;
  fm_done : jn_done j' = jn_done j;
}.

Lemma frame_refl j : frame j j.
Proof using Type. done. Qed.

(** What delivery [i] itself has added since [w0]: records number [n] that
    satisfy [Q]. *)
Definition ext (i : nat) (n : Z) (Q : string → raw → Prop) (w0 w : jworld) : Prop :=
  ∃ l, jw_log w = jw_log w0 ++ l ∧
    ∀ x t idx ty d, x ∈ l → wrote i t idx ty d x → idx = n ∧ Q ty d.

(** Its records are numbered below [n], or they are number [n] and satisfy
    [Q]. *)
Definition upto (i : nat) (n : Z) (Q : string → raw → Prop) (l : list jentry) : Prop :=
  ∀ x t idx ty d, x ∈ l → wrote i t idx ty d x → idx < n ∨ (idx = n ∧ Q ty d).

Lemma ext_refl i n Q w : ext i n Q w w.
Proof using Type. exists []. rewrite app_nil_r. split; [done|]. by intros ? ? ? ? ? ?%elem_of_nil. Qed.

Lemma ext_rely i n Q w0 w w' : ext i n Q w0 w → rely i w w' → ext i n Q w0 w'.
Proof using All.
  intros (l & Hl & Ho) (l' & rs & Hl' & Ho' & _). exists (l ++ l').
  split; [by rewrite Hl', Hl, app_assoc|]. intros x t idx ty d [Hx|Hx]%elem_of_app Hw; [by eapply Ho|].
  destruct (Ho' x Hx) as (k & Hk & Hko). destruct Hk. eapply own_inj; [done|by eapply wrote_own].
Qed.

Lemma ext_upto i n Q w0 w : upto i n Q (jw_log w0) → ext i n Q w0 w → upto i n Q (jw_log w).
Proof using Type.
  intros Hu (l & Hl & Ho) x t idx ty d. rewrite Hl. intros [Hx|Hx]%elem_of_app Hw; [by eapply Hu|].
  right. by eapply Ho.
Qed.

Section Append.
Context (i : nat) (t : Task) (n : Z) (ty : string) (data : raw).
Context (pnt : N → list jentry → Prop) (Q : string → raw → Prop) (P G : jworld → Prop).
Hypothesis is_task : tasks !! i = Some t.
Hypothesis rules : point_rules i t n ty pnt.
Hypothesis HQ : Q ty data.
Hypothesis P_stable : ∀ w w', rely i w w' → jinv w' → P w → P w'.
Hypothesis G_stable : ∀ w w', rely i w w' → jinv w' → G w → G w'.
Hypothesis land : ∀ w x, jinv w → P w → G w → pnt (last_seq (jw_log w)) (jw_log w) →
  wrote i t n ty data x → (last_seq (jw_log w) < je_Seq x)%N →
  (strict = true → runs_ok (store w x)) ∧ G (store w x).

Context (wb : jworld).
Hypothesis numbered : upto i n Q (jw_log wb).

Definition append_post (j : Journal) (r : Journal * outcome N) (w : jworld) : Prop :=
  frame j r.1 ∧ G w ∧ ext i n Q wb w ∧
  match r.2 with
  | Ret s => (∃ x ty' d, x ∈ jw_log w ∧ wrote i t n ty' d x ∧ Q ty' d ∧ je_Seq x = s) ∧
             jn_seq r.1 = s ∧ jn_next r.1 = n + 1
  | _ => jn_seq r.1 = jn_seq j ∧ jn_next r.1 = n
  end.

(** Its record was stored in this call. *)
Definition landed (w : jworld) : Prop :=
  ∃ l x, jw_log w = jw_log wb ++ l ∧ x ∈ l ∧ wrote i t n ty data x.

Definition loop_at (e : N) (w : jworld) : Prop :=
  pnt e (jw_log w) ∧ G w ∧ ext i n Q wb w ∧
  (P w ∨ (landed w ∧ ∃ x, x ∈ jw_log w ∧ (e < je_Seq x)%N)).

Lemma loop_at_stable e w w' : rely i w w' → jinv w' → loop_at e w → loop_at e w'.
Proof using All.
  intros Hr Hi (Hp & Hg & He & Hm). pose proof Hr as (l & rs & Hl & _). destruct Hi as [Hok Hi2].
  split_and!.
  - rewrite Hl. apply (pr_ext _ _ _ _ _ rules); [by rewrite <-Hl|done].
  - by eapply G_stable.
  - by eapply ext_rely.
  - destruct Hm as [Hm|[(l' & x & Hl' & Hx & Hw) (y & Hy & Hlt)]]; [left; by eapply P_stable|right].
    split.
    + exists (l' ++ l), x. split_and!; [by rewrite Hl, Hl', app_assoc|set_solver|done].
    + exists y. rewrite Hl. set_solver.
Qed.

Lemma advance_post j s w x ty' d :
  jn_task j = t → jn_next j = n → G w → ext i n Q wb w → x ∈ jw_log w → wrote i t n ty' d x →
  Q ty' d → je_Seq x = s → jwp i (append_post j) (advance s j) w.
Proof using All.
  intros Hj Hn Hg He Hx Hw HQ' Hs. pose proof Hw as (_ & Hne & _).
  unfold advance, mbind, jprog_mbind, j_of, j_get, j_modify. cbn [prog_bind fst snd].
  destruct (N.eqb_spec s 0) as [|_]; [congruence|]. cbn.
  destruct (jn_next j <? 0); cbn.
  { split_and!; [apply frame_refl|done..]. }
  destruct (s <? jn_seq j)%N; cbn; (split_and!; [by split|done|done|]).
  - by split.
  - split_and!; [by exists x, ty', d|done|by rewrite Hn].
Qed.
(** A record of ours stored in this call is the newest of ours. *)
Lemma landed_tail w w1 T :
  rely i w w1 → jinv w1 → landed w → last (jw_log w1) = Some T →
  (∀ idx ty' d, wrote i t idx ty' d T → ext i n Q wb w1 → idx = n) ∧
  ¬ it T < tk_Iteration t ∧
  (claims T → rc_StreamSeq (rec T) = tk_StreamSeq t → tk_StreamSeq t ≠ 0%N →
   ¬ rc_Delivered (rec T) < tk_Delivered t).
Proof using All.
  intros (l' & rs & Hl' & _) [Hok _] (l & x & Hl & Hx & Hw) HT.
  assert (x ∈ jw_log w1) as Hx1 by (rewrite Hl', Hl; set_solver).
  apply wrote_own in Hw as Ho. split_and!.
  - intros idx ty' d HwT (le & Hle & Ho').
    assert (le = l ++ l') as ->.
    { rewrite Hl', Hl, <-app_assoc in Hle. by apply app_inv_head in Hle. }
    assert (T ∈ l ++ l') as HTl.
    { rewrite Hle in HT. apply last_Some in HT as (pre & Hpre). destruct (exists_last (l := l ++ l')) as (q & z & Hq).
      { intros [-> ->]%app_nil. by apply elem_of_nil in Hx. }
      rewrite Hq, app_assoc in Hpre. apply app_inj_tail in Hpre as [_ ->]. rewrite Hq. set_solver. }
    by destruct (Ho' T t idx ty' d HTl HwT).
  - by eapply tail_lower.
  - intros. by eapply tail_older.
Qed.

(** The publish: a refused one changes nothing, one that lands is the newest
    record, and an acknowledgement names a record of this number. *)
Lemma publish_step e w w' r msg :
  recordMessage t ty n e data = Ret msg → jinv w → loop_at e w → P w →
  jreply subject _ w (JPublish msg) w' r →
  jinv w' ∧ guar i w w' ∧ loop_at e w' ∧
  ∀ s, r = inr s → ∃ x ty' d, x ∈ jw_log w' ∧ wrote i t n ty' d x ∧ Q ty' d ∧ je_Seq x = s.
Proof using All.
  intros Hm Hi (Hpw & Hgw & Hew & _) HPw Hrep. pose proof (message_id _ _ _ _ _ _ Hm) as (Hn0 & Hmid & _).
  destruct Hrep as [(x & (Hsub & Hmsg & Hexp & Hlt & Hmax) & -> & Hr')|[-> Hr']].
  - rewrite (message_expected _ _ _ _ _ _ Hm) in Hexp by (eapply (pr_bound _ _ _ _ _ rules); [apply Hi|done]).
    assert (wrote i t n ty data x) as Hw.
    { split_and!; [done|lia|]. exists e. by rewrite Hmsg. }
    rewrite Hexp in Hpw. destruct (land w x Hi HPw Hgw Hpw Hw Hlt) as [Hru Hgx].
    assert (log_ok (jw_log w ++ [x])) as Hlok by (eapply (pr_land _ _ _ _ _ rules); [apply Hi|done..]).
    split_and!; [by split| | |].
    + exists [x], []. simpl. rewrite app_nil_r. split_and!; [done| |done|by intros _ k ?%elem_of_nil].
      intros y ->%list_elem_of_singleton. exists i. split; [done|by eapply wrote_own].
    + split_and!; [by rewrite Hexp; apply (pr_ext _ _ _ _ _ rules)|done| |right].
      * destruct Hew as (l & Hl & Hol). exists (l ++ [x]). simpl. split; [by rewrite Hl, app_assoc|].
        intros y t' idx ty' d [Hy| ->%list_elem_of_singleton]%elem_of_app Hwy; [by eapply Hol|].
        destruct (own_msg i i t' idx ty' d t n x Hwy is_task) as [_ ->].
        { unfold msg_id. by rewrite Hmsg. }
        split; [done|]. apply wrote_rec in Hwy as (_ & _ & Hty' & _ & _ & _ & _ & _ & Hd').
        apply wrote_rec in Hw as (_ & _ & Hty & _ & _ & _ & _ & _ & Hd). congruence.
      * destruct Hew as (l & Hl & _). split.
        -- exists (l ++ [x]), x. simpl. split_and!; [by rewrite Hl, app_assoc|set_solver|done].
        -- exists x. simpl. split; [set_solver|by rewrite Hexp].
    + intros s ->. exists x, ty, data. destruct Hr' as [[= <-]|[? [=]]]. simpl. set_solver.
  - split_and!; [done|apply moves_refl|split_and!; [done..|by left]|]. intros s ->.
    destruct Hr' as [(x & Hx & Hidx & [= ->])|[? [=]]].
    destruct (lo_own _ (proj1 Hi) x Hx) as [(k & t' & idx & ty' & d & Hw) _].
    destruct (own_msg k i t' idx ty' d t n x Hw is_task) as [-> ->]; [by rewrite Hidx|].
    assert (t' = t) as -> by (destruct Hw as (Ht' & _); congruence).
    exists x, ty', d. split_and!; [done..| |done].
    destruct (ext_upto i n Q wb w numbered Hew x t n ty' d Hx Hw) as [?|[_ ?]]; [lia|done].
Qed.

(** A tail with the message ID of the record is this record. *)
Lemma tail_landed w1 T id :
  jinv w1 → ext i n Q wb w1 → T ∈ jw_log w1 → MsgID t n = Ret id → msg_id T = id →
  ∃ ty' d, wrote i t n ty' d T ∧ Q ty' d.
Proof using All.
  intros Hi1 He1 HT Hid Hids. destruct (lo_own _ (proj1 Hi1) T HT) as [(k & t' & idx & ty' & d & Hw) _].
  destruct (own_msg k i t' idx ty' d t n T Hw is_task) as [-> ->]; [by rewrite Hids|].
  assert (t' = t) as -> by (destruct Hw as (Ht' & _); congruence). exists ty', d. split; [done|].
  destruct (ext_upto i n Q wb w1 numbered He1 T t n ty' d HT Hw) as [?|[_ ?]]; [lia|done].
Qed.

Lemma older_spec T :
  olderDeliveryClaim (rec T) t = Ret true →
  claims T ∧ rc_StreamSeq (rec T) = tk_StreamSeq t ∧ tk_StreamSeq t ≠ 0%N ∧
  rc_Delivered (rec T) < tk_Delivered t.
Proof using Type.
  unfold olderDeliveryClaim. rewrite !bind_unit_ret_iff. intros (_ & _ & [= Hold]).
  apply andb_true_iff in Hold as [[[Hc Hne]%andb_true_iff Hst]%andb_true_iff Hd].
  apply bool_decide_eq_true in Hc. apply negb_true_iff, N.eqb_neq in Hne.
  apply N.eqb_eq in Hst. by apply Z.ltb_lt in Hd.
Qed.

(** After a rejection, the tails behind which the writer may try again. *)
Lemma resync_point e w' w1 T id :
  loop_at e w' → rely i w' w1 → jinv w1 → last (jw_log w1) = Some T → MsgID t n = Ret id → msg_id T ≠ id →
  sameClaim (rec T) t || (rc_Iteration (rec T) <? tk_Iteration t) = true ∨
    olderDeliveryClaim (rec T) t = Ret true →
  pnt (je_Seq T) (jw_log w1) ∧ P w'.
Proof using All.
  intros Hla Hr1 Hi1 HT Hid Hids Hgo. pose proof Hla as (_ & _ & _ & Hmode).
  assert (loop_at e w1) as (Hp1 & Hg1 & He1 & _) by (by apply (loop_at_stable e w' w1)).
  apply last_elem in HT as HTin. destruct HTin as [HTin _].
  assert (landed w' → _) as Hlt by (intros HL; exact (landed_tail w' w1 T Hr1 Hi1 HL HT)).
  assert (∀ idx ty' d, wrote i t idx ty' d T → 0 ≤ idx < n) as Hidx.
  { intros idx ty' d Hw. pose proof Hw as (_ & _ & e' & Hm'). apply message_id in Hm' as (Hge & Hmi & _).
    split; [done|].
    destruct (ext_upto i n Q wb w1 numbered He1 T t idx ty' d HTin Hw) as [?|[-> _]]; [done|].
    destruct Hids. unfold msg_id. rewrite Hid in Hmi. by injection Hmi as ->. }
  destruct Hgo as [[Hsame|Hlow%Z.ltb_lt]%orb_true_iff|Hold%older_spec].
  - destruct (lo_own _ (proj1 Hi1) T HTin) as [(k & Hk) _]. assert (k = i) as -> by (by eapply own_same).
    split; [exact (pr_same _ _ _ _ _ rules _ e T (proj1 Hi1) Hp1 HT Hk Hidx)|].
    destruct Hmode as [?|[HL _]]; [done|]. destruct (Hlt HL) as (Hn' & _).
    destruct Hk as (t' & idx & ty' & d & Hw). assert (t' = t) as -> by (destruct Hw as (Ht' & _); congruence).
    specialize (Hn' idx ty' d Hw He1). specialize (Hidx idx ty' d Hw). lia.
  - split; [exact (pr_lower _ _ _ _ _ rules _ e T (proj1 Hi1) Hp1 HT Hlow)|].
    destruct Hmode as [?|[HL _]]; [done|]. by destruct (Hlt HL) as (_ & ? & _).
  - destruct Hold as (Hc & Hst & Hne & Hd).
    split; [exact (pr_older _ _ _ _ _ rules _ e T (proj1 Hi1) Hp1 HT Hc Hst Hne Hd)|].
    destruct Hmode as [?|[HL _]]; [done|]. by destruct (Hlt HL) as (_ & _ & []).
Qed.

(** A tail at the expected sequence: nothing of this call has landed. *)
Lemma unmoved_point e w' w1 :
  loop_at e w' → rely i w' w1 → jinv w1 → (last_seq (jw_log w1) = e ∨ jw_log w1 = []) →
  pnt (last_seq (jw_log w1)) (jw_log w1) ∧ P w'.
Proof using All.
  intros Hla Hr1 Hi1 Hlast. pose proof Hla as (_ & _ & _ & Hmode).
  assert (loop_at e w1) as (Hp1 & _) by (by apply (loop_at_stable e w' w1)).
  split.
  - destruct Hlast as [->|Hnil]; [done|]. rewrite Hnil in Hp1 |- *. by eapply (pr_zero _ _ _ _ _ rules).
  - destruct Hmode as [?|[(l & y & Hl & Hy & _) (x & Hx & Hxe)]]; [done|].
    destruct Hr1 as (l1 & rs & Hl1 & _). destruct Hlast as [Hlast|Hnil].
    + pose proof (last_seq_ge _ x (proj1 Hi1)) as Hge. rewrite Hl1 in Hge at 1. rewrite Hlast in Hge.
      specialize (Hge ltac:(set_solver)). lia.
    + rewrite Hnil in Hl1. symmetry in Hl1. apply app_nil in Hl1 as [Hw' _].
      rewrite Hw' in Hx. by apply elem_of_nil in Hx.
Qed.

Lemma append_loop_wp left : ∀ try e w0 j id,
  jn_task j = t → jn_next j = n → MsgID t n = Ret id →
  pnt e (jw_log w0) → G w0 → ext i n Q wb w0 → P w0 →
  jwp i (append_post j) (append_loop left try ty data id e j) w0.
Proof using All.
  induction left as [|left IH]; intros try e w0 j id Hj Hn Hid Hp Hg He HP.
  { cbn. split_and!; [apply frame_refl|done..]. }
  cbn [append_loop]. unfold mbind at 1, jprog_mbind at 1, j_get. cbn [prog_bind fst snd].
  unfold mbind at 1, jprog_mbind at 1, j_of at 1. cbn [prog_bind fst snd]. rewrite Hj, Hn.
  destruct (recordMessage t ty n e data) as [msg|err|m] eqn:Hm;
    [|cbn; split_and!; [apply frame_refl|done..]|cbn; split_and!; [apply frame_refl|done..]].
  unfold mbind at 1, jprog_mbind at 1, j_call at 1. cbn [prog_bind call fst snd wp].
  intros w Hr Hi w' r Hrep.
  assert (loop_at e w) as Hlw.
  { apply (loop_at_stable e w0 w Hr Hi). split_and!; [done..|by left]. }
  destruct (publish_step e w w' r msg) as (Hi' & Hgu & Hla & Hok); [done..|by eapply P_stable|done|].
  split_and!; [done..|]. cbn [prog_bind fst snd]. destruct r as [err|s].
  2: { destruct (Hok s eq_refl) as (x & ty' & d & Hx & Hw & HQ' & Hs).
       destruct Hla as (_ & Hg' & He' & _). by eapply advance_post. }
  pose proof Hla as (_ & Hg' & He' & _). destruct (wrongLastSequence err); cbn [negb].
  2: { unfold j_of, append_post. cbn [wp fst snd]. split_and!; [apply frame_refl|done..]. }
  eapply jbind_wp; [done|by apply (j_tail_wp i t)|]. cbn [fst snd]. intros j' o w2 Hi2 (-> & Hr2 & Ho).
  assert (G w2 ∧ ext i n Q wb w2) as [Hg2 He2] by (split; [by eapply G_stable|by eapply ext_rely]).
  destruct o as [[tail tailID]|err2|m2];
    [|split_and!; [apply frame_refl|done..]|split_and!; [apply frame_refl|done..]].
  destruct Ho as (w1 & Hr1 & Hr12 & Hi1 & Htail).
  assert (loop_at e w1) as (Hp1 & Hg1 & He1 & _) by (by apply (loop_at_stable e w' w1)).
  assert (∀ e' w3, pnt e' (jw_log w1) ∧ P w' → rely i w1 w3 → jinv w3 →
    jwp i (append_post j) (append_loop left (try + 1) ty data id e' j) w3) as Hcont.
  { intros e' w3 [Hpe HPe] Hr3 Hi3. pose proof Hr3 as (l & rs & Hl & _).
    apply IH; [done..| |by eapply G_stable|by eapply ext_rely|].
    - rewrite Hl. apply (pr_ext _ _ _ _ _ rules); [rewrite <-Hl; apply Hi3|done].
    - apply (P_stable w' w3); [exact (moves_trans _ _ _ _ Hr1 Hr3)|done|done]. }
  assert (rc_Seq tail = last_seq (jw_log w1)) as Hts by (by eapply tail_is_seq; [apply Hi1|]).
  destruct ((rc_Seq tail =? e)%N || (rc_Seq tail =? 0)%N) eqn:Heq.
  { unfold mbind, jprog_mbind, j_call. cbn. intros w3 Hr3 Hi3 w3' [] ->.
    split_and!; [done|apply moves_refl|]. rewrite Hts in Heq |- *.
    apply Hcont; [|exact (moves_trans _ _ _ _ Hr12 Hr3)|done].
    apply (unmoved_point e); [done..|]. apply orb_true_iff in Heq as [?%N.eqb_eq|H0%N.eqb_eq]; [by left|right].
    apply last_seq_zero; [apply Hi1|done]. }
  destruct Htail as [(Hnil & -> & ->)|(T & HT & -> & ->)]; [by rewrite orb_true_r in Heq|].
  apply last_elem in HT as HTin. destruct HTin as [HTin HTs]. rewrite Hts, HTs.
  assert (T ∈ jw_log w2) as HT2 by (destruct Hr12 as (l & rs & -> & _); set_solver).
  case_bool_decide as Hids.
  { destruct (tail_landed w1 T id) as (ty' & d & Hw & HQ'); [done..|]. by apply (advance_post j _ w2 T ty' d). }
  destruct (sameClaim (rec T) t || _) eqn:Hgo; [apply Hcont; [|done..]; by eapply resync_point; [..|left]|].
  unfold mbind, jprog_mbind, j_of, j_modify. cbn.
  destruct (olderDeliveryClaim (rec T) t) as [[]| |] eqn:Hold; cbn.
  - apply Hcont; [|done..]. by eapply resync_point; [..|right].
  - unfold append_post. cbn. split_and!; [by split|done..].
  - split_and!; [apply frame_refl|done..].
  - split_and!; [apply frame_refl|done..].
Qed.
End Append.
#[local] Opaque appendRetryMax.

(** ** What a holder knows *)

Section Holder.
Context (i : nat) (t : Task).
Hypothesis is_task : tasks !! i = Some t.

(** The positions held by unsafe intents of earlier attempts are known. *)
Definition held_ok (j : Journal) : Prop := priorUnsafePositions j = Ret (jn_heldPositions j).

(** The records of the iteration before the claim have been read, claims
    apart. *)
Definition view_ok (j : Journal) (l : list jentry) : Prop :=
  ∃ pre c post, l = pre ++ c :: post ∧ claims c ∧ own i c ∧
    ∀ x, x ∈ pre → it x = tk_Iteration t → ¬ claims x → rec x ∈ jn_records j.

Definition below_calls (calls : Z) (l : list jentry) : Prop :=
  ∀ x pos, x ∈ l → own i x → unsafe_pos x = Some pos → pos.2 < calls.

Definition clean (j : Journal) (w : jworld) : Prop :=
  strict = true → upto i (jn_next j) (λ _ _, False) (jw_log w).

(** [b]: nothing of an unsafe tool has failed. *)
Record local (b : bool) (j : Journal) (w : jworld) : Prop := {
  lc_task : jn_task j = t;
  lc_next : 0 ≤ jn_next j;
  lc_claimed : jn_done j = false → claimed i (jn_seq j) (jw_log w);
  lc_upto : upto i (jn_next j) (λ _ _, True) (jw_log w);
  lc_tools : b = true → strict = true → jn_done j = false →
    view_ok j (jw_log w) ∧ held_ok j ∧ below_calls (jn_toolCalls j) (jw_log w) ∧ 0 ≤ jn_toolCalls j;
}.

Lemma upto_rely n Q w w' : rely i w w' → upto i n Q (jw_log w) → upto i n Q (jw_log w').
Proof using All.
  intros (l & rs & Hl & Ho & _) Hu x t' idx ty d. rewrite Hl. intros [Hx|Hx]%elem_of_app Hw; [by eapply Hu|].
  destruct (Ho x Hx) as (k & Hk & Hko). destruct Hk. eapply own_inj; [done|by eapply wrote_own].
Qed.

Lemma claimed_app e l l' : claimed i e l → claimed i e (l ++ l').
Proof using All. intros (x & ? & ? & ?). exists x. split_and!; [apply elem_of_app; by left|done..]. Qed.

Lemma view_app j l l' : view_ok j l → view_ok j (l ++ l').
Proof using All.
  intros (pre & c & post & -> & ?). exists pre, c, (post ++ l'). by rewrite <-app_assoc.
Qed.

Lemma below_rely calls w w' :
  rely i w w' → below_calls calls (jw_log w) → below_calls calls (jw_log w').
Proof using All.
  intros (l & rs & Hl & Ho & _) Hb x pos. rewrite Hl. intros [Hx|Hx]%elem_of_app Hxo; [by apply Hb|].
  destruct (Ho x Hx) as (k & Hk & Hko). destruct Hk. by eapply own_inj.
Qed.

Lemma local_rely b j w w' : rely i w w' → local b j w → local b j w'.
Proof using All.
  intros Hr [H1 H2 H3 H4 H5]. pose proof Hr as (l & rs & Hl & _). split; [done..| | |].
  - intros Hd. rewrite Hl. by apply claimed_app, H3.
  - by eapply upto_rely.
  - intros Hb Hs Hd. destruct (H5 Hb Hs Hd) as (? & ? & ? & ?).
    split_and!; [rewrite Hl; by apply view_app|done|by eapply below_rely|done].
Qed.

Lemma clean_rely j w w' : rely i w w' → clean j w → clean j w'.
Proof using All. intros Hr Hc Hs. eapply upto_rely; [done|by apply Hc]. Qed.

(** [c] and [c']: the next number is known to be unused, before and after a
    success. *)
Definition spec {A} (b c c' : bool) (m : jprog A) : Prop :=
  ∀ j w0, jinv w0 → local b j w0 → (c = true → clean j w0) →
    jwp i (λ r w, local b r.1 w ∧ ∀ a, r.2 = Ret a → c' = true → clean r.1 w) (m j) w0.

Lemma spec_bind {A B} b c c1 c2 (m : jprog A) (f : A → jprog B) :
  spec b c c1 m → (∀ a, spec b c1 c2 (f a)) → spec b c c2 (m ≫= f).
Proof using All.
  intros Hm Hf j w0 Hi Hl Hc. eapply jbind_wp; [done|by apply Hm|]. cbn.
  intros j' o w Hi' [Hl' Hc']. destruct o as [a|e|s]; cbn; [|done..].
  apply Hf; [done..|]. by intros ->; apply (Hc' a).
Qed.

Lemma spec_weak {A} b c c' (m : jprog A) : spec b c c' m → spec b true c' m ∧ spec b c false m.
Proof using All.
  intros Hm. split; intros j w0 Hi Hl Hc.
  - apply Hm; [done..|]. intros _. by apply Hc.
  - eapply (wp_mono (jreply subject) jinv); [by apply Hm|done|]. cbn. intros r w [? _]. done.
Qed.

Lemma spec_of {A} b c (o : outcome A) : spec b c c (j_of o).
Proof using All. intros j w0 Hi Hl Hc. cbn. split; [done|]. intros a _. apply Hc. Qed.

Lemma spec_ret {A} b c (a : A) : spec b c c (mret a).
Proof using All. intros j w0 Hi Hl Hc. cbn. split; [done|]. intros a' _. apply Hc. Qed.

Lemma spec_get b c : spec b c c j_get.
Proof using All. intros j w0 Hi Hl Hc. cbn. split; [done|]. intros a' _. apply Hc. Qed.

Lemma spec_modify b c f :
  (∀ j w, local b j w → local b (f j) w ∧ jn_next (f j) = jn_next j) → spec b c c (j_modify f).
Proof using All.
  intros Hf j w0 Hi Hl Hc. cbn. destruct (Hf j w0 Hl) as [? Hn]. split; [done|].
  intros a' _ Hct Hs. rewrite Hn. by apply Hc.
Qed.

(** Calls that leave the world alone. *)
Lemma spec_call {R} b c (e : journalE R) :
  (∀ w w' r, jreply subject R w e w' r → w' = w) → spec b c c (j_call e).
Proof using All.
  intros He j w0 Hi Hl Hc. unfold j_call. cbn. intros w Hr Hw w' r Hrep.
  apply He in Hrep as ->. split_and!; [done|apply moves_refl|by eapply local_rely|].
  intros a _ Hct. eapply clean_rely; [done|by apply Hc].
Qed.

Lemma unsafe_pos_other x : rc_Type (rec x) ≠ TypeToolIntent → unsafe_pos x = None.
Proof using All. intros H. unfold unsafe_pos. by rewrite bool_decide_eq_false_2. Qed.

Lemma runs_ok_other w x : unsafe_pos x = None → runs_ok w → runs_ok (store w x).
Proof using All.
  intros Hx [H1 H2 H3]. split; simpl; [|done|].
  - rewrite omap_app. simpl. rewrite Hx. by rewrite app_nil_r.
  - intros key Hk. destruct (H3 key Hk) as (y & pos & ? & ?). exists y, pos.
    split; [apply elem_of_app; by left|done].
Qed.

Lemma held_loop_same j j' rs :
  jn_task j' = jn_task j → jn_lastCommitSeq j' = jn_lastCommitSeq j →
  ∀ held, held_loop j' held rs = held_loop j held rs.
Proof using All.
  intros H1 H3. assert (∀ r, priorAttempt j' r = priorAttempt j r) as Hp.
  { intros r. unfold priorAttempt. by rewrite H1, H3. }
  induction rs as [|r rs IH]; intros held; cbn [held_loop]; [done|]. rewrite Hp.
  destruct (negb _); [done|]. destruct (priorAttempt j r) as [[]| |]; cbn; [|done..].
  by destruct (unmarshal_ToolIntent _) as [x| |]; [case_bool_decide|..].
Qed.

Lemma held_same j j' :
  jn_task j' = jn_task j → jn_records j' = jn_records j → jn_lastCommitSeq j' = jn_lastCommitSeq j →
  jn_heldPositions j' = jn_heldPositions j → held_ok j → held_ok j'.
Proof using All.
  intros H1 H2 H3 H4 Hh. unfold held_ok, priorUnsafePositions, records_bound in *.
  rewrite H2, H4, <-Hh. destruct (panic_if _ _); cbn; [by apply held_loop_same|done..].
Qed.

Lemma local_frame b j j' w w' n :
  local b j w → frame j j' → jn_next j = n → ext i n (λ _ _, True) w w' →
  (jn_done j = false → claimed i (jn_seq j') (jw_log w')) →
  (jn_next j' = n ∨ jn_next j' = n + 1) →
  (b = true → strict = true → jn_done j = false → below_calls (jn_toolCalls j) (jw_log w')) →
  local b j' w'.
Proof using All.
  intros [H1 H2 H3 H4 H5] Hf Hn He Hc Hn' Hb. pose proof Hf as [F1 F2 F3 F4 F5 F6].
  split; [congruence|lia|by rewrite F6| |].
  - intros x t' idx ty d Hx Hw. rewrite Hn in H4.
    destruct (ext_upto i n _ w w' H4 He x t' idx ty d Hx Hw) as [?|[-> _]]; lia.
  - intros Hbt Hs Hd. rewrite F6 in Hd. destruct (H5 Hbt Hs Hd) as (Hv & Hh & _ & Ht).
    rewrite F5. split_and!; [|by apply (held_same j)| |done].
    + destruct He as (l & -> & _). destruct Hv as (pre & c & post & -> & ? & ? & Hv).
      exists pre, c, (post ++ l). split_and!; [by rewrite <-app_assoc|done..|]. by rewrite F2.
    + by apply Hb.
Qed.

(** ** Operations that record no intent *)

Lemma spec_append b c ty data :
  ty ≠ TypeClaim → (strict = true → ty ≠ TypeToolIntent) → spec b c true (append ty data).
Proof using All.
  intros Hty Hti j w0 Hi Hl _. unfold append, mbind at 1, jprog_mbind at 1, j_get. cbn [prog_bind fst snd].
  assert (∀ (o : outcome N), (∀ a, o ≠ Ret a) →
    local b (j, o).1 w0 ∧ ∀ a, (j, o).2 = Ret a → true = true → clean (j, o).1 w0) as Hstop.
  { intros o Ho. split; [done|]. intros a Ha. by destruct (Ho a). }
  unfold mbind at 1, jprog_mbind at 1, j_of at 1. cbn [prog_bind fst snd].
  destruct (jn_next j <? 0); [cbn; by apply Hstop|]. cbn [panic_if].
  destruct (jn_fenced j); [cbn; by apply Hstop|].
  destruct (jn_done j) eqn:Hd; [cbn; by apply Hstop|].
  unfold mbind, jprog_mbind, j_of. cbn [prog_bind fst snd]. rewrite (lc_task _ _ _ Hl).
  destruct (MsgID t (jn_next j)) as [id| |] eqn:Hid; cbn; [|by apply Hstop..].
  assert (∀ data' x, wrote i t (jn_next j) ty data' x → strict = true → unsafe_pos x = None) as Hother.
  { intros data' x Hw Hs. apply unsafe_pos_other. apply wrote_rec in Hw as (_ & _ & -> & _). by apply Hti. }
  set (G := λ w : jworld, b = true → strict = true → below_calls (jn_toolCalls j) (jw_log w)).
  eapply (wp_mono (jreply subject) jinv).
  { apply (append_loop_wp i t (jn_next j) ty data (claimed i) (λ _ _, True) (λ _, True) G is_task
      (own_rules i t (jn_next j) ty is_task Hty) I) with (wb := w0); try done.
    - intros w w' Hr _ Hg Hb Hs. eapply below_rely; [done|by apply Hg].
    - intros w x [Hlo Hru] _ Hg _ Hw _. split.
      + intros Hs. apply runs_ok_other; [by eapply Hother|by apply Hru].
      + intros Hb Hs y pos Hy Hyo Hpos. apply elem_of_app in Hy as [Hy| ->%list_elem_of_singleton].
        * by eapply Hg.
        * by rewrite (Hother _ _ Hw Hs) in Hpos.
    - apply (lc_upto _ _ _ Hl).
    - apply (lc_task _ _ _ Hl).
    - by apply (lc_claimed _ _ _ Hl).
    - intros Hb Hs. by destruct (lc_tools _ _ _ Hl Hb Hs Hd) as (_ & _ & ? & _).
    - apply ext_refl. }
  { done. }
  intros [j' o] w (Hf & Hg & He & Ho). cbn in *.
  assert (local b j' w) as Hl'.
  { eapply (local_frame b j j' w0 w); [done..| | |].
    - intros _. destruct o as [s|e|m].
      + destruct Ho as ((x & ty' & d & Hx & Hw & _ & Hs) & -> & _). exists x. by apply wrote_own in Hw.
      + destruct Ho as [-> _]. destruct He as (l & -> & _). by apply claimed_app, (lc_claimed _ _ _ Hl).
      + destruct Ho as [-> _]. destruct He as (l & -> & _). by apply claimed_app, (lc_claimed _ _ _ Hl).
    - destruct o; naive_solver.
    - intros Hb Hs _. by apply Hg. }
  split; [done|]. intros a -> _ Hs. destruct Ho as (_ & _ & ->).
  intros x t' idx ty' d Hx Hw. left.
  destruct (ext_upto i (jn_next j) _ w0 w (lc_upto _ _ _ Hl) He x t' idx ty' d Hx Hw) as [?|[-> _]]; lia.
Qed.
Lemma local_minor b j j' w :
  frame j j' → jn_seq j' = jn_seq j → jn_next j' = jn_next j → local b j w → local b j' w.
Proof using All.
  intros Hf Hs Hn Hl. eapply (local_frame b j j' w w); [done|done|done|apply ext_refl| |by left|].
  - rewrite Hs. apply (lc_claimed _ _ _ Hl).
  - intros Hb Hst Hd. by destruct (lc_tools _ _ _ Hl Hb Hst Hd) as (_ & _ & ? & _).
Qed.

Lemma spec_minor b c f :
  (∀ j, frame j (f j) ∧ jn_seq (f j) = jn_seq j ∧ jn_next (f j) = jn_next j) → spec b c c (j_modify f).
Proof using All.
  intros Hf. apply spec_modify. intros j w Hl. destruct (Hf j) as (? & ? & ?).
  split; [by apply (local_minor b j)|done].
Qed.

Lemma spec_resync b c : spec b c c resync.
Proof using All.
  intros j w0 Hi Hl Hc. unfold resync. unfold mbind at 1, jprog_mbind at 1, j_get. cbn [prog_bind fst snd].
  destruct (jn_fenced j); [by apply spec_of|].
  eapply jbind_wp; [done|apply (j_tail_wp i t); [done|apply (lc_task _ _ _ Hl)]|]. cbn [fst snd].
  intros j' o w Hi' (-> & Hr & Ho). assert (local b j w) as Hl' by (by eapply local_rely).
  assert (c = true → clean j w) as Hc' by (intros ->; eapply clean_rely; [done|by apply Hc]).
  destruct o as [[tail id]| |]; [|split; [done|]; by intros a [=]..].
  destruct Ho as (w1 & Hr1 & Hr2 & Hi1 & Ht).
  destruct ((rc_Seq tail =? jn_seq j)%N || _); [by apply spec_ret|].
  destruct (sameClaim tail (jn_task j)) eqn:Hs.
  2: { cbn. split; [by apply (local_minor b j)|]. by intros a [=]. }
  rewrite (lc_task _ _ _ Hl) in Hs. destruct (tasks_ok i t is_task) as [_ _ _ Hat _ _].
  destruct Ht as [(_ & -> & _)|(T & HT & -> & _)].
  { apply bool_decide_eq_true in Hs as (_ & Ha & _). simpl in Ha. lia. }
  apply last_elem in HT as [HTin _].
  destruct (lo_own _ (proj1 Hi1) T HTin) as [(k & Hk) _]. assert (k = i) as -> by (by eapply own_same).
  destruct (own_rec i t T Hk is_task) as (_ & HTs & _). cbn. split; [|by intros a _; apply Hc'].
  eapply (local_frame b j _ w w); [done|by split|done|apply ext_refl| |by left|].
  - intros _. cbn. rewrite HTs. exists T. destruct Hr2 as (l & rs & -> & _).
    split_and!; [apply elem_of_app; by left|done..].
  - intros Hb Hst Hd. by destruct (lc_tools _ _ _ Hl' Hb Hst Hd) as (_ & _ & ? & _).
Qed.

Lemma spec_of_bind {A B} b c c' (o : outcome A) (f : A → jprog B) :
  (∀ a, o = Ret a → spec b c c' (f a)) → spec b c c' (j_of o ≫= f).
Proof using All.
  intros Hf j w0 Hi Hl Hc. unfold mbind, jprog_mbind, j_of. cbn.
  destruct o as [a| |]; [by apply Hf|split; [done|]; by intros ? [=]..].
Qed.

Lemma spec_get_bind {B} b c c' (f : Journal → jprog B) :
  (∀ j w0, jinv w0 → local b j w0 → (c = true → clean j w0) →
     jwp i (λ r w, local b r.1 w ∧ ∀ a, r.2 = Ret a → c' = true → clean r.1 w) (f j j) w0) →
  spec b c c' (j_get ≫= f).
Proof using All. intros Hf j w0 Hi Hl Hc. by apply Hf. Qed.

Lemma spec_Resync b c : spec b c c Resync.
Proof using All.
  eapply spec_bind; [apply spec_get|]. intros j. apply spec_of_bind. intros _ _. apply spec_resync.
Qed.

Lemma spec_Append b c ty data :
  (strict = true → ty ≠ TypeToolIntent) → spec b c true (Append ty data).
Proof using All.
  intros Hty. apply spec_of_bind. intros _ _. apply spec_of_bind. intros [] Hp%panic_if_ret_iff.
  apply bool_decide_eq_false in Hp. apply spec_append; [naive_solver|done].
Qed.

Lemma spec_Pause b c name duration : spec b c true (Pause name duration).
Proof using All. do 2 (apply spec_of_bind; intros _ _). by apply spec_append. Qed.

Lemma spec_commit b c enc cm : spec b c true (commit_journal enc cm).
Proof using All.
  apply spec_of_bind. intros _ _. apply spec_of_bind. intros data _.
  eapply spec_bind; [by apply spec_append|]. intros seq. eapply spec_bind; [|intros; apply spec_ret].
  apply spec_modify. intros j w [H1 H2 H3 H4 H5]. split; [|done]. by split.
Qed.

Lemma spec_Place b c p : spec b c true (PlaceInput p).
Proof using All.
  apply spec_of_bind. intros _ _. eapply spec_bind; [apply spec_get|]. intros j.
  apply spec_of_bind. intros already _. apply spec_of_bind. intros _ _. apply spec_of_bind. intros data _.
  eapply spec_bind; [by apply spec_append|]. intros seq. eapply spec_bind; [|intros; apply spec_ret].
  apply spec_minor. by intros j'.
Qed.

Lemma spec_Model b c : spec b c c (Model).
Proof using All.
  eapply spec_bind; [apply spec_get|]. intros j. cbv zeta.
  assert (∀ c', spec b c' c' (j_modify (λ j, jn_set_modelCalls (jn_modelCalls j + 1) j))) as Hnext
    by (intros; apply spec_minor; by intros).
  destruct (callsMax <=? jn_modelCalls j); [apply spec_of|].
  apply spec_of_bind. intros [output|] _; [eapply spec_bind; [apply Hnext|intros; apply spec_ret]|].
  eapply spec_bind; [apply spec_resync|]. intros _.
  eapply spec_bind; [apply (spec_call b c); by intros w w' r|]. intros [e|output]; [apply spec_of|].
  apply spec_of_bind. intros data _.
  apply (spec_bind b c true c); [by apply spec_append|]. intros _.
  apply (spec_bind b true true c); [apply Hnext|]. intros _.
  destruct c; [apply spec_ret|]. eapply spec_weak, spec_ret.
Qed.

Lemma spec_result b c r : spec b c true (appendToolResult r).
Proof using All.
  do 2 (apply spec_of_bind; intros _ _). apply spec_of_bind. intros data _.
  eapply spec_bind; [by apply spec_append|]. intros; apply spec_ret.
Qed.

Lemma spec_honour b c intent record : spec b c c (honourPrior intent record).
Proof using All.
  do 2 (apply spec_of_bind; intros _ _). eapply spec_bind; [apply (spec_minor b c); by intros|].
  intros _. eapply spec_bind; [apply spec_get|]. intros j. apply spec_of_bind. intros [result|] _; [apply spec_ret|].
  do 2 (apply spec_of_bind; intros ? _). destruct c; [apply spec_result|].
  eapply spec_weak, spec_result.
Qed.
(** ** Intents *)

Lemma held_loop_spec j rs : ∀ held h,
  held_loop j held rs = Ret h → held ⊆ h ∧
  ∀ r intent, r ∈ rs → rc_Type r = TypeToolIntent → priorAttempt j r = Ret true →
    unmarshal_ToolIntent (rc_Data r) = Ret intent → ti_Replay intent = Unsafe → tc_Call (ti_call intent) ∈ h.
Proof using All.
  induction rs as [|r rs IH]; intros held h; cbn [held_loop].
  { intros [= ->]. split; [done|]. by intros ? ? ?%elem_of_nil. }
  assert (∀ held', held ⊆ held' → held_loop j held' rs = Ret h →
    (∀ intent, rc_Type r = TypeToolIntent → priorAttempt j r = Ret true →
       unmarshal_ToolIntent (rc_Data r) = Ret intent → ti_Replay intent = Unsafe →
       tc_Call (ti_call intent) ∈ held') →
    held ⊆ h ∧ ∀ r' intent, r' ∈ r :: rs → rc_Type r' = TypeToolIntent → priorAttempt j r' = Ret true →
      unmarshal_ToolIntent (rc_Data r') = Ret intent → ti_Replay intent = Unsafe →
      tc_Call (ti_call intent) ∈ h) as Hstep.
  { intros held' Hsub H Hr. apply IH in H as [Hh Hrs]. split; [set_solver|].
    intros r' intent [->|Hin]%elem_of_cons; [intros; apply Hh; by eapply Hr|by apply Hrs]. }
  case_bool_decide as Hty; cbn [negb]; [|by intros H; eapply Hstep].
  destruct (priorAttempt j r) as [[]| |]; cbn; [| |done..].
  - destruct (unmarshal_ToolIntent (rc_Data r)) as [intent| |].
    + case_bool_decide as Hun; intros H; (eapply Hstep; [|exact H|]); [set_solver| |done|].
      * intros intent' _ _ [= <-] _. set_solver.
      * by intros intent' _ _ [= <-].
    + by intros H; eapply Hstep.
    + by intros H; eapply Hstep.
  - by intros H; eapply Hstep.
Qed.

Lemma intent_loop_none j call rs : ∀ found,
  intent_loop j call found rs = Ret None → found = None ∧
  ∀ r intent, r ∈ rs → rc_Type r = TypeToolIntent → priorAttempt j r = Ret false →
    unmarshal_ToolIntent (rc_Data r) = Ret intent → tc_Call (ti_call intent) ≠ call.
Proof using All.
  induction rs as [|r rs IH]; intros found; cbn [intent_loop].
  { intros [= ->]. split; [done|]. by intros ? ? ?%elem_of_nil. }
  assert (intent_loop j call found rs = Ret None →
    (∀ intent, rc_Type r = TypeToolIntent → priorAttempt j r = Ret false →
       unmarshal_ToolIntent (rc_Data r) = Ret intent → tc_Call (ti_call intent) ≠ call) →
    found = None ∧ ∀ r' intent, r' ∈ r :: rs → rc_Type r' = TypeToolIntent →
      priorAttempt j r' = Ret false → unmarshal_ToolIntent (rc_Data r') = Ret intent →
      tc_Call (ti_call intent) ≠ call) as Hstep.
  { intros H Hr. apply IH in H as [Hf Hrs]. split; [done|].
    intros r' intent [->|Hin]%elem_of_cons; [by eapply Hr|by apply Hrs]. }
  case_bool_decide as Hty; cbn [negb]; [|by intros H; eapply Hstep].
  destruct (priorAttempt j r) as [[]| |]; cbn; [| |done..]; [by intros H; eapply Hstep|].
  destruct (unmarshal_ToolIntent (rc_Data r)) as [intent| |]; [|by intros H; eapply Hstep..].
  destruct (Z.eqb_spec (tc_Call (ti_call intent)) call) as [Heq|Hne].
  - intros H. by apply IH in H as [? _].
  - intros H. eapply Hstep; [done|]. by intros intent' _ _ [= <-].
Qed.

(** A position this attempt may take for a new call: nothing unsafe was recorded
    under it. *)
Lemma position_free j w p :
  jinv w → strict = true → local true j w → jn_done j = false →
  claimed i (last_seq (jw_log w)) (jw_log w) → jn_toolCalls j ≤ p → p ∉ jn_heldPositions j →
  recordedToolIntent j p = Ret None →
  ∀ z, z ∈ jw_log w → unsafe_pos z ≠ Some (tk_Iteration t, p).
Proof using All.
  intros [Hl _] Hs Hloc Hd (x & Hx & Hxo & Hxs) Hp Hheld Hrec z Hz Hpos.
  destruct (lc_tools _ _ _ Hloc eq_refl Hs Hd) as (Hview & Hhok & Hbelow & _).
  pose proof Hpos as Hpos'. unfold unsafe_pos in Hpos'.
  case_bool_decide as Hzt; [|done]. destruct (unmarshal_ToolIntent (rc_Data (rec z))) as [intent| |] eqn:Hu; [|done..].
  case_bool_decide as Hun; [|done]. injection Hpos' as Hzit Hzp.
  destruct (lo_own _ Hl z Hz) as [(m & Hm) _].
  destruct (decide (m = i)) as [->|Hmi]; [pose proof (Hbelow z _ Hz Hm Hpos); simpl in *; lia|].
  destruct Hview as (pre & c & post & Hlog & Hcc & Hco & Hview).
  assert (c ∈ jw_log w) as Hc by (rewrite Hlog; set_solver).
  rewrite Hlog in Hz. apply elem_of_app in Hz as [Hz|[->|Hz]%elem_of_cons].
  - assert (¬ claims z) as Hzc by (unfold claims; by rewrite Hzt).
    specialize (Hview z Hz Hzit Hzc). destruct (own_task m z Hm) as [tm Htm].
    destruct (own_rec m tm z Hm Htm) as (_ & Hzs & Hzne & _).
    destruct (tasks_ok i t is_task) as [_ _ _ [Hat _] _ _].
    assert (∃ b, priorAttempt j (rec z) = Ret b) as [[] Hb].
    { unfold priorAttempt. rewrite Hzs, (lc_task _ _ _ Hloc).
      destruct (N.eqb_spec (je_Seq z) 0) as [|_]; [done|]. destruct (Z.ltb_spec (tk_Attempt t) 1); [lia|].
      cbn. eauto. }
    + destruct Hheld. unfold held_ok, priorUnsafePositions in Hhok. apply bind_unit_ret_iff in Hhok as [_ Hhok].
      apply held_loop_spec in Hhok as [_ Hh]. rewrite <-Hzp. by eapply Hh.
    + unfold recordedToolIntent in Hrec. rewrite !bind_unit_ret_iff in Hrec. destruct Hrec as (_ & _ & Hrec).
      apply intent_loop_none in Hrec as [_ Hno]. by apply (Hno (rec z) intent).
  - unfold claims in Hcc. rewrite Hcc in Hzt. done.
  - assert (z ∈ jw_log w) as Hzl by (rewrite Hlog; set_solver).
    assert (je_Seq c < je_Seq z)%N as Hcz.
    { pose proof (lo_sorted _ Hl) as Hso. rewrite Hlog in Hso.
      apply StronglySorted_app in Hso as (_ & _ & [Hall _]%StronglySorted_cons).
      rewrite Forall_forall in Hall. by destruct (Hall z Hz) as (? & _). }
    destruct (own_has_claim _ m z Hl Hzl Hm) as (cm & Hcm & Hcmc & Hcmo & Hcmz).
    destruct Hcmz as [->|Hcmz]; [unfold claims in Hcmc; by rewrite Hcmc in Hzt|].
    assert (je_Seq z < je_Seq x)%N as Hzx.
    { pose proof (last_seq_ge _ z Hl Hzl). destruct (decide (je_Seq z = je_Seq x)) as [He|]; [|lia].
      assert (z = x) as -> by (by eapply log_seq_inj). destruct Hmi. exact (own_inj m i x Hm Hxo). }
    destruct (N.lt_trichotomy (je_Seq cm) (je_Seq c)) as [H|[H|H]].
    + by destruct (claim_between _ m cm z c Hl Hcm Hzl Hc Hcmc Hcmo Hm H Hcz).
    + assert (cm = c) as -> by (by eapply log_seq_inj). destruct Hmi. exact (own_inj m i c Hcmo Hco).
    + destruct (claim_between _ i c x cm Hl Hc Hx Hcm Hcc Hco Hxo H); [lia|done].
Qed.

Lemma intent_data call replay data :
  marshal_ToolIntent (MkToolIntent call replay) = Ret data → in_int64 (tc_Call call) = true →
  ∃ intent, unmarshal_ToolIntent data = Ret intent ∧ ti_Replay intent = replay ∧
    tc_Call (ti_call intent) = tc_Call call.
Proof using All.
  intros H Hc. unfold marshal_ToolIntent in H. apply bind_ret_iff in H as (input & Hin & [= <-]).
  unfold enc_raw in Hin. destruct call as [name inp c key]. cbn [ti_call ti_Replay tc_Input tc_Name tc_Call tc_Key] in *.
  destruct (raw_len0 inp); [injection Hin as <-|destruct inp as [[|v]|]; [done| |done]; injection Hin as <-];
    unfold unmarshal_ToolIntent, unmarshal_struct; cbn; rewrite Hc; cbn; eexists; done.
Qed.
(** The unsafe intent at [pos] is ours and has not been run. *)
Definition ready (replay : string) (pos : Z * Z) (w : jworld) : Prop :=
  strict = true → replay = Unsafe →
  ¬ (key_of pos ∈ unsafe_runs (jw_runs w)) ∧
  (∃ x, x ∈ jw_log w ∧ own i x ∧ unsafe_pos x = Some pos).

Lemma pos_once l x y pos :
  NoDup (omap unsafe_pos l) → x ∈ l → y ∈ l → unsafe_pos x = Some pos → unsafe_pos y = Some pos → x = y.
Proof using All.
  intros Hn Hx Hy Px Py. induction l as [|z l IH]; [by apply elem_of_nil in Hx|].
  assert (∀ u, u ∈ l → unsafe_pos u = Some pos → pos ∈ omap unsafe_pos l) as Hin.
  { intros u Hu Pu. apply list_elem_of_omap. eauto. }
  cbn [omap list_omap] in Hn. apply elem_of_cons in Hx as [->|Hx], Hy as [->|Hy].
  - done.
  - rewrite Px in Hn. apply NoDup_cons in Hn as [[] _]. by eapply Hin.
  - rewrite Py in Hn. apply NoDup_cons in Hn as [[] _]. by eapply Hin.
  - apply IH; [|done..]. destruct (unsafe_pos z); [by apply NoDup_cons in Hn as [_ ?]|done].
Qed.

Lemma ready_stable replay pos w w' :
  rely i w w' → jinv w' → ready replay pos w → ready replay pos w'.
Proof using All.
  intros (l & rs & Hl & _ & Hrs & Hk) [_ Hru] Hr Hs Hu. destruct (Hr Hs Hu) as (Hn & x & Hx & Hxo & Hxp).
  assert (x ∈ jw_log w') as Hx' by (rewrite Hl; set_solver).
  split; [|by exists x]. rewrite Hrs. unfold unsafe_runs. rewrite omap_app, elem_of_app. intros [H|H]; [done|].
  destruct (Hk Hs _ H) as (k & y & pos' & Hki & Hy & Hyo & Hyp & Heq). apply key_of_inj in Heq as <-.
  assert (x = y) as <- by (by eapply pos_once; [apply (ro_pos _ (Hru Hs))|..]).
  destruct Hki. by eapply own_inj.
Qed.

Lemma intent_pos x n call replay data :
  wrote i t n TypeToolIntent data x → marshal_ToolIntent (MkToolIntent call replay) = Ret data →
  in_int64 (tc_Call call) = true →
  unsafe_pos x = if bool_decide (replay = Unsafe) then Some (tk_Iteration t, tc_Call call) else None.
Proof using All.
  intros Hw Hm Hc. apply wrote_rec in Hw as (_ & _ & Hty & Hit & _ & _ & _ & _ & Hd).
  destruct (intent_data call replay data Hm Hc) as (intent & Hu & <- & <-).
  unfold unsafe_pos. rewrite Hty, Hd, Hu. by rewrite bool_decide_eq_true_2; unfold it; rewrite ?Hit.
Qed.

Section Intent.
Context (j : Journal) (call : ToolCall) (replay : string) (data : raw).
Abbreviation p := (tc_Call call).
Hypothesis marshaled : marshal_ToolIntent (MkToolIntent call replay) = Ret data.
Hypothesis in_range : 0 ≤ p < callsMax.
Hypothesis later : jn_toolCalls j ≤ p.
Hypothesis not_held : p ∉ jn_heldPositions j.
Hypothesis not_recorded : recordedToolIntent j p = Ret None.
Hypothesis undone : jn_done j = false.

Lemma call_int64 : in_int64 p = true.
Proof using All.
  unfold in_int64, callsMax, recordsMax in *. apply andb_true_iff. unfold int64_min, int64_max. lia.
Qed.

(** What holds around the append of the intent, landed or not. *)
Definition around (w : jworld) : Prop :=
  strict = true → below_calls (p + 1) (jw_log w) ∧
  (replay = Unsafe → (∃ x, x ∈ jw_log w ∧ own i x ∧ unsafe_pos x = Some (tk_Iteration t, p)) →
   key_of (tk_Iteration t, p) ∉ unsafe_runs (jw_runs w)).

Lemma around_start w : local true j w → around w.
Proof using All.
  intros Hl Hs. destruct (lc_tools _ _ _ Hl eq_refl Hs undone) as (_ & _ & Hb & _). split.
  - intros x pos Hx Ho Hp. specialize (Hb x pos Hx Ho Hp). lia.
  - intros _ (x & Hx & Ho & Hp). specialize (Hb x _ Hx Ho Hp). simpl in Hb. lia.
Qed.

Lemma around_stable w w' : rely i w w' → jinv w' → around w → around w'.
Proof using All.
  intros Hr Hi Ha Hs. destruct (Ha Hs) as [Hb Hk]. split; [by eapply below_rely|].
  intros Hu (x & Hx & Hxo & Hxp). destruct Hr as (l & rs & Hl & Ho & Hrs & Hkeys).
  assert (x ∈ jw_log w) as Hxw.
  { rewrite Hl in Hx. apply elem_of_app in Hx as [?|Hx]; [done|].
    destruct (Ho x Hx) as (k & Hki & Hko). destruct Hki. by eapply own_inj. }
  eapply (ready_stable replay _ w w'); try done; [by exists l, rs|].
  intros _ _. split; [|by exists x]. apply Hk; [done|]. by exists x.
Qed.

Lemma around_land w x :
  jinv w → local true j w → around w → claimed i (last_seq (jw_log w)) (jw_log w) →
  wrote i t (jn_next j) TypeToolIntent data x →
  (strict = true → runs_ok (store w x)) ∧ around (store w x).
Proof using All.
  intros Hi Hl Ha Hc Hw. pose proof (intent_pos x _ call replay data Hw marshaled call_int64) as Hx.
  assert (strict = true → ∀ z, z ∈ jw_log w → unsafe_pos z ≠ Some (tk_Iteration t, p)) as Hfree.
  { intros Hs. by apply (position_free j w p). }
  assert (strict = true → key_of (tk_Iteration t, p) ∉ unsafe_runs (jw_runs w)) as Hkey.
  { intros Hs Hk. destruct Hi as [_ Hru].
    destruct (ro_intent _ (Hru Hs) _ Hk) as (z & pos & Hz & Hzp & Heq). apply key_of_inj in Heq as <-.
    by apply (Hfree Hs z). }
  split.
  - intros Hs. destruct Hi as [_ Hru]. destruct (Hru Hs) as [H1 H2 H3]. case_bool_decide.
    + split; simpl; [|done|].
      * rewrite omap_app. simpl. rewrite Hx. apply NoDup_app. split_and!; [done| |apply NoDup_singleton].
        intros pos (z & Hz & Hzp)%list_elem_of_omap ->%list_elem_of_singleton. by apply (Hfree Hs z).
      * intros key Hk. destruct (H3 key Hk) as (z & pos & ? & ?). exists z, pos.
        split; [apply elem_of_app; by left|done].
    + by apply runs_ok_other.
  - intros Hs. destruct (Ha Hs) as [Hb _]. split.
    + intros z pos [Hz| ->%list_elem_of_singleton]%elem_of_app Ho Hp; [by eapply Hb|].
      rewrite Hx in Hp. case_bool_decide; [|done]. injection Hp as <-. simpl. lia.
    + intros _ _. by apply Hkey.
Qed.

Lemma append_intent_wp w0 :
  jinv w0 → local true j w0 → clean j w0 →
  jwp i (λ r w, local false r.1 w ∧ ∀ s, r.2 = Ret s →
    frame j r.1 ∧ clean r.1 w ∧ local true (jn_set_toolCalls (p + 1) r.1) w ∧
    ready replay (tk_Iteration t, p) w) (append TypeToolIntent data j) w0.
Proof using All.
  intros Hi Hl Hc. unfold append, mbind at 1, jprog_mbind at 1, j_get. cbn [prog_bind fst snd].
  assert (local false j w0) as Hl0 by (destruct Hl; by split).
  assert (∀ o : outcome N, (∀ a, o ≠ Ret a) → local false (j, o).1 w0 ∧ ∀ s, (j, o).2 = Ret s →
    frame j (j, o).1 ∧ clean (j, o).1 w0 ∧ local true (jn_set_toolCalls (p + 1) (j, o).1) w0 ∧
    ready replay (tk_Iteration t, p) w0) as Hstop.
  { intros o Ho. split; [done|]. intros a Ha. by destruct (Ho a). }
  unfold mbind at 1, jprog_mbind at 1, j_of at 1. cbn [prog_bind fst snd].
  destruct (jn_next j <? 0); [cbn; by apply Hstop|]. cbn [panic_if].
  destruct (jn_fenced j); [cbn; by apply Hstop|]. rewrite undone.
  unfold mbind, jprog_mbind, j_of. cbn [prog_bind fst snd]. rewrite (lc_task _ _ _ Hl).
  destruct (MsgID t (jn_next j)) as [id| |] eqn:Hid; cbn; [|by apply Hstop..].
  set (Q := λ ty' d, strict = true → ty' = TypeToolIntent ∧ d = data).
  assert (upto i (jn_next j) Q (jw_log w0)) as Hup.
  { intros x t' idx ty d Hx Hw. destruct strict eqn:Hs.
    - destruct (Hc Hs x t' idx ty d Hx Hw) as [?|[_ []]]. by left.
    - destruct (lc_upto _ _ _ Hl x t' idx ty d Hx Hw) as [?|[-> _]]; [by left|by right]. }
  eapply (wp_mono (jreply subject) jinv).
  { apply (append_loop_wp i t (jn_next j) TypeToolIntent data (claimed i) Q (local true j) around is_task
      (own_rules i t (jn_next j) TypeToolIntent is_task ltac:(done))) with (wb := w0); try done.
    - intros w w' Hr _. by apply local_rely.
    - apply around_stable.
    - intros w x Hiw HP Hg Hpw Hw _. by apply around_land.
    - apply (lc_task _ _ _ Hl).
    - by apply (lc_claimed _ _ _ Hl).
    - by apply around_start.
    - apply ext_refl. }
  { done. }
  intros [j' o] w (Hf & Hg & He & Ho). cbn in *.
  assert (ext i (jn_next j) (λ _ _, True) w0 w) as He'.
  { destruct He as (l & Hlw & Hol). exists l. split; [done|]. intros x t' idx ty d Hx Hw.
    by destruct (Hol x t' idx ty d Hx Hw). }
  assert (claimed i (jn_seq j') (jw_log w)) as Hcl.
  { destruct o as [s|e|m].
    - destruct Ho as ((x & ty' & d & Hx & Hw & _ & Hs) & -> & _). exists x. by apply wrote_own in Hw.
    - destruct Ho as [-> _]. destruct He as (l & -> & _). by apply claimed_app, (lc_claimed _ _ _ Hl).
    - destruct Ho as [-> _]. destruct He as (l & -> & _). by apply claimed_app, (lc_claimed _ _ _ Hl). }
  assert (jn_next j' = jn_next j ∨ jn_next j' = jn_next j + 1) as Hnx by (destruct o; naive_solver).
  split; [by eapply (local_frame false j j' w0 w)|]. intros s ->.
  destruct Ho as ((x & ty' & d & Hx & Hw & HQ & _) & _ & Hnext). split_and!; [done| | |].
  - intros _ y t' idx ty d' Hy Hwy. left. rewrite Hnext.
    destruct (ext_upto i _ _ w0 w Hup He y t' idx ty d' Hy Hwy) as [?|[-> _]]; lia.
  - assert (local false j' w) as [L1 L2 L3 L4 _] by (by eapply (local_frame false j j' w0 w)).
    split; [done..|]. intros _ Hs Hd. destruct (lc_tools _ _ _ Hl eq_refl Hs undone) as (Hv & Hh & _ & Ht0).
    cbn. split_and!; [| |by apply Hg|lia].
    + destruct Hf as [_ F2 _ _ _ _]. destruct He as (l & -> & _). destruct Hv as (pre & c & post & -> & ? & ? & Hv).
      exists pre, c, (post ++ l). split_and!; [by rewrite <-app_assoc|done..|]. cbn. by rewrite F2.
    + destruct Hf. by apply (held_same j).
  - intros Hs Hu. destruct (HQ Hs) as [-> ->]. destruct (Hg Hs) as [_ Hk].
    pose proof (intent_pos x _ call replay data Hw marshaled call_int64) as Hxp.
    rewrite bool_decide_eq_true_2 in Hxp by done. apply wrote_own in Hw.
    split; [apply Hk; [done|]|]; by exists x.
Qed.
End Intent.
(** ** Tools *)

Lemma local_weak b j w : local b j w → local false j w.
Proof using All. intros []. by split. Qed.

Lemma local_lax b j w : strict = false → local false j w → local b j w.
Proof using All. intros Hs []. split; [done..|]. intros _ Hs'. congruence. Qed.

(** After a tool call: everything is known again on success. *)
Definition tool_post {A} (r : Journal * outcome A) (w : jworld) : Prop :=
  local false r.1 w ∧ ∀ a, r.2 = Ret a → local true r.1 w ∧ clean r.1 w.

Lemma spec_tool {A} c (m : jprog A) j w :
  spec true c true m → jinv w → local true j w → (c = true → clean j w) → jwp i tool_post (m j) w.
Proof using All.
  intros Hm Hi Hl Hc. eapply (wp_mono (jreply subject) jinv); [by apply Hm|done|].
  intros r w' [Hl' Hc']. split; [by eapply local_weak|]. intros a Ha. split; [done|]. by apply (Hc' a).
Qed.

(** The function of a tool, which records that it was started. *)
Definition started (replay : string) (fn : ToolCall → jprog tool_out) (c : ToolCall) : jprog tool_out :=
  j_call (JRun (tc_Key c) replay) ≫= λ _, fn c.

Definition body_ok (fn : ToolCall → jprog tool_out) : Prop := ∀ c, spec true false false (fn c).

Lemma started_wp replay fn call j w :
  body_ok fn → jinv w → local true j w → ready replay (tk_Iteration t, tc_Call call) w →
  tc_Key call = key_of (tk_Iteration t, tc_Call call) →
  jwp i (λ r w, local true r.1 w) (started replay fn call j) w.
Proof using All.
  intros Hfn Hi Hl Hrd Hkey. unfold started. unfold mbind, jprog_mbind, j_call. cbn.
  intros w1 Hr1 Hi1 w2 [] ->.
  assert (local true j w1) as Hl1 by (by eapply local_rely).
  assert (ready replay (tk_Iteration t, tc_Call call) w1) as Hrd1 by (by eapply ready_stable).
  assert (local true j (MkJworld (jw_log w1) (jw_runs w1 ++ [(tc_Key call, replay)]))) as Hl2
    by (destruct Hl1; by split).
  assert (jinv (MkJworld (jw_log w1) (jw_runs w1 ++ [(tc_Key call, replay)]))) as Hi2.
  { destruct Hi1 as [Hlo Hru]. split; [done|]. intros Hs. destruct (Hru Hs) as [H1 H2 H3].
    assert (unsafe_runs (jw_runs w1 ++ [(tc_Key call, replay)]) = unsafe_runs (jw_runs w1) ++
      (if bool_decide (replay = Unsafe) then [tc_Key call] else [])) as Happ.
    { unfold unsafe_runs. rewrite omap_app. simpl. by case_bool_decide. }
    split; cbn [jw_log jw_runs]; [done| |]; rewrite Happ; case_bool_decide as Hu; rewrite ?app_nil_r; try done.
    - destruct (Hrd1 Hs Hu) as [Hn _]. apply NoDup_app. split_and!; [done| |apply NoDup_singleton].
      intros k Hk ->%list_elem_of_singleton. by rewrite Hkey in Hk.
    - intros key [Hk| ->%list_elem_of_singleton]%elem_of_app; [by apply H3|].
      destruct (Hrd1 Hs Hu) as (_ & x & Hx & _ & Hxp). by exists x, (tk_Iteration t, tc_Call call). }
  split_and!; [done| |].
  - exists [], [(tc_Key call, replay)]. rewrite app_nil_r. split_and!; [done|by intros x ?%elem_of_nil|done|].
    intros Hs key Hk. unfold unsafe_runs in Hk. simpl in Hk. case_bool_decide as Hu; [|by apply elem_of_nil in Hk].
    apply list_elem_of_singleton in Hk as ->. destruct (Hrd1 Hs Hu) as (_ & x & Hx & Hxo & Hxp).
    by exists i, x, (tk_Iteration t, tc_Call call).
  - eapply (wp_mono (jreply subject) jinv); [by apply Hfn|done|]. by intros r w' [? _].
Qed.

Lemma runTool_wp replay fn call j w :
  body_ok fn → jinv w → local true j w → ready replay (tk_Iteration t, tc_Call call) w →
  tc_Key call = key_of (tk_Iteration t, tc_Call call) →
  jwp i tool_post (runTool call (started replay fn) j) w.
Proof using All.
  intros Hfn Hi Hl Hrd Hkey. unfold runTool.
  unfold mbind at 1, jprog_mbind at 1, j_of at 1. cbn [prog_bind fst snd].
  destruct (empty_str (tc_Key call)); cbn [panic_if].
  { cbn. split; [by eapply local_weak|]. by intros a [=]. }
  eapply jbind_wp; [done|by apply started_wp|]. cbn [fst].
  intros j' o w' Hi' Hl'. destruct o as [[output err]| |];
    [|split; [by eapply local_weak|]; by intros a [=]..].
  destruct (_ && _); [cbn; split; [by eapply local_weak|]; by intros a [=]|].
  by apply (spec_tool false); [apply spec_result|..].
Qed.

Lemma freshTool_wp call replay fn j w :
  body_ok fn → jinv w → local true j w → clean j w → 0 ≤ tc_Call call < callsMax →
  jn_toolCalls j ≤ tc_Call call → tc_Call call ∉ jn_heldPositions j →
  recordedToolIntent j (tc_Call call) = Ret None →
  tc_Key call = key_of (tk_Iteration t, tc_Call call) →
  jwp i tool_post (freshTool call replay (started replay fn) j) w.
Proof using All.
  intros Hfn Hi Hl Hc Hp Hcalls Hheld Hrec Hkey. unfold freshTool.
  assert (∀ o : outcome ToolResult, (∀ a, o ≠ Ret a) → tool_post (j, o) w) as Hstop.
  { intros o Ho. split; [by eapply local_weak|]. intros a Ha. by destruct (Ho a). }
  unfold mbind at 1, jprog_mbind at 1, j_of at 1. cbn [prog_bind fst snd].
  destruct (empty_str (tc_Key call)); cbn [panic_if]; [cbn; by apply Hstop|].
  unfold mbind at 1, jprog_mbind at 1, j_of at 1. cbn [prog_bind fst snd].
  destruct (marshal_ToolIntent (MkToolIntent call replay)) as [data| |] eqn:Hm; cbn [wrap_err];
    [|cbn; by apply Hstop..].
  destruct (jn_done j) eqn:Hd.
  - (* a journal that is done appends nothing *)
    unfold append, mbind, jprog_mbind, j_get, j_of. cbn [prog_bind fst snd].
    destruct (jn_next j <? 0); cbn [panic_if]; [cbn; by apply Hstop|].
    destruct (jn_fenced j); [cbn; by apply Hstop|]. rewrite Hd. cbn. by apply Hstop.
  - eapply jbind_wp; [done|by apply (append_intent_wp j call replay data)|]. cbn [fst snd].
    intros j' o w' Hi' [Hl' Ho]. destruct o as [s| |]; [|split; [done|]; by intros a [=]..].
    destruct (Ho s eq_refl) as (Hf & Hc' & Hlt & Hrd).
    unfold mbind at 1, jprog_mbind at 1, j_modify. cbn [prog_bind fst snd].
    by apply runTool_wp.
Qed.
Lemma position_loop_ge held : ∀ fuel p, p ≤ position_loop fuel held p.
Proof using Type.
  induction fuel as [|fuel IH]; intros p; cbn [position_loop]; [done|].
  case_decide; [specialize (IH (p + 1)); lia|done].
Qed.

Lemma nextToolPosition_spec j p :
  nextToolPosition j = Ret p → 0 ≤ jn_toolCalls j ≤ p ∧ p ∉ jn_heldPositions j.
Proof using Type.
  unfold nextToolPosition. cbv zeta. rewrite !bind_unit_ret_iff, !panic_if_ret_iff.
  intros (H0%Z.ltb_ge & _ & Hp%bool_decide_eq_false & [= <-]).
  pose proof (position_loop_ge (jn_heldPositions j) (size (jn_heldPositions j)) (jn_toolCalls j)). done.
Qed.

Lemma local_calls j w p :
  local true j w → jn_toolCalls j ≤ p → local true (jn_set_toolCalls p j) w.
Proof using All.
  intros [H1 H2 H3 H4 H5] Hp. split; [done..|]. intros _ Hs Hd.
  destruct (H5 eq_refl Hs Hd) as (? & Hh & Hb & ?). split_and!; [done|by apply (held_same j)| |cbn; lia].
  intros x pos Hx Ho Hpos. specialize (Hb x pos Hx Ho Hpos). cbn. lia.
Qed.

Lemma tool_stop {A} j w (o : outcome A) :
  local true j w → (∀ a, o ≠ Ret a) → tool_post (j, o) w.
Proof using All. intros Hl Ho. split; [by eapply local_weak|]. intros a Ha. by destruct (Ho a). Qed.

Lemma tool_of {A B} (o : outcome A) (f : A → jprog B) j w :
  local true j w → (∀ a, o = Ret a → jwp i tool_post (f a j) w) →
  jwp i tool_post ((j_of o ≫= f) j) w.
Proof using All.
  intros Hl Hf. unfold mbind, jprog_mbind, j_of. cbn.
  destruct o as [a| |]; [by apply Hf|by apply tool_stop..].
Qed.

Lemma get_bind_wp {B} (Φ : Journal * outcome B → jworld → Prop) f j w :
  jwp i Φ (f j j) w → jwp i Φ ((j_get ≫= f) j) w.
Proof using Type. done. Qed.

Lemma modify_bind_wp {B} (Φ : Journal * outcome B → jworld → Prop) g f j w :
  jwp i Φ (f tt (g j)) w → jwp i Φ ((j_modify g ≫= f) j) w.
Proof using Type. done. Qed.

(** A call of an earlier delivery: its result, a safe function run again, or an
    interrupted result. *)
Lemma recorded_wp (o : outcome (option ToolResult)) (again : bool) call fn replay partial intent j w :
  body_ok fn → jinv w → local true j w → clean j w → tc_Key call = key_of (tk_Iteration t, tc_Call call) →
  (again = true → replay = Safe) →
  jwp i tool_post ((done ← j_of o;
    match done with
    | Some result => mret result
    | None =>
        if again then runTool call (started replay fn)
        else
          partial ← j_of partial;
          result ← j_of (interruptedResult (ti_call intent) partial);
          appendToolResult result
    end) j) w.
Proof using All.
  intros Hfn Hi Hl Hc Hkey Hag. apply tool_of; [done|]. intros [result|] _.
  { cbn. split; [by eapply local_weak|done]. }
  destruct again; [rewrite Hag by done; by apply runTool_wp|].
  apply (spec_tool true); [|done..]. do 2 (apply spec_of_bind; intros ? _). apply spec_result.
Qed.

Lemma Tool_wp hst call replay fn j w :
  body_ok fn → jinv w → local true j w → clean j w →
  jwp i tool_post (Tool hst call replay (started replay fn) j) w.
Proof using All.
  intros Hfn Hi Hl Hc. unfold Tool. do 2 (apply tool_of; [done|]; intros _ _).
  apply get_bind_wp, tool_of; [done|]. intros p ([H0 Hge] & Hheld)%nextToolPosition_spec.
  destruct (Z.leb_spec callsMax p) as [|Hmax]; [cbn; by apply tool_stop|]. cbv zeta.
  set (call' := MkToolCall _ _ _ _).
  assert (tc_Key call' = key_of (tk_Iteration t, tc_Call call')) as Hkey.
  { subst call'. cbn. unfold tool_key, key_of. rewrite (lc_task _ _ _ Hl).
    destruct (tasks_ok i t is_task) as [-> -> _ _ _ _]. done. }
  apply tool_of; [done|]. intros [[intent record]|] _; [by apply (spec_tool true); [apply spec_honour|..]|].
  apply tool_of; [done|]. intros [[intent recorded]|] Hrec.
  2: { apply freshTool_wp; try done. subst call'. cbn. lia. }
  apply tool_of; [done|]. intros [] _; cbn [negb]; [|cbn; by apply tool_stop].
  apply modify_bind_wp. apply recorded_wp; try done; [apply local_calls; [done|lia]|].
  by intros [_ ?]%bool_decide_eq_true.
Qed.
(** ** Handlers *)

Lemma then_wp {A B} (m : jprog A) (k : outcome A → jprog B) j w0
    (Φ : Journal * outcome A → jworld → Prop) (Ψ : Journal * outcome B → jworld → Prop) :
  jinv w0 → jwp i Φ (m j) w0 →
  (∀ j' o w, jinv w → Φ (j', o) w →
     match o with Panic s => Ψ (j', Panic s) w | _ => jwp i Ψ (k o j') w end) →
  jwp i Ψ (j_then m k j) w0.
Proof using All.
  intros Hi Hm Hk. unfold j_then. eapply bind_wp; [done..|].
  intros [j' o] w Hi' Ho. specialize (Hk j' o w Hi' Ho). cbn. by destruct o.
Qed.

Lemma spec_then {A B} b c (m : jprog A) (k : outcome A → jprog B) :
  spec b false c m → (∀ o, spec b false false (k o)) → spec b false false (j_then m k).
Proof using All.
  intros Hm Hk j w0 Hi Hl Hc. eapply then_wp; [done|by apply Hm|]. cbn.
  intros j' o w Hi' [Hl' _]. destruct o; [by apply Hk..|done].
Qed.

Context (hst : host) (enc : encoders).

Lemma toolless_spec {A} (a : act A) : toolless a → ∀ b, spec b false false (run_act hst enc a).
Proof using All.
  induction a as [A a|A ty data k IH|A name d k IH|A c k IH|A p k IH|A call replay fn _ k IH|A k IH|A k IH];
    cbn; intros Ha b.
  - apply spec_ret.
  - destruct Ha as [Hty Ha]. eapply spec_then; [by apply spec_Append|]. intros o. by apply IH.
  - eapply spec_then; [apply spec_Pause|]. intros o. by apply IH.
  - eapply spec_then; [apply spec_commit|]. intros o. by apply IH.
  - eapply spec_then; [apply spec_Place|]. intros o. by apply IH.
  - done.
  - eapply spec_then; [apply spec_Model|]. intros o. by apply IH.
  - eapply spec_then; [apply spec_Resync|]. intros o. by apply IH.
Qed.

Definition act_post {A} (r : Journal * outcome A) (w : jworld) : Prop := local false r.1 w.

(** What follows an operation, after a success and after an error. *)
Lemma follow_wp {A B} (m : jprog A) (k : outcome A → act B) j w0 :
  jinv w0 → jwp i tool_post (m j) w0 →
  (∀ o, (strict = true → ∃ a, o = Ret a) → ∀ j w, jinv w → local true j w → clean j w →
     jwp i act_post (run_act hst enc (k o) j) w) →
  (strict = true → ∀ e, toolless (k (Err e))) →
  jwp i act_post (j_then m (λ o, run_act hst enc (k o)) j) w0.
Proof using All.
  intros Hi Hm Hk He. eapply then_wp; [done..|]. cbn. intros j' o w Hi' [Hl Hr]. cbn in *.
  destruct o as [a|e|s]; [| |done].
  - destruct (Hr a eq_refl). apply Hk; eauto.
  - destruct strict eqn:Hs.
    + eapply (wp_mono (jreply subject) jinv); [by apply (toolless_spec (k (Err e)) (He eq_refl e) false)|done|].
      by intros r w' [? _].
    + apply Hk; [done|done|by apply local_lax|intros Hs'; congruence].
Qed.

Lemma follow_spec {A B} (m : jprog A) (k : outcome A → act B) j w0 :
  spec true true true m → jinv w0 → local true j w0 → clean j w0 →
  (∀ o, (strict = true → ∃ a, o = Ret a) → ∀ j w, jinv w → local true j w → clean j w →
     jwp i act_post (run_act hst enc (k o) j) w) →
  (strict = true → ∀ e, toolless (k (Err e))) →
  jwp i act_post (j_then m (λ o, run_act hst enc (k o)) j) w0.
Proof using All. intros Hm Hi Hl Hc. apply follow_wp; [done|by apply (spec_tool true)]. Qed.

Lemma act_wp {A} (a : act A) : (strict = true → prudent a) → ∀ j w0,
  jinv w0 → local true j w0 → clean j w0 → jwp i act_post (run_act hst enc a j) w0.
Proof using All.
  induction a as [A a|A ty data k IH|A name d k IH|A c k IH|A p k IH|A call replay fn IHf k IH|A k IH|A k IH];
    cbn [prudent run_act]; intros Ha j w0 Hi Hl Hc.
  - cbn. by eapply local_weak.
  - apply follow_spec; try done; [apply spec_Append; intros Hs; by apply Ha| |by intros [_ [_ ?]]%Ha].
    intros o Ho. apply IH. intros Hs. destruct (Ho Hs) as [n ->], (Ha Hs) as (_ & ? & _). done.
  - apply follow_spec; try done; [apply spec_Pause| |by intros [_ ?]%Ha].
    intros o Ho. apply IH. intros Hs. destruct (Ho Hs) as [n ->], (Ha Hs). done.
  - apply follow_spec; try done; [apply spec_commit| |by intros [_ ?]%Ha].
    intros o Ho. apply IH. intros Hs. destruct (Ho Hs) as [n ->], (Ha Hs). done.
  - apply follow_spec; try done; [apply spec_Place| |by intros [_ ?]%Ha].
    intros o Ho. apply IH. intros Hs. destruct (Ho Hs) as [n ->], (Ha Hs). done.
  - apply follow_wp; [done| | |by intros [_ [_ ?]]%Ha].
    + apply (Tool_wp hst call replay (λ c, run_act hst enc (fn c))); [|done..]. intros c.
      destruct strict eqn:Hs; [by apply toolless_spec, Ha|]. intros j' w' Hi' Hl' _.
      eapply (wp_mono (jreply subject) jinv); [|done|].
      { apply (IHf c); [congruence|done..|]. intros ?; congruence. }
      intros r w Hr. cbn in *.
      split; [by apply local_lax|done].
    + intros o Ho. apply IH. intros Hs. destruct (Ho Hs) as [n ->], (Ha Hs) as (_ & ? & _). done.
  - apply follow_spec; try done; [apply spec_Model| |by intros [_ ?]%Ha].
    intros o Ho. apply IH. intros Hs. destruct (Ho Hs) as [n ->], (Ha Hs). done.
  - apply follow_spec; try done; [apply spec_Resync| |by intros [_ ?]%Ha].
    intros o Ho. apply IH. intros Hs. destruct (Ho Hs) as [n ->], (Ha Hs). done.
Qed.
(** ** Opening *)

(** The records up to a tail are those of the log the tail was read from. *)
Lemma readUpTo_wp w1 w0 :
  rely i w1 w0 → jinv w1 →
  jwp i (λ o w, rely i w0 w ∧ ∀ rs, o = Ret rs → rs = rec <$> jw_log w1)
    (readUpTo t (last_seq (jw_log w1))) w0.
Proof using All.
  intros H10 Hi1. unfold readUpTo, readSubject. destruct (N.eqb_spec (last_seq (jw_log w1)) 0) as [H0|Hne].
  { cbn. split; [apply moves_refl|]. intros rs [= <-]. apply last_seq_zero in H0 as ->; [done|apply Hi1]. }
  destruct (tasks_ok i t is_task) as [Hrun Hstep _ _ _ _]. rewrite Hrun, Hstep, subject_of.
  unfold io_of, mbind, io_mbind. cbn [prog_bind panic_if].
  apply (wp_bind (jreply subject) jinv) with (Φ := λ r w, rely i w0 w ∧
    ((∃ e, r = inl e ∧ isTransientRead e = true) ∨
     read_at i w0 w (λ w2, ∀ l, r = inr l →
       l = List.filter (λ x, je_Seq x <=? last_seq (jw_log w1))%N (jw_log w2)))).
  - apply transient_wp; [|apply moves_refl]. intros w w' r [-> H]. split; [done|]. intros l ->. by apply H.
  - intros r w [Hrel Hr]. cbn [wp]. split; [done|]. destruct r as [err|l]; [done|].
    destruct Hr as [(e & [=] & _)|(w2 & H1 & H2 & [Hl H3] & H4)]. rewrite (H4 l eq_refl).
    destruct (moves_trans _ _ _ _ H10 H1) as (l' & rs' & Hlog & _). rewrite Hlog in Hl |- *.
    rewrite log_upto by done. rewrite log_decodes by (by eapply log_prefix). by intros rs [= <-].
Qed.

(** What [rebuild] keeps. *)
Record opened (j : Journal) : Prop := {
  od_task : jn_task j = t;
  od_next : jn_next j = 0;
  od_done : jn_done j = false;
  od_calls : jn_toolCalls j = 0;
}.

Lemma rebuild_step_kept j r j' :
  rebuild_step hst j r = Ret j' → opened j →
  opened j' ∧ jn_records j' =
    jn_records j ++ (if rc_Iteration r <? tk_Iteration t then [] else [r]).
Proof using All.
  intros H [<- H2 H3 H4]. unfold rebuild_step in H. apply bind_ret_iff in H as (placed & _ & H).
  destruct (rc_Iteration r <? tk_Iteration (jn_task j)).
  - apply bind_ret_iff in H as (state & _ & [= <-]). cbn. split; [by split|by rewrite app_nil_r].
  - apply bind_ret_iff in H as (resume & _ & [= <-]). cbn. split; [by split|done].
Qed.

Lemma rebuild_loop_kept rs : ∀ j j',
  rebuild_loop hst j rs = Ret j' → opened j →
  opened j' ∧ jn_records j' = jn_records j ++ List.filter (λ r, negb (rc_Iteration r <? tk_Iteration t)) rs.
Proof using All.
  induction rs as [|r rs IH]; intros j j'; cbn [rebuild_loop].
  - intros [= <-] Ho. by rewrite app_nil_r.
  - intros (j1 & H1 & H2)%bind_ret_iff Ho. apply rebuild_step_kept in H1 as [Ho1 Hr1]; [|done].
    apply IH in H2 as [Ho2 Hr2]; [|done]. split; [done|]. rewrite Hr2, Hr1, <-app_assoc. f_equal. cbn.
    by destruct (rc_Iteration r <? tk_Iteration t).
Qed.

Lemma rebuild_kept rs j :
  rebuild hst (zero_Journal t) rs = Ret j →
  opened j ∧ held_ok j ∧ jn_records j = List.filter (λ r, negb (rc_Iteration r <? tk_Iteration t)) rs.
Proof using All.
  unfold rebuild. rewrite !bind_unit_ret_iff. intros (_ & _ & H). cbv zeta in H.
  apply bind_ret_iff in H as (j1 & H1 & H). apply bind_ret_iff in H as (held & Hh & [= <-]).
  apply rebuild_loop_kept in H1 as [[] Hr]; [|by split]. split; [by split|]. split; [|done].
  unfold held_ok, priorUnsafePositions, records_bound in *. cbn. rewrite <-Hh.
  destruct (panic_if _ _); cbn; [by apply held_loop_same|done..].
Qed.

(** Nothing was written by this delivery yet. *)
Definition fresh (w : jworld) : Prop := ∀ x, x ∈ jw_log w → ¬ own i x.

Lemma fresh_rely w w' : rely i w w' → fresh w → fresh w'.
Proof using All.
  intros (l & rs & Hl & Ho & _) Hf x. rewrite Hl. intros [Hx|Hx]%elem_of_app; [by apply Hf|].
  destruct (Ho x Hx) as (k & Hk & Hko). intros Hxo. destruct Hk. by eapply own_inj.
Qed.

(** A message is delivered once in its iteration, or it is the iteration's only
    message and is delivered twice. *)
Definition delivered_twice : Prop :=
  ∀ k m t' tm, tasks !! k = Some t' → k ≠ i → tk_StreamSeq t' = tk_StreamSeq t → tk_StreamSeq t ≠ 0%N →
    tasks !! m = Some tm → tk_Iteration tm = tk_Iteration t → m = i ∨ m = k.

Hypothesis twice : strict = true → delivered_twice.

(** A record the delivery has read, if it matters. *)
Definition seen (rs : list Record_) (x : jentry) : Prop :=
  strict = true → it x = tk_Iteration t → ¬ claims x → rec x ∈ rs.

Lemma seen_ok rs : seen_rule i t (seen rs).
Proof using All.
  split; [intros x Hx _ Hit; unfold it in *; lia|]. intros k t' Hk Hki Hst Hne x [Hc|(m & Hm & Hmi & Hmk)].
  { by intros _ _ []. }
  intros Hs Hit _. destruct (own_task m x Hm) as [tm Htm].
  destruct (own_rec m tm x Hm Htm) as (_ & _ & _ & Hitm & _).
  destruct (twice Hs k m t' tm) as [?|?]; try done. unfold it in *. congruence.
Qed.

(** The log the records were read from is a point to claim after. *)
Lemma open_point j w1 T :
  jinv w1 → fresh w1 → last (jw_log w1) = Some T → it T ≤ tk_Iteration t → jn_task j = t →
  jn_records j = List.filter (λ r, negb (rc_Iteration r <? tk_Iteration t)) (rec <$> jw_log w1) →
  supersededDelivery j = Ret false →
  claim_point (seen (jn_records j)) i t (last_seq (jw_log w1)) (jw_log w1).
Proof using All.
  intros [Hl _] Hf HT HitT Hj Hrs Hsup. split; [done|]. intros x Hx _.
  assert (it x ≤ tk_Iteration t) as Hle.
  { destruct (last_order _ x T Hl HT Hx) as [->|(_ & ? & _)]; lia. }
  assert (it x = tk_Iteration t → rec x ∈ jn_records j) as Hin.
  { intros Hit. rewrite Hrs. apply list_elem_of_In, filter_In. split.
    - apply list_elem_of_In, list_elem_of_fmap. eauto.
    - apply negb_true_iff, Z.ltb_ge. unfold it in *. lia. }
  split_and!; [done|by apply Hf|by intros _ ? _; apply Hin|]. intros Hc Hst Hne.
  destruct (lo_own _ Hl x Hx) as [(k & Hk) _]. destruct (own_task k x Hk) as [tk Htk].
  destruct (own_rec k tk x Hk Htk) as (_ & _ & _ & Hitk & Hatk & _ & Hdek & Hstk).
  assert (k ≠ i) as Hki by (intros ->; by destruct (Hf x)).
  destruct (tasks_message k i tk t) as [Heqi Heqa]; [done|done|congruence|congruence|].
  assert (tk_Delivered tk ≠ tk_Delivered t) as Hde by (apply (tasks_apart k i); try done; congruence).
  assert (rec x ∈ jn_records j) as Hr by (apply Hin; unfold it; congruence).
  unfold supersededDelivery in Hsup. rewrite !bind_unit_ret_iff, Hj in Hsup. destruct Hsup as (_ & _ & [= Hsup]).
  apply N.eqb_neq in Hne as Hne'. rewrite Hne' in Hsup. cbn in Hsup.
  enough (¬ tk_Delivered t < rc_Delivered (rec x)) by lia. intros Hlt.
  rewrite <-not_true_iff_false in Hsup. destruct Hsup. apply existsb_exists. exists (rec x).
  split; [by apply list_elem_of_In|]. rewrite !andb_true_iff. split_and!.
  - by apply bool_decide_eq_true.
  - by apply N.eqb_eq.
  - by apply Z.ltb_lt.
Qed.

Lemma empty_point rs w1 : jw_log w1 = [] → claim_point (seen rs) i t 0 (jw_log w1).
Proof using All. intros ->. split; [done|]. by intros x ?%elem_of_nil. Qed.
(** What was written before the claim has been read. *)
Definition seen_before (rs : list Record_) (w : jworld) : Prop :=
  ∀ c x, c ∈ jw_log w → own i c → x ∈ jw_log w → (je_Seq x < je_Seq c)%N → seen rs x.

Lemma seen_before_stable rs w w' :
  rely i w w' → jinv w' → seen_before rs w → seen_before rs w'.
Proof using All.
  intros (l & rs2 & Hl & Ho & _) [Hok _] Hb c x. rewrite Hl in Hok |- *. intros Hc Hco Hx Hlt.
  assert (c ∈ jw_log w) as Hcw.
  { apply elem_of_app in Hc as [?|Hc]; [done|]. destruct (Ho c Hc) as (k & Hk & Hko).
    destruct Hk. by eapply own_inj. }
  apply elem_of_app in Hx as [Hx|Hx]; [by apply (Hb c)|].
  pose proof (lo_sorted _ Hok) as Hs. apply StronglySorted_app in Hs as (H12 & _).
  destruct (H12 c x Hcw Hx) as (? & _). lia.
Qed.

Lemma claim_land rs w x :
  jinv w → claim_point (seen rs) i t (last_seq (jw_log w)) (jw_log w) →
  wrote i t 0 TypeClaim (marshal_Claim t) x →
  (strict = true → runs_ok (store w x)) ∧ seen_before rs (store w x).
Proof using All.
  intros [Hl Hru] [_ Hp] Hw. split.
  - intros Hs. apply runs_ok_other; [|by apply Hru]. apply unsafe_pos_other.
    by apply wrote_rec in Hw as (_ & _ & -> & _).
  - intros c y [Hc| ->%list_elem_of_singleton]%elem_of_app Hco Hy Hlt.
    { by destruct (Hp c Hc (last_seq_ge _ c Hl Hc)) as (_ & [] & _). }
    apply elem_of_app in Hy as [Hy| ->%list_elem_of_singleton]; [|lia].
    by destruct (Hp y Hy (last_seq_ge _ y Hl Hy)) as (_ & _ & ? & _).
Qed.

(** After a claim that landed, the delivery is a holder. *)
Lemma claimed_local j j' w c :
  opened j → held_ok j → frame j j' → jinv w → c ∈ jw_log w → wrote i t 0 TypeClaim (marshal_Claim t) c →
  jn_seq j' = je_Seq c → jn_next j' = 1 → upto i 0 (λ ty _, ty = TypeClaim) (jw_log w) →
  seen_before (jn_records j) w → local true j' w ∧ clean j' w.
Proof using All.
  intros [O1 O2 O3 O4] Hh [F1 F2 F3 F4 F5 F6] [Hl _] Hc Hw Hseq Hnext Hup Hb. apply wrote_own in Hw as Hco.
  assert (claims c) as Hcc by (unfold claims; by apply wrote_rec in Hw as (_ & _ & -> & _)).
  assert (∀ x t' idx ty d, x ∈ jw_log w → wrote i t' idx ty d x → idx = 0 ∧ ty = TypeClaim) as Hown.
  { intros x t' idx ty d Hx Hwx. pose proof Hwx as (_ & _ & e & Hm). apply message_id in Hm as (? & _).
    destruct (Hup x t' idx ty d Hx Hwx) as [?|?]; [lia|done]. }
  split; [split|].
  - congruence.
  - lia.
  - intros _. by exists c.
  - intros x t' idx ty d Hx Hwx. destruct (Hown x t' idx ty d Hx Hwx). lia.
  - intros _ Hs _. rewrite F5, O4. split_and!; [|by apply (held_same j)| |done].
    + pose proof Hc as (pre & post & Heq)%list_elem_of_split. exists pre, c, post. split_and!; [done..|].
      intros x Hx Hit Hnc. rewrite F2. apply (Hb c x); [done|done|rewrite Heq; set_solver| |done..].
      pose proof (lo_sorted _ Hl) as Hso. rewrite Heq in Hso. apply StronglySorted_app in Hso as (H12 & _).
      destruct (H12 x c Hx) as (? & _); [set_solver|done].
    + intros x pos Hx (t' & idx & ty & d & Hwx) Hpos. destruct (Hown x t' idx ty d Hx Hwx) as [_ ->].
      rewrite unsafe_pos_other in Hpos; [done|]. by apply wrote_rec in Hwx as (_ & _ & -> & _).
  - intros _ x t' idx ty d Hx Hwx. destruct (Hown x t' idx ty d Hx Hwx). lia.
Qed.

Lemma journal_claim_wp j w0 :
  jinv w0 → fresh w0 → opened j → held_ok j →
  claim_point (seen (jn_records j)) i t (jn_seq j) (jw_log w0) →
  jwp i (λ r w, ∀ s, r.2 = Ret s → local true r.1 w ∧ clean r.1 w)
    (append TypeClaim (marshal_Claim t) j) w0.
Proof using All.
  intros Hi Hf Ho Hh Hp. pose proof Ho as [O1 O2 O3 O4].
  unfold append. apply get_bind_wp. unfold mbind at 1, jprog_mbind at 1, j_of at 1. cbn [prog_bind fst snd].
  rewrite O2. cbn [panic_if Z.ltb]. destruct (jn_fenced j); [by cbn|]. rewrite O3, O1.
  unfold mbind, jprog_mbind, j_of. cbn [prog_bind fst snd].
  destruct (MsgID t 0) as [id| |] eqn:Hid; cbn; [|done..].
  eapply (wp_mono (jreply subject) jinv).
  { apply wp_inv; [done|].
    apply (append_loop_wp i t 0 TypeClaim (marshal_Claim t) (claim_point (seen (jn_records j)) i t)
      (λ ty d, ty = TypeClaim ∧ d = marshal_Claim t) (λ _, True) (seen_before (jn_records j)) is_task
      (claim_rules i t _ is_task (seen_ok _))) with (wb := w0); try done.
    - intros w w' Hr Hi'. by apply seen_before_stable.
    - intros w x Hiw _ _ Hpw Hw _. by apply claim_land.
    - intros x t' idx ty d Hx Hw. destruct (Hf x Hx). by eapply wrote_own.
    - intros c x Hc Hco. by destruct (Hf c Hc).
    - apply ext_refl. }
  { done. }
  intros [j' o] w ((Hfr & Hg & He & Hres) & Hi') s. cbn. intros ->.
  destruct Hres as ((x & ty' & d & Hx & Hw & [-> ->] & Hs) & Hseq & Hnext). cbn in *.
  apply (claimed_local j j' w x); try done; [congruence|].
  apply (ext_upto i 0 _ w0 w); [intros y t' idx ty d Hy Hwy; destruct (Hf y Hy); by eapply wrote_own|].
  destruct He as (l & Hl & Hol). exists l. split; [done|]. intros y t' idx ty d Hy Hwy.
  by destruct (Hol y t' idx ty d Hy Hwy) as [? [? _]].
Qed.
(** What holds of a returned value. *)
Definition returns {A} (Φ : A → jworld → Prop) (o : outcome A) (w : jworld) : Prop :=
  ∀ a, o = Ret a → Φ a w.

Lemma returns_bind_wp {A B} (p : io journalE A) (f : A → io journalE B) w0 (Φ : A → jworld → Prop) Ψ :
  jinv w0 → jwp i (returns Φ) p w0 → (∀ a w, jinv w → Φ a w → jwp i (returns Ψ) (f a) w) →
  jwp i (returns Ψ) (p ≫= f) w0.
Proof using All.
  intros Hi Hp Hf. unfold mbind, io_mbind. eapply bind_wp; [done..|].
  intros [a| |] w Hi' Ha; [by apply Hf, Ha|by intros ? [=]..].
Qed.

Lemma returns_of_wp {A B} (o : outcome A) (f : A → io journalE B) w0 Ψ :
  (∀ a, o = Ret a → jwp i (returns Ψ) (f a) w0) → jwp i (returns Ψ) (io_of o ≫= f) w0.
Proof using All. intros Hf. destruct o as [a| |]; cbn; [by apply Hf|by intros ? [=]..]. Qed.

Lemma fresh_local j w :
  jinv w → fresh w → opened j → local true (jn_set_done true j) w ∧ clean (jn_set_done true j) w.
Proof using All.
  intros _ Hf [O1 O2 O3 O4].
  assert (∀ n Q, upto i n Q (jw_log w)) as Hup.
  { intros n Q x t' idx ty d Hx Hw. destruct (Hf x Hx). by eapply wrote_own. }
  split; [split; cbn; [done|lia|done|apply Hup|done]|]. intros _. apply Hup.
Qed.

Lemma Open_wp w0 :
  jinv w0 → fresh w0 → jwp i (returns (λ j w, local true j w ∧ clean j w)) (Open hst t) w0.
Proof using All.
  intros Hi Hf. unfold Open. do 2 (apply returns_of_wp; intros _ _).
  apply (returns_bind_wp _ _ _ (λ _ w, rely i w0 w)); [done| |].
  { unfold bind_stream. cbn. intros w Hr Hw w' r ->. split_and!; [done|apply moves_refl|]. by intros a _. }
  intros _ w2 Hi2 Hr2. assert (fresh w2) as Hf2 by (by eapply fresh_rely).
  apply (returns_bind_wp _ _ _ (λ '(tail, id) w, read_at i w2 w (λ w1, tail_is (jw_log w1) tail id))); [done| |].
  { eapply (wp_mono (jreply subject) jinv); [by apply (readTail_wp i t)|done|].
    intros o w [_ Ho] [tail id] ->. done. }
  intros [tail id] w3 Hi3 (w1 & Hr21 & Hr13 & Hi1 & Htail).
  assert (fresh w1) as Hf1 by (by eapply fresh_rely). assert (fresh w3) as Hf3 by (by eapply fresh_rely).
  destruct (_ && _) eqn:Hstale; [by intros ? [=]|].
  assert (rc_Seq tail = last_seq (jw_log w1)) as Hts by (by eapply tail_is_seq; [apply Hi1|]).
  apply (returns_bind_wp _ _ _ (λ rs w, rely i w3 w ∧ rs = rec <$> jw_log w1)); [done| |].
  { rewrite Hts. eapply (wp_mono (jreply subject) jinv); [by apply (readUpTo_wp w1 w3)|done|].
    intros o w [Hr Ho] rs Hrs. split; [done|]. by apply Ho. }
  intros rs w4 Hi4 [Hr34 ->]. assert (fresh w4) as Hf4 by (by eapply fresh_rely).
  apply returns_of_wp. intros j (Ho & Hh & Hrs)%rebuild_kept. cbv zeta.
  assert (opened (jn_set_seq (rc_Seq tail) j)) as Ho' by (by destruct Ho).
  destruct (jn_committed (jn_set_seq (rc_Seq tail) j)).
  { intros ? [= <-]. by apply fresh_local. }
  apply returns_of_wp. intros [] Hsup; [by intros ? [=]|].
  eapply bind_wp; [done|apply (journal_claim_wp _ w4); [done|done|done|by apply (held_same j)|]|].
  - cbn. rewrite Hts. pose proof (moves_trans _ _ _ _ Hr13 Hr34) as (l & rs' & Hl & _). rewrite Hl.
    apply (pr_ext _ _ _ _ _ (claim_rules i t _ is_task (seen_ok _))); [rewrite <-Hl; apply Hi4|].
    destruct Htail as [(Hnil & _)|(T & HT & -> & _)]; [pose proof (empty_point (jn_records j) w1 Hnil) as He; by rewrite Hnil in He |- *|].
    apply (open_point (jn_set_seq (rc_Seq (rec T)) j) w1 T); try done; [|apply Ho].
    apply last_elem in HT as HT'. destruct HT' as [HTin HTs].
    destruct (log_seq_pos _ T (proj1 Hi1) HTin) as [HTq HTne]. unfold it.
    apply andb_false_iff in Hstale as [?%N.ltb_ge|?%Z.ltb_ge]; lia.
  - intros [j' o] w Hiw Hw a. cbn. destruct o as [s| |]; intros [= <-]. by apply (Hw s).
Qed.

Lemma journal_holder_wp {A} (handler : Journal → act A) w0 :
  jinv w0 → fresh w0 → (strict = true → ∀ j, prudent (handler j)) →
  jwp i (λ _ _, True) (holder hst enc t handler) w0.
Proof using All.
  intros Hi Hf Hpr. unfold holder, mbind, io_mbind. eapply bind_wp; [done|by apply Open_wp|].
  intros [j| |] w Hiw Hw; [|done..]. destruct (Hw j eq_refl) as [Hl Hc].
  eapply (wp_bind (jreply subject) jinv); [apply act_wp; try done; intros; by apply Hpr|done].
Qed.
End Holder.

(** ** Pools of deliveries *)

Definition start_world : jworld := MkJworld [] [].

Lemma start_world_inv : jinv start_world.
Proof using All.
  split; [apply log_ok_nil|]. intros _. split; cbn; [constructor|constructor|].
  by intros key ?%elem_of_nil.
Qed.

Lemma pool_inv {A} hst enc (handlers : list (Journal → act A)) w ps :
  length handlers = length tasks →
  (strict = true → ∀ i handler j, handlers !! i = Some handler → prudent (handler j)) →
  (strict = true → ∀ i t, tasks !! i = Some t → delivered_twice i t) →
  rtc (pool_step (jreply subject) eq) (start_world, zip_with (holder hst enc) tasks handlers) (w, ps) →
  jinv w.
Proof using All.
  intros Hlen Hpr Htw Hs.
  destruct (pool_sound (jreply subject) jinv eq (length tasks) rely guar (λ _ (_ : outcome A) _, True))
    with (c := (start_world, zip_with (holder hst enc) tasks handlers)) (c' := (w, ps)) as (_ & ? & _); try done.
  - intros i. apply moves_trans.
  - intros i. apply moves_refl.
  - intros i j w1 w2 _ _ Hne _. apply moves_mono. by intros k <-.
  - by intros w1 w2 Hi <-.
  - intros i w1 w2 _ <-. apply moves_refl.
  - split_and!; cbn; [rewrite length_zip_with; lia|apply start_world_inv|]. intros i p Hp.
    apply lookup_zip_with_Some in Hp as (t & handler & -> & Ht & Hh).
    apply (journal_holder_wp i t Ht); [intros; by eapply Htw|apply start_world_inv|by intros x ?%elem_of_nil|].
    intros Hst j. by eapply Hpr.
Qed.

(** ** The audit of fencing *)

Lemma own_claim_found l pre x post p1 c p2 i :
  log_ok l → l = pre ++ x :: post → pre = p1 ++ c :: p2 → claims c → own i c → own i x →
  (∀ d, d ∈ p2 → ¬ claims d) →
  let cs := rec <$> List.filter (λ y, bool_decide (rc_Type (rec y) = TypeClaim)) pre in
  own_claim cs (rec x) = Ret (Some (rec c)) ∧ find_first (fences (rec c) (rec x)) cs = None.
Proof using All.
  intros Hl -> -> Hcc Hco Hxo Hno cs.
  assert (cs = (rec <$> List.filter (λ y, bool_decide (rc_Type (rec y) = TypeClaim)) p1) ++ [rec c]) as Hcs.
  { subst cs. rewrite List.filter_app. cbn. rewrite bool_decide_eq_true_2 by done. rewrite (filter_none _ p2).
    - by rewrite fmap_app.
    - intros d Hd. apply bool_decide_eq_false. by apply Hno. }
  destruct (own_task i x Hxo) as [t Ht]. destruct (own_rec i t x Hxo Ht) as (_ & Hxs & Hxne & X1 & X2 & X3 & X4 & X5).
  destruct (own_rec i t c Hco Ht) as (_ & Hcs' & _ & C1 & C2 & C3 & C4 & C5).
  rewrite Hcs. split.
  - unfold own_claim, taskOf. rewrite Hxs. destruct (N.eqb_spec (je_Seq x) 0) as [|_]; [done|]. cbn.
    rewrite reverse_snoc. cbn. unfold sameClaim. rewrite bool_decide_eq_true_2; [done|]. cbn. split_and!; congruence.
  - apply find_first_None. intros d [Hd| ->%list_elem_of_singleton]%elem_of_app.
    + apply list_elem_of_fmap in Hd as (y & -> & Hy). apply list_elem_of_In, filter_In in Hy as [Hy _].
      apply list_elem_of_In in Hy. unfold fences. rewrite Hcs'.
      assert (je_Seq y < je_Seq c)%N as Hlt.
      { pose proof (lo_sorted _ Hl) as Hs. rewrite <-app_assoc in Hs. apply StronglySorted_app in Hs as (H12 & _).
        destruct (H12 y c Hy) as (? & _); [set_solver|done]. }
      destruct (log_seq_pos _ y Hl) as [-> _]; [set_solver|]. destruct (N.ltb_spec (je_Seq c) (je_Seq y)); [lia|done].
    + unfold fences. by rewrite N.ltb_irrefl.
Qed.

Lemma fencing_clean l post : ∀ pre,
  log_ok l → l = pre ++ post →
  fencing_loop (rec <$> List.filter (λ y, bool_decide (rc_Type (rec y) = TypeClaim)) pre) (rec <$> post) = Ret [].
Proof using All.
  induction post as [|x post IH]; intros pre Hl Heq; [done|]. cbn [fencing_loop fmap list_fmap].
  assert (l = (pre ++ [x]) ++ post) as Heq' by (by rewrite <-app_assoc).
  specialize (IH _ Hl Heq'). rewrite List.filter_app, fmap_app in IH. cbn in IH.
  case_bool_decide as Hc; [exact IH|]. rewrite app_nil_r in IH.
  destruct (lo_own _ Hl x) as [(i & Hi) _]; [rewrite Heq; set_solver|].
  destruct (lo_fence _ Hl pre x post Heq Hc i Hi) as (p1 & c & p2 & Hpre & Hcc & Hco & Hno).
  destruct (own_claim_found l pre x post p1 c p2 i) as [-> Hff]; [done..|]. cbn. rewrite IH. cbn. by rewrite Hff.
Qed.
End Spec.
