(* ===== verification/Placer.v ===== *)
(** * Placing inputs (internal/inputplace/place.go)

    The placer of one claim works on the journal and on the submissions: it lists
    the inputs it may place, claims each in the bucket and appends its record.
    Its programs call both stores and thread the journal and the placer's own
    fields.  The seams for tests are left out; where Go returns the inputs placed
    so far together with an error, the error remains. *)

From S2P Require Import Prelude Float64 Json GoTime Types Keys Input Interleave Kv Slots RateLimiter Snapshot Lease Fence Planners Loops Starts Journal Submissions.

#[local] Open Scope Z_scope.

Definition placeE : Type → Type := sumE journalE subE.

Record Placer : Type := MkPlacer {
  pc_placed : list Entry;
  pc_returned : gset string;
}.

Definition pstate : Type := Journal * Placer.

Definition pprog (A : Type) : Type := pstate → prog placeE (pstate * outcome A).

#[global] Instance pprog_mret : MRet pprog := λ A a s, Done (s, Ret a).
#[global] Instance pprog_mbind : MBind pprog := λ A B f m s,
  r ⇐ m s;
  match r.2 with
  | Ret a => f a r.1
  | Err e => Done (r.1, Err e)
  | Panic msg => Done (r.1, Panic msg)
  end.

(** What a call returned, error or not; a panic ends the program. *)
Definition p_try {A} (m : pprog A) : pprog (outcome A) := λ s,
  r ⇐ m s;
  Done (r.1, match r.2 with Panic msg => Panic msg | o => Ret o end).

Definition p_get : pprog pstate := λ s, Done (s, Ret s).
Definition p_modify (f : Placer → Placer) : pprog unit := λ s, Done ((s.1, f s.2), Ret tt).
Definition p_of {A} (o : outcome A) : pprog A := λ s, Done (s, o).

(** Operations of the journal and of the bucket. *)
Definition p_journal {A} (m : jprog A) : pprog A := λ s,
  r ⇐ embed (λ R e, CallL e) (m s.1);
  Done ((r.1, s.2), r.2).
Definition p_store {A} (p : io subE A) : pprog A := λ s,
  o ⇐ embed (λ R e, CallR e) p;
  Done (s, o).

Section Placer.
Context (runID stepID : string) (iteration : Z).

Definition add_placed (e : Entry) (p : Placer) : Placer :=
  MkPlacer (pc_placed p ++ [e]) (pc_returned p).
Definition add_returned (id : string) (p : Placer) : Placer :=
  MkPlacer (pc_placed p) ({[id]} ∪ pc_returned p).

Fixpoint placeable_loop (mode : string) (all : list Entry) : pprog (list Entry) :=
  match all with
  | [] => mret []
  | e :: all' =>
      s ← p_get;
      skip ← (if negb (bool_decide (sb_Mode (se_sub e) = mode)) then mret true
              else p_of (input_placed s.1 (sb_RequestID (se_sub e))));
      rest ← placeable_loop mode all';
      mret (if negb skip && (has_status StatusQueued e || has_status StatusPlaced e)
            then e :: rest else rest)
  end.

Definition placeable (mode : string) : pprog (list Entry) :=
  all ← p_store (List_ runID stepID);
  placeable_loop mode all.

(** The entry of a placement whose submission could not be read. *)
Definition lost_entry (requestID mode : string) : Entry :=
  MkSubEntry (MkSubmission "" "" requestID mode None StatusPlaced zero_time zero_time 0) 0.

Fixpoint recorded_loop (mode : string) (recs : list InputPlaced) : pprog (list InputPlaced) :=
  match recs with
  | [] => mret []
  | rec :: recs' =>
      s ← p_get;
      if negb (ip_Iteration rec =? iteration) || negb (bool_decide (ip_Mode rec = mode)) ||
         bool_decide (ip_RequestID rec ∈ pc_returned s.2)
      then recorded_loop mode recs'
      else
        p_modify (add_returned (ip_RequestID rec)) ≫= λ _,
        o ← p_try (p_store (Get runID stepID (ip_RequestID rec)));
        p_modify (add_placed match o with Ret e => e | _ => lost_entry (ip_RequestID rec) mode end) ≫= λ _,
        rest ← recorded_loop mode recs';
        mret (rec :: rest)
  end.

Definition recordedPlacements (mode : string) : pprog (list InputPlaced) :=
  s ← p_get;
  recorded_loop mode (jn_placed s.1).

Definition claim (e : Entry) : pprog Entry :=
  o ← p_try (p_store (Claim e iteration));
  match o with
  | Err err =>
      if negb (errors_Is err ErrConflict) then p_of (Err err)
      else
        current ← p_store (Get runID stepID (sb_RequestID (se_sub e)));
        s ← p_get;
        recorded ← (if negb (has_status StatusPlaced current) then mret true
                    else p_of (input_placed s.1 (sb_RequestID (se_sub e))));
        if (recorded : bool) then p_of (Err ErrConflict)
        else p_store (Claim current iteration)
  | o => p_of o
  end.

(** No record without an error: the input was settled unanswered. *)
Definition record_input (claimed : Entry) : pprog (option InputPlaced) :=
  p_of (panic_if (negb (has_status StatusPlaced claimed)) "Placer.record: input must be claimed") ≫= λ _,
  let rec := MkInputPlaced (sb_RequestID (se_sub claimed)) (sb_Mode (se_sub claimed))
               (sb_Content (se_sub claimed)) 0 in
  o ← p_try (p_journal (PlaceInput rec));
  match o with
  | Ret _ =>
      p_modify (add_placed claimed) ≫= λ _,
      mret (Some (MkInputPlaced (ip_RequestID rec) (ip_Mode rec) (ip_Content rec) iteration))
  | Err err =>
      if errors_Is err ErrFenced || errors_Is err ErrCommitted then p_of (Err err)
      else p_store (Transition claimed StatusUnanswered 0) ≫= λ _, mret None
  | Panic msg => p_of (Panic msg)
  end.

Fixpoint place_loop (candidates : list Entry) : pprog (list InputPlaced) :=
  match candidates with
  | [] => mret []
  | e :: candidates' =>
      o ← p_try (claim e);
      match o with
      | Err err =>
          if errors_Is err ErrConflict || errors_Is err ErrNotFound then place_loop candidates'
          else p_of (Err err)
      | Panic msg => p_of (Panic msg)
      | Ret claimed =>
          record ← record_input claimed;
          match record with
          | None => place_loop candidates'
          | Some rec =>
              p_modify (add_returned (ip_RequestID rec)) ≫= λ _,
              rest ← place_loop candidates';
              mret (rec :: rest)
          end
      end
  end.

Definition Place (mode : string) : pprog (list InputPlaced) :=
  p_of (panic_if (empty_str runID || empty_str stepID)
    "Placer.Place: journal, store, run and step are required") ≫= λ _,
  p_of (panic_if (negb (bool_decide (mode = ModeSteer ∨ mode = ModeFollowUp)))
    "Placer.Place: mode must be steer or follow_up") ≫= λ _,
  candidates ← placeable mode;
  recorded ← recordedPlacements mode;
  placed ← place_loop candidates;
  mret (recorded ++ placed).

Fixpoint settle_placed (placed : list Entry) : pprog unit :=
  match placed with
  | [] => mret tt
  | e :: placed' =>
      o ← p_try (p_store (Get runID stepID (sb_RequestID (se_sub e))));
      let current := match o with Ret c => c | _ => e end in
      p_try (p_store (Transition current StatusDone iteration)) ≫= λ _,
      settle_placed placed'
  end.

Definition Settle : pprog unit :=
  p_of (panic_if (empty_str runID) "Placer.Settle: run must not be empty") ≫= λ _,
  s ← p_get;
  settle_placed (pc_placed s.2) ≫= λ _,
  p_modify (λ p, MkPlacer [] (pc_returned p)).
End Placer.

(** ** Clients of a step's inputs *)

Section Clients.
Context (h : host) (enc : encoders).

(** What the handler of a delivery does: journal operations, and the placement
    and settling of inputs, each followed by what it makes of the result. *)
Inductive work : Type :=
  | WReturn
  | WAct (a : act unit) (k : outcome unit → work)
  | WPlace (mode : string) (k : outcome (list InputPlaced) → work)
  | WSettle (k : outcome unit → work).

Fixpoint run_work (task : Task) (x : work) : pprog unit :=
  match x with
  | WReturn => mret tt
  | WAct a k => o ← p_try (p_journal (run_act h enc a)); run_work task (k o)
  | WPlace mode k =>
      o ← p_try (Place (tk_RunID task) (tk_StepID task) (tk_Iteration task) mode);
      run_work task (k o)
  | WSettle k =>
      o ← p_try (Settle (tk_RunID task) (tk_StepID task) (tk_Iteration task));
      run_work task (k o)
  end.

(** Callers of the API submit and withdraw, a status read repairs the bucket from
    the journal, the engine settles what a finished step left, and deliveries
    place. *)
Inductive client : Type :=
  | CSubmit (sub : Submission)
  | CWithdraw (runID stepID requestID : string)
  | CProject (sub : Submission) (status : string) (iteration : Z)
  | CSweep (runID stepID : string) (recorded : option (string → bool))
  | CDeliver (task : Task) (handler : Journal → work).

Definition store_client {A} (p : io subE A) : io placeE unit :=
  o ⇐ embed (λ R e, CallR e) p;
  Done (match o with Ret _ => Ret tt | Err e => Err e | Panic s => Panic s end).

Definition run_client (c : client) : io placeE unit :=
  match c with
  | CSubmit sub => store_client (Submit h sub)
  | CWithdraw runID stepID requestID => store_client (Withdraw runID stepID requestID)
  | CProject sub status iteration => store_client (Project sub status iteration)
  | CSweep runID stepID recorded => store_client (SettleUnanswered runID stepID recorded)
  | CDeliver task handler =>
      o ⇐ embed (λ R e, CallL e) (Open h task);
      match o with
      | Ret j => r ⇐ run_work task (handler j) (j, MkPlacer [] ∅); Done r.2
      | Err e => Done (Err e)
      | Panic s => Done (Panic s)
      end
  end.
End Clients.
