(* ===== verification/PlacerSpec.v ===== *)
(** * Placed inputs are claimed

    The journal and the bucket of a step's inputs, shared by callers that submit
    and withdraw, the engine and any number of deliveries.  Once a submission has
    been claimed no call takes the claim back: a withdrawal deletes only a version
    that was still queued, and everything else writes a claimed status.  A
    delivery appends the record of an input only after its claim succeeded.  So a
    withdrawn or queued submission has no record. *)

From S2P Require Import Prelude Float64 Json GoTime Cron Types Keys Input Interleave Kv Slots RateLimiter Snapshot Lease Fence Planners Loops Starts Journal JournalSpec Submissions Placer.
From stdpp Require Import sorting.
From Stdlib Require Import Ascii.

#[local] Open Scope Z_scope.

(** ** What a journal program publishes *)

Fixpoint pubs (Q : jmsg → Prop) {A} (p : prog journalE A) : Prop :=
  match p with
  | Done _ => True
  | Call e k =>
      match e with JPublish m => Q m | _ => True end ∧ ∀ r, pubs Q (k r)
  end.

Definition jpubs (Q : jmsg → Prop) {A} (m : jprog A) : Prop := ∀ j, pubs Q (m j).

Section Pubs.
Context (Q : jmsg → Prop).

Lemma pubs_bind {A B} (p : prog journalE A) (f : A → prog journalE B) :
  pubs Q p → (∀ a, pubs Q (f a)) → pubs Q (prog_bind f p).
Proof. induction p as [a|R e k IH]; cbn; [auto|]. intros [He Hk] Hf. split; [done|]. eauto. Qed.

Lemma jpubs_bind {A B} (m : jprog A) (f : A → jprog B) :
  jpubs Q m → (∀ a, jpubs Q (f a)) → jpubs Q (m ≫= f).
Proof.
  intros Hm Hf j. apply pubs_bind; [apply Hm|]. intros [j' [a| |]]; cbn; [apply Hf|done..].
Qed.

Lemma io_pubs_bind {A B} (p : io journalE A) (f : A → io journalE B) :
  pubs Q p → (∀ a, pubs Q (f a)) → pubs Q (p ≫= f).
Proof. intros Hp Hf. apply pubs_bind; [done|]. intros [a| |]; cbn; [apply Hf|done..]. Qed.

Lemma jpubs_then {A B} (m : jprog A) (k : outcome A → jprog B) :
  jpubs Q m → (∀ o, jpubs Q (k o)) → jpubs Q (j_then m k).
Proof.
  intros Hm Hk j. apply pubs_bind; [apply Hm|]. intros [j' [a| |]]; cbn; [apply Hk..|done].
Qed.

Lemma jpubs_ret {A} (a : A) : jpubs Q (mret a).
Proof. done. Qed.
Lemma jpubs_get : jpubs Q j_get.
Proof. done. Qed.
Lemma jpubs_modify f : jpubs Q (j_modify f).
Proof. done. Qed.
Lemma jpubs_of {A} (o : outcome A) : jpubs Q (j_of o).
Proof. done. Qed.
Lemma jpubs_of_bind {A B} (o : outcome A) (f : A → jprog B) :
  (∀ a, o = Ret a → jpubs Q (f a)) → jpubs Q (j_of o ≫= f).
Proof. intros Hf. destruct o as [a| |]; [by apply (Hf a)|by intros j..]. Qed.
Lemma jpubs_call {R} (e : journalE R) :
  match e with JPublish m => Q m | _ => True end → jpubs Q (j_call e).
Proof. done. Qed.

Lemma pubs_transient {A} left (op : prog journalE (js_error + A)) : ∀ attempt,
  pubs Q op → pubs Q (retryTransient left attempt op).
Proof.
  induction left as [|left IH]; intros attempt Hop; [done|]. cbn. apply pubs_bind; [done|].
  intros [e|a]; [|done]. destruct (negb _); [done|]. cbn. split; [done|]. intros alive.
  destruct left; [done|]. destruct alive; [by apply IH|done].
Qed.

Lemma pubs_readTail task : pubs Q (readTail task).
Proof.
  unfold readTail. apply io_pubs_bind; [done|]. intros subject. apply pubs_bind; [by apply pubs_transient|done].
Qed.

Lemma jpubs_tail : jpubs Q j_tail.
Proof. intros j. apply pubs_bind; [apply pubs_readTail|done]. Qed.

Lemma jpubs_resync : jpubs Q resync.
Proof.
  apply jpubs_bind; [apply jpubs_get|]. intros j. destruct (jn_fenced j); [apply jpubs_of|].
  apply jpubs_bind; [apply jpubs_tail|]. intros [tail id]. destruct (_ || _); [apply jpubs_ret|].
  destruct (sameClaim _ _); [apply jpubs_modify|]. apply jpubs_bind; [apply jpubs_modify|]. intros _. apply jpubs_of.
Qed.

Lemma jpubs_advance seq : jpubs Q (advance seq).
Proof.
  apply jpubs_bind; [apply jpubs_of|]. intros _. apply jpubs_bind; [apply jpubs_get|]. intros j.
  apply jpubs_bind; [apply jpubs_of|]. intros _. destruct (_ <? _)%N.
  - apply jpubs_bind; [apply jpubs_modify|]. intros _. apply jpubs_of.
  - apply jpubs_bind; [apply jpubs_modify|]. intros _. apply jpubs_ret.
Qed.

(** An append publishes its record only. *)
Lemma jpubs_append_loop left ty data id :
  (∀ m, hdr_get (jm_Header m) HeaderType = ty → jm_Data m = data → Q m) → ∀ try e,
  jpubs Q (append_loop left try ty data id e).
Proof.
  intros HQ. induction left as [|left IH]; intros try e; [apply jpubs_of|]. cbn [append_loop].
  apply jpubs_bind; [apply jpubs_get|]. intros j.
  destruct (recordMessage (jn_task j) ty (jn_next j) e data) as [msg| |] eqn:Hm; [|intros j'; done..].
  intros j'. cbn. split.
  { unfold recordMessage in Hm. rewrite !bind_unit_ret_iff in Hm. destruct Hm as (_ & _ & Hm).
    apply bind_ret_iff in Hm as (? & _ & Hm). apply bind_ret_iff in Hm as (? & _ & [= <-]). by apply HQ. }
  intros [err|s]; cbn; [|apply jpubs_advance]. destruct (negb _); [done|].
  apply (jpubs_bind j_tail); [apply jpubs_tail|]. intros [tail tid]. destruct (_ || _).
  { apply jpubs_bind; [by apply jpubs_call|]. intros _. apply IH. }
  case_bool_decide; [apply jpubs_advance|]. destruct (_ || _); [apply IH|].
  apply jpubs_bind; [apply jpubs_of|]. intros [].
  - apply IH.
  - apply jpubs_bind; [apply jpubs_modify|]. intros _. apply jpubs_of.
Qed.

Lemma jpubs_append ty data :
  (∀ m, hdr_get (jm_Header m) HeaderType = ty → jm_Data m = data → Q m) → jpubs Q (append ty data).
Proof.
  intros HQ. apply jpubs_bind; [apply jpubs_get|]. intros j. apply jpubs_bind; [apply jpubs_of|]. intros _.
  destruct (jn_fenced j); [apply jpubs_of|]. destruct (jn_done j); [apply jpubs_of|].
  apply jpubs_bind; [apply jpubs_of|]. intros id. by apply jpubs_append_loop.
Qed.
End Pubs.

Create HintDb pubs.
#[export] Hint Resolve jpubs_ret jpubs_get jpubs_modify jpubs_of jpubs_tail jpubs_resync jpubs_advance : pubs.

(** One step of a journal operation: a bind, a branch or a known operation. *)
Ltac jpubs_step :=
  first
    [ solve [eauto with pubs]
    | apply jpubs_bind; [|intros ?]
    | apply jpubs_call; exact I
    | match goal with
      | |- jpubs _ (if ?b then _ else _) => destruct b
      | |- jpubs _ (match ?x with _ => _ end) => destruct x
      end ].

(** ** Handlers that place nothing themselves *)

Definition other (m : jmsg) : Prop := hdr_get (jm_Header m) HeaderType ≠ TypeInputPlaced.

Fixpoint placeless {A} (a : act A) : Prop :=
  match a with
  | AReturn _ => True
  | AAppend ty _ k => ty ≠ TypeInputPlaced ∧ ∀ o, placeless (k o)
  | APause _ _ k | ACommit _ k => ∀ o, placeless (k o)
  | APlace _ _ => False
  | ATool _ _ fn k => (∀ c, placeless (fn c)) ∧ ∀ o, placeless (k o)
  | AModel k => ∀ o, placeless (k o)
  | AResync k => ∀ o, placeless (k o)
  end.

Lemma append_other ty data : ty ≠ TypeInputPlaced → jpubs other (append ty data).
Proof. intros Hty. apply jpubs_append. intros m Hm _. unfold other. by rewrite Hm. Qed.

Lemma append_claim data : jpubs other (append TypeClaim data).
Proof. by apply append_other. Qed.
Lemma append_pause data : jpubs other (append TypePause data).
Proof. by apply append_other. Qed.
Lemma append_commit data : jpubs other (append TypeCommit data).
Proof. by apply append_other. Qed.
Lemma append_intent data : jpubs other (append TypeToolIntent data).
Proof. by apply append_other. Qed.
Lemma append_result data : jpubs other (append TypeToolResult data).
Proof. by apply append_other. Qed.
Lemma append_response data : jpubs other (append TypeModelResponse data).
Proof. by apply append_other. Qed.
#[export] Hint Resolve append_claim append_pause append_commit append_intent append_result append_response : pubs.

Lemma jpubs_result r : jpubs other (appendToolResult r).
Proof. unfold appendToolResult. repeat jpubs_step. Qed.
#[export] Hint Resolve jpubs_result : pubs.

Lemma jpubs_runTool call fn : (∀ c, jpubs other (fn c)) → jpubs other (runTool call fn).
Proof. intros Hfn. unfold runTool. repeat jpubs_step. Qed.

Lemma jpubs_Tool hst call replay fn : (∀ c, jpubs other (fn c)) → jpubs other (Tool hst call replay fn).
Proof.
  intros Hfn. pose proof (λ c, jpubs_runTool c fn Hfn) as Hrun.
  unfold Tool, freshTool, honourPrior. cbv zeta. repeat jpubs_step.
Qed.

Lemma jpubs_Model : jpubs other Model.
Proof. unfold Model. cbv zeta. repeat jpubs_step. Qed.

Lemma placeless_pubs {A} hst enc (a : act A) : placeless a → jpubs other (run_act hst enc a).
Proof.
  induction a as [A a|A ty data k IH|A name d k IH|A c k IH|A p k IH|A call replay fn IHf k IH|A k IH|A k IH];
    cbn [placeless run_act]; intros Ha.
  - apply jpubs_ret.
  - destruct Ha as [Hty Ha]. apply jpubs_then; [|intros o; by apply IH].
    unfold Append. repeat (apply jpubs_bind; [apply jpubs_of|intros _]). by apply append_other.
  - apply jpubs_then; [unfold Pause; repeat jpubs_step|intros o; by apply IH].
  - apply jpubs_then; [unfold commit_journal; repeat jpubs_step|intros o; by apply IH].
  - done.
  - destruct Ha as [Hf Hk]. apply jpubs_then; [|intros o; by apply IH].
    apply jpubs_Tool. intros c. apply jpubs_bind; [by apply jpubs_call|]. intros _. by apply IHf.
  - apply jpubs_then; [apply jpubs_Model|intros o; by apply IH].
  - apply jpubs_then; [unfold Resync; repeat jpubs_step|intros o; by apply IH].
Qed.

Lemma Open_pubs hst task : pubs other (Open hst task).
Proof.
  unfold Open. do 2 (apply io_pubs_bind; [done|]; intros _).
  apply io_pubs_bind; [unfold bind_stream; by cbn|]. intros _.
  apply io_pubs_bind; [apply pubs_readTail|]. intros [tail id]. destruct (_ && _); [done|].
  apply io_pubs_bind.
  { unfold readUpTo. destruct (_ =? 0)%N; [done|]. unfold readSubject.
    apply io_pubs_bind; [done|]. intros _. apply io_pubs_bind; [done|]. intros subject.
    apply pubs_bind; [by apply pubs_transient|done]. }
  intros records. apply io_pubs_bind; [done|]. intros j. cbv zeta. destruct (jn_committed _); [done|].
  apply io_pubs_bind; [done|]. intros []; [done|]. apply pubs_bind; [apply append_claim|done].
Qed.

(** ** The world of a step's inputs *)

(** The request an input.placed message names. *)
Definition msg_placed (m : jmsg) : option string :=
  if bool_decide (hdr_get (jm_Header m) HeaderType = TypeInputPlaced) then
    match unmarshal_InputPlaced (jm_Data m) with
    | Ret p => if empty_str (ip_RequestID p) then None else Some (ip_RequestID p)
    | _ => None
    end
  else None.

Definition claimed_status (status : string) : Prop :=
  status ∈ [StatusPlaced; StatusDone; StatusUnanswered].

Definition dotless (s : string) : Prop := str_contains_char "."%char s = false.

(** ** Keys *)

Lemma token_dotless s : dotless (SubjectToken s).
Proof.
  assert (∀ n t, str_contains_char "."%char t = false → str_contains_char "."%char (String.substring 0 n t) = false) as Hsub.
  { intros n t. revert n. induction t as [|c t IH]; intros [|n]; cbn; [done..|].
    destruct (bool_decide _) eqn:Hc; cbn; [done|]. apply IH. }
  apply Hsub. generalize 0%nat as skip. induction s as [|c s IH]; intros [|skip]; cbn [token_go]; [done..| |apply IH].
  cbn. rewrite IH, orb_false_r. destruct (token_char c) eqn:Hc; [|done].
  case_bool_decide as Hd; [subst c; done|done].
Qed.

Lemma key_under r st k q :
  dotless r → HasPrefix k (r +:+ "." +:+ SubjectToken st +:+ ".") = true →
  (∃ r' st', dotless r' ∧ SubmissionKey r' st' q = Ret k) →
  k = r +:+ "." +:+ SubjectToken st +:+ "." +:+ q.
Proof.
  intros Hr Hp (r' & st' & Hr' & Hk). unfold SubmissionKey in Hk. rewrite !bind_unit_ret_iff in Hk.
  destruct Hk as (_ & _ & [= <-]). apply HasPrefix_inv in Hp as [rest Hp]. rewrite !str_app_assoc in Hp.
  apply (split_at_char "."%char) in Hp as [-> Hp]; [|done..].
  apply (split_at_char "."%char) in Hp as [-> _]; [done|apply token_dotless..].
Qed.

(** A value is stored under the key of its own fields. *)
Definition val_at (k : string) (v : sval) : Prop :=
  ∃ s, v = VSub s ∧ dotless (sb_RunID s) ∧
    SubmissionKey (sb_RunID s) (sb_StepID s) (sb_RequestID s) = Ret k.

Definition val_status (v : sval) : string := match v with VSub s => sb_Status s | VBad _ => "" end.

Section World.
Context (subject runID stepID : string) {B : Type} `{!Kv sval B, !KvLaws sval B}.

Definition pworld : Type := jworld * kvw sval B.
Implicit Types (w : pworld).

Definition place_reply R w (e : placeE R) w' (r : R) : Prop :=
  match e with
  | CallL e => jreply subject R w.1 e w'.1 r ∧ w'.2 = w.2
  | CallR (CallL e) => kv_reply true R w.2 e w'.2 r ∧ w'.1 = w.1
  | CallR (CallR _) => w' = w
  end.

(** The key of a request of this step. *)
Definition skey (requestID : string) : string := runID +:+ "." +:+ SubjectToken stepID +:+ "." +:+ requestID.

Definition claimed_at w (k : string) : Prop :=
  ∃ e, kv_get (kw_b w.2) k = Some e ∧ claimed_status (val_status (ent_value e)).

Record inv w : Prop := {
  in_kv : kv_ok w.2;
  in_past : ∀ k x, (k, x) ∈ kw_past w.2 → val_at k (ent_value x);
  in_get : ∀ k x, kv_get (kw_b w.2) k = Some x → val_at k (ent_value x);
  in_log : ∀ x id, x ∈ jw_log w.1 → msg_placed (je_Msg x) = Some id → claimed_at w (skey id);
}.

(** What every call does to the world: claims stay, reads are remembered. *)
Definition grows w w' : Prop :=
  (∀ k, claimed_at w k → claimed_at w' k) ∧ (∀ x, x ∈ kw_past w.2 → x ∈ kw_past w'.2).

#[global] Instance grows_preorder : PreOrder grows.
Proof. split; [by intros w|]. intros w1 w2 w3 [? ?] [? ?]. split; auto. Qed.

(** A call the protocol allows. *)
Definition call_ok w {R} (e : placeE R) : Prop :=
  match e with
  | CallL (JPublish m) => ∀ id, msg_placed m = Some id → claimed_at w (skey id)
  | CallR (CallL (KvCreate k v)) => val_at k v
  | CallR (CallL (KvUpdate k v _)) => val_at k v ∧ claimed_status (val_status v)
  | CallR (CallL (KvPut k v)) => val_at k v ∧ claimed_status (val_status v)
  | CallR (CallL (KvDelete k g)) =>
      ∃ x, g = Some (ent_revision x) ∧ (k, x) ∈ kw_past w.2 ∧ ¬ claimed_status (val_status (ent_value x))
  | _ => True
  end.

Lemma call_ok_grows w w' {R} (e : placeE R) : grows w w' → call_ok w e → call_ok w' e.
Proof.
  intros [Hc Hp]. destruct e as [[]|[[]|[]]]; cbn; try done.
  - intros H id Hid. by apply Hc, H.
  - intros (x & ? & ? & ?). exists x. auto.
Qed.

(** The bucket after a call that changes it. *)
Lemma kv_step_past kw {R} (e : kvE sval R) kw' r k x :
  kv_reply true R kw e kw' r → (k, x) ∈ kw_past kw' → (k, x) ∈ kw_past kw ∨ kv_get (kw_b kw') k = Some x.
Proof.
  intros [[-> _]|[-> _]] Hx; [|by left]. unfold kv_after in *. cbn in *.
  destruct (kv_key e) as [k'|]; cbn in Hx; [|by left].
  destruct (kv_get _ k') as [y|] eqn:Hy; [|by left].
  apply elem_of_cons in Hx as [[= -> ->]|?]; [by right|by left].
Qed.

Lemma claimed_same w w' k :
  kv_get (kw_b w'.2) k = kv_get (kw_b w.2) k → claimed_at w k → claimed_at w' k.
Proof. intros He (e & ? & ?). exists e. by rewrite He. Qed.

(** A write of [k] that stores a claimed value or meets an unclaimed one. *)
Lemma wrote_step w kw' k v n {R} (e : kvE sval R) r :
  inv w → kv_reply true R w.2 e kw' r → Kv.wrote (kw_b w.2) k v n (kw_b kw') →
  (∀ x, v = Some x → val_at k x) →
  ((∃ x, v = Some x ∧ claimed_status (val_status x)) ∨ ¬ claimed_at w k) →
  inv (w.1, kw') ∧ grows w (w.1, kw').
Proof using Type*.
  intros [I1 I2 I3 I4] Hrep (_ & _ & Hv & Hoth) Hval Hcl.
  assert (∀ k', claimed_at w k' → claimed_at (w.1, kw') k') as Hkeep.
  { intros k' Hk'. destruct (decide (k' = k)) as [->|Hne].
    - destruct Hcl as [(x & -> & Hx)|Hn]; [|done]. destruct Hv as [t Ht]. by exists (MkEntry x n t).
    - apply (claimed_same w); [by apply Hoth|done]. }
  assert (∀ k' x, kv_get (kw_b kw') k' = Some x → val_at k' (ent_value x)) as Hget.
  { intros k' x Hx. destruct (decide (k' = k)) as [->|Hne].
    - destruct v as [y|]; [|by rewrite Hv in Hx]. destruct Hv as [t Ht]. rewrite Ht in Hx.
      injection Hx as <-. by apply Hval.
    - rewrite (proj1 (Hoth k' Hne)) in Hx. by apply I3. }
  split.
  - split; cbn; [by eapply kv_reply_ok| |done|].
    + intros k' x Hx. destruct (kv_step_past _ _ _ _ _ _ Hrep Hx) as [Hp|Hg]; [by apply I2|by apply Hget].
    + intros x id Hx Hid. by apply Hkeep, (I4 x).
  - split; [done|]. intros x Hx. by eapply kv_reply_past.
Qed.

Lemma same_step w kw' {R} (e : kvE sval R) r :
  inv w → kv_reply true R w.2 e kw' r → kw_b kw' = kw_b w.2 →
  inv (w.1, kw') ∧ grows w (w.1, kw').
Proof using Type*.
  intros [I1 I2 I3 I4] Hrep Hb.
  assert (∀ k', claimed_at w k' → claimed_at (w.1, kw') k') as Hkeep.
  { intros k'. apply claimed_same. cbn. by rewrite Hb. }
  split.
  - split; cbn; [by eapply kv_reply_ok| |by rewrite Hb|].
    + intros k' x Hx. destruct (kv_step_past _ _ _ _ _ _ Hrep Hx) as [Hp|Hg]; [by apply I2|].
      rewrite Hb in Hg. by apply I3.
    + intros x id Hx Hid. by apply Hkeep, (I4 x).
  - split; [done|]. intros x Hx. by eapply kv_reply_past.
Qed.

Lemma journal_step w jw' {R} (e : journalE R) r :
  inv w → call_ok w (CallL e : placeE R) → jreply subject R w.1 e jw' r →
  inv (jw', w.2) ∧ grows w (jw', w.2).
Proof using Type*.
  intros [I1 I2 I3 I4] Hok Hrep.
  assert (∀ x, x ∈ jw_log jw' → x ∈ jw_log w.1 ∨ ∃ m, je_Msg x = m ∧ ∀ id, msg_placed m = Some id → claimed_at w (skey id)) as Hlog.
  { destruct e as [|m|s|s tl|d|d|key rp|c]; cbn in Hrep;
      [subst; by left| |destruct Hrep as [-> _]; by left|destruct Hrep as [-> _]; by left|subst; by left..].
    destruct Hrep as [(y & (_ & <- & _) & -> & _)|[-> _]]; [|by left].
    intros x [?| ->%list_elem_of_singleton]%elem_of_app; [by left|right]. by exists (je_Msg y). }
  split; [|split; [|done]].
  - split; [done..|]. cbn. intros x id Hx Hid. destruct (Hlog x Hx) as [?|(m & <- & Hm)]; [by apply (I4 x)|by apply Hm].
  - intros k. by apply claimed_same.
Qed.

Lemma call_step w {R} (e : placeE R) w' r :
  inv w → call_ok w e → place_reply R w e w' r → inv w' ∧ grows w w'.
Proof using Type*.
  intros Hi Hok Hrep. destruct e as [e|[e|e]]; cbn in Hrep.
  - destruct w' as [jw' kw']. cbn in Hrep. destruct Hrep as [Hrep ->]. by apply (journal_step w jw' e r).
  - destruct w' as [jw' kw']. cbn in Hrep. destruct Hrep as [Hrep ->].
    assert (kw_b kw' = kw_b w.2 → inv (w.1, kw') ∧ grows w (w.1, kw')) as Hsame by (by apply (same_step w kw' e r)).
    destruct e as [l k|k v|k v n|k v|k g| | |p]; cbn in Hok.
    + apply get_reply in Hrep as Hr. apply Hsame, Hr.
    + apply create_reply in Hrep as Hr.
      assert (∀ n, kv_get (kw_b w.2) k = None → Kv.wrote (kw_b w.2) k (Some v) n (kw_b kw') →
        inv (w.1, kw') ∧ grows w (w.1, kw')) as Hw.
      { intros n Hn Hw. eapply (wrote_step w kw' k (Some v) n); [done..|by intros x [= <-]|right].
        intros (x & Hx & _). congruence. }
      destruct r as [[]|n]; [by destruct Hr|apply Hsame, Hr|by destruct Hr| |by eapply Hw; apply Hr].
      destruct Hr as [_ [?|(? & n & ?)]]; eauto.
    + apply update_reply in Hrep as Hr. destruct Hok as [Hv Hc].
      assert (∀ n', Kv.wrote (kw_b w.2) k (Some v) n' (kw_b kw') → inv (w.1, kw') ∧ grows w (w.1, kw')) as Hw.
      { intros n' Hw. eapply (wrote_step w kw' k (Some v) n'); [done..|by intros x [= <-]|left; eauto]. }
      destruct r as [[]|n']; [by destruct Hr|by destruct Hr|apply Hsame, Hr| |by eapply Hw; apply Hr].
      destruct Hr as [_ [?|(? & n' & ?)]]; eauto.
    + apply put_reply in Hrep as Hr. destruct Hok as [Hv Hc].
      assert (∀ n', Kv.wrote (kw_b w.2) k (Some v) n' (kw_b kw') → inv (w.1, kw') ∧ grows w (w.1, kw')) as Hw.
      { intros n' Hw. eapply (wrote_step w kw' k (Some v) n'); [done..|by intros x [= <-]|left; eauto]. }
      destruct r as [err|n']; [|by eapply Hw; apply Hr]. destruct Hr as [_ [?|(n' & ?)]]; eauto.
    + apply delete_reply in Hrep as Hr. destruct Hok as (x & -> & Hx & Hnc).
      assert (∀ n', kv_rev (kw_b w.2) k = ent_revision x → Kv.wrote (kw_b w.2) k None n' (kw_b kw') →
        inv (w.1, kw') ∧ grows w (w.1, kw')) as Hw.
      { intros n' Hrev Hw. eapply (wrote_step w kw' k None n'); [done..|by intros ? [=]|right].
        intros (y & Hy & Hyc). destruct (in_kv _ Hi k x Hx) as [_ Hcur]. specialize (Hcur Hrev). congruence. }
      destruct r as [[]|u]; [by destruct Hr|apply Hsame, Hr|by destruct Hr| |].
      * destruct Hr as [_ [?|(Hrev & n' & ?)]]; [auto|]. eapply Hw; [by apply Hrev|done].
      * destruct Hr as (Hrev & n' & ?). eapply Hw; [by apply Hrev|done].
    + apply Hsame. by destruct Hrep as [[-> _]|[-> _]].
    + apply Hsame. by destruct Hrep as [[-> _]|[-> _]].
    + apply Hsame. by destruct Hrep as [[-> _]|[-> _]].
  - subst. split; [done|]. by split.
Qed.

#[local] Abbreviation pwp := (wp place_reply inv grows grows).

Lemma pcall_wp {A R} (e : placeE R) (k : R → prog placeE A) Φ w0 :
  call_ok w0 e →
  (∀ w w' r, inv w → place_reply R w e w' r → inv w' → grows w w' → grows w0 w' → pwp Φ (k r) w') →
  pwp Φ (Call e k) w0.
Proof using Type*.
  intros Hok Hk w Hr Hi w' r Hrep. destruct (call_step w e w' r) as [Hi' Hg]; [done|by eapply call_ok_grows|done|].
  split_and!; [done..|]. apply (Hk w w' r); [done..|]. by etrans.
Qed.

Lemma pbind_wp {A C} (p : prog placeE A) (f : A → prog placeE C) Φ Ψ w0 :
  pwp Φ p w0 → (∀ a w, grows w0 w → Φ a w → pwp Ψ (f a) w) → pwp Ψ (prog_bind f p) w0.
Proof using Type*.
  intros Hp Hf. eapply wp_bind; [by eapply wp_since; [apply _|done|reflexivity]|].
  intros a w [? ?]. by apply Hf.
Qed.

(** *** The journal *)

Lemma pubs_mono (Q Q' : jmsg → Prop) {A} (p : prog journalE A) :
  (∀ m, Q m → Q' m) → pubs Q p → pubs Q' p.
Proof.
  intros HQ. induction p as [a|R e k IH]; cbn; [done|]. intros [He Hk]. split; [|auto]. destruct e; auto.
Qed.

Definition pub_ok w (m : jmsg) : Prop := ∀ id, msg_placed m = Some id → claimed_at w (skey id).

Lemma journal_wp {A} (p : prog journalE A) : ∀ w0,
  pubs (pub_ok w0) p → pwp (λ _ _, True) (embed (λ R e, CallL e) p : prog placeE A) w0.
Proof using Type*.
  induction p as [a|R e k IH]; intros w0; [done|]. intros [He Hk]. cbn [embed].
  apply pcall_wp; [destruct e; cbn; auto|]. intros w w' r _ _ _ _ Hg. apply IH.
  eapply pubs_mono; [|by apply Hk]. intros m Hm id Hid. by apply Hg, Hm.
Qed.

Lemma other_ok w m : other m → pub_ok w m.
Proof. intros Hm id. unfold msg_placed. by rewrite bool_decide_eq_false_2. Qed.

Lemma placed_data rec data :
  marshal_InputPlaced rec = Ret data →
  ∃ p, unmarshal_InputPlaced data = Ret p ∧ ip_RequestID p = ip_RequestID rec.
Proof.
  intros H. unfold marshal_InputPlaced in H. apply bind_ret_iff in H as (content & Hc & [= <-]).
  unfold enc_raw in Hc. destruct rec as [id mode c it]. cbn [ip_RequestID ip_Mode ip_Content] in *.
  destruct (raw_len0 c); [injection Hc as <-|destruct c as [[|v]|]; [done| |done]; injection Hc as <-];
    unfold unmarshal_InputPlaced, unmarshal_struct; cbn; eexists; done.
Qed.

(** The record of a claimed input may be published. *)
Lemma placed_pubs w rec :
  claimed_at w (skey (ip_RequestID rec)) → jpubs (pub_ok w) (PlaceInput rec).
Proof using Type*.
  intros Hc. unfold PlaceInput. apply jpubs_bind; [apply jpubs_of|]. intros _.
  apply jpubs_bind; [apply jpubs_get|]. intros j. apply jpubs_bind; [apply jpubs_of|]. intros already.
  apply jpubs_bind; [apply jpubs_of|]. intros _.
  apply jpubs_of_bind. intros data Hd.
  apply jpubs_bind; [|intros seq; apply jpubs_bind; [apply jpubs_modify|intros _; apply jpubs_ret]].
  apply jpubs_append. intros m Hty Hdata id. unfold msg_placed. rewrite Hty, Hdata, bool_decide_eq_true_2 by done.
  destruct (marshal_InputPlaced rec) as [d| |] eqn:Hm; [|done..]. injection Hd as ->.
  destruct (placed_data rec data Hm) as (p & -> & Hp). destruct (empty_str (ip_RequestID p)); [done|].
  intros [= <-]. by rewrite Hp.
Qed.

(** *** The bucket *)

(** A program of the bucket alone. *)
Definition swp {A} (Φ : A → pworld → Prop) (p : prog subE A) (w0 : pworld) : Prop :=
  pwp Φ (embed (λ R e, CallR e) p : prog placeE A) w0.

Lemma sbind_wp {A C} (p : prog subE A) (f : A → prog subE C) Φ Ψ : ∀ w0,
  swp Φ p w0 → (∀ a w, grows w0 w → Φ a w → swp Ψ (f a) w) → swp Ψ (prog_bind f p) w0.
Proof using Type*.
  unfold swp. induction p as [a|R e k IH]; intros w0 Hp Hf; cbn in *; [by apply Hf|].
  intros w Hr Hi w' r Hrep. destruct (Hp w Hr Hi w' r Hrep) as (Hi' & Hg & Hk).
  split_and!; [done..|]. apply IH; [done|]. intros a w2 Hg2. apply Hf. by etrans; [|etrans].
Qed.

Lemma scall_wp {R} (e : kvE sval R) (Φ : R → pworld → Prop) w0 :
  call_ok w0 (CallR (CallL e) : placeE R) →
  (∀ w w' r, inv w → kv_reply true R w.2 e w'.2 r → inv w' → grows w w' → grows w0 w' → Φ r w') →
  swp Φ (sub_kv e) w0.
Proof using Type*.
  intros Hok HΦ. unfold swp, sub_kv. cbn. apply (pcall_wp (CallR (CallL e)) Done); [done|].
  intros w w' r Hi [Hrep _] Hi' Hg Hg0. by apply (HΦ w w' r).
Qed.

(** Returned values; errors and panics need nothing. *)
Definition rets {A} (Φ : A → pworld → Prop) (o : outcome A) (w : pworld) : Prop := ∀ a, o = Ret a → Φ a w.

Lemma sio_wp {A C} (p : io subE A) (f : A → io subE C) Φ Ψ w0 :
  swp (rets Φ) p w0 → (∀ a w, grows w0 w → Φ a w → swp (rets Ψ) (f a) w) → swp (rets Ψ) (p ≫= f) w0.
Proof using Type*.
  intros Hp Hf. unfold mbind, io_mbind. eapply sbind_wp; [done|].
  intros [a| |] w Hg Ha; [by apply Hf, Ha|by intros ? [=]..].
Qed.

Lemma sof_wp {A C} (o : outcome A) (f : A → io subE C) Ψ w0 :
  (∀ a, o = Ret a → swp (rets Ψ) (f a) w0) → swp (rets Ψ) (io_of o ≫= f) w0.
Proof using Type*. intros Hf. destruct o as [a| |]; [by apply Hf|by intros ? [=]..]. Qed.

Lemma now_wp w0 : swp (rets (λ _ _, True)) sub_now w0.
Proof using Type*.
  unfold swp, sub_now. cbn. intros w _ Hi w' r ->. split_and!; [done|reflexivity|]. by intros a _.
Qed.

(** An entry that was read from the bucket, and its key. *)
Definition known_at (k : string) (e : Entry) w : Prop :=
  ∃ x, (k, x) ∈ kw_past w.2 ∧ ent_value x = VSub (se_sub e) ∧ se_Revision e = ent_revision x ∧
    dotless (sb_RunID (se_sub e)) ∧
    SubmissionKey (sb_RunID (se_sub e)) (sb_StepID (se_sub e)) (sb_RequestID (se_sub e)) = Ret k.

Lemma known_grows k e w w' : grows w w' → known_at k e w → known_at k e w'.
Proof. intros [_ Hp] (x & Hx & ?). exists x. auto. Qed.

Lemma known_past k x s w :
  inv w → (k, x) ∈ kw_past w.2 → ent_value x = VSub s → known_at k (MkSubEntry s (ent_revision x)) w.
Proof.
  intros Hi Hx Hv. exists x. destruct (in_past _ Hi k x Hx) as (s' & Hs' & Hd & Hk).
  rewrite Hv in Hs'. injection Hs' as <-. done.
Qed.

Lemma Get_wp r s q w0 :
  swp (rets (λ e w, ∃ k, SubmissionKey r s q = Ret k ∧ known_at k e w)) (Get r s q) w0.
Proof using Type*.
  unfold Get. apply sof_wp. intros _ _. apply sof_wp. intros k Hk.
  eapply sbind_wp with (Φ := λ o w, ∀ x, o = inr x → inv w ∧ (k, x) ∈ kw_past w.2).
  { apply scall_wp; [done|]. intros w w' o _ Hrep Hi' _ _ x ->. split; [done|].
    by apply get_reply in Hrep as (_ & _ & ?). }
  intros [err|x] w Hg Hx; [destruct err; by intros ? [=]|]. destruct (Hx x eq_refl) as [Hi Hp].
  intros e He. unfold decodeEntry in He. apply bind_unit_ret_iff in He as [_ He].
  destruct (ent_value x) as [sub|] eqn:Hv; [|done]. injection He as <-. exists k. split; [done|]. by apply known_past.
Qed.

Lemma sb_set_at status now it k e w v :
  known_at k e w → marshal_Submission (sb_set status now it (se_sub e)) = Ret v →
  val_at k v ∧ val_status v = status.
Proof.
  intros (x & _ & _ & _ & Hd & Hk) Hm. unfold marshal_Submission in Hm. apply bind_ret_iff in Hm as (_ & _ & [= <-]).
  split; [|done]. by eexists.
Qed.

Lemma placed_claimed : claimed_status StatusPlaced.
Proof. by constructor. Qed.
Lemma done_claimed : claimed_status StatusDone.
Proof. by do 2 constructor. Qed.
Lemma unanswered_claimed : claimed_status StatusUnanswered.
Proof. by do 3 constructor. Qed.

(** A compare-and-set of a known entry to a claimed status. *)
Lemma update_wp k e status now it v w0 :
  known_at k e w0 → claimed_status status → marshal_Submission (sb_set status now it (se_sub e)) = Ret v →
  swp (λ o w, ∀ n, o = inr n →
    claimed_at w k ∧ known_at k (MkSubEntry (sb_set status now it (se_sub e)) n) w)
    (sub_kv (KvUpdate k v (se_Revision e))) w0.
Proof using Type*.
  intros Hk Hc Hm. destruct (sb_set_at status now it k e w0 v Hk Hm) as [Hv Hst].
  apply scall_wp; [cbn; by rewrite Hst|]. intros w w' o _ Hrep Hi' _ _ n ->.
  apply update_remembered in Hrep as Hrem. destruct Hrem as [t Ht]. apply update_reply in Hrep as (_ & Hw).
  unfold marshal_Submission in Hm. apply bind_ret_iff in Hm as (_ & _ & [= <-]). split.
  - destruct Hw as (_ & _ & [t' Hg] & _). eexists. split; [exact Hg|]. cbn. by rewrite <-Hst in Hc.
  - exact (known_past k _ _ w' Hi' Ht eq_refl).
Qed.

Lemma Claim_wp k e it w0 :
  known_at k e w0 →
  swp (rets (λ e' w, claimed_at w k ∧ known_at k e' w ∧ sb_RequestID (se_sub e') = sb_RequestID (se_sub e)))
    (Claim e it) w0.
Proof using Type*.
  intros Hk. pose proof Hk as (x & _ & _ & _ & _ & Hkey). unfold Claim. apply sof_wp. intros _ _.
  eapply sio_wp; [apply now_wp|]. intros now w Hg _. cbv zeta. apply sof_wp. intros v Hv.
  rewrite Hkey. apply sof_wp. intros k' [= <-].
  eapply sbind_wp; [apply (update_wp k e StatusPlaced now it); [by eapply known_grows|apply placed_claimed|done]|].
  intros [err|n] w2 Hg2 Hn.
  - destruct (rejected err); [|by intros ? [=]]. eapply sio_wp; [apply Get_wp|]. intros ? ? _ _. by intros ? [=].
  - intros e' [= <-]. destruct (Hn n eq_refl). done.
Qed.

Lemma Transition_wp e status it w0 :
  (∃ k, known_at k e w0) ∨ se_Revision e = 0%N → claimed_status status →
  swp (rets (λ _ _, True)) (Transition e status it) w0.
Proof using Type*.
  intros Hk Hc. unfold Transition. apply sof_wp. intros [] Hr%panic_if_ret_iff.
  destruct Hk as [[k Hk]|Hz]; [|by rewrite Hz in Hr].
  pose proof Hk as (x & _ & _ & _ & _ & Hkey).
  eapply sio_wp; [apply now_wp|]. intros now w Hg _. cbv zeta. apply sof_wp. intros v Hv.
  rewrite Hkey. apply sof_wp. intros k' [= <-].
  eapply sbind_wp; [apply (update_wp k e status now it); [by eapply known_grows|done|done]|].
  intros [err|n] w2 Hg2 Hn; [|by intros ? _]. destruct (negb (rejected err)); [by intros ? [=]|].
  eapply sio_wp; [apply Get_wp|]. intros cur w3 _ _. by intros ? _.
Qed.

Lemma Submit_wp hst sub w0 : dotless (sb_RunID sub) → swp (rets (λ _ _, True)) (Submit hst sub) w0.
Proof using Type*.
  intros Hd. unfold Submit. apply sof_wp. intros _ _. eapply sio_wp; [apply now_wp|]. intros now w Hg _. cbv zeta.
  apply sof_wp. intros v Hv. apply sof_wp. intros k Hk.
  eapply sbind_wp with (Φ := λ _ _, True).
  - apply scall_wp; [|done]. cbn. unfold marshal_Submission in Hv. apply bind_ret_iff in Hv as (_ & _ & [= <-]).
    by eexists.
  - intros [[]|n] w2 _ _; try (by intros ? _). eapply sio_wp; [apply Get_wp|]. by intros ? ? _ _ ? _.
Qed.

Lemma Project_wp sub status it w0 :
  dotless (sb_RunID sub) → claimed_status status → swp (rets (λ _ _, True)) (Project sub status it) w0.
Proof using Type*.
  intros Hd Hc. unfold Project. apply sof_wp. intros _ _. eapply sio_wp; [apply now_wp|]. intros now w Hg _. cbv zeta.
  set (s := if IsZero _ then _ else _).
  assert (sb_RunID s = sb_RunID sub ∧ sb_Status s = status) as [Hr Hs] by (subst s; by destruct (IsZero _)).
  apply sof_wp. intros v Hv. apply sof_wp. intros k Hk.
  eapply sbind_wp with (Φ := λ _ _, True); [|intros [err|n] w2 _ _; by intros ? _].
  apply scall_wp; [|done]. cbn. unfold marshal_Submission in Hv. apply bind_ret_iff in Hv as (_ & _ & [= <-]).
  split; [|cbn; by rewrite Hs]. exists s. by rewrite Hr in *.
Qed.

Lemma Withdraw_wp r s q w0 : swp (rets (λ _ _, True)) (Withdraw r s q) w0.
Proof using Type*.
  unfold Withdraw. eapply sio_wp; [apply Get_wp|]. intros e w Hg (k & Hk & x & Hx & Hv & Hrev & _).
  case_bool_decide as Hq; cbn [negb]; [|by intros ? _]. apply sof_wp. intros k' Hk'.
  assert (k' = k) as -> by congruence.
  eapply sbind_wp with (Φ := λ _ _, True); [|intros [err|n] w2 _ _; by intros ? _].
  apply scall_wp; [|done]. cbn. exists x. rewrite Hrev, Hv. cbn. rewrite Hq. split_and!; [done..|].
  unfold claimed_status. intros H. by repeat (apply elem_of_cons in H as [H|H]; [done|]); apply elem_of_nil in H.
Qed.

(** *** Lists *)

Lemma get_entries_wp keys : ∀ w0,
  swp (rets (λ es w, ∀ e, e ∈ es → ∃ k, k ∈ keys ∧ known_at k e w)) (get_entries keys) w0.
Proof using Type*.
  induction keys as [|k keys IH]; intros w0; cbn [get_entries].
  { intros es [= <-]. by intros e ?%elem_of_nil. }
  eapply sbind_wp with (Φ := λ o w, ∀ x, o = inr x → inv w ∧ (k, x) ∈ kw_past w.2).
  { apply scall_wp; [done|]. intros w w' o _ Hrep Hi' _ _ x ->. split; [done|].
    by apply get_reply in Hrep as (_ & _ & ?). }
  intros [err|x] w Hg Hx.
  - destruct err; try (by intros ? [=]). eapply (wp_mono place_reply inv); [apply IH|done|].
    intros o w' Ho es ->. intros e He. destruct (Ho es eq_refl e He) as (k' & ? & ?). exists k'. set_solver.
  - destruct (Hx x eq_refl) as [Hi Hp]. destruct (ent_value x) as [sub|] eqn:Hv; [|by intros ? [=]].
    pose proof (known_past k x sub w Hi Hp Hv) as Hkn.
    eapply sio_wp; [apply IH|]. intros es w2 Hg2 Hes. intros es' [= <-] e [->|He]%elem_of_cons.
    + exists k. split; [by left|by eapply known_grows].
    + destruct (Hes e He) as (k' & ? & ?). exists k'. set_solver.
Qed.

Lemma List_wp r st w0 :
  dotless r →
  swp (rets (λ es w, ∀ e, e ∈ es →
    known_at (r +:+ "." +:+ SubjectToken st +:+ "." +:+ sb_RequestID (se_sub e)) e w)) (List_ r st) w0.
Proof using Type*.
  intros Hr. unfold List_. apply sof_wp. intros _ _. apply sof_wp. intros prefix Hpre.
  unfold SubmissionKeyPrefix in Hpre. rewrite !bind_unit_ret_iff in Hpre. destruct Hpre as (_ & _ & [= <-]).
  eapply sbind_wp with (Φ := λ o _, ∀ keys, o = inr keys → ∀ k, k ∈ keys →
    HasPrefix k (r +:+ "." +:+ SubjectToken st +:+ ".") = true).
  { unfold ListKeysUnder. eapply sbind_wp with (Φ := λ _ _, True); [by apply scall_wp|].
    intros [err|keys] w _ _; [by intros ? [=]|]. intros keys' [= <-] k.
    rewrite merge_sort_Permutation, list_elem_of_In, filter_In, !str_app_assoc. by intros [_ ?]. }
  intros [err|keys] w Hg Hkeys; [by intros ? [=]|]. destruct (_ <? _); [by intros ? [=]|].
  eapply sio_wp; [apply get_entries_wp|]. intros es w2 _ Hes. intros es' [= <-] e.
  rewrite merge_sort_Permutation. intros He. destruct (Hes e He) as (k & Hk & Hkn).
  pose proof Hkn as (x & _ & _ & _ & Hd & Hkey). specialize (Hkeys keys eq_refl k Hk).
  rewrite <-(key_under r st k (sb_RequestID (se_sub e)) Hr Hkeys); [done|]. eauto.
Qed.

Lemma settle_loop_wp queued : ∀ n w0,
  (∀ e, e ∈ queued → ∃ k, known_at k e w0) → swp (rets (λ _ _, True)) (settle_loop n queued) w0.
Proof using Type*.
  induction queued as [|e queued IH]; intros n w0 Hq; cbn [settle_loop]; [by intros ? _|].
  eapply sbind_wp; [apply Transition_wp; [left; apply Hq; by left|apply unanswered_claimed]|].
  intros o w Hg _. assert (∀ n', swp (rets (λ _ _, True)) (settle_loop n' queued) w) as Hrest.
  { intros n'. apply IH. intros e' He'. destruct (Hq e') as [k Hk]; [by right|]. exists k. by eapply known_grows. }
  destruct o as [e'|err|msg]; [apply Hrest| |by intros ? [=]]. destruct (_ || _); [apply Hrest|by intros ? [=]].
Qed.

Lemma Sweep_wp r st recorded w0 :
  dotless r → swp (rets (λ _ _, True)) (SettleUnanswered r st recorded) w0.
Proof using Type*.
  intros Hr. unfold SettleUnanswered. apply sof_wp. intros _ _. eapply sio_wp; [by apply List_wp|].
  intros es w _ Hes. apply settle_loop_wp. intros e [He _]%list_elem_of_In%filter_In. eexists. apply Hes.
  by apply list_elem_of_In.
Qed.

(** *** The placer *)

Hypothesis run_dotless : dotless runID.

(** What the placer remembers was read from the bucket, or cannot be written. *)
Definition placer_ok (s : pstate) w : Prop :=
  ∀ e, e ∈ pc_placed s.2 → (∃ k, known_at k e w) ∨ se_Revision e = 0%N.

Lemma placer_ok_grows s w w' : grows w w' → placer_ok s w → placer_ok s w'.
Proof using Type.
  intros Hg Hok e He. destruct (Hok e He) as [[k Hk]|?]; [left; exists k; by eapply known_grows|by right].
Qed.

Definition pspec {A} (m : pprog A) (Φ : A → pworld → Prop) w0 : Prop :=
  ∀ s w, grows w0 w → placer_ok s w →
    pwp (λ r w', placer_ok r.1 w' ∧ ∀ a, r.2 = Ret a → Φ a w') (m s) w.

Lemma pspec_bind {A C} (m : pprog A) (f : A → pprog C) Φ Ψ w0 :
  pspec m Φ w0 → (∀ a w, grows w0 w → Φ a w → pspec (f a) Ψ w) → pspec (m ≫= f) Ψ w0.
Proof using Type*.
  intros Hm Hf s w Hg Hok. unfold mbind, pprog_mbind. eapply pbind_wp; [by apply Hm|].
  intros [s' o] w' Hg' [Hok' Ho]. cbn in *. destruct o as [a|e|msg]; [|split; [done|by intros ? [=]]..].
  apply (Hf a w'); [by etrans|by apply Ho|reflexivity|done].
Qed.

Lemma pspec_try {A} (m : pprog A) Φ w0 :
  pspec m Φ w0 → pspec (p_try m) (λ o w, ∀ a, o = Ret a → Φ a w) w0.
Proof using Type*.
  intros Hm s w Hg Hok. unfold p_try. eapply pbind_wp; [by apply Hm|].
  intros [s' o] w' Hg' [Hok' Ho]. cbn in *. split; [done|]. intros o' Ho' a ->.
  destruct o; simplify_eq. by apply Ho.
Qed.

Lemma pspec_of {A} (o : outcome A) (Φ : A → pworld → Prop) w0 :
  (∀ a w, grows w0 w → o = Ret a → Φ a w) → pspec (p_of o) Φ w0.
Proof using Type. intros Ho s w Hg Hok. cbn. split; [done|]. intros a Ha. by apply Ho. Qed.

Lemma pspec_ret {A} (a : A) (Φ : A → pworld → Prop) w0 :
  (∀ w, grows w0 w → Φ a w) → pspec (mret a) Φ w0.
Proof using Type. intros HΦ. apply pspec_of. intros a' w Hg [= <-]. by apply HΦ. Qed.

Lemma pspec_get w0 : pspec p_get (λ s w, placer_ok s w) w0.
Proof using Type. intros s w Hg Hok. cbn. split; [done|]. by intros s' [= <-]. Qed.

Lemma pspec_modify f w0 :
  (∀ p e, e ∈ pc_placed (f p) → e ∈ pc_placed p ∨ (∃ k, known_at k e w0) ∨ se_Revision e = 0%N) →
  pspec (p_modify f) (λ _ _, True) w0.
Proof using Type.
  intros Hf s w Hg Hok. cbn. split; [|done]. intros e He. cbn in He.
  destruct (Hf _ e He) as [?|[[k Hk]|?]]; [by apply Hok|left; exists k; by eapply known_grows|by right].
Qed.

Lemma pspec_journal {A} (m : jprog A) w0 : jpubs (pub_ok w0) m → pspec (p_journal m) (λ _ _, True) w0.
Proof using Type*.
  intros Hm s w Hg Hok. unfold p_journal. eapply pbind_wp.
  - apply journal_wp. eapply pubs_mono; [|by apply Hm]. intros x Hx id Hid. by apply Hg, Hx.
  - intros r w' Hg' _. cbn. split; [by eapply (placer_ok_grows s)|done].
Qed.

Lemma pspec_store {A} (p : io subE A) Φ w0 :
  (∀ w, grows w0 w → swp (rets Φ) p w) → pspec (p_store p) Φ w0.
Proof using Type*.
  intros Hp s w Hg Hok. unfold p_store. eapply pbind_wp; [by apply Hp|].
  intros o w' Hg' Ho. cbn. split; [by eapply (placer_ok_grows s)|]. intros a Ha. by apply Ho.
Qed.

Lemma pspec_mono {A} (m : pprog A) (Φ Ψ : A → pworld → Prop) w0 :
  pspec m Φ w0 → (∀ a w, Φ a w → Ψ a w) → pspec m Ψ w0.
Proof using Type.
  intros Hm HΦ s w Hg Hok. eapply wp_mono; [by apply Hm|done|]. intros r w' [? ?]. split; [done|]. auto.
Qed.

(** A candidate of this step under its key. *)
Definition candidate (e : Entry) w : Prop := known_at (skey (sb_RequestID (se_sub e))) e w.

Lemma candidate_grows e w w' : grows w w' → candidate e w → candidate e w'.
Proof using Type. apply known_grows. Qed.

Lemma placeable_loop_spec mode all : ∀ w0,
  (∀ e, e ∈ all → candidate e w0) →
  pspec (placeable_loop mode all) (λ es w, ∀ e, e ∈ es → candidate e w) w0.
Proof using Type*.
  induction all as [|e all IH]; intros w0 Hall; cbn [placeable_loop].
  { apply pspec_ret. by intros w _ e ?%elem_of_nil. }
  eapply pspec_bind; [apply pspec_get|]. intros s w1 Hg1 _.
  eapply (pspec_bind _ _ (λ _ _, True)).
  { destruct (negb _); [by apply pspec_ret|by apply pspec_of]. }
  intros skip w2 Hg2 _. eapply pspec_bind.
  { apply IH. intros e' He'. eapply candidate_grows; [|apply Hall; by right]. by etrans. }
  intros rest w3 Hg3 Hrest. apply pspec_ret. intros w4 Hg4 e' He'.
  assert (e' = e ∨ e' ∈ rest) as [->|Hr].
  { destruct (_ && _); [by apply elem_of_cons in He'|by right]. }
  - eapply candidate_grows; [|by apply Hall; left]. by do 3 (etrans; [done|]).
  - eapply candidate_grows; [done|]. by apply Hrest.
Qed.

Lemma placeable_spec mode w0 :
  pspec (placeable runID stepID mode) (λ es w, ∀ e, e ∈ es → candidate e w) w0.
Proof using Type*.
  eapply pspec_bind; [apply pspec_store; intros w _; by apply List_wp|].
  intros all w Hg Hall. by apply placeable_loop_spec.
Qed.

Lemma recorded_loop_spec it mode recs : ∀ w0,
  pspec (recorded_loop runID stepID it mode recs) (λ _ _, True) w0.
Proof using Type*.
  induction recs as [|rec recs IH]; intros w0; cbn [recorded_loop]; [by apply pspec_ret|].
  eapply pspec_bind; [apply pspec_get|]. intros s w1 _ _. destruct (_ || _); [apply IH|].
  eapply pspec_bind; [apply pspec_modify; by left|]. intros _ w2 _ _.
  eapply pspec_bind; [eapply pspec_try, pspec_store; intros w _; apply Get_wp|]. intros o w3 _ Ho.
  eapply pspec_bind.
  { apply pspec_modify. intros p e [?|Hl%list_elem_of_singleton]%elem_of_app; [by left|right]. subst e.
    destruct o as [e| |]; [left|by right..]. destruct (Ho e eq_refl) as (k & _ & ?). by exists k. }
  intros _ w4 _ _. eapply pspec_bind; [apply IH|]. intros rest w5 _ _. by apply pspec_ret.
Qed.

(** A claimed input: its submission has a claimed status. *)
Definition claimed_entry (e : Entry) w : Prop :=
  candidate e w ∧ claimed_at w (skey (sb_RequestID (se_sub e))).

Lemma claimed_entry_grows e w w' : grows w w' → claimed_entry e w → claimed_entry e w'.
Proof using Type. intros Hg [? ?]. split; [by eapply candidate_grows|by apply Hg]. Qed.

Lemma Claim_spec e it w0 : candidate e w0 → pspec (p_store (Claim e it)) claimed_entry w0.
Proof using Type*.
  intros He. apply pspec_store. intros w Hg. eapply (wp_mono place_reply inv).
  - apply Claim_wp. by eapply candidate_grows.
  - done.
  - intros o w' Ho e' ->. destruct (Ho e' eq_refl) as (Hc & Hk & Hid).
    unfold claimed_entry, candidate. by rewrite Hid.
Qed.

Lemma claim_spec it e w0 : candidate e w0 → pspec (claim runID stepID it e) claimed_entry w0.
Proof using Type*.
  intros He. unfold claim. eapply pspec_bind; [by apply pspec_try, Claim_spec|]. intros o w1 Hg1 Ho.
  destruct o as [e'|err|msg].
  - apply pspec_of. intros a w Hg [= <-]. eapply claimed_entry_grows; [done|]. by apply Ho.
  - destruct (negb _); [by apply pspec_of|].
    eapply pspec_bind; [apply pspec_store; intros w _; apply Get_wp|]. intros cur w2 _ (k & Hk & Hcur).
    eapply pspec_bind; [apply pspec_get|]. intros s w3 Hg3 _.
    eapply (pspec_bind _ _ (λ _ _, True)).
    { destruct (negb _); [by apply pspec_ret|by apply pspec_of]. }
    intros rcd w4 Hg4 _. destruct rcd; [by apply pspec_of|]. apply Claim_spec.
    unfold candidate. assert (k = skey (sb_RequestID (se_sub cur))) as <-.
    { pose proof Hcur as (x & _ & _ & _ & Hd & Hkey). unfold SubmissionKey in Hk, Hkey.
      rewrite !bind_unit_ret_iff in Hk, Hkey. destruct Hk as (_ & _ & [= <-]). destruct Hkey as (_ & _ & [= Hkey]).
      apply (split_at_char "."%char) in Hkey as [_ Hkey]; [|done..].
      apply (split_at_char "."%char) in Hkey as [_ ->]; [done|apply token_dotless..]. }
    eapply known_grows; [|done]. by etrans.
  - by apply pspec_of.
Qed.

Lemma record_spec it e w0 : claimed_entry e w0 → pspec (record_input it e) (λ _ _, True) w0.
Proof using Type*.
  intros [Hc Hcl]. unfold record_input. eapply pspec_bind; [by apply (pspec_of _ (λ _ _, True))|]. intros _ w1 Hg1 _.
  eapply pspec_bind; [apply pspec_try, pspec_journal, placed_pubs; by apply Hg1|]. intros o w2 Hg2 _.
  assert (candidate e w2) as Hc2 by (eapply candidate_grows; [|done]; by etrans).
  destruct o as [u|err|msg].
  - eapply pspec_bind; [|intros _ w3 _ _; by apply pspec_ret]. apply pspec_modify.
    intros p e' [?| ->%list_elem_of_singleton]%elem_of_app; [by left|right; left]. by eexists.
  - destruct (_ || _); [by apply pspec_of|]. eapply pspec_bind; [|intros _ w3 _ _; by apply pspec_ret].
    apply pspec_store. intros w Hg. apply Transition_wp; [|apply unanswered_claimed].
    left. eexists. by eapply candidate_grows.
  - by apply pspec_of.
Qed.

Lemma place_loop_spec it es : ∀ w0,
  (∀ e, e ∈ es → candidate e w0) → pspec (place_loop runID stepID it es) (λ _ _, True) w0.
Proof using Type*.
  induction es as [|e es IH]; intros w0 Hes; cbn [place_loop]; [by apply pspec_ret|].
  eapply pspec_bind; [apply pspec_try, claim_spec, Hes; by left|]. intros o w1 Hg1 Ho.
  assert (∀ w, grows w1 w → pspec (place_loop runID stepID it es) (λ _ _, True) w) as Hrest.
  { intros w Hg. apply IH. intros e' He'. eapply candidate_grows; [|apply Hes; by right]. by etrans. }
  destruct o as [c|err|msg]; [|destruct (_ || _); [by apply Hrest|by apply pspec_of]|by apply pspec_of].
  eapply pspec_bind; [by apply record_spec, Ho|]. intros [rec|] w2 Hg2 _; [|by apply Hrest].
  eapply pspec_bind; [apply pspec_modify; by left|]. intros _ w3 Hg3 _.
  eapply pspec_bind; [apply Hrest; by etrans|]. intros rest w4 _ _. by apply pspec_ret.
Qed.

Lemma Place_spec it mode w0 : pspec (Place runID stepID it mode) (λ _ _, True) w0.
Proof using Type*.
  unfold Place. eapply pspec_bind; [by apply (pspec_of _ (λ _ _, True))|]. intros _ wa _ _.
  eapply pspec_bind; [by apply (pspec_of _ (λ _ _, True))|]. intros _ wb _ _.
  eapply pspec_bind; [apply placeable_spec|]. intros es w1 Hg1 Hes.
  eapply pspec_bind; [eapply pspec_bind; [apply pspec_get|intros s ? _ _; apply recorded_loop_spec]|].
  intros recorded w2 Hg2 _. eapply pspec_bind; [|intros placed w3 _ _; by apply pspec_ret].
  apply place_loop_spec. intros e He. eapply candidate_grows; [done|]. by apply Hes.
Qed.

Lemma settle_placed_spec it es : ∀ w0,
  (∀ e, e ∈ es → (∃ k, known_at k e w0) ∨ se_Revision e = 0%N) →
  pspec (settle_placed runID stepID it es) (λ _ _, True) w0.
Proof using Type*.
  induction es as [|e es IH]; intros w0 Hes; cbn [settle_placed]; [by apply pspec_ret|].
  assert (∀ w, grows w0 w → ∀ e', e' ∈ e :: es → (∃ k, known_at k e' w) ∨ se_Revision e' = 0%N) as Hes'.
  { intros w Hg e' He'. destruct (Hes e' He') as [[k Hk]|?]; [left; exists k; by eapply known_grows|by right]. }
  eapply pspec_bind; [eapply pspec_try, pspec_store; intros w _; apply Get_wp|]. intros o w1 Hg1 Ho. cbv zeta.
  eapply pspec_bind; [|intros _ w2 Hg2 _; apply IH; intros e' He'; apply Hes'; [by etrans|by right]].
  eapply pspec_mono; [apply pspec_try, pspec_store|done]. intros w Hg. apply Transition_wp; [|apply done_claimed].
  destruct o as [c| |]; [|apply Hes'; [by etrans|by left]..].
  left. destruct (Ho c eq_refl) as (k & _ & Hk). exists k. by eapply known_grows.
Qed.

Lemma Settle_spec it w0 : pspec (Settle runID stepID it) (λ _ _, True) w0.
Proof using Type*.
  unfold Settle. eapply pspec_bind; [by apply (pspec_of _ (λ _ _, True))|]. intros _ w1 _ _.
  eapply pspec_bind; [apply pspec_get|]. intros s w2 _ Hs.
  eapply pspec_bind; [by apply settle_placed_spec|]. intros _ w3 _ _.
  apply pspec_modify. by intros p e ?%elem_of_nil.
Qed.

(** *** Clients *)

(** A handler that places inputs only through [Place]. *)
Fixpoint placing (x : work) : Prop :=
  match x with
  | WReturn => True
  | WAct a k => placeless a ∧ ∀ o, placing (k o)
  | WPlace _ k => ∀ o, placing (k o)
  | WSettle k => ∀ o, placing (k o)
  end.

Lemma work_spec hst enc task x : tk_RunID task = runID → tk_StepID task = stepID →
  placing x → ∀ w0, pspec (run_work hst enc task x) (λ _ _, True) w0.
Proof using Type*.
  intros Hr Hs. induction x as [|a k IH|mode k IH|k IH]; intros Hx w0; cbn [run_work].
  - by apply pspec_ret.
  - destruct Hx as [Ha Hk]. eapply pspec_bind; [apply pspec_try, pspec_journal|intros o w _ _; by apply IH].
    intros j. eapply pubs_mono; [apply other_ok|by apply placeless_pubs].
  - eapply pspec_bind; [|intros o w _ _; by apply IH]. rewrite Hr, Hs. apply pspec_try, Place_spec.
  - eapply pspec_bind; [|intros o w _ _; by apply IH]. rewrite Hr, Hs. apply pspec_try, Settle_spec.
Qed.

(** The clients of the step: run IDs have no dot, a status read projects what the
    journal says, and a delivery of this step places through the placer. *)
Definition client_ok (c : client) : Prop :=
  match c with
  | CSubmit sub => dotless (sb_RunID sub)
  | CWithdraw _ _ _ => True
  | CProject sub status _ => dotless (sb_RunID sub) ∧ claimed_status status
  | CSweep r _ _ => dotless r
  | CDeliver task handler =>
      tk_RunID task = runID ∧ tk_StepID task = stepID ∧ ∀ j, placing (handler j)
  end.

Lemma store_client_wp {A} (p : io subE A) Φ w0 :
  swp Φ p w0 → pwp (λ _ _, True) (store_client p) w0.
Proof using Type*. intros Hp. unfold store_client. eapply pbind_wp; [exact Hp|]. by intros o w _ _. Qed.

Lemma place_client_wp hst enc c w0 : client_ok c → pwp (λ _ _, True) (run_client hst enc c) w0.
Proof using Type*.
  destruct c as [sub|r s q|sub status it|r s recorded|task handler]; cbn [client_ok run_client].
  - intros Hd. eapply store_client_wp. by apply Submit_wp.
  - intros _. eapply store_client_wp, Withdraw_wp.
  - intros [Hd Hc]. eapply store_client_wp. by apply Project_wp.
  - intros Hd. eapply store_client_wp. by apply Sweep_wp.
  - intros (Hr & Hs & Hh). eapply pbind_wp.
    { apply journal_wp. eapply pubs_mono; [apply other_ok|apply Open_pubs]. }
    intros [j|e|msg] w Hg _; [|done..]. eapply pbind_wp; [|by intros ? ? _ _].
    apply (work_spec hst enc task (handler j) Hr Hs (Hh j) w); [reflexivity|]. by intros e ?%elem_of_nil.
Qed.

Lemma clients_inv hst enc cs w0 c :
  inv w0 → Forall client_ok cs →
  rtc (pool_step place_reply eq) (w0, run_client hst enc <$> cs) c → inv c.1.
Proof using Type*.
  intros Hi Hcs Hr.
  apply (pool_sound place_reply inv eq (length cs) (λ _, grows) (λ _, grows) (λ _ _ _, True)) in Hr
    as (_ & ? & _); [done|..].
  - intros _ w1 w2 w3. apply transitivity.
  - by intros _ w.
  - done.
  - by intros i j w w' _ _ _ _.
  - by intros w w' ? <-.
  - by intros i w w' _ <-.
  - split; [apply length_fmap|]. split; [done|]. intros i p Hp. cbn in *.
    apply list_lookup_fmap_Some in Hp as (c' & -> & Hc'). apply place_client_wp.
    by eapply Forall_lookup_1.
Qed.
End World.
