(* ===== verification/Ci.v ===== *)
(** * CI specifications (ci/spec.go, ci/compile.go, ci/diagnostics.go)

    A ci.yml file is parsed into a [Spec] and compiled into a workflow
    definition.  Both passes accumulate diagnostics, at most [DiagnosticsMax]
    and a last one that says that more were dropped, instead of stopping at the
    first: they are functions of a monad that threads the diagnostics and may
    panic.  A message is the [Sprintf] call that words it.

    The YAML library is a parameter: it gives the tree of nodes of a text and
    decodes a node into a Go value, with or without an error. *)

From S2P Require Import Prelude Float64 Json Types Keys GoTime Validate.
From stdpp Require Import sorting.
From Stdlib Require Import Ascii.

#[local] Open Scope Z_scope.

(** ** YAML nodes *)

Inductive Kind : Type := DocumentNode | SequenceNode | MappingNode | ScalarNode | AliasNode.

#[global] Instance Kind_eq_dec : EqDecision Kind.
Proof. solve_decision. Defined.

Inductive Node : Type :=
  MkNode (kind : Kind) (tag value : string) (line column : Z) (content : list Node).

Definition n_Kind (n : Node) : Kind := let 'MkNode k _ _ _ _ _ := n in k.
Definition n_Tag (n : Node) : string := let 'MkNode _ t _ _ _ _ := n in t.
Definition n_Value (n : Node) : string := let 'MkNode _ _ v _ _ _ := n in v.
Definition n_Line (n : Node) : Z := let 'MkNode _ _ _ l _ _ := n in l.
Definition n_Column (n : Node) : Z := let 'MkNode _ _ _ _ c _ := n in c.
Definition n_Content (n : Node) : list Node := let 'MkNode _ _ _ _ _ l := n in l.

Definition is_kind (k : Kind) (n : Node) : bool := bool_decide (n_Kind n = k).

(** The keys and values of a mapping: [for i := 0; i+1 < len(c); i += 2]. *)
Fixpoint pairs (l : list Node) : list (Node * Node) :=
  match l with
  | k :: v :: l' => (k, v) :: pairs l'
  | _ => []
  end.

(** ** Diagnostics *)

Record Diagnostic : Type := MkDiagnostic {
  dg_Line : Z;
  dg_Column : Z;
  dg_Field : string;
  dg_Message : error;
}.

Definition DiagnosticsMax : nat := 100.

Definition too_many : Diagnostic :=
  MkDiagnostic 0 0 "" (Errorf "too many errors: stopped accumulating diagnostics after reaching the maximum" []).

Definition addDiagnostic (diags : list Diagnostic) (d : Diagnostic) : outcome (list Diagnostic) :=
  panic_if (bool_decide (DiagnosticsMax + 1 < length diags)%nat)
    "addDiagnostic: internal invariant: diags already exceeds the capped length";;
  if bool_decide (DiagnosticsMax ≤ length diags)%nat then Ret diags
  else
    let diags := diags ++ [d] in
    let diags := if bool_decide (length diags = DiagnosticsMax) then diags ++ [too_many] else diags in
    panic_if (bool_decide (DiagnosticsMax + 1 < length diags)%nat)
      "addDiagnostic: internal invariant: diags grew past the capped length";;
    Ret diags.

(** Functions that take the diagnostics and return them extended. *)
Definition dm (A : Type) : Type := list Diagnostic → outcome (A * list Diagnostic).

#[global] Instance dm_ret : MRet dm := λ A a diags, Ret (a, diags).
#[global] Instance dm_bind : MBind dm := λ A B f m diags,
  match m diags with
  | Ret (a, diags') => f a diags'
  | Err e => Err e
  | Panic msg => Panic msg
  end.

Definition report (d : Diagnostic) : dm unit := λ diags, addDiagnostic diags d ≫= λ diags', Ret (tt, diags').
Definition count : dm nat := λ diags, Ret (length diags, diags).
Definition dm_of {A} (o : outcome A) : dm A := λ diags, o ≫= λ a, Ret (a, diags).

(** [if b { diags = addDiagnostic(...) }] *)
Definition report_if (b : bool) (d : Diagnostic) : dm unit := if b then report d else mret tt.

Fixpoint d_each {A} (f : A → dm unit) (l : list A) : dm unit :=
  match l with
  | [] => mret tt
  | x :: l' => f x ≫= λ _, d_each f l'
  end.

Definition at_node (n : Node) (field : string) (message : error) : Diagnostic :=
  MkDiagnostic (n_Line n) (n_Column n) field message.
Definition unplaced (field : string) (message : error) : Diagnostic := MkDiagnostic 0 0 field message.

(** ** The specification *)

Record PullRequest : Type := MkPullRequest { pr_Branches : list string }.
Record Push : Type := MkPush { pu_Branches : list string }.
Record Schedule_ : Type := MkSchedule { sch_Cron : string }.
Record On : Type := MkOn {
  on_PullRequest : option PullRequest;
  on_Push : option Push;
  on_Schedule : option Schedule_;
}.
Record Defaults : Type := MkDefaults { df_Module : string; df_Engine : string }.

Record CheckRetry : Type := MkCheckRetry {
  cr_MaxAttempts : Z;
  cr_Strategy : string;
  cr_InitialDelay : string;
  cr_MaxDelay : string;
  cr_Multiplier : f64;
}.

Record Check_ : Type := MkCheck {
  ck_Call : string;
  ck_Task : string;
  ck_Needs : list string;
  ck_Timeout : string;
  ck_Retries : Z;
  ck_Retry : option CheckRetry;
  ck_WorkerGroup : string;
}.

Record DeployStep : Type := MkDeployStep {
  de_Call : string;
  de_Task : string;
  de_Needs : list string;
  de_Approval : string;
  de_Branches : list string;
  de_Timeout : string;
  de_WorkerGroup : string;
}.

Record Spec_ : Type := MkSpec {
  sp_On : On;
  sp_Defaults : Defaults;
  sp_Checks : gmap string Check_;
  sp_Deploy : option DeployStep;
}.

Definition zero_Check : Check_ := MkCheck "" "" [] "" 0 None "".
Definition zero_Spec : Spec_ := MkSpec (MkOn None None None) (MkDefaults "" "") ∅ None.

(** The YAML library: the tree of a text, or no node for an empty one; the
    decoding of nodes, which may leave a value and an error; integers; the events
    of a mapping with their filters, values of some type, absent when null. *)
Record yaml : Type := MkYaml {
  y_value : Type;
  y_Unmarshal : string → error + option Node;
  y_On : Node → On * option error;
  y_Defaults : Node → Defaults * option error;
  y_Deploy : Node → DeployStep * option error;
  y_Check : Node → error + Check_;
  y_int : Node → option Z;
  y_events : Node → error + gmap string (option y_value);
}.

(** ** Parsing *)

Definition specKnownFields : list string := ["on"; "defaults"; "checks"; "deploy"].
Definition checkKnownFields : list string :=
  ["call"; "task"; "needs"; "timeout"; "retries"; "retry"; "worker_group"].
Definition checkRetryKnownFields : list string :=
  ["max_attempts"; "strategy"; "initial_delay"; "max_delay"; "multiplier"].
Definition deployKnownFields : list string :=
  ["call"; "task"; "needs"; "approval"; "branches"; "timeout"; "worker_group"].
Definition defaultsKnownFields : list string := ["module"; "engine"].
Definition extensionKeyPrefix : string := "x-".

Definition is_merge (key : Node) : bool := bool_decide (n_Tag key = "!!merge").
Definition knows (known : list string) (key : Node) : bool := bool_decide (n_Value key ∈ known).

Definition unknownFieldDiagnostics (node : Node) (known : list string) (field : string) : dm unit :=
  dm_of (panic_if (negb (is_kind MappingNode node))
    "unknownFieldDiagnostics: node must be a mapping node") ≫= λ _,
  d_each (λ '(key, _),
    report_if (negb (is_merge key || knows known key))
      (at_node key field (Errorf "%s: unknown field %q" [AStr field; AStr (n_Value key)])))
    (pairs (n_Content node)).

Definition specTopLevelDiagnostics (doc : Node) : dm unit :=
  dm_of (panic_if (negb (is_kind MappingNode doc))
    "specTopLevelDiagnostics: doc must be a mapping node") ≫= λ _,
  d_each (λ '(key, _),
    report_if (negb (is_merge key || knows specKnownFields key || HasPrefix (n_Value key) extensionKeyPrefix))
      (at_node key "" (Errorf "unknown field %q" [AStr (n_Value key)])))
    (pairs (n_Content doc)).

Definition mappingValue (node : Node) (key : string) : outcome (option Node) :=
  panic_if (negb (is_kind MappingNode node)) "mappingValue: node must be a mapping node";;
  Ret (snd <$> find_first (λ kv, bool_decide (n_Value kv.1 = key)) (pairs (n_Content node))).

Section Parse.
Context (y : yaml).

Definition decode_check_entry (checks : gmap string Check_) (nameNode entryNode : Node)
    : dm (gmap string Check_) :=
  let field := "checks." +:+ n_Value nameNode in
  (if is_kind MappingNode entryNode then
     unknownFieldDiagnostics entryNode checkKnownFields field ≫= λ _,
     retryNode ← dm_of (mappingValue entryNode "retry");
     match retryNode with
     | Some n => if is_kind MappingNode n
                 then unknownFieldDiagnostics n checkRetryKnownFields (field +:+ ".retry") else mret tt
     | None => mret tt
     end
   else mret tt) ≫= λ _ : unit,
  match y_Check y entryNode with
  | inl e => report (at_node entryNode field e) ≫= λ _, mret checks
  | inr c => mret (<[n_Value nameNode := c]> checks)
  end.

Fixpoint decode_check_entries (checks : gmap string Check_) (entries : list (Node * Node))
    : dm (gmap string Check_) :=
  match entries with
  | [] => mret checks
  | (nameNode, entryNode) :: entries' =>
      checks ← decode_check_entry checks nameNode entryNode;
      decode_check_entries checks entries'
  end.

Definition decodeChecksField (val : Node) : dm (gmap string Check_) :=
  if negb (is_kind MappingNode val) then
    report (at_node val "checks" (Errorf "checks must be a YAML mapping" [])) ≫= λ _, mret ∅
  else
    checks ← decode_check_entries ∅ (pairs (n_Content val));
    dm_of (panic_if (bool_decide (length (n_Content val) / 2 < size checks)%nat)
      "decodeChecksField: internal invariant: checks count exceeds entry count") ≫= λ _,
    mret checks.

Definition report_error (val : Node) (field : string) (e : option error) : dm unit :=
  match e with
  | Some e => report (at_node val field e)
  | None => mret tt
  end.

Definition decodeOneField (s : Spec_) (key val : Node) : dm Spec_ :=
  if bool_decide (n_Value key = "checks") then
    checks ← decodeChecksField val;
    mret (MkSpec (sp_On s) (sp_Defaults s) checks (sp_Deploy s))
  else
    (if bool_decide (n_Value key = "deploy") && is_kind MappingNode val
     then unknownFieldDiagnostics val deployKnownFields "deploy" else mret tt) ≫= λ _ : unit,
    (if bool_decide (n_Value key = "defaults") && is_kind MappingNode val
     then unknownFieldDiagnostics val defaultsKnownFields "defaults" else mret tt) ≫= λ _ : unit,
    if bool_decide (n_Value key = "on") then
      let '(on, e) := y_On y val in
      report_error val "on" e ≫= λ _, mret (MkSpec on (sp_Defaults s) (sp_Checks s) (sp_Deploy s))
    else if bool_decide (n_Value key = "defaults") then
      let '(defaults, e) := y_Defaults y val in
      report_error val "defaults" e ≫= λ _, mret (MkSpec (sp_On s) defaults (sp_Checks s) (sp_Deploy s))
    else if bool_decide (n_Value key = "deploy") then
      let '(deploy, e) := y_Deploy y val in
      report_error val "deploy" e ≫= λ _, mret (MkSpec (sp_On s) (sp_Defaults s) (sp_Checks s) (Some deploy))
    else mret s.

Fixpoint decode_fields (s : Spec_) (fields : list (Node * Node)) : dm Spec_ :=
  match fields with
  | [] => mret s
  | (key, val) :: fields' => s ← decodeOneField s key val; decode_fields s fields'
  end.

Definition decodeSpecFields (doc : Node) : dm Spec_ :=
  dm_of (panic_if (negb (is_kind MappingNode doc)) "decodeSpecFields: doc must be a mapping node") ≫= λ _,
  specTopLevelDiagnostics doc ≫= λ _,
  decode_fields zero_Spec (pairs (n_Content doc)).

Definition Parse (spec : string) : outcome (Spec_ * list Diagnostic) :=
  match y_Unmarshal y spec with
  | inl e => Ret (zero_Spec, [unplaced "" (Errorf "parse ci.yml: %s" [AErr e])])
  | inr None => Ret (zero_Spec, [])
  | inr (Some doc) =>
      if negb (is_kind MappingNode doc)
      then Ret (zero_Spec, [at_node doc "" (Errorf "spec must be a YAML mapping" [])])
      else
        r ← decodeSpecFields doc [];
        panic_if (bool_decide (DiagnosticsMax + 1 < length r.2)%nat)
          "Parse: internal invariant: diagnostics exceeded the capped length";;
        Ret r
  end.
End Parse.

(** ** Compiling checks and the deploy block *)

Definition defaultCheckTimeout : Z := 15 * Minute.
Definition defaultApprovalTimeout : Z := 24 * Hour.
Definition defaultDeployTimeout : Z := 15 * Minute.
Definition workflowTimeout : Z := 45 * Minute.
Definition workflowVersion : string := "1.0.0".
Definition defaultModule : string := ".".

Definition compileTimeout (s : string) (defaultTimeout : Z) : outcome Z :=
  panic_if (defaultTimeout <=? 0) "compileTimeout: defaultTimeout must be positive";;
  if empty_str s then Ret defaultTimeout
  else
    match ParseDuration s with
    | None => Err (Errorf "invalid timeout %q: %w" [AStr s])
    | Some d => if d <=? 0 then Err (Errorf "timeout %q must be positive" [AStr s]) else Ret d
    end.

Definition compileRetryDuration (s : string) : outcome Z :=
  if empty_str s then Ret 0
  else
    match ParseDuration s with
    | None => Err (Errorf "invalid duration %q: %w" [AStr s])
    | Some d => if d <? 0 then Err (Errorf "duration %q must not be negative" [AStr s]) else Ret d
    end.

Definition parseRetryStrategy (s : string) : outcome RetryStrategy :=
  if bool_decide (s = "" ∨ s = "fixed") then Ret RetryFixed
  else if bool_decide (s = "linear") then Ret RetryLinear
  else if bool_decide (s = "exponential") then Ret RetryExponential
  else Err (Errorf "unknown retry strategy %q" [AStr s]).

Definition f64_zero : f64 := f64_of_Z 0.

Definition fixedRetryPolicy (attempts : Z) : outcome (option RetryPolicy) :=
  panic_if (attempts <? 0) "fixedRetryPolicy: attempts must not be negative";;
  Ret (if attempts =? 0 then None
       else Some (MkRetryPolicy attempts RetryFixed (5 * Second) (5 * Second) f64_zero)).

(** The value of a fallible computation, or its zero value and a report. *)
Definition or_report {A} (o : outcome A) (zero : A) (d : error → Diagnostic) : dm A :=
  match o with
  | Ret a => mret a
  | Err e => report (d e) ≫= λ _, mret zero
  | Panic msg => dm_of (Panic msg)
  end.

Definition checkTaskCallExclusivity (field call task : string) : dm unit :=
  dm_of (panic_if (empty_str field) "checkTaskCallExclusivity: field must not be empty") ≫= λ _,
  if bool_decide (empty_str call = empty_str task)
  then report (unplaced field (Errorf "%s: exactly one of call or task must be set" [AStr field]))
  else if negb (empty_str task)
  then or_report (ValidTaskType task) tt (λ e, unplaced field
         (Errorf "%s: task %q is not a valid task type: %v" [AStr field; AStr task; AErr e]))
  else mret tt.

Definition compileWorkerGroupDiagnostics (field workerGroup : string) : dm unit :=
  dm_of (panic_if (empty_str field) "compileWorkerGroupDiagnostics: field must not be empty") ≫= λ _,
  if empty_str workerGroup then mret tt
  else or_report (ValidWorkerGroup workerGroup) tt (λ e, unplaced field
         (Errorf "%s: worker_group %q is not valid: %v" [AStr field; AStr workerGroup; AErr e])).

Definition compileCheckRetry (field : string) (c : Check_) : dm (option RetryPolicy) :=
  dm_of (panic_if (empty_str field) "compileCheckRetry: field must not be empty") ≫= λ _,
  before ← count;
  if ck_Retries c <? 0 then
    report (unplaced field (Errorf "%s: retries must not be negative (%d)" [AStr field; AInt (ck_Retries c)]))
      ≫= λ _, mret None
  else if (0 <? ck_Retries c) && bool_decide (is_Some (ck_Retry c)) then
    report (unplaced field (Errorf "%s: exactly one of retries or retry must be set" [AStr field]))
      ≫= λ _, mret None
  else if 0 <? ck_Retries c then dm_of (fixedRetryPolicy (ck_Retries c))
  else
    match ck_Retry c with
    | None => mret None
    | Some r =>
        report_if (cr_MaxAttempts r <? 0) (unplaced field
          (Errorf "%s: retry.max_attempts must not be negative (%d)" [AStr field; AInt (cr_MaxAttempts r)]))
          ≫= λ _,
        report_if (f64_ltb (cr_Multiplier r) f64_zero) (unplaced field
          (Errorf "%s: retry.multiplier must not be negative (%g)" [AStr field])) ≫= λ _,
        strategy ← or_report (parseRetryStrategy (cr_Strategy r)) RetryFixed (λ e, unplaced field
          (Errorf "%s: %v" [AStr field; AErr e]));
        initialDelay ← or_report (compileRetryDuration (cr_InitialDelay r)) 0 (λ e, unplaced field
          (Errorf "%s: invalid retry.initial_delay: %v" [AStr field; AErr e]));
        maxDelay ← or_report (compileRetryDuration (cr_MaxDelay r)) 0 (λ e, unplaced field
          (Errorf "%s: invalid retry.max_delay: %v" [AStr field; AErr e]));
        after ← count;
        mret (if bool_decide (before < after)%nat then None
              else Some (MkRetryPolicy (cr_MaxAttempts r) strategy initialDelay maxDelay (cr_Multiplier r)))
    end.

Definition needs_known (known : list string) (message : string → error) (field : string)
    (needs : list string) : dm unit :=
  d_each (λ need, report_if (negb (bool_decide (need ∈ known))) (unplaced field (message need))) needs.

(** What runs the step: a task type of its own, or a Dagger call. *)
Definition set_runner (module call task : string) (s : StepDef) : StepDef :=
  let 'MkStepDef x0 _ x2 x3 x4 x5 x6 x7 meta x9 x10 x11 x12 x13 x14 x15 x16 x17 := s in
  if negb (empty_str task)
  then MkStepDef x0 task x2 x3 x4 x5 x6 x7 meta x9 x10 x11 x12 x13 x14 x15 x16 x17
  else MkStepDef x0 "dagger.call" x2 x3 x4 x5 x6 x7 {["module" := module; "call" := call]}
         x9 x10 x11 x12 x13 x14 x15 x16 x17.

Definition set_dispatch (timeout : Z) (deps : list string) (retry : option RetryPolicy)
    (workerGroup : string) (s : StepDef) : StepDef :=
  let 'MkStepDef x0 x1 _ x3 _ x5 x6 x7 x8 _ _ x11 x12 x13 x14 x15 x16 x17 := s in
  MkStepDef x0 x1 deps x3 timeout x5 x6 x7 x8 retry workerGroup x11 x12 x13 x14 x15 x16 x17.

(** No step when the check has a problem. *)
Definition compileCheck (name : string) (c : Check_) (module : string) (known : list string)
    : dm (option StepDef) :=
  before ← count;
  checkTaskCallExclusivity name (ck_Call c) (ck_Task c) ≫= λ _,
  needs_known known (λ need, Errorf "check %q: unknown needs target %q" [AStr name; AStr need]) name
    (ck_Needs c) ≫= λ _,
  timeout ← or_report (compileTimeout (ck_Timeout c) defaultCheckTimeout) 0 (λ e, unplaced name
    (Errorf "check %q: %v" [AStr name; AErr e]));
  retry ← compileCheckRetry name c;
  compileWorkerGroupDiagnostics name (ck_WorkerGroup c) ≫= λ _,
  after ← count;
  mret (if bool_decide (before < after)%nat then None
        else Some (set_runner module (ck_Call c) (ck_Task c)
               (set_dispatch timeout (ck_Needs c) retry (ck_WorkerGroup c)
                  (step_def name "" StepTypeNormal)))).

Definition buildDeploySteps (d : DeployStep) (module : string) (deployTimeout : Z) : outcome (list StepDef) :=
  panic_if (deployTimeout <=? 0) "buildDeploySteps: deployTimeout must be positive";;
  let gated := bool_decide (de_Approval d = "required") in
  let approve := set_dispatch defaultApprovalTimeout (de_Needs d) None ""
                   (step_def "approve-deploy" "ci.approval" StepTypeNormal) in
  let deploy := set_runner module (de_Call d) (de_Task d)
                  (set_dispatch deployTimeout (if gated then ["approve-deploy"] else de_Needs d) None
                     (de_WorkerGroup d) (step_def "deploy" "" StepTypeNormal)) in
  Ret (if gated then [approve; deploy] else [deploy]).

Definition compileDeploy (d : DeployStep) (module : string) (known : list string) : dm (list StepDef) :=
  before ← count;
  checkTaskCallExclusivity "deploy" (de_Call d) (de_Task d) ≫= λ _,
  report_if (bool_decide (de_Branches d ≠ [])) (unplaced "deploy"
    (Errorf "deploy: branch gating (branches: %v) is not yet supported — requires the Phase 4 runner that emits a branch step output; remove `branches:` from deploy until then"
       (AStr <$> de_Branches d))) ≫= λ _,
  needs_known known (λ need, Errorf "deploy: unknown needs target %q" [AStr need]) "deploy"
    (de_Needs d) ≫= λ _,
  deployTimeout ← or_report (compileTimeout (de_Timeout d) defaultDeployTimeout) 0 (λ e, unplaced "deploy"
    (Errorf "deploy: %v" [AErr e]));
  compileWorkerGroupDiagnostics "deploy" (de_WorkerGroup d) ≫= λ _,
  after ← count;
  if bool_decide (before < after)%nat then mret []
  else dm_of (buildDeploySteps d module deployTimeout).

Definition knownCheckIDs (s : Spec_) : list string := (map_to_list (sp_Checks s)).*1.

Definition sortedCheckNames (s : Spec_) : list string := merge_sort str_le (map_to_list (sp_Checks s)).*1.

Fixpoint compile_checks (s : Spec_) (module : string) (known names : list string) : dm (list StepDef) :=
  match names with
  | [] => mret []
  | n :: names' =>
      step ← compileCheck n (default zero_Check (sp_Checks s !! n)) module known;
      steps ← compile_checks s module known names';
      mret (match step with Some step => step :: steps | None => steps end)
  end.

Definition buildSteps (s : Spec_) (module : string) (known : list string) : dm (list StepDef) :=
  before ← count;
  steps ← compile_checks s module known (sortedCheckNames s);
  deploySteps ← match sp_Deploy s with
                | Some d => compileDeploy d module known
                | None => mret []
                end;
  after ← count;
  dm_of (panic_if (bool_decide (after < before)%nat)
    "buildSteps: internal invariant: diagnostics count decreased") ≫= λ _,
  mret (steps ++ deploySteps).

(** *** The step a validation error names *)

Definition quote : ascii := "034"%char.

Fixpoint until_quote (s : string) : option string :=
  match s with
  | "" => None
  | String c s' => if bool_decide (c = quote) then Some "" else String c <$> until_quote s'
  end.

Fixpoint drop_str (n : nat) (s : string) : string :=
  match n, s with
  | S n', String _ s' => drop_str n' s'
  | _, _ => s
  end.

Definition step_open : string := "step " +:+ String quote "".

(** The leftmost match of the pattern: [step], a space and a quoted text that is
    not empty. *)
Fixpoint find_step (s : string) : string :=
  let rest := match s with "" => "" | String _ s' => find_step s' end in
  if HasPrefix s step_open then
    match until_quote (drop_str (String.length step_open) s) with
    | Some id => if empty_str id then rest else id
    | None => rest
    end
  else rest.

Section Compile.
Context (LoadLocation : string → outcome Location) (perm : list string → list string)
  (rule_order : list Z → list Z).
(** The text of an error. *)
Context (text : error → string).

Definition stepFieldFromError (e : error) : string := find_step (text e).

Definition zero_def : WorkflowDef :=
  MkWorkflowDef "" "" [] None None 0 None None ∅ "" StickyNone None [] None.

Definition ci_workflow (name : string) (timeout : Z) (steps : list StepDef) : WorkflowDef :=
  MkWorkflowDef name workflowVersion steps None None timeout None None ∅ "" StickyNone None [] None.

(** The workflow when there is nothing to report. *)
Definition Compile (name : string) (s : Spec_) : outcome (WorkflowDef * list Diagnostic) :=
  panic_if (empty_str name) "Compile: name must not be empty";;
  r ← (report_if (bool_decide (sp_Checks s = ∅) && bool_decide (sp_Deploy s = None))
         (unplaced "" (Errorf "spec has no checks and no deploy step" [])) ≫= λ _,
       buildSteps s (if empty_str (df_Module (sp_Defaults s)) then defaultModule else df_Module (sp_Defaults s))
         (knownCheckIDs s)) [];
  if bool_decide (r.2 ≠ []) then Ret (zero_def, r.2)
  else
    let def := ci_workflow name workflowTimeout r.1 in
    match Validate LoadLocation perm rule_order def with
    | Ret _ => Ret (def, [])
    | Err e => r' ← report (unplaced (stepFieldFromError e) e) []; Ret (zero_def, r'.2)
    | Panic msg => Panic msg
    end.
End Compile.
