(* ===== verification/CiJobs.v ===== *)
(** * CI specifications with jobs (ci/jobs.go, jobs_guard.go, jobs_compile.go,
      options.go)

    The Actions-shaped specification: jobs with shell steps, environments and
    secrets.  The tree of YAML nodes is screened for aliases and duplicate keys,
    parsed into jobs, checked across jobs and compiled into one step per job,
    which carries the job as JSON.  Go's nil pointers are [None]. *)

From S2P Require Import Prelude Float64 Json Types Keys GoTime Validate Ci.
From stdpp Require Import sorting pretty.
From Stdlib Require Import Ascii.

#[local] Open Scope Z_scope.

Definition jobTimeoutMinutesMax : Z := 360.
Definition jobsNodeMax : Z := 2 ^ 20.
Definition jobMetadataKey : string := "ci.job".
Definition jobTaskSuffix : string := "job".
Definition jobPayloadMaxBytes : Z := 64 * 1024.
Definition jobsDefMaxBytes : Z := 768 * 1024.
Definition jobsWorkflowTimeoutMax : Z := 365 * 24 * Hour.

Definition expressionsUnsupported : string :=
  "expressions are not supported; only ${{ secrets.NAME }} as an env value".

(** ** Patterns *)

Definition letter (c : ascii) : bool :=
  in_range "a" "z" c || in_range "A" "Z" c || bool_decide (c = "_"%char).
Definition name_char (c : ascii) : bool := letter c || in_range "0" "9" c.

(** A letter or underscore, then characters of the class. *)
Definition matches_name (class : ascii → bool) (s : string) : bool :=
  match s with
  | "" => false
  | String c s' => letter c && str_forallb class s'
  end.

Definition envKeyPattern (s : string) : bool := matches_name name_char s.
Definition jobIDPattern (s : string) : bool :=
  matches_name (λ c, name_char c || bool_decide (c = "-"%char)) s.

Definition is_space (c : ascii) : bool :=
  bool_decide (c ∈ ["009"; "010"; "012"; "013"; "032"]%char).

Fixpoint span_str (p : ascii → bool) (s : string) : string * string :=
  match s with
  | "" => ("", "")
  | String c s' => if p c then let '(a, b) := span_str p s' in (String c a, b) else ("", s)
  end.

Definition strip_prefix (p s : string) : option string :=
  if HasPrefix s p then Some (drop_str (String.length p) s) else None.

(** [${{ secrets.NAME }}] as the whole text: its name. *)
Definition secretExpression (s : string) : option string :=
  s ← strip_prefix "${{" s;
  s ← strip_prefix "secrets." (span_str is_space s).2;
  let '(name, s) := span_str name_char s in
  if envKeyPattern name && bool_decide ((span_str is_space s).2 = "}}") then Some name else None.

Fixpoint str_contains (s p : string) : bool :=
  HasPrefix s p || match s with "" => false | String _ s' => str_contains s' p end.

Definition is_expression (s : string) : bool := str_contains s "${{".

(** ** Keys *)

Definition unsupportedJobsKeys : list (string * string) :=
  [("uses", "this spec only runs shell commands");
   ("if", "this spec has no conditional execution");
   ("strategy", "this spec has no matrix expansion");
   ("matrix", "this spec has no matrix expansion");
   ("container", "this spec runs commands directly on the worker");
   ("services", "this spec runs commands directly on the worker");
   ("runs-on", "this spec runs every job on the repository's worker group");
   ("outputs", "this spec passes no outputs between jobs");
   ("permissions", "this spec has no token permissions");
   ("concurrency", "this spec has no concurrency groups");
   ("defaults", "set env or working-directory on the job instead");
   ("shell", "this spec runs every step with the worker's shell");
   ("continue-on-error", "a failed step fails its job")].

Definition jobsTopAllowed : list string := ["on"; "env"; "jobs"; "name"].
Definition jobsJobAllowed : list string :=
  ["name"; "needs"; "timeout-minutes"; "retries"; "env"; "environment"; "working-directory"; "steps"].
Definition jobsStepAllowed : list string := ["name"; "run"; "env"; "working-directory"].

Definition jobsKnown (allowed : list string) : outcome (list string) :=
  panic_if (bool_decide (allowed = [])) "jobsKnown: allowed must not be empty";;
  Ret (allowed ++ unsupportedJobsKeys.*1).

(** ** Parsed jobs *)

Record envValues : Type := MkEnvValues {
  ev_field : string;
  ev_plain : gmap string string;
  ev_secretNames : gset string;
  ev_keyNodes : gmap string Node;
}.
Definition newEnvValues : envValues := MkEnvValues "" ∅ ∅ ∅.

Record parsedStep : Type := MkParsedStep {
  ps_name : string;
  ps_run : string;
  ps_workingDir : string;
  ps_env : envValues;
}.

Record parsedJob : Type := MkParsedJob {
  pj_idNode : Node;
  pj_needsKey : option Node;
  pj_needs : list string;
  pj_name : string;
  pj_timeout : Z;
  pj_retries : Z;
  pj_env : envValues;
  pj_environ : string;
  pj_workingDir : string;
  pj_steps : list parsedStep;
  pj_ok : bool;
}.

Definition pj_set_name v (j : parsedJob) := let 'MkParsedJob a b c _ e f g h i k l := j in MkParsedJob a b c v e f g h i k l.
Definition pj_set_needs n v (j : parsedJob) := let 'MkParsedJob a _ _ d e f g h i k l := j in MkParsedJob a n v d e f g h i k l.
Definition pj_set_timeout v (j : parsedJob) := let 'MkParsedJob a b c d _ f g h i k l := j in MkParsedJob a b c d v f g h i k l.
Definition pj_set_retries v (j : parsedJob) := let 'MkParsedJob a b c d e _ g h i k l := j in MkParsedJob a b c d e v g h i k l.
Definition pj_set_env v (j : parsedJob) := let 'MkParsedJob a b c d e f _ h i k l := j in MkParsedJob a b c d e f v h i k l.
Definition pj_set_environ v (j : parsedJob) := let 'MkParsedJob a b c d e f g _ i k l := j in MkParsedJob a b c d e f g v i k l.
Definition pj_set_workingDir v (j : parsedJob) := let 'MkParsedJob a b c d e f g h _ k l := j in MkParsedJob a b c d e f g h v k l.
Definition pj_set_steps v (j : parsedJob) := let 'MkParsedJob a b c d e f g h i _ l := j in MkParsedJob a b c d e f g h i v l.
Definition pj_set_ok v (j : parsedJob) := let 'MkParsedJob a b c d e f g h i k _ := j in MkParsedJob a b c d e f g h i k v.

Record parsedJobs : Type := MkParsedJobs {
  pp_on : option string;
  pp_env : envValues;
  pp_jobs : gmap string parsedJob;
  pp_jobsKey : option Node;
  pp_ids : list string;
}.

(** ** Positions *)

Definition mappingKey (node : Node) (key : string) : outcome (option Node) :=
  panic_if (negb (is_kind MappingNode node)) "mappingKey: node must be a mapping node";;
  Ret (fst <$> find_first (λ kv, bool_decide (n_Value kv.1 = key)) (pairs (n_Content node))).

Definition err_format (e : error) : string := let 'Errorf fmt _ := e in fmt.

Definition diagAt (node : option Node) (field : string) (message : error) : dm unit :=
  match node with
  | None => dm_of (Panic "diagAt: node must not be nil")
  | Some n =>
      dm_of (panic_if (empty_str (err_format message)) "diagAt: message must not be empty") ≫= λ _,
      report (at_node n field message)
  end.

(** ** The screen of a document *)

Fixpoint dup_loop (seen : list string) (keys : list (Node * Node)) : dm unit :=
  match keys with
  | [] => mret tt
  | (key, _) :: keys' =>
      (if is_kind ScalarNode key && bool_decide (n_Value key ∈ seen)
       then diagAt (Some key) (n_Value key)
              (Errorf "key %q is declared twice in the same mapping" [AStr (n_Value key)])
       else mret tt) ≫= λ _ : unit,
      dup_loop (n_Value key :: seen) keys'
  end.

Definition duplicateKeyDiagnostics (node : Node) : dm unit :=
  dm_of (panic_if (negb (is_kind MappingNode node))
    "duplicateKeyDiagnostics: node must be a mapping node") ≫= λ _,
  dm_of (panic_if (Nat.odd (length (n_Content node)))
    "duplicateKeyDiagnostics: a mapping holds key/value pairs") ≫= λ _,
  dup_loop [] (pairs (n_Content node)).

(** The nodes of a tree. *)
Fixpoint node_size (n : Node) : nat :=
  let 'MkNode _ _ _ _ _ content := n in S (sum_list (node_size <$> content)).

(** The walk with a stack, its top first; the fuel is the number of nodes. *)
Fixpoint screen_loop (fuel : nat) (visited : Z) (doc : Node) (stack : list Node) : dm unit :=
  match stack with
  | [] => mret tt
  | node :: below =>
      if jobsNodeMax <=? visited then
        diagAt (Some doc) "spec" (Errorf "spec has more than %d YAML nodes" [AInt jobsNodeMax])
      else
        match fuel with
        | O => dm_of (Panic "jobsDocumentDiagnostics: the walk did not end")
        | S fuel' =>
            if is_kind AliasNode node then
              diagAt (Some node) "spec"
                (Errorf "aliases (*%s) are not supported in a jobs: spec" [AStr (n_Value node)]) ≫= λ _,
              screen_loop fuel' (visited + 1) doc below
            else
              (if is_kind MappingNode node then duplicateKeyDiagnostics node else mret tt) ≫= λ _ : unit,
              screen_loop fuel' (visited + 1) doc (reverse (n_Content node) ++ below)
        end
  end.

Definition jobsDocumentDiagnostics (doc : Node) : dm unit :=
  dm_of (panic_if (negb (is_kind MappingNode doc))
    "jobsDocumentDiagnostics: doc must be a mapping node") ≫= λ _,
  screen_loop (node_size doc) 0 doc [doc].

(** ** Parsing *)

Definition jobsLevelKeys (node : Node) (allowed : list string) (field : string) : dm unit :=
  dm_of (panic_if (negb (is_kind MappingNode node)) "jobsLevelKeys: node must be a mapping node") ≫= λ _,
  d_each (λ '(key, _),
    if is_merge key
    then diagAt (Some key) field (Errorf "%s: merge keys are not supported in a jobs: spec" [AStr field])
    else
      match find_first (λ kr, bool_decide (kr.1 = n_Value key)) unsupportedJobsKeys with
      | Some (_, reason) => diagAt (Some key) field
          (Errorf "%s: `%s` is not supported: %s" [AStr field; AStr (n_Value key); AStr reason])
      | None => mret tt
      end) (pairs (n_Content node)) ≫= λ _,
  known ← dm_of (jobsKnown allowed);
  unknownFieldDiagnostics node known field.

Definition unsupported (field : string) : error :=
  Errorf "%s: %s" [AStr field; AStr expressionsUnsupported].

Definition parseJobsString (node : Node) (field : string) : dm string :=
  dm_of (panic_if (empty_str field) "parseJobsString: field must not be empty") ≫= λ _,
  if negb (is_kind ScalarNode node) then
    diagAt (Some node) field (Errorf "%s must be a string" [AStr field]) ≫= λ _, mret ""
  else if is_expression (n_Value node) then
    diagAt (Some node) field (unsupported field) ≫= λ _, mret ""
  else mret (n_Value node).

Definition ev_add_key (k : string) (n : Node) (e : envValues) : envValues :=
  MkEnvValues (ev_field e) (ev_plain e) (ev_secretNames e) (<[k := n]> (ev_keyNodes e)).
Definition ev_add_plain (k v : string) (e : envValues) : envValues :=
  MkEnvValues (ev_field e) (<[k := v]> (ev_plain e)) (ev_secretNames e) (ev_keyNodes e).
Definition ev_add_secret (k : string) (e : envValues) : envValues :=
  MkEnvValues (ev_field e) (ev_plain e) ({[k]} ∪ ev_secretNames e) (ev_keyNodes e).

Definition parseJobsEnvEntry (env : envValues) (key val : Node) (field : string) : dm envValues :=
  dm_of (panic_if (empty_str field) "parseJobsEnvEntry: field must not be empty") ≫= λ _,
  let name := n_Value key in
  let entry := field +:+ "." +:+ name in
  if is_expression name then diagAt (Some key) field (unsupported field) ≫= λ _, mret env
  else if negb (is_kind ScalarNode key) || negb (envKeyPattern name) then
    diagAt (Some key) field (Errorf "%s: env var name %q must match %s" [AStr field; AStr name]) ≫= λ _, mret env
  else if negb (is_kind ScalarNode val) then
    diagAt (Some val) entry (Errorf "%s must be a string" [AStr entry]) ≫= λ _, mret env
  else
    let env := ev_add_key name key env in
    match secretExpression (n_Value val) with
    | None =>
        if is_expression (n_Value val) then diagAt (Some val) entry (unsupported entry) ≫= λ _, mret env
        else mret (ev_add_plain name (n_Value val) env)
    | Some secret =>
        if negb (bool_decide (secret = name)) then
          diagAt (Some val) entry
            (Errorf "%s: a secret must be bound to an env var of the same name; write %s: ${{ secrets.%s }}"
               [AStr entry; AStr secret; AStr secret]) ≫= λ _, mret env
        else mret (ev_add_secret name env)
    end.

Fixpoint env_loop (env : envValues) (field : string) (entries : list (Node * Node)) : dm envValues :=
  match entries with
  | [] => mret env
  | (key, val) :: entries' => env ← parseJobsEnvEntry env key val field; env_loop env field entries'
  end.

Definition is_null (n : Node) : bool := bool_decide (n_Tag n = "!!null").

Definition parseJobsEnv (node : Node) (field : string) : dm envValues :=
  dm_of (panic_if (empty_str field) "parseJobsEnv: field must not be empty") ≫= λ _,
  let env := MkEnvValues field ∅ ∅ ∅ in
  if is_kind ScalarNode node && is_null node then mret env
  else if negb (is_kind MappingNode node) then
    diagAt (Some node) field (Errorf "%s must be a mapping" [AStr field]) ≫= λ _, mret env
  else env_loop env field (pairs (n_Content node)).

Fixpoint needs_loop (field : string) (listed : list string) (items : list Node) : dm (list string) :=
  match items with
  | [] => mret []
  | item :: items' =>
      if negb (is_kind ScalarNode item) then
        diagAt (Some item) field (Errorf "%s entries must be job ids" [AStr field]) ≫= λ _,
        needs_loop field listed items'
      else if bool_decide (n_Value item ∈ listed) then needs_loop field listed items'
      else needs ← needs_loop field (n_Value item :: listed) items'; mret (n_Value item :: needs)
  end.

Definition parseNeeds (node : Node) (field : string) : dm (list string) :=
  dm_of (panic_if (empty_str field) "parseNeeds: field must not be empty") ≫= λ _,
  if is_kind ScalarNode node && negb (is_null node) then mret [n_Value node]
  else if negb (is_kind SequenceNode node) then
    diagAt (Some node) field (Errorf "%s must be a job id or a list of job ids" [AStr field]) ≫= λ _, mret []
  else needs_loop field [] (n_Content node).

Section Jobs.
Context (y : yaml).

(** The integer of a scalar with an integer tag. *)
Definition int_node (node : Node) : option Z :=
  if is_kind ScalarNode node && bool_decide (n_Tag node = "!!int") then y_int y node else None.

Definition parseTimeoutMinutes (node : Node) (field : string) (fallback : Z) : dm Z :=
  dm_of (panic_if (fallback <=? 0) "parseTimeoutMinutes: fallback must be positive") ≫= λ _,
  match int_node node with
  | None =>
      diagAt (Some node) field (Errorf "%s must be a positive integer number of minutes" [AStr field]) ≫= λ _,
      mret fallback
  | Some minutes =>
      if (minutes <? 1) || (jobTimeoutMinutesMax <? minutes) then
        diagAt (Some node) field (Errorf "%s must be between 1 and %d minutes (got %d)"
          [AStr field; AInt jobTimeoutMinutesMax; AInt minutes]) ≫= λ _, mret fallback
      else mret (minutes * Minute)
  end.

Definition parseRetries (node : Node) (field : string) : dm Z :=
  dm_of (panic_if (empty_str field) "parseRetries: field must not be empty") ≫= λ _,
  match int_node node with
  | None => diagAt (Some node) field (Errorf "%s must be an integer" [AStr field]) ≫= λ _, mret 0
  | Some retries =>
      if retries <? 0 then
        diagAt (Some node) field (Errorf "%s must not be negative (%d)" [AStr field; AInt retries]) ≫= λ _, mret 0
      else if RetryAttemptCountMax <? retries then
        diagAt (Some node) field (Errorf "%s must be at most %d (got %d)"
          [AStr field; AInt RetryAttemptCountMax; AInt retries]) ≫= λ _, mret 0
      else mret retries
  end.

Definition step_field (step : parsedStep) (key val : Node) (field : string) : dm parsedStep :=
  let 'MkParsedStep name run workingDir env := step in
  if bool_decide (n_Value key = "name") then
    name ← parseJobsString val (field +:+ ".name"); mret (MkParsedStep name run workingDir env)
  else if bool_decide (n_Value key = "run") then
    before ← count;
    run ← parseJobsString val (field +:+ ".run");
    after ← count;
    (if bool_decide (after = before) && empty_str run
     then diagAt (Some val) field (Errorf "%s: step has no run" [AStr field]) else mret tt) ≫= λ _ : unit,
    mret (MkParsedStep name run workingDir env)
  else if bool_decide (n_Value key = "working-directory") then
    workingDir ← parseJobsString val (field +:+ ".working-directory"); mret (MkParsedStep name run workingDir env)
  else if bool_decide (n_Value key = "env") then
    env ← parseJobsEnv val (field +:+ ".env"); mret (MkParsedStep name run workingDir env)
  else mret step.

Fixpoint step_fields (step : parsedStep) (field : string) (fields : list (Node * Node)) : dm parsedStep :=
  match fields with
  | [] => mret step
  | (key, val) :: fields' => step ← step_field step key val field; step_fields step field fields'
  end.

Definition parseStep (node : Node) (field : string) : dm parsedStep :=
  let step := MkParsedStep "" "" "" newEnvValues in
  if negb (is_kind MappingNode node) then
    diagAt (Some node) field (Errorf "%s must be a mapping" [AStr field]) ≫= λ _, mret step
  else
    jobsLevelKeys node jobsStepAllowed field ≫= λ _,
    step ← step_fields step field (pairs (n_Content node));
    run ← dm_of (mappingKey node "run");
    (match run with
     | None => diagAt (Some node) field (Errorf "%s: step has no run" [AStr field])
     | Some _ => mret tt
     end) ≫= λ _ : unit,
    mret step.

(** [fmt.Sprintf("%s[%d]", field, i)] *)
Definition indexed (field : string) (i : nat) : string := field +:+ "[" +:+ pretty i +:+ "]".

Fixpoint steps_loop (field : string) (i : nat) (nodes : list Node) : dm (list parsedStep) :=
  match nodes with
  | [] => mret []
  | node :: nodes' =>
      step ← parseStep node (indexed field i);
      steps ← steps_loop field (S i) nodes';
      mret (step :: steps)
  end.

Definition parseSteps (job : parsedJob) (node : Node) (field : string) : dm parsedJob :=
  if negb (is_kind SequenceNode node) then
    diagAt (Some node) field (Errorf "%s must be a list of steps" [AStr field]) ≫= λ _, mret job
  else if bool_decide (n_Content node = []) then
    diagAt (Some node) field (Errorf "%s: job has no steps" [AStr field]) ≫= λ _, mret job
  else
    steps ← steps_loop field 0 (n_Content node);
    mret (pj_set_steps (pj_steps job ++ steps) job).

Definition parseJobField (job : parsedJob) (key val : Node) (field : string) : dm parsedJob :=
  let k := n_Value key in
  if bool_decide (k = "name") then
    v ← parseJobsString val (field +:+ ".name"); mret (pj_set_name v job)
  else if bool_decide (k = "needs") then
    v ← parseNeeds val (field +:+ ".needs"); mret (pj_set_needs (Some key) v job)
  else if bool_decide (k = "timeout-minutes") then
    v ← parseTimeoutMinutes val (field +:+ ".timeout-minutes") (pj_timeout job); mret (pj_set_timeout v job)
  else if bool_decide (k = "retries") then
    v ← parseRetries val (field +:+ ".retries"); mret (pj_set_retries v job)
  else if bool_decide (k = "env") then
    v ← parseJobsEnv val (field +:+ ".env"); mret (pj_set_env v job)
  else if bool_decide (k = "environment") then
    v ← parseJobsString val (field +:+ ".environment"); mret (pj_set_environ v job)
  else if bool_decide (k = "working-directory") then
    v ← parseJobsString val (field +:+ ".working-directory"); mret (pj_set_workingDir v job)
  else if bool_decide (k = "steps") then parseSteps job val (field +:+ ".steps")
  else mret job.

Fixpoint job_fields (job : parsedJob) (field : string) (fields : list (Node * Node)) : dm parsedJob :=
  match fields with
  | [] => mret job
  | (key, val) :: fields' => job ← parseJobField job key val field; job_fields job field fields'
  end.

Definition parseJob (idNode node : Node) : dm parsedJob :=
  dm_of (panic_if (negb (jobIDPattern (n_Value idNode))) "parseJob: the caller validates the job id") ≫= λ _,
  let job := MkParsedJob idNode None [] "" defaultCheckTimeout 0 newEnvValues "" "" [] false in
  let field := "jobs." +:+ n_Value idNode in
  if negb (is_kind MappingNode node) then
    diagAt (Some node) field (Errorf "%s must be a mapping" [AStr field]) ≫= λ _, mret job
  else
    before ← count;
    jobsLevelKeys node jobsJobAllowed field ≫= λ _,
    job ← job_fields job field (pairs (n_Content node));
    steps ← dm_of (mappingKey node "steps");
    (match steps with
     | None => diagAt (Some idNode) field (Errorf "%s: job has no steps" [AStr field])
     | Some _ => mret tt
     end) ≫= λ _ : unit,
    after ← count;
    mret (pj_set_ok (bool_decide (after = before)) job).

Definition pp_add (id : string) (job : parsedJob) (p : parsedJobs) : parsedJobs :=
  MkParsedJobs (pp_on p) (pp_env p) (<[id := job]> (pp_jobs p)) (pp_jobsKey p) (pp_ids p ++ [id]).

Fixpoint jobs_loop (p : parsedJobs) (entries : list (Node * Node)) : dm parsedJobs :=
  match entries with
  | [] => mret p
  | (idNode, node) :: entries' =>
      let id := n_Value idNode in
      dm_of (panic_if (bool_decide (is_Some (pp_jobs p !! id)))
        "parseJobsMap: duplicate job id reached the parser") ≫= λ _,
      if negb (is_kind ScalarNode idNode) || negb (jobIDPattern id) then
        diagAt (Some idNode) "jobs" (Errorf "job id %q must match %s" [AStr id]) ≫= λ _, jobs_loop p entries'
      else
        job ← parseJob idNode node;
        jobs_loop (pp_add id job p) entries'
  end.

Definition parseJobsMap (p : parsedJobs) (node : Node) : dm parsedJobs :=
  if negb (is_kind MappingNode node) then
    diagAt (Some node) "jobs" (Errorf "jobs must be a mapping of job id to job" []) ≫= λ _, mret p
  else if bool_decide (n_Content node = []) then
    diagAt (Some node) "jobs" (Errorf "spec has no jobs" []) ≫= λ _, mret p
  else jobs_loop p (pairs (n_Content node)).

(** The JSON text of the events, or the error of its encoding; [None] is the
    empty filter. *)
Context (encode_events : gmap string (option (y_value y)) → error + string).

Fixpoint on_items (events : gmap string (option (y_value y))) (items : list Node) : Node + gmap string (option (y_value y)) :=
  match items with
  | [] => inr events
  | item :: items' =>
      if negb (is_kind ScalarNode item) || empty_str (n_Value item) then inl item
      else on_items (<[n_Value item := None]> events) items'
  end.

Definition on_failed (node : Node) (message : error) : dm (option string) :=
  diagAt (Some node) "on" message ≫= λ _, mret None.

Definition on_events (node : Node) (events : gmap string (option (y_value y))) : dm (option string) :=
  if bool_decide (events = ∅) then on_failed node (Errorf "on must name at least one event" [])
  else
    match encode_events events with
    | inl e => on_failed node (Errorf "on is not representable as JSON: %s" [AErr e])
    | inr raw => if is_expression raw then on_failed node (unsupported "on") else mret (Some raw)
    end.

Definition parseOn (node : Node) : dm (option string) :=
  dm_of (panic_if (is_kind AliasNode node) "parseOn: aliases are rejected before parsing") ≫= λ _,
  match n_Kind node with
  | ScalarNode =>
      if is_null node || empty_str (n_Value node) then on_failed node (Errorf "on must not be empty" [])
      else on_events node {[n_Value node := None]}
  | SequenceNode =>
      match on_items ∅ (n_Content node) with
      | inl item => on_failed item (Errorf "on list entries must be event names" [])
      | inr events => on_events node events
      end
  | MappingNode =>
      match y_events y node with
      | inl e => on_failed node (Errorf "on: %s" [AErr e])
      | inr events => on_events node events
      end
  | _ => on_failed node (Errorf "on must be an event name, a list of event names, or a mapping" [])
  end.

Definition spec_field (p : parsedJobs) (key val : Node) : dm parsedJobs :=
  let k := n_Value key in
  if bool_decide (k = "on") then
    v ← parseOn val; mret (MkParsedJobs v (pp_env p) (pp_jobs p) (pp_jobsKey p) (pp_ids p))
  else if bool_decide (k = "env") then
    v ← parseJobsEnv val "env"; mret (MkParsedJobs (pp_on p) v (pp_jobs p) (pp_jobsKey p) (pp_ids p))
  else if bool_decide (k = "name") then parseJobsString val "name" ≫= λ _, mret p
  else if bool_decide (k = "jobs") then
    parseJobsMap (MkParsedJobs (pp_on p) (pp_env p) (pp_jobs p) (Some key) (pp_ids p)) val
  else mret p.

Fixpoint spec_fields (p : parsedJobs) (fields : list (Node * Node)) : dm parsedJobs :=
  match fields with
  | [] => mret p
  | (key, val) :: fields' => p ← spec_field p key val; spec_fields p fields'
  end.

Definition sort_ids (p : parsedJobs) : parsedJobs :=
  MkParsedJobs (pp_on p) (pp_env p) (pp_jobs p) (pp_jobsKey p) (merge_sort str_le (pp_ids p)).

Definition parseJobsSpec (doc : Node) : dm parsedJobs :=
  dm_of (panic_if (negb (is_kind MappingNode doc)) "parseJobsSpec: doc must be a mapping node") ≫= λ _,
  jobsLevelKeys doc jobsTopAllowed "spec" ≫= λ _,
  p ← spec_fields (MkParsedJobs None newEnvValues ∅ None []) (pairs (n_Content doc));
  mret (sort_ids p).
End Jobs.

(** ** Checks across jobs *)

Definition needs_of (p : parsedJobs) (id : string) : outcome (list string) :=
  match pp_jobs p !! id with
  | Some job => Ret (pj_needs job)
  | None => Panic "invalid memory address or nil pointer dereference"
  end.

Definition the_job (p : parsedJobs) (id : string) : dm parsedJob :=
  dm_of match pp_jobs p !! id with
        | Some job => Ret job
        | None => Panic "invalid memory address or nil pointer dereference"
        end.

Definition namespaceDiagnostics (namespace : string) : dm unit :=
  n ← count;
  dm_of (panic_if (bool_decide (DiagnosticsMax + 1 < n)%nat)
    "namespaceDiagnostics: diags exceeds the capped length") ≫= λ _,
  if empty_str namespace then
    report (unplaced "task_namespace"
      (Errorf "a jobs: spec needs a task_namespace: the worker group its jobs run on" []))
  else
    let invalid e := report (unplaced "task_namespace" (Errorf "invalid task_namespace: %s" [AErr e])) in
    match ValidWorkerGroup namespace with
    | Err e => invalid e
    | Panic msg => dm_of (Panic msg)
    | Ret _ =>
        match ValidTaskType (namespace +:+ "." +:+ jobTaskSuffix) with
        | Err e => invalid e
        | Panic msg => dm_of (Panic msg)
        | Ret _ => dm_of (panic_if (str_contains_char "." namespace)
            "namespaceDiagnostics: a valid worker group is a single subject token")
        end
    end.

Definition same_jobs (p : parsedJobs) : bool := bool_decide (length (pp_ids p) = size (pp_jobs p)).

Definition needsDiagnostics (p : parsedJobs) : dm unit :=
  dm_of (panic_if (negb (same_jobs p))
    "needsDiagnostics: ids and jobs must describe the same jobs") ≫= λ _,
  d_each (λ id,
    job ← the_job p id;
    d_each (λ need,
      if bool_decide (need ∈ pp_ids p) then mret tt
      else diagAt (pj_needsKey job) ("jobs." +:+ id +:+ ".needs")
             (Errorf "job %q needs %q, which is not a job" [AStr id; AStr need]))
      (pj_needs job)) (pp_ids p).

(** *** Cycles *)

Inductive color : Type := White | Gray | Black.

(** A job and the index of its next need; the top of the stack is first. *)
Record dfsFrame : Type := MkFrame { fr_id : string; fr_next : nat }.

Definition color_of (colors : gmap string color) (id : string) : color := default White (colors !! id).

(** The jobs from the closing one up to the top of the stack, and the closing
    one again. *)
Fixpoint from_closing (closing : string) (bottom_first : list string) : list string :=
  match bottom_first with
  | [] => []
  | id :: rest => if bool_decide (id = closing) then bottom_first else from_closing closing rest
  end.

Definition cycle_path (stack : list dfsFrame) (closing : string) : list string :=
  let ids := reverse (fr_id <$> stack) in
  match from_closing closing ids with
  | [] => ids
  | path => path
  end ++ [closing].

Definition cycleDiagnostic (p : parsedJobs) (stack : list dfsFrame) (closing : string) : dm unit :=
  match stack with
  | [] => dm_of (Panic "cycleDiagnostic: a back edge needs a non-empty stack")
  | top :: _ =>
      dm_of (panic_if (empty_str closing) "cycleDiagnostic: closing must name a job") ≫= λ _,
      job ← the_job p (fr_id top);
      diagAt (pj_needsKey job) ("jobs." +:+ fr_id top +:+ ".needs")
        (Errorf "needs cycle: %s" (AStr <$> cycle_path stack closing))
  end.

(** The traversal from one root; [left] is how many steps remain of the bound,
    which is shared by all roots. *)
Fixpoint dfs (p : parsedJobs) (left : nat) (colors : gmap string color) (stack : list dfsFrame)
    : dm (nat * gmap string color) :=
  match stack with
  | [] => mret (left, colors)
  | top :: below =>
      match left with
      | O => dm_of (Panic "cycleDiagnostics: internal invariant: traversal exceeded its bound")
      | S left' =>
          needs ← dm_of (needs_of p (fr_id top));
          match needs !! fr_next top with
          | None => dfs p left' (<[fr_id top := Black]> colors) below
          | Some need =>
              let stack := MkFrame (fr_id top) (S (fr_next top)) :: below in
              match pp_jobs p !! need with
              | None => dfs p left' colors stack
              | Some _ =>
                  match color_of colors need with
                  | White => dfs p left' (<[need := Gray]> colors) (MkFrame need 0 :: stack)
                  | Gray => cycleDiagnostic p stack need ≫= λ _, dfs p left' colors stack
                  | Black => dfs p left' colors stack
                  end
              end
          end
      end
  end.

Fixpoint dfs_roots (p : parsedJobs) (left : nat) (colors : gmap string color) (roots : list string) : dm unit :=
  match roots with
  | [] => mret tt
  | root :: roots' =>
      match color_of colors root with
      | White =>
          '(left, colors) ← dfs p left (<[root := Gray]> colors) [MkFrame root 0];
          dfs_roots p left colors roots'
      | _ => dfs_roots p left colors roots'
      end
  end.

Fixpoint count_edges (p : parsedJobs) (ids : list string) : outcome nat :=
  match ids with
  | [] => Ret 0%nat
  | id :: ids' => needs ← needs_of p id; n ← count_edges p ids'; Ret (length needs + n)%nat
  end.

Definition cycleDiagnostics (p : parsedJobs) : dm unit :=
  edgeCount ← dm_of (count_edges p (pp_ids p));
  dfs_roots p (2 * (length (pp_ids p) + edgeCount) + 1) ∅ (pp_ids p).

(** *** Secrets *)

Definition job_levels (p : parsedJobs) (job : parsedJob) : list envValues :=
  pp_env p :: pj_env job :: (ps_env <$> pj_steps job).

Definition sortedKeys (values : gmap string string) : list string :=
  merge_sort str_le (map_to_list values).*1.

Definition job_secrets (p : parsedJobs) (job : parsedJob) : gset string :=
  ⋃ (ev_secretNames <$> job_levels p job).

(** Whether the job has a variable that is a secret at one level and plain at
    another, each reported. *)
Definition job_conflicts (p : parsedJobs) (id : string) (job : parsedJob) : dm bool :=
  let secret := job_secrets p job in
  d_each (λ level,
    d_each (λ key,
      if bool_decide (key ∈ secret) then
        let entry := ev_field level +:+ "." +:+ key in
        diagAt (ev_keyNodes level !! key) entry
          (Errorf "%s: %s is bound to a secret elsewhere in job %q; a variable is either a secret or a plain value throughout a job"
             [AStr entry; AStr key; AStr id])
      else mret tt) (sortedKeys (ev_plain level))) (job_levels p job) ≫= λ _,
  mret (existsb (λ level, existsb (λ key, bool_decide (key ∈ secret)) (sortedKeys (ev_plain level)))
          (job_levels p job)).

Definition pp_update (id : string) (job : parsedJob) (p : parsedJobs) : parsedJobs :=
  MkParsedJobs (pp_on p) (pp_env p) (<[id := job]> (pp_jobs p)) (pp_jobsKey p) (pp_ids p).

(** A job with a conflict is no longer ok: it must not be encoded. *)
Fixpoint conflicts_loop (p : parsedJobs) (ids : list string) : dm parsedJobs :=
  match ids with
  | [] => mret p
  | id :: ids' =>
      job ← the_job p id;
      conflict ← job_conflicts p id job;
      conflicts_loop (if (conflict : bool) then pp_update id (pj_set_ok false job) p else p) ids'
  end.

Definition secretConflictDiagnostics (p : parsedJobs) : dm parsedJobs :=
  dm_of (panic_if (negb (same_jobs p))
    "secretConflictDiagnostics: ids and jobs must describe the same jobs") ≫= λ _,
  conflicts_loop p (pp_ids p).

(** ** The compiled workflow *)

Definition env_json (env : gmap string string) : json :=
  JObj ((λ k, (k, JStr (default "" (env !! k)))) <$> sortedKeys env).
Definition names_json (names : list string) : json := JArr (JStr <$> names).
Definition sorted_names (names : gset string) : list string := merge_sort str_le (elements names).

(** The job a worker receives: the environment of the workflow under that of the
    job, and the secrets of both levels; each step lists its own. *)
Record jobStepPayload : Type := MkStepPayload {
  sy_Name : string; sy_Run : string; sy_Env : gmap string string;
  sy_WorkingDirectory : string; sy_Secrets : list string;
}.
Record jobPayload : Type := MkJobPayload {
  jy_Name : string; jy_Env : gmap string string; jy_WorkingDirectory : string;
  jy_Environment : string; jy_Secrets : list string; jy_Steps : list jobStepPayload;
}.

Definition step_payload_json (s : jobStepPayload) : json :=
  JObj [("name", JStr (sy_Name s)); ("run", JStr (sy_Run s)); ("env", env_json (sy_Env s));
        ("working-directory", JStr (sy_WorkingDirectory s)); ("secrets", names_json (sy_Secrets s))].
Definition payload_json (j : jobPayload) : json :=
  JObj [("name", JStr (jy_Name j)); ("env", env_json (jy_Env j));
        ("working-directory", JStr (jy_WorkingDirectory j)); ("environment", JStr (jy_Environment j));
        ("secrets", names_json (jy_Secrets j)); ("steps", JArr (step_payload_json <$> jy_Steps j))].

Definition step_payload (s : parsedStep) : jobStepPayload :=
  MkStepPayload (ps_name s) (ps_run s) (ev_plain (ps_env s)) (ps_workingDir s)
    (sorted_names (ev_secretNames (ps_env s))).

Definition buildJobPayload (p : parsedJobs) (job : parsedJob) : outcome jobPayload :=
  let env := ev_plain (pj_env job) ∪ ev_plain (pp_env p) in
  let names := ev_secretNames (pp_env p) ∪ ev_secretNames (pj_env job) in
  panic_if (existsb (λ name, bool_decide (is_Some (env !! name))) (elements names))
    "buildJobPayload: a secret must never also be a plain env value";;
  Ret (MkJobPayload (pj_name job) env (pj_workingDir job) (pj_environ job) (sorted_names names)
         (step_payload <$> pj_steps job)).

Definition defTooLarge (p : parsedJobs) : dm unit :=
  dm_of (panic_if (bool_decide (pp_jobsKey p = None)) "defTooLarge: a jobs: spec has a jobs key") ≫= λ _,
  diagAt (pp_jobsKey p) "jobs"
    (Errorf "the compiled workflow encodes to more than %d bytes; use fewer or smaller jobs, or a smaller workflow env (it is copied into every job)"
       [AInt jobsDefMaxBytes]).

Section CompileJobs.
(** The JSON text of a value and the length of that of a definition. *)
Context (encode : json → string) (def_bytes : WorkflowDef → Z).

Fixpoint payloads_loop (p : parsedJobs) (total : Z) (payloads : gmap string string) (ids : list string)
    : dm (gmap string string) :=
  match ids with
  | [] => mret payloads
  | id :: ids' =>
      job ← match pp_jobs p !! id with
            | Some job => mret job
            | None => dm_of (Panic "jobPayloads: every id must name a parsed job")
            end;
      n ← count;
      if negb (pj_ok job) || bool_decide (DiagnosticsMax ≤ n)%nat then payloads_loop p total payloads ids'
      else
        payload ← dm_of (buildJobPayload p job);
        let encoded := encode (payload_json payload) in
        let size := Z.of_nat (String.length encoded) in
        if jobPayloadMaxBytes <? size then
          diagAt (Some (pj_idNode job)) ("jobs." +:+ id)
            (Errorf "job %q encodes to %d bytes, over the %d byte limit"
               [AStr id; AInt size; AInt jobPayloadMaxBytes]) ≫= λ _,
          payloads_loop p total payloads ids'
        else if jobsDefMaxBytes <? total + size then
          defTooLarge p ≫= λ _, mret payloads
        else payloads_loop p (total + size) (<[id := encoded]> payloads) ids'
  end.

Definition jobPayloads (p : parsedJobs) : dm (gmap string string) := payloads_loop p 0 ∅ (pp_ids p).

Definition set_metadata (m : gmap string string) (s : StepDef) : StepDef :=
  let 'MkStepDef x0 x1 x2 x3 x4 x5 x6 x7 _ x9 x10 x11 x12 x13 x14 x15 x16 x17 := s in
  MkStepDef x0 x1 x2 x3 x4 x5 x6 x7 m x9 x10 x11 x12 x13 x14 x15 x16 x17.

Definition job_step (p : parsedJobs) (payloads : gmap string string) (namespace id : string)
    : outcome StepDef :=
  match pp_jobs p !! id with
  | None => Panic "invalid memory address or nil pointer dereference"
  | Some job =>
      retry ← fixedRetryPolicy (pj_retries job);
      Ret (set_metadata {[jobMetadataKey := default "" (payloads !! id)]}
             (set_dispatch (pj_timeout job) (pj_needs job) retry namespace
                (step_def id (namespace +:+ "." +:+ jobTaskSuffix) StepTypeNormal)))
  end.

Fixpoint job_steps (p : parsedJobs) (payloads : gmap string string) (namespace : string) (ids : list string)
    : outcome (list StepDef) :=
  match ids with
  | [] => Ret []
  | id :: ids' =>
      step ← job_step p payloads namespace id;
      steps ← job_steps p payloads namespace ids';
      Ret (step :: steps)
  end.

Definition buildJobSteps (p : parsedJobs) (payloads : gmap string string) (namespace : string)
    : outcome (list StepDef) :=
  panic_if (negb (bool_decide (size payloads = length (pp_ids p))))
    "buildJobSteps: every job must have a payload";;
  panic_if (empty_str namespace) "buildJobSteps: namespace must not be empty";;
  job_steps p payloads namespace (pp_ids p).

(** The product and the sum of the source at their width. *)
Fixpoint timeout_loop (p : parsedJobs) (total : Z) (ids : list string) : outcome Z :=
  match ids with
  | [] => Ret (if total <? workflowTimeout then workflowTimeout else total)
  | id :: ids' =>
      match pp_jobs p !! id with
      | None => Panic "invalid memory address or nil pointer dereference"
      | Some job =>
          panic_if ((pj_timeout job <=? 0) || (pj_retries job <? 0))
            "jobsWorkflowTimeout: a clean job has a positive timeout and retries >= 0";;
          let per := wrap64 (pj_timeout job * wrap64 (1 + pj_retries job)) in
          if (jobsWorkflowTimeoutMax <=? per) || (wrap64 (jobsWorkflowTimeoutMax - per) <=? total)
          then Ret jobsWorkflowTimeoutMax
          else timeout_loop p (wrap64 (total + per)) ids'
      end
  end.

Definition jobsWorkflowTimeout (p : parsedJobs) : outcome Z :=
  panic_if (bool_decide (pp_ids p = [])) "jobsWorkflowTimeout: a compiled spec has at least one job";;
  timeout_loop p 0 (pp_ids p).

Record CompileResult : Type := MkCompileResult {
  res_Workflow : WorkflowDef;
  res_On : option string;
}.
Definition no_result : CompileResult := MkCompileResult zero_def None.

Context (y : yaml) (encode_events : gmap string (option (y_value y)) → error + string).
Context (LoadLocation : string → outcome Location) (perm : list string → list string)
  (rule_order : list Z → list Z) (text : error → string).

(** What runs on a screened document before anything is built. *)
Definition check_jobs (doc : Node) (namespace : string) : dm (parsedJobs * gmap string string) :=
  parsed ← parseJobsSpec y encode_events doc;
  namespaceDiagnostics namespace ≫= λ _,
  needsDiagnostics parsed ≫= λ _,
  cycleDiagnostics parsed ≫= λ _,
  parsed ← secretConflictDiagnostics parsed;
  payloads ← jobPayloads parsed;
  mret (parsed, payloads).

Definition build_jobs (name namespace : string) (p : parsedJobs) (payloads : gmap string string)
    : outcome (CompileResult * list Diagnostic) :=
  steps ← buildJobSteps p payloads namespace;
  timeout ← jobsWorkflowTimeout p;
  let def := ci_workflow name timeout steps in
  match Validate LoadLocation perm rule_order def with
  | Panic msg => Panic msg
  | Err e => r ← report (unplaced (stepFieldFromError text e) e) []; Ret (no_result, r.2)
  | Ret _ =>
      if jobsDefMaxBytes <? def_bytes def
      then r ← defTooLarge p []; Ret (no_result, r.2)
      else Ret (MkCompileResult def (pp_on p), [])
  end.

Definition compileJobsDoc (name : string) (doc : Node) (namespace : string)
    : outcome (CompileResult * list Diagnostic) :=
  panic_if (empty_str name) "compileJobsDoc: name must not be empty";;
  panic_if (negb (is_kind MappingNode doc)) "compileJobsDoc: doc must be a mapping node";;
  checksKey ← mappingKey doc "checks";
  match checksKey with
  | Some _ =>
      jobsKey ← mappingKey doc "jobs";
      r ← diagAt jobsKey "jobs" (Errorf "a spec uses either jobs: or checks:, not both" []) [];
      Ret (no_result, r.2)
  | None =>
      r ← jobsDocumentDiagnostics doc [];
      if bool_decide (r.2 ≠ []) then Ret (no_result, r.2)
      else
        r ← check_jobs doc namespace [];
        if bool_decide (r.2 ≠ []) then Ret (no_result, r.2)
        else build_jobs name namespace r.1.1 r.1.2
  end.

(** Either shape: a document with a jobs key, or checks. *)
Definition CompileYAMLWith (name spec namespace : string) : outcome (CompileResult * list Diagnostic) :=
  panic_if (empty_str name) "CompileYAMLWith: name must not be empty";;
  jobs ← match y_Unmarshal y spec with
         | inr (Some doc) =>
             if is_kind MappingNode doc then
               key ← mappingKey doc "jobs";
               Ret (if bool_decide (key = None) then None else Some doc)
             else Ret None
         | _ => Ret None
         end;
  match jobs with
  | Some doc => compileJobsDoc name doc namespace
  | None =>
      r ← Parse y spec;
      if bool_decide (r.2 ≠ []) then Ret (no_result, r.2)
      else
        c ← Compile LoadLocation perm rule_order text name r.1;
        Ret (MkCompileResult c.1 None, c.2)
  end.

Definition CompileYAML (name spec : string) : outcome (WorkflowDef * list Diagnostic) :=
  panic_if (empty_str name) "CompileYAML: name must not be empty";;
  r ← CompileYAMLWith name spec "";
  Ret (res_Workflow r.1, r.2).
End CompileJobs.
