(* ===== verification/CiSpec.v ===== *)
(** * What the compilation of CI specifications satisfies

    A specification of the functions that accumulate diagnostics, the screen of
    a document, the invariant of parsed jobs, the depth-first search for cycles
    and the workflow that is built. *)

From S2P Require Import Prelude Float64 Json Types Config Condition Graph GoTime Cron Keys Schema Validate ValidateSpec Ci CiJobs.
From stdpp Require Import sorting relations.
From Stdlib Require Import Ascii.

#[local] Open Scope Z_scope.

(** ** Functions that accumulate diagnostics *)

Definition capped (diags : list Diagnostic) : Prop := (length diags ≤ DiagnosticsMax + 1)%nat.

(** On diagnostics within the cap the function returns, extends them and stays
    within the cap; [Φ] holds of its result, and [Ψ] too when nothing has been
    reported in the end. *)
Definition dspec {A} (m : dm A) (Φ Ψ : A → Prop) : Prop :=
  ∀ diags, capped diags → ∃ a diags', m diags = Ret (a, diags') ∧ capped diags' ∧
    diags `prefix_of` diags' ∧ Φ a ∧ (diags' = [] → Ψ a).

Definition any {A} (_ : A) : Prop := True.
Definition never {A} (_ : A) : Prop := False.

Lemma dspec_ret {A} (a : A) (Φ Ψ : A → Prop) : Φ a → Ψ a → dspec (mret a) Φ Ψ.
Proof. intros ? ? diags Hc. by exists a, diags. Qed.

Lemma dspec_bind {A B} (m : dm A) (f : A → dm B) Φ Ψ (Φ' Ψ' : B → Prop) :
  dspec m Φ Ψ → (∀ a, Φ a → dspec (f a) Φ' (λ b, Ψ a → Ψ' b)) → dspec (m ≫= f) Φ' Ψ'.
Proof.
  intros Hm Hf diags Hc. destruct (Hm diags Hc) as (a & ds & Hr & Hc1 & Hp & Ha & Hn).
  destruct (Hf a Ha ds Hc1) as (b & ds' & Hr' & Hc2 & Hp' & Hb & Hn').
  exists b, ds'. unfold mbind, dm_bind. rewrite Hr. split_and!; [done..|by etrans|done|].
  intros ->. apply prefix_nil_inv in Hp' as ->. auto.
Qed.

Lemma dspec_mono {A} (m : dm A) (Φ Ψ Φ' Ψ' : A → Prop) :
  dspec m Φ Ψ → (∀ a, Φ a → Φ' a) → (∀ a, Φ a → Ψ a → Ψ' a) → dspec m Φ' Ψ'.
Proof.
  intros Hm HΦ HΨ diags Hc. destruct (Hm diags Hc) as (a & ds & ? & ? & ? & ? & ?).
  exists a, ds. split_and!; auto.
Qed.

(** Sequencing after a function whose result does not matter. *)
Lemma dspec_then {A B} (m : dm A) (f : A → dm B) (Ψ : A → Prop) (Φ' Ψ' : B → Prop) :
  dspec m any Ψ → (∀ a, dspec (f a) Φ' Ψ') → dspec (m ≫= f) Φ' Ψ'.
Proof. intros Hm Hf. eapply dspec_bind; [exact Hm|]. intros a _. eapply dspec_mono; [apply Hf|done..]. Qed.

(** After a report the result is no longer clean. *)
Lemma dspec_reported {A B} (m : dm A) (f : A → dm B) (Φ Ψ : B → Prop) :
  dspec m any never → (∀ a, dspec (f a) Φ any) → dspec (m ≫= f) Φ Ψ.
Proof.
  intros Hm Hf. eapply dspec_bind; [exact Hm|]. intros a _. eapply dspec_mono; [apply Hf|done|]. by intros b _ _ [].
Qed.

Lemma dspec_of {A} (a : A) (Φ Ψ : A → Prop) : Φ a → Ψ a → dspec (dm_of (Ret a)) Φ Ψ.
Proof. apply dspec_ret. Qed.

Lemma dspec_assert {B} (b : bool) msg (f : unit → dm B) Φ Ψ :
  b = false → dspec (f tt) Φ Ψ → dspec (dm_of (panic_if b msg) ≫= f) Φ Ψ.
Proof. intros -> Hf. exact Hf. Qed.

Lemma dspec_count : dspec count (λ n, n ≤ DiagnosticsMax + 1)%nat (λ n, n = 0%nat).
Proof. intros diags Hc. exists (length diags), diags. split_and!; [done..|]. by intros ->. Qed.

Lemma report_spec d : dspec (report d) any never.
Proof.
  intros diags Hc. unfold report, addDiagnostic, capped in *. rewrite (bool_decide_eq_false_2 (DiagnosticsMax + 1 < length diags)%nat) by lia. cbn [panic_if mbind outcome_bind].
  case_bool_decide as Hfull.
  { exists tt, diags. split_and!; [done|lia|done|done|]. intros ->. by apply Nat.nle_succ_0 in Hfull. }
  cbv zeta. assert (length (diags ++ [d]) = S (length diags)) as Hl by (rewrite length_app; cbn; lia).
  case_bool_decide as Hm.
  - assert (length ((diags ++ [d]) ++ [too_many]) = DiagnosticsMax + 1)%nat as Hl2 by (rewrite length_app, Hm; done).
    rewrite bool_decide_eq_false_2 by lia. cbn [panic_if mbind outcome_bind].
    eexists tt, _. split_and!; [done|lia|exists [d; too_many]; by rewrite <-(assoc_L app)|done|].
    by destruct diags.
  - rewrite bool_decide_eq_false_2 by lia. cbn [panic_if mbind outcome_bind]. eexists tt, _. split_and!; [done|lia|by exists [d]|done|by destruct diags].
Qed.

Lemma report_if_spec b d : dspec (report_if b d) any (λ _, b = false).
Proof. destruct b; [eapply dspec_mono; [apply report_spec|done|done]|by apply dspec_ret]. Qed.

Lemma diagAt_spec n field m : err_format m ≠ "" → dspec (diagAt (Some n) field m) any never.
Proof. intros Hm. apply dspec_assert; [by apply empty_str_false|]. apply report_spec. Qed.

Lemma each_spec {A} (f : A → dm unit) (P : A → Prop) l :
  (∀ x, x ∈ l → dspec (f x) any (λ _, P x)) → dspec (d_each f l) any (λ _, ∀ x, x ∈ l → P x).
Proof.
  induction l as [|x l IH]; intros Hf; cbn [d_each].
  { apply dspec_ret; [done|]. by intros x ?%elem_of_nil. }
  eapply dspec_bind; [apply Hf; by left|]. intros u _. eapply dspec_mono; [apply IH; intros x' Hx'; apply Hf; by right|done|].
  intros v _ Hl Hx x' [->|?]%elem_of_cons; auto.
Qed.

Lemma or_report_spec {A} (o : outcome A) (zero : A) d :
  is_panic o = false → dspec (or_report o zero d) (λ a, o = Ret a ∨ a = zero) (λ a, o = Ret a).
Proof.
  destruct o as [a|e|]; intros Hp; [apply dspec_ret; auto| |done].
  apply dspec_reported; [apply report_spec|]. intros _. apply dspec_ret; [by right|done].
Qed.

(** A report, then a result that the clean case does not have. *)
Lemma diag_ret_spec {A} n field m (a : A) (Φ Ψ : A → Prop) :
  err_format m ≠ "" → Φ a → dspec (diagAt (Some n) field m ≫= λ _, mret a) Φ Ψ.
Proof.
  intros Hm Ha. apply dspec_reported; [by apply diagAt_spec|]. intros _. by apply dspec_ret.
Qed.

(** ** Trees of nodes *)

Inductive within : Node → Node → Prop :=
  | within_refl n : within n n
  | within_child n c m : c ∈ n_Content n → within c m → within n m.

Lemma within_trans a b c : within a b → within b c → within a c.
Proof. induction 1 as [|n x m Hx _ IH]; [done|]. intros Hc. econstructor; [done|by apply IH]. Qed.

Lemma within_content n c : c ∈ n_Content n → within n c.
Proof. intros Hc. eapply within_child; [exact Hc|apply within_refl]. Qed.

Lemma pairs_in l k v : (k, v) ∈ pairs l → k ∈ l ∧ v ∈ l.
Proof.
  remember (length l) as n eqn:Hn. revert l Hn.
  induction n as [n IH] using lt_wf_ind. intros [|a [|b l]] ->; cbn [pairs]; [by intros ?%elem_of_nil..|].
  intros [[= -> ->]|H]%elem_of_cons; [set_solver|]. destruct (IH (length l) ltac:(cbn; lia) l eq_refl H). set_solver.
Qed.

Lemma within_pair n m k v : within n m → (k, v) ∈ pairs (n_Content m) → within n k ∧ within n v.
Proof.
  intros Hw [Hk Hv]%pairs_in. split; (eapply within_trans; [exact Hw|]); by apply within_content.
Qed.

(** What the YAML library builds: mappings hold pairs, and only scalars and
    aliases have a value. *)
Definition yaml_tree (doc : Node) : Prop := ∀ n, within doc n →
  (n_Kind n = MappingNode → Nat.odd (length (n_Content n)) = false) ∧
  (n_Kind n ≠ ScalarNode → n_Kind n ≠ AliasNode → n_Value n = "").

(** A check of every node of a tree. *)
Fixpoint all_nodes (f : Node → bool) (n : Node) : bool :=
  let 'MkNode _ _ _ _ _ content := n in f n && forallb (all_nodes f) content.

Lemma all_nodes_within f n m : within n m → all_nodes f n = true → f m = true.
Proof.
  induction 1 as [n|n c m Hc _ IH]; destruct n as [k t v l col content]; cbn [all_nodes];
    intros [Hf Hall]%andb_true_iff; [done|]. apply IH. rewrite forallb_forall in Hall. by apply Hall, list_elem_of_In.
Qed.

Definition node_okb (n : Node) : bool :=
  (negb (is_kind MappingNode n) || negb (Nat.odd (length (n_Content n)))) &&
  (is_kind ScalarNode n || is_kind AliasNode n || empty_str (n_Value n)).

Lemma yaml_tree_check doc : all_nodes node_okb doc = true → yaml_tree doc.
Proof.
  intros Hall n Hn. pose proof (all_nodes_within _ _ _ Hn Hall) as [H1 H2]%andb_true_iff. split.
  - intros Hk. unfold is_kind in H1. rewrite bool_decide_eq_true_2 in H1 by done. by apply negb_true_iff.
  - intros Hs Ha. unfold is_kind in H2. rewrite !bool_decide_eq_false_2 in H2 by done. by apply empty_str_true.
Qed.

(** The scalar keys of a mapping, and that they differ. *)
Fixpoint keys_differ (seen : list string) (keys : list (Node * Node)) : Prop :=
  match keys with
  | [] => True
  | (key, _) :: keys' =>
      (n_Kind key = ScalarNode → n_Value key ∉ seen) ∧ keys_differ (n_Value key :: seen) keys'
  end.

Definition screened (n : Node) : Prop :=
  n_Kind n ≠ AliasNode ∧ (n_Kind n = MappingNode → keys_differ [] (pairs (n_Content n))).

Lemma is_kind_true k n : is_kind k n = true ↔ n_Kind n = k.
Proof. unfold is_kind. by rewrite bool_decide_eq_true. Qed.
Lemma is_kind_false k n : is_kind k n = false ↔ n_Kind n ≠ k.
Proof. unfold is_kind. by rewrite bool_decide_eq_false. Qed.

Lemma dup_spec keys : ∀ seen, dspec (dup_loop seen keys) any (λ _, keys_differ seen keys).
Proof.
  induction keys as [|[key v] keys IH]; intros seen; cbn [dup_loop keys_differ]; [by apply dspec_ret|].
  eapply (dspec_bind _ _ any (λ _, n_Kind key = ScalarNode → n_Value key ∉ seen)).
  - destruct (is_kind ScalarNode key && _) eqn:Hb.
    + eapply dspec_mono; [by apply diagAt_spec|done|done].
    + apply dspec_ret; [done|]. intros Hk Hin. rewrite (proj2 (is_kind_true _ _) Hk), bool_decide_eq_true_2 in Hb by done. done.
  - intros u _. eapply dspec_mono; [apply IH|done|]. auto.
Qed.

Lemma duplicate_spec node :
  n_Kind node = MappingNode → Nat.odd (length (n_Content node)) = false →
  dspec (duplicateKeyDiagnostics node) any (λ _, keys_differ [] (pairs (n_Content node))).
Proof.
  intros Hk Ho. apply dspec_assert; [by rewrite (proj2 (is_kind_true _ _) Hk)|].
  apply dspec_assert; [done|]. apply dup_spec.
Qed.

Lemma node_size_eq n : node_size n = S (sum_list (node_size <$> n_Content n)).
Proof. by destruct n. Qed.

Lemma within_inv n m : within n m → m = n ∨ ∃ c, c ∈ n_Content n ∧ within c m.
Proof. destruct 1; eauto. Qed.


Lemma screen_spec doc fuel : ∀ visited stack,
  yaml_tree doc → (∀ n, n ∈ stack → within doc n) → (sum_list (node_size <$> stack) ≤ fuel)%nat →
  dspec (screen_loop fuel visited doc stack) any (λ _, ∀ n m, n ∈ stack → within n m → screened m).
Proof.
  intros visited stack Hdoc. revert visited stack.
  induction fuel as [|fuel IH]; intros visited [|node below] Hin Hsz; cbn [screen_loop].
  - apply dspec_ret; [done|]. by intros n m ?%elem_of_nil.
  - cbn in Hsz. rewrite node_size_eq in Hsz. lia.
  - apply dspec_ret; [done|]. by intros n m ?%elem_of_nil.
  - destruct (_ <=? visited). { eapply dspec_mono; [by apply diagAt_spec|done|done]. }
    cbn in Hsz. rewrite node_size_eq in Hsz.
    destruct (is_kind AliasNode node) eqn:Hal.
    { apply dspec_reported; [by apply diagAt_spec|]. intros _.
      eapply dspec_mono; [apply IH; [intros n Hn; apply Hin; by right|lia]|done|done]. }
    apply is_kind_false in Hal.
    eapply (dspec_bind _ _ any (λ _, screened node)).
    + destruct (is_kind MappingNode node) eqn:Hm.
      * apply is_kind_true in Hm. eapply dspec_mono; [apply duplicate_spec; [done|]|done|].
        -- apply (Hdoc node); [apply Hin; by left|done].
        -- intros v _ Hk. split; [done|]. by intros _.
      * apply is_kind_false in Hm. apply dspec_ret; [done|]. split; [done|]. by intros ?.
    + intros u _. eapply dspec_mono; [apply IH|done|].
      * intros n [Hn|Hn]%elem_of_app; [|apply Hin; by right].
        rewrite elem_of_reverse in Hn. eapply within_trans; [apply Hin; by left|].
        by apply within_content.
      * rewrite fmap_app, fmap_reverse, sum_list_with_app, sum_list_with_reverse. lia.
      * intros v _ Hall Hnode n m [->|Hn]%elem_of_cons Hw.
        -- apply within_inv in Hw as [->|(c & Hc & Hw)]; [done|].
           apply (Hall c m); [|done]. apply elem_of_app. left. by rewrite elem_of_reverse.
        -- apply (Hall n m); [|done]. apply elem_of_app. by right.
Qed.

Lemma document_spec doc :
  n_Kind doc = MappingNode → yaml_tree doc →
  dspec (jobsDocumentDiagnostics doc) any (λ _, ∀ n, within doc n → screened n).
Proof.
  intros Hk Hdoc. apply dspec_assert; [by rewrite (proj2 (is_kind_true _ _) Hk)|].
  eapply dspec_mono; [apply screen_spec; [done| |]|done|].
  - intros n ->%list_elem_of_singleton. apply within_refl.
  - cbn. lia.
  - intros v _ Hall n. apply Hall. by left.
Qed.

(** ** Parsed jobs *)

Definition env_ok (e : envValues) : Prop :=
  ∀ k, is_Some (ev_plain e !! k) → is_Some (ev_keyNodes e !! k).

Definition timeout_ok (t : Z) : Prop := 0 < t ≤ jobTimeoutMinutesMax * Minute.
Definition retries_ok (n : Z) : Prop := 0 ≤ n ≤ RetryAttemptCountMax.

Record job_wf (job : parsedJob) : Prop := {
  jw_needs : pj_needs job ≠ [] → is_Some (pj_needsKey job);
  jw_timeout : timeout_ok (pj_timeout job);
  jw_retries : retries_ok (pj_retries job);
  jw_env : env_ok (pj_env job);
  jw_steps : ∀ s, s ∈ pj_steps job → env_ok (ps_env s);
}.

Record parsed_ok (p : parsedJobs) : Prop := {
  po_nodup : NoDup (pp_ids p);
  po_ids : ∀ id, id ∈ pp_ids p ↔ is_Some (pp_jobs p !! id);
  po_jobs : ∀ id job, pp_jobs p !! id = Some job → id ≠ "" ∧ job_wf job;
  po_env : env_ok (pp_env p);
  po_key : pp_ids p ≠ [] → is_Some (pp_jobsKey p);
}.

Definition all_ok (p : parsedJobs) : Prop := ∀ id job, pp_jobs p !! id = Some job → pj_ok job = true.

Lemma str_app_ne s t : t ≠ "" → s +:+ t ≠ "".
Proof. by destruct s. Qed.
Lemma str_app_ne_l s t : s ≠ "" → s +:+ t ≠ "".
Proof. by destruct s. Qed.
#[local] Hint Resolve str_app_ne str_app_ne_l : core.

Lemma empty_env_ok f : env_ok (MkEnvValues f ∅ ∅ ∅).
Proof. intros k [? H]. cbn in H. by rewrite lookup_empty in H. Qed.

Lemma unknown_spec node known field :
  n_Kind node = MappingNode → dspec (unknownFieldDiagnostics node known field) any any.
Proof.
  intros Hk. apply dspec_assert; [by rewrite (proj2 (is_kind_true _ _) Hk)|].
  eapply dspec_mono; [apply (each_spec _ (λ _, True))|done|done]. intros [k v] _.
  eapply dspec_mono; [apply report_if_spec|done|done].
Qed.

Lemma level_spec node allowed field :
  n_Kind node = MappingNode → allowed ≠ [] → dspec (jobsLevelKeys node allowed field) any any.
Proof.
  intros Hk Ha. apply dspec_assert; [by rewrite (proj2 (is_kind_true _ _) Hk)|].
  eapply dspec_then.
  { apply (each_spec _ (λ _, True)). intros [k v] _. destruct (is_merge k).
    - eapply dspec_mono; [by apply diagAt_spec|done|done].
    - destruct (find_first _ _) as [[? ?]|]; [eapply dspec_mono; [by apply diagAt_spec|done|done]|by apply dspec_ret]. }
  intros _. unfold jobsKnown. rewrite bool_decide_eq_false_2 by done. cbn [panic_if mbind outcome_bind].
  by apply unknown_spec.
Qed.

Lemma string_spec node field : field ≠ "" → dspec (parseJobsString node field) any any.
Proof.
  intros Hf. apply dspec_assert; [by apply empty_str_false|]. destruct (negb _); [by apply diag_ret_spec|].
  destruct (is_expression _); [by apply diag_ret_spec|by apply dspec_ret].
Qed.

Lemma env_entry_spec env key val field :
  field ≠ "" → env_ok env → dspec (parseJobsEnvEntry env key val field) env_ok any.
Proof.
  intros Hf He. apply dspec_assert; [by apply empty_str_false|]. cbv zeta.
  destruct (is_expression _); [by apply diag_ret_spec|].
  destruct (negb _ || _); [by apply diag_ret_spec|]. destruct (negb _); [by apply diag_ret_spec|].
  assert (env_ok (ev_add_key (n_Value key) key env)) as He'.
  { intros k Hk. cbn. rewrite lookup_insert. case_decide; [by eexists|by apply He]. }
  destruct (secretExpression _).
  - destruct (negb _); [by apply diag_ret_spec|by apply dspec_ret].
  - destruct (is_expression _); [by apply diag_ret_spec|]. apply dspec_ret; [|done].
    intros k. cbn. rewrite !lookup_insert. case_decide; [by eexists|]. intros Hk. by apply He.
Qed.

Lemma env_loop_spec field entries : field ≠ "" → ∀ env,
  env_ok env → dspec (env_loop env field entries) env_ok any.
Proof.
  intros Hf. induction entries as [|[k v] entries IH]; intros env He; cbn [env_loop]; [by apply dspec_ret|].
  eapply dspec_bind; [by apply env_entry_spec|]. intros env' He'.
  eapply dspec_mono; [by apply IH|done|done].
Qed.

Lemma env_spec node field : field ≠ "" → dspec (parseJobsEnv node field) env_ok any.
Proof.
  intros Hf. apply dspec_assert; [by apply empty_str_false|]. cbv zeta. pose proof (empty_env_ok field).
  destruct (_ && _); [by apply dspec_ret|]. destruct (negb _); [by apply diag_ret_spec|]. by apply env_loop_spec.
Qed.

Lemma needs_spec node field : field ≠ "" → dspec (parseNeeds node field) any any.
Proof.
  intros Hf. apply dspec_assert; [by apply empty_str_false|]. destruct (_ && _); [by apply dspec_ret|].
  destruct (negb _); [by apply diag_ret_spec|]. generalize (@nil string) as listed.
  induction (n_Content node) as [|item items IH]; intros listed; cbn [needs_loop]; [by apply dspec_ret|].
  destruct (negb _). { apply dspec_reported; [by apply diagAt_spec|]. intros _. apply IH. }
  case_bool_decide; [apply IH|]. eapply dspec_then; [apply IH|]. intros l. by apply dspec_ret.
Qed.

Section Parsed.
Context (y : yaml) (encode_events : gmap string (option (y_value y)) → error + string).

Lemma timeout_spec node field fallback :
  timeout_ok fallback → dspec (parseTimeoutMinutes y node field fallback) timeout_ok any.
Proof.
  intros Ht. unfold timeout_ok in *. apply dspec_assert; [lia|]. destruct (int_node y node) as [m|]; [|by apply diag_ret_spec].
  destruct (_ || _) eqn:Hb; [by apply diag_ret_spec|]. apply orb_false_iff in Hb as [H1 H2].
  apply dspec_ret; [|done]. unfold Minute, Second, Millisecond in *. nia.
Qed.

Lemma retries_spec node field : field ≠ "" → dspec (parseRetries y node field) retries_ok any.
Proof.
  intros Hf. assert (retries_ok 0) as H0 by (unfold retries_ok, RetryAttemptCountMax; lia).
  apply dspec_assert; [by apply empty_str_false|]. destruct (int_node y node) as [r|]; [|by apply diag_ret_spec].
  destruct (r <? 0) eqn:Hn; [by apply diag_ret_spec|]. destruct (_ <? r) eqn:Hm; [by apply diag_ret_spec|].
  apply dspec_ret; [|done]. unfold retries_ok. lia.
Qed.

Definition step_wf (s : parsedStep) : Prop := env_ok (ps_env s).

Lemma step_field_spec step key val field :
  field ≠ "" → step_wf step → dspec (step_field step key val field) step_wf any.
Proof.
  intros Hf Hs. destruct step as [name run wd env]. unfold step_field.
  repeat case_bool_decide; [..|by apply dspec_ret].
  - eapply dspec_then; [apply string_spec; auto|]. intros v. by apply dspec_ret.
  - eapply dspec_then; [eapply dspec_mono; [apply dspec_count|done|done]|]. intros before.
    eapply dspec_then; [apply string_spec; auto|]. intros v.
    eapply dspec_then; [eapply dspec_mono; [apply dspec_count|done|done]|]. intros after.
    eapply (dspec_then _ _ any); [|intros u; by apply dspec_ret].
    destruct (_ && _); [eapply dspec_mono; [by apply diagAt_spec|done|done]|by apply dspec_ret].
  - eapply dspec_then; [apply string_spec; auto|]. intros v. by apply dspec_ret.
  - eapply dspec_bind; [apply env_spec; auto|]. intros v Hv. by apply dspec_ret.
Qed.

Lemma mappingKey_ret node key : n_Kind node = MappingNode → ∃ r, mappingKey node key = Ret r.
Proof. intros Hk. unfold mappingKey. rewrite (proj2 (is_kind_true _ _) Hk). by eexists. Qed.

Lemma step_spec node field : field ≠ "" → dspec (parseStep node field) step_wf any.
Proof.
  intros Hf. unfold parseStep. cbv zeta.
  assert (step_wf (MkParsedStep "" "" "" newEnvValues)) as H0 by apply empty_env_ok.
  destruct (is_kind MappingNode node) eqn:Hk; cbn [negb]; [|by apply diag_ret_spec]. apply is_kind_true in Hk.
  eapply dspec_then; [by apply level_spec|]. intros _.
  assert (∀ fields step, step_wf step → dspec (step_fields step field fields) step_wf any) as Hfs.
  { induction fields as [|[k v] fields IH]; intros step Hs; cbn [step_fields]; [by apply dspec_ret|].
    eapply dspec_bind; [by apply step_field_spec|]. intros s' Hs'. eapply dspec_mono; [by apply IH|done|done]. }
  eapply dspec_bind; [by apply Hfs|]. intros s Hs. destruct (mappingKey_ret node "run" Hk) as [r ->].
  eapply dspec_mono with (Φ := step_wf) (Ψ := any); [|done|done].
  eapply dspec_bind; [by apply (dspec_of r any any)|]. intros r' _. eapply (dspec_then _ _ any); [|intros u; by apply dspec_ret].
  destruct r'; [by apply dspec_ret|]. eapply dspec_mono; [by apply diagAt_spec|done|done].
Qed.

Lemma steps_spec field nodes : field ≠ "" → ∀ i,
  dspec (steps_loop field i nodes) (λ l, ∀ s, s ∈ l → env_ok (ps_env s)) any.
Proof.
  intros Hf. induction nodes as [|n nodes IH]; intros i; cbn [steps_loop].
  { apply dspec_ret; [|done]. by intros s ?%elem_of_nil. }
  eapply dspec_bind; [apply step_spec; unfold indexed; auto|]. intros s Hs.
  eapply dspec_bind; [apply IH|]. intros l Hl. apply dspec_ret; [|done].
  intros s' [->|?]%elem_of_cons; auto.
Qed.

Lemma job_field_spec job key val field :
  field ≠ "" → job_wf job → dspec (parseJobField y job key val field) job_wf any.
Proof.
  intros Hf Hj. unfold parseJobField. cbv zeta. pose proof Hj as [H1 H2 H3 H4 H5].
  repeat case_bool_decide; [..|by apply dspec_ret].
  all: try (eapply dspec_then; [apply string_spec; auto|]; intros v; apply dspec_ret; [|done]; destruct job; by split).
  - eapply dspec_then; [apply needs_spec; auto|]. intros v. apply dspec_ret; [|done]. destruct job. split; [|done..].
    by intros _; eexists.
  - eapply dspec_bind; [by apply timeout_spec|]. intros v Hv. apply dspec_ret; [|done]. destruct job. by split.
  - eapply dspec_bind; [apply retries_spec; auto|]. intros v Hv. apply dspec_ret; [|done]. destruct job. by split.
  - eapply dspec_bind; [apply env_spec; auto|]. intros v Hv. apply dspec_ret; [|done]. destruct job. by split.
  - unfold parseSteps. destruct (negb _); [by apply diag_ret_spec|]. case_bool_decide; [by apply diag_ret_spec|].
    eapply dspec_bind; [apply steps_spec; auto|]. intros l Hl. apply dspec_ret; [|done]. destruct job. split; [done..|].
    intros s [?|?]%elem_of_app; auto.
Qed.

Lemma job_fields_spec field fields : field ≠ "" → ∀ job,
  job_wf job → dspec (job_fields y job field fields) job_wf any.
Proof.
  intros Hf. induction fields as [|[k v] fields IH]; intros job Hj; cbn [job_fields]; [by apply dspec_ret|].
  eapply dspec_bind; [by apply job_field_spec|]. intros j' Hj'. eapply dspec_mono; [by apply IH|done|done].
Qed.

Lemma job_spec idNode node :
  jobIDPattern (n_Value idNode) = true → dspec (parseJob y idNode node) job_wf (λ job, pj_ok job = true).
Proof.
  intros Hid. apply dspec_assert; [by rewrite Hid|]. cbv zeta. set (job0 := MkParsedJob _ _ _ _ _ _ _ _ _ _ _).
  assert (job_wf job0) as H0.
  { split; cbn; [done| | |apply empty_env_ok|by intros s ?%elem_of_nil].
    - unfold timeout_ok, defaultCheckTimeout, jobTimeoutMinutesMax, Minute, Second, Millisecond. lia.
    - unfold retries_ok, RetryAttemptCountMax. lia. }
  destruct (is_kind MappingNode node) eqn:Hk; cbn [negb]; [|by apply diag_ret_spec]. apply is_kind_true in Hk.
  eapply dspec_bind; [apply dspec_count|]. intros before _.
  eapply dspec_then; [by apply level_spec|]. intros _.
  eapply dspec_bind; [apply job_fields_spec; [done|exact H0]|]. intros job Hj.
  destruct (mappingKey_ret node "steps" Hk) as [r ->].
  eapply dspec_bind; [by apply (dspec_of r any any)|]. intros r' _. eapply (dspec_then _ _ any).
  { destruct r'; [by apply dspec_ret|]. eapply dspec_mono; [by apply diagAt_spec|done|done]. }
  intros _. eapply dspec_bind; [apply dspec_count|]. intros after _. apply dspec_ret.
  - destruct Hj. by destruct job.
  - intros -> _ _ ->. by destruct job.
Qed.

(** *** The jobs of a document *)

(** Entries of a mapping of a screened tree. *)
Definition keys_plain (entries : list (Node * Node)) : Prop :=
  ∀ k v, (k, v) ∈ entries → n_Kind k ≠ ScalarNode → n_Value k = "".

Lemma keys_plain_tail e entries : keys_plain (e :: entries) → keys_plain entries.
Proof. intros H k v Hkv. apply (H k v). by right. Qed.

Lemma pattern_ne id : jobIDPattern id = true → id ≠ "".
Proof. by destruct id. Qed.

Lemma pp_add_ok id job p :
  parsed_ok p → is_Some (pp_jobsKey p) → id ∉ pp_ids p → id ≠ "" → job_wf job → parsed_ok (pp_add id job p).
Proof.
  intros [H1 H2 H3 H4 H5] Hk Hid Hne Hj. split; cbn.
  - apply NoDup_app. split_and!; [done| |by apply NoDup_singleton]. by intros x Hx ->%list_elem_of_singleton.
  - intros id'. rewrite elem_of_app, list_elem_of_singleton, lookup_insert. case_decide as Heq.
    + subst. split; [by eexists|]. by right.
    + rewrite H2. naive_solver.
  - intros id' job'. rewrite lookup_insert. case_decide; [intros [= <-]; by subst|apply H3].
  - done.
  - by intros _.
Qed.

Lemma jobs_loop_spec entries : ∀ seen p,
  parsed_ok p → is_Some (pp_jobsKey p) → (∀ id, id ∈ pp_ids p → id ∈ seen) →
  keys_plain entries → keys_differ seen entries →
  dspec (jobs_loop y p entries) (λ p', parsed_ok p' ∧ is_Some (pp_jobsKey p'))
    (λ p', all_ok p → all_ok p' ∧ (pp_ids p ≠ [] ∨ entries ≠ [] → pp_ids p' ≠ [])).
Proof.
  induction entries as [|[idNode node] entries IH]; intros seen p Hp Hk Hseen Hpl Hd; cbn [jobs_loop].
  { apply dspec_ret; [done|]. intros Ha. split; [done|]. naive_solver. }
  cbv zeta. destruct Hd as [Hd1 Hd2].
  assert (pp_jobs p !! n_Value idNode = None) as Hfree.
  { destruct (pp_jobs p !! n_Value idNode) as [job|] eqn:Hj; [|done]. exfalso.
    destruct (decide (n_Kind idNode = ScalarNode)) as [Hs|Hs].
    - apply (Hd1 Hs), Hseen. apply (po_ids _ Hp). by eexists.
    - destruct (po_jobs _ Hp _ _ Hj) as [Hne _]. apply Hne. apply (Hpl idNode node); [by left|done]. }
  apply dspec_assert; [by rewrite Hfree, bool_decide_eq_false_2 by (by intros [? [=]])|].
  assert (∀ id, id ∈ pp_ids p → id ∈ n_Value idNode :: seen) as Hseen' by (intros id ?; right; auto).
  apply keys_plain_tail in Hpl.
  destruct (negb _ || negb _) eqn:Hb.
  - apply dspec_reported; [by apply diagAt_spec|]. intros _. eapply dspec_mono; [by eapply IH|done|done].
  - apply orb_false_iff in Hb as [_ Hpat%negb_false_iff].
    eapply dspec_bind; [by apply job_spec|]. intros job Hj.
    eapply dspec_mono; [apply (IH (n_Value idNode :: seen)); [|done| |done|done]|done|].
    + apply pp_add_ok; [done|done| |by apply pattern_ne|done]. rewrite (po_ids _ Hp), Hfree. by intros [? [=]].
    + intros id [?| ->%list_elem_of_singleton]%elem_of_app; [by apply Hseen'|by left].
    + intros p' _ Hp' Hok Ha. destruct Hp' as [Ha' Hne].
      * intros id' job'. cbn. rewrite lookup_insert. case_decide; [by intros [= <-]|apply Ha].
      * split; [done|]. intros _. apply Hne. left. cbn. by destruct (pp_ids p).
Qed.

Definition clean_node (n : Node) : Prop :=
  screened n ∧ (n_Kind n = MappingNode → keys_plain (pairs (n_Content n)) ∧ Nat.odd (length (n_Content n)) = false).

Lemma no_ids_all_ok p : parsed_ok p → pp_ids p = [] → all_ok p.
Proof.
  intros Hp Hids id job Hj. assert (id ∈ pp_ids p) as Hin by (apply (po_ids _ Hp); by eexists).
  rewrite Hids in Hin. by apply elem_of_nil in Hin.
Qed.

Lemma jobs_map_spec p node :
  parsed_ok p → is_Some (pp_jobsKey p) → pp_ids p = [] → clean_node node →
  dspec (parseJobsMap y p node) (λ p', parsed_ok p' ∧ is_Some (pp_jobsKey p')) (λ p', all_ok p' ∧ pp_ids p' ≠ []).
Proof.
  intros Hp Hk Hids [[Hal Hd] Hpl]. unfold parseJobsMap.
  destruct (is_kind MappingNode node) eqn:Hm; cbn [negb]; [|by apply diag_ret_spec]. apply is_kind_true in Hm.
  case_bool_decide as Hc; [by apply diag_ret_spec|]. destruct (Hpl Hm) as [Hpl' Hev].
  eapply dspec_mono; [eapply (jobs_loop_spec _ []); [done|done| |done|by apply Hd]|done|].
  - rewrite Hids. by intros id ?%elem_of_nil.
  - intros p' _ Hp'. destruct Hp' as [Ha Hne]; [by apply no_ids_all_ok|]. split; [done|]. apply Hne. right.
    by destruct (n_Content node) as [|a [|b l]].
Qed.

Lemma on_spec node : n_Kind node ≠ AliasNode → dspec (parseOn y encode_events node) any any.
Proof.
  intros Hal. apply dspec_assert; [by apply is_kind_false|].
  assert (∀ n m, err_format m ≠ "" → dspec (on_failed n m) any any) as Hf by (intros n m Hm; by apply diag_ret_spec).
  assert (∀ events, dspec (on_events y encode_events node events) any any) as He.
  { intros events. unfold on_events. case_bool_decide; [by apply Hf|]. destruct (encode_events events); [by apply Hf|].
    destruct (is_expression _); [by apply Hf|by apply dspec_ret]. }
  destruct (n_Kind node); [by apply Hf| | | |by apply Hf].
  - destruct (on_items _ _ _); [by apply Hf|apply He].
  - destruct (y_events y node); [by apply Hf|apply He].
  - destruct (_ || _); [by apply Hf|apply He].
Qed.

(** The fields before [jobs] leave no job. *)
Lemma spec_fields_spec fields : ∀ seen p,
  parsed_ok p → (pp_ids p = [] ∨ "jobs" ∈ seen) → keys_plain fields → keys_differ seen fields →
  (∀ k v, (k, v) ∈ fields → clean_node v) →
  dspec (spec_fields y encode_events p fields) parsed_ok
    (λ p', all_ok p → all_ok p' ∧ (pp_ids p ≠ [] ∨ "jobs" ∈ n_Value ∘ fst <$> fields → pp_ids p' ≠ [])).
Proof.
  induction fields as [|[key val] fields IH]; intros seen p Hp Hj Hpl Hd Hcl; cbn [spec_fields].
  { apply dspec_ret; [done|]. intros Ha. split; [done|]. intros [?|?%elem_of_nil]; done. }
  destruct Hd as [Hd1 Hd2].
  assert (clean_node val) as Hval by (apply (Hcl key); by left).
  assert (∀ k v, (k, v) ∈ fields → clean_node v) as Hcl' by (intros k v ?; apply (Hcl k); by right).
  assert (n_Value key = "jobs" → pp_ids p = []) as Hempty.
  { intros Hkey. destruct Hj as [?|Hin]; [done|]. destruct (decide (n_Kind key = ScalarNode)) as [Hs|Hs].
    - rewrite <-Hkey in Hin. by destruct (Hd1 Hs).
    - rewrite (Hpl key val) in Hkey; [done|by left|done]. }
  pose proof (keys_plain_tail _ _ Hpl) as Hpl'.
  eapply (dspec_bind _ _ (λ p', parsed_ok p' ∧ (pp_ids p' = [] ∨ "jobs" ∈ n_Value key :: seen))
    (λ p', all_ok p → all_ok p' ∧ (pp_ids p ≠ [] ∨ n_Value key = "jobs" → pp_ids p' ≠ []))).
  - unfold spec_field. cbv zeta. pose proof Hp as [H1 H2 H3 H4 H5].
    assert (pp_ids p = [] ∨ "jobs" ∈ n_Value key :: seen) as Hj' by set_solver.
    assert (∀ q, n_Value key ≠ "jobs" → pp_jobs q = pp_jobs p → pp_ids q = pp_ids p → all_ok p →
      all_ok q ∧ (pp_ids p ≠ [] ∨ n_Value key = "jobs" → pp_ids q ≠ [])) as Hq.
    { intros q Hne Hjq Hiq Ha. unfold all_ok. rewrite Hjq, Hiq. split; [done|]. by intros [?|?]. }
    repeat case_bool_decide.
    + eapply dspec_then; [apply on_spec, Hval|]. intros v. apply dspec_ret; [|apply Hq; [congruence|done..]]. split; [by split|done].
    + eapply dspec_bind; [by apply env_spec|]. intros v Hv. apply dspec_ret; [|intros _; apply Hq; [congruence|done..]]. split; [by split|done].
    + eapply dspec_then; [by apply string_spec|]. intros v. apply dspec_ret; [done|by apply Hq; [congruence|..]].
    + eapply dspec_mono; [apply jobs_map_spec; [by split|by eexists|by apply Hempty|done]|..].
      * intros p' [? ?]. split; [done|]. right. set_solver.
      * intros p' _ [? ?]. done.
    + apply dspec_ret; [done|by apply Hq; [congruence|..]].
  - intros p' [Hp' Hj']. eapply dspec_mono; [by apply (IH (n_Value key :: seen))|done|].
    intros p'' _ H2 H1 Ha. destruct (H1 Ha) as [Ha' Hn']. destruct (H2 Ha') as [Ha'' Hn'']. split; [done|].
    intros [Hne|Hin]; [apply Hn''; left; by apply Hn'; left|]. csimpl in Hin. apply elem_of_cons in Hin as [Hin|Hin].
    + apply Hn''. left. apply Hn'. by right.
    + apply Hn''. by right.
Qed.

Lemma sort_ids_ok p : parsed_ok p → parsed_ok (sort_ids p).
Proof.
  intros [H1 H2 H3 H4 H5]. pose proof (merge_sort_Permutation str_le (pp_ids p)) as Hperm.
  split; cbn; [by rewrite Hperm|intros id; by rewrite Hperm|done|done|].
  intros Hne. apply H5. intros Heq. rewrite Heq in *. by apply Hne.
Qed.

(** A tree without aliases and duplicate keys. *)
Definition screened_doc (doc : Node) : Prop := yaml_tree doc ∧ ∀ n, within doc n → screened n.

Lemma screened_clean doc n : screened_doc doc → within doc n → clean_node n.
Proof.
  intros [Ht Hs] Hn. split; [by apply Hs|]. intros Hm. split; [|by apply (Ht n)].
  intros k v Hkv Hk. destruct (within_pair _ _ _ _ Hn Hkv) as [Hwk _]. apply (Ht k Hwk); [done|by apply (Hs k Hwk)].
Qed.

Lemma parse_spec doc :
  n_Kind doc = MappingNode → screened_doc doc →
  dspec (parseJobsSpec y encode_events doc) parsed_ok
    (λ p, all_ok p ∧ ("jobs" ∈ n_Value ∘ fst <$> pairs (n_Content doc) → pp_ids p ≠ [])).
Proof.
  intros Hk Hdoc. apply dspec_assert; [by rewrite (proj2 (is_kind_true _ _) Hk)|].
  eapply dspec_then; [by apply level_spec|]. intros _.
  destruct (screened_clean doc doc Hdoc (within_refl doc)) as [[_ Hd] Hpl]. destruct (Hpl Hk) as [Hpl' _].
  set (p0 := MkParsedJobs None newEnvValues ∅ None []).
  assert (parsed_ok p0) as H0.
  { split; cbn; [constructor| |done|apply empty_env_ok|done].
    intros id. rewrite lookup_empty. split; [by intros ?%elem_of_nil|by intros [? [=]]]. }
  eapply dspec_bind; [apply (spec_fields_spec _ [] p0 H0); [by left|done|by apply Hd|]|].
  - intros k v Hkv. apply (screened_clean doc); [done|]. by eapply within_pair; [apply within_refl|].
  - intros p Hp. apply dspec_ret; [by apply sort_ids_ok|]. intros Hcl. destruct Hcl as [Ha Hne]; [by intros ? ?|].
    split; [done|]. intros Hjobs. pose proof (Hne (or_intror Hjobs)) as Hids. cbn.
    intros Hnil. apply Hids. apply Permutation_nil. rewrite <-Hnil. apply merge_sort_Permutation.
Qed.
End Parsed.
