(* ===== verification/CiCycles.v ===== *)
(** * The search for cycles of needs (ci/jobs_compile.go [cycleDiagnostics])

    The depth-first search with an explicit stack stays within its bound, and it
    reports something exactly when the declared needs have a cycle. *)

From S2P Require Import Prelude Float64 Json Types Config Condition Graph GoTime Cron Keys Schema Validate ValidateSpec Ci CiJobs CiSpec.
From stdpp Require Import sorting relations.

#[local] Open Scope nat_scope.

Section Cycles.
Context (p : parsedJobs) (Hp : parsed_ok p).

Definition needs (id : string) : list string :=
  match pp_jobs p !! id with Some job => pj_needs job | None => [] end.
Definition known (id : string) : Prop := is_Some (pp_jobs p !! id).

(** [b] is a declared need of [a]. *)
Definition needed (a b : string) : Prop := b ∈ needs a ∧ known b.
Definition needs_acyclic : Prop := ∀ a, ¬ tc needed a a.

Lemma needs_of_known id : known id → needs_of p id = Ret (needs id).
Proof using Hp. intros [job Hj]. unfold needs_of, needs. by rewrite Hj. Qed.

(** ** The bound *)

Definition cost (id : string) : nat := S (length (needs id)).
Definition white_cost_of (colors : gmap string color) (id : string) : nat :=
  match color_of colors id with White => cost id | _ => 0 end.
Definition white_cost (colors : gmap string color) : nat := sum_list (white_cost_of colors <$> pp_ids p).
Definition frame_cost (f : dfsFrame) : nat := cost (fr_id f) - fr_next f.
Definition budget (colors : gmap string color) (stack : list dfsFrame) : nat :=
  white_cost colors + sum_list (frame_cost <$> stack).

Lemma color_insert colors id c id' :
  color_of (<[id := c]> colors) id' = if decide (id = id') then c else color_of colors id'.
Proof using Hp. unfold color_of. rewrite lookup_insert. by case_decide. Qed.

Lemma sum_update (f g : string → nat) x l :
  NoDup l → x ∈ l → (∀ z, z ≠ x → f z = g z) →
  sum_list (f <$> l) + g x = sum_list (g <$> l) + f x.
Proof using Hp.
  intros Hnd Hx Hfg. induction Hnd as [|z l Hz _ IH]; [by apply elem_of_nil in Hx|]. csimpl.
  apply elem_of_cons in Hx as [->|Hx].
  - enough (sum_list (f <$> l) = sum_list (g <$> l)) by lia. f_equal. apply list_fmap_ext.
    intros i z' Hz'%list_elem_of_lookup_2. apply Hfg. by intros ->.
  - specialize (IH Hx). rewrite (Hfg z) by (by intros ->). lia.
Qed.

Lemma white_gray colors id :
  known id → color_of colors id = White → white_cost (<[id := Gray]> colors) + cost id = white_cost colors.
Proof using Hp.
  intros Hk Hw. unfold white_cost.
  assert (white_cost_of colors id = cost id) as H1 by (unfold white_cost_of; by rewrite Hw).
  assert (white_cost_of (<[id := Gray]> colors) id = 0) as H2.
  { unfold white_cost_of. by rewrite color_insert, decide_True by done. }
  rewrite <-H1, (sum_update _ (white_cost_of colors) id), H2; [lia|apply Hp|by apply (po_ids _ Hp)|].
  intros z Hz. unfold white_cost_of. by rewrite color_insert, decide_False by done.
Qed.

Lemma white_black colors id : color_of colors id = Gray → white_cost (<[id := Black]> colors) = white_cost colors.
Proof using Hp.
  intros Hg. unfold white_cost. f_equal. apply list_fmap_ext. intros i z _. unfold white_cost_of.
  rewrite color_insert. case_decide; [subst; by rewrite Hg|done].
Qed.

(** ** The invariant *)

(** From each frame to the one above it a need was followed. *)
Fixpoint linked (stack : list dfsFrame) : Prop :=
  match stack with
  | f :: (g :: _) as below => needed (fr_id g) (fr_id f) ∧ linked below
  | _ => True
  end.

Record search_ok (colors : gmap string color) (stack : list dfsFrame) : Prop := {
  so_nodup : NoDup (fr_id <$> stack);
  so_gray : ∀ id, color_of colors id = Gray ↔ id ∈ fr_id <$> stack;
  so_known : ∀ id, color_of colors id ≠ White → known id;
  so_linked : linked stack;
  so_next : ∀ f, f ∈ stack → fr_next f ≤ length (needs (fr_id f));
}.

(** Finished jobs, newest first: each after the jobs it needs. *)
Fixpoint finished (fin : list string) : Prop :=
  match fin with
  | [] => True
  | id :: older => (∀ w, needed id w → w ∈ older) ∧ finished older
  end.

(** The followed needs of a frame are finished, or the job above it. *)
Fixpoint followed (fin : list string) (above : option string) (stack : list dfsFrame) : Prop :=
  match stack with
  | [] => True
  | f :: below =>
      (∀ i w, i < fr_next f → needs (fr_id f) !! i = Some w → known w → w ∈ fin ∨ above = Some w) ∧
      followed fin (Some (fr_id f)) below
  end.

Definition order_ok (colors : gmap string color) (stack : list dfsFrame) (fin : list string) : Prop :=
  (∀ id, color_of colors id = Black ↔ id ∈ fin) ∧ finished fin ∧ followed fin None stack.

Lemma followed_mono fin fin' above stack :
  (∀ x, x ∈ fin → x ∈ fin') → (∀ x, above = Some x → x ∈ fin') →
  followed fin above stack → followed fin' None stack.
Proof using Hp.
  intros Hf Ha. destruct stack as [|f below]; [done|]. intros [H1 H2]. split.
  - intros i w Hi Hw Hk. left. destruct (H1 i w Hi Hw Hk); auto.
  - clear H1 Ha. revert f H2. induction below as [|g below IH]; intros f; [done|]. intros [H1 H2].
    split; [|by apply IH]. intros i w Hi Hw Hk. destruct (H1 i w Hi Hw Hk); auto.
Qed.

Lemma linked_path stack f below :
  stack = f :: below → linked stack → ∀ g, g ∈ below → tc needed (fr_id g) (fr_id f).
Proof using Hp.
  revert f below. induction stack as [|f' stack IH]; intros f below [= -> ->].
  destruct below as [|g' below]; [by intros _ g ?%elem_of_nil|]. intros [Hl Hl'] g [->|Hg]%elem_of_cons.
  - by constructor.
  - eapply tc_r; [|exact Hl]. by apply (IH g' below).
Qed.

(** A need that closes a cycle. *)
Lemma back_edge colors f below need :
  search_ok colors (f :: below) → needed (fr_id f) need → color_of colors need = Gray → ¬ needs_acyclic.
Proof using Hp.
  intros Hs Hn Hg Hac. apply (so_gray _ _ Hs) in Hg. apply list_elem_of_fmap in Hg as (g & -> & Hg).
  apply elem_of_cons in Hg as [->|Hg]; [by apply (Hac (fr_id f)); constructor|].
  apply (Hac (fr_id f)). eapply tc_l; [exact Hn|]. by eapply linked_path; [done|apply Hs|].
Qed.

(** ** Steps of the search *)

Lemma pop_ok colors f below :
  search_ok colors (f :: below) → search_ok (<[fr_id f := Black]> colors) below.
Proof using Hp.
  intros [H1 H2 H3 H4 H5]. csimpl in *. apply NoDup_cons in H1 as [Hf H1].
  split; [done| | |by destruct below as [|? ?]; [|apply H4]|intros g Hg; apply H5; by right].
  - intros id. rewrite color_insert. case_decide as Heq.
    + subst. split; [done|]. intros ?. done.
    + rewrite H2. set_solver.
  - intros id. rewrite color_insert. case_decide as Heq; [|apply H3]. subst. intros _. apply H3.
    by rewrite (proj2 (H2 _)) by left.
Qed.

Lemma next_ok colors f below n :
  search_ok colors (f :: below) → n ≤ length (needs (fr_id f)) → search_ok colors (MkFrame (fr_id f) n :: below).
Proof using Hp.
  intros [H1 H2 H3 H4 H5] Hn. split; [done..|by destruct below as [|g below]|].
  intros g [->|Hg]%elem_of_cons; [done|]. apply H5. by right.
Qed.

Lemma push_ok colors f below need :
  search_ok colors (f :: below) → needed (fr_id f) need → color_of colors need = White →
  search_ok (<[need := Gray]> colors) (MkFrame need 0 :: f :: below).
Proof using Hp.
  intros [H1 H2 H3 H4 H5] Hn Hw. split.
  - csimpl. apply NoDup_cons. split; [|done]. intros Hin. apply H2 in Hin. congruence.
  - intros id. csimpl. rewrite color_insert. case_decide as Heq; [subst; set_solver|]. rewrite H2. set_solver.
  - intros id. rewrite color_insert. case_decide as Heq; [subst; intros _; apply Hn|apply H3].
  - by split.
  - intros g [->|Hg]%elem_of_cons; [cbn; lia|by apply H5].
Qed.

Lemma pop_order colors f below fin :
  search_ok colors (f :: below) → order_ok colors (f :: below) fin → length (needs (fr_id f)) ≤ fr_next f →
  order_ok (<[fr_id f := Black]> colors) below (fr_id f :: fin).
Proof using Hp.
  intros Hs (H1 & H2 & H3 & H4) Hlen. split_and!.
  - intros id. rewrite color_insert, elem_of_cons. case_decide as Heq; [subst; naive_solver|]. rewrite H1. naive_solver.
  - split; [|done]. intros w [Hw Hk]. apply list_elem_of_lookup in Hw as [i Hi].
    pose proof (lookup_lt_Some _ _ _ Hi). destruct (H3 i w) as [?|[=]]; [lia|done..].
  - eapply followed_mono; [| |exact H4]; [set_solver|]. intros x [= <-]. by left.
Qed.

Lemma next_order colors f below fin need :
  order_ok colors (f :: below) fin → needs (fr_id f) !! fr_next f = Some need → (known need → need ∈ fin) →
  order_ok colors (MkFrame (fr_id f) (S (fr_next f)) :: below) fin.
Proof using Hp.
  intros (H1 & H2 & H3 & H4) Hn Hin. split; [done|]. split; [done|]. split; [|done]. intros i w Hi Hw Hk. cbn in *.
  destruct (decide (i = fr_next f)) as [->|]; [left; rewrite Hn in Hw; injection Hw as ->; auto|]. apply (H3 i w); [lia|done|done].
Qed.

Lemma push_order colors f below fin need :
  order_ok colors (f :: below) fin → needs (fr_id f) !! fr_next f = Some need → color_of colors need = White →
  order_ok (<[need := Gray]> colors) (MkFrame need 0 :: MkFrame (fr_id f) (S (fr_next f)) :: below) fin.
Proof using Hp.
  intros (H1 & H2 & H3 & H4) Hn Hw. split; [|split; [done|split]].
  - intros id. rewrite color_insert. case_decide as Heq; [subst|by apply H1]. split; [done|]. intros Hin%H1. congruence.
  - intros i w Hi. cbn in Hi. lia.
  - split; [|done]. intros i w Hi Hw' Hk. cbn in *.
    destruct (decide (i = fr_next f)) as [->|]; [right; by rewrite Hn in Hw'|].
    destruct (H3 i w) as [?|[=]]; [lia|done|done|by left].
Qed.

Lemma cycle_diag_spec colors f below need :
  search_ok colors (f :: below) → needed (fr_id f) need → known need →
  dspec (cycleDiagnostic p (f :: below) need) any never.
Proof using Hp.
  intros Hs [Hn _] [job' Hk]. destruct (po_jobs _ Hp _ _ Hk) as [Hne _].
  apply dspec_assert; [by apply empty_str_false|].
  assert (known (fr_id f)) as [job Hj].
  { apply (so_known _ _ Hs). rewrite (proj2 (so_gray _ _ Hs _)); [done|]. by left. }
  unfold the_job. rewrite Hj. eapply dspec_bind; [by apply (dspec_of job (eq job) any)|]. intros j <-.
  unfold needs in Hn. rewrite Hj in Hn. destruct (po_jobs _ Hp _ _ Hj) as [_ Hw].
  destruct (jw_needs _ Hw) as [key Hkey]; [by destruct (pj_needs job); [apply elem_of_nil in Hn|]|].
  rewrite Hkey. eapply dspec_mono; [by apply diagAt_spec|done|done].
Qed.

(** ** The search *)

(** The result of a search: within the bound, nothing left gray, nothing reported
    without a cycle, and an order of the finished jobs when nothing is reported. *)
Definition searched (colors : gmap string color) (order : Prop) (diags : list Diagnostic)
    (r : outcome (nat * gmap string color * list Diagnostic)) : Prop :=
  ∃ left' colors' diags', r = Ret ((left', colors'), diags') ∧ capped diags' ∧ diags `prefix_of` diags' ∧
    (needs_acyclic → diags' = diags) ∧ search_ok colors' [] ∧ white_cost colors' ≤ left' ∧
    (∀ id, color_of colors id ≠ White → color_of colors' id ≠ White) ∧
    (diags' = [] → order → ∃ fin, order_ok colors' [] fin).

Lemma searched_weaken colors colors1 (order order1 : Prop) diags diags1 r :
  searched colors1 order1 diags1 r → diags `prefix_of` diags1 → (needs_acyclic → diags1 = diags) →
  (∀ id, color_of colors id ≠ White → color_of colors1 id ≠ White) → (diags1 = [] → order → order1) →
  searched colors order diags r.
Proof using Hp.
  intros (l & c & ds & Hr & Hc & Hpre & Hq & Hs & Hl & Hcol & Ho) Hpre1 Hq1 Hcol1 Ho1.
  exists l, c, ds. split_and!; [done|done|by etrans| |done|done|by auto|].
  - intros Hac. rewrite Hq, Hq1; done.
  - intros -> Hord. apply prefix_nil_inv in Hpre as ->. by apply Ho; [|apply Ho1].
Qed.

Lemma keeps_visited colors id c : c ≠ White → ∀ id', color_of colors id' ≠ White → color_of (<[id := c]> colors) id' ≠ White.
Proof using Hp. intros Hc id' H. rewrite color_insert. by case_decide. Qed.

Lemma frames_cons f below : sum_list (frame_cost <$> f :: below) = frame_cost f + sum_list (frame_cost <$> below).
Proof using Hp. done. Qed.

Lemma budget_pop colors f below :
  search_ok colors (f :: below) → fr_next f = length (needs (fr_id f)) →
  budget colors (f :: below) = S (budget (<[fr_id f := Black]> colors) below).
Proof using Hp.
  intros Hs Hn. unfold budget. rewrite frames_cons, white_black; [|apply (so_gray _ _ Hs); by left].
  assert (frame_cost f = 1) as -> by (unfold frame_cost, cost; lia). lia.
Qed.

Lemma budget_next colors f below :
  fr_next f < length (needs (fr_id f)) →
  budget colors (f :: below) = S (budget colors (MkFrame (fr_id f) (S (fr_next f)) :: below)).
Proof using Hp. intros Hn. unfold budget. rewrite !frames_cons. unfold frame_cost at 1 3, cost. cbn [fr_id fr_next]. lia. Qed.

Lemma budget_push colors f below need :
  known need → color_of colors need = White →
  budget (<[need := Gray]> colors) (MkFrame need 0 :: f :: below) = budget colors (f :: below).
Proof using Hp.
  intros Hk Hw. unfold budget. rewrite frames_cons. pose proof (white_gray _ _ Hk Hw).
  assert (frame_cost (MkFrame need 0) = cost need) as -> by apply Nat.sub_0_r. lia.
Qed.

Lemma dfs_spec left : ∀ colors stack diags,
  search_ok colors stack → budget colors stack ≤ left → capped diags →
  searched colors (∃ fin, order_ok colors stack fin) diags (dfs p left colors stack diags).
Proof using Hp.
  induction left as [|left IH]; intros colors [|f below] diags Hs Hb Hc.
  1, 3: (cbn [dfs]; eexists _, colors, diags; split_and!; try done; unfold budget in Hb; lia).
  { unfold budget in Hb. rewrite frames_cons in Hb. pose proof (so_next _ _ Hs f ltac:(by left)).
    unfold frame_cost at 1, cost in Hb. lia. }
  assert (known (fr_id f)) as Hkf by (apply (so_known _ _ Hs); rewrite (proj2 (so_gray _ _ Hs _)); [done|by left]).
  pose proof (so_next _ _ Hs f ltac:(by left)) as Hnx.
  cbn [dfs]. rewrite needs_of_known by done. unfold mbind at 1, dm_bind at 1, dm_of at 1. cbn [mbind outcome_bind].
  destruct (needs (fr_id f) !! fr_next f) as [need|] eqn:Hneed.
  2: { apply lookup_ge_None in Hneed. eapply searched_weaken.
    - apply IH; [by apply pop_ok| |done]. rewrite (budget_pop colors f below) in Hb; [lia|done|lia].
    - done.
    - done.
    - by apply keeps_visited.
    - intros _ [fin Hfin]. exists (fr_id f :: fin). by apply pop_order. }
  pose proof (lookup_lt_Some _ _ _ Hneed) as Hlt. rewrite budget_next in Hb by done.
  set (g := MkFrame (fr_id f) (S (fr_next f))) in *.
  assert (search_ok colors (g :: below)) as Hg by (apply (next_ok _ f); [done|lia]).
  destruct (pp_jobs p !! need) as [job|] eqn:Hjob.
  2: { eapply searched_weaken; [apply IH; [done|lia|done]|done..|]. intros _ [fin Hfin]. exists fin.
    eapply next_order; [done|done|]. intros [? ?]. congruence. }
  assert (known need) as Hk by by eexists.
  assert (needed (fr_id f) need) as Hnd by (split; [by apply list_elem_of_lookup_2 in Hneed|done]).
  destruct (color_of colors need) eqn:Hcol.
  - eapply searched_weaken; [apply IH; [by apply push_ok| |done]|done|done|by apply keeps_visited|].
    + rewrite budget_push by done. lia.
    + intros _ [fin Hfin]. exists fin. by apply push_order.
  - destruct (cycle_diag_spec colors g below need Hg Hnd Hk diags Hc) as (u & ds & Hd & Hc' & Hpre & _ & Hne).
    unfold mbind, dm_bind. rewrite Hd. eapply searched_weaken; [apply IH; [done|lia|done]|done| |done|].
    + intros Hac. by destruct (back_edge colors g below need).
    + intros Hnil. by destruct (Hne Hnil).
  - eapply searched_weaken; [apply IH; [done|lia|done]|done..|]. intros _ [fin Hfin]. exists fin.
    eapply next_order; [done|done|]. intros _. by apply Hfin.
Qed.

Lemma dfs_roots_spec roots : ∀ left colors diags,
  search_ok colors [] → white_cost colors ≤ left → capped diags → (∀ r, r ∈ roots → known r) →
  ∃ diags', dfs_roots p left colors roots diags = Ret (tt, diags') ∧ capped diags' ∧ diags `prefix_of` diags' ∧
    (needs_acyclic → diags' = diags) ∧
    (diags' = [] → (∃ fin, order_ok colors [] fin) → ∃ fin, finished fin ∧
       ∀ id, id ∈ roots ∨ color_of colors id ≠ White → id ∈ fin).
Proof using Hp.
  assert (∀ colors id, search_ok colors [] → color_of colors id ≠ White → color_of colors id = Black) as Hblack.
  { intros colors id Hs Hw. destruct (color_of colors id) eqn:Hc; [done| |done].
    apply (so_gray _ _ Hs) in Hc. by apply elem_of_nil in Hc. }
  induction roots as [|root roots IH]; intros left colors diags Hs Hl Hc Hr; cbn [dfs_roots].
  { exists diags. split_and!; [done..|]. intros _ [fin (H1 & H2 & _)]. exists fin. split; [done|].
    intros id [?%elem_of_nil|Hid]; [done|]. by apply H1, Hblack. }
  assert (∀ r, r ∈ roots → known r) as Hr' by (intros r ?; apply Hr; by right).
  assert (known root) as Hk by (apply Hr; by left).
  destruct (color_of colors root) eqn:Hcol.
  2, 3: (destruct (IH left colors diags) as (ds & H1 & H2 & H3 & H4 & H5); [done..|];
    exists ds; split_and!; [done..|]; intros Hnil Ho; destruct (H5 Hnil Ho) as (fin & Hf & Hin); exists fin;
    split; [done|]; intros id [[->|?]%elem_of_cons|?]; apply Hin; [right; congruence|by left|by right]).
  destruct (dfs_spec left (<[root := Gray]> colors) [MkFrame root 0] diags) as (l & c & ds & Hd & Hc' & Hpre & Hq & Hs' & Hl' & Hcol' & Ho).
  - split; csimpl; [apply NoDup_singleton| | |done|].
    + intros id. rewrite color_insert, list_elem_of_singleton. case_decide as Heq; [subst; done|].
      split; [intros Hg%(so_gray _ _ Hs); by apply elem_of_nil in Hg|by intros ->].
    + intros id. rewrite color_insert. case_decide; [by subst|apply Hs].
    + intros f ->%list_elem_of_singleton. cbn. lia.
  - unfold budget. rewrite frames_cons. change (sum_list (frame_cost <$> [])) with 0. pose proof (white_gray _ _ Hk Hcol).
    assert (frame_cost (MkFrame root 0) = cost root) as -> by apply Nat.sub_0_r. lia.
  - done.
  - unfold mbind, dm_bind. rewrite Hd.
    destruct (IH l c ds) as (ds' & H1 & H2 & H3 & H4 & H5); [done..|]. exists ds'. split_and!; [done|done|by etrans| |].
    + intros Hac. rewrite H4, Hq; done.
    + intros Hnil [fin (F1 & F2 & _)]. subst. apply prefix_nil_inv in H3 as ->.
      destruct (H5 eq_refl) as (fin' & Hf' & Hin).
      { apply Ho; [done|]. exists fin. split; [|split; [done|]].
        - intros id. rewrite color_insert. case_decide as Heq; [subst|by apply F1]. split; [done|]. intros Hin%F1. congruence.
        - split; [|done]. intros i w Hi. cbn in Hi. lia. }
      exists fin'. split; [done|].
      intros id [[->|?]%elem_of_cons|Hid]; apply Hin; [right|by left|right]; apply Hcol'.
      * rewrite color_insert. by rewrite decide_True.
      * by apply keeps_visited.
Qed.

(** An order in which each job comes after what it needs leaves no cycle. *)
Lemma acc_no_cycle a : Acc (flip needed) a → ¬ tc needed a a.
Proof using Hp.
  induction 1 as [a _ IH]. intros Ht. inversion Ht as [? ? Hn|? c ? Hn Hc]; subst; [by apply (IH a)|].
  apply (IH c Hn). by eapply tc_r.
Qed.

Lemma finished_acyclic fin : finished fin → (∀ id, known id → id ∈ fin) → needs_acyclic.
Proof using Hp.
  intros Hf Hall a Ht.
  assert (∀ fin, finished fin → ∀ a, a ∈ fin → Acc (flip needed) a) as Hacc.
  { clear. induction fin as [|x fin IH]; [by intros _ a ?%elem_of_nil|]. intros [Hx Hfin] a [->|Ha]%elem_of_cons; [|by apply IH].
    constructor. intros w Hw. by apply IH, Hx. }
  assert (known a) as Hk.
  { inversion Ht as [? ? [Hn _]|? c ? [Hn _] _]; subst; unfold needs in Hn;
      (destruct (pp_jobs p !! a) eqn:Hj; [by eexists|by apply elem_of_nil in Hn]). }
  by apply (acc_no_cycle a); [eapply Hacc; [done|by apply Hall]|].
Qed.

Lemma count_edges_spec ids :
  (∀ id, id ∈ ids → known id) → ∃ n, count_edges p ids = Ret n ∧ sum_list (cost <$> ids) = length ids + n.
Proof using Hp.
  induction ids as [|id ids IH]; intros Hk; [by exists 0|]. destruct IH as (n & Hn & Hs); [intros; apply Hk; by right|].
  exists (length (needs id) + n). cbn [count_edges]. rewrite needs_of_known by (apply Hk; by left). cbn. rewrite Hn. cbn.
  split; [done|]. change (sum_list_with (λ x, x) (cost <$> ids)) with (sum_list (cost <$> ids)). rewrite Hs. unfold cost. lia.
Qed.

(** The search returns, and without a report exactly when the needs have no
    cycle. *)
Lemma cycles_spec diags :
  capped diags → ∃ diags', cycleDiagnostics p diags = Ret (tt, diags') ∧ capped diags' ∧ diags `prefix_of` diags' ∧
    (needs_acyclic → diags' = diags) ∧ (diags' = [] → needs_acyclic).
Proof using Hp.
  intros Hc. assert (∀ id, id ∈ pp_ids p → known id) as Hk by (intros id; apply (po_ids _ Hp)).
  destruct (count_edges_spec (pp_ids p) Hk) as (n & Hn & Hcost).
  unfold cycleDiagnostics, mbind, dm_bind, dm_of. rewrite Hn. cbn [mbind outcome_bind].
  destruct (dfs_roots_spec (pp_ids p) (2 * (length (pp_ids p) + n) + 1) ∅ diags) as (ds & H1 & H2 & H3 & H4 & H5).
  - split; csimpl; [constructor| |done|done|by intros f ?%elem_of_nil].
    intros id. unfold color_of. rewrite lookup_empty. by split; [|intros ?%elem_of_nil].
  - assert (white_cost ∅ = sum_list (cost <$> pp_ids p)) as -> by done. lia.
  - done.
  - done.
  - exists ds. split_and!; [done..|]. intros Hnil. destruct (H5 Hnil) as (fin & Hf & Hin).
    { exists []. split; [|done]. intros id. unfold color_of. rewrite lookup_empty. split; [done|by intros ?%elem_of_nil]. }
    apply (finished_acyclic fin); [done|]. intros id Hid. apply Hin. left. by apply (po_ids _ Hp).
Qed.
End Cycles.
