(* ===== verification/CiBuild.v ===== *)
(** * The workflow of a clean specification with jobs

    The checks across jobs return on every parsed document, and a document that
    passes them compiles to a workflow the engine accepts. *)

From S2P Require Import Prelude Float64 Json Types Config Condition Graph GoTime Cron Keys Schema Validate ValidateSpec Ci CiJobs CiSpec CiCycles.
From stdpp Require Import sorting relations.
From Stdlib Require Import Ascii.

#[local] Open Scope Z_scope.

Lemma ids_size p : parsed_ok p → same_jobs p = true.
Proof.
  intros [H1 H2 _ _ _]. apply bool_decide_eq_true. rewrite <-size_dom.
  assert (dom (pp_jobs p) = list_to_set (C := gset string) (pp_ids p)) as ->.
  { apply set_eq. intros id. rewrite elem_of_dom, elem_of_list_to_set. by rewrite H2. }
  by rewrite size_list_to_set.
Qed.

Lemma the_job_spec p id job : pp_jobs p !! id = Some job → dspec (the_job p id) (eq job) any.
Proof. intros Hj. unfold the_job. rewrite Hj. by apply dspec_of. Qed.

Lemma needs_diag_spec p :
  parsed_ok p → dspec (needsDiagnostics p) any (λ _, ∀ id need, id ∈ pp_ids p → need ∈ needs p id → need ∈ pp_ids p).
Proof.
  intros Hp. apply dspec_assert; [by rewrite ids_size|].
  eapply dspec_mono; [apply (each_spec _ (λ id, ∀ need, need ∈ needs p id → need ∈ pp_ids p))|done|intros u _ Hall id need Hid; by apply Hall].
  intros id Hid. apply (po_ids _ Hp) in Hid as [job Hj]. eapply dspec_bind; [by apply the_job_spec|]. intros j <-.
  eapply dspec_mono; [apply (each_spec _ (λ need, need ∈ pp_ids p))|done|].
  - intros need Hn. case_bool_decide; [by apply dspec_ret|]. destruct (po_jobs _ Hp _ _ Hj) as [_ Hw].
    destruct (jw_needs _ Hw) as [key ->]; [by destruct (pj_needs job); [apply elem_of_nil in Hn|]|].
    eapply dspec_mono; [by apply diagAt_spec|done|done].
  - intros u _ Hall _ need Hn. unfold needs in Hn. rewrite Hj in Hn. by apply Hall.
Qed.

Definition namespace_ok (namespace : string) : Prop :=
  namespace ≠ "" ∧ task_type_ok namespace ∧ str_contains_char "." namespace = false ∧
  task_type_ok (namespace +:+ "." +:+ jobTaskSuffix).

Lemma namespace_spec namespace : dspec (namespaceDiagnostics namespace) any (λ _, namespace_ok namespace).
Proof.
  eapply dspec_bind; [apply dspec_count|]. intros n Hn. apply dspec_assert; [by apply bool_decide_eq_false, Nat.nlt_ge|].
  assert (∀ d Ψ, dspec (report d) any Ψ) as Hrep by (intros d Ψ; eapply dspec_mono; [apply report_spec|done|done]).
  destruct (empty_str namespace) eqn:He; [apply Hrep|]. apply empty_str_false in He. cbv zeta.
  destruct (ValidWorkerGroup namespace) as [[]|e|msg] eqn:Hg; [|apply Hrep|].
  2: { exfalso. unfold ValidWorkerGroup in Hg. pose proof (ValidTaskType_no_panic namespace) as Hp.
    destruct (ValidTaskType namespace); [|done..]. by destruct (str_contains_char _ _). }
  unfold ValidWorkerGroup in Hg. rewrite bind_unit_ret_iff, fail_if_ret_iff, ValidTaskType_iff in Hg. destruct Hg as [Hg1 Hg2].
  destruct (ValidTaskType _) as [[]|e|msg] eqn:Ht; [|apply Hrep|].
  2: { exfalso. pose proof (ValidTaskType_no_panic (namespace +:+ "." +:+ jobTaskSuffix)) as Hp. by rewrite Ht in Hp. }
  apply ValidTaskType_iff in Ht. rewrite Hg2. by apply dspec_of.
Qed.

Lemma cycle_spec p : parsed_ok p → dspec (cycleDiagnostics p) any (λ _, needs_acyclic p).
Proof.
  intros Hp diags Hc. destruct (cycles_spec p Hp diags Hc) as (ds & ? & ? & ? & _ & ?). by exists tt, ds.
Qed.

(** ** Secrets *)

(** No variable is a secret at one level of the job and plain at another. *)
Definition conflict_free (p : parsedJobs) (job : parsedJob) : Prop :=
  ∀ l l' k, l ∈ job_levels p job → l' ∈ job_levels p job → is_Some (ev_plain l !! k) → k ∉ ev_secretNames l'.

Lemma sortedKeys_elem m k : k ∈ sortedKeys m ↔ is_Some (m !! k).
Proof.
  unfold sortedKeys. rewrite merge_sort_Permutation, list_elem_of_fmap. split.
  - intros ([k' v] & -> & Hk%elem_of_map_to_list). by eexists.
  - intros [v Hv]. exists (k, v). by rewrite elem_of_map_to_list.
Qed.

Lemma job_secrets_elem p job k : k ∈ job_secrets p job ↔ ∃ l, l ∈ job_levels p job ∧ k ∈ ev_secretNames l.
Proof.
  unfold job_secrets. rewrite elem_of_union_list. split.
  - intros (X & (l & -> & Hl)%list_elem_of_fmap & Hk). eauto.
  - intros (l & Hl & Hk). exists (ev_secretNames l). split; [|done]. by apply list_elem_of_fmap_2.
Qed.

Lemma levels_ok p id job : parsed_ok p → pp_jobs p !! id = Some job → ∀ l, l ∈ job_levels p job → env_ok l.
Proof.
  intros Hp Hj l. destruct (po_jobs _ Hp _ _ Hj) as [_ Hw]. unfold job_levels.
  intros [->|[->|(s & -> & Hs)%list_elem_of_fmap]%elem_of_cons]%elem_of_cons; [apply Hp|apply Hw|by apply (jw_steps _ Hw)].
Qed.

Lemma conflicts_spec p id job :
  (∀ l, l ∈ job_levels p job → env_ok l) →
  dspec (job_conflicts p id job) (λ c, c = false → conflict_free p job) (λ c, c = false).
Proof.
  intros Henv. unfold job_conflicts. cbv zeta.
  eapply (dspec_bind _ _ any (λ _, ∀ l, l ∈ job_levels p job → ∀ k, k ∈ sortedKeys (ev_plain l) → k ∉ job_secrets p job)).
  - apply each_spec. intros l Hl. eapply dspec_mono; [apply (each_spec _ (λ k, k ∉ job_secrets p job))|done|by auto].
    intros k Hk. case_bool_decide as Hs; [|by apply dspec_ret].
    apply sortedKeys_elem in Hk. destruct (Henv l Hl k Hk) as [n ->]. eapply dspec_mono; [by apply diagAt_spec|done|done].
  - intros u _. apply dspec_ret.
    + intros Hex l l' k Hl Hl' Hk Hsec. rewrite <-not_true_iff_false in Hex. apply Hex.
      apply existsb_exists. exists l. split; [by apply list_elem_of_In|]. apply existsb_exists. exists k.
      split; [by apply list_elem_of_In, sortedKeys_elem|]. apply bool_decide_eq_true, job_secrets_elem. eauto.
    + intros Hall. apply not_true_iff_false. rewrite existsb_exists. intros (l & Hl & Hex).
      apply existsb_exists in Hex as (k & Hk & Hs%bool_decide_eq_true). apply list_elem_of_In in Hl, Hk. by apply (Hall l Hl k).
Qed.

(** The same jobs, some of them no longer ok. *)
Record demoted (p p' : parsedJobs) : Prop := {
  de_on : pp_on p' = pp_on p;
  de_env : pp_env p' = pp_env p;
  de_key : pp_jobsKey p' = pp_jobsKey p;
  de_ids : pp_ids p' = pp_ids p;
  de_jobs : ∀ id, pp_jobs p' !! id = pp_jobs p !! id ∨
    ∃ job, pp_jobs p !! id = Some job ∧ pp_jobs p' !! id = Some (pj_set_ok false job);
}.

Lemma demoted_job p p' id job' :
  demoted p p' → pp_jobs p' !! id = Some job' → ∃ job, pp_jobs p !! id = Some job ∧ (job' = job ∨ job' = pj_set_ok false job).
Proof.
  intros [_ _ _ _ Hd] Hj. destruct (Hd id) as [Heq|(job & H1 & H2)]; [exists job'; split; [congruence|by left]|].
  exists job. split; [done|]. right. congruence.
Qed.

Lemma demoted_ok p p' : demoted p p' → parsed_ok p → parsed_ok p'.
Proof.
  intros Hd Hp. pose proof Hd as [H1 H2 H3 H4 H5]. split; rewrite ?H2, ?H3, ?H4; try apply Hp.
  - intros id. rewrite (po_ids _ Hp). destruct (H5 id) as [->|(job & -> & ->)]; [done|]. split; by eexists.
  - intros id job' Hj. destruct (demoted_job _ _ _ _ Hd Hj) as (job & Hj0 & Hor).
    destruct (po_jobs _ Hp _ _ Hj0) as [? Hw]. split; [done|]. destruct Hor as [-> | ->]; [done|]. destruct Hw. by destruct job.
Qed.

Lemma levels_env p p' job : pp_env p' = pp_env p → job_levels p' job = job_levels p job.
Proof. intros H. unfold job_levels. by rewrite H. Qed.

Lemma conflicts_loop_spec ids : ∀ p,
  parsed_ok p → (∀ id, id ∈ ids → id ∈ pp_ids p) →
  dspec (conflicts_loop p ids)
    (λ p', demoted p p' ∧ ∀ id job, id ∈ ids → pp_jobs p' !! id = Some job → pj_ok job = true → conflict_free p' job)
    (λ p', p' = p).
Proof.
  induction ids as [|id ids IH]; intros p Hp Hids; cbn [conflicts_loop].
  { apply dspec_ret; [|done]. split; [split; auto|]. by intros id job ?%elem_of_nil. }
  assert (id ∈ pp_ids p) as [job Hj]%(po_ids _ Hp) by (apply Hids; by left).
  eapply dspec_bind; [by apply the_job_spec|]. intros j <-.
  eapply dspec_bind; [apply conflicts_spec; by eapply levels_ok|]. intros c Hc.
  set (p1 := if c then _ else p).
  assert (demoted p p1) as Hd.
  { subst p1. destruct c; [|split; auto]. split; cbn; [done..|]. intros id'. rewrite lookup_insert.
    case_decide as Heq; [subst; right; eauto|by left]. }
  eapply dspec_mono; [apply IH; [by eapply demoted_ok|]|..].
  - intros id' Hid'. rewrite (de_ids _ _ Hd). apply Hids. by right.
  - intros p' [Hd' Hfree]. split.
    + split; [rewrite (de_on _ _ Hd'); apply Hd|rewrite (de_env _ _ Hd'); apply Hd|rewrite (de_key _ _ Hd'); apply Hd|
              rewrite (de_ids _ _ Hd'); apply Hd|].
      intros id'. destruct (de_jobs _ _ Hd' id') as [->|(job1 & H1 & ->)]; [apply (de_jobs _ _ Hd)|].
      right. destruct (demoted_job _ _ _ _ Hd H1) as (job0 & H0 & [-> | ->]); [eauto|]. exists job0. split; [done|]. by destruct job0.
    + intros id' job' [->|Hin]%elem_of_cons Hj' Hok; [|by eapply Hfree].
      destruct (demoted_job _ _ _ _ Hd' Hj') as (job1 & H1 & [-> | ->]); [|by destruct job1].
      intros l l' k. rewrite (levels_env p1 p' job1) by apply Hd'. rewrite (levels_env p p1 job1) by apply Hd.
      subst p1. destruct c.
      * cbn in H1. rewrite lookup_insert, decide_True in H1 by done. injection H1 as <-. by destruct job.
      * rewrite Hj in H1. injection H1 as <-. by apply Hc.
  - intros p' _ -> -> _. done.
Qed.

(** ** Payloads *)

Lemma payload_ret p job :
  conflict_free p job → ∃ payload, buildJobPayload p job = Ret payload ∧
    ∀ k, k ∈ jy_Secrets payload → jy_Env payload !! k = None.
Proof.
  intros Hfree. unfold buildJobPayload. cbv zeta.
  set (env := ev_plain (pj_env job) ∪ ev_plain (pp_env p)). set (names := ev_secretNames (pp_env p) ∪ ev_secretNames (pj_env job)).
  assert (∀ k, k ∈ names → env !! k = None) as Hdis.
  { intros k Hk. destruct (env !! k) as [v|] eqn:Hv; [|done]. exfalso.
    assert (∃ l, l ∈ job_levels p job ∧ is_Some (ev_plain l !! k)) as (l & Hl & Hp).
    { apply lookup_union_Some_raw in Hv as [Hv|[_ Hv]].
      - exists (pj_env job). split; [right; by left|by eexists].
      - exists (pp_env p). split; [by left|by eexists]. }
    apply elem_of_union in Hk as [Hk|Hk].
    - exact (Hfree l (pp_env p) k Hl ltac:(by left) Hp Hk).
    - exact (Hfree l (pj_env job) k Hl ltac:(right; by left) Hp Hk). }
  destruct (existsb _ (elements names)) eqn:Hex.
  - apply existsb_exists in Hex as (k & Hk%list_elem_of_In & Hs%bool_decide_eq_true). apply elem_of_elements in Hk.
    rewrite Hdis in Hs by done. by destruct Hs.
  - eexists. split; [done|]. cbn. intros k. unfold sorted_names. rewrite merge_sort_Permutation, elem_of_elements. apply Hdis.
Qed.

Section Build.
Context (encode : json → string) (def_bytes : WorkflowDef → Z).

Lemma large_spec p : is_Some (pp_jobsKey p) → dspec (defTooLarge p) any never.
Proof. intros [k Hk]. unfold defTooLarge. rewrite Hk. apply dspec_assert; [done|]. by apply diagAt_spec. Qed.

Definition payload_at (p : parsedJobs) (m : gmap string string) (id : string) : Prop :=
  ∃ job payload, pp_jobs p !! id = Some job ∧ buildJobPayload p job = Ret payload ∧
    m !! id = Some (encode (payload_json payload)) ∧ ∀ k, k ∈ jy_Secrets payload → jy_Env payload !! k = None.

Lemma payloads_spec p ids : parsed_ok p → (∀ id, id ∈ ids → id ∈ pp_ids p) →
  (∀ id job, pp_jobs p !! id = Some job → pj_ok job = true → conflict_free p job) → ∀ total m,
  NoDup ids → (∀ id, id ∈ ids → m !! id = None) →
  dspec (payloads_loop encode p total m ids) any
    (λ m', all_ok p → (∀ id, id ∈ ids → payload_at p m' id) ∧ (∀ id, id ∉ ids → m' !! id = m !! id)).
Proof.
  intros Hp. induction ids as [|id ids IH]; intros Hids Hfree total m Hnd Hm; cbn [payloads_loop].
  { apply dspec_ret; [done|]. intros _. split; [by intros id ?%elem_of_nil|done]. }
  assert (id ∈ pp_ids p) as Hid by (apply Hids; by left). pose proof Hid as [job Hj]%(po_ids _ Hp).
  assert (∀ id, id ∈ ids → id ∈ pp_ids p) as Hids' by (intros; apply Hids; by right).
  apply NoDup_cons in Hnd as [Hnin Hnd].
  assert (∀ id, id ∈ ids → m !! id = None) as Hm' by (intros; apply Hm; by right).
  rewrite Hj. eapply dspec_bind; [by apply (dspec_ret job (eq job) any)|]. intros j <-.
  eapply dspec_bind; [apply dspec_count|]. intros n _.
  destruct (negb (pj_ok job) || _) eqn:Hskip.
  { eapply dspec_mono; [by apply IH|done|]. intros m' _ _ -> _ Hall. apply orb_true_iff in Hskip as [Ho|Hn].
    - by rewrite (Hall id job Hj) in Ho.
    - by apply bool_decide_eq_true, Nat.nle_succ_0 in Hn. }
  apply orb_false_iff in Hskip as [Hok%negb_false_iff _].
  destruct (payload_ret p job (Hfree id job Hj Hok)) as (payload & Hpay & Hsec). rewrite Hpay.
  eapply dspec_bind; [by apply (dspec_of payload (eq payload) any)|]. intros pl <-. cbv zeta.
  destruct (_ <? _).
  { apply dspec_reported; [by apply diagAt_spec|]. intros _. eapply dspec_mono; [by apply IH|done|done]. }
  destruct (_ <? _).
  { apply dspec_reported; [apply large_spec, (po_key _ Hp)|intros _; by apply dspec_ret].
    by destruct (pp_ids p); [apply elem_of_nil in Hid|]. }
  eapply dspec_mono; [apply IH; [done..|]|done|].
  - intros id' Hid'. rewrite lookup_insert. case_decide; [by subst|by apply Hm'].
  - intros m' _ Hm2 _ _ _ Hall. destruct (Hm2 Hall) as [H1 H2]. split.
    + intros id' [->|?]%elem_of_cons; [|by apply H1]. exists job, payload. split_and!; [done..| |done].
      rewrite H2 by done. rewrite lookup_insert. by rewrite decide_True.
    + intros id' Hn. rewrite H2 by set_solver. rewrite lookup_insert. case_decide; [subst; set_solver|done].
Qed.

(** ** Clean specifications *)

Record clean (namespace : string) (p : parsedJobs) (m : gmap string string) : Prop := {
  cl_parsed : parsed_ok p;
  cl_ok : all_ok p;
  cl_ids : pp_ids p ≠ [];
  cl_needs : ∀ id need, id ∈ pp_ids p → need ∈ needs p id → need ∈ pp_ids p;
  cl_acyclic : needs_acyclic p;
  cl_namespace : namespace_ok namespace;
  cl_payloads : ∀ id, id ∈ pp_ids p → payload_at p m id;
  cl_dom : ∀ id, id ∉ pp_ids p → m !! id = None;
}.

Lemma check_spec y encode_events doc namespace :
  n_Kind doc = MappingNode → screened_doc doc → "jobs" ∈ n_Value ∘ fst <$> pairs (n_Content doc) →
  dspec (check_jobs encode y encode_events doc namespace) any (λ r, clean namespace r.1 r.2).
Proof.
  intros Hk Hdoc Hjobs. eapply dspec_bind; [by apply parse_spec|]. intros p Hp.
  eapply dspec_bind; [apply namespace_spec|]. intros u1 _.
  eapply dspec_bind; [by apply needs_diag_spec|]. intros u2 _.
  eapply dspec_bind; [by apply cycle_spec|]. intros u3 _.
  eapply dspec_bind.
  { apply dspec_assert; [by rewrite ids_size|]. by apply conflicts_loop_spec. }
  intros p' [Hd Hfree]. pose proof (demoted_ok _ _ Hd Hp) as Hp'.
  eapply dspec_bind; [apply (payloads_spec p' (pp_ids p')); [done|done| |by apply Hp'|]|].
  - intros id job Hj. apply (Hfree id); [|done]. rewrite <-(de_ids _ _ Hd). apply (po_ids _ Hp'). by eexists.
  - intros id _. apply lookup_empty.
  - intros m _. apply dspec_ret; [done|]. cbn. intros Hm -> Hac Hn Hns [Hall Hne].
    destruct (Hm Hall) as [H1 H2]. by split; auto.
Qed.

Definition job_retry (retries : Z) : option RetryPolicy :=
  if retries =? 0 then None else Some (MkRetryPolicy retries RetryFixed (5 * Second) (5 * Second) f64_zero).

(** The step of a job. *)
Definition step_of (p : parsedJobs) (m : gmap string string) (namespace id : string) : StepDef :=
  match pp_jobs p !! id with
  | Some job =>
      set_metadata {[jobMetadataKey := default "" (m !! id)]}
        (set_dispatch (pj_timeout job) (pj_needs job) (job_retry (pj_retries job)) namespace
           (step_def id (namespace +:+ "." +:+ jobTaskSuffix) StepTypeNormal))
  | None => zero_StepDef
  end.

Lemma steps_ret namespace p m :
  clean namespace p m → buildJobSteps p m namespace = Ret (step_of p m namespace <$> pp_ids p).
Proof.
  intros Hcl. pose proof (cl_parsed _ _ _ Hcl) as Hp. unfold buildJobSteps.
  assert (size m = length (pp_ids p)) as Hsize.
  { rewrite <-size_dom. assert (dom m = list_to_set (C := gset string) (pp_ids p)) as ->; [|apply size_list_to_set, Hp].
    apply set_eq. intros id. rewrite elem_of_dom, elem_of_list_to_set. split.
    - intros [v Hv]. destruct (decide (id ∈ pp_ids p)) as [|Hn]; [done|]. by rewrite (cl_dom _ _ _ Hcl) in Hv.
    - intros Hid. destruct (cl_payloads _ _ _ Hcl id Hid) as (? & ? & _ & _ & ? & _). by eexists. }
  rewrite bool_decide_eq_true_2 by done. cbn [negb panic_if mbind outcome_bind].
  rewrite (proj2 (empty_str_false namespace)) by apply (cl_namespace _ _ _ Hcl). cbn [panic_if mbind outcome_bind].
  assert (∀ id, id ∈ pp_ids p → is_Some (pp_jobs p !! id)) as Hk by (intros id; apply (po_ids _ Hp)).
  revert Hk. generalize (pp_ids p) as ids. induction ids as [|id ids IH]; intros Hk; [done|]. cbn [job_steps].
  destruct (Hk id) as [job Hj]; [by left|]. unfold job_step. rewrite Hj.
  destruct (po_jobs _ Hp _ _ Hj) as [_ Hw]. destruct (jw_retries _ Hw) as [Hr _].
  unfold fixedRetryPolicy. destruct (Z.ltb_spec (pj_retries job) 0); [lia|]. cbn [panic_if mbind outcome_bind].
  rewrite IH by (intros; apply Hk; by right). cbn [mbind outcome_bind]. rewrite fmap_cons.
  f_equal. f_equal. unfold step_of. by rewrite Hj.
Qed.

Lemma step_of_fields p m namespace id job :
  pp_jobs p !! id = Some job →
  let s := step_of p m namespace id in
  sd_ID s = id ∧ sd_Task s = namespace +:+ "." +:+ jobTaskSuffix ∧ sd_DependsOn s = pj_needs job ∧ sd_Retries s = 0 ∧
  sd_Timeout s = pj_timeout job ∧ sd_Type s = StepTypeNormal ∧ sd_Retry s = job_retry (pj_retries job) ∧
  sd_WorkerGroup s = namespace ∧ sd_Metadata s = {[jobMetadataKey := default "" (m !! id)]}.
Proof. intros Hj. unfold step_of. by rewrite Hj. Qed.

Section Workflow.
Context (LoadLocation : string → outcome Location) (namespace : string) (p : parsedJobs) (m : gmap string string).
Context (Hcl : clean namespace p m).

Abbreviation steps := (step_of p m namespace <$> pp_ids p).

Lemma job_of id : id ∈ pp_ids p → ∃ job, pp_jobs p !! id = Some job ∧ job_wf job ∧ id ≠ "".
Proof using Hcl.
  intros [job Hj]%(po_ids _ (cl_parsed _ _ _ Hcl)). exists job.
  by destruct (po_jobs _ (cl_parsed _ _ _ Hcl) _ _ Hj).
Qed.

Lemma step_ids : ids_of steps = pp_ids p.
Proof using Hcl.
  unfold ids_of. rewrite <-list_fmap_compose. rewrite <-(list_fmap_id (pp_ids p)) at 2. apply list_fmap_ext.
  intros i id Hid%list_elem_of_lookup_2. destruct (job_of id Hid) as (job & Hj & _).
  by destruct (step_of_fields p m namespace id job Hj).
Qed.

Lemma steps_edges a b : (a, b) ∈ edges steps → needed p b a.
Proof using Hcl.
  unfold edges. intros (s & Hs & Hab)%list_elem_of_In%in_flat_map. apply list_elem_of_In in Hs, Hab.
  apply list_elem_of_fmap in Hs as (id & -> & Hid). destruct (job_of id Hid) as (job & Hj & _).
  destruct (step_of_fields p m namespace id job Hj) as (H1 & _ & H3 & _).
  unfold step_edges in Hab. rewrite H1, H3 in Hab. apply list_elem_of_fmap in Hab as (d & [= -> ->] & Hd).
  assert (d ∈ needs p id) as Hn by (unfold needs; by rewrite Hj).
  split; [done|]. apply (po_ids _ (cl_parsed _ _ _ Hcl)). by apply (cl_needs _ _ _ Hcl id).
Qed.

Lemma steps_acyclic : acyclic (edges steps).
Proof using Hcl.
  intros a Ht. apply (cl_acyclic _ _ _ Hcl a).
  assert (∀ x z, tc (depends (edges steps)) x z → tc (needed p) z x) as Hflip; [|by apply Hflip].
  clear a Ht. induction 1 as [x z Hxz|x w z Hxw _ IH]; [constructor; by apply steps_edges|].
  eapply tc_r; [exact IH|by apply steps_edges].
Qed.

Lemma retry_ok retries pol : retries_ok retries → job_retry retries = Some pol → policy_ok pol.
Proof using Type.
  intros Hr. unfold job_retry. destruct (retries =? 0); [done|]. intros [= <-]. split; [by apply Hr|]. vm_compute. reflexivity.
Qed.

Lemma step_wellformed s : s ∈ steps → step_ok LoadLocation steps s.
Proof using Hcl.
  intros (id & -> & Hid)%list_elem_of_fmap. destruct (job_of id Hid) as (job & Hj & Hw & Hne).
  pose proof (cl_namespace _ _ _ Hcl) as (N1 & N2 & N3 & N4).
  assert (∀ d, d ∈ pj_needs job → d ∈ ids_of steps) as Hdeps.
  { intros d Hd. rewrite step_ids. apply (cl_needs _ _ _ Hcl id); [done|]. unfold needs. by rewrite Hj. }
  pose proof (retry_ok (pj_retries job)) as Hret. pose proof (jw_retries _ Hw) as Hr.
  unfold step_of at 2. rewrite Hj. split; cbn; [done| |unfold RetryAttemptCountMax; lia|by auto|done| |done|done|done|done|done|lia].
  - intros _. by apply str_app_ne.
  - intros _. split; [done|]. by intros _.
Qed.

Lemma workflow_wellformed name timeout : name ≠ "" → WellFormed LoadLocation (ci_workflow name timeout steps).
Proof using Hcl.
  intros Hname. unfold ci_workflow.
  split; cbn [wd_Name wd_Steps wd_Concurrency wd_DefaultRetry wd_IdempotencyKey wd_Sticky wd_Priority wd_CancelOn wd_Singleton wd_OutputSchema]; try done.
  - destruct (pp_ids p) eqn:He; [|done]. by destruct (cl_ids _ _ _ Hcl).
  - rewrite step_ids. apply (cl_parsed _ _ _ Hcl).
  - apply step_wellformed.
  - apply steps_acyclic.
  - by left.
  - by left.
  - split; [cbn; lia|constructor].
Qed.
End Workflow.

(** ** The timeout of the workflow *)

(** What a job may take: its timeout for each attempt. *)
Definition job_time (p : parsedJobs) (id : string) : Z :=
  match pp_jobs p !! id with Some job => pj_timeout job * (1 + pj_retries job) | None => 0 end.
Definition total_time (p : parsedJobs) (ids : list string) : Z := foldr Z.add 0 (job_time p <$> ids).

Lemma timeout_loop_ret p ids : parsed_ok p → (∀ id, id ∈ ids → id ∈ pp_ids p) → ∀ total,
  0 ≤ total < jobsWorkflowTimeoutMax →
  timeout_loop p total ids = Ret (Z.min jobsWorkflowTimeoutMax (Z.max workflowTimeout (total + total_time p ids))).
Proof.
  intros Hp. induction ids as [|id ids IH]; intros Hids total Ht; cbn [timeout_loop].
  { unfold total_time. cbn. f_equal. destruct (Z.ltb_spec total workflowTimeout);
      unfold jobsWorkflowTimeoutMax, workflowTimeout, Hour, Minute, Second, Millisecond in *; lia. }
  assert (id ∈ pp_ids p) as [job Hj]%(po_ids _ Hp) by (apply Hids; by left). rewrite Hj.
  destruct (po_jobs _ Hp _ _ Hj) as [_ [_ [T1 T2] [R1 R2] _ _]].
  assert (∀ l, 0 ≤ total_time p l) as Hpos.
  { induction l as [|x l IHl]; unfold total_time in *; cbn; [lia|]. enough (0 ≤ job_time p x) by lia. unfold job_time.
    destruct (pp_jobs p !! x) as [j|] eqn:Hx; [|lia]. destruct (po_jobs _ Hp _ _ Hx) as [_ [_ [? _] [? _] _ _]]. nia. }
  change (total_time p (id :: ids)) with (job_time p id + total_time p ids). unfold job_time at 1. rewrite Hj.
  set (per := pj_timeout job * (1 + pj_retries job)).
  assert (0 < per < 2 ^ 62) as Hper.
  { unfold jobTimeoutMinutesMax, RetryAttemptCountMax, Minute, Second, Millisecond in *. subst per. nia. }
  assert (∀ z, - 2 ^ 62 < z < 2 ^ 62 → wrap64 z = z) as Hw.
  { intros z Hz. apply wrap64_id. unfold in_int64, int64_min, int64_max. lia. }
  assert (jobsWorkflowTimeoutMax < 2 ^ 60) as Hmax by (unfold jobsWorkflowTimeoutMax, Hour, Minute, Second, Millisecond; lia).
  destruct (Z.leb_spec (pj_timeout job) 0); [lia|]. destruct (Z.ltb_spec (pj_retries job) 0); [lia|].
  cbn [orb panic_if mbind outcome_bind]. cbv zeta.
  rewrite (Hw (1 + pj_retries job)) by (unfold RetryAttemptCountMax in *; lia). fold per. rewrite (Hw per) by lia.
  rewrite (Hw (jobsWorkflowTimeoutMax - per)) by lia. specialize (Hpos ids).
  destruct (Z.leb_spec jobsWorkflowTimeoutMax per); cbn [orb]; [f_equal; lia|].
  destruct (Z.leb_spec (jobsWorkflowTimeoutMax - per) total); [f_equal; lia|].
  rewrite (Hw (total + per)) by lia. rewrite IH; [f_equal; lia|intros; apply Hids; by right|lia].
Qed.

Lemma timeout_ret p :
  parsed_ok p → pp_ids p ≠ [] →
  jobsWorkflowTimeout p = Ret (Z.min jobsWorkflowTimeoutMax (Z.max workflowTimeout (total_time p (pp_ids p)))).
Proof.
  intros Hp Hne. unfold jobsWorkflowTimeout. rewrite bool_decide_eq_false_2 by done. cbn [panic_if mbind outcome_bind].
  rewrite timeout_loop_ret; [done|done|done|]. unfold jobsWorkflowTimeoutMax, Hour, Minute, Second, Millisecond. lia.
Qed.

(** ** Building *)

Section Compiled.
Context (LoadLocation : string → outcome Location) (perm : list string → list string)
  (rule_order : list Z → list Z) (text : error → string).
Hypothesis perm_ok : ∀ l, perm l ≡ₚ l.
Hypothesis rules_ok : ∀ l, rule_order l ≡ₚ l.

Definition compiled (name namespace : string) (p : parsedJobs) (m : gmap string string) : WorkflowDef :=
  ci_workflow name (Z.min jobsWorkflowTimeoutMax (Z.max workflowTimeout (total_time p (pp_ids p))))
    (step_of p m namespace <$> pp_ids p).

(** The engine accepts the workflow; only its size can be reported. *)
Lemma build_ret name namespace p m :
  name ≠ "" → clean namespace p m →
  ∃ res diags, build_jobs def_bytes LoadLocation perm rule_order text name namespace p m = Ret (res, diags) ∧ capped diags ∧
    (diags = [] ↔ def_bytes (compiled name namespace p m) ≤ jobsDefMaxBytes) ∧
    (diags = [] → res = MkCompileResult (compiled name namespace p m) (pp_on p)).
Proof using perm_ok rules_ok.
  intros Hname Hcl. pose proof (cl_parsed _ _ _ Hcl) as Hp. unfold build_jobs.
  rewrite (steps_ret namespace p m Hcl). cbn [mbind outcome_bind].
  rewrite (timeout_ret p Hp (cl_ids _ _ _ Hcl)). cbn [mbind outcome_bind]. cbv zeta.
  change (ci_workflow name _ _) with (compiled name namespace p m).
  rewrite (wf_Validate LoadLocation perm rule_order) by (try done; by apply workflow_wellformed).
  destruct (Z.ltb_spec jobsDefMaxBytes (def_bytes (compiled name namespace p m))) as [Hlt|Hge].
  - destruct (large_spec p (po_key _ Hp (cl_ids _ _ _ Hcl)) []) as (u & ds & Hd & Hc & _ & _ & Hne); [apply Nat.le_0_l|].
    rewrite Hd. cbn. eexists _, ds. split_and!; [done|done| |].
    + split; [intros Hnil; by destruct (Hne Hnil)|lia].
    + intros Hnil. by destruct (Hne Hnil).
  - eexists _, []. split_and!; [done|apply Nat.le_0_l|done|done].
Qed.
End Compiled.
End Build.
