(* ===== verification/Builder.v ===== *)
(** * Workflow builders (dag/builder.go, dag/stepref.go, MarshalConfig)

    A [WorkflowBuilder] is a mutable object: the handles ([StepRef]) its
    methods return point back to it, and [Build] hands out its step slice
    itself.  The model keeps a store of builders and of step arrays; a builder
    names its array, so a definition [Build] returned sees the writes that go
    through the builder until an [append] moves the steps to a new array.

    Code that calls the builder is a list of [call]s; a handle is named by its
    position among the handles obtained so far, a position that does not exist
    is the zero [StepRef].  [allowed] is the precondition the doc comments give
    to each method.  A panic loses the state. *)

From S2P Require Import Prelude Float64 Json Types Config GoTime Keys Validate Dynamic.
From stdpp Require Import sorting.
From Stdlib Require Import Ascii.

#[local] Open Scope Z_scope.

(** ** MarshalConfig

    [encoding/json] writes a string byte that is not part of a UTF-8 sequence
    as U+FFFD. *)

(** The second bytes a first byte allows, and the number of continuation
    bytes that follow them ([utf8.DecodeRune]). *)
Definition utf8_first (c : ascii) : option (ascii * ascii * nat) :=
  if in_range "194" "223" c then Some ("128"%char, "191"%char, 0%nat)
  else if bool_decide (c = "224"%char) then Some ("160"%char, "191"%char, 1%nat)
  else if bool_decide (c = "237"%char) then Some ("128"%char, "159"%char, 1%nat)
  else if in_range "225" "239" c then Some ("128"%char, "191"%char, 1%nat)
  else if bool_decide (c = "240"%char) then Some ("144"%char, "191"%char, 2%nat)
  else if in_range "241" "243" c then Some ("128"%char, "191"%char, 2%nat)
  else if bool_decide (c = "244"%char) then Some ("128"%char, "143"%char, 2%nat)
  else None.

Definition RuneError (rest : string) : string := String "239" (String "191" (String "189" rest)).

Definition cont (c : ascii) : bool := in_range "128" "191" c.

(** The string a decoder reads back. *)
Fixpoint json_string (s : string) : string :=
  match s with
  | EmptyString => EmptyString
  | String c1 s1 =>
      if in_range "000" "127" c1 then String c1 (json_string s1)
      else
        match utf8_first c1, s1 with
        | Some (lo, hi, n), String c2 s2 =>
            if in_range lo hi c2 then
              match n, s2 with
              | 0%nat, _ => String c1 (String c2 (json_string s2))
              | 1%nat, String c3 s3 =>
                  if cont c3 then String c1 (String c2 (String c3 (json_string s3)))
                  else RuneError (json_string s1)
              | _, String c3 (String c4 s4) =>
                  if cont c3 && cont c4
                  then String c1 (String c2 (String c3 (String c4 (json_string s4))))
                  else RuneError (json_string s1)
              | _, _ => RuneError (json_string s1)
              end
            else RuneError (json_string s1)
        | _, _ => RuneError (json_string s1)
        end
  end.

Definition valid_utf8 (s : string) : bool := bool_decide (json_string s = s).

Definition f_str (name s : string) : list (string * json) := [(name, JStr (json_string s))].
Definition f_str_opt (name s : string) : list (string * json) :=
  if empty_str s then [] else f_str name s.
Definition f_int (name : string) (z : Z) : list (string * json) := [(name, JInt z)].
Definition f_int_opt (name : string) (z : Z) : list (string * json) :=
  if z =? 0 then [] else f_int name z.
Definition f_map_opt (name : string) (m : gmap string string) : list (string * json) :=
  if bool_decide (m = ∅) then []
  else [(name, JObj ((λ k, (json_string k, JStr (json_string (default "" (m !! k))))) <$>
          merge_sort str_le (map_to_list m).*1))].

(** The fields of a struct, by its tags. *)
Class JsonStruct (A : Type) := json_fields : A → list (string * json).

#[global] Instance AgentLoopConfig_json : JsonStruct AgentLoopConfig := λ c,
  f_int "max_iterations" (al_MaxIterations c) ++ f_int_opt "max_duration" (al_MaxDuration c) ++
  f_int_opt "loop_delay" (al_LoopDelay c) ++ f_int_opt "budget_warn_at" (al_BudgetWarnAt c) ++
  f_int_opt "budget_force_at" (al_BudgetForceAt c).
#[global] Instance MapConfig_json : JsonStruct MapConfig := λ c, f_int "max_items" (mc_MaxItems c).
#[global] Instance SubWorkflowConfig_json : JsonStruct SubWorkflowConfig := λ c,
  f_str "workflow" (sw_Workflow c) ++ (if sw_Detach c then [("detach", JBool true)] else []).
#[global] Instance SleepConfig_json : JsonStruct SleepConfig := λ c,
  f_int_opt "duration" (sl_Duration c) ++ f_str_opt "cron" (sl_Cron c) ++
  f_str_opt "until_input_path" (sl_UntilInputPath c) ++
  f_str_opt "cron_timezone" (sl_CronTimezone c) ++
  f_str_opt "cron_timezone_input_path" (sl_CronTimezoneInputPath c).
#[global] Instance WaitForEventOpts_json : JsonStruct WaitForEventOpts := λ c,
  f_str "event" (we_Event c) ++
  [("match", JObj (f_str "left" (m_Left (we_Match c)) ++ f_str "op" (m_Op (we_Match c)) ++
                   f_str "right" (m_Right (we_Match c))))] ++
  f_int "timeout" (we_Timeout c).
#[global] Instance ApprovalConfig_json : JsonStruct ApprovalConfig := λ c,
  f_int "timeout" (ap_Timeout c) ++ f_str "subject" (ap_Subject c) ++
  f_str_opt "description" (ap_Description c) ++ f_map_opt "metadata" (ap_Metadata c).
#[global] Instance PlannerConfig_json : JsonStruct PlannerConfig := λ c,
  f_int "max_steps" (pl_MaxSteps c) ++ f_int_opt "max_depth" (pl_MaxDepth c) ++
  (if bool_decide (pl_AllowedTasks c = []) then []
   else [("allowed_tasks", JArr ((λ t, JStr (json_string t)) <$> pl_AllowedTasks c))]).

(** [MarshalConfig]: none of the configuration structs fails to marshal. *)
Definition MarshalConfig {A} `{JsonStruct A} (cfg : A) : raw := RawJson (JObj (json_fields cfg)).

(** ** The store *)

Record WorkflowBuilder : Type := MkBuilder {
  wb_name : string;
  wb_version : string;
  wb_steps : nat;  (* the address of the array behind the slice *)
  wb_current : Z;
  wb_concurrency : option ConcurrencyLimit;
  wb_idempotencyKey : string;
  wb_sticky : string;
  wb_priority : option PriorityConfig;
  wb_cancelOn : list CancelOn;
  wb_singleton : option SingletonConfig;
}.

Record store : Type := MkStore {
  st_builders : list WorkflowBuilder;
  st_arrays : list (list StepDef);
}.

Record StepRef : Type := MkStepRef {
  sr_id : string;
  sr_index : nat;
  sr_builder : option nat;
}.

Definition zero_StepRef : StepRef := MkStepRef "" 0 None.

Definition wb_set_version (v : string) (b : WorkflowBuilder) : WorkflowBuilder :=
  let 'MkBuilder x0 _ x2 x3 x4 x5 x6 x7 x8 x9 := b in MkBuilder x0 v x2 x3 x4 x5 x6 x7 x8 x9.
Definition wb_set_steps (v : nat) (b : WorkflowBuilder) : WorkflowBuilder :=
  let 'MkBuilder x0 x1 _ x3 x4 x5 x6 x7 x8 x9 := b in MkBuilder x0 x1 v x3 x4 x5 x6 x7 x8 x9.
Definition wb_set_current (v : Z) (b : WorkflowBuilder) : WorkflowBuilder :=
  let 'MkBuilder x0 x1 x2 _ x4 x5 x6 x7 x8 x9 := b in MkBuilder x0 x1 x2 v x4 x5 x6 x7 x8 x9.
Definition wb_set_concurrency (v : option ConcurrencyLimit) (b : WorkflowBuilder) : WorkflowBuilder :=
  let 'MkBuilder x0 x1 x2 x3 _ x5 x6 x7 x8 x9 := b in MkBuilder x0 x1 x2 x3 v x5 x6 x7 x8 x9.
Definition wb_set_idempotencyKey (v : string) (b : WorkflowBuilder) : WorkflowBuilder :=
  let 'MkBuilder x0 x1 x2 x3 x4 _ x6 x7 x8 x9 := b in MkBuilder x0 x1 x2 x3 x4 v x6 x7 x8 x9.
Definition wb_set_sticky (v : string) (b : WorkflowBuilder) : WorkflowBuilder :=
  let 'MkBuilder x0 x1 x2 x3 x4 x5 _ x7 x8 x9 := b in MkBuilder x0 x1 x2 x3 x4 x5 v x7 x8 x9.
Definition wb_set_priority (v : option PriorityConfig) (b : WorkflowBuilder) : WorkflowBuilder :=
  let 'MkBuilder x0 x1 x2 x3 x4 x5 x6 _ x8 x9 := b in MkBuilder x0 x1 x2 x3 x4 x5 x6 v x8 x9.
Definition wb_set_cancelOn (v : list CancelOn) (b : WorkflowBuilder) : WorkflowBuilder :=
  let 'MkBuilder x0 x1 x2 x3 x4 x5 x6 x7 _ x9 := b in MkBuilder x0 x1 x2 x3 x4 x5 x6 x7 v x9.
Definition wb_set_singleton (v : option SingletonConfig) (b : WorkflowBuilder) : WorkflowBuilder :=
  let 'MkBuilder x0 x1 x2 x3 x4 x5 x6 x7 x8 _ := b in MkBuilder x0 x1 x2 x3 x4 x5 x6 x7 x8 v.

Definition al_set_MaxIterations (n : Z) (c : AgentLoopConfig) : AgentLoopConfig :=
  MkAgentLoopConfig n (al_MaxDuration c) (al_LoopDelay c) (al_BudgetWarnAt c) (al_BudgetForceAt c).
Definition al_set_MaxDuration (d : Z) (c : AgentLoopConfig) : AgentLoopConfig :=
  MkAgentLoopConfig (al_MaxIterations c) d (al_LoopDelay c) (al_BudgetWarnAt c) (al_BudgetForceAt c).
Definition al_set_LoopDelay (d : Z) (c : AgentLoopConfig) : AgentLoopConfig :=
  MkAgentLoopConfig (al_MaxIterations c) (al_MaxDuration c) d (al_BudgetWarnAt c) (al_BudgetForceAt c).

(** Methods mutate the store or panic. *)
Definition bm (A : Type) : Type := store → outcome (A * store).

#[global] Instance bm_ret : MRet bm := λ A a st, Ret (a, st).
#[global] Instance bm_bind : MBind bm := λ A B f m st,
  match m st with
  | Ret (a, st') => f a st'
  | Err e => Err e
  | Panic msg => Panic msg
  end.

Definition bm_of {A} (o : outcome A) : bm A := λ st, o ≫= λ a, Ret (a, st).
Definition nil_deref : string := "invalid memory address or nil pointer dereference".

Definition get_builder (b : nat) : bm WorkflowBuilder := λ st,
  match st_builders st !! b with Some wb => Ret (wb, st) | None => Panic nil_deref end.
Definition get_steps (wb : WorkflowBuilder) : bm (list StepDef) := λ st,
  match st_arrays st !! wb_steps wb with Some l => Ret (l, st) | None => Panic nil_deref end.
Definition set_builder (b : nat) (f : WorkflowBuilder → WorkflowBuilder) : bm unit := λ st,
  Ret (tt, MkStore (alter f b (st_builders st)) (st_arrays st)).
Definition set_array (a : nat) (l : list StepDef) : bm unit := λ st,
  Ret (tt, MkStore (st_builders st) (<[a := l]> (st_arrays st))).

(** [b.steps[i]], and a write to it. *)
Definition get_step (b i : nat) : bm StepDef :=
  wb ← get_builder b;
  l ← get_steps wb;
  match l !! i with Some s => mret s | None => bm_of (Panic "index out of range") end.
Definition set_step (b i : nat) (f : StepDef → StepDef) : bm unit :=
  wb ← get_builder b;
  l ← get_steps wb;
  match l !! i with
  | Some s => set_array (wb_steps wb) (<[i := f s]> l)
  | None => bm_of (Panic "index out of range")
  end.

(** ** WorkflowBuilder *)

Definition NewWorkflow (name : string) : bm nat := λ st,
  Ret (length (st_builders st),
       MkStore (st_builders st ++ [MkBuilder name "1" (length (st_arrays st)) (-1) None "" "" None [] None])
               (st_arrays st ++ [[]])).

Definition Version (b : nat) (v : string) : bm unit := get_builder b ≫= λ _, set_builder b (wb_set_version v).

(** The steps in a new array. *)
Definition move_steps (b : nat) (l : list StepDef) : bm unit := λ st,
  Ret (tt, MkStore (alter (wb_set_steps (length (st_arrays st))) b (st_builders st))
                   (st_arrays st ++ [l])).

Section Append.
(** Whether the append to a slice of a given length, grown one step at a
    time, finds no spare capacity and allocates a new array. *)
Context (grows : nat → bool).

(** [b.steps = append(b.steps, step)] *)
Definition append_steps (b : nat) (step : StepDef) : bm unit :=
  wb ← get_builder b;
  l ← get_steps wb;
  if grows (length l) then move_steps b (l ++ [step])
  else set_array (wb_steps wb) (l ++ [step]).

(** The end of every method that adds a step. *)
Definition add_new_step (b : nat) (step : StepDef) : bm StepRef :=
  append_steps b step ≫= λ _,
  wb ← get_builder b;
  l ← get_steps wb;
  let active_index := Z.of_nat (length l) - 1 in
  set_builder b (wb_set_current active_index) ≫= λ _,
  mret (MkStepRef (sd_ID step) (Z.to_nat active_index) (Some b)).

Definition with_config (r : raw) (s : StepDef) : StepDef := sd_set_Config (Some r) s.

Definition Task (b : nat) (id task : string) : bm StepRef := add_new_step b (step_def id task StepTypeNormal).

Definition AgentLoop (b : nat) (id task : string) : bm StepRef :=
  add_new_step b (with_config (MarshalConfig (MkAgentLoopConfig 0 0 0 0 0)) (step_def id task StepTypeAgentLoop)).

Definition agent_step (id task : string) (metadata : gmap string string) : StepDef :=
  let 'MkStepDef x0 x1 x2 x3 x4 x5 x6 x7 _ x9 x10 x11 x12 x13 x14 x15 x16 x17 :=
    step_def id task StepTypeAgent in
  MkStepDef x0 x1 x2 x3 x4 x5 x6 x7 metadata x9 x10 x11 x12 x13 x14 x15 x16 x17.

Definition Agent (b : nat) (id task : string) (metadata : gmap string string) : bm StepRef :=
  bm_of (panic_if (empty_str id) "dag: step id must not be empty") ≫= λ _,
  bm_of (panic_if (empty_str task) "dag: step task must not be empty") ≫= λ _,
  add_new_step b (agent_step id task metadata).

Definition SubWorkflow (b : nat) (id workflow : string) : bm StepRef :=
  bm_of (panic_if (empty_str id) "SubWorkflow: id must not be empty") ≫= λ _,
  bm_of (panic_if (empty_str workflow) "SubWorkflow: workflow must not be empty") ≫= λ _,
  add_new_step b (with_config (MarshalConfig (MkSubWorkflowConfig workflow false))
                (step_def id workflow StepTypeSubWorkflow)).

Definition Map (b : nat) (id taskType : string) : bm StepRef :=
  bm_of (panic_if (empty_str id) "Map: id must not be empty") ≫= λ _,
  bm_of (panic_if (empty_str taskType) "Map: taskType must not be empty") ≫= λ _,
  add_new_step b (with_config (MarshalConfig (MkMapConfig 1000)) (step_def id taskType StepTypeMap)).

Definition Sleep (b : nat) (id : string) (duration : Z) : bm StepRef :=
  bm_of (panic_if (empty_str id) "Sleep: id must not be empty") ≫= λ _,
  bm_of (panic_if (duration <=? 0) "Sleep: duration must be positive") ≫= λ _,
  add_new_step b (with_config (MarshalConfig (MkSleepConfig duration "" "" "" ""))
                (step_def id "" StepTypeSleep)).

Definition WaitForEvent (b : nat) (id : string) (opts : WaitForEventOpts) : bm StepRef :=
  bm_of (panic_if (empty_str id) "WaitForEvent: id must not be empty") ≫= λ _,
  bm_of (panic_if (empty_str (we_Event opts)) "WaitForEvent: opts.Event must not be empty") ≫= λ _,
  add_new_step b (with_config (MarshalConfig opts) (step_def id "" StepTypeWaitForEvent)).

Definition Approval (b : nat) (id : string) (cfg : ApprovalConfig) : bm StepRef :=
  bm_of (panic_if (empty_str id) "Approval: id must not be empty") ≫= λ _,
  bm_of (panic_if (ap_Timeout cfg <=? 0) "Approval: Timeout must be positive") ≫= λ _,
  add_new_step b (with_config (MarshalConfig cfg) (step_def id "" StepTypeApproval)).

Definition Planner (b : nat) (id task : string) (cfg : PlannerConfig) : bm StepRef :=
  bm_of (panic_if (empty_str id) "Planner: id must not be empty") ≫= λ _,
  bm_of (panic_if (empty_str task) "Planner: task must not be empty") ≫= λ _,
  bm_of (panic_if (pl_MaxSteps cfg <=? 0) "Planner: MaxSteps must be positive") ≫= λ _,
  add_new_step b (with_config (MarshalConfig cfg) (step_def id task StepTypePlanner)).
End Append.

Definition WithConcurrency (b : nat) (maxRuns maxSteps : Z) : bm unit :=
  get_builder b ≫= λ _, set_builder b (wb_set_concurrency (Some (MkConcurrencyLimit maxRuns maxSteps))).

(** [b.current], checked, as an index. *)
Definition active_index (b : nat) (msg : string) : bm nat :=
  wb ← get_builder b;
  bm_of (panic_if (wb_current wb <? 0) msg) ≫= λ _,
  mret (Z.to_nat (wb_current wb)).

Definition add_deps (ids : list string) (s : StepDef) : StepDef := sd_set_DependsOn (sd_DependsOn s ++ ids) s.

Definition DependsOn (b : nat) (ids : list string) : bm unit :=
  i ← active_index b "DependsOn called before adding a step";
  set_step b i (add_deps ids).

Definition Builder_WithTimeout (b : nat) (d : Z) : bm unit :=
  i ← active_index b "WithTimeout called before adding a step";
  set_step b i (sd_set_Timeout d).

(** The parse of a step's configuration, a failure being a panic with the
    message of the error; the update; the write back. *)
Definition edit_config {A} `{JsonStruct A} (b i : nat) (t : StepType) (wrong bad : string)
    (parse : StepDef → outcome A) (f : A → A) : bm unit :=
  s ← get_step b i;
  bm_of (panic_if (negb (bool_decide (sd_Type s = t))) wrong) ≫= λ _,
  match parse s with
  | Ret cfg => set_step b i (sd_set_Config (Some (MarshalConfig (f cfg))))
  | Err _ => bm_of (Panic bad)
  | Panic msg => bm_of (Panic msg)
  end.

Definition Builder_WithMaxIterations (b : nat) (n : Z) : bm unit :=
  i ← active_index b "WithMaxIterations called before adding a step";
  edit_config b i StepTypeAgentLoop "WithMaxIterations called on non-AgentLoop step"
    "WithMaxIterations: " ParseAgentLoopConfig (al_set_MaxIterations n).

Definition Builder_WithMaxDuration (b : nat) (d : Z) : bm unit :=
  i ← active_index b "WithMaxDuration called before adding a step";
  edit_config b i StepTypeAgentLoop "WithMaxDuration called on non-AgentLoop step"
    "WithMaxDuration: " ParseAgentLoopConfig (al_set_MaxDuration d).

Definition sticky_value (s : string) : bool := bool_decide (s ∈ [StickyNone; StickySoft; StickyHard]).

Definition WithSticky (b : nat) (s : string) : bm unit :=
  get_builder b ≫= λ _,
  bm_of (panic_if (negb (sticky_value s)) ("WithSticky: invalid StickyStrategy: " +:+ s)) ≫= λ _,
  set_builder b (wb_set_sticky s).

Definition WithIdempotencyKey (b : nat) (dotPath : string) : bm unit :=
  get_builder b ≫= λ _,
  bm_of (panic_if (empty_str dotPath) "WithIdempotencyKey: dotPath must not be empty") ≫= λ _,
  set_builder b (wb_set_idempotencyKey dotPath).

Definition WithPriority (b : nat) (cfg : PriorityConfig) : bm unit :=
  get_builder b ≫= λ _, set_builder b (wb_set_priority (Some cfg)).

Definition CancelOnWithTimeout (b : nat) (event : string) (m : Match_) (timeout : Z) : bm unit :=
  wb ← get_builder b;
  set_builder b (wb_set_cancelOn (wb_cancelOn wb ++ [MkCancelOn event m timeout])).

Definition Builder_CancelOn (b : nat) (event : string) (m : Match_) : bm unit :=
  wb ← get_builder b;
  set_builder b (wb_set_cancelOn (wb_cancelOn wb ++ [MkCancelOn event m 0])).

Definition WithSingleton (b : nat) (mode : string) : bm unit :=
  get_builder b ≫= λ _, set_builder b (wb_set_singleton (Some (MkSingletonConfig mode ""))).

Definition WithSingletonKey (b : nat) (mode key : string) : bm unit :=
  get_builder b ≫= λ _, set_builder b (wb_set_singleton (Some (MkSingletonConfig mode key))).

(** What [Build] validates. *)
Definition assemble (wb : WorkflowBuilder) (steps : list StepDef) : WorkflowDef := {|
  wd_Name := wb_name wb; wd_Version := wb_version wb; wd_Steps := steps;
  wd_DefaultRetry := None; wd_Concurrency := wb_concurrency wb; wd_Timeout := 0;
  wd_InputSchema := None; wd_OutputSchema := None; wd_AuxSteps := ∅;
  wd_IdempotencyKey := wb_idempotencyKey wb; wd_Sticky := wb_sticky wb;
  wd_Priority := wb_priority wb; wd_CancelOn := wb_cancelOn wb;
  wd_Singleton := wb_singleton wb;
|}.

Section Build.
Context (LoadLocation : string → outcome Location).
Context (perm : list string → list string) (rule_order : list Z → list Z).

(** The definition and the slice its [Steps] field is: an array and a
    length. *)
Definition Build (b : nat) : bm (WorkflowDef * (nat * nat)) :=
  wb ← get_builder b;
  l ← get_steps wb;
  let def := assemble wb l in
  bm_of (Validate LoadLocation perm rule_order def) ≫= λ _,
  mret (wd_set_AuxSteps (buildAuxSteps l) def, (wb_steps wb, length l)).
End Build.

(** A slice read later. *)
Definition read_slice (st : store) (slice : nat * nat) : list StepDef :=
  take slice.2 (default [] (st_arrays st !! slice.1)).

(** ** StepRef *)

(** The guard every method starts with. *)
Definition owner (r : StepRef) (msg : string) : bm nat :=
  match sr_builder r with Some b => mret b | None => bm_of (Panic msg) end.

Fixpoint after_loop (b i : nat) (refs : list StepRef) : bm unit :=
  match refs with
  | [] => mret tt
  | ref :: refs' =>
      bm_of (panic_if (negb (bool_decide (sr_builder ref = Some b)))
               "After: StepRef belongs to a different WorkflowBuilder") ≫= λ _,
      set_step b i (add_deps [sr_id ref]) ≫= λ _,
      after_loop b i refs'
  end.

Definition After (r : StepRef) (refs : list StepRef) : bm StepRef :=
  b ← owner r "After called on zero-value StepRef";
  after_loop b (sr_index r) refs ≫= λ _, mret r.

(** A write of one field of the step. *)
Definition write_step (r : StepRef) (msg : string) (f : StepDef → StepDef) : bm StepRef :=
  b ← owner r msg;
  set_step b (sr_index r) f ≫= λ _, mret r.

Definition WithTimeout (r : StepRef) (d : Z) : bm StepRef :=
  write_step r "WithTimeout called on zero-value StepRef" (sd_set_Timeout d).
Definition SkipIf (r : StepRef) (cond : option ParentCond) : bm StepRef :=
  write_step r "SkipIf called on zero-value StepRef" (sd_set_SkipIf cond).
Definition WithRetries (r : StepRef) (n : Z) : bm StepRef :=
  write_step r "WithRetries called on zero-value StepRef" (sd_set_Retries n).
Definition WithRateLimit (r : StepRef) (rl : RateLimit) : bm StepRef :=
  write_step r "WithRateLimit called on zero-value StepRef" (sd_set_RateLimit (Some rl)).
Definition WithKeyedRateLimit (r : StepRef) (krl : KeyedRateLimit) : bm StepRef :=
  write_step r "WithKeyedRateLimit called on zero-value StepRef" (sd_set_KeyedRateLimit (Some krl)).

Definition WithMaxIterations (r : StepRef) (n : Z) : bm StepRef :=
  b ← owner r "WithMaxIterations called on zero-value StepRef";
  edit_config b (sr_index r) StepTypeAgentLoop "WithMaxIterations called on non-AgentLoop step"
    "WithMaxIterations: " ParseAgentLoopConfig (al_set_MaxIterations n) ≫= λ _, mret r.

Definition WithLoopDelay (r : StepRef) (d : Z) : bm StepRef :=
  b ← owner r "WithLoopDelay called on zero-value StepRef";
  edit_config b (sr_index r) StepTypeAgentLoop "WithLoopDelay called on non-AgentLoop step"
    "WithLoopDelay: " ParseAgentLoopConfig (al_set_LoopDelay d) ≫= λ _, mret r.

Definition WithMaxDuration (r : StepRef) (d : Z) : bm StepRef :=
  b ← owner r "WithMaxDuration called on zero-value StepRef";
  edit_config b (sr_index r) StepTypeAgentLoop "WithMaxDuration called on non-AgentLoop step"
    "WithMaxDuration: " ParseAgentLoopConfig (al_set_MaxDuration d) ≫= λ _, mret r.

Definition WithMaxItems (r : StepRef) (n : Z) : bm StepRef :=
  b ← owner r "WithMaxItems called on zero-value StepRef";
  s ← get_step b (sr_index r);
  bm_of (panic_if (negb (bool_decide (sd_Type s = StepTypeMap))) "WithMaxItems called on non-Map step") ≫= λ _,
  bm_of (panic_if (n <=? 0) "WithMaxItems: n must be positive") ≫= λ _,
  edit_config b (sr_index r) StepTypeMap "WithMaxItems called on non-Map step"
    "WithMaxItems: " ParseMapConfig (λ _, MkMapConfig n) ≫= λ _, mret r.

Definition WithDetach (r : StepRef) : bm StepRef :=
  b ← owner r "WithDetach called on zero-value StepRef";
  edit_config b (sr_index r) StepTypeSubWorkflow "WithDetach called on non-SubWorkflow step"
    "WithDetach: " ParseSubWorkflowConfig (λ c, MkSubWorkflowConfig (sw_Workflow c) true) ≫= λ _, mret r.

(** [OnFailure] and [Compensate]: a target of the same builder that is not
    the step itself. *)
Definition designate (r target : StepRef) (zero other self : string) (f : string → StepDef → StepDef)
    : bm StepRef :=
  b ← owner r zero;
  bm_of (panic_if (negb (bool_decide (sr_builder target = Some b))) other) ≫= λ _,
  bm_of (panic_if (bool_decide (sr_id target = sr_id r)) self) ≫= λ _,
  set_step b (sr_index r) (f (sr_id target)) ≫= λ _, mret r.

Definition OnFailure (r target : StepRef) : bm StepRef :=
  designate r target "OnFailure called on zero-value StepRef"
    "OnFailure: target StepRef belongs to a different WorkflowBuilder"
    "OnFailure: step cannot reference itself" sd_set_OnFailure.
Definition Compensate (r target : StepRef) : bm StepRef :=
  designate r target "Compensate called on zero-value StepRef"
    "Compensate: target StepRef belongs to a different WorkflowBuilder"
    "Compensate: step cannot reference itself" sd_set_Compensate.

Definition WithTaskConcurrency (r : StepRef) (max : Z) : bm StepRef :=
  b ← owner r "WithTaskConcurrency called on zero-value StepRef";
  bm_of (panic_if (max <=? 0) "WithTaskConcurrency: max must be positive") ≫= λ _,
  set_step b (sr_index r) (sd_set_MaxTaskConcurrency max) ≫= λ _, mret r.

(** ** Code that uses builders *)

Inductive call : Type :=
  | CNewWorkflow (name : string)
  | CVersion (b : nat) (v : string)
  | CTask (b : nat) (id task : string)
  | CAgentLoop (b : nat) (id task : string)
  | CAgent (b : nat) (id task : string) (metadata : gmap string string)
  | CSubWorkflow (b : nat) (id workflow : string)
  | CMap (b : nat) (id taskType : string)
  | CSleep (b : nat) (id : string) (duration : Z)
  | CWaitForEvent (b : nat) (id : string) (opts : WaitForEventOpts)
  | CApproval (b : nat) (id : string) (cfg : ApprovalConfig)
  | CPlanner (b : nat) (id task : string) (cfg : PlannerConfig)
  | CWithConcurrency (b : nat) (maxRuns maxSteps : Z)
  | CDependsOn (b : nat) (ids : list string)
  | CStepTimeout (b : nat) (d : Z)
  | CStepMaxIterations (b : nat) (n : Z)
  | CStepMaxDuration (b : nat) (d : Z)
  | CWithSticky (b : nat) (s : string)
  | CWithIdempotencyKey (b : nat) (dotPath : string)
  | CWithPriority (b : nat) (cfg : PriorityConfig)
  | CCancelOn (b : nat) (event : string) (m : Match_)
  | CCancelOnWithTimeout (b : nat) (event : string) (m : Match_) (timeout : Z)
  | CWithSingleton (b : nat) (mode : string)
  | CWithSingletonKey (b : nat) (mode key : string)
  | CAfter (r : nat) (refs : list nat)
  | CWithTimeout (r : nat) (d : Z)
  | CSkipIf (r : nat) (cond : option ParentCond)
  | CWithRetries (r : nat) (n : Z)
  | CWithMaxIterations (r : nat) (n : Z)
  | CWithLoopDelay (r : nat) (d : Z)
  | CWithMaxDuration (r : nat) (d : Z)
  | CWithMaxItems (r : nat) (n : Z)
  | CWithDetach (r : nat)
  | COnFailure (r target : nat)
  | CCompensate (r target : nat)
  | CWithRateLimit (r : nat) (rl : RateLimit)
  | CWithKeyedRateLimit (r : nat) (krl : KeyedRateLimit)
  | CWithTaskConcurrency (r : nat) (max : Z).

Record client : Type := MkClient { cl_store : store; cl_refs : list StepRef }.

Definition fresh_client : client := MkClient (MkStore [] []) [].

Definition handle (c : client) (r : nat) : StepRef := default zero_StepRef (cl_refs c !! r).

(** A call whose result is a new handle, and one whose result is a receiver
    the caller has already. *)
Definition gives (m : bm StepRef) (c : client) : outcome client :=
  m (cl_store c) ≫= λ '(r, st), Ret (MkClient st (cl_refs c ++ [r])).
Definition runs {A} (m : bm A) (c : client) : outcome client :=
  m (cl_store c) ≫= λ '(_, st), Ret (MkClient st (cl_refs c)).

Section Exec.
Context (grows : nat → bool).

Definition exec (cl : call) (c : client) : outcome client :=
  match cl with
  | CNewWorkflow name => runs (NewWorkflow name) c
  | CVersion b v => runs (Version b v) c
  | CTask b id task => gives (Task grows b id task) c
  | CAgentLoop b id task => gives (AgentLoop grows b id task) c
  | CAgent b id task metadata => gives (Agent grows b id task metadata) c
  | CSubWorkflow b id workflow => gives (SubWorkflow grows b id workflow) c
  | CMap b id taskType => gives (Map grows b id taskType) c
  | CSleep b id duration => gives (Sleep grows b id duration) c
  | CWaitForEvent b id opts => gives (WaitForEvent grows b id opts) c
  | CApproval b id cfg => gives (Approval grows b id cfg) c
  | CPlanner b id task cfg => gives (Planner grows b id task cfg) c
  | CWithConcurrency b maxRuns maxSteps => runs (WithConcurrency b maxRuns maxSteps) c
  | CDependsOn b ids => runs (DependsOn b ids) c
  | CStepTimeout b d => runs (Builder_WithTimeout b d) c
  | CStepMaxIterations b n => runs (Builder_WithMaxIterations b n) c
  | CStepMaxDuration b d => runs (Builder_WithMaxDuration b d) c
  | CWithSticky b s => runs (WithSticky b s) c
  | CWithIdempotencyKey b dotPath => runs (WithIdempotencyKey b dotPath) c
  | CWithPriority b cfg => runs (WithPriority b cfg) c
  | CCancelOn b event m => runs (Builder_CancelOn b event m) c
  | CCancelOnWithTimeout b event m timeout => runs (CancelOnWithTimeout b event m timeout) c
  | CWithSingleton b mode => runs (WithSingleton b mode) c
  | CWithSingletonKey b mode key => runs (WithSingletonKey b mode key) c
  | CAfter r refs => runs (After (handle c r) (handle c <$> refs)) c
  | CWithTimeout r d => runs (WithTimeout (handle c r) d) c
  | CSkipIf r cond => runs (SkipIf (handle c r) cond) c
  | CWithRetries r n => runs (WithRetries (handle c r) n) c
  | CWithMaxIterations r n => runs (WithMaxIterations (handle c r) n) c
  | CWithLoopDelay r d => runs (WithLoopDelay (handle c r) d) c
  | CWithMaxDuration r d => runs (WithMaxDuration (handle c r) d) c
  | CWithMaxItems r n => runs (WithMaxItems (handle c r) n) c
  | CWithDetach r => runs (WithDetach (handle c r)) c
  | COnFailure r target => runs (OnFailure (handle c r) (handle c target)) c
  | CCompensate r target => runs (Compensate (handle c r) (handle c target)) c
  | CWithRateLimit r rl => runs (WithRateLimit (handle c r) rl) c
  | CWithKeyedRateLimit r krl => runs (WithKeyedRateLimit (handle c r) krl) c
  | CWithTaskConcurrency r max => runs (WithTaskConcurrency (handle c r) max) c
  end.

Fixpoint exec_all (cls : list call) (c : client) : outcome client :=
  match cls with
  | [] => Ret c
  | cl :: cls' => exec cl c ≫= exec_all cls'
  end.
End Exec.

(** ** What the doc comments ask of a caller *)

Definition has_builder (st : store) (b : nat) : bool := bool_decide (b < length (st_builders st))%nat.

Definition steps_at (st : store) (b : nat) : option (list StepDef) :=
  wb ← st_builders st !! b; st_arrays st !! wb_steps wb.

(** The step a handle stands for. *)
Definition handle_step (st : store) (r : StepRef) : option StepDef :=
  b ← sr_builder r; l ← steps_at st b; l !! sr_index r.

Definition active_step (st : store) (b : nat) : option StepDef := steps_at st b ≫= last.

Definition has_type (t : StepType) (s : option StepDef) : bool :=
  match s with Some s => bool_decide (sd_Type s = t) | None => false end.
Definition is_handle (r : StepRef) : bool := bool_decide (is_Some (sr_builder r)).
Definition same_builder (r target : StepRef) : bool := bool_decide (sr_builder target = sr_builder r).

Definition allowed (cl : call) (c : client) : bool :=
  let st := cl_store c in
  match cl with
  | CNewWorkflow _ => true
  | CVersion b _ | CTask b _ _ | CAgentLoop b _ _ | CWithConcurrency b _ _ | CWithPriority b _
  | CCancelOn b _ _ | CCancelOnWithTimeout b _ _ _ | CWithSingleton b _ | CWithSingletonKey b _ _ =>
      has_builder st b
  | CAgent b id task _ | CSubWorkflow b id task | CMap b id task =>
      has_builder st b && negb (empty_str id) && negb (empty_str task)
  | CSleep b id d => has_builder st b && negb (empty_str id) && (0 <? d)
  | CWaitForEvent b id opts => has_builder st b && negb (empty_str id) && negb (empty_str (we_Event opts))
  | CApproval b id cfg => has_builder st b && negb (empty_str id) && (0 <? ap_Timeout cfg)
  | CPlanner b id task cfg =>
      has_builder st b && negb (empty_str id) && negb (empty_str task) && (0 <? pl_MaxSteps cfg)
  | CDependsOn b _ | CStepTimeout b _ => bool_decide (is_Some (active_step st b))
  | CStepMaxIterations b _ | CStepMaxDuration b _ => has_type StepTypeAgentLoop (active_step st b)
  | CWithSticky b s => has_builder st b && sticky_value s
  | CWithIdempotencyKey b dotPath => has_builder st b && negb (empty_str dotPath)
  | CAfter r refs => is_handle (handle c r) && forallb (λ t, same_builder (handle c r) (handle c t)) refs
  | CWithTimeout r _ | CSkipIf r _ | CWithRetries r _ | CWithRateLimit r _ | CWithKeyedRateLimit r _ =>
      is_handle (handle c r)
  | CWithMaxIterations r _ | CWithLoopDelay r _ | CWithMaxDuration r _ =>
      has_type StepTypeAgentLoop (handle_step st (handle c r))
  | CWithMaxItems r n => has_type StepTypeMap (handle_step st (handle c r)) && (0 <? n)
  | CWithDetach r => has_type StepTypeSubWorkflow (handle_step st (handle c r))
  | COnFailure r t | CCompensate r t =>
      is_handle (handle c r) && same_builder (handle c r) (handle c t) &&
      negb (bool_decide (sr_id (handle c t) = sr_id (handle c r)))
  | CWithTaskConcurrency r max => is_handle (handle c r) && (0 <? max)
  end.

(** The integers of a call are Go [int]s and [time.Duration]s. *)
Definition call_typed (cl : call) : bool :=
  match cl with
  | CStepMaxIterations _ n | CStepMaxDuration _ n | CWithMaxIterations _ n | CWithLoopDelay _ n
  | CWithMaxDuration _ n | CWithMaxItems _ n => in_int64 n
  | _ => true
  end.

(** Wired without step names. *)
Definition by_handle (cl : call) : bool := match cl with CDependsOn _ _ => false | _ => true end.
