(* ===== verification/BuilderSpec.v ===== *)
(** * What builders keep

    [builders_ok]: every builder owns its array, its active step is the last one,
    the configurations its methods rewrite are ones they can read back, and,
    when no step was wired by name, every reference of a step is the ID of a
    step of the builder.  Each call preserves it when it is [allowed], panics
    otherwise, and never moves a step. *)

From S2P Require Import Prelude Float64 Json Types Config Graph GoTime Keys Validate Dynamic Builder.
From stdpp Require Import sorting.
From Stdlib Require Import Ascii.

#[local] Open Scope Z_scope.

(** ** Configurations are read back *)

Lemma in_int64_0 : in_int64 0 = true.
Proof. reflexivity. Qed.

(** What reading one encoded field does to a decoder that looks for
    another, and for it. *)
Lemma dec_other {A} (dec : A → json → outcome A) name cur k v fs :
  ToLower k ≠ ToLower name → dec_field dec name cur ((k, v) :: fs) = dec_field dec name cur fs.
Proof. intros H. simpl. by rewrite bool_decide_eq_false_2. Qed.

Record loop_typed (c : AgentLoopConfig) : Prop := {
  lt_1 : in_int64 (al_MaxIterations c) = true;
  lt_2 : in_int64 (al_MaxDuration c) = true;
  lt_3 : in_int64 (al_LoopDelay c) = true;
  lt_4 : in_int64 (al_BudgetWarnAt c) = true;
  lt_5 : in_int64 (al_BudgetForceAt c) = true;
}.

(** Splits on the optional fields and decodes what is left. *)
Ltac opt_int z :=
  unfold f_int_opt; destruct (Z.eqb_spec z 0) as [->|?].
Ltac decode_fields :=
  lazy -[in_int64 json_string]; repeat (match goal with H : in_int64 _ = true |- _ => rewrite H; lazy -[in_int64 json_string] end).

Lemma loop_roundtrip s c :
  sd_Type s = StepTypeAgentLoop → sd_Config s = Some (MarshalConfig c) → loop_typed c →
  ParseAgentLoopConfig s = Ret c.
Proof.
  intros Ht Hc [H1 H2 H3 H4 H5]. destruct c as [a b d e f]. cbn [al_MaxIterations al_MaxDuration al_LoopDelay al_BudgetWarnAt al_BudgetForceAt] in *.
  unfold ParseAgentLoopConfig, parse_config. rewrite Ht, bool_decide_eq_true_2, Hc by done.
  unfold MarshalConfig, json_fields, AgentLoopConfig_json, f_int. cbn [al_MaxIterations al_MaxDuration al_LoopDelay al_BudgetWarnAt al_BudgetForceAt].
  opt_int b; opt_int d; opt_int e; opt_int f; decode_fields; reflexivity.
Qed.

Lemma map_roundtrip s n :
  sd_Type s = StepTypeMap → sd_Config s = Some (MarshalConfig (MkMapConfig n)) → in_int64 n = true →
  ParseMapConfig s = Ret (MkMapConfig n).
Proof.
  intros Ht Hc H1. unfold ParseMapConfig, parse_config. rewrite Ht, bool_decide_eq_true_2, Hc by done.
  decode_fields. reflexivity.
Qed.

Lemma sub_roundtrip s c :
  sd_Type s = StepTypeSubWorkflow → sd_Config s = Some (MarshalConfig c) →
  ParseSubWorkflowConfig s = Ret (MkSubWorkflowConfig (json_string (sw_Workflow c)) (sw_Detach c)).
Proof.
  intros Ht Hc. unfold ParseSubWorkflowConfig, parse_config. rewrite Ht, bool_decide_eq_true_2, Hc by done.
  destruct c as [w []]; decode_fields; reflexivity.
Qed.

Lemma wait_roundtrip s c :
  sd_Type s = StepTypeWaitForEvent → sd_Config s = Some (MarshalConfig c) → in_int64 (we_Timeout c) = true →
  ParseWaitForEventConfig s = Ret (MkWaitForEventOpts (json_string (we_Event c))
    (MkMatch (json_string (m_Left (we_Match c))) (json_string (m_Op (we_Match c)))
       (json_string (m_Right (we_Match c)))) (we_Timeout c)).
Proof.
  intros Ht Hc H. unfold ParseWaitForEventConfig, parse_config. rewrite Ht, bool_decide_eq_true_2, Hc by done.
  destruct c as [e [l o r] t]. cbn [we_Timeout] in H. decode_fields. reflexivity.
Qed.

Lemma sleep_decode s c :
  sd_Type s = StepTypeSleep → sd_Config s = Some (MarshalConfig c) → in_int64 (sl_Duration c) = true →
  parse_config StepTypeSleep "Sleep" (durationjson_Unmarshal ["duration"]
    (MkSleepConfig 0 "" "" "" "") decode_SleepConfig) s =
  Ret (MkSleepConfig (sl_Duration c) (json_string (sl_Cron c)) (json_string (sl_UntilInputPath c))
    (json_string (sl_CronTimezone c)) (json_string (sl_CronTimezoneInputPath c))).
Proof.
  intros Ht Hc H. unfold parse_config. rewrite Ht, bool_decide_eq_true_2, Hc by done.
  destruct c as [d a b e f]. cbn [sl_Duration] in H. cbn [sl_Duration sl_Cron sl_UntilInputPath sl_CronTimezone sl_CronTimezoneInputPath].
  unfold MarshalConfig, json_fields, SleepConfig_json, f_str_opt, empty_str.
  cbn [sl_Duration sl_Cron sl_UntilInputPath sl_CronTimezone sl_CronTimezoneInputPath]. opt_int d.
  all: destruct (decide (a = "")) as [->|Ha]; [rewrite (bool_decide_eq_true_2 (_ = _)) by done|rewrite (bool_decide_eq_false_2 (a = _)) by done].
  all: destruct (decide (b = "")) as [->|Hb]; [rewrite (bool_decide_eq_true_2 (_ = _)) by done|rewrite (bool_decide_eq_false_2 (b = _)) by done].
  all: destruct (decide (e = "")) as [->|He]; [rewrite (bool_decide_eq_true_2 (_ = _)) by done|rewrite (bool_decide_eq_false_2 (e = _)) by done].
  all: destruct (decide (f = "")) as [->|Hf]; [rewrite (bool_decide_eq_true_2 (_ = _)) by done|rewrite (bool_decide_eq_false_2 (f = _)) by done].
  all: decode_fields; reflexivity.
Qed.

Lemma dec_strings_map l :
  mapM_outcome (dec_string "") ((λ t, JStr (json_string t)) <$> l) = Ret (json_string <$> l).
Proof. induction l as [|x l IH]; [done|]. rewrite !fmap_cons. cbn [mapM_outcome dec_string]. by rewrite IH. Qed.

Lemma planner_roundtrip s c :
  sd_Type s = StepTypePlanner → sd_Config s = Some (MarshalConfig c) →
  in_int64 (pl_MaxSteps c) = true → in_int64 (pl_MaxDepth c) = true →
  ParsePlannerConfig s = Ret (MkPlannerConfig (pl_MaxSteps c) (pl_MaxDepth c) (json_string <$> pl_AllowedTasks c)).
Proof.
  intros Ht Hc H1 H2. unfold ParsePlannerConfig, parse_config. rewrite Ht, bool_decide_eq_true_2, Hc by done.
  destruct c as [n d l]. cbn [pl_MaxSteps pl_MaxDepth pl_AllowedTasks] in *.
  unfold MarshalConfig, json_fields, PlannerConfig_json. cbn [pl_MaxSteps pl_MaxDepth pl_AllowedTasks].
  destruct (decide (l = [])) as [->|Hl].
  { rewrite bool_decide_eq_true_2 by done. opt_int d; decode_fields; reflexivity. }
  rewrite bool_decide_eq_false_2 by done. pose proof (dec_strings_map l) as Hd.
  set (js := (λ t, JStr (json_string t)) <$> l) in *. clearbody js. set (ks := json_string <$> l) in *. clearbody ks.
  opt_int d.
  all: lazy -[in_int64 json_string mapM_outcome dec_string mbind outcome_bind]; cbn [mbind outcome_bind]; rewrite ?H1, ?H2; cbn [mbind outcome_bind]; rewrite ?H1, ?H2, Hd; reflexivity.
Qed.

(** The entries of a map, in any order of its keys. *)
Lemma dec_entries_map (m acc : gmap string string) (ks : list string) :
  (∀ k v, m !! k = Some v → valid_utf8 k = true ∧ valid_utf8 v = true) →
  (∀ k, k ∈ ks → is_Some (m !! k)) →
  dec_entries (dec_string "") acc ((λ k, (json_string k, JStr (json_string (default "" (m !! k))))) <$> ks) =
  Ret (foldl (λ (acc : gmap string string) k, <[k := default "" (m !! k)]> acc) acc ks).
Proof.
  intros Hu. revert acc. induction ks as [|k ks IH]; intros acc Hk; simpl; [done|].
  destruct (Hk k) as [v Hv]; [by left|]. destruct (Hu _ _ Hv) as [H1%bool_decide_eq_true H2%bool_decide_eq_true].
  rewrite Hv. simpl. rewrite H1, H2. cbn. apply IH. intros k' ?. apply Hk. by right.
Qed.

Lemma fold_insert_lookup (m acc : gmap string string) ks k :
  foldl (λ (acc : gmap string string) k, <[k := default "" (m !! k)]> acc) acc ks !! k =
  if decide (k ∈ ks) then Some (default "" (m !! k)) else acc !! k.
Proof.
  revert acc. induction ks as [|k' ks IH]; intros acc; simpl; [done|]. rewrite IH.
  destruct (decide (k ∈ ks)) as [Hin|Hin]; [by rewrite decide_True by set_solver|].
  destruct (decide (k = k')) as [->|Hne].
  - by rewrite lookup_insert_eq, decide_True by set_solver.
  - by rewrite lookup_insert_ne, decide_False by set_solver.
Qed.

Lemma metadata_roundtrip (m : gmap string string) :
  (∀ k v, m !! k = Some v → valid_utf8 k = true ∧ valid_utf8 v = true) →
  dec_entries (dec_string "") ∅ ((λ k, (json_string k, JStr (json_string (default "" (m !! k))))) <$>
    merge_sort str_le (map_to_list m).*1) = Ret m.
Proof.
  intros Hu. assert (∀ k, k ∈ merge_sort str_le (map_to_list m).*1 ↔ is_Some (m !! k)) as Hk.
  { intros k. rewrite merge_sort_Permutation, list_elem_of_fmap. split.
    - intros ([k' v] & -> & H%elem_of_map_to_list). by exists v.
    - intros [v H]. exists (k, v). by rewrite elem_of_map_to_list. }
  rewrite dec_entries_map; [|done|by intros k ?%Hk]. f_equal. apply map_eq. intros k.
  rewrite fold_insert_lookup. case_decide as Hd; [apply Hk in Hd as [v ->]; done|].
  rewrite lookup_empty. destruct (m !! k) eqn:E; [|done]. exfalso. apply Hd, Hk. eauto.
Qed.

Lemma dec_this {A} (dec : A → json → outcome A) name cur v :
  dec_field dec name cur [(name, v)] = dec cur v.
Proof. simpl. rewrite bool_decide_eq_true_2 by done. by destruct (dec cur v). Qed.

Lemma metadata_field m before :
  (∀ k v, m !! k = Some v → valid_utf8 k = true ∧ valid_utf8 v = true) →
  Forall (λ '(k, _), ToLower k ≠ "metadata") before →
  dec_field dec_string_map "metadata" ∅ (before ++ f_map_opt "metadata" m) = Ret m.
Proof.
  intros Hu Hb. induction Hb as [|[k v] before Hk _ IH]; [|by rewrite <-app_comm_cons, dec_other].
  rewrite app_nil_l. unfold f_map_opt. case_bool_decide as Hm; [by rewrite Hm|].
  rewrite dec_this. by apply metadata_roundtrip.
Qed.

Lemma approval_roundtrip s c :
  sd_Type s = StepTypeApproval → sd_Config s = Some (MarshalConfig c) →
  in_int64 (ap_Timeout c) = true →
  (∀ k v, ap_Metadata c !! k = Some v → valid_utf8 k = true ∧ valid_utf8 v = true) →
  ParseApprovalConfig s = Ret (MkApprovalConfig (ap_Timeout c) (json_string (ap_Subject c))
    (json_string (ap_Description c)) (ap_Metadata c)).
Proof.
  intros Ht Hc H1 Hu. unfold ParseApprovalConfig, parse_config. rewrite Ht, bool_decide_eq_true_2, Hc by done.
  destruct c as [t u d m]. cbn [ap_Timeout ap_Metadata ap_Subject ap_Description] in *.
  unfold MarshalConfig, json_fields, ApprovalConfig_json. cbn [ap_Timeout ap_Metadata ap_Subject ap_Description].
  set (rest := f_str_opt "description" d ++ f_map_opt "metadata" m).
  cbn [durationjson_Unmarshal negb]. unfold decode_ApprovalConfig.
  assert (∃ js, f_map_opt "metadata" m = [] ∨ f_map_opt "metadata" m = [("metadata", JObj js)]) as [js Hjs].
  { unfold f_map_opt. case_bool_decide; [by exists []; left|]. eexists; by right. }
  assert (rewriteDurationStrings ["timeout"] (f_int "timeout" t ++ f_str "subject" u ++ rest) =
          Ret (f_int "timeout" t ++ f_str "subject" u ++ rest)) as ->.
  { unfold rest, f_str_opt. destruct (empty_str d), Hjs as [-> | ->]; lazy -[json_string]; reflexivity. }
  assert (dec_field dec_int "timeout" 0 (f_int "timeout" t ++ f_str "subject" u ++ rest) = Ret t) as Hf1.
  { unfold rest, f_str_opt. destruct (empty_str d), Hjs as [-> | ->]; decode_fields; reflexivity. }
  assert (dec_field dec_string "subject" "" (f_int "timeout" t ++ f_str "subject" u ++ rest) = Ret (json_string u)) as Hf2.
  { unfold rest, f_str_opt. destruct (empty_str d), Hjs as [-> | ->]; decode_fields; reflexivity. }
  assert (dec_field dec_string "description" "" (f_int "timeout" t ++ f_str "subject" u ++ rest) = Ret (json_string d)) as Hf3.
  { unfold rest, f_str_opt. destruct (empty_str d) eqn:Hd, Hjs as [-> | ->]; try (apply empty_str_true in Hd as ->); decode_fields; reflexivity. }
  assert (dec_field dec_string_map "metadata" ∅ (f_int "timeout" t ++ f_str "subject" u ++ rest) = Ret m) as Hf4.
  { unfold rest. rewrite (app_assoc (f_str _ _)), (app_assoc (f_int _ _)). apply metadata_field; [done|].
    unfold f_str_opt. destruct (empty_str d); repeat constructor; done. }
  cbn [mbind outcome_bind]. by rewrite Hf1, Hf2, Hf3, Hf4.
Qed.

(** ** The invariant *)

(** The configurations that methods read, change and write back. *)
Definition config_ok (s : StepDef) : Prop :=
  match sd_Type s with
  | StepTypeAgentLoop => ∃ c : AgentLoopConfig, sd_Config s = Some (MarshalConfig c) ∧ loop_typed c
  | StepTypeMap => ∃ n, sd_Config s = Some (MarshalConfig (MkMapConfig n)) ∧ in_int64 n = true
  | StepTypeSubWorkflow => ∃ c : SubWorkflowConfig, sd_Config s = Some (MarshalConfig c)
  | _ => True
  end.

(** The steps a step names. *)
Definition references (s : StepDef) : list string :=
  sd_DependsOn s ++ filter (λ id, id ≠ "") [sd_OnFailure s; sd_Compensate s].

Definition closed (l : list StepDef) : Prop := ∀ s id, s ∈ l → id ∈ references s → id ∈ ids_of l.

Definition list_ok (wired : bool) (l : list StepDef) : Prop :=
  (∀ s, s ∈ l → config_ok s) ∧ (wired = true → closed l).

Record builders_ok (wired : bool) (st : store) : Prop := {
  so_builder : ∀ b wb, st_builders st !! b = Some wb →
    ∃ l, st_arrays st !! wb_steps wb = Some l ∧ wb_current wb = Z.of_nat (length l) - 1 ∧ list_ok wired l;
  so_own : ∀ b b' wb wb', st_builders st !! b = Some wb → st_builders st !! b' = Some wb' →
    wb_steps wb = wb_steps wb' → b = b';
}.

(** No step moves, changes its ID or its type. *)
Definition extends (st st' : store) : Prop :=
  ∀ b l, steps_at st b = Some l → ∃ l', steps_at st' b = Some l' ∧
    ∀ i s, l !! i = Some s → ∃ s', l' !! i = Some s' ∧ sd_ID s' = sd_ID s ∧ sd_Type s' = sd_Type s.

Definition ref_ok (st : store) (r : StepRef) : Prop :=
  ∃ s, handle_step st r = Some s ∧ sd_ID s = sr_id r.

#[global] Instance extends_refl : Reflexive extends.
Proof. intros st b l Hl. exists l. split; [done|]. intros i s Hs. by exists s. Qed.

#[global] Instance extends_trans : Transitive extends.
Proof.
  intros s1 s2 s3 H12 H23 b l Hl. destruct (H12 b l Hl) as (l2 & Hl2 & H2). destruct (H23 b l2 Hl2) as (l3 & Hl3 & H3).
  exists l3. split; [done|]. intros i s Hs. destruct (H2 i s Hs) as (s' & Hs' & ? & ?). destruct (H3 i s' Hs') as (s'' & ? & ? & ?).
  exists s''. split_and!; congruence.
Qed.

Lemma ref_ok_extends st st' r : extends st st' → ref_ok st r → ref_ok st' r.
Proof.
  intros He (s & Hs & Hid). unfold handle_step in *. destruct (sr_builder r) as [b|] eqn:Hb; [|done]. cbn in Hs.
  destruct (steps_at st b) as [l|] eqn:Hl; [|done]. cbn in Hs. destruct (He b l Hl) as (l' & Hl' & Hi).
  destruct (Hi _ _ Hs) as (s' & ? & ? & _). exists s'. unfold handle_step. rewrite Hb. cbn. rewrite Hl'. cbn. split; congruence.
Qed.

Lemma steps_at_inv st b l :
  steps_at st b = Some l → ∃ wb, st_builders st !! b = Some wb ∧ st_arrays st !! wb_steps wb = Some l.
Proof. unfold steps_at. intros (wb & Hw & Hl)%bind_Some. eauto. Qed.

Lemma steps_at_some st b wb l :
  st_builders st !! b = Some wb → st_arrays st !! wb_steps wb = Some l → steps_at st b = Some l.
Proof. unfold steps_at. intros -> H. exact H. Qed.

Lemma has_builder_steps w st b : builders_ok w st → has_builder st b = true → ∃ l, steps_at st b = Some l.
Proof.
  intros [H _] Hb. apply bool_decide_eq_true in Hb. apply lookup_lt_is_Some in Hb as [wb Hw].
  destruct (H b wb Hw) as (l & Hl & _). exists l. by eapply steps_at_some.
Qed.

Lemma steps_at_list_ok w st b l : builders_ok w st → steps_at st b = Some l → list_ok w l.
Proof. intros [H _] (wb & Hw & Hl)%steps_at_inv. destruct (H b wb Hw) as (l' & ? & _ & ?). by simplify_eq. Qed.

(** An array of a builder, written: only its steps change. *)
Lemma write_array w st b wb l l' :
  builders_ok w st → st_builders st !! b = Some wb → st_arrays st !! wb_steps wb = Some l →
  length l' = length l → list_ok w l' →
  let st' := MkStore (st_builders st) (<[wb_steps wb := l']> (st_arrays st)) in
  builders_ok w st' ∧ steps_at st' b = Some l' ∧ ∀ b', b' ≠ b → steps_at st' b' = steps_at st b'.
Proof.
  intros [Hb Ho] Hw Hl Hlen Hok st'. pose proof (lookup_lt_Some _ _ _ Hl) as Hlt.
  assert (∀ b' wb', st_builders st !! b' = Some wb' →
    st_arrays st' !! wb_steps wb' = if decide (b' = b) then Some l' else st_arrays st !! wb_steps wb') as Harr.
  { intros b' wb' Hw'. unfold st'. cbn. case_decide as Hd.
    - subst. simplify_eq. by apply list_lookup_insert_eq.
    - apply list_lookup_insert_ne. intros E. by apply Hd, (Ho b' b wb' wb). }
  split_and!.
  - split; [|exact Ho]. intros b' wb' Hw'. cbn in Hw'. rewrite (Harr _ _ Hw'). case_decide as Hd.
    + subst. simplify_eq. exists l'. destruct (Hb _ _ Hw) as (? & ? & Hc & _). simplify_eq. rewrite Hlen. done.
    + by apply (Hb b').
  - eapply steps_at_some; [done|]. rewrite (Harr _ _ Hw). by rewrite decide_True.
  - intros b' Hne. unfold steps_at. cbn [st_builders]. unfold st'. cbn [st_builders st_arrays].
    destruct (st_builders st !! b') as [wb'|] eqn:Hw'; [|done].
    cbn [mbind option_bind]. specialize (Harr _ _ Hw'). by rewrite decide_False in Harr.
Qed.

(** A change that keeps a builder's steps and active step. *)
Lemma set_builder_ok w st b f :
  builders_ok w st → has_builder st b = true →
  (∀ wb, wb_steps (f wb) = wb_steps wb ∧ wb_current (f wb) = wb_current wb) →
  ∃ st', set_builder b f st = Ret (tt, st') ∧ builders_ok w st' ∧ ∀ b', steps_at st' b' = steps_at st b'.
Proof.
  intros [Hb Ho] Hh Hf. eexists. split; [done|].
  assert (∀ b' wb', alter f b (st_builders st) !! b' = Some wb' →
    ∃ wb, st_builders st !! b' = Some wb ∧ wb_steps wb' = wb_steps wb ∧ wb_current wb' = wb_current wb) as Hinv.
  { intros b' wb' Hw'. destruct (decide (b' = b)) as [->|Hne].
    - rewrite list_lookup_alter_eq in Hw'. apply fmap_Some in Hw' as (wb & Hw & ->). destruct (Hf wb). eauto.
    - rewrite list_lookup_alter_ne in Hw' by done. eauto. }
  split; [split|].
  - intros b' wb' (wb & Hw & Hs & Hc)%Hinv. cbn. rewrite Hs, Hc. by apply (Hb b').
  - intros b1 b2 w1 w2 (v1 & H1 & Hs1 & _)%Hinv (v2 & H2 & Hs2 & _)%Hinv E. apply (Ho b1 b2 v1 v2); [done..|congruence].
  - intros b'. unfold steps_at. cbn. destruct (decide (b' = b)) as [->|Hne].
    + rewrite list_lookup_alter_eq. destruct (st_builders st !! b) as [wb|]; [|done]. cbn. by rewrite (proj1 (Hf wb)).
    + by rewrite list_lookup_alter_ne.
Qed.

Lemma extends_same st st' : (∀ b, steps_at st' b = steps_at st b) → extends st st'.
Proof. intros H b l Hl. exists l. rewrite H. split; [done|]. intros i s Hs. by exists s. Qed.

(** ** Methods, with their preconditions

    [bspec P m st Q]: with the precondition the method returns in a state of
    [Q], without it it panics. *)
Definition bspec {A} (P : bool) (m : bm A) (st : store) (Q : A → store → Prop) : Prop :=
  (P = true → ∃ a st', m st = Ret (a, st') ∧ Q a st') ∧ (P = false → ∃ msg, m st = Panic msg).

Lemma bspec_guard {A} P g msg (f : unit → bm A) st Q :
  (g = true → P = false) → (g = false → bspec P (f tt) st Q) → bspec P (bm_of (panic_if g msg) ≫= f) st Q.
Proof.
  intros Ht Hf. destruct g; [|by apply Hf]. split; [|by exists msg]. rewrite Ht by done. done.
Qed.

Lemma bspec_get {A} P b (f : WorkflowBuilder → bm A) st Q :
  (has_builder st b = false → P = false) →
  (∀ wb, st_builders st !! b = Some wb → has_builder st b = true → bspec P (f wb) st Q) →
  bspec P (get_builder b ≫= f) st Q.
Proof.
  intros Hn Hs. unfold bspec, mbind, bm_bind, get_builder.
  destruct (st_builders st !! b) as [wb|] eqn:E.
  - apply Hs; [done|]. apply bool_decide_eq_true. by eapply lookup_lt_Some.
  - assert (P = false) as ->; [|split; [done|eauto]]. apply Hn, bool_decide_eq_false. intros Hlt.
    apply lookup_lt_is_Some in Hlt as [? ?]. congruence.
Qed.

Lemma bspec_ret {A B} P (m : bm A) (f : A → bm B) st a st' Q :
  m st = Ret (a, st') → bspec P (f a) st' Q → bspec P (m ≫= f) st Q.
Proof. intros H. unfold bspec, mbind, bm_bind. by rewrite H. Qed.

Lemma bspec_true {A} (m : bm A) st a st' (Q : A → store → Prop) : m st = Ret (a, st') → Q a st' → bspec true m st Q.
Proof. intros H HQ. split; [|done]. eauto. Qed.

Lemma bspec_mret {A} (a : A) st (Q : A → store → Prop) : Q a st → bspec true (mret a) st Q.
Proof. by apply bspec_true. Qed.

Lemma get_builder_ret st b wb : st_builders st !! b = Some wb → get_builder b st = Ret (wb, st).
Proof. unfold get_builder. by intros ->. Qed.
Lemma get_steps_ret st wb l : st_arrays st !! wb_steps wb = Some l → get_steps wb st = Ret (l, st).
Proof. unfold get_steps. by intros ->. Qed.

Lemma get_step_ret st b i l s : steps_at st b = Some l → l !! i = Some s → get_step b i st = Ret (s, st).
Proof.
  intros (wb & Hw & Hl)%steps_at_inv Hs. unfold get_step, mbind, bm_bind.
  by rewrite (get_builder_ret _ _ _ Hw), (get_steps_ret _ _ _ Hl), Hs.
Qed.

(** A change of one step that keeps its ID and type. *)
Record edit_ok (w : bool) (l : list StepDef) (s s' : StepDef) : Prop := {
  eo_id : sd_ID s' = sd_ID s;
  eo_type : sd_Type s' = sd_Type s;
  eo_config : config_ok s → config_ok s';
  eo_refs : w = true → ∀ id, id ∈ references s' → id ∈ references s ∨ id ∈ ids_of l;
}.

Lemma ids_of_insert l i s s' : l !! i = Some s → sd_ID s' = sd_ID s → ids_of (<[i := s']> l) = ids_of l.
Proof. intros Hs Hid. unfold ids_of. rewrite list_fmap_insert, Hid. apply list_insert_id. by rewrite list_lookup_fmap, Hs. Qed.

Lemma elem_insert {A} (l : list A) i x y : x ∈ <[i := y]> l → x = y ∨ x ∈ l.
Proof.
  intros [j Hj]%list_elem_of_lookup. apply list_lookup_insert_Some in Hj as [(_ & -> & _)|[_ Hj]]; [by left|].
  right. by eapply list_elem_of_lookup_2.
Qed.

Lemma edit_list_ok w l i s s' :
  list_ok w l → l !! i = Some s → edit_ok w l s s' → list_ok w (<[i := s']> l).
Proof.
  intros [Hc Hcl] Hs [Hid Ht Hcfg Href]. pose proof (list_elem_of_lookup_2 _ _ _ Hs) as Hin. split.
  - intros t Ht'. apply elem_insert in Ht' as [->|Ht']; [by apply Hcfg, Hc|by apply Hc].
  - intros Hw t id Ht' Hr. rewrite (ids_of_insert _ _ _ _ Hs Hid).
    apply elem_insert in Ht' as [->|Ht']; [|by eapply Hcl].
    destruct (Href Hw id Hr) as [Hold|]; [by eapply Hcl|done].
Qed.

(** What a write changes: one step of one builder. *)
Definition edited (st st' : store) (b i : nat) (s' : StepDef) : Prop :=
  st_builders st' = st_builders st ∧ (∀ l, steps_at st b = Some l → steps_at st' b = Some (<[i := s']> l)) ∧
  ∀ b', b' ≠ b → steps_at st' b' = steps_at st b'.

Lemma edited_extends st st' b i l s s' :
  steps_at st b = Some l → l !! i = Some s → sd_ID s' = sd_ID s → sd_Type s' = sd_Type s →
  edited st st' b i s' → extends st st'.
Proof.
  intros Hl Hs Hid Ht (_ & Hsame & Hother) b' l' Hl'. destruct (decide (b' = b)) as [->|Hne].
  - simplify_eq. exists (<[i := s']> l). split; [by apply Hsame|]. intros j t Hj.
    destruct (decide (j = i)) as [->|Hji].
    + simplify_eq. exists s'. split; [|done]. apply list_lookup_insert_eq. by eapply lookup_lt_Some.
    + exists t. by rewrite list_lookup_insert_ne.
  - exists l'. rewrite Hother by done. split; [done|]. intros j t Hj. by exists t.
Qed.

Lemma set_step_ok w st b i l s f :
  builders_ok w st → steps_at st b = Some l → l !! i = Some s → edit_ok w l s (f s) →
  ∃ st', set_step b i f st = Ret (tt, st') ∧ builders_ok w st' ∧ extends st st' ∧ edited st st' b i (f s).
Proof.
  intros Hst Hl Hs He. pose proof (steps_at_list_ok _ _ _ _ Hst Hl) as Hok.
  destruct (steps_at_inv _ _ _ Hl) as (wb & Hw & Ha).
  destruct (write_array w st b wb l (<[i := f s]> l) Hst Hw Ha) as (H1 & H2 & H3);
    [by rewrite length_insert|by eapply edit_list_ok|].
  set (st' := MkStore _ _) in *. assert (edited st st' b i (f s)) as Hed.
  { split_and!; [done| |done]. intros l0 E. rewrite Hl in E. by injection E as <-. }
  exists st'. split_and!; [|done| |done].
  - unfold set_step, mbind, bm_bind. by rewrite (get_builder_ret _ _ _ Hw), (get_steps_ret _ _ _ Ha), Hs.
  - eapply edited_extends; [done..| | |done]; apply He.
Qed.

(** A builder whose steps are replaced, in place or in a new array. *)
Lemma replace_steps w st st' b wb' l' :
  builders_ok w st →
  (∀ b', st_builders st' !! b' = if decide (b' = b) then Some wb' else st_builders st !! b') →
  st_arrays st' !! wb_steps wb' = Some l' → wb_current wb' = Z.of_nat (length l') - 1 → list_ok w l' →
  (∀ b' wb, b' ≠ b → st_builders st !! b' = Some wb →
    wb_steps wb ≠ wb_steps wb' ∧ st_arrays st' !! wb_steps wb = st_arrays st !! wb_steps wb) →
  builders_ok w st' ∧ steps_at st' b = Some l' ∧ ∀ b', b' ≠ b → steps_at st' b' = steps_at st b'.
Proof.
  intros [Hb Ho] Hbs Ha Hc Hl Hother. split_and!; [split| |].
  - intros b' v. rewrite Hbs. case_decide as Hd; [intros [= <-]; eauto|]. intros Hv.
    destruct (Hother b' v Hd Hv) as [_ ->]. by apply (Hb b').
  - intros b1 b2 v1 v2. rewrite !Hbs. case_decide as H1; case_decide as H2; intros E1 E2 E; simplify_eq; try done.
    + by destruct (Hother b2 v2 H2 E2) as [[] _].
    + by destruct (Hother b1 v1 H1 E1) as [[] _].
    + by apply (Ho b1 b2 v1 v2).
  - apply (steps_at_some _ _ wb'); [|done]. by rewrite Hbs, decide_True.
  - intros b' Hne. unfold steps_at. rewrite Hbs, decide_False by done.
    destruct (st_builders st !! b') as [v|] eqn:Hv; [|done]. by destruct (Hother b' v Hne Hv).
Qed.

Lemma alter_lookup {A} (f : A → A) (l : list A) b x b' :
  l !! b = Some x → alter f b l !! b' = if decide (b' = b) then Some (f x) else l !! b'.
Proof.
  intros Hx. case_decide as Hd; [subst; by rewrite list_lookup_alter_eq, Hx|by rewrite list_lookup_alter_ne].
Qed.

Lemma set_steps_fields v c wb :
  wb_steps (wb_set_current c (wb_set_steps v wb)) = v ∧ wb_current (wb_set_current c (wb_set_steps v wb)) = c ∧
  wb_steps (wb_set_current c wb) = wb_steps wb ∧ wb_current (wb_set_current c wb) = c ∧
  wb_steps (wb_set_steps v wb) = v.
Proof. by destruct wb. Qed.

Lemma append_list_ok w l step :
  list_ok w l → config_ok step → references step = [] → list_ok w (l ++ [step]).
Proof.
  intros [Hc Hcl] Hs Hr. split.
  - intros t [Ht|Ht%list_elem_of_singleton]%elem_of_app; [by apply Hc|by subst].
  - intros Hw t id [Ht|Ht%list_elem_of_singleton]%elem_of_app Hid.
    + unfold ids_of. rewrite fmap_app, elem_of_app. left. by eapply Hcl.
    + subst. rewrite Hr in Hid. by apply elem_of_nil in Hid.
Qed.

Section Add.
Context (grows : nat → bool).

(** The step goes last and the handle is for it. *)
Lemma added_last w st b l step :
  builders_ok w st → steps_at st b = Some l → config_ok step → references step = [] →
  ∃ st', add_new_step grows b step st = Ret (MkStepRef (sd_ID step) (length l) (Some b), st') ∧
    builders_ok w st' ∧ steps_at st' b = Some (l ++ [step]) ∧ ∀ b', b' ≠ b → steps_at st' b' = steps_at st b'.
Proof.
  intros Hst Hl Hc Hr. pose proof (steps_at_list_ok _ _ _ _ Hst Hl) as Hok.
  pose proof (append_list_ok _ _ _ Hok Hc Hr) as Hok'. destruct (steps_at_inv _ _ _ Hl) as (wb & Hw & Ha).
  set (cur := Z.of_nat (length (l ++ [step])) - 1).
  assert (Z.to_nat cur = length l) as Hcur by (unfold cur; rewrite length_app; cbn; lia).
  unfold add_new_step, append_steps, mbind, bm_bind. rewrite (get_builder_ret _ _ _ Hw), (get_steps_ret _ _ _ Ha).
  destruct (grows (length l)).
  - pose proof (set_steps_fields (length (st_arrays st)) cur wb) as (F1 & F2 & _ & _ & F3). cbn [move_steps].
    set (st1 := MkStore _ _). assert (st_builders st1 !! b = Some (wb_set_steps (length (st_arrays st)) wb)) as Hw1.
    { cbn. by rewrite (alter_lookup _ _ _ _ _ Hw), decide_True. }
    assert (st_arrays st1 !! length (st_arrays st) = Some (l ++ [step])) as Ha1 by (cbn; by apply list_lookup_middle).
    rewrite (get_builder_ret _ _ _ Hw1), (get_steps_ret _ _ (l ++ [step])) by (by rewrite F3).
    cbn [set_builder mret bm_ret]. fold cur. rewrite Hcur. eexists. split; [done|].
    apply (replace_steps w st _ b (wb_set_current cur (wb_set_steps (length (st_arrays st)) wb))); [done| |by rewrite F1|by rewrite F2|done|].
    + intros b'. cbn [st_builders]. rewrite (alter_lookup _ _ _ _ _ Hw1). case_decide as Hd; [done|].
      cbn. by rewrite list_lookup_alter_ne.
    + intros b' v Hne Hv. destruct (so_builder _ _ Hst b' v Hv) as (lv & Hlv & _). pose proof (lookup_lt_Some _ _ _ Hlv) as Hlt.
      rewrite F1. split; [lia|]. cbn. by apply lookup_app_l.
  - pose proof (set_steps_fields 0 cur wb) as (_ & _ & F1 & F2 & _). cbn [set_array].
    set (st1 := MkStore _ _). assert (st_builders st1 !! b = Some wb) as Hw1 by done.
    assert (st_arrays st1 !! wb_steps wb = Some (l ++ [step])) as Ha1.
    { cbn. apply list_lookup_insert_eq. by eapply lookup_lt_Some. }
    rewrite (get_builder_ret _ _ _ Hw1), (get_steps_ret _ _ _ Ha1).
    cbn [set_builder mret bm_ret]. fold cur. rewrite Hcur. eexists. split; [done|].
    apply (replace_steps w st _ b (wb_set_current cur wb)); [done| |by rewrite F1|by rewrite F2|done|].
    + intros b'. cbn [st_builders]. apply (alter_lookup _ _ _ _ _ Hw1).
    + intros b' v Hne Hv. assert (wb_steps v ≠ wb_steps wb) as Hd.
      { intros E. apply Hne. by apply (so_own _ _ Hst b' b v wb). }
      rewrite F1. split; [done|]. cbn. by apply list_lookup_insert_ne.
Qed.

Lemma added_extends st st' b l step :
  steps_at st b = Some l → steps_at st' b = Some (l ++ [step]) →
  (∀ b', b' ≠ b → steps_at st' b' = steps_at st b') → extends st st'.
Proof.
  intros Hl Hl' Ho b' k Hk. destruct (decide (b' = b)) as [->|Hne].
  - simplify_eq. eexists. split; [done|]. intros i s Hs. exists s. by rewrite (lookup_app_l_Some _ _ _ _ Hs).
  - exists k. rewrite Ho by done. split; [done|]. intros i s Hs. by exists s.
Qed.

(** What every method establishes. *)
Definition keeps (w : bool) (st st' : store) : Prop := builders_ok w st' ∧ extends st st'.

Lemma add_step_spec w st b step :
  builders_ok w st → has_builder st b = true → config_ok step → references step = [] →
  bspec true (add_new_step grows b step) st (λ r st', keeps w st st' ∧ ref_ok st' r).
Proof.
  intros Hst Hb Hc Hr. destruct (has_builder_steps _ _ _ Hst Hb) as [l Hl].
  destruct (added_last w st b l step Hst Hl Hc Hr) as (st' & Hret & Hst' & Hl' & Ho).
  apply (bspec_true _ _ _ _ _ Hret). split; [split; [done|by eapply added_extends]|].
  exists step. split; [|done]. unfold handle_step. cbn. rewrite Hl'. cbn. by apply list_lookup_middle.
Qed.
End Add.

Lemma new_ok w st name :
  builders_ok w st → bspec true (NewWorkflow name) st (λ _ st', keeps w st st').
Proof.
  intros Hst. eapply bspec_true; [done|]. set (wb' := MkBuilder _ _ _ _ _ _ _ _ _ _). set (st' := MkStore _ _).
  assert (∀ b wb, st_builders st !! b = Some wb → (b < length (st_builders st))%nat ∧ wb_steps wb ≠ length (st_arrays st) ∧
    st_arrays st' !! wb_steps wb = st_arrays st !! wb_steps wb) as Hold.
  { intros b wb Hw. destruct (so_builder _ _ Hst b wb Hw) as (l & Hl & _). pose proof (lookup_lt_Some _ _ _ Hl).
    pose proof (lookup_lt_Some _ _ _ Hw). split_and!; [done|lia|]. cbn. by apply lookup_app_l. }
  destruct (replace_steps w st st' (length (st_builders st)) wb' []) as (H1 & H2 & H3).
  - done.
  - intros b'. cbn. case_decide as Hd; [subst; by apply list_lookup_middle|].
    destruct (decide (b' < length (st_builders st))%nat); [by apply lookup_app_l|].
    rewrite !lookup_ge_None_2; [done|lia|rewrite length_app; cbn; lia].
  - cbn. by apply list_lookup_middle.
  - done.
  - split; [intros s Hs; by apply elem_of_nil in Hs|]. intros _ s id Hs. by apply elem_of_nil in Hs.
  - intros b' wb Hne Hw. destruct (Hold b' wb Hw) as (_ & ? & ?). done.
  - split; [done|]. intros b l Hl. exists l. destruct (steps_at_inv _ _ _ Hl) as (wb & Hw & _).
    destruct (Hold b wb Hw) as (Hlt & _). rewrite H3 by lia. split; [done|]. intros i s Hs. by exists s.
Qed.

(** ** Edits *)

(** A change to fields other than the configuration and the references. *)
Lemma edit_plain w l s s' :
  sd_ID s' = sd_ID s → sd_Type s' = sd_Type s → sd_Config s' = sd_Config s → references s' = references s →
  edit_ok w l s s'.
Proof.
  intros H1 H2 H3 H4. split; [done|done| |].
  - unfold config_ok. by rewrite H2, H3.
  - intros _ id. rewrite H4. by left.
Qed.

Lemma edit_reconfigured w l s r :
  (config_ok s → config_ok (sd_set_Config r s)) → edit_ok w l s (sd_set_Config r s).
Proof. intros H. destruct s. split; [done|done|exact H|]. intros _ id Hid. by left. Qed.

Lemma edit_deps w l s ids :
  (w = true → ∀ id, id ∈ ids → id ∈ ids_of l) → edit_ok w l s (add_deps ids s).
Proof.
  intros H. destruct s. split; [done|done|done|]. intros Hw id. unfold references. cbn.
  rewrite <-app_assoc, !elem_of_app. intros [?|[?|?]]; [naive_solver| |naive_solver]. right. by apply H.
Qed.

Lemma edit_target w l s t f :
  f = sd_set_OnFailure ∨ f = sd_set_Compensate → (w = true → t ∈ ids_of l) → edit_ok w l s (f t s).
Proof.
  intros Hf H. split.
  - by destruct Hf as [-> | ->], s.
  - by destruct Hf as [-> | ->], s.
  - by destruct Hf as [-> | ->], s.
  - intros Hw id. unfold references. rewrite !elem_of_app, !list_elem_of_filter, !elem_of_cons.
    destruct Hf as [-> | ->], s; cbn; intros [?|[? [->|[->|Hn]]]]; try (by apply elem_of_nil in Hn); eauto; naive_solver.
Qed.

Lemma set_step_spec w st b i l s f :
  builders_ok w st → steps_at st b = Some l → l !! i = Some s → edit_ok w l s (f s) →
  bspec true (set_step b i f) st (λ _ st', keeps w st st').
Proof.
  intros Hst Hl Hs He. destruct (set_step_ok _ _ _ _ _ _ _ Hst Hl Hs He) as (st' & Hr & ? & ? & _).
  by apply (bspec_true _ _ _ _ _ Hr).
Qed.

Lemma bspec_seq {A B} (m : bm A) (f : A → bm B) st (Q : A → store → Prop) (R : B → store → Prop) :
  bspec true m st Q → (∀ a st', Q a st' → bspec true (f a) st' R) → bspec true (m ≫= f) st R.
Proof. intros [Hm _] Hf. destruct (Hm eq_refl) as (a & st' & Hr & HQ). eapply bspec_ret; [done|]. by apply Hf. Qed.

Lemma bspec_then_ret {A B} P (m : bm A) (b : B) st (Q : store → Prop) :
  bspec P m st (λ _, Q) → bspec P (m ≫= λ _, mret b) st (λ _, Q).
Proof.
  intros [Ht Hf]. split.
  - intros HP. destruct (Ht HP) as (a & st' & Hr & HQ). exists b, st'. unfold mbind, bm_bind. by rewrite Hr.
  - intros HP. destruct (Hf HP) as [msg Hr]. exists msg. unfold mbind, bm_bind. by rewrite Hr.
Qed.

Lemma edit_config_spec {A} `{JsonStruct A} w st b i l s t wrong bad (parse : StepDef → outcome A) f :
  builders_ok w st → steps_at st b = Some l → l !! i = Some s →
  (sd_Type s = t → config_ok s → ∃ cfg, parse s = Ret cfg ∧ config_ok (sd_set_Config (Some (MarshalConfig (f cfg))) s)) →
  bspec (bool_decide (sd_Type s = t)) (edit_config b i t wrong bad parse f) st (λ _ st', keeps w st st').
Proof.
  intros Hst Hl Hs Hp. unfold edit_config. eapply bspec_ret; [by eapply get_step_ret|]. apply bspec_guard.
  { by intros ->%negb_true_iff. }
  intros Ht%negb_false_iff. rewrite Ht. apply bool_decide_eq_true in Ht.
  pose proof (steps_at_list_ok _ _ _ _ Hst Hl) as [Hok _]. destruct (Hp Ht) as (cfg & -> & Hc).
  { by apply Hok, (list_elem_of_lookup_2 _ i). }
  eapply set_step_spec; [done..|]. by apply edit_reconfigured.
Qed.

Definition loop_edit (f : AgentLoopConfig → AgentLoopConfig) : Prop := ∀ c, loop_typed c → loop_typed (f c).

Lemma loop_edits n : in_int64 n = true →
  loop_edit (al_set_MaxIterations n) ∧ loop_edit (al_set_MaxDuration n) ∧ loop_edit (al_set_LoopDelay n).
Proof. intros Hn. split_and!; intros c []; by split. Qed.

Lemma sd_set_Config_fields r s : sd_Type (sd_set_Config r s) = sd_Type s ∧ sd_Config (sd_set_Config r s) = r ∧ sd_ID (sd_set_Config r s) = sd_ID s.
Proof. by destruct s. Qed.

Lemma loop_readable s f : loop_edit f → sd_Type s = StepTypeAgentLoop → config_ok s →
  ∃ cfg, ParseAgentLoopConfig s = Ret cfg ∧ config_ok (sd_set_Config (Some (MarshalConfig (f cfg))) s).
Proof.
  intros Hf Ht Hc. pose proof (sd_set_Config_fields) as Hset. unfold config_ok in Hc. rewrite Ht in Hc. destruct Hc as (c & Hc & Hty).
  exists c. split; [by apply loop_roundtrip|]. unfold config_ok. destruct (Hset (Some (MarshalConfig (f c))) s) as (-> & -> & _).
  rewrite Ht. eauto.
Qed.

Lemma map_readable s n : in_int64 n = true → sd_Type s = StepTypeMap → config_ok s →
  ∃ cfg, ParseMapConfig s = Ret cfg ∧ config_ok (sd_set_Config (Some (MarshalConfig (MkMapConfig n))) s).
Proof.
  intros Hn Ht Hc. unfold config_ok in *. destruct (sd_set_Config_fields (Some (MarshalConfig (MkMapConfig n))) s) as (-> & -> & _).
  rewrite Ht in *. destruct Hc as (k & Hc & Hk). exists (MkMapConfig k). split; [by apply map_roundtrip|eauto].
Qed.

Lemma sub_readable s : sd_Type s = StepTypeSubWorkflow → config_ok s →
  ∃ cfg, ParseSubWorkflowConfig s = Ret cfg ∧
    config_ok (sd_set_Config (Some (MarshalConfig (MkSubWorkflowConfig (sw_Workflow cfg) true))) s).
Proof.
  intros Ht Hc. unfold config_ok in *. rewrite Ht in Hc. destruct Hc as (c & Hc). eexists. split; [by apply sub_roundtrip|].
  cbn [sw_Workflow]. destruct (sd_set_Config_fields (Some (MarshalConfig (MkSubWorkflowConfig (json_string (sw_Workflow c)) true))) s) as (-> & -> & _).
  rewrite Ht. eauto.
Qed.

(** ** Handles *)

Definition handle_ok (st : store) (r : StepRef) : Prop := r = zero_StepRef ∨ ref_ok st r.

Lemma ref_ok_inv st r : ref_ok st r →
  ∃ b l s, sr_builder r = Some b ∧ steps_at st b = Some l ∧ l !! sr_index r = Some s ∧ sd_ID s = sr_id r ∧
    handle_step st r = Some s.
Proof.
  intros (s & Hs & Hid). unfold handle_step in *. destruct (sr_builder r) as [b|]; [|done]. cbn in *.
  destruct (steps_at st b) as [l|] eqn:Hl; [|done]. cbn in *. eauto 10.
Qed.

Lemma ref_ok_id st r b l : ref_ok st r → sr_builder r = Some b → steps_at st b = Some l → sr_id r ∈ ids_of l.
Proof.
  intros (b' & l' & s & Hb & Hl & Hs & Hid & _)%ref_ok_inv. intros. simplify_eq. rewrite <-Hid.
  apply list_elem_of_fmap. exists s. split; [done|]. by eapply list_elem_of_lookup_2.
Qed.

(** The guard of a handle's methods: the zero handle panics, any other finds
    its step. *)
Lemma bspec_owner {A} P r msg (f : nat → bm A) st Q :
  handle_ok st r → (is_handle r = false → P = false) →
  (∀ b l s, sr_builder r = Some b → is_handle r = true → steps_at st b = Some l → l !! sr_index r = Some s →
    handle_step st r = Some s → bspec P (f b) st Q) →
  bspec P (owner r msg ≫= f) st Q.
Proof.
  intros [->|Hr] Hz Hs.
  - rewrite (Hz eq_refl). split; [done|]. intros _. by exists msg.
  - destruct (ref_ok_inv _ _ Hr) as (b & l & s & Hb & Hl & Hi & _ & Hstep). unfold owner. rewrite Hb.
    apply (bspec_ret P (mret b) f st b st); [done|]. eapply Hs; try done. apply bool_decide_eq_true. rewrite Hb. eauto.
Qed.

Lemma write_step_spec w st r msg f :
  builders_ok w st → handle_ok st r → (∀ l s, edit_ok w l s (f s)) →
  bspec (is_handle r) (write_step r msg f) st (λ _ st', keeps w st st').
Proof.
  intros Hst Hr Hf. apply bspec_owner; [done|done|]. intros b l s _ -> Hl Hs _.
  apply bspec_then_ret. by eapply set_step_spec.
Qed.

Lemma edit_handle_spec {A} `{JsonStruct A} w st r msg t wrong bad (parse : StepDef → outcome A) f :
  builders_ok w st → handle_ok st r →
  (∀ s, sd_Type s = t → config_ok s → ∃ cfg, parse s = Ret cfg ∧ config_ok (sd_set_Config (Some (MarshalConfig (f cfg))) s)) →
  bspec (has_type t (handle_step st r)) (b ← owner r msg; edit_config b (sr_index r) t wrong bad parse f ≫= λ _, mret r) st
    (λ _ st', keeps w st st').
Proof.
  intros Hst Hr Hp. apply bspec_owner; [done| |].
  - destruct Hr as [-> | (b & l & s & Hb & _)%ref_ok_inv]; [done|]. unfold is_handle. rewrite Hb.
    rewrite bool_decide_eq_true_2 by eauto. done.
  - intros b l s _ _ Hl Hs ->. apply bspec_then_ret. cbn [has_type]. eapply edit_config_spec; eauto.
Qed.

Lemma active_inv w st b :
  builders_ok w st → (∃ l s, steps_at st b = Some l ∧ active_step st b = Some s ∧ l !! pred (length l) = Some s ∧
    ∃ wb, st_builders st !! b = Some wb ∧ wb_current wb = Z.of_nat (length l) - 1 ∧ (0 < length l)%nat) ∨
  active_step st b = None ∧ (∀ wb, st_builders st !! b = Some wb → wb_current wb = -1).
Proof.
  intros Hst. unfold active_step. destruct (steps_at st b) as [l|] eqn:Hl; cbn.
  - destruct (steps_at_inv _ _ _ Hl) as (wb & Hw & Ha). destruct (so_builder _ _ Hst b wb Hw) as (l' & Ha' & Hc & _). simplify_eq.
    destruct (last l) as [s|] eqn:Hlast.
    + left. exists l, s. rewrite last_lookup in Hlast. split_and!; try done. exists wb. split_and!; [done..|].
      destruct l; [done|cbn; lia].
    + right. split; [done|]. intros wb' Hw'. simplify_eq. apply last_None in Hlast as ->. done.
  - right. split; [done|]. intros wb Hw. destruct (so_builder _ _ Hst b wb Hw) as (l & Ha & _).
    by rewrite (steps_at_some _ _ _ _ Hw Ha) in Hl.
Qed.

(** The guard of the methods on the active step. *)
Lemma bspec_current {A} w P b msg (f : nat → bm A) st Q :
  builders_ok w st → (active_step st b = None → P = false) →
  (∀ i l s, steps_at st b = Some l → l !! i = Some s → active_step st b = Some s → bspec P (f i) st Q) →
  bspec P (active_index b msg ≫= f) st Q.
Proof.
  intros Hst Hn Hs. unfold active_index, bspec, mbind, bm_bind.
  destruct (active_inv w st b Hst) as [(l & s & Hl & Has & Hi & wb & Hw & Hc & Hlt)|(Hnone & Hcur)].
  - rewrite (get_builder_ret _ _ _ Hw). assert ((wb_current wb <? 0) = false) as -> by lia. cbn.
    assert (Z.to_nat (wb_current wb) = pred (length l)) as -> by lia. eapply Hs; done.
  - rewrite (Hn Hnone). split; [done|]. intros _. unfold get_builder. destruct (st_builders st !! b) as [wb|] eqn:Hw; [|eauto].
    rewrite (Hcur wb eq_refl). cbn. eauto.
Qed.

Lemma set_builder_spec w st b f :
  builders_ok w st → has_builder st b = true →
  (∀ wb, wb_steps (f wb) = wb_steps wb ∧ wb_current (f wb) = wb_current wb) →
  bspec true (set_builder b f) st (λ _ st', keeps w st st').
Proof.
  intros Hst Hb Hf. destruct (set_builder_ok _ _ _ _ Hst Hb Hf) as (st' & Hr & ? & Hsame).
  apply (bspec_true _ _ _ _ _ Hr). split; [done|]. by apply extends_same.
Qed.

Lemma after_loop_spec w st b i (refs : list StepRef) :
  builders_ok w st → (∃ l s, steps_at st b = Some l ∧ l !! i = Some s) → (∀ t, t ∈ refs → handle_ok st t) →
  bspec (forallb (λ t, bool_decide (sr_builder t = Some b)) refs) (after_loop b i refs) st (λ _ st', keeps w st st').
Proof.
  revert st. induction refs as [|t refs IH]; intros st Hst (l & s & Hl & Hs) Hrefs; cbn [after_loop forallb].
  { apply bspec_mret. by split. }
  apply bspec_guard; [by intros ->%negb_true_iff|]. intros Ht%negb_false_iff. rewrite Ht. apply bool_decide_eq_true in Ht.
  cbn [andb]. assert (ref_ok st t) as Hok.
  { destruct (Hrefs t) as [->|]; [by left|done|done]. }
  destruct (set_step_ok w st b i l s (add_deps [sr_id t]) Hst Hl Hs) as (st' & Hr & Hst' & Hext & _ & Hsame & _).
  { apply edit_deps. intros _ id ->%list_elem_of_singleton. by eapply ref_ok_id. }
  eapply bspec_ret; [done|]. destruct (IH st' Hst') as [HT HF].
  - eexists _, _. split; [by apply Hsame|]. apply list_lookup_insert_eq. by eapply lookup_lt_Some.
  - intros u Hu. destruct (Hrefs u) as [?|?]; [by right|by left|right]. by eapply ref_ok_extends.
  - split; [|done]. intros HP. destruct (HT HP) as (a & st'' & Hret & Hst'' & Hext'). exists a, st''. split; [done|].
    split; [done|]. by etrans.
Qed.

(** ** Calls *)

Definition client_ok (w : bool) (c : client) : Prop :=
  builders_ok w (cl_store c) ∧ ∀ r, r ∈ cl_refs c → ref_ok (cl_store c) r.

(** What a call that returns does: handles keep their steps. *)
Definition after_call (w : bool) (c c' : client) : Prop :=
  client_ok w c' ∧ extends (cl_store c) (cl_store c') ∧ cl_refs c `prefix_of` cl_refs c'.

Definition call_spec (w P : bool) (c : client) (o : outcome client) : Prop :=
  (P = true → ∃ c', o = Ret c' ∧ after_call w c c') ∧ (P = false → ∃ msg, o = Panic msg).

Lemma refs_extend w c st' : client_ok w c → keeps w (cl_store c) st' → client_ok w (MkClient st' (cl_refs c)).
Proof. intros [_ Hr] [Hst He]. split; [done|]. intros r Hin. eapply ref_ok_extends; [done|]. by apply Hr. Qed.

Lemma runs_spec {A} w P (m : bm A) c :
  client_ok w c → bspec P m (cl_store c) (λ _ st', keeps w (cl_store c) st') → call_spec w P c (runs m c).
Proof.
  intros Hc [Ht Hf]. unfold runs. split.
  - intros HP. destruct (Ht HP) as (a & st' & -> & Hk). cbn. eexists. split; [done|]. split_and!.
    + by eapply refs_extend.
    + apply Hk.
    + done.
  - intros HP. destruct (Hf HP) as [msg ->]. by exists msg.
Qed.

Lemma gives_spec w P (m : bm StepRef) c :
  client_ok w c → bspec P m (cl_store c) (λ r st', keeps w (cl_store c) st' ∧ ref_ok st' r) → call_spec w P c (gives m c).
Proof.
  intros Hc [Ht Hf]. unfold gives. split.
  - intros HP. destruct (Ht HP) as (r & st' & -> & Hk & Hr). cbn. eexists. split; [done|].
    pose proof (refs_extend _ _ _ Hc Hk) as [? Hrefs]. split_and!; [split; [done|]|apply Hk|by apply prefix_app_r].
    intros r' [Hin|Hin%list_elem_of_singleton]%elem_of_app; [by apply Hrefs|by subst].
  - intros HP. destruct (Hf HP) as [msg ->]. by exists msg.
Qed.

Lemma client_handle w c i : client_ok w c → handle_ok (cl_store c) (handle c i).
Proof.
  intros [_ Hr]. unfold handle. destruct (cl_refs c !! i) as [r|] eqn:E; [right|by left].
  by apply Hr, (list_elem_of_lookup_2 _ i).
Qed.

Section Calls.
Context (grows : nat → bool).

Lemma adds_spec w P c b step :
  client_ok w c → config_ok step → references step = [] → P = has_builder (cl_store c) b →
  bspec P (add_new_step grows b step) (cl_store c) (λ r st', keeps w (cl_store c) st' ∧ ref_ok st' r).
Proof.
  intros [Hst _] Hcfg Hr ->. destruct (has_builder (cl_store c) b) eqn:Hb; [by apply add_step_spec|].
  split; [done|]. intros _. unfold add_new_step, append_steps, mbind, bm_bind.
  destruct (get_builder b (cl_store c)) as [[]|e|msg] eqn:E; [| |eauto].
  - unfold get_builder in E. destruct (_ !! b) as [wb|] eqn:Hw; [|done]. apply lookup_lt_Some in Hw.
    by apply bool_decide_eq_false in Hb.
  - unfold get_builder in E. by destruct (_ !! b).
Qed.

(** Methods that change one field of the builder. *)
Lemma field_spec w c b f P :
  client_ok w c → P = has_builder (cl_store c) b →
  (∀ v wb, wb_steps (f v wb) = wb_steps wb ∧ wb_current (f v wb) = wb_current wb) →
  bspec P (v ← get_builder b; set_builder b (f v)) (cl_store c) (λ _ st', keeps w (cl_store c) st').
Proof.
  intros [Hst _] -> Hf. apply bspec_get; [done|]. intros wb _ Hb. rewrite Hb. apply set_builder_spec; auto.
Qed.

(** Methods that check two arguments and add a step. *)
Lemma guarded_spec w c b g1 g2 m1 m2 step P :
  client_ok w c → config_ok step → references step = [] →
  P = has_builder (cl_store c) b && negb g1 && negb g2 →
  call_spec w P c (gives (bm_of (panic_if g1 m1) ≫= λ _, bm_of (panic_if g2 m2) ≫= λ _, add_new_step grows b step) c).
Proof.
  intros Hc Hcfg Hr ->. apply gives_spec; [done|]. apply bspec_guard; [intros ->; by rewrite andb_false_r|intros ->].
  apply bspec_guard; [intros ->; by rewrite andb_false_r|intros ->]. apply adds_spec; [done..|]. by rewrite !andb_true_r.
Qed.

(** The calls that add a step. *)
Definition is_add (cl : call) : bool :=
  match cl with
  | CTask _ _ _ | CAgentLoop _ _ _ | CAgent _ _ _ _ | CSubWorkflow _ _ _ | CMap _ _ _ | CSleep _ _ _
  | CWaitForEvent _ _ _ | CApproval _ _ _ | CPlanner _ _ _ _ => true
  | _ => false
  end.

Lemma exec_add w cl c : client_ok w c → is_add cl = true → call_spec w (allowed cl c) c (exec grows cl c).
Proof.
  intros Hc Ha. destruct cl; try done; cbn [exec allowed].
  - apply gives_spec; [done|]. by apply adds_spec.
  - apply gives_spec; [done|]. apply adds_spec; [done| |done|done]. eexists. split; [done|]. by split.
  - by apply guarded_spec.
  - apply guarded_spec; [done|by eexists|done|done].
  - apply guarded_spec; [done|by eexists|done|done].
  - apply guarded_spec; [done..|]. by rewrite Z.leb_antisym, negb_involutive.
  - by apply guarded_spec.
  - apply guarded_spec; [done..|]. by rewrite Z.leb_antisym, negb_involutive.
  - apply gives_spec; [done|]. apply bspec_guard; [intros ->; by rewrite andb_false_r|intros ->].
    apply bspec_guard; [intros ->; by rewrite andb_false_r|intros ->].
    apply bspec_guard; [intros Hm; rewrite Z.leb_antisym, negb_true_iff in Hm; by rewrite Hm, andb_false_r|intros Hm].
    rewrite Z.leb_antisym, negb_false_iff in Hm. apply adds_spec; [done..|]. by rewrite Hm, !andb_true_r.
Qed.

(** The calls on a builder that add no step. *)
Definition is_setting (cl : call) : bool :=
  match cl with
  | CNewWorkflow _ | CVersion _ _ | CWithConcurrency _ _ _ | CWithSticky _ _ | CWithIdempotencyKey _ _
  | CWithPriority _ _ | CCancelOn _ _ _ | CCancelOnWithTimeout _ _ _ _ | CWithSingleton _ _
  | CWithSingletonKey _ _ _ => true
  | _ => false
  end.

Lemma exec_setting w cl c : client_ok w c → is_setting cl = true → call_spec w (allowed cl c) c (exec grows cl c).
Proof.
  intros Hc Ha. destruct cl; try done; cbn [exec allowed]; (apply runs_spec; [done|]).
  all: try (apply (field_spec w c b (λ _, _)); [done..|]; by intros ? []).
  - by apply new_ok, Hc.
  - apply bspec_get; [by intros ->|]. intros wb _ Hb. apply bspec_guard; [intros ->%negb_true_iff; by rewrite andb_false_r|].
    intros ->%negb_false_iff. rewrite Hb. apply set_builder_spec; [apply Hc|done|]. by intros [].
  - apply bspec_get; [by intros ->|]. intros wb _ Hb. apply bspec_guard; [intros ->; by rewrite andb_false_r|].
    intros ->. rewrite Hb. apply set_builder_spec; [apply Hc|done|]. by intros [].
Qed.

(** The calls on the active step. *)
Definition is_active (cl : call) : bool :=
  match cl with
  | CDependsOn _ _ | CStepTimeout _ _ | CStepMaxIterations _ _ | CStepMaxDuration _ _ => true
  | _ => false
  end.

Lemma exec_active w cl c :
  client_ok w c → call_typed cl = true → (w = true → by_handle cl = true) → is_active cl = true →
  call_spec w (allowed cl c) c (exec grows cl c).
Proof.
  intros Hc Hty Hbh Ha. destruct cl; try done; cbn [exec allowed call_typed] in *; (apply runs_spec; [done|]); pose proof (proj1 Hc) as Hst.
  all: apply (bspec_current w); [done|by intros ->|]; intros i l s Hl Hs ->.
  - rewrite bool_decide_eq_true_2 by eauto. eapply set_step_spec; [done..|]. apply edit_deps. intros Hw. by apply Hbh in Hw.
  - rewrite bool_decide_eq_true_2 by eauto. eapply set_step_spec; [done..|]. apply edit_plain; by destruct s.
  - cbn [has_type]. eapply edit_config_spec; [done..|]. by apply loop_readable, loop_edits.
  - cbn [has_type]. eapply edit_config_spec; [done..|]. by apply loop_readable, loop_edits.
Qed.

Lemma designate_spec w st r t m1 m2 m3 f :
  builders_ok w st → handle_ok st r → handle_ok st t → f = sd_set_OnFailure ∨ f = sd_set_Compensate →
  bspec (is_handle r && same_builder r t && negb (bool_decide (sr_id t = sr_id r)))
    (designate r t m1 m2 m3 f) st (λ _ st', keeps w st st').
Proof.
  intros Hst Hr Ht Hf. unfold designate. apply bspec_owner; [done|by intros ->|]. intros b l s Hb -> Hl Hs _.
  unfold same_builder. rewrite Hb. apply bspec_guard; [by intros ->%negb_true_iff|]. intros Hsame%negb_false_iff. rewrite Hsame.
  apply bool_decide_eq_true in Hsame. apply bspec_guard; [by intros ->|]. intros ->. apply bspec_then_ret.
  eapply set_step_spec; [done..|]. apply edit_target; [done|]. intros _. destruct Ht as [->|Ht]; [done|]. by eapply ref_ok_id.
Qed.

Lemma exec_handle w cl c :
  client_ok w c → call_typed cl = true → is_add cl = false → is_setting cl = false → is_active cl = false →
  call_spec w (allowed cl c) c (exec grows cl c).
Proof.
  intros Hc Hty H1 H2 H3. pose proof (proj1 Hc) as Hst. pose proof (λ i, client_handle w c i Hc) as Hh.
  destruct cl; try done; clear H1 H2 H3; cbn [exec allowed call_typed] in *; (apply runs_spec; [done|]).
  all: try (apply write_step_spec; [done..|]; intros l s; apply edit_plain; by destruct s).
  all: try (apply edit_handle_spec; [done..|]; intros s; first [by apply loop_readable, loop_edits|by apply sub_readable]).
  - apply bspec_owner; [done|by intros ->|]. intros b l s Hb -> Hl Hs _. apply bspec_then_ret. cbn [andb].
    assert (forallb (λ t, same_builder (handle c r) (handle c t)) refs =
            forallb (λ t, bool_decide (sr_builder t = Some b)) (handle c <$> refs)) as ->.
    { induction refs as [|t refs IH]; [done|]. cbn. rewrite IH. unfold same_builder at 1. by rewrite Hb. }
    apply after_loop_spec; [done|eauto|]. intros t (i & -> & _)%list_elem_of_fmap. done.
  - apply bspec_owner; [done| |].
    { intros Hz. destruct (Hh r) as [->|(b & l & s & Hb & _)%ref_ok_inv]; [done|]. unfold is_handle in Hz.
      rewrite Hb, bool_decide_eq_true_2 in Hz by eauto. done. }
    intros b l s Hb _ Hl Hs ->. cbn [has_type]. eapply bspec_ret; [by eapply get_step_ret|].
    apply bspec_guard; [by intros ->%negb_true_iff|]. intros Ht%negb_false_iff. rewrite Ht. cbn [andb].
    apply bspec_guard; [intros; lia|]. intros Hn. assert ((0 <? n) = true) as -> by lia. apply bspec_then_ret.
    rewrite <-Ht. eapply edit_config_spec; [done..|]. intros. by apply map_readable.
  - apply designate_spec; [done..|by left].
  - apply designate_spec; [done..|by right].
  - apply bspec_owner; [done|by intros ->|]. intros b l s Hb -> Hl Hs _. cbn [andb].
    apply bspec_guard; [intros; lia|]. intros Hn. assert ((0 <? max) = true) as -> by lia. apply bspec_then_ret.
    eapply set_step_spec; [done..|]. apply edit_plain; by destruct s.
Qed.

Lemma exec_spec w cl c :
  client_ok w c → call_typed cl = true → (w = true → by_handle cl = true) →
  call_spec w (allowed cl c) c (exec grows cl c).
Proof.
  intros Hc Hty Hbh. destruct (is_add cl) eqn:H1; [by apply exec_add|]. destruct (is_setting cl) eqn:H2; [by apply exec_setting|].
  destruct (is_active cl) eqn:H3; [by apply exec_active|by apply exec_handle].
Qed.

Lemma exec_all_ok w cls c c' :
  client_ok w c → forallb call_typed cls = true → (w = true → forallb by_handle cls = true) →
  exec_all grows cls c = Ret c' → after_call w c c'.
Proof.
  revert c. induction cls as [|cl cls IH]; intros c Hc Hty Hbh; cbn [exec_all forallb] in *.
  { intros [= <-]. split_and!; [done|reflexivity|done]. }
  apply andb_true_iff in Hty as [Ht1 Ht2]. assert (w = true → by_handle cl = true) as Hb1 by (intros Hw; by apply Hbh, andb_true_iff in Hw as []).
  assert (w = true → forallb by_handle cls = true) as Hb2 by (intros Hw; by apply Hbh, andb_true_iff in Hw as []).
  intros (c1 & He & Hall)%bind_ret_iff. destruct (exec_spec w cl c Hc Ht1 Hb1) as [HT HF].
  destruct (allowed cl c); [|destruct HF as [msg E]; [done|]; by rewrite E in He].
  destruct HT as (c2 & E & Hc2 & He2 & Hp2); [done|]. rewrite E in He. injection He as ->.
  destruct (IH c1 Hc2 Ht2 Hb2 Hall) as (Hc' & He' & Hp'). split_and!; [done|by etrans|by etrans].
Qed.
End Calls.

Lemma fresh_ok w : client_ok w fresh_client.
Proof. split; [split|]; cbn; intros; try done. by apply elem_of_nil in H. Qed.
