(* ===== verification/Correlator.v ===== *)
(** * The event correlator (internal/engine/correlator.go)

    A wait for an event, or a cancellation rule of a run, is a waiter: an entry
    of the [event_waiters] bucket under [{event type}.{run}.{step}].  The
    correlator keeps the waiters of each event type in memory, from the updates
    of a watch on the bucket; an event of the EVENTS stream is matched against
    them, a match publishes to the run's history and deletes the entry, which
    takes the waiter out of the index when the watch reports it.

    The bucket is a map and the updates the watch has not delivered yet; a
    value is the waiter [json.Marshal] wrote ([encoding/json] reads it back, its
    strings being UTF-8) or bytes that are not one.  Whether a write, a delete
    or a publish reaches the server is an argument of the operation.  The
    operations run concurrently: [step] interleaves them at the calls to the
    server and at the sections the mutex protects. *)

From S2P Require Import Prelude Float64 Json Types Config Keys GoTime Resolve Input Advance Dispatch Fence Recovery Handlers Timers Lease Script Planners Events.
From stdpp Require Import relations.
From Stdlib Require Import Ascii.

#[local] Open Scope Z_scope.

Definition maxWaitersPerEventType : Z := 10000.

Definition WaiterActionComplete : string := "complete".
Definition WaiterActionCancel : string := "cancel".

(** ** State *)

Inductive wvalue : Type :=
  | WBad
  | WJson (w : EventWaiter).

Inductive update : Type :=
  | UPut (key : string) (v : wvalue)
  | UDel (key : string).

Record bucket : Type := MkBucket {
  bk_entries : gmap string wvalue;
  bk_updates : list update;
}.

(** [startOnce] has run; [kvWatch] is not nil; [waiters]. *)
Record Correlator : Type := MkCorrelator {
  co_once : bool;
  co_watch : bool;
  co_waiters : gmap string (list EventWaiter);
}.

Record world : Type := MkWorld {
  wo_c : Correlator;
  wo_b : bucket;
  wo_out : list protocol.Event;
}.

Definition new_world : world := MkWorld (MkCorrelator false false ∅) (MkBucket ∅ []) [].

Definition waiters_of (c : Correlator) (eventType : string) : list EventWaiter :=
  default [] (co_waiters c !! eventType).

Definition set_waiters (f : gmap string (list EventWaiter) → gmap string (list EventWaiter)) (w : world) : world :=
  MkWorld (MkCorrelator (co_once (wo_c w)) (co_watch (wo_c w)) (f (co_waiters (wo_c w)))) (wo_b w) (wo_out w).

(** ** The bucket *)

Definition kv_put (key : string) (v : wvalue) (w : world) : world :=
  MkWorld (wo_c w) (MkBucket (<[key := v]> (bk_entries (wo_b w))) (bk_updates (wo_b w) ++ [UPut key v])) (wo_out w).
Definition kv_delete (key : string) (w : world) : world :=
  MkWorld (wo_c w) (MkBucket (delete key (bk_entries (wo_b w))) (bk_updates (wo_b w) ++ [UDel key])) (wo_out w).

Definition waiter_key_of (eventType runID stepID : string) : string := eventType +:+ "." +:+ runID +:+ "." +:+ stepID.
Definition waiter_key (w : EventWaiter) : string := waiter_key_of (ew_EventType w) (ew_RunID w) (ew_StepID w).

(** ** Start

    The watch first delivers the entries of the bucket, in the order
    [initial].  A failure leaves no watch; [sync.Once] runs the start only the
    first time, whatever it returned. *)
Definition Start (ok : bool) (initial : list (string * wvalue)) (w : world) : outcome unit * world :=
  if co_once (wo_c w) then (Ret tt, w)
  else if ok then
    (Ret tt, MkWorld (MkCorrelator true true (co_waiters (wo_c w)))
               (MkBucket (bk_entries (wo_b w)) ((λ '(k, v), UPut k v) <$> initial)) (wo_out w))
  else (Err (Errorf "watch event_waiters: %w" []),
        MkWorld (MkCorrelator true false (co_waiters (wo_c w))) (wo_b w) (wo_out w)).

(** ** Registration *)

(** [AddWaiter] up to the write: the start and the bound. *)
Definition admit_waiter (ok : bool) (initial : list (string * wvalue)) (x : EventWaiter) (w : world)
    : outcome unit * world :=
  match panic_if (empty_str (ew_RunID x)) "Correlator.AddWaiter: RunID must not be empty";;
        panic_if (empty_str (ew_StepID x)) "Correlator.AddWaiter: StepID must not be empty";;
        panic_if (empty_str (ew_EventType x)) "Correlator.AddWaiter: EventType must not be empty" with
  | Panic msg => (Panic msg, w)
  | Err e => (Err e, w)
  | Ret _ =>
      match Start ok initial w with
      | (Ret _, w) =>
          let count := Z.of_nat (length (waiters_of (wo_c w) (ew_EventType x))) in
          (fail_if (maxWaitersPerEventType <=? count)
             (Errorf "event type %q has %d waiters (max %d)"
                [AStr (ew_EventType x); AInt count; AInt maxWaitersPerEventType]), w)
      | (o, w) => (wrap_err (λ e, Errorf "start correlator: %w" [AErr e]) o, w)
      end
  end.

Definition AddWaiter (ok : bool) (initial : list (string * wvalue)) (put_ok : bool) (x : EventWaiter) (w : world)
    : outcome unit * world :=
  match admit_waiter ok initial x w with
  | (Ret _, w) =>
      if put_ok then (Ret tt, kv_put (waiter_key x) (WJson x) w)
      else (Err (Errorf "nats: timeout" []), w)
  | r => r
  end.

(** The part of [RemoveWaitersForRun] under the lock: the keys of the run's
    waiters, and the index without them; [types] are the event types in the
    order Go iterates the map. *)
Definition of_run (runID : string) (x : EventWaiter) : bool := bool_decide (ew_RunID x = runID).

Definition run_keys (runID : string) (types : list string) (c : Correlator) : list string :=
  types ≫= λ eventType,
    (λ x, waiter_key_of eventType (ew_RunID x) (ew_StepID x)) <$> List.filter (of_run runID) (waiters_of c eventType).

Definition drop_run (runID : string) (w : world) : world :=
  set_waiters (fmap (List.filter (λ x, negb (of_run runID x)))) w.

(** The deletes that follow; an error is ignored. *)
Fixpoint delete_keys (keys : list string) (oks : list bool) (w : world) : world :=
  match keys with
  | [] => w
  | key :: keys' => delete_keys keys' (tail oks) (if default true (head oks) then kv_delete key w else w)
  end.

Definition RemoveWaitersForRun (types : list string) (runID : string) (oks : list bool) (w : world) : outcome world :=
  panic_if (empty_str runID) "Correlator.RemoveWaitersForRun: runID must not be empty";;
  Ret (if negb (co_watch (wo_c w)) then w
       else delete_keys (run_keys runID types (wo_c w)) oks (drop_run runID w)).

(** ** The watch *)

Definition handleKVPut (key : string) (v : wvalue) (w : world) : outcome world :=
  panic_if (empty_str key) "handleKVPut: entry.Key() must not be empty";;
  match v with
  | WBad => Ret w
  | WJson x =>
      if empty_str (ew_EventType x) then Ret w
      else Ret (set_waiters (λ m, <[ew_EventType x := default [] (m !! ew_EventType x) ++ [x]]> m) w)
  end.

(** The first waiter of a run's step, taken out. *)
Fixpoint remove_waiter (runID stepID : string) (l : list EventWaiter) : list EventWaiter :=
  match l with
  | [] => []
  | x :: l' =>
      if bool_decide (ew_RunID x = runID) && bool_decide (ew_StepID x = stepID) then l'
      else x :: remove_waiter runID stepID l'
  end.

Definition handleKVDelete (key : string) (w : world) : outcome world :=
  panic_if (empty_str key) "handleKVDelete: entry.Key() must not be empty";;
  match splitn_char "." 3 key with
  | [eventType; runID; stepID] => Ret (set_waiters (alter (remove_waiter runID stepID) eventType) w)
  | _ => Ret w
  end.

(** One update of [processKVUpdates]. *)
Definition process_update (u : update) (w : world) : outcome world :=
  match u with
  | UPut key v => handleKVPut key v w
  | UDel key => handleKVDelete key w
  end.

Definition take_update (w : world) : option (update * world) :=
  match bk_updates (wo_b w) with
  | [] => None
  | u :: us => Some (u, MkWorld (wo_c w) (MkBucket (bk_entries (wo_b w)) us) (wo_out w))
  end.

(** The watch catches up: every update it has not delivered. *)
Fixpoint process_updates (us : list update) (w : world) : outcome world :=
  match us with
  | [] => Ret w
  | u :: us' => process_update u w ≫= process_updates us'
  end.
Definition processKVUpdates (w : world) : outcome world :=
  process_updates (bk_updates (wo_b w)) (MkWorld (wo_c w) (MkBucket (bk_entries (wo_b w)) []) (wo_out w)).

(** ** Events *)

Definition extractEventType (subject : string) : outcome string :=
  panic_if (empty_str subject) "extractEventType: subject must not be empty";;
  panic_if (negb (HasPrefix subject "event.")) "extractEventType: subject must start with 'event.'";;
  Ret (str_from 6 subject).

Section Events.
Context (fmt_float : f64 → string).

(** [publishMatchEvent] and [publishCancelEvent]: what a match publishes; an
    event that does not marshal or does not reach the stream is dropped. *)
Definition match_event (x : EventWaiter) (data : option raw) (now : Time) : outcome protocol.Event :=
  let action := if empty_str (ew_Action x) then WaiterActionComplete else ew_Action x in
  if bool_decide (action = WaiterActionCancel)
  then protocol.NewWorkflowEvent EventWorkflowCancelled (ew_RunID x) data now
  else protocol.NewStepEvent EventStepWaitMatched (ew_RunID x) (ew_StepID x) data now.

Definition publish (e : protocol.Event) (w : world) : world := MkWorld (wo_c w) (wo_b w) (wo_out w ++ [e]).

Definition marshals (data : option raw) : bool :=
  match data with Some (RawBad _) => false | _ => true end.

(** [evaluateWaiter], with what becomes of the publish and of the delete. *)
Definition matches (x : EventWaiter) (data : option raw) : outcome bool :=
  panic_if (empty_str (ew_RunID x)) "evaluateWaiter: RunID must not be empty";;
  panic_if (empty_str (ew_StepID x)) "evaluateWaiter: StepID must not be empty";;
  match Evaluate fmt_float (ew_Match x) data with
  | Ret b => Ret b
  | Err _ => Ret false
  | Panic msg => Panic msg
  end.

Definition evaluateWaiter (x : EventWaiter) (data : option raw) (now : Time) (pub_ok del_ok : bool) (w : world)
    : outcome world :=
  matched ← matches x data;
  if negb matched then Ret w
  else
    evt ← match_event x data now;
    let w := if marshals data && pub_ok then publish evt w else w in
    Ret (if del_ok then kv_delete (waiter_key x) w else w).

Fixpoint evaluate_all (l : list EventWaiter) (data : option raw) (now : Time) (oks : list (bool * bool)) (w : world)
    : outcome world :=
  match l with
  | [] => Ret w
  | x :: l' =>
      let '(pub_ok, del_ok) := default (true, true) (head oks) in
      evaluateWaiter x data now pub_ok del_ok w ≫= evaluate_all l' data now (tail oks)
  end.

Definition handleEventJS (subject : string) (data : option raw) (now : Time) (oks : list (bool * bool)) (w : world)
    : outcome world :=
  panic_if (raw_len0 data) "Correlator.handleEventJS: msg.Data must not be empty";;
  eventType ← extractEventType subject;
  if empty_str eventType then Ret w
  else evaluate_all (waiters_of (wo_c w) eventType) data now oks w.
End Events.

(** ** Interleavings *)

(** The operations under way: waiters admitted and not yet written, waiters of
    an event not yet evaluated, keys to delete; and the runs whose waiters were
    dropped. *)
Record sys : Type := MkSys {
  sy_w : world;
  sy_puts : list EventWaiter;
  sy_evals : list (EventWaiter * option raw * Time);
  sy_dels : list string;
  sy_dropped : gset string;
}.

Definition new_sys : sys := MkSys new_world [] [] [] ∅.

Definition plain (s : string) : bool := negb (empty_str s) && negb (str_contains_char "." s).

(** Names a key can be read back from; step IDs may have dots. *)
Definition plain_waiter (x : EventWaiter) : bool :=
  plain (ew_EventType x) && plain (ew_RunID x) && negb (empty_str (ew_StepID x)).

Section Steps.
Context (fmt_float : f64 → string).

(** The caller registers a waiter only when the bucket has none under its
    key. *)
Inductive step : sys → sys → Prop :=
  | step_admit ok initial x w w' puts evals dels dropped :
      initial ≡ₚ map_to_list (bk_entries (wo_b w)) → admit_waiter ok initial x w = (Ret tt, w') →
      step (MkSys w puts evals dels dropped) (MkSys w' (puts ++ [x]) evals dels dropped)
  | step_refuse ok initial x w w' e puts evals dels dropped :
      initial ≡ₚ map_to_list (bk_entries (wo_b w)) → admit_waiter ok initial x w = (Err e, w') →
      step (MkSys w puts evals dels dropped) (MkSys w' puts evals dels dropped)
  | step_put x w puts puts' evals dels dropped :
      puts ≡ₚ x :: puts' → plain_waiter x = true → bk_entries (wo_b w) !! waiter_key x = None →
      step (MkSys w puts evals dels dropped) (MkSys (kv_put (waiter_key x) (WJson x) w) puts' evals dels dropped)
  | step_put_lost x w puts puts' evals dels dropped :
      puts ≡ₚ x :: puts' → step (MkSys w puts evals dels dropped) (MkSys w puts' evals dels dropped)
  | step_update u w w1 w2 puts evals dels dropped :
      co_watch (wo_c w) = true → take_update w = Some (u, w1) → process_update u w1 = Ret w2 →
      step (MkSys w puts evals dels dropped) (MkSys w2 puts evals dels dropped)
  | step_event subject e data now w puts evals dels dropped :
      raw_len0 data = false → extractEventType subject = Ret e →
      step (MkSys w puts evals dels dropped)
           (MkSys w puts (evals ++ ((λ x, (x, data, now)) <$> waiters_of (wo_c w) e)) dels dropped)
  | step_match x data now e pub_ok w puts evals evals' dels dropped :
      evals ≡ₚ (x, data, now) :: evals' → matches fmt_float x data = Ret true → match_event x data now = Ret e →
      step (MkSys w puts evals dels dropped)
           (MkSys (if marshals data && pub_ok then publish e w else w) puts evals' (dels ++ [waiter_key x]) dropped)
  | step_skip x data now w puts evals evals' dels dropped :
      evals ≡ₚ (x, data, now) :: evals' → matches fmt_float x data = Ret false →
      step (MkSys w puts evals dels dropped) (MkSys w puts evals' dels dropped)
  | step_delete (ok : bool) key w puts evals dels dels' dropped :
      dels ≡ₚ key :: dels' →
      step (MkSys w puts evals dels dropped) (MkSys (if ok then kv_delete key w else w) puts evals dels' dropped)
  | step_drop runID types w puts evals dels dropped :
      runID ≠ "" → co_watch (wo_c w) = true → types ≡ₚ (map_to_list (co_waiters (wo_c w))).*1 →
      step (MkSys w puts evals dels dropped)
           (MkSys (drop_run runID w) puts evals (dels ++ run_keys runID types (wo_c w)) ({[runID]} ∪ dropped)).
End Steps.
