(* ===== verification/CorrelatorSpec.v ===== *)
(** * The waiter index tracks the bucket

    When waiters are registered once and the event types and run IDs have no
    dots, the index the watch maintains is the bucket as of the updates
    delivered, but for the runs whose waiters were dropped, under every
    interleaving of registrations, updates, events and removals. *)

From S2P Require Import Prelude Float64 Json Types Config Keys GoTime Resolve Input Advance Dispatch Fence Recovery Handlers Timers Lease Script Planners Events Correlator.
From stdpp Require Import relations.
From Stdlib Require Import Ascii.

#[local] Open Scope Z_scope.

(** ** Keys *)

Lemma splitn_step n a b : str_contains_char "." a = false →
  splitn_char "." (S (S n)) (a +:+ "." +:+ b) = a :: splitn_char "." (S n) b.
Proof.
  intros Ha. assert (∀ acc, (fix go (t acc : string) : list string :=
      match t with
      | EmptyString => [String.rev acc]
      | String c t' => if bool_decide (c = "."%char) then String.rev acc :: splitn_char "." (S n) t' else go t' (String c acc)
      end) (a +:+ "." +:+ b) acc = (String.rev acc +:+ a) :: splitn_char "." (S n) b) as Hgo; [|exact (Hgo "")].
  induction a as [|c a IH]; intros acc.
  - rewrite str_app_nil_r. reflexivity.
  - unfold str_contains_char in *. cbn in Ha. apply orb_false_iff in Ha as [Hc Ha]. rewrite str_app_cons.
    rewrite bool_decide_eq_false_2 by (by apply bool_decide_eq_false in Hc). rewrite IH by done.
    f_equal. rewrite str_rev_cons, str_app_assoc. done.
Qed.

Lemma plain_inv s : plain s = true → s ≠ "" ∧ str_contains_char "." s = false.
Proof. unfold plain. rewrite andb_true_iff, !negb_true_iff. intros [?%empty_str_false ?]. done. Qed.

Lemma split_key e r s : plain e = true → plain r = true → splitn_char "." 3 (waiter_key_of e r s) = [e; r; s].
Proof. intros [_ He]%plain_inv [_ Hr]%plain_inv. unfold waiter_key_of. by rewrite !splitn_step. Qed.

Lemma plain_waiter_inv x : plain_waiter x = true →
  plain (ew_EventType x) = true ∧ plain (ew_RunID x) = true ∧ ew_StepID x ≠ "".
Proof. unfold plain_waiter. rewrite !andb_true_iff, negb_true_iff. intros [[? ?] ?%empty_str_false]. done. Qed.

Lemma waiter_key_inj x y : plain_waiter x = true → plain_waiter y = true → waiter_key x = waiter_key y →
  ew_EventType x = ew_EventType y ∧ ew_RunID x = ew_RunID y ∧ ew_StepID x = ew_StepID y.
Proof.
  intros (Hx1 & Hx2 & _)%plain_waiter_inv (Hy1 & Hy2 & _)%plain_waiter_inv E. unfold waiter_key in E.
  pose proof (split_key _ _ (ew_StepID x) Hx1 Hx2) as H. rewrite E, split_key in H by done. by injection H as -> -> ->.
Qed.

Lemma waiter_key_ne x : empty_str (waiter_key x) = false.
Proof. apply empty_str_false. unfold waiter_key, waiter_key_of. by destruct (ew_EventType x). Qed.

(** ** The bucket and its updates *)

Definition entry_ok (k : string) (v : wvalue) : Prop := ∃ x, v = WJson x ∧ k = waiter_key x ∧ plain_waiter x = true.
Definition key_ok (k : string) : Prop := ∃ x, k = waiter_key x ∧ plain_waiter x = true.
Definition entries_ok (m : gmap string wvalue) : Prop := ∀ k v, m !! k = Some v → entry_ok k v.

(** [seen], the bucket as of the updates delivered, and the ones that lead
    from it to the bucket. *)
Fixpoint track (seen : gmap string wvalue) (us : list update) (m : gmap string wvalue) : Prop :=
  match us with
  | [] => seen = m
  | UPut k v :: us' => seen !! k = None ∧ entry_ok k v ∧ track (<[k := v]> seen) us' m
  | UDel k :: us' => key_ok k ∧ track (delete k seen) us' m
  end.

Lemma track_put seen us m k v : track seen us m → m !! k = None → entry_ok k v → track seen (us ++ [UPut k v]) (<[k := v]> m).
Proof.
  revert seen. induction us as [|[k' v'|k'] us IH]; intros seen; cbn; [by intros ->|naive_solver|naive_solver].
Qed.
Lemma track_del seen us m k : track seen us m → key_ok k → track seen (us ++ [UDel k]) (delete k m).
Proof.
  revert seen. induction us as [|[k' v'|k'] us IH]; intros seen; cbn; [by intros ->|naive_solver|naive_solver].
Qed.

Lemma track_initial (l : list (string * wvalue)) : ∀ seen : gmap string wvalue,
  NoDup l.*1 → (∀ k, k ∈ l.*1 → seen !! k = None) → (∀ k v, (k, v) ∈ l → entry_ok k v) →
  track seen ((λ '(k, v), UPut k v) <$> l) (list_to_map l ∪ seen).
Proof.
  induction l as [|[k v] l IH]; intros seen Hnd Hfr Hok; [cbn; by rewrite map_empty_union|].
  rewrite fmap_cons in *. cbn. apply NoDup_cons in Hnd as [Hk Hnd]. split_and!; [apply Hfr; by left|apply Hok; by left|].
  assert (<[k:=v]> (list_to_map l) ∪ seen = list_to_map l ∪ <[k := v]> seen) as ->.
  { apply map_eq. intros j. destruct (decide (j = k)) as [ ->|Hne].
    - rewrite lookup_union_l', lookup_insert_eq by (rewrite lookup_insert_eq; eauto).
      rewrite lookup_union_r by (by apply not_elem_of_list_to_map_1). by rewrite lookup_insert_eq.
    - rewrite !lookup_union, !lookup_insert_ne by done. done. }
  apply IH; [done| |].
  - intros j Hj. rewrite lookup_insert_ne by (intros ->; done). apply Hfr. by right.
  - intros j w Hj. apply Hok. by right.
Qed.

(** ** The index *)

Record waiters_ok (c : Correlator) (seen : gmap string wvalue) (dropped : gset string) : Prop := {
  ix_keys : entries_ok seen;
  ix_sound : ∀ e x, x ∈ waiters_of c e → ew_EventType x = e ∧ seen !! waiter_key x = Some (WJson x) ∧ plain_waiter x = true;
  ix_nodup : ∀ e, NoDup (waiters_of c e);
  ix_complete : ∀ k x, seen !! k = Some (WJson x) → x ∈ waiters_of c (ew_EventType x) ∨ ew_RunID x ∈ dropped;
}.

Lemma waiters_of_insert o w m e l e' :
  waiters_of (MkCorrelator o w (<[e := l]> m)) e' = if decide (e' = e) then l else default [] (m !! e').
Proof.
  unfold waiters_of. cbn. case_decide as H; [subst; by rewrite lookup_insert_eq|by rewrite lookup_insert_ne].
Qed.

Lemma waiters_of_alter o w m e f e' : f [] = [] →
  waiters_of (MkCorrelator o w (alter f e m)) e' = if decide (e' = e) then f (default [] (m !! e)) else default [] (m !! e').
Proof.
  intros Hf. unfold waiters_of. cbn. case_decide as H; [subst; rewrite lookup_alter_eq|by rewrite lookup_alter_ne].
  by destruct (m !! e).
Qed.

Lemma index_put o w m seen dropped x :
  waiters_ok (MkCorrelator o w m) seen dropped → seen !! waiter_key x = None → plain_waiter x = true →
  waiters_ok (MkCorrelator o w (<[ew_EventType x := default [] (m !! ew_EventType x) ++ [x]]> m))
    (<[waiter_key x := WJson x]> seen) dropped.
Proof.
  intros [Hek Hs Hn Hc] Hfr Hp. unfold waiters_of at 1 in Hs. cbn in Hs. split.
  - intros k v [[<- <-]|[_ Hv]]%lookup_insert_Some; [by exists x|by apply Hek].
  - intros e y. rewrite waiters_of_insert. case_decide as He.
    + subst. rewrite elem_of_app, list_elem_of_singleton. intros [Hy| ->].
      * destruct (Hs _ _ Hy) as (? & Hl & ?). split_and!; [done| |done]. rewrite lookup_insert_ne; [done|]. intros E. congruence.
      * by rewrite lookup_insert_eq.
    + intros Hy. destruct (Hs _ _ Hy) as (? & Hl & ?). split_and!; [done| |done]. rewrite lookup_insert_ne; [done|]. intros E. congruence.
  - intros e. rewrite waiters_of_insert. specialize (Hn e). unfold waiters_of in Hn. cbn in Hn. case_decide as He; [|done]. subst.
    apply NoDup_app. split_and!; [done| |apply NoDup_singleton]. intros y Hy ->%list_elem_of_singleton.
    destruct (Hs _ _ Hy) as (_ & E & _). congruence.
  - intros k y. rewrite waiters_of_insert. destruct (decide (k = waiter_key x)) as [ ->|Hne].
    + rewrite lookup_insert_eq. intros [= <-]. rewrite decide_True by done. left. rewrite elem_of_app. right. by left.
    + rewrite lookup_insert_ne by done. intros Hy. destruct (Hc _ _ Hy) as [Hin|Hd]; [left|by right].
      unfold waiters_of in Hin. cbn in Hin. case_decide as He; [rewrite elem_of_app; left; by rewrite <-He|done].
Qed.

Lemma remove_waiter_elem r s l : ∀ x, x ∈ remove_waiter r s l → x ∈ l.
Proof.
  induction l as [|y l IH]; intros x; cbn; [done|]. case_match; [by right|]. rewrite !elem_of_cons. naive_solver.
Qed.

(** When at most one waiter has the run and the step, it is the one that goes. *)
Lemma remove_waiter_spec r s l x :
  NoDup l → (∀ y z, y ∈ l → z ∈ l → ew_RunID y = ew_RunID z → ew_StepID y = ew_StepID z → y = z) →
  x ∈ remove_waiter r s l ↔ x ∈ l ∧ ¬ (ew_RunID x = r ∧ ew_StepID x = s).
Proof.
  induction l as [|y l IH]; intros Hnd Hu; cbn.
  { rewrite elem_of_nil. naive_solver. }
  apply NoDup_cons in Hnd as [Hy Hnd]. destruct (bool_decide (ew_RunID y = r) && bool_decide (ew_StepID y = s)) eqn:E.
  - apply andb_true_iff in E as [E1%bool_decide_eq_true E2%bool_decide_eq_true]. rewrite elem_of_cons. split.
    + intros Hx. split; [by right|]. intros [F1 F2]. assert (x = y) as ->; [|done].
      apply Hu; [by right|by left|congruence|congruence].
    + intros [[ ->|Hx] Hne]; [|done]. by destruct Hne.
  - rewrite !elem_of_cons, IH; [|done|intros; apply Hu; by try right].
    apply andb_false_iff in E. rewrite !bool_decide_eq_false in E. split; [intros [ ->|?]; naive_solver|naive_solver].
Qed.

Lemma remove_waiter_nodup r s l : NoDup l → NoDup (remove_waiter r s l).
Proof.
  induction l as [|y l IH]; cbn; [done|]. intros [Hy Hnd]%NoDup_cons. case_match; [done|]. apply NoDup_cons. split; [|auto].
  intros Hin. by apply Hy, (remove_waiter_elem r s).
Qed.

Lemma index_del o w m seen dropped x :
  waiters_ok (MkCorrelator o w m) seen dropped → plain_waiter x = true →
  waiters_ok (MkCorrelator o w (alter (remove_waiter (ew_RunID x) (ew_StepID x)) (ew_EventType x) m))
    (delete (waiter_key x) seen) dropped.
Proof.
  intros [Hek Hs Hn Hc] Hp. unfold waiters_of in Hs, Hn, Hc. cbn in Hs, Hn, Hc.
  assert (∀ e y z, y ∈ default [] (m !! e) → z ∈ default [] (m !! e) → ew_RunID y = ew_RunID z → ew_StepID y = ew_StepID z → y = z) as Hu.
  { intros e y z Hy Hz E1 E2. destruct (Hs _ _ Hy) as (T1 & L1 & _), (Hs _ _ Hz) as (T2 & L2 & _).
    assert (waiter_key y = waiter_key z) as E by (unfold waiter_key; congruence). rewrite E in L1. congruence. }
  assert (∀ e y, y ∈ default [] (m !! e) → waiter_key y = waiter_key x ↔ e = ew_EventType x ∧ ew_RunID y = ew_RunID x ∧ ew_StepID y = ew_StepID x) as Hk.
  { intros e y Hy. destruct (Hs _ _ Hy) as (<- & _ & Hpy). split; [intros E; by destruct (waiter_key_inj y x Hpy Hp E) as (? & ? & ?)|].
    intros (E1 & E2 & E3). unfold waiter_key. by rewrite E1, E2, E3. }
  split.
  - intros k v [_ Hv]%lookup_delete_Some. by apply Hek.
  - intros e y. rewrite waiters_of_alter by done. case_decide as He.
    + subst. rewrite remove_waiter_spec by eauto. intros [Hy Hne]. destruct (Hs _ _ Hy) as (? & ? & ?). split_and!; [done| |done].
      rewrite lookup_delete_ne; [done|]. intros E. symmetry in E. apply (Hk _ _ Hy) in E as (_ & ? & ?). by apply Hne.
    + intros Hy. destruct (Hs _ _ Hy) as (? & ? & ?). split_and!; [done| |done].
      rewrite lookup_delete_ne; [done|]. intros E. symmetry in E. by apply (Hk _ _ Hy) in E as (? & _).
  - intros e. rewrite waiters_of_alter by done. case_decide; [by apply remove_waiter_nodup|done].
  - intros k y Hy. apply lookup_delete_Some in Hy as [Hne Hy]. destruct (Hc _ _ Hy) as [Hin|?]; [left|by right].
    rewrite waiters_of_alter by done. case_decide as He; [|done]. rewrite remove_waiter_spec by eauto. rewrite <-He. split; [done|].
    intros [E1 E2]. apply Hne. destruct (Hek _ _ Hy) as (y' & [= <-] & -> & _). symmetry. by apply (Hk _ _ Hin).
Qed.

Lemma index_drop o w m seen dropped runID :
  waiters_ok (MkCorrelator o w m) seen dropped →
  waiters_ok (MkCorrelator o w (List.filter (λ x, negb (of_run runID x)) <$> m)) seen ({[runID]} ∪ dropped).
Proof.
  intros [Hek Hs Hn Hc].
  assert (∀ e, waiters_of (MkCorrelator o w (List.filter (λ x, negb (of_run runID x)) <$> m)) e =
    List.filter (λ x, negb (of_run runID x)) (waiters_of (MkCorrelator o w m) e)) as Heq.
  { intros e. unfold waiters_of. cbn. rewrite lookup_fmap. by destruct (m !! e). }
  split; [done| | |].
  - intros e x. rewrite Heq, list_elem_of_In, filter_In, <-list_elem_of_In. intros [Hx _]. by apply Hs.
  - intros e. rewrite Heq. apply NoDup_ListNoDup, List.NoDup_filter, NoDup_ListNoDup, Hn.
  - intros k x Hx. rewrite elem_of_union, elem_of_singleton. destruct (Hc _ _ Hx) as [Hin|?]; [|by right; right].
    destruct (of_run runID x) eqn:E; [right; left; by apply bool_decide_eq_true in E|left].
    rewrite Heq, list_elem_of_In, filter_In, <-list_elem_of_In, E. done.
Qed.

(** ** The whole system *)

Record sys_ok (s : sys) : Prop := {
  sy_entries : entries_ok (bk_entries (wo_b (sy_w s)));
  sy_evals_ok : ∀ x data now, (x, data, now) ∈ sy_evals s → plain_waiter x = true;
  sy_dels_ok : ∀ k, k ∈ sy_dels s → key_ok k;
  sy_idle : co_watch (wo_c (sy_w s)) = false → co_waiters (wo_c (sy_w s)) = ∅;
  sy_once : co_once (wo_c (sy_w s)) = false → co_watch (wo_c (sy_w s)) = false;
  sy_tracked : co_watch (wo_c (sy_w s)) = true →
    ∃ seen, track seen (bk_updates (wo_b (sy_w s))) (bk_entries (wo_b (sy_w s))) ∧
      waiters_ok (wo_c (sy_w s)) seen (sy_dropped s);
}.

Lemma new_sys_ok : sys_ok new_sys.
Proof. split; cbn; try done; intros; by apply elem_of_nil in H. Qed.

Lemma index_nil o w dropped : waiters_ok (MkCorrelator o w ∅) ∅ dropped.
Proof.
  split.
  - intros k v H. by rewrite lookup_empty in H.
  - intros e x H. unfold waiters_of in H. cbn in H. rewrite lookup_empty in H. by apply elem_of_nil in H.
  - intros e. unfold waiters_of. cbn. rewrite lookup_empty. apply NoDup_nil_2.
  - intros k x H. by rewrite lookup_empty in H.
Qed.

(** The start: the watch begins with the bucket's entries. *)
Lemma start_ok ok initial w w' o puts evals dels dropped :
  initial ≡ₚ map_to_list (bk_entries (wo_b w)) → Start ok initial w = (o, w') →
  sys_ok (MkSys w puts evals dels dropped) → sys_ok (MkSys w' puts evals dels dropped).
Proof.
  intros Hi Hs [H1 H2 H3 H4 H5 H6]. unfold Start in Hs. cbn in *. destruct (co_once (wo_c w)) eqn:Ho; [injection Hs as <- <-; split; cbn; by rewrite ?Ho|].
  destruct ok; injection Hs as <- <-; split; cbn; try done.
  - intros _. exists ∅. rewrite (H4 (H5 eq_refl)). split; [|apply index_nil].
    assert (bk_entries (wo_b w) = list_to_map initial ∪ ∅) as ->.
    { rewrite map_union_empty. rewrite <-(list_to_map_to_list (bk_entries (wo_b w))) at 1. symmetry. apply list_to_map_proper; [|done].
      rewrite Hi. apply NoDup_fst_map_to_list. }
    apply track_initial; [rewrite Hi; apply NoDup_fst_map_to_list|by intros; apply lookup_empty|].
    intros k v Hin. rewrite Hi, elem_of_map_to_list in Hin. by apply H1.
  - by rewrite (H4 (H5 eq_refl)).
Qed.

Lemma admit_ok ok initial x w w' o puts evals dels dropped :
  initial ≡ₚ map_to_list (bk_entries (wo_b w)) → admit_waiter ok initial x w = (o, w') →
  sys_ok (MkSys w puts evals dels dropped) → sys_ok (MkSys w' puts evals dels dropped).
Proof.
  intros Hi Ha Hs. unfold admit_waiter in Ha. destruct (_ ;; _) as [[]|e|msg]; [|by simplify_eq..].
  destruct (Start ok initial w) as [o1 w1] eqn:E. assert (w' = w1) as -> by (destruct o1; by simplify_eq). by eapply start_ok.
Qed.

Lemma put_ok x w puts puts' evals dels dropped :
  plain_waiter x = true → bk_entries (wo_b w) !! waiter_key x = None →
  sys_ok (MkSys w puts evals dels dropped) → sys_ok (MkSys (kv_put (waiter_key x) (WJson x) w) puts' evals dels dropped).
Proof.
  intros Hp Hf [H1 H2 H3 H4 H5 H6]. cbn in *. assert (entry_ok (waiter_key x) (WJson x)) as He by (by exists x).
  split; cbn; try done.
  - intros k v [[<- <-]|[_ Hv]]%lookup_insert_Some; [done|by apply H1].
  - intros Hw. destruct (H6 Hw) as (seen & Ht & Hi). exists seen. split; [by apply track_put|done].
Qed.

Lemma corr_delete_ok (ok : bool) key w puts evals dels dels' dropped :
  dels ≡ₚ key :: dels' → sys_ok (MkSys w puts evals dels dropped) →
  sys_ok (MkSys (if ok then kv_delete key w else w) puts evals dels' dropped).
Proof.
  intros Hd [H1 H2 H3 H4 H5 H6]. cbn in *. assert (key_ok key) as Hk by (apply H3; rewrite Hd; by left).
  assert (∀ k, k ∈ dels' → key_ok k) as Hk' by (intros k ?; apply H3; rewrite Hd; by right).
  destruct ok; split; cbn; try done.
  - intros k v [_ Hv]%lookup_delete_Some. by apply H1.
  - intros Hw. destruct (H6 Hw) as (seen & Ht & Hi). exists seen. split; [by apply track_del|done].
Qed.

Lemma set_waiters_eq f o wt m b out : set_waiters f (MkWorld (MkCorrelator o wt m) b out) = MkWorld (MkCorrelator o wt (f m)) b out.
Proof. done. Qed.

Lemma update_ok u w w1 w2 puts evals dels dropped :
  co_watch (wo_c w) = true → take_update w = Some (u, w1) → process_update u w1 = Ret w2 →
  sys_ok (MkSys w puts evals dels dropped) → sys_ok (MkSys w2 puts evals dels dropped).
Proof.
  intros Hw Ht Hp [H1 H2 H3 H4 H5 H6]. destruct w as [[o wt m] [es us] out]. cbn in *. subst wt. unfold take_update in Ht. cbn in Ht.
  destruct us as [|u' us]; [done|]. injection Ht as -> <-. destruct (H6 eq_refl) as (seen & Htr & Hi).
  destruct u as [k v|k]; cbn in Htr, Hp.
  - destruct Htr as (Hf & (x & -> & -> & Hpl) & Htr). unfold handleKVPut in Hp. rewrite waiter_key_ne in Hp. cbn [mbind outcome_bind panic_if] in Hp.
    destruct (plain_waiter_inv x Hpl) as ((He & _)%plain_inv & _). apply empty_str_false in He. rewrite He in Hp. injection Hp as <-.
    rewrite set_waiters_eq. split; cbn; try done. intros _. exists (<[waiter_key x := WJson x]> seen). split; [done|]. by apply index_put.
  - destruct Htr as ((x & -> & Hpl) & Htr). unfold handleKVDelete in Hp. rewrite waiter_key_ne in Hp. cbn [mbind outcome_bind panic_if] in Hp.
    destruct (plain_waiter_inv x Hpl) as (Hp1 & Hp2 & _). unfold waiter_key in Hp. rewrite split_key in Hp by done. injection Hp as <-.
    rewrite set_waiters_eq. split; cbn; try done. intros _. exists (delete (waiter_key x) seen). split; [done|]. by apply index_del.
Qed.

Lemma waiter_plain w puts evals dels dropped e x :
  sys_ok (MkSys w puts evals dels dropped) → x ∈ waiters_of (wo_c w) e → plain_waiter x = true ∧ ew_EventType x = e.
Proof.
  intros [_ _ _ H4 _ H6] Hx. cbn in *. destruct (co_watch (wo_c w)) eqn:Hw.
  - destruct (H6 eq_refl) as (seen & _ & Hi). by destruct (ix_sound _ _ _ Hi _ _ Hx) as (? & _ & ?).
  - unfold waiters_of in Hx. rewrite (H4 eq_refl), lookup_empty in Hx. by apply elem_of_nil in Hx.
Qed.

Lemma drop_ok runID types w puts evals dels dropped :
  co_watch (wo_c w) = true → sys_ok (MkSys w puts evals dels dropped) →
  sys_ok (MkSys (drop_run runID w) puts evals (dels ++ run_keys runID types (wo_c w)) ({[runID]} ∪ dropped)).
Proof.
  intros Hw Hs. pose proof (λ e x, waiter_plain w puts evals dels dropped e x Hs) as Hpl. destruct Hs as [H1 H2 H3 H4 H5 H6].
  destruct w as [[o wt m] b out]. cbn in Hw, H1, H2, H3, H4, H5, H6. subst wt. split; cbn [sy_w sy_evals sy_dels sy_dropped].
  - exact H1.
  - exact H2.
  - intros k [Hk|Hk]%elem_of_app; [by apply H3|]. unfold run_keys in Hk. apply list_elem_of_bind in Hk as (e & Hk & _).
    apply list_elem_of_fmap in Hk as (x & -> & Hx). rewrite list_elem_of_In, filter_In, <-list_elem_of_In in Hx. destruct Hx as [Hx _].
    destruct (Hpl e x Hx) as [? <-]. by exists x.
  - done.
  - done.
  - intros _. destruct (H6 eq_refl) as (seen & Ht & Hi). exists seen. split; [exact Ht|]. by apply index_drop.
Qed.

Lemma corr_step_ok fmt_float s s' : step fmt_float s s' → sys_ok s → sys_ok s'.
Proof.
  intros Hst Hs. destruct Hst as [ok initial x w w' puts evals dels dropped Hi Ha|ok initial x w w' e puts evals dels dropped Hi Ha
    |x w puts puts' evals dels dropped Hp Hpl Hf|x w puts puts' evals dels dropped Hp|u w w1 w2 puts evals dels dropped Hw Ht Hp
    |subject e data now w puts evals dels dropped Hd He|x data now e pub_ok w puts evals evals' dels dropped Hev Hm Hme
    |x data now w puts evals evals' dels dropped Hev Hm|ok key w puts evals dels dels' dropped Hd|runID types w puts evals dels dropped Hr Hw Ht].
  - destruct (admit_ok _ _ _ _ _ _ _ _ _ _ Hi Ha Hs). by split.
  - by eapply admit_ok.
  - by eapply put_ok.
  - destruct Hs. by split.
  - by eapply update_ok.
  - pose proof (λ x, waiter_plain w puts evals dels dropped e x Hs) as Hpl. destruct Hs as [H1 H2 H3 H4 H5 H6]. split; try done. cbn in *.
    intros x d n [?|Hx]%elem_of_app; [by eapply H2|]. apply list_elem_of_fmap in Hx as (y & [= -> -> ->] & Hy). by apply Hpl.
  - destruct Hs as [H1 H2 H3 H4 H5 H6]. cbn in *. assert (plain_waiter x = true) as Hx by (eapply H2; rewrite Hev; by left).
    destruct (marshals data && pub_ok); split; cbn; try done.
    1, 3: intros y d n Hin; eapply H2; rewrite Hev; by right.
    all: intros k [?|?%list_elem_of_singleton]%elem_of_app; [by apply H3|subst; by exists x].
  - destruct Hs as [H1 H2 H3 H4 H5 H6]. split; cbn in *; try done. intros y d n Hin. eapply H2. rewrite Hev. by right.
  - by eapply corr_delete_ok.
  - by apply drop_ok.
Qed.

Lemma steps_ok fmt_float s : rtc (step fmt_float) new_sys s → sys_ok s.
Proof.
  intros H. assert (∀ s0, sys_ok s0 → rtc (step fmt_float) s0 s → sys_ok s) as Hgen; [|by eapply Hgen, H; apply new_sys_ok].
  clear H. intros s0 H0 Hr. induction Hr as [|s0 s1 s2 Hst _ IH]; [done|]. by apply IH, (corr_step_ok fmt_float s0).
Qed.
