(* ===== verification/AckMap.v ===== *)
(** * Claims of HTTP workers (bridge/ackmap.go)

    The bridge holds the NATS message of every task an HTTP worker polled,
    by task ID, so that it can acknowledge it when the worker resolves the
    task.  An entry that shows no sign of life for [ackMapReapAfter] is swept
    when a later claim is stored, and the map is capped.  A second map
    remembers the tasks resolved lately.

    Messages, connections, journals, placers and mutexes are the identities of
    the Go objects.  Every method holds the map's mutex from start to end, so
    each is one function of the state; the clock is read once, [now].  [order]
    (and [order']) is the order in which Go iterates the map. *)

From S2P Require Import Prelude GoTime.

#[local] Open Scope Z_scope.

Definition DefaultAckWait : Z := 5 * Minute.
Definition ackMapReapMargin : Z := 30 * Second.
Definition ackMapReapAfter : Z := DefaultAckWait + ackMapReapMargin.
Definition ackMapSweepInterval : Z := 30 * Second.
Definition ackMapMaxEntries : Z := 10000.
Definition resolvedTaskTTL : Z := 5 * Minute.
Definition resolvedTaskMax : Z := 10000.

Record ackEntry : Type := MkAckEntry {
  ae_msg : nat;
  ae_storedAt : Time;
  ae_tokenID : string;
  ae_conn : option nat;
  ae_resolveMu : nat;
  ae_logSeq : Z;
  ae_logTotalBytes : Z;
  ae_logTruncated : bool;
  ae_pendingState : string;
  ae_pendingStateSet : bool;
  ae_journal : option nat;
  ae_journalMu : nat;
  ae_placer : option nat;
  ae_journalStop : option error;
}.

Record resolvedTaskEntry : Type := MkResolved { rt_at : Time; rt_tokenID : string }.

(** [am_next] numbers the mutexes allocated. *)
Record AckMap : Type := MkAckMap {
  am_entries : gmap string ackEntry;
  am_byConn : gmap nat (gset string);
  am_lastSweep : Time;
  am_resolvedTasks : gmap string resolvedTaskEntry;
  am_next : nat;
}.

Definition set_entries (f : gmap string ackEntry → gmap string ackEntry) (am : AckMap) : AckMap :=
  MkAckMap (f (am_entries am)) (am_byConn am) (am_lastSweep am) (am_resolvedTasks am) (am_next am).
Definition set_byConn (f : gmap nat (gset string) → gmap nat (gset string)) (am : AckMap) : AckMap :=
  MkAckMap (am_entries am) (f (am_byConn am)) (am_lastSweep am) (am_resolvedTasks am) (am_next am).
Definition set_lastSweep (t : Time) (am : AckMap) : AckMap :=
  MkAckMap (am_entries am) (am_byConn am) t (am_resolvedTasks am) (am_next am).
Definition set_resolved (f : gmap string resolvedTaskEntry → gmap string resolvedTaskEntry) (am : AckMap) : AckMap :=
  MkAckMap (am_entries am) (am_byConn am) (am_lastSweep am) (f (am_resolvedTasks am)) (am_next am).

Definition newAckMapWithClock (start : Time) : outcome AckMap :=
  panic_if (IsZero start) "newAckMapWithClock: clock must not return zero time";;
  Ret (MkAckMap ∅ ∅ start ∅ 0).

(** The guard of every method. *)
Definition need (taskID who : string) : outcome unit :=
  panic_if (empty_str taskID) ("AckMap." +:+ who +:+ ": taskID must not be empty").

(** ** Removal *)

(** The tasks of a connection. *)
Definition conn_tasks (am : AckMap) (conn : nat) : gset string := default ∅ (am_byConn am !! conn).

Definition drop_conn_task (conn : nat) (taskID : string) (m : gmap nat (gset string)) : gmap nat (gset string) :=
  let tasks := default ∅ (m !! conn) ∖ {[taskID]} in
  if bool_decide (tasks = ∅) then delete conn m else <[conn := tasks]> m.

Definition deleteLocked (taskID : string) (am : AckMap) : AckMap :=
  match am_entries am !! taskID with
  | None => am
  | Some entry =>
      let am := set_entries (delete taskID) am in
      match ae_conn entry with
      | None => am
      | Some conn => set_byConn (drop_conn_task conn taskID) am
      end
  end.

Definition AckDelete (taskID : string) (am : AckMap) : outcome AckMap :=
  need taskID "Delete";;
  Ret (deleteLocked taskID am).

(** ** The sweep and the cap *)

Definition expired (now : Time) (entry : ackEntry) : bool := ackMapReapAfter <=? Time_Sub now (ae_storedAt entry).

Fixpoint sweep_loop (now : Time) (order : list string) (am : AckMap) : AckMap :=
  match order with
  | [] => am
  | taskID :: order' =>
      sweep_loop now order'
        (match am_entries am !! taskID with
         | Some entry => if expired now entry then deleteLocked taskID am else am
         | None => am
         end)
  end.

Definition sweepLocked (now : Time) (order : list string) (am : AckMap) : outcome AckMap :=
  panic_if (IsZero now) "AckMap.sweepLocked: now must not be zero";;
  if Time_Sub now (am_lastSweep am) <? ackMapSweepInterval then Ret am
  else Ret (sweep_loop now order (set_lastSweep now am)).

(** The first of the oldest, in the order of the iteration. *)
Fixpoint oldest {A} (at_ : A → Time) (m : gmap string A) (order : list string) (best : option (string * Time))
    : option (string * Time) :=
  match order with
  | [] => best
  | id :: order' =>
      oldest at_ m order'
        (match m !! id, best with
         | Some e, None => Some (id, at_ e)
         | Some e, Some (_, t) => if at_ e <? t then Some (id, at_ e) else best
         | None, _ => best
         end)
  end.

Definition evictOldestLocked (order : list string) (am : AckMap) : outcome AckMap :=
  panic_if (bool_decide (am_entries am = ∅)) "AckMap.evictOldestLocked: nothing to evict";;
  Ret (match oldest ae_storedAt (am_entries am) order None with
       | Some (id, _) => deleteLocked id am
       | None => am
       end).

(** ** Claims *)

Definition indexConnLocked (conn : nat) (taskID : string) (am : AckMap) : AckMap :=
  set_byConn (λ m, <[conn := {[taskID]} ∪ default ∅ (m !! conn)]> m) am.

Definition new_entry (msg : nat) (now : Time) (tokenID : string) (conn : option nat) (mu : nat) : ackEntry :=
  MkAckEntry msg now tokenID conn mu 0 0 false "" false None (mu + 1) None None.

(** The insertion, after the sweep and the cap. *)
Definition insert_claim (taskID : string) (msg : nat) (tokenID : string) (conn : option nat) (now : Time) (am : AckMap)
    : AckMap :=
  let am := deleteLocked taskID am in
  let am := MkAckMap (<[taskID := new_entry msg now tokenID conn (am_next am)]> (am_entries am)) (am_byConn am)
              (am_lastSweep am) (am_resolvedTasks am) (am_next am + 2) in
  match conn with Some c => indexConnLocked c taskID am | None => am end.

Definition storeForConn (order order' : list string) (taskID : string) (msg : nat) (tokenID : string) (conn : option nat)
    (now : Time) (am : AckMap) : outcome AckMap :=
  need taskID "Store";;
  am ← sweepLocked now order am;
  am ← (if ackMapMaxEntries <=? Z.of_nat (size (am_entries am)) then evictOldestLocked order' am else Ret am);
  Ret (insert_claim taskID msg tokenID conn now am).

Record claimRef : Type := MkClaimRef { cr_taskID : string; cr_msg : nat; cr_mu : nat }.

(** An indexed task always has its entry (see [ack_ok]). *)
Definition connClaims (conn : nat) (am : AckMap) : list claimRef :=
  elements (conn_tasks am conn) ≫= λ taskID,
    match am_entries am !! taskID with
    | Some entry => [MkClaimRef taskID (ae_msg entry) (ae_resolveMu entry)]
    | None => [MkClaimRef taskID 0 0]
    end.

Definition connClaim (conn : nat) (taskID : string) (am : AckMap) : outcome (option claimRef) :=
  panic_if (empty_str taskID) "AckMap.connClaim: receiver, conn and taskID are required";;
  Ret (match am_entries am !! taskID with
       | Some entry =>
           if bool_decide (ae_conn entry = Some conn)
           then Some (MkClaimRef taskID (ae_msg entry) (ae_resolveMu entry)) else None
       | None => None
       end).

Definition takeUnresolved (ref : claimRef) (am : AckMap) : bool * AckMap :=
  match am_entries am !! cr_taskID ref with
  | Some entry =>
      if bool_decide (ae_msg entry = cr_msg ref) && bool_decide (ae_journalStop entry = None)
      then (true, deleteLocked (cr_taskID ref) am) else (false, am)
  | None => (false, am)
  end.

(** A field of the entry, nothing when there is none. *)
Definition field {A} (taskID who : string) (f : ackEntry → option A) (am : AckMap) : outcome (option A) :=
  need taskID who;; Ret (am_entries am !! taskID ≫= f).

Definition ResolveLock (taskID : string) : AckMap → outcome (option nat) :=
  field taskID "ResolveLock" (λ e, Some (ae_resolveMu e)).
Definition JournalLock (taskID : string) : AckMap → outcome (option nat) :=
  field taskID "JournalLock" (λ e, Some (ae_journalMu e)).
Definition LoadWithTokenID (taskID : string) : AckMap → outcome (option (nat * string)) :=
  field taskID "LoadWithTokenID" (λ e, Some (ae_msg e, ae_tokenID e)).
Definition AckLoad (taskID : string) : AckMap → outcome (option nat) :=
  field taskID "LoadWithTokenID" (λ e, Some (ae_msg e)).
Definition Count (am : AckMap) : nat := size (am_entries am).

(** ** The fields of a claim: none of these creates an entry *)

Definition with_entry (taskID who : string) (f : ackEntry → ackEntry) (am : AckMap) : outcome (bool * AckMap) :=
  need taskID who;;
  Ret (match am_entries am !! taskID with
       | Some entry => (true, set_entries (insert taskID (f entry)) am)
       | None => (false, am)
       end).

Definition set_log (f : Z → Z → bool → Z * Z * bool) (e : ackEntry) : ackEntry :=
  let '(s, b, t) := f (ae_logSeq e) (ae_logTotalBytes e) (ae_logTruncated e) in
  MkAckEntry (ae_msg e) (ae_storedAt e) (ae_tokenID e) (ae_conn e) (ae_resolveMu e) s b t
    (ae_pendingState e) (ae_pendingStateSet e) (ae_journal e) (ae_journalMu e) (ae_placer e) (ae_journalStop e).
Definition set_pending (state : string) (e : ackEntry) : ackEntry :=
  MkAckEntry (ae_msg e) (ae_storedAt e) (ae_tokenID e) (ae_conn e) (ae_resolveMu e) (ae_logSeq e) (ae_logTotalBytes e)
    (ae_logTruncated e) state true (ae_journal e) (ae_journalMu e) (ae_placer e) (ae_journalStop e).
Definition set_storedAt (now : Time) (e : ackEntry) : ackEntry :=
  MkAckEntry (ae_msg e) now (ae_tokenID e) (ae_conn e) (ae_resolveMu e) (ae_logSeq e) (ae_logTotalBytes e)
    (ae_logTruncated e) (ae_pendingState e) (ae_pendingStateSet e) (ae_journal e) (ae_journalMu e) (ae_placer e)
    (ae_journalStop e).
Definition set_journal (j : nat) (e : ackEntry) : ackEntry :=
  MkAckEntry (ae_msg e) (ae_storedAt e) (ae_tokenID e) (ae_conn e) (ae_resolveMu e) (ae_logSeq e) (ae_logTotalBytes e)
    (ae_logTruncated e) (ae_pendingState e) (ae_pendingStateSet e) (Some j) (ae_journalMu e) (ae_placer e)
    (ae_journalStop e).
Definition set_placer (p : nat) (e : ackEntry) : ackEntry :=
  MkAckEntry (ae_msg e) (ae_storedAt e) (ae_tokenID e) (ae_conn e) (ae_resolveMu e) (ae_logSeq e) (ae_logTotalBytes e)
    (ae_logTruncated e) (ae_pendingState e) (ae_pendingStateSet e) (ae_journal e) (ae_journalMu e) (Some p)
    (ae_journalStop e).
Definition set_stop (err : error) (e : ackEntry) : ackEntry :=
  MkAckEntry (ae_msg e) (ae_storedAt e) (ae_tokenID e) (ae_conn e) (ae_resolveMu e) (ae_logSeq e) (ae_logTotalBytes e)
    (ae_logTruncated e) (ae_pendingState e) (ae_pendingStateSet e) (ae_journal e) (ae_journalMu e) (ae_placer e)
    (Some err).

Definition WithLogState (taskID : string) (f : Z → Z → bool → Z * Z * bool) : AckMap → outcome (bool * AckMap) :=
  with_entry taskID "WithLogState" (set_log f).
Definition SetPendingState (taskID state : string) : AckMap → outcome (bool * AckMap) :=
  with_entry taskID "SetPendingState" (set_pending state).
Definition Touch (taskID : string) (now : Time) : AckMap → outcome (bool * AckMap) :=
  with_entry taskID "Touch" (set_storedAt now).
Definition SetJournal (taskID : string) (j : nat) : AckMap → outcome (bool * AckMap) :=
  with_entry taskID "SetJournal" (set_journal j).
Definition setPlacer (taskID : string) (p : nat) : AckMap → outcome (bool * AckMap) :=
  with_entry taskID "setPlacer" (set_placer p).
Definition SetJournalStop (taskID : string) (err : error) : AckMap → outcome (bool * AckMap) :=
  with_entry taskID "SetJournalStop" (set_stop err).

Definition PendingState (taskID : string) : AckMap → outcome (option string) :=
  field taskID "PendingState" (λ e, if ae_pendingStateSet e then Some (ae_pendingState e) else None).
Definition Journal_ (taskID : string) : AckMap → outcome (option nat) := field taskID "Journal" ae_journal.
Definition placer (taskID : string) : AckMap → outcome (option nat) := field taskID "placer" ae_placer.
Definition JournalStop (taskID : string) : AckMap → outcome (option error) := field taskID "JournalStop" ae_journalStop.

(** ** Resolved tasks *)

Definition MarkResolved (order : list string) (taskID tokenID : string) (now : Time) (am : AckMap) : outcome AckMap :=
  need taskID "MarkResolved";;
  let am := if resolvedTaskMax <=? Z.of_nat (size (am_resolvedTasks am)) then
              match oldest rt_at (am_resolvedTasks am) order None with
              | Some (id, _) => set_resolved (delete id) am
              | None => am
              end
            else am in
  Ret (set_resolved (insert taskID (MkResolved now tokenID)) am).

Record Claims : Type := MkClaims { cl_TokenID : string; cl_Admin : bool }.

Definition WasResolvedBy (taskID : string) (claims : Claims) (now : Time) (am : AckMap) : outcome (bool * AckMap) :=
  need taskID "WasResolvedBy";;
  Ret (match am_resolvedTasks am !! taskID with
       | None => (false, am)
       | Some entry =>
           if resolvedTaskTTL <=? Time_Sub now (rt_at entry) then (false, set_resolved (delete taskID) am)
           else (cl_Admin claims || negb (empty_str (cl_TokenID claims)) && bool_decide (cl_TokenID claims = rt_tokenID entry), am)
       end).
