(* ===== verification/AckMapSpec.v ===== *)
(** * What the claim map keeps

    The per-connection index is exactly the connections of the entries, both
    maps stay under their caps, and no entry outlives its reap window by more
    than one sweep interval once a claim is stored. *)

From S2P Require Import Prelude GoTime AckMap.
From stdpp Require Import relations.

#[local] Open Scope Z_scope.

(** ** The index *)

Record index_ok (am : AckMap) : Prop := {
  ik_exact : ∀ c t, t ∈ conn_tasks am c ↔ ∃ e, am_entries am !! t = Some e ∧ ae_conn e = Some c;
  ik_nonempty : ∀ c, am_byConn am !! c ≠ Some ∅;
}.

Lemma delete_entries t am : am_entries (deleteLocked t am) = delete t (am_entries am).
Proof.
  unfold deleteLocked. destruct (am_entries am !! t) as [e|] eqn:E; [by destruct (ae_conn e)|]. by rewrite delete_id.
Qed.

Lemma delete_rest t am :
  am_lastSweep (deleteLocked t am) = am_lastSweep am ∧ am_resolvedTasks (deleteLocked t am) = am_resolvedTasks am ∧
  am_next (deleteLocked t am) = am_next am.
Proof. unfold deleteLocked. destruct (am_entries am !! t) as [e|]; [by destruct (ae_conn e)|done]. Qed.

Lemma drop_conn_lookup m c t c' :
  default ∅ (drop_conn_task c t m !! c') = if decide (c' = c) then default ∅ (m !! c) ∖ {[t]} else default ∅ (m !! c').
Proof.
  unfold drop_conn_task. case_bool_decide as He; case_decide as Hc; subst.
  - rewrite lookup_delete_eq. done.
  - by rewrite lookup_delete_ne.
  - by rewrite lookup_insert_eq.
  - by rewrite lookup_insert_ne.
Qed.

Lemma drop_conn_nonempty m c t : (∀ c, m !! c ≠ Some ∅) → ∀ c', drop_conn_task c t m !! c' ≠ Some ∅.
Proof.
  intros H c'. unfold drop_conn_task. case_bool_decide as He; destruct (decide (c' = c)) as [->|Hne].
  - by rewrite lookup_delete_eq.
  - by rewrite lookup_delete_ne.
  - rewrite lookup_insert_eq. congruence.
  - by rewrite lookup_insert_ne.
Qed.

Lemma index_delete t am : index_ok am → index_ok (deleteLocked t am).
Proof.
  intros [Hx Hn]. unfold deleteLocked. destruct (am_entries am !! t) as [e|] eqn:E; [|done].
  destruct (ae_conn e) as [c|] eqn:Hc; split; cbn.
  - intros c' t'. unfold conn_tasks. cbn. rewrite drop_conn_lookup. specialize (Hx c' t'). unfold conn_tasks in Hx. case_decide as Hd.
    + subst. rewrite elem_of_difference, elem_of_singleton, Hx. setoid_rewrite lookup_delete_Some. naive_solver.
    + rewrite Hx. setoid_rewrite lookup_delete_Some. split; [|naive_solver].
      intros (e' & He' & Hc'). exists e'. split; [|done]. split; [|done]. intros <-. congruence.
  - by apply drop_conn_nonempty.
  - intros c' t'. specialize (Hx c' t'). unfold conn_tasks in *. cbn. rewrite Hx. setoid_rewrite lookup_delete_Some.
    split; [|naive_solver]. intros (e' & He' & Hc'). exists e'. split; [|done]. split; [|done]. intros <-. congruence.
  - exact Hn.
Qed.

Lemma index_insert t msg token conn now am : index_ok am → index_ok (insert_claim t msg token conn now am).
Proof.
  intros Hi. apply (index_delete t) in Hi. unfold insert_claim. pose proof (delete_entries t am) as Hd.
  set (am1 := deleteLocked t am) in *. assert (am_entries am1 !! t = None) as Hnone by (rewrite Hd; apply lookup_delete_eq).
  destruct Hi as [Hx Hn]. destruct conn as [c|]; split; cbn.
  - intros c' t'. unfold conn_tasks. cbn. specialize (Hx c' t'). unfold conn_tasks in Hx. destruct (decide (c' = c)) as [->|Hne].
    + rewrite lookup_insert_eq. cbn. rewrite elem_of_union, elem_of_singleton, Hx. setoid_rewrite lookup_insert_Some. split.
      * intros [->|(e & He & Hc)]; [by eexists; split; [by left|]|]. exists e. split; [|done]. right. split; [|done]. intros <-. congruence.
      * intros (e & [[-> _]|[? ?]] & ?); [by left|right; eauto].
    + rewrite lookup_insert_ne, Hx by done. setoid_rewrite lookup_insert_Some. split.
      * intros (e & He & Hc). exists e. split; [|done]. right. split; [|done]. intros <-. congruence.
      * intros (e & [[-> <-]|[? ?]] & Hc); [|eauto]. cbn in Hc. congruence.
  - intros c'. destruct (decide (c' = c)) as [->|Hne]; [|by rewrite lookup_insert_ne].
    rewrite lookup_insert_eq. intros [= E]. apply (not_elem_of_empty (C := gset string) t). rewrite <-E. set_solver.
  - intros c' t'. specialize (Hx c' t'). unfold conn_tasks in *. cbn. rewrite Hx. setoid_rewrite lookup_insert_Some. split.
    + intros (e & He & Hc). exists e. split; [|done]. right. split; [|done]. intros <-. congruence.
    + intros (e & [[-> <-]|[? ?]] & Hc); [done|eauto].
  - exact Hn.
Qed.

(** ** The sweep *)

Lemma sweep_loop_lookup now order am t :
  am_entries (sweep_loop now order am) !! t =
  if decide (t ∈ order) then
    match am_entries am !! t with Some e => if expired now e then None else Some e | None => None end
  else am_entries am !! t.
Proof.
  revert am. induction order as [|t' order IH]; intros am; cbn; [done|]. rewrite IH.
  assert (∀ u, am_entries (match am_entries am !! t' with
      | Some entry => if expired now entry then deleteLocked t' am else am | None => am end) !! u =
    if decide (u = t') then match am_entries am !! t' with Some e => if expired now e then None else Some e | None => None end
    else am_entries am !! u) as Hu.
  { intros u. destruct (am_entries am !! t') as [e|] eqn:E; [destruct (expired now e)|].
    - rewrite delete_entries. destruct (decide (u = t')) as [->|Hd]; [apply lookup_delete_eq|by rewrite lookup_delete_ne].
    - by destruct (decide (u = t')) as [->|Hd].
    - by destruct (decide (u = t')) as [->|Hd]. }
  rewrite !Hu. destruct (decide (t = t')) as [->|Hne].
  - rewrite (decide_True (P := t' ∈ t' :: order)) by (by left).
    destruct (am_entries am !! t') as [e|]; [|by case_decide]. destruct (expired now e) eqn:Ex; [by case_decide|].
    case_decide; [by rewrite Ex|done].
  - destruct (decide (t ∈ order)) as [Hin|Hin].
    + by rewrite decide_True by (by right).
    + rewrite decide_False; [done|]. rewrite elem_of_cons. naive_solver.
Qed.

Lemma sweep_loop_rest now order am :
  am_lastSweep (sweep_loop now order am) = am_lastSweep am ∧
  am_resolvedTasks (sweep_loop now order am) = am_resolvedTasks am ∧ am_next (sweep_loop now order am) = am_next am ∧
  (index_ok am → index_ok (sweep_loop now order am)).
Proof.
  revert am. induction order as [|t order IH]; intros am; cbn; [done|].
  set (am1 := match am_entries am !! t with Some _ => _ | None => _ end).
  assert (am_lastSweep am1 = am_lastSweep am ∧ am_resolvedTasks am1 = am_resolvedTasks am ∧ am_next am1 = am_next am ∧
    (index_ok am → index_ok am1)) as (<- & <- & <- & H1).
  { unfold am1. destruct (am_entries am !! t) as [e|]; [|done]. destruct (expired now e); [|done].
    destruct (delete_rest t am) as (? & ? & ?). split_and!; [done..|apply index_delete]. }
  destruct (IH am1) as (? & ? & ? & ?). split_and!; auto.
Qed.

Lemma Time_Sub_lt t u d : int64_min < d ≤ int64_max → Time_Sub t u < d ↔ t - u < d.
Proof. unfold Time_Sub. lia. Qed.

Lemma expired_false now e : expired now e = false ↔ now - ae_storedAt e < ackMapReapAfter.
Proof. unfold expired. rewrite Z.leb_gt, Time_Sub_lt; [done|]. by vm_compute. Qed.

(** The entries a sweep leaves. *)
Lemma sweep_entries now order am am' :
  sweepLocked now order am = Ret am' → (∀ t, is_Some (am_entries am !! t) → t ∈ order) →
  (am_lastSweep am' = now ∧ ∀ t e, am_entries am' !! t = Some e → now - ae_storedAt e < ackMapReapAfter) ∨
  (am' = am ∧ now - am_lastSweep am < ackMapSweepInterval).
Proof.
  unfold sweepLocked. rewrite bind_unit_ret_iff. intros [_ H] Hord. destruct (_ <? _) eqn:E.
  - injection H as <-. right. split; [done|]. apply Z.ltb_lt, Time_Sub_lt in E; [done|by vm_compute].
  - injection H as <-. left. destruct (sweep_loop_rest now order (set_lastSweep now am)) as (-> & _). split; [done|].
    intros t e. rewrite sweep_loop_lookup. cbn. case_decide as Hin.
    + destruct (am_entries am !! t) as [e'|]; [|done]. destruct (expired now e') eqn:Ex; [done|]. intros [= <-]. by apply expired_false.
    + intros He. destruct Hin. apply Hord. eauto.
Qed.

(** A live entry stays, an entry that stays was there. *)
Lemma sweep_keeps now order am am' t e :
  sweepLocked now order am = Ret am' →
  (am_entries am !! t = Some e → now - ae_storedAt e < ackMapReapAfter → am_entries am' !! t = Some e) ∧
  (am_entries am' !! t = Some e → am_entries am !! t = Some e).
Proof.
  unfold sweepLocked. rewrite bind_unit_ret_iff. intros [_ H]. destruct (_ <? _); injection H as <-; [done|].
  rewrite sweep_loop_lookup. cbn. split.
  - intros -> Hl%expired_false. rewrite Hl. by case_decide.
  - case_decide; [|done]. destruct (am_entries am !! t) as [e'|]; [|done]. by destruct (expired now e').
Qed.

Lemma sweep_rest now order am am' :
  sweepLocked now order am = Ret am' →
  am_resolvedTasks am' = am_resolvedTasks am ∧ am_next am' = am_next am ∧ (index_ok am → index_ok am') ∧
  am_entries am' ⊆ am_entries am.
Proof.
  intros H. assert (am_entries am' ⊆ am_entries am) as Hsub.
  { apply map_subseteq_spec. intros t e. by apply (sweep_keeps now order). }
  revert H. unfold sweepLocked. rewrite bind_unit_ret_iff. intros [_ H]. destruct (_ <? _); injection H as <-; [by split_and!|].
  destruct (sweep_loop_rest now order (set_lastSweep now am)) as (_ & ? & ? & Hi). split_and!; [done|done| |done]. intros [? ?]. apply Hi. by split.
Qed.

(** ** The cap *)

Lemma oldest_spec {A} (at_ : A → Time) (m : gmap string A) order best id t :
  oldest at_ m order best = Some (id, t) →
  (∀ i u, best = Some (i, u) → ∃ e, m !! i = Some e ∧ at_ e = u) →
  (∃ e, m !! id = Some e ∧ at_ e = t) ∧ (∀ i u, best = Some (i, u) → t ≤ u) ∧
  ∀ i e, i ∈ order → m !! i = Some e → t ≤ at_ e.
Proof.
  revert best. induction order as [|i order IH]; intros best; cbn.
  { intros -> Hb. split_and!; [by apply Hb|intros i u [= <- <-]; lia|]. intros i e Hi. by apply elem_of_nil in Hi. }
  intros Ho Hb. set (best' := match m !! i with Some _ => _ | None => _ end) in Ho.
  assert (∀ j u, best' = Some (j, u) → ∃ e, m !! j = Some e ∧ at_ e = u) as Hb'.
  { intros j u. unfold best'. destruct (m !! i) as [e|] eqn:E; [|apply Hb]. destruct best as [[k v]|]; [|intros [= <- <-]; eauto].
    destruct (at_ e <? v); [intros [= <- <-]; eauto|apply Hb]. }
  destruct (IH best' Ho Hb') as (H1 & H2 & H3). split_and!; [done| |].
  - intros j u ->. unfold best' in H2. destruct (m !! i) as [e|]; [|by apply (H2 j)].
    destruct (at_ e <? u) eqn:E; [|by apply (H2 j)]. specialize (H2 i (at_ e) eq_refl). lia.
  - intros j e Hj He. apply elem_of_cons in Hj as [->|Hj]; [|by eapply H3]. unfold best' in H2. rewrite He in H2.
    destruct best as [[k v]|]; [|by apply (H2 i)]. destruct (at_ e <? v) eqn:E; [by apply (H2 i)|]. specialize (H2 k v eq_refl). lia.
Qed.

Lemma oldest_some {A} (at_ : A → Time) (m : gmap string A) order best :
  is_Some best ∨ (∃ i, i ∈ order ∧ is_Some (m !! i)) → is_Some (oldest at_ m order best).
Proof.
  revert best. induction order as [|i order IH]; intros best; cbn.
  { intros [?|(i & Hi & _)]; [done|by apply elem_of_nil in Hi]. }
  intros H. apply IH. destruct H as [[[k v] ->]|(j & Hj & Hm)].
  - left. destruct (m !! i) as [e|]; [|by eauto]. destruct (at_ e <? v); eauto.
  - apply elem_of_cons in Hj as [->|Hj]; [|right; eauto]. left. destruct Hm as [e ->]. destruct best as [[k v]|]; [|eauto].
    destruct (at_ e <? v); eauto.
Qed.

Lemma size_pos_elem {A} (m : gmap string A) (order : list string) :
  m ≠ ∅ → (∀ t, is_Some (m !! t) → t ∈ order) → ∃ i, i ∈ order ∧ is_Some (m !! i).
Proof. intros Hne Hord. destruct (map_choose m Hne) as (i & e & He). exists i. split; [apply Hord|]; eauto. Qed.

(** One entry goes, and it is an oldest one. *)
Lemma evict_spec order am am' :
  evictOldestLocked order am = Ret am' → (∀ t, is_Some (am_entries am !! t) → t ∈ order) →
  ∃ id e, am_entries am !! id = Some e ∧ am' = deleteLocked id am ∧
    ∀ t e', am_entries am !! t = Some e' → ae_storedAt e ≤ ae_storedAt e'.
Proof.
  unfold evictOldestLocked. rewrite bind_unit_ret_iff. intros [Hne H] Hord. apply panic_if_ret_iff in Hne.
  apply bool_decide_eq_false in Hne. destruct (size_pos_elem _ order Hne Hord) as (i & Hi & Hs).
  destruct (oldest_some ae_storedAt (am_entries am) order None) as [[id u] Ho]; [right; eauto|]. rewrite Ho in H. injection H as <-.
  destruct (oldest_spec _ _ _ _ _ _ Ho) as ((e & He & <-) & _ & Hall); [done|]. exists id, e. split_and!; [done|done|].
  intros t e' Ht. eapply Hall; [|done]. apply Hord. eauto.
Qed.

(** ** Calls in the order of the mutex *)

(** A change of an entry that keeps its message, connection and mutexes; only
    [Touch] moves the time, to that of the call. *)
Record same_claim (now : Time) (e e' : ackEntry) : Prop := {
  sm_msg : ae_msg e' = ae_msg e;
  sm_conn : ae_conn e' = ae_conn e;
  sm_mu : ae_resolveMu e' = ae_resolveMu e;
  sm_time : ae_storedAt e' = ae_storedAt e ∨ ae_storedAt e' = now;
}.

Definition keys_of {A} (m : gmap string A) (order : list string) : Prop := ∀ t, is_Some (m !! t) → t ∈ order.

(** The calls that write, with the clock before and after. *)
Inductive ack_step : Time * AckMap → Time * AckMap → Prop :=
  | ack_store clock now order order' t msg token conn am am' :
      clock ≤ now → keys_of (am_entries am) order → keys_of (am_entries am) order' →
      storeForConn order order' t msg token conn now am = Ret am' → ack_step (clock, am) (now, am')
  | ack_take clock ref am b am' : takeUnresolved ref am = (b, am') → ack_step (clock, am) (clock, am')
  | ack_delete clock t am am' : AckDelete t am = Ret am' → ack_step (clock, am) (clock, am')
  | ack_edit clock now t who f am b am' :
      clock ≤ now → (∀ e, same_claim now e (f e)) → with_entry t who f am = Ret (b, am') → ack_step (clock, am) (now, am')
  | ack_mark clock now order t token am am' :
      clock ≤ now → keys_of (am_resolvedTasks am) order → MarkResolved order t token now am = Ret am' →
      ack_step (clock, am) (now, am')
  | ack_was clock now t claims am b am' :
      clock ≤ now → WasResolvedBy t claims now am = Ret (b, am') → ack_step (clock, am) (now, am').

(** The methods [ack_edit] stands for. *)
Lemma edits_same now :
  (∀ f e, same_claim now e (set_log f e)) ∧ (∀ s e, same_claim now e (set_pending s e)) ∧
  (∀ e, same_claim now e (set_storedAt now e)) ∧ (∀ j e, same_claim now e (set_journal j e)) ∧
  (∀ p e, same_claim now e (set_placer p e)) ∧ (∀ err e, same_claim now e (set_stop err e)).
Proof.
  split_and!; intros; split; try done; try (by left); try (by right).
  all: unfold set_log; destruct (f _ _ _) as [[? ?] ?]; try done; by left.
Qed.

Record ack_ok (clock : Time) (am : AckMap) : Prop := {
  ao_index : index_ok am;
  ao_size : Z.of_nat (size (am_entries am)) ≤ ackMapMaxEntries;
  ao_resolved : Z.of_nat (size (am_resolvedTasks am)) ≤ resolvedTaskMax;
  ao_age : ∀ t e, am_entries am !! t = Some e →
    am_lastSweep am - ae_storedAt e < ackMapReapAfter ∧ ae_storedAt e ≤ clock;
  ao_sweep : am_lastSweep am ≤ clock;
}.

Lemma size_insert_le {A} (m : gmap string A) i x : (size (<[i := x]> m) ≤ S (size m))%nat.
Proof. rewrite map_size_insert. destruct (m !! i); cbn; lia. Qed.

Lemma size_delete_le {A} (m : gmap string A) i : (size (delete i m) ≤ size m)%nat.
Proof. rewrite map_size_delete. destruct (m !! i); cbn; lia. Qed.

Lemma size_delete_lt {A} (m : gmap string A) i x : m !! i = Some x → size (delete i m) = (size m - 1)%nat ∧ (0 < size m)%nat.
Proof.
  intros H. rewrite map_size_delete, H. cbn. split; [lia|]. assert (size m ≠ 0%nat); [|lia].
  rewrite map_size_ne_0_lookup. eauto.
Qed.

Lemma ack_delete_ok clock t am : ack_ok clock am → ack_ok clock (deleteLocked t am).
Proof.
  intros [H1 H2 H3 H4 H5]. destruct (delete_rest t am) as (E1 & E2 & _). split.
  - by apply index_delete.
  - rewrite delete_entries. pose proof (size_delete_le (am_entries am) t). lia.
  - by rewrite E2.
  - intros t' e. rewrite delete_entries, E1. intros [_ He]%lookup_delete_Some. by apply (H4 t').
  - by rewrite E1.
Qed.

Lemma insert_entries t msg token conn now am :
  am_entries (insert_claim t msg token conn now am) =
    <[t := new_entry msg now token conn (am_next am)]> (am_entries am) ∧
  am_lastSweep (insert_claim t msg token conn now am) = am_lastSweep am ∧
  am_resolvedTasks (insert_claim t msg token conn now am) = am_resolvedTasks am ∧
  am_next (insert_claim t msg token conn now am) = (am_next am + 2)%nat.
Proof.
  unfold insert_claim. destruct (delete_rest t am) as (E1 & E2 & E3). pose proof (delete_entries t am) as E.
  destruct conn; cbn; rewrite E, E1, E2, E3, insert_delete_eq; done.
Qed.

(** What a store does, in parts. *)
Lemma store_inv order order' t msg token conn now am am' :
  storeForConn order order' t msg token conn now am = Ret am' →
  ∃ am1 am2, sweepLocked now order am = Ret am1 ∧ am' = insert_claim t msg token conn now am2 ∧
    (Z.of_nat (size (am_entries am1)) < ackMapMaxEntries ∧ am2 = am1 ∨
     ackMapMaxEntries ≤ Z.of_nat (size (am_entries am1)) ∧ evictOldestLocked order' am1 = Ret am2).
Proof.
  unfold storeForConn. rewrite bind_unit_ret_iff. intros (_ & am1 & H1 & H)%(λ H, conj (proj1 H) (proj1 (bind_ret_iff _ _ _) (proj2 H))).
  apply bind_ret_iff in H as (am2 & H2 & [= <-]). exists am1, am2. split_and!; [done|done|].
  destruct (_ <=? _) eqn:E; [right|left]; [split; [lia|done]|]. injection H2 as <-. split; [lia|done].
Qed.

Lemma ack_store_ok clock now order order' t msg token conn am am' :
  clock ≤ now → keys_of (am_entries am) order → keys_of (am_entries am) order' → ack_ok clock am →
  storeForConn order order' t msg token conn now am = Ret am' →
  ack_ok now am' ∧ ∀ u e, am_entries am' !! u = Some e → now - ae_storedAt e < ackMapReapAfter + ackMapSweepInterval.
Proof.
  intros Hc Ho Ho' [H1 H2 H3 H4 H5] (am1 & am2 & Hs & -> & Hcase)%store_inv.
  destruct (sweep_rest _ _ _ _ Hs) as (E2 & E3 & Hi & Hsub). specialize (Hi H1).
  assert (ack_ok now am1 ∧ ∀ u e, am_entries am1 !! u = Some e → now - ae_storedAt e < ackMapReapAfter + ackMapSweepInterval) as [Hok1 Hage].
  { destruct (sweep_entries _ _ _ _ Hs Ho) as [[El Hall]|[-> El]].
    - split.
      + split; [done| |by rewrite E2| |rewrite El; lia].
        * pose proof (map_subseteq_size _ _ Hsub). lia.
        * intros u e Hu. rewrite El. split; [by apply (Hall u)|]. eapply lookup_weaken in Hsub; [|done]. destruct (H4 u e Hsub). lia.
      + intros u e Hu. specialize (Hall u e Hu). assert (0 < ackMapSweepInterval) by done. lia.
    - split; [split; [done..| |lia]|].
      + intros u e Hu. destruct (H4 u e Hu). lia.
      + intros u e Hu. destruct (H4 u e Hu). lia. }
  assert (ack_ok now am2 ∧ Z.of_nat (size (am_entries am2)) < ackMapMaxEntries ∧ am_entries am2 ⊆ am_entries am1) as (Hok2 & Hsz & Hsub2).
  { destruct Hcase as [[? ->]|[Hge He]]; [done|].
    destruct (evict_spec _ _ _ He) as (id & e & Hid & -> & _).
    { intros u Hu. apply Ho'. destruct Hu as [e' He']. eapply lookup_weaken in Hsub; [|done]. eauto. }
    split_and!; [by apply ack_delete_ok| |].
    - rewrite delete_entries. destruct (size_delete_lt _ _ _ Hid). pose proof (ao_size _ _ Hok1). lia.
    - rewrite delete_entries. apply delete_subseteq. }
  destruct Hok2 as [K1 K2 K3 K4 K5]. destruct (insert_entries t msg token conn now am2) as (F1 & F2 & F3 & _). split.
  - split.
    + by apply index_insert.
    + rewrite F1. pose proof (size_insert_le (am_entries am2) t (new_entry msg now token conn (am_next am2))). lia.
    + by rewrite F3.
    + intros u e. rewrite F1, F2. intros [[<- <-]|[_ Hu]]%lookup_insert_Some; [|by apply (K4 u)].
      cbn. assert (0 < ackMapReapAfter) by done. lia.
    + by rewrite F2.
  - intros u e. rewrite F1. intros [[<- <-]|[_ Hu]]%lookup_insert_Some.
    + cbn. assert (0 < ackMapReapAfter + ackMapSweepInterval) by done. lia.
    + apply (Hage u). by eapply lookup_weaken.
Qed.

Lemma ack_edit_ok clock now t who f am b am' :
  clock ≤ now → (∀ e, same_claim now e (f e)) → ack_ok clock am → with_entry t who f am = Ret (b, am') → ack_ok now am'.
Proof.
  intros Hc Hf [H1 H2 H3 H4 H5] H. unfold with_entry in H. apply bind_unit_ret_iff in H as [_ H].
  destruct (am_entries am !! t) as [e|] eqn:E; injection H as <- <-.
  2: { split; [done..| |lia]. intros u e Hu. destruct (H4 u e Hu). lia. }
  destruct (Hf e) as [S1 S2 S3 S4]. split; cbn [set_entries am_entries am_byConn am_lastSweep am_resolvedTasks].
  - destruct H1 as [Hx Hn]. split; [|exact Hn]. intros c u. specialize (Hx c u). unfold conn_tasks in *. cbn. rewrite Hx.
    setoid_rewrite lookup_insert_Some. split.
    + intros (e' & He' & Hc'). destruct (decide (t = u)) as [<-|Hne]; [|exists e'; split; [by right|done]].
      rewrite E in He'. injection He' as <-. exists (f e). split; [by left|congruence].
    + intros (e' & [[<- <-]|[? ?]] & Hc'); [exists e; split; [done|congruence]|eauto].
  - rewrite map_size_insert, E. exact H2.
  - exact H3.
  - intros u e'. intros [[<- <-]|[_ Hu]]%lookup_insert_Some.
    + destruct (H4 t e E). assert (0 < ackMapReapAfter) by done. destruct S4 as [-> | ->]; lia.
    + destruct (H4 u e' Hu). lia.
  - lia.
Qed.

Lemma later_ok clock now am : clock ≤ now → ack_ok clock am → ack_ok now am.
Proof. intros Hc [H1 H2 H3 H4 H5]. split; [done..| |lia]. intros t e He. destruct (H4 t e He). lia. Qed.

Lemma resolved_ok clock am m : Z.of_nat (size m) ≤ resolvedTaskMax → ack_ok clock am →
  ack_ok clock (MkAckMap (am_entries am) (am_byConn am) (am_lastSweep am) m (am_next am)).
Proof. intros Hm [[H1 H1'] H2 H3 H4 H5]. split; [split|..]; done. Qed.

Lemma mark_ok clock now order t token am am' :
  clock ≤ now → keys_of (am_resolvedTasks am) order → ack_ok clock am → MarkResolved order t token now am = Ret am' → ack_ok now am'.
Proof.
  intros Hc Ho Hok%(later_ok _ _ _ Hc) H. unfold MarkResolved in H. apply bind_unit_ret_iff in H as [_ [= <-]].
  assert (1 < resolvedTaskMax) as Hpos by done.
  destruct (resolvedTaskMax <=? _) eqn:E.
  - assert (am_resolvedTasks am ≠ ∅) as Hne.
    { intros Em. apply Z.leb_le in E. rewrite Em, map_size_empty in E. lia. }
    destruct (size_pos_elem _ order Hne Ho) as (i & Hi & Hs).
    destruct (oldest_some rt_at (am_resolvedTasks am) order None) as [[id u] Hid]; [right; eauto|]. rewrite Hid.
    destruct (oldest_spec _ _ _ _ _ _ Hid) as ((e & He & _) & _ & _); [done|]. destruct (size_delete_lt _ _ _ He).
    apply (resolved_ok now am); [|done]. pose proof (size_insert_le (delete id (am_resolvedTasks am)) t (MkResolved now token)).
    pose proof (ao_resolved _ _ Hok). cbn. lia.
  - apply Z.leb_gt in E. apply (resolved_ok now am); [|done]. pose proof (size_insert_le (am_resolvedTasks am) t (MkResolved now token)). lia.
Qed.

Lemma was_ok clock now t claims am b am' :
  clock ≤ now → ack_ok clock am → WasResolvedBy t claims now am = Ret (b, am') → ack_ok now am'.
Proof.
  intros Hc Hok%(later_ok _ _ _ Hc) H. unfold WasResolvedBy in H. apply bind_unit_ret_iff in H as [_ H].
  destruct (am_resolvedTasks am !! t) as [e|]; [|by injection H as _ <-]. destruct (_ <=? _); injection H as _ <-; [|done].
  apply (resolved_ok now am); [|done]. pose proof (size_delete_le (am_resolvedTasks am) t). pose proof (ao_resolved _ _ Hok). lia.
Qed.

Lemma ack_step_ok s s' : ack_step s s' → ack_ok s.1 s.2 → ack_ok s'.1 s'.2.
Proof.
  intros [clock now order order' t msg token conn am am' Hc Ho Ho' H|clock ref am b am' H|clock t am am' H
    |clock now t who f am b am' Hc Hf H|clock now order t token am am' Hc Ho H|clock now t claims am b am' Hc H] Hok; cbn in *.
  - by eapply ack_store_ok in H as [? _].
  - unfold takeUnresolved in H. destruct (am_entries am !! _); [|by simplify_eq]. destruct (_ && _); simplify_eq; [by apply ack_delete_ok|done].
  - unfold AckDelete in H. apply bind_unit_ret_iff in H as [_ [= <-]]. by apply ack_delete_ok.
  - by eapply ack_edit_ok.
  - by eapply mark_ok.
  - by eapply was_ok.
Qed.

Lemma ack_new_ok start am : newAckMapWithClock start = Ret am → ack_ok start am.
Proof.
  unfold newAckMapWithClock. intros [_ [= <-]]%bind_unit_ret_iff. split; cbn; [|done|done|by intros t e H; rewrite lookup_empty in H|lia].
  split; cbn.
  - intros c t. unfold conn_tasks. cbn. rewrite lookup_empty. cbn. split; [set_solver|]. intros (e & He & _). by rewrite lookup_empty in He.
  - intros c. by rewrite lookup_empty.
Qed.

Lemma ack_steps_ok start am0 s : newAckMapWithClock start = Ret am0 → rtc ack_step (start, am0) s → ack_ok s.1 s.2.
Proof.
  intros H0%ack_new_ok Hr. remember (start, am0) as s0 eqn:E. assert (ack_ok s0.1 s0.2) as Hs0 by (by subst).
  clear E H0. induction Hr as [|s0 s1 s2 Hst _ IH]; [done|]. apply IH. by eapply ack_step_ok.
Qed.
