(* ===== verification/AckClaims.v ===== *)
(** * Ending a claim (bridge/resolve.go, bridge/workerconn.go)

    A resolve that ends a claim acknowledges (or, for a pause, Naks) its
    message; the close of a worker's connection Naks the messages of the claims
    polled under it.  Both hold the claim's [resolveMu] meanwhile.  The steps
    below interleave any number of them with polls that store new claims, at
    the calls to the claim map, the mutex and the messages.

    A delivery is a fresh message.  The other actions (heartbeat, checkpoint,
    stream, the journal's and the like) never take the mutex, and yet
    acknowledge the message and drop the claim when the run was cancelled
    (withdrawIfRunCancelled) or the journal says that the task may not proceed
    (settleJournalStop, publishRestartLimit): these acknowledgements are
    recorded as [Withdrawn]. *)

From stdpp Require Import relations.
From S2P Require Import Prelude GoTime AckMap.

#[local] Open Scope Z_scope.

(** [Acked] and [Naked] under the claim's mutex, [Withdrawn] without it. *)
Inductive ending : Type := Acked | Naked | Withdrawn.

#[export] Instance ending_eq_dec : EqDecision ending.
Proof. solve_decision. Defined.

(** What a goroutine will do next. *)
Inductive thread : Type :=
  | RLoad (t : string)                   (* handleResolve: the first Load *)
  | RLock (t : string) (loaded : nat)    (* lockClaimEnd: ResolveLock *)
  | RWait (t : string) (loaded mu : nat) (* mu.Lock() *)
  | RCheck (t : string) (loaded mu : nat) (* the second Load *)
  | REnd (t : string) (msg mu : nat)     (* the action, up to msg.Ack() *)
  | RDelete (t : string) (msg mu : nat)  (* ackMap.Delete, unlock *)
  | LWait (ref : claimRef)               (* releaseClaim: ref.mu.Lock() *)
  | LTake (ref : claimRef)               (* takeUnresolved *)
  | LNak (ref : claimRef)                (* ref.msg.Nak(), unlock *)
  | HLoad (t : string)                   (* the Load of another action *)
  | HAck (t : string) (msg : nat)        (* the action; a withdrawal: msg.Ack() *)
  | HDelete (t : string) (msg : nat)     (* ackMap.Delete *)
  | Done.

(** The mutex a goroutine holds. *)
Definition holds (th : thread) : option nat :=
  match th with
  | RCheck _ _ mu | REnd _ _ mu | RDelete _ _ mu => Some mu
  | LTake ref | LNak ref => Some (cr_mu ref)
  | _ => None
  end.

(** [bs_stored]: the task and the mutex each message was stored under. *)
Record bridge : Type := MkBridge {
  bs_am : AckMap;
  bs_threads : list thread;
  bs_ended : list (nat * ending);
  bs_stored : gmap nat (string * nat);
}.

(** The messages ended under a mutex, in order. *)
Definition locked_endings (ended : list (nat * ending)) : list nat := (filter (λ x, x.2 ≠ Withdrawn) ended).*1.
#[global] Arguments locked_endings : simpl never.

Definition free (mu : nat) (ths : list thread) : Prop := ∀ i th, ths !! i = Some th → holds th ≠ Some mu.

(** The next action of the goroutine [th]. *)
Inductive thread_step (am : AckMap) (ths : list thread) : thread → AckMap → list (nat * ending) → thread → Prop :=
  | t_load t m : AckLoad t am = Ret (Some m) → thread_step am ths (RLoad t) am [] (RLock t m)
  | t_unknown t : AckLoad t am = Ret None → thread_step am ths (RLoad t) am [] Done
  | t_reject t : thread_step am ths (RLoad t) am [] Done  (* another token's task, a fenced claim, a bad request *)
  | t_lock t m mu : ResolveLock t am = Ret (Some mu) → thread_step am ths (RLock t m) am [] (RWait t m mu)
  | t_nolock t m : ResolveLock t am = Ret None → thread_step am ths (RLock t m) am [] Done
  | t_acquire t m mu : free mu ths → thread_step am ths (RWait t m mu) am [] (RCheck t m mu)
  | t_same t m mu : AckLoad t am = Ret (Some m) → thread_step am ths (RCheck t m mu) am [] (REnd t m mu)
  | t_other t m mu o : AckLoad t am = Ret o → o ≠ Some m → thread_step am ths (RCheck t m mu) am [] Done
  | t_reject_again t m mu : thread_step am ths (RCheck t m mu) am [] Done
  | t_refused t m mu : thread_step am ths (REnd t m mu) am [] Done
  | t_end t m mu how : how ≠ Withdrawn → thread_step am ths (REnd t m mu) am [(m, how)] (RDelete t m mu)
  | t_end_lost t m mu : thread_step am ths (REnd t m mu) am [] (RDelete t m mu)
  | t_delete t m mu am' : AckDelete t am = Ret am' → thread_step am ths (RDelete t m mu) am' [] Done
  | t_acquire_release ref : free (cr_mu ref) ths → thread_step am ths (LWait ref) am [] (LTake ref)
  | t_take ref am' : takeUnresolved ref am = (true, am') → thread_step am ths (LTake ref) am' [] (LNak ref)
  | t_leave ref am' : takeUnresolved ref am = (false, am') → thread_step am ths (LTake ref) am' [] Done
  | t_nak ref : thread_step am ths (LNak ref) am [(cr_msg ref, Naked)] Done
  | t_nak_lost ref : thread_step am ths (LNak ref) am [] Done
  | t_hload t m : AckLoad t am = Ret (Some m) → thread_step am ths (HLoad t) am [] (HAck t m)
  | t_hreject t : thread_step am ths (HLoad t) am [] Done  (* unknown, another token's task, fenced, a bad request *)
  | t_hdone t m : thread_step am ths (HAck t m) am [] Done  (* nothing to withdraw, or its Ack failed *)
  | t_hack t m : thread_step am ths (HAck t m) am [(m, Withdrawn)] (HDelete t m)
  | t_hack_lost t m : thread_step am ths (HAck t m) am [] (HDelete t m)
  | t_hdelete t m am' : AckDelete t am = Ret am' → thread_step am ths (HDelete t m) am' [] Done.

Inductive bridge_step : bridge → bridge → Prop :=
  | b_thread am ths ended stored i th am' new th' :
      ths !! i = Some th → thread_step am ths th am' new th' →
      bridge_step (MkBridge am ths ended stored) (MkBridge am' (<[i := th']> ths) (ended ++ new) stored)
  | b_poll order order' t msg token conn now am am' ths ended stored :
      stored !! msg = None → storeForConn order order' t msg token conn now am = Ret am' →
      bridge_step (MkBridge am ths ended stored)
                  (MkBridge am' ths ended (<[msg := (t, am_next am)]> stored))
  | b_resolve t am ths ended stored :
      bridge_step (MkBridge am ths ended stored) (MkBridge am (ths ++ [RLoad t]) ended stored)
  | b_other t am ths ended stored :
      bridge_step (MkBridge am ths ended stored) (MkBridge am (ths ++ [HLoad t]) ended stored)
  | b_close conn am ths ended stored :
      bridge_step (MkBridge am ths ended stored) (MkBridge am (ths ++ (LWait <$> connClaims conn am)) ended stored)
  | b_closed conn t ref am ths ended stored :
      connClaim conn t am = Ret (Some ref) →
      bridge_step (MkBridge am ths ended stored) (MkBridge am (ths ++ [LWait ref]) ended stored)
  | b_edit t who f b am am' ths ended stored :
      (∀ e, ae_msg (f e) = ae_msg e ∧ ae_conn (f e) = ae_conn e ∧ ae_resolveMu (f e) = ae_resolveMu e) →
      with_entry t who f am = Ret (b, am') →
      bridge_step (MkBridge am ths ended stored) (MkBridge am' ths ended stored)
  | b_mark order t token now am am' ths ended stored :
      MarkResolved order t token now am = Ret am' →
      bridge_step (MkBridge am ths ended stored) (MkBridge am' ths ended stored).
