(* ===== verification/AckClaimsSpec.v ===== *)
(** * A delivery is ended under its mutex at most once

    Between the second [Load] and the acknowledgement the claim's mutex keeps
    releases out, and a message is stored once, so the entry a resolve or a
    release acts on is the one its mutex belongs to.  The withdrawals, which
    hold no mutex, only remove entries from the map. *)

From stdpp Require Import relations.
From S2P Require Import Prelude GoTime AckMap AckMapSpec AckClaims.

#[local] Open Scope Z_scope.

(** ** The map, from one step to the next *)

(** Every entry is one that was there, up to the fields that may change. *)
Definition shrinks (am am' : AckMap) : Prop :=
  (∀ t e', am_entries am' !! t = Some e' →
     ∃ e, am_entries am !! t = Some e ∧ ae_msg e' = ae_msg e ∧ ae_resolveMu e' = ae_resolveMu e) ∧
  am_next am' = am_next am ∧ (index_ok am → index_ok am').

Definition gone (am : AckMap) (m : nat) : Prop := ∀ t e, am_entries am !! t = Some e → ae_msg e ≠ m.

Lemma gone_shrinks am am' m : shrinks am am' → gone am m → gone am' m.
Proof. intros [H _] Hg t e' He'. destruct (H t e' He') as (e & He & -> & _). by eapply Hg. Qed.

Lemma shrinks_refl am : shrinks am am.
Proof. split_and!; [|done..]. intros t e He. by exists e. Qed.

Lemma shrinks_delete t am : shrinks am (deleteLocked t am).
Proof.
  split_and!; [|by destruct (delete_rest t am) as (_ & _ & ->)|apply index_delete].
  intros u e. rewrite delete_entries. intros [_ He]%lookup_delete_Some. by exists e.
Qed.

Lemma shrinks_AckDelete t am am' : AckDelete t am = Ret am' → am' = deleteLocked t am.
Proof. unfold AckDelete. by intros [_ [= <-]]%bind_unit_ret_iff. Qed.

Lemma take_inv ref am b am' : takeUnresolved ref am = (b, am') →
  (b = false ∧ am' = am) ∨ (b = true ∧ am' = deleteLocked (cr_taskID ref) am ∧
    ∃ e, am_entries am !! cr_taskID ref = Some e ∧ ae_msg e = cr_msg ref).
Proof.
  unfold takeUnresolved. destruct (am_entries am !! cr_taskID ref) as [e|]; [|intros [= <- <-]; by left].
  destruct (bool_decide (ae_msg e = cr_msg ref)) eqn:E; cbn [andb]; [|intros [= <- <-]; by left].
  destruct (bool_decide (ae_journalStop e = None)); intros [= <- <-]; [right|by left]. apply bool_decide_eq_true in E. split_and!; eauto.
Qed.

Lemma shrinks_edit t who f b am am' :
  (∀ e, ae_msg (f e) = ae_msg e ∧ ae_conn (f e) = ae_conn e ∧ ae_resolveMu (f e) = ae_resolveMu e) →
  with_entry t who f am = Ret (b, am') → shrinks am am'.
Proof.
  intros Hf H. unfold with_entry in H. apply bind_unit_ret_iff in H as [_ H].
  destruct (am_entries am !! t) as [e|] eqn:E; injection H as _ <-; [|apply shrinks_refl]. destruct (Hf e) as (F1 & F2 & F3).
  split_and!; [|done|].
  - intros u e'. cbn. intros [[<- <-]|[_ Hu]]%lookup_insert_Some; [by exists e|by exists e'].
  - intros [Hx Hn]. split; [|exact Hn]. intros c u. specialize (Hx c u). unfold conn_tasks in *. cbn. rewrite Hx.
    setoid_rewrite lookup_insert_Some. split.
    + intros (e' & He' & Hc'). destruct (decide (t = u)) as [<-|Hne]; [|exists e'; split; [by right|done]].
      rewrite E in He'. injection He' as <-. exists (f e). split; [by left|congruence].
    + intros (e' & [[<- <-]|[? ?]] & Hc'); [exists e; split; [done|congruence]|eauto].
Qed.

Lemma shrinks_mark order t token now am am' : MarkResolved order t token now am = Ret am' → shrinks am am'.
Proof.
  unfold MarkResolved. intros [_ [= <-]]%bind_unit_ret_iff. destruct (_ <=? _); [destruct (oldest _ _ _ _) as [[id u]|]|];
    (split_and!; [|done|intros [? ?]; by split]); intros v e He; by exists e.
Qed.

(** A poll adds one entry, with its message and a mutex of its own. *)
Lemma store_claims order order' t msg token conn now am am' :
  storeForConn order order' t msg token conn now am = Ret am' →
  (∀ u e, am_entries am' !! u = Some e →
     (u = t ∧ ae_msg e = msg ∧ ae_resolveMu e = am_next am) ∨ am_entries am !! u = Some e) ∧
  am_next am' = (am_next am + 2)%nat ∧ (index_ok am → index_ok am').
Proof.
  intros (am1 & am2 & Hs & -> & Hcase)%store_inv. destruct (sweep_rest _ _ _ _ Hs) as (_ & E3 & Hi & Hsub).
  assert (shrinks am1 am2 ∧ am_entries am2 ⊆ am_entries am1) as [(_ & Hnext & Hi2) Hsub2].
  { destruct Hcase as [[_ ->]|[_ He]]; [split; [apply shrinks_refl|done]|]. unfold evictOldestLocked in He.
    apply bind_unit_ret_iff in He as [_ [= <-]]. destruct (oldest _ _ _ _) as [[id u]|]; [|split; [apply shrinks_refl|done]].
    split; [apply shrinks_delete|]. rewrite delete_entries. apply delete_subseteq. }
  destruct (insert_entries t msg token conn now am2) as (F1 & _ & _ & F4). split_and!.
  - intros u e. rewrite F1. intros [[<- <-]|[_ Hu]]%lookup_insert_Some; [left; cbn; by rewrite Hnext, E3|].
    right. eapply lookup_weaken, Hsub. by eapply lookup_weaken.
  - rewrite F4, Hnext, E3. done.
  - intros H. by apply index_insert, Hi2, Hi.
Qed.

(** ** The invariant *)

Definition thread_ok (s : bridge) (th : thread) : Prop :=
  match th with
  | RLoad _ | HLoad _ | HAck _ _ | HDelete _ _ | Done => True
  | RLock t m => ∃ mu, bs_stored s !! m = Some (t, mu)
  | RWait t m mu | RCheck t m mu => ∃ mu', bs_stored s !! m = Some (t, mu') ∧ (mu = mu' ∨ gone (bs_am s) m)
  | REnd t m mu => bs_stored s !! m = Some (t, mu) ∧ m ∉ locked_endings (bs_ended s)
  | RDelete t m mu => bs_stored s !! m = Some (t, mu)
  | LWait ref | LTake ref => bs_stored s !! cr_msg ref = Some (cr_taskID ref, cr_mu ref)
  | LNak ref => bs_stored s !! cr_msg ref = Some (cr_taskID ref, cr_mu ref) ∧ gone (bs_am s) (cr_msg ref) ∧
                cr_msg ref ∉ locked_endings (bs_ended s)
    end.

Record claims_ok (s : bridge) : Prop := {
  ck_index : index_ok (bs_am s);
  ck_entry : ∀ t e, am_entries (bs_am s) !! t = Some e → bs_stored s !! ae_msg e = Some (t, ae_resolveMu e);
  ck_fresh : ∀ m t mu, bs_stored s !! m = Some (t, mu) → (mu < am_next (bs_am s))%nat;
  ck_mutex : ∀ m m' t t' mu, bs_stored s !! m = Some (t, mu) → bs_stored s !! m' = Some (t', mu) → m = m';
  ck_thread : ∀ i th, bs_threads s !! i = Some th → thread_ok s th;
  ck_excl : ∀ i j th th' mu, bs_threads s !! i = Some th → bs_threads s !! j = Some th' →
    holds th = Some mu → holds th' = Some mu → i = j;
  ck_once : NoDup (locked_endings (bs_ended s));
  ck_ended : ∀ m, m ∈ locked_endings (bs_ended s) → is_Some (bs_stored s !! m) ∧
    (gone (bs_am s) m ∨ ∃ i t mu, bs_threads s !! i = Some (RDelete t m mu));
}.

(** A thread's facts survive a step that removes entries and ends nothing. *)
Lemma thread_ok_shrinks am am' ths ths' ended ended' stored th :
  shrinks am am' → locked_endings ended' = locked_endings ended →
  thread_ok (MkBridge am ths ended stored) th → thread_ok (MkBridge am' ths' ended' stored) th.
Proof.
  intros Hs He. destruct th; cbn; rewrite ?He; try done; intros H; naive_solver eauto using gone_shrinks.
Qed.

(** The lookup of an entry by its message: only under its task. *)
Lemma claim_present s m t mu : claims_ok s → bs_stored s !! m = Some (t, mu) →
  gone (bs_am s) m ∨ ∃ e, am_entries (bs_am s) !! t = Some e ∧ ae_msg e = m ∧ ae_resolveMu e = mu.
Proof.
  intros Hs Hm. destruct (am_entries (bs_am s) !! t) as [e|] eqn:E.
  - destruct (decide (ae_msg e = m)) as [Hd|Hd].
    + right. exists e. pose proof (ck_entry _ Hs _ _ E) as Hst. rewrite Hd, Hm in Hst. injection Hst as ->. done.
    + left. intros t' e' He' <-. pose proof (ck_entry _ Hs _ _ He') as Hst. rewrite Hm in Hst. injection Hst as -> _. congruence.
  - left. intros t' e' He' <-. pose proof (ck_entry _ Hs _ _ He') as Hst. rewrite Hm in Hst. injection Hst as -> _. congruence.
Qed.

Lemma gone_delete s m t mu : claims_ok s → bs_stored s !! m = Some (t, mu) → gone (deleteLocked t (bs_am s)) m.
Proof.
  intros Hs Hm t' e'. rewrite delete_entries. intros [Hne He']%lookup_delete_Some <-. apply Hne.
  pose proof (ck_entry _ Hs _ _ He') as Hst. rewrite Hm in Hst. by injection Hst as ->.
Qed.

(** ** Steps of a goroutine *)

Lemma locked_withdrawn ended m : locked_endings (ended ++ [(m, Withdrawn)]) = locked_endings ended.
Proof. unfold locked_endings. rewrite filter_app, filter_cons_False by (cbn; naive_solver). by rewrite app_nil_r. Qed.

Lemma thread_lookup {A} (l : list A) i x y j z : l !! i = Some x → <[i := y]> l !! j = Some z → (j = i ∧ z = y) ∨ (j ≠ i ∧ l !! j = Some z).
Proof.
  intros Hi. destruct (decide (j = i)) as [->|Hne].
  - rewrite list_lookup_insert_eq by (by eapply lookup_lt_Some). intros [= <-]. by left.
  - rewrite list_lookup_insert_ne by done. by right.
Qed.

(** What a goroutine may hold after its step. *)
Definition held_ok (ths : list thread) (th th' : thread) : Prop :=
  ∀ mu, holds th' = Some mu → holds th = Some mu ∨ free mu ths.

Lemma excl_insert s i th th' :
  claims_ok s → bs_threads s !! i = Some th → held_ok (bs_threads s) th th' →
  ∀ j k x y mu, <[i := th']> (bs_threads s) !! j = Some x → <[i := th']> (bs_threads s) !! k = Some y →
    holds x = Some mu → holds y = Some mu → j = k.
Proof.
  intros Hs Hi Hh j k x y mu Hj Hk Hx Hy.
  destruct (thread_lookup _ _ _ _ _ _ Hi Hj) as [[-> ->]|[Hnj Hj']], (thread_lookup _ _ _ _ _ _ Hi Hk) as [[-> ->]|[Hnk Hk']]; [done| | |].
  - destruct (Hh mu Hx) as [H|H]; [by eapply (ck_excl _ Hs)|]. by destruct (H k y Hk').
  - destruct (Hh mu Hy) as [H|H]; [by eapply (ck_excl _ Hs)|]. by destruct (H j x Hj').
  - by eapply (ck_excl _ Hs).
Qed.

(** A step that ends nothing under a mutex. *)
Lemma quiet_step am am' ths ended ended' stored i th th' :
  claims_ok (MkBridge am ths ended stored) → ths !! i = Some th → shrinks am am' → held_ok ths th th' →
  locked_endings ended' = locked_endings ended →
  thread_ok (MkBridge am' (<[i := th']> ths) ended' stored) th' →
  (∀ t m mu, th = RDelete t m mu → gone am' m) →
  claims_ok (MkBridge am' (<[i := th']> ths) ended' stored).
Proof.
  intros Hs Hi Hsh Hh Hl Hth Hdel. pose proof Hsh as (Hent & Hnext & Hidx). pose proof Hs as [K1 K2 K3 K4 K5 K6 K7 K8]. cbn in *. split; cbn.
  - by apply Hidx.
  - intros t e' He'. destruct (Hent t e' He') as (e & He & -> & ->). by apply K2.
  - rewrite Hnext. exact K3.
  - exact K4.
  - intros j x Hj. destruct (thread_lookup _ _ _ _ _ _ Hi Hj) as [[-> ->]|[_ Hj']]; [done|].
    eapply thread_ok_shrinks; [done..|]. by apply (K5 j).
  - by apply (excl_insert _ _ _ _ Hs Hi Hh).
  - by rewrite Hl.
  - rewrite Hl. intros m Hm. destruct (K8 m Hm) as [Hst [Hg|(j & t & mu & Hj)]]; (split; [done|]).
    + left. by eapply gone_shrinks.
    + destruct (decide (j = i)) as [->|Hne].
      * left. rewrite Hi in Hj. injection Hj as ->. by eapply Hdel.
      * right. exists j, t, mu. by rewrite list_lookup_insert_ne.
Qed.

(** A step that ends the message of the claim whose mutex is held. *)
Lemma ending_step am ths ended stored i th th' t m mu how :
  claims_ok (MkBridge am ths ended stored) → ths !! i = Some th → holds th = Some mu → stored !! m = Some (t, mu) →
  m ∉ locked_endings ended → how ≠ Withdrawn → (th' = RDelete t m mu ∨ th' = Done ∧ gone am m) →
  claims_ok (MkBridge am (<[i := th']> ths) (ended ++ [(m, how)]) stored).
Proof.
  intros Hs Hi Hmu Hst Hnot Hhow Hth. pose proof Hs as [K1 K2 K3 K4 K5 K6 K7 K8]. cbn in *.
  assert (locked_endings (ended ++ [(m, how)]) = locked_endings ended ++ [m]) as Hsnoc.
  { unfold locked_endings. by rewrite filter_app, fmap_app, filter_cons_True. }
  assert (held_ok ths th th') as Hh.
  { intros mu' Hm'. left. destruct Hth as [-> | [-> _]]; [cbn in Hm'; congruence|done]. }
  split; cbn; try done.
  - intros j x Hj. destruct (thread_lookup _ _ _ _ _ _ Hi Hj) as [[-> ->]|[Hne Hj']].
    { by destruct Hth as [-> | [-> _]]. }
    specialize (K5 j x Hj'). assert (holds x ≠ Some mu) as Hx.
    { intros Hx. apply Hne. by eapply K6. }
    destruct x; cbn in *; try done.
    + destruct K5 as [Hs' ?]. split; [done|]. rewrite Hsnoc, elem_of_app, list_elem_of_singleton. intros [?| ->]; [done|].
      rewrite Hst in Hs'. injection Hs' as _ ->. done.
    + destruct K5 as (Hs' & ? & ?). split_and!; [done..|]. rewrite Hsnoc, elem_of_app, list_elem_of_singleton. intros [?| E]; [done|].
      cbn in E. rewrite E, Hst in Hs'. injection Hs' as _ E'. by rewrite <-E' in Hx.
  - by apply (excl_insert _ _ _ _ Hs Hi Hh).
  - rewrite Hsnoc. apply NoDup_app. split_and!; [done| |apply NoDup_singleton]. intros x Hx ->%list_elem_of_singleton. done.
  - intros m'. rewrite Hsnoc, elem_of_app, list_elem_of_singleton. intros [Hm' | ->].
    + destruct (K8 m' Hm') as [Hst' [Hg|(j & t' & mu' & Hj)]]; (split; [done|]); [by left|].
      destruct (decide (j = i)) as [->|Hne]; [|right; exists j, t', mu'; by rewrite list_lookup_insert_ne].
      exfalso. rewrite Hi in Hj. injection Hj as ->. specialize (K5 i _ Hi). cbn in K5, Hmu. injection Hmu as ->.
      assert (m' = m) as -> by (by eapply K4). done.
    + cbn. split; [eauto|]. destruct Hth as [-> | [-> Hg]]; [|by left]. right. exists i, t, mu.
      apply list_lookup_insert_eq. by eapply lookup_lt_Some.
Qed.

Lemma load_inv t am o : AckLoad t am = Ret o → o = ae_msg <$> am_entries am !! t.
Proof. unfold AckLoad, field. intros [_ [= <-]]%bind_unit_ret_iff. by destruct (am_entries am !! t). Qed.

Lemma resolve_lock_inv t am o : ResolveLock t am = Ret o → o = ae_resolveMu <$> am_entries am !! t.
Proof. unfold ResolveLock, field. intros [_ [= <-]]%bind_unit_ret_iff. by destruct (am_entries am !! t). Qed.

(** Who holds a claim's mutex with its entry in the map has an unended
    message. *)
Lemma held_unended s i th t m mu e :
  claims_ok s → bs_threads s !! i = Some th → holds th = Some mu → (∀ t' m' mu', th ≠ RDelete t' m' mu') →
  bs_stored s !! m = Some (t, mu) → am_entries (bs_am s) !! t = Some e → ae_msg e = m → m ∉ locked_endings (bs_ended s).
Proof.
  intros Hs Hi Hmu Hnd Hst He Hm Hin. destruct (ck_ended _ Hs m Hin) as [_ [Hg|(j & t' & mu' & Hj)]].
  - by apply (Hg t e).
  - pose proof (ck_thread _ Hs j _ Hj) as Hok. cbn in Hok. rewrite Hst in Hok. injection Hok as <- <-.
    assert (i = j) as <- by (by eapply (ck_excl _ Hs)). rewrite Hi in Hj. injection Hj as ->. by apply (Hnd t m mu).
Qed.

Lemma thread_step_ok am ths ended stored i th am' new th' :
  claims_ok (MkBridge am ths ended stored) → ths !! i = Some th → thread_step am ths th am' new th' →
  claims_ok (MkBridge am' (<[i := th']> ths) (ended ++ new) stored).
Proof.
  intros Hs Hi Hst. pose proof (ck_thread _ Hs i th Hi) as Hok. pose proof (shrinks_refl am) as Hrefl.
  destruct Hst as [t m Hl|t Hl|t|t m mu Hl|t m Hl|t m mu Hf|t m mu Hl|t m mu o Hl Hne|t m mu|t m mu|t m mu how Hhow|t m mu|t m mu am' Hd
    |ref Hf|ref am' Ht|ref am' Ht|ref|ref|t m Hl|t|t m|t m|t m|t m am' Hd]; cbn in Hok; rewrite ?app_nil_r; try done.
  - eapply quiet_step; try done. cbn. apply load_inv in Hl. destruct (am_entries am !! t) as [e|] eqn:E; [|done]. injection Hl as ->.
    pose proof (ck_entry _ Hs _ _ E). eauto.
  - by eapply quiet_step.
  - by eapply quiet_step.
  - eapply quiet_step; try done. cbn. apply resolve_lock_inv in Hl. destruct (am_entries am !! t) as [e|] eqn:E; [|done]. injection Hl as ->.
    destruct Hok as [mu' Hm]. exists mu'. split; [done|]. destruct (claim_present _ m t mu' Hs Hm) as [?|(e' & He' & _ & <-)]; [by right|].
    cbn in He'. left. congruence.
  - by eapply quiet_step.
  - eapply quiet_step; try done. intros mu' [= <-]. by right.
  - apply load_inv in Hl. destruct (am_entries am !! t) as [e|] eqn:E; [|done]. injection Hl as Hl.
    destruct Hok as (mu' & Hm & [<- | Hg]); [|by destruct (Hg t e E)].
    eapply quiet_step; try done; [by left|]. cbn. split; [done|]. by eapply (held_unended (MkBridge am ths ended stored) i (RCheck t m mu)).
  - by eapply quiet_step.
  - by eapply quiet_step.
  - by eapply quiet_step.
  - destruct Hok as [Hm Hn]. eapply (ending_step am ths ended stored i (REnd t m mu)); try done. by left.
  - destruct Hok as [Hm Hn]. eapply quiet_step; try done. by left.
  - apply shrinks_AckDelete in Hd as ->. eapply quiet_step; try done; [apply shrinks_delete|].
    intros t' m' mu' [= <- <- <-]. by eapply (gone_delete (MkBridge am ths ended stored)).
  - eapply quiet_step; try done. intros mu' [= <-]. by right.
  - apply take_inv in Ht as [[? _]|(_ & -> & e & He & Hm)]; [done|]. eapply quiet_step; try done; [apply shrinks_delete|by left|]. cbn.
    split_and!; [done|by eapply (gone_delete (MkBridge am ths ended stored))|]. by eapply (held_unended (MkBridge am ths ended stored) i (LTake ref)).
  - apply take_inv in Ht as [[_ ->]|[? _]]; [|done]. by eapply quiet_step.
  - destruct Hok as (Hm & Hg & Hn). eapply (ending_step am ths ended stored i (LNak ref)); try done. by right.
  - destruct Hok as (Hm & Hg & Hn). by eapply quiet_step.
  - by eapply quiet_step.
  - by eapply quiet_step.
  - by eapply quiet_step.
  - eapply quiet_step; try done. apply locked_withdrawn.
  - by eapply quiet_step.
  - apply shrinks_AckDelete in Hd as ->. eapply quiet_step; try done. apply shrinks_delete.
Qed.

(** ** Every step *)

(** New goroutines that hold nothing. *)
Lemma spawn_ok am ths ended stored new :
  claims_ok (MkBridge am ths ended stored) →
  (∀ th, th ∈ new → holds th = None ∧ thread_ok (MkBridge am ths ended stored) th) →
  claims_ok (MkBridge am (ths ++ new) ended stored).
Proof.
  intros [K1 K2 K3 K4 K5 K6 K7 K8] Hnew. cbn in *.
  assert (∀ i th, (ths ++ new) !! i = Some th → ths !! i = Some th ∨ holds th = None ∧ thread_ok (MkBridge am ths ended stored) th) as Hcase.
  { intros i th [?|[_ Hi]]%lookup_app_Some; [by left|right]. by apply Hnew, (list_elem_of_lookup_2 _ (i - length ths)%nat). }
  split; cbn; try done.
  - intros i th [Hi|[_ Hok]]%Hcase; [specialize (K5 i th Hi); by destruct th|by destruct th].
  - intros i j th th' mu [Hi|[Hn _]]%Hcase [Hj|[Hn' _]]%Hcase Hh Hh'; [by eapply K6|congruence..].
  - intros m Hm. destruct (K8 m Hm) as [? [?|(i & t & mu & Hi)]]; (split; [done|]); [by left|]. right. exists i, t, mu.
    by apply lookup_app_l_Some.
Qed.

Lemma still_ok am am' ths ended stored :
  shrinks am am' → claims_ok (MkBridge am ths ended stored) → claims_ok (MkBridge am' ths ended stored).
Proof.
  intros Hsh [K1 K2 K3 K4 K5 K6 K7 K8]. pose proof Hsh as (Hent & Hnext & Hidx). cbn in *. split; cbn; try done.
  - by apply Hidx.
  - intros t e' He'. destruct (Hent t e' He') as (e & He & -> & ->). by apply K2.
  - rewrite Hnext. exact K3.
  - intros i th Hi. eapply thread_ok_shrinks; [done..|]. by apply (K5 i).
  - intros m Hm. destruct (K8 m Hm) as [? [?|?]]; (split; [done|]); [left; by eapply gone_shrinks|by right].
Qed.

Lemma poll_ok order order' t msg token conn now am am' ths ended stored :
  stored !! msg = None → storeForConn order order' t msg token conn now am = Ret am' →
  claims_ok (MkBridge am ths ended stored) →
  claims_ok (MkBridge am' ths ended (<[msg := (t, am_next am)]> stored)).
Proof.
  intros Hf (Hent & Hnext & Hidx)%store_claims [K1 K2 K3 K4 K5 K6 K7 K8]. cbn in *.
  assert (∀ m, is_Some (stored !! m) → gone am m → gone am' m) as Hgone.
  { intros m Hm Hg u e He. destruct (Hent u e He) as [(_ & -> & _)|He']; [|by eapply Hg]. intros ->. rewrite Hf in Hm. by destruct Hm. }
  assert (∀ m x, stored !! m = Some x → <[msg := (t, am_next am)]> stored !! m = Some x) as Hkeep.
  { intros m x Hm. rewrite lookup_insert_ne; [done|]. intros ->. congruence. }
  split; cbn; try done.
  - by apply Hidx.
  - intros u e He. destruct (Hent u e He) as [(-> & -> & ->)|He']; [by rewrite lookup_insert_eq|]. by apply Hkeep, K2.
  - intros m u mu. rewrite Hnext. intros [[_ [= _ <-]]|[_ Hm]]%lookup_insert_Some; [lia|]. specialize (K3 m u mu Hm). lia.
  - intros m m' u u' mu H1 H2. apply lookup_insert_Some in H1, H2. destruct H1 as [[<- E1]|[_ Hm]], H2 as [[<- E2]|[_ Hm']].
    + done.
    + injection E1 as _ <-. specialize (K3 _ _ _ Hm'). lia.
    + injection E2 as _ <-. specialize (K3 _ _ _ Hm). lia.
    + by eapply K4.
  - intros i th Hi. specialize (K5 i th Hi). destruct th; cbn in *; naive_solver eauto.
  - intros m Hm. destruct (K8 m Hm) as [Hst [Hg|?]]; (split; [destruct Hst; eauto|]); [left; by apply Hgone|by right].
Qed.

Lemma claim_of_conn am ths ended stored conn ref :
  claims_ok (MkBridge am ths ended stored) → ref ∈ connClaims conn am →
  stored !! cr_msg ref = Some (cr_taskID ref, cr_mu ref).
Proof.
  intros Hs Hin. unfold connClaims in Hin. apply list_elem_of_bind in Hin as (t & Hr & Ht). rewrite elem_of_elements in Ht.
  apply (ik_exact _ (ck_index _ Hs)) in Ht as (e & He & _). cbn in He. rewrite He in Hr. apply list_elem_of_singleton in Hr as ->. cbn.
  by apply (ck_entry _ Hs).
Qed.

Lemma bridge_step_ok s s' : bridge_step s s' → claims_ok s → claims_ok s'.
Proof.
  intros [am ths ended stored i th am' new th' Hi Hst|order order' t msg token conn now am am' ths ended stored Hf Hst|t am ths ended stored
    |t am ths ended stored|conn am ths ended stored|conn t ref am ths ended stored Hc|t who f b am am' ths ended stored Hf He
    |order t token now am am' ths ended stored Hm] Hs.
  - by eapply thread_step_ok.
  - by eapply poll_ok.
  - apply spawn_ok; [done|]. intros th ->%list_elem_of_singleton. done.
  - apply spawn_ok; [done|]. intros th ->%list_elem_of_singleton. done.
  - apply spawn_ok; [done|]. intros th (ref & -> & Hr)%list_elem_of_fmap. split; [done|]. by eapply claim_of_conn.
  - apply spawn_ok; [done|]. intros th ->%list_elem_of_singleton. split; [done|]. unfold connClaim in Hc.
    apply bind_unit_ret_iff in Hc as [_ Hc]. destruct (am_entries am !! t) as [e|] eqn:E; [|done]. case_bool_decide; [|done].
    injection Hc as <-. by apply (ck_entry _ Hs).
  - eapply still_ok; [by eapply shrinks_edit|done].
  - eapply still_ok; [by eapply shrinks_mark|done].
Qed.

Definition fresh_bridge (am : AckMap) : bridge := MkBridge am [] [] ∅.

Lemma fresh_bridge_ok start am : newAckMapWithClock start = Ret am → claims_ok (fresh_bridge am).
Proof.
  intros H. pose proof (ao_index _ _ (ack_new_ok _ _ H)) as Hi. unfold newAckMapWithClock in H. apply bind_unit_ret_iff in H as [_ [= <-]].
  split; cbn; try done; try (intros; set_solver).
  apply NoDup_nil_2.
Qed.

Lemma bridge_steps_ok start am s :
  newAckMapWithClock start = Ret am → rtc bridge_step (fresh_bridge am) s → claims_ok s.
Proof.
  intros H0%fresh_bridge_ok Hr. induction Hr as [|s0 s1 s2 Hst _ IH]; [done|]. by apply IH, (bridge_step_ok s0).
Qed.
