(* ===== verification/Trigger.v ===== *)
(** * Trigger definitions (internal/trigger: types.go, http_config.go, validate.go,
    validate_external.go, run_terminal.go)

    A trigger starts runs of a workflow: on a cron schedule, on messages of a
    subject, on HTTP requests, when a worker's own trigger type says so, or when
    a run of another workflow ends.  This file has the definitions, their
    validation and the rules it enforces, and the start of a run by the end of
    another.

    The JSON-schema library is a parameter, as is the reply of the bucket of
    trigger types. *)

From S2P Require Import Prelude Json GoTime Cron Kv Journal.
From Stdlib Require Import Ascii.

#[local] Open Scope Z_scope.

(** ** Data *)

Record CronConfig : Type := MkCronConfig {
  cc_Expression : string;
  cc_Timezone : string;
  cc_Backfill : bool;
}.

Record WebhookConfig : Type := MkWebhookConfig {
  wh_Path : string;
  wh_Secret : string;
}.

Record HTTPAuthentication : Type := MkHTTPAuthentication {
  ha_Name : string;
  ha_Type : string;
  ha_Scheme : string;
  ha_BearerFormat : string;
  ha_In : string;
  ha_HeaderName : string;
  ha_Description : string;
}.

Record HTTPConfig : Type := MkHTTPConfig {
  hc_Path : string;
  hc_Method : string;
  hc_TimeoutMs : Z;
  hc_MaxBodyBytes : Z;
  hc_Secret : string;
  hc_IdempotencyHeader : string;
  hc_Authentication : option HTTPAuthentication;
}.

Record ExternalTriggerConfig : Type := MkExternal {
  ex_Kind : string;
  ex_Config : option raw;
}.

Record RunTerminalConfig : Type := MkRunTerminal {
  rt_Workflow : string;
  rt_Statuses : list string;
}.

Record DebounceConfig : Type := MkDebounceConfig {
  db_Period : Z;
  db_Timeout : Z;
  db_Key : string;
}.

(** A pointer that may be nil is an option; [SubjectConfig] has one field. *)
Record TriggerDef : Type := MkTriggerDef {
  tg_ID : string;
  tg_WorkflowID : string;
  tg_Enabled : bool;
  tg_Cron : option CronConfig;
  tg_Subject : option string;
  tg_Webhook : option WebhookConfig;
  tg_HTTP : option HTTPConfig;
  tg_External : option ExternalTriggerConfig;
  tg_RunTerminal : option RunTerminalConfig;
  tg_Debounce : option DebounceConfig;
  tg_Source : string;
}.

(** What a worker registered under a kind. *)
Record TriggerTypeDef : Type := MkTriggerTypeDef {
  tt_Name : string;
  tt_OwnerWorkerID : string;
  tt_Description : string;
  tt_ConfigSchema : option raw;
  tt_PayloadSchema : option raw;
  tt_Version : string;
  tt_RegisteredAt : Time;
}.

(** ** HTTP *)

Definition isTokenByte (b : ascii) : bool :=
  in_range "A" "Z" b || in_range "a" "z" b || in_range "0" "9" b ||
  str_contains_char b "!#$%&'*+-.^_`|~".

Definition isValidHTTPHeaderName (name : string) : bool :=
  negb (empty_str name) && forallb isTokenByte (String.list_ascii_of_string name).

Definition validateHTTPPath (p : string) : outcome unit :=
  fail_if (empty_str p) (Errorf "path must not be empty" []);;
  fail_if (negb (HasPrefix p "/")) (Errorf "path %q must start with /" [AStr p]);;
  fail_if (str_contains_char "*" p) (Errorf "path %q contains wildcard (not supported in v1)" [AStr p]).

Definition httpAuthAllowedTypes : list string := ["http"; "apiKey"; "oauth2"; "openIdConnect"].
Definition httpAuthAPIKeyInValues : list string := ["header"; "query"; "cookie"].

Definition HTTPAuthentication_Validate (a : HTTPAuthentication) : outcome unit :=
  fail_if (empty_str (ha_Name a)) (Errorf "authentication name must not be empty" []);;
  fail_if (negb (bool_decide (ha_Type a ∈ httpAuthAllowedTypes)))
    (Errorf "authentication type %q not allowed; valid: http apiKey oauth2 openIdConnect" [AStr (ha_Type a)]);;
  fail_if (bool_decide (ha_Type a = "http") && empty_str (ha_Scheme a))
    (Errorf "authentication scheme required for type=http" []);;
  if bool_decide (ha_Type a = "apiKey") then
    fail_if (negb (bool_decide (ha_In a ∈ httpAuthAPIKeyInValues)))
      (Errorf "authentication.in %q not allowed for apiKey; valid: header query cookie" [AStr (ha_In a)]);;
    fail_if (bool_decide (ha_In a = "header") && empty_str (ha_HeaderName a))
      (Errorf "authentication.header_name required for apiKey/header" []);;
    fail_if (negb (empty_str (ha_HeaderName a)) && negb (isValidHTTPHeaderName (ha_HeaderName a)))
      (Errorf "authentication.header_name %q is not a valid header name" [AStr (ha_HeaderName a)])
  else Ret tt.

Definition httpConfigSecretMinLen : Z := 16.
Definition httpConfigAllowedMethods : list string := ["GET"; "POST"; "PUT"; "PATCH"; "DELETE"].

Definition HTTPConfig_Validate (c : HTTPConfig) : outcome unit :=
  validateHTTPPath (hc_Path c);;
  fail_if (negb (bool_decide (hc_Method c ∈ httpConfigAllowedMethods)))
    (Errorf "method %q not allowed; valid: GET POST PUT PATCH DELETE" [AStr (hc_Method c)]);;
  fail_if (hc_MaxBodyBytes c <=? 0) (Errorf "max_body_bytes must be > 0, got %d" [AInt (hc_MaxBodyBytes c)]);;
  fail_if (hc_TimeoutMs c <=? 0) (Errorf "timeout_ms must be > 0, got %d" [AInt (hc_TimeoutMs c)]);;
  fail_if (negb (empty_str (hc_Secret c)) && (Z.of_nat (String.length (hc_Secret c)) <? httpConfigSecretMinLen))
    (Errorf "secret length %d < min %d" [AInt (Z.of_nat (String.length (hc_Secret c))); AInt httpConfigSecretMinLen]);;
  fail_if (negb (empty_str (hc_IdempotencyHeader c)) && negb (isValidHTTPHeaderName (hc_IdempotencyHeader c)))
    (Errorf "idempotency_header %q is not a valid header name" [AStr (hc_IdempotencyHeader c)]);;
  match hc_Authentication c with
  | Some a => wrap_err (λ e, Errorf "authentication: %w" [AErr e]) (HTTPAuthentication_Validate a)
  | None => Ret tt
  end.

(** ** The ends of runs *)

Definition runTerminalStatuses : list string := ["completed"; "failed"; "cancelled"].

Definition EffectiveStatuses (c : RunTerminalConfig) : list string :=
  match rt_Statuses c with [] => runTerminalStatuses | l => l end.

Definition matchesStatus (c : RunTerminalConfig) (status : string) : bool :=
  existsb (λ s, bool_decide (s = status)) (EffectiveStatuses c).

Definition isKnownRunTerminalStatus (status : string) : bool :=
  existsb (λ s, bool_decide (s = status)) runTerminalStatuses.

Definition validateRunTerminalConfig (def : TriggerDef) : outcome unit :=
  panic_if (empty_str (tg_ID def)) "validateRunTerminalConfig: def.ID must not be empty";;
  match tg_RunTerminal def with
  | None => Panic "validateRunTerminalConfig: RunTerminal must not be nil"
  | Some rt =>
      fail_if (empty_str (rt_Workflow rt))
        (Errorf "trigger %q: run_terminal workflow filter must not be empty" [AStr (tg_ID def)]);;
      fail_if (str_contains_char "*" (rt_Workflow rt) || str_contains_char ">" (rt_Workflow rt))
        (Errorf "trigger %q: run_terminal workflow filter %q must name exactly one workflow, not a wildcard"
           [AStr (tg_ID def); AStr (rt_Workflow rt)]);;
      fail_if (bool_decide (rt_Workflow rt = tg_WorkflowID def))
        (Errorf "trigger %q: run_terminal workflow filter %q must not equal its own target workflow %q — this would re-trigger the target every time it finishes"
           [AStr (tg_ID def); AStr (rt_Workflow rt); AStr (tg_WorkflowID def)]);;
      for_each (λ status, fail_if (negb (isKnownRunTerminalStatus status))
        (Errorf "trigger %q: run_terminal unknown status %q (want one of completed, failed, cancelled)"
           [AStr (tg_ID def); AStr status])) (rt_Statuses rt)
  end.

(** ** Cron, webhooks, debouncing *)

Definition validateCronConfig (id : string) (c : CronConfig) : outcome unit :=
  panic_if (empty_str id) "validateCronConfig: id must not be empty";;
  fail_if (empty_str (cc_Expression c)) (Errorf "trigger %q: cron expression must not be empty" [AStr id]);;
  wrap_err (λ e, Errorf "trigger %q: invalid cron expression: %w" [AStr id; AErr e]) (ParseCron (cc_Expression c)) ≫= λ _,
  Ret tt.

Definition validateWebhookConfig (id : string) (w : WebhookConfig) : outcome unit :=
  panic_if (empty_str id) "validateWebhookConfig: id must not be empty";;
  fail_if (empty_str (wh_Path w)) (Errorf "trigger %q: webhook path must not be empty" [AStr id]);;
  fail_if (negb (bool_decide (String.get 0 (wh_Path w) = Some "/"%char)))
    (Errorf "trigger %q: webhook path must start with /" [AStr id]).

Definition maxDebouncePeriod : Z := 7 * 24 * Hour.

Definition validateDebounceConfig (def : TriggerDef) : outcome unit :=
  panic_if (empty_str (tg_ID def)) "validateDebounceConfig: def.ID must not be empty";;
  match tg_Debounce def with
  | None => Panic "validateDebounceConfig: Debounce must not be nil"
  | Some d =>
      fail_if (bool_decide (is_Some (tg_Cron def)))
        (Errorf "trigger %q: debounce is incompatible with cron" [AStr (tg_ID def)]);;
      fail_if (db_Period d <=? 0) (Errorf "trigger %q: debounce period must be > 0" [AStr (tg_ID def)]);;
      fail_if (maxDebouncePeriod <? db_Period d)
        (Errorf "trigger %q: debounce period exceeds 7 days" [AStr (tg_ID def)]);;
      fail_if (negb (db_Timeout d =? 0) && (db_Timeout d <? db_Period d))
        (Errorf "trigger %q: debounce timeout must be >= period" [AStr (tg_ID def)]);;
      fail_if (maxDebouncePeriod <? db_Timeout d)
        (Errorf "trigger %q: debounce timeout exceeds 7 days" [AStr (tg_ID def)])
  end.

(** ** Validation *)

Section Validation.

(** The JSON-schema library: it reads, compiles and applies a schema. *)
Context {schema : Type} (AddResource : raw → outcome unit) (Compile : raw → outcome schema).
Context (schema_Validate : schema → json → outcome unit).

Definition validateAgainstSchema (schemaJSON configJSON : option raw) : outcome unit :=
  match schemaJSON with
  | None => Panic "validateAgainstSchema: schemaJSON must not be empty"
  | Some s =>
      panic_if (raw_empty s) "validateAgainstSchema: schemaJSON must not be empty";;
      wrap_err (λ e, Errorf "schema parse: %w" [AErr e]) (AddResource s) ≫= λ _,
      sch ← wrap_err (λ e, Errorf "schema compile: %w" [AErr e]) (Compile s);
      let cfgBytes := match configJSON with
                      | Some c => if raw_empty c then RawJson (JObj []) else c
                      | None => RawJson (JObj [])
                      end in
      doc ← wrap_err (λ e, Errorf "config not valid JSON: %w" [AErr e]) (unmarshal_any cfgBytes);
      schema_Validate sch doc
  end.

(** The bucket [trigger_types]: an entry decodes or does not. *)
Definition type_bucket : Type := string → kv_error + outcome TriggerTypeDef.

Definition fetchTriggerType (kv : type_bucket) (kind : string) : outcome TriggerTypeDef :=
  panic_if (empty_str kind) "fetchTriggerType: kind must not be empty";;
  match kv kind with
  | inl ErrKeyNotFound => Err (Errorf "no trigger type registered: %s" [AStr kind])
  | inl _ => Err (Errorf "trigger_types KV lookup for %q: %w" [AStr kind])
  | inr o =>
      tdef ← wrap_err (λ e, Errorf "trigger_types KV decode for %q: %w" [AStr kind; AErr e]) o;
      fail_if (match tt_ConfigSchema tdef with Some s => raw_empty s | None => true end)
        (Errorf "trigger type %q has empty config_schema" [AStr kind]) ≫= λ _,
      Ret tdef
  end.

Definition validateExternal (def : TriggerDef) (kvh : option type_bucket) : outcome unit :=
  match tg_External def with
  | None => Panic "validateExternal: External must not be nil"
  | Some ex =>
      panic_if (empty_str (tg_ID def)) "validateExternal: def.ID must not be empty";;
      fail_if (empty_str (ex_Kind ex)) (Errorf "trigger %q: external.kind must not be empty" [AStr (tg_ID def)]);;
      match kvh with
      | None => Err (Errorf "trigger %q: External requires a KV handle; use ValidateWithKV" [AStr (tg_ID def)])
      | Some kv =>
          tdef ← wrap_err (λ e, Errorf "trigger %q: %w" [AStr (tg_ID def); AErr e]) (fetchTriggerType kv (ex_Kind ex));
          wrap_err (λ e, Errorf "trigger %q: external.config: %w" [AStr (tg_ID def); AErr e])
            (validateAgainstSchema (tt_ConfigSchema tdef) (ex_Config ex))
      end
  end.

Definition is_nil {A} (o : option A) : bool := match o with None => true | _ => false end.

Definition countTriggerTypes (def : TriggerDef) : outcome Z :=
  panic_if (empty_str (tg_ID def)) "countTriggerTypes: def.ID must not be empty";;
  panic_if (empty_str (tg_WorkflowID def)) "countTriggerTypes: def.WorkflowID must not be empty";;
  let one (b : bool) : Z := if b then 0 else 1 in
  Ret (one (is_nil (tg_Cron def)) + one (is_nil (tg_Subject def)) + one (is_nil (tg_Webhook def)) +
       one (is_nil (tg_HTTP def)) + one (is_nil (tg_External def)) + one (is_nil (tg_RunTerminal def))).

Definition validateTypeBranch (def : TriggerDef) (kvh : option type_bucket) : outcome unit :=
  match tg_Cron def, tg_Subject def, tg_Webhook def, tg_HTTP def, tg_External def, tg_RunTerminal def with
  | Some c, _, _, _, _, _ => validateCronConfig (tg_ID def) c
  | None, Some subject, _, _, _, _ =>
      fail_if (empty_str subject) (Errorf "trigger %q: subject must not be empty" [AStr (tg_ID def)])
  | None, None, Some w, _, _, _ => validateWebhookConfig (tg_ID def) w
  | None, None, None, Some c, _, _ =>
      wrap_err (λ e, Errorf "trigger %q: http config: %w" [AStr (tg_ID def); AErr e]) (HTTPConfig_Validate c)
  | None, None, None, None, Some _, _ => validateExternal def kvh
  | None, None, None, None, None, Some _ => validateRunTerminalConfig def
  | None, None, None, None, None, None => Ret tt
  end.

Definition empty_def (def : TriggerDef) : bool :=
  empty_str (tg_ID def) && empty_str (tg_WorkflowID def) && is_nil (tg_Cron def) && is_nil (tg_Subject def) &&
  is_nil (tg_Webhook def) && is_nil (tg_HTTP def) && is_nil (tg_External def) && is_nil (tg_RunTerminal def).

Definition validateCommon (def : TriggerDef) (kvh : option type_bucket) : outcome unit :=
  panic_if (empty_def def) "Validate: completely empty TriggerDef is a programmer error";;
  fail_if (empty_str (tg_ID def)) (Errorf "trigger ID must not be empty" []);;
  fail_if (empty_str (tg_WorkflowID def)) (Errorf "trigger %q: workflow_id must not be empty" [AStr (tg_ID def)]);;
  count ← countTriggerTypes def;
  fail_if (negb (count =? 1))
    (Errorf "trigger %q: exactly one of cron/subject/webhook/http/external/run_terminal must be set (got %d)"
       [AStr (tg_ID def); AInt count]) ≫= λ _,
  validateTypeBranch def kvh ≫= λ _,
  match tg_Debounce def with Some _ => validateDebounceConfig def | None => Ret tt end.

Definition ValidateTrigger (def : TriggerDef) : outcome unit := validateCommon def None.
Definition ValidateWithKV (kv : type_bucket) (def : TriggerDef) : outcome unit := validateCommon def (Some kv).
End Validation.

(** * Triggers on the end of a run (internal/trigger/registrar_run_terminal.go,
    run_terminal.go)

    A durable consumer hands the run events of the source workflow to
    [handleRunEvent], which starts a run of the target under an ID derived from
    the trigger and the source run, so that a redelivered event names the same
    run.  What the server does with the two publishes are arguments; the
    handler ends by acknowledging the event or asking for it again. *)

Record RunEvent : Type := MkRunEvent {
  re_Type : string;
  re_RunID : string;
  re_WorkflowID : string;
  re_Status : string;
  re_CreatedAt : Time;
  re_CompletedAt : option Time;
  re_Labels : gmap string string;
  re_TraceParent : string;
  re_TriggerDepth : Z;
}.

(** [runTerminalChainInput] and [runTerminalChainPayload]. *)
Record chain_input : Type := MkChainInput {
  ci_RunID : string;
  ci_WorkflowID : string;
  ci_Status : string;
  ci_Labels : gmap string string;
}.

Record chain_start : Type := MkChainStart {
  cs_RunID : string;
  cs_MsgID : string;
  cs_Trigger : string;
  cs_Source : string;
  cs_WorkflowID : string;
  cs_Input : chain_input;
  cs_TriggerDepth : Z;
}.

Inductive disposition : Type := Ack | NakWithDelay (d : Z).

Definition TriggerDepthMax : Z := 8.
Definition runTerminalNakBaseDelay : Z := 2 * Second.

(** The subject of the source workflow: the sanitizer is the one of the
    engine. *)
Definition runTerminalSubject (workflow : string) : string :=
  let token := SubjectToken workflow in
  "event.run." +:+ (if empty_str token then "_" else token) +:+ ".*.*".

Section Chain.
Context (sha256hex : string → string).

Definition runTerminalDurableName (triggerID : string) : outcome string :=
  panic_if (empty_str triggerID) "runTerminalDurableName: triggerID must not be empty";;
  Ret ("run-terminal-" +:+ String.substring 0 16 (sha256hex triggerID)).

Definition runTerminalChainRunID (triggerID sourceRunID : string) : outcome string :=
  panic_if (empty_str triggerID) "runTerminalChainRunID: triggerID must not be empty";;
  panic_if (empty_str sourceRunID) "runTerminalChainRunID: sourceRunID must not be empty";;
  Ret ("trg" +:+ String.substring 0 20 (sha256hex (triggerID +:+ "|" +:+ sourceRunID))).

(** The message published, and whether the server acknowledged it; the record
    of the fire is published after it, for the history only. *)
Definition fireRunTerminal (def : TriggerDef) (evt : RunEvent) (depth : Z) (acked : bool) : outcome (chain_start * bool) :=
  panic_if (empty_str (tg_ID def)) "fireRunTerminal: def.ID must not be empty";;
  newRunID ← runTerminalChainRunID (tg_ID def) (re_RunID evt);
  panic_if (acked && empty_str (tg_WorkflowID def)) "publishTriggerFireRecord: def.WorkflowID is empty" ≫= λ _,
  Ret (MkChainStart newRunID ("trig-" +:+ tg_ID def +:+ "-" +:+ re_RunID evt) "run_terminal" (tg_ID def) (tg_WorkflowID def)
         (MkChainInput (re_RunID evt) (re_WorkflowID evt) (re_Status evt) (re_Labels evt)) depth, acked).

(** What is published, and what becomes of the event. *)
Definition handleRunEvent (def : TriggerDef) (msg : outcome RunEvent) (acked : bool)
    : outcome (option chain_start * disposition) :=
  match tg_RunTerminal def, msg with
  | None, _ => Panic "handleRunEvent: def.RunTerminal must not be nil"
  | _, (Err _ | Panic _) => Ret (None, Ack)
  | Some rt, Ret evt =>
      if negb (bool_decide (re_WorkflowID evt = rt_Workflow rt)) then Ret (None, Ack)
      else if negb (matchesStatus rt (re_Status evt)) then Ret (None, Ack)
      else
        let nextDepth := wrap64 (re_TriggerDepth evt + 1) in
        if TriggerDepthMax <? nextDepth then Ret (None, Ack)
        else
          '(start, ok) ← fireRunTerminal def evt nextDepth acked;
          Ret (Some start, if (ok : bool) then Ack else NakWithDelay runTerminalNakBaseDelay)
  end.
End Chain.

(** * Which trigger definitions are valid

    The rules of the validators, stated on the fields of a definition. *)

(** Which definitions name one kind of trigger, with a usable configuration. *)
Definition auth_ok (a : HTTPAuthentication) : Prop :=
  ha_Name a ≠ "" ∧ ha_Type a ∈ httpAuthAllowedTypes ∧ (ha_Type a = "http" → ha_Scheme a ≠ "") ∧
  (ha_Type a = "apiKey" → ha_In a ∈ httpAuthAPIKeyInValues ∧ (ha_In a = "header" → ha_HeaderName a ≠ "") ∧
     (ha_HeaderName a = "" ∨ isValidHTTPHeaderName (ha_HeaderName a) = true)).

Definition http_ok (c : HTTPConfig) : Prop :=
  (∃ p, hc_Path c = "/" +:+ p) ∧ str_contains_char "*" (hc_Path c) = false ∧ hc_Method c ∈ httpConfigAllowedMethods ∧
  0 < hc_MaxBodyBytes c ∧ 0 < hc_TimeoutMs c ∧ (hc_Secret c = "" ∨ 16 ≤ Z.of_nat (String.length (hc_Secret c))) ∧
  (hc_IdempotencyHeader c = "" ∨ isValidHTTPHeaderName (hc_IdempotencyHeader c) = true) ∧
  (∀ a, hc_Authentication c = Some a → auth_ok a).

Definition terminal_ok (target : string) (rt : RunTerminalConfig) : Prop :=
  rt_Workflow rt ≠ "" ∧ str_contains_char "*" (rt_Workflow rt) = false ∧ str_contains_char ">" (rt_Workflow rt) = false ∧
  rt_Workflow rt ≠ target ∧ ∀ s, s ∈ rt_Statuses rt → s ∈ ["completed"; "failed"; "cancelled"].

Definition debounce_ok (d : DebounceConfig) : Prop :=
  0 < db_Period d ≤ 7 * 24 * Hour ∧ (db_Timeout d = 0 ∨ db_Period d ≤ db_Timeout d ≤ 7 * 24 * Hour).

Definition kinds (def : TriggerDef) :=
  (tg_Cron def, tg_Subject def, tg_Webhook def, tg_HTTP def, tg_External def, tg_RunTerminal def).

Inductive kind_ok (def : TriggerDef) : Prop :=
  | kind_cron c : kinds def = (Some c, None, None, None, None, None) → is_ret (ParseCron (cc_Expression c)) = true →
      tg_Debounce def = None → kind_ok def
  | kind_subject s : kinds def = (None, Some s, None, None, None, None) → s ≠ "" → kind_ok def
  | kind_webhook w p : kinds def = (None, None, Some w, None, None, None) → wh_Path w = "/" +:+ p → kind_ok def
  | kind_http c : kinds def = (None, None, None, Some c, None, None) → http_ok c → kind_ok def
  | kind_terminal rt : kinds def = (None, None, None, None, None, Some rt) → terminal_ok (tg_WorkflowID def) rt → kind_ok def.

Lemma slash_path p : HasPrefix p "/" = true ↔ ∃ q, p = "/" +:+ q.
Proof. split; [apply HasPrefix_inv|]. intros [q ->]. apply HasPrefix_app. Qed.

Lemma opt_str_ok (s : string) (b : bool) : negb (empty_str s) && negb b = false ↔ s = "" ∨ b = true.
Proof. destruct s, b; naive_solver. Qed.

Lemma auth_valid a : HTTPAuthentication_Validate a = Ret tt ↔ auth_ok a.
Proof.
  unfold HTTPAuthentication_Validate, auth_ok. autorewrite with go.
  rewrite negb_false_iff, bool_decide_eq_true, andb_false_iff, bool_decide_eq_false, empty_str_false.
  case_bool_decide as Ht; [autorewrite with go; rewrite negb_false_iff, bool_decide_eq_true, andb_false_iff, bool_decide_eq_false, empty_str_false, opt_str_ok|].
  - destruct (decide (ha_In a = "header")); destruct (decide (ha_Type a = "http")); naive_solver.
  - destruct (decide (ha_Type a = "http")); naive_solver.
Qed.

Lemma http_valid c : HTTPConfig_Validate c = Ret tt ↔ http_ok c.
Proof.
  unfold HTTPConfig_Validate, validateHTTPPath, http_ok. autorewrite with go.
  rewrite !negb_false_iff, bool_decide_eq_true, !Z.leb_gt, slash_path, opt_str_ok.
  assert ((negb (empty_str (hc_Secret c)) && (Z.of_nat (String.length (hc_Secret c)) <? httpConfigSecretMinLen) = false) ↔
    hc_Secret c = "" ∨ 16 ≤ Z.of_nat (String.length (hc_Secret c))) as ->.
  { by rewrite andb_false_iff, negb_false_iff, empty_str_true, Z.ltb_ge. }
  assert ((match hc_Authentication c with Some a => wrap_err (λ e, Errorf "authentication: %w" [AErr e]) (HTTPAuthentication_Validate a)
    | None => Ret tt end = Ret tt) ↔ ∀ a, hc_Authentication c = Some a → auth_ok a) as ->.
  { destruct (hc_Authentication c) as [a|]; [|naive_solver]. rewrite wrap_err_ret_iff, auth_valid. naive_solver. }
  split; [naive_solver|]. intros ((p & Hp) & ? & ? & ? & ? & ? & ? & ?). split_and!; eauto. by rewrite Hp.
Qed.

Lemma terminal_valid def rt :
  tg_ID def ≠ "" → tg_RunTerminal def = Some rt → validateRunTerminalConfig def = Ret tt ↔ terminal_ok (tg_WorkflowID def) rt.
Proof.
  intros Hid Hrt. unfold validateRunTerminalConfig, terminal_ok. rewrite Hrt. autorewrite with go.
  rewrite orb_false_iff, bool_decide_eq_false, Forall_forall. setoid_rewrite fail_if_ret_iff. setoid_rewrite negb_false_iff.
  assert (∀ s, isKnownRunTerminalStatus s = true ↔ s ∈ ["completed"; "failed"; "cancelled"]) as Hk.
  { intros s. unfold isKnownRunTerminalStatus. rewrite existsb_exists, list_elem_of_In. split.
    - by intros (x & Hx & ->%bool_decide_eq_true).
    - intros Hs. exists s. split; [done|]. by apply bool_decide_eq_true. }
  setoid_rewrite Hk. naive_solver.
Qed.

Lemma debounce_valid def d :
  tg_ID def ≠ "" → tg_Debounce def = Some d → validateDebounceConfig def = Ret tt ↔ tg_Cron def = None ∧ debounce_ok d.
Proof.
  intros Hid Hd. unfold validateDebounceConfig, debounce_ok, maxDebouncePeriod. rewrite Hd. autorewrite with go.
  rewrite bool_decide_eq_false, Z.leb_gt, !Z.ltb_ge, andb_false_iff, negb_false_iff, Z.eqb_eq, Z.ltb_ge.
  destruct (tg_Cron def); [naive_solver|]. split; [|].
  - intros (_ & _ & ? & ? & ? & ?). split; [done|]. lia.
  - intros [_ [? ?]]. split_and!; [done|by intros []|lia|lia|lia|lia].
Qed.


(** Two kinds at once, or none, are not one. *)
#[local] Ltac one_kind := split; [intros [? _]; lia|intros []; unfold kinds in *; simplify_eq].

(** The kinds a definition names are one, and it is checked. *)
Lemma branch_valid {schema : Type} (AddResource : raw → outcome unit) (Compile : raw → outcome schema)
    (schema_Validate : schema → json → outcome unit) def n :
  tg_ID def ≠ "" → countTriggerTypes def = Ret n →
  (n = 1 ∧ validateTypeBranch AddResource Compile schema_Validate def None = Ret tt ∧ (tg_Debounce def = None ∨ tg_Cron def = None)) ↔
  kind_ok def.
Proof.
  intros Hid. unfold countTriggerTypes. rewrite (proj2 (empty_str_false _) Hid). destruct (empty_str (tg_WorkflowID def)); [done|].
  cbn -[Z.add]. intros [= <-]. pose proof (terminal_valid def) as Hterm. unfold validateTypeBranch.
  destruct (tg_Cron def) as [c|] eqn:E1, (tg_Subject def) as [s|] eqn:E2, (tg_Webhook def) as [wh|] eqn:E3, (tg_HTTP def) as [hc|] eqn:E4,
    (tg_External def) as [ex|] eqn:E5, (tg_RunTerminal def) as [rt|] eqn:E6; cbn [is_nil]; try (one_kind; fail).
  - unfold validateCronConfig. autorewrite with go. split.
    + intros (_ & (_ & He & Hp) & [Hd|?]); [|done]. apply (kind_cron def c); [unfold kinds; congruence| |done].
      apply bind_ret_iff in Hp as (x & ->%wrap_err_ret_iff & _). done.
    + intros [c' Hk Hp Hd|? Hk|? ? Hk|? Hk|? Hk]; unfold kinds in Hk; simplify_eq. destruct (ParseCron (cc_Expression c)) as [x|e|m] eqn:Hx; try done.
      split_and!; [done|done| |done|by left]. intros E. by rewrite E in Hx.
  - autorewrite with go. split.
    + intros (_ & Hs & _). apply (kind_subject def s); [unfold kinds; congruence|done].
    + intros [? Hk|s' Hk Hs|? ? Hk|? Hk|? Hk]; unfold kinds in Hk; simplify_eq. split_and!; [done|done|by right].
  - unfold validateWebhookConfig. autorewrite with go. rewrite negb_false_iff, bool_decide_eq_true. split.
    + intros (_ & (_ & Hp & Hs) & _). destruct (wh_Path wh) as [|ch p] eqn:Hpath; [done|]. injection Hs as ->.
      apply (kind_webhook def wh p); [unfold kinds; congruence|done].
    + intros [? Hk|? Hk|w p Hk Hp|? Hk|? Hk]; unfold kinds in Hk; simplify_eq. rewrite Hp. split_and!; [done|done|done|done|by right].
  - rewrite wrap_err_ret_iff, http_valid. split.
    + intros (_ & Hh & _). apply (kind_http def hc); [unfold kinds; congruence|done].
    + intros [? Hk|? Hk|? ? Hk|c Hk Hh|? Hk]; unfold kinds in Hk; simplify_eq. split_and!; [done|done|by right].
  - split.
    + intros (_ & Hx & _). unfold validateExternal in Hx. rewrite E5 in Hx. autorewrite with go in Hx. by destruct Hx as (_ & _ & ?).
    + intros [? Hk|? Hk|? ? Hk|? Hk|? Hk]; unfold kinds in Hk; simplify_eq.
  - rewrite (Hterm rt Hid eq_refl). split.
    + intros (_ & Ht & _). apply (kind_terminal def rt); [unfold kinds; congruence|done].
    + intros [? Hk|? Hk|? ? Hk|? Hk|r Hk Ht]; unfold kinds in Hk; simplify_eq. split_and!; [done|done|by right].
Qed.
