(* ===== verification/Scheduler.v ===== *)
(** * The cron scheduler (internal/trigger/scheduler.go, fire.go)

    The scheduler keeps the cron triggers and, per trigger, the last minute it
    claimed.  [Backfill] replays the minutes missed while the service was down,
    then [Tick] runs every 30 seconds; one goroutine does both, so their calls
    follow each other.  Inside one call the triggers are handled concurrently,
    each by a goroutine that touches the entries of its own trigger only: the
    model handles them one after the other, in any order ([order]).

    The world has the scheduler, the bucket [trigger_state], the messages that
    reached the streams and the answers the server has in store ([answer]): a
    message is stored and acknowledged, recognised as a duplicate, stored
    without the caller learning of it, or lost; the list is what the network
    does, in order, and nothing goes wrong after its end.  A stamp of the bucket
    is the instant its RFC 3339 text denotes. *)

From stdpp Require Import pretty sorting.
From S2P Require Import Prelude Json GoTime Cron Kv Trigger.

#[local] Open Scope Z_scope.

(** ** State *)

Record Scheduler : Type := MkScheduler {
  sc_triggers : gmap string TriggerDef;
  sc_lastFired : gmap string Time;
  sc_firedAt : gmap string Time;
}.

Definition sc_set_triggers (f : gmap string TriggerDef → gmap string TriggerDef) (s : Scheduler) : Scheduler :=
  MkScheduler (f (sc_triggers s)) (sc_lastFired s) (sc_firedAt s).
Definition sc_set_lastFired (f : gmap string Time → gmap string Time) (s : Scheduler) : Scheduler :=
  MkScheduler (sc_triggers s) (f (sc_lastFired s)) (sc_firedAt s).
Definition sc_set_firedAt (f : gmap string Time → gmap string Time) (s : Scheduler) : Scheduler :=
  MkScheduler (sc_triggers s) (sc_lastFired s) (f (sc_firedAt s)).

(** [TriggerEnvelope], and [workflow.started] with it: the payload of the
    event is the envelope. *)
Record TriggerEnvelope : Type := MkEnvelope {
  en_Trigger : string;
  en_Source : string;
  en_WorkflowID : string;
  en_Timestamp : Time;
  en_Data : option raw;
}.

Record cron_start : Type := MkStarted {
  st_MsgID : string;
  st_RunID : string;
  st_Envelope : TriggerEnvelope;
}.

Record TriggerFire : Type := MkTriggerFire {
  tf_TriggerID : string;
  tf_WorkflowID : string;
  tf_RunID : string;
  tf_Source : string;
  tf_FiredAt : Time;
}.

Inductive answer : Type := Acked | Duplicate | Unheard | Lost.

Inductive stamp : Type := StampBad | StampAt (t : Time).

Record cron_world : Type := MkCronWorld {
  cw_s : Scheduler;
  cw_state : gmap string stamp;
  cw_started : list cron_start;
  cw_fires : list TriggerFire;
  cw_answers : list answer;
  cw_next : nat;
}.

Definition cw_set_s (f : Scheduler → Scheduler) (w : cron_world) : cron_world :=
  MkCronWorld (f (cw_s w)) (cw_state w) (cw_started w) (cw_fires w) (cw_answers w) (cw_next w).

(** ** A state monad over the world *)

Definition cm (A : Type) : Type := cron_world → cron_world * outcome A.

#[global] Instance cm_ret : MRet cm := λ A a w, (w, Ret a).
#[global] Instance cm_bind : MBind cm := λ A B f m w,
  match m w with
  | (w', Ret a) => f a w'
  | (w', Err e) => (w', Err e)
  | (w', Panic s) => (w', Panic s)
  end.

Definition cm_of {A} (o : outcome A) : cm A := λ w, (w, o).
Definition cm_wrap {A} (f : error → error) (m : cm A) : cm A := λ w, let '(w', o) := m w in (w', wrap_err f o).
Definition gets {A} (f : cron_world → A) : cm A := λ w, (w, Ret (f w)).
Definition modify (f : cron_world → cron_world) : cm unit := λ w, (f w, Ret tt).

(** The next answer of the server. *)
Definition pop_answer : cm answer := λ w,
  match cw_answers w with
  | [] => (w, Ret Acked)
  | a :: l => (MkCronWorld (cw_s w) (cw_state w) (cw_started w) (cw_fires w) l (cw_next w), Ret a)
  end.

Definition net_error : error := Errorf "nats" [].

(** A publish, or a put in a bucket: what it does when the message is stored. *)
Definition publish (store : cron_world → cron_world) : cm unit :=
  a ← pop_answer;
  match a with
  | Acked => modify store
  | Duplicate => mret tt
  | Unheard => modify store ≫= λ _, cm_of (Err net_error)
  | Lost => cm_of (Err net_error)
  end.

(** A call whose error is only logged. *)
Definition ignored (m : cm unit) : cm unit := λ w, ((m w).1, Ret tt).

Definition store_started (m : cron_start) (w : cron_world) : cron_world :=
  MkCronWorld (cw_s w) (cw_state w) (cw_started w ++ [m]) (cw_fires w) (cw_answers w) (cw_next w).
Definition store_fire (m : TriggerFire) (w : cron_world) : cron_world :=
  MkCronWorld (cw_s w) (cw_state w) (cw_started w) (cw_fires w ++ [m]) (cw_answers w) (cw_next w).
Definition store_stamp (k : string) (v : stamp) (w : cron_world) : cron_world :=
  MkCronWorld (cw_s w) (<[k := v]> (cw_state w)) (cw_started w) (cw_fires w) (cw_answers w) (cw_next w).

(** ** Registration *)

Definition AddTrigger (def : TriggerDef) (s : Scheduler) : outcome Scheduler :=
  panic_if (empty_str (tg_ID def)) "AddTrigger: trigger ID must not be empty";;
  match tg_Cron def with
  | None => Err (Errorf "AddTrigger: trigger %q has no cron config" [AStr (tg_ID def)])
  | Some _ => Ret (sc_set_triggers <[tg_ID def := def]> s)
  end.

Definition RemoveTrigger (id : string) (s : Scheduler) : outcome Scheduler :=
  panic_if (empty_str id) "RemoveTrigger: trigger ID must not be empty";;
  Ret (sc_set_firedAt (delete id) (sc_set_lastFired (delete id) (sc_set_triggers (delete id) s))).

Definition claimMinute (triggerID : string) (now : Time) (s : Scheduler) : outcome (bool * Scheduler) :=
  panic_if (empty_str triggerID) "claimMinute: triggerID must not be empty";;
  panic_if (IsZero now) "claimMinute: now must not be zero";;
  let minute := Truncate now Minute in
  if negb (default zero_time (sc_lastFired s !! triggerID) <? minute) then Ret (false, s)
  else Ret (true, sc_set_lastFired <[triggerID := minute]> s).

(** [claimMinute] on the scheduler of the world. *)
Definition claim_minute (triggerID : string) (now : Time) : cm bool := λ w,
  match claimMinute triggerID now (cw_s w) with
  | Ret (b, s) => (cw_set_s (λ _, s) w, Ret b)
  | Err e => (w, Err e)
  | Panic m => (w, Panic m)
  end.

(** ** Firing *)

Definition SourceCron : string := "cron".
Definition SourceManual : string := "manual".

(** [t.Unix() / 60]: [Unix] rounds down, the division towards zero. *)
Definition unix_minute (t : Time) : Z := Z.quot (t / Second) 60.

Definition startedDedupID (triggerID source : string) (now : Time) : outcome string :=
  panic_if (empty_str triggerID) "startedDedupID: triggerID is empty";;
  Ret (if bool_decide (source = SourceCron)
       then "trigger." +:+ triggerID +:+ "." +:+ pretty (unix_minute now)
       else "trigger." +:+ triggerID +:+ "." +:+ source +:+ "." +:+ pretty (wrap64 now)).

(** The message ID of the record adds a suffix to that of the start. *)
Definition fireDedupID (triggerID source : string) (now : Time) : outcome string :=
  panic_if (empty_str triggerID) "fireDedupID: triggerID is empty";;
  Ret (if bool_decide (source = SourceCron)
       then "trigger." +:+ triggerID +:+ "." +:+ pretty (unix_minute now) +:+ ".fire"
       else "trigger." +:+ triggerID +:+ "." +:+ source +:+ "." +:+ pretty (wrap64 now) +:+ ".fire").

Section Firing.
Context (LoadLocation : string → outcome Location) (new_id : nat → string).

Definition fresh_run : cm string := λ w,
  (MkCronWorld (cw_s w) (cw_state w) (cw_started w) (cw_fires w) (cw_answers w) (S (cw_next w)), Ret (new_id (cw_next w))).

Definition publishTriggerFireRecord (def : TriggerDef) (runID source : string) (now : Time) : cm unit :=
  cm_of (panic_if (empty_str (tg_ID def)) "publishTriggerFireRecord: def.ID is empty") ≫= λ _,
  cm_of (panic_if (empty_str (tg_WorkflowID def)) "publishTriggerFireRecord: def.WorkflowID is empty") ≫= λ _,
  cm_of (fireDedupID (tg_ID def) source now) ≫= λ _,
  publish (store_fire (MkTriggerFire (tg_ID def) (tg_WorkflowID def) runID source now)).

Definition Fire (def : TriggerDef) (source : string) (now : Time) : cm string :=
  cm_of (panic_if (empty_str (tg_ID def)) "trigger.Fire: def.ID is empty") ≫= λ _,
  cm_of (panic_if (empty_str (tg_WorkflowID def)) "trigger.Fire: def.WorkflowID is empty") ≫= λ _,
  cm_of (panic_if (empty_str source) "trigger.Fire: source is empty") ≫= λ _,
  runID ← fresh_run;
  msgID ← cm_of (startedDedupID (tg_ID def) source now);
  cm_wrap (λ e, Errorf "publish workflow.started: %w" [AErr e])
    (publish (store_started (MkStarted msgID runID (MkEnvelope source (tg_ID def) (tg_WorkflowID def) now None)))) ≫= λ _,
  cm_wrap (λ e, Errorf "publishTriggerFire: %w" [AErr e]) (publishTriggerFireRecord def runID source now) ≫= λ _,
  mret runID.

Definition last_run_key (triggerID : string) : string := triggerID +:+ ".last_run_at".

(** A failed write of the stamp is logged. *)
Definition recordLastRun (triggerID : string) (fired : Time) : cm unit :=
  cm_of (panic_if (empty_str triggerID) "recordLastRun: triggerID must not be empty") ≫= λ _,
  cm_of (panic_if (IsZero fired) "recordLastRun: fired must not be zero") ≫= λ _,
  ignored (publish (store_stamp (last_run_key triggerID) (StampAt (Truncate fired Minute)))).

Definition fireWorkflow (def : TriggerDef) (now : Time) : cm unit :=
  cm_of (panic_if (empty_str (tg_ID def)) "fireWorkflow: def.ID is empty") ≫= λ _,
  cm_of (panic_if (empty_str (tg_WorkflowID def)) "fireWorkflow: def.WorkflowID is empty") ≫= λ _,
  Fire def SourceCron now ≫= λ _,
  modify (cw_set_s (sc_set_firedAt <[tg_ID def := now]>)) ≫= λ _,
  recordLastRun (tg_ID def) now.

(** ** Ticks *)

Definition shouldFire (def : TriggerDef) (now : Time) : outcome bool :=
  match tg_Cron def with
  | None => Panic "shouldFire: def.Cron is nil"
  | Some c =>
      expr ← wrap_err (λ e, Errorf "ParseCron: %w" [AErr e]) (ParseCron (cc_Expression c));
      loc ← wrap_err (λ e, Errorf "LoadLocation %q: %w" [AStr (cc_Timezone c); AErr e]) (LoadLocation (cc_Timezone c));
      Matches expr loc now
  end.

Definition tick_trigger (now : Time) (def : TriggerDef) : cm unit :=
  should ← cm_wrap (λ e, Errorf "shouldFire %q: %w" [AStr (tg_ID def); AErr e]) (cm_of (shouldFire def now));
  if negb should then mret tt
  else
    claimed ← claim_minute (tg_ID def) now;
    if negb claimed then mret tt
    else cm_wrap (λ e, Errorf "fireWorkflow %q: %w" [AStr (tg_ID def); AErr e]) (fireWorkflow def now).

(** The goroutines of an errgroup: all of them run, the first error is the
    result; a panic ends the process. *)
Fixpoint group {A} (f : A → cm unit) (first : outcome unit) (l : list A) : cm unit := λ w,
  match l with
  | [] => (w, first)
  | x :: l' =>
      match f x w with
      | (w', Panic m) => (w', Panic m)
      | (w', o) => group f (match first with Ret _ => o | _ => first end) l' w'
      end
  end.

(** The defs of the snapshot, in an order. *)
Definition snapshot (order : list string) (p : TriggerDef → bool) (s : Scheduler) : list TriggerDef :=
  List.filter p (omap (λ id, sc_triggers s !! id) order).

Definition Tick (order : list string) (now : Time) : cm unit :=
  defs ← gets (λ w, snapshot order (λ def, tg_Enabled def && negb (is_nil (tg_Cron def))) (cw_s w));
  group (tick_trigger now) (Ret tt) defs.

(** ** Backfill *)

Definition maxIterations : nat := Z.to_nat 10000.

Fixpoint match_loop (expr : CronExpr) (loc : Location) (fuel : nat) (current end_ : Time) : outcome (list Time) :=
  match fuel with
  | O => Ret []
  | S fuel' =>
      if end_ <? current then Ret []
      else
        m ← Matches expr loc current;
        rest ← match_loop expr loc fuel' (Time_Add current Minute) end_;
        Ret (if (m : bool) then current :: rest else rest)
  end.

Definition findMatches (def : TriggerDef) (start end_ : Time) : outcome (list Time) :=
  match tg_Cron def with
  | None => Panic "findMatches: def.Cron is nil"
  | Some c =>
      expr ← wrap_err (λ e, Errorf "ParseCron: %w" [AErr e]) (ParseCron (cc_Expression c));
      loc ← wrap_err (λ e, Errorf "LoadLocation: %w" [AErr e]) (LoadLocation (cc_Timezone c));
      match_loop expr loc maxIterations (Truncate (Time_Add start Minute) Minute) end_
  end.

(** The zero time when the trigger never ran. *)
Definition loadLastRun (triggerID : string) : cm Time :=
  cm_of (panic_if (empty_str triggerID) "loadLastRun: triggerID is empty") ≫= λ _,
  a ← pop_answer;
  match a with
  | Acked | Duplicate =>
      v ← gets (λ w, cw_state w !! last_run_key triggerID);
      match v with
      | None => mret zero_time
      | Some (StampAt t) => mret t
      | Some StampBad => cm_of (Err (Errorf "parse time: %w" []))
      end
  | _ => cm_of (Err (Errorf "KV Get: %w" [AErr net_error]))
  end.

Fixpoint replay (def : TriggerDef) (minutes : list Time) : cm unit :=
  match minutes with
  | [] => mret tt
  | t :: minutes' =>
      claimed ← claim_minute (tg_ID def) t;
      if negb claimed then replay def minutes'
      else cm_wrap (λ e, Errorf "fire %v: %w" [AErr e]) (fireWorkflow def t) ≫= λ _, replay def minutes'
  end.

(** [clock]: the instant [time.Now] returns. *)
Definition backfillTrigger (clock : Time) (def : TriggerDef) : cm unit :=
  cm_of (panic_if (empty_str (tg_ID def)) "backfillTrigger: def.ID is empty") ≫= λ _,
  match tg_Cron def with
  | None => cm_of (Panic "backfillTrigger: def.Cron is nil")
  | Some c =>
      if negb (cc_Backfill c) then mret tt
      else
        lastRun ← cm_wrap (λ e, Errorf "loadLastRun: %w" [AErr e]) (loadLastRun (tg_ID def));
        if IsZero lastRun then mret tt
        else
          let now := Truncate clock Minute in
          matches ← cm_wrap (λ e, Errorf "findMatches: %w" [AErr e]) (cm_of (findMatches def lastRun now));
          replay def (take 100 matches)
  end.

Definition Backfill (order : list string) (clock : Time) : cm unit :=
  defs ← gets (λ w, snapshot order (λ def, match tg_Cron def with Some c => cc_Backfill c | None => false end) (cw_s w));
  group (λ def, cm_wrap (λ e, Errorf "backfill %q: %w" [AStr (tg_ID def); AErr e]) (backfillTrigger clock def)) (Ret tt) defs.

(** ** The life of a scheduler *)

Inductive cron_op : Type :=
  | OpAdd (def : TriggerDef)
  | OpRemove (id : string)
  | OpTick (order : list string) (now : Time)
  | OpBackfill (order : list string) (clock : Time).

(** A tick that returned an error is followed by the next one; a refused
    registration changes nothing. *)
Definition cron_step (w : cron_world) (op : cron_op) : cron_world :=
  match op with
  | OpAdd def => match AddTrigger def (cw_s w) with Ret s => cw_set_s (λ _, s) w | _ => w end
  | OpRemove id => match RemoveTrigger id (cw_s w) with Ret s => cw_set_s (λ _, s) w | _ => w end
  | OpTick order now => (Tick order now w).1
  | OpBackfill order clock => (Backfill order clock w).1
  end.

Definition cron_run (ops : list cron_op) (w : cron_world) : cron_world := foldl cron_step w ops.

(** A new process: the bucket and the streams are those of the servers. *)
Definition fresh_cron (state : gmap string stamp) (answers : list answer) : cron_world :=
  MkCronWorld (MkScheduler ∅ ∅ ∅) state [] [] answers 0.
End Firing.

(** * What the scheduler starts

    The minutes a trigger fired are increasing, because each start follows a
    claim of its minute; what [findMatches] scans is the matching minutes of its
    window. *)

(** ** One fire *)

(** The message of a start of [def] at [now]. *)
Definition start_of (def : TriggerDef) (now : Time) (m : cron_start) : Prop :=
  st_Envelope m = MkEnvelope SourceCron (tg_ID def) (tg_WorkflowID def) now None ∧
  st_MsgID m = "trigger." +:+ tg_ID def +:+ "." +:+ pretty (unix_minute now).

(** The parts of the world the claims are about. *)
Definition same_claims (w w' : cron_world) : Prop :=
  sc_triggers (cw_s w') = sc_triggers (cw_s w) ∧ sc_lastFired (cw_s w') = sc_lastFired (cw_s w).

#[local] Instance same_claims_trans : Transitive same_claims.
Proof. intros w1 w2 w3 [? ?] [? ?]. split; congruence. Qed.

Section Effects.
Context (LoadLocation : string → outcome Location) (new_id : nat → string).

Lemma cm_bind_inv {A B} (m : cm A) (f : A → cm B) w w' o :
  (m ≫= f) w = (w', o) →
  (∃ a w1, m w = (w1, Ret a) ∧ f a w1 = (w', o)) ∨
  m w = (w', Err (match o with Err e => e | _ => net_error end)) ∧ is_ret o = false ∨
  ∃ s, m w = (w', Panic s) ∧ is_ret o = false.
Proof.
  unfold mbind, cm_bind. destruct (m w) as [w1 [a|e|s]]; [intros H; left; eauto|intros [= <- <-]; right; by left|].
  intros [= <- <-]. right. right. eauto.
Qed.

(** What a publish leaves. *)
Lemma publish_effect store w w' o :
  publish store w = (w', o) →
  ∃ w1, w1 = MkCronWorld (cw_s w) (cw_state w) (cw_started w) (cw_fires w) (tail (cw_answers w)) (cw_next w) ∧
    (w' = w1 ∨ w' = store w1) ∧ (cw_answers w = [] → w' = store w1 ∧ o = Ret tt).
Proof.
  destruct w as [s st sd fs as_ n]. unfold publish, mbind, cm_bind, pop_answer. cbn.
  destruct as_ as [|[] l]; cbn; intros [= <- <-]; eexists; split_and!; try done; auto.
Qed.

Lemma fire_effect def now w w' o :
  fireWorkflow new_id def now w = (w', o) →
  same_claims w w' ∧ ∃ l, cw_started w' = cw_started w ++ l ∧ (l = [] ∨ ∃ m, l = [m] ∧ start_of def now m).
Proof.
  assert (same_claims w w) as Hrefl by done.
  unfold fireWorkflow, Fire, publishTriggerFireRecord, recordLastRun, startedDedupID, fireDedupID, cm_of, cm_wrap, ignored, modify, fresh_run, mbind, cm_bind.
  intros H. destruct (empty_str (tg_ID def)); cbn in H; [injection H as <- <-; split; [done|]; exists []; rewrite app_nil_r; auto|].
  destruct (empty_str (tg_WorkflowID def)); cbn in H; [injection H as <- <-; split; [done|]; exists []; rewrite app_nil_r; auto|].
  change (empty_str SourceCron) with false in H. cbn in H.
  match type of H with context [publish (store_started ?m) ?w0] => set (sm := m) in H; set (w1 := w0) in H end.
  destruct (publish (store_started sm) w1) as [w2 o2] eqn:E2. apply publish_effect in E2 as (w2' & Hw2' & Hw2 & _).
  assert (same_claims w w2 ∧ ∃ l, cw_started w2 = cw_started w ++ l ∧ (l = [] ∨ ∃ m, l = [m] ∧ start_of def now m)) as [Hs2 Hl2].
  { destruct Hw2 as [->| ->]; rewrite Hw2'; (split; [done|]).
    - exists []. rewrite app_nil_r. auto.
    - exists [sm]. split; [done|]. right. by exists sm. }
  destruct o2 as [[]|e2|s2]; cbn in H; [|by injection H as <- <-..].
  match type of H with context [publish (store_fire ?m) ?w0] => set (fm := m) in H end.
  destruct (publish (store_fire fm) w2) as [w3 o3] eqn:E3. apply publish_effect in E3 as (w3' & Hw3' & Hw3 & _).
  assert (same_claims w2 w3 ∧ cw_started w3 = cw_started w2) as [Hs3 Hl3] by (by destruct Hw3 as [->| ->]; rewrite Hw3').
  rewrite <-Hl3 in Hl2. assert (same_claims w w3) as Hs by (by etrans).
  destruct o3 as [[]|e3|s3]; cbn in H; [|by injection H as <- <-..].
  destruct (IsZero now); cbn in H; [by injection H as <- <-|].
  match type of H with context [publish (store_stamp ?k ?v) ?w0] => destruct (publish (store_stamp k v) w0) as [w4 o4] eqn:E4 end.
  apply publish_effect in E4 as (w4' & Hw4' & Hw4 & _). cbn in H. injection H as <- <-.
  assert (same_claims w3 w4 ∧ cw_started w4 = cw_started w3) as [Hs4 ->] by (by destruct Hw4 as [->| ->]; rewrite Hw4').
  split; [by etrans|done].
Qed.

(** [def] at [now] was not claimed before and is now, with at most one start,
    or nothing changed. *)
Inductive claims (def : TriggerDef) (now : Time) (w w' : cron_world) : Prop :=
  | claims_not : same_claims w w' → cw_started w' = cw_started w → claims def now w w'
  | claims_new l :
      default zero_time (sc_lastFired (cw_s w) !! tg_ID def) < Truncate now Minute →
      sc_triggers (cw_s w') = sc_triggers (cw_s w) →
      sc_lastFired (cw_s w') = <[tg_ID def := Truncate now Minute]> (sc_lastFired (cw_s w)) →
      cw_started w' = cw_started w ++ l → (l = [] ∨ ∃ m, l = [m] ∧ start_of def now m) → claims def now w w'.

Lemma claim_fire_effect def now w w' o f :
  (claim_minute (tg_ID def) now ≫= λ claimed : bool, if negb claimed then mret tt else cm_wrap f (fireWorkflow new_id def now)) w = (w', o) →
  claims def now w w'.
Proof.
  unfold mbind, cm_bind, claim_minute, claimMinute. destruct (empty_str (tg_ID def)); cbn; [by intros [= <- <-]; left|].
  destruct (IsZero now); cbn; [by intros [= <- <-]; left|].
  destruct (default zero_time (sc_lastFired (cw_s w) !! tg_ID def) <? Truncate now Minute) eqn:E; cbn; [|by intros [= <- <-]; left].
  unfold cm_wrap. set (w1 := cw_set_s _ w). destruct (fireWorkflow new_id def now w1) as [w2 o2] eqn:E2. intros [= <- <-].
  apply fire_effect in E2 as ([Ht Hl] & l & Hs & Hm). apply Z.ltb_lt in E. by eapply claims_new.
Qed.

Lemma tick_trigger_effect now def w w' o :
  tick_trigger LoadLocation new_id now def w = (w', o) →
  claims def now w w' ∧ (shouldFire LoadLocation def now = Ret true ∨ w' = w).
Proof.
  unfold tick_trigger, mbind, cm_bind, cm_wrap, cm_of. destruct (shouldFire _ _ _) as [[]|e|s] eqn:E; cbn.
  - intros H. split; [|by left]. by apply (claim_fire_effect def now w w' o (λ e, Errorf "fireWorkflow %q: %w" [AStr (tg_ID def); AErr e])).
  - intros [= <- <-]. split; [by left|by right].
  - intros [= <- <-]. split; [by left|by right].
  - intros [= <- <-]. split; [by left|by right].
Qed.

(** ** The scan of a backfill *)

Lemma match_loop_filter c loc (p : Time → bool) end_ fuel : ∀ t,
  (∀ k, (k < fuel)%nat → Matches c loc (minute_after t k) = Ret (p (minute_after t k))) →
  match_loop c loc fuel t end_ = Ret (List.filter (λ u, p u && (u <=? end_)) (minute_after t <$> seq 0 fuel)).
Proof.
  induction fuel as [|fuel IH]; intros t Hm; [done|].
  assert (∀ n, minute_after t <$> seq 0 (S n) = t :: (minute_after (Time_Add t Minute) <$> seq 0 n)) as Hseq.
  { intros n. cbn [seq]. csimpl. f_equal; [unfold minute_after; lia|].
    rewrite <-fmap_S_seq, <-list_fmap_compose. apply list_fmap_ext.
    intros i x _. unfold minute_after, Time_Add. cbn -[Z.of_nat Minute]. lia. }
  cbn [match_loop]. destruct (end_ <? t) eqn:E.
  - apply Z.ltb_lt in E. f_equal. symmetry. clear -E. generalize (seq 0 (S fuel)) as l. intros l.
    induction l as [|k l IHl]; [done|]. csimpl. destruct (_ <=? _) eqn:E'; [|by rewrite andb_false_r].
    apply Z.leb_le in E'. unfold minute_after in E'. assert (0 < Minute) by done. nia.
  - rewrite Hseq. pose proof (Hm 0%nat ltac:(lia)) as H0. unfold minute_after in H0.
    rewrite Z.mul_0_l, Z.add_0_r in H0. rewrite H0. cbn -[seq Minute]. rewrite IH.
    + cbn -[seq Minute]. apply Z.ltb_ge, Z.leb_le in E. rewrite E, andb_true_r. by destruct (p t).
    + intros k Hk. specialize (Hm (S k) ltac:(lia)). unfold minute_after, Time_Add in *.
      by replace (t + Minute + Z.of_nat k * Minute) with (t + Z.of_nat (S k) * Minute) by lia.
Qed.

Lemma replay_window last n t :
  let start := Truncate (Time_Add last Minute) Minute in
  (∃ k, (k < n)%nat ∧ t = minute_after start k) ↔ t mod Minute = 0 ∧ last < t < start + Z.of_nat n * Minute.
Proof.
  intros start. destruct (Truncate_minute (Time_Add last Minute)) as [Hb Hz]. fold start in Hb, Hz. unfold Time_Add in Hb.
  assert (0 < Minute) as Hm by done. unfold minute_after. apply Z.mod_divide in Hz as [q Hq]; [|lia]. split.
  - intros (k & Hk & ->). split; [|nia]. apply Z.mod_divide; [lia|]. exists (q + Z.of_nat k). lia.
  - intros [[r Hr]%Z.mod_divide Ht]; [|lia]. exists (Z.to_nat (r - q)). assert (q ≤ r) by nia. assert (r < q + Z.of_nat n) by nia.
    split; [lia|]. rewrite Z2Nat.id by lia. lia.
Qed.

(** [l] has the minutes after [last] and up to [end_] that satisfy [P], in
    order: what the documentation says a backfill replays. *)
Record missed_minutes (P : Time → Prop) (last end_ : Time) (l : list Time) : Prop := {
  mm_sorted : StronglySorted Z.lt l;
  mm_elem : ∀ t, t ∈ l ↔ P t ∧ t mod Minute = 0 ∧ last < t ≤ end_;
}.

(** The first minute that the scan does not reach. *)
Definition scan_end (last : Time) : Time := Truncate (last + Minute) Minute + 10000 * Minute.

(** The minutes of [l] that the scan reaches. *)
Definition scanned (last : Time) (l : list Time) : list Time := List.filter (λ t, t <? scan_end last) l.

Lemma scanned_all P last end_ l : missed_minutes P last end_ l → end_ < scan_end last → scanned last l = l.
Proof.
  intros [_ He] Hend. unfold scanned. assert (∀ t, t ∈ l → t < scan_end last) as Hl by (intros t (_ & _ & ?)%He; lia). clear He.
  induction l as [|t l IH]; [done|]. cbn. rewrite (proj2 (Z.ltb_lt t _)), IH; [done| |]; intros; apply Hl; set_solver.
Qed.

Lemma filter_cut {A} (p c : A → bool) l1 l2 :
  (∀ x, x ∈ l1 → c x = true) → (∀ x, x ∈ l2 → c x = false) → List.filter c (List.filter p (l1 ++ l2)) = List.filter p l1.
Proof.
  intros H1 H2. induction l1 as [|x l1 IH]; cbn.
  - induction l2 as [|x l2 IH]; [done|]. cbn. destruct (p x); cbn; rewrite ?H2 by set_solver; apply IH; set_solver.
  - destruct (p x); cbn; rewrite ?H1 by set_solver; rewrite IH; set_solver.
Qed.

(** The scan finds the missed minutes that it reaches. *)
Lemma findMatches_spec def c expr loc last end_ :
  tg_Cron def = Some c → ParseCron (cc_Expression c) = Ret expr → LoadLocation (cc_Timezone c) = Ret loc → zero_time < last →
  ∃ l, findMatches LoadLocation def last end_ = Ret (scanned last l) ∧
    missed_minutes (expr_allows (Fields (cc_Expression c)) loc) last end_ l.
Proof.
  intros Hc Hp Hloc Hlast. set (start := Truncate (Time_Add last Minute) Minute).
  destruct (Truncate_minute (Time_Add last Minute)) as [Hb _]. fold start in Hb. unfold Time_Add in Hb. assert (0 < Minute) as Hm by done.
  set (p := λ t, match Matches expr loc t with Ret b => b | _ => false end).
  assert (∀ t, zero_time < t → Matches expr loc t = Ret (p t) ∧ (p t = true ↔ expr_allows (Fields (cc_Expression c)) loc t)) as Hmatch.
  { intros t Ht. destruct (Matches_allows _ expr loc t Hp) as (b & HB & Hiff); [lia|]. subst p. simpl. by rewrite HB. }
  set (more := Z.to_nat ((end_ - start) / Minute + 1)).
  assert (end_ < start + Z.of_nat more * Minute) as Hmore.
  { unfold more. pose proof (Z.div_mod (end_ - start) Minute ltac:(lia)). pose proof (Z.mod_pos_bound (end_ - start) Minute Hm). nia. }
  exists (List.filter (λ u, p u && (u <=? end_)) (minute_after start <$> seq 0 (maxIterations + more))). split.
  - unfold findMatches. rewrite Hc, Hp. cbn [wrap_err mbind outcome_bind]. rewrite Hloc. cbn [wrap_err mbind outcome_bind].
    fold start. rewrite (match_loop_filter expr loc p) by (intros k _; apply Hmatch; unfold minute_after; nia).
    f_equal. rewrite seq_app, fmap_app. unfold scanned. symmetry. apply filter_cut; intros t (k & -> & Hk%elem_of_seq)%list_elem_of_fmap;
      unfold scan_end; change (Truncate (last + Minute) Minute) with start; [apply Z.ltb_lt|apply Z.ltb_ge]; unfold minute_after;
      assert (Z.of_nat maxIterations = 10000) by done; nia.
  - assert (end_ < start + Z.of_nat (maxIterations + more) * Minute) as Hn by (rewrite Nat2Z.inj_add; nia).
    revert Hn. generalize (maxIterations + more)%nat as n. intros n Hn. clear Hmore.
    split; [apply filter_sorted, minutes_sorted|]. intros t.
    rewrite list_elem_of_In, List.filter_In, <-list_elem_of_In, list_elem_of_fmap, andb_true_iff, Z.leb_le.
    assert ((∃ y, t = minute_after start y ∧ y ∈ seq 0 n) ↔ t mod Minute = 0 ∧ last < t < start + Z.of_nat n * Minute) as ->.
    { unfold start. rewrite <-replay_window. setoid_rewrite elem_of_seq. naive_solver lia. }
    split.
    + intros [(H1 & H2 & H3) (H4 & H5)]. split_and!; [apply Hmatch; [lia|done]|done..].
    + intros (H1 & H2 & (H3 & H4)). split_and!; try done; [nia|]. apply Hmatch; [lia|done].
Qed.
End Effects.

(** ** Minutes fire once *)

(** The minutes of the starts of a trigger. *)
Definition minutes_of (id : string) (l : list cron_start) : list Time :=
  (λ m, Truncate (en_Timestamp (st_Envelope m)) Minute) <$> filter (λ m, en_Source (st_Envelope m) = id) l.

Definition claimed (id : string) (w : cron_world) : Time := default zero_time (sc_lastFired (cw_s w) !! id).

(** Relative to [n] starts of the trigger that are over (it was removed
    since). *)
Definition minutes_ok (id : string) (w : cron_world) : Prop :=
  StronglySorted Z.lt (minutes_of id (cw_started w)) ∧ Forall (λ t, t ≤ claimed id w) (minutes_of id (cw_started w)).

Lemma minutes_of_app id l l' : minutes_of id (l ++ l') = minutes_of id l ++ minutes_of id l'.
Proof. unfold minutes_of. by rewrite filter_app, fmap_app. Qed.

Lemma start_of_minutes def now m id :
  start_of def now m → minutes_of id [m] = if decide (tg_ID def = id) then [Truncate now Minute] else [].
Proof.
  intros [He _]. unfold minutes_of. rewrite filter_cons, filter_nil, He. cbn. repeat case_decide; try done; csimpl; by rewrite He.
Qed.

Lemma sorted_snoc (l : list Z) x : StronglySorted Z.lt l → Forall (λ y, y < x) l → StronglySorted Z.lt (l ++ [x]).
Proof.
  induction 1 as [|y l Hs IH Hf]; intros Hx; cbn; [repeat constructor|]. inversion Hx; subst. constructor; [auto|].
  apply Forall_app. split; [done|]. by constructor.
Qed.

Lemma claims_ok id def now w w' : claims def now w w' → minutes_ok id w → minutes_ok id w'.
Proof.
  intros [[Ht Hl] Hs|l Hlt Ht Hl Hs Hm] [Hso Hfa]; unfold minutes_ok, claimed in *.
  - by rewrite Hs, Hl.
  - rewrite Hs, Hl, minutes_of_app. destruct (decide (tg_ID def = id)) as [<-|Hne].
    + rewrite lookup_insert_eq. cbn. assert (Forall (λ t, t < Truncate now Minute) (minutes_of (tg_ID def) (cw_started w))) as Hlt'.
      { eapply Forall_impl; [exact Hfa|]. cbn. intros t ?. lia. }
      destruct Hm as [->|(m & -> & Hm)].
      * rewrite app_nil_r. split; [done|]. eapply Forall_impl; [exact Hlt'|]. cbn. intros t ?. lia.
      * rewrite (start_of_minutes _ _ _ _ Hm), decide_True by done. split; [by apply sorted_snoc|].
        apply Forall_app. split; [eapply Forall_impl; [exact Hlt'|]; cbn; intros t ?; lia|by constructor].
    + rewrite lookup_insert_ne by done. destruct Hm as [->|(m & -> & Hm)]; [by rewrite app_nil_r|].
      by rewrite (start_of_minutes _ _ _ _ Hm), decide_False, app_nil_r by done.
Qed.

(** What a start answers: a registered trigger whose expression allows the
    instant in its zone. *)
Definition due (LoadLocation : string → outcome Location) (P : TriggerDef → Prop) (m : cron_start) : Prop :=
  ∃ def c loc now, P def ∧ tg_Cron def = Some c ∧ LoadLocation (cc_Timezone c) = Ret loc ∧
    expr_allows (Fields (cc_Expression c)) loc now ∧ start_of def now m.

Section Life.
Context (LoadLocation : string → outcome Location) (new_id : nat → string).

Lemma shouldFire_due def now :
  shouldFire LoadLocation def now = Ret true →
  ∃ c loc, tg_Cron def = Some c ∧ LoadLocation (cc_Timezone c) = Ret loc ∧ expr_allows (Fields (cc_Expression c)) loc now.
Proof.
  unfold shouldFire. destruct (tg_Cron def) as [c|]; [|done].
  intros (expr & Hp%wrap_err_ret_iff & (loc & Hl%wrap_err_ret_iff & Hm)%bind_ret_iff)%bind_ret_iff. exists c, loc. split_and!; [done..|].
  assert (now ≠ zero_time) as Hz.
  { intros ->. by unfold Matches in Hm. }
  destruct (Matches_allows _ expr loc now Hp Hz) as (b & Hb & Hiff). apply Hiff. congruence.
Qed.

(** What holds of the starts and of the registered triggers. *)
Definition cron_ok (P : TriggerDef → Prop) (w : cron_world) : Prop :=
  (∀ id def, sc_triggers (cw_s w) !! id = Some def → P def) ∧ Forall (due LoadLocation P) (cw_started w).

Lemma claims_cron_ok P def now w w' :
  claims def now w w' → P def → (∃ c loc, tg_Cron def = Some c ∧ LoadLocation (cc_Timezone c) = Ret loc ∧
    expr_allows (Fields (cc_Expression c)) loc now) → cron_ok P w → cron_ok P w'.
Proof.
  intros Hcl HP (c & loc & Hc & Hloc & Hx) [Ht Hs]. destruct Hcl as [[E _] E'|l _ E _ E' Hm]; unfold cron_ok; rewrite E, E'; [done|].
  split; [done|]. apply Forall_app. split; [done|]. destruct Hm as [->|(m & -> & Hm)]; [constructor|].
  constructor; [|constructor]. by exists def, c, loc, now.
Qed.

(** A property of the world that every claim of a due minute keeps. *)
Definition kept (P : TriggerDef → Prop) (Q : cron_world → Prop) : Prop :=
  (∀ w w', same_claims w w' → cw_started w' = cw_started w → Q w → Q w') ∧
  ∀ def now w w', P def → (∃ c loc, tg_Cron def = Some c ∧ LoadLocation (cc_Timezone c) = Ret loc ∧
    expr_allows (Fields (cc_Expression c)) loc now) → claims def now w w' → Q w → Q w'.

Lemma group_keeps {A} (f : A → cm unit) (Q : cron_world → Prop) l : ∀ first w,
  (∀ x w, x ∈ l → Q w → Q (f x w).1) → Q w → Q (group f first l w).1.
Proof.
  induction l as [|x l IH]; intros first w Hf Hw; [done|]. cbn. pose proof (Hf x w ltac:(by left) Hw) as Hx.
  destruct (f x w) as [w' [[]|e|s]]; cbn in *; [apply IH; [|done]; intros y w0 Hy; apply Hf; by right..|done].
Qed.

Lemma snapshot_elem order p s def : def ∈ snapshot order p s → ∃ id, sc_triggers s !! id = Some def.
Proof.
  unfold snapshot. rewrite list_elem_of_In, List.filter_In, <-list_elem_of_In, list_elem_of_omap. intros [(id & _ & H) _]. eauto.
Qed.

Lemma tick_keeps P Q order now w :
  kept P Q → (∀ id def, sc_triggers (cw_s w) !! id = Some def → P def) → Q w → Q (Tick LoadLocation new_id order now w).1.
Proof.
  intros [_ Hk] HP Hw. unfold Tick, gets, mbind, cm_bind. apply group_keeps; [|done].
  intros def w0 (id & Hd)%snapshot_elem H0. destruct (tick_trigger LoadLocation new_id now def w0) as [w1 o] eqn:E.
  apply tick_trigger_effect in E as [Hcl [Hs| ->]]; [|done]. cbn.
  apply (Hk def now w0 w1); [by eapply HP|by apply shouldFire_due|done|done].
Qed.

Lemma replay_keeps P Q def l : ∀ w,
  kept P Q → P def → Forall (λ t, ∃ c loc, tg_Cron def = Some c ∧ LoadLocation (cc_Timezone c) = Ret loc ∧
    expr_allows (Fields (cc_Expression c)) loc t) l → Q w → Q (replay new_id def l w).1.
Proof.
  induction l as [|t l IH]; intros w Hk HP Hl Hw; [done|]. inversion Hl as [|? ? Ht Hl']; subst. destruct Hk as [Hk1 Hk2].
  cbn [replay]. unfold mbind, cm_bind.
  pose proof (claim_fire_effect new_id def t w) as Hce.
  destruct (claim_minute (tg_ID def) t w) as [w1 [[]|e|s]] eqn:Ec; cbn [negb].
  - set (g := λ e, Errorf "fire %v: %w" [AErr e]). destruct (cm_wrap g (fireWorkflow new_id def t) w1) as [w2 o2] eqn:Ef.
    assert (Q w2) as Hq.
    { eapply (Hk2 def t w w2); [done..| |done]. apply (Hce w2 o2 g). unfold mbind, cm_bind. by rewrite Ec. }
    destruct o2 as [[]|e|s]; [by apply IH|done|done].
  - apply IH; [done..|]. eapply (Hk2 def t w w1); [done..| |done]. apply (Hce w1 (Ret tt) id). unfold mbind, cm_bind. by rewrite Ec.
  - cbn. eapply (Hk2 def t w w1); [done..| |done]. apply (Hce w1 (Err e) id). unfold mbind, cm_bind. by rewrite Ec.
  - cbn. eapply (Hk2 def t w w1); [done..| |done]. apply (Hce w1 (Panic s) id). unfold mbind, cm_bind. by rewrite Ec.
Qed.

Lemma match_loop_sound expr loc end_ fuel : ∀ t l,
  match_loop expr loc fuel t end_ = Ret l → Forall (λ u, Matches expr loc u = Ret true) l.
Proof.
  induction fuel as [|fuel IH]; intros t l; cbn -[Matches]; [by intros [= <-]|]. destruct (end_ <? t); [by intros [= <-]|].
  intros (m & Hm & (rest & Hr & [= <-])%bind_ret_iff)%bind_ret_iff. destruct m; [constructor; [done|]|]; by eapply IH.
Qed.

Lemma findMatches_due def last end_ l :
  findMatches LoadLocation def last end_ = Ret l →
  Forall (λ t, ∃ c loc, tg_Cron def = Some c ∧ LoadLocation (cc_Timezone c) = Ret loc ∧
    expr_allows (Fields (cc_Expression c)) loc t) l.
Proof.
  unfold findMatches. destruct (tg_Cron def) as [c|] eqn:Hc; [|done].
  intros (expr & Hp%wrap_err_ret_iff & (loc & Hl%wrap_err_ret_iff & Hm%match_loop_sound)%bind_ret_iff)%bind_ret_iff.
  eapply Forall_impl; [exact Hm|]. cbn. intros t Ht. rewrite <-Hc. apply shouldFire_due. unfold shouldFire. by rewrite Hc, Hp; cbn; rewrite Hl.
Qed.

Lemma pop_same w w' o : pop_answer w = (w', o) → same_claims w w' ∧ cw_started w' = cw_started w ∧ cw_state w' = cw_state w.
Proof. unfold pop_answer. destruct (cw_answers w); by intros [= <- <-]. Qed.

Lemma loadLastRun_same id w w' o : loadLastRun id w = (w', o) → same_claims w w' ∧ cw_started w' = cw_started w.
Proof.
  unfold loadLastRun, cm_of, mbind, cm_bind. destruct (empty_str id); cbn -[pop_answer]; [by intros [= <- <-]|].
  destruct (pop_answer w) as [w1 o1] eqn:E. apply pop_same in E as (Hs & Hst & _).
  destruct o1 as [[]|e|s]; unfold gets; cbn; [| |by intros [= <- <-]..].
  - destruct (_ !! _) as [[]|]; by intros [= <- <-].
  - destruct (_ !! _) as [[]|]; by intros [= <- <-].
Qed.

Lemma backfill_keeps P Q order clock w :
  kept P Q → (∀ id def, sc_triggers (cw_s w) !! id = Some def → P def) → Q w → Q (Backfill LoadLocation new_id order clock w).1.
Proof.
  intros Hk HP Hw. unfold Backfill, gets, mbind, cm_bind. apply group_keeps; [|done].
  intros def w0 (id & Hd)%snapshot_elem H0. unfold cm_wrap.
  assert (Q (backfillTrigger LoadLocation new_id clock def w0).1) as H; [|by destruct (backfillTrigger _ _ _ _ w0)].
  unfold backfillTrigger, cm_of, cm_wrap, mbind, cm_bind. destruct (empty_str (tg_ID def)); cbn -[loadLastRun findMatches replay]; [done|].
  destruct (tg_Cron def) as [c|] eqn:Hc; [|done]. destruct (cc_Backfill c); cbn -[loadLastRun findMatches replay]; [|done].
  destruct (loadLastRun (tg_ID def) w0) as [w1 o1] eqn:E. apply loadLastRun_same in E as [Hs Hst].
  assert (Q w1) as H1 by (by apply (proj1 Hk w0)). destruct o1 as [last|e|s]; cbn -[findMatches replay]; [|done|done].
  destruct (IsZero last); [done|]. destruct (findMatches _ _ _ _) as [l|e|s] eqn:Hf; cbn -[replay]; [|done|done].
  apply (replay_keeps P); [done|by eapply HP| |done]. apply Forall_take. by eapply findMatches_due.
Qed.

(** The scheduler after a removal. *)
Definition removed (id : string) (s : Scheduler) : Scheduler :=
  MkScheduler (delete id (sc_triggers s)) (delete id (sc_lastFired s)) (delete id (sc_firedAt s)).

(** An operation keeps what claims keep, if its registration or removal does. *)
Lemma cron_step_keeps P Q op w :
  kept P Q → (∀ def, op = OpAdd def → Q (cw_set_s (sc_set_triggers <[tg_ID def := def]>) w)) →
  (∀ id, op = OpRemove id → Q (cw_set_s (removed id) w)) →
  (∀ id def, sc_triggers (cw_s w) !! id = Some def → P def) → Q w → Q (cron_step LoadLocation new_id w op).
Proof.
  intros Hk Ha Hr HP Hw. destruct op as [def|id|order now|order clock]; cbn [cron_step]; [| |by apply (tick_keeps P)|by apply (backfill_keeps P)].
  - unfold AddTrigger. destruct (empty_str (tg_ID def)); cbn; [done|]. destruct (tg_Cron def); [|done]. by apply (Ha def).
  - unfold RemoveTrigger. destruct (empty_str id); cbn; [done|]. by apply (Hr id).
Qed.

Lemma minutes_kept P id : kept P (minutes_ok id).
Proof.
  split.
  - intros w w' [_ E] E'. unfold minutes_ok, claimed. by rewrite E, E'.
  - intros def now w w' _ _ Hc. by apply (claims_ok id def now).
Qed.

Lemma cron_ok_kept P : kept P (cron_ok P).
Proof.
  split.
  - intros w w' [E _] E'. unfold cron_ok. by rewrite E, E'.
  - intros def now w w' HP Hd Hc. by eapply claims_cron_ok.
Qed.

Lemma cron_run_keeps P Q ops w :
  kept P Q → (∀ op, op ∈ ops → match op with OpAdd def => P def | _ => True end) →
  (∀ op w, op ∈ ops → Q w → (∀ def, op = OpAdd def → Q (cw_set_s (sc_set_triggers <[tg_ID def := def]>) w)) ∧
    ∀ id, op = OpRemove id → Q (cw_set_s (removed id) w)) →
  cron_ok P w → Q w → cron_ok P (cron_run LoadLocation new_id ops w) ∧ Q (cron_run LoadLocation new_id ops w).
Proof.
  intros Hk. revert w. induction ops as [|op ops IH]; intros w HP Hq Hok Hw; [done|]. cbn. apply IH.
  - intros o Ho. apply HP. by right.
  - intros o w0 Ho. apply Hq. by right.
  - pose proof (HP op ltac:(by left)) as Hop. apply (cron_step_keeps P (cron_ok P)); [apply cron_ok_kept| | |apply Hok|done].
    + intros def ->. split; [|apply Hok]. intros id d. cbn. rewrite lookup_insert_Some. intros [[_ <-]|[_ H]]; [done|]. by apply Hok in H.
    + intros id ->. split; [|apply Hok]. intros i d. cbn. rewrite lookup_delete_Some. intros [_ H]. by apply Hok in H.
  - destruct (Hq op w ltac:(by left) Hw) as [H1 H2]. apply (cron_step_keeps P); [done..|apply Hok|done].
Qed.
End Life.

(** ** A backfill with nothing in its way *)

Definition start_msg (new_id : nat → string) (def : TriggerDef) (n : nat) (t : Time) : cron_start :=
  MkStarted ("trigger." +:+ tg_ID def +:+ "." +:+ pretty (unix_minute t)) (new_id n)
    (MkEnvelope SourceCron (tg_ID def) (tg_WorkflowID def) t None).

Section Quiet.
Context (LoadLocation : string → outcome Location) (new_id : nat → string) (def : TriggerDef).
Hypothesis (Hid : empty_str (tg_ID def) = false) (Hwf : empty_str (tg_WorkflowID def) = false).

(** The world after a fire of a claimed minute. *)
Definition fired (t : Time) (w w' : cron_world) : Prop :=
  sc_lastFired (cw_s w') = sc_lastFired (cw_s w) ∧
  cw_state w' = <[last_run_key (tg_ID def) := StampAt (Truncate t Minute)]> (cw_state w) ∧
  cw_started w' = cw_started w ++ [start_msg new_id def (cw_next w) t] ∧ cw_answers w' = [] ∧ cw_next w' = S (cw_next w).

Lemma fire_quiet t w :
  cw_answers w = [] → IsZero t = false → ∃ w', fireWorkflow new_id def t w = (w', Ret tt) ∧ fired t w w'.
Proof using Hid Hwf.
  intros Ha Hz. destruct w as [s st sd fs an n]. cbn in Ha. subst an.
  unfold fireWorkflow, Fire, publishTriggerFireRecord, recordLastRun, startedDedupID, fireDedupID, cm_of, cm_wrap, ignored, modify, fresh_run, publish, pop_answer, mbind, cm_bind.
  rewrite Hid, Hwf, Hz. change (empty_str SourceCron) with false. cbn. eexists. split; [reflexivity|]. by repeat split.
Qed.

Lemma Truncate_whole t : t mod Minute = 0 → Truncate t Minute = t.
Proof using.
  intros H. destruct (Truncate_minute t) as [Hb Hz]. assert (0 < Minute) by done.
  apply Z.mod_divide in H as [a Ha]; [|lia]. apply Z.mod_divide in Hz as [b Hb']; [|lia].
  assert (b ≤ a) by nia. assert (a < b + 1) by nia. assert (a = b) as -> by lia. congruence.
Qed.

Lemma replay_quiet l : ∀ w,
  cw_answers w = [] → StronglySorted Z.lt l →
  Forall (λ t, t mod Minute = 0 ∧ claimed (tg_ID def) w < t ∧ zero_time < t) l →
  ∃ w', replay new_id def l w = (w', Ret tt) ∧
    cw_started w' = cw_started w ++ imap (λ i t, start_msg new_id def (cw_next w + i) t) l ∧
    (∀ t, last l = Some t → cw_state w' !! last_run_key (tg_ID def) = Some (StampAt t)).
Proof using Hid Hwf.
  induction l as [|t l IH]; intros w Ha Hs Hl; [exists w; by rewrite app_nil_r|].
  inversion Hs as [|? ? Hs' Hlt]; subst. inversion Hl as [|? ? (Hm & Hc & Hz) Hl']; subst.
  assert (IsZero t = false) as Hzt by (apply Z.eqb_neq; lia). cbn [replay]. unfold mbind, cm_bind, claim_minute, claimMinute.
  rewrite Hid, Hzt. cbn [panic_if mbind outcome_bind]. rewrite (Truncate_whole t Hm). unfold claimed in Hc.
  rewrite (proj2 (Z.ltb_lt _ _) Hc). cbn [negb]. unfold cm_wrap. set (w1 := cw_set_s _ w).
  destruct (fire_quiet t w1) as (w2 & Hf & HL & Hst & Hsd & Ha2 & Hn); [done..|]. rewrite Hf. cbn [wrap_err].
  destruct (IH w2) as (w3 & Hr & Hsd3 & Hst3); [done|done| |].
  { apply Forall_forall. intros u Hu. rewrite Forall_forall in Hl', Hlt. destruct (Hl' u Hu) as (? & ? & ?).
    split_and!; [done| |done]. unfold claimed. rewrite HL. cbn. rewrite lookup_insert_eq. cbn. by apply Hlt. }
  exists w3. split_and!; [exact Hr| |].
  - rewrite Hsd3, Hsd, Hn, <-app_assoc. f_equal. cbn. rewrite Nat.add_0_r. f_equal. apply imap_ext. intros i x _. cbn. f_equal. lia.
  - intros u Hu. destruct l as [|t' l']; [|by apply Hst3]. cbn in Hu. injection Hu as <-. injection Hr as <-.
    rewrite Hst, lookup_insert_eq. by rewrite Truncate_whole.
Qed.
End Quiet.
