(* ===== verification/Debounce.v ===== *)
(** * Debounced subject triggers (internal/trigger/debounce.go, subject.go)

    A message on the subject of a debounced trigger opens a window, or extends
    it: the bucket [debounce_state] has the last message, the instant of the
    first and the sequence of the timer that will end the window.  Every message
    schedules a timer of its own; a timer that fires compares its sequence with
    the window's and starts the run only if no later message replaced it.

    Messages and timers are handled by several goroutines and processes: a
    handler is a program ([Interleave]) whose calls go to the bucket, to the
    timers stream, to the bucket of triggers and to the history stream.  [exec]
    is the server that answers every call; [deb_reply] lets a call fail before or
    after it took effect.  Which keys the client of the bucket accepts is a
    parameter ([valid]); windows do not expire (the bucket keeps an entry for 14
    days, a period is at most 7). *)

From stdpp Require Import relations.
From Stdlib Require Import Ascii.
From S2P Require Import Prelude Float64 Json GoTime Input Kv Interleave Trigger.

#[local] Open Scope Z_scope.

(** ** The servers *)

(** [debounceEntry], as [json.Marshal] wrote it, or bytes that are not one. *)
Inductive window : Type :=
  | WindowBad
  | Window (lastEvent : raw) (firstSeen : Time) (timerSeq : nat).

(** The fields a debounce timer sets in its message. *)
Record debounce_timer : Type := MkDebounceTimer {
  dt_TriggerID : string;
  dt_Key : string;
  dt_DurationMs : Z;
}.

(** [workflow.started] of a subject trigger. *)
Record subject_start : Type := MkSubjectStart {
  ss_Source : string;
  ss_WorkflowID : string;
  ss_Data : option raw;
}.

Inductive debE : Type → Type :=
  | WindowGet (k : string) : debE (kv_error + window * nat)
  | WindowCreate (k : string) (v : window) : debE (kv_error + unit)
  | WindowUpdate (k : string) (v : window) (revision : nat) : debE (kv_error + unit)
  | WindowDelete (k : string) : debE (kv_error + unit)
  | TimerPublish (t : debounce_timer) : debE (kv_error + nat)
  | TriggerGet (id : string) : debE (kv_error + outcome TriggerDef)
  | StartPublish (s : subject_start) : debE (kv_error + unit).

(** Windows with their revisions, the last revision, the log of the timers that
    were published (the sequence of a timer in the stream is its position, from
    1), the triggers and the starts.  The log says nothing of which timers are
    still to come: a timer is delivered at least once after its delay, and
    acknowledged after its handler (handleTimerJS); [DTimer] below delivers any
    timer of the log, any number of times. *)
Record debw : Type := MkDebw {
  dw_windows : gmap string (window * nat);
  dw_rev : nat;
  dw_timers : list debounce_timer;
  dw_triggers : gmap string (outcome TriggerDef);
  dw_started : list subject_start;
}.

Definition put_window (k : string) (v : window) (w : debw) : debw :=
  MkDebw (<[k := (v, S (dw_rev w))]> (dw_windows w)) (S (dw_rev w)) (dw_timers w) (dw_triggers w) (dw_started w).

(** The client refuses a key that is not [valid]. *)
Definition exec (valid : string → bool) R (w : debw) (e : debE R) : debw * R :=
  match e in debE R return debw * R with
  | WindowGet k =>
      (w, if valid k then match dw_windows w !! k with Some x => inr x | None => inl ErrKeyNotFound end else inl KvFailed)
  | WindowCreate k v =>
      if negb (valid k) then (w, inl KvFailed)
      else match dw_windows w !! k with
           | Some _ => (w, inl ErrKeyExists)
           | None => (put_window k v w, inr tt)
           end
  | WindowUpdate k v revision =>
      if negb (valid k) then (w, inl KvFailed)
      else match dw_windows w !! k with
           | Some (_, r) => if bool_decide (r = revision) then (put_window k v w, inr tt) else (w, inl ErrKeyRevisionMismatch)
           | None => (w, inl ErrKeyRevisionMismatch)
           end
  | WindowDelete k =>
      if negb (valid k) then (w, inl KvFailed)
      else (MkDebw (delete k (dw_windows w)) (S (dw_rev w)) (dw_timers w) (dw_triggers w) (dw_started w), inr tt)
  | TimerPublish t =>
      (MkDebw (dw_windows w) (dw_rev w) (dw_timers w ++ [t]) (dw_triggers w) (dw_started w), inr (S (length (dw_timers w))))
  | TriggerGet id => (w, match dw_triggers w !! id with Some o => inr o | None => inl ErrKeyNotFound end)
  | StartPublish s => (MkDebw (dw_windows w) (dw_rev w) (dw_timers w) (dw_triggers w) (dw_started w ++ [s]), inr tt)
  end.

(** The reply of a call that failed in transport. *)
Definition deb_failure {R} (e : debE R) : R :=
  match e in debE R return R with
  | WindowGet _ => inl KvFailed
  | WindowCreate _ _ => inl KvFailed
  | WindowUpdate _ _ _ => inl KvFailed
  | WindowDelete _ => inl KvFailed
  | TimerPublish _ => inl KvFailed
  | TriggerGet _ => inl KvFailed
  | StartPublish _ => inl KvFailed
  end.

Definition deb_reply (valid : string → bool) R (w : debw) (e : debE R) (w' : debw) (r : R) : Prop :=
  (w', r) = exec valid R w e ∨ r = deb_failure e ∧ (w' = w ∨ w' = (exec valid R w e).1).

(** ** Keys and documents *)

(** [json.Marshal] of a raw message: nil is null, invalid JSON an error. *)
Definition marshal_raw (data : option raw) : outcome raw :=
  match data with
  | None => Ret (RawJson JNull)
  | Some (RawJson v) => Ret (RawJson v)
  | Some (RawBad _) => Err (Errorf "json: error calling MarshalJSON for type json.RawMessage" [])
  end.

Section Debouncer.
Context (fmt_float : f64 → string).

Definition debounceKey (def : TriggerDef) (data : option raw) : outcome string :=
  panic_if (empty_str (tg_ID def)) "debounceKey: def.ID must not be empty";;
  match tg_Debounce def with
  | None => Panic "debounceKey: def.Debounce must not be nil"
  | Some d =>
      if empty_str (db_Key d) then Ret (tg_ID def)
      else match ExtractDotPath (db_Key d) data with
           | Panic m => Panic m
           | Err _ | Ret JNull => Ret (tg_ID def)
           | Ret v =>
               let extracted := Sprint fmt_float v in
               Ret (if empty_str extracted then tg_ID def else tg_ID def +:+ "." +:+ extracted)
           end
  end.

(** [d.Milliseconds()] *)
Definition Milliseconds (d : Z) : Z := Z.quot d Millisecond.

(** ** Windows *)

Definition kv_err (msg : string) : error := Errorf msg [].

(** [ScheduleDebounce]: the sequence of the timer; its error is the one both
    callers make of it. *)
Definition ScheduleDebounce (t : debounce_timer) : io debE nat :=
  io_of (panic_if (empty_str (dt_TriggerID t)) "ScheduleDebounce: TriggerID must not be empty") ≫= λ _,
  r ⇐ call (TimerPublish t);
  match r with inr seq => Done (Ret seq) | inl _ => Done (Err (kv_err "schedule debounce timer: %w")) end.

Definition createDebounceEntry (key : string) (eventData : option raw) (firstSeen : Time) (def : TriggerDef) (period : Z)
    : io debE unit :=
  io_of (panic_if (empty_str key) "createDebounceEntry: key must not be empty") ≫= λ _,
  seq ← ScheduleDebounce (MkDebounceTimer (tg_ID def) key (Milliseconds period));
  data ← io_of (wrap_err (λ e, Errorf "marshal debounce entry: %w" [AErr e]) (marshal_raw eventData));
  r ⇐ call (WindowCreate key (Window data firstSeen seq));
  match r with inr _ => Done (Ret tt) | inl _ => Done (Err (kv_err "create debounce_state: %w")) end.

Definition updateDebounceEntry (key : string) (eventData : option raw) (firstSeen : Time) (def : TriggerDef) (period : Z)
    (revision : nat) : io debE unit :=
  io_of (panic_if (empty_str key) "updateDebounceEntry: key must not be empty") ≫= λ _,
  seq ← ScheduleDebounce (MkDebounceTimer (tg_ID def) key (Milliseconds period));
  data ← io_of (wrap_err (λ e, Errorf "marshal debounce entry: %w" [AErr e]) (marshal_raw eventData));
  r ⇐ call (WindowUpdate key (Window data firstSeen seq) revision);
  match r with inr _ => Done (Ret tt) | inl _ => Done (Err (kv_err "update debounce_state: %w")) end.

(** The data to fire with, or nothing when the window absorbed the event. *)
Definition DebounceOrFire (now : Time) (def : TriggerDef) (eventData : option raw) : io debE (option (option raw)) :=
  match tg_Debounce def with
  | None => mret (Some eventData)
  | Some d =>
      key ← io_of (debounceKey def eventData);
      r ⇐ call (WindowGet key);
      match r with
      | inl ErrKeyNotFound => createDebounceEntry key eventData (wrap64 now) def (db_Period d) ≫= λ _, mret None
      | inl _ => Done (Err (kv_err "get debounce_state: %w"))
      | inr (WindowBad, _) => Done (Err (kv_err "unmarshal debounce entry: %w"))
      | inr (Window _ firstSeen _, revision) =>
          if (0 <? db_Timeout d) && (db_Timeout d <=? Time_Sub now firstSeen)
          then r ⇐ call (WindowDelete key);
               match r with inr _ => Done (Ret (Some eventData)) | inl _ => Done (Err (kv_err "delete debounce_state: %w")) end
          else updateDebounceEntry key eventData firstSeen def (db_Period d) revision ≫= λ _, mret None
      end
  end.

(** ** Firing *)

Definition publishSubjectFire (def : TriggerDef) (data : option raw) : io debE unit :=
  io_of (panic_if (empty_str (tg_ID def) || empty_str (tg_WorkflowID def))
           "publishSubjectFire: def.ID and def.WorkflowID must be set") ≫= λ _,
  io_of (match data with
         | None => Ret tt
         | Some _ => wrap_err (λ e, Errorf "marshal trigger envelope: %w" [AErr e]) (marshal_raw data) ≫= λ _, Ret tt
         end) ≫= λ _,
  r ⇐ call (StartPublish (MkSubjectStart (tg_ID def) (tg_WorkflowID def) data));
  match r with inr _ => Done (Ret tt) | inl _ => Done (Err (kv_err "publish workflow.started (run %s): %w")) end.

Definition live_def (def : TriggerDef) (triggerID : string) : bool :=
  tg_Enabled def && negb (is_nil (tg_Subject def)) && negb (is_nil (tg_Debounce def)) &&
  bool_decide (tg_ID def = triggerID) && negb (empty_str (tg_WorkflowID def)).

Definition loadLiveTrigger (triggerID : string) : io debE (option TriggerDef) :=
  io_of (panic_if (empty_str triggerID) "loadLiveTrigger: triggerID must not be empty") ≫= λ _,
  r ⇐ call (TriggerGet triggerID);
  match r with
  | inr (Ret def) => Done (Ret (if live_def def triggerID then Some def else None))
  | _ => Done (Ret None)
  end.

(** The delete of a window, its failure only logged. *)
Definition drop_window (key : string) : io debE unit :=
  _ ⇐ call (WindowDelete key);
  Done (Ret tt).

Definition HandleTimerFire (tm : debounce_timer) (timerSeq : nat) : io debE unit :=
  if empty_str (dt_Key tm) || empty_str (dt_TriggerID tm) then Done (Ret tt)
  else
    r ⇐ call (WindowGet (dt_Key tm));
    match r with
    | inl _ | inr (WindowBad, _) => Done (Ret tt)
    | inr (Window lastEvent _ seq, _) =>
        if negb (bool_decide (seq = timerSeq)) then Done (Ret tt)
        else
          live ← loadLiveTrigger (dt_TriggerID tm);
          match live with
          | None => drop_window (dt_Key tm)
          | Some def =>
              o ⇐ publishSubjectFire def (Some lastEvent);
              match o with
              | Ret _ => drop_window (dt_Key tm)
              | Err _ => Done (Ret tt)
              | Panic m => Done (Panic m)
              end
          end
    end.

(** A message on the subject; errors are counted and logged. *)
Definition handleMessage (now : Time) (def : TriggerDef) (msg : option raw) : io debE unit :=
  if negb (tg_Enabled def) then Done (Ret tt)
  else
    let data := match msg with Some r => if raw_empty r then None else Some r | None => None end in
    o ⇐ DebounceOrFire now def data;
    match o with
    | Panic m => Done (Panic m)
    | Err _ | Ret None => Done (Ret tt)
    | Ret (Some eventData) =>
        o ⇐ publishSubjectFire def eventData;
        match o with Panic m => Done (Panic m) | _ => Done (Ret tt) end
    end.

(** ** Handlers one after the other *)

Context (valid : string → bool).

Inductive deb_op : Type :=
  | DMessage (now : Time) (def : TriggerDef) (msg : option raw)
  | DTimer (seq : nat).

Definition deb_step (w : debw) (op : deb_op) : debw :=
  match op with
  | DMessage now def msg => (run_prog (exec valid) w (handleMessage now def msg)).1
  | DTimer seq =>
      match dw_timers w !! (seq - 1)%nat with
      | Some tm => (run_prog (exec valid) w (HandleTimerFire tm seq)).1
      | None => w
      end
  end.

Definition deb_run (ops : list deb_op) (w : debw) : debw := foldl deb_step w ops.

Definition fresh_deb (triggers : gmap string (outcome TriggerDef)) : debw := MkDebw ∅ 0 [] triggers [].
End Debouncer.

(** * What the windows guarantee

    The handlers as functions of the world, and what they leave alone. *)

Section Spec.
Context (fmt_float : f64 → string) (valid : string → bool).
#[local] Abbreviation h := (exec valid).

(** ** A message, handled at once *)

(** What a message with key [key] does to the world: it changes no other
    window, schedules at most one timer, for its key, and starts at most one run. *)
Record touches (key : string) (w w' : debw) : Prop := {
  to_other : ∀ k, k ≠ key → dw_windows w' !! k = dw_windows w !! k;
  to_timers : ∃ l, dw_timers w' = dw_timers w ++ l ∧ ∀ t, t ∈ l → dt_Key t = key;
  to_window : ∀ ev f seq r, dw_windows w' !! key = Some (Window ev f seq, r) →
    dw_windows w !! key = Some (Window ev f seq, r) ∨ (length (dw_timers w) < seq ≤ length (dw_timers w'))%nat;
  to_triggers : dw_triggers w' = dw_triggers w;
}.

Lemma touches_same key w w' :
  dw_windows w' = dw_windows w → dw_timers w' = dw_timers w → dw_triggers w' = dw_triggers w → touches key w w'.
Proof.
  intros Hw Ht Hg. split; [by rewrite Hw| |rewrite Hw; by left|done]. exists []. rewrite app_nil_r. split; [done|]. by intros t ?%elem_of_nil.
Qed.

Lemma publish_fire_windows def data w :
  let w' := (run_prog h w (publishSubjectFire def data)).1 in
  dw_windows w' = dw_windows w ∧ dw_timers w' = dw_timers w ∧ dw_triggers w' = dw_triggers w.
Proof.
  unfold publishSubjectFire, io_of, mbind, io_mbind. destruct (_ || _); cbn; [done|].
  destruct data as [[]|]; cbn; done.
Qed.

(** The window a message writes, as [createDebounceEntry] and
    [updateDebounceEntry] do. *)
Definition written (key : string) (ev : raw) (firstSeen : Time) (t : debounce_timer) (w : debw) : debw :=
  put_window key (Window ev firstSeen (S (length (dw_timers w))))
    (MkDebw (dw_windows w) (dw_rev w) (dw_timers w ++ [t]) (dw_triggers w) (dw_started w)).

Lemma written_touches key ev f t w : dt_Key t = key → touches key w (written key ev f t w).
Proof.
  intros Ht. split; cbn; [by intros k Hk; rewrite lookup_insert_ne| | |done].
  - exists [t]. split; [done|]. by intros t' ->%list_elem_of_singleton.
  - rewrite lookup_insert_eq. intros ev' f' seq r [= <- <- <- <-]. right. rewrite length_app. cbn. lia.
Qed.

Lemma timer_touches key t w :
  dt_Key t = key → touches key w (MkDebw (dw_windows w) (dw_rev w) (dw_timers w ++ [t]) (dw_triggers w) (dw_started w)).
Proof.
  intros Ht. split; cbn; [done| |by left|done]. exists [t]. split; [done|]. by intros t' ->%list_elem_of_singleton.
Qed.

Lemma create_touches key data f def period w :
  touches key w (run_prog h w (createDebounceEntry key data f def period)).1.
Proof.
  unfold createDebounceEntry, ScheduleDebounce, io_of, mbind, io_mbind.
  destruct (empty_str key) eqn:Hk; cbn; [by apply touches_same|]. destruct (empty_str (tg_ID def)); cbn; [by apply touches_same|].
  destruct data as [[]|]; cbn; [by apply timer_touches|destruct (valid key); cbn; [|by apply timer_touches]..].
  - destruct (dw_windows w !! key); cbn; [by apply timer_touches|by apply written_touches].
  - destruct (dw_windows w !! key); cbn; [by apply timer_touches|by apply written_touches].
Qed.

Lemma update_touches key data f def period rev w :
  touches key w (run_prog h w (updateDebounceEntry key data f def period rev)).1.
Proof.
  unfold updateDebounceEntry, ScheduleDebounce, io_of, mbind, io_mbind.
  destruct (empty_str key) eqn:Hk; cbn; [by apply touches_same|]. destruct (empty_str (tg_ID def)); cbn; [by apply touches_same|].
  destruct data as [[]|]; cbn; [by apply timer_touches|destruct (valid key); cbn; [|by apply timer_touches]..].
  - destruct (dw_windows w !! key) as [[x r]|]; cbn; [|by apply timer_touches]. case_bool_decide; [by apply written_touches|by apply timer_touches].
  - destruct (dw_windows w !! key) as [[x r]|]; cbn; [|by apply timer_touches]. case_bool_decide; [by apply written_touches|by apply timer_touches].
Qed.

Lemma delete_touches key w (w' := (h _ w (WindowDelete key)).1) : touches key w w'.
Proof.
  unfold w'. cbn. destruct (valid key); cbn; [|by apply touches_same].
  split; cbn; [by intros k Hk; rewrite lookup_delete_ne| |by rewrite lookup_delete_eq|done].
  exists []. rewrite app_nil_r. split; [done|]. by intros t ?%elem_of_nil.
Qed.

Lemma touches_then key w w1 w2 :
  touches key w w1 → dw_windows w2 = dw_windows w1 ∧ dw_timers w2 = dw_timers w1 ∧ dw_triggers w2 = dw_triggers w1 → touches key w w2.
Proof. intros [H1 H2 H3 H4] (E1 & E2 & E3). split; [by rewrite E1|by rewrite E2|by rewrite E1, E2|by rewrite E3]. Qed.

(** The key a message of a trigger goes to. *)
Definition message_data (msg : option raw) : option raw :=
  match msg with Some r => if raw_empty r then None else Some r | None => None end.

Lemma run_io_bind {A B} (p : io debE A) (f : A → io debE B) w :
  run_prog h w (p ≫= f) =
  match run_prog h w p with
  | (w', Ret a) => run_prog h w' (f a)
  | (w', Err e) => (w', Err e)
  | (w', Panic m) => (w', Panic m)
  end.
Proof. unfold mbind, io_mbind. rewrite run_prog_bind. by destruct (run_prog h w p) as [w' []]. Qed.

Lemma debounce_touches now def data key w :
  (is_Some (tg_Debounce def) → debounceKey fmt_float def data = Ret key) →
  touches key w (run_prog h w (DebounceOrFire fmt_float now def data)).1.
Proof.
  intros Hkey. unfold DebounceOrFire. destruct (tg_Debounce def) as [d|] eqn:Hd; [|by apply touches_same].
  rewrite run_io_bind, (Hkey ltac:(done)). cbn -[exec createDebounceEntry updateDebounceEntry].
  unfold exec at 1. cbn -[exec createDebounceEntry updateDebounceEntry].
  destruct (valid key) eqn:Hv; [|by apply touches_same]. destruct (dw_windows w !! key) as [[[|ev f seq] rev]|] eqn:Hw.
  - by apply touches_same.
  - destruct (_ && _).
    + pose proof (delete_touches key w) as Ht. cbn in *. rewrite Hv in *. exact Ht.
    + rewrite run_io_bind. pose proof (update_touches key data f def (db_Period d) rev w) as Ht.
      by destruct (run_prog h w (updateDebounceEntry key data f def (db_Period d) rev)) as [w' []].
  - rewrite run_io_bind. pose proof (create_touches key data (wrap64 now) def (db_Period d) w) as Ht.
    by destruct (run_prog h w (createDebounceEntry key data (wrap64 now) def (db_Period d))) as [w' []].
Qed.

(** A handler of a message whose key is [key], or that has none. *)
Lemma message_touches now def msg key w :
  (tg_Enabled def = true → is_Some (tg_Debounce def) → debounceKey fmt_float def (message_data msg) = Ret key) →
  touches key w (run_prog h w (handleMessage fmt_float now def msg)).1.
Proof.
  intros Hkey. unfold handleMessage. destruct (tg_Enabled def); [|by apply touches_same]. cbn [negb].
  fold (message_data msg). rewrite run_prog_bind. pose proof (debounce_touches now def (message_data msg) key w) as Ht.
  destruct (run_prog h w (DebounceOrFire fmt_float now def (message_data msg))) as [w1 [[data|]|e|m]]; cbn in Ht; try (by apply Ht; auto).
  rewrite run_prog_bind. pose proof (publish_fire_windows def data w1) as Hp.
  destruct (run_prog h w1 (publishSubjectFire def data)) as [w2 o2]. cbn in Hp.
  assert (touches key w w2) as H by (eapply touches_then; [apply Ht; auto|exact Hp]). by destruct o2.
Qed.

(** ** A timer, handled at once *)

(** A timer whose sequence is not the window's changes nothing. *)
Lemma timer_stale tm seq w :
  (∀ ev f r, dw_windows w !! dt_Key tm ≠ Some (Window ev f seq, r)) → run_prog h w (HandleTimerFire tm seq) = (w, Ret tt).
Proof.
  intros Hs. unfold HandleTimerFire. destruct (_ || _); [done|]. cbn -[exec loadLiveTrigger]. unfold exec at 1. cbn -[exec loadLiveTrigger].
  destruct (valid (dt_Key tm)); [|done]. destruct (dw_windows w !! dt_Key tm) as [[[|ev f sq] r]|]; [done| |done].
  rewrite bool_decide_eq_false_2; [done|]. intros ->. by apply (Hs ev f r).
Qed.

#[local] Ltac timer_case := split_and!; [done..|first [by exists false|by exists true]].

(** A timer starts a run, at most, and removes the window of its key, at most. *)
Lemma timer_cases tm seq w :
  ∃ w1, dw_timers w1 = dw_timers w ∧ dw_triggers w1 = dw_triggers w ∧ dw_windows w1 = dw_windows w ∧
    ∃ drop : bool, (run_prog h w (HandleTimerFire tm seq)).1 = if drop then (run_prog h w1 (drop_window (dt_Key tm))).1 else w1.
Proof.
  unfold HandleTimerFire. destruct (_ || _); [exists w; timer_case|]. cbn -[exec loadLiveTrigger drop_window publishSubjectFire].
  unfold exec at 1. cbn -[exec loadLiveTrigger drop_window publishSubjectFire].
  destruct (valid (dt_Key tm)); [|exists w; timer_case].
  destruct (dw_windows w !! dt_Key tm) as [[[|ev f sq] r]|]; [exists w; timer_case| |exists w; timer_case].
  destruct (bool_decide _); cbn [negb]; [|exists w; timer_case]. rewrite run_io_bind.
  assert (∃ o, run_prog h w (loadLiveTrigger (dt_TriggerID tm)) = (w, o)) as [o ->].
  { unfold loadLiveTrigger, io_of, mbind, io_mbind. destruct (empty_str (dt_TriggerID tm)); cbn; [eauto|].
    destruct (dw_triggers w !! dt_TriggerID tm) as [[]|]; cbn; eauto. }
  destruct o as [[def|]|e|m]; [|exists w; timer_case..]. rewrite run_prog_bind.
  pose proof (publish_fire_windows def (Some ev) w) as (E1 & E2 & E3).
  destruct (run_prog h w (publishSubjectFire def (Some ev))) as [w1 [[]|e|m]]; cbn -[exec drop_window] in *; exists w1; timer_case.
Qed.

Lemma timer_effect tm seq w (w' := (run_prog h w (HandleTimerFire tm seq)).1) :
  dw_timers w' = dw_timers w ∧ dw_triggers w' = dw_triggers w ∧ (∀ k, k ≠ dt_Key tm → dw_windows w' !! k = dw_windows w !! k) ∧
  ∀ x, dw_windows w' !! dt_Key tm = Some x → dw_windows w !! dt_Key tm = Some x.
Proof.
  destruct (timer_cases tm seq w) as (w1 & E1 & E2 & E3 & [] & E); fold w' in E; rewrite E; [|by rewrite E1, E2, E3].
  cbn. destruct (valid (dt_Key tm)); cbn; rewrite E1, E2, E3; [|done]. split_and!; [done|done| |].
  - intros k Hk. by rewrite lookup_delete_ne.
  - by rewrite lookup_delete_eq.
Qed.

(** ** A window from its last message to its timer *)

Definition avoids (key : string) (n : nat) (op : deb_op) : Prop :=
  match op with
  | DMessage _ def msg =>
      tg_Enabled def = true → is_Some (tg_Debounce def) → debounceKey fmt_float def (message_data msg) ≠ Ret key
  | DTimer m => m ≠ n
  end.

(** The window waits for timer [n], with [ev] as its last message. *)
Definition pending (key id : string) (ev : raw) (n : nat) (w : debw) : Prop :=
  (∃ f r, dw_windows w !! key = Some (Window ev f n, r)) ∧
  ∃ t, dw_timers w !! (n - 1)%nat = Some t ∧ dt_Key t = key ∧ dt_TriggerID t = id.

(** Timer [n] is of [key] and no window of it waits for it. *)
Definition spent (key : string) (n : nat) (w : debw) : Prop :=
  (1 ≤ n ≤ length (dw_timers w))%nat ∧ (∃ t, dw_timers w !! (n - 1)%nat = Some t ∧ dt_Key t = key) ∧
  ∀ ev f r, dw_windows w !! key ≠ Some (Window ev f n, r).

Lemma prefix_lookup {A} (l l' : list A) i x : l !! i = Some x → (l ++ l') !! i = Some x.
Proof. intros H. by apply lookup_app_l_Some. Qed.

(** Every message touches the window of its key, or none. *)
Lemma message_key now def msg w (w' := (run_prog h w (handleMessage fmt_float now def msg)).1) :
  (tg_Enabled def = true ∧ is_Some (tg_Debounce def) ∧
   ∃ key, debounceKey fmt_float def (message_data msg) = Ret key ∧ touches key w w') ∨ ∀ key, touches key w w'.
Proof.
  destruct (tg_Enabled def) eqn:He; [|right; intros key; apply message_touches; congruence].
  destruct (tg_Debounce def) as [d|] eqn:Hd; [|right; intros key; apply message_touches; rewrite Hd; by intros _ []].
  destruct (debounceKey fmt_float def (message_data msg)) as [key|e|m] eqn:Hk.
  - left. split_and!; [done..|]. exists key. split; [done|]. by apply message_touches.
  - exfalso. unfold debounceKey in Hk. rewrite Hd in Hk. destruct (empty_str (tg_ID def)); cbn in Hk; [done|].
    destruct (empty_str (db_Key d)); [done|]. by destruct (ExtractDotPath _ _) as [[]| |].
  - right. intros key. unfold w', handleMessage. rewrite He. cbn [negb]. fold (message_data msg).
    rewrite run_prog_bind. unfold DebounceOrFire. rewrite Hd, run_io_bind, Hk. by apply touches_same.
Qed.

(** Every step extends the timers. *)
Lemma deb_step_timers op w : ∃ l, dw_timers (deb_step fmt_float valid w op) = dw_timers w ++ l.
Proof.
  destruct op as [now def msg|m]; cbn -[handleMessage HandleTimerFire].
  - destruct (message_key now def msg w) as [(_ & _ & k & _ & Ht)|Ht]; [|specialize (Ht "")];
      destruct (to_timers _ _ _ Ht) as (l & Hl & _); eauto.
  - destruct (dw_timers w !! (m - 1)%nat) as [tm|]; [|exists []; by rewrite app_nil_r].
    destruct (timer_effect tm m w) as (E & _). rewrite E. exists []. by rewrite app_nil_r.
Qed.

Lemma deb_step_triggers op w : dw_triggers (deb_step fmt_float valid w op) = dw_triggers w.
Proof.
  destruct op as [now def msg|m]; cbn -[handleMessage HandleTimerFire].
  - destruct (message_key now def msg w) as [(_ & _ & k & _ & Ht)|Ht]; [|specialize (Ht "")]; apply Ht.
  - destruct (dw_timers w !! (m - 1)%nat) as [tm|]; [|done]. apply (timer_effect tm m w).
Qed.

Lemma pending_step key id ev n w op :
  avoids key n op → pending key id ev n w → pending key id ev n (deb_step fmt_float valid w op).
Proof.
  intros Ha [(f & r & Hw) (t & Ht & Hk & Hi)]. split; [|destruct (deb_step_timers op w) as [l ->]; exists t; by rewrite (prefix_lookup _ _ _ _ Ht)].
  exists f, r. destruct op as [now def msg|m]; cbn -[handleMessage HandleTimerFire].
  - destruct (message_key now def msg w) as [(He & Hd & k & Hm & Htc)|Htc].
    + rewrite (to_other _ _ _ Htc); [done|]. intros <-. by apply Ha.
    + rewrite (to_other _ _ _ (Htc (String "."%char key))); [done|]. clear. intros E%(f_equal String.length). cbn in E. lia.
  - destruct (dw_timers w !! (m - 1)%nat) as [tm|] eqn:Hm; [|done]. cbn in Ha. destruct (decide (dt_Key tm = key)) as [<-|Hne].
    + rewrite (timer_stale tm m w); [done|]. rewrite Hw. intros ? ? ? [= _ _ ?]. congruence.
    + destruct (timer_effect tm m w) as (_ & _ & Ho & _). by rewrite Ho.
Qed.

Lemma pending_run key id ev n ops : ∀ w,
  Forall (avoids key n) ops → pending key id ev n w → pending key id ev n (deb_run fmt_float valid ops w).
Proof.
  induction ops as [|op ops IH]; intros w Ha Hp; [done|]. inversion Ha; subst. cbn. apply IH; [done|]. by apply pending_step.
Qed.

Lemma run_triggers ops : ∀ w, dw_triggers (deb_run fmt_float valid ops w) = dw_triggers w.
Proof. induction ops as [|op ops IH]; intros w; [done|]. rewrite <-(deb_step_triggers op w). apply IH. Qed.

Lemma spent_step key n w op : spent key n w → spent key n (deb_step fmt_float valid w op).
Proof.
  intros (Hn & (t & Ht & Hk) & Hw). destruct (deb_step_timers op w) as [l Hl].
  split; [rewrite Hl, length_app; lia|split; [rewrite Hl; exists t; by rewrite (prefix_lookup _ _ _ _ Ht)|]].
  intros ev f r. destruct op as [now def msg|m]; cbn -[handleMessage HandleTimerFire].
  - intros Hs. assert (∀ k, touches k w (run_prog h w (handleMessage fmt_float now def msg)).1 → False) as Hno.
    { intros k Htc. destruct (decide (k = key)) as [->|Hne].
      - destruct (to_window _ _ _ Htc _ _ _ _ Hs) as [H|H]; [by apply Hw in H|lia].
      - rewrite (to_other _ _ _ Htc) in Hs by done. by apply Hw in Hs. }
    destruct (message_key now def msg w) as [(_ & _ & k & _ & Htc)|Htc]; [by apply (Hno k)|by apply (Hno "")].
  - destruct (dw_timers w !! (m - 1)%nat) as [tm|] eqn:Hm; [|apply Hw]. destruct (timer_effect tm m w) as (_ & _ & Ho & Hx).
    destruct (decide (key = dt_Key tm)) as [->|Hne]; [|rewrite Ho by done; apply Hw]. intros H%Hx. by apply Hw in H.
Qed.

(** A spent timer does nothing, whatever happened since. *)
Lemma spent_run key n ops : ∀ w, spent key n w →
  deb_step fmt_float valid (deb_run fmt_float valid ops w) (DTimer n) = deb_run fmt_float valid ops w.
Proof.
  induction ops as [|op ops IH]; intros w Hs; [|cbn [deb_run foldl]; apply IH, spent_step, Hs].
  destruct Hs as (_ & (t & Ht & <-) & Hw). cbn -[HandleTimerFire]. rewrite Ht. by rewrite timer_stale.
Qed.

(** ** One message and its timer *)

(** The window of the key does not make the message fire at once. *)
Definition absorbs (d : DebounceConfig) (now : Time) (key : string) (w : debw) : Prop :=
  match dw_windows w !! key with
  | None => True
  | Some (WindowBad, _) => False
  | Some (Window _ f _, _) => db_Timeout d ≤ 0 ∨ Time_Sub now f < db_Timeout d
  end.

Lemma debounceKey_nonempty def data key : debounceKey fmt_float def data = Ret key → empty_str key = false.
Proof.
  unfold debounceKey. destruct (tg_ID def) as [|c s] eqn:E; [done|]. cbn [empty_str panic_if mbind outcome_bind].
  destruct (tg_Debounce def) as [d|]; [|done]. destruct (empty_str (db_Key d)); [by intros [= <-]|].
  destruct (ExtractDotPath _ _) as [[]| |]; try (by intros [= <-]); try done; intros [= <-]; by case_match.
Qed.

(** An absorbed message writes the window with the sequence of its own timer. *)
Lemma message_written now def d v key w :
  tg_Enabled def = true → tg_Debounce def = Some d → debounceKey fmt_float def (Some (RawJson v)) = Ret key → valid key = true →
  absorbs d now key w →
  ∃ f, (run_prog h w (handleMessage fmt_float now def (Some (RawJson v)))).1 =
    written key (RawJson v) f (MkDebounceTimer (tg_ID def) key (Milliseconds (db_Period d))) w.
Proof.
  intros He Hd Hk Hv Ha. assert (empty_str (tg_ID def) = false) as Hid.
  { unfold debounceKey in Hk. destruct (empty_str (tg_ID def)); [done|done]. }
  pose proof (debounceKey_nonempty _ _ _ Hk) as Hne. unfold absorbs in Ha.
  unfold handleMessage. rewrite He. cbn [negb raw_empty]. unfold DebounceOrFire. rewrite Hd, run_prog_bind, run_io_bind, Hk.
  cbn -[exec createDebounceEntry updateDebounceEntry]. unfold exec at 1. rewrite Hv.
  destruct (dw_windows w !! key) as [[[|ev f sq] r]|] eqn:Hw; [done| |].
  - exists f. assert ((0 <? db_Timeout d) && (db_Timeout d <=? Time_Sub now f) = false) as ->.
    { apply andb_false_iff. rewrite Z.ltb_ge, Z.leb_gt. lia. }
    rewrite run_io_bind. unfold updateDebounceEntry, ScheduleDebounce, io_of, mbind, io_mbind. rewrite Hne. cbn. rewrite Hid. cbn. rewrite Hv. cbn.
    rewrite Hw, bool_decide_eq_true_2 by done. done.
  - exists (wrap64 now). rewrite run_io_bind. unfold createDebounceEntry, ScheduleDebounce, io_of, mbind, io_mbind. rewrite Hne. cbn. rewrite Hid. cbn. rewrite Hv. cbn.
    by rewrite Hw.
Qed.

(** The timer of a pending window starts the run of its last message. *)
Lemma timer_fires def key v n w :
  pending key (tg_ID def) (RawJson v) n w → valid key = true → empty_str key = false → empty_str (tg_ID def) = false →
  live_def def (tg_ID def) = true → dw_triggers w !! tg_ID def = Some (Ret def) →
  deb_step fmt_float valid w (DTimer n) =
  MkDebw (delete key (dw_windows w)) (S (dw_rev w)) (dw_timers w) (dw_triggers w)
    (dw_started w ++ [MkSubjectStart (tg_ID def) (tg_WorkflowID def) (Some (RawJson v))]).
Proof.
  intros [(f & r & Hw) (t & Ht & <- & Hi)] Hv Hk Hid Hl Hg. cbn -[HandleTimerFire]. rewrite Ht. unfold HandleTimerFire.
  rewrite Hk, Hi, Hid. cbn -[exec loadLiveTrigger publishSubjectFire drop_window]. unfold exec at 1. rewrite Hv, Hw, bool_decide_eq_true_2 by done.
  cbn -[exec loadLiveTrigger publishSubjectFire drop_window]. rewrite run_io_bind.
  assert (run_prog h w (loadLiveTrigger (tg_ID def)) = (w, Ret (Some def))) as ->.
  { unfold loadLiveTrigger, io_of, mbind, io_mbind. rewrite Hid. cbn. rewrite Hg. cbn. by rewrite Hl. }
  assert (empty_str (tg_WorkflowID def) = false) as Hwf.
  { unfold live_def in Hl. rewrite !andb_true_iff, !negb_true_iff in Hl. apply Hl. }
  unfold publishSubjectFire, io_of, mbind, io_mbind. rewrite Hid, Hwf. cbn. by rewrite Hv.
Qed.

(** ** Handlers at once *)

(** What may run at once: messages and timers. *)
Inductive deb_client : Type :=
  | ClientMessage (now : Time) (def : TriggerDef) (msg : option raw)
  | ClientTimer (tm : debounce_timer) (seq : nat).

Definition deb_program (c : deb_client) : io debE unit :=
  match c with
  | ClientMessage now def msg => handleMessage fmt_float now def msg
  | ClientTimer tm seq => HandleTimerFire tm seq
  end.
End Spec.
