(* ===== verification/DagTheorems.v ===== *)
(** * Properties of the [dag] package

    The theorems about validation, graph resolution, conditions, planner
    fragments, cron expressions, schemas, retries, version keys and labels,
    each with a concrete instance where it has hypotheses.  The proofs are
    corollaries of the lemmas of the component files. *)

From S2P Require Import Prelude Float64 Json Types Config Graph Depth Condition Resolve GoTime Cron Schema Validate ValidateSpec ValidateSafety Dynamic Retry Keys Respond.
From stdpp Require Import relations.
From Stdlib Require Import Ascii.

#[local] Open Scope Z_scope.

(** ** A sample workflow *)

(** [fetch] feeds [parse] and [scan], which feed [store]. *)
Definition sample_steps : list StepDef :=
  [step_def "fetch" "io.fetch" StepTypeNormal;
   sd_set_DependsOn ["fetch"] (step_def "parse" "text.parse" StepTypeNormal);
   sd_set_DependsOn ["fetch"] (step_def "scan" "text.scan" StepTypeNormal);
   sd_set_DependsOn ["parse"; "scan"] (step_def "store" "io.store" StepTypeNormal)].

Definition sample_def : WorkflowDef := workflow_def "ingest" sample_steps.

(** A time zone database with UTC alone. *)
Definition only_utc (name : string) : outcome Location :=
  if bool_decide (name = "UTC") then Ret UTC else Err (Errorf "unknown time zone %s" [AStr name]).

Ltac decide_closed := apply (bool_decide_eq_true_1 _); vm_compute; reflexivity.

Lemma sample_nodup : NoDup (ids_of sample_steps).
Proof. decide_closed. Qed.

Lemma sample_deps : deps_exist sample_steps.
Proof.
  intros d id Hin. unfold sample_steps, ids_of in *. cbn in Hin |- *. set_solver.
Qed.

Lemma sample_acyclic : acyclic (edges sample_steps).
Proof.
  apply (detectCycle_iff (λ l, l) sample_steps); [done|apply sample_nodup|apply sample_deps|].
  vm_compute. reflexivity.
Qed.

(** ** Validation *)



(** The table of rules that docs/site/content/docs/reference/workflow-schema.md
    says [Validate] enforces has three that it does not: every step has a task
    (rule 4: steps of the types that run no task carry none), the configuration
    of a respond step parses (rule 10), and a skip condition names a dependency
    (rule 11: not on a step without a task). *)
Theorem documented_rules_not_enforced :
  let reply := step_def "reply" "" StepTypeRespond in
  let skipped := sd_set_SkipIf (Some (MkParentCond "nobody" "f" "==" JNull)) reply in
  sd_Task reply = "" ∧ is_ret (ParseRespondConfig reply) = false ∧
  pc_StepID <$> sd_SkipIf skipped = Some "nobody" ∧ sd_DependsOn skipped = [] ∧
  Validate only_utc (λ l, l) (λ l, l) (workflow_def "answer" [reply]) = Ret tt ∧
  Validate only_utc (λ l, l) (λ l, l) (workflow_def "answer" [skipped]) = Ret tt.
Proof. split_and!; vm_compute; reflexivity. Qed.

(** On any definition whose steps set at most one kind of rate limit,
    [Validate] reports an error instead of panicking, provided the time zone
    database does not panic. *)
Theorem validate_safe (LoadLocation : string → outcome Location)
    (perm : list string → list string) (rule_order : list Z → list Z) (def : WorkflowDef) :
  (∀ z, is_panic (LoadLocation z) = false) → (∀ l, perm l ≡ₚ l) →
  (∀ s, s ∈ wd_Steps def → one_rate_limit s = true) →
  is_panic (Validate LoadLocation perm rule_order def) = false.
Proof. apply Validate_no_panic. Qed.

Lemma validate_safe_witness :
  is_panic (Validate only_utc (λ l, l) (λ l, l)
    (workflow_def "broken" (sample_steps ++ sample_steps))) = false.
Proof.
  apply validate_safe.
  - intros z. unfold only_utc. by destruct (bool_decide _).
  - reflexivity.
  - intros s Hs. unfold sample_steps in Hs. cbn in Hs. set_solver.
Defined.

(** ** Graphs *)

(** On steps with unique IDs and existing dependencies, [detectCycle]
    succeeds exactly when the dependency relation has no cycle, for every
    iteration order of the map of in-degrees. *)
Theorem detectCycle_acyclic (perm : list string → list string) (steps : list StepDef) :
  (∀ l, perm l ≡ₚ l) → NoDup (ids_of steps) → deps_exist steps →
  detectCycle perm steps = Ret tt ↔ acyclic (edges steps).
Proof. apply detectCycle_iff. Qed.

Lemma detectCycle_acyclic_witness :
  ¬ acyclic (edges [sd_set_DependsOn ["b"] (step_def "a" "t" StepTypeNormal);
                    sd_set_DependsOn ["a"] (step_def "b" "t" StepTypeNormal)]).
Proof.
  intros Hac. apply (detectCycle_acyclic reverse) in Hac.
  - vm_compute in Hac. discriminate.
  - intros l. apply reverse_Permutation.
  - decide_closed.
  - intros d id Hin. unfold ids_of. cbn in Hin |- *. set_solver.
Defined.

(** A step list that [detectCycle] accepts can be put in an order in which
    every step comes after all its dependencies. *)
Theorem detectCycle_topological (perm : list string → list string) (steps : list StepDef) :
  (∀ l, perm l ≡ₚ l) → NoDup (ids_of steps) → detectCycle perm steps = Ret tt →
  ∃ l, topological_order steps l.
Proof. apply detectCycle_order. Qed.

Lemma detectCycle_topological_witness : ∃ l, topological_order sample_steps l.
Proof.
  apply (detectCycle_topological (λ l, l)); [reflexivity|decide_closed|vm_compute; reflexivity].
Defined.

(** For a validated graph, [maxChainDepth] returns the length of the longest
    dependency chain. *)
Theorem maxChainDepth_is_longest (perm : list string → list string) (steps : list StepDef) :
  (∀ l, perm l ≡ₚ l) → steps ≠ [] → Z.of_nat (length steps) ≤ 10000 →
  NoDup (ids_of steps) → deps_exist steps → acyclic (edges steps) →
  ∃ n, maxChainDepth perm steps = Ret n ∧ longest_chain steps n.
Proof. apply maxChainDepth_longest. Qed.

Lemma maxChainDepth_is_longest_witness :
  ∃ n, maxChainDepth (λ l, l) sample_steps = Ret n ∧ longest_chain sample_steps n.
Proof.
  apply (maxChainDepth_is_longest (λ l, l) sample_steps);
    [reflexivity|discriminate|vm_compute; discriminate|decide_closed|apply sample_deps
    |apply sample_acyclic].
Defined.

(** The ancestors computed for the respond-step check are exactly the steps
    from which the given step can be reached. *)
Theorem ancestors_reachable (steps : list StepDef) (start : string) :
  NoDup (ids_of steps) →
  ∃ v, ancestorClosure (byID steps) start = Ret v ∧ ∀ x, x ∈ v ↔ ancestor steps x start.
Proof. apply ancestorClosure_reach. Qed.

Lemma ancestors_reachable_witness :
  ∃ v, ancestorClosure (byID sample_steps) "store" = Ret v ∧
       ∀ x, x ∈ v ↔ ancestor sample_steps x "store".
Proof. apply ancestors_reachable. decide_closed. Defined.

(** ** Resolution *)

(** While a run is not complete, some step is ready to start or already in
    flight, whatever was queued: resolution never deadlocks on a graph that
    validation accepts and whose steps do not wait for failure handlers. *)
Theorem resolve_progress (def : WorkflowDef) (completed queued : gmap string bool) :
  resolvable def → IsComplete def completed = false →
  (∃ s, s ∈ ResolveReady def completed queued) ∨
  (∃ s, s ∈ wd_Steps def ∧ is_set completed (sd_ID s) = false ∧ is_set queued (sd_ID s) = true).
Proof. apply resolve_no_deadlock. Qed.

Lemma sample_resolvable : resolvable sample_def.
Proof.
  split; [apply sample_nodup|apply sample_deps|apply sample_acyclic|].
  intros s d _ _. reflexivity.
Qed.

Lemma resolve_progress_witness :
  (∃ s, s ∈ ResolveReady sample_def (set_of ["fetch"]) (set_of ["fetch"; "parse"])) ∨
  (∃ s, s ∈ wd_Steps sample_def ∧ is_set (set_of ["fetch"]) (sd_ID s) = false ∧
        is_set (set_of ["fetch"; "parse"]) (sd_ID s) = true).
Proof. apply resolve_progress; [apply sample_resolvable|vm_compute; reflexivity]. Defined.

(** A step with several dependencies receives one JSON object that maps
    each dependency to the output it stored, and nothing else under that name. *)
Theorem fan_in_input (step : StepDef) (steps : gmap string StepState)
    (runInput : list (option raw)) (d1 d2 : string) (deps : list string) :
  sd_DependsOn step = d1 :: d2 :: deps →
  (∀ d, d ∈ sd_DependsOn step → is_Some (output_json (step_at steps d))) →
  ∃ fs, ResolveInput step steps runInput = Ret (Some (RawJson (JObj fs))) ∧
    ∀ d, d ∈ sd_DependsOn step → obj_get d fs = output_json (step_at steps d).
Proof. apply ResolveInput_fan_in. Qed.

Definition sample_outputs : gmap string StepState :=
  <["parse" := ss_set_Output (Some (RawJson (JStr "tree"))) (step_state StepStatusCompleted)]>
    {["scan" := ss_set_Output (Some (RawJson (JBool true))) (step_state StepStatusCompleted)]}.

Lemma fan_in_input_witness :
  ∃ fs, ResolveInput (sd_set_DependsOn ["parse"; "scan"] (step_def "store" "io.store" StepTypeNormal))
          sample_outputs [None] = Ret (Some (RawJson (JObj fs))) ∧
    ∀ d, d ∈ ["parse"; "scan"] → obj_get d fs = output_json (step_at sample_outputs d).
Proof.
  apply (fan_in_input (sd_set_DependsOn ["parse"; "scan"]
    (step_def "store" "io.store" StepTypeNormal)) sample_outputs [None] "parse" "scan" []).
  - reflexivity.
  - intros d Hd. apply elem_of_cons in Hd as [->|Hd]; [by eexists|].
    apply elem_of_cons in Hd as [->|Hd]; [by eexists|]. by apply elem_of_nil in Hd.
Defined.

(** ** Compensation *)

(** The compensation chain holds the compensate step of every completed
    step that has one, the last completed step of the definition first, and
    each member waits exactly for the one before it. *)
Theorem compensation_chain (def : WorkflowDef) (completed : gmap string bool) (failed : string) :
  (∀ s, s ∈ wd_Steps def → sd_Compensate s ≠ "" → sd_Compensate s ∈ ids_of (wd_Steps def)) →
  NoDup (ids_of (wd_Steps def)) →
  let chain := ResolveCompensateChain def completed failed in
  sd_ID <$> chain = reverse (sd_Compensate <$> compensated def completed) ∧
  (∀ i c, chain !! i = Some c →
     sd_DependsOn c = match i with
                      | O => []
                      | S j => match chain !! j with Some p => [sd_ID p] | None => [] end
                      end).
Proof. apply ResolveCompensateChain_spec. Qed.

(** [reserve], [charge] and [ship] run in a row; each can be undone. *)
Definition saga_steps : list StepDef :=
  [sd_set_Compensate "release" (step_def "reserve" "t" StepTypeNormal);
   sd_set_Compensate "refund" (sd_set_DependsOn ["reserve"] (step_def "charge" "t" StepTypeNormal));
   sd_set_Compensate "recall" (sd_set_DependsOn ["charge"] (step_def "ship" "t" StepTypeNormal));
   sd_set_DependsOn ["ship"] (step_def "notify" "t" StepTypeNormal);
   step_def "release" "t" StepTypeNormal;
   step_def "refund" "t" StepTypeNormal;
   step_def "recall" "t" StepTypeNormal].

Definition saga_def : WorkflowDef := workflow_def "order" saga_steps.
Definition saga_completed : gmap string bool := set_of ["reserve"; "charge"; "ship"].

Lemma saga_targets s :
  s ∈ saga_steps → sd_Compensate s ≠ "" → sd_Compensate s ∈ ids_of saga_steps.
Proof.
  intros Hs. unfold saga_steps in Hs.
  repeat (apply elem_of_cons in Hs as [->|Hs];
    [intros Hc; first [by destruct Hc|decide_closed]|]).
  by apply elem_of_nil in Hs.
Qed.

Lemma compensation_chain_witness :
  sd_ID <$> ResolveCompensateChain saga_def saga_completed "notify" =
  ["recall"; "refund"; "release"].
Proof.
  destruct (compensation_chain saga_def saga_completed "notify") as [Hids _];
    [apply saga_targets|decide_closed|]. rewrite Hids. vm_compute. reflexivity.
Defined.

(** When the steps are listed in dependency order, a step is compensated
    before every step it depended on. *)
Theorem compensation_dependency_order (def : WorkflowDef) (completed : gmap string bool)
    (failed : string) (a b : StepDef) :
  NoDup (ids_of (wd_Steps def)) → listed_in_order (wd_Steps def) →
  (∀ s, s ∈ wd_Steps def → sd_Compensate s ≠ "" → sd_Compensate s ∈ ids_of (wd_Steps def)) →
  a ∈ compensated def completed → b ∈ compensated def completed →
  tc (depends (edges (wd_Steps def))) (sd_ID a) (sd_ID b) →
  ∃ i j, (i < j)%nat ∧
    (sd_ID <$> ResolveCompensateChain def completed failed) !! i = Some (sd_Compensate b) ∧
    (sd_ID <$> ResolveCompensateChain def completed failed) !! j = Some (sd_Compensate a).
Proof. apply compensation_order. Qed.

Lemma saga_listed : listed_in_order saga_steps.
Proof.
  intros i s Hi d Hd.
  do 7 (destruct i as [|i];
    [cbn in Hi; simplify_eq; cbn in Hd; first
      [by apply elem_of_nil in Hd
      |apply list_elem_of_singleton in Hd as ->; first [by exists 0%nat; eexists; split; [lia|]|by exists 1%nat; eexists; split; [lia|]
             |by exists 2%nat; eexists; split; [lia|]]]|]).
  done.
Qed.

Lemma compensation_dependency_order_witness :
  ∃ i j, (i < j)%nat ∧
    (sd_ID <$> ResolveCompensateChain saga_def saga_completed "notify") !! i = Some "recall" ∧
    (sd_ID <$> ResolveCompensateChain saga_def saga_completed "notify") !! j = Some "release".
Proof.
  apply (compensation_dependency_order saga_def saga_completed "notify"
    (sd_set_Compensate "release" (step_def "reserve" "t" StepTypeNormal))
    (sd_set_Compensate "recall"
      (sd_set_DependsOn ["charge"] (step_def "ship" "t" StepTypeNormal)))).
  - decide_closed.
  - apply saga_listed.
  - apply saga_targets.
  - vm_compute. left.
  - vm_compute. do 2 right. left.
  - apply (tc_l _ _ "charge"); [|apply tc_once]; unfold depends; vm_compute; set_solver.
Defined.

(** With distinct compensate steps, the chain run as a workflow of its own
    starts one step at a time, in order. *)
Theorem compensation_sequential (name : string) (def : WorkflowDef)
    (completed : gmap string bool) (failed : string) (k : nat) (c : StepDef) :
  (∀ s, s ∈ wd_Steps def → sd_Compensate s ≠ "" → sd_Compensate s ∈ ids_of (wd_Steps def)) →
  NoDup (ids_of (wd_Steps def)) → NoDup (sd_Compensate <$> compensated def completed) →
  let chain := ResolveCompensateChain def completed failed in
  chain !! k = Some c →
  ∀ s, s ∈ ResolveReady (workflow_def name chain) (set_of (ids_of (take k chain))) ∅ ↔ s = c.
Proof.
  intros Ht Hnd Hc chain Hk.
  destruct (ResolveCompensateChain_spec def completed failed Ht Hnd) as [Hids Hdeps].
  apply chain_sequential; [|done|done].
  unfold ids_of, chain. rewrite Hids. by rewrite reverse_Permutation.
Qed.

Lemma compensation_sequential_witness :
  ∃ c, sd_ID c = "refund" ∧
  ∀ s, s ∈ ResolveReady
         (workflow_def "undo" (ResolveCompensateChain saga_def saga_completed "notify"))
         (set_of (ids_of (take 1 (ResolveCompensateChain saga_def saga_completed "notify")))) ∅
       ↔ s = c.
Proof.
  exists (sd_set_DependsOn ["recall"] (step_def "refund" "t" StepTypeNormal)).
  split; [reflexivity|].
  apply (compensation_sequential "undo" saga_def saga_completed "notify" 1);
    [apply saga_targets|decide_closed|decide_closed|vm_compute; reflexivity].
Defined.

(** ** Conditions *)

(** A skip condition is true exactly when the field it names is present in
    the stored output of its step, the operator applies to that kind of value,
    the two values are comparable, and the comparison has the operator's
    outcome. *)
Theorem skip_condition (c : ParentCond) (steps : gmap string StepState) :
  Evaluate (Some c) steps = true ↔
  ∃ fieldVal v, cond_field c steps = Some fieldVal ∧ op_applies (pc_Op c) fieldVal = true ∧
    json_compare fieldVal (pc_Value c) = Some v ∧ op_holds (pc_Op c) v = true.
Proof. apply Evaluate_iff. Qed.

(** On comparable values an operator and its negation (equal and different,
    less and not less, greater and not greater) give opposite answers. *)
Theorem comparison_complement (a : json) (op : string) (b : json) :
  is_Some (json_compare a b) → op_applies op a = true →
  compareValues a (negated_op op) b = negb (compareValues a op b).
Proof. apply compareValues_complement. Qed.

Lemma comparison_complement_witness :
  compareValues (JStr "b") (negated_op "<") (JStr "a") =
  negb (compareValues (JStr "b") "<" (JStr "a")).
Proof. apply comparison_complement; [vm_compute; by eexists|vm_compute; reflexivity]. Defined.

(** ** Planner fragments *)

Definition sample_planner : StepDef :=
  sd_set_DependsOn ["store"] (step_def "plan" "ai.plan" StepTypePlanner).
Definition sample_planner_cfg : PlannerConfig := MkPlannerConfig 10 3 ["ai.do"].
Definition sample_fragment : list StepDef :=
  [step_def "one" "ai.do" StepTypeNormal;
   sd_set_DependsOn ["one"] (step_def "two" "ai.do" StepTypeNormal)].
Definition planned_def : WorkflowDef := workflow_def "ingest" (sample_steps ++ [sample_planner]).
Definition sample_run : WorkflowRun := {|
  wr_RunID := "run-1"; wr_WorkflowID := "ingest"; wr_Status := RunStatusRunning;
  wr_Steps := ∅; wr_Input := None; wr_CreatedAt := 0; wr_DynamicSteps := [];
  wr_ParentRunID := ""; wr_RootRunID := ""; wr_ParentStepID := ""; wr_Deadline := None;
  wr_PriorityOffset := 0; wr_SingletonKey := ""; wr_TraceParent := "";
  wr_CompletedAt := None; wr_Labels := ∅; wr_TriggerDepth := 0;
  wr_ReleasePending := false; wr_ReleaseAttempts := 0; wr_DefHash := "" |}.

(** A planner's fragment is accepted exactly when it is a non-empty,
    size-bounded, acyclic set of new steps with valid and allowed tasks, whose
    dependencies stay inside it and whose chains are no longer than the bound. *)
Theorem fragment_validation (perm : list string → list string) (fragment : list StepDef)
    (cfg : PlannerConfig) (existing : idset) :
  (∀ l, perm l ≡ₚ l) → 0 < pl_MaxSteps cfg ≤ 10000 →
  ValidateFragment perm fragment cfg existing = Ret tt ↔ fragment_ok fragment cfg existing.
Proof. apply ValidateFragment_ok. Qed.

Lemma fragment_validation_witness :
  fragment_ok sample_fragment sample_planner_cfg (set_of ["fetch"; "plan"]).
Proof.
  apply (fragment_validation (λ l, l) sample_fragment sample_planner_cfg);
    [reflexivity|split; vm_compute; congruence|vm_compute; reflexivity].
Defined.

Lemma planned_dag : dag_ok (wd_Steps planned_def).
Proof.
  assert (deps_exist (wd_Steps planned_def)) as Hd.
  { intros d id Hin. unfold ids_of. cbn in Hin |- *. set_solver. }
  assert (NoDup (ids_of (wd_Steps planned_def))) as Hn by decide_closed.
  split; [done|done|]. apply (detectCycle_iff (λ l, l)); [done..|]. vm_compute. reflexivity.
Qed.

(** C39: adding a planned fragment to a workflow keeps it a directed acyclic
    graph with unique step IDs and existing dependencies. *)
Theorem planned_graph_is_dag (perm : list string → list string) (wfDef : WorkflowDef)
    (run : WorkflowRun) (planner : StepDef) (cfg : PlannerConfig) (fragment new : list StepDef) :
  (∀ l, perm l ≡ₚ l) → 0 < pl_MaxSteps cfg ≤ 10000 → dag_ok (wd_Steps wfDef) →
  sd_ID planner ∈ ids_of (wd_Steps wfDef) →
  plan_fragment perm wfDef run planner cfg fragment = Ret new →
  dag_ok (wd_Steps wfDef ++ new).
Proof. apply plan_fragment_dag. Qed.

Definition sample_planned : list StepDef :=
  match plan_fragment (λ l, l) planned_def sample_run sample_planner sample_planner_cfg
          sample_fragment with
  | Ret l => l | _ => [] end.

Lemma planned_graph_is_dag_witness :
  sample_planned ≠ [] ∧ dag_ok (wd_Steps planned_def ++ sample_planned).
Proof.
  split; [vm_compute; discriminate|].
  apply (planned_graph_is_dag (λ l, l) planned_def sample_run sample_planner sample_planner_cfg
    sample_fragment); [reflexivity|split; vm_compute; congruence|apply planned_dag
    |decide_closed|vm_compute; reflexivity].
Defined.

(** The dynamic steps of a run never exceed the total bound, however many
    fragments are planned. *)
Theorem dynamic_steps_bounded (perm : list string → list string) (wfDef : WorkflowDef)
    (run : WorkflowRun) (planner : StepDef) (cfg : PlannerConfig) (fragment new : list StepDef) :
  (∀ l, perm l ≡ₚ l) → 0 < pl_MaxSteps cfg ≤ 10000 →
  plan_fragment perm wfDef run planner cfg fragment = Ret new →
  Z.of_nat (length (wr_DynamicSteps (apply_fragment run new))) ≤ maxTotalDynamicSteps.
Proof. apply plan_fragment_bound. Qed.

Lemma dynamic_steps_bounded_witness :
  Z.of_nat (length (wr_DynamicSteps (apply_fragment sample_run sample_planned)))
    ≤ maxTotalDynamicSteps.
Proof.
  apply (dynamic_steps_bounded (λ l, l) planned_def sample_run sample_planner sample_planner_cfg
    sample_fragment); [reflexivity|split; vm_compute; congruence|vm_compute; reflexivity].
Defined.

(** ** Cron expressions *)

(** The values a parsed cron field allows within its range are exactly those
    denoted by one of its comma-separated items: a star, a step counted from
    the lower bound, a range, or a number. *)
Theorem cron_field_grammar (field : string) (min max : Z) (vs : list Z) :
  0 ≤ min ≤ 1 → min ≤ max ≤ 59 → parseField field min max = Ret vs →
  vs ≠ [] ∧ ∀ t, min ≤ t ≤ max →
    contains vs t = true ↔ ∃ item, item ∈ split_char "," field ∧ denotes min item t.
Proof. apply parseField_values. Qed.

Lemma cron_field_grammar_witness :
  ∃ item, item ∈ split_char "," "*/20,5-7" ∧ denotes 0 item 40.
Proof.
  destruct (cron_field_grammar "*/20,5-7" 0 59 [0; 20; 40; 5; 6; 7]) as [_ H];
    [split; discriminate|split; discriminate|vm_compute; reflexivity|].
  apply (H 40); [split; discriminate|reflexivity].
Defined.

(** A parsed expression matches an instant exactly when every field allows
    the wall clock reading of its time zone, with the POSIX rule for the two
    day fields: either one suffices when both are restricted. *)
Theorem cron_matches (expr : string) (c : CronExpr) (loc : Location) (t : Time) :
  ParseCron expr = Ret c → t ≠ zero_time →
  ∃ b, Matches c loc t = Ret b ∧ (b = true ↔ expr_allows (Fields expr) loc t).
Proof. apply Matches_allows. Qed.

Definition weekday_mornings : string := "30 9 * * 1-5".

Definition parsed (expr : string) : CronExpr :=
  match ParseCron expr with Ret c => c | _ => MkCronExpr [] [] [] [] [] false false end.

Lemma weekday_mornings_parses : ParseCron weekday_mornings = Ret (parsed weekday_mornings).
Proof. vm_compute. reflexivity. Qed.

Lemma cron_matches_witness :
  ∃ b, Matches (parsed weekday_mornings) UTC 0 = Ret b ∧
       (b = true ↔ expr_allows (Fields weekday_mornings) UTC 0).
Proof. apply cron_matches; [apply weekday_mornings_parses|discriminate]. Defined.

(** [NextN] returns, in order, the first [n] whole minutes after the reference
    instant that the expression allows, within the scan horizon. *)
Theorem cron_next_minutes (expr : string) (c : CronExpr) (loc : Location) (ref n : Z) :
  ParseCron expr = Ret c → zero_time < ref → 0 ≤ n →
  ∃ l, NextN c loc ref n = Ret l ∧
    first_minutes (expr_allows (Fields expr) loc) ref (Z.to_nat n) l.
Proof. apply NextN_first. Qed.

Lemma cron_next_minutes_witness :
  ∃ l, NextN (parsed weekday_mornings) UTC 0 3 = Ret l ∧
    first_minutes (expr_allows (Fields weekday_mornings) UTC) 0 3 l.
Proof.
  apply (cron_next_minutes weekday_mornings);
    [apply weekday_mornings_parses|vm_compute; reflexivity|discriminate].
Defined.

(** Parsing a cron expression never panics, on any text. *)
Theorem cron_parse_safe (expr : string) : is_panic (ParseCron expr) = false.
Proof. apply ParseCron_no_panic. Qed.

(** ** Schemas *)

(** Schema validation accepts a value exactly when it conforms: it has the
    node's type, an object has every required field, and every property that
    is present conforms to its own schema, to any depth. *)
Theorem schema_validation (s : schemaNode) (value : json) (path : string) :
  validateNode s value path = Ret tt ↔ conforms s value.
Proof. apply validateNode_conforms. Qed.

(** ** Retries *)

(** The retry delay is the strategy's delay, capped by the maximum when there
    is one; the linear delay is the initial delay times the attempt as long as
    that fits in a duration. *)
Theorem retry_delay (oob : f64 → Z) (policy : RetryPolicy) (attempt : Z) :
  1 ≤ attempt →
  CalculateDelay oob policy attempt =
    Ret (if 0 <? rp_MaxDelay policy
         then raw_delay oob policy attempt `min` rp_MaxDelay policy
         else raw_delay oob policy attempt) ∧
  (rp_Strategy policy = RetryLinear → 0 ≤ rp_InitialDelay policy →
   rp_InitialDelay policy * attempt ≤ int64_max →
   raw_delay oob policy attempt = rp_InitialDelay policy * attempt).
Proof.
  intros Ha. split; [by apply CalculateDelay_eq|]. intros. by apply linear_delay_exact.
Qed.

Lemma retry_delay_witness :
  CalculateDelay (λ _, 0) (MkRetryPolicy 5 RetryLinear Second (10 * Second) (f64_of_Z 0)) 20 =
  Ret (10 * Second).
Proof.
  destruct (retry_delay (λ _, 0)
    (MkRetryPolicy 5 RetryLinear Second (10 * Second) (f64_of_Z 0)) 20) as [H1 H2];
    [discriminate|]. rewrite H1, H2; [reflexivity|reflexivity|discriminate|].
  vm_compute. discriminate.
Defined.

(** The exponential delay is not bounded by the maximum delay: with the
    default factor, a one second initial delay and a one minute maximum, the
    36th attempt computes a value beyond the range of a duration; where the
    conversion yields a negative number, as on amd64, the cap does not apply
    and the delay is negative. *)
Theorem exponential_delay_overflow (oob : f64 → Z) :
  oob (f64_of_Z (Second * 2 ^ 35)) < 0 →
  policy_ok overflowing_policy ∧
  ∃ d, CalculateDelay oob overflowing_policy 36 = Ret d ∧ d < 0.
Proof. apply exponential_overflow. Qed.

Lemma exponential_delay_overflow_witness :
  ∃ d, CalculateDelay (λ _, int64_min) overflowing_policy 36 = Ret d ∧ d < 0.
Proof. apply exponential_delay_overflow. vm_compute. reflexivity. Defined.

(** ** Version keys and labels *)

(** Reading the hash back from a version key returns it exactly for the keys
    that were built from the name and a valid hash. *)
Theorem version_key_roundtrip (key name hash : string) :
  name ≠ "" →
  DefHashFromVersionKey key name = Ret (Some hash) ↔
  hex64 hash = true ∧ DefVersionKey name hash = Ret key.
Proof. apply DefHashFromVersionKey_iff. Qed.

Definition sample_hash : string :=
  "0123456789abcdef0123456789abcdef0123456789abcdef0123456789abcdef".

Lemma version_key_roundtrip_witness :
  DefHashFromVersionKey ("ingest.v." +:+ sample_hash) "ingest" = Ret (Some sample_hash).
Proof.
  apply version_key_roundtrip; [discriminate|]. split; vm_compute; reflexivity.
Defined.

(** Version keys are recognised as such, and two version keys are equal only
    when their names and hashes are. *)
Theorem version_key_unique (n1 n2 h1 h2 key : string) :
  hex64 h1 = true → hex64 h2 = true → DefVersionKey n1 h1 = Ret key →
  IsDefVersionKey key = true ∧ (DefVersionKey n2 h2 = Ret key → n1 = n2 ∧ h1 = h2).
Proof.
  intros H1 H2 Hk. split; [by apply (version_key_shape n1 h1)|]. intros Hk2.
  exact (DefVersionKey_inj n1 n2 h1 h2 key H1 H2 Hk Hk2).
Qed.

Lemma version_key_unique_witness : IsDefVersionKey ("ingest.v." +:+ sample_hash) = true.
Proof.
  apply (version_key_unique "ingest" "ingest" sample_hash sample_hash); vm_compute; reflexivity.
Defined.

(** Label validation accepts exactly the maps within the count bound whose
    keys and values satisfy the syntax and length rules, and a bounded label
    filter selects the runs whose labels, read as empty when absent, equal the
    wanted ones. *)
Theorem labels_validation (labels want : gmap string string) :
  (ValidateLabels labels = Ret tt ↔
   Z.of_nat (size labels) ≤ LabelsCountMax ∧ ∀ k v, labels !! k = Some v → label_ok k v) ∧
  (Z.of_nat (size want) ≤ LabelsCountMax → Z.of_nat (size labels) ≤ LabelsCountMax →
   ∃ b, LabelsMatch want labels = Ret b ∧
     (b = true ↔ ∀ k v, want !! k = Some v → default "" (labels !! k) = v)).
Proof. split; [apply ValidateLabels_ok|apply LabelsMatch_spec]. Qed.

Lemma labels_validation_witness :
  LabelsMatch {["tenant" := "acme"]} {["tenant" := "acme"; "env" := "prod"]} = Ret true.
Proof.
  destruct (labels_validation {["tenant" := "acme"; "env" := "prod"]} {["tenant" := "acme"]})
    as [_ H]. destruct H as (b & Hb & Hiff); [vm_compute; discriminate..|].
  rewrite Hb. f_equal. apply Hiff. intros k v Hk.
  apply lookup_singleton_Some in Hk as [<- <-]. vm_compute. reflexivity.
Defined.
