(* ===== verification/EngineTheorems.v ===== *)
(** * Properties of the engine

    The theorems about runs under the engine, the pure core, the event fence,
    recovery and termination, each with a concrete instance where it has
    hypotheses.  The first group starts from [Validate]: every definition it
    accepts that uses no failure handler, compensation or respond step is
    executed in dependency order, within its step limit, and never stalls. *)

From S2P Require Import Prelude Float64 Json Types Config Graph Condition Resolve GoTime Schema Validate ValidateSpec Advance Dispatch Fence Recovery Handlers Engine.
From stdpp Require Import relations.

#[local] Open Scope Z_scope.

(** ** A sample run *)

(** [ship] waits for [compile] and [lint]; one step runs at a time. *)
Definition pipe_steps : list StepDef :=
  [step_def "compile" "ci.compile" StepTypeNormal;
   step_def "lint" "ci.lint" StepTypeNormal;
   sd_set_DependsOn ["compile"; "lint"] (step_def "ship" "ci.ship" StepTypeNormal)].

Definition pipe_def : WorkflowDef := {|
  wd_Name := "pipeline"; wd_Version := "1"; wd_Steps := pipe_steps; wd_DefaultRetry := None;
  wd_Concurrency := Some (MkConcurrencyLimit 0 1); wd_Timeout := 0; wd_InputSchema := None;
  wd_OutputSchema := None; wd_AuxSteps := ∅; wd_IdempotencyKey := "";
  wd_Sticky := StickyNone; wd_Priority := None; wd_CancelOn := []; wd_Singleton := None |}.

Definition fresh_run (def : WorkflowDef) : WorkflowRun := {|
  wr_RunID := "run-1"; wr_WorkflowID := wd_Name def; wr_Status := RunStatusRunning;
  wr_Steps := foldl (λ m step, <[sd_ID step := step_state StepStatusPending]> m) ∅ (wd_Steps def);
  wr_Input := None; wr_CreatedAt := 0; wr_DynamicSteps := [];
  wr_ParentRunID := ""; wr_RootRunID := ""; wr_ParentStepID := ""; wr_Deadline := None;
  wr_PriorityOffset := 0; wr_SingletonKey := ""; wr_TraceParent := "";
  wr_CompletedAt := None; wr_Labels := ∅; wr_TriggerDepth := 0;
  wr_ReleasePending := false; wr_ReleaseAttempts := 0; wr_DefHash := "" |}.

Definition sample_id (k : nat) : string := String.String (Ascii.ascii_of_nat (97 + k mod 26)) "".
Definition sample_clock (k : nat) : Time := Z.of_nat k.

Definition pipe_started : WorkflowRun :=
  match enqueueReady sample_id sample_clock pipe_def (fresh_run pipe_def) with
  | Ret (r, _) => r
  | _ => fresh_run pipe_def
  end.

(** The worker's report on a step dispatched with nonce ["a"]. *)
Definition done_event (id : string) : protocol.Event := {|
  protocol.Type_ := protocol.EventStepCompleted; protocol.RunID := "run-1";
  protocol.StepID := id; protocol.Timestamp := 5;
  protocol.Payload := Some (RawJson (JStr "ok")); protocol.TraceParent := "";
  protocol.TraceState := ""; protocol.WorkerID := "w1"; protocol.AttemptNumber := 1;
  protocol.Iteration := Some 0; protocol.DispatchNonce := "a"; protocol.JournalSeq := 0;
  protocol.InputRequestID := "" |}.

(** The persisted run after the step [id] of [run] is reported done. *)
Definition after_done (def : WorkflowDef) (run : WorkflowRun) (id : string) : WorkflowRun :=
  match handleStepCompleted sample_id sample_clock false def run (done_event id) with
  | Ret (CompletedSave saved) =>
      match enqueueReady sample_id sample_clock def saved with
      | Ret (r, PassDispatch _) => r
      | _ => saved
      end
  | Ret (CompletedRun r) =>
      match finalizeRun (sample_clock 0) r RunStatusCompleted with
      | Ret (Some r') => r'
      | _ => run
      end
  | _ => run
  end.

Definition pipe_next : WorkflowRun := after_done pipe_def pipe_started "compile".
Definition pipe_last : WorkflowRun := after_done pipe_def pipe_next "lint".
Definition pipe_end : WorkflowRun := after_done pipe_def pipe_last "ship".

Lemma sample_id_ne k : sample_id k ≠ "".
Proof. discriminate. Qed.

Lemma sample_clock_ok k : IsZero (sample_clock k) = false.
Proof. unfold IsZero, sample_clock. apply Z.eqb_neq. unfold zero_time, Second, Millisecond. lia. Qed.

Lemma fresh_run_pending def id :
  step_at (wr_Steps (fresh_run def)) id = step_state StepStatusPending.
Proof.
  unfold step_at, fresh_run. cbn [wr_Steps]. rewrite new_steps_lookup.
  by destruct (bool_decide _).
Qed.

Lemma pipe_started_ok : engine_start pipe_def pipe_started.
Proof.
  apply (engine_start_dispatch pipe_def sample_id sample_clock (fresh_run pipe_def) pipe_started
    [step_def "compile" "ci.compile" StepTypeNormal]); [done..|apply fresh_run_pending|apply sample_id_ne
    |apply sample_clock_ok|vm_compute; reflexivity].
Qed.

Lemma done_payload id : payload_ok (protocol.Payload (done_event id)).
Proof. intros r [= <-]. eauto. Qed.

Lemma pass_step def run id saved r ready :
  handleStepCompleted sample_id sample_clock false def run (done_event id)
    = Ret (CompletedSave saved) →
  enqueueReady sample_id sample_clock def saved = Ret (r, PassDispatch ready) →
  engine_step def run r.
Proof.
  intros H Hp. eapply (engine_completed def run sample_id sample_clock (done_event id));
    [apply done_payload|reflexivity|exact H|].
  eapply saved_pass; [exact Hp|apply saved_dispatch].
Qed.

Lemma complete_step def run id r r' :
  handleStepCompleted sample_id sample_clock false def run (done_event id)
    = Ret (CompletedRun r) →
  finalizeRun (sample_clock 0) r RunStatusCompleted = Ret (Some r') → engine_step def run r'.
Proof.
  intros H Hf. eapply (engine_completed def run sample_id sample_clock (done_event id));
    [apply done_payload|reflexivity|exact H|by apply saved_complete].
Qed.

Lemma pipe_next_reachable : reachable pipe_def pipe_next.
Proof.
  exists pipe_started. split; [apply pipe_started_ok|]. apply rtc_once.
  eapply (pass_step pipe_def pipe_started "compile").
  1: (vm_compute; reflexivity).
  vm_compute. reflexivity.
Qed.

Lemma reachable_step def run run' : reachable def run → engine_step def run run' → reachable def run'.
Proof. intros (r0 & H0 & Hs) Hstep. exists r0. split; [done|]. by eapply rtc_r. Qed.

Lemma pipe_last_reachable : reachable pipe_def pipe_last.
Proof.
  apply (reachable_step _ pipe_next); [apply pipe_next_reachable|].
  eapply (pass_step pipe_def pipe_next "lint").
  1: (vm_compute; reflexivity).
  vm_compute. reflexivity.
Qed.

Lemma pipe_end_reachable : reachable pipe_def pipe_end.
Proof.
  apply (reachable_step _ pipe_last); [apply pipe_last_reachable|].
  eapply (complete_step pipe_def pipe_last "ship").
  1: (vm_compute; reflexivity).
  vm_compute. reflexivity.
Qed.

Definition utc_only (name : string) : outcome Location :=
  if bool_decide (name = "UTC") then Ret UTC else Err (Errorf "unknown time zone %s" [AStr name]).

Lemma pipe_valid : Validate utc_only (λ l, l) (λ l, l) pipe_def = Ret tt.
Proof. vm_compute. reflexivity. Qed.

Lemma pipe_no_recovery : no_recovery pipe_def.
Proof.
  split; [split; [reflexivity|]|]; intros s Hs; unfold pipe_def, pipe_steps in Hs;
    cbn [wd_Steps] in Hs; repeat (apply elem_of_cons in Hs as [->|Hs]; [done|]);
    by apply elem_of_nil in Hs.
Qed.

(** ** Validated workflows under the engine *)

Section Validated.
Context (LoadLocation : string → outcome Location).
Context (perm : list string → list string) (rule_order : list Z → list Z).
Context (def : WorkflowDef).
Context (Hperm : ∀ l, perm l ≡ₚ l) (Hrule : ∀ l, rule_order l ≡ₚ l).
Context (Hvalid : Validate LoadLocation perm rule_order def = Ret tt).
Context (Hrec : no_recovery def).

Lemma validated_inv run : reachable def run → run_inv def run.
Proof.
  destruct Hrec as [Hh Hresp], (validated_plain LoadLocation def) as [Hp Hl];
    [by apply (Validate_wf LoadLocation perm rule_order)|done|by apply reachable_inv].
Qed.

(** In every state a run of a validated workflow can reach, under any order
    and repetition of worker events, a step that has left the pending state
    has every dependency completed or skipped. *)
Theorem engine_causality (run : WorkflowRun) (s : StepDef) (d : string) :
  reachable def run → s ∈ wd_Steps def → d ∈ sd_DependsOn s →
  status_of (wr_Steps run) (sd_ID s) ≠ StepStatusPending →
  status_of (wr_Steps run) d = StepStatusCompleted ∨
  status_of (wr_Steps run) d = StepStatusSkipped.
Proof.
  intros Hr Hs Hd Hst. pose proof (ri_steps _ _ (validated_inv run Hr)) as [Hc Hl _ _].
  pose proof (Hc s d Hs Hst Hd) as Hres. destruct (Hl d) as [_ Hn]. revert Hres Hn.
  destruct (status_of (wr_Steps run) d); cbn; auto; done.
Qed.


(** A run of a validated workflow with a step limit never has more steps
    queued or running than the limit. *)
Theorem engine_step_limit (run : WorkflowRun) (c : ConcurrencyLimit) :
  reachable def run → wd_Concurrency def = Some c → 0 < cl_MaxSteps c →
  countActiveSteps run ≤ cl_MaxSteps c.
Proof.
  intros Hr Hc Hpos. apply (ri_cap _ _ (validated_inv run Hr)).
  unfold step_limit. by rewrite Hc, (proj2 (Z.ltb_lt _ _) Hpos).
Qed.

(** A run of a validated workflow that is marked completed has every step
    completed or skipped. *)
Theorem engine_completion_sound (run : WorkflowRun) (s : StepDef) :
  reachable def run → wr_Status run = RunStatusCompleted → s ∈ wd_Steps def →
  status_of (wr_Steps run) (sd_ID s) = StepStatusCompleted ∨
  status_of (wr_Steps run) (sd_ID s) = StepStatusSkipped.
Proof.
  intros Hr Hst Hs. pose proof (validated_inv run Hr) as Hinv.
  destruct Hrec as [Hh _], (validated_plain LoadLocation def) as [Hp _];
    [by apply (Validate_wf LoadLocation perm rule_order)|done|].
  pose proof (ri_done _ _ Hinv Hst s Hs (pl_aux _ Hp _)) as Hres.
  destruct (si_live _ _ (ri_steps _ _ Hinv) (sd_ID s)) as [_ Hn]. revert Hres Hn.
  destruct (status_of (wr_Steps run) (sd_ID s)); cbn; auto; done.
Qed.

End Validated.

Lemma engine_causality_witness :
  status_of (wr_Steps pipe_last) "compile" = StepStatusCompleted ∨
  status_of (wr_Steps pipe_last) "compile" = StepStatusSkipped.
Proof.
  apply (engine_causality utc_only (λ l, l) (λ l, l) pipe_def (λ l, reflexivity l)
    (λ l, reflexivity l) pipe_valid pipe_no_recovery pipe_last
    (sd_set_DependsOn ["compile"; "lint"] (step_def "ship" "ci.ship" StepTypeNormal)));
    [apply pipe_last_reachable|vm_compute; do 2 right; left|left|vm_compute; discriminate].
Defined.


Lemma engine_step_limit_witness : countActiveSteps pipe_next ≤ 1.
Proof.
  apply (engine_step_limit utc_only (λ l, l) (λ l, l) pipe_def (λ l, reflexivity l)
    (λ l, reflexivity l) pipe_valid pipe_no_recovery pipe_next (MkConcurrencyLimit 0 1));
    [apply pipe_next_reachable|reflexivity|vm_compute; reflexivity].
Defined.

Lemma engine_completion_sound_witness :
  status_of (wr_Steps pipe_end) "lint" = StepStatusCompleted ∨
  status_of (wr_Steps pipe_end) "lint" = StepStatusSkipped.
Proof.
  apply (engine_completion_sound utc_only (λ l, l) (λ l, l) pipe_def (λ l, reflexivity l)
    (λ l, reflexivity l) pipe_valid pipe_no_recovery pipe_end
    (step_def "lint" "ci.lint" StepTypeNormal));
    [apply pipe_end_reachable|vm_compute; reflexivity|vm_compute; right; left].
Defined.

Lemma pipe_ordinary id : isMapInstanceID id = false → ordinary pipe_def id.
Proof.
  intros Hid. split; [done|]. intros s Hs _. unfold pipe_def, pipe_steps in Hs.
  cbn [wd_Steps] in Hs.
  repeat (apply elem_of_cons in Hs as [->|Hs]; [done|]). by apply elem_of_nil in Hs.
Qed.


(** ** Events are applied once *)

(** An event is accepted exactly when it names the dispatch the step is on (its
    iteration, with the nonce of a queued step, or the attempt and, when
    given, the nonce of a running one), or carries no identity and such legacy
    events are enabled. *)
Theorem event_acceptance (state : StepState) (evt : protocol.Event) (legacy : bool) :
  step_event evt →
  (∃ reason, acceptStepEvent state evt legacy = Ret (true, reason)) ↔
  (protocol.HasIdentity evt = false ∧ legacy = true) ∨ answers state evt.
Proof. apply accepted_iff. Qed.

Lemma event_acceptance_witness :
  ¬ ∃ reason, acceptStepEvent (step_state StepStatusSkipped) (done_event "lint") false
      = Ret (true, reason).
Proof.
  intros H. apply event_acceptance in H as [[H _]|H]; [discriminate H| |].
  - by apply answers_active in H.
  - split; [discriminate|reflexivity].
Defined.

(** A completion delivered again after its step has left the queued and
    running states is ignored by the handler: nothing is saved or dispatched. *)
Theorem completion_once (new_id : nat → string) (clock : nat → Time) (def : WorkflowDef)
    (run : WorkflowRun) (evt : protocol.Event) :
  wr_RunID run = protocol.RunID evt → protocol.RunID evt ≠ "" → step_event evt →
  IsTerminal (wr_Status run) = false → ordinary def (protocol.StepID evt) →
  active_status (status_of (wr_Steps run) (protocol.StepID evt)) = false →
  handleStepCompleted new_id clock false def run evt = Ret CompletedIgnored.
Proof. apply completion_ignored. Qed.

Lemma completion_once_witness :
  handleStepCompleted sample_id sample_clock false pipe_def pipe_next (done_event "compile")
    = Ret CompletedIgnored.
Proof.
  apply completion_once;
    [reflexivity|discriminate|split; [discriminate|reflexivity]|vm_compute; reflexivity
    |apply pipe_ordinary; reflexivity|vm_compute; reflexivity].
Defined.

Lemma wrap64_succ_ne z : in_int64 z = true → wrap64 (z + 1) ≠ z.
Proof.
  intros Hz. destruct (decide (in_int64 (z + 1) = true)) as [H|H].
  - rewrite wrap64_id by done. lia.
  - assert (z = int64_max) as ->.
    { unfold in_int64, int64_min, int64_max in *. lia. }
    vm_compute. discriminate.
Qed.

(** Once a continue has advanced an agent loop, or failed it at its bound, the
    same event, and every other event of that iteration, is refused. *)
Theorem continue_once (def : WorkflowDef) (run run' : WorkflowRun) (s : StepDef)
    (cfg : AgentLoopConfig) (effects : list SideEffect) (evt : protocol.Event) :
  sd_ID s ≠ "" → findStepInDef def (sd_ID s) = Some s → ParseAgentLoopConfig s = Ret cfg →
  outputs_ok (wr_Steps run) →
  in_int64 (ss_Iterations (step_at (wr_Steps run) (sd_ID s))) = true →
  step_event evt → answers (step_at (wr_Steps run) (sd_ID s)) evt →
  Advance def run (MkEvent EventStepContinue (sd_ID s) None no_failure) = Ret (run', effects) →
  ∃ reason, acceptStepEvent (step_at (wr_Steps run') (sd_ID s)) evt false = Ret (false, reason).
Proof.
  intros Hid Hf Hc Hok Hit Hev Hans Hadv.
  assert (ss_Iterations (step_at (wr_Steps run') (sd_ID s)) ≠
          ss_Iterations (step_at (wr_Steps run) (sd_ID s))) as Hne.
  { destruct (Advance_continue def run s cfg Hid Hf Hc Hok) as [Hlast Hnext].
    unfold no_failure in Hadv. pose proof (wrap64_succ_ne _ Hit) as Hw.
    destruct (decide (0 < al_MaxIterations cfg ≤
      wrap64 (ss_Iterations (step_at (wr_Steps run) (sd_ID s)) + 1))) as [Hb|Hb].
    - rewrite (Hlast Hb) in Hadv. injection Hadv as <- _. unfold set_step.
      rewrite wr_Steps_set_Status, wr_Steps_set_Steps, step_at_insert.
      by destruct (step_at (wr_Steps run) (sd_ID s)).
    - destruct (Hnext Hb) as [input Hn]. rewrite Hn in Hadv. injection Hadv as <- _.
      unfold set_step. by rewrite wr_Steps_set_Steps, step_at_insert, ss_Iterations_set. }
  destruct (acceptStepEvent_rule (step_at (wr_Steps run') (sd_ID s)) evt false Hev) as [r Hr].
  exists r. rewrite Hr. destruct (protocol.HasIdentity evt) eqn:Hi; [|done].
  destruct (accept_rule _ evt) eqn:Ha; [|done]. exfalso.
  apply accept_rule_iff in Ha; [|done]. by eapply answers_iteration.
Qed.

(** An agent loop of at most three iterations, running its first. *)
Definition loop_step : StepDef :=
  sd_set_Config (Some (RawJson (JObj [("max_iterations", JInt 3)])))
    (step_def "think" "ai.think" StepTypeAgentLoop).
Definition loop_def : WorkflowDef := workflow_def "agent" [loop_step].
Definition loop_run : WorkflowRun :=
  set_step "think" (ss_set_Attempts 1 (ss_set_DispatchNonce "a" (step_state StepStatusRunning)))
    (fresh_run loop_def).

(** C40: an agent loop bounded by [m] iterations takes [m - 1] continues and fails,
    with its run, on the [m]-th. *)
Theorem loop_bound (def : WorkflowDef) (s : StepDef) (cfg : AgentLoopConfig) (m : nat)
    (run : WorkflowRun) :
  sd_ID s ≠ "" → findStepInDef def (sd_ID s) = Some s → ParseAgentLoopConfig s = Ret cfg →
  al_MaxIterations cfg = Z.of_nat (S m) → Z.of_nat (S m) ≤ int64_max →
  outputs_ok (wr_Steps run) → wr_Status run = RunStatusRunning →
  ss_Iterations (step_at (wr_Steps run) (sd_ID s)) = 0 →
  ∃ run1 run2, continue_n def (sd_ID s) m run = Ret run1 ∧ wr_Status run1 = RunStatusRunning ∧
    continue_n def (sd_ID s) (S m) run = Ret run2 ∧ wr_Status run2 = RunStatusFailed ∧
    status_of (wr_Steps run2) (sd_ID s) = StepStatusFailed.
Proof.
  intros Hid Hf Hc Hm Hmax Hok Hst Hit.
  apply (continue_n_bound def s cfg (S m)); try done; rewrite Hit; lia.
Qed.

Definition loop_cfg : AgentLoopConfig := MkAgentLoopConfig 3 0 0 0 0.

Lemma loop_run_outputs : outputs_ok (wr_Steps loop_run).
Proof.
  intros id r. unfold loop_run, set_step. rewrite wr_Steps_set_Steps.
  destruct (decide ("think" = id)) as [<-|Hne]; [by rewrite step_at_insert|].
  rewrite step_at_insert_ne by done. by rewrite fresh_run_pending.
Qed.

Lemma loop_bound_witness :
  ∃ run1 run2, continue_n loop_def "think" 2 loop_run = Ret run1 ∧
    wr_Status run1 = RunStatusRunning ∧
    continue_n loop_def "think" 3 loop_run = Ret run2 ∧ wr_Status run2 = RunStatusFailed ∧
    status_of (wr_Steps run2) "think" = StepStatusFailed.
Proof.
  apply (loop_bound loop_def loop_step loop_cfg 2 loop_run);
    [discriminate|reflexivity|vm_compute; reflexivity|reflexivity|vm_compute; discriminate
    |apply loop_run_outputs|reflexivity|vm_compute; reflexivity].
Defined.

Definition continue_event : protocol.Event := {|
  protocol.Type_ := protocol.EventStepContinue; protocol.RunID := "run-1";
  protocol.StepID := "think"; protocol.Timestamp := 5; protocol.Payload := None;
  protocol.TraceParent := ""; protocol.TraceState := ""; protocol.WorkerID := "w1";
  protocol.AttemptNumber := 1; protocol.Iteration := Some 0; protocol.DispatchNonce := "a";
  protocol.JournalSeq := 0; protocol.InputRequestID := "" |}.

Lemma continue_once_witness :
  ∃ run' effects reason,
    Advance loop_def loop_run (MkEvent EventStepContinue "think" None no_failure)
      = Ret (run', effects) ∧
    acceptStepEvent (step_at (wr_Steps run') "think") continue_event false = Ret (false, reason).
Proof.
  destruct (Advance loop_def loop_run (MkEvent EventStepContinue "think" None no_failure))
    as [[run' effects]| |] eqn:Hadv; [|vm_compute in Hadv; discriminate Hadv..].
  destruct (continue_once loop_def loop_run run' loop_step loop_cfg effects continue_event)
    as [reason Hr]; [discriminate|reflexivity|vm_compute; reflexivity|apply loop_run_outputs
      |vm_compute; reflexivity|split; [discriminate|reflexivity]| |exact Hadv|eauto].
  split; [reflexivity|]. split; [reflexivity|]. right.
  split; [reflexivity|]. split; [reflexivity|]. right. reflexivity.
Defined.

(** The deduplication IDs of two identified events of one run, step and type
    are equal exactly when the events answer the same attempt and iteration. *)
Theorem event_ids_distinct (e e' : protocol.Event) :
  protocol.HasIdentity e = true → protocol.HasIdentity e' = true →
  protocol.StepID e ≠ "" → protocol.Type_ e ≠ protocol.EventStepInputQueued →
  protocol.RunID e = protocol.RunID e' → protocol.StepID e = protocol.StepID e' →
  protocol.Type_ e = protocol.Type_ e' →
  protocol.NATSMsgID e = protocol.NATSMsgID e' ↔
  protocol.AttemptNumber e = protocol.AttemptNumber e' ∧
  protocol.Iteration e = protocol.Iteration e'.
Proof. apply NATSMsgID_inj. Qed.

Definition second_done : protocol.Event := {|
  protocol.Type_ := protocol.EventStepCompleted; protocol.RunID := "run-1";
  protocol.StepID := "lint"; protocol.Timestamp := 9; protocol.Payload := None;
  protocol.TraceParent := ""; protocol.TraceState := ""; protocol.WorkerID := "w2";
  protocol.AttemptNumber := 2; protocol.Iteration := Some 0; protocol.DispatchNonce := "b";
  protocol.JournalSeq := 0; protocol.InputRequestID := "" |}.

Lemma event_ids_distinct_witness :
  protocol.NATSMsgID (done_event "lint") ≠ protocol.NATSMsgID second_done.
Proof.
  intros H. apply event_ids_distinct in H as [H _];
    [discriminate H|reflexivity|reflexivity|discriminate|discriminate|reflexivity..].
Defined.

(** ** The pure core *)

(** A completion event records the output, skips the steps whose condition
    now holds, and then either completes the run, when every ordinary step is
    resolved, enqueuing nothing, or enqueues exactly the steps that have
    become startable. *)
Theorem advance_completed (def : WorkflowDef) (run : WorkflowRun) (id : string)
    (out : option raw) :
  id ≠ "" → outputs_ok (wr_Steps run) → payload_ok out →
  let after := with_skips def (record_completed (wr_Steps run) id out) in
  ∃ run' effects,
    Advance def run (MkEvent EventStepCompleted id out no_failure) = Ret (run', effects) ∧
    wr_Steps run' = after ∧
    ((all_resolved def after ∧ wr_Status run' = RunStatusCompleted ∧
      CompleteWorkflow None ∈ effects ∧ task_steps effects = []) ∨
     (¬ all_resolved def after ∧ wr_Status run' = wr_Status run ∧
      (∀ o, CompleteWorkflow o ∉ effects) ∧
      ∀ s, s ∈ task_steps effects ↔ startable def after s)).
Proof. apply Advance_completed. Qed.

Lemma fresh_run_outputs def : outputs_ok (wr_Steps (fresh_run def)).
Proof. intros id r. by rewrite fresh_run_pending. Qed.

Lemma advance_completed_witness :
  ∃ run' effects,
    Advance pipe_def (fresh_run pipe_def) (MkEvent EventStepCompleted "compile" None no_failure)
      = Ret (run', effects) ∧
    wr_Steps run' =
      with_skips pipe_def (record_completed (wr_Steps (fresh_run pipe_def)) "compile" None).
Proof.
  destruct (advance_completed pipe_def (fresh_run pipe_def) "compile" None)
    as (run' & effects & Ha & Hs & _); [discriminate|apply fresh_run_outputs|by intros r|].
  exists run', effects. split; [exact Ha|exact Hs].
Defined.

(** ** Recovery and termination *)

(** When the handler of a failed step completes, that step counts as
    recovered, its pending dependents are skipped and no other step changes;
    when no failed step names the completed one as its handler, nothing
    changes. *)
Theorem failure_recovery (wfDef : WorkflowDef) (run : WorkflowRun) (handler : string) :
  (RecoverIfOnFailure wfDef run handler = run ∧
   ∀ s, s ∈ wd_Steps wfDef → sd_OnFailure s = handler →
     status_of (wr_Steps run) (sd_ID s) ≠ StepStatusFailed) ∨
  (∃ f, f ∈ wd_Steps wfDef ∧ sd_OnFailure f = handler ∧
   status_of (wr_Steps run) (sd_ID f) = StepStatusFailed ∧
   ∀ id, let st := step_at (wr_Steps run) id in
     let st' := step_at (wr_Steps (RecoverIfOnFailure wfDef run handler)) id in
     (id = sd_ID f → st' = ss_set_Status StepStatusRecovered st) ∧
     (abandoned wfDef (sd_ID f) (wr_Steps run) id → st' = ss_set_Status StepStatusSkipped st) ∧
     (id ≠ sd_ID f → ¬ abandoned wfDef (sd_ID f) (wr_Steps run) id → st' = st)).
Proof. apply RecoverIfOnFailure_spec. Qed.

(** The first terminal status of a run wins: finalizing sets the status and
    the completion time and leaves the steps alone, and every later attempt to
    finalize the saved run, with any status, does nothing. *)
Theorem finalize_once (now : Time) (run run' : WorkflowRun) (status : RunStatus) :
  finalizeRun now run status = Ret (Some run') →
  IsTerminal status = true ∧ wr_Status run' = status ∧ wr_CompletedAt run' = Some now ∧
  wr_Steps run' = wr_Steps run ∧
  ∀ now' status', finalizeRun now' run' status' = Ret None.
Proof.
  intros (_ & Hf & Hs & Hc & Hst & _)%finalizeRun_spec. split_and!; try done.
  - destruct Hf as [Ht _]. congruence.
  - intros. by apply finalizeRun_finalized.
Qed.

Lemma finalize_once_witness :
  ∃ run', finalizeRun 7 (fresh_run pipe_def) RunStatusCancelled = Ret (Some run') ∧
    finalizeRun 9 run' RunStatusFailed = Ret None.
Proof.
  destruct (finalizeRun 7 (fresh_run pipe_def) RunStatusCancelled) as [[run'|]| |] eqn:Hf;
    [|vm_compute in Hf; discriminate Hf..].
  destruct (finalize_once 7 (fresh_run pipe_def) run' RunStatusCancelled Hf)
    as (_ & _ & _ & _ & Hnone).
  exists run'. split; [reflexivity|apply Hnone].
Defined.

(** ** The order of a compensation *)

(** [reserve], [charge] and [ship] completed, [notify] failed; each of the first
    three can be undone. *)
Definition order_steps : list StepDef :=
  [sd_set_Compensate "release" (step_def "reserve" "t" StepTypeNormal);
   sd_set_Compensate "refund" (sd_set_DependsOn ["reserve"] (step_def "charge" "t" StepTypeNormal));
   sd_set_Compensate "recall" (sd_set_DependsOn ["charge"] (step_def "ship" "t" StepTypeNormal));
   sd_set_DependsOn ["ship"] (step_def "notify" "t" StepTypeNormal);
   step_def "release" "t" StepTypeNormal;
   step_def "refund" "t" StepTypeNormal;
   step_def "recall" "t" StepTypeNormal].

Definition order_def : WorkflowDef :=
  wd_set_AuxSteps (set_of ["release"; "refund"; "recall"]) (workflow_def "order" order_steps).

Definition order_run : WorkflowRun :=
  wr_set_Steps
    (<["reserve" := step_state StepStatusCompleted]>
     (<["charge" := step_state StepStatusCompleted]>
      (<["ship" := step_state StepStatusCompleted]>
       (<["notify" := step_state StepStatusFailed]> (wr_Steps (fresh_run order_def))))))
    (fresh_run order_def).

(** The steps published one after the other from the completion of [id] on,
    and the final run. *)
Fixpoint saga (fuel : nat) (def : WorkflowDef) (run : WorkflowRun) (id : string)
    : outcome (list string * WorkflowRun) :=
  match fuel with
  | O => Err (Errorf "out of fuel" [])
  | S fuel' =>
      res ← apply_completed sample_id sample_clock def run (done_event id);
      match res with
      | CompletedCompensation (CompNext run' pub) =>
          '(l, r) ← saga fuel' def run' (sd_ID (pub_step pub));
          Ret (sd_ID (pub_step pub) :: l, r)
      | CompletedCompensation (CompDone run') => Ret ([], run')
      | _ => Err (Errorf "not a compensation" [])
      end
  end.

(** The engine does not follow the compensation chain: the chain undoes [ship],
    [charge], [reserve] in this order, but the engine publishes the first
    member of the chain and then picks the queued compensations in the order
    of the definition, so [reserve] is undone before [charge], which depends
    on it.  Every compensation is still published once and the run ends as
    compensated. *)
Theorem saga_order :
  sd_ID <$> ResolveCompensateChain order_def (completedSet order_run) "notify" =
    ["recall"; "refund"; "release"] ∧
  ∃ run1 pub run2,
    StartCompensation sample_id sample_clock order_def order_run "notify" "boom" =
      Ret (Some (run1, pub)) ∧ sd_ID (pub_step pub) = "recall" ∧
    saga 5 order_def run1 "recall" = Ret (["release"; "refund"], run2) ∧
    wr_Status run2 = RunStatusCompensated.
Proof.
  split; [vm_compute; reflexivity|]. eexists _, _, _.
  split; [vm_compute; reflexivity|]. split; [vm_compute; reflexivity|].
  split; vm_compute; reflexivity.
Qed.

(** ** A recovered step can be queued again *)

(** A step.queued delivered again after the step was recovered puts it back in
    the queued state, although its failure was handled. *)
Lemma recovered_step_requeued :
  ∃ run evt run', status_of (wr_Steps run) "lint" = StepStatusRecovered ∧
    protocol.Type_ evt = protocol.EventStepQueued ∧ protocol.StepID evt = "lint" ∧
    handleStepQueued run evt = Ret (Some run') ∧
    status_of (wr_Steps run') "lint" = StepStatusQueued.
Proof.
  exists (set_step "lint" (step_state StepStatusRecovered) (fresh_run pipe_def)).
  exists (protocol.MkEvent protocol.EventStepQueued "run-1" "lint" 3 None "" "" "" 1 None "" 0 "").
  eexists. split_and!; vm_compute; reflexivity.
Qed.

(** A plain step whose ID looks like a map instance passes validation. *)
Lemma map_like_id_accepted :
  Validate utc_only (λ l, l) (λ l, l)
    (workflow_def "w" [step_def "a.map.b" "t" StepTypeNormal]) = Ret tt ∧
  isMapInstanceID "a.map.b" = true.
Proof. split; vm_compute; reflexivity. Qed.
