(* ===== verification/StoreTheorems.v ===== *)
(** * Properties of the components that share state

    Slots, snapshots, locks and leases live in NATS buckets and streams that
    several engines use at once.  The theorems here are about every
    interleaving of such programs, with lost replies, failed calls and crashed
    processes; the instances run concrete pools on the concrete bucket and
    stream. *)

From S2P Require Import Prelude Float64 Json Types Config Graph Condition Resolve GoTime Cron Validate ValidateSpec Retry Input Advance Dispatch Fence Recovery Handlers Engine Interleave Kv Slots Snapshot SnapshotSpec Lease Admission Timers Failures RateLimiter EngineTheorems.
From stdpp Require Import relations.
From Stdlib Require Import Ascii.

#[local] Open Scope Z_scope.

(** ** Concurrency slots *)

(** C8: whatever interleaving of acquisitions and releases by the runs of a
    workflow, with calls that fail or lose their replies, reads answered by
    lagging replicas and processes that stop, the list of slot holders has no
    duplicates and never exceeds the limit.  The bound on the runs that work
    holds when no read is answered by a lagging replica: then every run that
    works holds a slot, so that at most [limit] of them work. *)
Theorem slots_exclusive {B : Type} `{!Kv raw B, !KvLaws raw B} (replicas : bool)
    (workflowID : string) (limit : Z) (runs : list (string * list slot_op))
    (w w' : slot_world (B := B)) (ps : list (prog slotE unit)) :
  0 < limit → workflowID ≠ "" → NoDup runs.*1 → Forall (λ r, r.1 ≠ "") runs →
  session_ok replicas workflowID limit w →
  rtc (pool_step (slot_reply replicas) (λ _ _, False))
    (w, (λ r, session workflowID r.1 limit r.2) <$> runs) (w', ps) →
  NoDup (holders workflowID w') ∧ Z.of_nat (length (holders workflowID w')) ≤ limit ∧
  (replicas = false →
     (∀ run, run ∈ sw_active w' → run ∈ holders workflowID w') ∧
     Z.of_nat (size (sw_active w')) ≤ limit).
Proof.
  intros Hl Hw Hnd Hne Hok Hsteps.
  destruct (sessions_ok replicas workflowID limit Hl Hw runs w w' ps Hnd Hne Hok Hsteps)
    as [(_ & Hnd' & Hlen) Hact].
  split_and!; [done..|]. intros Hr. specialize (Hact Hr). split; [done|].
  assert (sw_active w' ⊆ list_to_set (holders workflowID w')) as Hsub.
  { intros x Hx. apply elem_of_list_to_set. auto. }
  apply subseteq_size in Hsub. rewrite size_list_to_set in Hsub by done.
  unfold holders in *. lia.
Qed.

(** Slot calls answered exactly by the concrete bucket. *)
Definition slot_exact R (w : slot_world (B := bucket raw)) (e : slotE R)
    : slot_world (B := bucket raw) * R :=
  match e with
  | CallL e => (MkSlotWorld (kv_after (sw_kv w) e) (sw_active w), (kv_exec (kw_b (sw_kv w)) e).2)
  | CallR f =>
      match f in useE R return slot_world (B := bucket raw) * R with
      | Begin run => (MkSlotWorld (sw_kv w) ({[run]} ∪ sw_active w), tt)
      | End run => (MkSlotWorld (sw_kv w) (sw_active w ∖ {[run]}), tt)
      end
  end.

Lemma slot_exact_reply replicas R w (e : slotE R) :
  slot_reply replicas R w e (slot_exact R w e).1 (slot_exact R w e).2.
Proof. destruct e as [e|[]]; simpl; [split; [|done]; left; by split; [|left]|done..]. Qed.

Definition empty_slots : slot_world (B := bucket raw) :=
  MkSlotWorld (MkKvw (MkBucket 0 []) []) ∅.

(** Two runs race for the one slot: both read the empty set, one write loses,
    and the loser is refused after the re-read; the winner executes. *)
Definition slot_race : slot_world (B := bucket raw) * list (prog slotE unit) :=
  drive slot_exact [0; 1; 0; 1; 1; 0]%nat
    (empty_slots, (λ r, session "wf" r.1 1 r.2) <$> [("a", [OpAcquire]); ("b", [OpAcquire])]).

Lemma slots_exclusive_witness :
  (NoDup (holders "wf" slot_race.1) ∧ Z.of_nat (length (holders "wf" slot_race.1)) ≤ 1 ∧
   (false = false →
     (∀ run, run ∈ sw_active slot_race.1 → run ∈ holders "wf" slot_race.1) ∧
     Z.of_nat (size (sw_active slot_race.1)) ≤ 1)) ∧
  holders "wf" slot_race.1 = ["a"] ∧ elements (sw_active slot_race.1) = ["a"].
Proof.
  split; [|by vm_compute].
  apply (slots_exclusive false "wf" 1 [("a", [OpAcquire]); ("b", [OpAcquire])]
    empty_slots slot_race.1 slot_race.2).
  - lia.
  - discriminate.
  - apply (bool_decide_unpack _). by vm_compute.
  - repeat constructor; discriminate.
  - split; [split_and!; [intros k x Hx; inversion Hx|constructor|vm_compute; discriminate]|].
    intros _ run Hrun. by apply elem_of_empty in Hrun.
  - unfold slot_race. rewrite <-surjective_pairing. apply drive_rtc. apply slot_exact_reply.
Defined.

(** C9: an acquisition alone on an exact bucket is the abstract operation on the
    member list (granted to a member, refused at the limit, appended
    otherwise), a release removes the run and nobody else, and neither touches
    another workflow's slots. *)
Theorem slots_refine {B : Type} `{!Kv raw B, !KvLaws raw B} (b : B)
    (workflowID runID : string) (limit : Z) :
  workflowID ≠ "" → runID ≠ "" → 0 < limit →
  let key := ("workflow." +:+ workflowID) in
  (∃ b', run_prog (λ R (b : B) (e : kvE raw R), kv_exec b e) b (AcquireRun workflowID runID limit) =
           (b', Ret (slots_acquire limit (members_at b key) runID).2) ∧
     members_at b' key = (slots_acquire limit (members_at b key) runID).1 ∧
     ∀ k, k ≠ key → kv_get b' k = kv_get b k) ∧
  (∃ b', run_prog (λ R (b : B) (e : kvE raw R), kv_exec b e) b (ReleaseRun workflowID runID) =
           (b', Ret tt) ∧
     (∀ x, x ∈ members_at b' key ↔ x ∈ members_at b key ∧ x ≠ runID) ∧
     ∀ k, k ≠ key → kv_get b' k = kv_get b k).
Proof.
  intros Hw Hr Hl key. rewrite AcquireRun_loop, ReleaseRun_loop by done.
  split; [apply acquire_loop_run|apply release_loop_run].
Qed.

Lemma slots_refine_witness :
  ∃ b', run_prog (λ R (b : bucket raw) (e : kvE raw R), kv_exec b e) (MkBucket 0 [])
          (AcquireRun "wf" "a" 1) = (b', Ret true) ∧ members_at b' "workflow.wf" = ["a"].
Proof.
  destruct (slots_refine (MkBucket 0 [] : bucket raw) "wf" "a" 1) as [(b' & Hrun & Hm & _) _];
    [discriminate|discriminate|lia|].
  exists b'. split; [exact Hrun|exact Hm].
Defined.

(** ** Rate limits *)

(** C10: however many engines ask for tokens of one key at once, with calls that
    fail or lose their replies, stale reads and clocks that differ by at most
    [skew]: what the limiter grants from an empty bucket is at most one filling
    and the tokens of the time that passed, [limit] per period, up to the
    relative rounding error 2^-49 of its float arithmetic. *)
Theorem rate_limit_bound {B : Type} `{!Kv raw B, !KvLaws raw B} (oob : f64 → Z) (replicas : bool)
    (taskType key : string) (limit period skew start : Z) (requests : list Z)
    (w w' : rate_world (B := B)) (ps : list (prog (byE rateE) (outcome (bool * Z)))) :
  0 < limit ≤ period → period < 2 ^ 53 → 0 ≤ skew ≤ start → taskType ≠ "" → key ≠ "" →
  Forall (λ u, 0 ≤ u) requests →
  kv_ok (rt_kv w) → kv_get (kw_b (rt_kv w)) (taskType +:+ "." +:+ key) = None → rt_log w = [] →
  start ≤ rt_now w < 2 ^ 62 →
  rtc (pool_step (tagged_reply replicas (taskType +:+ "." +:+ key) skew) time_passes)
    (w, imap (λ i u, embed (λ R e, By i e) (Allow oob true taskType key limit period u)) requests)
    (w', ps) →
  2 ^ 49 * (period * granted requests ps) ≤
  limit * (2 ^ 49 * period + (2 ^ 49 + 1) * (rt_now w' - start + skew)).
Proof.
  intros Hl Hp Hs Ht Hk Hpos Hkv Hnone Hlog Hnow Hsteps.
  apply (callers_bound oob replicas (taskType +:+ "." +:+ key) limit period skew start Hl Hp Hs)
    with (w := w); [by destruct taskType|done| |].
  - unfold rate_ok. rewrite Hlog. split_and!; try done; simpl; lia.
  - erewrite imap_ext; [exact Hsteps|]. intros i u _. unfold caller. by rewrite Allow_loop.
Qed.

(** Calls answered exactly by the concrete bucket, with one clock. *)
Definition rate_exact (kvKey : string) R (w : rate_world (B := bucket raw)) (e : byE rateE R)
    : rate_world (B := bucket raw) * R :=
  match e with
  | By who (CallL e) =>
      let w1 := MkRateWorld (kv_after (rt_kv w) e) (rt_log w) (rt_now w) in
      (MkRateWorld (rt_kv w1) (record_version kvKey who w w1) (rt_now w),
       (kv_exec (kw_b (rt_kv w)) e).2)
  | By who (CallR c) =>
      (w, match c in clockE R return R with ClockNow => rt_now w end)
  end.

Lemma rate_exact_reply replicas kvKey skew R w (e : byE rateE R) :
  0 ≤ skew → tagged_reply replicas kvKey skew R w e (rate_exact kvKey R w e).1
    (rate_exact kvKey R w e).2.
Proof.
  intros Hs. destruct e as [who [e|[]]]; simpl.
  - split_and!; [left; by split; [|left]|done|done].
  - split; [done|]. lia.
Qed.

Definition no_tokens : rate_world (B := bucket raw) :=
  MkRateWorld (MkKvw (MkBucket 0 []) []) [] 1000.

(** Three callers race for two tokens per second: one write loses and is tried
    again, and the third caller is refused. *)
Definition rate_race : rate_world (B := bucket raw) * list (prog (byE rateE) (outcome (bool * Z))) :=
  drive (rate_exact "mail.send._global") [0; 0; 0; 1; 1; 1; 0; 1; 1; 1; 1; 2; 2; 2; 2]%nat
    (no_tokens, imap (λ i u, embed (λ R e, By i e)
       (Allow (λ _, 0) true "mail.send" "_global" 2 1000000000 u)) [1; 1; 1]).

Lemma rate_limit_bound_witness :
  2 ^ 49 * (1000000000 * granted [1; 1; 1] rate_race.2) ≤
  2 * (2 ^ 49 * 1000000000 + (2 ^ 49 + 1) * (rt_now rate_race.1 - 1000 + 0)) ∧
  granted [1; 1; 1] rate_race.2 = 2 ∧ length (rt_log rate_race.1) = 2%nat.
Proof.
  split; [|vm_compute; split; reflexivity].
  apply (rate_limit_bound (λ _, 0) false "mail.send" "_global" 2 1000000000 0 1000 [1; 1; 1]
    no_tokens rate_race.1 rate_race.2); try lia; try discriminate.
  - repeat constructor; discriminate.
  - intros k x Hx. inversion Hx.
  - reflexivity.
  - reflexivity.
  - simpl. lia.
  - unfold rate_race. rewrite <-surjective_pairing. apply drive_rtc. intros.
    apply rate_exact_reply. lia.
Defined.

(** ** Leases *)

(** C11: whatever clients acquire, renew and release a key, interleaved with each
    other and with the server's expiry, the messages stored under the key are
    a run of the abstract lease (a grant takes a free key, only the holder
    renews or releases, at its own revision), and its last message is the one
    the stream has.  The fence a client ends with names a record of its own,
    that no other holder shares, and while that record is the last one the
    client holds the lease. *)
Theorem lease_refines {B : Type} `{!LeaseStream B, !LeaseStreamLaws B} (key : string)
    (clients : list (string * list lease_cmd)) (w w' : lworld (B := B))
    (ps : list (prog leaseE (option N))) :
  lease_ok key w →
  rtc (pool_step (lease_reply key) (lease_env key))
    (w, (λ c, client key c.1 None c.2) <$> clients) (w', ps) →
  (∃ st, lease_trace (lw_log w') st ∧
     (st = match ls_last (lw_b w') key with
           | Some m => match sm_body m with
                       | LRecord _ rec => Some (rec_Holder rec, sm_Sequence m)
                       | _ => None
                       end
           | None => None
           end)) ∧
  ∀ i c fence, clients !! i = Some c → ps !! i = Some (Done (Some fence)) →
    owns c.1 fence w' ∧ (∀ h, owns h fence w' → h = c.1) ∧
    (last_seq (lw_b w') key = fence → lease_trace (lw_log w') (Some (c.1, fence))).
Proof.
  intros Hok Hsteps. destruct (clients_ok key clients w w' ps Hok Hsteps) as [Hok' Hf].
  split.
  - destruct Hok' as (st & Ht & _ & Hl). exists st. split; [done|].
    destruct (ls_last (lw_b w') key) as [m|]; [|done]. destruct Hl as [l Hl].
    rewrite (trace_state _ _ Ht), Hl. by destruct (sm_body m).
  - intros i c fence Hi Hp. pose proof (Hf i c (Some fence) Hi Hp fence eq_refl) as Hown.
    split; [done|]. by apply (fence_holder key w').
Qed.

(** Lease calls answered exactly; the clock stands still. *)
Definition lease_exact (key : string) R (w : lworld (B := lstream)) (e : leaseE R)
    : lworld (B := lstream) * R :=
  match e in leaseE R return lworld (B := lstream) * R with
  | LastMsg k => (w, inr (ls_last (lw_b w) k))
  | Lease.Publish k m expect =>
      match ls_publish (lw_b w) k m expect with
      | Some (b', n) => (MkLworld b' (logged key k (n, m) (lw_log w)), inr n)
      | None => (w, inl WrongLastSequence)
      end
  | Now => (w, 1)
  | Request _ _ _ => (w, NoResponders)
  end.

Lemma lease_exact_reply key R w (e : leaseE R) :
  lease_reply key R w e (lease_exact key R w e).1 (lease_exact key R w e).2.
Proof.
  destruct e as [k|k m expect| |]; simpl; [auto| |done..]. right.
  destruct (decide (_ = expect)); simpl; auto.
Qed.

(** [a] acquires, its record expires while it is away, [b] acquires, and [a]'s
    renewal at its old fence is refused. *)
Definition lease_before : lworld (B := lstream) * list (prog leaseE (option N)) :=
  drive (lease_exact "k") [0; 0; 0]%nat
    (MkLworld (MkLstream 0 [] []) [],
     (λ c, client "k" c.1 None c.2) <$>
       [("a", [CmdAcquire (2 * Second); CmdRenew (2 * Second)]); ("b", [CmdAcquire (2 * Second)])]).

Definition lease_expired : lworld (B := lstream) :=
  match ls_expire (lw_b lease_before.1) "k" with
  | Some b' => MkLworld b' (logged "k" "k" (ls_seq b', LMaxAge) (lw_log lease_before.1))
  | None => lease_before.1
  end.

Definition lease_after : lworld (B := lstream) * list (prog leaseE (option N)) :=
  drive (lease_exact "k") [1; 1; 1; 0]%nat (lease_expired, lease_before.2).

Lemma lease_refines_witness :
  ((∃ st, lease_trace (lw_log lease_after.1) st ∧ st = Some ("b", 3%N)) ∧
   owns "a" 1 lease_after.1 ∧ owns "b" 3 lease_after.1 ∧
   lease_trace (lw_log lease_after.1) (Some ("b", 3%N))) ∧ length (lw_log lease_after.1) = 3%nat.
Proof.
  split; [|vm_compute; reflexivity].
  destruct (lease_refines "k"
    [("a", [CmdAcquire (2 * Second); CmdRenew (2 * Second)]); ("b", [CmdAcquire (2 * Second)])]
    (MkLworld (MkLstream 0 [] []) []) lease_after.1 lease_after.2) as [Hst Hf].
  - exists None. split; [constructor|]. split; [constructor|reflexivity].
  - etrans; [apply (drive_rtc (lease_exact "k") (lease_reply "k") (lease_env "k")
      [0; 0; 0]%nat), lease_exact_reply|].
    fold lease_before.
    eapply rtc_l; [|unfold lease_after; rewrite <-surjective_pairing;
      apply (drive_rtc (lease_exact "k") (lease_reply "k") (lease_env "k")), lease_exact_reply].
    rewrite (surjective_pairing lease_before) at 1. apply pool_env.
    apply (env_expire "k" lease_before.1 "k" (lw_b lease_expired)). vm_compute. reflexivity.
  - destruct (Hf 0%nat _ 1%N eq_refl) as (Ha & _); [vm_compute; reflexivity|].
    destruct (Hf 1%nat _ 3%N eq_refl) as (Hb & _ & Hb'); [vm_compute; reflexivity|].
    split; [exact Hst|]. split; [exact Ha|]. split; [exact Hb|]. apply Hb'. vm_compute. reflexivity.
Defined.

(** C35: a forwarded request is processed at most once: at most three requests
    are sent, each but the last was refused by an owner that did not process
    it, and a success carries the payload of the last reply, from the holder
    and revision the request was fenced with. *)
Theorem forward_at_most_once
    (last_answer : list (string * N * request_reply) → string → last_error + option stored_msg)
    (owner_answer : list (string * N * request_reply) → string → N → string → request_reply)
    (key payload : string) (timeout : Z) :
  let res := run_prog (forward_handle last_answer owner_answer) [] (Forward key payload timeout) in
  (length res.1 ≤ 3)%nat ∧ Forall refused (tail res.1) ∧
  ∀ f, res.2 = Ret (f, None) →
    ∃ s, head res.1 = Some (s, fw_Revision f, Replied false (fw_Payload f)) ∧
         InboxSubject (fw_Holder f) (fw_Key f) = Ret s.
Proof.
  cbn zeta. unfold Forward. unfold mbind, io_mbind. cbn [io_of prog_bind].
  destruct (validateToken _ _ _) as [[]|e|m]; [|by simpl; split_and!; [lia|constructor|]..].
  cbn [prog_bind].
  destruct (validateForwardTimeout timeout) as [[]|e|m];
    [|by simpl; split_and!; [lia|constructor|]..].
  destruct (forward_rounds_ok last_answer owner_answer key payload forwardAttemptsMax 0
    (MkForwarded key "" 0 "") [] (Forall_nil_2 _)) as ((l & Hl & Hlen) & Hrest).
  rewrite app_nil_r in Hl. split; [|exact Hrest]. rewrite Hl. exact Hlen.
Qed.

(** ** Singleton locks *)










(** The key of a singleton lock is a valid bucket key, and two workflows
    whose keys do not collide under SHA-256 share a lock exactly when their raw
    keys are equal. *)
Theorem lock_keys (fmt_float : f64 → string) (sha256hex : string → string)
    (name1 name2 : string) (cfg1 cfg2 : SingletonConfig) (in1 in2 : option raw)
    (raw1 raw2 k1 k2 : string) :
  (∀ s, str_forallb (λ c, in_range "0"%char "9"%char c || in_range "a"%char "f"%char c)
          (sha256hex s) = true) →
  (∀ s, String.length (sha256hex s) = 64%nat) →
  singletonRawKey fmt_float name1 cfg1 in1 = Ret raw1 →
  singletonRawKey fmt_float name2 cfg2 in2 = Ret raw2 →
  (sha256hex raw1 = sha256hex raw2 → raw1 = raw2) →
  singletonLockKey fmt_float sha256hex name1 cfg1 in1 = Ret k1 →
  singletonLockKey fmt_float sha256hex name2 cfg2 in2 = Ret k2 →
  ValidKVKey k1 = true ∧ (k1 = k2 ↔ raw1 = raw2).
Proof.
  intros Hhex Hlen Hr1 Hr2 Hinj H1 H2. unfold singletonLockKey in *.
  rewrite Hr1, bind_unit_ret_iff in H1. rewrite Hr2, bind_unit_ret_iff in H2.
  destruct H1 as (_ & [= <-]), H2 as (_ & [= <-]).
  split; [by apply encodeKey_valid|]. split; [by apply encodeKey_inj|by intros ->].
Qed.

(** A stand-in digest: it tells the two sample keys apart. *)
Definition toy_digest (s : string) : string :=
  String.concat "" (repeat (if decide (s = "wf.a b") then "a" else "0") 64).

Lemma toy_digest_hex s :
  str_forallb (λ c, in_range "0"%char "9"%char c || in_range "a"%char "f"%char c)
    (toy_digest s) = true ∧ String.length (toy_digest s) = 64%nat.
Proof. unfold toy_digest. by destruct (decide _). Qed.

Definition input_with (v : string) : option raw := Some (RawJson (JObj [("id", JStr v)])).

Lemma lock_keys_witness :
  ValidKVKey ("h." +:+ toy_digest "wf.a b") = true ∧
  ("h." +:+ toy_digest "wf.a b" = "h." +:+ toy_digest "wf.a c" ↔ "wf.a b" = "wf.a c").
Proof.
  apply (lock_keys (λ _, "") toy_digest "wf" "wf"
    (MkSingletonConfig "skip" "id") (MkSingletonConfig "skip" "id")
    (input_with "a b") (input_with "a c") "wf.a b" "wf.a c").
  - intros s. apply toy_digest_hex.
  - intros s. apply toy_digest_hex.
  - vm_compute. reflexivity.
  - vm_compute. reflexivity.
  - vm_compute. discriminate.
  - vm_compute. reflexivity.
  - vm_compute. reflexivity.
Defined.

(** ** Sleeps *)

(** For a valid instant, resolving a sleep never panics, and a resolved
    delay is between zero and the maximum: the configured duration, the time
    until the instant or the milliseconds the input names, or the distance to
    the first minute the cron expression matches in its zone. *)
Theorem sleep_resolution (LoadLocation : string → outcome Location)
    (parse_rfc3339 : string → option Time) (oob : f64 → Z) (cfg : SleepConfig)
    (input : option raw) (now : Time) :
  (∀ name, is_panic (LoadLocation name) = false) → zero_time < now →
  match ResolveSleepDuration LoadLocation parse_rfc3339 oob cfg input now with
  | Ret d => 0 ≤ d ≤ maxSleepDuration ∧
      sleep_delay LoadLocation parse_rfc3339 cfg input now d
  | Err _ => True
  | Panic _ => False
  end.
Proof. intros Hz Hnow. by apply ResolveSleepDuration_spec. Qed.

(** A cron sleep at noon, five minutes before the next match. *)
Definition cron_sleep : SleepConfig := MkSleepConfig 0 "5 12 * * *" "" "UTC" "".
Definition noon : Time := 12 * 60 * Minute.

Lemma sleep_resolution_witness :
  ResolveSleepDuration utc_only (λ _, None) (λ _, 0) cron_sleep None noon = Ret (5 * Minute) ∧
  (0 ≤ 5 * Minute ≤ maxSleepDuration ∧
   sleep_delay utc_only (λ _, None) cron_sleep None noon (5 * Minute)).
Proof.
  assert (ResolveSleepDuration utc_only (λ _, None) (λ _, 0) cron_sleep None noon =
    Ret (5 * Minute)) as Hd by (vm_compute; reflexivity).
  split; [exact Hd|].
  pose proof (sleep_resolution utc_only (λ _, None) (λ _, 0) cron_sleep None noon) as H.
  rewrite Hd in H. apply H.
  - intros name. unfold utc_only. by destruct (bool_decide _).
  - reflexivity.
Defined.

(** ** Retries *)

(** A failure the handler decides to retry was the answer to the step's
    current dispatch, the policy allowed another attempt, and the run it saves
    keeps the attempt and iteration, waits at most an hour, and carries a fresh
    nonce: every event under any other nonce, the failure itself again or a
    late answer of the failed attempt, is then refused. *)
Theorem retry_fences_attempt (bytes_of : raw → string) (oob : f64 → Z)
    (routes : StepType → option string) (new_id : nat → string) (clock : nat → Time)
    (def : WorkflowDef) (run saved : WorkflowRun) (evt : protocol.Event)
    (timer : outcome TimerMessage) :
  protocol.Type_ evt = protocol.EventStepFailed →
  handleStepFailed bytes_of oob routes new_id clock false def run evt =
    Ret (FailedRetry saved timer) →
  answers (step_at (wr_Steps run) (protocol.StepID evt)) evt ∧
  (∃ run1, fenceStepEvent false run evt = Ret (Some run1) ∧
     retry_outcome routes new_id clock def run1 evt saved timer) ∧
  ∀ evt', protocol.RunID evt' = wr_RunID run → protocol.StepID evt' = protocol.StepID evt →
    step_event evt' → protocol.DispatchNonce evt' ≠ "" →
    protocol.DispatchNonce evt' ≠ new_id 0%nat → fenceStepEvent false saved evt' = Ret None.
Proof.
  intros Hty H. destruct (handleStepFailed_retry _ _ _ _ _ _ _ _ _ _ Hty H)
    as (Hans & run1 & Hf & Hout).
  split; [done|]. split; [by exists run1|]. intros evt' Hrun Hid Hev Hne Hnew.
  destruct (fence_accepts run evt run1) as (_ & Hrid & _); [by rewrite Hty|done|].
  eapply retry_fences; [exact Hout|congruence|done..].
Qed.

(** The timer of a retry sends the step's next attempt once, under the nonce
    the retry saved, when it fires on the saved run, and sends nothing once the
    step has left that retry: it finished, its retry was dispatched, or its
    attempt moved on.  Its first delivery only starts the delay. *)
Theorem retry_timer_once (bytes_of : raw → string) (oob : f64 → Z)
    (routes : StepType → option string) (new_id : nat → string) (clock : nat → Time)
    (def : WorkflowDef) (run saved : WorkflowRun) (evt : protocol.Event) (tm : TimerMessage)
    (maxBytes : Z) (mint : string) (n : N) :
  protocol.Type_ evt = protocol.EventStepFailed →
  handleStepFailed bytes_of oob routes new_id clock false def run evt =
    Ret (FailedRetry saved (Ret tm)) → (n ≠ 1)%N →
  handleTimer maxBytes mint (Some saved) 1 tm = TimerNak (tm_DurationMs tm * Millisecond) ∧
  (∃ msg, handleTimer maxBytes mint (Some saved) n tm = TimerTask (Ret (Some msg)) ∧
     tp_DispatchNonce (msg_Payload msg) = new_id 0%nat ∧
     tp_Attempt (msg_Payload msg) =
       wrap64 (ss_Attempts (step_at (wr_Steps saved) (protocol.StepID evt)) + 1) ∧
     tp_Iteration (msg_Payload msg) =
       ss_Iterations (step_at (wr_Steps saved) (protocol.StepID evt)) ∧
     tp_RunID (msg_Payload msg) = wr_RunID run ∧
     tp_StepID (msg_Payload msg) = protocol.StepID evt) ∧
  ∀ later, ¬ retry_due tm (step_at (wr_Steps later) (protocol.StepID evt)) →
    handleTimer maxBytes mint (Some later) n tm = TimerTask (Ret None).
Proof.
  intros Hty H Hn. pose proof H as H0.
  unfold handleStepFailed in H0. rewrite !bind_unit_ret_iff, !panic_if_ret_iff in H0.
  destruct H0 as (Hrun%empty_str_false & Hid%empty_str_false & _).
  destruct (handleStepFailed_retry _ _ _ _ _ _ _ _ _ _ Hty H) as (Hans & run1 & Hf & Hout).
  destruct (fence_accepts run evt run1) as (_ & Hrid & _ & Hsame); [by rewrite Hty|done|].
  split.
  - destruct Hout as (p & d & _ & Hd & _ & _ & _ & _ & _ & _ & _ & _ & Htm).
    destruct (Htm tm eq_refl) as (_ & _ & _ & Hdur & _). unfold handleTimer. cbn [N.eqb Pos.eqb].
    rewrite Hdur. rewrite wrap64_id by (unfold in_int64, int64_min, int64_max, Millisecond; lia).
    rewrite (proj2 (Z.leb_gt (d * Millisecond) 0)); [done|unfold Millisecond; lia].
  - rewrite <-Hrid.
    eapply retry_timer_fires; [exact Hout|done| |done|].
    + rewrite Hrid. unfold fenceStepEvent in Hf. rewrite !bind_unit_ret_iff, panic_if_ret_iff in Hf.
      destruct Hf as (Hb & _). apply negb_false_iff, bool_decide_eq_true in Hb. congruence.
    + destruct (Hsame (protocol.StepID evt)) as (-> & _). by eapply answers_active.
Qed.

(** [compile] fails on its first dispatch under a policy of three attempts. *)
Definition retry_def : WorkflowDef := {|
  wd_Name := "pipeline"; wd_Version := "1"; wd_Steps := pipe_steps;
  wd_DefaultRetry := Some (MkRetryPolicy 3 RetryLinear Second (10 * Second) (f64_of_Z 1));
  wd_Concurrency := Some (MkConcurrencyLimit 0 1); wd_Timeout := 0; wd_InputSchema := None;
  wd_OutputSchema := None; wd_AuxSteps := ∅; wd_IdempotencyKey := "";
  wd_Sticky := StickyNone; wd_Priority := None; wd_CancelOn := []; wd_Singleton := None |}.

Definition fail_event (nonce : string) : protocol.Event := {|
  protocol.Type_ := protocol.EventStepFailed; protocol.RunID := "run-1";
  protocol.StepID := "compile"; protocol.Timestamp := 5;
  protocol.Payload := Some (RawJson (JObj [("error", JStr "boom")])); protocol.TraceParent := "";
  protocol.TraceState := ""; protocol.WorkerID := "w1"; protocol.AttemptNumber := 1;
  protocol.Iteration := Some 0; protocol.DispatchNonce := nonce; protocol.JournalSeq := 0;
  protocol.InputRequestID := "" |}.

Definition retry_ids (k : nat) : string := "retry-nonce".

Definition retry_result : outcome failed_result :=
  handleStepFailed (λ _, "") (λ _, 0) (λ _, None) retry_ids sample_clock false retry_def
    pipe_started (fail_event "a").

Definition retry_saved : WorkflowRun :=
  match retry_result with Ret (FailedRetry saved _) => saved | _ => pipe_started end.
Definition retry_tm : outcome TimerMessage :=
  match retry_result with Ret (FailedRetry _ timer) => timer | _ => Panic "" end.

Lemma retry_fences_attempt_witness :
  fenceStepEvent false retry_saved (fail_event "a") = Ret None.
Proof.
  destruct (retry_fences_attempt (λ _, "") (λ _, 0) (λ _, None) retry_ids sample_clock retry_def
    pipe_started retry_saved (fail_event "a") retry_tm) as (_ & _ & H).
  - reflexivity.
  - vm_compute. reflexivity.
  - apply H; [vm_compute; reflexivity|reflexivity|split; [discriminate|reflexivity]|discriminate
      |discriminate].
Defined.

Definition retry_msg : TimerMessage :=
  match retry_tm with
  | Ret tm => tm
  | _ => MkTimer "" "" "" 0 "" None 0 "" [] "" "" ∅ 0
  end.

Lemma retry_timer_once_witness :
  handleTimer 0 "" (Some retry_saved) 1 retry_msg = TimerNak Second ∧
  (∃ msg, handleTimer 0 "" (Some retry_saved) 2 retry_msg = TimerTask (Ret (Some msg)) ∧
     tp_DispatchNonce (msg_Payload msg) = "retry-nonce") ∧
  handleTimer 0 "" (Some pipe_started) 2 retry_msg = TimerTask (Ret None).
Proof.
  destruct (retry_timer_once (λ _, "") (λ _, 0) (λ _, None) retry_ids sample_clock retry_def
    pipe_started retry_saved (fail_event "a") retry_msg 0 "" 2) as (H1 & (msg & H2 & H3 & _) & H4).
  - reflexivity.
  - vm_compute. reflexivity.
  - discriminate.
  - split; [rewrite H1; vm_compute; reflexivity|]. split; [exists msg; split; [exact H2|exact H3]|].
    apply H4. intros (_ & Hat & _). apply Hat. vm_compute. reflexivity.
Defined.

(** ** Snapshots *)

(** C31: on a bucket that answers exactly, whose index is within the cap on keys
    and whose snapshots decode, the paged newest-first scan reads the newest
    min(fetchMax, ScanFetchMax) entries of the run index and returns, of the runs
    among them whose snapshot still exists, the first [limit] that the predicate
    selects; it reports how many it matched, and says it was truncated exactly
    when older entries were left unread and fewer than [limit] runs matched. *)
Theorem scan_is_reference {B : Type} `{!Kv stored B, !KvLaws stored B} (b : B)
    (pred : WorkflowRun → bool) (limit fetchMax : Z) :
  let ids := key_ids (dedupeOrderedKeys
    (filter (λ k, HasPrefix k runIndexPrefix = true) (kv_replay b))) in
  let found := scan_reference b pred limit (Z.min fetchMax ScanFetchMax) ids in
  0 < limit ≤ fetchMax → Z.of_nat (length (kv_replay b)) ≤ runKeyScanMax → decodes b ids →
  ∃ stats, run_prog exact b (ScanNewestFirst pred limit fetchMax) = (b, Ret (found, stats)) ∧
    st_Matched stats = Z.of_nat (length found) ∧
    (st_Truncated stats = true ↔
       Z.min fetchMax ScanFetchMax < Z.of_nat (length ids) ∧ Z.of_nat (length found) < limit).
Proof. intros ids found Hl Hmax Hdec. by apply scan_run. Qed.


(** Three indexed runs, the snapshot of the newest one gone; at most two are
    read, so that the scan is truncated. *)
Definition run_named (id : string) : WorkflowRun :=
  match NewWorkflowRun (λ _, "") 0 pipe_def id with Ret r => r | _ => fresh_run pipe_def end.

Definition indexed : bucket stored := MkBucket 0
  [(index_key "c", 0, Some SEmpty); (index_key "b", 0, Some SEmpty);
   (run_key "b", 0, Some (SRun (run_named "b"))); (index_key "a", 0, Some SEmpty);
   (run_key "a", 0, Some (SRun (run_named "a")))].

Lemma scan_is_reference_witness :
  ∃ stats, run_prog exact indexed (ScanNewestFirst alwaysMatch 2 2) =
      (indexed, Ret ([run_named "b"], stats)) ∧
    st_Matched stats = 1 ∧ (st_Truncated stats = true ↔ 2 < 3 ∧ 1 < 2).
Proof.
  assert (key_ids (dedupeOrderedKeys
    (filter (λ k, HasPrefix k runIndexPrefix = true) (kv_replay indexed))) = ["a"; "b"; "c"])
    as Hids by (vm_compute; reflexivity).
  assert (scan_reference indexed alwaysMatch 2 (Z.min 2 ScanFetchMax) ["a"; "b"; "c"] =
    [run_named "b"]) as Hfound by (vm_compute; reflexivity).
  pose proof (scan_is_reference indexed alwaysMatch 2 2) as H. cbn zeta in H.
  rewrite Hids, Hfound in H. apply H.
  - lia.
  - vm_compute. discriminate.
  - vm_compute. repeat constructor; intros x Hx; try discriminate Hx; injection Hx as <-; eauto.
Defined.


