(* ===== verification/EventTheorems.v ===== *)
(** * Properties of runs under every event

    The first theorems are about validated workflows with steps of any type
    (tasks, agent loops, sub-workflows, maps, sleeps, event waits, approvals,
    responses) and every event that reaches an existing run, handled by one
    engine or by several at once.  The others are about single components:
    maps, waits of loops, resends. *)

From S2P Require Import Prelude Float64 Json Types Config Graph Condition Resolve GoTime Cron Schema Validate ValidateSpec Keys Input Advance Dispatch Fence Recovery Handlers Script Engine Timers Failures Planners Loops TypedSteps Admission Starts MapSpec WakeSpec Events EventSafety Interleave Kv Slots Snapshot Cluster EngineTheorems.
From stdpp Require Import relations.
From Stdlib Require Import Ascii.

#[local] Open Scope Z_scope.

(** ** A sample engine *)

Definition sample_end : ending := MkEnding 9 true (Ret tt).

Definition sample_host : host := {|
  h_LoadLocation := utc_only; h_rfc3339 := λ _, None; h_oob := λ _, 0;
  h_err_text := λ _, "error"; h_marshal := λ v, v; h_bytes := λ _, "";
  h_base64 := λ s, Some s; h_approval := true; h_latest := None |}.

Definition sample_draws : draws := {|
  dr_nonce := sample_id; dr_clock := sample_clock; dr_child := sample_id;
  dr_token := λ _, Ret "token"; dr_now := sample_clock; dr_save := 3; dr_mark := 4;
  dr_landed := λ _, true; dr_batch := true; dr_end := sample_end |}.

Definition sample_loop : loop_draws := {|
  ld_nonce := "n"; ld_stamp := 1; ld_start := 1; ld_check := 1; ld_wait := 1; ld_send := 1;
  ld_save := 2; ld_mark := 3; ld_inputs := None; ld_sent := Ret tt; ld_end := sample_end |}.

Definition sample_x : external := {|
  x_host := sample_host; x_pass := λ _, sample_draws; x_resend := sample_draws;
  x_loop := sample_loop; x_id := sample_id; x_clock := sample_clock; x_now := 5;
  x_end := sample_end; x_child := λ _, Err (Errorf "no child" []); x_def := Ret tt;
  x_defErr := None; x_queued := λ _, Ret false; x_sent := Ret tt; x_routes := λ _, None;
  x_policy := None; x_maxState := 1048576; x_legacy := false;
  x_create := λ _, Ret tt; x_spawned := λ _, Ret tt;
  x_planner := λ _ _ _, Finish (Ret tt) |}.

Lemma sample_x_ok : external_ok sample_x.
Proof. split; [reflexivity|done]. Qed.

(** [ship] follows a pause of one second after [compile]. *)
Definition nap_steps : list StepDef :=
  [step_def "compile" "ci.compile" StepTypeNormal;
   sd_set_Config (Some (RawJson (JObj [("duration", JStr "1s")])))
     (sd_set_DependsOn ["compile"] (step_def "pause" "" StepTypeSleep));
   sd_set_DependsOn ["pause"] (step_def "ship" "ci.ship" StepTypeNormal)].

Definition nap_def : WorkflowDef := workflow_def "nap" nap_steps.

Lemma nap_valid : Validate utc_only (λ l, l) (λ l, l) nap_def = Ret tt.
Proof. vm_compute. reflexivity. Qed.

Lemma nap_supported : no_handlers nap_def ∧ no_detach nap_def.
Proof.
  split; [split; [reflexivity|]|]; intros s; [|intros cfg]; intros Hs;
    unfold nap_def, nap_steps in Hs; cbn [wd_Steps workflow_def] in Hs;
    repeat (apply elem_of_cons in Hs as [->|Hs]; [done|]); by apply elem_of_nil in Hs.
Qed.

(** The start of a run: its payload carries the definition and an input. *)
Definition start_event : protocol.Event := {|
  protocol.Type_ := EventWorkflowStarted; protocol.RunID := "run-1"; protocol.StepID := "";
  protocol.Timestamp := 1;
  protocol.Payload := Some (RawJson (JObj [("workflow_def", JObj []); ("input", JStr "main")]));
  protocol.TraceParent := ""; protocol.TraceState := ""; protocol.WorkerID := "";
  protocol.AttemptNumber := 0; protocol.Iteration := None; protocol.DispatchNonce := "";
  protocol.JournalSeq := 0; protocol.InputRequestID := "" |}.

Definition sample_start (def : WorkflowDef) : start_env := {|
  se_hash := λ _, "hash"; se_now := 2; se_saved := 2; se_decode := λ _, Ret def;
  se_defs := λ _, Err (Errorf "not found" []); se_admit := λ _ _ _, Ret zero_admission;
  se_cancelled := λ _, Ret tt; se_err_text := λ _, "error" |}.

Definition started_run (def : WorkflowDef) : WorkflowRun :=
  match handleWorkflowStarted utc_only (λ l, l) (λ l, l) (sample_start def) start_event
          (default (RawBad "") (protocol.Payload start_event)) with
  | Ret (StartCreate _ _ run _) => run
  | _ => fresh_run def
  end.

Definition nap_started : WorkflowRun :=
  (alone (dispatchPass sample_host (passes nap_def) (λ _, sample_draws) nap_def (started_run nap_def))
     (started_run nap_def)).1.

Definition handled (def : WorkflowDef) (run : WorkflowRun) (evt : protocol.Event) : WorkflowRun :=
  (alone (dispatchEvent sample_x def evt) run).1.

Definition woken_event : protocol.Event := {|
  protocol.Type_ := EventStepSleepCompleted; protocol.RunID := "run-1";
  protocol.StepID := "pause"; protocol.Timestamp := 5; protocol.Payload := None;
  protocol.TraceParent := ""; protocol.TraceState := ""; protocol.WorkerID := "";
  protocol.AttemptNumber := 0; protocol.Iteration := None; protocol.DispatchNonce := "";
  protocol.JournalSeq := 0; protocol.InputRequestID := "" |}.

Definition nap_paused : WorkflowRun := handled nap_def nap_started (done_event "compile").
Definition nap_woken : WorkflowRun := handled nap_def nap_paused woken_event.

Definition view (run : WorkflowRun) : list (StepStatus * bool) :=
  (λ id, (status_of (wr_Steps run) id, ss_DispatchUnsent (step_at (wr_Steps run) id))) <$>
    ["compile"; "pause"; "ship"].

Example nap_runs :
  view nap_started = [(StepStatusQueued, false); (StepStatusPending, false); (StepStatusPending, false)] ∧
  view nap_paused = [(StepStatusCompleted, false); (StepStatusRunning, false); (StepStatusPending, false)] ∧
  view nap_woken = [(StepStatusCompleted, false); (StepStatusCompleted, false); (StepStatusQueued, false)].
Proof. vm_compute. repeat split. Qed.

(** ** Validated workflows under every event *)

Section Validated.
Context (LoadLocation : string → outcome Location).
Context (perm : list string → list string) (rule_order : list Z → list Z).
Context (def : WorkflowDef).
Context (Hperm : ∀ l, perm l ≡ₚ l) (Hrule : ∀ l, rule_order l ≡ₚ l).
Context (Hvalid : Validate LoadLocation perm rule_order def = Ret tt).
Context (Hhandlers : no_handlers def) (Hattach : no_detach def).

Lemma valid_plain : plain def ∧ ∀ m, step_limit def = Some m → m ≤ int64_max.
Proof using Hperm Hrule Hvalid Hhandlers.
  apply (validated_plain LoadLocation); [|done].
  by apply (Validate_wf LoadLocation perm rule_order).
Qed.

(** C2: for a validated workflow without failure handlers, compensations and
    detached sub-workflows, in every state a run can reach from its start (at
    once, after waiting for a slot, or as a child) through the events that
    [event_ok] admits, in any order, and wherever the engine stops in the middle
    of one: either the run is over for good and no step is queued or running, or
    every step that left the pending state has each dependency completed or
    skipped, the step limit holds, a live run has no failed step and a completed
    run has every step completed or skipped.  Admitted are completions and
    failures of steps, retries, loop continues, timers, inputs, completions of
    map instances, matched and expired waits, approvals, child results,
    cancellations and lifecycle reports; not admitted are failures of map
    instances ([late_instance_failure] below breaks the property with one),
    completions of planners, sleep and wait completions and reports of steps
    that carry no dispatch, and events without an identity under the legacy
    setting. *)
Theorem events_causality (run : WorkflowRun) :
  event_reachable LoadLocation perm rule_order def run →
  (finalized run ∧ ∀ id, active_status (status_of (wr_Steps run) id) = false) ∨
  (∀ s d, s ∈ wd_Steps def → d ∈ sd_DependsOn s →
     status_of (wr_Steps run) (sd_ID s) ≠ StepStatusPending →
     status_of (wr_Steps run) d = StepStatusCompleted ∨
     status_of (wr_Steps run) d = StepStatusSkipped) ∧
  (∀ m, step_limit def = Some m → countActiveSteps run ≤ m) ∧
  (IsTerminal (wr_Status run) = false →
     ∀ id, status_of (wr_Steps run) id ≠ StepStatusFailed) ∧
  (wr_Status run = RunStatusCompleted → all_resolved def (wr_Steps run)).
Proof using Hperm Hrule Hvalid Hhandlers Hattach.
  destruct valid_plain as [Hp Hl]. intros Hr.
  destruct (event_reachable_ok def Hp Hl Hattach _ _ _ run Hr) as (runID & _ & [[Hf Hs]|Hc]);
    [right|left; by destruct Hc].
  split_and!; [|apply (ft_cap _ _ _ _ Hf)|done|apply (ft_done _ _ _ _ Hf)].
  intros s d Hin Hd Hst. destruct (ft_steps _ _ _ _ Hf) as [Hca Hli _ _].
  pose proof (Hca s d Hin Hst Hd) as Hres. destruct (Hli d) as [_ Hn]. revert Hres Hn.
  destruct (status_of (wr_Steps run) d); cbn; auto; done.
Qed.

(** C5: for a validated workflow without failure handlers, compensations and
    detached sub-workflows, every snapshot that the handler of an event admitted
    by [event_ok] writes, in any of its saves and whatever its calls return, is
    well formed when the runs it finds are: under the run's own id, with JSON
    outputs, the steps of [dispatched_ids] under a nonce, and the invariant of
    [events_causality].  The events that are not admitted are those named
    there. *)
Theorem handlers_well_typed (runID : string) (dispatched_ids : list string) (x : external)
    (evt : protocol.Event) :
  runID ≠ "" → external_ok x → event_ok def dispatched_ids evt →
  writes (run_ok def runID dispatched_ids) (dispatchEvent x def evt).
Proof using Hperm Hrule Hvalid Hhandlers Hattach.
  destruct valid_plain as [Hp Hl]. intros Hid. by apply dispatchEvent_writes.
Qed.

(** C4: when the engines of a cluster handle concurrently, on one run of a
    validated workflow without failure handlers, compensations and detached
    sub-workflows, any events admitted by [event_ok], repeated starts and spawns
    included, every version of the run that is ever stored is well formed: the
    invariant of a single engine carries over.  [dispatched_ids] are the steps
    that carry a dispatch in the version the engines begin with, and hence in
    every later one; the reports and completions that [event_ok] ties to a
    dispatch are of these steps. *)
Theorem cluster_safe {B : Type} `{!Kv stored B, !KvLaws stored B} (runID : string)
    (dispatched_ids : list string) (handlers : list script) (stops : list (nat → bool))
    (w w' : cluster (B := B)) (ps : list (io storeE unit)) :
  runID ≠ "" → Forall (handler def dispatched_ids) handlers →
  cluster_ok runID handlers (run_ok def runID dispatched_ids) w →
  rtc (pool_step (cluster_reply runID) (λ _ _, False))
    (w, (λ h, handle_event h.1 runID h.2) <$> zip stops handlers) (w', ps) →
  Forall (run_ok def runID dispatched_ids) (cl_versions w').
Proof using Hperm Hrule Hvalid Hhandlers Hattach.
  destruct valid_plain as [Hp Hl]. intros Hid Hh Hok Hsteps.
  destruct (cluster_sound runID handlers (run_ok def runID dispatched_ids))
    with (pool := zip stops handlers) (w := w) (w' := w') (ps := ps)
    as (_ & _ & Hinv & _); try done.
  - intros run [[[] _]|[]]; done.
  - eapply Forall_impl; [exact Hh|]. intros s. by apply handler_writes.
  - apply Forall_forall. intros [stop h] Hin. by eapply elem_of_zip_r.
Qed.
End Validated.

(** ** The sample runs *)

Lemma done_event_ok def ids id :
  isMapInstanceID id = false → id ≠ "" →
  (∀ base idx, parseMapInstanceID id ≠ Ret (base, idx)) →
  (∀ s, findStepDef def id = Some s → sd_Type s = StepTypeNormal) →
  event_ok def ids (done_event id).
Proof.
  intros Hm Hne Hp Hty. split; simpl.
  - apply (done_payload id).
  - intros _. left. split; [done|]. intros s Hs. by rewrite (Hty s Hs).
  - intros _ s Hs. by rewrite (Hty s Hs).
  - intros _ base idx H. by destruct (Hp base idx).
  - done.
  - by intros [?|?].
Qed.

Lemma nap_begun : begun utc_only (λ l, l) (λ l, l) nap_def (started_run nap_def).
Proof.
  apply (begun_start utc_only (λ l, l) (λ l, l) nap_def (sample_start nap_def) start_event
    (default (RawBad "") (protocol.Payload start_event)) false (started_run nap_def)).
  vm_compute. reflexivity.
Qed.

Lemma handled_step def run evt :
  event_ok def (dispatched_of run) evt → event_step def run (handled def run evt).
Proof.
  intros He. eexists. split; [by apply (handler_event _ _ sample_x evt sample_x_ok)|apply alone_reaches].
Qed.

Lemma nap_reachable : event_reachable utc_only (λ l, l) (λ l, l) nap_def nap_woken.
Proof.
  exists (started_run nap_def), sample_host, (λ _, sample_draws), nap_started.
  split; [apply nap_begun|]. split; [apply alone_reaches|].
  apply (rtc_l _ _ nap_paused); [|apply rtc_once]; apply handled_step.
  - apply done_event_ok; [reflexivity|discriminate|vm_compute; discriminate|].
    intros s. vm_compute. by intros [= <-].
  - split; simpl.
    + by intros r.
    + intros _. right. apply (bool_decide_unpack _). vm_compute. reflexivity.
    + intros _ s. vm_compute. by intros [= <-].
    + intros _ base idx. vm_compute. discriminate.
    + done.
    + by intros [?|?].
Qed.

Lemma events_causality_witness :
  (finalized nap_woken ∧ ∀ id, active_status (status_of (wr_Steps nap_woken) id) = false) ∨
  (∀ s d, s ∈ wd_Steps nap_def → d ∈ sd_DependsOn s →
     status_of (wr_Steps nap_woken) (sd_ID s) ≠ StepStatusPending →
     status_of (wr_Steps nap_woken) d = StepStatusCompleted ∨
     status_of (wr_Steps nap_woken) d = StepStatusSkipped) ∧
  (∀ m, step_limit nap_def = Some m → countActiveSteps nap_woken ≤ m) ∧
  (IsTerminal (wr_Status nap_woken) = false →
     ∀ id, status_of (wr_Steps nap_woken) id ≠ StepStatusFailed) ∧
  (wr_Status nap_woken = RunStatusCompleted → all_resolved nap_def (wr_Steps nap_woken)).
Proof.
  apply (events_causality utc_only (λ l, l) (λ l, l) nap_def (λ l, reflexivity l)
    (λ l, reflexivity l) nap_valid (proj1 nap_supported) (proj2 nap_supported)).
  apply nap_reachable.
Defined.

Lemma compile_event_ok ids : event_ok pipe_def ids (done_event "compile").
Proof.
  apply done_event_ok; [reflexivity|discriminate|vm_compute; discriminate|].
  intros s. vm_compute. by intros [= <-].
Qed.

Lemma pipe_attached : no_detach pipe_def.
Proof.
  intros s cfg Hs. unfold pipe_def, pipe_steps in Hs. cbn [wd_Steps] in Hs.
  repeat (apply elem_of_cons in Hs as [->|Hs]; [done|]). by apply elem_of_nil in Hs.
Qed.

Lemma handlers_well_typed_witness :
  writes (run_ok pipe_def "run-1" []) (dispatchEvent sample_x pipe_def (done_event "compile")).
Proof.
  apply (handlers_well_typed utc_only (λ l, l) (λ l, l) pipe_def (λ l, reflexivity l)
    (λ l, reflexivity l) pipe_valid (proj1 pipe_no_recovery) pipe_attached "run-1" [] sample_x).
  - discriminate.
  - apply sample_x_ok.
  - apply compile_event_ok.
Defined.

(** ** Several engines on one run *)

(** C3: engines that handle events of one run concurrently, each loading the
    snapshot, computing what to save, saving by compare-and-set with retries on
    conflict, and amending what it saved, leave a chain of versions: every
    stored version is one some handler writes over the version stored before
    it, so that no update is lost and the interleaving is as if one engine had
    done the saves in that order.  Calls may fail or lose their reply, and
    engines may stop anywhere. *)
Theorem cluster_serializable {B : Type} `{!Kv stored B, !KvLaws stored B} (runID : string)
    (handlers : list script) (Inv : WorkflowRun → Prop) (pool : list ((nat → bool) * script))
    (w w' : cluster (B := B)) (ps : list (io storeE unit)) :
  runID ≠ "" → (∀ run, Inv run → wr_RunID run = runID) → Forall (writes Inv) handlers →
  Forall (λ h, h.2 ∈ handlers) pool → cluster_ok runID handlers Inv w →
  rtc (pool_step (cluster_reply runID) (λ _ _, False))
    (w, (λ h, handle_event h.1 runID h.2) <$> pool) (w', ps) →
  chain handlers (cl_versions w') ∧ Forall Inv (cl_versions w') ∧
  ∃ run, head (cl_versions w') = Some run ∧ version runID (kw_b (cl_kv w')) = Some run.
Proof.
  intros Hid Hname Hh Hpool Hok Hsteps.
  by destruct (cluster_sound runID handlers Inv Hid Hname Hh pool w w' ps Hpool Hok Hsteps)
    as (_ & ? & ? & ?).
Qed.

(** Cluster calls answered exactly. *)
Definition cluster_exact (runID : string) R (w : cluster (B := bucket stored)) (e : storeE R)
    : cluster (B := bucket stored) * R :=
  let kv' := kv_after (cl_kv w) e in
  (MkCluster kv'
     (if decide (kv_rev (kw_b kv') (run_key runID) = kv_rev (kw_b (cl_kv w)) (run_key runID))
      then cl_versions w
      else match version runID (kw_b kv') with
           | Some run => run :: cl_versions w
           | None => cl_versions w
           end),
   (kv_exec (kw_b (cl_kv w)) e).2).

Lemma cluster_exact_reply runID R w (e : storeE R) :
  cluster_reply runID R w e (cluster_exact runID R w e).1 (cluster_exact runID R w e).2.
Proof. split; [left; by split; [|left]|done]. Qed.

(** Two engines receive the same completion of [compile] while the run is
    stored as [pipe_started], whose task was saved and never marked sent: both
    load it, one loses its save and starts over, the winner dispatches [lint]. *)
Definition pipe_bucket : bucket stored := MkBucket 0 [(run_key "run-1", 0, Some (SRun pipe_started))].
Definition pipe_cluster : cluster (B := bucket stored) :=
  MkCluster (MkKvw pipe_bucket []) [pipe_started].
Definition pipe_script : script := dispatchEvent sample_x pipe_def (done_event "compile").

Definition cluster_race : cluster (B := bucket stored) * list (io storeE unit) :=
  drive (cluster_exact "run-1") [0; 1; 0; 1; 0; 1; 0; 1; 0; 1; 0; 1; 0; 0; 0; 0; 1; 1; 1]%nat
    (pipe_cluster,
     (λ h, handle_event h.1 "run-1" h.2) <$> [((λ _, false), pipe_script); ((λ _, false), pipe_script)]).

Lemma pipe_ok : run_ok pipe_def "run-1" [] pipe_started.
Proof.
  destruct (valid_plain utc_only (λ l, l) (λ l, l) pipe_def) as [Hp Hl];
    [reflexivity|reflexivity|apply pipe_valid|apply pipe_no_recovery|].
  left. destruct (fresh_fit pipe_def Hl (fresh_run pipe_def)) as [Hf Hs];
    [split; [done|done|done|apply fresh_run_pending]|].
  destruct (pass_fit pipe_def "run-1" [] Hp Hl ltac:(done) sample_id sample_clock
    (fresh_run pipe_def) pipe_started
    (PassDispatch [step_def "compile" "ci.compile" StepTypeNormal]) Hf Hs) as (? & ? & _);
    [vm_compute; reflexivity|done].
Qed.

Lemma pipe_cluster_ok Inv handlers :
  Inv pipe_started → cluster_ok "run-1" handlers Inv pipe_cluster.
Proof.
  intros Hinv. split; [intros k x Hx; inversion Hx|]. split; [exact I|].
  split; [constructor; [exact Hinv|constructor]|].
  exists pipe_started. split; [reflexivity|vm_compute; reflexivity].
Qed.

Lemma pipe_script_writes : writes (run_ok pipe_def "run-1" []) pipe_script.
Proof.
  destruct (valid_plain utc_only (λ l, l) (λ l, l) pipe_def) as [Hp Hl];
    [reflexivity|reflexivity|apply pipe_valid|apply pipe_no_recovery|].
  apply (dispatchEvent_writes pipe_def "run-1" [] Hp Hl); [done|apply pipe_attached|
    apply sample_x_ok|apply compile_event_ok].
Qed.

Lemma cluster_serializable_witness :
  (chain [pipe_script] (cl_versions cluster_race.1) ∧
   Forall (run_ok pipe_def "run-1" []) (cl_versions cluster_race.1) ∧
   ∃ run, head (cl_versions cluster_race.1) = Some run ∧
     version "run-1" (kw_b (cl_kv cluster_race.1)) = Some run) ∧
  length (cl_versions cluster_race.1) = 5%nat.
Proof.
  split; [|vm_compute; reflexivity].
  apply (cluster_serializable "run-1" [pipe_script] (run_ok pipe_def "run-1" [])
    [((λ _, false), pipe_script); ((λ _, false), pipe_script)]
    pipe_cluster cluster_race.1 cluster_race.2).
  - discriminate.
  - intros run [[[] _]|[]]; assumption.
  - constructor; [apply pipe_script_writes|constructor].
  - repeat constructor.
  - apply pipe_cluster_ok, pipe_ok.
  - unfold cluster_race. rewrite <-surjective_pairing. apply drive_rtc, cluster_exact_reply.
Defined.

Lemma cluster_safe_witness : Forall (run_ok pipe_def "run-1" []) (cl_versions cluster_race.1).
Proof.
  apply (cluster_safe utc_only (λ l, l) (λ l, l) pipe_def (λ l, reflexivity l)
    (λ l, reflexivity l) pipe_valid (proj1 pipe_no_recovery) pipe_attached "run-1" []
    [pipe_script; pipe_script] [(λ _, false); (λ _, false)] pipe_cluster
    cluster_race.1 cluster_race.2).
  - discriminate.
  - pose proof (handler_event _ _ sample_x _ sample_x_ok (compile_event_ok [])) as Hev.
    constructor; [exact Hev|]. constructor; [exact Hev|constructor].
  - apply pipe_cluster_ok, pipe_ok.
  - unfold cluster_race. rewrite <-surjective_pairing. apply drive_rtc, cluster_exact_reply.
Defined.

(** ** Maps *)

(** The ID of a map instance is read back as its step and its index, and is
    recognised as an instance, for every index and every step ID without a dot. *)
Theorem instance_id_roundtrip (stepID : string) (index : Z) :
  str_contains_char "."%char stepID = false → 0 ≤ index ≤ int64_max →
  parseMapInstanceID (mapInstanceID stepID index) = Ret (stepID, index) ∧
  isMapInstanceID (mapInstanceID stepID index) = true.
Proof. intros Hs Hi. split; [by apply parse_instance|by apply instance_is_instance]. Qed.

Lemma instance_id_roundtrip_witness :
  parseMapInstanceID (mapInstanceID "resize" 12) = Ret ("resize", 12) ∧
  isMapInstanceID (mapInstanceID "resize" 12) = true.
Proof. apply (instance_id_roundtrip "resize" 12); [reflexivity|unfold int64_max; lia]. Defined.

(** C26: a map step collects its outputs in the order of the items: from a
    running map step with [n] queued instances, the completions of the
    instances, in any order, leave the step running until the last one, which
    completes it with the array of all outputs by index, whatever the order,
    and hands the run on to its end or its next dispatch pass. *)
Theorem map_outputs_in_order (h : host) (ds : nat → draws) (now : Time) (en : ending)
    (def : WorkflowDef) (base : string) (n : nat) (out : nat → option raw) (v : nat → json)
    (evt : nat → protocol.Event) (order : list nat) (last : nat) (run : WorkflowRun) :
  str_contains_char "."%char base = false → Z.of_nat n ≤ int64_max → IsZero now = false →
  (∀ i, protocol.StepID (evt i) = mapInstanceID base (Z.of_nat i)) →
  (∀ i, protocol.Payload (evt i) = out i) → (∀ i, marshal_output (out i) = Ret (v i)) →
  order ++ [last] ≡ₚ seq 0 n →
  wr_RunID run ≠ "" → status_of (wr_Steps run) base = StepStatusRunning →
  ss_MapInstances (step_at (wr_Steps run) base) = replicate n queued_instance →
  let before := foldl (deliver_instance h ds now en def evt) run order in
  status_of (wr_Steps before) base = StepStatusRunning ∧
  ∃ st run1, ss_Status st = StepStatusCompleted ∧
    ss_Output st = Some (RawJson (JArr (v <$> seq 0 n))) ∧
    handleMapInstanceCompleted h ds now en def before (evt last) =
      continue_run h ds now en def (set_step base st run1) ∧
    ∀ id, id ≠ base → step_at (wr_Steps run1) id = step_at (wr_Steps before) id.
Proof.
  intros Hb Hn Hnow Hid Hout Hv Hperm Hrid Hst Hinst before.
  assert (NoDup (order ++ [last])) as Hnd by (rewrite Hperm; apply NoDup_seq).
  assert (∀ i, i ∈ order ++ [last] ↔ (i < n)%nat) as Hin
    by (intros i; rewrite Hperm, elem_of_seq; lia).
  assert (length order + 1 = n)%nat as Hlen
    by (rewrite <-(length_seq n 0), <-Hperm, length_app; done).
  assert (mapping base n out [] run) as Hm.
  { split; [done|done|]. by rewrite Hinst, instances_nil. }
  apply (deliver_all h ds now en def base n out evt Hb Hn Hid Hout Hnow order) in Hm;
    rewrite ?app_nil_r; [|by apply NoDup_app in Hnd as (? & _)| |lia].
  2:{ intros i Hi. apply Hin, elem_of_app. by left. }
  rewrite app_nil_r in Hm. split; [apply Hm|].
  destruct (deliver_last h ds now en def base n out v evt Hb Hn Hid Hout Hv (reverse order) before last)
    as (st & H1 & H2 & run1 & H3 & H4); [apply Hin, elem_of_app; right; by left|done| |eauto 10].
  intros j Hj%Hin. revert Hj. rewrite elem_of_app, list_elem_of_singleton, elem_of_cons, elem_of_reverse.
  tauto.
Qed.

(** Two instances of [resize], the second done first. *)
Definition resize_def : WorkflowDef := workflow_def "gallery"
  [step_def "list" "fs.list" StepTypeNormal;
   sd_set_DependsOn ["list"] (step_def "resize" "img.resize" StepTypeMap);
   sd_set_DependsOn ["resize"] (step_def "upload" "fs.upload" StepTypeNormal)].

Definition resize_state : StepState :=
  ss_set_MapInstances [queued_instance; queued_instance]
    (ss_set_DispatchNonce "m" (step_state StepStatusRunning)).

Definition resize_run : WorkflowRun :=
  set_step "resize" resize_state
    (set_step "list" (step_state StepStatusCompleted) (fresh_run resize_def)).

Definition resized (i : nat) : protocol.Event := {|
  protocol.Type_ := protocol.EventStepCompleted; protocol.RunID := "run-1";
  protocol.StepID := mapInstanceID "resize" (Z.of_nat i); protocol.Timestamp := 5;
  protocol.Payload := Some (RawJson (JStr (sample_id i))); protocol.TraceParent := "";
  protocol.TraceState := ""; protocol.WorkerID := "w"; protocol.AttemptNumber := 1;
  protocol.Iteration := None; protocol.DispatchNonce := ""; protocol.JournalSeq := 0;
  protocol.InputRequestID := "" |}.

Lemma map_outputs_in_order_witness :
  status_of (wr_Steps (foldl (deliver_instance sample_host (λ _, sample_draws) 5 sample_end resize_def
    resized)
    resize_run [1%nat])) "resize" = StepStatusRunning ∧
  ∃ st run1, ss_Status st = StepStatusCompleted ∧
    ss_Output st = Some (RawJson (JArr [JStr "a"; JStr "b"])) ∧
    handleMapInstanceCompleted sample_host (λ _, sample_draws) 5 sample_end resize_def
      (foldl (deliver_instance sample_host (λ _, sample_draws) 5 sample_end resize_def
    resized)
         resize_run [1%nat]) (resized 0) =
      continue_run sample_host (λ _, sample_draws) 5 sample_end resize_def
        (set_step "resize" st run1) ∧
    ∀ id, id ≠ "resize" → step_at (wr_Steps run1) id =
      step_at (wr_Steps (foldl (deliver_instance sample_host (λ _, sample_draws) 5 sample_end resize_def
        resized) resize_run [1%nat])) id.
Proof.
  apply (map_outputs_in_order sample_host (λ _, sample_draws) 5 sample_end resize_def "resize" 2
    (λ i, Some (RawJson (JStr (sample_id i)))) (λ i, JStr (sample_id i)) resized [1%nat] 0
    resize_run); try reflexivity; try discriminate.
  apply (Permutation_swap 0%nat 1%nat []).
Defined.

(** ** Waits of agent loops *)

(** C27: a wait of an agent loop ends once: whichever of the timer and a
    submitted input wakes the step first, the run it saves answers every later
    timer of the step with nothing, and a later input with at most a flag; no
    second iteration is sent. *)
Theorem wait_ends_once (routes : StepType → option string) (policy : option GrantPolicy) (mx : Z)
    (def : WorkflowDef) (d : loop_draws) (run saved : WorkflowRun) (evt : protocol.Event) :
  first_write (handleWaitElapsed routes policy mx d def run evt) saved ∨
  (ss_WaitInput (step_at (wr_Steps run) (protocol.StepID evt)) = true ∧
   first_write (handleInputQueued routes policy mx d def run evt) saved) →
  ∀ d' evt', protocol.StepID evt' = protocol.StepID evt → protocol.StepID evt' ≠ "" →
    protocol.RunID evt' ≠ "" →
    (protocol.Type_ evt' = EventStepWaitElapsed →
       handleWaitElapsed routes policy mx d' def saved evt' = Finish (Ret tt)) ∧
    ((∃ o, handleInputQueued routes policy mx d' def saved evt' = Finish o) ∨
     handleInputQueued routes policy mx d' def saved evt' =
       persist (ld_save d') (set_step (protocol.StepID evt')
         (ss_set_HasInputs true (step_at (wr_Steps saved) (protocol.StepID evt'))) saved)
         (λ _, Finish (Ret tt))).
Proof.
  intros Hw d' evt' Hid Hne Hr.
  assert (awake saved (protocol.StepID evt')) as Ha.
  { rewrite Hid. destruct Hw as [Hw|[Hi Hw]]; [by eapply wait_elapsed_awake|by eapply input_queued_awake]. }
  split; [intros Ht; by apply awake_timer|].
  destruct (awake_input routes policy mx def d' saved evt' Ha) as [?|(st & -> & ?)]; auto.
Qed.

(** An agent loop that waits for a time and an input. *)
Definition poll_def : WorkflowDef := workflow_def "poll"
  [sd_set_Config (Some (RawJson (JObj [("max_iterations", JInt 9)])))
     (step_def "watch" "agent.watch" StepTypeAgentLoop)].

Definition poll_run : WorkflowRun :=
  set_step "watch" (ss_set_WaitInput true (ss_set_WaitUntil (Some 4)
    (ss_set_Iterations 1 (ss_set_DispatchNonce "w" (step_state StepStatusRunning)))))
    (fresh_run poll_def).

Definition elapsed_event : protocol.Event := {|
  protocol.Type_ := EventStepWaitElapsed; protocol.RunID := "run-1";
  protocol.StepID := "watch"; protocol.Timestamp := 5; protocol.Payload := None;
  protocol.TraceParent := ""; protocol.TraceState := ""; protocol.WorkerID := "";
  protocol.AttemptNumber := 1; protocol.Iteration := Some 1; protocol.DispatchNonce := "w";
  protocol.JournalSeq := 0; protocol.InputRequestID := "" |}.

(** What a script saves first, or the run it was given. *)
Definition written (s : script) (run : WorkflowRun) : WorkflowRun :=
  match s with SaveThen saved _ => saved | _ => run end.

Lemma written_first s run :
  match s with SaveThen _ _ => true | _ => false end = true → first_write s (written s run).
Proof. destruct s as [|saved k| |]; [done| |done|done]. intros _. by exists k. Qed.

Lemma wait_ends_once_witness :
  let elapsed := handleWaitElapsed (λ _, None) None 100 sample_loop poll_def in
  first_write (elapsed poll_run elapsed_event) (written (elapsed poll_run elapsed_event) poll_run) ∧
  elapsed (written (elapsed poll_run elapsed_event) poll_run) elapsed_event = Finish (Ret tt).
Proof.
  intros elapsed.
  assert (first_write (elapsed poll_run elapsed_event)
    (written (elapsed poll_run elapsed_event) poll_run)) as Hw.
  { apply written_first. vm_compute. reflexivity. }
  split; [exact Hw|].
  apply (wait_ends_once (λ _, None) None 100 poll_def sample_loop poll_run _ elapsed_event
    (or_introl Hw) sample_loop elapsed_event); [reflexivity|discriminate|discriminate|reflexivity].
Defined.

(** ** Resends *)

(** C28: a resend covers exactly the steps whose dispatch was saved and not
    marked sent, each once, and when every send lands its amendment does not
    panic and leaves no mark on the run it was planned on, so that nothing is
    sent a third time. *)
Theorem resend_exact (queued : StepDef → outcome bool) (d : draws) (def : WorkflowDef)
    (run : WorkflowRun) (plan : dispatchPlan) :
  planResend queued d def run = Ret plan →
  plan_ids plan ≡ₚ sd_ID <$> filter (unsent run) (wd_Steps def) ∧
  ∀ sent, sendPlan d plan = (sent, true) →
    ∃ o, clearUnsent (sent_nonces run sent) run = Ret o ∧
      ∀ s, s ∈ wd_Steps def →
        ss_DispatchUnsent (step_at (wr_Steps (default run o)) (sd_ID s)) = false.
Proof.
  intros Hp. pose proof (planResend_ids _ _ _ _ _ Hp) as Hids. split; [done|].
  intros sent Hs%sendPlan_all. rewrite Hids in Hs.
  destruct (clearUnsent_ret run sent) as (o & Ho & Hm).
  { intros id. rewrite Hs, list_elem_of_fmap. intros (s & -> & [Hu _]%list_elem_of_filter).
    unfold unsent, step_at in Hu. by destruct (wr_Steps run !! sd_ID s). }
  exists o. split; [done|]. intros s Hin. rewrite Hm.
  destruct (ss_DispatchUnsent (step_at (wr_Steps run) (sd_ID s))) eqn:Hu; [|done].
  rewrite bool_decide_eq_true_2; [done|]. rewrite Hs. apply (list_elem_of_fmap_2 sd_ID).
  by apply list_elem_of_filter.
Qed.

Lemma resend_exact_witness :
  ∃ plan, planResend (λ _, Ret false) sample_draws pipe_def pipe_started = Ret plan ∧
    plan_ids plan ≡ₚ ["compile"].
Proof.
  eexists. split; [vm_compute; reflexivity|].
  apply (resend_exact (λ _, Ret false) sample_draws pipe_def pipe_started). vm_compute. reflexivity.
Defined.

(** ** Starting runs *)



(** A start event that is delivered again finds its run stored and creates
    nothing: a run that is not running, or one of no terminal chain with no
    step ready, is left as it is, and otherwise the event does one more
    dispatch pass on it. *)
Theorem start_redelivered (h : host) (ds : nat → draws) (def : WorkflowDef) (chain : bool)
    (create : script) (evt : protocol.Event) (run : WorkflowRun) :
  protocol.RunID evt ≠ "" → wr_RunID run ≠ "" →
  alone (startExistingRun h ds (Ret tt) def chain create evt) run =
  if bool_decide (wr_Status run = RunStatusRunning ∧
       (chain = true ∨ ResolveReady def (completedSet run) (queuedSet run) ≠ []))
  then alone (dispatchPass h (passes def) ds def run) run else (run, Ret tt).
Proof.
  intros He%empty_str_false Hr%empty_str_false. unfold startExistingRun, healRun.
  rewrite He. cbn [panic_if attempt alone]. unfold hasReadyPendingSteps. rewrite Hr.
  destruct (decide (wr_Status run = RunStatusRunning)) as [Hs|Hs].
  2:{ rewrite !(bool_decide_eq_false_2 (wr_Status run = RunStatusRunning)), (bool_decide_eq_false_2 (_ ∧ _)) by tauto.
      destruct chain; cbn; by rewrite ?Hr. }
  rewrite !(bool_decide_eq_true_2 (wr_Status run = _)) by done.
  destruct (decide (ResolveReady def (completedSet run) (queuedSet run) = [])) as [Hl|Hl].
  - rewrite (bool_decide_eq_true_2 (ResolveReady _ _ _ = [])) by done. destruct chain; cbn; rewrite ?Hr.
    + by rewrite bool_decide_eq_true_2 by auto.
    + by rewrite bool_decide_eq_false_2 by (intros (_ & [|]); done).
  - rewrite (bool_decide_eq_false_2 (ResolveReady _ _ _ = [])), (bool_decide_eq_true_2 (_ ∧ _)) by auto.
    by destruct chain; cbn; rewrite ?Hr.
Qed.

Lemma start_redelivered_witness :
  alone (startExistingRun sample_host (λ _, sample_draws) (Ret tt) nap_def false (Finish (Ret tt))
           start_event) nap_started = (nap_started, Ret tt).
Proof.
  rewrite (start_redelivered sample_host (λ _, sample_draws) nap_def false (Finish (Ret tt))
    start_event nap_started); [|discriminate|vm_compute; discriminate].
  vm_compute. reflexivity.
Defined.


Definition spawn_body : raw := RawJson (JObj [("child_run_id", JStr "run-2");
  ("child_workflow", JStr "nap"); ("parent_step_id", JStr "ship"); ("detach", JBool false)]).

Definition sample_spawn : start_env := {|
  se_hash := λ _, "hash"; se_now := 2; se_saved := 2; se_decode := λ _, Ret nap_def;
  se_defs := λ _, Ret (RawJson JNull); se_admit := λ _ _ _, Ret zero_admission;
  se_cancelled := λ _, Ret tt; se_err_text := λ _, "error" |}.





(** A chain of three runs; the read of its youngest one fails. *)
Definition chain_run (parent : string) : WorkflowRun := wr_set_ParentRunID parent (started_run nap_def).
Definition three_runs (id : string) : option WorkflowRun :=
  if bool_decide (id = "run-1") then Some (chain_run "run-b")
  else if bool_decide (id = "run-b") then Some (chain_run "run-a")
  else if bool_decide (id = "run-a") then Some (chain_run "") else None.
Definition one_read_fails (k : nat) (id : string) : option WorkflowRun :=
  match k with O => None | _ => three_runs id end.

(** The limit is passed when a read of the check fails: the spawn from the
    third run of a chain is refused when its reads are answered, and creates a
    fourth run when the first of them is not. *)
Theorem nesting_limit_passed :
  nestingDepth (λ _, three_runs) "run-1" = 2%nat ∧
  is_ret (handleWorkflowSpawn sample_spawn (λ _, three_runs) (Ret (chain_run "run-b")) start_event spawn_body) = false ∧
  match handleWorkflowSpawn sample_spawn one_read_fails (Ret (chain_run "run-b")) start_event spawn_body with
  | Ret (_, run) => wr_RunID run = "run-2" ∧ wr_ParentRunID run = "run-1"
  | _ => False
  end.
Proof. vm_compute. repeat split. Qed.

(** ** Three races *)

(** [spawn] starts a child and goes on; [work] is a task; [next] follows
    [spawn]. *)
Definition fork_def : WorkflowDef := workflow_def "fork"
  [sd_set_Config (Some (RawJson (JObj [("workflow", JStr "child"); ("detach", JBool true)])))
     (step_def "spawn" "" StepTypeSubWorkflow);
   step_def "work" "t.work" StepTypeNormal;
   sd_set_DependsOn ["spawn"] (step_def "next" "t.next" StepTypeNormal)].

(** A cancellation that lands between the save of a dispatch pass and its
    mark is undone in part: the mark reloads the cancelled run, and because a
    detached sub-workflow lets the run continue, the pass goes on from it and
    dispatches steps of the cancelled run again. *)
Theorem cancelled_run_dispatched :
  match dispatchPass sample_host 3 (λ _, sample_draws) fork_def (fresh_run fork_def) with
  | SaveThen saved (AmendThen _ amend continue) =>
      let cancelled :=
        (alone (handleWorkflowCancelled sample_end None saved (done_event "work")) saved).1 in
      wr_Status cancelled = RunStatusCancelled ∧
      status_of (wr_Steps cancelled) "work" = StepStatusCancelled ∧
      match amend cancelled with
      | Ret (Some amended) =>
          let after := (alone (continue amended) amended).1 in
          wr_Status after = RunStatusCancelled ∧
          status_of (wr_Steps after) "work" = StepStatusQueued ∧
          status_of (wr_Steps after) "next" = StepStatusQueued
      | _ => False
      end
  | _ => False
  end.
Proof. vm_compute. repeat split. Qed.

(** A pending run that is promoted when a slot frees is not checked to be
    pending still: whatever its status when it is loaded, the first version
    saved is running and the run is dispatched, so that a run cancelled while it
    was queued comes back. *)
Theorem cancelled_run_revived (h : host) (ds : nat → draws) (now saved_at : Time)
    (def : WorkflowDef) (run : WorkflowRun) :
  wr_RunID run ≠ "" → IsZero saved_at = false →
  ∃ revived, wr_Status revived = RunStatusRunning ∧ wr_CompletedAt revived = wr_CompletedAt run ∧
    reaches (transitionPendingToRunning h ds (Ret tt) (Ret true) now saved_at def (wr_RunID run))
      run revived ∧
    alone (transitionPendingToRunning h ds (Ret tt) (Ret true) now saved_at def (wr_RunID run)) run =
      alone (dispatchPass h (passes def) ds def revived) revived.
Proof.
  intros Hid%empty_str_false Hz. unfold transitionPendingToRunning, persist, saveSnapshot,
    stampTerminalSteps. rewrite Hid. cbn [panic_if attempt alone]. exists (wr_set_Steps
      (stamp_terminal saved_at <$> wr_Steps (promote now def run)) (promote now def run)).
  assert (wr_RunID (promote now def run) = wr_RunID run) as Hp
    by (unfold promote; destruct run; by case_match).
  split_and!; [unfold promote; destruct run; by case_match..| |].
  - constructor. destruct (wd_Concurrency def); cbn; rewrite Hz, Hp, Hid; cbn; constructor; constructor.
  - by destruct (wd_Concurrency def); cbn; rewrite Hz, Hp, Hid; cbn.
Qed.

Lemma cancelled_run_revived_witness :
  ∃ revived, wr_Status revived = RunStatusRunning ∧
    reaches (transitionPendingToRunning sample_host (λ _, sample_draws) (Ret tt) (Ret true) 5 6
               nap_def "run-1") (wr_set_Status RunStatusCancelled (started_run nap_def)) revived.
Proof.
  destruct (cancelled_run_revived sample_host (λ _, sample_draws) 5 6 nap_def
    (wr_set_Status RunStatusCancelled (started_run nap_def))) as (r & Hr & _ & Hs & _);
    [vm_compute; discriminate|vm_compute; reflexivity|].
  exists r. split; [exact Hr|exact Hs].
Defined.

Definition resize_failed : protocol.Event := {|
  protocol.Type_ := protocol.EventStepFailed; protocol.RunID := "run-1";
  protocol.StepID := mapInstanceID "resize" 0; protocol.Timestamp := 6;
  protocol.Payload := None; protocol.TraceParent := ""; protocol.TraceState := "";
  protocol.WorkerID := "w"; protocol.AttemptNumber := 1; protocol.Iteration := None;
  protocol.DispatchNonce := ""; protocol.JournalSeq := 0; protocol.InputRequestID := "" |}.

(** Events of map instances are not fenced: the late failure of an instance
    of a map step that already completed turns the step into a failed one and
    fails the run, although its dependents have been started. *)
Theorem late_instance_failure :
  let done_run := handled resize_def (handled resize_def resize_run (resized 1)) (resized 0) in
  let failed_run := handled resize_def done_run resize_failed in
  status_of (wr_Steps done_run) "resize" = StepStatusCompleted ∧
  status_of (wr_Steps done_run) "upload" = StepStatusQueued ∧
  wr_Status done_run = RunStatusRunning ∧
  status_of (wr_Steps failed_run) "resize" = StepStatusFailed ∧
  wr_Status failed_run = RunStatusFailed.
Proof. vm_compute. repeat split. Qed.
