(* ===== verification/JournalTheorems.v ===== *)
(** * Theorems about the agent journal

    What the stored records of a step satisfy whatever its deliveries do and
    however their calls interleave, what is guaranteed of unsafe tools, and the
    schedules in which the code does less than that. *)

From S2P Require Import Prelude Float64 Json GoTime Cron Types Input Interleave Lease Snapshot Fence Planners Loops Starts MapSpec Journal JournalCheck JournalSpec.

#[local] Open Scope Z_scope.

(** The deliveries of a step's tasks: valid tasks that differ in iteration,
    attempt, message or delivery count, the deliveries of one message carrying
    one payload. *)
Record deliveries (runID stepID : string) (tasks : list Task) : Prop := {
  dv_ok : ∀ i t, tasks !! i = Some t → task_ok runID stepID t;
  dv_apart : ∀ i k t t', tasks !! i = Some t → tasks !! k = Some t' → i ≠ k →
    tk_Iteration t = tk_Iteration t' → tk_Attempt t = tk_Attempt t' →
    tk_StreamSeq t = tk_StreamSeq t' → tk_Delivered t ≠ tk_Delivered t';
  dv_message : ∀ i k t t', tasks !! i = Some t → tasks !! k = Some t' →
    tk_StreamSeq t = tk_StreamSeq t' → tk_StreamSeq t ≠ 0%N →
    tk_Iteration t = tk_Iteration t' ∧ tk_Attempt t = tk_Attempt t';
}.

(** The pool of a step's deliveries, each with the handler it runs. *)
Definition journal_pool {A} (h : host) (enc : encoders) (tasks : list Task)
    (handlers : list (Journal → act A)) : jworld * list (io journalE A) :=
  (start_world, zip_with (holder h enc) tasks handlers).

(** C12: No record of a journal is written after the claim that fenced its
    writer.  For any number of deliveries of a step's tasks that open its journal
    and run any handlers at once, for every interleaving of their calls, refused
    publishes, lost replies, deduplicated publishes and failed reads, every
    stored message decodes and the audit of fencing finds no violation. *)
Theorem journal_fencing {A} runID stepID subject tasks (handlers : list (Journal → act A)) h enc w ps :
  JournalSubject runID stepID = Ret subject →
  deliveries runID stepID tasks → length handlers = length tasks →
  rtc (pool_step (jreply subject) eq) (journal_pool h enc tasks handlers) (w, ps) →
  Z.of_nat (length (jw_log w)) ≤ recordsMax →
  ∃ records, mapM_outcome decode_entry (jw_log w) = Ret records ∧ checkFencing records = Ret [].
Proof.
  intros Hsub [Hok Hap Hme] Hlen Hs Hmax.
  destruct (pool_inv runID stepID subject tasks Hsub Hok Hap Hme false h enc handlers w ps) as [Hl _]; [done..|].
  exists (rec <$> jw_log w). split; [exact (log_decodes runID stepID subject tasks Hsub Hok Hap Hme false _ Hl)|].
  unfold checkFencing. rewrite length_fmap. destruct (Z.ltb_spec recordsMax (Z.of_nat (length (jw_log w)))); [lia|].
  by apply (fencing_clean runID stepID subject tasks Hsub Hok Hap Hme false (jw_log w) (jw_log w) []).
Qed.

(** C13: A tool declared unsafe is started at most once per idempotency key.  It
    holds when handlers call no more tools once an operation failed and none
    from inside a tool, and an iteration's tasks are messages delivered once
    each or one message delivered twice. *)
Theorem unsafe_at_most_once {A} runID stepID subject tasks (handlers : list (Journal → act A)) h enc w ps :
  JournalSubject runID stepID = Ret subject →
  deliveries runID stepID tasks → length handlers = length tasks →
  (∀ i handler j, handlers !! i = Some handler → prudent (handler j)) →
  (∀ i t, tasks !! i = Some t → delivered_twice tasks i t) →
  rtc (pool_step (jreply subject) eq) (journal_pool h enc tasks handlers) (w, ps) →
  NoDup (unsafe_runs (jw_runs w)).
Proof.
  intros Hsub [Hok Hap Hme] Hlen Hpr Htw Hs.
  destruct (pool_inv runID stepID subject tasks Hsub Hok Hap Hme true h enc handlers w ps) as [_ Hru]; try done.
  by destruct (Hru eq_refl).
Qed.

(** ** A stream that answers by a function *)

Section Serve.
Context (subject : string) (loses : jmsg → bool).

Definition publish (w : jworld) (m : jmsg) : jworld * (js_error + N) :=
  let id := hdr_get (jm_Header m) headerMsgID in
  match find_first (λ x, bool_decide (msg_id x = id)) (jw_log w) with
  | Some x => (w, inr (je_Seq x))
  | None =>
      let seq := (last_seq (jw_log w) + 1)%N in
      if negb (headerUint (jm_Header m) headerExpectedLastSeq =? last_seq (jw_log w))%N
      then (w, inl (JsApi JSErrCodeStreamWrongLastSequence))
      else if bool_decide (jm_Subject m = subject ∧ Z.of_N seq ≤ uint64_max)
      then (store w (MkJentry seq zero_time m), if loses m then inl JsTimeout else inr seq)
      else (w, inl JsNoResponders)
  end.

Definition serve R (w : jworld) (e : journalE R) : jworld * R :=
  match e in journalE R' return jworld * R' with
  | JStream => (w, None)
  | JPublish m => publish w m
  | JLast s => (w, match last (jw_log w) with Some x => inr x | None => inl JsMsgNotFound end)
  | JFetch s tail => (w, inr (List.filter (λ x, je_Seq x <=? tail)%N (jw_log w)))
  | JSleep _ => (w, tt)
  | JWait _ => (w, true)
  | JRun key replay => (MkJworld (jw_log w) (jw_runs w ++ [(key, replay)]), tt)
  | JAsk _ => (w, inr None)
  end.

Lemma publish_reply w m : jreply subject _ w (JPublish m) (publish w m).1 (publish w m).2.
Proof.
  cbn. unfold publish. destruct (find_first _ _) as [x|] eqn:Hx; cbn.
  { apply find_first_Some in Hx as [Hx Hid%bool_decide_eq_true]. right. split; [done|]. left. by exists x. }
  destruct (N.eqb_spec (headerUint (jm_Header m) headerExpectedLastSeq) (last_seq (jw_log w))) as [Hexp|]; cbn.
  2: { right. split; [done|]. right. eauto. }
  case_bool_decide as Hs; cbn; [|right; split; [done|]; right; eauto].
  left. exists (MkJentry (last_seq (jw_log w) + 1) zero_time m).
  split; [split_and!; cbn; [by destruct Hs|done|done|lia|by destruct Hs]|]. split; [done|].
  destruct (loses m); [right; eauto|by left].
Qed.

Lemma serve_reply R w (e : journalE R) : jreply subject R w e (serve R w e).1 (serve R w e).2.
Proof.
  destruct e; cbn [serve]; try done.
  - apply publish_reply.
  - cbn. split; [done|]. destruct (last (jw_log w)) as [x|] eqn:Hx; [done|].
    by apply last_None in Hx.
Qed.

Lemma serve_drive {A} h enc tasks (handlers : list (Journal → act A)) schedule :
  rtc (pool_step (jreply subject) eq) (journal_pool h enc tasks handlers)
    (drive serve schedule (journal_pool h enc tasks handlers)).
Proof. apply drive_rtc. apply serve_reply. Qed.
End Serve.

(** ** Concrete deliveries *)

Module Demo.
Definition h : host :=
  MkHost (λ _, Err (err_json "")) (λ _, None) (λ _, 0) (λ _, "") id (λ _, "") Some true None.
Definition enc : encoders := MkEncoders id (λ _, "").
Definition subject : string := "journal.run.step".

(** Delivery number [n] of the message of the only attempt. *)
Definition delivery (n : Z) : Task := MkTask "run" "step" 0 1 "nonce" n 7.

Definition pay : ToolCall := MkToolCall "pay" None 0 "".

(** One unsafe tool. *)
Definition payer (j : Journal) : act unit :=
  ATool pay Unsafe (λ _, AReturn (Some (RawJson JNull), None)) (λ _, AReturn tt).

(** An entry and, whatever became of it, a commit; the result is whether the
    commit succeeded. *)
Definition writer (j : Journal) : act bool :=
  AAppend TypeEntry (RawJson JNull) (λ _,
  ACommit (MkCommit ActionComplete None None "" "" 0 None) (λ o,
  AReturn match o with Ret _ => true | _ => false end)).

Definition world {A} (loses : jmsg → bool) tasks (handlers : list (Journal → act A)) schedule
    : jworld * list (io journalE A) :=
  drive (serve subject loses) schedule (journal_pool h enc tasks handlers).

Definition keeps (m : jmsg) : bool := false.
Definition loses_entries (m : jmsg) : bool := bool_decide (hdr_get (jm_Header m) HeaderType = TypeEntry).

Definition ds (ns : list Z) : list Task := delivery <$> ns.

Lemma delivery_ok n : 1 ≤ n ≤ int64_max → task_ok "run" "step" (delivery n).
Proof. intros Hn. split; cbn; unfold int64_max, uint64_max in *; lia || done. Qed.

Lemma ds_ok ns : NoDup ns → (∀ n, n ∈ ns → 1 ≤ n ≤ int64_max) → deliveries "run" "step" (ds ns).
Proof.
  intros Hnd Hr. unfold ds. split.
  - intros i t. rewrite list_lookup_fmap_Some. intros (n & -> & Hn). apply delivery_ok, Hr.
    by apply list_elem_of_lookup_2 in Hn.
  - intros i k t t'. rewrite !list_lookup_fmap_Some. intros (n & -> & Hn) (m & -> & Hm) Hne _ _ _ Heq.
    cbn in Heq. subst. destruct Hne. by eapply NoDup_lookup.
  - intros i k t t'. rewrite !list_lookup_fmap_Some. by intros (n & -> & Hn) (m & -> & Hm).
Qed.

Lemma payer_prudent j : prudent (payer j).
Proof. by split_and!. Qed.
End Demo.
Import Demo.

(** Two deliveries: the first is overtaken while its tool runs. *)
Definition overtaken : jworld * list (io journalE unit) :=
  world keeps (ds [1; 2]) [payer; payer] ([0;0;0;0;0] ++ [1;1;1;1;1;1;1] ++ [0;0])%nat.

Lemma journal_fencing_witness :
  length (jw_log overtaken.1) = 4%nat ∧
  ∃ records, mapM_outcome decode_entry (jw_log overtaken.1) = Ret records ∧ checkFencing records = Ret [].
Proof.
  split; [vm_compute; reflexivity|].
  apply (journal_fencing "run" "step" subject (ds [1; 2]) [payer; payer] h enc overtaken.1 overtaken.2).
  - vm_compute. reflexivity.
  - apply ds_ok; [by repeat constructor; set_solver|]. unfold int64_max. set_solver by lia.
  - reflexivity.
  - rewrite <-surjective_pairing. apply serve_drive.
  - vm_compute. discriminate.
Defined.

Lemma unsafe_at_most_once_witness :
  unsafe_runs (jw_runs overtaken.1) = ["run.step.0.0"] ∧ NoDup (unsafe_runs (jw_runs overtaken.1)).
Proof.
  split; [vm_compute; reflexivity|].
  apply (unsafe_at_most_once "run" "step" subject (ds [1; 2]) [payer; payer] h enc overtaken.1 overtaken.2).
  - vm_compute. reflexivity.
  - apply ds_ok; [by repeat constructor; set_solver|]. unfold int64_max. set_solver by lia.
  - reflexivity.
  - intros i handler j. intros Hh. apply list_elem_of_lookup_2 in Hh.
    assert (handler = payer) as -> by set_solver. apply payer_prudent.
  - intros i t Ht k m t' tm Hk Hki _ _ Hm _. apply lookup_lt_Some in Ht, Hk, Hm. cbn in *. lia.
  - rewrite <-surjective_pairing. apply serve_drive.
Defined.

(** With three deliveries of one message an unsafe tool can start twice.  The
    third delivery reads the empty journal, the first one claims, records its
    intent and runs the tool, the second one claims; the claim of the third is
    then retried over the claim of an older delivery without reading the records
    in between, and its tool call looks new.  The handlers keep to the
    conditions of the general theorem. *)
Theorem unsafe_tool_twice :
  deliveries "run" "step" (ds [1; 2; 3]) ∧ (∀ j, prudent (payer j)) ∧
  ∃ w ps, rtc (pool_step (jreply subject) eq)
      (journal_pool h enc (ds [1; 2; 3]) [payer; payer; payer]) (w, ps) ∧
    unsafe_runs (jw_runs w) = ["run.step.0.0"; "run.step.0.0"].
Proof.
  split_and!; [|apply payer_prudent|].
  { apply ds_ok; [by repeat constructor; set_solver|]. unfold int64_max. set_solver by lia. }
  set (r := world keeps (ds [1; 2; 3]) [payer; payer; payer]
    ([2;2] ++ [0;0;0;0;0;0] ++ [1;1;1;1] ++ [2;2;2;2;2;2])%nat).
  exists r.1, r.2. split; [|vm_compute; reflexivity].
  rewrite <-surjective_pairing. apply serve_drive.
Qed.

(** A commit can report success without being stored.  An append whose reply
    was lost fails and leaves the record number unchanged, so the commit that
    follows has its message ID, is answered with the sequence of the entry and
    marks the journal as committed. *)
Theorem lost_append_swallows_commit :
  deliveries "run" "step" (ds [1]) ∧
  ∃ w, rtc (pool_step (jreply subject) eq) (journal_pool h enc (ds [1]) [writer]) (w, [Done (Ret true)]) ∧
    mapM_outcome decode_entry (jw_log w) = Ret (rec <$> jw_log w) ∧
    rc_Type <$> (rec <$> jw_log w) = [TypeClaim; TypeEntry].
Proof.
  split; [apply ds_ok; [by repeat constructor; set_solver|]; unfold int64_max; set_solver by lia|].
  set (r := world loses_entries (ds [1]) [writer] [0;0;0;0;0;0]%nat).
  assert (r.2 = [Done (Ret true)]) as Hr by (vm_compute; reflexivity).
  exists r.1. split; [|split; vm_compute; reflexivity]. rewrite <-Hr, <-surjective_pairing. apply serve_drive.
Qed.
