(* ===== verification/InputTheorems.v ===== *)
(** * Theorems about the inputs of agent steps

    A step's inputs, its submissions in the bucket and its journal, with any
    number of callers and deliveries at once: what the records of placement say
    about the submissions, and the schedules in which an input is placed twice or
    settled unanswered although it was placed. *)

From S2P Require Import Prelude Float64 Json GoTime Cron Types Keys Input Interleave Kv Slots RateLimiter Snapshot Lease Fence Planners Loops Starts MapSpec Journal Submissions JournalCheck JournalSpec Placer PlacerSpec JournalTheorems.

#[local] Open Scope Z_scope.

(** A step's clients over an empty journal and bucket [b]. *)
Definition input_pool {B} (h : host) (enc : encoders) (b : B) (cs : list client)
    : (jworld * kvw sval B) * list (io placeE unit) :=
  ((start_world, MkKvw b []), run_client h enc <$> cs).

(** Requests named by the stored input.placed records, in order. *)
Definition placed_requests (w : jworld) : list string := omap (λ x, msg_placed (je_Msg x)) (jw_log w).

(** C16: An input with an input.placed record has been claimed for good.  For any
    number of callers that submit and withdraw, status reads that repair the
    bucket, sweeps of the engine and deliveries that open the journal and place,
    for every interleaving of their calls, lost replies and failed calls of both
    stores, a stored record names a submission that is in the bucket as placed,
    done or unanswered: a submission that is still queued, or that a caller
    withdrew, was not placed. *)
Theorem placed_is_claimed {B} `{!Kv sval B, !KvLaws sval B} runID stepID subject h enc (b : B) cs w ps :
  dotless runID → Forall (client_ok runID stepID) cs → (∀ k, kv_get b k = None) →
  rtc (pool_step (place_reply subject) eq) (input_pool h enc b cs) (w, ps) →
  ∀ id, id ∈ placed_requests w.1 →
    ∃ e s, kv_get (kw_b w.2) (skey runID stepID id) = Some e ∧ ent_value e = VSub s ∧
      sb_Status s ∈ [StatusPlaced; StatusDone; StatusUnanswered].
Proof.
  intros Hd Hcs Hb Hs id Hid.
  destruct (clients_inv subject runID stepID Hd h enc cs (start_world, MkKvw b []) (w, ps)) as [_ _ Hget Hlog];
    [|done..|].
  { split; cbn; [by intros k x ?%elem_of_nil|by intros k x ?%elem_of_nil| |by intros x q ?%elem_of_nil].
    intros k x. by rewrite Hb. }
  apply list_elem_of_omap in Hid as (x & Hx & Hid). destruct (Hlog x id Hx Hid) as (e & He & Hst).
  destruct (Hget _ _ He) as (s & Hs' & _). exists e, s. rewrite Hs' in Hst. done.
Qed.

(** ** A world that answers by a function *)

Definition place_serve (subject : string) (loses : jmsg → bool) R (w : jworld * kvw sval (bucket sval))
    (e : placeE R) : (jworld * kvw sval (bucket sval)) * R :=
  match e with
  | CallL e => let '(w', r) := serve subject loses _ w.1 e in ((w', w.2), r)
  | CallR (CallL e) => ((w.1, kv_after w.2 e), (kv_exec (kw_b w.2) e).2)
  | CallR (CallR e) => (w, match e in clockE R return R with ClockNow => 5 end)
  end.

Lemma place_serve_reply subject loses R w (e : placeE R) :
  place_reply subject R w e (place_serve subject loses R w e).1 (place_serve subject loses R w e).2.
Proof.
  destruct e as [e|[e|e]]; cbn.
  - pose proof (serve_reply subject loses _ w.1 e) as H. by destruct (serve _ _ _ w.1 e).
  - split; [|done]. left. split; [done|by left].
  - done.
Qed.

Module Inputs.
Definition sub : Submission :=
  MkSubmission "run" "step" "q" ModeSteer (Some (RawJson JNull)) "" 0 0 0.

(** Places the steering inputs, then settles them. *)
Definition placing_handler (j : Journal) : work :=
  WPlace ModeSteer (λ _, WSettle (λ _, WReturn)).
Definition delivering (n : Z) : client := CDeliver (Demo.delivery n) placing_handler.

Definition loses_placements (m : jmsg) : bool :=
  bool_decide (hdr_get (jm_Header m) HeaderType = TypeInputPlaced).

Definition pool (cs : list client) : (jworld * kvw sval (bucket sval)) * list (io placeE unit) :=
  input_pool Demo.h Demo.enc (MkBucket 0 []) cs.
Definition run (loses : jmsg → bool) cs schedule :=
  drive (place_serve Demo.subject loses) schedule (pool cs).

Lemma run_steps loses cs schedule :
  rtc (pool_step (place_reply Demo.subject) eq) (pool cs) (run loses cs schedule).
Proof. apply drive_rtc, place_serve_reply. Qed.

Lemma input_clients_ok ns :
  Forall (client_ok "run" "step") (CSubmit sub :: CWithdraw "run" "step" "q" :: (delivering <$> ns)).
Proof.
  do 2 (constructor; [done|]). apply Forall_fmap, Forall_true. intros n. by split_and!.
Qed.

Definition status (w : jworld * kvw sval (bucket sval)) : option string :=
  val_status ∘ ent_value <$> kv_get (kw_b w.2) "run.step.q".

(** What the audit says about the request while the step runs. *)
Definition audit (state : StepState) (w : jworld * kvw sval (bucket sval)) : outcome (list error) :=
  records ← mapM_outcome decode_entry (jw_log w.1);
  checkInputs state records
    match kv_get (kw_b w.2) "run.step.q" with
    | Some (MkEntry (VSub s) rev _) => [MkSubEntry s rev]
    | _ => []
    end.
End Inputs.
Import Inputs.

(** A caller reads the submission in order to withdraw it, a delivery places it,
    and the withdrawal loses. *)
Definition raced : (jworld * kvw sval (bucket sval)) * list (io placeE unit) :=
  run Demo.keeps [CSubmit sub; CWithdraw "run" "step" "q"; delivering 1]
    ([0;0;0] ++ [1] ++ repeat 2 40 ++ [1])%nat.

Lemma placed_is_claimed_witness :
  placed_requests raced.1.1 = ["q"] ∧
  raced.2 !! 1%nat = Some (Done (Err ErrConflict)) ∧
  ∃ e s, kv_get (kw_b raced.1.2) (skey "run" "step" "q") = Some e ∧ ent_value e = VSub s ∧
    sb_Status s ∈ [StatusPlaced; StatusDone; StatusUnanswered].
Proof.
  split; [vm_compute; reflexivity|]. split; [vm_compute; reflexivity|].
  apply (placed_is_claimed "run" "step" Demo.subject Demo.h Demo.enc (MkBucket 0 [])
    [CSubmit sub; CWithdraw "run" "step" "q"; delivering 1] raced.1 raced.2).
  - reflexivity.
  - apply (input_clients_ok [1]).
  - reflexivity.
  - rewrite <-surjective_pairing. apply run_steps.
  - assert (placed_requests raced.1.1 = ["q"]) as -> by (vm_compute; reflexivity). by left.
Defined.

(** An input can be placed twice.  A delivery reads the empty journal, an
    earlier one places the input, a second earlier one claims the step; the claim
    of the first is retried over that older claim without reading the records in
    between, so it takes the placed submission for one whose placer died, claims
    it again and records it again.  The audit reports the input. *)
Theorem input_placed_twice :
  ∃ w ps, rtc (pool_step (place_reply Demo.subject) eq)
      (pool [CSubmit sub; CWithdraw "run" "step" "q"; delivering 1; delivering 2; delivering 3]) (w, ps) ∧
    placed_requests w.1 = ["q"; "q"] ∧
    ∀ state, audit state w = Ret [Errorf "input %s is %s with %d input.placed records, want 1"
      [AStr "q"; AStr StatusDone; AInt 2]].
Proof.
  set (r := run Demo.keeps [CSubmit sub; CWithdraw "run" "step" "q"; delivering 1; delivering 2; delivering 3]
    ([0;0;0] ++ [4;4] ++ repeat 2 8 ++ [3;3;3;3] ++ repeat 4 30)%nat).
  exists r.1, r.2. split; [rewrite <-surjective_pairing; apply run_steps|].
  split; [vm_compute; reflexivity|]. intros [[]]; vm_compute; reflexivity.
Qed.

(** An input can be settled unanswered although it was placed.  The record is
    stored and the reply to its append is lost; the placer takes the input for one
    that cannot be recorded.  The audit reports the input. *)
Theorem unanswered_but_placed :
  ∃ w ps, rtc (pool_step (place_reply Demo.subject) eq)
      (pool [CSubmit sub; CWithdraw "run" "step" "q"; delivering 1]) (w, ps) ∧
    placed_requests w.1 = ["q"] ∧ status w = Some StatusUnanswered ∧ ps !! 2%nat = Some (Done (Ret tt)) ∧
    ∀ state, audit state w = Ret [Errorf "input %s is unanswered but has %d input.placed records"
      [AStr "q"; AInt 1]].
Proof.
  set (r := run loses_placements [CSubmit sub; CWithdraw "run" "step" "q"; delivering 1]
    ([0;0;0] ++ repeat 2 40)%nat).
  exists r.1, r.2. split; [rewrite <-surjective_pairing; apply run_steps|].
  do 3 (split; [vm_compute; reflexivity|]). intros [[]]; vm_compute; reflexivity.
Qed.
