(* ===== verification/CiTheorems.v ===== *)
(** * Theorems about the compilation of CI specifications

    A specification with jobs compiles, whatever its tree, to diagnostics or to a
    workflow the engine accepts; the search for cycles is exact.  Checks compile
    without a panic outside two cases, which are shown. *)

From S2P Require Import Prelude Float64 Json Types Config Condition Graph GoTime Cron Keys Schema Validate ValidateSpec ValidateSafety Ci CiJobs CiSpec CiCycles CiBuild.
From stdpp Require Import sorting relations.

#[local] Open Scope Z_scope.

(** ** Jobs *)

(** A specification with jobs, as the YAML library builds it. *)
Record jobs_doc (doc : Node) : Prop := {
  jd_mapping : n_Kind doc = MappingNode;
  jd_tree : yaml_tree doc;
  jd_jobs : "jobs" ∈ n_Value ∘ fst <$> pairs (n_Content doc);
}.

Lemma jobs_key doc : jobs_doc doc → ∃ k, mappingKey doc "jobs" = Ret (Some k).
Proof.
  intros [Hk _ Hj]. unfold mappingKey. rewrite (proj2 (is_kind_true _ _) Hk). cbn.
  destruct (find_first _ _) as [[k v]|] eqn:Hf; [by exists k|]. exfalso.
  apply list_elem_of_fmap in Hj as ([k v] & Heq & Hin). rewrite find_first_None in Hf.
  specialize (Hf _ Hin). cbn in *. by rewrite bool_decide_eq_true_2 in Hf.
Qed.

Section Jobs.
Context (encode : json → string) (def_bytes : WorkflowDef → Z) (y : yaml)
  (encode_events : gmap string (option (y_value y)) → error + string).
Context (LoadLocation : string → outcome Location) (perm : list string → list string)
  (rule_order : list Z → list Z) (text : error → string).
Hypothesis perm_ok : ∀ l, perm l ≡ₚ l.
Hypothesis rules_ok : ∀ l, rule_order l ≡ₚ l.

Abbreviation compile := (compileJobsDoc encode def_bytes y encode_events LoadLocation perm rule_order text).

Lemma compile_jobs_ret name doc namespace :
  name ≠ "" → jobs_doc doc →
  ∃ res diags, compile name doc namespace = Ret (res, diags) ∧ capped diags ∧
    (diags = [] → ∃ p m, check_jobs encode y encode_events doc namespace [] = Ret ((p, m), []) ∧
      clean encode namespace p m ∧ res = MkCompileResult (compiled name namespace p m) (pp_on p)).
Proof using perm_ok rules_ok.
  intros Hname Hdoc. pose proof Hdoc as [Hk Htree Hjobs]. unfold compileJobsDoc.
  rewrite (proj2 (empty_str_false name)) by done. rewrite (proj2 (is_kind_true _ _) Hk). cbn [negb panic_if mbind outcome_bind].
  destruct (mappingKey_ret doc "checks" Hk) as [[ck|] ->]; cbn [mbind outcome_bind].
  { destruct (jobs_key doc Hdoc) as [k ->]. cbn [mbind outcome_bind].
    destruct (diagAt_spec k "jobs" (Errorf "a spec uses either jobs: or checks:, not both" []) ltac:(done) [])
      as (u & ds & -> & Hc & _ & _ & Hne); [apply Nat.le_0_l|].
    eexists _, ds. split_and!; [done..|]. intros Hnil. by destruct (Hne Hnil). }
  destruct (document_spec doc Hk Htree []) as (u & ds & -> & Hc & _ & _ & Hscr); [apply Nat.le_0_l|]. cbn [mbind outcome_bind snd].
  case_bool_decide as Hds; [by eexists _, ds|]. subst ds.
  assert (screened_doc doc) as Hsd by (split; [done|by apply Hscr]).
  destruct (check_spec encode y encode_events doc namespace Hk Hsd Hjobs []) as ([p m] & ds & Hr & Hc' & _ & _ & Hcl); [apply Nat.le_0_l|].
  rewrite Hr. cbn [mbind outcome_bind fst snd]. case_bool_decide as Hds; [by eexists _, ds|]. subst ds.
  destruct (build_ret encode def_bytes LoadLocation perm rule_order text perm_ok rules_ok name namespace p m Hname (Hcl eq_refl))
    as (res & diags & -> & Hc2 & _ & Hres).
  exists res, diags. split_and!; [done|done|]. intros ->. exists p, m. split_and!; [done|by apply Hcl|by apply Hres].
Qed.

(** C21: A specification with jobs always compiles: whatever the tree of YAML nodes
    says, the compiler returns a workflow or at most a hundred and one
    diagnostics, and never panics.  None of its internal assertions fails: no
    alias, duplicate job, missing position or secret among plain values gets
    past the checks before, and the search for cycles keeps to its bound. *)
Theorem jobs_compile_total name doc namespace :
  name ≠ "" → jobs_doc doc →
  ∃ res diags, compile name doc namespace = Ret (res, diags) ∧ (length diags ≤ DiagnosticsMax + 1)%nat.
Proof using perm_ok rules_ok.
  intros Hname Hdoc. destruct (compile_jobs_ret name doc namespace Hname Hdoc) as (res & diags & ? & ? & _). eauto.
Qed.

(** C20: The workflow of a specification with jobs.  When nothing is reported, the
    workflow is well formed, so the engine accepts it, and it has exactly one
    step per job, in the order of their IDs: the step waits for what the job
    needs and carries the job, in which no secret is also a plain variable.  The
    timeout is the time of all attempts of all jobs, between 45 minutes and a
    year, without overflow. *)
Theorem jobs_compiled name doc namespace res :
  name ≠ "" → jobs_doc doc → compile name doc namespace = Ret (res, []) →
  ∃ p m, check_jobs encode y encode_events doc namespace [] = Ret ((p, m), []) ∧
    let def := res_Workflow res in
    WellFormed LoadLocation def ∧
    ids_of (wd_Steps def) = pp_ids p ∧ pp_ids p ≡ₚ (map_to_list (pp_jobs p)).*1 ∧
    wd_Timeout def = Z.min jobsWorkflowTimeoutMax (Z.max workflowTimeout (total_time p (pp_ids p))) ∧
    ∀ s job, s ∈ wd_Steps def → pp_jobs p !! sd_ID s = Some job →
      sd_DependsOn s = pj_needs job ∧ sd_Timeout s = pj_timeout job ∧
      sd_Task s = namespace +:+ "." +:+ jobTaskSuffix ∧ sd_WorkerGroup s = namespace ∧
      ∃ payload, buildJobPayload p job = Ret payload ∧
        sd_Metadata s = {[jobMetadataKey := encode (payload_json payload)]} ∧
        ∀ k, k ∈ jy_Secrets payload → jy_Env payload !! k = None.
Proof using perm_ok rules_ok.
  intros Hname Hdoc Hr. destruct (compile_jobs_ret name doc namespace Hname Hdoc) as (res' & ds & Hr' & _ & H).
  rewrite Hr in Hr'. injection Hr' as <- <-. destruct (H eq_refl) as (p & m & Hchk & Hcl & ->). exists p, m. split; [done|].
  cbv zeta. cbn [res_Workflow]. unfold compiled. pose proof (cl_parsed _ _ _ _ Hcl) as Hp. split_and!.
  - by eapply workflow_wellformed.
  - by eapply step_ids.
  - apply NoDup_Permutation; [apply Hp|apply NoDup_fst_map_to_list|]. intros id. rewrite (po_ids _ Hp), list_elem_of_fmap. split.
    + intros [job Hj]. exists (id, job). by rewrite elem_of_map_to_list.
    + intros ([id' job] & -> & Hj%elem_of_map_to_list). by eexists.
  - done.
  - intros s job (id & -> & Hid)%list_elem_of_fmap Hj.
    destruct (cl_payloads _ _ _ _ Hcl id Hid) as (job' & payload & Hj' & Hb & Hm & Hsec).
    destruct (step_of_fields p m namespace id job' Hj') as (F1 & F2 & F3 & _ & F5 & _ & _ & F8 & F9).
    rewrite F1, Hj' in Hj. injection Hj as <-. rewrite F2, F3, F5, F8, F9, Hm. eauto 10.
Qed.
End Jobs.

(** C22: The search for cycles of needs is exact: with an explicit stack and a bound
    on its steps, it returns, and it reports something exactly when some job
    needs itself, directly or through others. *)
Theorem needs_cycles_exact p :
  parsed_ok p →
  (∃ diags, cycleDiagnostics p [] = Ret (tt, diags)) ∧
  (cycleDiagnostics p [] = Ret (tt, []) ↔ needs_acyclic p).
Proof.
  intros Hp. destruct (cycles_spec p Hp []) as (ds & Hr & _ & _ & Hq & Hn); [apply Nat.le_0_l|].
  rewrite Hr. split; [by eexists|]. split; [intros [= ->]; by apply Hn|]. intros Hac. by rewrite Hq.
Qed.

(** ** Checks *)

Section Checks.
Context (LoadLocation : string → outcome Location) (perm : list string → list string)
  (rule_order : list Z → list Z) (text : error → string).
Hypothesis locations : ∀ z, is_panic (LoadLocation z) = false.
Hypothesis perm_ok : ∀ l, perm l ≡ₚ l.
Hypothesis rules_ok : ∀ l, rule_order l ≡ₚ l.

Lemma exclusivity_spec field call task : field ≠ "" → dspec (checkTaskCallExclusivity field call task) any any.
Proof using Type.
  intros Hf. apply dspec_assert; [by apply empty_str_false|].
  case_bool_decide; [eapply dspec_mono; [apply report_spec|done|done]|]. destruct (negb _); [|by apply dspec_ret].
  eapply dspec_mono; [apply or_report_spec, ValidTaskType_no_panic|done|done].
Qed.

Lemma group_spec field group : field ≠ "" → dspec (compileWorkerGroupDiagnostics field group) any any.
Proof using Type.
  intros Hf. apply dspec_assert; [by apply empty_str_false|]. destruct (empty_str group); [by apply dspec_ret|].
  eapply dspec_mono; [apply or_report_spec|done|done]. unfold ValidWorkerGroup.
  pose proof (ValidTaskType_no_panic group). destruct (ValidTaskType group); [|done|done]. by destruct (str_contains_char _ _).
Qed.

Lemma timeout_safe s t : 0 < t → is_panic (compileTimeout s t) = false ∧ ∀ d, compileTimeout s t = Ret d → 0 < d.
Proof using Type.
  intros Ht. unfold compileTimeout. destruct (Z.leb_spec t 0); [lia|]. cbn.
  destruct (empty_str s); [split; [done|]; by intros d [= <-]|]. destruct (ParseDuration s) as [d|]; [|done].
  destruct (Z.leb_spec d 0); [done|]. split; [done|]. by intros d' [= <-].
Qed.

Lemma check_retry_spec field c : field ≠ "" → dspec (compileCheckRetry field c) any any.
Proof using Type.
  intros Hf. apply dspec_assert; [by apply empty_str_false|].
  eapply dspec_then; [eapply dspec_mono; [apply dspec_count|done|done]|]. intros before.
  assert (∀ d, dspec (report d ≫= λ _, mret (None : option RetryPolicy)) any any) as Hrep.
  { intros d. apply dspec_reported; [apply report_spec|]. intros _. by apply dspec_ret. }
  destruct (Z.ltb_spec (ck_Retries c) 0); [apply Hrep|]. destruct (_ && _); [apply Hrep|].
  destruct (0 <? ck_Retries c).
  { unfold fixedRetryPolicy. destruct (Z.ltb_spec (ck_Retries c) 0); [lia|]. by apply dspec_of. }
  destruct (ck_Retry c) as [r|]; [|by apply dspec_ret].
  do 2 (eapply dspec_then; [eapply dspec_mono; [apply report_if_spec|done|done]|]; intros _).
  assert (∀ s, is_panic (compileRetryDuration s) = false) as Hdur.
  { intros s. unfold compileRetryDuration. destruct (empty_str s); [done|]. destruct (ParseDuration s); [|done]. by destruct (_ <? _). }
  eapply dspec_then; [eapply dspec_mono; [apply or_report_spec|done|done]|intros strategy].
  { unfold parseRetryStrategy. by repeat case_bool_decide. }
  eapply dspec_then; [eapply dspec_mono; [apply or_report_spec, Hdur|done|done]|intros d1].
  eapply dspec_then; [eapply dspec_mono; [apply or_report_spec, Hdur|done|done]|intros d2].
  eapply dspec_then; [eapply dspec_mono; [apply dspec_count|done|done]|]. intros after. by apply dspec_ret.
Qed.

Lemma needs_known_spec known message field l : dspec (needs_known known message field l) any any.
Proof using Type.
  eapply dspec_mono; [apply (each_spec _ (λ _, True))|done|done]. intros need _.
  eapply dspec_mono; [apply report_if_spec|done|done].
Qed.

Lemma runner_limits module call task s : one_rate_limit s = true → one_rate_limit (set_runner module call task s) = true.
Proof using Type. destruct s. cbn. by destruct (negb _). Qed.

Lemma check_step_spec name c module known :
  name ≠ "" → dspec (compileCheck name c module known) (λ o, ∀ s, o = Some s → one_rate_limit s = true) any.
Proof using Type.
  intros Hn. unfold compileCheck.
  eapply dspec_then; [eapply dspec_mono; [apply dspec_count|done|done]|]. intros before.
  eapply dspec_then; [by apply exclusivity_spec|]. intros _. eapply dspec_then; [apply needs_known_spec|]. intros _.
  eapply dspec_then; [eapply dspec_mono; [apply or_report_spec|done|done]|intros timeout]; [by apply timeout_safe|].
  eapply dspec_then; [by apply check_retry_spec|]. intros retry. eapply dspec_then; [by apply group_spec|]. intros _.
  eapply dspec_then; [eapply dspec_mono; [apply dspec_count|done|done]|]. intros after. apply dspec_ret; [|done].
  intros s. case_bool_decide; [done|]. intros [= <-]. by destruct (negb _).
Qed.

(** The deploy block has a timeout that parses, or none. *)
Definition deploy_timeout_ok (s : Spec_) : Prop :=
  ∀ d, sp_Deploy s = Some d → is_ret (compileTimeout (de_Timeout d) defaultDeployTimeout) = true.

Definition limited (l : list StepDef) : Prop := ∀ s, s ∈ l → one_rate_limit s = true.

Lemma deploy_spec d module known :
  is_ret (compileTimeout (de_Timeout d) defaultDeployTimeout) = true →
  dspec (compileDeploy d module known) limited any.
Proof using Type.
  intros Ht. unfold compileDeploy.
  eapply dspec_then; [eapply dspec_mono; [apply dspec_count|done|done]|]. intros before.
  eapply dspec_then; [by apply exclusivity_spec|]. intros _.
  eapply dspec_then; [eapply dspec_mono; [apply report_if_spec|done|done]|]. intros _.
  eapply dspec_then; [apply needs_known_spec|]. intros _.
  destruct (timeout_safe (de_Timeout d) defaultDeployTimeout ltac:(done)) as [Hs Hpos].
  destruct (compileTimeout _ _) as [t| |]; [|done..].
  eapply dspec_bind; [by apply (dspec_ret t (eq t) any)|]. intros t' <-.
  eapply dspec_then; [by apply group_spec|]. intros _.
  eapply dspec_bind; [apply dspec_count|]. intros after _. case_bool_decide.
  { apply dspec_ret; [|done]. by intros s ?%elem_of_nil. }
  unfold buildDeploySteps. destruct (Z.leb_spec t 0); [by specialize (Hpos t eq_refl); lia|].
  apply dspec_of; [|done]. intros s Hin.
  assert (∀ deps, one_rate_limit (set_runner module (de_Call d) (de_Task d)
    (set_dispatch t deps None (de_WorkerGroup d) (step_def "deploy" "" StepTypeNormal))) = true) as Hd by (intros deps; by apply runner_limits).
  clear LoadLocation perm rule_order locations perm_ok rules_ok. case_bool_decide; set_solver.
Qed.

Lemma checks_spec s module known names :
  (∀ n, n ∈ names → n ≠ "") → dspec (compile_checks s module known names) limited any.
Proof using Type.
  induction names as [|n names IH]; intros Hn; cbn [compile_checks].
  { apply dspec_ret; [|done]. by intros x ?%elem_of_nil. }
  eapply dspec_bind; [apply check_step_spec, Hn; by left|]. intros o Ho.
  eapply dspec_bind; [apply IH; intros; apply Hn; by right|]. intros l Hl. apply dspec_ret; [|done].
  destruct o as [x|]; [|done]. intros x' [->|?]%elem_of_cons; auto.
Qed.

Lemma build_steps_spec s module known :
  sp_Checks s !! "" = None → deploy_timeout_ok s → dspec (buildSteps s module known) limited any.
Proof using Type.
  intros Hne Hdep diags Hc. unfold buildSteps, mbind at 1, dm_bind at 1, count at 1.
  assert (dspec (compile_checks s module known (sortedCheckNames s)) limited any) as Hck.
  { apply checks_spec. intros n. unfold sortedCheckNames. rewrite merge_sort_Permutation, list_elem_of_fmap.
    intros ([n' c] & -> & Hn%elem_of_map_to_list). intros Heq. cbn in Heq. congruence. }
  assert (dspec (match sp_Deploy s with Some d => compileDeploy d module known | None => mret [] end) limited any) as Hde.
  { destruct (sp_Deploy s) as [d|] eqn:Hd; [by apply deploy_spec, Hdep|]. apply dspec_ret; [|done]. by intros x ?%elem_of_nil. }
  unfold mbind, dm_bind. destruct (Hck diags Hc) as (l & ds & -> & Hc1 & Hp1 & Hl & _).
  destruct (Hde ds Hc1) as (l' & ds' & -> & Hc2 & Hp2 & Hl' & _). unfold count.
  rewrite bool_decide_eq_false_2.
  - exists (l ++ l'), ds'. split_and!; [done|done|by etrans| |done]. intros x [?|?]%elem_of_app; auto.
  - apply prefix_length in Hp1, Hp2. lia.
Qed.

(** Checks compile to a workflow or to diagnostics, without a panic, when no
    check has an empty name and the timeout of the deploy block parses. *)
Theorem checks_compile_total name s :
  name ≠ "" → sp_Checks s !! "" = None → deploy_timeout_ok s →
  ∃ def diags, Compile LoadLocation perm rule_order text name s = Ret (def, diags) ∧
    (diags = [] → WellFormed LoadLocation def) ∧ (length diags ≤ DiagnosticsMax + 1)%nat.
Proof using locations perm_ok rules_ok.
  intros Hname Hne Hdep. unfold Compile. rewrite (proj2 (empty_str_false name)) by done. cbn [panic_if mbind outcome_bind].
  set (prog := report_if _ _ ≫= _).
  assert (dspec prog limited any) as Hprog.
  { eapply dspec_then; [eapply dspec_mono; [apply report_if_spec|done|done]|]. intros _. by apply build_steps_spec. }
  destruct (Hprog []) as (steps & ds & -> & Hc & _ & Hlim & _); [apply Nat.le_0_l|]. cbn [mbind outcome_bind fst snd].
  case_bool_decide as Hds; [by exists zero_def, ds|]. cbv zeta.
  destruct (Validate _ _ _ _) as [[]|e|msg] eqn:Hv.
  - eexists _, []. split_and!; [done| |apply Nat.le_0_l]. intros _. by eapply Validate_wf.
  - destruct (report_spec (unplaced (stepFieldFromError text e) e) []) as (u & ds' & -> & Hc' & _ & _ & Hn); [apply Nat.le_0_l|].
    eexists _, ds'. split_and!; [done| |done]. intros Hnil. by destruct (Hn Hnil).
  - exfalso. pose proof (Validate_no_panic LoadLocation perm rule_order (ci_workflow name workflowTimeout steps)) as Hnp.
    rewrite Hv in Hnp. by discriminate Hnp.
Qed.
End Checks.

(** ** Concrete specifications *)

Module CiDemo.
Definition scalar (v : string) : Node := MkNode ScalarNode "!!str" v 1 1 [].
Definition mapping (l : list (string * Node)) : Node :=
  MkNode MappingNode "!!map" "" 1 1 (concat ((λ '(k, v), [scalar k; v]) <$> l)).
Definition sequence (l : list Node) : Node := MkNode SequenceNode "!!seq" "" 1 1 l.

(** Two jobs, the second with a secret. *)
Definition doc : Node := mapping [
  ("on", scalar "push");
  ("env", mapping [("MODE", scalar "fast")]);
  ("jobs", mapping [
    ("test", mapping [("needs", scalar "build"); ("retries", MkNode ScalarNode "!!int" "2" 1 1 []);
                      ("env", mapping [("TOKEN", scalar "${{ secrets.TOKEN }}")]);
                      ("steps", sequence [mapping [("run", scalar "make test")]])]);
    ("build", mapping [("steps", sequence [mapping [("run", scalar "make")]])])])].

(** Each job needs the other. *)
Definition cyclic_doc : Node := mapping [
  ("jobs", mapping [
    ("a", mapping [("needs", scalar "b"); ("steps", sequence [mapping [("run", scalar "x")]])]);
    ("b", mapping [("needs", scalar "a"); ("steps", sequence [mapping [("run", scalar "x")]])])])].

Definition yml : yaml :=
  MkYaml unit (λ _, inr (Some doc)) (λ _, (MkOn None None None, None)) (λ _, (MkDefaults "" "", None))
    (λ _, (MkDeployStep "" "" [] "" [] "" "", None)) (λ _, inl (Errorf "not a check" []))
    (λ n, if bool_decide (n_Value n = "2") then Some 2 else None) (λ _, inr ∅).

Definition encode (j : json) : string := "{}".
Definition events (e : gmap string (option unit)) : error + string := inr "{}".
Definition LoadLocation (z : string) : outcome Location := Err (Errorf "unknown time zone %s" [AStr z]).
Definition text (e : error) : string := err_format e.

Definition compile (doc : Node) : outcome (CompileResult * list Diagnostic) :=
  compileJobsDoc encode (λ _, 1000) yml events LoadLocation (λ l, l) (λ l, l) text "ci" doc "runners".

Definition result : CompileResult := match compile doc with Ret (r, _) => r | _ => no_result end.

Lemma doc_ok : jobs_doc doc.
Proof.
  split; [reflexivity|apply yaml_tree_check; vm_compute; reflexivity|].
  apply (bool_decide_eq_true_1 _). vm_compute. reflexivity.
Qed.

(** What the parser makes of a document. *)
Definition parsed (doc : Node) : parsedJobs :=
  match parseJobsSpec yml events doc [] with
  | Ret (p, _) => p
  | _ => MkParsedJobs None newEnvValues ∅ None []
  end.

(** The parser's result is a consistent set of jobs. *)
Lemma parsed_doc_ok doc :
  n_Kind doc = MappingNode → all_nodes node_okb doc = true → jobsDocumentDiagnostics doc [] = Ret (tt, []) →
  parsed_ok (parsed doc).
Proof.
  intros Hk Ht%yaml_tree_check Hr.
  destruct (document_spec doc Hk Ht []) as (u & ds & Hr' & _ & _ & _ & Hs); [apply Nat.le_0_l|].
  rewrite Hr in Hr'. injection Hr' as _ <-. specialize (Hs eq_refl).
  destruct (parse_spec yml events doc Hk (conj Ht Hs) []) as (p & ds & Hp & _ & _ & Hok & _); [apply Nat.le_0_l|].
  unfold parsed. by rewrite Hp.
Qed.
End CiDemo.
Import CiDemo.

Lemma jobs_compile_total_witness :
  (∃ res diags, CiDemo.compile cyclic_doc = Ret (res, diags) ∧ (length diags ≤ DiagnosticsMax + 1)%nat) ∧
  is_ret (CiDemo.compile cyclic_doc) = true.
Proof.
  split; [|vm_compute; reflexivity].
  apply (jobs_compile_total CiDemo.encode (λ _, 1000) yml events CiDemo.LoadLocation (λ l, l) (λ l, l) CiDemo.text);
    [reflexivity|reflexivity|discriminate|].
  split; [reflexivity|apply yaml_tree_check; vm_compute; reflexivity|].
  apply (bool_decide_eq_true_1 _). vm_compute. reflexivity.
Defined.

Lemma jobs_compiled_witness :
  ids_of (wd_Steps (res_Workflow result)) = ["build"; "test"] ∧ WellFormed CiDemo.LoadLocation (res_Workflow result).
Proof.
  split; [vm_compute; reflexivity|].
  destruct (jobs_compiled CiDemo.encode (λ _, 1000) yml events CiDemo.LoadLocation (λ l, l) (λ l, l) CiDemo.text
    ltac:(reflexivity) ltac:(reflexivity) "ci" CiDemo.doc "runners" result) as (p & m & _ & Hwf & _).
  - discriminate.
  - apply doc_ok.
  - vm_compute. reflexivity.
  - exact Hwf.
Defined.

Lemma needs_cycles_exact_witness : ¬ needs_acyclic (parsed cyclic_doc).
Proof.
  intros Hac. apply (needs_cycles_exact (parsed cyclic_doc)) in Hac.
  - vm_compute in Hac. discriminate Hac.
  - apply parsed_doc_ok; [reflexivity|vm_compute; reflexivity|vm_compute; reflexivity].
Defined.

(** *** Checks that make the compiler panic *)

Definition nameless : Spec_ :=
  MkSpec (MkOn None None None) (MkDefaults "" "") {["" := MkCheck "" "lint" [] "" 0 None ""]} None.

(** A hundred checks without a runner fill the list of diagnostics, so that the
    diagnostic of the deploy timeout is dropped. *)
Definition crowded : Spec_ :=
  MkSpec (MkOn None None None) (MkDefaults "" "")
    (list_to_map ((λ i, (indexed "check" i, zero_Check)) <$> seq 0 100))
    (Some (MkDeployStep "" "ship" [] "" [] "soon" "")).

(** The compiler of checks panics on a check without a name, and on a deploy
    timeout that does not parse once a hundred other problems were found: the
    deploy block counts as free of problems because its diagnostic was not
    added. *)
Theorem checks_compile_panics text :
  Compile CiDemo.LoadLocation (λ l, l) (λ l, l) text "ci" nameless =
    Panic "checkTaskCallExclusivity: field must not be empty" ∧
  Compile CiDemo.LoadLocation (λ l, l) (λ l, l) text "ci" crowded =
    Panic "buildDeploySteps: deployTimeout must be positive".
Proof. split; vm_compute; reflexivity. Qed.

Lemma checks_compile_total_witness :
  ∃ def diags, Compile CiDemo.LoadLocation (λ l, l) (λ l, l) CiDemo.text "ci" zero_Spec = Ret (def, diags) ∧
    (diags = [] → WellFormed CiDemo.LoadLocation def) ∧ (length diags ≤ DiagnosticsMax + 1)%nat.
Proof.
  apply (checks_compile_total CiDemo.LoadLocation (λ l, l) (λ l, l) CiDemo.text);
    [reflexivity|reflexivity|reflexivity|discriminate|reflexivity|by intros d].
Defined.
