(* ===== verification/BuilderTheorems.v ===== *)
(** * Workflow builders: what a caller can rely on

    A caller that keeps to the documented preconditions gets no panic and a
    handle never changes the step it stands for; a workflow wired with handles
    has no dangling reference; [Build] returns exactly the well-formed
    definitions; the settings of a step survive their trip through JSON.  The
    last section shows what the interface does not give. *)

From S2P Require Import Prelude Float64 Json Types Config Graph GoTime Cron Keys Validate ValidateSpec Dynamic Builder BuilderSpec.
From Stdlib Require Import Ascii.

#[local] Open Scope Z_scope.

(** ** Calls *)

(** C19: after any calls that returned, the next call returns exactly when its
    documented precondition holds (the builder exists, its arguments are not
    empty or not positive, the handle is not the zero value, belongs to the
    same builder and is for a step of the right type) and panics otherwise:
    no index is out of range and no configuration fails to parse.  Every
    handle is for the step with its ID, at its index, before and after the
    call, whether appends reallocate or not. *)
Theorem builder_calls (grows : nat → bool) (cls : list call) (cl : call) (c : client) :
  forallb call_typed cls = true → call_typed cl = true → exec_all grows cls fresh_client = Ret c →
  (allowed cl c = true →
     ∃ c', exec grows cl c = Ret c' ∧ cl_refs c `prefix_of` cl_refs c' ∧
       ∀ r, r ∈ cl_refs c' → ref_ok (cl_store c') r) ∧
  (allowed cl c = false → ∃ msg, exec grows cl c = Panic msg) ∧
  ∀ r, r ∈ cl_refs c → ref_ok (cl_store c) r.
Proof.
  intros Hty Ht Hrun. destruct (exec_all_ok grows false cls _ c (fresh_ok false) Hty) as (Hc & _ & _); [done..|].
  destruct (exec_spec grows false cl c Hc Ht) as [HT HF]; [done|]. split_and!; [|done|apply Hc].
  intros Ha. destruct (HT Ha) as (c' & ? & [_ ?] & _ & ?). eauto.
Qed.

(** In a workflow whose steps are wired with handles only, without
    [DependsOn], every dependency, failure handler and compensation of a step
    is the ID of a step of the same workflow, after any calls. *)
Theorem handles_wire_existing (grows : nat → bool) (cls : list call) (c : client) (b : nat) (l : list StepDef)
    (s : StepDef) (id : string) :
  forallb call_typed cls = true → forallb by_handle cls = true → exec_all grows cls fresh_client = Ret c →
  steps_at (cl_store c) b = Some l → s ∈ l →
  id ∈ sd_DependsOn s ∨ id ≠ "" ∧ (sd_OnFailure s = id ∨ sd_Compensate s = id) →
  id ∈ ids_of l.
Proof.
  intros Hty Hbh Hrun Hl Hs Hid. destruct (exec_all_ok grows true cls _ c (fresh_ok true) Hty) as ([Hst _] & _ & _); [done..|].
  destruct (steps_at_list_ok _ _ _ _ Hst Hl) as [_ Hcl]. apply (Hcl eq_refl s id Hs).
  unfold references. rewrite elem_of_app, list_elem_of_filter, !elem_of_cons. naive_solver.
Qed.

(** ** Settings *)

(** The change an agent-loop method asks for. *)
Definition loop_change (cl : call) : option (nat * (AgentLoopConfig → AgentLoopConfig)) :=
  match cl with
  | CWithMaxIterations r n => Some (r, al_set_MaxIterations n)
  | CWithLoopDelay r d => Some (r, al_set_LoopDelay d)
  | CWithMaxDuration r d => Some (r, al_set_MaxDuration d)
  | _ => None
  end.

Lemma loop_call_exact grows w cl r f c b l s cfg :
  client_ok w c → call_typed cl = true → loop_change cl = Some (r, f) → sr_builder (handle c r) = Some b →
  steps_at (cl_store c) b = Some l → l !! sr_index (handle c r) = Some s → sd_Type s = StepTypeAgentLoop →
  ParseAgentLoopConfig s = Ret cfg →
  ∃ st', exec grows cl c = Ret (MkClient st' (cl_refs c)) ∧
    edited (cl_store c) st' b (sr_index (handle c r)) (sd_set_Config (Some (MarshalConfig (f cfg))) s).
Proof.
  intros Hc Hty Hcl Hb Hl Hs Ht Hp. pose proof (proj1 Hc) as Hst.
  assert (loop_edit f) as Hf by (destruct cl; try done; injection Hcl as <- <-; by apply loop_edits).
  pose proof (steps_at_list_ok _ _ _ _ Hst Hl) as [Hok _].
  destruct (loop_readable s f Hf Ht) as (cfg' & Hp' & Hcfg); [by apply Hok, (list_elem_of_lookup_2 _ (sr_index (handle c r)))|].
  rewrite Hp in Hp'. injection Hp' as <-.
  destruct (set_step_ok w (cl_store c) b (sr_index (handle c r)) l s (sd_set_Config (Some (MarshalConfig (f cfg)))) Hst Hl Hs) as (st' & Hr & _ & _ & Hed).
  { by apply edit_reconfigured. }
  exists st'. split; [|done]. destruct cl; try done; injection Hcl as <- <-; cbn [exec]; unfold runs.
  all: unfold WithMaxIterations, WithLoopDelay, WithMaxDuration, owner; rewrite Hb; unfold edit_config, mbind, bm_bind, mret, bm_ret.
  all: rewrite (get_step_ret _ _ _ _ _ Hl Hs), Ht, bool_decide_eq_true_2 by done; cbn -[set_step MarshalConfig ParseAgentLoopConfig]; by rewrite Hp, Hr.
Qed.

(** A bound given to an agent-loop step through its handle is the one the
    engine will read from the step's JSON configuration; the other bounds of
    the step, every other step and every other builder stay as they are. *)
Theorem loop_settings_kept (grows : nat → bool) (cls : list call) (cl : call) (r : nat)
    (f : AgentLoopConfig → AgentLoopConfig) (c : client) (s : StepDef) :
  forallb call_typed cls = true → call_typed cl = true → exec_all grows cls fresh_client = Ret c →
  loop_change cl = Some (r, f) → handle_step (cl_store c) (handle c r) = Some s → sd_Type s = StepTypeAgentLoop →
  ∃ cfg c' s', ParseAgentLoopConfig s = Ret cfg ∧ exec grows cl c = Ret c' ∧
    handle_step (cl_store c') (handle c r) = Some s' ∧ ParseAgentLoopConfig s' = Ret (f cfg) ∧
    sd_set_Config (sd_Config s) s' = s ∧ cl_refs c' = cl_refs c ∧
    ∀ q, (sr_builder q, sr_index q) ≠ (sr_builder (handle c r), sr_index (handle c r)) →
      handle_step (cl_store c') q = handle_step (cl_store c) q.
Proof.
  intros Hty Ht Hrun Hcl Hs Hal. destruct (exec_all_ok grows false cls _ c (fresh_ok false) Hty) as (Hc & _ & _); [done..|].
  set (h := handle c r) in *. unfold handle_step in Hs. destruct (sr_builder h) as [b|] eqn:Hb; [|done]. cbn in Hs.
  destruct (steps_at (cl_store c) b) as [l|] eqn:Hl; [|done]. cbn in Hs.
  pose proof (steps_at_list_ok _ _ _ _ (proj1 Hc) Hl) as [Hok _].
  assert (config_ok s) as Hcs by (by apply Hok, (list_elem_of_lookup_2 _ (sr_index h))).
  assert (loop_edit f) as Hf by (destruct cl; try done; injection Hcl as <- <-; by apply loop_edits).
  unfold config_ok in Hcs. rewrite Hal in Hcs. destruct Hcs as (cfg & Hcfg & Hctyped).
  pose proof (loop_roundtrip s cfg Hal Hcfg Hctyped) as Hp.
  destruct (loop_call_exact grows false cl r f c b l s cfg Hc Ht Hcl Hb Hl Hs Hal Hp) as (st' & He & _ & Hsame & Hother).
  set (s' := sd_set_Config (Some (MarshalConfig (f cfg))) s) in *. specialize (Hsame l Hl).
  exists cfg, (MkClient st' (cl_refs c)), s'. split_and!; [done|done| | | |done|].
  - unfold handle_step. rewrite Hb. cbn. rewrite Hsame. cbn. apply list_lookup_insert_eq. by eapply lookup_lt_Some.
  - apply loop_roundtrip; [by destruct s|by destruct s|by apply Hf].
  - by destruct s.
  - intros q Hq. unfold handle_step. destruct (sr_builder q) as [b'|] eqn:Hbq; [|done]. cbn. destruct (decide (b' = b)) as [->|Hne].
    + rewrite Hsame, Hl. cbn. apply list_lookup_insert_ne. intros E. apply Hq. unfold h in E. by rewrite <-E, <-Hb.
    + by rewrite Hother.
Qed.

(** C38: what [MarshalConfig] writes for a step, the parser of the step's type
    reads back unchanged, for each of the seven configuration types, when the
    strings are UTF-8 and the integers are 64-bit; a sleep also needs exactly
    one of its forms. *)
Theorem config_roundtrip (s : StepDef) :
  (∀ c : AgentLoopConfig, sd_Type s = StepTypeAgentLoop → loop_typed c → sd_Config s = Some (MarshalConfig c) →
     ParseAgentLoopConfig s = Ret c) ∧
  (∀ c : MapConfig, sd_Type s = StepTypeMap → in_int64 (mc_MaxItems c) = true → sd_Config s = Some (MarshalConfig c) →
     ParseMapConfig s = Ret c) ∧
  (∀ c : SubWorkflowConfig, sd_Type s = StepTypeSubWorkflow → valid_utf8 (sw_Workflow c) = true →
     sd_Config s = Some (MarshalConfig c) → ParseSubWorkflowConfig s = Ret c) ∧
  (∀ c : SleepConfig, sd_Type s = StepTypeSleep → in_int64 (sl_Duration c) = true →
     forallb valid_utf8 [sl_Cron c; sl_UntilInputPath c; sl_CronTimezone c; sl_CronTimezoneInputPath c] = true →
     formCount c = 1 → checkCronZoneFields c = Ret tt → sd_Config s = Some (MarshalConfig c) →
     ParseSleepConfig s = Ret c) ∧
  (∀ c : WaitForEventOpts, sd_Type s = StepTypeWaitForEvent → in_int64 (we_Timeout c) = true →
     forallb valid_utf8 [we_Event c; m_Left (we_Match c); m_Op (we_Match c); m_Right (we_Match c)] = true →
     sd_Config s = Some (MarshalConfig c) → ParseWaitForEventConfig s = Ret c) ∧
  (∀ c : ApprovalConfig, sd_Type s = StepTypeApproval → in_int64 (ap_Timeout c) = true →
     forallb valid_utf8 [ap_Subject c; ap_Description c] = true →
     (∀ k v, ap_Metadata c !! k = Some v → valid_utf8 k = true ∧ valid_utf8 v = true) →
     sd_Config s = Some (MarshalConfig c) → ParseApprovalConfig s = Ret c) ∧
  (∀ c : PlannerConfig, sd_Type s = StepTypePlanner → in_int64 (pl_MaxSteps c) = true → in_int64 (pl_MaxDepth c) = true →
     forallb valid_utf8 (pl_AllowedTasks c) = true →
     sd_Config s = Some (MarshalConfig c) → ParsePlannerConfig s = Ret c).
Proof.
  assert (∀ t, valid_utf8 t = true → json_string t = t) as Hv by (intros t; apply bool_decide_eq_true).
  split_and!.
  - intros. by apply loop_roundtrip.
  - intros [n] **. by apply map_roundtrip.
  - intros [w d] Ht Hw%Hv Hc. rewrite (sub_roundtrip _ _ Ht Hc). cbn in *. by rewrite Hw.
  - intros [d a b e f] Ht Hi Hu H1 Hz Hc. unfold ParseSleepConfig. rewrite (sleep_decode _ _ Ht Hc Hi).
    cbn [sl_Duration sl_Cron sl_UntilInputPath sl_CronTimezone sl_CronTimezoneInputPath] in *.
    cbn [forallb] in Hu. rewrite !andb_true_iff in Hu. destruct Hu as (?%Hv & ?%Hv & ?%Hv & ?%Hv & _).
    rewrite H, H0, H2, H3. cbn [mbind outcome_bind]. rewrite H1, Hz. done.
  - intros [e [l o r] t] Ht Hi Hu Hc. rewrite (wait_roundtrip _ _ Ht Hc Hi). cbn in *.
    rewrite !andb_true_iff in Hu. destruct Hu as (?%Hv & ?%Hv & ?%Hv & ?%Hv & _). congruence.
  - intros [t u d m] Ht Hi Hu Hm Hc. rewrite (approval_roundtrip _ _ Ht Hc Hi Hm). cbn in *.
    rewrite !andb_true_iff in Hu. destruct Hu as (?%Hv & ?%Hv & _). congruence.
  - intros [n d l] Ht H1 H2 Hu Hc. rewrite (planner_roundtrip _ _ Ht Hc H1 H2). cbn in *. do 2 f_equal. clear Hc.
    induction l as [|t l IH]; [done|]. cbn in *. apply andb_true_iff in Hu as [Ht'%Hv Hu]. rewrite Ht'. f_equal. by apply IH.
Qed.

(** ** Build *)

Lemma wf_aux LoadLocation def m : WellFormed LoadLocation def → WellFormed LoadLocation (wd_set_AuxSteps m def).
Proof. intros []. by destruct def; split. Qed.

Section Build.
Context (LoadLocation : string → outcome Location).
Context (perm : list string → list string) (rule_order : list Z → list Z).
Hypothesis perm_ok : ∀ l, perm l ≡ₚ l.
Hypothesis rule_order_ok : ∀ l, rule_order l ≡ₚ l.

Lemma Build_eq st b wb l :
  st_builders st !! b = Some wb → st_arrays st !! wb_steps wb = Some l →
  Build LoadLocation perm rule_order b st =
  (Validate LoadLocation perm rule_order (assemble wb l) ≫= λ _,
   Ret ((wd_set_AuxSteps (buildAuxSteps l) (assemble wb l), (wb_steps wb, length l)), st)).
Proof.
  intros Hw Hl. unfold Build, mbind, bm_bind. rewrite (get_builder_ret _ _ _ Hw), (get_steps_ret _ _ _ Hl).
  unfold bm_of, outcome_bind. by destruct (Validate _ _ _ _).
Qed.

(** C36: after any calls, [Build] returns a definition exactly when the
    definition with the builder's name, version, steps, concurrency limit, keys,
    priority and cancellations, and with no timeout, retry default or schemas,
    is well-formed; and then it returns that definition, well-formed, with
    exactly the targets of [OnFailure] and [Compensate] as auxiliary steps; the
    builder is left as it was. *)
Theorem built_exact (grows : nat → bool) (cls : list call) (c : client) (b : nat) (wb : WorkflowBuilder) :
  forallb call_typed cls = true → exec_all grows cls fresh_client = Ret c →
  st_builders (cl_store c) !! b = Some wb →
  ∃ l, steps_at (cl_store c) b = Some l ∧
    let described aux := MkWorkflowDef (wb_name wb) (wb_version wb) l None (wb_concurrency wb) 0 None None aux
      (wb_idempotencyKey wb) (wb_sticky wb) (wb_priority wb) (wb_cancelOn wb) (wb_singleton wb) in
    (is_ret (Build LoadLocation perm rule_order b (cl_store c)) = true ↔ WellFormed LoadLocation (described ∅)) ∧
    ∀ def slice st', Build LoadLocation perm rule_order b (cl_store c) = Ret ((def, slice), st') →
      st' = cl_store c ∧ def = described (wd_AuxSteps def) ∧ WellFormed LoadLocation def ∧
      read_slice st' slice = wd_Steps def ∧
      ∀ id, is_set (wd_AuxSteps def) id = true ↔ id ≠ "" ∧ ∃ s, s ∈ l ∧ (sd_OnFailure s = id ∨ sd_Compensate s = id).
Proof using perm_ok rule_order_ok.
  intros Hty Hrun Hw. destruct (exec_all_ok grows false cls _ c (fresh_ok false) Hty) as ([Hst _] & _ & _); [done..|].
  destruct (so_builder _ _ Hst b wb Hw) as (l & Hl & _). exists l. split; [by eapply steps_at_some|].
  rewrite (Build_eq _ _ _ _ Hw Hl).
  assert (Validate LoadLocation perm rule_order (assemble wb l) = Ret tt ↔ WellFormed LoadLocation (assemble wb l)) as Hv.
  { split; [by apply Validate_wf|by apply wf_Validate]. }
  split.
  - fold (assemble wb l). rewrite <-Hv. by destruct (Validate _ _ _ _) as [[]|e|msg].
  - intros def slice st' ([] & Hval%Hv & [= <- <- <-])%bind_ret_iff. split_and!; [done|done|by apply (wf_aux _ (assemble wb l) (buildAuxSteps l))| |].
    + unfold read_slice. cbn. rewrite Hl. cbn. by apply take_ge.
    + intros id. apply buildAuxSteps_elem.
Qed.

(** No workflow with hard worker affinity can be built: validation asks
    such a workflow for a timeout, and the builder has no way to set one. *)
Theorem hard_sticky_unbuildable (grows : nat → bool) (cls : list call) (c : client) (b : nat) (wb : WorkflowBuilder) :
  forallb call_typed cls = true → exec_all grows cls fresh_client = Ret c →
  st_builders (cl_store c) !! b = Some wb → wb_sticky wb = StickyHard →
  is_ret (Build LoadLocation perm rule_order b (cl_store c)) = false.
Proof using perm_ok rule_order_ok.
  intros Hty Hrun Hw Hs. destruct (exec_all_ok grows false cls _ c (fresh_ok false) Hty) as ([Hst _] & _ & _); [done..|].
  destruct (so_builder _ _ Hst b wb Hw) as (l & Hl & _). rewrite (Build_eq _ _ _ _ Hw Hl).
  destruct (Validate _ _ _ _) as [[]|e|msg] eqn:Hv; [exfalso|done|done].
  apply Validate_wf in Hv; [|done..]. destruct (wf_sticky _ _ Hv) as [E|[[E|[_ E]] _]]; cbn in E; [| |done]; by rewrite Hs in E.
Qed.
End Build.

(** ** Instances *)

Module BuilderDemo.

(** Go's growth for the first appends: capacities 1, 2, 4, 8. *)
Definition grows (n : nat) : bool := bool_decide (n ∈ [0; 1; 2; 4; 8]%nat).

(** [fetch], then an agent loop [think] of at most five iterations; [undo]
    runs when [fetch] fails. *)
Definition program : list call :=
  [CNewWorkflow "ingest"; CTask 0 "fetch" "io.fetch"; CAgentLoop 0 "think" "ai.think"; CAfter 1 [0%nat];
   CWithMaxIterations 1 5; CTask 0 "undo" "io.undo"; COnFailure 0 2].

Definition result (cls : list call) : client :=
  match exec_all grows cls fresh_client with Ret c => c | _ => fresh_client end.

Definition LoadLocation (name : string) : outcome Location :=
  if bool_decide (name = "UTC") then Ret UTC else Err (Errorf "unknown time zone %s" [AStr name]).

Definition build (c : client) : outcome ((WorkflowDef * (nat * nat)) * store) :=
  Build LoadLocation (λ l, l) (λ l, l) 0 (cl_store c).

Definition steps_of (c : client) : list StepDef := default [] (steps_at (cl_store c) 0).

Definition the_builder (c : client) : WorkflowBuilder :=
  default (MkBuilder "" "" 0 0 None "" "" None [] None) (st_builders (cl_store c) !! 0%nat).

End BuilderDemo.

Lemma builder_calls_witness :
  (∃ c', exec BuilderDemo.grows (CCompensate 1 2) (BuilderDemo.result BuilderDemo.program) = Ret c') ∧
  ∃ msg, exec BuilderDemo.grows (CWithMaxIterations 0 3) (BuilderDemo.result BuilderDemo.program) = Panic msg.
Proof.
  split.
  - destruct (builder_calls BuilderDemo.grows BuilderDemo.program (CCompensate 1 2) (BuilderDemo.result BuilderDemo.program))
      as (H & _ & _); [vm_compute; reflexivity..|]. destruct H as (c' & H & _); [vm_compute; reflexivity|]. by exists c'.
  - destruct (builder_calls BuilderDemo.grows BuilderDemo.program (CWithMaxIterations 0 3) (BuilderDemo.result BuilderDemo.program))
      as (_ & H & _); [vm_compute; reflexivity..|]. apply H. vm_compute. reflexivity.
Defined.

Lemma handles_wire_existing_witness : "fetch" ∈ ids_of (BuilderDemo.steps_of (BuilderDemo.result BuilderDemo.program)).
Proof.
  apply (handles_wire_existing BuilderDemo.grows BuilderDemo.program (BuilderDemo.result BuilderDemo.program) 0
    (BuilderDemo.steps_of (BuilderDemo.result BuilderDemo.program))
    (nth 1 (BuilderDemo.steps_of (BuilderDemo.result BuilderDemo.program)) zero_StepDef) "fetch").
  - vm_compute. reflexivity.
  - vm_compute. reflexivity.
  - vm_compute. reflexivity.
  - vm_compute. reflexivity.
  - apply list_elem_of_lookup. exists 1%nat. vm_compute. reflexivity.
  - left. apply list_elem_of_lookup. exists 0%nat. vm_compute. reflexivity.
Defined.

Lemma loop_settings_kept_witness :
  ∃ c' s', exec BuilderDemo.grows (CWithLoopDelay 1 Second) (BuilderDemo.result BuilderDemo.program) = Ret c' ∧
    handle_step (cl_store c') (handle (BuilderDemo.result BuilderDemo.program) 1) = Some s' ∧
    ParseAgentLoopConfig s' = Ret (MkAgentLoopConfig 5 0 Second 0 0).
Proof.
  destruct (loop_settings_kept BuilderDemo.grows BuilderDemo.program (CWithLoopDelay 1 Second) 1 (al_set_LoopDelay Second)
    (BuilderDemo.result BuilderDemo.program)
    (nth 1 (BuilderDemo.steps_of (BuilderDemo.result BuilderDemo.program)) zero_StepDef))
    as (cfg & c' & s' & Hp & He & Hs & Hr & _); [vm_compute; reflexivity..|].
  exists c', s'. split_and!; [exact He|exact Hs|]. rewrite Hr.
  assert (Ret cfg = Ret (MkAgentLoopConfig 5 0 0 0 0)) as E by (rewrite <-Hp; vm_compute; reflexivity).
  by injection E as ->.
Defined.

Lemma built_exact_witness :
  ∃ l, steps_at (cl_store (BuilderDemo.result BuilderDemo.program)) 0 = Some l ∧
    WellFormed BuilderDemo.LoadLocation (assemble (BuilderDemo.the_builder (BuilderDemo.result BuilderDemo.program)) l).
Proof.
  destruct (built_exact BuilderDemo.LoadLocation (λ l, l) (λ l, l) (λ l, reflexivity l) (λ l, reflexivity l)
    BuilderDemo.grows BuilderDemo.program (BuilderDemo.result BuilderDemo.program) 0
    (BuilderDemo.the_builder (BuilderDemo.result BuilderDemo.program))) as (l & Hl & Hiff & _); [vm_compute; reflexivity..|].
  exists l. split; [exact Hl|]. apply Hiff. vm_compute. reflexivity.
Defined.

Lemma hard_sticky_unbuildable_witness :
  is_ret (BuilderDemo.build (BuilderDemo.result (BuilderDemo.program ++ [CWithSticky 0 StickyHard]))) = false.
Proof.
  apply (hard_sticky_unbuildable BuilderDemo.LoadLocation (λ l, l) (λ l, l) (λ l, reflexivity l) (λ l, reflexivity l)
    BuilderDemo.grows (BuilderDemo.program ++ [CWithSticky 0 StickyHard])
    (BuilderDemo.result (BuilderDemo.program ++ [CWithSticky 0 StickyHard])) 0
    (BuilderDemo.the_builder (BuilderDemo.result (BuilderDemo.program ++ [CWithSticky 0 StickyHard])))); vm_compute; reflexivity.
Defined.

Lemma config_roundtrip_witness :
  ParsePlannerConfig (with_config (MarshalConfig (MkPlannerConfig 5 0 ["a.b"])) (step_def "p" "t" StepTypePlanner)) =
  Ret (MkPlannerConfig 5 0 ["a.b"]).
Proof. apply config_roundtrip; vm_compute; reflexivity. Defined.

(** ** What the interface does not give *)

(** The definition shares its steps with the builder: after [Build] returned
    a valid definition, a handle can still make its steps a cycle. *)
Theorem built_then_changed :
  ∃ def slice st c', BuilderDemo.build (BuilderDemo.result BuilderDemo.program) = Ret ((def, slice), st) ∧
    exec BuilderDemo.grows (CAfter 0 [1%nat]) (BuilderDemo.result BuilderDemo.program) = Ret c' ∧
    is_ret (Validate BuilderDemo.LoadLocation (λ l, l) (λ l, l) def) = true ∧
    is_ret (Validate BuilderDemo.LoadLocation (λ l, l) (λ l, l)
      (wd_set_Steps (read_slice (cl_store c') slice) def)) = false.
Proof.
  destruct (BuilderDemo.build (BuilderDemo.result BuilderDemo.program)) as [[[def slice] st]|e|msg] eqn:Hb; [|exfalso..].
  - vm_compute in Hb. injection Hb as <- <- <-. do 3 eexists. eexists. split_and!; [reflexivity|vm_compute; reflexivity|vm_compute; reflexivity..].
  - vm_compute in Hb. discriminate.
  - vm_compute in Hb. discriminate.
Qed.

(** A step given both kinds of rate limit makes [Build] panic. *)
Theorem both_limits_panic :
  is_panic (BuilderDemo.build (BuilderDemo.result (BuilderDemo.program ++
    [CWithRateLimit 0 (MkRateLimit 5 Second); CWithKeyedRateLimit 0 (MkKeyedRateLimit "input.id" 5 Second 1)]))) = true.
Proof. vm_compute. reflexivity. Qed.
