(* ===== verification/CorrelatorTheorems.v ===== *)
(** * Properties of the event correlator

    The index is the bucket when names have no dots; an event publishes to the
    runs whose waiters it matches and to no other; the last section shows what
    goes wrong with dotted event types, a failed start and a lost publish. *)

From S2P Require Import Prelude Float64 Json Types Config Keys GoTime Resolve Input Advance Dispatch Fence Recovery Handlers Timers Lease Script Planners Events Correlator CorrelatorSpec.
From stdpp Require Import relations.
From Stdlib Require Import Ascii.

#[local] Open Scope Z_scope.

(** ** The index *)

(** C15: however registrations, updates of the watch, events, deletes and
    removals interleave, once the watch has delivered every update the index
    of the correlator is the bucket: every waiter in it has its entry, is
    under its event type and there once, and every entry is in it, but for
    the runs whose waiters were removed.  Event types and run IDs have no
    dots, and a key is registered only when the bucket does not have it. *)
Theorem index_tracks_bucket (fmt_float : f64 → string) (s : sys) (e : string) (x : EventWaiter) :
  rtc (step fmt_float) new_sys s → co_watch (wo_c (sy_w s)) = true → bk_updates (wo_b (sy_w s)) = [] →
  (x ∈ waiters_of (wo_c (sy_w s)) e →
     ew_EventType x = e ∧ bk_entries (wo_b (sy_w s)) !! waiter_key x = Some (WJson x)) ∧
  (bk_entries (wo_b (sy_w s)) !! waiter_key x = Some (WJson x) →
     x ∈ waiters_of (wo_c (sy_w s)) (ew_EventType x) ∨ ew_RunID x ∈ sy_dropped s) ∧
  NoDup (waiters_of (wo_c (sy_w s)) e).
Proof.
  intros Hr Hw Hu. destruct (sy_tracked _ (steps_ok _ _ Hr) Hw) as (seen & Ht & Hi). rewrite Hu in Ht. cbn in Ht. subst seen.
  split_and!; [|apply Hi|apply Hi]. intros Hx. by destruct (ix_sound _ _ _ Hi _ _ Hx) as (? & ? & _).
Qed.

(** ** Events *)

Definition evaluable (x : EventWaiter) : bool :=
  negb (empty_str (ew_RunID x)) && negb (empty_str (ew_StepID x)) &&
  negb (empty_str (rm_Left (ew_Match x))) && negb (empty_str (rm_Op (ew_Match x))).

(** The waiters a document satisfies. *)
Definition satisfied (fmt_float : f64 → string) (data : option raw) (x : EventWaiter) : bool :=
  match matches fmt_float x data with Ret b => b | _ => false end.

Lemma walk_no_panic path parts v : is_panic (walk_path path parts v) = false.
Proof. revert v. induction parts as [|p parts IH]; intros v; [done|]. cbn. destruct v; try done. by destruct (obj_get p fs). Qed.

Lemma extract_no_panic path r : path ≠ "" → is_panic (ExtractDotPath path (Some r)) = false.
Proof.
  intros Hp%empty_str_false. unfold ExtractDotPath. rewrite Hp. cbn. destruct (raw_empty r); [done|]. cbn.
  destruct r as [bytes|v]; [done|]. unfold unmarshal_any. destruct (json_numbers_ok v); [|done]. cbn. apply walk_no_panic.
Qed.

Lemma extract_type eventType : extractEventType ("event." +:+ eventType) = Ret eventType.
Proof.
  unfold extractEventType. assert (empty_str ("event." +:+ eventType) = false) as -> by (by apply empty_str_false).
  assert (HasPrefix ("event." +:+ eventType) "event." = true) as -> by (unfold HasPrefix; cbn; by destruct eventType).
  cbn [negb panic_if mbind outcome_bind]. f_equal. apply (str_from_app "event.").
Qed.

Section Events.
Context (fmt_float : f64 → string).

Lemma evaluable_matches x r : evaluable x = true → ∃ b, matches fmt_float x (Some r) = Ret b.
Proof.
  unfold evaluable. rewrite !andb_true_iff, !negb_true_iff. intros [[[H1 H2] H3] H4]. unfold matches. rewrite H1, H2. cbn [panic_if mbind outcome_bind].
  unfold Evaluate. rewrite H3, H4. cbn [panic_if mbind outcome_bind]. apply empty_str_false in H3.
  pose proof (extract_no_panic _ r H3) as Hn. destruct (ExtractDotPath _ _) as [v|e|msg]; [|by eexists|done].
  destruct (bool_decide _); by eexists.
Qed.

Lemma evaluable_event x data now : evaluable x = true → ∃ e, match_event x data now = Ret e.
Proof.
  unfold evaluable. rewrite !andb_true_iff, !negb_true_iff. intros [[[H1 H2] _] _]. unfold match_event, protocol.NewWorkflowEvent, protocol.NewStepEvent.
  rewrite H1, H2. destruct (bool_decide _); by eexists.
Qed.

Lemma evaluate_all_spec l v now w :
  forallb evaluable l = true →
  ∃ w' es, evaluate_all fmt_float l (Some (RawJson v)) now [] w = Ret w' ∧ wo_c w' = wo_c w ∧
    wo_out w' = wo_out w ++ es ∧
    Forall2 (λ x e, match_event x (Some (RawJson v)) now = Ret e) (List.filter (satisfied fmt_float (Some (RawJson v))) l) es ∧
    bk_updates (wo_b w') = bk_updates (wo_b w) ++
      ((λ x, UDel (waiter_key x)) <$> List.filter (satisfied fmt_float (Some (RawJson v))) l) ∧
    bk_entries (wo_b w') = foldl (λ m x, delete (waiter_key x) m) (bk_entries (wo_b w))
      (List.filter (satisfied fmt_float (Some (RawJson v))) l).
Proof.
  revert w. induction l as [|x l IH]; intros w Hl; cbn [forallb] in Hl.
  { exists w, []. cbn. rewrite !app_nil_r. by split_and!. }
  apply andb_true_iff in Hl as [Hx Hl]. cbn [evaluate_all head default tail]. unfold evaluateWaiter.
  destruct (evaluable_matches x (RawJson v) Hx) as [b Hb]. assert (satisfied fmt_float (Some (RawJson v)) x = b) as Hsat by (unfold satisfied; by rewrite Hb).
  rewrite Hb. cbn [mbind outcome_bind List.filter]. rewrite Hsat.
  destruct b; cbn [negb].
  - destruct (evaluable_event x (Some (RawJson v)) now Hx) as [e He]. rewrite He. cbn [mbind outcome_bind marshals andb].
    destruct (IH (kv_delete (waiter_key x) (publish e w)) Hl) as (w' & es & Hw' & Hc & Ho & Hf & Hu & Hm).
    exists w', (e :: es). split_and!; [done|done| |by constructor| |done].
    + rewrite Ho. cbn. by rewrite <-app_assoc.
    + rewrite Hu. cbn. by rewrite <-app_assoc.
  - by apply IH.
Qed.

(** C37: an event is matched against the waiters of its type, in the order they
    were registered: one history event for each waiter its data satisfies, a
    cancellation or a completed wait as the waiter asks, and none for the
    others; the entries of the satisfied waiters are deleted, and the index
    changes only when the watch reports it.  Nothing panics when the waiters
    have the fields a registration demands. *)
Theorem event_matches_exactly (eventType : string) (v : json) (now : Time) (w : world) :
  eventType ≠ "" → forallb evaluable (waiters_of (wo_c w) eventType) = true →
  ∃ w' es, handleEventJS fmt_float ("event." +:+ eventType) (Some (RawJson v)) now [] w = Ret w' ∧ wo_c w' = wo_c w ∧
    wo_out w' = wo_out w ++ es ∧
    Forall2 (λ x e, match_event x (Some (RawJson v)) now = Ret e)
      (List.filter (satisfied fmt_float (Some (RawJson v))) (waiters_of (wo_c w) eventType)) es ∧
    bk_entries (wo_b w') = foldl (λ m x, delete (waiter_key x) m) (bk_entries (wo_b w))
      (List.filter (satisfied fmt_float (Some (RawJson v))) (waiters_of (wo_c w) eventType)).
Proof.
  intros He%empty_str_false Hev. destruct (evaluate_all_spec _ v now w Hev) as (w' & es & Hr & Hc & Ho & Hf & _ & Hm).
  exists w', es. split_and!; [|done..]. unfold handleEventJS. cbn [raw_len0 raw_empty panic_if mbind outcome_bind].
  rewrite extract_type. cbn [mbind outcome_bind]. rewrite He. exact Hr.
Qed.
End Events.

(** ** Dotted event types *)

Lemma first_dot s : str_contains_char "." s = true →
  ∃ a b, s = a +:+ "." +:+ b ∧ str_contains_char "." a = false.
Proof.
  induction s as [|c s IH]; [done|]. cbn. destruct (decide (c = "."%char)) as [->|Hne].
  - intros _. by exists "", s.
  - rewrite bool_decide_eq_false_2 by done. intros Hs. destruct (IH Hs) as (a & b & -> & Ha). exists (String c a), b. split; [done|].
    cbn. by rewrite bool_decide_eq_false_2.
Qed.

(** A waiter for an event type with a dot, like [payment.completed], never
    leaves the index: the delete of its entry is read as that of another event
    type, so it is matched, and publishes, again at every later event. *)
Theorem dotted_waiter_stays (x : EventWaiter) (w : world) :
  str_contains_char "." (ew_EventType x) = true →
  ∃ w', handleKVDelete (waiter_key x) w = Ret w' ∧
    waiters_of (wo_c w') (ew_EventType x) = waiters_of (wo_c w) (ew_EventType x).
Proof.
  intros Hdot. destruct (first_dot _ Hdot) as (a & b & Hab & Ha). unfold handleKVDelete. rewrite waiter_key_ne.
  cbn [panic_if mbind outcome_bind]. assert (splitn_char "." 3 (waiter_key x) =
    a :: splitn_char "." 2 (b +:+ "." +:+ ew_RunID x +:+ "." +:+ ew_StepID x)) as ->.
  { unfold waiter_key, waiter_key_of. by rewrite Hab, !str_app_assoc, splitn_step. }
  destruct (splitn_char "." 2 _) as [|r [|s [|]]] eqn:Hs; try (eexists; split; [reflexivity|done]).
  eexists. split; [reflexivity|]. unfold waiters_of. cbn. rewrite lookup_alter_ne; [done|].
  intros E. rewrite <-E, Ha in Hdot. done.
Qed.

(** ** Instances *)

Module CorrelatorDemo.

Definition text (f : f64) : string := "".
Definition now : Time := zero_time.
Definition paid (order : string) : json := JObj [("order", JStr order)].

Definition waiter (eventType : string) : EventWaiter :=
  MkEventWaiter "run-1" "wait" eventType (MkResolvedMatch "order" "eq" (JStr "o-7")) "".

Definition after {A} (o : outcome A) (d : A) : A := match o with Ret a => a | _ => d end.

(** A waiter registered, and the watch caught up. *)
Definition registered (eventType : string) : world :=
  after (processKVUpdates (AddWaiter true [] true (waiter eventType) new_world).2) new_world.

(** The steps of that: admitted, written, delivered to the index. *)
Definition admitted : world := (admit_waiter true [] (waiter "paid") new_world).2.
Definition put : world := kv_put (waiter_key (waiter "paid")) (WJson (waiter "paid")) admitted.
Definition delivered : world := MkWorld (wo_c put) (MkBucket (bk_entries (wo_b put)) []) (wo_out put).

(** An event, and the watch caught up. *)
Definition event (eventType : string) (w : world) : world :=
  after (processKVUpdates (after (handleEventJS text ("event." +:+ eventType) (Some (RawJson (paid "o-7"))) now [] w) new_world)) new_world.

Definition summary (eventType : string) (w : world) : nat * nat * list protocol.EventType :=
  (size (bk_entries (wo_b w)), length (waiters_of (wo_c w) eventType), protocol.Type_ <$> wo_out w).

(** A plain type: one match, then the waiter is gone. *)
Example plain_type : summary "paid" (event "paid" (event "paid" (registered "paid"))) = (0%nat, 0%nat, [EventStepWaitMatched]).
Proof. vm_compute. reflexivity. Qed.

(** A dotted type: the bucket is empty and the waiter matches every event. *)
Example dotted_type :
  summary "order.paid" (event "order.paid" (event "order.paid" (registered "order.paid"))) =
  (0%nat, 1%nat, [EventStepWaitMatched; EventStepWaitMatched]).
Proof. vm_compute. reflexivity. Qed.

End CorrelatorDemo.

Lemma dotted_waiter_stays_witness :
  ∃ w', handleKVDelete "order.paid.run-1.wait" (CorrelatorDemo.registered "order.paid") = Ret w' ∧
    waiters_of (wo_c w') "order.paid" = [CorrelatorDemo.waiter "order.paid"].
Proof.
  destruct (dotted_waiter_stays (CorrelatorDemo.waiter "order.paid") (CorrelatorDemo.registered "order.paid") eq_refl) as (w' & H1 & H2).
  exists w'. split; [exact H1|]. etrans; [exact H2|]. vm_compute. reflexivity.
Defined.

Lemma event_matches_exactly_witness :
  ∃ w', handleEventJS CorrelatorDemo.text "event.paid" (Some (RawJson (CorrelatorDemo.paid "o-7"))) CorrelatorDemo.now []
      (CorrelatorDemo.registered "paid") = Ret w' ∧ length (wo_out w') = 1%nat.
Proof.
  destruct (event_matches_exactly CorrelatorDemo.text "paid" (CorrelatorDemo.paid "o-7") CorrelatorDemo.now (CorrelatorDemo.registered "paid"))
    as (w' & es & H & _ & Ho & Hf & _); [discriminate|vm_compute; reflexivity|].
  exists w'. split; [exact H|]. rewrite Ho, length_app, <-(Forall2_length _ _ _ Hf). vm_compute. reflexivity.
Defined.

Lemma index_tracks_bucket_witness :
  NoDup (waiters_of (wo_c (CorrelatorDemo.registered "paid")) "paid") ∧
  ew_EventType (CorrelatorDemo.waiter "paid") = "paid".
Proof.
  destruct (index_tracks_bucket CorrelatorDemo.text (MkSys (CorrelatorDemo.registered "paid") [] [] [] ∅) "paid" (CorrelatorDemo.waiter "paid"))
    as (H1 & _ & H3); [|vm_compute; reflexivity..|].
  - apply (rtc_l _ _ (MkSys CorrelatorDemo.admitted [CorrelatorDemo.waiter "paid"] [] [] ∅)).
    { apply (step_admit _ true [] (CorrelatorDemo.waiter "paid") new_world CorrelatorDemo.admitted []);
        [apply Permutation_refl|vm_compute; reflexivity]. }
    apply (rtc_l _ _ (MkSys CorrelatorDemo.put [] [] [] ∅)).
    { apply (step_put _ (CorrelatorDemo.waiter "paid") CorrelatorDemo.admitted [CorrelatorDemo.waiter "paid"] []);
        [apply Permutation_refl|vm_compute; reflexivity..]. }
    apply rtc_once.
    apply (step_update _ (UPut "paid.run-1.wait" (WJson (CorrelatorDemo.waiter "paid"))) CorrelatorDemo.put CorrelatorDemo.delivered);
      vm_compute; reflexivity.
  - split; [exact H3|]. apply H1. vm_compute. left.
Defined.

(** ** Failures the code forgets *)

(** A start that failed is not tried again, and the next one says it
    succeeded: waiters are then written and never matched. *)
Theorem failed_start_forgotten (initial initial' : list (string * wvalue)) (ok : bool) (w : world) :
  co_once (wo_c w) = false →
  let w1 := (Start false initial w).2 in
  is_ret (Start false initial w).1 = false ∧ Start ok initial' w1 = (Ret tt, w1) ∧ co_watch (wo_c w1) = false.
Proof. intros H w1. unfold w1, Start. by rewrite H. Qed.

(** A match whose publish did not reach the stream deletes the waiter all the
    same: nothing tells the run. *)
Theorem match_lost (fmt_float : f64 → string) (x : EventWaiter) (data : option raw) (now : Time) (w : world) :
  evaluable x = true → matches fmt_float x data = Ret true →
  evaluateWaiter fmt_float x data now false true w = Ret (kv_delete (waiter_key x) w).
Proof.
  intros Hx Hm. unfold evaluateWaiter. rewrite Hm. cbn [mbind outcome_bind negb]. destruct (evaluable_event x data now Hx) as [e ->].
  cbn [mbind outcome_bind]. by rewrite andb_false_r.
Qed.
