(* ===== verification/BridgeTheorems.v ===== *)
(** * Properties of the bridge's claims

    A delivery is ended under its mutex at most once, the maps stay bounded, and a claim with a
    sign of life is kept.  The last section shows the interleaving the claim's
    mutex does not cover. *)

From stdpp Require Import relations.
From S2P Require Import Prelude GoTime AckMap AckMapSpec AckClaims AckClaimsSpec.

#[local] Open Scope Z_scope.

(** ** Endings *)

(** C14: however polls, resolves of every action, connection closes and
    withdrawals interleave, the actions that end a claim (complete, fail,
    continue and pause) and the releases of closed connections end a delivery
    at most once in all: it is never ended by one of them and released to
    another worker, no two resolves end it, and no two releases.  The
    acknowledgements of withdrawals (a cancelled run, a journal that is over),
    which the code makes without the claim's mutex, are not counted:
    [withdrawn_and_released] below shows that one of them can meet a Nak. *)
Theorem claim_ended_once (start : Time) (am : AckMap) (s : bridge) :
  newAckMapWithClock start = Ret am → rtc bridge_step (fresh_bridge am) s → NoDup (locked_endings (bs_ended s)).
Proof. intros H0 Hr. apply (ck_once _ (bridge_steps_ok _ _ _ H0 Hr)). Qed.

(** ** Bounds *)

(** C33: after any calls, the map of claims and that of resolved tasks are
    within their caps and the index by connection holds exactly the tasks
    claimed under each connection; and when a claim has just been stored, no
    claim in the map is older than the reap window and one sweep interval. *)
Theorem claims_bounded (start clock : Time) (am0 am : AckMap) :
  newAckMapWithClock start = Ret am0 → rtc ack_step (start, am0) (clock, am) →
  Z.of_nat (Count am) ≤ ackMapMaxEntries ∧ Z.of_nat (size (am_resolvedTasks am)) ≤ resolvedTaskMax ∧
  (∀ c t, t ∈ conn_tasks am c ↔ ∃ e, am_entries am !! t = Some e ∧ ae_conn e = Some c) ∧
  ∀ now order order' t msg token conn am', clock ≤ now →
    keys_of (am_entries am) order → keys_of (am_entries am) order' →
    storeForConn order order' t msg token conn now am = Ret am' →
    ∀ u e, am_entries am' !! u = Some e → now - ae_storedAt e < ackMapReapAfter + ackMapSweepInterval.
Proof.
  intros H0 Hr. pose proof (ack_steps_ok _ _ _ H0 Hr) as Hok. cbn in Hok. split_and!; [apply Hok..|].
  intros now order order' t msg token conn am' Hc Ho Ho' Hs. by apply (ack_store_ok clock now order order' t msg token conn am am').
Qed.

(** Storing a claim loses another one only when its worker was silent for
    the whole reap window, which is longer than the time after which NATS
    redelivers the message, or when the map is full and the claim is an oldest
    one; otherwise the claim is unchanged. *)
Theorem live_claim_kept (order order' : list string) (t : string) (msg : nat) (token : string) (conn : option nat)
    (now : Time) (am am' : AckMap) (u : string) (e : ackEntry) :
  keys_of (am_entries am) order' → storeForConn order order' t msg token conn now am = Ret am' →
  am_entries am !! u = Some e → u ≠ t → now - ae_storedAt e < DefaultAckWait + ackMapReapMargin →
  am_entries am' !! u = Some e ∨
  ackMapMaxEntries ≤ Z.of_nat (Count am) ∧
  ∀ v e', am_entries am !! v = Some e' → now - ae_storedAt e' < DefaultAckWait + ackMapReapMargin → ae_storedAt e ≤ ae_storedAt e'.
Proof.
  intros Ho (am1 & am2 & Hs & -> & Hcase)%store_inv Hu Hne Hlive. pose proof (sweep_rest _ _ _ _ Hs) as (_ & _ & _ & Hsub).
  pose proof (proj1 (sweep_keeps _ _ _ _ u e Hs) Hu Hlive) as Hu1.
  destruct (insert_entries t msg token conn now am2) as (-> & _). rewrite lookup_insert_ne by done.
  destruct Hcase as [[_ ->]|[Hge He]]; [by left|].
  destruct (evict_spec _ _ _ He) as (id & e1 & Hid & -> & Hold).
  { intros v [e' He']. apply Ho. eapply lookup_weaken in Hsub; [|done]. eauto. }
  rewrite delete_entries. destruct (decide (id = u)) as [->|Hnu]; [|left; by rewrite lookup_delete_ne].
  right. split; [pose proof (map_subseteq_size _ _ Hsub); unfold Count; lia|]. rewrite Hu1 in Hid. injection Hid as <-.
  intros v e' Hv Hl. apply (Hold v). by apply (sweep_keeps _ _ _ _ v e' Hs).
Qed.

(** ** Instances *)

Module BridgeDemo.

Definition after {A} (o : outcome A) (d : A) : A := match o with Ret a => a | _ => d end.

Definition am0 : AckMap := MkAckMap ∅ ∅ 1 ∅ 0.

(** Task [r.s], polled under connection 7 as message 1. *)
Definition am1 : AckMap := after (storeForConn [] [] "r.s" 1 "tok" (Some 7%nat) 2 am0) am0.
Definition ref : claimRef := MkClaimRef "r.s" 1 0.
Definition am2 : AckMap := (takeUnresolved ref am1).2.
Definition stored : gmap nat (string * nat) := {[1%nat := ("r.s", 0%nat)]}.

Lemma polled : bridge_step (fresh_bridge am0) (MkBridge am1 [] [] stored).
Proof. apply (b_poll [] [] "r.s" 1 "tok" (Some 7%nat) 2 am0 am1); vm_compute; reflexivity. Qed.

Lemma am1_entry : am_entries am1 = {["r.s" := new_entry 1 2 "tok" (Some 7%nat) 0]}.
Proof. vm_compute. reflexivity. Qed.

End BridgeDemo.

Lemma claim_ended_once_witness : NoDup (locked_endings [(1%nat, Acked)]).
Proof.
  apply (claim_ended_once 1 BridgeDemo.am0 (MkBridge BridgeDemo.am1 [RDelete "r.s" 1 0] [(1%nat, Acked)] BridgeDemo.stored)); [vm_compute; reflexivity|].
  eapply rtc_l; [apply BridgeDemo.polled|]. eapply rtc_l; [apply (b_resolve "r.s")|].
  eapply rtc_l; [apply (b_thread BridgeDemo.am1 [RLoad "r.s"] [] BridgeDemo.stored 0 (RLoad "r.s") BridgeDemo.am1 [] (RLock "r.s" 1));
    [reflexivity|by apply t_load]|].
  eapply rtc_l; [apply (b_thread BridgeDemo.am1 [RLock "r.s" 1] [] BridgeDemo.stored 0 (RLock "r.s" 1) BridgeDemo.am1 [] (RWait "r.s" 1 0));
    [reflexivity|by apply t_lock]|].
  eapply rtc_l; [apply (b_thread BridgeDemo.am1 [RWait "r.s" 1 0] [] BridgeDemo.stored 0 (RWait "r.s" 1 0) BridgeDemo.am1 [] (RCheck "r.s" 1 0));
    [reflexivity|apply t_acquire]|].
  { intros [|i] th Hi; cbn in Hi; [injection Hi as <-; done|by destruct i]. }
  eapply rtc_l; [apply (b_thread BridgeDemo.am1 [RCheck "r.s" 1 0] [] BridgeDemo.stored 0 (RCheck "r.s" 1 0) BridgeDemo.am1 [] (REnd "r.s" 1 0));
    [reflexivity|by apply t_same]|].
  apply rtc_once, (b_thread BridgeDemo.am1 [REnd "r.s" 1 0] [] BridgeDemo.stored 0 (REnd "r.s" 1 0) BridgeDemo.am1 [(1%nat, Acked)] (RDelete "r.s" 1 0));
    [reflexivity|by apply t_end].
Defined.

Lemma claims_bounded_witness : Z.of_nat (Count BridgeDemo.am1) ≤ ackMapMaxEntries.
Proof.
  apply (claims_bounded 1 2 BridgeDemo.am0 BridgeDemo.am1); [vm_compute; reflexivity|]. apply rtc_once.
  apply (ack_store 1 2 [] [] "r.s" 1 "tok" (Some 7%nat)); [lia|by intros t [x H]; cbn in H; rewrite lookup_empty in H..|vm_compute; reflexivity].
Defined.

Lemma live_claim_kept_witness :
  am_entries (BridgeDemo.after (storeForConn ["r.s"] ["r.s"] "r.t" 2 "tok" None (60 * Second) BridgeDemo.am1) BridgeDemo.am0) !! "r.s" =
  Some (new_entry 1 2 "tok" (Some 7%nat) 0).
Proof.
  destruct (live_claim_kept ["r.s"] ["r.s"] "r.t" 2 "tok" None (60 * Second) BridgeDemo.am1
    (BridgeDemo.after (storeForConn ["r.s"] ["r.s"] "r.t" 2 "tok" None (60 * Second) BridgeDemo.am1) BridgeDemo.am0)
    "r.s" (new_entry 1 2 "tok" (Some 7%nat) 0)) as [H|[H _]].
  - rewrite BridgeDemo.am1_entry. intros t [x Hx]. apply lookup_singleton_Some in Hx as [<- _]. by left.
  - vm_compute. reflexivity.
  - vm_compute. reflexivity.
  - discriminate.
  - vm_compute. reflexivity.
  - exact H.
  - exfalso. vm_compute in H. by apply H.
Defined.

(** ** What the mutex does not cover *)

(** An action that does not take the claim's mutex ends the claim of a
    cancelled run, so the same delivery can be both acknowledged by it and
    Nak'd by the release of its connection. *)
Theorem withdrawn_and_released :
  ∃ s, rtc bridge_step (fresh_bridge BridgeDemo.am0) s ∧ bs_ended s = [(1%nat, Naked); (1%nat, Withdrawn)].
Proof.
  exists (MkBridge BridgeDemo.am2 [HDelete "r.s" 1; Done] [(1%nat, Naked); (1%nat, Withdrawn)] BridgeDemo.stored). split; [|done].
  eapply rtc_l; [apply BridgeDemo.polled|].
  eapply rtc_l; [apply (b_other "r.s")|].
  eapply rtc_l; [apply (b_thread BridgeDemo.am1 [HLoad "r.s"] [] BridgeDemo.stored 0 (HLoad "r.s") BridgeDemo.am1 [] (HAck "r.s" 1));
    [reflexivity|by apply t_hload]|].
  eapply rtc_l; [apply (b_close 7)|].
  eapply rtc_l; [apply (b_thread BridgeDemo.am1 [HAck "r.s" 1; LWait BridgeDemo.ref] [] BridgeDemo.stored 1 (LWait BridgeDemo.ref)
    BridgeDemo.am1 [] (LTake BridgeDemo.ref)); [reflexivity|apply t_acquire_release]|].
  { intros [|[|i]] th Hi; cbn in Hi; [injection Hi as <-; done|injection Hi as <-; done|by destruct i]. }
  eapply rtc_l; [apply (b_thread BridgeDemo.am1 [HAck "r.s" 1; LTake BridgeDemo.ref] [] BridgeDemo.stored 1 (LTake BridgeDemo.ref)
    BridgeDemo.am2 [] (LNak BridgeDemo.ref)); [reflexivity|apply t_take; vm_compute; reflexivity]|].
  eapply rtc_l; [apply (b_thread BridgeDemo.am2 [HAck "r.s" 1; LNak BridgeDemo.ref] [] BridgeDemo.stored 1 (LNak BridgeDemo.ref)
    BridgeDemo.am2 [(1%nat, Naked)] Done); [reflexivity|apply (t_nak _ _ BridgeDemo.ref)]|].
  apply rtc_once. apply (b_thread BridgeDemo.am2 [HAck "r.s" 1; Done] [(1%nat, Naked)] BridgeDemo.stored 0 (HAck "r.s" 1)
    BridgeDemo.am2 [(1%nat, Withdrawn)] (HDelete "r.s" 1)); [reflexivity|by apply t_hack].
Qed.
