(* ===== verification/TriggerTheorems.v ===== *)
(** * Properties of the triggers

    The cron scheduler fires a minute once and replays what it missed, within
    its window; debounced subjects; validation. *)

From stdpp Require Import pretty sorting relations.
From S2P Require Import Prelude Float64 Json GoTime Cron Kv Input Interleave Trigger Scheduler Debounce.

#[local] Open Scope Z_scope.

(** ** Validation *)

(** C23: Validate accepts a trigger definition exactly when it has an ID
    and a workflow, names exactly one kind of trigger other than external (whose
    schema only ValidateWithKV can read) with a usable configuration (a cron
    expression that parses and no debounce, a subject, a path that starts with
    a slash, the rules of an HTTP trigger, a watched workflow other than the
    target with known statuses), and its debounce period is positive and at
    most seven days and its timeout zero or between the two. *)
Theorem trigger_valid_iff {schema : Type} (AddResource : raw → outcome unit) (Compile : raw → outcome schema)
    (schema_Validate : schema → json → outcome unit) (def : TriggerDef) :
  ValidateTrigger AddResource Compile schema_Validate def = Ret tt ↔
  tg_ID def ≠ "" ∧ tg_WorkflowID def ≠ "" ∧ kind_ok def ∧ ∀ d, tg_Debounce def = Some d → debounce_ok d.
Proof.
  unfold ValidateTrigger, validateCommon. destruct (decide (tg_ID def = "")) as [Hid|Hid].
  { rewrite Hid. destruct (empty_def def); cbn; naive_solver. }
  destruct (decide (tg_WorkflowID def = "")) as [Hwf|Hwf].
  { rewrite Hwf, (proj2 (empty_str_false _) Hid). destruct (empty_def def); cbn; naive_solver. }
  assert (empty_def def = false) as -> by (unfold empty_def; by rewrite (proj2 (empty_str_false _) Hid)).
  rewrite (proj2 (empty_str_false _) Hid), (proj2 (empty_str_false _) Hwf).
  assert (∃ n, countTriggerTypes def = Ret n) as [n Hn].
  { unfold countTriggerTypes. rewrite (proj2 (empty_str_false _) Hid), (proj2 (empty_str_false _) Hwf). cbn. eauto. }
  rewrite <-(branch_valid AddResource Compile schema_Validate def n Hid Hn), Hn. cbn [panic_if fail_if mbind outcome_bind].
  rewrite !bind_unit_ret_iff, fail_if_ret_iff, negb_false_iff, Z.eqb_eq. destruct (tg_Debounce def) as [d|] eqn:Hd.
  - rewrite (debounce_valid def d Hid Hd). naive_solver.
  - naive_solver.
Qed.

(** ** Cron *)

(** C17: through any registrations, backfills and ticks, whatever the
    server answers and however the clock jumps, a trigger that is not removed
    starts at most one run for each minute, in the order of the minutes; and
    every start is of a registered trigger, at an instant its expression
    allows in its time zone. *)
Theorem cron_minute_once (LoadLocation : string → outcome Location) (new_id : nat → string)
    (state : gmap string stamp) (answers : list answer) (ops : list cron_op) (id : string) :
  OpRemove id ∉ ops →
  let w := cron_run LoadLocation new_id ops (fresh_cron state answers) in
  StronglySorted Z.lt (minutes_of id (cw_started w)) ∧ Forall (due LoadLocation (λ def, OpAdd def ∈ ops)) (cw_started w).
Proof.
  intros Hr w. set (P := λ def, OpAdd def ∈ ops).
  destruct (cron_run_keeps LoadLocation new_id P (minutes_ok id) ops (fresh_cron state answers)) as [[_ Hd] [Hs _]]; [apply minutes_kept|by intros []| | | |done].
  - intros op w0 Hop [H1 H2]. split.
    + intros def ->. split; [exact H1|exact H2].
    + intros i ->. assert (i ≠ id) by congruence. split; [exact H1|]. unfold claimed in *. cbn. by rewrite lookup_delete_ne.
  - split; [|constructor]. intros i def H. cbn in H. by rewrite lookup_empty in H.
  - split; constructor.
Qed.

(** C24: a backfill after a restart, when the server answers and no
    minute of the trigger was claimed in this process: of the minutes after the
    last recorded run and up to the current one that the expression allows
    ([l], the minutes the documentation promises), it starts one run for each
    of the first hundred that the scan reaches, in order, and records the last
    of them.  Up to 10000 minutes after the last run these are the first hundred
    of the promised minutes; after a longer time the later ones are not
    reached ([weekly_miss_lost] below). *)
Theorem backfill_exact (LoadLocation : string → outcome Location) (new_id : nat → string) (def : TriggerDef)
    (c : CronConfig) (expr : CronExpr) (loc : Location) (lastRun clock : Time) (w : cron_world) :
  tg_ID def ≠ "" → tg_WorkflowID def ≠ "" → tg_Cron def = Some c → cc_Backfill c = true →
  ParseCron (cc_Expression c) = Ret expr → LoadLocation (cc_Timezone c) = Ret loc →
  cw_answers w = [] → sc_lastFired (cw_s w) !! tg_ID def = None →
  cw_state w !! last_run_key (tg_ID def) = Some (StampAt lastRun) → zero_time < lastRun →
  ∃ l w', missed_minutes (expr_allows (Fields (cc_Expression c)) loc) lastRun (Truncate clock Minute) l ∧
    backfillTrigger LoadLocation new_id clock def w = (w', Ret tt) ∧
    cw_started w' = cw_started w ++ imap (λ i t, start_msg new_id def (cw_next w + i) t) (take 100 (scanned lastRun l)) ∧
    (Truncate clock Minute < scan_end lastRun → scanned lastRun l = l) ∧
    ∀ t, last (take 100 (scanned lastRun l)) = Some t → cw_state w' !! last_run_key (tg_ID def) = Some (StampAt t).
Proof.
  intros Hid Hwf Hc Hb Hp Hloc Ha Hlf Hst Hz.
  assert (empty_str (tg_ID def) = false) as Hid' by (by destruct (tg_ID def)).
  assert (empty_str (tg_WorkflowID def) = false) as Hwf' by (by destruct (tg_WorkflowID def)).
  destruct (findMatches_spec LoadLocation new_id def c expr loc lastRun (Truncate clock Minute)) as (l & Hf & Hmm); [done..|].
  destruct (replay_quiet new_id def Hid' Hwf' (take 100 (scanned lastRun l)) w) as (w' & Hr & Hsd & Hst');
    [done|apply take_sorted, filter_sorted, Hmm| |].
  { apply Forall_take, Forall_forall. intros t [Hin _]%list_elem_of_In%List.filter_In.
    apply list_elem_of_In, (mm_elem _ _ _ _ Hmm) in Hin as (_ & Ht & ?). unfold claimed. rewrite Hlf. cbn -[zero_time].
    split_and!; [done|lia|lia]. }
  exists l, w'. split_and!; [done| |done|by eapply scanned_all|done].
  assert (loadLastRun (tg_ID def) w = (w, Ret lastRun)) as Hl.
  { unfold loadLastRun, pop_answer, gets, cm_of, mbind, cm_bind. rewrite Hid'. cbn. by rewrite Ha, Hst. }
  unfold backfillTrigger, cm_of, cm_wrap, mbind, cm_bind. rewrite Hid', Hc, Hb. cbn -[loadLastRun findMatches]. rewrite Hl.
  cbn -[findMatches]. unfold IsZero. by rewrite (proj2 (Z.eqb_neq lastRun zero_time)), Hf by lia.
Qed.

Module CronDemo.

Definition LoadLocation (name : string) : outcome Location := Ret UTC.
Definition new_id (n : nat) : string := "run" +:+ pretty n.

(** Monday 1 January 2024, 00:00 UTC. *)
Definition monday : Time := 1704067200 * Second.
Definition week : Z := 7 * 24 * Hour.

Definition weekly : TriggerDef :=
  MkTriggerDef "report" "wf" true (Some (MkCronConfig "0 0 * * 1" "UTC" true)) None None None None None None "".
Definition hourly : TriggerDef :=
  MkTriggerDef "sync" "wf" true (Some (MkCronConfig "0 * * * *" "UTC" true)) None None None None None None "".

Definition run (ops : list cron_op) (state : gmap string stamp) (answers : list answer) : cron_world :=
  cron_run LoadLocation new_id ops (fresh_cron state answers).

(** Two ticks in one minute, the first start lost on the way. *)
Definition ops : list cron_op :=
  [OpAdd hourly; OpTick ["sync"] monday; OpTick ["sync"] (monday + 30 * Second); OpTick ["sync"] (monday + Hour + 5 * Second)].

Definition stamped (def : TriggerDef) (t : Time) : cron_world :=
  MkCronWorld (MkScheduler {[tg_ID def := def]} ∅ ∅) {[last_run_key (tg_ID def) := StampAt t]} [] [] [] 0.

Definition hourly_expr : CronExpr := match ParseCron "0 * * * *" with Ret e => e | _ => MkCronExpr [] [] [] [] [] false false end.
End CronDemo.

Lemma cron_minute_once_witness :
  StronglySorted Z.lt (minutes_of "sync" (cw_started (CronDemo.run CronDemo.ops ∅ []))) ∧
  length (minutes_of "sync" (cw_started (CronDemo.run CronDemo.ops ∅ []))) = 2%nat.
Proof.
  split; [|vm_compute; reflexivity].
  apply (cron_minute_once CronDemo.LoadLocation CronDemo.new_id ∅ [] CronDemo.ops "sync").
  unfold CronDemo.ops. rewrite !elem_of_cons, elem_of_nil. naive_solver.
Defined.

Lemma backfill_exact_witness :
  ∃ w', backfillTrigger CronDemo.LoadLocation CronDemo.new_id (CronDemo.monday + 3 * Hour + Second) CronDemo.hourly
    (CronDemo.stamped CronDemo.hourly CronDemo.monday) = (w', Ret tt).
Proof.
  destruct (backfill_exact CronDemo.LoadLocation CronDemo.new_id CronDemo.hourly (MkCronConfig "0 * * * *" "UTC" true)
    CronDemo.hourly_expr UTC CronDemo.monday (CronDemo.monday + 3 * Hour + Second)
    (CronDemo.stamped CronDemo.hourly CronDemo.monday)) as (l & w' & _ & H & _);
    [discriminate|discriminate|vm_compute; reflexivity..|].
  exists w'. exact H.
Defined.

(** ** Fires the code loses or repeats *)

(** The run of a weekly trigger that came due while the service was
    down is not replayed: the scan stops 10000 minutes after the last run and a
    week has 10080.  Nor does a later tick start it. *)
Theorem weekly_miss_lost :
  let due := CronDemo.monday + CronDemo.week in
  shouldFire CronDemo.LoadLocation CronDemo.weekly due = Ret true ∧
  cw_started (CronDemo.run [OpAdd CronDemo.weekly; OpBackfill ["report"] (due + 5 * Minute); OpTick ["report"] (due + 6 * Minute)]
    {[last_run_key "report" := StampAt CronDemo.monday]} []) = [].
Proof. split; vm_compute; reflexivity. Qed.

(** A trigger whose definition is put again in the minute it fired fires
    once more at the next tick: the update removes the trigger, and with it the
    claim of the minute, before it is added. *)
Theorem updated_trigger_fires_again :
  minutes_of "sync" (cw_started (CronDemo.run
    [OpAdd CronDemo.hourly; OpTick ["sync"] CronDemo.monday; OpRemove "sync"; OpAdd CronDemo.hourly;
     OpTick ["sync"] (CronDemo.monday + 30 * Second)] ∅ [])) = [CronDemo.monday; CronDemo.monday].
Proof. vm_compute. reflexivity. Qed.

(** ** Debounced subjects *)

(** C18: for messages and timers handled one after the other, with every
    call succeeding: a message that its window absorbs starts no run; whatever
    other messages and timers are handled after it, as long as none is a
    message of the same window or its own timer, the earlier timers of the
    window do nothing; when its timer comes exactly one run starts, with the
    data of this message, and the window is closed; later deliveries of the
    timer do nothing.  Handlers that interleave can lose a message:
    [debounced_event_lost] below. *)
Theorem debounced_once (fmt_float : f64 → string) (valid : string → bool) (w : debw) (now : Time) (def : TriggerDef)
    (d : DebounceConfig) (v : json) (key : string) (mid after : list deb_op) :
  tg_ID def ≠ "" → live_def def (tg_ID def) = true → dw_triggers w !! tg_ID def = Some (Ret def) → tg_Debounce def = Some d →
  debounceKey fmt_float def (Some (RawJson v)) = Ret key → valid key = true → absorbs d now key w →
  let n := S (length (dw_timers w)) in
  Forall (avoids fmt_float key n) mid →
  let w1 := deb_step fmt_float valid w (DMessage now def (Some (RawJson v))) in
  let w2 := deb_run fmt_float valid mid w1 in
  let w3 := deb_step fmt_float valid w2 (DTimer n) in
  let w4 := deb_run fmt_float valid after w3 in
  dw_started w1 = dw_started w ∧
  (∀ m t, m ≠ n → dw_timers w2 !! (m - 1)%nat = Some t → dt_Key t = key → deb_step fmt_float valid w2 (DTimer m) = w2) ∧
  dw_started w3 = dw_started w2 ++ [MkSubjectStart (tg_ID def) (tg_WorkflowID def) (Some (RawJson v))] ∧
  dw_windows w3 !! key = None ∧ deb_step fmt_float valid w4 (DTimer n) = w4.
Proof.
  intros Hid Hl Hg Hd Hk Hv Ha n Hmid w1 w2 w3 w4.
  assert (empty_str (tg_ID def) = false) as Hid' by (by destruct (tg_ID def)).
  assert (tg_Enabled def = true) as He by (unfold live_def in Hl; rewrite !andb_true_iff in Hl; apply Hl).
  destruct (message_written fmt_float valid now def d v key w He Hd Hk Hv Ha) as [f Hw1]. match type of Hw1 with _ = ?x => change (w1 = x) in Hw1 end.
  assert (pending key (tg_ID def) (RawJson v) n w1) as Hp1.
  { rewrite Hw1. split; cbn; [rewrite lookup_insert_eq; eauto|]. rewrite Nat.sub_0_r. eexists. split; [by apply list_lookup_middle|done]. }
  pose proof (pending_run fmt_float valid key _ _ n mid w1 Hmid Hp1) as Hp2. fold w2 in Hp2.
  assert (dw_triggers w2 !! tg_ID def = Some (Ret def)) as Hg2 by (unfold w2; rewrite run_triggers; rewrite Hw1; exact Hg).
  pose proof (debounceKey_nonempty _ _ _ _ Hk) as Hne.
  pose proof (timer_fires fmt_float valid def key v n w2 Hp2 Hv Hne Hid' Hl Hg2) as Hw3. fold w3 in Hw3.
  split; [by rewrite Hw1|]. split; [|split; [by rewrite Hw3|]].
  { intros m t Hm Ht Htk. cbn -[HandleTimerFire]. rewrite Ht, timer_stale; [done|]. destruct Hp2 as [(f' & r & Hwin) _].
    rewrite Htk, Hwin. intros ? ? ? [= _ _ E]. congruence. }
   split; [rewrite Hw3; apply lookup_delete_eq|].
  apply (spent_run fmt_float valid key). destruct Hp2 as [_ (t & Ht & Htk & _)]. rewrite Hw3. split; [|split]; cbn.
  - pose proof (lookup_lt_Some _ _ _ Ht). lia.
  - eauto.
  - by rewrite lookup_delete_eq.
Qed.

Module DebounceDemo.

Definition fmt (x : f64) : string := "".
Definition valid (k : string) : bool := true.

(** One run per user, five seconds after the user's last click. *)
Definition clicks : TriggerDef :=
  MkTriggerDef "clicks" "wf" true None (Some "ui.click") None None None None
    (Some (MkDebounceConfig (5 * Second) 0 "user")) "".
Definition click (user : string) (n : Z) : json := JObj [("user", JStr user); ("n", JInt n)].
Definition message (user : string) (n : Z) : deb_op := DMessage (n * Second) clicks (Some (RawJson (click user n))).

Definition start : debw := fresh_deb {["clicks" := Ret clicks]}.

(** Ann clicked once. *)
Definition one_click : debw := deb_step fmt valid start (message "ann" 1).
Definition timer : debounce_timer := MkDebounceTimer "clicks" "clicks.ann" 5000.

(** She clicked again, then bob, whose timer came. *)
Definition two_clicks : debw := deb_run fmt valid [message "bob" 4; DTimer 3] (deb_step fmt valid one_click (message "ann" 3)).

(** Her timer reads the window and starts the run; her second click extends
    the window; the timer deletes it. *)
Definition race : debw * list (io debE unit) :=
  drive (exec valid) [0; 0; 0; 1; 1; 1; 0]%nat
    (one_click, deb_program fmt <$> [ClientTimer timer 1; ClientMessage (6 * Second) clicks (Some (RawJson (click "ann" 6)))]).
End DebounceDemo.

Lemma debounced_once_witness :
  deb_step DebounceDemo.fmt DebounceDemo.valid DebounceDemo.two_clicks (DTimer 1) = DebounceDemo.two_clicks ∧
  dw_started (deb_step DebounceDemo.fmt DebounceDemo.valid DebounceDemo.two_clicks (DTimer (S (length (dw_timers DebounceDemo.one_click))))) =
  dw_started DebounceDemo.two_clicks ++
  [MkSubjectStart (tg_ID DebounceDemo.clicks) (tg_WorkflowID DebounceDemo.clicks) (Some (RawJson (DebounceDemo.click "ann" 3)))].
Proof.
  destruct (debounced_once DebounceDemo.fmt DebounceDemo.valid DebounceDemo.one_click (3 * Second) DebounceDemo.clicks
    (MkDebounceConfig (5 * Second) 0 "user") (DebounceDemo.click "ann" 3) "clicks.ann"
    [DebounceDemo.message "bob" 4; DTimer 3] []) as (_ & H1 & H2 & _).
  - discriminate.
  - vm_compute. reflexivity.
  - vm_compute. reflexivity.
  - reflexivity.
  - vm_compute. reflexivity.
  - reflexivity.
  - vm_compute. by left.
  - constructor; [|constructor; [|constructor]].
    + intros _ _ H. vm_compute in H. discriminate.
    + vm_compute. discriminate.
  - split; [|exact H2]. apply (H1 1%nat DebounceDemo.timer); [vm_compute; discriminate|vm_compute; reflexivity|reflexivity].
Defined.

(** ** Messages the code loses *)

(** A message that extends the window while its timer is between the read
    and the delete is lost: the window goes with it, the message started no run
    and its own timer finds nothing. *)
Theorem debounced_event_lost :
  rtc (pool_step (deb_reply DebounceDemo.valid) eq)
    (DebounceDemo.one_click, deb_program DebounceDemo.fmt <$>
       [ClientTimer DebounceDemo.timer 1; ClientMessage (6 * Second) DebounceDemo.clicks (Some (RawJson (DebounceDemo.click "ann" 6)))])
    DebounceDemo.race ∧
  DebounceDemo.race.2 = [Done (Ret tt); Done (Ret tt)] ∧ dw_windows DebounceDemo.race.1 = ∅ ∧
  dw_started DebounceDemo.race.1 = [MkSubjectStart "clicks" "wf" (Some (RawJson (DebounceDemo.click "ann" 1)))] ∧
  deb_step DebounceDemo.fmt DebounceDemo.valid DebounceDemo.race.1 (DTimer 2) = DebounceDemo.race.1.
Proof.
  split; [|split_and!; vm_compute; reflexivity]. apply drive_rtc. intros R w e. left. by destruct (exec DebounceDemo.valid R w e).
Qed.

(** An empty message on the subject of a trigger that debounces by a field
    of its messages makes the handler panic. *)
Theorem empty_message_panics (fmt_float : f64 → string) (valid : string → bool) (now : Time) (def : TriggerDef)
    (d : DebounceConfig) (w : debw) :
  tg_ID def ≠ "" → tg_Enabled def = true → tg_Debounce def = Some d → db_Key d ≠ "" →
  is_panic (run_prog (exec valid) w (handleMessage fmt_float now def (Some (RawBad "")))).2 = true.
Proof.
  intros Hid He Hd Hk. unfold handleMessage, DebounceOrFire, debounceKey. rewrite He, Hd. cbn [negb raw_empty].
  destruct (tg_ID def); [done|]. unfold ExtractDotPath. by destruct (db_Key d).
Qed.

(** A message whose field gives a key the bucket refuses is dropped: no
    window, no timer, no run. *)
Theorem invalid_key_dropped (fmt_float : f64 → string) (valid : string → bool) (now : Time) (def : TriggerDef)
    (d : DebounceConfig) (msg : option raw) (key : string) (w : debw) :
  tg_Debounce def = Some d → debounceKey fmt_float def (message_data msg) = Ret key → valid key = false →
  (run_prog (exec valid) w (handleMessage fmt_float now def msg)).1 = w.
Proof.
  intros Hd Hk Hv. unfold handleMessage. destruct (tg_Enabled def); [|done]. cbn [negb]. fold (message_data msg).
  rewrite run_prog_bind. unfold DebounceOrFire. rewrite Hd, run_io_bind, Hk. cbn. by rewrite Hv.
Qed.

(** ** Chains of runs *)

(** The depths of runs that triggers on the ends of runs lead to, from runs
    started otherwise: a run's event carries the depth of the run. *)
Inductive chained (sha256hex : string → string) : Z → Prop :=
  | chained_root : chained sha256hex 0
  | chained_hop def evt acked s disp :
      chained sha256hex (re_TriggerDepth evt) → handleRunEvent sha256hex def (Ret evt) acked = Ret (Some s, disp) →
      chained sha256hex (cs_TriggerDepth s).

(** C25: a run event starts a run only of a trigger that watches its
    workflow and status; the run is one level deeper than its source and at most
    eight deep, so no cycle of triggers goes on for ever; a valid trigger does
    not start the workflow it watches; and a redelivered event names the same
    run, whatever became of the first publish. *)
Theorem chained_run (sha256hex : string → string) (def : TriggerDef) (rt : RunTerminalConfig) (evt : RunEvent) (acked : bool)
    (s : chain_start) (disp : disposition) :
  tg_RunTerminal def = Some rt → chained sha256hex (re_TriggerDepth evt) →
  handleRunEvent sha256hex def (Ret evt) acked = Ret (Some s, disp) →
  re_WorkflowID evt = rt_Workflow rt ∧ re_Status evt ∈ EffectiveStatuses rt ∧
  cs_TriggerDepth s = re_TriggerDepth evt + 1 ∧ 1 ≤ cs_TriggerDepth s ≤ 8 ∧
  (terminal_ok (tg_WorkflowID def) rt → cs_WorkflowID s ≠ re_WorkflowID evt) ∧
  ∀ acked' s' disp', handleRunEvent sha256hex def (Ret evt) acked' = Ret (Some s', disp') → s' = s.
Proof.
  intros Hrt Hch. assert (0 ≤ re_TriggerDepth evt ≤ 8) as Hd.
  { revert Hch. generalize (re_TriggerDepth evt). intros z Hch. induction Hch as [|d e a s0 di Hch IH H]; [lia|]. unfold handleRunEvent in H.
    destruct (tg_RunTerminal d); [|done]. do 2 (case_match; [done|]). rewrite wrap64_id in H by (unfold in_int64, int64_min, int64_max; lia).
    destruct (TriggerDepthMax <? _) eqn:Hm; [done|]. apply Z.ltb_ge in Hm. unfold TriggerDepthMax in Hm.
    apply bind_ret_iff in H as ([s1 ok] & Hf & [= <- _]). unfold fireRunTerminal in Hf.
    apply bind_unit_ret_iff in Hf as [_ (rid & _ & [_ [= <- _]]%bind_unit_ret_iff)%bind_ret_iff]. cbn. lia. }
  unfold handleRunEvent. rewrite Hrt. case_bool_decide as Hw; cbn [negb]; [|done]. destruct (matchesStatus rt (re_Status evt)) eqn:Hs; cbn [negb]; [|done].
  rewrite wrap64_id by (unfold in_int64, int64_min, int64_max; lia).
  destruct (TriggerDepthMax <? _) eqn:Hm; [done|]. apply Z.ltb_ge in Hm. unfold TriggerDepthMax in Hm.
  intros ([s1 ok] & Hf & [= <- <-])%bind_ret_iff. unfold fireRunTerminal in Hf.
  apply bind_unit_ret_iff in Hf as [_ (r & Hr & [_ [= <- <-]]%bind_unit_ret_iff)%bind_ret_iff]. cbn. split_and!; [done| |done|lia|lia| |].
  - apply existsb_exists in Hs as (x & Hx & <-%bool_decide_eq_true). by apply list_elem_of_In.
  - intros (_ & _ & _ & Hne & _). congruence.
  - intros acked' s' disp' ([s2 ok2] & Hf & [= <- <-])%bind_ret_iff. unfold fireRunTerminal in Hf.
    apply bind_unit_ret_iff in Hf as [_ (r' & Hr' & [_ [= <- <-]]%bind_unit_ret_iff)%bind_ret_iff]. congruence.
Qed.

Module ChainDemo.

Definition hash (s : string) : string := "0123456789abcdef0123456789abcdef".
Definition watch : RunTerminalConfig := MkRunTerminal "build" ["completed"].
Definition offload : TriggerDef := MkTriggerDef "offload" "copy-logs" true None None None None None (Some watch) None "".
Definition finished : RunEvent := MkRunEvent "completed" "r1" "build" "completed" 0 (Some Minute) ∅ "" 0.

Definition copy : chain_start :=
  MkChainStart "trg0123456789abcdef0123" "trig-offload-r1" "run_terminal" "offload" "copy-logs" (MkChainInput "r1" "build" "completed" ∅) 1.
End ChainDemo.

Lemma chained_run_witness :
  cs_TriggerDepth ChainDemo.copy = 1 ∧ cs_WorkflowID ChainDemo.copy ≠ re_WorkflowID ChainDemo.finished.
Proof.
  destruct (chained_run ChainDemo.hash ChainDemo.offload ChainDemo.watch ChainDemo.finished true ChainDemo.copy Ack)
    as (_ & _ & Hd & _ & Hne & _).
  - reflexivity.
  - apply chained_root.
  - vm_compute. reflexivity.
  - split; [exact Hd|]. apply Hne. split_and!; [discriminate|reflexivity|reflexivity|discriminate|].
    intros x [-> |[]%elem_of_nil]%elem_of_cons. apply list_elem_of_here.
Defined.
